(* ===== verification/_CoqProject ===== *)
-Q . S2P
Prelude.v
FastMap.v
Encoding.v
Ring.v
SendQueue.v
Rc.v
RcBatch.v
RcMessages.v
RcWire.v
RcProps.v
RcContext.v
RcRaw.v
Protocol.v
Mapping.v
Pool.v
Store.v
Routing.v
Onesided.v
Wqe.v
Emit.v
EmitBlocks.v
Srq.v
DirtyList.v
Dc.v
DcProps.v
DcContext.v
Cq.v
Mpsc.v
Fastforward.v
FetchAdd.v
Bbq.v
Jiffy.v
Lamport.v
Scheduler.v
Server.v
ServerProps.v
ServerInv.v
ServerWarmup.v
Client.v
ClientProps.v
EndToEnd.v
Ipc.v
IpcProps.v
IpcServer.v
Flux.v
FluxProps.v
RecvQueue.v
QueuePair.v
QpProps.v
QpBuilder.v
Connection.v
QpWorld.v
TmSrq.v
Daemon.v
FsClient.v
FsFfi.v
FsProps.v
