(* ===== verification/Prelude.v ===== *)
(** * Locasta verification library

    Locasta is a set of Rust crates for remote procedure calls on clusters with
    mlx5 network adapters, and a chunk-storing file system on top of them.  This
    library models the parts that carry the protocols, as functions and step
    relations translated from the sources, and proves what makes them correct.

    ** The program and the files of the library

    - [copyrpc] sends requests and responses by RDMA WRITE+IMM into the peer's
      receive ring.  A batch is 32 bytes of flow metadata (ring credit returned,
      credit grant, message count) followed by padded messages; the immediate
      value carries the length.  [call] needs ring space for the request and
      reserves credit for the largest response its caller allows; [reply] never
      blocks, because that credit was granted.  At the end of the ring a wrap
      message sends both sides to the next cycle.
      -- [Encoding] ([encoding.rs]): immediate values, headers, metadata, as bytes;
      -- [Ring] ([ring.rs]): virtual positions, space accounting, split writes;
      -- [Rc] ([rc.rs], [error.rs]): the endpoint record and [call], [reply],
         [flush], [emit_wqe], [emit_wrap], [fill_metadata],
         [handle_wrap_if_needed], [connect_ex] and [process_cqe_static] (here
         [process_cqe]) in the state-and-error monad of this file;
      -- [RcBatch], [RcMessages]: the endpoint invariant, the batch as abstract
         messages, what each operation posts; [RcWire]: the device that reads the
         posted requests off the send queue, gathers their bytes and writes them
         to the peer's ring; [RcProps]: the properties;
      -- [RcContext] ([rc.rs]): the context, with endpoints shared by reference
         (a heap and indices into it), [poll], [recv], the dirty queue and the
         receive-buffer accounting; [RcRaw] ([rc.rs]): one-sided reads and writes;
      -- [DirtyList], [Dc], [DcProps], [DcContext] ([dc.rs]): the same protocol
         over dynamically connected transport, where all endpoints of a context
         share one send queue: the intrusive list of dirty endpoints, batches and
         deferred wraps, credit return, and the context with its two pollers and
         the flush loop.
    - [mlx5] posts work requests and polls completions.
      -- [SendQueue] ([wqe/emit.rs], [wqe/mod.rs]): the ring of 64-byte blocks
         with 16-bit indices, NOP padding at its end, the inline WRITE+IMM arms of
         [emit_wqe!], doorbell and completion table; [Rc] calls it;
      -- [Wqe] ([wqe/mod.rs]), [Emit] ([wqe/emit.rs]): the segments of a work
         request as bytes, and every direct-emission arm of the RC, DCI, UD and
         tag-matching macros on a byte ring; [Dc] calls it; [EmitBlocks] relates
         the byte ring to the block ring;
      -- [Srq] ([srq.rs]): the shared receive queue with its doorbell and
         BlueFlame batches;
      -- [Cq] ([cq.rs], [mono_cq.rs]): completion entries and compressed blocks as
         bytes, the general and the monomorphic queue, dispatch to queues;
      -- [RecvQueue] ([qp/mod.rs], [ud/mod.rs], [wqe/emit.rs]): the receive queue of
         a queue pair with its doorbells, batches and copies to the BlueFlame
         register, once for both copies of the code;
      -- [QueuePair] ([qp/mod.rs], [ud/mod.rs], [dc/mod.rs], [transport.rs]): the
         state transitions of RC, UD and DC queue pairs, direct access to their
         rings, the send queue with its doorbells and batch, and the completion
         handlers of every type; [QpProps]: its properties;
      -- [QpBuilder] (the builders in the same files, [builder_common.rs]): every
         build variant of the queue pairs;
      -- [QpWorld] ([cq.rs], [mono_cq.rs], [lib.rs]): queue pairs as objects with
         reference counts on a completion queue: registration, the cache, [Drop]
         and both polls, over the classes [CompletionTarget] and
         [CompletionSource] of the code;
      -- [TmSrq] ([tm_srq/mod.rs], [wqe/mod.rs]): the tag-matching shared receive
         queue, over the table for completions in any order.
    - [fastmap] is the map from queue numbers to endpoints.  [FastMap]
      ([lib.rs]): the offset-indexed vector, refined to a finite map.
    - [scalerpc] shares a pool of message slots between many clients, a group of
      clients at a time.  A client of a waiting group writes its requests to a
      warmup buffer of its own and announces them in an endpoint entry of the
      server, which reads the buffer when it makes the group current; a context
      switch event tells the clients where they stand.
      -- [Protocol] ([protocol.rs], and the slots written by [client.rs] and polled
         by [server.rs]): packed headers, flags, message trailer;
      -- [Mapping] ([mapping.rs]): connections and the slots they own; [Pool]
         ([pool.rs]): slot states, free list and handles;
      -- [Scheduler] ([mapping.rs]): groups, time slices and their order;
      -- [Server] ([server.rs]): the server record and its handlers: polling of
         endpoint entries and slots, [process], responses, the warmup reads and
         the context switch, [poll], connections; the queue pairs it posts to are
         memories of the connections.  [ServerProps], [ServerInv],
         [ServerWarmup]: its loops, its invariant, its switch;
      -- [Client] ([client.rs]): the connection states, the credit window, the
         pending calls and [poll]; [ClientProps]: its properties;
      -- [EndToEnd]: a client and the server composed through the memory they
         write to;
      -- [Connection] ([connection.rs], [config.rs]): connections over [QueuePair] and
         [QpBuilder].
    - [aggfs] stores file chunks on daemons.  A client asks the daemon of its node,
      which serves the request or forwards it to the daemon of the chunk; that one
      moves the data to or from the client's buffer by RDMA.
      -- [Store] ([store.rs]): the chunk table over a persistent-memory region;
         [Routing] ([routing.rs]): the number-aware path hash and the placement of
         chunks;
      -- [Daemon] ([bin/aggfsd.rs], [message.rs]): the event loop of a daemon, turn by
         turn, over what the transports deliver;
      -- [FsClient] ([client.rs]): descriptors, and reads and writes cut at chunk
         boundaries; [FsFfi] ([ffi.rs]): the C interface;
      -- [FsProps]: the daemons of a cluster and their clients, composed.
    - [mempc] connects threads: callers with a ring each, or one shared, and a
      server.
      -- [Onesided] ([onesided.rs]): rings with a generation per slot, callers and
         a scanning server, with the memory accesses of the two sides interleaved;
      -- [Mpsc] ([lib.rs], [user_data.rs]): the caller interface as a class with
         its laws, and the user-data adapter over any transport that has them;
      -- [Fastforward] ([fastforward.rs]): rings with validity flags, an instance
         of the laws;
      -- [FetchAdd] ([fetch_add.rs], [common.rs]): the request ring shared by all
         callers, with the memory accesses of any number of callers and the server
         interleaved, and the response rings;
      -- [Bbq] ([bbq.rs]): the ring of blocks, with the memory accesses of any
         number of callers and of the server interleaved;
      -- [Jiffy] ([jiffy.rs]): the list of buffers that grows as positions are
         claimed, interleaved in the same way;
      -- [Lamport] ([lamport.rs]): rings with cached, batch-published indices.
    - [ipc] is calls over shared memory on the rings of [Onesided].  [Ipc]
      ([lib.rs]): the layout of the region, the server, clients; [IpcProps]: a
      client and the server with their memory accesses interleaved; [IpcServer]:
      the server over all its clients, blocking calls.
    - [inproc] connects all pairs of threads.  [Flux] ([flux.rs]): the network of
      nodes, over [Onesided] and the adapter of [Mpsc]; [FluxProps]: its executions.
    - This file: machine integers, byte buffers, the monad [M] with its [wp]
      calculus and the frame calculus [respects], shared tactics and hints.

    ** How code becomes definitions

    A w-bit unsigned integer is a [Z]; arithmetic that wraps in the code is
    written with [u16], [u32], [u64].  A pointer into a buffer is the buffer with
    an offset.  [None] is a panic or a raw-pointer access outside its buffer,
    [Err] an early return, which keeps the effects that precede it.  The slab
    crate is a parameter, the class [Rc.SlabOps] with its documented contract
    [Rc.SlabLaws], and [RcProps] gives an instance.  [Weak::upgrade] is a
    parameter of [Cq.poll] and a test of the reference count in [QpWorld].  The
    calls of the verbs library are parameters: [ibv_modify_qp] with its documented
    behaviour as the class [QpProps.VerbsLaws] and an instance that insists on the
    attributes the manual requires, [mlx5dv_create_qp] and [mlx5dv_init_obj] with
    the rings they report.  What a doorbell does is the list of stores and barriers
    the device sees.  Memory shared by threads is sequentially consistent.

    ** What the theorems show

    - [RcProps.flow_control_invariant]: after any sequence of calls, replies
      within their allowance, flushes and received batches, whatever they return,
      bytes in flight plus the reserved responses fit in the peer's ring, unless a
      call or reply was refused after it had to wrap;
      [RcProps.batch_delivery]: [flush], then the device on what it was shown, then
      the receiver: the same messages, and both sides in step ([wrap_delivery]: the
      wrap message); [RcProps.call_correct], [reply_correct], [flush_correct]: the
      operations on every branch, with the requests they leave in the send queue;
      [call_reply_roundtrip]: a call and its reply run through both endpoints.
    - [RcContext]: an endpoint is queued for flushing exactly while it is marked,
      the flush loop ends, receive buffers are accounted for.  [RcRaw]: the count of
      pending one-sided operations covers those in the queue, and every refused post.
    - [DcProps], [DcContext]: a DC batch is decoded into exactly its messages;
      [call], [reply], flush and wrap on every branch; the flush of all dirty
      endpoints ends, posts every batch or leaves it open, and forgets no endpoint;
      receive buffers are refilled.
    - [Emit], [EmitBlocks]: every emission arm equals one reference emitter; an
      emission stores the whole request where the device finds it, or reports a
      full queue; the byte level refines the block level.
    - [Srq]: the queue is a bounded first-in first-out queue.  [Cq]: every
      completion is handed out once and in order across laps, for any interleaving
      of device and program, and the dispatch cache is invisible.
    - [RecvQueue]: over any posts, doorbells and completions the queue is a bounded
      first-in first-out queue, and the doorbell record gets the number of posts;
      where the BlueFlame copy stays in the ring; a
      datagram batch is its posts, an RC batch leaves the ring unwritten.
      [QpProps]: the recorded state is the device's and follows the state machine;
      a connection attempt on every branch; two connected queue pairs point at each
      other; the BlueFlame doorbell shows the device the request emitted last.
      [QpBuilder]: what [build] returns satisfies the invariants of the queues.
      [QpWorld]: polling gives each queue pair its own entries in order, for as
      long as the program holds it, and drops a cached last reference twice.
      [TmSrq]: the bitmap is a set of blocks; in posting order the queue is a
      first-in first-out queue, in another order posts overwrite requests.
    - [SendQueue]: work requests occupy contiguous free blocks, or the queue is
      reported full and left unchanged; completions free exactly what precedes.
    - [FastMap]: every operation is the finite-map operation.
    - [Protocol], [Encoding]: round trips of the wire formats and of a request
      slot; a trailer never publishes a length it has not stored.
    - [Mapping], [Pool]: the tables agree, and no slot is handed out twice, in
      every reachable state.
    - [Scheduler], [ServerInv]: every group gets its turn; connections, groups and
      slots agree after every step of the server.  [ServerProps]: the request loop
      ends with nothing left to handle.  [ServerWarmup]: a switch forgets what is
      left of the old group.
    - [ClientProps]: calls in the credit window use slots of their own; an
      announcement names exactly the requests written since the last; the moves of
      a connection between its states.
    - [EndToEnd]: what a client announces the server handles, once per request
      and in order; the response to a call is the one its caller receives.
    - [Store]: chunks lie in the region and are disjoint as long as operations
      respect the capacities the chunks were allocated with; what is written is read back and nothing else changes.
    - [Routing]: chunks of a file, and consecutively numbered files, go to
      consecutive daemons.
    - [FsProps]: what a client writes anywhere in a file, a client of any daemon reads
      back, and nothing else changes; where requests go with several daemons per
      node.  [FsFfi]: descriptors are given and taken back.  [Connection]: an endpoint
      is recorded exactly when the queue pair is ready, and two connections that
      exchange theirs point at each other.
    - [Onesided]: in every interleaving requests and responses arrive in order,
      intact and once; the server's scan is fair and complete.
    - [Mpsc], [Fastforward]: the adapter returns user data once and in order on
      any transport with the laws; FastForward refines a queue specification and
      has the laws.  [FetchAdd]: the shared ring is linearisable, writers have
      slots of their own, tokens match.  [Bbq]: the ring of blocks loses and
      duplicates nothing in any interleaving; a head overtaken while no push is
      past its version test, with the server caught up, refuses every caller for
      ever.  [Jiffy]: what is received is a prefix of what was claimed, with the tokens of the calls; a call is wait-free, a receive returns
      the next claim when it is published; no buffer is freed before the queue is.  [Lamport]: the ring with caches equals
      the queue without, also when positions wrap around.
    - [IpcProps]: the areas of the region are disjoint; in every interleaving, with
      replies in any order, each call gets its own response and user data, and
      nothing panics.  [IpcServer]: a poll and the receives after it hand out every
      waiting request; a blocking call returns its reply.
    - [FluxProps]: in-order one-sided channels have the laws of the adapter; what a
      node receives from another is what that one sent, in order.

    Some theorems are closed runs that mark the edge of the others: a wrap in
    the last block of the ring, calls refused after they have wrapped, a file
    removed, or created again with larger chunks, while chunks of it stay, a
    zero-copy write beyond its room, path names with equal hashes,
    an in-flight limit above the ring depth, tokens reused under deferred
    replies, credit returned twice into a full ring, a receive poller that
    starves, a compressed block whose count is its lap, a ring of one slot, a
    response dropped between the two stores of a publication, a batch
    acknowledged with a number the client does not expect, an event that
    overwrites a request, a response slot reused while its first call waits, user
    data confused by late replies, client numbers that are not given again, a
    receive error that completes a tag command, bytes lost among daemons of one node,
    a file size that misses chunks, a chunk size only one daemon knows,
    a claim that falls into the next lap, a ring that refuses although it is empty.

    ** Bounds and fuel

    Ring sizes are powers of two; positions are unbounded where the code's
    64-bit counters cannot wrap in practice ([Ring], [Rc], [Dc]: positions below
    2^64; [FetchAdd], [Jiffy]: below 2^62) and wrap where the code wraps on purpose
    ([SendQueue], [Emit], [Srq], [Cq], [Onesided], [Lamport], [RecvQueue],
    [TmSrq]).  Send queues have 2^6 bytes to 2^31; receive queues have at most
    2^15 requests, so that 16-bit indices tell full from empty; the shared ring of
    [FetchAdd] has two slots or more; the ring of [Bbq] has fewer than 2^32 entries,
    and so many claims at most are made in one lap of a block.

    Loops with fuel: [RcContext.flush_loop], one unit per queued endpoint and one
    more is enough ([RcContext.flush_endpoints_terminates]);
    [DcContext.flush_loop], two per dirty endpoint and one more;
    [Mpsc.with_poll_loop], one per pending call and one more (its tokens may
    repeat after a number of calls that the adapter's slots divide);
    [Cq.poll_raw], [QpWorld.poll] and [QpWorld.mono_poll], one per completion and
    one more; [Server.process_loop], one per request held and one more
    ([ServerProps.process_drains]); [RecvQueue.bf_copy], one per block copied, four
    at most; [QpWorld.rc_drop], three, for the drop of a cached reference inside a
    drop; [FsClient.pwrite_loop] and [pread_loop], one per byte and one more, though
    they need one per chunk; the waits of [FetchAdd], of [Bbq] ([push_run],
    [serve_run], [reply]) and of clients in [Ipc], where running out of
    fuel is spinning, and what happens meanwhile is a parameter of [Ipc.call].
    [Jiffy.enqueue] needs the accesses of [jiffy_wait_free], [Jiffy.try_dequeue] one
    per buffer and one more.  [Routing.koyama_loop] consumes a character per unit and starts with the length
    of the name.

    ** Not modelled

    The creation of completion queues, keys and memory regions through system calls; the
    macro [emit_wqe_bf], which reads a pointer and calls methods that no one type of
    the crate has both of, and of which only the batch buffer is modelled; the files
    [builder.rs] under [qp], [ud], [dc] and [tm_srq] of mlx5, which no module
    declares; the lock-free
    multi-producer queues of mempc other than fetch-add, the ring of blocks and Jiffy, whose memory orderings
    and double-width exchanges a sequentially consistent model would hide; the
    exchange of endpoint data over MPI and the command line of aggfs; benchmark drivers and bindings. *)

From stdpp Require Export base tactics numbers list option gmap.
From Stdlib Require Export ZArith Lia.

#[global] Set Default Goal Selector "!".
#[global] Open Scope Z_scope.

(** ** Machine integers

    A w-bit unsigned integer is a [Z] in [0, 2^w); the wrap-around of the
    release build is written out with [wrap]. *)

Definition wrap (w x : Z) : Z := x mod 2 ^ w.
Definition u8 (x : Z) : Z := wrap 8 x.
Definition u16 (x : Z) : Z := wrap 16 x.
Definition u32 (x : Z) : Z := wrap 32 x.
Definition u64 (x : Z) : Z := wrap 64 x.

Definition U16_MAX : Z := 65535.
Definition U32_MAX : Z := 4294967295.
Definition U64_MAX : Z := 18446744073709551615.

(** [is_uint w x]: [x] is a value of the w-bit unsigned type. *)
Definition is_uint (w x : Z) : Prop := 0 <= x < 2 ^ w.

(** Rust's [!x] on [u64]. *)
Definition not64 (x : Z) : Z := U64_MAX - x.
(** Rust's [!x] on [u32]. *)
Definition not32 (x : Z) : Z := U32_MAX - x.

Definition saturating_sub (a b : Z) : Z := Z.max 0 (a - b).

(** [x] rounded up to a multiple of the power of two [a], as the code writes
    it: [(x + a - 1) & !(a - 1)]. *)
Definition align_up_mask (x a : Z) : Z := Z.land (x + a - 1) (not64 (a - 1)).

Definition is_power_of_two (n : Z) : bool := (0 <? n) && (n =? 2 ^ Z.log2 n).

(** ** Fallible, stateful code

    A Rust function with [&self]/[&mut self] access to a state [S] that returns
    [Result<A, E>] is a [M S E A]: [None] is a panic, otherwise the new state
    and the result, so that the effects performed before an early [return Err]
    are kept. *)

Inductive result (A E : Type) : Type :=
| Ok (a : A)
| Err (e : E).
Arguments Ok {A E} _.
Arguments Err {A E} _.

Definition is_ok {A E} (r : result A E) : bool :=
  match r with Ok _ => true | Err _ => false end.

Definition M (S E A : Type) : Type := S -> option (S * result A E).

Definition p_ret {S E A} (a : A) : M S E A := fun s => Some (s, Ok a).
Definition p_fail {S E A} (e : E) : M S E A := fun s => Some (s, Err e).
Definition p_panic {S E A} : M S E A := fun _ => None.
Definition p_bind {S E A B} (m : M S E A) (k : A -> M S E B) : M S E B :=
  fun s => match m s with
           | None => None
           | Some (s', Ok a) => k a s'
           | Some (s', Err e) => Some (s', Err e)
           end.
Definition p_get {S E} : M S E S := fun s => Some (s, Ok s).
Definition p_modify {S E} (f : S -> S) : M S E unit := fun s => Some (f s, Ok tt).
(** A slice or index expression that panics out of range. *)
Definition p_unwrap {S E A} (o : option A) : M S E A :=
  match o with Some a => p_ret a | None => p_panic end.
(** [assert!]. *)
Definition p_assert {S E} (b : bool) : M S E unit :=
  if b then p_ret tt else p_panic.

Declare Scope prog_scope.
Delimit Scope prog_scope with prog.
Notation "'let*' x := m 'in' k" := (p_bind m (fun x => k))
  (at level 10, x name, m at level 100, k at level 200) : prog_scope.
Notation "m ';;;' k" := (p_bind m (fun _ => k))
  (at level 100, k at level 200, right associativity) : prog_scope.

(** ** Bytes and buffers *)

(** Little-endian encoding of the low [8 * n] bits of [z]. *)
Fixpoint le_bytes (n : nat) (z : Z) : list Z :=
  match n with
  | O => []
  | S n => z mod 256 :: le_bytes n (z / 256)
  end.

Fixpoint le_value (bs : list Z) : Z :=
  match bs with
  | [] => 0
  | b :: bs => b + 256 * le_value bs
  end.

(** [n] bytes of [buf] from offset [off]. *)
Definition read_bytes (buf : list Z) (off n : nat) : list Z := take n (drop off buf).

(** [data] stored in [buf] from offset [off]; [ptr::write] and
    [copy_nonoverlapping] through a pointer into the buffer. *)
Definition write_bytes (buf : list Z) (off : nat) (data : list Z) : list Z :=
  take off buf ++ take (length buf - off) data ++ drop (off + length data) buf.

(** [&buf[a..b]]: panics when [a > b] or [b > len]. *)
Definition slice (buf : list Z) (a b : Z) : option (list Z) :=
  if (0 <=? a) && (a <=? b) && (b <=? Z.of_nat (length buf))
  then Some (read_bytes buf (Z.to_nat a) (Z.to_nat (b - a)))
  else None.

Create Rewrite HintDb bytes.
Create Rewrite HintDb word.

(** ** Lemmas: machine integers *)

Lemma wrap_small w x : is_uint w x -> wrap w x = x.
Proof. apply Z.mod_small. Qed.

Lemma wrap_is_uint w x : 0 <= w -> is_uint w (wrap w x).
Proof. intros Hw. apply Z.mod_pos_bound, Z.pow_pos_nonneg; lia. Qed.

Lemma u16_small x : 0 <= x < 2 ^ 16 -> u16 x = x.
Proof. apply wrap_small. Qed.

Lemma u32_small x : 0 <= x < 2 ^ 32 -> u32 x = x.
Proof. apply wrap_small. Qed.

Lemma u64_small x : 0 <= x < 2 ^ 64 -> u64 x = x.
Proof. apply wrap_small. Qed.

Lemma u32_succ x : u32 (u32 x + 1) = u32 (x + 1).
Proof. unfold u32, wrap. by rewrite Zplus_mod_idemp_l. Qed.

Lemma seqZ_succ n : 0 <= n -> seqZ 0 (n + 1) = seqZ 0 n ++ [n].
Proof. intros H. by rewrite seqZ_app by lia. Qed.

Lemma u16_range x : 0 <= u16 x < 2 ^ 16.
Proof. by apply (wrap_is_uint 16). Qed.

Lemma u32_range x : 0 <= u32 x < 2 ^ 32.
Proof. by apply (wrap_is_uint 32). Qed.

Lemma u64_range x : 0 <= u64 x < 2 ^ 64.
Proof. by apply (wrap_is_uint 64). Qed.

Lemma saturating_sub_le a b : b <= a -> saturating_sub a b = a - b.
Proof. unfold saturating_sub. lia. Qed.

Lemma land_mask x k : 0 <= k -> Z.land x (2 ^ k - 1) = x mod 2 ^ k.
Proof.
  intros Hk. rewrite <-Z.land_ones by lia. f_equal.
  rewrite Z.ones_equiv. lia.
Qed.

(** Fields packed by shift and or. *)
Lemma lor_shiftl a b k : 0 <= k -> 0 <= b < 2 ^ k -> Z.lor (Z.shiftl a k) b = a * 2 ^ k + b.
Proof.
  intros Hk Hb. rewrite Z.shiftl_mul_pow2 by done.
  symmetry. apply Z.add_nocarry_lor. apply Z.bits_inj'. intros n Hn.
  rewrite Z.land_spec, Z.bits_0. destruct (decide (n < k)).
  - by rewrite Z.mul_pow2_bits_low.
  - rewrite <-(Z.mod_small b (2 ^ k)) by done.
    rewrite Z.mod_pow2_bits_high by lia. apply andb_false_r.
Qed.

Lemma land_not64 x k :
  0 <= k <= 64 -> 0 <= x < 2 ^ 64 -> Z.land x (not64 (2 ^ k - 1)) = x - x mod 2 ^ k.
Proof.
  intros Hk Hx.
  assert (not64 (2 ^ k - 1) = Z.ldiff (Z.ones 64) (Z.ones k)) as ->.
  { rewrite <-Z.sub_nocarry_ldiff.
    - unfold not64, U64_MAX. rewrite !Z.ones_equiv. lia.
    - apply Z.bits_inj'. intros n Hn.
      rewrite Z.ldiff_spec, Z.bits_0, !Z.testbit_ones by lia. lia. }
  assert (Z.land x (Z.ldiff (Z.ones 64) (Z.ones k)) =
          Z.ldiff (Z.land x (Z.ones 64)) (Z.ones k)) as ->.
  { apply Z.bits_inj'. intros n Hn.
    by rewrite Z.ldiff_spec, !Z.land_spec, Z.ldiff_spec, andb_assoc. }
  rewrite Z.land_ones, Z.mod_small by lia.
  rewrite Z.ldiff_ones_r, Z.shiftr_div_pow2, Z.shiftl_mul_pow2 by lia.
  pose proof (Z.div_mod x (2 ^ k)). lia.
Qed.

Lemma align_up_mask_spec x k :
  0 <= k <= 63 -> 0 <= x -> x + 2 ^ k - 1 < 2 ^ 64 ->
  let r := align_up_mask x (2 ^ k) in
  x <= r < x + 2 ^ k /\ r mod 2 ^ k = 0.
Proof.
  intros Hk Hx Hlt. simpl. unfold align_up_mask.
  assert (0 < 2 ^ k) by (apply Z.pow_pos_nonneg; lia).
  rewrite land_not64 by lia.
  pose proof (Z.mod_pos_bound (x + 2 ^ k - 1) (2 ^ k)).
  split; [lia|].
  rewrite Zminus_mod, Z.mod_mod, Z.sub_diag by lia. by apply Z.mod_0_l; lia.
Qed.

Lemma is_power_of_two_spec n :
  is_power_of_two n = true -> exists k, 0 <= k /\ n = 2 ^ k.
Proof.
  unfold is_power_of_two. intros [? ?%Z.eqb_eq]%andb_true_iff.
  exists (Z.log2 n). split; [apply Z.log2_nonneg|done].
Qed.

(** Two multiples of [a] that differ by less than [a] are equal; the form in
    which alignment is used to turn [<] into [<= - a]. *)
Lemma aligned_lt_le a x y :
  0 < a -> x mod a = 0 -> y mod a = 0 -> x < y -> x + a <= y.
Proof.
  intros Ha Hx Hy Hlt.
  apply Z.mod_divide in Hx as [p ->]; [|lia].
  apply Z.mod_divide in Hy as [q ->]; [|lia].
  assert (p < q) by (apply (Z.mul_lt_mono_pos_r a); lia). nia.
Qed.

Lemma aligned_add a x y : x mod a = 0 -> y mod a = 0 -> (x + y) mod a = 0.
Proof.
  destruct (decide (a = 0)) as [->|]; [rewrite !Z.mod_0_r; lia|].
  intros Hx Hy. by rewrite Z.add_mod, Hx, Hy, Z.add_0_r, Z.mod_0_l.
Qed.

Lemma aligned_sub a x y : x mod a = 0 -> y mod a = 0 -> (x - y) mod a = 0.
Proof.
  destruct (decide (a = 0)) as [->|]; [rewrite !Z.mod_0_r; lia|].
  intros Hx Hy. by rewrite Zminus_mod, Hx, Hy, Z.sub_0_r, Z.mod_0_l.
Qed.

(** Masking keeps alignment when the mask covers it. *)
Lemma aligned_mod a x m : (a | m) -> x mod a = 0 -> (x mod m) mod a = 0.
Proof. intros Hdiv Hx. by rewrite Z.mod_mod_divide. Qed.

(** ** Lemmas: bytes and buffers *)

Lemma length_le_bytes n z : length (le_bytes n z) = n.
Proof. revert z. induction n; intros z; simpl; auto. Qed.

Lemma le_value_le_bytes n z : le_value (le_bytes n z) = z mod 2 ^ (8 * Z.of_nat n).
Proof.
  revert z. induction n as [|n IH]; intros z.
  - by rewrite Z.mod_1_r.
  - cbn [le_bytes le_value]. rewrite IH.
    replace (2 ^ (8 * Z.of_nat (S n))) with (256 * 2 ^ (8 * Z.of_nat n)).
    2:{ rewrite Nat2Z.inj_succ, Z.mul_succ_r, Z.pow_add_r by lia. lia. }
    rewrite Z.rem_mul_r by (apply Z.pow_nonzero || apply Z.pow_pos_nonneg || idtac; lia).
    lia.
Qed.

Lemma le_value_u32 z : le_value (le_bytes 4 z) = u32 z.
Proof. apply le_value_le_bytes. Qed.

Lemma le_value_u64 z : le_value (le_bytes 8 z) = u64 z.
Proof. apply le_value_le_bytes. Qed.

Lemma length_write_bytes buf off data :
  (off <= length buf)%nat -> length (write_bytes buf off data) = length buf.
Proof.
  intros H. unfold write_bytes.
  rewrite !length_app, !length_take, length_drop. lia.
Qed.

Lemma lookup_write_bytes buf off data i :
  (off + length data <= length buf)%nat ->
  write_bytes buf off data !! i =
    if decide (off <= i < off + length data)%nat then data !! (i - off)%nat else buf !! i.
Proof.
  intros H. unfold write_bytes. rewrite (take_ge data) by lia.
  case_decide as Hi.
  - rewrite lookup_app_r by (rewrite length_take; lia).
    rewrite length_take, Nat.min_l by lia.
    by rewrite lookup_app_l by lia.
  - destruct (decide (i < off)%nat).
    + rewrite lookup_app_l by (rewrite length_take; lia).
      by rewrite lookup_take_lt by lia.
    + rewrite lookup_app_r by (rewrite length_take; lia).
      rewrite length_take, Nat.min_l by lia.
      rewrite lookup_app_r by lia. rewrite lookup_drop. f_equal. lia.
Qed.

Lemma length_read_bytes buf off n :
  (off + n <= length buf)%nat -> length (read_bytes buf off n) = n.
Proof. intros H. unfold read_bytes. rewrite length_take, length_drop. lia. Qed.

Lemma lookup_read_bytes buf off n i :
  (i < n)%nat -> read_bytes buf off n !! i = buf !! (off + i)%nat.
Proof. intros H. unfold read_bytes. by rewrite lookup_take_lt, lookup_drop by done. Qed.

(** Two reads agree when the buffers agree on the range. *)
Lemma read_bytes_ext buf1 buf2 off1 off2 n :
  (forall i, (i < n)%nat -> buf1 !! (off1 + i)%nat = buf2 !! (off2 + i)%nat) ->
  read_bytes buf1 off1 n = read_bytes buf2 off2 n.
Proof.
  intros H. apply list_eq. intros i. unfold read_bytes.
  destruct (decide (i < n)%nat).
  - rewrite !lookup_take_lt, !lookup_drop by done. auto.
  - by rewrite !lookup_take_ge by lia.
Qed.

(** A read inside the range just written sees the written data. *)
Lemma read_write_in buf off data k n :
  (off + length data <= length buf)%nat -> (k + n <= length data)%nat ->
  read_bytes (write_bytes buf off data) (off + k) n = read_bytes data k n.
Proof.
  intros H Hk. apply read_bytes_ext. intros i Hi.
  rewrite lookup_write_bytes, decide_True by lia. f_equal. lia.
Qed.

Lemma read_bytes_all data : read_bytes data 0 (length data) = data.
Proof. unfold read_bytes. by rewrite drop_0, take_ge. Qed.

Lemma read_write_same buf off data :
  (off + length data <= length buf)%nat ->
  read_bytes (write_bytes buf off data) off (length data) = data.
Proof.
  intros H. rewrite <-(Nat.add_0_r off) at 2.
  by rewrite read_write_in, read_bytes_all by lia.
Qed.

Lemma read_write_n buf off data n :
  length data = n -> (off + n <= length buf)%nat ->
  read_bytes (write_bytes buf off data) off n = data.
Proof. intros <-. apply read_write_same. Qed.

(** A read outside the range just written sees the old bytes. *)
Lemma read_write_out buf off data off' n :
  (off + length data <= length buf)%nat ->
  (off' + n <= off \/ off + length data <= off')%nat ->
  read_bytes (write_bytes buf off data) off' n = read_bytes buf off' n.
Proof.
  intros H Hd. apply read_bytes_ext. intros i Hi.
  by rewrite lookup_write_bytes, decide_False by lia.
Qed.

Lemma read_bytes_app_l a b n k :
  (k + n <= length a)%nat -> read_bytes (a ++ b) k n = read_bytes a k n.
Proof.
  intros H. apply read_bytes_ext. intros i Hi. by rewrite lookup_app_l by lia.
Qed.

Lemma read_bytes_app_r a b n k :
  (length a <= k)%nat -> read_bytes (a ++ b) k n = read_bytes b (k - length a) n.
Proof.
  intros H. apply read_bytes_ext. intros i Hi.
  rewrite lookup_app_r by lia. f_equal. lia.
Qed.

(** Reads compose: a read of a read is a read. *)
Lemma read_bytes_read buf off n k m :
  (k + m <= n)%nat -> read_bytes (read_bytes buf off n) k m = read_bytes buf (off + k) m.
Proof.
  intros H. apply read_bytes_ext. intros i Hi.
  rewrite lookup_read_bytes by lia. f_equal. lia.
Qed.

Lemma slice_in buf a b :
  0 <= a <= b -> b <= Z.of_nat (length buf) ->
  slice buf a b = Some (read_bytes buf (Z.to_nat a) (Z.to_nat (b - a))).
Proof.
  intros H H'. unfold slice.
  replace (0 <=? a) with true by lia. replace (a <=? b) with true by lia.
  by replace (b <=? Z.of_nat (length buf)) with true by lia.
Qed.

#[export] Hint Rewrite length_le_bytes @length_app @length_take @length_drop
  @length_replicate : bytes.
#[export] Hint Rewrite u16_small u32_small u64_small using lia : word.

(** Arithmetic with every in-range wrap-around removed. *)
Ltac word := autorewrite with word in *; try lia.

(** Case analysis on the boolean guards of the code. *)
Ltac guards :=
  repeat match goal with
  | H : (_ && _) = true |- _ => apply andb_true_iff in H as [? ?]
  | H : (_ <? _) = true |- _ => apply Z.ltb_lt in H
  | H : (_ <? _) = false |- _ => apply Z.ltb_ge in H
  | H : (_ <=? _) = true |- _ => apply Z.leb_le in H
  | H : (_ <=? _) = false |- _ => apply Z.leb_gt in H
  | H : (_ =? _) = true |- _ => apply Z.eqb_eq in H
  | H : (_ =? _) = false |- _ => apply Z.eqb_neq in H
  | H : negb _ = true |- _ => apply negb_true_iff in H
  | H : negb _ = false |- _ => apply negb_false_iff in H
  end.

(** ** Weakest preconditions

    [wp m Q R s]: run from [s], [m] does not panic; if it returns [Ok a] the
    final state satisfies [Q a], if it returns [Err e] it satisfies [R e]. *)

Definition wp {S E A} (m : M S E A) (Q : A -> S -> Prop) (R : E -> S -> Prop) (s : S) : Prop :=
  match m s with
  | None => False
  | Some (s', Ok a) => Q a s'
  | Some (s', Err e) => R e s'
  end.

Section WP.
Context {S E A B : Type}.
Implicit Types (Q : A -> S -> Prop) (R : E -> S -> Prop) (s : S).

Lemma wp_bind (m : M S E A) (k : A -> M S E B) (Q : B -> S -> Prop) R s :
  wp m (fun a s' => wp (k a) Q R s') R s -> wp (p_bind m k) Q R s.
Proof. unfold wp, p_bind. by destruct (m s) as [[s' [a|e]]|]. Qed.

Lemma wp_ret (a : A) Q R s : Q a s -> wp (p_ret a) Q R s.
Proof. done. Qed.

Lemma wp_fail (e : E) Q R s : R e s -> wp (p_fail e) Q R s.
Proof. done. Qed.

Lemma wp_get (Q : S -> S -> Prop) R s : Q s s -> wp p_get Q R s.
Proof. done. Qed.

Lemma wp_modify f (Q : unit -> S -> Prop) R s : Q tt (f s) -> wp (p_modify f) Q R s.
Proof. done. Qed.

Lemma wp_unwrap (o : option A) a Q R s : o = Some a -> Q a s -> wp (p_unwrap o) Q R s.
Proof. by intros ->. Qed.

Lemma wp_mono (m : M S E A) Q Q' R R' s :
  wp m Q R s -> (forall a s', Q a s' -> Q' a s') -> (forall e s', R e s' -> R' e s') ->
  wp m Q' R' s.
Proof. unfold wp. intros H HQ HR. destruct (m s) as [[s' [a|e]]|]; auto. Qed.

(** [wp] is what the run does. *)
Lemma wp_run (m : M S E A) Q R s :
  wp m Q R s ->
  exists s' r, m s = Some (s', r) /\ match r with Ok a => Q a s' | Err e => R e s' end.
Proof. unfold wp. destruct (m s) as [[s' [a|e]]|]; intros H; [by eauto..|done]. Qed.

End WP.

(** One step of symbolic execution, by the head of the program. *)
Ltac wp_step :=
  lazymatch goal with
  | |- wp (p_bind _ _) _ _ _ => apply wp_bind
  | |- wp (p_ret _) _ _ _ => apply wp_ret
  | |- wp (p_fail _) _ _ _ => apply wp_fail
  | |- wp p_get _ _ _ => apply wp_get
  | |- wp (p_modify _) _ _ _ => apply wp_modify
  end.

(** ** Frames

    [respects R m]: every run of [m], successful or not, relates the state
    before to the state after by the preorder [R]. *)

Definition respects {S E A} (R : S -> S -> Prop) (m : M S E A) : Prop :=
  forall s s' r, m s = Some (s', r) -> R s s'.

Section Respects.
Context {S E : Type} (R : S -> S -> Prop) `{!PreOrder R}.

Lemma respects_ret {A} (a : A) : respects R (p_ret (E := E) a).
Proof. by intros s s' r [= <- <-]. Qed.

Lemma respects_fail {A} (e : E) : respects R (p_fail (A := A) e).
Proof. by intros s s' r [= <- <-]. Qed.

Lemma respects_panic {A} : respects R (p_panic (E := E) (A := A)).
Proof. done. Qed.

Lemma respects_get : respects R (p_get (E := E)).
Proof. by intros s s' r [= <- <-]. Qed.

Lemma respects_modify f : (forall s, R s (f s)) -> respects R (p_modify (E := E) f).
Proof. intros H s s' r [= <- <-]. apply H. Qed.

Lemma respects_unwrap {A} (o : option A) : respects R (p_unwrap (E := E) o).
Proof. destruct o; [apply respects_ret|apply respects_panic]. Qed.

Lemma respects_bind {A B} (m : M S E A) (k : A -> M S E B) :
  respects R m -> (forall a, respects R (k a)) -> respects R (p_bind m k).
Proof.
  intros Hm Hk s s' r. unfold p_bind. destruct (m s) as [[s1 [a|e]]|] eqn:E1; [| |done].
  - intros H2. etrans; [by eapply Hm|by eapply Hk].
  - intros [= <- <-]. by eapply Hm.
Qed.

End Respects.

Create HintDb frame.

(** Decompose a program into its primitive steps. *)
Ltac respects_step :=
  lazymatch goal with
  | |- respects _ (p_bind _ _) => apply respects_bind; [apply _| |intros ?]
  | |- respects _ (p_modify _) => apply respects_modify; intros ?
  | |- respects _ (if ?b then _ else _) => destruct b
  | |- respects _ (match ?x with _ => _ end) => destruct x
  | |- respects _ (p_ret _) => apply respects_ret; apply _
  | |- respects _ (p_fail _) => apply respects_fail; apply _
  | |- respects _ p_panic => apply respects_panic
  | |- respects _ p_get => apply respects_get; apply _
  | |- respects _ (p_unwrap _) => apply respects_unwrap; apply _
  | |- respects _ _ => solve [auto with frame]
  end.

