(* ===== verification/FastMap.v ===== *)
(** * FastMap: the offset-indexed map of [fastmap/src/lib.rs]

    [FastMap<V>] keeps [Vec<Option<V>>] plus the key [base] of index 0 and a
    counter [len].  Here are its operations as the code writes them, the
    invariant every operation keeps, and the refinement to a finite map
    [gmap Z V] ([to_map]). *)

From Stdlib Require Import Sorted.
From S2P Require Import Prelude.

Module FastMap.

(** [struct FastMap<V>]; [base] is a [u32], [len] a [usize]. *)
Record FastMap (V : Type) : Type := mkFastMap {
  entries : list (option V);
  base : Z;
  len : Z;
}.
Arguments mkFastMap {V} _ _ _.
Arguments entries {V} _.
Arguments base {V} _.
Arguments len {V} _.

Section Ops.
Context {V : Type}.
Implicit Types (m : FastMap V) (k : Z) (v : V).

Definition new : FastMap V := mkFastMap [] 0 0.

(** [Vec::resize_with(n, || None)] when it grows. *)
Definition resize_none (l : list (option V)) (n : nat) : list (option V) :=
  l ++ replicate (n - length l) None.

Definition is_none {A} (o : option A) : bool :=
  match o with None => true | Some _ => false end.

Definition insert m (key : Z) (value : V) : option V * FastMap V :=
  if (length (entries m) =? 0)%nat then
    (None, mkFastMap [Some value] key 1)
  else if key <? base m then
    let shift := Z.to_nat (base m - key) in
    let new_entries := replicate shift None ++ entries m in
    (None, mkFastMap (<[0%nat := Some value]> new_entries) key (len m + 1))
  else
    let offset := Z.to_nat (key - base m) in
    let entries1 :=
      if (length (entries m) <=? offset)%nat
      then resize_none (entries m) (offset + 1) else entries m in
    let old := default None (entries1 !! offset) in
    (old, mkFastMap (<[offset := Some value]> entries1) (base m)
            (if is_none old then len m + 1 else len m)).

Definition get m (key : Z) : option V :=
  if (length (entries m) =? 0)%nat || (key <? base m) then None
  else default None (entries m !! Z.to_nat (key - base m)).

(** [get_mut] followed by an assignment through the returned reference. *)
Definition update m (key : Z) (f : V -> V) : FastMap V :=
  if (length (entries m) =? 0)%nat || (key <? base m) then m
  else
    let offset := Z.to_nat (key - base m) in
    match entries m !! offset with
    | Some (Some v) => mkFastMap (<[offset := Some (f v)]> (entries m)) (base m) (len m)
    | _ => m
    end.

Definition remove m (key : Z) : option V * FastMap V :=
  if (length (entries m) =? 0)%nat || (key <? base m) then (None, m)
  else
    let offset := Z.to_nat (key - base m) in
    if (length (entries m) <=? offset)%nat then (None, m)
    else
      let old := default None (entries m !! offset) in
      (old, mkFastMap (<[offset := None]> (entries m)) (base m)
              (if is_none old then len m else len m - 1)).

Definition contains_key m (key : Z) : bool := negb (is_none (get m key)).

Definition is_empty m : bool := len m =? 0.

(** [entries.iter().enumerate().filter_map(..)], from index [i]. *)
Fixpoint iter_from (b : Z) (i : nat) (l : list (option V)) : list (Z * V) :=
  match l with
  | [] => []
  | None :: l => iter_from b (S i) l
  | Some v :: l => (u32 (b + Z.of_nat i), v) :: iter_from b (S i) l
  end.

Definition iter m : list (Z * V) := iter_from (base m) 0 (entries m).

Definition values m : list V := omap id (entries m).

(** Specification: the finite map a [FastMap] stands for. *)
Definition to_map m : gmap Z V := list_to_map (iter m).

Definition count_some (l : list (option V)) : nat := length (omap id l).

(** Invariant: all keys of the vector are [u32] values and [len] counts the
    occupied entries. *)
Definition wf m : Prop :=
  0 <= base m /\ base m + Z.of_nat (length (entries m)) <= 2 ^ 32 /\
  len m = Z.of_nat (count_some (entries m)).

(** ** Lookup *)

Lemma get_alt m k :
  get m k = if k <? base m then None
            else default None (entries m !! Z.to_nat (k - base m)).
Proof.
  unfold get. destruct (entries m) as [|e l]; simpl; by destruct (k <? base m).
Qed.

Lemma lookup_resize_none l n i :
  default None (resize_none l n !! i) = default None (l !! i).
Proof.
  unfold resize_none. destruct (decide (i < length l)%nat).
  - by rewrite lookup_app_l by lia.
  - rewrite lookup_app_r, (lookup_ge_None_2 l) by lia. simpl.
    destruct (replicate _ _ !! _) eqn:E; [|done].
    by apply lookup_replicate in E as [-> _].
Qed.

Lemma lookup_insert_default (l : list (option V)) i j (x : option V) :
  (i < length l)%nat ->
  default None (<[i := x]> l !! j) = if decide (i = j) then x else default None (l !! j).
Proof.
  intros Hi. case_decide; subst.
  - by rewrite list_lookup_insert_eq.
  - by rewrite list_lookup_insert_ne.
Qed.

Lemma get_insert m k v k' :
  get (insert m k v).2 k' = if decide (k = k') then Some v else get m k'.
Proof.
  unfold insert. rewrite !get_alt.
  destruct (Nat.eqb_spec (length (entries m)) 0) as [E|E]; simpl.
  { apply nil_length_inv in E. rewrite E. simpl.
    case_decide; subst.
    - by rewrite Z.ltb_irrefl, Z.sub_diag.
    - destruct (k' <? k) eqn:?, (k' <? base m); guards; try done;
        destruct (Z.to_nat (k' - k)) eqn:?; simpl; (lia || done). }
  destruct (k <? base m) eqn:Hk; guards; simpl.
  - assert (Z.to_nat (base m - k) = S (Z.to_nat (base m - k) - 1)) as Hs by lia.
    destruct (k' <? k) eqn:?; guards.
    { rewrite decide_False by lia. by replace (k' <? base m) with true by lia. }
    rewrite lookup_insert_default by (rewrite length_app, length_replicate; lia).
    destruct (decide (k = k')) as [->|Hne].
    { by rewrite Z.sub_diag, decide_True. }
    rewrite decide_False by lia.
    destruct (k' <? base m) eqn:?; guards.
    + by rewrite lookup_app_l, lookup_replicate_2 by (rewrite ?length_replicate; lia).
    + rewrite lookup_app_r by (rewrite length_replicate; lia).
      rewrite length_replicate. do 2 f_equal. lia.
  - destruct (k' <? base m) eqn:?; guards.
    { by rewrite decide_False by lia. }
    set (e1 := if (_ <=? _)%nat then _ else _).
    assert (Z.to_nat (k - base m) < length e1)%nat.
    { unfold e1, resize_none. case_match; [rewrite length_app, length_replicate|];
        rewrite ?Nat.leb_le, ?Nat.leb_gt in *; lia. }
    rewrite lookup_insert_default by done.
    destruct (decide (k = k')) as [->|]; [by rewrite decide_True|].
    rewrite decide_False by lia.
    unfold e1. case_match; by rewrite ?lookup_resize_none.
Qed.

Lemma insert_old m k v : (insert m k v).1 = get m k.
Proof.
  unfold insert. rewrite get_alt.
  destruct (Nat.eqb_spec (length (entries m)) 0) as [E|E]; simpl.
  { apply nil_length_inv in E. rewrite E. by destruct (k <? base m). }
  destruct (k <? base m); [done|]. simpl.
  case_match; by rewrite ?lookup_resize_none.
Qed.

Lemma get_remove m k k' :
  get (remove m k).2 k' = if decide (k = k') then None else get m k'.
Proof.
  unfold remove. rewrite (get_alt m k').
  destruct (Nat.eqb_spec (length (entries m)) 0) as [E|E]; cbn [orb].
  { apply nil_length_inv in E. cbn [snd]. rewrite get_alt, E. simpl.
    by destruct (k' <? base m), (decide (k = k')). }
  destruct (k <? base m) eqn:Hk; guards; cbn [snd].
  { rewrite get_alt. case_decide; [subst|done]. by replace (k' <? base m) with true by lia. }
  destruct (Nat.leb_spec (length (entries m)) (Z.to_nat (k - base m))); cbn [snd];
    rewrite get_alt; cbn [base entries].
  { destruct (decide (k = k')) as [->|]; [|done].
    rewrite (lookup_ge_None_2 (entries m)) by lia. by destruct (k' <? base m). }
  destruct (k' <? base m) eqn:?; guards; [by case_decide|].
  rewrite lookup_insert_default by lia.
  destruct (decide (k = k')) as [->|]; [by rewrite decide_True|].
  by rewrite decide_False by lia.
Qed.

Lemma remove_old m k : (remove m k).1 = get m k.
Proof.
  unfold remove, get. destruct (_ || _); [done|].
  destruct (Nat.leb_spec (length (entries m)) (Z.to_nat (k - base m))); [|done].
  by rewrite (lookup_ge_None_2 (entries m)) by lia.
Qed.

(** ** Counting occupied entries *)

Lemma count_some_cons (x : option V) l :
  count_some (x :: l) = ((if is_none x then 0 else 1) + count_some l)%nat.
Proof. by destruct x. Qed.

Lemma count_some_app l1 l2 :
  count_some (l1 ++ l2) = (count_some l1 + count_some l2)%nat.
Proof. unfold count_some. by rewrite omap_app, length_app. Qed.

Lemma count_some_replicate n : count_some (replicate n None) = 0%nat.
Proof. unfold count_some. by induction n. Qed.

Lemma count_some_insert l i (x : option V) :
  (i < length l)%nat ->
  (count_some (<[i := x]> l) + (if is_none (default None (l !! i)) then 0 else 1) =
   count_some l + (if is_none x then 0 else 1))%nat.
Proof.
  revert i. induction l as [|y l IH]; intros [|i] Hi; simpl in Hi; try lia;
    simpl; rewrite !count_some_cons.
  - lia.
  - specialize (IH i ltac:(lia)). lia.
Qed.

Lemma insert_wf m k v : wf m -> is_uint 32 k -> wf (insert m k v).2.
Proof.
  intros (Hb & Hlen & Hc) Hk. unfold is_uint in Hk. unfold insert.
  destruct (Nat.eqb_spec (length (entries m)) 0) as [E|E]; simpl.
  { unfold wf. simpl. split_and!; [lia..|done]. }
  destruct (k <? base m) eqn:?; guards; unfold wf; simpl; split_and!; try lia.
  - rewrite length_insert, length_app, length_replicate. lia.
  - pose proof (count_some_insert (replicate (Z.to_nat (base m - k)) None ++ entries m)
      0 (Some v)) as Hi.
    rewrite length_app, length_replicate, count_some_app, count_some_replicate in Hi.
    assert (default None ((replicate (Z.to_nat (base m - k)) None ++ entries m) !! 0%nat)
            = (None : option V)) as E0.
    { by rewrite lookup_app_l, lookup_replicate_2 by (rewrite ?length_replicate; lia). }
    rewrite E0 in Hi. simpl in Hi. lia.
  - rewrite length_insert. unfold resize_none. case_match; [|lia].
    rewrite length_app, length_replicate. lia.
  - set (e1 := if (_ <=? _)%nat then _ else _).
    assert (Z.to_nat (k - base m) < length e1)%nat as Hlt.
    { unfold e1, resize_none. case_match; [rewrite length_app, length_replicate|];
        rewrite ?Nat.leb_le, ?Nat.leb_gt in *; lia. }
    assert (count_some e1 = count_some (entries m)) as He1.
    { unfold e1, resize_none. case_match; [|done].
      rewrite count_some_app, count_some_replicate. lia. }
    pose proof (count_some_insert e1 _ (Some v) Hlt) as Hi. simpl in Hi.
    destruct (is_none (default None (e1 !! _))); lia.
Qed.

Lemma remove_wf m k : wf m -> wf (remove m k).2.
Proof.
  intros (Hb & Hlen & Hc). unfold remove.
  destruct (_ || _); [done|]. destruct (_ <=? _)%nat eqn:Hle; [done|].
  apply Nat.leb_gt in Hle. unfold wf. simpl. split_and!; try done.
  - by rewrite length_insert.
  - pose proof (count_some_insert (entries m) _ None Hle) as Hi. simpl in Hi.
    destruct (is_none (default None _)); lia.
Qed.

(** ** Iteration and the abstraction *)

Lemma elem_of_iter_from b i l k v :
  0 <= b -> b + Z.of_nat i + Z.of_nat (length l) <= 2 ^ 32 ->
  (k, v) ∈ iter_from b i l <->
  exists j, l !! j = Some (Some v) /\ k = b + Z.of_nat i + Z.of_nat j.
Proof.
  revert i. induction l as [|x l IH]; intros i Hb Hl; simpl in *.
  { split; [by intros ?%elem_of_nil|intros (j & ? & _); by rewrite lookup_nil in *]. }
  assert ((k, v) ∈ iter_from b (S i) l <->
          exists j, (x :: l) !! S j = Some (Some v) /\
                    k = b + Z.of_nat i + Z.of_nat (S j)) as IH'.
  { rewrite IH by lia. split; intros (j & ? & ->); exists j; (split; [done|lia]). }
  destruct x as [w|]; [rewrite elem_of_cons|]; rewrite IH'; split.
  - intros [[= -> ->]|(j & ? & ->)].
    + exists 0%nat. split; [done|]. rewrite u32_small by lia. lia.
    + by exists (S j).
  - intros ([|j] & Hj & ->); [left|right; by exists j].
    injection Hj as ->. f_equal. rewrite u32_small by lia. lia.
  - intros (j & ? & ->). by exists (S j).
  - intros ([|j] & Hj & ->); [done|by exists j].
Qed.

Lemma iter_from_sorted b i l :
  0 <= b -> b + Z.of_nat i + Z.of_nat (length l) <= 2 ^ 32 ->
  StronglySorted Z.lt (iter_from b i l).*1.
Proof.
  revert i. induction l as [|x l IH]; intros i Hb Hl; simpl in *; [constructor|].
  destruct x as [w|]; simpl; [constructor|]; try (apply IH; lia).
  rewrite Forall_fmap. apply Forall_forall. intros [k v] Hin. simpl.
  apply elem_of_iter_from in Hin as (j & _ & ->); [|lia..].
  rewrite u32_small by lia. lia.
Qed.

Lemma StronglySorted_lt_NoDup (l : list Z) : StronglySorted Z.lt l -> NoDup l.
Proof.
  induction 1 as [|x l _ IH Hx]; constructor; [|done].
  intros Hin. rewrite Forall_forall in Hx. specialize (Hx x Hin). lia.
Qed.

Lemma lookup_to_map m k : wf m -> to_map m !! k = get m k.
Proof.
  intros (Hb & Hl & _). unfold to_map, iter.
  assert (forall v, to_map m !! k = Some v <-> get m k = Some v) as Hiff.
  { intros v. unfold to_map, iter.
    rewrite <-elem_of_list_to_map
      by (apply StronglySorted_lt_NoDup, iter_from_sorted; lia).
    rewrite elem_of_iter_from, get_alt by lia. split.
    - intros (j & Hj & ->). rewrite (proj2 (Z.ltb_ge _ _)) by lia.
      replace (Z.to_nat (base m + Z.of_nat 0 + Z.of_nat j - base m)) with j by lia.
      by rewrite Hj.
    - destruct (k <? base m) eqn:?; [done|]; guards. intros Hd.
      exists (Z.to_nat (k - base m)). split; [|lia].
      by destruct (entries m !! _) as [[w|]|]; simpl in Hd; [injection Hd as ->| |]. }
  apply option_eq. exact Hiff.
Qed.

Lemma length_iter_from b i l : length (iter_from b i l) = count_some l.
Proof.
  revert i. induction l as [|[w|] l IH]; intros i; [done|..];
    rewrite count_some_cons; simpl; by rewrite IH.
Qed.

End Ops.

(** ** Properties *)

(** On a well-formed map and a [u32] key, [insert] returns the value the
    abstract map held at that key, and the new map is well formed and stands for
    the abstract map updated at that key: front growth, back growth and
    replacement all refine finite-map insertion. *)
Theorem insert_refines {V} (m : FastMap V) (k : Z) (v : V) :
  wf m -> is_uint 32 k ->
  (insert m k v).1 = to_map m !! k /\
  wf (insert m k v).2 /\
  to_map (insert m k v).2 = <[k := v]> (to_map m).
Proof.
  intros Hwf Hk. pose proof (insert_wf m k v Hwf Hk) as Hwf'.
  split; [by rewrite insert_old, lookup_to_map|split; [done|]].
  apply map_eq. intros k'.
  rewrite lookup_to_map, get_insert, lookup_insert, lookup_to_map by done. done.
Qed.

Lemma insert_refines_witness :
  to_map (insert (insert new 100 1).2 98 2).2 = <[98 := 2]> (to_map (insert new 100 1).2).
Proof. apply (insert_refines (insert new 100 1).2 98 2); repeat split; simpl; lia. Defined.

(** [remove] returns the value the abstract map held, keeps the map well
    formed (in particular [len] is decremented exactly when a value was there)
    and refines deletion. *)
Theorem remove_refines {V} (m : FastMap V) (k : Z) :
  wf m ->
  (remove m k).1 = to_map m !! k /\
  wf (remove m k).2 /\
  to_map (remove m k).2 = delete k (to_map m).
Proof.
  intros Hwf. pose proof (remove_wf m k Hwf) as Hwf'.
  split; [by rewrite remove_old, lookup_to_map|split; [done|]].
  apply map_eq. intros k'.
  rewrite lookup_to_map, get_remove, lookup_delete, lookup_to_map by done. done.
Qed.

Lemma remove_refines_witness :
  to_map (remove (insert (insert new 100 1).2 98 2).2 100).2 =
  delete 100 (to_map (insert (insert new 100 1).2 98 2).2).
Proof.
  apply (remove_refines (insert (insert new 100 1).2 98 2).2 100); repeat split; simpl; lia.
Defined.

(** The observers agree with the abstract map: [get] is lookup, [len] is
    its size, and [iter] lists exactly its bindings in strictly increasing key
    order. *)
Theorem observers_refine {V} (m : FastMap V) :
  wf m ->
  (forall k, get m k = to_map m !! k) /\
  len m = Z.of_nat (size (to_map m)) /\
  StronglySorted Z.lt (iter m).*1 /\
  (forall k v, (k, v) ∈ iter m <-> to_map m !! k = Some v).
Proof.
  intros Hwf. pose proof Hwf as (Hb & Hl & Hc).
  assert (StronglySorted Z.lt (iter m).*1) as Hs by (apply iter_from_sorted; lia).
  pose proof (StronglySorted_lt_NoDup _ Hs) as Hnd.
  split_and!; [intros k; by rewrite lookup_to_map| |done|].
  - rewrite Hc. unfold to_map. rewrite map_size_list_to_map by done.
    unfold iter. by rewrite length_iter_from.
  - intros k v. unfold to_map. by rewrite <-elem_of_list_to_map.
Qed.

Lemma observers_refine_witness :
  len (insert (insert new 100 1).2 98 2).2 =
  Z.of_nat (size (to_map (insert (insert new 100 1).2 98 2).2)).
Proof.
  apply (observers_refine (insert (insert new 100 1).2 98 2).2); repeat split; simpl; lia.
Defined.

(** C40: the map refines a finite map: on a well-formed map [insert] and [remove]
    return the old value, keep well-formedness and are insertion and deletion,
    [get] is lookup, [len] the number of bindings, and [iter] lists exactly the
    bindings in increasing key order. *)
Theorem fastmap_refines {V} (m : FastMap V) (k : Z) (v : V) :
  wf m -> is_uint 32 k ->
  ((insert m k v).1 = to_map m !! k /\ wf (insert m k v).2 /\
   to_map (insert m k v).2 = <[k := v]> (to_map m)) /\
  ((remove m k).1 = to_map m !! k /\ wf (remove m k).2 /\
   to_map (remove m k).2 = delete k (to_map m)) /\
  (forall k', get m k' = to_map m !! k') /\
  len m = Z.of_nat (size (to_map m)) /\
  StronglySorted Z.lt (iter m).*1 /\
  (forall k' v', (k', v') ∈ iter m <-> to_map m !! k' = Some v').
Proof.
  intros Hwf Hk. split; [by apply insert_refines|]. split; [by apply remove_refines|].
  by apply observers_refine.
Qed.

Lemma fastmap_refines_witness :
  to_map (remove (insert (insert new 100 1).2 98 2).2 100).2 =
  delete 100 (to_map (insert (insert new 100 1).2 98 2).2).
Proof.
  apply (fastmap_refines (insert (insert new 100 1).2 98 2).2 100 5); repeat split; simpl; lia.
Defined.

End FastMap.
