(* ===== verification/Encoding.v ===== *)
(** * Encoding: the wire format of [copyrpc/src/encoding.rs]

    Immediate values, message headers, call identifiers and flow-control
    metadata.  A pointer into a byte buffer is the buffer with an offset;
    [ptr::write] of an integer is [write_bytes] of its little-endian bytes. *)

From S2P Require Import Prelude.

Module Encoding.

Definition ALIGNMENT : Z := 32.
Definition HEADER_SIZE : Z := 12.
Definition RESPONSE_FLAG : Z := 2147483648.
Definition WRAP_MESSAGE_COUNT : Z := U32_MAX.
Definition FLOW_METADATA_SIZE : Z := 32.

Definition encode_imm (delta : Z) : Z := u32 (delta / ALIGNMENT).

Definition decode_imm (imm : Z) : Z := u64 (imm * ALIGNMENT).

Definition encode_header (buf : list Z) (off : nat)
    (call_id piggyback payload_len : Z) : list Z :=
  let buf := write_bytes buf off (le_bytes 4 call_id) in
  let buf := write_bytes buf (off + 4) (le_bytes 4 (u32 piggyback)) in
  write_bytes buf (off + 8) (le_bytes 4 payload_len).

Definition decode_header (buf : list Z) (off : nat) : Z * Z * Z :=
  let call_id := le_value (read_bytes buf off 4) in
  let piggyback := le_value (read_bytes buf (off + 4) 4) in
  let payload_len := le_value (read_bytes buf (off + 8) 4) in
  (call_id, piggyback, payload_len).

Definition is_response (call_id : Z) : bool := negb (Z.land call_id RESPONSE_FLAG =? 0).

Definition to_response_id (call_id : Z) : Z := Z.lor call_id RESPONSE_FLAG.

Definition from_response_id (call_id : Z) : Z := Z.land call_id (not32 RESPONSE_FLAG).

Definition padded_message_size (payload_len : Z) : Z :=
  align_up_mask (HEADER_SIZE + payload_len) ALIGNMENT.

Definition encode_flow_metadata (buf : list Z) (off : nat)
    (ring_credit_return credit_grant message_count : Z) : list Z :=
  let buf := write_bytes buf off (le_bytes 8 ring_credit_return) in
  let buf := write_bytes buf (off + 8) (le_bytes 8 credit_grant) in
  let buf := write_bytes buf (off + 16) (le_bytes 4 message_count) in
  write_bytes buf (off + 20) (replicate 12 0).

Definition decode_flow_metadata (buf : list Z) (off : nat) : Z * Z * Z :=
  let ring_credit_return := le_value (read_bytes buf off 8) in
  let credit_grant := le_value (read_bytes buf (off + 8) 8) in
  let message_count := le_value (read_bytes buf (off + 16) 4) in
  (ring_credit_return, credit_grant, message_count).

(** The bytes a header and a metadata block consist of. *)
Definition header_bytes (call_id piggyback payload_len : Z) : list Z :=
  le_bytes 4 call_id ++ le_bytes 4 (u32 piggyback) ++ le_bytes 4 payload_len.

Definition metadata_bytes (ring_credit_return credit_grant message_count : Z) : list Z :=
  le_bytes 8 ring_credit_return ++ le_bytes 8 credit_grant ++
  le_bytes 4 message_count ++ replicate 12 0.

(** ** Lemmas *)

Lemma write_bytes_app buf off d1 d2 :
  (off + length d1 + length d2 <= length buf)%nat ->
  write_bytes (write_bytes buf off d1) (off + length d1) d2 = write_bytes buf off (d1 ++ d2).
Proof.
  intros H. apply list_eq. intros i.
  rewrite !lookup_write_bytes by (rewrite ?length_write_bytes, ?length_app; lia).
  rewrite length_app. repeat case_decide; try lia; try done.
  - rewrite lookup_app_r by lia. f_equal. lia.
  - by rewrite lookup_app_l by lia.
Qed.

Lemma encode_header_bytes buf off cid pig len :
  (off + 12 <= length buf)%nat ->
  encode_header buf off cid pig len = write_bytes buf off (header_bytes cid pig len).
Proof.
  intros H. unfold encode_header, header_bytes.
  set (a := le_bytes 4 cid). set (b := le_bytes 4 (u32 pig)). set (c := le_bytes 4 len).
  assert (length a = 4%nat /\ length b = 4%nat /\ length c = 4%nat) as (Ha & Hb & Hc)
    by (subst a b c; by rewrite !length_le_bytes).
  replace (off + 4)%nat with (off + length a)%nat by lia.
  rewrite write_bytes_app by lia.
  replace (off + 8)%nat with (off + length (a ++ b))%nat by (rewrite length_app; lia).
  rewrite write_bytes_app by (rewrite length_app; lia). by rewrite app_assoc.
Qed.

Lemma encode_flow_metadata_bytes buf off rcr cg mc :
  (off + 32 <= length buf)%nat ->
  encode_flow_metadata buf off rcr cg mc = write_bytes buf off (metadata_bytes rcr cg mc).
Proof.
  intros H. unfold encode_flow_metadata, metadata_bytes.
  set (a := le_bytes 8 rcr). set (b := le_bytes 8 cg). set (c := le_bytes 4 mc).
  set (d := replicate 12 0).
  assert (length a = 8%nat /\ length b = 8%nat /\ length c = 4%nat /\ length d = 12%nat)
    as (Ha & Hb & Hc & Hd) by (subst a b c d; by rewrite !length_le_bytes, length_replicate).
  replace (off + 8)%nat with (off + length a)%nat by lia.
  rewrite write_bytes_app by lia.
  replace (off + 16)%nat with (off + length (a ++ b))%nat by (rewrite length_app; lia).
  rewrite write_bytes_app by (rewrite length_app; lia).
  replace (off + 20)%nat with (off + length ((a ++ b) ++ c))%nat
    by (rewrite !length_app; lia).
  rewrite write_bytes_app by (rewrite !length_app; lia). by rewrite !app_assoc.
Qed.

Lemma length_header_bytes cid pig len : length (header_bytes cid pig len) = 12%nat.
Proof. unfold header_bytes. by rewrite !length_app, !length_le_bytes. Qed.

Lemma length_metadata_bytes rcr cg mc : length (metadata_bytes rcr cg mc) = 32%nat.
Proof. unfold metadata_bytes. by rewrite !length_app, !length_le_bytes, length_replicate. Qed.

Lemma decode_header_ext buf1 off1 buf2 off2 :
  read_bytes buf1 off1 12 = read_bytes buf2 off2 12 ->
  decode_header buf1 off1 = decode_header buf2 off2.
Proof.
  intros H. unfold decode_header.
  rewrite <-(Nat.add_0_r off1) at 1. rewrite <-(Nat.add_0_r off2) at 1.
  rewrite <-!(read_bytes_read buf1 off1 12), <-!(read_bytes_read buf2 off2 12) by lia.
  by rewrite H.
Qed.

Lemma decode_metadata_ext buf1 off1 buf2 off2 :
  read_bytes buf1 off1 32 = read_bytes buf2 off2 32 ->
  decode_flow_metadata buf1 off1 = decode_flow_metadata buf2 off2.
Proof.
  intros H. unfold decode_flow_metadata.
  rewrite <-(Nat.add_0_r off1) at 1. rewrite <-(Nat.add_0_r off2) at 1.
  rewrite <-!(read_bytes_read buf1 off1 32), <-!(read_bytes_read buf2 off2 32) by lia.
  by rewrite H.
Qed.

Lemma read_le_bytes n z rest : read_bytes (le_bytes n z ++ rest) 0 n = le_bytes n z.
Proof.
  unfold read_bytes. rewrite drop_0.
  by rewrite take_app_le, take_ge by (rewrite length_le_bytes; lia).
Qed.

Lemma read_le_bytes_skip n z rest k m :
  read_bytes (le_bytes n z ++ rest) (n + k) m = read_bytes rest k m.
Proof.
  rewrite read_bytes_app_r by (rewrite length_le_bytes; lia).
  f_equal. rewrite length_le_bytes. lia.
Qed.

Lemma decode_header_bytes cid pig len rest :
  decode_header (header_bytes cid pig len ++ rest) 0 = (u32 cid, u32 pig, u32 len).
Proof.
  unfold decode_header, header_bytes. rewrite <-!app_assoc.
  change (0 + 4)%nat with (4 + 0)%nat. change (0 + 8)%nat with (4 + (4 + 0))%nat.
  rewrite !read_le_bytes_skip, !read_le_bytes, !le_value_u32.
  unfold u32, wrap. by rewrite Z.mod_mod.
Qed.

Lemma decode_metadata_bytes rcr cg mc rest :
  decode_flow_metadata (metadata_bytes rcr cg mc ++ rest) 0 = (u64 rcr, u64 cg, u32 mc).
Proof.
  unfold decode_flow_metadata, metadata_bytes. rewrite <-!app_assoc.
  change (0 + 8)%nat with (8 + 0)%nat. change (0 + 16)%nat with (8 + (8 + 0))%nat.
  by rewrite !read_le_bytes_skip, !read_le_bytes, !le_value_u64, le_value_u32.
Qed.

Lemma padded_message_size_spec n :
  0 <= n < 2 ^ 32 ->
  HEADER_SIZE + n <= padded_message_size n < HEADER_SIZE + n + ALIGNMENT /\
  padded_message_size n mod ALIGNMENT = 0.
Proof.
  intros H. unfold padded_message_size.
  apply (align_up_mask_spec (HEADER_SIZE + n) 5); unfold HEADER_SIZE; lia.
Qed.

Lemma response_flag_bit : RESPONSE_FLAG = 2 ^ 31.
Proof. done. Qed.

Lemma land_response_flag x :
  0 <= x -> Z.land x RESPONSE_FLAG = if Z.testbit x 31 then RESPONSE_FLAG else 0.
Proof.
  intros Hx. apply Z.bits_inj'. intros n Hn. rewrite response_flag_bit, Z.land_spec.
  destruct (decide (n = 31)) as [->|].
  - rewrite Z.pow2_bits_true by lia.
    destruct (Z.testbit x 31); [by rewrite Z.pow2_bits_true|done].
  - rewrite Z.pow2_bits_false, andb_false_r by lia.
    destruct (Z.testbit x 31); [by rewrite Z.pow2_bits_false|by rewrite Z.bits_0].
Qed.

Lemma is_response_testbit x : 0 <= x -> is_response x = Z.testbit x 31.
Proof.
  intros Hx. unfold is_response. rewrite land_response_flag by done.
  by destruct (Z.testbit x 31).
Qed.

Lemma testbit_31_small x : 0 <= x < 2 ^ 31 -> Z.testbit x 31 = false.
Proof.
  intros Hx. rewrite <-(Z.mod_small x (2 ^ 31)) by done. by apply Z.mod_pow2_bits_high.
Qed.

Lemma to_response_id_add x : 0 <= x < 2 ^ 31 -> to_response_id x = x + 2 ^ 31.
Proof.
  intros H. unfold to_response_id. rewrite response_flag_bit.
  rewrite <-Z.add_nocarry_lor; [done|]. rewrite <-response_flag_bit.
  rewrite land_response_flag by lia. by rewrite testbit_31_small.
Qed.

Lemma is_response_to x : 0 <= x < 2 ^ 31 -> is_response (to_response_id x) = true.
Proof.
  intros H. rewrite is_response_testbit by (rewrite to_response_id_add by done; lia).
  unfold to_response_id. by rewrite Z.lor_spec, testbit_31_small.
Qed.

Lemma from_to_response_id x : 0 <= x < 2 ^ 31 -> from_response_id (to_response_id x) = x.
Proof.
  intros H. unfold from_response_id. change (not32 RESPONSE_FLAG) with (Z.ones 31).
  rewrite to_response_id_add, Z.land_ones by lia.
  rewrite <-(Z.mul_1_l (2 ^ 31)) at 1. by rewrite Z.mod_add, Z.mod_small by lia.
Qed.

Lemma decode_encode_imm delta :
  0 <= delta < 2 ^ 37 -> delta mod ALIGNMENT = 0 -> decode_imm (encode_imm delta) = delta.
Proof.
  unfold decode_imm, encode_imm, ALIGNMENT. intros H Ha.
  pose proof (Z.div_mod delta 32).
  rewrite (u32_small (delta / 32)) by (split; [apply Z.div_pos|apply Z.div_lt_upper_bound]; lia).
  rewrite u64_small; lia.
Qed.

(** ** Properties *)

(** The immediate value of a WRITE+IMM carries every aligned ring delta
    below 128 GiB without loss. *)
Theorem imm_roundtrip (delta : Z) :
  0 <= delta < 2 ^ 37 -> delta mod ALIGNMENT = 0 -> decode_imm (encode_imm delta) = delta.
Proof. apply decode_encode_imm. Qed.

Lemma imm_roundtrip_witness : decode_imm (encode_imm 1024) = 1024.
Proof. apply imm_roundtrip; [lia|reflexivity]. Defined.

(** A header written anywhere in a buffer is read back field by field (the
    piggyback field truncated to 32 bits), and no other byte changes. *)
Theorem header_roundtrip (buf : list Z) (off : nat) (call_id piggyback payload_len : Z) :
  (off + 12 <= length buf)%nat ->
  let buf' := encode_header buf off call_id piggyback payload_len in
  decode_header buf' off = (u32 call_id, u32 piggyback, u32 payload_len) /\
  length buf' = length buf /\
  (forall i, (i < off \/ off + 12 <= i)%nat -> buf' !! i = buf !! i).
Proof.
  intros H. simpl. rewrite encode_header_bytes by done.
  pose proof (length_header_bytes call_id piggyback payload_len) as Hl.
  split_and!.
  - rewrite <-(decode_header_bytes call_id piggyback payload_len []).
    apply decode_header_ext. rewrite app_nil_r.
    rewrite <-Hl, read_write_same, read_bytes_all by lia. done.
  - apply length_write_bytes. lia.
  - intros i Hi. rewrite lookup_write_bytes by lia. by rewrite decide_False by lia.
Qed.

Lemma header_roundtrip_witness :
  decode_header (encode_header (replicate 16 7) 2 42 1000 256) 2 = (42, 1000, 256).
Proof. apply (header_roundtrip (replicate 16 7) 2 42 1000 256). simpl. lia. Defined.

(** Flow-control metadata round trips for all [u64]/[u32] field values, its
    padding is zero, and no other byte of the buffer changes. *)
Theorem flow_metadata_roundtrip (buf : list Z) (off : nat) (rcr cg mc : Z) :
  is_uint 64 rcr -> is_uint 64 cg -> is_uint 32 mc -> (off + 32 <= length buf)%nat ->
  let buf' := encode_flow_metadata buf off rcr cg mc in
  decode_flow_metadata buf' off = (rcr, cg, mc) /\
  read_bytes buf' (off + 20) 12 = replicate 12 0 /\
  (forall i, (i < off \/ off + 32 <= i)%nat -> buf' !! i = buf !! i).
Proof.
  intros Hr Hc Hm H. simpl. rewrite encode_flow_metadata_bytes by done.
  pose proof (length_metadata_bytes rcr cg mc) as Hl.
  split_and!.
  - rewrite <-(u64_small rcr), <-(u64_small cg), <-(u32_small mc) at 2 by done.
    rewrite <-(decode_metadata_bytes rcr cg mc []).
    apply decode_metadata_ext. rewrite app_nil_r.
    rewrite <-Hl, read_write_same, read_bytes_all by lia. done.
  - rewrite read_write_in by lia. unfold metadata_bytes.
    change 20%nat with (8 + (8 + (4 + 0)))%nat. by rewrite !read_le_bytes_skip.
  - intros i Hi. rewrite lookup_write_bytes by lia. by rewrite decide_False by lia.
Qed.

Lemma flow_metadata_roundtrip_witness :
  decode_flow_metadata
    (encode_flow_metadata (replicate 40 7) 4 1000 2000 WRAP_MESSAGE_COUNT) 4 =
  (1000, 2000, WRAP_MESSAGE_COUNT).
Proof.
  apply (flow_metadata_roundtrip (replicate 40 7) 4 1000 2000 WRAP_MESSAGE_COUNT);
    unfold is_uint, WRAP_MESSAGE_COUNT, U32_MAX; simpl; lia.
Defined.

(** Call identifiers below 2^31 are requests, their response form is
    recognised as a response, stays a [u32], and maps back to the identifier. *)
Theorem response_id_roundtrip (call_id : Z) :
  0 <= call_id < 2 ^ 31 ->
  is_response call_id = false /\
  is_response (to_response_id call_id) = true /\
  from_response_id (to_response_id call_id) = call_id /\
  0 <= to_response_id call_id < 2 ^ 32.
Proof.
  intros H. split_and!.
  - by rewrite is_response_testbit, testbit_31_small by lia.
  - by apply is_response_to.
  - by apply from_to_response_id.
  - rewrite to_response_id_add; lia.
  - rewrite to_response_id_add; lia.
Qed.

Lemma response_id_roundtrip_witness : from_response_id (to_response_id 123) = 123.
Proof. apply response_id_roundtrip. lia. Defined.

End Encoding.
