(* ===== verification/Ring.v ===== *)
(** * Ring: the SPSC ring buffer of [copyrpc/src/ring.rs]

    Virtual positions that only grow, the buffer offset by masking, the write
    that splits at the end of the buffer. *)

From S2P Require Import Prelude Encoding.
Import Encoding.

Module Ring.

(** [struct RingBufferState]: the [Cell]s hold [u64] values. *)
Record RingBufferState : Type := mkState {
  producer : Z;
  consumer : Z;
  size : Z;
}.

Definition new (size : Z) : RingBufferState := mkState 0 0 size.

Definition available_write (s : RingBufferState) : Z :=
  u64 (size s - u64 (producer s - consumer s)).

Definition available_read (s : RingBufferState) : Z := u64 (producer s - consumer s).

Definition can_write (s : RingBufferState) (n : Z) : bool := n <=? available_write s.

Definition advance_producer (s : RingBufferState) (delta : Z) : RingBufferState :=
  mkState (u64 (producer s + delta)) (consumer s) (size s).

Definition advance_consumer (s : RingBufferState) (delta : Z) : RingBufferState :=
  mkState (producer s) (u64 (consumer s + delta)) (size s).

Definition update_consumer (s : RingBufferState) (new_consumer : Z) : RingBufferState :=
  let current := consumer s in
  if current <? new_consumer then mkState (producer s) new_consumer (size s) else s.

Definition to_offset (s : RingBufferState) (pos : Z) : Z := Z.land pos (size s - 1).

Definition check_wrap (s : RingBufferState) (n : Z) : Z * bool :=
  let start := to_offset s (producer s) in
  let stop := u64 (start + n) in
  (start, size s <? stop).

(** [struct RingBuffer]: the bytes and the state. *)
Record RingBuffer : Type := mkRing {
  buf : list Z;
  state : RingBufferState;
}.

(** [usize::next_power_of_two]. *)
Definition next_power_of_two (n : Z) : Z := if n <=? 1 then 1 else 2 ^ Z.log2_up n.

Definition ring_new (n : Z) : RingBuffer :=
  let n := next_power_of_two n in
  mkRing (replicate (Z.to_nat n) 0) (new n).

Definition ring_can_write (r : RingBuffer) (payload_len : Z) : bool :=
  can_write (state r) (padded_message_size payload_len).

Definition slice_at (r : RingBuffer) (pos len : Z) : option (list Z) :=
  let offset := to_offset (state r) pos in
  slice (buf r) offset (offset + len).

(** [write]: [None] is the panic of [copy_from_slice] when the data is longer
    than the buffer. *)
Definition write (r : RingBuffer) (data : list Z) : option (Z * RingBuffer) :=
  let pos := producer (state r) in
  let offset := to_offset (state r) pos in
  let stop := offset + Z.of_nat (length data) in
  let len := Z.of_nat (length (buf r)) in
  if stop <=? len then
    Some (pos, mkRing (write_bytes (buf r) (Z.to_nat offset) data) (state r))
  else
    let first_len := len - offset in
    let b1 := write_bytes (buf r) (Z.to_nat offset) (take (Z.to_nat first_len) data) in
    if Z.of_nat (length data) - first_len <=? len then
      Some (pos, mkRing (write_bytes b1 0 (drop (Z.to_nat first_len) data)) (state r))
    else None.

Definition ring_advance_producer (r : RingBuffer) (delta : Z) : RingBuffer :=
  mkRing (buf r) (advance_producer (state r) delta).
Definition ring_advance_consumer (r : RingBuffer) (delta : Z) : RingBuffer :=
  mkRing (buf r) (advance_consumer (state r) delta).
Definition ring_update_consumer (r : RingBuffer) (c : Z) : RingBuffer :=
  mkRing (buf r) (update_consumer (state r) c).

Record RemoteRingInfo : Type := mkRemote { addr : Z; rkey : Z; rsize : Z }.

Definition remote_addr (r : RemoteRingInfo) (pos : Z) : Z :=
  u64 (addr r + Z.land pos (rsize r - 1)).

(** Invariant of the position pair. *)
Definition ring_ok (s : RingBufferState) : Prop :=
  is_power_of_two (size s) = true /\ size s < 2 ^ 63 /\
  0 <= consumer s /\ consumer s <= producer s <= consumer s + size s /\
  producer s < 2 ^ 64.

(** The buffer of a ring has the size its state says. *)
Definition ring_wf (r : RingBuffer) : Prop :=
  ring_ok (state r) /\ Z.of_nat (length (buf r)) = size (state r).

(** Steps of a well-behaved producer/consumer pair: the producer checks
    [can_write] before it advances, the consumer reads only what is there, a
    piggybacked consumer position is one the peer really reached. *)
Inductive ring_step : RingBufferState -> RingBufferState -> Prop :=
| step_produce s d :
    0 <= d -> can_write s d = true -> producer s + d < 2 ^ 64 ->
    ring_step s (advance_producer s d)
| step_consume s d :
    0 <= d <= available_read s -> ring_step s (advance_consumer s d)
| step_update s c :
    c <= producer s -> ring_step s (update_consumer s c).

(** ** Lemmas *)

Lemma size_pow2 s : ring_ok s -> exists k, 0 <= k < 63 /\ size s = 2 ^ k.
Proof.
  intros (Hp & Hs & _). apply is_power_of_two_spec in Hp as (k & Hk & E).
  exists k. split; [|done]. split; [done|].
  rewrite E in Hs. apply Z.pow_lt_mono_r_iff in Hs; lia.
Qed.

Lemma to_offset_mod s pos :
  ring_ok s -> to_offset s pos = pos mod size s.
Proof.
  intros Hok. destruct (size_pow2 s Hok) as (k & Hk & E).
  unfold to_offset. rewrite E. apply land_mask. lia.
Qed.

Lemma size_pos s : ring_ok s -> 0 < size s.
Proof.
  intros Hok. destruct (size_pow2 s Hok) as (k & Hk & ->). apply Z.pow_pos_nonneg; lia.
Qed.

Lemma available_write_val s :
  ring_ok s -> available_write s = size s - (producer s - consumer s).
Proof.
  intros Hok. pose proof (size_pos s Hok).
  destruct Hok as (_ & ? & ? & ? & ?). unfold available_write.
  rewrite (u64_small (producer s - consumer s)) by lia. rewrite u64_small; lia.
Qed.

Lemma available_read_val s : ring_ok s -> available_read s = producer s - consumer s.
Proof. intros (_ & ? & ? & ? & ?). unfold available_read. rewrite u64_small; lia. Qed.

Lemma ring_step_ok s s' : ring_step s s' -> ring_ok s -> ring_ok s'.
Proof.
  intros Hst Hok. pose proof (size_pos s Hok) as Hpos.
  pose proof Hok as (Hp & Hs & Hc & Hpc & Hb).
  destruct Hst as [s d Hd Hcan Hlt|s d Hd|s c Hle].
  - unfold can_write in Hcan. guards. rewrite available_write_val in Hcan by done.
    unfold ring_ok, advance_producer. simpl. rewrite u64_small by lia.
    split_and!; (done || lia).
  - rewrite available_read_val in Hd by done.
    unfold ring_ok, advance_consumer. simpl. rewrite u64_small by lia.
    split_and!; (done || lia).
  - unfold update_consumer. destruct (consumer s <? c) eqn:E; [|done]. guards.
    unfold ring_ok. simpl. split_and!; (done || lia).
Qed.

(** Index [i] of the data lands at [(pos + i) mod size]. *)
Lemma mod_add_wrap pos n i :
  0 < n -> 0 <= i <= n ->
  (pos + i) mod n = if decide (pos mod n + i < n) then pos mod n + i else pos mod n + i - n.
Proof.
  intros Hn Hi. pose proof (Z.mod_pos_bound pos n Hn).
  rewrite <-Z.add_mod_idemp_l by lia.
  case_decide.
  - apply Z.mod_small. lia.
  - rewrite <-(Z.mod_small (pos mod n + i - n) n) by lia.
    rewrite <-(Z.mod_add (pos mod n + i - n) 1 n) by lia. f_equal. lia.
Qed.

(** Where the two pieces of a write land. *)
Lemma lookup_wrapped_write (b data : list Z) (off i : nat) :
  (off < length b)%nat -> (i < length b)%nat -> (length data <= length b)%nat ->
  let first := (length b - off)%nat in
  let b' := if decide (off + length data <= length b)%nat then write_bytes b off data
            else write_bytes (write_bytes b off (take first data)) 0 (drop first data) in
  let j := if decide (off + i < length b)%nat then (off + i)%nat else (off + i - length b)%nat in
  b' !! j = if decide (i < length data)%nat then data !! i else b !! j.
Proof.
  intros Hoff Hi Hd. simpl.
  destruct (decide (off + length data <= length b)%nat).
  - rewrite lookup_write_bytes by lia.
    repeat case_decide; try lia; try done. f_equal. lia.
  - assert (length (take (length b - off) data) = length b - off)%nat as Hl1
      by (rewrite length_take; lia).
    assert (length (drop (length b - off) data) = length data - (length b - off))%nat as Hl2
      by (rewrite length_drop; lia).
    rewrite lookup_write_bytes by (rewrite length_write_bytes; lia).
    rewrite lookup_write_bytes by lia. rewrite Hl1, Hl2.
    repeat case_decide; try lia; try done;
      first [rewrite lookup_take_lt by lia|rewrite lookup_drop]; f_equal; lia.
Qed.

Lemma write_unfold r data :
  ring_wf r -> Z.of_nat (length data) <= size (state r) ->
  let off := Z.to_nat (producer (state r) mod size (state r)) in
  let first := (length (buf r) - off)%nat in
  write r data = Some (producer (state r),
    mkRing (if decide (off + length data <= length (buf r))%nat
            then write_bytes (buf r) off data
            else write_bytes (write_bytes (buf r) off (take first data)) 0 (drop first data))
      (state r)).
Proof.
  intros [Hok Hlen] Hd. pose proof (size_pos _ Hok) as Hpos.
  pose proof (Z.mod_pos_bound (producer (state r)) (size (state r)) Hpos) as Hb.
  unfold write. rewrite to_offset_mod by done. simpl.
  rewrite Hlen.
  destruct (_ + Z.of_nat (length data) <=? size (state r)) eqn:E; guards.
  - by rewrite decide_True by lia.
  - rewrite decide_False by lia.
    rewrite (proj2 (Z.leb_le _ _)) by lia.
    by replace (Z.to_nat (size (state r) - producer (state r) mod size (state r)))
      with (length (buf r) - Z.to_nat (producer (state r) mod size (state r)))%nat by lia.
Qed.

(** ** Properties *)

(** C35: [write] of data no longer than the ring does not panic, and stores byte
    [i] of the data at buffer offset [(producer + i) mod size] whether or not the
    write wraps, changing no other byte: the split copy equals the modular
    reference. *)
Theorem ring_write_correct (r : RingBuffer) (data : list Z) :
  ring_wf r -> Z.of_nat (length data) <= size (state r) ->
  exists b', write r data = Some (producer (state r), mkRing b' (state r)) /\
    length b' = length (buf r) /\
    forall i : nat, Z.of_nat i < size (state r) ->
      let j := Z.to_nat ((producer (state r) + Z.of_nat i) mod size (state r)) in
      b' !! j = if decide (i < length data)%nat then data !! i else buf r !! j.
Proof.
  intros Hwf Hd. pose proof Hwf as [Hok Hlen]. pose proof (size_pos _ Hok) as Hpos.
  pose proof (Z.mod_pos_bound (producer (state r)) (size (state r)) Hpos) as Hb.
  eexists. split; [by apply write_unfold|]. split.
  - case_decide; rewrite ?length_write_bytes; lia.
  - intros i Hi. simpl. rewrite mod_add_wrap by lia.
    set (off := Z.to_nat (producer (state r) mod size (state r))).
    replace (Z.to_nat (if decide _ then _ else _)) with
      (if decide (off + i < length (buf r))%nat then (off + i)%nat
       else (off + i - length (buf r))%nat)
      by (subst off; repeat case_decide; lia).
    apply lookup_wrapped_write; lia.
Qed.

Lemma ring_write_correct_witness :
  exists b', write (ring_advance_producer (ring_new 16) 12) [1; 2; 3; 4; 5; 6; 7; 8] =
               Some (12, mkRing b' (advance_producer (new 16) 12)) /\
             b' !! 15%nat = Some 4 /\ b' !! 0%nat = Some 5.
Proof.
  destruct (ring_write_correct (ring_advance_producer (ring_new 16) 12)
    [1; 2; 3; 4; 5; 6; 7; 8]) as (b' & Hw & _ & Hb).
  - split; [|done]. unfold ring_ok. simpl. repeat split; (done || lia).
  - done.
  - exists b'. split; [exact Hw|]. split; [exact (Hb 3%nat eq_refl)|exact (Hb 4%nat eq_refl)].
Defined.

(** Along every sequence of producer and consumer steps the ring positions
    keep [consumer <= producer <= consumer + size]; so the free and the readable
    space always add up to the size and neither subtraction wraps. *)
Theorem ring_reachable_ok (s s' : RingBufferState) :
  ring_ok s -> rtc ring_step s s' ->
  ring_ok s' /\
  available_write s' + available_read s' = size s' /\
  0 <= available_write s' <= size s'.
Proof.
  intros Hok Hr. assert (ring_ok s') as Hok'.
  { induction Hr as [|s1 s2 s3 Hst _ IH]; [done|].
    apply IH. by apply (ring_step_ok s1). }
  split; [done|].
  rewrite available_write_val, available_read_val by done.
  destruct Hok' as (_ & ? & ? & ? & ?). lia.
Qed.

Lemma ring_reachable_ok_witness :
  available_write (advance_producer (new 1024) 64) +
  available_read (advance_producer (new 1024) 64) = 1024.
Proof.
  apply (ring_reachable_ok (new 1024) (advance_producer (new 1024) 64)).
  - repeat split; (done || simpl; lia).
  - apply rtc_once, step_produce; [lia|done|simpl; lia].
Defined.

(** The offset is always inside the buffer, and [check_wrap] reports a wrap
    exactly when the write of [n] bytes would not be contiguous. *)
Theorem check_wrap_correct (s : RingBufferState) (n : Z) :
  ring_ok s -> 0 <= n < 2 ^ 63 ->
  let '(start, would_wrap) := check_wrap s n in
  start = producer s mod size s /\ 0 <= start < size s /\
  (would_wrap = true <-> size s < start + n).
Proof.
  intros Hok Hn. pose proof (size_pos _ Hok) as Hpos.
  unfold check_wrap. rewrite to_offset_mod by done.
  pose proof (Z.mod_pos_bound (producer s) (size s) Hpos) as Hb.
  destruct Hok as (_ & ? & _).
  rewrite u64_small by lia. rewrite Z.ltb_lt. done.
Qed.

Lemma check_wrap_correct_witness :
  check_wrap (mkState 224 224 256) 64 = (224, true) /\
  (true = true <-> 256 < 224 + 64).
Proof.
  split; [reflexivity|].
  apply (check_wrap_correct (mkState 224 224 256) 64);
    [repeat split; (done || simpl; lia)|lia].
Defined.

End Ring.
