(* ===== verification/SendQueue.v ===== *)
(** * SendQueue: posting WRITE+IMM work requests ([mlx5/src/wqe])

    The send queue of [mlx5/src/wqe/emit.rs]: 16-bit producer and consumer
    indices over a ring of [wqe_cnt] 64-byte blocks (WQEBBs), the table of
    signaled entries, the four [write_imm] arms of the [emit_wqe!] macro that
    copyrpc uses (inline, inline + SGE, each signaled or not) with their
    wrap-around path, doorbells, and completions.  The buffer is kept at block
    granularity: a block holds which work request was written to it and which
    block of that request it is. *)

From S2P Require Import Prelude.

Module SendQueue.

Definition WQEBB_SIZE : Z := 64.
Definition CTRL_SEG_SIZE : Z := 16.
Definition RDMA_SEG_SIZE : Z := 16.
Definition DATA_SEG_SIZE : Z := 16.

Inductive SubmissionError : Type :=
| SqFull
| RqFull
| BlueflameOverflow
| BlueflameNotAvailable.

Record SgeParams : Type := mkSge { sge_addr : Z; sge_len : Z; sge_lkey : Z }.
Record RdmaParams : Type := mkRdma { rdma_remote_addr : Z; rdma_rkey : Z }.

(** What is written in the queue: a NOP filler, an RDMA WRITE with immediate, or a
    plain RDMA READ or WRITE of one buffer. *)
Inductive Wqe : Type :=
| WNop (wqe_idx wqebb_cnt : Z)
| WRdma (read : bool) (wqe_idx : Z) (completion : bool) (rdma : RdmaParams) (sge : SgeParams)
| WWriteImm (wqe_idx : Z) (completion : bool) (rdma : RdmaParams) (imm : Z)
    (inline_data : list Z) (sge : option SgeParams).

Record EmitResult : Type := mkEmit {
  res_wqe_idx : Z;
  res_wqe_size : Z;
  res_wqebb_cnt : Z;
}.

(** [struct SendQueueState] with its [OrderedWqeTable]; [dbrec] is the producer
    index last shown to the device. *)
Record Sq (Entry : Type) : Type := mkSq {
  buf : list (option (Wqe * Z));
  wqe_cnt : Z;
  pi : Z;
  ci : Z;
  last_wqe : option (Z * Z);
  dbrec : Z;
  table : list (option (Entry * Z));
}.
Arguments mkSq {Entry} _ _ _ _ _ _ _.
Arguments buf {Entry} _.
Arguments wqe_cnt {Entry} _.
Arguments pi {Entry} _.
Arguments ci {Entry} _.
Arguments last_wqe {Entry} _.
Arguments dbrec {Entry} _.
Arguments table {Entry} _.

Definition inline_padded_size (data_len : Z) : Z := Z.land (4 + data_len + 15) (not64 15).

Definition calc_wqebb_cnt (wqe_size : Z) : Z := u16 ((wqe_size + WQEBB_SIZE - 1) / WQEBB_SIZE).

Section Ops.
Context {Entry : Type}.
Implicit Types (q : Sq Entry) (w : Wqe).

Definition available q : Z := u16 (wqe_cnt q - u16 (pi q - ci q)).

(** Block index of a producer index: [idx & (wqe_cnt - 1)]. *)
Definition slot q (idx : Z) : Z := Z.land idx (wqe_cnt q - 1).

Definition slots_to_end q : Z := wqe_cnt q - slot q (pi q).

Definition advance_pi q (count : Z) : Sq Entry :=
  mkSq (buf q) (wqe_cnt q) (u16 (pi q + count)) (ci q) (last_wqe q) (dbrec q) (table q).

Definition set_last_wqe q (idx size : Z) : Sq Entry :=
  mkSq (buf q) (wqe_cnt q) (pi q) (ci q) (Some (slot q idx, size)) (dbrec q) (table q).

(** The segments of [w] written to [cnt] consecutive blocks from [s]. *)
Fixpoint put_blocks (b : list (option (Wqe * Z))) (s : nat) (w : Wqe) (k : Z) (cnt : nat)
    : list (option (Wqe * Z)) :=
  match cnt with
  | O => b
  | S cnt => put_blocks (<[s := Some (w, k)]> b) (S s) w (k + 1) cnt
  end.

Definition write_wqe q (idx : Z) w (cnt : Z) : Sq Entry :=
  mkSq (put_blocks (buf q) (Z.to_nat (slot q idx)) w 0 (Z.to_nat cnt))
    (wqe_cnt q) (pi q) (ci q) (last_wqe q) (dbrec q) (table q).

(** [post_nop]: only the control segment, in the first block, is written. *)
Definition post_nop q (nop_wqebb_cnt : Z) : Sq Entry :=
  let wqe_idx := pi q in
  let q1 := write_wqe q wqe_idx (WNop wqe_idx nop_wqebb_cnt) 1 in
  let q2 := advance_pi q1 nop_wqebb_cnt in
  set_last_wqe q2 wqe_idx (nop_wqebb_cnt * WQEBB_SIZE).

(** [OrderedWqeTable::store] and [take]. *)
Definition table_store q (idx : Z) (e : Entry) (ci_delta : Z) : Sq Entry :=
  mkSq (buf q) (wqe_cnt q) (pi q) (ci q) (last_wqe q) (dbrec q)
    (<[Z.to_nat (slot q idx) := Some (e, ci_delta)]> (table q)).

Definition table_take q (idx : Z) : option (Entry * Z) * Sq Entry :=
  let s := Z.to_nat (slot q idx) in
  (default None (table q !! s),
   mkSq (buf q) (wqe_cnt q) (pi q) (ci q) (last_wqe q) (dbrec q) (<[s := None]> (table q))).

Definition wqe_size_of (inline_data : list Z) (sge : option SgeParams) : Z :=
  CTRL_SEG_SIZE + RDMA_SEG_SIZE + inline_padded_size (Z.of_nat (length inline_data)) +
  match sge with Some _ => DATA_SEG_SIZE | None => 0 end.

(** [emit_write_wrap] for inline data: NOPs up to the end of the ring, then the
    request at its start. *)
Definition emit_write_wrap q (rdma : RdmaParams) (sge : option SgeParams) (signaled : bool)
    (inline_data : list Z) (imm : Z) : Sq Entry * result EmitResult SubmissionError :=
  let sge_used := match sge with
                  | Some s => if 0 <? sge_len s then Some s else None
                  | None => None
                  end in
  let wqe_size := wqe_size_of inline_data sge_used in
  let wqebb_cnt := calc_wqebb_cnt wqe_size in
  let slots := slots_to_end q in
  let total_needed := slots + wqebb_cnt in
  if available q <? total_needed then (q, Err SqFull)
  else
    let q1 := post_nop q slots in
    let wqe_idx := pi q1 in
    let q2 := write_wqe q1 wqe_idx (WWriteImm wqe_idx signaled rdma imm inline_data sge_used)
                wqebb_cnt in
    let q3 := set_last_wqe (advance_pi q2 wqebb_cnt) wqe_idx wqe_size in
    (q3, Ok (mkEmit wqe_idx wqe_size wqebb_cnt)).

(** The four arms of [emit_wqe!(.., write_imm { .. inline .. })]: [sge] is [None]
    for the inline-only arms, [entry] is [Some e] for the signaled ones. *)
Definition emit_write_imm q (rdma : RdmaParams) (imm : Z) (inline_data : list Z)
    (sge : option SgeParams) (entry : option Entry)
    : Sq Entry * result EmitResult SubmissionError :=
  let signaled := match entry with Some _ => true | None => false end in
  let store q idx := match entry with Some e => table_store q idx e (pi q) | None => q end in
  let wqe_size := wqe_size_of inline_data sge in
  let wqebb_cnt := u16 ((wqe_size + 63) / 64) in
  if available q <? wqebb_cnt then (q, Err SqFull)
  else
    let slots := slots_to_end q in
    if (slots <? wqebb_cnt) && (slots <? wqe_cnt q) then
      match emit_write_wrap q rdma sge signaled inline_data imm with
      | (q', Ok res) => (store q' (res_wqe_idx res), Ok res)
      | (q', Err e) => (q', Err e)
      end
    else
      let wqe_idx := pi q in
      let q1 := write_wqe q wqe_idx (WWriteImm wqe_idx signaled rdma imm inline_data sge)
                  wqebb_cnt in
      let q2 := set_last_wqe (advance_pi q1 wqebb_cnt) wqe_idx wqe_size in
      (store q2 wqe_idx, Ok (mkEmit wqe_idx wqe_size wqebb_cnt)).

(** [emit_wqe!(.., read { .. })] and [write { .. }] of one buffer: 48 bytes, which
    every block has room for, so that the way around the end is never taken. *)
Definition emit_rdma q (read : bool) (rdma : RdmaParams) (sge : SgeParams) (entry : option Entry)
    : Sq Entry * result EmitResult SubmissionError :=
  let signaled := match entry with Some _ => true | None => false end in
  let wqe_size := CTRL_SEG_SIZE + RDMA_SEG_SIZE + DATA_SEG_SIZE in
  if available q <? 1 then (q, Err SqFull)
  else
    let wqe_idx := pi q in
    let q1 := write_wqe q wqe_idx (WRdma read wqe_idx signaled rdma sge) 1 in
    let q2 := set_last_wqe (advance_pi q1 1) wqe_idx wqe_size in
    (match entry with Some e => table_store q2 wqe_idx e (pi q2) | None => q2 end,
     Ok (mkEmit wqe_idx wqe_size 1)).

(** [ring_doorbell_bf]: publishes the producer index, once per posted WQE. *)
Definition ring_doorbell_bf q : Sq Entry :=
  match last_wqe q with
  | None => q
  | Some _ => mkSq (buf q) (wqe_cnt q) (pi q) (ci q) None (pi q) (table q)
  end.

Definition process_completion q (wqe_idx : Z) : option Entry * Sq Entry :=
  match table_take q wqe_idx with
  | (Some (e, ci_delta), q') =>
      (Some e, mkSq (buf q') (wqe_cnt q') (pi q') ci_delta (last_wqe q') (dbrec q') (table q'))
  | (None, q') => (None, q')
  end.

(** A fresh queue of [n] blocks. *)
Definition sq_new (n : Z) : Sq Entry :=
  mkSq (replicate (Z.to_nat n) None) n 0 0 None 0 (replicate (Z.to_nat n) None).

Definition in_flight q : Z := u16 (pi q - ci q).

(** Invariant. *)
Definition sq_ok q : Prop :=
  is_power_of_two (wqe_cnt q) = true /\ wqe_cnt q <= 2 ^ 15 /\
  is_uint 16 (pi q) /\ is_uint 16 (ci q) /\ in_flight q <= wqe_cnt q /\
  Z.of_nat (length (buf q)) = wqe_cnt q /\ Z.of_nat (length (table q)) = wqe_cnt q.

(** Every block between the consumer and the producer index is the same in [q']. *)
Definition in_flight_kept q q' : Prop :=
  forall d, 0 <= d < in_flight q ->
    buf q' !! Z.to_nat ((ci q + d) mod wqe_cnt q) = buf q !! Z.to_nat ((ci q + d) mod wqe_cnt q).

(** ** Index arithmetic *)

Lemma sq_pow2 q : sq_ok q -> exists k, 0 <= k <= 15 /\ wqe_cnt q = 2 ^ k.
Proof.
  intros (Hp & Hle & _). apply is_power_of_two_spec in Hp as (k & Hk & E).
  exists k. split; [|done]. split; [done|].
  rewrite E in Hle. apply Z.pow_le_mono_r_iff in Hle; lia.
Qed.

Lemma wqe_cnt_pos q : sq_ok q -> 0 < wqe_cnt q.
Proof.
  intros Hok. destruct (sq_pow2 q Hok) as (k & Hk & ->). apply Z.pow_pos_nonneg; lia.
Qed.

Lemma slot_mod q idx : sq_ok q -> slot q idx = idx mod wqe_cnt q.
Proof.
  intros Hok. destruct (sq_pow2 q Hok) as (k & Hk & E).
  unfold slot. rewrite E. apply land_mask. lia.
Qed.

Lemma u16_mod q x : sq_ok q -> u16 x mod wqe_cnt q = x mod wqe_cnt q.
Proof.
  intros Hok. destruct (sq_pow2 q Hok) as (k & Hk & E). unfold u16, wrap.
  apply Z.mod_mod_divide. rewrite E. exists (2 ^ (16 - k)).
  rewrite <-Z.pow_add_r by lia. f_equal. lia.
Qed.

Lemma u16_sub_add x y c :
  0 <= u16 (x - y) + c < 2 ^ 16 -> u16 (u16 (x + c) - y) = u16 (x - y) + c.
Proof.
  intros H. rewrite <-(u16_small (u16 (x - y) + c)) by done. unfold u16, wrap.
  rewrite Zminus_mod_idemp_l, Zplus_mod_idemp_l. f_equal. lia.
Qed.

Lemma mod_ne a b n : 0 < b - a < n -> a mod n <> b mod n.
Proof.
  intros H E. assert ((b - a) mod n = 0) as H0.
  { rewrite Zminus_mod, E, Z.sub_diag. by apply Z.mod_0_l; lia. }
  rewrite Z.mod_small in H0; lia.
Qed.

(** The producer index is the consumer index plus the number in flight. *)
Lemma pi_mod q e : sq_ok q -> (pi q + e) mod wqe_cnt q = (ci q + in_flight q + e) mod wqe_cnt q.
Proof.
  intros Hok. unfold in_flight.
  rewrite <-(Z.add_mod_idemp_l (ci q + u16 (pi q - ci q)))
    by (pose proof (wqe_cnt_pos q Hok); lia).
  rewrite <-(Z.add_mod_idemp_r (ci q)) by (pose proof (wqe_cnt_pos q Hok); lia).
  rewrite u16_mod by done.
  rewrite Z.add_mod_idemp_r by (pose proof (wqe_cnt_pos q Hok); lia).
  rewrite Z.add_mod_idemp_l by (pose proof (wqe_cnt_pos q Hok); lia). f_equal. lia.
Qed.

Lemma in_flight_range q : 0 <= in_flight q < 2 ^ 16.
Proof. apply u16_range. Qed.

Lemma available_val q : sq_ok q -> available q = wqe_cnt q - in_flight q.
Proof.
  intros Hok. pose proof (wqe_cnt_pos q Hok).
  destruct Hok as (_ & ? & _ & _ & Hf & _). unfold available. fold (in_flight q).
  pose proof (in_flight_range q). apply u16_small. lia.
Qed.

Lemma slots_to_end_bounds q : sq_ok q -> 0 < slots_to_end q <= wqe_cnt q.
Proof.
  intros Hok. pose proof (wqe_cnt_pos q Hok) as Hp. unfold slots_to_end.
  rewrite slot_mod by done. pose proof (Z.mod_pos_bound (pi q) _ Hp). lia.
Qed.

(** ** Writing blocks *)

Lemma put_blocks_spec b s w k cnt :
  (s + cnt <= length b)%nat ->
  length (put_blocks b s w k cnt) = length b /\
  forall i, put_blocks b s w k cnt !! i =
    if decide (s <= i < s + cnt)%nat then Some (Some (w, k + Z.of_nat (i - s))) else b !! i.
Proof.
  revert b s k. induction cnt as [|cnt IH]; intros b s k Hl; simpl.
  { split; [done|]. intros i. by rewrite decide_False by lia. }
  destruct (IH (<[s := Some (w, k)]> b) (S s) (k + 1)) as [Hlen Hlk].
  { rewrite length_insert. lia. }
  split; [by rewrite Hlen, length_insert|]. intros i. rewrite Hlk.
  destruct (decide (i = s)) as [->|Hne].
  - rewrite decide_False, decide_True by lia. rewrite list_lookup_insert_eq by lia.
    do 3 f_equal. lia.
  - rewrite list_lookup_insert_ne by done.
    repeat case_decide; try lia; [|done]. do 3 f_equal. lia.
Qed.

(** A block in flight is not one of the [wr] free blocks at the producer index. *)
Lemma in_flight_disjoint q wr d :
  sq_ok q -> in_flight q + wr <= wqe_cnt q -> pi q mod wqe_cnt q + wr <= wqe_cnt q ->
  0 <= d < in_flight q ->
  ~ (pi q mod wqe_cnt q <= (ci q + d) mod wqe_cnt q < pi q mod wqe_cnt q + wr).
Proof.
  intros Hok Hfit Hend Hd Hx. pose proof (wqe_cnt_pos q Hok) as Hp.
  pose proof (Z.mod_pos_bound (ci q + d) _ Hp) as Hb2.
  pose proof (Z.mod_pos_bound (pi q) _ Hp) as Hb.
  set (e := (ci q + d) mod wqe_cnt q - pi q mod wqe_cnt q).
  assert (0 <= e < wr) by (subst e; lia).
  apply (mod_ne (ci q + d) (ci q + in_flight q + e) (wqe_cnt q)); [lia|].
  rewrite <-pi_mod by done. rewrite <-(Z.add_mod_idemp_l (pi q) e) by lia.
  rewrite (Z.mod_small (pi q mod wqe_cnt q + e)) by lia. subst e. lia.
Qed.

(** Posting [wr] blocks at the producer index and advancing by [c]. *)
Lemma post_at q w wr c :
  sq_ok q -> 0 < wr <= c -> in_flight q + c <= wqe_cnt q ->
  pi q mod wqe_cnt q + wr <= wqe_cnt q ->
  let q' := advance_pi (write_wqe q (pi q) w wr) c in
  sq_ok q' /\ in_flight q' = in_flight q + c /\ in_flight_kept q q' /\
  forall k, 0 <= k < wr ->
    buf q' !! Z.to_nat (pi q mod wqe_cnt q + k) = Some (Some (w, k)).
Proof.
  intros Hok Hwr Hfit Hend. pose proof (wqe_cnt_pos q Hok) as Hp.
  pose proof (Z.mod_pos_bound (pi q) _ Hp) as Hb.
  pose proof Hok as (Hpw & Hle & Hpi & Hci & Hf & Hlb & Hlt).
  pose proof (in_flight_range q) as Hfr.
  simpl. unfold advance_pi, write_wqe. simpl. rewrite slot_mod by done.
  destruct (put_blocks_spec (buf q) (Z.to_nat (pi q mod wqe_cnt q)) w 0 (Z.to_nat wr))
    as [Hlen Hlk]; [lia|].
  assert (in_flight (mkSq (Entry := Entry) (put_blocks (buf q)
    (Z.to_nat (pi q mod wqe_cnt q)) w 0 (Z.to_nat wr)) (wqe_cnt q) (u16 (pi q + c))
    (ci q) (last_wqe q) (dbrec q) (table q)) = in_flight q + c) as Hin.
  { unfold in_flight. simpl. apply u16_sub_add. fold (in_flight q). lia. }
  split_and!.
  - unfold sq_ok. rewrite Hin. simpl. rewrite Hlen.
    split_and!; try done. apply u16_range.
  - done.
  - intros d Hd. simpl. rewrite Hlk, decide_False; [done|]. intros Hx.
    pose proof (Z.mod_pos_bound (ci q + d) _ Hp).
    apply (in_flight_disjoint q wr d); [done|lia..].
  - intros k Hk. simpl. rewrite Hlk, decide_True by lia. do 3 f_equal. lia.
Qed.

Lemma in_flight_kept_trans q q1 q2 :
  in_flight_kept q q1 -> in_flight_kept q1 q2 ->
  ci q1 = ci q -> wqe_cnt q1 = wqe_cnt q -> in_flight q <= in_flight q1 ->
  in_flight_kept q q2.
Proof.
  intros H1 H2 Hc Hw Hle d Hd. rewrite <-H1 by done. rewrite <-Hc, <-Hw. apply H2. lia.
Qed.

End Ops.

(** [cnt] whole blocks of [w] stored contiguously from index [idx]. *)
Definition holds_wqe {Entry} (q : Sq Entry) (idx : Z) (w : Wqe) (cnt : Z) : Prop :=
  idx mod wqe_cnt q + cnt <= wqe_cnt q /\
  forall k, 0 <= k < cnt -> buf q !! Z.to_nat (idx mod wqe_cnt q + k) = Some (Some (w, k)).

Lemma wqe_size_cnt inline_data sge :
  Z.of_nat (length inline_data) <= 2 ^ 16 ->
  let size := wqe_size_of inline_data sge in
  let cnt := u16 ((size + 63) / 64) in
  cnt = calc_wqebb_cnt size /\ 0 < cnt < 2 ^ 12 /\ size <= 64 * cnt < size + 64.
Proof.
  intros Hl. unfold wqe_size_of, inline_padded_size, calc_wqebb_cnt, WQEBB_SIZE.
  pose proof (land_not64 (4 + Z.of_nat (length inline_data) + 15) 4) as E.
  change (2 ^ 4 - 1) with 15 in E. rewrite E by lia. clear E.
  set (L := Z.of_nat (length inline_data)) in *.
  pose proof (Z.mod_pos_bound (4 + L + 15) (2 ^ 4)).
  set (sz := CTRL_SEG_SIZE + RDMA_SEG_SIZE + _ + _).
  assert (32 < sz < 70000).
  { subst sz. unfold CTRL_SEG_SIZE, RDMA_SEG_SIZE, DATA_SEG_SIZE. destruct sge; lia. }
  pose proof (Z.div_mod (sz + 63) 64). pose proof (Z.mod_pos_bound (sz + 63) 64).
  simpl. rewrite u16_small by lia. split; [|lia].
  replace (sz + 64 - 1) with (sz + 63) by lia. rewrite u16_small; lia.
Qed.

Lemma store_frame {Entry} (q : Sq Entry) (o : option Entry) idx d :
  let q' := match o with Some e => table_store q idx e d | None => q end in
  buf q' = buf q /\ wqe_cnt q' = wqe_cnt q /\ pi q' = pi q /\ ci q' = ci q /\
  length (table q') = length (table q).
Proof. destruct o; simpl; by rewrite ?length_insert. Qed.

(** Same indices and buffer: [sq_ok], [in_flight] and the contents carry over. *)
Lemma frame_ok {Entry} (q q' : Sq Entry) :
  buf q' = buf q -> wqe_cnt q' = wqe_cnt q -> pi q' = pi q -> ci q' = ci q ->
  length (table q') = length (table q) -> sq_ok q -> sq_ok q' /\ in_flight q' = in_flight q.
Proof.
  intros Hb Hw Hp Hc Ht Hok. unfold sq_ok, in_flight in *. by rewrite Hb, Hw, Hp, Hc, Ht.
Qed.

(** What the two emission paths share once the request is placed at [pi]. *)
Lemma place_wqe {Entry} (q : Sq Entry) w cnt size :
  sq_ok q -> 0 < cnt -> in_flight q + cnt <= wqe_cnt q ->
  pi q mod wqe_cnt q + cnt <= wqe_cnt q ->
  let q' := set_last_wqe (advance_pi (write_wqe q (pi q) w cnt) cnt) (pi q) size in
  sq_ok q' /\ in_flight q' = in_flight q + cnt /\ in_flight_kept q q' /\
  holds_wqe q' (pi q) w cnt /\ pi q' = u16 (pi q + cnt).
Proof.
  intros Hok Hc Hfit Hend.
  destruct (post_at q w cnt cnt Hok ltac:(lia) Hfit Hend) as (H1 & H2 & H3 & H4).
  split_and!; try done.
Qed.

Lemma emit_write_wrap_spec {Entry} (q : Sq Entry) rdma sge signaled data imm :
  sq_ok q -> Z.of_nat (length data) <= 2 ^ 16 ->
  (forall s, sge = Some s -> 0 < sge_len s) ->
  match emit_write_wrap q rdma sge signaled data imm with
  | (q', Ok res) =>
      sq_ok q' /\ in_flight_kept q q' /\ ci q' = ci q /\ wqe_cnt q' = wqe_cnt q /\
      in_flight q' = in_flight q + slots_to_end q + res_wqebb_cnt res /\
      pi q' = u16 (res_wqe_idx res + res_wqebb_cnt res) /\
      holds_wqe q' (res_wqe_idx res)
        (WWriteImm (res_wqe_idx res) signaled rdma imm data sge) (res_wqebb_cnt res)
  | (q', Err e) => q' = q /\ e = SqFull
  end.
Proof.
  intros Hok Hl Hsge. unfold emit_write_wrap.
  assert (match sge with
          | Some s => if 0 <? sge_len s then Some s else None
          | None => None end = sge) as ->.
  { destruct sge as [s|]; [|done]. specialize (Hsge s eq_refl).
    by replace (0 <? sge_len s) with true by lia. }
  destruct (wqe_size_cnt data sge Hl) as (Hc & Hcb & _).
  rewrite available_val by done.
  destruct (_ <? _) eqn:E; guards; [done|].
  pose proof (slots_to_end_bounds q Hok) as Hs. pose proof (in_flight_range q) as Hfr.
  assert (pi q mod wqe_cnt q + slots_to_end q = wqe_cnt q) as Hse
    by (unfold slots_to_end; rewrite slot_mod by done; lia).
  destruct (post_at q (WNop (pi q) (slots_to_end q)) 1 (slots_to_end q) Hok)
    as (Hok1 & Hf1 & Hk1 & _); [lia..|].
  set (q1 := post_nop q (slots_to_end q)).
  assert (sq_ok q1 /\ in_flight q1 = in_flight q + slots_to_end q) as [Hok1' Hf1'].
  { split; [exact Hok1|exact Hf1]. }
  assert (pi q1 mod wqe_cnt q1 = 0) as H0.
  { change (pi q1) with (u16 (pi q + slots_to_end q)).
    rewrite u16_mod by done. change (wqe_cnt q1) with (wqe_cnt q).
    rewrite <-Z.add_mod_idemp_l by (pose proof (wqe_cnt_pos q Hok); lia).
    rewrite Hse. apply Z.mod_same. pose proof (wqe_cnt_pos q Hok); lia. }
  rewrite <-Hc in *. simpl res_wqe_idx. simpl res_wqebb_cnt.
  destruct (place_wqe q1 (WWriteImm (pi q1) signaled rdma imm data sge)
    (u16 ((wqe_size_of data sge + 63) / 64)) (wqe_size_of data sge) Hok1')
    as (A & B & C & D & F);
    [lia|change (wqe_cnt q1) with (wqe_cnt q); lia
     |rewrite H0; change (wqe_cnt q1) with (wqe_cnt q); lia|].
  split_and!; try done.
  - apply (in_flight_kept_trans q q1); try done. lia.
  - lia.
Qed.

Lemma store_entry {Entry} (q : Sq Entry) (o : option Entry) idx :
  sq_ok q ->
  let q' := match o with Some e => table_store q idx e (pi q) | None => q end in
  forall e, o = Some e -> table q' !! Z.to_nat (slot q' idx) = Some (Some (e, pi q')).
Proof.
  intros Hok q' e ->. subst q'. unfold table_store, slot. simpl.
  rewrite list_lookup_insert_eq; [done|].
  fold (slot q idx). rewrite slot_mod by done.
  pose proof (wqe_cnt_pos q Hok) as Hp. pose proof (Z.mod_pos_bound idx _ Hp).
  destruct Hok as (_ & _ & _ & _ & _ & _ & ?). lia.
Qed.

Lemma emit_write_imm_spec {Entry} (q : Sq Entry) rdma imm data sge entry :
  sq_ok q -> Z.of_nat (length data) <= 2 ^ 16 ->
  (forall s, sge = Some s -> 0 < sge_len s) ->
  match emit_write_imm q rdma imm data sge entry with
  | (q', Ok res) =>
      sq_ok q' /\ in_flight_kept q q' /\ ci q' = ci q /\
      in_flight q + res_wqebb_cnt res <= in_flight q' /\
      pi q' = u16 (res_wqe_idx res + res_wqebb_cnt res) /\
      holds_wqe q' (res_wqe_idx res)
        (WWriteImm (res_wqe_idx res) (match entry with Some _ => true | None => false end)
           rdma imm data sge) (res_wqebb_cnt res) /\
      wqe_cnt q' = wqe_cnt q /\
      (forall e, entry = Some e ->
         table q' !! Z.to_nat (slot q' (res_wqe_idx res)) = Some (Some (e, pi q')))
  | (q', Err e) => q' = q /\ e = SqFull
  end.
Proof.
  intros Hok Hl Hsge. unfold emit_write_imm.
  destruct (wqe_size_cnt data sge Hl) as (Hc & Hcb & _).
  rewrite available_val by done.
  destruct (wqe_cnt q - in_flight q <? _) eqn:Eav; guards; [done|].
  pose proof (slots_to_end_bounds q Hok) as Hs. pose proof (in_flight_range q) as Hfr.
  destruct ((slots_to_end q <? _) && _) eqn:Ew.
  - pose proof (emit_write_wrap_spec q rdma sge
      (match entry with Some _ => true | None => false end) data imm Hok Hl Hsge) as Hw.
    destruct (emit_write_wrap q rdma sge _ data imm) as [q1 [res|e]]; [|done].
    destruct Hw as (A & B & C & W & D & F & G).
    destruct (store_frame q1 entry (res_wqe_idx res) (pi q1)) as (S1 & S2 & S3 & S4 & S5).
    destruct (frame_ok q1 _ S1 S2 S3 S4 S5 A) as [A' D'].
    split_and!; [done| |by rewrite S4|lia|by rewrite S3| |by rewrite S2|by apply (store_entry q1)].
    + intros d Hd. rewrite S1. by apply B.
    + destruct G as [G1 G2]. split; [by rewrite S2|intros k Hk; rewrite S1, S2; auto].
  - assert (pi q mod wqe_cnt q + u16 ((wqe_size_of data sge + 63) / 64) <= wqe_cnt q) as Hend.
    { unfold slots_to_end in *. rewrite slot_mod in * by done.
      apply andb_false_iff in Ew as [Ew|Ew]; guards; lia. }
    destruct (place_wqe q (WWriteImm (pi q)
      (match entry with Some _ => true | None => false end) rdma imm data sge)
      (u16 ((wqe_size_of data sge + 63) / 64)) (wqe_size_of data sge) Hok)
      as (A & B & C & D & F); [lia..|].
    set (q2 := set_last_wqe _ (pi q) _) in *.
    destruct (store_frame q2 entry (pi q) (pi q2)) as (S1 & S2 & S3 & S4 & S5).
    destruct (frame_ok q2 _ S1 S2 S3 S4 S5 A) as [A' D'].
    split_and!; [done| |by rewrite S4|by rewrite D', B|by rewrite S3| |by rewrite S2|by apply (store_entry q2)].
    + intros d Hd. rewrite S1. by apply C.
    + destruct D as [G1 G2]. split; [by rewrite S2|intros k Hk; rewrite S1, S2; auto].
Qed.

(** ** The queue as the device reads it

    The device takes the requests one after the other from an index it has
    reached to the producer index last shown to it.  A request is read off its
    first block; every block it is written to has to be there. *)

(** Blocks a request occupies, and how many of them are written: of a NOP only
    the first. *)
Definition wqe_blocks (w : Wqe) : Z :=
  match w with
  | WNop _ n => n
  | WRdma _ _ _ _ _ => 1
  | WWriteImm _ _ _ _ data sge => u16 ((wqe_size_of data sge + 63) / 64)
  end.

Definition written_blocks (w : Wqe) : Z :=
  match w with WNop _ _ => 1 | _ => wqe_blocks w end.

#[export] Instance sge_eq_dec : EqDecision SgeParams.
Proof. solve_decision. Defined.
#[export] Instance rdma_eq_dec : EqDecision RdmaParams.
Proof. solve_decision. Defined.
#[export] Instance wqe_eq_dec : EqDecision Wqe.
Proof. solve_decision. Defined.

Section Device.
Context {Entry : Type}.
Implicit Types (q : Sq Entry) (w : Wqe) (ws : list Wqe).

Definition whole q (idx : Z) w : bool :=
  forallb (fun k => bool_decide (buf q !! Z.to_nat (slot q idx + k) = Some (Some (w, k))))
    (seqZ 0 (written_blocks w)).

Definition fetch q (idx : Z) : option Wqe :=
  match buf q !! Z.to_nat (slot q idx) with
  | Some (Some (w, _)) => if whole q idx w then Some w else None
  | _ => None
  end.

Fixpoint fetch_from (fuel : nat) q (idx : Z) : option (list Wqe) :=
  if idx =? dbrec q then Some []
  else match fuel with
       | O => None
       | S fuel =>
           match fetch q idx with
           | None => None
           | Some w => cons w <$> fetch_from fuel q (u16 (idx + wqe_blocks w))
           end
       end.

(** The requests shown to the device from index [idx] on; no more than the queue
    has blocks. *)
Definition requests q (idx : Z) : option (list Wqe) := fetch_from (Z.to_nat (wqe_cnt q)) q idx.

(** *** What posting adds *)

Fixpoint blocks ws : Z :=
  match ws with
  | [] => 0
  | w :: ws => wqe_blocks w + blocks ws
  end.

Fixpoint placed q (idx : Z) ws : Prop :=
  match ws with
  | [] => True
  | w :: ws => 0 < wqe_blocks w /\ 0 < written_blocks w <= wqe_blocks w /\
      holds_wqe q idx w (written_blocks w) /\ placed q (u16 (idx + wqe_blocks w)) ws
  end.

(** [q'] is [q] with the requests [ws] posted behind its producer index. *)
Definition extends q q' ws : Prop :=
  sq_ok q' /\ ci q' = ci q /\ wqe_cnt q' = wqe_cnt q /\ in_flight_kept q q' /\
  in_flight q' = in_flight q + blocks ws /\ pi q' = u16 (pi q + blocks ws) /\
  placed q' (pi q) ws.

Lemma placed_blocks q idx ws : placed q idx ws -> Z.of_nat (length ws) <= blocks ws.
Proof.
  revert idx. induction ws as [|w ws IH]; intros idx; cbn; [lia|].
  intros (H & _ & _ & H'). apply IH in H'. lia.
Qed.

Lemma blocks_app ws1 ws2 : blocks (ws1 ++ ws2) = blocks ws1 + blocks ws2.
Proof. induction ws1 as [|w ws1 IH]; [done|]. cbn in *.  lia. Qed.

Lemma u16_add_l x c : u16 (u16 x + c) = u16 (x + c).
Proof. unfold u16, wrap. by rewrite Zplus_mod_idemp_l. Qed.

Lemma placed_app q idx ws1 ws2 :
  placed q idx ws1 -> placed q (u16 (idx + blocks ws1)) ws2 -> is_uint 16 idx ->
  placed q idx (ws1 ++ ws2).
Proof.
  revert idx. induction ws1 as [|w ws1 IH]; intros idx; cbn [placed app blocks].
  - rewrite Z.add_0_r. intros _ H Hi. by rewrite u16_small in H.
  - intros (H1 & H2 & H3 & H4) H5 _. split_and!; [lia..|done|].
    apply IH; [done| |apply u16_range]. rewrite u16_add_l.
    by replace (idx + wqe_blocks w + blocks ws1) with (idx + (wqe_blocks w + blocks ws1)) by lia.
Qed.

Lemma holds_wqe_fetch q idx w :
  sq_ok q -> 0 < written_blocks w -> holds_wqe q idx w (written_blocks w) ->
  fetch q idx = Some w.
Proof.
  intros Hok Hw [_ Hh]. unfold fetch, whole. rewrite slot_mod by done.
  pose proof (Hh 0 ltac:(lia)) as H0. rewrite Z.add_0_r in H0. rewrite H0.
  rewrite (proj2 (forallb_forall _ _)); [done|].
  intros k Hk. apply list_elem_of_In, elem_of_seqZ in Hk. apply bool_decide_eq_true, Hh. lia.
Qed.

(** What was posted and shown is what the device reads. *)
Lemma placed_fetch fuel q idx ws :
  sq_ok q -> is_uint 16 idx -> placed q idx ws -> dbrec q = u16 (idx + blocks ws) ->
  blocks ws < 2 ^ 16 -> (length ws <= fuel)%nat -> fetch_from fuel q idx = Some ws.
Proof.
  intros Hok. revert fuel idx. induction ws as [|w ws IH]; intros fuel idx Hi Hp Hd Hb Hf.
  - cbn in Hd. rewrite Z.add_0_r, u16_small in Hd by done.
    destruct fuel; cbn; by rewrite Hd, Z.eqb_refl.
  - destruct Hp as (H1 & H2 & H3 & H4). cbn [blocks] in *.
    pose proof (placed_blocks _ _ _ H4) as Hl.
    destruct fuel as [|fuel]; [cbn in Hf; lia|]. cbn [fetch_from].
    rewrite (proj2 (Z.eqb_neq _ _)).
    2:{ rewrite Hd. intros E. unfold is_uint in Hi.
        rewrite <-(u16_small idx) in E at 1 by done. unfold u16, wrap in E.
        apply (mod_ne idx (idx + (wqe_blocks w + blocks ws))
          (2 ^ 16)); [lia|done]. }
    rewrite (holds_wqe_fetch q idx w) by (done || lia).
    rewrite IH; [done|apply u16_range|done| |lia|cbn in Hf; lia].
    rewrite Hd, u16_add_l. f_equal. lia.
Qed.

Lemma extends_nil q : sq_ok q -> extends q q [].
Proof.
  intros Hok. pose proof Hok as (_ & _ & Hpi & _).
  split_and!; try done; cbn; rewrite Z.add_0_r; [done|]. by rewrite u16_small.
Qed.

Lemma extends_one q w :
  sq_ok q -> 0 < written_blocks w <= wqe_blocks w -> in_flight q + wqe_blocks w <= wqe_cnt q ->
  pi q mod wqe_cnt q + written_blocks w <= wqe_cnt q ->
  extends q (advance_pi (write_wqe q (pi q) w (written_blocks w)) (wqe_blocks w)) [w].
Proof.
  intros Hok Hw Hf He.
  destruct (post_at q w (written_blocks w) (wqe_blocks w) Hok Hw Hf He) as (A & B & C & D).
  split_and!; try done; cbn [blocks]; try (rewrite Z.add_0_r; done).
  cbn [placed]. split_and!; [lia..| |done]. by split.
Qed.

(** Requests stay where they are while their blocks are kept. *)
Lemma placed_ext q1 q2 c d ws :
  sq_ok q1 -> wqe_cnt q2 = wqe_cnt q1 ->
  (forall x, d <= x < d + blocks ws ->
     buf q2 !! Z.to_nat ((c + x) mod wqe_cnt q1) = buf q1 !! Z.to_nat ((c + x) mod wqe_cnt q1)) ->
  placed q1 (u16 (c + d)) ws -> placed q2 (u16 (c + d)) ws.
Proof.
  intros Hok Hw. pose proof (wqe_cnt_pos q1 Hok) as Hp. revert d.
  induction ws as [|w ws IH]; intros d Hkeep; cbn [placed blocks] in *; [done|].
  intros (H1 & H2 & [H3 H4] & H5). pose proof (placed_blocks _ _ _ H5) as Hb.
  split_and!; [lia..| |].
  - split; [by rewrite Hw|]. intros k Hk. rewrite Hw. specialize (H4 k Hk).
    rewrite u16_mod in H3, H4 |- * by done. rewrite <-H4.
    pose proof (Z.mod_pos_bound (c + d) _ Hp).
    replace ((c + d) mod wqe_cnt q1 + k) with ((c + (d + k)) mod wqe_cnt q1); [apply Hkeep; lia|].
    rewrite Z.add_assoc, <-Z.add_mod_idemp_l by lia. apply Z.mod_small. lia.
  - rewrite u16_add_l, <-Z.add_assoc in H5 |- *. apply IH; [|done].
    intros x Hx. apply Hkeep. lia.
Qed.

(** The table, the last request and the doorbell record play no part in it. *)
Lemma extends_frame q q1 q2 ws :
  extends q q1 ws -> buf q2 = buf q1 -> wqe_cnt q2 = wqe_cnt q1 -> pi q2 = pi q1 ->
  ci q2 = ci q1 -> length (table q2) = length (table q1) -> is_uint 16 (pi q) -> extends q q2 ws.
Proof.
  intros (A & B & C & D & E & F & G) Hb Hw Hp Hc Ht Hu.
  destruct (frame_ok q1 q2 Hb Hw Hp Hc Ht A) as [A' E'].
  split_and!; try congruence.
  - intros d Hd. rewrite Hb. by apply D.
  - rewrite <-(u16_small (pi q)), <-(Z.add_0_r (pi q)) in G |- * by done.
    eapply placed_ext; [exact A|done| |exact G]. intros x Hx. by rewrite Hb.
Qed.

Lemma extends_trans q q1 q2 ws1 ws2 :
  sq_ok q -> extends q q1 ws1 -> extends q1 q2 ws2 -> extends q q2 (ws1 ++ ws2).
Proof.
  intros Hok (A1 & B1 & C1 & D1 & E1 & F1 & G1) (A2 & B2 & C2 & D2 & E2 & F2 & G2).
  pose proof Hok as (_ & _ & Hpi & _). pose proof (placed_blocks _ _ _ G1) as Hb1.
  pose proof (placed_blocks _ _ _ G2) as Hb2. pose proof (wqe_cnt_pos q Hok) as Hp.
  split_and!; try congruence.
  - apply (in_flight_kept_trans q q1); (done || lia).
  - rewrite blocks_app. lia.
  - by rewrite F2, F1, u16_add_l, blocks_app, Z.add_assoc.
  - apply placed_app; [|by rewrite <-F1|done].
    rewrite <-(u16_small (pi q)), <-(Z.add_0_r (pi q)) in G1 |- * by done.
    eapply placed_ext; [exact A1|done| |exact G1]. intros x Hx.
    rewrite C1, pi_mod by done. rewrite <-C1, <-B1, <-Z.add_assoc. apply D2. 
    pose proof (in_flight_range q). lia.
Qed.

End Device.

(** A WRITE+IMM as the device executes it. *)
Record Write : Type := mkWrite {
  w_rdma : RdmaParams;
  w_imm : Z;
  w_inline : list Z;
  w_sge : option SgeParams;
}.

(** The requests without the NOPs, when all others are WRITE+IMMs. *)
Fixpoint writes (ws : list Wqe) : option (list Write) :=
  match ws with
  | [] => Some []
  | WNop _ _ :: ws => writes ws
  | WRdma _ _ _ _ _ :: _ => None
  | WWriteImm _ _ rdma imm data sge :: ws => cons (mkWrite rdma imm data sge) <$> writes ws
  end.

Lemma writes_app ws1 ws2 l1 l2 :
  writes ws1 = Some l1 -> writes ws2 = Some l2 -> writes (ws1 ++ ws2) = Some (l1 ++ l2).
Proof.
  intros H1 H2. revert l1 H1. induction ws1 as [|[] ws1 IH]; intros l1; cbn [writes app];
    [by intros [= <-]|apply IH|done|].
  destruct (writes ws1) as [l|]; [|done]. cbn. intros [= <-]. by rewrite (IH l).
Qed.

(** Emitting a WRITE+IMM extends the queue by that request, with a NOP before it
    when it would have crossed the end of the ring; it is refused only when the
    free blocks are fewer than the request and such a NOP may need. *)
Lemma emit_write_imm_extends {Entry} (q : Sq Entry) rdma imm data sge entry :
  sq_ok q -> Z.of_nat (length data) <= 2 ^ 16 ->
  (forall s, sge = Some s -> 0 < sge_len s) ->
  match emit_write_imm q rdma imm data sge entry with
  | (q', Ok res) =>
      last_wqe q' <> None /\
      exists nops, (nops = [] \/ nops = [WNop (pi q) (slots_to_end q)]) /\
        extends q q' (nops ++ [WWriteImm (res_wqe_idx res)
          (match entry with Some _ => true | None => false end) rdma imm data sge])
  | (q', Err e) => q' = q /\ e = SqFull /\
      available q + 1 < 2 * u16 ((wqe_size_of data sge + 63) / 64)
  end.
Proof.
  intros Hok Hl Hsge. unfold emit_write_imm.
  destruct (wqe_size_cnt data sge Hl) as (Hc & Hcb & _).
  set (signaled := match entry with Some _ => true | None => false end).
  set (cnt := u16 ((wqe_size_of data sge + 63) / 64)) in *.
  rewrite available_val by done.
  destruct (wqe_cnt q - in_flight q <? _) eqn:Eav; guards; [split_and!; (done || lia)|].
  pose proof (slots_to_end_bounds q Hok) as Hs. pose proof (in_flight_range q) as Hfr.
  assert (pi q mod wqe_cnt q + slots_to_end q = wqe_cnt q) as Hse
    by (unfold slots_to_end; rewrite slot_mod by done; lia).
  pose proof Hok as (_ & _ & Hpi & _).
  destruct ((slots_to_end q <? cnt) && _) eqn:Ew.
  - apply andb_true_iff in Ew as [Ew1 Ew2]. guards. unfold emit_write_wrap.
    assert (match sge with
            | Some s => if 0 <? sge_len s then Some s else None
            | None => None end = sge) as ->.
    { destruct sge as [s|]; [|done]. specialize (Hsge s eq_refl).
      by replace (0 <? sge_len s) with true by lia. }
    rewrite <-Hc, available_val by done. fold cnt.
    destruct (wqe_cnt q - in_flight q <? slots_to_end q + cnt) eqn:Et; guards; [split_and!; (done || lia)|].
    cbn [res_wqe_idx].
    set (w0 := WNop (pi q) (slots_to_end q)).
    pose proof (extends_one q w0 Hok) as H0. cbn [written_blocks wqe_blocks w0] in H0.
    specialize (H0 ltac:(lia) ltac:(lia) ltac:(lia)).
    assert (extends q (post_nop q (slots_to_end q)) [w0]) as H1 by (by eapply extends_frame).
    set (q1 := post_nop q (slots_to_end q)) in *.
    pose proof H1 as (A & B & C & D & E & F & G). cbn [blocks wqe_blocks w0] in E, F.
    set (w1 := WWriteImm (pi q1) signaled rdma imm data sge).
    pose proof (extends_one q1 w1 A) as H2. cbn [written_blocks wqe_blocks w1] in H2. fold cnt in H2.
    assert (pi q1 mod wqe_cnt q1 = 0) as Hz.
    { rewrite F, C, Z.add_0_r, u16_mod by done.
      rewrite <-Z.add_mod_idemp_l by lia. rewrite Hse. apply Z.mod_same. lia. }
    specialize (H2 ltac:(lia) ltac:(lia) ltac:(lia)).
    pose proof (extends_trans q q1 _ [w0] [w1] Hok H1 H2) as H3.
    split; [by destruct entry|]. exists [w0]. split; [by right|].
    eapply extends_frame; [exact H3|by destruct entry..| |done].
    destruct entry; cbn; by rewrite ?length_insert.
  - assert (pi q mod wqe_cnt q + cnt <= wqe_cnt q) as Hend
      by (apply andb_false_iff in Ew as [Ew|Ew]; guards; lia).
    cbn [res_wqe_idx]. set (w := WWriteImm (pi q) signaled rdma imm data sge).
    pose proof (extends_one q w Hok) as H0. cbn [written_blocks wqe_blocks w] in H0. fold cnt in H0.
    specialize (H0 ltac:(lia) ltac:(lia) ltac:(lia)).
    split; [by destruct entry|]. exists []. split; [by left|].
    eapply extends_frame; [exact H0|by destruct entry..| |done].
    destruct entry; cbn; by rewrite ?length_insert.
Qed.

(** Once the producer index is shown, the device reads just the requests posted
    since the index it had reached. *)
Lemma extends_requests {Entry} (q q' : Sq Entry) ws :
  sq_ok q -> extends q q' ws -> dbrec q' = pi q' -> requests q' (pi q) = Some ws.
Proof.
  intros Hok (A & B & C & D & E & F & G) Hd. pose proof Hok as (_ & Hle & Hpi & _).
  pose proof A as (_ & _ & _ & _ & Hf & _). pose proof (in_flight_range q).
  pose proof (placed_blocks _ _ _ G). unfold requests.
  apply placed_fetch; try done; [congruence|lia|lia].
Qed.

(** The READ or WRITE of one buffer takes the next block, on both branches. *)
Lemma emit_rdma_spec {Entry} (q : Sq Entry) read rdma sge e :
  sq_ok q ->
  if in_flight q =? wqe_cnt q then emit_rdma q read rdma sge (Some e) = (q, Err SqFull)
  else exists q', emit_rdma q read rdma sge (Some e) = (q', Ok (mkEmit (pi q) 48 1)) /\
    sq_ok q' /\ in_flight_kept q q' /\ in_flight q' = in_flight q + 1 /\ pi q' = u16 (pi q + 1) /\
    ci q' = ci q /\ wqe_cnt q' = wqe_cnt q /\ holds_wqe q' (pi q) (WRdma read (pi q) true rdma sge) 1 /\
    table q' = <[Z.to_nat (slot q (pi q)) := Some (e, pi q')]> (table q) /\
    last_wqe q' = Some (slot q (pi q), 48).
Proof.
  intros Hok. pose proof Hok as (_ & _ & _ & _ & Hf & _). unfold emit_rdma.
  rewrite available_val by done. destruct (in_flight q =? wqe_cnt q) eqn:E; guards.
  { by rewrite (proj2 (Z.ltb_lt _ _)) by lia. }
  rewrite (proj2 (Z.ltb_ge _ _)) by lia.
  pose proof (Z.mod_pos_bound (pi q) _ (wqe_cnt_pos q Hok)) as Hm.
  destruct (place_wqe q (WRdma read (pi q) true rdma sge) 1 48 Hok)
    as (A & B & C & D & F); [lia..|].
  change (CTRL_SEG_SIZE + RDMA_SEG_SIZE + DATA_SEG_SIZE) with 48.
  set (q2 := set_last_wqe _ (pi q) _) in *.
  destruct (store_frame q2 (Some e) (pi q) (pi q2)) as (S1 & S2 & S3 & S4 & S5).
  destruct (frame_ok q2 _ S1 S2 S3 S4 S5 A) as [A' D'].
  eexists. split; [done|]. by split_and!.
Qed.

(** ** Properties *)

(** Emitting a WRITE+IMM either reports [SqFull] and leaves the queue as it
    was, or stores the whole request in contiguous blocks (padding the end of
    the ring with a NOP when it would not fit there) without touching any block
    still in flight, keeps the 16-bit index invariant across index wrap-around,
    and leaves the producer index just past the request. *)
Theorem emit_write_imm_correct {Entry} (q : Sq Entry) rdma imm data sge entry :
  sq_ok q -> Z.of_nat (length data) <= 2 ^ 16 ->
  (forall s, sge = Some s -> 0 < sge_len s) ->
  match emit_write_imm q rdma imm data sge entry with
  | (q', Ok res) =>
      sq_ok q' /\ in_flight_kept q q' /\ ci q' = ci q /\
      in_flight q + res_wqebb_cnt res <= in_flight q' /\
      pi q' = u16 (res_wqe_idx res + res_wqebb_cnt res) /\
      holds_wqe q' (res_wqe_idx res)
        (WWriteImm (res_wqe_idx res) (match entry with Some _ => true | None => false end)
           rdma imm data sge) (res_wqebb_cnt res)
  | (q', Err e) => q' = q /\ e = SqFull
  end.
Proof.
  intros Hok Hl Hsge.
  pose proof (emit_write_imm_spec q rdma imm data sge entry Hok Hl Hsge) as H.
  destruct (emit_write_imm q rdma imm data sge entry) as [q' [res|e]]; [|done].
  by destruct H as (? & ? & ? & ? & ? & ? & _).
Qed.

Lemma emit_write_imm_correct_witness :
  let q := mkSq (Entry := Z) (replicate 8 None) 8 65535 65535 None 0 (replicate 8 None) in
  match emit_write_imm q (mkRdma 4096 7) 3 (replicate 100 1) None (Some 5) with
  | (q', Ok res) => pi q' = u16 (res_wqe_idx res + res_wqebb_cnt res)
  | (_, Err _) => False
  end.
Proof.
  pose proof (emit_write_imm_correct
    (mkSq (Entry := Z) (replicate 8 None) 8 65535 65535 None 0 (replicate 8 None))
    (mkRdma 4096 7) 3 (replicate 100 1) None (Some 5)) as H.
  simpl in *. apply H; [repeat split; (done || vm_compute; congruence)|vm_compute; congruence|done].
Defined.

(** Completing a signaled request returns its entry and frees it together
    with everything posted before it: the queue is empty again. *)
Theorem signaled_completion_frees {Entry} (q q' : Sq Entry) rdma imm data sge e res :
  sq_ok q -> Z.of_nat (length data) <= 2 ^ 16 ->
  (forall s, sge = Some s -> 0 < sge_len s) ->
  emit_write_imm q rdma imm data sge (Some e) = (q', Ok res) ->
  exists q'', process_completion q' (res_wqe_idx res) = (Some e, q'') /\
    in_flight q'' = 0 /\ available q'' = wqe_cnt q /\ sq_ok q''.
Proof.
  intros Hok Hl Hsge Hem.
  pose proof (emit_write_imm_spec q rdma imm data sge (Some e) Hok Hl Hsge) as H.
  rewrite Hem in H. destruct H as (Hok' & _ & _ & _ & _ & _ & Hw & Hst).
  specialize (Hst e eq_refl). unfold process_completion, table_take.
  assert (slot q' (res_wqe_idx res) = res_wqe_idx res mod wqe_cnt q') as Hsl
    by by apply slot_mod.
  rewrite Hsl in *. rewrite Hst. simpl. eexists. split; [done|].
  assert (pi q' - pi q' = 0) as E0 by lia.
  pose proof Hok' as (P1 & P2 & P3 & P4 & P5 & P6 & P7).
  unfold in_flight, available, sq_ok, in_flight. simpl. rewrite E0, length_insert.
  change (u16 0) with 0. pose proof (wqe_cnt_pos q' Hok').
  split_and!; try done; [|lia]. rewrite Z.sub_0_r, Hw. apply u16_small. lia.
Qed.

Lemma signaled_completion_frees_witness :
  exists q'', process_completion
    (emit_write_imm (sq_new 8) (mkRdma 4096 7) 3 (replicate 100 1) None (Some 5)).1 0 =
    (Some 5, q'') /\ in_flight q'' = 0.
Proof.
  destruct (signaled_completion_frees (sq_new 8)
    (emit_write_imm (sq_new 8) (mkRdma 4096 7) 3 (replicate 100 1) None (Some 5)).1
    (mkRdma 4096 7) 3 (replicate 100 1) None 5 (mkEmit 0 144 3)) as (q'' & H1 & H2 & _).
  - repeat split; (done || vm_compute; congruence).
  - vm_compute; congruence.
  - done.
  - vm_compute. reflexivity.
  - exists q''. split; [exact H1|exact H2].
Defined.

End SendQueue.
