(* ===== verification/Rc.v ===== *)
(** * Rc: the reliable-connection transport of [copyrpc/src/rc.rs]

    The endpoint state, the batched send path (metadata, messages, wrap, WQE
    emission), credit-based flow control, [call] and [reply], the receive path
    [process_cqe_static], and the context operations around them.

    [None] in the [M] monad is a panic or an out-of-bounds raw pointer write;
    [Err] is an early return that keeps the state changes made before it.  The
    [slab] crate is the parameter [Slab] with its documented contract
    [SlabLaws]. *)

From S2P Require Import Prelude FastMap Encoding Ring SendQueue.
Import Encoding SendQueue.
#[local] Open Scope prog_scope.

(** The [slab::Slab] crate: keys are [usize]. *)
Class SlabOps (Slab : Type -> Type) : Type := {
  slab_new : forall U, Slab U;
  slab_insert : forall {U}, Slab U -> U -> Z * Slab U;
  slab_try_remove : forall {U}, Slab U -> Z -> option U * Slab U;
  slab_get : forall {U}, Slab U -> Z -> option U;
}.

(** Its documented behaviour: [insert] picks a vacant key, [try_remove] returns
    what the key held and vacates it. *)
Class SlabLaws (Slab : Type -> Type) `{!SlabOps Slab} : Prop := {
  slab_get_new : forall U k, slab_get (slab_new U) k = None;
  slab_insert_vacant : forall U (s : Slab U) u,
    0 <= (slab_insert s u).1 /\ slab_get s (slab_insert s u).1 = None;
  slab_get_insert : forall U (s : Slab U) u k,
    slab_get (slab_insert s u).2 k =
    if decide (k = (slab_insert s u).1) then Some u else slab_get s k;
  slab_try_remove_get : forall U (s : Slab U) k, (slab_try_remove s k).1 = slab_get s k;
  slab_get_try_remove : forall U (s : Slab U) k k',
    slab_get (slab_try_remove s k).2 k' = if decide (k = k') then None else slab_get s k';
}.

Module Rc.

(** ** Data *)

Inductive IoError : Type :=
| DirectAccessNotInitialized
| QpConnectFailed
| Submission (e : SubmissionError).

(** [error::Error] *)
Inductive Error : Type :=
| Io (e : IoError)
| RingFull
| RemoteConsumerUnknown
| CallIdNotFound (id : Z)
| InvalidHeader
| EndpointNotFound (qpn : Z).

(** [error::CallError<U>] *)
Inductive CallError (U : Type) : Type :=
| CallRingFull (u : U)
| CallInsufficientCredit (u : U)
| CallOther (e : Error).
Arguments CallRingFull {U} _.
Arguments CallInsufficientCredit {U} _.
Arguments CallOther {U} _.

Definition into_inner {U} (e : CallError U) : option U :=
  match e with
  | CallRingFull u => Some u
  | CallInsufficientCredit u => Some u
  | CallOther _ => None
  end.

Record RemoteRingInfo : Type := mkRemote { addr : Z; rkey : Z; size : Z }.

Record EndpointConfig : Type := mkConfig {
  send_ring_size : Z;
  recv_ring_size : Z;
  cfg_max_resp_reservation : Z;
}.

Record RemoteEndpointInfo : Type := mkRemoteInfo {
  recv_ring_addr : Z;
  recv_ring_rkey : Z;
  info_recv_ring_size : Z;
  initial_credit : Z;
}.

Definition DEFAULT_RING_SIZE : Z := 1048576.
Definition SIGNAL_INTERVAL : Z := 64.
Definition MAX_INLINE_ONLY : Z := 220.
Definition MAX_INLINE_HYBRID : Z := 204.

(** [struct EndpointInner<U>]; an entry of the send queue table is a [SrqEntry],
    that is a QPN. *)
Record EndpointInner (Slab : Type -> Type) (U : Type) : Type := mkEp {
  qp : option (Sq Z);
  qpn : Z;
  send_ring : list Z;
  send_mr_addr : Z;
  send_mr_lkey : Z;
  recv_ring : list Z;
  recv_mr_addr : Z;
  recv_mr_rkey : Z;
  remote_recv_ring : option RemoteRingInfo;
  send_ring_producer : Z;
  recv_ring_producer : Z;
  last_recv_pos : Z;
  last_notified_recv_pos : Z;
  remote_consumer_pos : Z;
  unsignaled_count : Z;
  pending_calls : Slab U;
  flush_start_pos : Z;
  resp_reservation : Z;
  max_resp_reservation : Z;
  peer_credit_balance : Z;
  meta_pos : Z;
  batch_message_count : Z;
  raw_rdma_posted : Z;
  raw_rdma_done : Z;
  needs_doorbell : bool;
  is_dirty : bool;
}.
Arguments mkEp {Slab U}.
Arguments qp {Slab U} _.
Arguments qpn {Slab U} _.
Arguments send_ring {Slab U} _.
Arguments send_mr_addr {Slab U} _.
Arguments send_mr_lkey {Slab U} _.
Arguments recv_ring {Slab U} _.
Arguments recv_mr_addr {Slab U} _.
Arguments recv_mr_rkey {Slab U} _.
Arguments remote_recv_ring {Slab U} _.
Arguments send_ring_producer {Slab U} _.
Arguments recv_ring_producer {Slab U} _.
Arguments last_recv_pos {Slab U} _.
Arguments last_notified_recv_pos {Slab U} _.
Arguments remote_consumer_pos {Slab U} _.
Arguments unsignaled_count {Slab U} _.
Arguments pending_calls {Slab U} _.
Arguments flush_start_pos {Slab U} _.
Arguments resp_reservation {Slab U} _.
Arguments max_resp_reservation {Slab U} _.
Arguments peer_credit_balance {Slab U} _.
Arguments meta_pos {Slab U} _.
Arguments batch_message_count {Slab U} _.
Arguments raw_rdma_posted {Slab U} _.
Arguments raw_rdma_done {Slab U} _.
Arguments needs_doorbell {Slab U} _.
Arguments is_dirty {Slab U} _.

Section Endpoint.
Context {Slab : Type -> Type} `{!SlabOps Slab} {U : Type}.
Implicit Types e : EndpointInner Slab U.

Definition set_qp (v : option (Sq Z)) (e : EndpointInner Slab U) : EndpointInner Slab U :=
  mkEp v (qpn e) (send_ring e) (send_mr_addr e) (send_mr_lkey e) (recv_ring e) (recv_mr_addr e)
    (recv_mr_rkey e) (remote_recv_ring e) (send_ring_producer e) (recv_ring_producer e)
    (last_recv_pos e) (last_notified_recv_pos e) (remote_consumer_pos e) (unsignaled_count e)
    (pending_calls e) (flush_start_pos e) (resp_reservation e) (max_resp_reservation e)
    (peer_credit_balance e) (meta_pos e) (batch_message_count e) (raw_rdma_posted e)
    (raw_rdma_done e) (needs_doorbell e) (is_dirty e).
Definition set_send_ring (v : list Z) (e : EndpointInner Slab U) : EndpointInner Slab U :=
  mkEp (qp e) (qpn e) v (send_mr_addr e) (send_mr_lkey e) (recv_ring e) (recv_mr_addr e)
    (recv_mr_rkey e) (remote_recv_ring e) (send_ring_producer e) (recv_ring_producer e)
    (last_recv_pos e) (last_notified_recv_pos e) (remote_consumer_pos e) (unsignaled_count e)
    (pending_calls e) (flush_start_pos e) (resp_reservation e) (max_resp_reservation e)
    (peer_credit_balance e) (meta_pos e) (batch_message_count e) (raw_rdma_posted e)
    (raw_rdma_done e) (needs_doorbell e) (is_dirty e).
Definition set_recv_ring (v : list Z) (e : EndpointInner Slab U) : EndpointInner Slab U :=
  mkEp (qp e) (qpn e) (send_ring e) (send_mr_addr e) (send_mr_lkey e) v (recv_mr_addr e)
    (recv_mr_rkey e) (remote_recv_ring e) (send_ring_producer e) (recv_ring_producer e)
    (last_recv_pos e) (last_notified_recv_pos e) (remote_consumer_pos e) (unsignaled_count e)
    (pending_calls e) (flush_start_pos e) (resp_reservation e) (max_resp_reservation e)
    (peer_credit_balance e) (meta_pos e) (batch_message_count e) (raw_rdma_posted e)
    (raw_rdma_done e) (needs_doorbell e) (is_dirty e).
Definition set_remote_recv_ring (v : option RemoteRingInfo) (e : EndpointInner Slab U) : EndpointInner Slab U :=
  mkEp (qp e) (qpn e) (send_ring e) (send_mr_addr e) (send_mr_lkey e) (recv_ring e)
    (recv_mr_addr e) (recv_mr_rkey e) v (send_ring_producer e) (recv_ring_producer e)
    (last_recv_pos e) (last_notified_recv_pos e) (remote_consumer_pos e) (unsignaled_count e)
    (pending_calls e) (flush_start_pos e) (resp_reservation e) (max_resp_reservation e)
    (peer_credit_balance e) (meta_pos e) (batch_message_count e) (raw_rdma_posted e)
    (raw_rdma_done e) (needs_doorbell e) (is_dirty e).
Definition set_send_ring_producer (v : Z) (e : EndpointInner Slab U) : EndpointInner Slab U :=
  mkEp (qp e) (qpn e) (send_ring e) (send_mr_addr e) (send_mr_lkey e) (recv_ring e)
    (recv_mr_addr e) (recv_mr_rkey e) (remote_recv_ring e) v (recv_ring_producer e)
    (last_recv_pos e) (last_notified_recv_pos e) (remote_consumer_pos e) (unsignaled_count e)
    (pending_calls e) (flush_start_pos e) (resp_reservation e) (max_resp_reservation e)
    (peer_credit_balance e) (meta_pos e) (batch_message_count e) (raw_rdma_posted e)
    (raw_rdma_done e) (needs_doorbell e) (is_dirty e).
Definition set_recv_ring_producer (v : Z) (e : EndpointInner Slab U) : EndpointInner Slab U :=
  mkEp (qp e) (qpn e) (send_ring e) (send_mr_addr e) (send_mr_lkey e) (recv_ring e)
    (recv_mr_addr e) (recv_mr_rkey e) (remote_recv_ring e) (send_ring_producer e) v
    (last_recv_pos e) (last_notified_recv_pos e) (remote_consumer_pos e) (unsignaled_count e)
    (pending_calls e) (flush_start_pos e) (resp_reservation e) (max_resp_reservation e)
    (peer_credit_balance e) (meta_pos e) (batch_message_count e) (raw_rdma_posted e)
    (raw_rdma_done e) (needs_doorbell e) (is_dirty e).
Definition set_last_recv_pos (v : Z) (e : EndpointInner Slab U) : EndpointInner Slab U :=
  mkEp (qp e) (qpn e) (send_ring e) (send_mr_addr e) (send_mr_lkey e) (recv_ring e)
    (recv_mr_addr e) (recv_mr_rkey e) (remote_recv_ring e) (send_ring_producer e)
    (recv_ring_producer e) v (last_notified_recv_pos e) (remote_consumer_pos e)
    (unsignaled_count e) (pending_calls e) (flush_start_pos e) (resp_reservation e)
    (max_resp_reservation e) (peer_credit_balance e) (meta_pos e) (batch_message_count e)
    (raw_rdma_posted e) (raw_rdma_done e) (needs_doorbell e) (is_dirty e).
Definition set_last_notified_recv_pos (v : Z) (e : EndpointInner Slab U) : EndpointInner Slab U :=
  mkEp (qp e) (qpn e) (send_ring e) (send_mr_addr e) (send_mr_lkey e) (recv_ring e)
    (recv_mr_addr e) (recv_mr_rkey e) (remote_recv_ring e) (send_ring_producer e)
    (recv_ring_producer e) (last_recv_pos e) v (remote_consumer_pos e) (unsignaled_count e)
    (pending_calls e) (flush_start_pos e) (resp_reservation e) (max_resp_reservation e)
    (peer_credit_balance e) (meta_pos e) (batch_message_count e) (raw_rdma_posted e)
    (raw_rdma_done e) (needs_doorbell e) (is_dirty e).
Definition set_remote_consumer_pos (v : Z) (e : EndpointInner Slab U) : EndpointInner Slab U :=
  mkEp (qp e) (qpn e) (send_ring e) (send_mr_addr e) (send_mr_lkey e) (recv_ring e)
    (recv_mr_addr e) (recv_mr_rkey e) (remote_recv_ring e) (send_ring_producer e)
    (recv_ring_producer e) (last_recv_pos e) (last_notified_recv_pos e) v (unsignaled_count e)
    (pending_calls e) (flush_start_pos e) (resp_reservation e) (max_resp_reservation e)
    (peer_credit_balance e) (meta_pos e) (batch_message_count e) (raw_rdma_posted e)
    (raw_rdma_done e) (needs_doorbell e) (is_dirty e).
Definition set_unsignaled_count (v : Z) (e : EndpointInner Slab U) : EndpointInner Slab U :=
  mkEp (qp e) (qpn e) (send_ring e) (send_mr_addr e) (send_mr_lkey e) (recv_ring e)
    (recv_mr_addr e) (recv_mr_rkey e) (remote_recv_ring e) (send_ring_producer e)
    (recv_ring_producer e) (last_recv_pos e) (last_notified_recv_pos e) (remote_consumer_pos e)
    v (pending_calls e) (flush_start_pos e) (resp_reservation e) (max_resp_reservation e)
    (peer_credit_balance e) (meta_pos e) (batch_message_count e) (raw_rdma_posted e)
    (raw_rdma_done e) (needs_doorbell e) (is_dirty e).
Definition set_pending_calls (v : Slab U) (e : EndpointInner Slab U) : EndpointInner Slab U :=
  mkEp (qp e) (qpn e) (send_ring e) (send_mr_addr e) (send_mr_lkey e) (recv_ring e)
    (recv_mr_addr e) (recv_mr_rkey e) (remote_recv_ring e) (send_ring_producer e)
    (recv_ring_producer e) (last_recv_pos e) (last_notified_recv_pos e) (remote_consumer_pos e)
    (unsignaled_count e) v (flush_start_pos e) (resp_reservation e) (max_resp_reservation e)
    (peer_credit_balance e) (meta_pos e) (batch_message_count e) (raw_rdma_posted e)
    (raw_rdma_done e) (needs_doorbell e) (is_dirty e).
Definition set_flush_start_pos (v : Z) (e : EndpointInner Slab U) : EndpointInner Slab U :=
  mkEp (qp e) (qpn e) (send_ring e) (send_mr_addr e) (send_mr_lkey e) (recv_ring e)
    (recv_mr_addr e) (recv_mr_rkey e) (remote_recv_ring e) (send_ring_producer e)
    (recv_ring_producer e) (last_recv_pos e) (last_notified_recv_pos e) (remote_consumer_pos e)
    (unsignaled_count e) (pending_calls e) v (resp_reservation e) (max_resp_reservation e)
    (peer_credit_balance e) (meta_pos e) (batch_message_count e) (raw_rdma_posted e)
    (raw_rdma_done e) (needs_doorbell e) (is_dirty e).
Definition set_resp_reservation (v : Z) (e : EndpointInner Slab U) : EndpointInner Slab U :=
  mkEp (qp e) (qpn e) (send_ring e) (send_mr_addr e) (send_mr_lkey e) (recv_ring e)
    (recv_mr_addr e) (recv_mr_rkey e) (remote_recv_ring e) (send_ring_producer e)
    (recv_ring_producer e) (last_recv_pos e) (last_notified_recv_pos e) (remote_consumer_pos e)
    (unsignaled_count e) (pending_calls e) (flush_start_pos e) v (max_resp_reservation e)
    (peer_credit_balance e) (meta_pos e) (batch_message_count e) (raw_rdma_posted e)
    (raw_rdma_done e) (needs_doorbell e) (is_dirty e).
Definition set_peer_credit_balance (v : Z) (e : EndpointInner Slab U) : EndpointInner Slab U :=
  mkEp (qp e) (qpn e) (send_ring e) (send_mr_addr e) (send_mr_lkey e) (recv_ring e)
    (recv_mr_addr e) (recv_mr_rkey e) (remote_recv_ring e) (send_ring_producer e)
    (recv_ring_producer e) (last_recv_pos e) (last_notified_recv_pos e) (remote_consumer_pos e)
    (unsignaled_count e) (pending_calls e) (flush_start_pos e) (resp_reservation e)
    (max_resp_reservation e) v (meta_pos e) (batch_message_count e) (raw_rdma_posted e)
    (raw_rdma_done e) (needs_doorbell e) (is_dirty e).
Definition set_meta_pos (v : Z) (e : EndpointInner Slab U) : EndpointInner Slab U :=
  mkEp (qp e) (qpn e) (send_ring e) (send_mr_addr e) (send_mr_lkey e) (recv_ring e)
    (recv_mr_addr e) (recv_mr_rkey e) (remote_recv_ring e) (send_ring_producer e)
    (recv_ring_producer e) (last_recv_pos e) (last_notified_recv_pos e) (remote_consumer_pos e)
    (unsignaled_count e) (pending_calls e) (flush_start_pos e) (resp_reservation e)
    (max_resp_reservation e) (peer_credit_balance e) v (batch_message_count e)
    (raw_rdma_posted e) (raw_rdma_done e) (needs_doorbell e) (is_dirty e).
Definition set_batch_message_count (v : Z) (e : EndpointInner Slab U) : EndpointInner Slab U :=
  mkEp (qp e) (qpn e) (send_ring e) (send_mr_addr e) (send_mr_lkey e) (recv_ring e)
    (recv_mr_addr e) (recv_mr_rkey e) (remote_recv_ring e) (send_ring_producer e)
    (recv_ring_producer e) (last_recv_pos e) (last_notified_recv_pos e) (remote_consumer_pos e)
    (unsignaled_count e) (pending_calls e) (flush_start_pos e) (resp_reservation e)
    (max_resp_reservation e) (peer_credit_balance e) (meta_pos e) v (raw_rdma_posted e)
    (raw_rdma_done e) (needs_doorbell e) (is_dirty e).
Definition set_raw_rdma_done (v : Z) (e : EndpointInner Slab U) : EndpointInner Slab U :=
  mkEp (qp e) (qpn e) (send_ring e) (send_mr_addr e) (send_mr_lkey e) (recv_ring e)
    (recv_mr_addr e) (recv_mr_rkey e) (remote_recv_ring e) (send_ring_producer e)
    (recv_ring_producer e) (last_recv_pos e) (last_notified_recv_pos e) (remote_consumer_pos e)
    (unsignaled_count e) (pending_calls e) (flush_start_pos e) (resp_reservation e)
    (max_resp_reservation e) (peer_credit_balance e) (meta_pos e) (batch_message_count e)
    (raw_rdma_posted e) v (needs_doorbell e) (is_dirty e).
Definition set_needs_doorbell (v : bool) (e : EndpointInner Slab U) : EndpointInner Slab U :=
  mkEp (qp e) (qpn e) (send_ring e) (send_mr_addr e) (send_mr_lkey e) (recv_ring e)
    (recv_mr_addr e) (recv_mr_rkey e) (remote_recv_ring e) (send_ring_producer e)
    (recv_ring_producer e) (last_recv_pos e) (last_notified_recv_pos e) (remote_consumer_pos e)
    (unsignaled_count e) (pending_calls e) (flush_start_pos e) (resp_reservation e)
    (max_resp_reservation e) (peer_credit_balance e) (meta_pos e) (batch_message_count e)
    (raw_rdma_posted e) (raw_rdma_done e) v (is_dirty e).
Definition set_is_dirty (v : bool) (e : EndpointInner Slab U) : EndpointInner Slab U :=
  mkEp (qp e) (qpn e) (send_ring e) (send_mr_addr e) (send_mr_lkey e) (recv_ring e)
    (recv_mr_addr e) (recv_mr_rkey e) (remote_recv_ring e) (send_ring_producer e)
    (recv_ring_producer e) (last_recv_pos e) (last_notified_recv_pos e) (remote_consumer_pos e)
    (unsignaled_count e) (pending_calls e) (flush_start_pos e) (resp_reservation e)
    (max_resp_reservation e) (peer_credit_balance e) (meta_pos e) (batch_message_count e)
    (raw_rdma_posted e) (raw_rdma_done e) (needs_doorbell e) v.

Definition send_ring_len e : Z := Z.of_nat (length (send_ring e)).
Definition recv_ring_len e : Z := Z.of_nat (length (recv_ring e)).

(** A raw pointer write of [n] bytes at [off] into the send ring. *)
Definition raw_write {E} (off n : Z) (f : list Z -> list Z) : M (EndpointInner Slab U) E unit :=
  let* e := p_get in
  if off + n <=? send_ring_len e then p_modify (fun e => set_send_ring (f (send_ring e)) e)
  else p_panic.

(** ** Creation and connection *)

(** [EndpointInner::new]: the queue pair and the addresses and keys of the two
    registered memory regions come from the device. *)
Definition endpoint_new (config : EndpointConfig) (sq : option (Sq Z)) (n : Z)
    (saddr slkey raddr rrkey : Z) : EndpointInner Slab U :=
  let ssz := Ring.next_power_of_two (send_ring_size config) in
  let rsz := Ring.next_power_of_two (recv_ring_size config) in
  mkEp sq n (replicate (Z.to_nat ssz) 0) saddr slkey (replicate (Z.to_nat rsz) 0) raddr rrkey
    None 0 0 0 0 0 0 (slab_new U) 0 0
    (Z.min (cfg_max_resp_reservation config) (send_ring_size config / 4))
    0 0 0 0 0 false false.

(** [local_info]. *)
Definition local_info e : RemoteEndpointInfo :=
  mkRemoteInfo (recv_mr_addr e) (recv_mr_rkey e) (recv_ring_len e)
    (Z.min (max_resp_reservation e) (send_ring_len e / 4)).

(** Reserve metadata space and reset the batch. *)
Definition prepare_next_batch {E} : M (EndpointInner Slab U) E unit :=
  let* e := p_get in
  let producer := send_ring_producer e in
  p_modify (set_meta_pos producer) ;;;
  p_modify (set_batch_message_count 0) ;;;
  p_modify (set_send_ring_producer (u64 (producer + FLOW_METADATA_SIZE))).

(** [connect_ex], less the queue-pair state transition, whose failure leaves
    the first batch unprepared. *)
Definition connect_ex (remote : RemoteEndpointInfo) (qp_connects : bool)
    : M (EndpointInner Slab U) Error unit :=
  p_modify (set_remote_recv_ring (Some (mkRemote (recv_ring_addr remote)
    (recv_ring_rkey remote) (info_recv_ring_size remote)))) ;;;
  let* e := p_get in
  p_modify (set_resp_reservation
    (Z.min (max_resp_reservation e) (info_recv_ring_size remote / 4))) ;;;
  p_modify (set_peer_credit_balance (initial_credit remote)) ;;;
  if qp_connects then prepare_next_batch
  else p_fail (Io QpConnectFailed).

(** ** Send path *)

Definition emit_raw : M (EndpointInner Slab U) Error bool :=
  let* e := p_get in
  match remote_recv_ring e with
  | None => p_fail RemoteConsumerUnknown
  | Some remote_ring =>
      let start := flush_start_pos e in
      let stop := send_ring_producer e in
      if start =? stop then p_ret false
      else
        let delta := u64 (stop - start) in
        let imm := encode_imm delta in
        let start_offset := Z.land start (send_ring_len e - 1) in
        let remote_offset := Z.land start (size remote_ring - 1) in
        let remote_addr := u64 (addr remote_ring + remote_offset) in
        let count := unsignaled_count e in
        let should_signal := SIGNAL_INTERVAL <=? count in
        let entry := if should_signal then Some (qpn e) else None in
        match qp e with
        | None => p_fail (Io DirectAccessNotInitialized)
        | Some sq =>
            let* args :=
              (if delta <=? MAX_INLINE_ONLY then
                 let* inline_data :=
                   p_unwrap (slice (send_ring e) start_offset (start_offset + delta)) in
                 p_ret (inline_data, None)
               else
                 let* inline_data :=
                   p_unwrap (slice (send_ring e) start_offset
                               (start_offset + MAX_INLINE_HYBRID)) in
                 let sge_offset := start_offset + MAX_INLINE_HYBRID in
                 let sge_len := delta - MAX_INLINE_HYBRID in
                 p_ret (inline_data,
                   Some (mkSge (u64 (send_mr_addr e + sge_offset)) (u32 sge_len)
                           (send_mr_lkey e)))) in
            match emit_write_imm sq (mkRdma remote_addr (rkey remote_ring)) imm
                    args.1 args.2 entry with
            | (sq', Err err) =>
                p_modify (set_qp (Some sq')) ;;; p_fail (Io (Submission err))
            | (sq', Ok _) =>
                p_modify (set_qp (Some sq')) ;;;
                p_modify (set_unsignaled_count (if should_signal then 0 else u32 (count + 1))) ;;;
                p_modify (set_flush_start_pos stop) ;;;
                p_modify (set_needs_doorbell true) ;;;
                p_ret true
            end
        end
  end.

Definition compute_credit_grant e : Z :=
  match remote_recv_ring e with
  | None => 0
  | Some remote_ring =>
      let producer := send_ring_producer e in
      let consumer := remote_consumer_pos e in
      let in_flight := saturating_sub producer consumer in
      let current_r := resp_reservation e in
      let max_by_invariant :=
        saturating_sub (saturating_sub (size remote_ring) in_flight / 2) current_r in
      let max_by_policy := saturating_sub (max_resp_reservation e) current_r in
      let grant := Z.min max_by_invariant max_by_policy in
      Z.land grant (not64 (ALIGNMENT - 1))
  end.

Definition fill_metadata {E} : M (EndpointInner Slab U) E unit :=
  let* e := p_get in
  let meta_offset := Z.land (meta_pos e) (send_ring_len e - 1) in
  let ring_credit_return := u64 (last_recv_pos e - last_notified_recv_pos e) in
  p_modify (set_last_notified_recv_pos (last_recv_pos e)) ;;;
  let credit_grant := compute_credit_grant e in
  let message_count := batch_message_count e in
  p_modify (fun e => set_resp_reservation (u64 (resp_reservation e + credit_grant)) e) ;;;
  raw_write meta_offset FLOW_METADATA_SIZE (fun ring =>
    encode_flow_metadata ring (Z.to_nat meta_offset) ring_credit_return credit_grant
      message_count).

Definition emit_wqe : M (EndpointInner Slab U) Error bool :=
  let* e := p_get in
  if batch_message_count e =? 0 then p_ret false
  else
    fill_metadata ;;;
    emit_raw ;;;
    prepare_next_batch ;;;
    p_ret true.

Definition flush : M (EndpointInner Slab U) Error unit :=
  emit_wqe ;;;
  let* e := p_get in
  if needs_doorbell e then
    p_modify (fun e => set_qp (ring_doorbell_bf <$> qp e) e) ;;;
    p_modify (set_needs_doorbell false)
  else p_ret tt.

Definition has_pending_send e : bool := (0 <? batch_message_count e) || needs_doorbell e.

Definition emit_wrap : M (EndpointInner Slab U) Error unit :=
  let* e := p_get in
  let mpos := meta_pos e in
  p_modify (set_send_ring_producer mpos) ;;;
  let ring_size := send_ring_len e in
  let offset := Z.land mpos (ring_size - 1) in
  let remaining := ring_size - offset in
  let ring_credit_return := u64 (last_recv_pos e - last_notified_recv_pos e) in
  p_modify (set_last_notified_recv_pos (last_recv_pos e)) ;;;
  let* e1 := p_get in
  let credit_grant := compute_credit_grant e1 in
  p_modify (fun e => set_resp_reservation (u64 (resp_reservation e + credit_grant)) e) ;;;
  raw_write offset FLOW_METADATA_SIZE (fun ring =>
    encode_flow_metadata ring (Z.to_nat offset) ring_credit_return credit_grant
      WRAP_MESSAGE_COUNT) ;;;
  p_modify (set_send_ring_producer (u64 (mpos + remaining))) ;;;
  emit_raw ;;;
  prepare_next_batch.

Definition handle_wrap_if_needed (total_size : Z) : M (EndpointInner Slab U) Error bool :=
  let* e := p_get in
  let producer := send_ring_producer e in
  let ring_size := send_ring_len e in
  let meta_offset := Z.land (meta_pos e) (ring_size - 1) in
  let batch_span := u64 (u64 (producer - meta_pos e) + total_size) in
  if u64 (meta_offset + batch_span) <? ring_size then p_ret false
  else
    (if 0 <? batch_message_count e then
       fill_metadata ;;;
       emit_raw ;;;
       p_modify (fun e => set_flush_start_pos (send_ring_producer e) e) ;;;
       prepare_next_batch
     else p_ret tt) ;;;
    emit_wrap ;;;
    p_ret true.

(** ** Calls and replies

    The state is the endpoint with the queue of dirty endpoints it shares with
    its context; [self] names the endpoint in that queue. *)

Definition on_inner {E A} (m : M (EndpointInner Slab U) E A)
    : M (EndpointInner Slab U * list Z) E A :=
  fun '(e, dq) => match m e with
                  | None => None
                  | Some (e', r) => Some ((e', dq), r)
                  end.

Definition map_err {S E E' A} (f : E -> E') (m : M S E A) : M S E' A :=
  fun s => match m s with
           | None => None
           | Some (s', Ok a) => Some (s', Ok a)
           | Some (s', Err e) => Some (s', Err (f e))
           end.

Definition mark_dirty {E} (self : Z) : M (EndpointInner Slab U * list Z) E unit :=
  fun '(e, dq) =>
    if is_dirty e then Some ((e, dq), Ok tt)
    else Some ((set_is_dirty true e, dq ++ [self]), Ok tt).

(** [internal_allowance] of [call]: padded response plus metadata, aligned up. *)
Definition internal_allowance (response_allowance : Z) : Z :=
  let resp_msg_size := padded_message_size (u32 response_allowance) in
  align_up_mask (resp_msg_size + FLOW_METADATA_SIZE) ALIGNMENT.

(** Header and payload copied to the send ring at [producer]. *)
Definition write_message {E} (send_offset call_id piggyback : Z) (data : list Z)
    : M (EndpointInner Slab U) E unit :=
  raw_write send_offset (HEADER_SIZE + Z.of_nat (length data)) (fun ring =>
    write_bytes
      (encode_header ring (Z.to_nat send_offset) call_id piggyback
         (u32 (Z.of_nat (length data))))
      (Z.to_nat send_offset + Z.to_nat HEADER_SIZE) data).

Definition call (self : Z) (data : list Z) (user_data : U) (response_allowance : Z)
    : M (EndpointInner Slab U * list Z) (CallError U) Z :=
  let* s := p_get in
  match remote_recv_ring s.1 with
  | None => p_fail (CallOther RemoteConsumerUnknown)
  | Some remote_ring =>
      let allowance := internal_allowance response_allowance in
      if peer_credit_balance s.1 <? allowance then
        map_err CallOther (on_inner flush) ;;;
        p_fail (CallInsufficientCredit user_data)
      else
        let msg_size := padded_message_size (u32 (Z.of_nat (length data))) in
        map_err CallOther (on_inner (handle_wrap_if_needed msg_size)) ;;;
        let* s := p_get in
        let producer := send_ring_producer s.1 in
        let consumer := remote_consumer_pos s.1 in
        let available :=
          saturating_sub (size remote_ring) (saturating_sub producer consumer) in
        let reserved := u64 (2 * resp_reservation s.1) in
        if available <? u64 (msg_size + reserved) then
          map_err CallOther (on_inner flush) ;;;
          p_fail (CallRingFull user_data)
        else
          let '(key, slab') := slab_insert (pending_calls s.1) user_data in
          let call_id := u32 key in
          on_inner (p_modify (set_pending_calls slab')) ;;;
          let send_offset := Z.land producer (send_ring_len s.1 - 1) in
          let response_allowance_blocks := u32 (allowance / ALIGNMENT) in
          on_inner (write_message send_offset call_id response_allowance_blocks data) ;;;
          on_inner (p_modify (set_send_ring_producer (u64 (producer + msg_size)))) ;;;
          on_inner (p_modify (fun e =>
            set_batch_message_count (u32 (batch_message_count e + 1)) e)) ;;;
          mark_dirty self ;;;
          on_inner (p_modify (fun e =>
            set_peer_credit_balance (u64 (peer_credit_balance e - allowance)) e)) ;;;
          p_ret call_id
  end.

(** [RecvHandle::reply]: [call_id] and [response_allowance] are the fields of the
    handle. *)
Definition reply (self call_id response_allowance : Z) (data : list Z)
    : M (EndpointInner Slab U * list Z) Error unit :=
  let* s := p_get in
  match remote_recv_ring s.1 with
  | None => p_fail RemoteConsumerUnknown
  | Some _ =>
      let msg_size := padded_message_size (u32 (Z.of_nat (length data))) in
      on_inner (handle_wrap_if_needed msg_size) ;;;
      on_inner (p_modify (fun e => set_resp_reservation
        (saturating_sub (resp_reservation e) response_allowance) e)) ;;;
      let* s := p_get in
      let producer := send_ring_producer s.1 in
      let send_offset := Z.land producer (send_ring_len s.1 - 1) in
      on_inner (write_message send_offset (to_response_id call_id) 0 data) ;;;
      on_inner (p_modify (set_send_ring_producer (u64 (producer + msg_size)))) ;;;
      on_inner (p_modify (fun e =>
        set_batch_message_count (u32 (batch_message_count e + 1)) e)) ;;;
      mark_dirty self
  end.

Definition raw_rdma_pending e : Z := u32 (raw_rdma_posted e - raw_rdma_done e).

(** ** Receive path *)

(** [struct RecvMessage<U>]; [endpoint] names the endpoint in the context. *)
Record RecvMessage : Type := mkRecv {
  endpoint : Z;
  msg_qpn : Z;
  call_id : Z;
  data_offset : Z;
  data_len : Z;
  response_allowance : Z;
}.

(** What [process_cqe_static] changes: the endpoint, the stack of received
    requests (last pushed first), and the responses handed to [on_response]. *)
Record RecvState : Type := mkRecvState {
  rs_ep : EndpointInner Slab U;
  rs_stack : list RecvMessage;
  rs_responses : list (U * list Z);
}.

(** One iteration of the message loop. *)
Definition process_message (self qpn : Z) (st : RecvState) : option RecvState :=
  let e := rs_ep st in
  let pos := last_recv_pos e in
  let header_offset := Z.land pos (recv_ring_len e - 1) in
  if recv_ring_len e <? header_offset + HEADER_SIZE then None
  else
    let '(cid, piggyback, payload_len) :=
      decode_header (recv_ring e) (Z.to_nat header_offset) in
    let msg_size := padded_message_size payload_len in
    let e1 := set_last_recv_pos (u64 (pos + msg_size)) e in
    if is_response cid then
      let original_call_id := from_response_id cid in
      let '(user_data, slab') := slab_try_remove (pending_calls e1) original_call_id in
      let e2 := set_pending_calls slab' e1 in
      match user_data with
      | Some u =>
          let doff := header_offset + HEADER_SIZE in
          match slice (recv_ring e2) doff (doff + payload_len) with
          | Some data => Some (mkRecvState e2 (rs_stack st) (rs_responses st ++ [(u, data)]))
          | None => None
          end
      | None => Some (mkRecvState e2 (rs_stack st) (rs_responses st))
      end
    else
      let allowance := u64 (piggyback * ALIGNMENT) in
      Some (mkRecvState e1
        (mkRecv self qpn cid (header_offset + HEADER_SIZE) payload_len allowance :: rs_stack st)
        (rs_responses st)).

Fixpoint process_messages (self qpn : Z) (n : nat) (st : RecvState) : option RecvState :=
  match n with
  | O => Some st
  | S n => match process_message self qpn st with
           | Some st' => process_messages self qpn n st'
           | None => None
           end
  end.

(** [process_cqe_static] once the endpoint has been found. *)
Definition process_cqe (self qpn imm : Z) (st : RecvState) : option RecvState :=
  let delta := decode_imm imm in
  let e := rs_ep st in
  let e := set_recv_ring_producer (u64 (recv_ring_producer e + delta)) e in
  let pos := last_recv_pos e in
  let meta_offset := Z.land pos (recv_ring_len e - 1) in
  if recv_ring_len e <? meta_offset + FLOW_METADATA_SIZE then None
  else
    let '(ring_credit_return, credit_grant, message_count) :=
      decode_flow_metadata (recv_ring e) (Z.to_nat meta_offset) in
    let e := set_remote_consumer_pos (u64 (remote_consumer_pos e + ring_credit_return)) e in
    let e := set_peer_credit_balance (u64 (peer_credit_balance e + credit_grant)) e in
    let e := set_last_recv_pos (u64 (pos + FLOW_METADATA_SIZE)) e in
    if message_count =? WRAP_MESSAGE_COUNT then
      let pos := last_recv_pos e in
      let recv_len := recv_ring_len e in
      let offset := Z.land pos (recv_len - 1) in
      let remaining := recv_len - offset in
      Some (mkRecvState (set_last_recv_pos (u64 (pos + remaining)) e)
              (rs_stack st) (rs_responses st))
    else
      process_messages self qpn (Z.to_nat message_count)
        (mkRecvState e (rs_stack st) (rs_responses st)).

End Endpoint.
End Rc.
