(* ===== verification/RcBatch.v ===== *)
(** * RcBatch: the send path of the RC endpoint keeps its invariant

    The endpoint invariant [ep_ok], and that metadata, WQE emission, wrap,
    [flush], [call] and [reply] keep it without a panic or an out-of-bounds
    write; the flow-control inequality; what each emitted work request carries. *)

From S2P Require Import Prelude FastMap Encoding Ring SendQueue Rc.
Import Encoding SendQueue Rc.
#[local] Open Scope prog_scope.

Module RcBatch.

Section Batch.
Context {Slab : Type -> Type} `{!SlabOps Slab} {U : Type}.
Implicit Types e : EndpointInner Slab U.

(** Invariant of a connected endpoint whose two rings (its send ring and the
    peer's receive ring) have [C] bytes: the open batch lies in one ring cycle,
    positions are aligned and have not overflowed, the reservation respects its
    limit, and the peer has acknowledged only what was sent. *)
Record ep_ok (C : Z) (e : EndpointInner Slab U) : Prop := mk_ep_ok {
  ok_len : send_ring_len e = C;
  ok_pow : exists k, 6 <= k <= 31 /\ C = 2 ^ k;
  ok_remote : exists rr, remote_recv_ring e = Some rr /\ size rr = C;
  ok_sq : exists sq, qp e = Some sq /\ sq_ok sq;
  ok_flush : flush_start_pos e = meta_pos e;
  ok_meta : 0 <= meta_pos e /\ meta_pos e mod 32 = 0;
  ok_prod : meta_pos e + 32 <= send_ring_producer e /\ send_ring_producer e mod 32 = 0 /\
            send_ring_producer e < 2 ^ 64;
  ok_span : meta_pos e mod C + (send_ring_producer e - meta_pos e) <= C;
  ok_recv : 0 <= last_notified_recv_pos e <= last_recv_pos e /\ last_recv_pos e < 2 ^ 64;
  ok_res : 0 <= resp_reservation e <= max_resp_reservation e /\ 4 * max_resp_reservation e <= C;
  ok_cons : 0 <= remote_consumer_pos e <= meta_pos e;
  ok_count : 0 <= batch_message_count e /\
             32 * batch_message_count e <= send_ring_producer e - meta_pos e - 32;
}.

(** The fields the send path leaves alone. *)
Definition same_peer (e e' : EndpointInner Slab U) : Prop :=
  remote_recv_ring e' = remote_recv_ring e /\ recv_ring e' = recv_ring e /\
  pending_calls e' = pending_calls e /\ peer_credit_balance e' = peer_credit_balance e /\
  remote_consumer_pos e' = remote_consumer_pos e /\ last_recv_pos e' = last_recv_pos e /\
  recv_ring_producer e' = recv_ring_producer e /\
  max_resp_reservation e' = max_resp_reservation e /\ is_dirty e' = is_dirty e.

(** The send queue of [e] refused a request: fewer than seven of its blocks are
    free, which is what the four blocks of a request and a NOP before it may
    need. *)
Definition sq_refused (err : Error) e : Prop :=
  err = Io (Submission SqFull) /\ exists sq, qp e = Some sq /\ available sq < 7.

(** State after [fill_metadata]. *)
Definition filled e : EndpointInner Slab U :=
  let grant := compute_credit_grant e in
  set_send_ring
    (encode_flow_metadata (send_ring e) (Z.to_nat (meta_pos e mod send_ring_len e))
       (u64 (last_recv_pos e - last_notified_recv_pos e)) grant (batch_message_count e))
    (set_resp_reservation (u64 (resp_reservation e + grant))
       (set_last_notified_recv_pos (last_recv_pos e) e)).

(** State after [prepare_next_batch]. *)
Definition prepared e : EndpointInner Slab U :=
  set_send_ring_producer (u64 (send_ring_producer e + 32))
    (set_batch_message_count 0 (set_meta_pos (send_ring_producer e) e)).

(** State after a successful [emit_raw] with send queue [sq] and counter [n]. *)
Definition emitted (sq : Sq Z) (n : Z) e : EndpointInner Slab U :=
  set_needs_doorbell true (set_flush_start_pos (send_ring_producer e)
    (set_unsignaled_count n (set_qp (Some sq) e))).

(** ** Ring arithmetic *)

Lemma ring_pos C e : ep_ok C e -> 64 <= C < 2 ^ 32 /\ C mod 32 = 0.
Proof.
  intros Hok. destruct (ok_pow C e Hok) as (k & Hk & ->).
  assert (2 ^ 6 <= 2 ^ k) by (apply Z.pow_le_mono_r; lia).
  assert (2 ^ k <= 2 ^ 31) by (apply Z.pow_le_mono_r; lia).
  split; [lia|]. replace k with (5 + (k - 5)) by lia.
  rewrite Z.pow_add_r by lia. change (2 ^ 5) with 32.
  rewrite Z.mul_comm. by apply Z.mod_mul.
Qed.

Lemma ring_land C e pos : ep_ok C e -> Z.land pos (C - 1) = pos mod C.
Proof. intros Hok. destruct (ok_pow C e Hok) as (k & Hk & ->). apply land_mask. lia. Qed.

Lemma ring_divide C e : ep_ok C e -> (32 | C).
Proof. intros Hok. apply Z.mod_divide; [done|]. by apply (ring_pos C e). Qed.

Lemma offset_bounds C e pos : ep_ok C e -> 0 <= pos mod C < C.
Proof. intros Hok. pose proof (ring_pos C e Hok). apply Z.mod_pos_bound. lia. Qed.

Lemma offset_aligned C e pos : ep_ok C e -> pos mod 32 = 0 -> (pos mod C) mod 32 = 0.
Proof. intros Hok H. apply aligned_mod; [by apply (ring_divide C e)|done]. Qed.

(** An aligned offset leaves room for 32 bytes. *)
Lemma offset_room C e pos : ep_ok C e -> pos mod 32 = 0 -> pos mod C + 32 <= C.
Proof.
  intros Hok H. pose proof (ring_pos C e Hok) as [? ?].
  pose proof (offset_bounds C e pos Hok).
  apply aligned_lt_le; [lia|by apply (offset_aligned C e)|done|lia].
Qed.

(** Inside a cycle the offset grows with the position. *)
Lemma mod_advance C p q : 0 < C -> p <= q -> p mod C + (q - p) < C ->
  q mod C = p mod C + (q - p).
Proof.
  intros HC Hpq Hlt. pose proof (Z.mod_pos_bound p C HC).
  replace q with (p + (q - p)) at 1 by lia.
  rewrite <-Z.add_mod_idemp_l by lia. apply Z.mod_small. lia.
Qed.

(** ** Credit grants *)

(** The remote ring size and in-flight bytes as the code computes them. *)
Definition in_flight_bytes e : Z := saturating_sub (send_ring_producer e) (remote_consumer_pos e).

Lemma grant_bounds C e :
  (exists rr, remote_recv_ring e = Some rr /\ size rr = C) ->
  0 <= resp_reservation e <= max_resp_reservation e /\ 4 * max_resp_reservation e <= C ->
  C < 2 ^ 32 ->
  let g := compute_credit_grant e in
  0 <= g /\ g mod 32 = 0 /\ resp_reservation e + g <= max_resp_reservation e /\
  (0 < g -> in_flight_bytes e + 2 * (resp_reservation e + g) <= C).
Proof.
  intros (rr & Hrr & Hsz) [[Hr Hrm] Hm] Hc. simpl.
  unfold compute_credit_grant, in_flight_bytes. rewrite Hrr, Hsz.
  set (inf := saturating_sub (send_ring_producer e) (remote_consumer_pos e)).
  set (r := resp_reservation e) in *. set (mx := max_resp_reservation e) in *.
  set (g0 := Z.min _ _).
  assert (0 <= g0 <= mx - r) as Hg0 by (subst g0; unfold saturating_sub; lia).
  assert (0 < g0 -> inf + 2 * (r + g0) <= C) as Hi.
  { subst g0. unfold saturating_sub. intros Hp.
    pose proof (Z.mul_div_le (Z.max 0 (C - inf)) 2). lia. }
  pose proof (land_not64 g0 5) as E. change (2 ^ 5) with 32 in E.
  change (not64 (ALIGNMENT - 1)) with (not64 (32 - 1)). rewrite E by lia. clear E.
  pose proof (Z.mod_pos_bound g0 32).
  split_and!; [|by rewrite Zminus_mod, Z.mod_mod, Z.sub_diag by done|lia|].
  - pose proof (Z.mod_le g0 32). lia.
  - intros Hp. assert (0 < g0) as Hp' by lia. specialize (Hi Hp'). lia.
Qed.

(** Where the bytes that reach the peer end: an empty batch is never sent. *)
Definition batch_end e : Z :=
  if batch_message_count e =? 0 then meta_pos e else send_ring_producer e.

(** Bytes in flight plus twice the reservation: the left side of the
    flow-control inequality [in_flight + 2 R <= C]. *)
Definition load e : Z := batch_end e - remote_consumer_pos e + 2 * resp_reservation e.

(** The flow-control inequality, and the open batch as the operations leave it:
    an empty one is just its metadata, a non-empty one ends before the end of
    the cycle. *)
Definition flow_ok (C : Z) e : Prop :=
  load e <= C /\
  (batch_message_count e = 0 -> send_ring_producer e = meta_pos e + 32) /\
  (0 < batch_message_count e -> meta_pos e mod C + (send_ring_producer e - meta_pos e) < C).

(** ** Primitive steps *)

Lemma wp_raw_write {E} off n f (Q : unit -> EndpointInner Slab U -> Prop) (R : E -> _ -> Prop) e :
  off + n <= send_ring_len e -> Q tt (set_send_ring (f (send_ring e)) e) ->
  wp (raw_write off n f) Q R e.
Proof.
  intros Hle HQ. unfold raw_write. repeat wp_step.
  rewrite (proj2 (Z.leb_le _ _)) by done. by apply wp_modify.
Qed.

Lemma length_encode_metadata ring off a b c :
  (off + 32 <= length ring)%nat -> length (encode_flow_metadata ring off a b c) = length ring.
Proof.
  intros H. rewrite encode_flow_metadata_bytes by done.
  apply length_write_bytes. lia.
Qed.

Lemma filled_ok C e : ep_ok C e -> ep_ok C (filled e).
Proof.
  intros Hok. pose proof (ring_pos C e Hok) as [Hc _].
  destruct (grant_bounds C e (ok_remote C e Hok) (ok_res C e Hok)) as (Hg & _ & Hm & _);
    [lia|].
  pose proof (offset_bounds C e (meta_pos e) Hok) as Hb.
  pose proof (offset_room C e (meta_pos e) Hok (proj2 (ok_meta C e Hok))) as Hroom.
  destruct Hok as [Hl Hp Hr Hs Hf Hmt Hpr Hsp Hrc Hrs Hcs Hct].
  constructor; try done; cbn.
  - unfold filled, send_ring_len at 1. cbn. rewrite length_encode_metadata; [done|].
    rewrite Hl. unfold send_ring_len in Hl. lia.
  - lia.
  - rewrite u64_small by lia. lia.
Qed.

Lemma wp_fill_metadata {E} C e (Q : unit -> EndpointInner Slab U -> Prop) (R : E -> _ -> Prop) :
  ep_ok C e -> Q tt (filled e) -> wp fill_metadata Q R e.
Proof.
  intros Hok HQ. unfold fill_metadata. repeat wp_step.
  pose proof (ok_len C e Hok) as Hl. rewrite Hl, (ring_land C e) by done.
  apply wp_raw_write.
  - unfold send_ring_len in *. cbn. unfold FLOW_METADATA_SIZE. rewrite Hl.
    apply (offset_room C e); [done|apply Hok].
  - unfold filled in HQ. rewrite Hl in HQ. exact HQ.
Qed.

Lemma wp_prepare_next_batch {E} e (Q : unit -> EndpointInner Slab U -> Prop) (R : E -> _ -> Prop) :
  Q tt (prepared e) -> wp prepare_next_batch Q R e.
Proof. intros HQ. unfold prepare_next_batch. repeat wp_step. exact HQ. Qed.

(** After a successful emission the next batch starts where the last one ended. *)
Lemma prepared_emitted_ok C sq n e :
  ep_ok C e -> sq_ok sq -> send_ring_producer e + 32 < 2 ^ 64 ->
  ep_ok C (prepared (emitted sq n e)).
Proof.
  intros Hok Hsq Hlt. pose proof (ring_pos C e Hok) as [Hc Hc32].
  pose proof (offset_room C e (send_ring_producer e) Hok
    (proj1 (proj2 (ok_prod C e Hok)))) as Hroom.
  destruct Hok as [Hl Hp Hr Hs Hf Hmt Hpr Hsp Hrc Hrs Hcs Hct].
  constructor; try done; cbn; rewrite ?u64_small by lia; try lia.
  - eauto.
  - split_and!; [lia| |lia]. apply aligned_add; [apply Hpr|done].
Qed.

(** The data a WRITE+IMM carries for the batch [start, stop): inline bytes and,
    beyond [MAX_INLINE_ONLY], an SGE for the rest. *)
Definition wqe_args e (start_offset delta : Z) : list Z * option SgeParams :=
  if delta <=? MAX_INLINE_ONLY
  then (read_bytes (send_ring e) (Z.to_nat start_offset) (Z.to_nat delta), None)
  else (read_bytes (send_ring e) (Z.to_nat start_offset) (Z.to_nat MAX_INLINE_HYBRID),
        Some (mkSge (u64 (send_mr_addr e + (start_offset + MAX_INLINE_HYBRID)))
                (delta - MAX_INLINE_HYBRID) (send_mr_lkey e))).

Lemma wqe_args_spec C e delta :
  ep_ok C e -> 0 < delta -> meta_pos e mod C + delta <= C ->
  Z.of_nat (length (wqe_args e (meta_pos e mod C) delta).1) <= 2 ^ 16 /\
  (forall s, (wqe_args e (meta_pos e mod C) delta).2 = Some s -> 0 < sge_len s).
Proof.
  intros Hok Hd Hle. pose proof (offset_bounds C e (meta_pos e) Hok).
  pose proof (ok_len C e Hok) as Hl. unfold send_ring_len in Hl.
  unfold wqe_args, MAX_INLINE_ONLY, MAX_INLINE_HYBRID.
  destruct (delta <=? 220) eqn:E; guards; cbn [fst snd];
    rewrite length_read_bytes by lia; (split; [lia|]).
  - done.
  - intros s [= <-]. cbn. lia.
Qed.

Lemma set_qp_id sq e : qp e = Some sq -> set_qp (Some sq) e = e.
Proof. destruct e; cbn. by intros <-. Qed.

(** The WRITE+IMM for the whole open batch of [e], to the same offset of the
    peer's ring. *)
Definition batch_write (C : Z) e : Write :=
  let rr := default (mkRemote 0 0 0) (remote_recv_ring e) in
  let delta := send_ring_producer e - meta_pos e in
  let args := wqe_args e (meta_pos e mod C) delta in
  mkWrite (mkRdma (u64 (addr rr + meta_pos e mod C)) (rkey rr)) (encode_imm delta) args.1 args.2.

(** The send queue of [e'] is that of [e] with the requests [ws] posted. *)
Definition posts e e' (ws : list Write) : Prop :=
  exists sq sq' wqes, qp e = Some sq /\ qp e' = Some sq' /\ sq_ok sq /\
    extends sq sq' wqes /\ writes wqes = Some ws.

(** Requests were posted that the device has not been shown, and it has been
    shown all of them. *)
Definition unshown e : Prop :=
  needs_doorbell e = true /\ exists sq, qp e = Some sq /\ last_wqe sq <> None.
Definition shown e : Prop := exists sq, qp e = Some sq /\ dbrec sq = pi sq.

Lemma posts_trans e e1 e2 ws1 ws2 :
  posts e e1 ws1 -> posts e1 e2 ws2 -> posts e e2 (ws1 ++ ws2).
Proof.
  intros (q & q1 & l1 & E1 & E2 & Hq & H1 & W1) (q1' & q2 & l2 & E3 & E4 & _ & H2 & W2).
  simplify_eq. exists q, q2, (l1 ++ l2). split_and!; [done..| |by apply writes_app].
  by eapply extends_trans.
Qed.

(** Once shown, the device reads just the requests posted since. *)
Lemma posts_requests e e' sq sq' ws :
  posts e e' ws -> qp e = Some sq -> qp e' = Some sq' -> shown e' ->
  requests sq' (pi sq) ≫= writes = Some ws.
Proof.
  intros (q & q' & l & E1 & E2 & Hq & H1 & W) E3 E4 (q2 & E5 & Hd). simplify_eq.
  by rewrite (extends_requests _ _ _ Hq H1 Hd).
Qed.

(** No request of the transport takes more than four blocks. *)
Lemma wqe_args_blocks C e delta :
  ep_ok C e -> 0 < delta -> meta_pos e mod C + delta <= C ->
  let args := wqe_args e (meta_pos e mod C) delta in
  u16 ((wqe_size_of args.1 args.2 + 63) / 64) <= 4.
Proof.
  intros Hok Hd Hle. cbv zeta. pose proof (offset_bounds C e (meta_pos e) Hok).
  pose proof (ok_len C e Hok) as Hl. unfold send_ring_len in Hl.
  destruct (wqe_args_spec C e delta Hok Hd Hle) as [Ha _].
  destruct (wqe_size_cnt _ (wqe_args e (meta_pos e mod C) delta).2 Ha) as (_ & _ & Hc).
  cbv zeta in Hc. revert Hc. set (args := wqe_args _ _ _) in *. intros Hc.
  assert (wqe_size_of args.1 args.2 <= 256); [|lia]. clear Hc.
  unfold wqe_size_of, inline_padded_size.
  pose proof (land_not64 (4 + Z.of_nat (length args.1) + 15) 4) as E.
  change (2 ^ 4 - 1) with 15 in E. rewrite E by lia. clear E.
  unfold CTRL_SEG_SIZE, RDMA_SEG_SIZE, DATA_SEG_SIZE. subst args.
  unfold wqe_args, MAX_INLINE_ONLY, MAX_INLINE_HYBRID.
  destruct (delta <=? 220) eqn:E; guards; cbn [fst snd]; rewrite length_read_bytes by lia.
  - pose proof (Z.div_mod (4 + Z.of_nat (Z.to_nat delta) + 15) (2 ^ 4) ltac:(lia)).
    pose proof (Z.mod_pos_bound (4 + Z.of_nat (Z.to_nat delta) + 15) (2 ^ 4) ltac:(lia)). lia.
  - change (Z.of_nat (Z.to_nat 204)) with 204. change ((4 + 204 + 15) mod 2 ^ 4) with 15. lia.
Qed.

Lemma wp_emit_raw C e (Q : bool -> EndpointInner Slab U -> Prop) (R : Error -> _ -> Prop) :
  ep_ok C e ->
  (forall sq' n, sq_ok sq' -> posts e (emitted sq' n e) [batch_write C e] ->
     unshown (emitted sq' n e) -> Q true (emitted sq' n e)) ->
  (sq_refused (Io (Submission SqFull)) e -> R (Io (Submission SqFull)) e) ->
  wp emit_raw Q R e.
Proof.
  intros Hok HQ HR. pose proof (ring_pos C e Hok) as [Hc _].
  destruct (ok_remote C e Hok) as (rr & Hrr & Hsz).
  destruct (ok_sq C e Hok) as (sq & Hqp & Hsq).
  destruct (ok_prod C e Hok) as (Hp1 & Hp2 & Hp3).
  pose proof (ok_span C e Hok) as Hspan. pose proof (ok_flush C e Hok) as Hfl.
  pose proof (ok_meta C e Hok) as [Hm0 _].
  pose proof (offset_bounds C e (meta_pos e) Hok) as Hoff.
  pose proof (ok_len C e Hok) as Hl.
  unfold emit_raw. do 2 wp_step. rewrite Hrr, Hqp, Hfl, Hl, Hsz.
  rewrite (proj2 (Z.eqb_neq _ _)) by lia.
  rewrite !(ring_land C e) by done. rewrite u64_small by lia.
  set (delta := send_ring_producer e - meta_pos e) in *.
  destruct (wqe_args_spec C e delta Hok) as [Ha1 Ha2]; [lia..|].
  pose proof (wqe_args_blocks C e delta Hok ltac:(lia) ltac:(lia)) as Hbl. cbv zeta in Hbl.
  wp_step. eapply (wp_mono _ (fun a e' => a = wqe_args e (meta_pos e mod C) delta /\ e' = e)
    _ (fun _ _ => False)); [| |done].
  { unfold wqe_args. unfold send_ring_len in Hl.
    destruct (delta <=? MAX_INLINE_ONLY) eqn:E; guards; unfold MAX_INLINE_ONLY in *;
      wp_step; eapply wp_unwrap.
    - apply slice_in; lia.
    - wp_step. split; [|done]. f_equal. f_equal. lia.
    - unfold MAX_INLINE_HYBRID. apply slice_in; lia.
    - wp_step. split; [|done]. unfold MAX_INLINE_HYBRID.
      rewrite u32_small by lia. f_equal. f_equal. lia. }
  intros a e' [-> ->].
  set (entry := if SIGNAL_INTERVAL <=? unsignaled_count e then Some (qpn e) else None).
  pose proof (emit_write_imm_extends sq (mkRdma (u64 (addr rr + meta_pos e mod C)) (rkey rr))
    (encode_imm delta) (wqe_args e (meta_pos e mod C) delta).1
    (wqe_args e (meta_pos e mod C) delta).2 entry Hsq Ha1 Ha2) as Hem.
  destruct (emit_write_imm sq _ _ _ _ entry) as [sq' [res|err]] eqn:E.
  - destruct Hem as (Hlast & nops & Hn & Hex). repeat wp_step. apply HQ; [apply Hex| |by split; [|exists sq']].
    exists sq, sq'. eexists. split_and!; [done..|exact Hex|].
    unfold batch_write. rewrite Hrr. by destruct Hn as [-> | ->].
  - destruct Hem as (-> & -> & Hav). repeat wp_step. rewrite (set_qp_id sq e Hqp).
    apply HR. split; [done|]. exists sq. split; [done|lia].
Qed.

(** [emit_raw] followed by [prepare_next_batch]. *)
Lemma same_peer_refl e : same_peer e e.
Proof. done. Qed.

Lemma same_peer_trans e1 e2 e3 : same_peer e1 e2 -> same_peer e2 e3 -> same_peer e1 e3.
Proof. unfold same_peer. intros H1 H2. split_and!; intuition congruence. Qed.

(** What sending the open batch does: the next batch starts where it ended, and
    a grant made on the way respects the flow-control inequality. *)
Definition batch_sent (C : Z) e e' : Prop :=
  ep_ok C e' /\ same_peer e e' /\ batch_message_count e' = 0 /\
  meta_pos e' = send_ring_producer e /\ send_ring_producer e' = send_ring_producer e + 32 /\
  resp_reservation e <= resp_reservation e' /\
  (send_ring_producer e - remote_consumer_pos e + 2 * resp_reservation e <= C ->
   send_ring_producer e - remote_consumer_pos e + 2 * resp_reservation e' <= C).

Lemma batch_sent_intro C sq n e :
  ep_ok C e -> sq_ok sq -> send_ring_producer e + 32 < 2 ^ 64 ->
  batch_sent C e (prepared (emitted sq n (filled e))).
Proof.
  intros Hok Hsq Hlt. pose proof (filled_ok C e Hok) as Hfok.
  pose proof (ring_pos C e Hok) as [Hc _].
  destruct (grant_bounds C e (ok_remote C e Hok) (ok_res C e Hok))
    as (Hg & _ & Hgm & Hgi); [lia|].
  pose proof (ok_prod C e Hok). pose proof (ok_meta C e Hok). pose proof (ok_res C e Hok).
  pose proof (ok_cons C e Hok).
  unfold in_flight_bytes in Hgi. rewrite saturating_sub_le in Hgi by lia.
  unfold batch_sent. split_and!; try done; cbn; rewrite ?u64_small by lia; try lia.
  by apply prepared_emitted_ok.
Qed.

Lemma batch_sent_flow C e e' :
  0 < batch_message_count e -> batch_sent C e e' -> flow_ok C e -> flow_ok C e'.
Proof.
  intros Hc (Hok & Hsp & H0 & Hm & Hp & Hr & Hl) (HL & _ & _).
  destruct Hsp as (_ & _ & _ & _ & Hcons & _).
  unfold flow_ok, load, batch_end in *. rewrite H0, Hcons, Hm. cbn.
  rewrite (proj2 (Z.eqb_neq _ _)) in HL by lia. split_and!; [by apply Hl|lia|lia].
Qed.

(** What the send path never touches: the memory regions and what the receive
    path keeps. *)
Definition static e e' : Prop :=
  recv_ring e' = recv_ring e /\ recv_mr_addr e' = recv_mr_addr e /\
  recv_mr_rkey e' = recv_mr_rkey e /\ send_mr_addr e' = send_mr_addr e /\
  send_mr_lkey e' = send_mr_lkey e /\ remote_recv_ring e' = remote_recv_ring e /\
  last_recv_pos e' = last_recv_pos e /\ remote_consumer_pos e' = remote_consumer_pos e.

Lemma static_refl e : static e e.
Proof. done. Qed.

Lemma static_trans e1 e2 e3 : static e1 e2 -> static e2 e3 -> static e1 e3.
Proof. unfold static. intros. destruct_and!. split_and!; congruence. Qed.

(** The open batch of [e], its metadata filled in, has been posted as one
    request, and its bytes are still in the send ring of [e']. *)
Definition posted (C : Z) e e' : Prop :=
  posts e e' [batch_write C (filled e)] /\ send_ring e' = send_ring (filled e) /\ static e e'.

Lemma unshown_prepared e : unshown e -> unshown (prepared e).
Proof. done. Qed.

Lemma posts_prepared e e' ws : posts e e' ws -> posts e (prepared e') ws.
Proof. done. Qed.

Lemma posted_intro C sq n e :
  posts (filled e) (emitted sq n (filled e)) [batch_write C (filled e)] ->
  posted C e (prepared (emitted sq n (filled e))).
Proof.
  intros H. split; [|split; [done|unfold static; by split_and!]].
  apply posts_prepared. destruct H as (q & q' & l & E & H). exists q, q', l. split; [exact E|exact H].
Qed.

Lemma wp_emit_wqe C e :
  ep_ok C e -> send_ring_producer e + 32 < 2 ^ 64 ->
  wp emit_wqe
    (fun b e' => if b then 0 < batch_message_count e /\ batch_sent C e e' /\ posted C e e' /\
                           unshown e'
                 else batch_message_count e = 0 /\ e' = e)
    (fun err e' => sq_refused err e' /\ 0 < batch_message_count e /\ e' = filled e) e.
Proof.
  intros Hok Hlt. unfold emit_wqe. do 2 wp_step.
  destruct (batch_message_count e =? 0) eqn:E; guards; [by wp_step|].
  pose proof (filled_ok C e Hok) as Hfok. pose proof (ok_count C e Hok).
  wp_step. apply (wp_fill_metadata C); [done|].
  wp_step. apply (wp_emit_raw C); [done| |intros Href; split; [exact Href|by split; [lia|]]].
  intros sq' n Hsq Hpo Hun. wp_step. apply wp_prepare_next_batch. wp_step.
  split; [lia|]. split; [by apply batch_sent_intro|].
  split; [by apply posted_intro|]. revert Hun. apply unshown_prepared.
Qed.

(** The refused batch is still open, with its metadata filled in. *)
Lemma filled_flow C e :
  ep_ok C e -> 0 < batch_message_count e -> flow_ok C e -> flow_ok C (filled e).
Proof.
  intros Hok Hc (HL & H0 & H1). pose proof (ring_pos C e Hok) as [HC _].
  destruct (grant_bounds C e (ok_remote C e Hok) (ok_res C e Hok)) as (Hg & _ & Hm & Hi); [lia|].
  pose proof (ok_res C e Hok). pose proof (ok_cons C e Hok). pose proof (ok_prod C e Hok).
  unfold in_flight_bytes in Hi. rewrite saturating_sub_le in Hi by lia.
  unfold flow_ok, load, batch_end in *. cbn. rewrite (proj2 (Z.eqb_neq _ _)) in * by lia.
  rewrite u64_small by lia. split_and!; [|lia|done].
  destruct (decide (0 < compute_credit_grant e)); lia.
Qed.

(** The doorbell is rung. *)
Definition doorbelled e : EndpointInner Slab U :=
  set_needs_doorbell false (set_qp (ring_doorbell_bf <$> qp e) e).

Lemma extends_doorbell (q q' : Sq Z) ws :
  sq_ok q -> extends q q' ws -> extends q (ring_doorbell_bf q') ws.
Proof.
  intros Hok H. unfold ring_doorbell_bf. destruct (last_wqe q') eqn:E; [|done].
  pose proof Hok as (_ & _ & Hu & _). by eapply extends_frame.
Qed.

Lemma posts_doorbell e e' ws : posts e e' ws -> posts e (doorbelled e') ws.
Proof.
  intros (q & q' & l & E1 & E2 & Hq & H & W). exists q, (ring_doorbell_bf q'), l.
  cbn. rewrite E2. split_and!; try done. by apply extends_doorbell.
Qed.

Lemma unshown_doorbell e : unshown e -> shown (doorbelled e).
Proof.
  intros (_ & q & E & Hl). exists (ring_doorbell_bf q). cbn. rewrite E. split; [done|].
  unfold ring_doorbell_bf. by destruct (last_wqe q).
Qed.

(** Ringing the doorbell touches the queue pair only. *)
Lemma doorbell_ok C e : ep_ok C e -> ep_ok C (doorbelled e).
Proof.
  intros [Hl Hp Hr Hs Hf Hmt Hpr Hspn Hrc Hrs Hcs Hct].
  constructor; try done. cbn. destruct Hs as (sq & -> & Hsq). cbn.
  eexists. split; [done|]. unfold ring_doorbell_bf. by destruct (last_wqe sq).
Qed.

(** What a flush that succeeds does: a non-empty batch is sent and shown to the
    device, an empty one leaves only the doorbell to ring. *)
Definition batch_flushed (C : Z) e e' : Prop :=
  if 0 <? batch_message_count e then batch_sent C e e' /\ posted C e e' /\ shown e'
  else e' = if needs_doorbell e then doorbelled e else e.

Lemma batch_flushed_flow C e e' :
  ep_ok C e -> batch_flushed C e e' -> flow_ok C e -> flow_ok C e'.
Proof.
  intros Hok H Hfl. unfold batch_flushed in H. destruct (0 <? _) eqn:E; guards.
  - destruct H as [H _]. by eapply batch_sent_flow.
  - subst e'. by destruct (needs_doorbell e).
Qed.

Lemma wp_flush C e :
  ep_ok C e -> send_ring_producer e + 32 < 2 ^ 64 ->
  wp flush
    (fun _ e' => ep_ok C e' /\ same_peer e e' /\ has_pending_send e' = false /\
       send_ring_producer e' <= send_ring_producer e + 32 /\ batch_flushed C e e')
    (fun err e' => sq_refused err e' /\ 0 < batch_message_count e /\ e' = filled e) e.
Proof.
  intros Hok Hlt. unfold flush. wp_step.
  eapply wp_mono; [by apply (wp_emit_wqe C)| |done].
  intros b e' Hb. unfold batch_flushed, has_pending_send. do 2 wp_step. destruct b.
  - destruct Hb as (Hc & Hs & (Hp1 & Hp2 & Hp3) & Hun). pose proof Hs as (S1 & S2 & S3 & S4 & S5 & _).
    rewrite (proj1 Hun). repeat wp_step. fold (doorbelled e').
    rewrite (proj2 (Z.ltb_lt 0 (batch_message_count e))) by done.
    split_and!; try done; [by apply doorbell_ok|cbn; by rewrite S3|cbn; lia|..].
    + destruct Hs as [_ Hs]. split; [by apply doorbell_ok|exact Hs].
    + split; [by apply posts_doorbell|]. split; [exact Hp2|exact Hp3].
    + by apply unshown_doorbell.
  - destruct Hb as [Hc ->]. rewrite Hc. cbn [Z.ltb Z.compare]. destruct (needs_doorbell e) eqn:E.
    + repeat wp_step. fold (doorbelled e).
      split_and!; try done; [by apply doorbell_ok|cbn; by rewrite Hc|cbn; lia].
    + wp_step. split_and!; try done; [by rewrite Hc, E|lia].
Qed.

(** State of [emit_wrap] when it calls [emit_raw]. *)
Definition wrapped e : EndpointInner Slab U :=
  let off := meta_pos e mod send_ring_len e in
  let e0 := set_last_notified_recv_pos (last_recv_pos e)
              (set_send_ring_producer (meta_pos e) e) in
  let grant := compute_credit_grant e0 in
  set_send_ring_producer (u64 (meta_pos e + (send_ring_len e - off)))
    (set_send_ring
      (encode_flow_metadata (send_ring e) (Z.to_nat off)
         (u64 (last_recv_pos e - last_notified_recv_pos e)) grant WRAP_MESSAGE_COUNT)
      (set_resp_reservation (u64 (resp_reservation e + grant)) e0)).

(** Distance from the metadata to the end of the ring cycle. *)
Definition to_cycle_end C e : Z := C - meta_pos e mod C.

Lemma to_cycle_end_spec C e :
  ep_ok C e -> 32 <= to_cycle_end C e <= C /\ (meta_pos e + to_cycle_end C e) mod C = 0 /\
  to_cycle_end C e mod 32 = 0.
Proof.
  intros Hok. unfold to_cycle_end. pose proof (offset_bounds C e (meta_pos e) Hok) as Hb.
  pose proof (ring_pos C e Hok) as [Hc Hc32].
  pose proof (offset_room C e (meta_pos e) Hok (proj2 (ok_meta C e Hok))).
  split_and!; [lia..| |].
  - rewrite <-Z.add_mod_idemp_l by lia. replace (_ + _) with C by lia. apply Z.mod_same. lia.
  - apply aligned_sub; [done|]. apply (offset_aligned C e); [done|apply Hok].
Qed.

Lemma wrapped_ok C e :
  ep_ok C e -> batch_message_count e = 0 -> meta_pos e + C < 2 ^ 64 -> ep_ok C (wrapped e).
Proof.
  intros Hok Hc0 Hlt. pose proof (ring_pos C e Hok) as [Hc Hc32].
  pose proof (to_cycle_end_spec C e Hok) as (Hr1 & Hr2 & Hr3). unfold to_cycle_end in *.
  pose proof (offset_bounds C e (meta_pos e) Hok) as Hb.
  destruct Hok as [Hl Hp Hr Hs Hf Hmt Hpr Hsp Hrc Hrs Hcs Hct].
  destruct (grant_bounds C (set_last_notified_recv_pos (last_recv_pos e)
    (set_send_ring_producer (meta_pos e) e)) Hr Hrs) as (Hg & _ & Hm & _); [lia|].
  cbn in Hm.
  constructor; try done; cbn; rewrite ?Hl, ?(u64_small (meta_pos e + _)) by lia; try lia.
  - unfold wrapped, send_ring_len at 1. cbn. rewrite length_encode_metadata; [done|].
    rewrite Hl. unfold send_ring_len in Hl. lia.
  - split_and!; [lia| |lia]. apply aligned_add; [apply Hmt|done].
  - rewrite u64_small by lia. lia.
Qed.

(** The wrap request of [e] has been posted. *)
Definition wrap_posted (C : Z) e e' : Prop :=
  posts e e' [batch_write C (wrapped e)] /\ send_ring e' = send_ring (wrapped e) /\ static e e'.

Lemma wrap_posted_intro C sq n e :
  posts (wrapped e) (emitted sq n (wrapped e)) [batch_write C (wrapped e)] ->
  wrap_posted C e (prepared (emitted sq n (wrapped e))).
Proof.
  intros H. split; [|split; [done|unfold static; by split_and!]].
  apply posts_prepared. destruct H as (q & q' & l & E & H). exists q, q', l. split; [exact E|exact H].
Qed.

Lemma wp_emit_wrap C e :
  ep_ok C e -> batch_message_count e = 0 -> meta_pos e + C + 32 < 2 ^ 64 ->
  wp emit_wrap
    (fun _ e' => ep_ok C e' /\ same_peer e e' /\ batch_message_count e' = 0 /\
       meta_pos e' = meta_pos e + to_cycle_end C e /\
       send_ring_producer e' = meta_pos e' + 32 /\ resp_reservation e <= resp_reservation e' /\
       (meta_pos e - remote_consumer_pos e + 2 * resp_reservation e <= C ->
        meta_pos e - remote_consumer_pos e + 2 * resp_reservation e' <= C) /\
       wrap_posted C e e' /\ unshown e')
    (fun err e' => sq_refused err e' /\ ep_ok C e' /\ same_peer e e' /\
       send_ring_producer e' <= meta_pos e + C /\ e' = wrapped e) e.
Proof.
  intros Hok Hc0 Hlt. pose proof (ring_pos C e Hok) as [Hc _].
  pose proof (wrapped_ok C e Hok Hc0 ltac:(lia)) as Hwok.
  pose proof (to_cycle_end_spec C e Hok) as (Hr1 & _). unfold to_cycle_end in *.
  pose proof (ok_len C e Hok) as Hl. pose proof (ok_meta C e Hok) as Hm0.
  destruct (grant_bounds C (set_last_notified_recv_pos (last_recv_pos e)
    (set_send_ring_producer (meta_pos e) e)) (ok_remote C e Hok) (ok_res C e Hok))
    as (Hg & _ & Hgm & Hgi); [lia|].
  pose proof (ok_cons C e Hok) as Hcons. pose proof (ok_res C e Hok) as Hres.
  unfold in_flight_bytes in Hgi. cbn in Hgm, Hgi. rewrite saturating_sub_le in Hgi by lia.
  unfold emit_wrap. do 4 wp_step. rewrite Hl, (ring_land C e) by done.
  repeat wp_step. apply wp_raw_write.
  { unfold send_ring_len in *. cbn. unfold FLOW_METADATA_SIZE. rewrite Hl. lia. }
  repeat wp_step.
  match goal with |- wp _ _ _ ?x => replace x with (wrapped e) by (unfold wrapped; by rewrite Hl) end.
  apply (wp_emit_raw C); [exact Hwok| |].
  - intros sq' n Hsq Hpo Hun. apply wp_prepare_next_batch.
    split; [apply prepared_emitted_ok; [exact Hwok|done|]; cbn; rewrite Hl, u64_small; lia|].
    split; [done|]. split; [done|].
    split; [cbn; rewrite Hl, u64_small; lia|].
    split; [cbn; rewrite Hl, !(u64_small (meta_pos e + _)) by lia; rewrite u64_small; lia|].
    split; [cbn; rewrite u64_small; lia|]. split.
    + intros HX. cbn. rewrite u64_small by lia.
      set (g := compute_credit_grant _) in *. destruct (decide (0 < g)); lia.
    + split; [by apply wrap_posted_intro|]. revert Hun. apply unshown_prepared.
  - intros Href. split; [exact Href|]. split; [exact Hwok|]. split; [done|].
    split; [|done]. cbn. rewrite Hl, u64_small; lia.
Qed.

(** The batch [handle_wrap_if_needed] closes before it wraps. *)
Definition close_batch : M (EndpointInner Slab U) Error unit :=
  let* e := p_get in
  if 0 <? batch_message_count e then
    fill_metadata ;;;
    emit_raw ;;;
    p_modify (fun e => set_flush_start_pos (send_ring_producer e) e) ;;;
    prepare_next_batch
  else p_ret tt.

(** The open batch has been sent, if it had messages. *)
Definition closed (C : Z) e e1 : Prop :=
  if 0 <? batch_message_count e then batch_sent C e e1 /\ posted C e e1 else e1 = e.

Lemma emitted_flush_start sq n e :
  set_flush_start_pos (send_ring_producer (emitted sq n e)) (emitted sq n e) = emitted sq n e.
Proof. done. Qed.

Lemma wp_close_batch C e total :
  ep_ok C e -> send_ring_producer e + 32 < 2 ^ 64 ->
  C <= meta_pos e mod C + (send_ring_producer e - meta_pos e) + total ->
  wp close_batch
    (fun _ e' => ep_ok C e' /\ same_peer e e' /\ batch_message_count e' = 0 /\
       meta_pos e' <= send_ring_producer e /\ send_ring_producer e' <= send_ring_producer e + 32 /\
       resp_reservation e <= resp_reservation e' /\
       (flow_ok C e ->
        meta_pos e' - remote_consumer_pos e' + 2 * resp_reservation e' <= C /\
        to_cycle_end C e' <= total + 32) /\ closed C e e')
    (fun err e' => sq_refused err e' /\ 0 < batch_message_count e /\ e' = filled e) e.
Proof.
  intros Hok Hlt Ht. pose proof (ok_prod C e Hok). pose proof (ok_count C e Hok).
  pose proof (ring_pos C e Hok) as [Hc _].
  unfold close_batch, closed. do 2 wp_step. destruct (0 <? batch_message_count e) eqn:Ec; guards.
  - pose proof (filled_ok C e Hok) as Hfok.
    wp_step. apply (wp_fill_metadata C); [done|].
    wp_step. apply (wp_emit_raw C); [done| |].
    2:{ intros Href. split; [exact Href|]. split; [lia|done]. }
    intros sq' n Hsq Hpo Hun. do 2 wp_step. rewrite emitted_flush_start. apply wp_prepare_next_batch.
    pose proof (batch_sent_intro C sq' n e Hok Hsq Hlt) as Hs.
    pose proof Hs as (B1 & B2 & B3 & B4 & B5 & B6 & B7).
    split; [exact B1|]. split; [exact B2|]. split; [exact B3|]. split; [cbn; lia|].
    split; [cbn in *; lia|]. split; [exact B6|]. split.
    + intros (HX & _ & Hst). unfold load, batch_end in HX. unfold to_cycle_end.
      rewrite (proj2 (Z.eqb_neq _ _)) in HX by lia. cbn in B7 |- *.
      rewrite (mod_advance C (meta_pos e) (send_ring_producer e)) by lia. lia.
    + split; [exact Hs|by apply posted_intro].
  - wp_step. split_and!; try done; try lia.
    intros (HX & Hz & _). specialize (Hz ltac:(lia)). unfold load, batch_end in HX.
    unfold to_cycle_end. rewrite (proj2 (Z.eqb_eq _ _)) in HX by lia. lia.
Qed.

(** The endpoint has gone on to the next ring cycle: the open batch, if it had
    messages, and the wrap request have been posted. *)
Definition cycle_wrapped (C : Z) e e' : Prop :=
  exists e1, closed C e e1 /\ ep_ok C e1 /\ posts e1 e' [batch_write C (wrapped e1)].

(** How it can fail to: with the batch still open, or with the wrap refused. *)
Definition wrap_refused (C : Z) e e' : Prop :=
  (0 < batch_message_count e /\ e' = filled e) \/ (exists e1, closed C e e1 /\ e' = wrapped e1).

Lemma wp_handle_wrap C e total :
  ep_ok C e -> 0 <= total < 2 ^ 33 -> send_ring_producer e + 2 * C < 2 ^ 64 ->
  wp (handle_wrap_if_needed total)
    (fun b e' => ep_ok C e' /\ same_peer e e' /\
       send_ring_producer e' <= send_ring_producer e + C + 32 /\
       if b then batch_message_count e' = 0 /\ send_ring_producer e' = meta_pos e' + 32 /\
                 meta_pos e' mod C = 0 /\ resp_reservation e <= resp_reservation e' /\
                 C <= meta_pos e mod C + (send_ring_producer e - meta_pos e) + total /\
                 (flow_ok C e -> load e' <= C + total + 32) /\
                 cycle_wrapped C e e' /\ unshown e'
       else e' = e /\
            meta_pos e mod C + (send_ring_producer e - meta_pos e) + total < C)
    (fun err e' => sq_refused err e' /\ ep_ok C e' /\ same_peer e e' /\
       send_ring_producer e' <= send_ring_producer e + C + 32 /\
       C <= meta_pos e mod C + (send_ring_producer e - meta_pos e) + total /\
       wrap_refused C e e') e.
Proof.
  intros Hok Ht Hlt. pose proof (ring_pos C e Hok) as [Hc _].
  pose proof (ok_len C e Hok) as Hl. pose proof (offset_bounds C e (meta_pos e) Hok) as Hb.
  pose proof (ok_prod C e Hok) as (Hp & _). pose proof (ok_span C e Hok) as Hs.
  pose proof (ok_meta C e Hok) as [Hm0 _].
  unfold handle_wrap_if_needed. do 2 wp_step. rewrite Hl, (ring_land C e) by done.
  rewrite !(u64_small (send_ring_producer e - meta_pos e)) by lia.
  rewrite !(u64_small (_ + total)), u64_small by lia.
  destruct (_ <? C) eqn:E; guards.
  { wp_step. split_and!; (done || lia). }
  wp_step. eapply (wp_mono _ _ _ _ _ e (wp_close_batch C e total Hok _ _)).
  - intros _ e' (Hok' & Hsp & Hc0 & Hme & Hpe & Hre & Hmg & Hcl). wp_step.
    pose proof (to_cycle_end_spec C e' Hok') as (Hr1 & Hr2 & _).
    eapply wp_mono; [apply (wp_emit_wrap C e'); [done|done|lia]| |].
    + intros _ e'' (Hok'' & Hsp' & Hc0' & Hm' & Hp' & Hre' & Hl' & [Hw _] & Hun). wp_step.
      split_and!; try done; [by eapply same_peer_trans|lia|by rewrite Hm'|lia|lia| |by exists e'].
      intros Hfl. destruct (Hmg Hfl) as [H1 H2]. specialize (Hl' H1).
      destruct Hsp' as (_ & _ & _ & _ & Hcp & _). unfold load, batch_end.
      rewrite Hcp, Hc0'. cbn. lia.
    + intros err e'' (Herr & Hok'' & Hsp' & Hp' & Hw).
      split_and!; try done; [by eapply same_peer_trans|lia|lia|]. right. by exists e'.
  - intros err e' (Herr & Hcnt & ->). split_and!; try done; [by apply filled_ok|cbn; lia|lia|by left].
  Unshelve. all: lia.
Qed.

End Batch.
End RcBatch.
