(* ===== verification/RcMessages.v ===== *)
(** * RcMessages: what the RC endpoint sends and what its peer receives

    The messages of a batch as abstract data, [call] and [reply] as appending one
    message to the open batch, the flow-control inequality, and the receive
    path as the inverse of the send path. *)

From S2P Require Import Prelude FastMap Encoding Ring SendQueue Rc RcBatch.
Import Encoding SendQueue Rc RcBatch.
#[local] Open Scope prog_scope.
#[local] Arguments header_bytes : simpl never.
#[local] Arguments read_bytes : simpl never.

Module RcMessages.

(** ** Messages in a ring *)

Record Msg : Type := mkMsg { m_id : Z; m_pig : Z; m_data : list Z }.

Definition m_len (m : Msg) : Z := Z.of_nat (length (m_data m)).
Definition msg_size (m : Msg) : Z := padded_message_size (m_len m).
Definition msgs_size (ms : list Msg) : Z := foldr (fun m n => msg_size m + n) 0 ms.
Definition msg_bytes (m : Msg) : list Z :=
  header_bytes (m_id m) (m_pig m) (m_len m) ++ m_data m.

(** The fields fit their wire width. *)
Definition msg_ok (m : Msg) : Prop :=
  is_uint 32 (m_id m) /\ is_uint 32 (m_pig m) /\ is_uint 32 (m_len m).

(** [ring] holds the messages [ms] one after the other from [off]. *)
Fixpoint msgs_at (ring : list Z) (off : Z) (ms : list Msg) : Prop :=
  match ms with
  | [] => True
  | m :: ms =>
      0 <= off /\ off + msg_size m <= Z.of_nat (length ring) /\
      read_bytes ring (Z.to_nat off) (length (msg_bytes m)) = msg_bytes m /\
      msgs_at ring (off + msg_size m) ms
  end.

Lemma padded_size_bounds n : is_uint 32 n ->
  32 <= padded_message_size n /\ 12 + n <= padded_message_size n < 2 ^ 32 + 44 /\
  padded_message_size n mod 32 = 0.
Proof.
  intros Hl. unfold is_uint in Hl. destruct (padded_message_size_spec n Hl) as [[H1 H2] H3].
  unfold HEADER_SIZE, ALIGNMENT in *. split_and!; [|lia|lia|done].
  apply (aligned_lt_le 32 0); [lia|done|done|lia].
Qed.

Lemma msg_size_spec m : msg_ok m ->
  32 <= msg_size m /\ 12 + m_len m <= msg_size m < 2 ^ 33 /\ msg_size m mod 32 = 0.
Proof.
  intros (_ & _ & Hl). destruct (padded_size_bounds _ Hl) as (H1 & H2 & H3).
  unfold msg_size. split_and!; (done || lia).
Qed.

Lemma length_msg_bytes m : Z.of_nat (length (msg_bytes m)) = 12 + m_len m.
Proof. unfold msg_bytes, m_len. rewrite length_app, length_header_bytes. lia. Qed.

Lemma msgs_size_cons m ms : msgs_size (m :: ms) = msg_size m + msgs_size ms.
Proof. done. Qed.

Lemma msgs_size_app ms1 ms2 : msgs_size (ms1 ++ ms2) = msgs_size ms1 + msgs_size ms2.
Proof.
  induction ms1 as [|m ms1 IH]; [done|].
  cbn [app]. rewrite !msgs_size_cons. lia.
Qed.

Lemma msgs_size_nonneg ms : Forall msg_ok ms -> 0 <= msgs_size ms.
Proof.
  induction 1 as [|m ms Hm _ IH]; [done|]. rewrite msgs_size_cons.
  pose proof (msg_size_spec m Hm). lia.
Qed.

(** Messages only depend on the bytes of their range. *)
Lemma msgs_at_ext ring1 ring2 off ms :
  Forall msg_ok ms -> length ring1 = length ring2 ->
  (forall i, off <= Z.of_nat i < off + msgs_size ms -> ring1 !! i = ring2 !! i) ->
  msgs_at ring1 off ms -> msgs_at ring2 off ms.
Proof.
  intros Hok Hl. revert off. induction Hok as [|m ms Hm Hms IH]; intros off Hext; [done|].
  cbn [msgs_at]. rewrite msgs_size_cons in Hext.
  pose proof (msg_size_spec m Hm). pose proof (length_msg_bytes m).
  pose proof (msgs_size_nonneg ms Hms) as Hnn.
  intros (H1 & H2 & H3 & H4). split_and!; [done|lia| |].
  - etrans; [|exact H3]. symmetry. apply read_bytes_ext. intros i Hi. apply Hext. lia.
  - apply IH; [|done]. intros i Hi. apply Hext. lia.
Qed.

Lemma msgs_at_app ring off ms1 ms2 :
  msgs_at ring off (ms1 ++ ms2) <->
  msgs_at ring off ms1 /\ msgs_at ring (off + msgs_size ms1) ms2.
Proof.
  revert off. induction ms1 as [|m ms1 IH]; intros off; cbn [msgs_at app].
  - rewrite Z.add_0_r. tauto.
  - rewrite IH, msgs_size_cons, Z.add_assoc. tauto.
Qed.

Section Messages.
Context {Slab : Type -> Type} `{!SlabOps Slab} `{!SlabLaws Slab} {U : Type}.
Implicit Types e : EndpointInner Slab U.

(** The open batch of [e] consists of the messages [ms]. *)
Definition holds_batch (C : Z) e (ms : list Msg) : Prop :=
  Forall msg_ok ms /\ batch_message_count e = Z.of_nat (length ms) /\
  send_ring_producer e = meta_pos e + 32 + msgs_size ms /\
  msgs_at (send_ring e) (meta_pos e mod C + 32) ms.

(** The message appended: its bytes, the producer and the count. *)
Definition appended (m : Msg) e : EndpointInner Slab U :=
  set_batch_message_count (u32 (batch_message_count e + 1))
    (set_send_ring_producer (u64 (send_ring_producer e + msg_size m))
       (set_send_ring
          (write_bytes (send_ring e)
             (Z.to_nat (send_ring_producer e mod send_ring_len e)) (msg_bytes m)) e)).

(** Room for [m] behind the open batch. *)
Definition room C e (m : Msg) : Prop :=
  meta_pos e mod C + (send_ring_producer e - meta_pos e) + msg_size m <= C /\
  send_ring_producer e + msg_size m < 2 ^ 64.

Lemma room_offset C e m : ep_ok C e -> msg_ok m -> room C e m ->
  send_ring_producer e mod C = meta_pos e mod C + (send_ring_producer e - meta_pos e) /\
  send_ring_producer e mod C + 12 + m_len m <= C.
Proof.
  intros Hok Hm [Hr _]. pose proof (msg_size_spec m Hm). pose proof (ring_pos C e Hok).
  pose proof (ok_prod C e Hok). rewrite (mod_advance C (meta_pos e)) by lia. lia.
Qed.

Lemma appended_ok C e m : ep_ok C e -> msg_ok m -> room C e m -> ep_ok C (appended m e).
Proof.
  intros Hok Hm Hroom. pose proof (msg_size_spec m Hm) as (Hs1 & Hs2 & Hs3).
  destruct (room_offset C e m Hok Hm Hroom) as [_ Hoff]. destruct Hroom as [Hr1 Hr2].
  pose proof (ring_pos C e Hok) as [Hc _].
  pose proof (offset_bounds C e (send_ring_producer e) Hok) as Hb.
  pose proof (offset_bounds C e (meta_pos e) Hok) as Hb'.
  destruct Hok as [Hl Hp Hr Hs Hf Hmt Hpr Hsp Hrc Hrs Hcs Hct].
  constructor; try done; cbn; rewrite ?u64_small, ?u32_small by lia; try lia.
  - unfold send_ring_len at 1. cbn. rewrite Hl. rewrite length_write_bytes; [done|].
    unfold send_ring_len in Hl. lia.
  - split_and!; [lia| |lia]. apply aligned_add; [apply Hpr|done].
Qed.

Lemma appended_holds C e m ms :
  ep_ok C e -> msg_ok m -> room C e m -> holds_batch C e ms ->
  holds_batch C (appended m e) (ms ++ [m]).
Proof.
  intros Hok Hm Hroom (Hms & Hcnt & Hprod & Hat).
  pose proof (msg_size_spec m Hm) as (Hs1 & Hs2 & Hs3).
  destruct (room_offset C e m Hok Hm Hroom) as [Hoff Hend]. destruct Hroom as [Hr1 Hr2].
  pose proof (length_msg_bytes m) as Hlb. pose proof (ring_pos C e Hok) as [Hc _].
  pose proof (offset_bounds C e (meta_pos e) Hok) as Hb'.
  pose proof (ok_len C e Hok) as Hl. pose proof (ok_prod C e Hok). pose proof (ok_meta C e Hok).
  pose proof (ok_count C e Hok). pose proof (msgs_size_nonneg ms Hms).
  unfold holds_batch. cbn. rewrite Hl. unfold send_ring_len in Hl.
  split_and!.
  - apply Forall_app. auto.
  - rewrite length_app. cbn. rewrite u32_small; lia.
  - rewrite msgs_size_app, u64_small by lia. cbn. lia.
  - rewrite msgs_at_app. split.
    + eapply msgs_at_ext; [done|symmetry; apply length_write_bytes; lia| |exact Hat].
      intros i Hi. rewrite lookup_write_bytes by lia. by rewrite decide_False by lia.
    + cbn. rewrite length_write_bytes by lia. split_and!; [lia|lia| |done].
      replace (meta_pos e mod C + 32 + msgs_size ms) with (send_ring_producer e mod C) by lia.
      apply read_write_same. lia.
Qed.

(** *** Symbolic execution over an endpoint and its dirty queue *)

Lemma wp_on_inner {E A} (m : M (EndpointInner Slab U) E A) Q R e dq :
  wp m (fun a e' => Q a (e', dq)) (fun er e' => R er (e', dq)) e -> wp (on_inner m) Q R (e, dq).
Proof. unfold wp, on_inner. by destruct (m e) as [[e' [a|er]]|]. Qed.

Lemma wp_map_err {S E E' A} (f : E -> E') (m : M S E A) Q R s :
  wp m Q (fun er s' => R (f er) s') s -> wp (map_err f m) Q R s.
Proof. unfold wp, map_err. by destruct (m s) as [[s' [a|er]]|]. Qed.

(** [mark_dirty] queues the endpoint unless it is queued already. *)
Definition queued (self : Z) (e : EndpointInner Slab U) (dq dq' : list Z) : Prop :=
  dq' = if is_dirty e then dq else dq ++ [self].

Lemma wp_mark_dirty {E} self Q (R : E -> _ -> Prop) e dq :
  (forall dq', queued self e dq dq' -> Q tt (set_is_dirty true e, dq')) ->
  wp (mark_dirty self) Q R (e, dq).
Proof.
  intros HQ. unfold wp, mark_dirty, queued in *. destruct (is_dirty e) eqn:E0; [|by apply HQ].
  specialize (HQ dq eq_refl). by destruct e; cbn in *; subst.
Qed.

(** [write_message] and the two updates that follow it in [call] and [reply]. *)
Lemma wp_append {E A} C e dq cid pig data sz (k : M (EndpointInner Slab U * list Z) E A) Q R :
  let m := mkMsg cid pig data in
  ep_ok C e -> msg_ok m -> room C e m -> sz = msg_size m ->
  wp k Q R (appended m e, dq) ->
  wp (on_inner (write_message (Z.land (send_ring_producer e) (send_ring_len e - 1))
        cid pig data) ;;;
      on_inner (p_modify (set_send_ring_producer (u64 (send_ring_producer e + sz)))) ;;;
      on_inner (p_modify (fun e =>
        set_batch_message_count (u32 (batch_message_count e + 1)) e)) ;;; k) Q R (e, dq).
Proof.
  intros m Hok Hm Hroom -> HQ. pose proof (length_msg_bytes m) as Hlb.
  destruct (room_offset C e m Hok Hm Hroom) as [Hoff Hend].
  pose proof (ok_len C e Hok) as Hl. pose proof Hm as (_ & _ & Hlen).
  unfold m_len in *. cbn [m_data] in *. unfold is_uint in Hlen.
  wp_step. apply wp_on_inner. unfold write_message. apply wp_raw_write.
  - rewrite Hl, (ring_land C e) by done. unfold HEADER_SIZE. subst m. cbn in *. lia.
  - wp_step. apply wp_on_inner. do 2 wp_step. apply wp_on_inner. wp_step.
    rewrite Hl, (ring_land C e) by done.
    unfold appended in HQ. rewrite Hl in HQ. unfold send_ring_len in Hl.
    pose proof (offset_bounds C e (send_ring_producer e) Hok).
    subst m. cbn [m_data] in *.
    rewrite encode_header_bytes by lia.
    rewrite (u32_small (Z.of_nat _)) by lia.
    pose proof (length_header_bytes cid pig (Z.of_nat (length data))) as Hh.
    change (Z.to_nat HEADER_SIZE) with 12%nat. rewrite <-Hh.
    rewrite write_bytes_app by lia. exact HQ.
Qed.

(** The two ways [handle_wrap_if_needed] leaves the batch for a message of [sz]
    bytes. *)
Definition fits_cycle C e (sz : Z) : bool :=
  meta_pos e mod C + (send_ring_producer e - meta_pos e) + sz <? C.

Lemma holds_batch_nil C e :
  batch_message_count e = 0 -> send_ring_producer e = meta_pos e + 32 -> holds_batch C e [].
Proof. intros H1 H2. split_and!; [done..|by rewrite H2; cbn; lia|done]. Qed.

Lemma holds_batch_wrapped C e ms (b : bool) e' sz :
  holds_batch C e ms ->
  (if b then batch_message_count e' = 0 /\ send_ring_producer e' = meta_pos e' + 32 /\
             C <= meta_pos e mod C + (send_ring_producer e - meta_pos e) + sz
   else e' = e /\ meta_pos e mod C + (send_ring_producer e - meta_pos e) + sz < C) ->
  holds_batch C e' (if fits_cycle C e sz then ms else []).
Proof.
  unfold fits_cycle. intros Hh Hb. destruct b.
  - destruct Hb as (H1 & H2 & H3). rewrite (proj2 (Z.ltb_ge _ _)) by done.
    by apply holds_batch_nil.
  - destruct Hb as (-> & H). by rewrite (proj2 (Z.ltb_lt _ _)) by done.
Qed.

(** ** [call] and [reply] *)

Lemma internal_allowance_spec ra : is_uint 32 ra ->
  64 <= internal_allowance ra < 2 ^ 33 /\ internal_allowance ra mod 32 = 0 /\
  padded_message_size ra + 32 <= internal_allowance ra.
Proof.
  intros Hra. destruct (padded_size_bounds ra Hra) as (H1 & H2 & H3).
  unfold is_uint in Hra. unfold internal_allowance, FLOW_METADATA_SIZE.
  rewrite u32_small by lia.
  destruct (align_up_mask_spec (padded_message_size ra + 32) 5) as [Ha Hb]; [lia..|].
  change (2 ^ 5) with 32 in *. unfold ALIGNMENT. split_and!; (done || lia).
Qed.

(** The user data of a call is recorded under the key its identifier truncates. *)
Definition call_recorded (u : U) (cid : Z) e e' : Prop :=
  let key := (slab_insert (pending_calls e) u).1 in
  cid = u32 key /\ slab_get (pending_calls e) key = None /\
  slab_get (pending_calls e') key = Some u /\
  forall k, k <> key -> slab_get (pending_calls e') k = slab_get (pending_calls e) k.

Lemma slab_insert_recorded (s : Slab U) u key s' :
  slab_insert s u = (key, s') ->
  slab_get s key = None /\ slab_get s' key = Some u /\
  forall k, k <> key -> slab_get s' k = slab_get s k.
Proof.
  intros H. pose proof (slab_insert_vacant U s u) as [_ Hv].
  pose proof (slab_get_insert U s u) as Hg. rewrite H in Hv, Hg. cbn in *.
  split_and!; [done|by rewrite Hg, decide_True|].
  intros k Hk. by rewrite Hg, decide_False.
Qed.

Lemma ep_ok_frame_send C e n b :
  ep_ok C e -> ep_ok C (set_peer_credit_balance n (set_is_dirty b e)).
Proof. intros [? ? ? ? ? ? ? ? ? ? ? ?]. by constructor. Qed.

Lemma ep_ok_set_pending C e s : ep_ok C e -> ep_ok C (set_pending_calls s e).
Proof. intros [? ? ? ? ? ? ? ? ? ? ? ?]. by constructor. Qed.

(** The request [call] appends. *)
Definition request (cid ra : Z) (data : list Z) : Msg :=
  mkMsg cid (internal_allowance ra / ALIGNMENT) data.

Lemma request_ok cid ra data :
  is_uint 32 cid -> is_uint 32 ra -> Z.of_nat (length data) < 2 ^ 32 ->
  msg_ok (request cid ra data).
Proof.
  intros Hc Hr Hd. destruct (internal_allowance_spec ra Hr) as (H & _).
  unfold msg_ok, is_uint, m_len, request, ALIGNMENT. cbn. unfold is_uint in Hc.
  split_and!; try lia; [apply Z.div_pos; lia|apply Z.div_lt_upper_bound; lia].
Qed.

(** After a message is appended behind a batch as [handle_wrap_if_needed] left
    it, the flow-control conditions hold if the inequality does. *)
Lemma appended_flow C e m :
  ep_ok C e -> msg_ok m -> room C e m ->
  meta_pos e mod C + (send_ring_producer e - meta_pos e) + msg_size m < C ->
  send_ring_producer e + msg_size m - remote_consumer_pos e + 2 * resp_reservation e <= C ->
  flow_ok C (appended m e).
Proof.
  intros Hok Hm [_ Hr] Hs Hle. pose proof (ok_count C e Hok). pose proof (msg_size_spec m Hm).
  pose proof (ok_prod C e Hok). pose proof (ok_span C e Hok). pose proof (ring_pos C e Hok).
  pose proof (offset_bounds C e (meta_pos e) Hok). pose proof (ok_meta C e Hok).
  unfold flow_ok, load, batch_end. cbn. rewrite u64_small, u32_small by lia.
  rewrite (proj2 (Z.eqb_neq _ _)) by lia. lia.
Qed.

(** What [call] does once the batch has room in the cycle. *)
Definition place_request (remote_ring : RemoteRingInfo) (self : Z) (data : list Z)
    (user_data : U) (allowance msg_size : Z)
    : M (EndpointInner Slab U * list Z) (CallError U) Z :=
  let* s := p_get in
  let producer := send_ring_producer s.1 in
  let consumer := remote_consumer_pos s.1 in
  let available := saturating_sub (size remote_ring) (saturating_sub producer consumer) in
  let reserved := u64 (2 * resp_reservation s.1) in
  if available <? u64 (msg_size + reserved) then
    map_err CallOther (on_inner flush) ;;;
    p_fail (CallRingFull user_data)
  else
    let '(key, slab') := slab_insert (pending_calls s.1) user_data in
    let call_id := u32 key in
    on_inner (p_modify (set_pending_calls slab')) ;;;
    let send_offset := Z.land producer (send_ring_len s.1 - 1) in
    let response_allowance_blocks := u32 (allowance / ALIGNMENT) in
    on_inner (write_message send_offset call_id response_allowance_blocks data) ;;;
    on_inner (p_modify (set_send_ring_producer (u64 (producer + msg_size)))) ;;;
    on_inner (p_modify (fun e =>
      set_batch_message_count (u32 (batch_message_count e + 1)) e)) ;;;
    mark_dirty self ;;;
    on_inner (p_modify (fun e =>
      set_peer_credit_balance (u64 (peer_credit_balance e - allowance)) e)) ;;;
    p_ret call_id.

(** Nothing was posted: only the open batch has grown. *)
Definition batch_grown e e' : Prop :=
  qp e' = qp e /\ static e e' /\ meta_pos e' = meta_pos e /\
  last_notified_recv_pos e' = last_notified_recv_pos e.

(** The batch as [handle_wrap_if_needed] leaves it: either the message fits the
    cycle, or a new cycle has just begun. *)
Definition ready C e (sz : Z) : Prop :=
  meta_pos e mod C + (send_ring_producer e - meta_pos e) + sz < C \/
  (meta_pos e mod C = 0 /\ send_ring_producer e = meta_pos e + 32).

Lemma wp_place_request C rr self data u ra e dq ms :
  let allow := internal_allowance ra in
  let sz := padded_message_size (Z.of_nat (length data)) in
  ep_ok C e -> remote_recv_ring e = Some rr -> ready C e sz -> holds_batch C e ms ->
  is_uint 32 ra -> Z.of_nat (length data) < 2 ^ 32 ->
  allow <= peer_credit_balance e < 2 ^ 64 -> send_ring_producer e + 2 ^ 33 < 2 ^ 64 ->
  wp (place_request rr self data u allow sz)
    (fun cid '(e', dq') =>
       ep_ok C e' /\ queued self e dq dq' /\ is_dirty e' = true /\
       holds_batch C e' (ms ++ [request cid ra data]) /\
       peer_credit_balance e' = peer_credit_balance e - allow /\
       load e' <= C /\ call_recorded u cid e e' /\ (32 + sz < C -> flow_ok C e') /\
       batch_grown e e')
    (fun err '(e', dq') =>
       ep_ok C e' /\ dq' = dq /\ same_peer e e' /\
       match err with
       | CallRingFull u' => u' = u /\ has_pending_send e' = false /\ batch_flushed C e e' /\
           C < send_ring_producer e - remote_consumer_pos e + sz + 2 * resp_reservation e
       | CallOther er => sq_refused er e' /\ 0 < batch_message_count e /\ e' = filled e
       | CallInsufficientCredit _ => False
       end) (e, dq).
Proof.
  intros allow sz Hok Hrr Hrd Hb Hra Hd Hpc Hlt.
  destruct (internal_allowance_spec ra Hra) as (Hal & _ & _). fold allow in Hal.
  pose proof (ring_pos C e Hok) as [Hc _]. pose proof (ok_cons C e Hok) as Hcs.
  pose proof (ok_prod C e Hok) as Hpr. pose proof (ok_res C e Hok) as Hrs.
  destruct (ok_remote C e Hok) as (rr' & Hrr' & Hsz). simplify_eq.
  assert (is_uint 32 (Z.of_nat (length data))) as Hdu by (unfold is_uint; lia).
  destruct (padded_size_bounds _ Hdu) as (Hp1 & Hp2 & _). fold sz in Hp1, Hp2.
  unfold place_request. do 2 wp_step. cbn [fst].
  rewrite (u64_small (2 * _)) by lia. rewrite (u64_small (sz + _)) by lia.
  rewrite (saturating_sub_le (send_ring_producer e)) by lia. unfold saturating_sub.
  destruct (_ <? _) eqn:E; guards.
  { wp_step. apply wp_map_err, wp_on_inner.
    eapply wp_mono; [apply (wp_flush (size rr)); [done|lia]| |].
    - intros _ e' (H1 & H2 & H3 & _ & H4). wp_step. split_and!; try done. lia.
    - intros er e' (H1 & H2 & ->). split_and!; try done. by apply filled_ok. }
  destruct (slab_insert (pending_calls e) u) as [key slab'] eqn:Ei.
  pose proof (slab_insert_recorded _ _ _ _ Ei) as Hrec.
  pose proof (u32_range key) as Hk.
  pose proof (request_ok (u32 key) ra data Hk Hra Hd) as Hm.
  set (m := request (u32 key) ra data) in *. change sz with (msg_size m) in *.
  assert (room (size rr) e m) as Hroom by (unfold ready in Hrd; split; lia).
  wp_step. apply wp_on_inner. wp_step.
  rewrite (u32_small (allow / ALIGNMENT)) by apply (proj1 (proj2 Hm)).
  apply (wp_append (size rr) (set_pending_calls slab' e)); [by apply ep_ok_set_pending|done..|].
  pose proof (ep_ok_set_pending _ _ slab' Hok) as Hok1.
  pose proof (appended_ok _ _ m Hok1 Hm Hroom) as Hok2.
  pose proof (appended_holds _ _ m ms Hok1 Hm Hroom Hb) as Hb2.
  wp_step. apply wp_mark_dirty. intros dq' Hdq. wp_step. apply wp_on_inner. do 2 wp_step.
  assert (load (appended m (set_pending_calls slab' e)) <= size rr) as Hload.
  { pose proof (ok_count _ _ Hok). pose proof (ok_span _ _ Hok).
    pose proof (offset_bounds _ _ (meta_pos e) Hok). pose proof (ok_meta _ _ Hok). unfold load, batch_end. cbn.
    rewrite u64_small, u32_small by lia. rewrite (proj2 (Z.eqb_neq _ _)) by lia. lia. }
  split_and!; try done.
  - by apply ep_ok_frame_send.
  - cbn. rewrite u64_small; lia.
  - unfold call_recorded. by rewrite Ei.
  - intros Hlt'. apply (appended_flow _ _ m); try done; cbn; unfold ready in Hrd; lia.
Qed.

(** A message that did not fit the cycle has sent the endpoint to the next one. *)
Definition cycle_left C e (sz : Z) e' : Prop :=
  if fits_cycle C e sz then batch_grown e e' else cycle_wrapped C e e'.

Lemma cycle_wrapped_qp C e e' e'' :
  cycle_wrapped C e e' -> qp e'' = qp e' -> cycle_wrapped C e e''.
Proof.
  intros (e1 & H1 & H2 & (q & q' & l & A & B & H)) E. exists e1. split_and!; [done..|].
  exists q, q', l. by rewrite E.
Qed.

Lemma cycle_wrapped_doorbell C e e' : cycle_wrapped C e e' -> cycle_wrapped C e (doorbelled e').
Proof.
  intros (e1 & H1 & H2 & H). exists e1. split_and!; [done..|]. by apply posts_doorbell.
Qed.

Lemma wp_call C self data u ra e dq ms :
  let allow := internal_allowance ra in
  let sz := padded_message_size (Z.of_nat (length data)) in
  ep_ok C e -> holds_batch C e ms -> is_uint 32 ra -> Z.of_nat (length data) < 2 ^ 32 ->
  is_uint 64 (peer_credit_balance e) -> send_ring_producer e + 2 ^ 35 < 2 ^ 64 ->
  wp (call self data u ra)
    (fun cid '(e', dq') =>
       ep_ok C e' /\ queued self e dq dq' /\ is_dirty e' = true /\
       holds_batch C e' ((if fits_cycle C e sz then ms else []) ++ [request cid ra data]) /\
       peer_credit_balance e' = peer_credit_balance e - allow /\ 0 <= peer_credit_balance e' /\
       load e' <= C /\ call_recorded u cid e e' /\
       (32 + sz < C -> flow_ok C e') /\ cycle_left C e sz e')
    (fun err '(e', dq') =>
       ep_ok C e' /\ dq' = dq /\ same_peer e e' /\
       match err with
       | CallInsufficientCredit u' =>
           u' = u /\ peer_credit_balance e < allow /\ has_pending_send e' = false /\
           batch_flushed C e e'
       | CallRingFull u' =>
           u' = u /\ allow <= peer_credit_balance e /\ has_pending_send e' = false /\
           if fits_cycle C e sz
           then batch_flushed C e e' /\
                C < send_ring_producer e - remote_consumer_pos e + sz + 2 * resp_reservation e
           else cycle_wrapped C e e' /\ shown e' /\ holds_batch C e' [] /\
                C < send_ring_producer e' - remote_consumer_pos e' + sz + 2 * resp_reservation e'
       | CallOther er =>
           sq_refused er e' /\
           ((0 < batch_message_count e /\ e' = filled e) \/
            (allow <= peer_credit_balance e /\ fits_cycle C e sz = false /\ wrap_refused C e e'))
       end) (e, dq).
Proof.
  intros allow sz Hok Hb Hra Hd Hpc Hlt.
  destruct (internal_allowance_spec ra Hra) as (Hal & _ & _).
  pose proof (ring_pos C e Hok) as [Hc _].
  destruct (ok_remote C e Hok) as (rr & Hrr & Hsz).
  assert (is_uint 32 (Z.of_nat (length data))) as Hdu by (unfold is_uint; lia).
  destruct (padded_size_bounds _ Hdu) as (Hp1 & Hp2 & _). fold sz in Hp1, Hp2.
  unfold call. do 2 wp_step. cbn [fst]. rewrite Hrr. fold allow.
  destruct (peer_credit_balance e <? allow) eqn:Ecr; guards.
  { wp_step. apply wp_map_err, wp_on_inner.
    eapply wp_mono; [apply (wp_flush C); [done|lia]| |].
    - intros _ e' (H1 & H2 & H3 & _ & H4). wp_step. by split_and!.
    - intros er e' (H1 & H2 & ->). split_and!; try done; [by apply filled_ok|by left]. }
  rewrite (u32_small (Z.of_nat _)) by (unfold is_uint in Hdu; lia). fold sz.
  wp_step. apply wp_map_err, wp_on_inner.
  eapply wp_mono; [apply (wp_handle_wrap C); [done|lia|lia]| |].
  2:{ intros er e' (H1 & H2 & H3 & _ & H4 & H5). split_and!; try done. right.
      split_and!; try done. unfold fits_cycle. apply Z.ltb_ge. lia. }
  intros b e1 (Hok1 & Hsp & Hpe & Hbb).
  assert (holds_batch C e1 (if fits_cycle C e sz then ms else [])) as Hb1.
  { apply (holds_batch_wrapped C e ms b e1 sz Hb). destruct b; [by destruct_and!; split_and!|done]. }
  assert (fits_cycle C e sz = negb b /\ if b then cycle_wrapped C e e1 /\ unshown e1 /\
            batch_message_count e1 = 0 else e1 = e) as [Hfit Hw].
  { unfold fits_cycle. destruct b; destruct_and!; (split; [|done]); [apply Z.ltb_ge; lia|apply Z.ltb_lt; lia]. }
  assert (ready C e1 sz) as Hrd.
  { destruct b; destruct_and!; [by right|left; by subst]. }
  pose proof Hsp as (S1 & _ & S3 & S4 & S5 & _ & _ & _ & S9).
  eapply (wp_mono _ _ _ _ _ (e1, dq)
    (wp_place_request C rr self data u ra e1 dq _ Hok1 _ Hrd Hb1 Hra Hd _ _)).
  - intros cid [e' dq'] (H1 & H2 & H3 & H4 & H5 & H6 & H7 & H8 & H9). rewrite S4 in H5.
    unfold queued in *. rewrite S9 in H2.
    assert (call_recorded u cid e e') as H7' by (unfold call_recorded in *; by rewrite S3 in H7).
    split_and!; try done; unfold is_uint in Hpc; [lia|]. unfold cycle_left. rewrite Hfit.
    destruct b; cbn [negb]; [|by subst]. destruct Hw as [Hw _], H9 as [Hq _]. by eapply cycle_wrapped_qp.
  - intros er [e' dq'] (H1 & H2 & H3 & H4).
    split_and!; [done..|by eapply same_peer_trans|]. destruct er as [u'| |er]; [|done|].
    + destruct H4 as (-> & Hp & Hfl & Hfull). split_and!; [done|lia|done|]. rewrite Hfit.
      destruct b; cbn [negb]; [|by subst]. destruct Hw as (Hw & Hun & Hz).
      unfold batch_flushed in Hfl. rewrite Hz, (proj1 Hun) in Hfl. cbn [Z.ltb Z.compare] in Hfl. subst e'.
      split_and!; [by apply cycle_wrapped_doorbell|by apply unshown_doorbell| |done].
      rewrite Hfit in Hb1. exact Hb1.
    + destruct H4 as (Href & Hz & ->). split; [done|]. destruct b; [|subst; by left].
      destruct Hw as (_ & _ & Hz'). lia.
  Unshelve. all: try (rewrite S4; unfold is_uint in Hpc); try lia. by rewrite S1.
Qed.

(** The response [reply] appends. *)
Definition response (cid : Z) (data : list Z) : Msg := mkMsg (to_response_id cid) 0 data.

Lemma response_ok cid data :
  0 <= cid < 2 ^ 31 -> Z.of_nat (length data) < 2 ^ 32 -> msg_ok (response cid data).
Proof.
  intros Hc Hd. unfold msg_ok, is_uint, m_len, response. cbn [m_id m_pig m_data].
  rewrite to_response_id_add by done. lia.
Qed.

Lemma ep_ok_lower_reservation C e r :
  ep_ok C e -> 0 <= r <= resp_reservation e -> ep_ok C (set_resp_reservation r e).
Proof. intros [? ? ? ? ? ? ? ? ? Hr ? ?] H. constructor; try done. cbn. lia. Qed.

(** Releasing the allowance of an answered call pays for its response, the
    metadata it may need and, when it starts a new cycle, the skipped tail. *)
Lemma reply_flow C e e1 (b : bool) ra m :
  let sz := msg_size m in
  ep_ok C e -> ep_ok C e1 -> msg_ok m -> remote_consumer_pos e1 = remote_consumer_pos e ->
  (if b then batch_message_count e1 = 0 /\ send_ring_producer e1 = meta_pos e1 + 32 /\
             meta_pos e1 mod C = 0 /\ resp_reservation e <= resp_reservation e1 /\
             C <= meta_pos e mod C + (send_ring_producer e - meta_pos e) + sz /\
             (flow_ok C e -> load e1 <= C + sz + 32)
   else e1 = e /\ meta_pos e mod C + (send_ring_producer e - meta_pos e) + sz < C) ->
  room C e1 m -> flow_ok C e -> sz + 32 <= ra <= resp_reservation e ->
  flow_ok C (appended m (set_resp_reservation (saturating_sub (resp_reservation e1) ra) e1)).
Proof.
  intros sz Hok Hok1 Hm Hcons Hb Hroom Hfl Hra. pose proof (msg_size_spec m Hm) as Hs.
  pose proof (ok_res C e1 Hok1) as Hr1. pose proof (ok_res C e Hok) as Hr0. fold sz in Hs.
  assert (resp_reservation e <= resp_reservation e1) as Hmono
    by (destruct b; destruct_and!; [done|by subst]).
  rewrite saturating_sub_le by lia.
  assert (ep_ok C (set_resp_reservation (resp_reservation e1 - ra) e1)) as Hok2
    by (apply ep_ok_lower_reservation; [done|lia]).
  pose proof Hfl as (HL & H0 & _). unfold load, batch_end in HL.
  apply appended_flow; try done; cbn; fold sz.
  - destruct b; destruct_and!; [lia|by subst].
  - destruct b; destruct_and!.
    + assert (load e1 <= C + sz + 32) as Hl by auto. unfold load, batch_end in Hl.
      rewrite (proj2 (Z.eqb_eq _ _)) in Hl by done. lia.
    + subst e1. destruct (batch_message_count e =? 0) eqn:E; guards; [|lia].
      specialize (H0 E). lia.
Qed.

Lemma wp_reply C self cid ra data e dq ms :
  let sz := padded_message_size (Z.of_nat (length data)) in
  ep_ok C e -> holds_batch C e ms -> 0 <= cid < 2 ^ 31 -> Z.of_nat (length data) < 2 ^ 32 ->
  32 + sz <= C -> 0 <= ra -> send_ring_producer e + 2 ^ 35 < 2 ^ 64 ->
  wp (reply self cid ra data)
    (fun _ '(e', dq') =>
       ep_ok C e' /\ queued self e dq dq' /\ is_dirty e' = true /\
       holds_batch C e' ((if fits_cycle C e sz then ms else []) ++ [response cid data]) /\
       pending_calls e' = pending_calls e /\ peer_credit_balance e' = peer_credit_balance e /\
       (flow_ok C e -> sz + 32 <= ra <= resp_reservation e -> flow_ok C e') /\
       cycle_left C e sz e')
    (fun err '(e', dq') => sq_refused err e' /\ ep_ok C e' /\ same_peer e e' /\ dq' = dq /\
       fits_cycle C e sz = false /\ wrap_refused C e e') (e, dq).
Proof.
  intros sz Hok Hb Hcid Hd Hfit Hra Hlt. pose proof (ring_pos C e Hok) as [Hc _].
  pose proof (response_ok cid data Hcid Hd) as Hm. set (m := response cid data) in *.
  pose proof (msg_size_spec m Hm) as Hs. change sz with (msg_size m) in *.
  destruct (ok_remote C e Hok) as (rr & Hrr & Hsz).
  unfold reply. do 2 wp_step. cbn [fst]. rewrite Hrr, (u32_small (Z.of_nat _)) by lia.
  wp_step. apply wp_on_inner.
  eapply wp_mono; [apply (wp_handle_wrap C e (msg_size m)); [done|lia|lia]| |].
  2:{ intros er e' (H1 & H2 & H3 & _ & H4 & H5). split_and!; try done.
      unfold fits_cycle. apply Z.ltb_ge. lia. }
  intros b e1 (Hok1 & Hsp & Hpe & Hbb).
  pose proof (ok_res C e1 Hok1) as Hr1. destruct Hsp as (S1 & _ & S3 & S4 & S5 & _ & _ & _ & S9).
  assert (room C e1 m) as Hroom by (destruct b; destruct_and!; split; subst; lia).
  assert (holds_batch C e1 (if fits_cycle C e (msg_size m) then ms else [])) as Hb1.
  { apply (holds_batch_wrapped C e ms b e1 (msg_size m) Hb).
    destruct b; [by destruct_and!; split_and!|done]. }
  assert (fits_cycle C e (msg_size m) = negb b /\ if b then cycle_wrapped C e e1 else e1 = e)
    as [Hfit' Hw].
  { unfold fits_cycle. destruct b; destruct_and!; (split; [|done]); [apply Z.ltb_ge; lia|apply Z.ltb_lt; lia]. }
  wp_step. apply wp_on_inner. do 3 wp_step. cbn [fst].
  assert (ep_ok C (set_resp_reservation (saturating_sub (resp_reservation e1) ra) e1)) as Hok2
    by (apply ep_ok_lower_reservation; [done|unfold saturating_sub; lia]).
  apply (wp_append C (set_resp_reservation (saturating_sub (resp_reservation e1) ra) e1));
    try done.
  apply wp_mark_dirty. intros dq' Hdq. unfold queued in *. cbn in Hdq. rewrite S9 in Hdq.
  split_and!; try done.
  - by apply (appended_ok _ _ m) in Hok2 as [? ? ? ? ? ? ? ? ? ? ? ?].
  - by apply appended_holds.
  - intros Hfl Hle. apply (reply_flow C e e1 b ra m); try done.
    destruct b; [|done]. destruct_and!. by split_and!.
  - unfold cycle_left. rewrite Hfit'. destruct b; cbn [negb]; [by eapply cycle_wrapped_qp|by subst].
Qed.

(** ** The receive path *)

(** What the peer does with the messages of a batch whose first one starts at
    [off] in its receive ring: requests are stacked, responses are matched with
    the pending calls. *)
Fixpoint deliver (self qpn off : Z) (ms : list Msg) (slab : Slab U)
    (stack : list RecvMessage) (resps : list (U * list Z))
    : Slab U * list RecvMessage * list (U * list Z) :=
  match ms with
  | [] => (slab, stack, resps)
  | m :: ms =>
      if is_response (m_id m) then
        let '(u, slab') := slab_try_remove slab (from_response_id (m_id m)) in
        deliver self qpn (off + msg_size m) ms slab' stack
          (match u with Some u => resps ++ [(u, m_data m)] | None => resps end)
      else
        deliver self qpn (off + msg_size m) ms slab
          (mkRecv self qpn (m_id m) (off + HEADER_SIZE) (m_len m) (m_pig m * ALIGNMENT) :: stack)
          resps
  end.

Lemma decode_header_at ring off m :
  msg_ok m -> read_bytes ring off (length (msg_bytes m)) = msg_bytes m ->
  decode_header ring off = (m_id m, m_pig m, m_len m).
Proof.
  intros (H1 & H2 & H3) Hr. pose proof (length_msg_bytes m) as Hl.
  pose proof (decode_header_bytes (m_id m) (m_pig m) (m_len m) (m_data m)) as Hd.
  rewrite !u32_small in Hd by done. rewrite <-Hd. apply decode_header_ext.
  fold (msg_bytes m). rewrite <-Hr at 1. rewrite read_bytes_read; [by rewrite Nat.add_0_r|].
  unfold m_len in Hl. lia.
Qed.

Lemma read_data_at ring off m :
  read_bytes ring off (length (msg_bytes m)) = msg_bytes m ->
  read_bytes ring (off + 12) (length (m_data m)) = m_data m.
Proof.
  intros Hr. pose proof (length_msg_bytes m) as Hl. unfold m_len in Hl.
  rewrite <-(read_bytes_read ring off (length (msg_bytes m))) by lia. rewrite Hr.
  unfold msg_bytes. pose proof (length_header_bytes (m_id m) (m_pig m) (m_len m)) as Hh.
  rewrite read_bytes_app_r by lia. rewrite Hh. apply read_bytes_all.
Qed.

(** The endpoint after the messages have been consumed. *)
Definition consumed (n : Z) (slab : Slab U) e : EndpointInner Slab U :=
  set_pending_calls slab (set_last_recv_pos (u64 (last_recv_pos e + n)) e).

Lemma consumed_0 e : is_uint 64 (last_recv_pos e) -> consumed 0 (pending_calls e) e = e.
Proof. intros H. unfold consumed. rewrite Z.add_0_r, u64_small by done. by destruct e. Qed.

Lemma process_message_at C self qpn m st :
  let e := rs_ep st in
  let off := last_recv_pos e mod C in
  msg_ok m -> (exists k, 0 <= k /\ C = 2 ^ k) -> recv_ring_len e = C ->
  off + msg_size m <= C ->
  read_bytes (recv_ring e) (Z.to_nat off) (length (msg_bytes m)) = msg_bytes m ->
  let '(slab', stack', resps') :=
    deliver self qpn off [m] (pending_calls e) (rs_stack st) (rs_responses st) in
  process_message self qpn st =
    Some (mkRecvState (consumed (msg_size m) slab' e) stack' resps').
Proof.
  intros e off Hm (k & Hk & ->) Hlen Hfit Hr. pose proof (msg_size_spec m Hm) as Hs.
  assert (0 <= off) as Hoff by (apply Z.mod_pos_bound, Z.pow_pos_nonneg; lia).
  pose proof Hm as (_ & Hp & _). unfold is_uint in Hp.
  unfold process_message. fold e. rewrite Hlen, land_mask by done. fold off.
  rewrite (proj2 (Z.ltb_ge _ _)) by (unfold HEADER_SIZE, m_len in *; lia).
  rewrite (decode_header_at _ _ m Hm Hr). cbn [deliver].
  destruct (is_response (m_id m)) eqn:Er.
  - change (pending_calls (set_last_recv_pos _ e)) with (pending_calls e).
    destruct (slab_try_remove (pending_calls e) (from_response_id (m_id m))) as [[u|] slab'];
      [|done].
    rewrite slice_in by
      (cbn; unfold recv_ring_len in Hlen; unfold HEADER_SIZE, m_len in *; lia).
    do 2 f_equal. cbn [recv_ring set_last_recv_pos set_pending_calls]. do 3 f_equal.
    etrans; [|exact (read_data_at _ _ _ Hr)]. unfold HEADER_SIZE, m_len. f_equal; lia.
  - unfold ALIGNMENT. rewrite (u64_small (m_pig m * 32)) by lia. done.
Qed.

Lemma deliver_cons self qpn off m ms slab stack resps :
  deliver self qpn off (m :: ms) slab stack resps =
  let '(slab', stack', resps') := deliver self qpn off [m] slab stack resps in
  deliver self qpn (off + msg_size m) ms slab' stack' resps'.
Proof. cbn. by destruct (is_response _); [destruct (slab_try_remove _ _)|]. Qed.

(** Offsets of the messages left stay inside the cycle. *)
Lemma deliver_advance C pos n ring self qpn ms slab stack resps :
  0 < C -> 0 <= n -> Z.of_nat (length ring) = C -> Forall msg_ok ms ->
  msgs_at ring (pos mod C + n) ms ->
  deliver self qpn ((pos + n) mod C) ms slab stack resps =
    deliver self qpn (pos mod C + n) ms slab stack resps /\
  msgs_at ring ((pos + n) mod C) ms.
Proof.
  intros HC Hn Hlen Hms Hat. destruct ms as [|m ms]; [done|].
  pose proof Hat as (G1 & G2 & G3 & G4). pose proof (msg_size_spec m (Forall_inv Hms)).
  rewrite (mod_advance C pos) by lia. by rewrite Z.add_simpl_l.
Qed.

Lemma process_messages_at C self qpn ms st :
  let e := rs_ep st in
  let off := last_recv_pos e mod C in
  Forall msg_ok ms -> (exists k, 0 <= k /\ C = 2 ^ k) -> recv_ring_len e = C ->
  is_uint 64 (last_recv_pos e) -> last_recv_pos e + msgs_size ms < 2 ^ 64 ->
  msgs_at (recv_ring e) off ms ->
  let '(slab', stack', resps') :=
    deliver self qpn off ms (pending_calls e) (rs_stack st) (rs_responses st) in
  process_messages self qpn (length ms) st =
    Some (mkRecvState (consumed (msgs_size ms) slab' e) stack' resps').
Proof.
  intros e off Hok HC. subst e off. revert st.
  induction Hok as [|m ms Hm Hms IH]; intros st Hlen Hu Hlt Hat.
  { cbn. rewrite consumed_0 by done. by destruct st. }
  rewrite deliver_cons, msgs_size_cons in *. destruct Hat as (H1 & H2 & H3 & H4).
  pose proof (msg_size_spec m Hm) as Hs. pose proof (msgs_size_nonneg ms Hms) as Hn.
  unfold recv_ring_len in Hlen. rewrite Hlen in H2.
  pose proof (process_message_at C self qpn m st Hm HC Hlen H2 H3) as Hp.
  cbn [length process_messages].
  destruct (deliver self qpn _ [m] _ _ _) as [[slab1 stack1] resps1]. rewrite Hp.
  unfold is_uint in Hu.
  specialize (IH (mkRecvState (consumed (msg_size m) slab1 (rs_ep st)) stack1 resps1)).
  cbn [rs_ep rs_stack rs_responses] in IH.
  assert (last_recv_pos (consumed (msg_size m) slab1 (rs_ep st)) =
          last_recv_pos (rs_ep st) + msg_size m) as Epos by (cbn; apply u64_small; lia).
  change (pending_calls (consumed (msg_size m) slab1 (rs_ep st))) with slab1 in IH.
  change (recv_ring (consumed (msg_size m) slab1 (rs_ep st))) with (recv_ring (rs_ep st)) in IH.
  destruct (deliver_advance C (last_recv_pos (rs_ep st)) (msg_size m) (recv_ring (rs_ep st))
    self qpn ms slab1 stack1 resps1) as [Ed Ha]; [by destruct HC as (k & ? & ->); lia|lia|done..|].
  rewrite Epos, Ed in IH.
  destruct (deliver self qpn (_ + _) ms slab1 stack1 resps1) as [[slab2 stack2] resps2].
  rewrite IH; [|done|unfold is_uint; lia|lia|done].
  do 2 f_equal. unfold consumed. cbn. rewrite (u64_small (last_recv_pos _ + _)) by lia.
  by rewrite Z.add_assoc.
Qed.

(** ** One batch from ring to ring *)

Lemma read_bytes_split ring off n k :
  (k <= n)%nat ->
  read_bytes ring off k ++ read_bytes ring (off + k) (n - k) = read_bytes ring off n.
Proof.
  intros H. unfold read_bytes. rewrite <-drop_drop.
  rewrite <-(firstn_skipn k (take n (drop off ring))). f_equal.
  - by rewrite take_take, Nat.min_l.
  - by rewrite skipn_firstn_comm.
Qed.

(** The filled ring holds the metadata and still the messages. *)
Lemma filled_holds C e ms :
  ep_ok C e -> holds_batch C e ms ->
  decode_flow_metadata (send_ring (filled e)) (Z.to_nat (meta_pos e mod C)) =
    (last_recv_pos e - last_notified_recv_pos e, compute_credit_grant e,
     Z.of_nat (length ms)) /\
  msgs_at (send_ring (filled e)) (meta_pos e mod C + 32) ms.
Proof.
  intros Hok (Hms & Hcnt & Hprod & Hat). pose proof (ring_pos C e Hok) as [Hc _].
  pose proof (offset_bounds C e (meta_pos e) Hok) as Hb.
  pose proof (offset_room C e (meta_pos e) Hok (proj2 (ok_meta C e Hok))) as Hroom.
  pose proof (ok_len C e Hok) as Hl. pose proof (ok_recv C e Hok). pose proof (ok_count C e Hok).
  pose proof (ok_span C e Hok). pose proof (ok_prod C e Hok). pose proof (ok_res C e Hok) as Hres.
  destruct (grant_bounds C e (ok_remote C e Hok) (ok_res C e Hok)) as (Hg & _ & Hgm & _); [lia|].
  unfold filled. cbn [send_ring set_send_ring]. rewrite Hl. unfold send_ring_len in Hl.
  rewrite encode_flow_metadata_bytes by lia.
  set (md := metadata_bytes _ _ _).
  assert (length md = 32%nat) as Hmd by apply length_metadata_bytes. split.
  - rewrite (decode_metadata_ext _ _ md 0).
    + rewrite <-(app_nil_r md). subst md. rewrite decode_metadata_bytes.
      rewrite Hcnt, u32_small by lia.
      rewrite !(u64_small (last_recv_pos e - _)), (u64_small (compute_credit_grant e)) by lia.
      done.
    + rewrite <-Hmd. rewrite read_write_same by lia. by rewrite read_bytes_all.
  - eapply msgs_at_ext; [done|symmetry; apply length_write_bytes; lia| |exact Hat].
    intros i Hi. rewrite lookup_write_bytes by lia. by rewrite decide_False by lia.
Qed.

Lemma lookup_of_read buf1 buf2 off n i :
  (off + n <= length buf2)%nat -> (off <= i < off + n)%nat ->
  read_bytes buf1 off n = read_bytes buf2 off n -> buf1 !! i = buf2 !! i.
Proof.
  intros Hl Hi H. replace i with (off + (i - off))%nat by lia.
  rewrite <-!(lookup_read_bytes _ off n) by lia. by rewrite H.
Qed.

(** The endpoint after it has processed a batch with the given metadata. *)
Definition after_batch (delta rcr grant : Z) (slab : Slab U) (n : Z) r
    : EndpointInner Slab U :=
  consumed n slab
    (set_last_recv_pos (u64 (last_recv_pos r + 32))
       (set_peer_credit_balance (u64 (peer_credit_balance r + grant))
          (set_remote_consumer_pos (u64 (remote_consumer_pos r + rcr))
             (set_recv_ring_producer (u64 (recv_ring_producer r + delta)) r)))).

Lemma process_cqe_batch C e ms st self qpn :
  let r := rs_ep st in
  let off := meta_pos e mod C in
  let delta := send_ring_producer e - meta_pos e in
  ep_ok C e -> holds_batch C e ms -> recv_ring_len r = C -> last_recv_pos r = meta_pos e ->
  read_bytes (recv_ring r) (Z.to_nat off) (Z.to_nat delta) =
    read_bytes (send_ring (filled e)) (Z.to_nat off) (Z.to_nat delta) ->
  let '(slab', stack', resps') :=
    deliver self qpn (off + 32) ms (pending_calls r) (rs_stack st) (rs_responses st) in
  process_cqe self qpn (encode_imm delta) st =
    Some (mkRecvState
      (after_batch delta (last_recv_pos e - last_notified_recv_pos e) (compute_credit_grant e)
         slab' (msgs_size ms) r) stack' resps').
Proof.
  intros r off delta Hok Hb Hlen Hpos Hmem.
  pose proof (ring_pos C e Hok) as [Hc _]. pose proof (offset_bounds C e (meta_pos e) Hok) as Ho.
  pose proof (ok_len C e Hok) as Hl. pose proof (ok_span C e Hok) as Hs.
  pose proof (ok_prod C e Hok) as (Hp1 & Hp2 & Hp3). pose proof (ok_count C e Hok) as Hct.
  pose proof (ok_meta C e Hok) as [Hm1 Hm2].
  destruct (filled_holds C e ms Hok Hb) as [Hmeta Hat]. fold off in Hmeta, Hat, Ho, Hs.
  destruct Hb as (Hms & Hcnt & Hprod & _).
  pose proof (ok_len C _ (filled_ok C e Hok)) as Hfl. unfold send_ring_len, recv_ring_len in *.
  assert (decode_flow_metadata (recv_ring r) (Z.to_nat off) =
          (last_recv_pos e - last_notified_recv_pos e, compute_credit_grant e,
           Z.of_nat (length ms))) as Hdec.
  { rewrite <-Hmeta. apply decode_metadata_ext. apply read_bytes_ext. intros i Hi.
    apply (lookup_of_read _ _ (Z.to_nat off) (Z.to_nat delta)); [lia|lia|done]. }
  assert (msgs_at (recv_ring r) (off + 32) ms) as Hat'.
  { eapply msgs_at_ext; [done| | |exact Hat]; [lia|]. intros i Hi. symmetry.
    apply (lookup_of_read _ _ (Z.to_nat off) (Z.to_nat delta)); [lia|lia|done]. }
  destruct (deliver_advance C (meta_pos e) 32 (recv_ring r) self qpn ms (pending_calls r)
    (rs_stack st) (rs_responses st)) as [Ed Ha]; [lia|lia|done..|]. fold off in Ed.
  unfold process_cqe, recv_ring_len. fold r.
  rewrite decode_encode_imm by (lia || by apply aligned_sub).
  cbn [recv_ring last_recv_pos set_recv_ring_producer]. rewrite Hlen, Hpos, (ring_land C e) by done.
  fold off. unfold FLOW_METADATA_SIZE. rewrite (proj2 (Z.ltb_ge _ _)) by lia. rewrite Hdec.
  rewrite (proj2 (Z.eqb_neq _ _)) by (unfold WRAP_MESSAGE_COUNT, U32_MAX; lia).
  rewrite Nat2Z.id. set (st1 := mkRecvState _ _ _).
  assert (last_recv_pos (rs_ep st1) = meta_pos e + 32) as Epos by (cbn; apply u64_small; lia).
  pose proof (process_messages_at C self qpn ms st1 Hms) as Hpm. cbv zeta in Hpm.
  rewrite Epos in Hpm. cbn [rs_stack rs_responses st1] in Hpm.
  change (pending_calls (rs_ep st1)) with (pending_calls r) in Hpm.
  change (recv_ring (rs_ep st1)) with (recv_ring r) in Hpm. rewrite Ed in Hpm.
  destruct (deliver self qpn (off + 32) ms _ _ _) as [[slab' stack'] resps'].
  rewrite Hpm; [|by destruct (ok_pow C e Hok) as (k & ? & ?); exists k; split; [lia|]|done
                |unfold is_uint; lia|lia|done].
  unfold after_batch. by rewrite Hpos.
Qed.

(** The refused batch still consists of its messages. *)
Lemma filled_holds_batch C e ms : ep_ok C e -> holds_batch C e ms -> holds_batch C (filled e) ms.
Proof.
  intros Hok Hb. destruct (filled_holds C e ms Hok Hb) as [_ Hat].
  destruct Hb as (H1 & H2 & H3 & _). by split_and!.
Qed.

End Messages.
End RcMessages.
