(* ===== verification/RcWire.v ===== *)
(** * RcWire: posted requests on their way to the peer

    The device of an RC endpoint: it reads the requests it has been shown off the
    send queue, gathers their bytes from the request and the registered send
    ring, and writes them into the receive ring of the peer, which processes the
    completion.  A batch that was flushed arrives as the messages it held. *)

From S2P Require Import Prelude FastMap Encoding Ring SendQueue Rc RcBatch RcMessages.
Import Encoding SendQueue Rc RcBatch RcMessages.
#[local] Open Scope prog_scope.

Module RcWire.

Section Wire.
Context {Slab : Type -> Type} `{!SlabOps Slab} `{!SlabLaws Slab} {U : Type}.
Implicit Types e : EndpointInner Slab U.

(** ** The device *)

(** What the device gathers for a request of [e]: the inline data, then the
    bytes its SGE points at, which have to lie in the registered send ring. *)
Definition gather e (w : Write) : option (list Z) :=
  match w_sge w with
  | None => Some (w_inline w)
  | Some s =>
      let off := sge_addr s - send_mr_addr e in
      if sge_lkey s =? send_mr_lkey e
      then app (w_inline w) <$> slice (send_ring e) off (off + sge_len s)
      else None
  end.

(** The device executes a WRITE+IMM of [e]: it writes the gathered bytes to the
    receive ring the request addresses, if it is registered there, and the peer
    processes the completion. *)
Definition execute e (self qpn : Z) (st : RecvState (Slab := Slab) (U := U)) (w : Write)
    : option RecvState :=
  let r := rs_ep st in
  match gather e w with
  | None => None
  | Some bytes =>
      let off := rdma_remote_addr (w_rdma w) - recv_mr_addr r in
      if (rdma_rkey (w_rdma w) =? recv_mr_rkey r) && (0 <=? off) &&
         (off + Z.of_nat (length bytes) <=? recv_ring_len r)
      then process_cqe self qpn (w_imm w)
             (mkRecvState (set_recv_ring (write_bytes (recv_ring r) (Z.to_nat off) bytes) r)
                (rs_stack st) (rs_responses st))
      else None
  end.

Fixpoint execute_all e (self qpn : Z) (ws : list Write) (st : RecvState (Slab := Slab) (U := U))
    : option RecvState :=
  match ws with
  | [] => Some st
  | w :: ws => match execute e self qpn st w with
               | None => None
               | Some st' => execute_all e self qpn ws st'
               end
  end.

(** The device of [e] executes the requests shown to it from index [idx] on. *)
Definition transmit e (idx self qpn : Z) (st : RecvState (Slab := Slab) (U := U))
    : option RecvState :=
  match qp e with
  | None => None
  | Some sq => match requests sq idx ≫= writes with
               | None => None
               | Some ws => execute_all e self qpn ws st
               end
  end.

(** ** Delivery *)

(** The request for the open batch carries just its bytes. *)
Lemma gather_batch C e :
  let off := meta_pos e mod C in
  let delta := send_ring_producer e - meta_pos e in
  ep_ok C e -> 0 <= send_mr_addr e -> send_mr_addr e + C < 2 ^ 64 ->
  gather e (batch_write C e) = Some (read_bytes (send_ring e) (Z.to_nat off) (Z.to_nat delta)).
Proof.
  intros off delta Hok Ha Hlt. pose proof (offset_bounds C e (meta_pos e) Hok).
  pose proof (ok_span C e Hok). pose proof (ok_prod C e Hok). pose proof (ok_len C e Hok) as Hl.
  unfold send_ring_len in Hl. fold off in H, H0. fold delta in H0.
  unfold gather, batch_write, wqe_args, MAX_INLINE_ONLY, MAX_INLINE_HYBRID.
  cbn [w_sge w_inline]. fold off delta.
  destruct (delta <=? 220) eqn:E; guards; cbn [fst snd sge_addr sge_len sge_lkey]; [done|].
  rewrite Z.eqb_refl, u64_small, slice_in by lia. cbn. f_equal.
  rewrite <-(read_bytes_split _ _ (Z.to_nat delta) (Z.to_nat 204)) by lia.
  f_equal. f_equal; lia.
Qed.

Lemma gather_ext e e' w :
  send_ring e' = send_ring e -> send_mr_addr e' = send_mr_addr e ->
  send_mr_lkey e' = send_mr_lkey e -> gather e' w = gather e w.
Proof. intros E1 E2 E3. unfold gather. by rewrite E1, E2, E3. Qed.

(** The receive ring of the peer, at an address its device can form, is the one
    [e] was connected to. *)
Definition connected_to (C : Z) e (r : EndpointInner Slab U) : Prop :=
  remote_recv_ring e = Some (mkRemote (recv_mr_addr r) (recv_mr_rkey r) C) /\
  0 <= recv_mr_addr r /\ recv_mr_addr r + C < 2 ^ 64 /\ recv_ring_len r = C /\
  0 <= send_mr_addr e /\ send_mr_addr e + C < 2 ^ 64.

(** The receiver once the device has executed the request for the batch of
    [e]. *)
Lemma execute_batch C e e' ms st self qpn :
  let r := rs_ep st in
  let off := meta_pos e mod C in
  let delta := send_ring_producer e - meta_pos e in
  ep_ok C e -> holds_batch C e ms -> posted C e e' -> connected_to C e r ->
  last_recv_pos r = meta_pos e ->
  let '(slab', stack', resps') :=
    deliver self qpn (off + 32) ms (pending_calls r) (rs_stack st) (rs_responses st) in
  exists ring', length ring' = length (recv_ring r) /\ msgs_at ring' (off + 32) ms /\
    execute e' self qpn st (batch_write C (filled e)) =
      Some (mkRecvState
        (after_batch delta (last_recv_pos e - last_notified_recv_pos e) (compute_credit_grant e)
           slab' (msgs_size ms) (set_recv_ring ring' r)) stack' resps').
Proof.
  intros r off delta Hok Hb (_ & Hring & Hst) (Hrr & Ha1 & Ha2 & Hlen & Hs1 & Hs2) Hpos.
  pose proof (filled_ok C e Hok) as Hfok. pose proof (offset_bounds C e (meta_pos e) Hok) as Ho.
  pose proof (ok_span C e Hok) as Hspan. pose proof (ok_prod C e Hok) as Hpr.
  pose proof (ok_len C _ Hfok) as Hfl. unfold send_ring_len, recv_ring_len in *.
  fold off in Ho, Hspan. fold delta in Hspan.
  destruct Hst as (_ & _ & _ & E4 & E5 & _).
  assert (gather e' (batch_write C (filled e)) =
          Some (read_bytes (send_ring (filled e)) (Z.to_nat off) (Z.to_nat delta))) as Hg.
  { rewrite (gather_ext (filled e)) by done. by apply (gather_batch C (filled e)). }
  set (bytes := read_bytes (send_ring (filled e)) (Z.to_nat off) (Z.to_nat delta)) in *.
  assert (length bytes = Z.to_nat delta) as Hlb by (apply length_read_bytes; lia).
  set (ring' := write_bytes (recv_ring r) (Z.to_nat off) bytes).
  assert (length ring' = length (recv_ring r)) as Hl' by (apply length_write_bytes; lia).
  assert (read_bytes ring' (Z.to_nat off) (Z.to_nat delta) = bytes) as Hrd
    by (rewrite <-Hlb; apply read_write_same; lia).
  set (st1 := mkRecvState (set_recv_ring ring' r) (rs_stack st) (rs_responses st)).
  pose proof (process_cqe_batch C e ms st1 self qpn Hok Hb) as Hp. cbv zeta in Hp.
  specialize (Hp ltac:(unfold recv_ring_len; cbn; by rewrite Hl') Hpos Hrd).
  cbn [st1 rs_ep rs_stack rs_responses] in Hp.
  change (pending_calls (set_recv_ring ring' r)) with (pending_calls r) in Hp.
  fold off delta in Hp. destruct (deliver _ _ _ _ _ _ _) as [[slab' stack'] resps'].
  exists ring'. split_and!; [done| |].
  - destruct (filled_holds C e ms Hok Hb) as [_ Hat]. destruct Hb as (Hms & _ & Hprod & _).
    eapply msgs_at_ext; [done| | |exact Hat]; [lia|]. fold off. intros i Hi. symmetry.
    apply (lookup_of_read _ _ (Z.to_nat off) (Z.to_nat delta)); [lia|lia|done].
  - unfold execute. fold r. rewrite Hg.
    assert (rdma_remote_addr (w_rdma (batch_write C (filled e))) - recv_mr_addr r = off) as Ea.
    { unfold batch_write. cbn [w_rdma rdma_remote_addr remote_recv_ring filled set_send_ring
        set_resp_reservation set_last_notified_recv_pos]. rewrite Hrr. cbn. fold off.
      rewrite u64_small by lia. lia. }
    rewrite Ea. unfold recv_ring_len. rewrite Hlb.
    assert (rdma_rkey (w_rdma (batch_write C (filled e))) = recv_mr_rkey r) as ->.
    { unfold batch_write. cbn [w_rdma rdma_rkey remote_recv_ring filled set_send_ring
        set_resp_reservation set_last_notified_recv_pos]. by rewrite Hrr. }
    rewrite Z.eqb_refl, (proj2 (Z.leb_le 0 off)), (proj2 (Z.leb_le _ _)) by lia. exact Hp.
Qed.

(** A flushed batch reaches the peer: the device executes just the one request
    it was shown. *)
Lemma flushed_transmit C e e' ms st self qpn sq :
  let r := rs_ep st in
  let off := meta_pos e mod C in
  let delta := send_ring_producer e - meta_pos e in
  ep_ok C e -> holds_batch C e ms -> 0 < batch_message_count e -> batch_flushed C e e' ->
  qp e = Some sq -> connected_to C e r -> last_recv_pos r = meta_pos e ->
  let '(slab', stack', resps') :=
    deliver self qpn (off + 32) ms (pending_calls r) (rs_stack st) (rs_responses st) in
  exists ring', length ring' = length (recv_ring r) /\ msgs_at ring' (off + 32) ms /\
    transmit e' (pi sq) self qpn st =
      Some (mkRecvState
        (after_batch delta (last_recv_pos e - last_notified_recv_pos e) (compute_credit_grant e)
           slab' (msgs_size ms) (set_recv_ring ring' r)) stack' resps').
Proof.
  intros r off delta Hok Hb Hc Hfl Hqp Hcn Hpos. unfold batch_flushed in Hfl.
  rewrite (proj2 (Z.ltb_lt _ _)) in Hfl by done. destruct Hfl as (_ & Hpo & Hsh).
  pose proof (execute_batch C e e' ms st self qpn Hok Hb Hpo Hcn Hpos) as He.
  cbv zeta in He. fold r off delta in He. destruct (deliver _ _ _ _ _ _ _) as [[slab' stack'] resps'].
  destruct He as (ring' & H1 & H2 & H3). exists ring'. split_and!; [done..|].
  pose proof (proj1 Hpo) as (sq0 & sq' & l & Hq0 & Hq' & _).
  unfold transmit. rewrite Hq'. rewrite (posts_requests e e' sq sq' _ (proj1 Hpo) Hqp Hq' Hsh).
  cbn [execute_all]. by rewrite H3.
Qed.

End Wire.
End RcWire.
