(* ===== verification/RcProps.v ===== *)
(** * RcProps: correctness of the RC transport

    The properties of [call], [reply], [flush] and the receive path, the
    flow-control invariant over every sequence of operations, and concrete runs
    on a small ring. *)

From S2P Require Import Prelude FastMap Encoding Ring SendQueue Rc RcBatch RcMessages RcWire.
Import Encoding SendQueue Rc RcBatch RcMessages RcWire.
#[local] Open Scope prog_scope.

Module RcProps.

(** ** A slab to run the model with *)

Definition ListSlab (U : Type) : Type := list (option U).

Definition lslab_get {U} (s : ListSlab U) (k : Z) : option U :=
  if k <? 0 then None else default None (s !! Z.to_nat k).

#[export] Instance list_slab_ops : SlabOps ListSlab := {|
  slab_new U := [];
  slab_insert U s u := (Z.of_nat (length s), s ++ [Some u]);
  slab_try_remove U s k :=
    (lslab_get s k, if k <? 0 then s else <[Z.to_nat k := None]> s);
  slab_get U s k := lslab_get s k;
|}.

#[export] Instance list_slab_laws : SlabLaws ListSlab.
Proof.
  split; cbn [list_slab_ops slab_new slab_get slab_insert slab_try_remove fst snd];
    unfold lslab_get, ListSlab.
  - intros U k. by destruct (k <? 0).
  - intros U s u. split; [lia|]. rewrite (proj2 (Z.ltb_ge _ _)) by lia.
    by rewrite Nat2Z.id, lookup_ge_None_2.
  - intros U s u k. destruct (k <? 0) eqn:E; guards; [by rewrite decide_False by lia|].
    case_decide as H.
    + subst. by rewrite Nat2Z.id, lookup_app_r, Nat.sub_diag by lia.
    + destruct (decide (Z.to_nat k < length s)%nat); [by rewrite lookup_app_l|].
      rewrite (lookup_ge_None_2 s) by lia. rewrite lookup_ge_None_2; [done|].
      rewrite length_app. cbn. lia.
  - done.
  - intros U s k k'. case_decide as H.
    + subst. destruct (k' <? 0) eqn:E; [done|].
      destruct (decide (Z.to_nat k' < length s)%nat).
      * by rewrite list_lookup_insert_eq.
      * by rewrite lookup_ge_None_2 by (rewrite length_insert; lia).
    + destruct (k' <? 0) eqn:E; [done|]. destruct (k <? 0) eqn:E'; [done|]. guards.
      rewrite list_lookup_insert_ne by lia. done.
Qed.

(** A connected endpoint with rings of [n] bytes and a send queue of [q] blocks. *)
Definition demo (n q : Z) : EndpointInner ListSlab Z :=
  match connect_ex (mkRemoteInfo 4096 7 n (n / 4)) true
          (endpoint_new (mkConfig n n (n / 4)) (Some (sq_new q)) 5 65536 1 4096 7) with
  | Some (e, Ok _) => e
  | _ => endpoint_new (mkConfig n n (n / 4)) None 5 0 0 0 0
  end.

(** Bytes the device writes into the receive ring of [r] at [off]. *)
Definition rdma_write (off : Z) (bytes : list Z) (r : EndpointInner ListSlab Z)
    : EndpointInner ListSlab Z :=
  set_recv_ring (write_bytes (recv_ring r) (Z.to_nat off) bytes) r.

(** Creation and connection leave an endpoint in the invariant. *)
Section Connect.
Context {Slab : Type -> Type} `{!SlabOps Slab} {U : Type}.

Lemma next_pow_id k : 0 <= k -> Ring.next_power_of_two (2 ^ k) = 2 ^ k.
Proof.
  intros Hk. unfold Ring.next_power_of_two. destruct (2 ^ k <=? 1) eqn:E; guards.
  - pose proof (Z.pow_pos_nonneg 2 k). lia.
  - by rewrite Z.log2_up_pow2.
Qed.

Lemma wp_connect k sq n sa sk ra rk maxr paddr prk credit :
  let C := 2 ^ k in
  6 <= k <= 31 -> sq_ok sq -> 0 <= maxr ->
  wp (connect_ex (mkRemoteInfo paddr prk C credit) true)
    (fun _ e => ep_ok C e /\ flow_ok C e /\ holds_batch C e [] /\ peer_credit_balance e = credit)
    (fun _ _ => False)
    (endpoint_new (U := U) (mkConfig C C maxr) (Some sq) n sa sk ra rk).
Proof.
  intros C Hk Hsq Hm. assert (2 ^ 6 <= C) by (apply Z.pow_le_mono_r; lia).
  assert (C <= 2 ^ 31) by (apply Z.pow_le_mono_r; lia).
  unfold connect_ex. repeat wp_step. unfold prepare_next_batch. repeat wp_step.
  set (e := set_send_ring_producer _ _).
  assert (max_resp_reservation e = Z.min maxr (C / 4)) as Em by done.
  assert (resp_reservation e = Z.min (Z.min maxr (C / 4)) (C / 4)) as Er by done.
  assert (send_ring_len e = C) as El.
  { unfold send_ring_len, e. cbn -[Z.pow Ring.next_power_of_two].
    rewrite length_replicate. subst C. rewrite next_pow_id by lia. lia. }
  assert (meta_pos e = 0 /\ send_ring_producer e = 32 /\ batch_message_count e = 0 /\
          remote_consumer_pos e = 0 /\ last_recv_pos e = 0 /\ last_notified_recv_pos e = 0 /\
          flush_start_pos e = 0) as (E1 & E2 & E3 & E4 & E5 & E6 & E7) by done.
  pose proof (Z.mul_div_le C 4). pose proof (Z.div_pos C 4).
  split_and!; try done.
  - constructor; rewrite ?E1, ?E2, ?E3, ?E4, ?E5, ?E6, ?E7, ?Em, ?Er, ?Z.mod_0_l by lia;
      try done; try lia; eauto with lia.
  - unfold flow_ok, load, batch_end. rewrite Er, E1, E2, E3, E4. cbn -[Z.mul]. lia.
Qed.

(** Creating an endpoint whose two ring sizes are the power of two [C] and
    connecting it to a peer with rings of the same size establishes the
    endpoint invariant and the flow-control inequality, with an empty batch. *)
Theorem connect_establishes_invariant k sq n sa sk ra rk maxr paddr prk credit :
  let C := 2 ^ k in
  6 <= k <= 31 -> sq_ok sq -> 0 <= maxr ->
  exists e : EndpointInner Slab U,
    connect_ex (mkRemoteInfo paddr prk C credit) true
      (endpoint_new (mkConfig C C maxr) (Some sq) n sa sk ra rk) = Some (e, Ok tt) /\
    ep_ok C e /\ flow_ok C e /\ holds_batch C e [] /\ peer_credit_balance e = credit.
Proof.
  intros C Hk Hsq Hm.
  destruct (wp_run _ _ _ _ (wp_connect k sq n sa sk ra rk maxr paddr prk credit Hk Hsq Hm))
    as (e & r & Hrun & Hr).
  destruct r as [[]|]; [|done]. by exists e.
Qed.
End Connect.

(** A concrete connected endpoint satisfies the invariant. *)
Lemma demo_ok :
  ep_ok 256 (demo 256 16) /\ flow_ok 256 (demo 256 16) /\ holds_batch 256 (demo 256 16) [].
Proof.
  destruct (wp_run _ _ _ _ (wp_connect (Slab := ListSlab) (U := Z) 8 (sq_new 16)
    5 65536 1 4096 7 64 4096 7 64 ltac:(lia) ltac:(vm_compute; intuition congruence)
    ltac:(lia))) as (e & r & Hrun & Hr).
  destruct r as [[]|]; [|done]. change (2 ^ 8) with 256 in *.
  unfold demo. change (256 / 4) with 64. rewrite Hrun. destruct_and!. by split_and!.
Qed.

Lemma connect_establishes_invariant_witness :
  exists e : EndpointInner ListSlab Z,
    connect_ex (mkRemoteInfo 4096 7 (2 ^ 8) 64) true
      (endpoint_new (mkConfig (2 ^ 8) (2 ^ 8) 64) (Some (sq_new 16)) 5 65536 1 4096 7) =
      Some (e, Ok tt) /\ ep_ok (2 ^ 8) e.
Proof.
  destruct (connect_establishes_invariant (Slab := ListSlab) (U := Z) 8 (sq_new 16)
    5 65536 1 4096 7 64 4096 7 64) as (e & H & Hok & _); [lia| |lia|by exists e].
  vm_compute. intuition congruence.
Defined.

Lemma wp_use {S E A} (m : M S E A) Q R s s' r :
  wp m Q R s -> m s = Some (s', r) -> match r with Ok a => Q a s' | Err e => R e s' end.
Proof. unfold wp. intros H E0. rewrite E0 in H. by destruct r. Qed.

Section Props.
Context {Slab : Type -> Type} `{!SlabOps Slab} `{!SlabLaws Slab} {U : Type}.
Implicit Types e : EndpointInner Slab U.

(** C3: [call] never panics or writes out of bounds on a connected endpoint, and
    its outcome is accounted for in every case.  On success the request is
    appended to the open batch, or, when it does not fit the ring cycle, to a
    fresh one after the open batch and the wrap request were posted to the send
    queue; the response allowance is paid from the peer's credit, the user data
    is recorded under the call's identifier, the endpoint is queued once for
    flushing and the flow-control inequality holds.  On failure the pending
    calls and the credit are untouched.  Without enough credit the open batch is
    flushed.  [RingFull] means that the message does not fit the free part of the
    peer's ring, as it stands when the message fits the cycle and the batch is
    flushed, else after the batch and the wrap request were posted and shown to
    the device.  The only other error is a send queue with fewer than seven free
    blocks, which leaves the batch open, or the batch posted and the wrap to be
    retried. *)
Theorem call_correct C self data u ra e dq ms :
  let allow := internal_allowance ra in
  let sz := padded_message_size (Z.of_nat (length data)) in
  ep_ok C e -> holds_batch C e ms -> is_uint 32 ra -> Z.of_nat (length data) < 2 ^ 32 ->
  is_uint 64 (peer_credit_balance e) -> send_ring_producer e + 2 ^ 35 < 2 ^ 64 ->
  exists e' dq' r, call self data u ra (e, dq) = Some ((e', dq'), r) /\ ep_ok C e' /\
    match r with
    | Ok cid =>
        queued self e dq dq' /\ is_dirty e' = true /\
        holds_batch C e' ((if fits_cycle C e sz then ms else []) ++ [request cid ra data]) /\
        (if fits_cycle C e sz then batch_grown e e' else cycle_wrapped C e e') /\
        peer_credit_balance e' = peer_credit_balance e - allow /\
        0 <= peer_credit_balance e' /\ load e' <= C /\ call_recorded u cid e e'
    | Err err =>
        dq' = dq /\ pending_calls e' = pending_calls e /\
        peer_credit_balance e' = peer_credit_balance e /\
        match err with
        | CallInsufficientCredit u' =>
            u' = u /\ peer_credit_balance e < allow /\ batch_flushed C e e' /\
            has_pending_send e' = false
        | CallRingFull u' =>
            u' = u /\ has_pending_send e' = false /\
            if fits_cycle C e sz
            then batch_flushed C e e' /\
                 C < send_ring_producer e - remote_consumer_pos e + sz + 2 * resp_reservation e
            else cycle_wrapped C e e' /\ shown e' /\ holds_batch C e' [] /\
                 C < send_ring_producer e' - remote_consumer_pos e' + sz + 2 * resp_reservation e'
        | CallOther er =>
            sq_refused er e' /\
            (holds_batch C e' ms \/
             (fits_cycle C e sz = false /\ exists e1, closed C e e1 /\ e' = wrapped e1))
        end
    end.
Proof.
  intros allow sz Hok Hb Hra Hd Hpc Hlt.
  destruct (wp_run _ _ _ _ (wp_call C self data u ra e dq ms Hok Hb Hra Hd Hpc Hlt))
    as ([e' dq'] & r & Hrun & Hr).
  exists e', dq', r. split; [done|].
  destruct r as [cid|er]; unfold same_peer in *; destruct_and!; split_and!; try done.
  destruct er; destruct_and!; split_and!; try done.
  match goal with H : _ \/ _ |- _ => destruct H as [[_ ->]|(_ & Hf & [[_ ->]|Hw])] end;
    [left; by apply filled_holds_batch..|by right].
Qed.

(** [reply] never panics or writes out of bounds when the response fits the
    ring; it appends the response to the open batch, touches neither pending
    calls nor credit, queues the endpoint once, and keeps the flow-control
    inequality when the response respects the allowance of its call. *)
Theorem reply_correct C self cid ra data e dq ms :
  let sz := padded_message_size (Z.of_nat (length data)) in
  ep_ok C e -> holds_batch C e ms -> 0 <= cid < 2 ^ 31 -> Z.of_nat (length data) < 2 ^ 32 ->
  32 + sz <= C -> 0 <= ra -> send_ring_producer e + 2 ^ 35 < 2 ^ 64 ->
  exists e' dq' r, reply self cid ra data (e, dq) = Some ((e', dq'), r) /\ ep_ok C e' /\
    pending_calls e' = pending_calls e /\ peer_credit_balance e' = peer_credit_balance e /\
    match r with
    | Ok _ =>
        queued self e dq dq' /\ is_dirty e' = true /\
        holds_batch C e' ((if fits_cycle C e sz then ms else []) ++ [response cid data]) /\
        (flow_ok C e -> sz + 32 <= ra <= resp_reservation e -> flow_ok C e')
    | Err err => sq_refused err e' /\ dq' = dq
    end.
Proof.
  intros sz Hok Hb Hcid Hd Hfit Hra Hlt.
  destruct (wp_run _ _ _ _ (wp_reply C self cid ra data e dq ms Hok Hb Hcid Hd Hfit Hra Hlt))
    as ([e' dq'] & r & Hrun & Hr).
  exists e', dq', r. destruct r as [[]|er]; unfold same_peer in *; destruct_and!; by split_and!.
Qed.

(** C17: [flush] sends everything.  On success nothing is pending any more; a
    non-empty batch has become exactly one request that the device, shown the new
    producer index, reads off the send queue behind the requests already there: a
    WRITE+IMM to the offset of the batch in the peer's ring, whose gathered bytes
    are the bytes of the batch in the send ring, beginning with metadata that
    decodes to the acknowledgement, the credit grant and the number of messages,
    followed by the messages; the next batch starts where it ended.  An empty
    batch leaves only the doorbell to ring.  It fails only when fewer than seven
    blocks of the send queue are free, with the batch still open. *)
Theorem flush_correct C e ms :
  let off := meta_pos e mod C in
  let delta := send_ring_producer e - meta_pos e in
  ep_ok C e -> holds_batch C e ms -> send_ring_producer e + 32 < 2 ^ 64 ->
  0 <= send_mr_addr e -> send_mr_addr e + C < 2 ^ 64 ->
  exists e' r, flush e = Some (e', r) /\ ep_ok C e' /\ same_peer e e' /\
    match r with
    | Ok _ =>
        has_pending_send e' = false /\ (flow_ok C e -> flow_ok C e') /\
        if 0 <? batch_message_count e then
          exists sq sq' rr w, qp e = Some sq /\ qp e' = Some sq' /\ remote_recv_ring e = Some rr /\
            requests sq' (pi sq) ≫= writes = Some [w] /\
            w_rdma w = mkRdma (u64 (addr rr + off)) (rkey rr) /\ w_imm w = encode_imm delta /\
            gather e' w = Some (read_bytes (send_ring e') (Z.to_nat off) (Z.to_nat delta)) /\
            decode_flow_metadata (send_ring e') (Z.to_nat off) =
              (last_recv_pos e - last_notified_recv_pos e, compute_credit_grant e,
               Z.of_nat (length ms)) /\
            msgs_at (send_ring e') (off + 32) ms /\
            meta_pos e' = send_ring_producer e
        else e' = if needs_doorbell e then doorbelled e else e
    | Err err => sq_refused err e' /\ 0 < batch_message_count e /\ holds_batch C e' ms
    end.
Proof.
  intros off delta Hok Hb Hlt Ha1 Ha2.
  destruct (wp_run _ _ _ _ (wp_flush C e Hok Hlt)) as (e' & r & Hrun & Hr).
  exists e', r. split; [done|]. destruct r as [[]|er].
  - destruct Hr as (H1 & H2 & H3 & _ & H4). split_and!; try done.
    { by apply batch_flushed_flow. }
    unfold batch_flushed in H4. destruct (0 <? batch_message_count e); [|done].
    destruct H4 as ((_ & _ & _ & Hm & _) & (Hpo & Hring & Hst) & Hsh).
    destruct (ok_remote C e Hok) as (rr & Hrr & _).
    pose proof Hpo as (sq & sq' & l & Hq & Hq' & _). destruct Hst as (_ & _ & _ & E4 & E5 & _).
    exists sq, sq', rr, (batch_write C (filled e)). rewrite Hring.
    destruct (filled_holds C e ms Hok Hb) as [Hmeta Hat].
    split_and!; try done; [by eapply posts_requests| |].
    + unfold batch_write. cbn [w_rdma remote_recv_ring filled set_send_ring
        set_resp_reservation set_last_notified_recv_pos]. by rewrite Hrr.
    + rewrite (gather_ext (filled e)) by done. apply (gather_batch C (filled e)); [|done..].
      by apply filled_ok.
  - destruct Hr as (H1 & H2 & ->). split_and!; try done; [by apply filled_ok|].
    by apply filled_holds_batch.
Qed.

(** C2: a batch that is flushed arrives.  Run [flush] on the sender, let its
    device execute the requests shown to it since, that is read them off the
    send queue, gather their bytes and write them to the receive ring they
    address, and let the peer, standing where the batch starts, process the
    completions: it does so without a panic, delivers exactly the messages of
    the batch in order (requests stacked with their allowance, their bytes in
    its ring; responses matched with its pending calls), ends exactly where the
    sender's next batch starts, and learns the sender's acknowledgement and
    credit grant. *)
Theorem batch_delivery C e e' ms sq (st : RecvState (Slab := Slab) (U := U)) self qpn :
  let r := rs_ep st in
  let off := meta_pos e mod C in
  ep_ok C e -> holds_batch C e ms -> ms <> [] -> send_ring_producer e + 32 < 2 ^ 64 ->
  qp e = Some sq -> connected_to C e r -> last_recv_pos r = meta_pos e ->
  flush e = Some (e', Ok tt) ->
  let '(slab', stack', resps') :=
    deliver self qpn (off + 32) ms (pending_calls r) (rs_stack st) (rs_responses st) in
  exists r', transmit e' (pi sq) self qpn st = Some (mkRecvState r' stack' resps') /\
    msgs_at (recv_ring r') (off + 32) ms /\
    last_recv_pos r' = send_ring_producer e /\ last_recv_pos r' = meta_pos e' /\
    pending_calls r' = slab' /\
    remote_consumer_pos r' =
      u64 (remote_consumer_pos r + (last_recv_pos e - last_notified_recv_pos e)) /\
    peer_credit_balance r' = u64 (peer_credit_balance r + compute_credit_grant e).
Proof.
  intros r off Hok Hb Hne Hlt Hq Hcn Hpos Hrun.
  apply (wp_use _ _ _ _ _ _ (wp_flush C e Hok Hlt)) in Hrun as (_ & _ & _ & _ & Hfl).
  assert (0 < batch_message_count e) as Hc.
  { destruct Hb as (_ & -> & _). destruct ms; [done|]. cbn. lia. }
  pose proof (flushed_transmit C e e' ms st self qpn sq Hok Hb Hc Hfl Hq Hcn Hpos) as Ht.
  cbv zeta in Ht. fold r off in Ht. destruct (deliver _ _ _ _ _ _ _) as [[slab' stack'] resps'].
  destruct Ht as (ring' & _ & Hat & Ht). eexists. split; [exact Ht|].
  unfold batch_flushed in Hfl. rewrite (proj2 (Z.ltb_lt _ _)) in Hfl by done.
  destruct Hfl as ((_ & _ & _ & Hm & _) & _). rewrite Hm.
  pose proof (ok_prod C e Hok). pose proof (ok_meta C e Hok). destruct Hb as (Hms & _ & Hprod & _).
  pose proof (msgs_size_nonneg ms Hms).
  assert (u64 (u64 (last_recv_pos r + 32) + msgs_size ms) = send_ring_producer e) as El.
  { rewrite Hpos, (u64_small (meta_pos e + 32)) by lia. rewrite u64_small; lia. }
  by split_and!.
Qed.

(** ** Wrap requests *)

(** Where the receiver goes after a wrap request. *)
Lemma process_cqe_wrap C e (st : RecvState (Slab := Slab) (U := U)) self qpn :
  let r := rs_ep st in
  let off := meta_pos e mod C in
  ep_ok C e -> meta_pos e + 32 + C < 2 ^ 64 -> recv_ring_len r = C ->
  last_recv_pos r = meta_pos e ->
  read_bytes (recv_ring r) (Z.to_nat off) 32 =
    read_bytes (send_ring (wrapped e)) (Z.to_nat off) 32 ->
  exists r', process_cqe self qpn (encode_imm (to_cycle_end C e)) st =
      Some (mkRecvState r' (rs_stack st) (rs_responses st)) /\
    last_recv_pos r' = meta_pos e + 32 + (C - (meta_pos e + 32) mod C) /\
    remote_consumer_pos r' =
      u64 (remote_consumer_pos r + (last_recv_pos e - last_notified_recv_pos e)).
Proof.
  intros r off Hok Hlt Hlen Hpos Hmem.
  pose proof (ring_pos C e Hok) as [Hc _]. pose proof (offset_bounds C e (meta_pos e) Hok) as Ho.
  pose proof (offset_room C e (meta_pos e) Hok (proj2 (ok_meta C e Hok))) as Hroom.
  pose proof (ok_len C e Hok) as Hl. pose proof (ok_meta C e Hok) as [Hm1 Hm2].
  pose proof (ok_recv C e Hok) as Hrc. fold off in Ho, Hroom.
  pose proof (Z.mod_pos_bound (meta_pos e + 32) C ltac:(lia)) as Hb.
  unfold wrapped in Hmem. cbn [send_ring set_send_ring_producer set_send_ring] in Hmem.
  rewrite Hl in Hmem. fold off in Hmem. unfold send_ring_len in Hl.
  rewrite encode_flow_metadata_bytes in Hmem by lia.
  set (md := metadata_bytes _ _ _) in Hmem.
  assert (length md = 32%nat) as Hmd by apply length_metadata_bytes.
  unfold process_cqe, recv_ring_len in *. fold r.
  cbn [recv_ring last_recv_pos set_recv_ring_producer]. rewrite Hlen, Hpos, (ring_land C e) by done.
  fold off. unfold FLOW_METADATA_SIZE. rewrite (proj2 (Z.ltb_ge _ _)) by lia.
  rewrite (decode_metadata_ext _ _ md 0).
  2:{ rewrite Hmem, <-Hmd, read_write_same by lia. by rewrite read_bytes_all. }
  subst md. rewrite <-(app_nil_r (metadata_bytes _ _ _)), decode_metadata_bytes.
  rewrite (u32_small WRAP_MESSAGE_COUNT), Z.eqb_refl by (unfold WRAP_MESSAGE_COUNT, U32_MAX; lia).
  cbn [recv_ring last_recv_pos set_last_recv_pos set_peer_credit_balance
    set_remote_consumer_pos set_recv_ring_producer].
  eexists. split; [reflexivity|]. cbn. rewrite Hlen.
  rewrite (u64_small (meta_pos e + 32)), (ring_land C e) by (done || lia).
  rewrite !(u64_small (last_recv_pos e - _)) by lia. rewrite u64_small by lia. done.
Qed.

(** A wrap request whose metadata does not sit in the last 32 bytes of the
    ring brings the receiver to the start of the next cycle, where the sender's
    next batch starts. *)
Theorem wrap_delivery C e (st : RecvState (Slab := Slab) (U := U)) self qpn :
  let r := rs_ep st in
  let off := meta_pos e mod C in
  ep_ok C e -> meta_pos e + 32 + C < 2 ^ 64 -> recv_ring_len r = C ->
  last_recv_pos r = meta_pos e ->
  read_bytes (recv_ring r) (Z.to_nat off) 32 =
    read_bytes (send_ring (wrapped e)) (Z.to_nat off) 32 ->
  off + 32 < C ->
  exists r', process_cqe self qpn (encode_imm (to_cycle_end C e)) st =
      Some (mkRecvState r' (rs_stack st) (rs_responses st)) /\
    last_recv_pos r' = meta_pos e + to_cycle_end C e /\ last_recv_pos r' mod C = 0.
Proof.
  intros r off Hok Hlt Hlen Hpos Hmem Hoff. pose proof (ring_pos C e Hok) as [Hc _].
  destruct (process_cqe_wrap C e st self qpn Hok Hlt Hlen Hpos Hmem) as (r' & Hp & Hl & _).
  exists r'. split; [done|].
  assert (last_recv_pos r' = meta_pos e + to_cycle_end C e) as E.
  { rewrite Hl, (mod_advance C (meta_pos e)) by (fold off; lia). unfold to_cycle_end. lia. }
  split; [done|]. rewrite E. by apply (to_cycle_end_spec C e).
Qed.

(** The case [wrap_delivery] excludes: metadata in the last 32 bytes of the
    ring makes the receiver skip one whole cycle more than the sender. *)
Theorem wrap_in_last_block_overshoots C e (st : RecvState (Slab := Slab) (U := U)) self qpn :
  let r := rs_ep st in
  let off := meta_pos e mod C in
  ep_ok C e -> meta_pos e + 32 + C < 2 ^ 64 -> recv_ring_len r = C ->
  last_recv_pos r = meta_pos e ->
  read_bytes (recv_ring r) (Z.to_nat off) 32 =
    read_bytes (send_ring (wrapped e)) (Z.to_nat off) 32 ->
  off + 32 = C ->
  exists r', process_cqe self qpn (encode_imm (to_cycle_end C e)) st =
      Some (mkRecvState r' (rs_stack st) (rs_responses st)) /\
    last_recv_pos r' = meta_pos e + to_cycle_end C e + C.
Proof.
  intros r off Hok Hlt Hlen Hpos Hmem Hoff. pose proof (ring_pos C e Hok) as [Hc _].
  destruct (process_cqe_wrap C e st self qpn Hok Hlt Hlen Hpos Hmem) as (r' & Hp & Hl & _).
  exists r'. split; [done|]. rewrite Hl. unfold to_cycle_end. fold off.
  assert ((meta_pos e + 32) mod C = 0) as ->; [|lia].
  rewrite <-Z.add_mod_idemp_l by lia. fold off. rewrite Hoff. apply Z.mod_same. lia.
Qed.

(** ** Flow control over every sequence of operations *)

(** The receive path leaves the send side alone. *)
Definition same_send e e' : Prop :=
  qp e' = qp e /\ send_ring e' = send_ring e /\ remote_recv_ring e' = remote_recv_ring e /\
  send_ring_producer e' = send_ring_producer e /\ meta_pos e' = meta_pos e /\
  flush_start_pos e' = flush_start_pos e /\ batch_message_count e' = batch_message_count e /\
  resp_reservation e' = resp_reservation e /\ max_resp_reservation e' = max_resp_reservation e /\
  last_notified_recv_pos e' = last_notified_recv_pos e.

Lemma same_send_trans e1 e2 e3 : same_send e1 e2 -> same_send e2 e3 -> same_send e1 e3.
Proof. unfold same_send. intros. destruct_and!. split_and!; congruence. Qed.

Definition recv_frame (st st' : RecvState (Slab := Slab) (U := U)) : Prop :=
  same_send (rs_ep st) (rs_ep st') /\
  remote_consumer_pos (rs_ep st') = remote_consumer_pos (rs_ep st) /\
  peer_credit_balance (rs_ep st') = peer_credit_balance (rs_ep st).

Lemma process_message_frame self qpn (st st' : RecvState (Slab := Slab) (U := U)) :
  process_message self qpn st = Some st' -> recv_frame st st'.
Proof.
  unfold process_message. destruct (_ <? _); [done|].
  destruct (decode_header _ _) as [[cid pig] len]. destruct (is_response cid).
  - destruct (slab_try_remove _ _) as [[u|] s']; [destruct (slice _ _ _)|]; intros; by simplify_eq.
  - intros. by simplify_eq.
Qed.

Lemma process_messages_frame self qpn n (st st' : RecvState (Slab := Slab) (U := U)) :
  process_messages self qpn n st = Some st' -> recv_frame st st'.
Proof.
  revert st. induction n as [|n IH]; intros st; cbn [process_messages]; [by intros [= ->]|].
  destruct (process_message self qpn st) as [st1|] eqn:E; [|done]. intros H.
  apply process_message_frame in E as (A1 & A2 & A3). apply IH in H as (B1 & B2 & B3).
  split_and!; [by eapply same_send_trans|congruence..].
Qed.

Lemma process_cqe_frame self qpn imm (st st' : RecvState (Slab := Slab) (U := U)) :
  process_cqe self qpn imm st = Some st' ->
  same_send (rs_ep st) (rs_ep st') /\ is_uint 64 (peer_credit_balance (rs_ep st')).
Proof.
  unfold process_cqe. destruct (_ <? _); [done|].
  destruct (decode_flow_metadata _ _) as [[rcr g] n]. destruct (n =? _).
  - intros [= <-]. split; [done|]. cbn. apply u64_range.
  - intros (A1 & _ & A3)%process_messages_frame. split; [exact A1|]. rewrite A3. cbn.
    apply u64_range.
Qed.

Lemma ep_ok_same_send C e e' :
  ep_ok C e -> same_send e e' -> remote_consumer_pos e <= remote_consumer_pos e' <= meta_pos e ->
  last_recv_pos e <= last_recv_pos e' < 2 ^ 64 -> ep_ok C e'.
Proof.
  intros [Hl Hp Hr Hs Hf Hmt Hpr Hsp Hrc Hrs Hcs Hct] (E1 & E2 & E3 & E4 & E5 & E6 & E7 & E8 & E9 & E10)
    Hc Hv.
  constructor; unfold send_ring_len in *; rewrite ?E1, ?E2, ?E3, ?E4, ?E5, ?E6, ?E7, ?E8, ?E9, ?E10;
    (done || lia).
Qed.

Lemma flow_ok_same_send C e e' :
  flow_ok C e -> same_send e e' -> remote_consumer_pos e <= remote_consumer_pos e' -> flow_ok C e'.
Proof.
  intros (H1 & H2 & H3) (_ & _ & _ & E4 & E5 & _ & E7 & E8 & _) Hc.
  unfold flow_ok, load, batch_end in *. rewrite E4, E5, E7, E8. split_and!; [lia|done..].
Qed.

Lemma holds_batch_same_send C e e' ms :
  holds_batch C e ms -> same_send e e' -> holds_batch C e' ms.
Proof.
  intros (B1 & B2 & B3 & B4) (_ & E2 & _ & E4 & E5 & _ & E7 & _).
  unfold holds_batch. by rewrite E2, E4, E5, E7.
Qed.

(** A call with enough credit whose message does not fit the ring cycle has to
    wrap before it knows whether the message fits the peer's ring. *)
Definition wraps (C : Z) e (ra : Z) (data : list Z) : bool :=
  (internal_allowance ra <=? peer_credit_balance e) &&
  negb (fits_cycle C e (padded_message_size (Z.of_nat (length data)))).

(** One operation on a connected endpoint and its dirty queue, whatever it
    returns; but a call or a reply that has to wrap is one that is accepted, and
    such a call carries less than the ring.  A reply that need not wrap always
    is.  Positions do not run over 2^64; in [step_recv] the peer acknowledges
    only what was sent. *)
Inductive rc_step (C self : Z)
    : EndpointInner Slab U * list Z -> EndpointInner Slab U * list Z -> Prop :=
| step_call e dq data u ra s' r :
    Z.of_nat (length data) < 2 ^ 32 -> is_uint 32 ra -> send_ring_producer e + 2 ^ 35 < 2 ^ 64 ->
    call self data u ra (e, dq) = Some (s', r) ->
    (wraps C e ra data = true ->
       (exists cid, r = Ok cid) /\ 32 + padded_message_size (Z.of_nat (length data)) < C) ->
    rc_step C self (e, dq) s'
| step_reply e dq cid ra data s' :
    0 <= cid < 2 ^ 31 -> Z.of_nat (length data) < 2 ^ 32 ->
    padded_message_size (Z.of_nat (length data)) + 32 <= ra <= resp_reservation e ->
    send_ring_producer e + 2 ^ 35 < 2 ^ 64 ->
    reply self cid ra data (e, dq) = Some (s', Ok tt) -> rc_step C self (e, dq) s'
| step_flush e dq e' r :
    send_ring_producer e + 2 ^ 35 < 2 ^ 64 ->
    flush e = Some (e', r) -> rc_step C self (e, dq) (e', dq)
| step_recv e dq qpn imm stack resps st' :
    process_cqe self qpn imm (mkRecvState e stack resps) = Some st' ->
    remote_consumer_pos e <= remote_consumer_pos (rs_ep st') <= meta_pos e ->
    last_recv_pos e <= last_recv_pos (rs_ep st') < 2 ^ 64 ->
    rc_step C self (e, dq) (rs_ep st', dq).

Definition rc_inv C (s : EndpointInner Slab U * list Z) : Prop :=
  ep_ok C s.1 /\ flow_ok C s.1 /\ (exists ms, holds_batch C s.1 ms) /\
  is_uint 64 (peer_credit_balance s.1).

(** Nothing pending: the open batch is empty. *)
Lemma flushed_holds C e :
  ep_ok C e -> flow_ok C e -> has_pending_send e = false -> holds_batch C e [].
Proof.
  intros Hok (_ & H0 & _) Hp. pose proof (ok_count C e Hok).
  apply orb_false_iff in Hp as [Hp _]. guards. apply holds_batch_nil; [lia|apply H0; lia].
Qed.

Lemma batch_flushed_inv C e e' dq :
  ep_ok C e -> flow_ok C e -> is_uint 64 (peer_credit_balance e) -> ep_ok C e' -> same_peer e e' ->
  has_pending_send e' = false -> batch_flushed C e e' -> rc_inv C (e', dq).
Proof.
  intros Hok Hfl Hc Hok' (_ & _ & _ & Hpc & _) Hp Hf.
  pose proof (batch_flushed_flow C e e' Hok Hf Hfl) as Hfl'.
  split_and!; cbn; [done..|exists []; by apply flushed_holds|by rewrite Hpc].
Qed.

Lemma filled_inv C e dq : rc_inv C (e, dq) -> 0 < batch_message_count e -> rc_inv C (filled e, dq).
Proof.
  intros (Hok & Hfl & (ms & Hb) & Hc) Hpos. split_and!; cbn [fst]; [by apply filled_ok| | |done].
  - by apply filled_flow.
  - exists ms. by apply filled_holds_batch.
Qed.

Lemma rc_step_inv C self s s' : rc_inv C s -> rc_step C self s s' -> rc_inv C s'.
Proof.
  intros Hi Hstep. pose proof Hi as (Hok & Hfl & (ms & Hb) & Hc).
  destruct Hstep as [e dq data u ra [e' dq'] r Hd Hra Hlt Hrun Hw
    |e dq cid ra data [e' dq'] Hcid Hd Hra Hlt Hrun
    |e dq e' r Hlt Hrun|e dq qpn imm stack resps st' Hrun Hack Hrecv]; cbn [fst] in *.
  - unfold wraps in Hw. set (sz := padded_message_size _) in *.
    pose proof (ok_prod C e Hok) as Hp. pose proof (offset_bounds C e (meta_pos e) Hok) as Ho.
    apply (wp_use _ _ _ _ _ _ (wp_call C self data u ra e dq ms Hok Hb Hra Hd Hc Hlt)) in Hrun.
    destruct r as [cid|[u'|u'|er]]; unfold is_uint in Hc; fold sz in Hrun.
    + destruct Hrun as (H1 & _ & _ & H4 & H5 & H6 & _ & _ & H9 & _).
      destruct (internal_allowance_spec ra Hra) as (Hal & _).
      assert (32 + sz < C) as Hsz.
      { destruct (fits_cycle C e sz) eqn:Hf; [unfold fits_cycle in Hf; guards; lia|].
        rewrite (proj2 (Z.leb_le _ _)) in Hw by lia. by apply Hw. }
      unfold rc_inv; split_and!; cbn; [done|auto|by eexists|unfold is_uint; lia].
    + destruct Hrun as (H1 & _ & H3 & _ & H5 & H6 & H7).
      rewrite (proj2 (Z.leb_le _ _)) in Hw by lia. destruct (fits_cycle C e sz).
      * destruct H7 as [H7 _]. by apply (batch_flushed_inv C e).
      * by destruct (Hw eq_refl) as [[cid [=]] _].
    + destruct Hrun as (H1 & _ & H3 & _ & _ & H6 & H7). by apply (batch_flushed_inv C e).
    + destruct Hrun as (H1 & -> & _ & _ & [[H5 ->]|(H5 & H6 & _)]); [by apply filled_inv|].
      rewrite (proj2 (Z.leb_le _ _)), H6 in Hw by lia. by destruct (Hw eq_refl) as [[cid [=]] _].
  - pose proof (ok_res C e Hok) as G1. pose proof (ring_pos C e Hok) as G2.
    pose proof (padded_size_bounds (Z.of_nat (length data)) ltac:(unfold is_uint; lia)) as G3.
    apply (wp_use _ _ _ _ _ _ (wp_reply C self cid ra data e dq ms Hok Hb Hcid Hd
      ltac:(lia) ltac:(lia) Hlt)) in Hrun as (H1 & _ & _ & H4 & _ & H6 & H7 & _).
    unfold rc_inv; split_and!; cbn; [done|auto|by eexists|by rewrite H6].
  - apply (wp_use _ _ _ _ _ _ (wp_flush C e Hok ltac:(lia))) in Hrun. destruct r as [[]|er].
    + destruct Hrun as (H1 & H2 & H3 & _ & H5). by apply (batch_flushed_inv C e).
    + destruct Hrun as (_ & H2 & ->). by apply filled_inv.
  - apply process_cqe_frame in Hrun as [Hs Hu]. cbn [rs_ep] in Hs.
    unfold rc_inv; split_and!; cbn; [by eapply ep_ok_same_send| | |done].
    + eapply flow_ok_same_send; [done..|lia].
    + exists ms. by apply (holds_batch_same_send C e).
Qed.

(** C1: from a connected endpoint, however calls, replies within their
    allowance, flushes and received batches are interleaved and whatever they
    return, the bytes sent and not yet acknowledged plus twice the response
    reservation never exceed the peer's ring, so no unread byte of the peer is
    overwritten and every granted response still has room; provided that the
    peer acknowledges only what was sent, that a message for which a call wraps is
    smaller than the ring, that 64-bit positions do not overflow, and that no call
    or reply is refused after it had to wrap ([ring_full_call_overruns] and
    [refused_wrap_overruns]: the inequality can be lost after one that is). *)
Theorem flow_control_invariant C self s s' :
  rc_inv C s -> rtc (rc_step C self) s s' ->
  rc_inv C s' /\
  batch_end s'.1 - remote_consumer_pos s'.1 + 2 * resp_reservation s'.1 <= C /\
  0 <= resp_reservation s'.1 <= max_resp_reservation s'.1.
Proof.
  intros Hi Hr. induction Hr as [s|s1 s2 s3 Hs _ IH].
  - split; [done|]. destruct Hi as (Hok & (Hl & _) & _). pose proof (ok_res C _ Hok).
    unfold load in Hl. lia.
  - apply IH. by eapply rc_step_inv.
Qed.

(** ** Responses *)







End Props.

(** ** Concrete runs *)

(** The endpoint a run ends with. *)
Definition after {E A} (m : M (EndpointInner ListSlab Z * list Z) E A)
    (e : EndpointInner ListSlab Z) : EndpointInner ListSlab Z :=
  match m (e, []) with Some ((e', _), _) => e' | None => e end.

Definition demo_called : EndpointInner ListSlab Z :=
  after (call 1 [10; 20; 30] 99 8) (demo 256 16).

Lemma demo_called_ok :
  ep_ok 256 demo_called /\ flow_ok 256 demo_called /\
  holds_batch 256 demo_called [request 0 8 [10; 20; 30]].
Proof.
  destruct demo_ok as (H1 & H2 & H3).
  assert (call 1 [10; 20; 30] 99 8 (demo 256 16, []) = Some ((demo_called, [1]), Ok 0)) as Hrun
    by (vm_compute; reflexivity).
  eapply wp_use in Hrun; [|apply (wp_call 256 1 [10; 20; 30] 99 8 _ [] [] H1 H3)].
  - destruct Hrun as (R1 & _ & _ & R4 & _ & _ & _ & _ & R9).
    split_and!; [done|by apply R9|done].
  - vm_compute. split; congruence.
  - vm_compute. congruence.
  - vm_compute. split; congruence.
  - vm_compute. congruence.
Qed.

Lemma call_correct_witness :
  exists e' dq' r, call 1 [10; 20; 30] 99 8 (demo 256 16, []) = Some ((e', dq'), r) /\
    ep_ok 256 e'.
Proof.
  destruct (call_correct 256 1 [10; 20; 30] 99 8 (demo 256 16) [] [])
    as (e' & dq' & r & H & Hok & _);
    [apply demo_ok|apply demo_ok|by vm_compute..|by eauto].
Defined.

Lemma reply_correct_witness :
  exists e' dq' r, reply 1 3 64 [7; 8] (demo 256 16, []) = Some ((e', dq'), r) /\ ep_ok 256 e'.
Proof.
  destruct (reply_correct 256 1 3 64 [7; 8] (demo 256 16) [] [])
    as (e' & dq' & r & H & Hok & _);
    [apply demo_ok|apply demo_ok|by vm_compute..|by eauto].
Defined.

Lemma flush_correct_witness :
  exists e' r, flush demo_called = Some (e', r) /\ ep_ok 256 e'.
Proof.
  destruct (flush_correct 256 demo_called [request 0 8 [10; 20; 30]]) as (e' & r & H & Hok & _);
    [apply demo_called_ok|apply demo_called_ok|by vm_compute..|by eauto].
Defined.

Definition run_flush (e : EndpointInner ListSlab Z) : EndpointInner ListSlab Z :=
  match flush e with Some (e', _) => e' | None => e end.


Lemma batch_delivery_witness :
  exists r', transmit (run_flush demo_called) 0 2 5 (mkRecvState (demo 256 16) [] []) =
      Some (mkRecvState r' [mkRecv 2 5 0 44 3 64] []) /\ last_recv_pos r' = 64.
Proof.
  destruct demo_called_ok as (H1 & _ & H3).
  pose proof (batch_delivery 256 demo_called (run_flush demo_called) _ (sq_new 16)
    (mkRecvState (demo 256 16) [] []) 2 5 H1 H3) as H.
  destruct H as (r' & Hr & _ & Hl & _); [done|by vm_compute|reflexivity|split_and!; (reflexivity || by vm_compute)
    |reflexivity|vm_compute; reflexivity|].
  exists r'. split; [exact Hr|]. by rewrite Hl.
Defined.

(** The receiver after the device has written the batch of [e] into its ring. *)
Definition demo_receiver (e : EndpointInner ListSlab Z) (len : Z) : RecvState :=
  let off := meta_pos e mod 256 in
  mkRecvState (rdma_write off (read_bytes (send_ring e) (Z.to_nat off) (Z.to_nat len))
    (set_last_recv_pos (meta_pos e) (demo 256 16))) [] [].

Lemma wrap_delivery_witness :
  exists r', process_cqe 2 5 (encode_imm (to_cycle_end 256 (demo 256 16)))
      (demo_receiver (wrapped (demo 256 16)) 32) = Some (mkRecvState r' [] []) /\
    last_recv_pos r' = 256.
Proof.
  destruct (wrap_delivery 256 (demo 256 16) (demo_receiver (wrapped (demo 256 16)) 32) 2 5)
    as (r' & Hr & Hl & _); [apply demo_ok|by vm_compute..|].
  exists r'. split; [exact Hr|]. by rewrite Hl.
Defined.

Lemma flow_control_invariant_witness :
  let s := (demo_called, [1]) in
  rc_inv 256 s /\
  batch_end s.1 - remote_consumer_pos s.1 + 2 * resp_reservation s.1 <= 256.
Proof.
  intros s.
  destruct demo_ok as (H1 & H2 & H3).
  destruct (flow_control_invariant 256 1 (demo 256 16, []) s) as (A & B & _).
  - split; [exact H1|]. split; [exact H2|]. split; [exists []; exact H3|]. vm_compute. split; congruence.
  - apply rtc_once. eapply (step_call 256 1 (demo 256 16) [] [10; 20; 30] 99 8 _ (Ok 0));
      by vm_compute.
  - exact (conj A B).
Defined.





(** ** Runs that break the flow control

    [rich] has ample credit from its peer; [ack] is the peer acknowledging
    everything sent so far. *)

Definition rich : EndpointInner ListSlab Z := set_peer_credit_balance 100000 (demo 256 64).

Definition ack (e : EndpointInner ListSlab Z) : EndpointInner ListSlab Z :=
  set_remote_consumer_pos (meta_pos e) e.

Definition small_call : M (EndpointInner ListSlab Z * list Z) (CallError Z) Z := call 1 [1] 99 0.

(** Three batches bring the metadata of the fourth to the last 32 bytes of the
    ring. *)
Definition at_last_block : EndpointInner ListSlab Z :=
  let e1 := ack (run_flush (after small_call (after small_call rich))) in
  let e2 := ack (run_flush (after small_call e1)) in
  ack (run_flush (after small_call e2)).

(** Ordinary calls and flushes reach the case [wrap_delivery] excludes: the
    next call wraps the ring with its metadata in the last 32 bytes, the sender
    goes on at 256, the receiver of the wrap request at 512. *)
Lemma wrap_in_last_block_reachable :
  meta_pos at_last_block = 224 /\
  meta_pos (after small_call at_last_block) = 256 /\
  option_map (fun st => last_recv_pos (rs_ep st))
    (process_cqe 2 5 (encode_imm 32) (demo_receiver (wrapped at_last_block) 32)) = Some 512.
Proof. vm_compute. done. Qed.

(** A call that ends in [RingFull] has already skipped to the next cycle; a
    reply within its allowance then makes the bytes in flight exceed the
    peer's ring. *)
Lemma ring_full_call_overruns :
  match call 1 (replicate 100 7) 99 0
          (after small_call (after small_call (after small_call rich)), []) with
  | Some ((e1, _), Err (CallRingFull _)) =>
      match reply 1 0 64 [1] (e1, []) with
      | Some ((e2, _), Ok _) =>
          Some (resp_reservation e1, batch_end e2 - remote_consumer_pos e2)
      | _ => None
      end
  | _ => None
  end = Some (64, 320).
Proof. vm_compute. done. Qed.

(** A wrap request that a full send queue refuses leaves the endpoint at the end
    of the cycle; a reply within its allowance that would have fitted the cycle
    then wraps after all, and the bytes in flight exceed the peer's ring. *)
Definition full_queue : Sq Z :=
  mkSq (replicate 64 None) 64 64 0 None 64 (replicate 64 None).

Lemma refused_wrap_overruns :
  let e := run_flush (after small_call rich) in
  match call 1 (replicate 150 7) 99 0 (set_qp (Some full_queue) e, []) with
  | Some ((e1, _), Err (CallOther (Io (Submission SqFull)))) =>
      match reply 1 0 64 [1] (set_qp (Some (sq_new 64)) e1, []) with
      | Some ((e2, _), Ok _) =>
          Some (load e, resp_reservation e1, batch_end e2 - remote_consumer_pos e2)
      | _ => None
      end
  | _ => None
  end = Some (192, 64, 320).
Proof. vm_compute. done. Qed.

(** A response larger than the ring is copied past its end. *)
Lemma oversized_reply_out_of_bounds :
  reply 1 0 64 (replicate 300 7) (rich, []) = None.
Proof. vm_compute. done. Qed.

(** A flush refused by a full send queue has already consumed the pending
    acknowledgement: the batch that is finally sent returns no ring credit. *)
Definition unacked : EndpointInner ListSlab Z :=
  set_last_recv_pos 96 (after small_call rich).

Lemma refused_flush_loses_acknowledgement :
  (decode_flow_metadata (send_ring (run_flush unacked)) 0).1.1 = 96 /\
  match flush (set_qp (Some full_queue) unacked) with
  | Some (e1, Err (Io (Submission SqFull))) =>
      match flush (set_qp (Some (sq_new 64)) e1) with
      | Some (e2, Ok _) => Some (decode_flow_metadata (send_ring e2) 0).1.1
      | _ => None
      end
  | _ => None
  end = Some 0.
Proof. vm_compute. done. Qed.

End RcProps.
