(* ===== verification/RcContext.v ===== *)
(** * RcContext: the RC context of [copyrpc/src/rc.rs]

    Endpoints shared by reference between the context's table, its queue of
    dirty endpoints and the received requests: the [Rc<UnsafeCell<_>>] cells are
    a heap of endpoints, a reference is an index into it.  Polling, flushing,
    receive-buffer accounting and the request stack. *)

From S2P Require Import Prelude FastMap Encoding Ring SendQueue Rc RcBatch RcMessages RcProps.
Import Encoding SendQueue Rc RcBatch RcMessages RcProps.

Module RcContext.

(** A completion as the device reports it. *)
Inductive CqeOpcode : Type := Completed | ReqErr | RespErr.

Record Cqe : Type := mkCqe { opcode : CqeOpcode; qp_num : Z; imm : Z; wqe_counter : Z }.

Definition is_error (c : Cqe) : bool :=
  match opcode c with Completed => false | _ => true end.

Definition RAW_RDMA_SENTINEL_QPN : Z := U32_MAX.

Section Context.
Context {Slab : Type -> Type} `{!SlabOps Slab} {U : Type}.

(** [struct Context<U>]; [responses] records the calls of [on_response]. *)
Record Context : Type := mkCtx {
  heap : list (EndpointInner Slab U);
  endpoints : FastMap.FastMap Z;
  dirty_endpoints : list Z;
  recv_stack : list RecvMessage;
  srq_posted : Z;
  srq_max_wr : Z;
  responses : list (U * list Z);
}.

Definition set_heap (v : list (EndpointInner Slab U)) (c : Context) : Context :=
  mkCtx v (endpoints c) (dirty_endpoints c) (recv_stack c) (srq_posted c) (srq_max_wr c)
    (responses c).
Definition set_dirty (v : list Z) (c : Context) : Context :=
  mkCtx (heap c) (endpoints c) v (recv_stack c) (srq_posted c) (srq_max_wr c) (responses c).
Definition set_srq_posted (v : Z) (c : Context) : Context :=
  mkCtx (heap c) (endpoints c) (dirty_endpoints c) (recv_stack c) v (srq_max_wr c) (responses c).

(** [ContextBuilder::build] once the device objects exist: the shared receive
    queue starts full. *)
Definition build (max_wr : Z) : Context := mkCtx [] FastMap.new [] [] max_wr max_wr [].

Definition deref (c : Context) (ref : Z) : option (EndpointInner Slab U) := heap c !! Z.to_nat ref.

Definition store (c : Context) (ref : Z) (e : EndpointInner Slab U) : Context :=
  set_heap (<[Z.to_nat ref := e]> (heap c)) c.

(** [create_endpoint] once the device objects exist; returns the reference of
    the new endpoint. *)
Definition create_endpoint (e : EndpointInner Slab U) (c : Context) : Z * Context :=
  let ref := Z.of_nat (length (heap c)) in
  (ref, mkCtx (heap c ++ [e]) (FastMap.insert (endpoints c) (qpn e) ref).2 (dirty_endpoints c)
          (recv_stack c) (srq_posted c) (srq_max_wr c) (responses c)).

(** [Endpoint::call] and [RecvHandle::reply] through a reference. *)
Definition ctx_call (ref : Z) (data : list Z) (user_data : U) (allowance : Z) (c : Context)
    : option (Context * result Z (CallError U)) :=
  match deref c ref with
  | None => None
  | Some e =>
      match call ref data user_data allowance (e, dirty_endpoints c) with
      | None => None
      | Some ((e', dq), r) => Some (set_dirty dq (store c ref e'), r)
      end
  end.

Definition ctx_reply (m : RecvMessage) (data : list Z) (c : Context)
    : option (Context * result unit Error) :=
  match deref c (endpoint m) with
  | None => None
  | Some e =>
      match reply (endpoint m) (call_id m) (response_allowance m) data (e, dirty_endpoints c) with
      | None => None
      | Some ((e', dq), r) => Some (set_dirty dq (store c (endpoint m) e'), r)
      end
  end.

(** [recv]: the request pushed last, with its payload. *)
Definition recv (c : Context) : option (RecvMessage * list Z) * Context :=
  match recv_stack c with
  | [] => (None, c)
  | m :: ms =>
      (match deref c (endpoint m) with
       | Some e => Some (m, read_bytes (recv_ring e) (Z.to_nat (data_offset m))
                              (Z.to_nat (data_len m)))
       | None => None
       end,
       mkCtx (heap c) (endpoints c) (dirty_endpoints c) ms (srq_posted c) (srq_max_wr c)
         (responses c))
  end.

(** The callback of [recv_cq.poll]: error completions are skipped, a completion
    for an unknown queue pair is dropped. *)
Definition on_recv_cqe (c : Context) (cqe : Cqe) : option Context :=
  if is_error cqe then Some c
  else
    match FastMap.get (endpoints c) (qp_num cqe) with
    | None => Some c
    | Some ref =>
        match deref c ref with
        | None => None
        | Some e =>
            match process_cqe ref (qp_num cqe) (imm cqe)
                    (mkRecvState e (recv_stack c) (responses c)) with
            | None => None
            | Some st =>
                let c := store c ref (rs_ep st) in
                Some (mkCtx (heap c) (endpoints c) (dirty_endpoints c) (rs_stack st)
                        (srq_posted c) (srq_max_wr c) (rs_responses st))
            end
        end
    end.

Fixpoint drain_recv (c : Context) (cqes : list Cqe) : option Context :=
  match cqes with
  | [] => Some c
  | cqe :: cqes => match on_recv_cqe c cqe with
                   | Some c => drain_recv c cqes
                   | None => None
                   end
  end.

(** Repost receive buffers when fewer than two thirds are left. *)
Definition repost (recv_count : Z) (c : Context) : Context :=
  if 0 <? recv_count then
    let posted := saturating_sub (srq_posted c) recv_count in
    let threshold := srq_max_wr c * 2 / 3 in
    if posted <? threshold then set_srq_posted (srq_max_wr c) c
    else set_srq_posted posted c
  else c.

(** [poll_recv_only]: [cqes] are the completions the receive queue holds, read
    until it is empty. *)
Definition poll_recv_only (cqes : list Cqe) (c : Context) : option (Context * Z) :=
  let recv_count := Z.of_nat (length cqes) in
  match drain_recv c cqes with
  | None => None
  | Some c => Some (repost recv_count c, recv_count)
  end.

(** A send completion: the queue pair frees its work requests, raw RDMA
    completions are counted; what the callback buffers is cleared again. *)
Definition on_send_cqe (c : Context) (cqe : Cqe) : option Context :=
  match FastMap.get (endpoints c) (qp_num cqe) with
  | None => Some c
  | Some ref =>
      match deref c ref with
      | None => None
      | Some e =>
          match qp e with
          | None => Some c
          | Some sq =>
              let '(entry, sq') := process_completion sq (wqe_counter cqe) in
              let e := set_qp (Some sq') e in
              let e := match entry with
                       | Some n => if negb (is_error cqe) && (n =? RAW_RDMA_SENTINEL_QPN)
                                   then set_raw_rdma_done (u32 (raw_rdma_done e + 1)) e else e
                       | None => e
                       end in
              Some (store c ref e)
          end
      end
  end.

Fixpoint drain_send (c : Context) (cqes : list Cqe) : option Context :=
  match cqes with
  | [] => Some c
  | cqe :: cqes => match on_send_cqe c cqe with
                   | Some c => drain_send c cqes
                   | None => None
                   end
  end.

(** The loop over the dirty queue; [None] also when [fuel] runs out. *)
Fixpoint flush_loop (fuel : nat) (c : Context) : option Context :=
  match fuel with
  | O => None
  | S fuel =>
      match dirty_endpoints c with
      | [] => Some c
      | ref :: rest =>
          let c := set_dirty rest c in
          match deref c ref with
          | None => None
          | Some e =>
              match flush e with
              | None => None
              | Some (e', Err _) => flush_loop fuel (store c ref (set_is_dirty false e'))
              | Some (e', Ok _) =>
                  if has_pending_send e'
                  then flush_loop fuel (set_dirty (rest ++ [ref]) (store c ref e'))
                  else flush_loop fuel (store c ref (set_is_dirty false e'))
              end
          end
      end
  end.

Definition flush_endpoints (fuel : nat) (send_cqes : list Cqe) (c : Context) : option Context :=
  match drain_send c send_cqes with
  | None => None
  | Some c => flush_loop fuel c
  end.

Definition poll (fuel : nat) (recv_cqes send_cqes : list Cqe) (c : Context) : option Context :=
  match poll_recv_only recv_cqes c with
  | None => None
  | Some (c, _) => flush_endpoints fuel send_cqes c
  end.

(** [poll_timed]: the same steps between readings of the clock, in nanoseconds. *)
Definition poll_timed (t0 t1 t2 t3 : Z) (fuel : nat) (recv_cqes send_cqes : list Cqe) (c : Context)
    : option (Context * (Z * Z * Z * Z * Z)) :=
  let recv_count := u32 (Z.of_nat (length recv_cqes)) in
  match drain_recv c recv_cqes with
  | None => None
  | Some c =>
      match flush_endpoints fuel send_cqes (repost recv_count c) with
      | None => None
      | Some c => Some (c, (u32 (t1 - t0), u32 (t2 - t1), u32 (t3 - t2), 0, recv_count))
      end
  end.

(** ** The dirty queue *)

Implicit Types (c : Context) (e : EndpointInner Slab U).

(** An endpoint is in the queue at most once, and exactly when it is marked. *)
Definition dirty_ok c : Prop :=
  NoDup (dirty_endpoints c) /\
  forall ref, ref ∈ dirty_endpoints c <->
    0 <= ref /\ exists e, deref c ref = Some e /\ is_dirty e = true.

(** The send path leaves the mark alone. *)
Definition same_dirty e e' : Prop := is_dirty e' = is_dirty e.

#[local] Instance same_dirty_preorder : PreOrder same_dirty.
Proof. split; [by intros ?|]. unfold same_dirty. intros ? ? ? H1 H2. by rewrite H2. Qed.

Lemma emit_raw_same_dirty : respects same_dirty emit_raw.
Proof. unfold emit_raw. repeat (respects_step || done). Qed.

#[local] Hint Resolve emit_raw_same_dirty : frame.

Lemma flush_same_dirty : respects same_dirty flush.
Proof.
  unfold flush, emit_wqe, fill_metadata, prepare_next_batch, raw_write.
  repeat (respects_step || done).
Qed.

Lemma handle_wrap_same_dirty n : respects same_dirty (handle_wrap_if_needed n).
Proof.
  unfold handle_wrap_if_needed, emit_wrap, fill_metadata, prepare_next_batch, raw_write.
  repeat (respects_step || done).
Qed.

(** What [mark_dirty] does to an endpoint and the queue, or nothing. *)
Definition marked (self : Z) (s s' : EndpointInner Slab U * list Z) : Prop :=
  (is_dirty s'.1 = is_dirty s.1 /\ s'.2 = s.2) \/
  (is_dirty s.1 = false /\ is_dirty s'.1 = true /\ s'.2 = s.2 ++ [self]).

#[local] Instance marked_preorder self : PreOrder (marked self).
Proof.
  split; [by left|]. unfold marked. intros s1 s2 s3.
  intros [[A1 A2]|(A1 & A2 & A3)] [[B1 B2]|(B1 & B2 & B3)]; try congruence;
    [left|right|right]; split_and?; congruence.
Qed.

Lemma on_inner_marked {E A} self (m : M (EndpointInner Slab U) E A) :
  respects same_dirty m -> respects (marked self) (on_inner m).
Proof.
  intros Hm [e dq] [e' dq'] r. unfold on_inner. destruct (m e) as [[e1 r1]|] eqn:E0; [|done].
  intros [= <- <- <-]. left. split; [by eapply Hm|done].
Qed.

Lemma map_err_respects {S E E' A} (R : S -> S -> Prop) (f : E -> E') (m : M S E A) :
  respects R m -> respects R (map_err f m).
Proof.
  intros Hm s s' r. unfold map_err. destruct (m s) as [[s1 [a|e]]|] eqn:E0; [| |done];
    intros [= <- <-]; by eapply Hm.
Qed.

Lemma mark_dirty_marked {E} self : respects (marked self) (mark_dirty (E := E) self).
Proof.
  intros [e dq] s' r. unfold mark_dirty. destruct (is_dirty e) eqn:E0; intros [= <- <-].
  - by left.
  - by right.
Qed.

#[local] Hint Resolve flush_same_dirty handle_wrap_same_dirty mark_dirty_marked : frame.
#[local] Hint Resolve on_inner_marked map_err_respects : frame.

Lemma call_marked self data u ra : respects (marked self) (call self data u ra).
Proof.
  unfold call, write_message, raw_write.
  repeat (respects_step || done || apply map_err_respects || apply on_inner_marked).
Qed.

Lemma reply_marked self cid ra data : respects (marked self) (reply self cid ra data).
Proof.
  unfold reply, write_message, raw_write.
  repeat (respects_step || done || apply map_err_respects || apply on_inner_marked).
Qed.

Lemma deref_store c ref ref' e :
  0 <= ref -> 0 <= ref' -> is_Some (deref c ref) ->
  deref (store c ref e) ref' = if decide (ref = ref') then Some e else deref c ref'.
Proof.
  intros H1 H2 [e0 H3]. unfold deref, store in *. cbn. apply lookup_lt_Some in H3 as Hlt.
  case_decide as H.
  - subst. by apply list_lookup_insert_eq.
  - apply list_lookup_insert_ne. lia.
Qed.

(** Storing an endpoint that kept its mark, or got it and was queued. *)
Lemma dirty_ok_store c ref e e' dq :
  0 <= ref -> deref c ref = Some e -> marked ref (e, dirty_endpoints c) (e', dq) ->
  dirty_ok c -> dirty_ok (set_dirty dq (store c ref e')).
Proof.
  intros Href He Hm [Hnd Hiff].
  assert (forall r, 0 <= r -> deref (set_dirty dq (store c ref e')) r =
    if decide (ref = r) then Some e' else deref c r) as Hd
    by (intros; by apply deref_store).
  unfold marked in Hm. cbn in Hm. split; cbn.
  - destruct Hm as [[_ ->]|(Hf & _ & ->)]; [done|]. apply NoDup_app. split_and!; [done| |].
    + intros r Hr ->%list_elem_of_singleton. apply Hiff in Hr as (_ & e0 & ? & ?). congruence.
    + apply NoDup_singleton.
  - intros r. destruct Hm as [[Hs ->]|(Hf & Ht & ->)];
      rewrite ?elem_of_app, ?list_elem_of_singleton, Hiff;
      (split; [intros Hr|intros [Hr0 Hr]]).
    + destruct Hr as (Hr & e0 & H1 & H2). split; [done|]. rewrite Hd by done.
      case_decide; [subst; exists e'; split; congruence|by exists e0].
    + split; [done|]. rewrite Hd in Hr by done. destruct Hr as (e0 & H1 & H2).
      case_decide; [subst; exists e; split; congruence|by exists e0].
    + destruct Hr as [(Hr & e0 & H1 & H2)| ->].
      * split; [done|]. rewrite Hd by done. case_decide; [subst; by exists e'|by exists e0].
      * split; [done|]. rewrite Hd, decide_True by done. by exists e'.
    + rewrite Hd in Hr by done. destruct Hr as (e0 & H1 & H2).
      case_decide; [by right|left]. split; [done|]. by exists e0.
Qed.

(** How one endpoint comes out of the flush loop. *)
Definition flushed e e' : Prop :=
  exists e1 r, flush e = Some (e1, r) /\ e' = set_is_dirty false e1 /\
    match r with Ok _ => has_pending_send e1 = false | Err er => sq_refused er e1 end.

Definition flushable C e : Prop := ep_ok C e /\ send_ring_producer e + 32 < 2 ^ 64.

Lemma flushable_flush C e : flushable C e ->
  exists e1 r, flush e = Some (e1, r) /\
    match r with Ok _ => has_pending_send e1 = false | Err er => sq_refused er e1 end.
Proof.
  intros [Hok Hlt]. destruct (wp_run _ _ _ _ (wp_flush C e Hok Hlt)) as (e1 & r & H & Hr).
  exists e1, r. split; [done|]. destruct r as [[]|]; by destruct_and!.
Qed.

Lemma flush_loop_spec C fuel c :
  NoDup (dirty_endpoints c) -> (length (dirty_endpoints c) < fuel)%nat ->
  (forall ref, ref ∈ dirty_endpoints c ->
     0 <= ref /\ exists e, deref c ref = Some e /\ flushable C e) ->
  exists c', flush_loop fuel c = Some c' /\ dirty_endpoints c' = [] /\
    forall ref, 0 <= ref ->
      if decide (ref ∈ dirty_endpoints c)
      then exists e e', deref c ref = Some e /\ deref c' ref = Some e' /\ flushed e e'
      else deref c' ref = deref c ref.
Proof.
  revert c. induction fuel as [|fuel IH]; intros c Hnd Hfuel Hall; [lia|].
  cbn [flush_loop]. destruct (dirty_endpoints c) as [|ref rest] eqn:Ed.
  { exists c. split_and!; [done..|]. intros ref Hr. by rewrite decide_False by set_solver. }
  destruct (Hall ref ltac:(set_solver)) as (Href & e & He & Hfl).
  destruct (flushable_flush C e Hfl) as (e1 & r & Hrun & Hr).
  change (deref (set_dirty rest c) ref) with (deref c ref). rewrite He, Hrun.
  assert (match r with
          | Ok _ => if has_pending_send e1
                    then flush_loop fuel (set_dirty (rest ++ [ref])
                           (store (set_dirty rest c) ref e1))
                    else flush_loop fuel (store (set_dirty rest c) ref (set_is_dirty false e1))
          | Err _ => flush_loop fuel (store (set_dirty rest c) ref (set_is_dirty false e1))
          end = flush_loop fuel (store (set_dirty rest c) ref (set_is_dirty false e1))) as Estep
    by (destruct r; [by rewrite Hr|done]).
  apply NoDup_cons in Hnd as [Hni Hnd].
  assert (forall r', 0 <= r' -> deref (store (set_dirty rest c) ref (set_is_dirty false e1)) r' =
    if decide (ref = r') then Some (set_is_dirty false e1) else deref c r') as Hd
    by (intros r' ?; change (deref c r') with (deref (set_dirty rest c) r');
        apply deref_store; [done..|by exists e]).
  destruct (IH (store (set_dirty rest c) ref (set_is_dirty false e1))) as (c' & Hc' & Hd' & Hall').
  { done. }
  { cbn in *. lia. }
  { cbn. intros r' Hr'. destruct (Hall r' ltac:(set_solver)) as (? & e2 & ? & ?).
    split; [done|]. exists e2. rewrite Hd, decide_False by (done || set_solver). done. }
  exists c'. split_and!; [etrans; [exact Estep|exact Hc']|done|].
  intros r' Hr'. specialize (Hall' r' Hr'). cbn in Hall'. rewrite (Hd r' Hr') in Hall'.
  destruct (decide (ref = r')) as [<-|Hne].
  - rewrite decide_False in Hall' by done. rewrite decide_True by set_solver.
    exists e, (set_is_dirty false e1). split_and!; [done..|]. by exists e1, r.
  - destruct (decide (r' ∈ rest)); [by rewrite decide_True by set_solver|].
    by rewrite decide_False by set_solver.
Qed.

(** Updates that keep every mark keep the invariant. *)
Lemma dirty_ok_ext c c' :
  dirty_endpoints c' = dirty_endpoints c ->
  (forall ref, is_dirty <$> deref c' ref = is_dirty <$> deref c ref) ->
  dirty_ok c -> dirty_ok c'.
Proof.
  intros Hq Hd [Hnd Hiff]. split; rewrite Hq; [done|]. intros ref. rewrite Hiff.
  specialize (Hd ref). split; intros [H (e & He & Hm)]; (split; [done|]); rewrite He in Hd.
  - destruct (deref c' ref) as [e'|]; [|done]. cbn in Hd. exists e'. split; congruence.
  - destruct (deref c ref) as [e'|]; [|done]. cbn in Hd. exists e'. split; congruence.
Qed.

Lemma store_marks c ref e e' :
  deref c ref = Some e -> is_dirty e' = is_dirty e ->
  forall r, is_dirty <$> deref (store c ref e') r = is_dirty <$> deref c r.
Proof.
  intros He Hm r. unfold deref, store in *. cbn. apply lookup_lt_Some in He as Hlt.
  destruct (decide (Z.to_nat ref = Z.to_nat r)) as [E|].
  - rewrite <-E, list_lookup_insert_eq, He by done. cbn. by rewrite Hm.
  - by rewrite list_lookup_insert_ne.
Qed.

(** The receive path does not touch the mark. *)
Lemma process_message_dirty self qpn (st st' : RecvState (Slab := Slab) (U := U)) :
  process_message self qpn st = Some st' -> is_dirty (rs_ep st') = is_dirty (rs_ep st).
Proof.
  unfold process_message. destruct (_ <? _); [done|].
  destruct (decode_header _ _) as [[cid pig] len]. destruct (is_response cid).
  - destruct (slab_try_remove _ _) as [[u|] s']; [destruct (slice _ _ _)|]; intros; by simplify_eq.
  - intros. by simplify_eq.
Qed.

Lemma process_messages_dirty self qpn n (st st' : RecvState (Slab := Slab) (U := U)) :
  process_messages self qpn n st = Some st' -> is_dirty (rs_ep st') = is_dirty (rs_ep st).
Proof.
  revert st. induction n as [|n IH]; intros st; cbn [process_messages]; [by intros [= ->]|].
  destruct (process_message self qpn st) as [st1|] eqn:E0; [|done]. intros H.
  apply process_message_dirty in E0. apply IH in H. congruence.
Qed.

Lemma process_cqe_dirty self qpn i (st st' : RecvState (Slab := Slab) (U := U)) :
  process_cqe self qpn i st = Some st' -> is_dirty (rs_ep st') = is_dirty (rs_ep st).
Proof.
  unfold process_cqe. destruct (_ <? _); [done|].
  destruct (decode_flow_metadata _ _) as [[rcr g] n]. destruct (n =? _).
  - by intros [= <-].
  - by intros ->%process_messages_dirty.
Qed.

Lemma on_recv_cqe_dirty c cqe c' : on_recv_cqe c cqe = Some c' -> dirty_ok c -> dirty_ok c'.
Proof.
  unfold on_recv_cqe. destruct (is_error cqe); [by intros [= <-]|].
  destruct (FastMap.get _ _) as [ref|]; [|by intros [= <-]].
  destruct (deref c ref) as [e|] eqn:He; [|done].
  destruct (process_cqe _ _ _ _) as [st|] eqn:Hp; [|done]. intros [= <-].
  apply dirty_ok_ext; [done|]. apply process_cqe_dirty in Hp. by eapply store_marks.
Qed.

Lemma drain_recv_dirty cqes c c' : drain_recv c cqes = Some c' -> dirty_ok c -> dirty_ok c'.
Proof.
  revert c. induction cqes as [|cqe cqes IH]; intros c; cbn [drain_recv]; [by intros [= <-]|].
  destruct (on_recv_cqe c cqe) as [c1|] eqn:E0; [|done]. intros H Hok.
  by eapply IH, on_recv_cqe_dirty.
Qed.

Lemma on_send_cqe_dirty c cqe c' : on_send_cqe c cqe = Some c' -> dirty_ok c -> dirty_ok c'.
Proof.
  unfold on_send_cqe. destruct (FastMap.get _ _) as [ref|]; [|by intros [= <-]].
  destruct (deref c ref) as [e|] eqn:He; [|done].
  destruct (qp e) as [sq|]; [|by intros [= <-]].
  destruct (process_completion sq _) as [entry sq']. intros [= <-].
  apply dirty_ok_ext; [done|]. eapply store_marks; [done|].
  destruct entry as [n|]; [|done]. by destruct (_ && _).
Qed.

Lemma drain_send_dirty cqes c c' : drain_send c cqes = Some c' -> dirty_ok c -> dirty_ok c'.
Proof.
  revert c. induction cqes as [|cqe cqes IH]; intros c; cbn [drain_send]; [by intros [= <-]|].
  destruct (on_send_cqe c cqe) as [c1|] eqn:E0; [|done]. intros H Hok.
  by eapply IH, on_send_cqe_dirty.
Qed.

(** Popping an endpoint and clearing its mark. *)
Lemma dirty_ok_pop c ref rest e e' :
  dirty_endpoints c = ref :: rest -> deref c ref = Some e -> is_dirty e' = false ->
  dirty_ok c -> dirty_ok (store (set_dirty rest c) ref e').
Proof.
  intros Hq He Hf [Hnd Hiff]. rewrite Hq in Hnd, Hiff. apply NoDup_cons in Hnd as [Hni Hnd].
  destruct (proj1 (Hiff ref) ltac:(set_solver)) as [Href _].
  assert (forall r, 0 <= r -> deref (store (set_dirty rest c) ref e') r =
    if decide (ref = r) then Some e' else deref c r) as Hd.
  { intros r ?. change (deref c r) with (deref (set_dirty rest c) r).
    apply deref_store; [done..|by exists e]. }
  split; [done|]. cbn. intros r. split.
  - intros Hr. destruct (proj1 (Hiff r) ltac:(set_solver)) as (H0 & e0 & H1 & H2).
    split; [done|]. rewrite Hd, decide_False by (done || set_solver). by exists e0.
  - intros (H0 & e0 & H1 & H2). rewrite Hd in H1 by done. case_decide; [congruence|].
    assert (r ∈ ref :: rest) as [->|?]%elem_of_cons by (apply Hiff; eauto); done.
Qed.

(** Rotating the queue: the mark stays. *)
Lemma dirty_ok_rotate c ref rest e e' :
  dirty_endpoints c = ref :: rest -> deref c ref = Some e -> is_dirty e' = is_dirty e ->
  dirty_ok c -> dirty_ok (set_dirty (rest ++ [ref]) (store (set_dirty rest c) ref e')).
Proof.
  intros Hq He Hm [Hnd Hiff]. rewrite Hq in Hnd, Hiff.
  apply (dirty_ok_ext (set_dirty (rest ++ [ref]) c)); [done| |].
  - intros r. by apply (store_marks c ref e e').
  - split; cbn.
    + rewrite <-Permutation_cons_append. done.
    + intros r. rewrite <-Permutation_cons_append. apply Hiff.
Qed.

Lemma flush_loop_dirty fuel c c' : flush_loop fuel c = Some c' -> dirty_ok c -> dirty_ok c'.
Proof.
  revert c. induction fuel as [|fuel IH]; intros c; cbn [flush_loop]; [done|].
  destruct (dirty_endpoints c) as [|ref rest] eqn:Hq; [by intros [= <-]|].
  change (deref (set_dirty rest c) ref) with (deref c ref).
  destruct (deref c ref) as [e|] eqn:He; [|done].
  destruct (flush e) as [[e' [?|er]]|] eqn:Hf; [| |done]; intros H Hok.
  - destruct (has_pending_send e').
    + eapply IH; [exact H|]. eapply dirty_ok_rotate; [done..| |done].
      by eapply flush_same_dirty.
    + eapply IH; [exact H|]. by eapply dirty_ok_pop.
  - eapply IH; [exact H|]. by eapply dirty_ok_pop.
Qed.

(** [poll_timed] is [poll]. *)
Lemma poll_timed_polls t0 t1 t2 t3 fuel rcqes scqes c :
  Z.of_nat (length rcqes) < 2 ^ 32 ->
  fst <$> poll_timed t0 t1 t2 t3 fuel rcqes scqes c = poll fuel rcqes scqes c.
Proof.
  intros H. unfold poll_timed, poll, poll_recv_only. rewrite u32_small by lia.
  destruct (drain_recv c rcqes); [|done]. by destruct (flush_endpoints _ _ _).
Qed.

(** ** The operations of a context *)

Inductive ctx_step : Context -> Context -> Prop :=
| ctx_step_call ref data u ra c c' r :
    0 <= ref -> ctx_call ref data u ra c = Some (c', r) -> ctx_step c c'
| ctx_step_reply m data c c' r :
    0 <= endpoint m -> ctx_reply m data c = Some (c', r) -> ctx_step c c'
| ctx_step_recv c : ctx_step c (recv c).2
| ctx_step_poll_recv cqes c c' n : poll_recv_only cqes c = Some (c', n) -> ctx_step c c'
| ctx_step_poll fuel rcqes scqes c c' : poll fuel rcqes scqes c = Some c' -> ctx_step c c'
| ctx_step_flush fuel cqes c c' : flush_endpoints fuel cqes c = Some c' -> ctx_step c c'
| ctx_step_create e c : is_dirty e = false -> ctx_step c (create_endpoint e c).2.

Lemma repost_dirty n c : dirty_ok c -> dirty_ok (repost n c).
Proof. unfold repost. destruct (0 <? n); [|done]. by destruct (_ <? _). Qed.

Lemma create_dirty e c : is_dirty e = false -> dirty_ok c -> dirty_ok (create_endpoint e c).2.
Proof.
  intros He [Hnd Hiff]. split; [done|]. cbn. intros r. rewrite Hiff. unfold deref. cbn.
  split; intros (H0 & e0 & H1 & H2); (split; [done|]); exists e0; (split; [|done]).
  - by apply lookup_app_l_Some.
  - apply lookup_app_Some in H1 as [?|[_ H1]]; [done|].
    apply list_lookup_singleton_Some in H1 as [_ ->]. congruence.
Qed.

Lemma poll_recv_only_dirty cqes c c' n :
  poll_recv_only cqes c = Some (c', n) -> dirty_ok c -> dirty_ok c'.
Proof.
  unfold poll_recv_only. destruct (drain_recv c cqes) as [c1|] eqn:E0; [|done].
  intros [= <- <-] Hok. by apply repost_dirty, (drain_recv_dirty cqes c).
Qed.

Lemma flush_endpoints_dirty fuel cqes c c' :
  flush_endpoints fuel cqes c = Some c' -> dirty_ok c -> dirty_ok c'.
Proof.
  unfold flush_endpoints. destruct (drain_send c cqes) as [c1|] eqn:E0; [|done].
  intros H Hok. by eapply flush_loop_dirty, drain_send_dirty.
Qed.

Lemma ctx_step_dirty c c' : ctx_step c c' -> dirty_ok c -> dirty_ok c'.
Proof.
  destruct 1 as [ref data u ra c c' r Href Hrun|m data c c' r Href Hrun|c|cqes c c' n Hrun
    |fuel rcqes scqes c c' Hrun|fuel cqes c c' Hrun|e c He]; intros Hok.
  - unfold ctx_call in Hrun. destruct (deref c ref) as [e|] eqn:He; [|done].
    destruct (call _ _ _ _ _) as [[[e' dq] r']|] eqn:Hc; [|done]. simplify_eq.
    eapply dirty_ok_store; [done..| |done]. by eapply call_marked.
  - unfold ctx_reply in Hrun. destruct (deref c (endpoint m)) as [e|] eqn:He; [|done].
    destruct (reply _ _ _ _ _) as [[[e' dq] r']|] eqn:Hc; [|done]. simplify_eq.
    eapply dirty_ok_store; [done..| |done]. by eapply reply_marked.
  - unfold recv. by destruct (recv_stack c).
  - by eapply poll_recv_only_dirty.
  - unfold poll in Hrun. destruct (poll_recv_only rcqes c) as [[c1 n]|] eqn:E0; [|done].
    by eapply flush_endpoints_dirty, poll_recv_only_dirty.
  - by eapply flush_endpoints_dirty.
  - by apply create_dirty.
Qed.

(** ** Properties *)

(** C16: through any sequence of calls, replies, receives, polls, flushes and
    endpoint creations, successful or not, an endpoint is queued for flushing
    at most once and exactly while its dirty mark is set. *)
Theorem dirty_queue_invariant c c' :
  dirty_ok c -> rtc ctx_step c c' -> dirty_ok c'.
Proof. intros H Hr. induction Hr; [done|]. eauto using ctx_step_dirty. Qed.

(** The flush loop of [flush_endpoints] terminates after one iteration per
    queued endpoint: the queue ends empty, every queued endpoint has been flushed
    once and has nothing left to send unless its send queue was full, and no
    other endpoint changes. *)
Theorem flush_endpoints_terminates C c :
  dirty_ok c ->
  (forall ref, ref ∈ dirty_endpoints c -> exists e, deref c ref = Some e /\ flushable C e) ->
  exists c', flush_endpoints (S (length (dirty_endpoints c))) [] c = Some c' /\
    dirty_endpoints c' = [] /\
    forall ref, 0 <= ref ->
      if decide (ref ∈ dirty_endpoints c)
      then exists e e', deref c ref = Some e /\ deref c' ref = Some e' /\ flushed e e'
      else deref c' ref = deref c ref.
Proof.
  intros [Hnd Hiff] Hall. apply (flush_loop_spec C); [done|lia|].
  intros ref Hr. split; [by apply Hiff|auto].
Qed.

(** Receive-buffer accounting: polling never counts more buffers than the
    shared receive queue holds, and whenever completions were processed at least
    two thirds of them are posted again. *)
Theorem srq_accounting cqes c c' n :
  0 <= srq_posted c <= srq_max_wr c -> poll_recv_only cqes c = Some (c', n) ->
  n = Z.of_nat (length cqes) /\ srq_max_wr c' = srq_max_wr c /\
  0 <= srq_posted c' <= srq_max_wr c /\
  (0 < n -> srq_max_wr c * 2 / 3 <= srq_posted c').
Proof.
  intros Hp. unfold poll_recv_only. destruct (drain_recv c cqes) as [c1|] eqn:Hd; [|done].
  assert (srq_posted c1 = srq_posted c /\ srq_max_wr c1 = srq_max_wr c) as [E1 E2].
  { clear Hp. revert c Hd. induction cqes as [|cqe cqes IH]; intros c; cbn [drain_recv];
      [by intros [= <-]|].
    destruct (on_recv_cqe c cqe) as [c2|] eqn:E0; [|done]. intros H. apply IH in H as [-> ->].
    revert E0. unfold on_recv_cqe. destruct (is_error cqe); [by intros [= <-]|].
    destruct (FastMap.get _ _); [|by intros [= <-]]. destruct (deref _ _); [|done].
    destruct (process_cqe _ _ _ _); [|done]. by intros [= <-]. }
  intros [= <- <-]. unfold repost, saturating_sub.
  pose proof (Z.div_le_upper_bound (srq_max_wr c * 2) 3 (srq_max_wr c)).
  destruct (0 <? _) eqn:E3; guards; rewrite ?E1, ?E2; [|lia].
  destruct (_ <? _) eqn:E4; guards; cbn; lia.
Qed.

End Context.
Arguments Context Slab U : clear implicits.

(** A context with one connected endpoint that has a call to send. *)
Definition demo_ctx : Context ListSlab Z :=
  match ctx_call 0 [10; 20; 30] 99 8 (create_endpoint (demo 256 16) (build 16)).2 with
  | Some (c, _) => c
  | None => build 16
  end.

Lemma demo_ctx_facts :
  dirty_endpoints demo_ctx = [0] /\ heap demo_ctx = [demo_called] /\
  is_dirty demo_called = true /\ srq_posted demo_ctx = 16 /\ srq_max_wr demo_ctx = 16 /\
  send_ring_producer demo_called = 64.
Proof. vm_compute. done. Qed.

Lemma demo_ctx_dirty : dirty_ok demo_ctx.
Proof.
  destruct demo_ctx_facts as (H1 & H2 & H3 & _).
  split; [rewrite H1; apply NoDup_singleton|]. intros ref. unfold deref. rewrite H1, H2.
  rewrite list_elem_of_singleton. split.
  - intros ->. split; [lia|]. by exists demo_called.
  - intros (H0 & e & He & _). apply lookup_lt_Some in He. cbn in He. lia.
Qed.

Lemma dirty_queue_invariant_witness : dirty_ok (recv demo_ctx).2.
Proof.
  apply (dirty_queue_invariant demo_ctx); [apply demo_ctx_dirty|].
  apply rtc_once, ctx_step_recv.
Defined.

Lemma flush_endpoints_terminates_witness :
  exists c', flush_endpoints (S (length (dirty_endpoints demo_ctx))) [] demo_ctx = Some c' /\
    dirty_endpoints c' = [].
Proof.
  destruct demo_ctx_facts as (H1 & H2 & _ & _ & _ & H3).
  destruct (flush_endpoints_terminates 256 demo_ctx) as (c' & H & Hd & _).
  - apply demo_ctx_dirty.
  - intros ref Hr. rewrite H1 in Hr. apply list_elem_of_singleton in Hr as ->.
    exists demo_called. unfold deref. rewrite H2. split; [reflexivity|].
    split; [apply demo_called_ok|rewrite H3; lia].
  - exists c'. split; [exact H|exact Hd].
Defined.

Lemma srq_accounting_witness :
  exists c' n, poll_recv_only [mkCqe ReqErr 5 0 0] demo_ctx = Some (c', n) /\
    srq_posted c' <= 16.
Proof.
  destruct demo_ctx_facts as (_ & _ & _ & H1 & H2 & _).
  exists (repost 1 demo_ctx), 1. split; [reflexivity|].
  destruct (srq_accounting [mkCqe ReqErr 5 0 0] demo_ctx (repost 1 demo_ctx) 1)
    as (_ & _ & H & _); [rewrite H1, H2; lia|reflexivity|].
  rewrite H2 in H. lia.
Defined.

End RcContext.
