(* ===== verification/RcRaw.v ===== *)
(** * RcRaw: one-sided operations of the RC endpoint, [copyrpc/src/rc.rs]

    [post_rdma_read] and [post_rdma_write] post a transfer to the send queue that the
    messages of the endpoint use, under an entry that no message has; completions of
    such entries are counted, and [raw_rdma_pending] is the difference.  Here the
    count is related to the transfers that are in the queue, through everything that
    the context does. *)

From S2P Require Import Prelude FastMap Encoding Ring SendQueue Rc RcBatch RcMessages RcProps RcContext.
Import Encoding SendQueue Rc RcProps RcContext.

Module RcRaw.
#[local] Open Scope prog_scope.

Section Raw.
Context {Slab : Type -> Type} `{!SlabOps Slab} {U : Type}.
Implicit Types (e : EndpointInner Slab U) (c : Context Slab U) (q : Sq Z).

Definition set_raw_rdma_posted (v : Z) e : EndpointInner Slab U :=
  mkEp (qp e) (qpn e) (send_ring e) (send_mr_addr e) (send_mr_lkey e) (recv_ring e)
    (recv_mr_addr e) (recv_mr_rkey e) (remote_recv_ring e) (send_ring_producer e)
    (recv_ring_producer e) (last_recv_pos e) (last_notified_recv_pos e) (remote_consumer_pos e)
    (unsignaled_count e) (pending_calls e) (flush_start_pos e) (resp_reservation e)
    (max_resp_reservation e) (peer_credit_balance e) (meta_pos e) (batch_message_count e)
    v (raw_rdma_done e) (needs_doorbell e) (is_dirty e).

(** What the two operations share. *)
Definition post_rdma (read : bool) (remote_addr remote_rkey local_addr local_lkey len : Z)
    : M (EndpointInner Slab U) IoError unit :=
  p_modify (fun e => set_raw_rdma_posted (u32 (raw_rdma_posted e + 1)) e) ;;;
  let* e := p_get in
  match qp e with
  | None => p_fail DirectAccessNotInitialized
  | Some sq =>
      match emit_rdma sq read (mkRdma remote_addr remote_rkey) (mkSge local_addr len local_lkey)
              (Some RAW_RDMA_SENTINEL_QPN) with
      | (sq', Err err) => p_modify (set_qp (Some sq')) ;;; p_fail (Submission err)
      | (sq', Ok _) => p_modify (set_qp (Some (ring_doorbell_bf sq')))
      end
  end.

Definition post_rdma_read (remote_addr remote_rkey local_addr local_lkey len : Z)
    : M (EndpointInner Slab U) IoError unit :=
  post_rdma true remote_addr remote_rkey local_addr local_lkey len.

Definition post_rdma_write (remote_addr remote_rkey local_addr local_lkey len : Z)
    : M (EndpointInner Slab U) IoError unit :=
  post_rdma false remote_addr remote_rkey local_addr local_lkey len.

(** Through a reference into the context. *)
Definition ctx_post (read : bool) (ref remote_addr remote_rkey local_addr local_lkey len : Z) c
    : option (Context Slab U * result unit IoError) :=
  match deref c ref with
  | None => None
  | Some e =>
      match (if read then post_rdma_read else post_rdma_write)
              remote_addr remote_rkey local_addr local_lkey len e with
      | None => None
      | Some (e', r) => Some (store c ref e', r)
      end
  end.

(** ** Transfers in the queue *)

Definition raw_entry (x : option (Z * Z)) : Z :=
  match x with Some (n, _) => if n =? RAW_RDMA_SENTINEL_QPN then 1 else 0 | None => 0 end.

Definition raw_count (l : list (option (Z * Z))) : Z := foldr (fun x n => raw_entry x + n) 0 l.

(** Transfers that are posted and not completed. *)
Definition transfers e : Z := match qp e with Some q => raw_count (table q) | None => 0 end.

Lemma raw_entry_range x : 0 <= raw_entry x <= 1.
Proof. destruct x as [[n d]|]; cbn; [destruct (_ =? _)|]; lia. Qed.

Lemma raw_count_nonneg l : 0 <= raw_count l.
Proof.
  induction l as [|x l IH]; [done|]. pose proof (raw_entry_range x).
  change (raw_count (x :: l)) with (raw_entry x + raw_count l). lia.
Qed.

Lemma raw_count_insert l i x y :
  l !! i = Some x -> raw_count (<[i := y]> l) = raw_count l - raw_entry x + raw_entry y.
Proof.
  revert i. induction l as [|z l IH]; intros [|i] H; try done.
  - injection H as ->. change (raw_entry y + raw_count l = raw_entry x + raw_count l - raw_entry x + raw_entry y).
    lia.
  - change (raw_entry z + raw_count (<[i := y]> l) = raw_entry z + raw_count l - raw_entry x + raw_entry y).
    rewrite (IH i H). lia.
Qed.

(** An entry changes the count by itself at most. *)
Lemma raw_count_store l i y : raw_count (<[i := y]> l) <= raw_count l + raw_entry y.
Proof.
  destruct (l !! i) as [x|] eqn:E.
  - rewrite (raw_count_insert l i x y E). pose proof (raw_entry_range x). lia.
  - apply lookup_ge_None in E. rewrite list_insert_ge by done. pose proof (raw_entry_range y). lia.
Qed.

Lemma transfers_nonneg e : 0 <= transfers e.
Proof. unfold transfers. destruct (qp e); [apply raw_count_nonneg|done]. Qed.

(** The count of an endpoint covers its transfers and [r] more. *)
Definition raw_inv (r : Z) e : Prop :=
  qpn e <> RAW_RDMA_SENTINEL_QPN /\ 0 <= raw_rdma_done e /\
  raw_rdma_done e + transfers e + r <= raw_rdma_posted e < 2 ^ 32.

Lemma raw_inv_pending r e : 0 <= r -> raw_inv r e -> transfers e + r <= raw_rdma_pending e.
Proof.
  intros Hr (_ & H0 & H). unfold raw_rdma_pending.
  pose proof (transfers_nonneg e). rewrite u32_small; lia.
Qed.

(** Every operation of the message path keeps the invariant of the endpoint. *)
Definition keeps e e' : Prop := forall r, 0 <= r -> raw_inv r e -> raw_inv r e'.

#[local] Instance keeps_preorder : PreOrder keeps.
Proof. split; [by intros ? ?|]. intros e1 e2 e3 H1 H2 r Hr H. auto. Qed.

(** The table after the emission of a message. *)
Lemma emit_write_imm_table q rdma imm data sge entry q' res :
  emit_write_imm q rdma imm data sge entry = (q', res) ->
  raw_count (table q') <= raw_count (table q) +
    match entry with Some n => raw_entry (Some (n, 0)) | None => 0 end.
Proof.
  assert (forall (o : option Z) (q0 : Sq Z) i d,
    raw_count (table (match o with Some n => table_store q0 i n d | None => q0 end)) <=
    raw_count (table q0) + match o with Some n => raw_entry (Some (n, 0)) | None => 0 end) as Hs.
  { intros [n|] q0 i d; [|lia]. cbn [table table_store]. apply (raw_count_store _ _ (Some (n, d))). }
  assert (0 <= match entry with Some n => raw_entry (Some (n, 0)) | None => 0 end) as H0.
  { destruct entry as [n|]; [|done]. apply raw_entry_range. }
  unfold emit_write_imm, emit_write_wrap. destruct (_ <? _); [intros [= <- <-]; lia|].
  destruct (_ && _).
  - destruct (_ <? _); [intros [= <- <-]; lia|]. intros [= <- <-].
    etransitivity; [apply Hs|]. done.
  - intros [= <- <-]. etransitivity; [apply Hs|]. done.
Qed.

Lemma keeps_qp e q q' :
  qp e = Some q -> raw_count (table q') <= raw_count (table q) -> keeps e (set_qp (Some q') e).
Proof.
  intros Hq Hc r Hr (H1 & H2 & H3). unfold raw_inv, transfers in *. rewrite Hq in H3. cbn.
  split_and!; try done; lia.
Qed.

Lemma emit_raw_keeps : respects keeps (emit_raw (Slab := Slab) (U := U)).
Proof.
  intros e e' r. unfold emit_raw. cbn [p_bind p_get].
  destruct (remote_recv_ring e) as [rr|]; [|by intros [= <- <-]].
  destruct (_ =? _); [by intros [= <- <-]|].
  destruct (qp e) as [q|] eqn:Hq; [|by intros [= <- <-]].
  set (args := if _ <=? MAX_INLINE_ONLY then _ else _).
  assert (forall s r, args e = Some (s, r) -> s = e) as Hargs.
  { subst args. intros s r0. destruct (_ <=? _); unfold p_bind, p_unwrap, p_ret;
      destruct (slice _ _ _); by intros [=]. }
  unfold p_bind at 1. destruct (args e) as [[s [a|er]]|] eqn:Ha; [| |done].
  2:{ intros [= <- <-]. by rewrite (Hargs _ _ eq_refl). }
  rewrite (Hargs _ _ eq_refl). clear Hargs Ha.
  destruct (emit_write_imm _ _ _ _ _ _) as [q' res] eqn:He.
  intros H rr0 Hrr Hinv.
  assert (keeps e (set_qp (Some q') e)) as Hk.
  { intros r1 Hr1 Hi. apply (keeps_qp e q q' Hq); [|done..].
    etransitivity; [exact (emit_write_imm_table _ _ _ _ _ _ _ _ He)|].
    destruct Hi as (Hn & _). clear -Hn. destruct (SIGNAL_INTERVAL <=? _); cbn [raw_entry]; [|lia].
    rewrite (proj2 (Z.eqb_neq _ _)) by done. lia. }
  specialize (Hk rr0 Hrr Hinv). destruct res; cbn in H; injection H as <- <-; exact Hk.
Qed.

#[local] Hint Resolve emit_raw_keeps : frame.

Lemma ring_doorbell_table q : table (ring_doorbell_bf q) = table q.
Proof. unfold ring_doorbell_bf. by destruct (last_wqe q). Qed.

Ltac keeps_step := respects_step || (intros ? ? H; exact H).

Lemma keeps_doorbell e : keeps e (set_qp (ring_doorbell_bf <$> qp e) e).
Proof.
  destruct (qp e) as [q|] eqn:Hq; cbn.
  - apply (keeps_qp e q); [done|]. by rewrite ring_doorbell_table.
  - intros r Hr H. unfold raw_inv, transfers in *. by rewrite Hq in H.
Qed.

#[local] Hint Resolve keeps_doorbell : core.

Lemma flush_keeps : respects keeps (flush (Slab := Slab) (U := U)).
Proof.
  unfold flush, emit_wqe, fill_metadata, prepare_next_batch, raw_write.
  repeat (respects_step || apply keeps_doorbell || (intros ? ? H; exact H)).
Qed.

Lemma handle_wrap_keeps n : respects keeps (handle_wrap_if_needed (Slab := Slab) (U := U) n).
Proof.
  unfold handle_wrap_if_needed, emit_wrap, fill_metadata, prepare_next_batch, raw_write.
  repeat keeps_step.
Qed.

(** On an endpoint with its queue of dirty endpoints. *)
Definition keeps1 (s s' : EndpointInner Slab U * list Z) : Prop := keeps s.1 s'.1.

#[local] Instance keeps1_preorder : PreOrder keeps1.
Proof. split; [intros s r Hr H; exact H|]. intros s1 s2 s3 H1 H2. unfold keeps1 in *. by etransitivity. Qed.

Lemma on_inner_keeps {E A} (m : M (EndpointInner Slab U) E A) :
  respects keeps m -> respects keeps1 (on_inner m).
Proof.
  intros Hm [e dq] [e' dq'] r. unfold on_inner. destruct (m e) as [[e1 r1]|] eqn:E0; [|done].
  intros [= <- <- <-]. exact (Hm _ _ _ E0).
Qed.

Lemma mark_dirty_keeps {E} self : respects keeps1 (mark_dirty (E := E) self).
Proof.
  intros [e dq] s' r. unfold mark_dirty. destruct (is_dirty e); intros [= <- <-];
    intros ? ? H; exact H.
Qed.

#[local] Hint Resolve flush_keeps handle_wrap_keeps mark_dirty_keeps : frame.

Ltac keeps1_step :=
  respects_step || apply map_err_respects || apply on_inner_keeps || (intros ? ? H; exact H).

Lemma call_keeps self data u ra : respects keeps1 (call self data u ra).
Proof. unfold call, write_message, raw_write. repeat keeps1_step. Qed.

Lemma reply_keeps self cid ra data : respects keeps1 (reply self cid ra data).
Proof. unfold reply, write_message, raw_write. repeat keeps1_step. Qed.

Lemma process_messages_keeps self n k st st' :
  process_messages self n k st = Some st' -> keeps (rs_ep st) (rs_ep st').
Proof.
  revert st. induction k as [|k IH]; intros st; cbn [process_messages]; [by intros [= <-]|].
  destruct (process_message self n st) as [st1|] eqn:E; [|done]. intros H.
  transitivity (rs_ep st1); [|by apply IH]. revert E. unfold process_message.
  destruct (_ <? _); [done|]. destruct (decode_header _ _) as [[cid pg] len].
  destruct (is_response cid).
  - destruct (slab_try_remove _ _) as [[u|] sl]; [destruct (slice _ _ _); [|done]|];
      intros [= <-] r Hr Hi; exact Hi.
  - intros [= <-] r Hr Hi; exact Hi.
Qed.

Lemma process_cqe_keeps self n imm st st' :
  process_cqe self n imm st = Some st' -> keeps (rs_ep st) (rs_ep st').
Proof.
  unfold process_cqe. destruct (_ <? _); [done|].
  destruct (decode_flow_metadata _ _) as [[rcr grant] count]. destruct (_ =? _).
  - intros [= <-] r Hr Hi; exact Hi.
  - intros H. apply process_messages_keeps in H. intros r Hr Hi. by apply H.
Qed.

(** ** The context *)

Definition kept c c' : Prop := Forall2 keeps (heap c) (heap c').

#[local] Instance kept_preorder : PreOrder kept.
Proof.
  split.
  - intros c. unfold kept. reflexivity.
  - intros c1 c2 c3 H1 H2. unfold kept in *. by etransitivity.
Qed.

Lemma store_kept c ref e e' : deref c ref = Some e -> keeps e e' -> kept c (store c ref e').
Proof.
  intros Hd Hk. unfold kept, store. cbn. unfold deref in Hd.
  rewrite <-(list_insert_id (heap c) (Z.to_nat ref) e) at 1 by done.
  apply Forall2_insert; [reflexivity|done].
Qed.

Lemma on_recv_cqe_kept c cqe c' : on_recv_cqe c cqe = Some c' -> kept c c'.
Proof.
  unfold on_recv_cqe. destruct (is_error cqe); [by intros [= <-]|].
  destruct (FastMap.get _ _) as [ref|]; [|by intros [= <-]].
  destruct (deref c ref) as [e|] eqn:He; [|done].
  destruct (process_cqe _ _ _ _) as [st|] eqn:Hp; [|done]. intros [= <-].
  exact (store_kept c ref e _ He (process_cqe_keeps _ _ _ _ _ Hp)).
Qed.

(** A completion takes its entry out of the queue before it is counted. *)
Lemma completion_keeps e q k :
  qp e = Some q ->
  let '(entry, q') := process_completion q (wqe_counter k) in
  let e1 := set_qp (Some q') e in
  keeps e (match entry with
           | Some n => if negb (is_error k) && (n =? RAW_RDMA_SENTINEL_QPN)
                       then set_raw_rdma_done (u32 (raw_rdma_done e1 + 1)) e1 else e1
           | None => e1
           end).
Proof.
  intros Hq. unfold process_completion, table_take.
  set (i := Z.to_nat (slot q (wqe_counter k))).
  destruct (table q !! i) as [[[n d]|]|] eqn:Hl; cbv beta iota zeta delta [id from_option].
  - pose proof (raw_count_insert _ _ _ None Hl) as Hc. pose proof (raw_entry_range (Some (n, d))) as Hr0.
    cbn [raw_entry] in Hc, Hr0. destruct (negb (is_error k) && (n =? RAW_RDMA_SENTINEL_QPN)) eqn:Ha.
    + apply andb_true_iff in Ha as [_ Ha]. rewrite Ha in Hc, Hr0.
      intros r Hr (H1 & H2 & H3). unfold raw_inv, transfers in *. rewrite Hq in H3. cbn -[raw_count].
      pose proof (raw_count_nonneg (<[i := None]> (table q))).
      rewrite u32_small by lia. split_and!; try done; lia.
    + apply (keeps_qp e q); [done|]. cbn -[raw_count]. destruct (_ =? _); lia.
  - apply (keeps_qp e q); [done|]. cbn -[raw_count]. by rewrite list_insert_id.
  - apply (keeps_qp e q); [done|]. cbn -[raw_count]. apply lookup_ge_None in Hl. by rewrite list_insert_ge.
Qed.

Lemma on_send_cqe_kept c cqe c' : on_send_cqe c cqe = Some c' -> kept c c'.
Proof.
  unfold on_send_cqe. destruct (FastMap.get _ _) as [ref|]; [|by intros [= <-]].
  destruct (deref c ref) as [e|] eqn:He; [|done].
  destruct (qp e) as [q|] eqn:Hq; [|by intros [= <-]].
  pose proof (completion_keeps e q cqe Hq) as Hk.
  destruct (process_completion q _) as [entry q']. intros [= <-].
  exact (store_kept c ref e _ He Hk).
Qed.

Lemma drain_recv_kept cqes c c' : drain_recv c cqes = Some c' -> kept c c'.
Proof.
  revert c. induction cqes as [|cqe cqes IH]; intros c; cbn [drain_recv]; [by intros [= <-]|].
  destruct (on_recv_cqe c cqe) as [c1|] eqn:E; [|done]. intros H.
  transitivity c1; [by eapply on_recv_cqe_kept|auto].
Qed.

Lemma drain_send_kept cqes c c' : drain_send c cqes = Some c' -> kept c c'.
Proof.
  revert c. induction cqes as [|cqe cqes IH]; intros c; cbn [drain_send]; [by intros [= <-]|].
  destruct (on_send_cqe c cqe) as [c1|] eqn:E; [|done]. intros H.
  transitivity c1; [by eapply on_send_cqe_kept|auto].
Qed.

Lemma flush_loop_kept fuel c c' : flush_loop fuel c = Some c' -> kept c c'.
Proof.
  revert c. induction fuel as [|fuel IH]; intros c; cbn [flush_loop]; [done|].
  destruct (dirty_endpoints c) as [|ref rest]; [by intros [= <-]|].
  change (deref (set_dirty rest c) ref) with (deref c ref).
  destruct (deref c ref) as [e|] eqn:He; [|done].
  destruct (flush e) as [[e' r]|] eqn:Hf; [|done]. apply flush_keeps in Hf.
  pose proof (store_kept c ref e (set_is_dirty false e') He (fun r0 Hr H => Hf r0 Hr H)) as H1.
  pose proof (store_kept c ref e e' He Hf) as H2.
  destruct r; [destruct (has_pending_send e')|]; intros H; apply IH in H;
    (etransitivity; [|exact H]); done.
Qed.

Lemma repost_kept n c : kept c (repost n c).
Proof.
  assert (heap (repost n c) = heap c) as E
    by (unfold repost; destruct (0 <? n); [destruct (_ <? _)|]; done).
  unfold kept. by rewrite E.
Qed.

Lemma poll_recv_only_kept cqes c c' n : poll_recv_only cqes c = Some (c', n) -> kept c c'.
Proof.
  unfold poll_recv_only. destruct (drain_recv c cqes) as [c1|] eqn:E; [|done]. intros [= <- _].
  transitivity c1; [by eapply drain_recv_kept|apply repost_kept].
Qed.

Lemma flush_endpoints_kept fuel cqes c c' : flush_endpoints fuel cqes c = Some c' -> kept c c'.
Proof.
  unfold flush_endpoints. destruct (drain_send c cqes) as [c1|] eqn:E; [|done]. intros H.
  transitivity c1; [by eapply drain_send_kept|by eapply flush_loop_kept].
Qed.

(** Every operation of a context on the endpoints it has. *)
Lemma ctx_step_kept c c' :
  ctx_step c c' -> length (heap c') = length (heap c) -> kept c c'.
Proof.
  destruct 1 as [ref data u ra c c' r Href Hrun|m data c c' r Href Hrun|c|cqes c c' n Hrun
    |fuel rcqes scqes c c' Hrun|fuel cqes c c' Hrun|e c He]; intros Hl.
  - unfold ctx_call in Hrun. destruct (deref c ref) as [e|] eqn:He; [|done].
    destruct (call _ _ _ _ _) as [[[e' dq] r']|] eqn:Hc; [|done]. simplify_eq.
    exact (store_kept c ref e e' He (call_keeps _ _ _ _ _ _ _ Hc)).
  - unfold ctx_reply in Hrun. destruct (deref c (endpoint m)) as [e|] eqn:He; [|done].
    destruct (reply _ _ _ _ _) as [[[e' dq] r']|] eqn:Hc; [|done]. simplify_eq.
    exact (store_kept c _ e e' He (reply_keeps _ _ _ _ _ _ _ Hc)).
  - unfold recv. destruct (recv_stack c); [done|]. unfold kept. cbn. reflexivity.
  - by eapply poll_recv_only_kept.
  - unfold poll in Hrun. destruct (poll_recv_only rcqes c) as [[c1 n]|] eqn:E0; [|done].
    transitivity c1; [by eapply poll_recv_only_kept|by eapply flush_endpoints_kept].
  - by eapply flush_endpoints_kept.
  - exfalso. revert Hl. cbn. rewrite length_app. cbn. lia.
Qed.

Lemma connect_ex_keeps remote b : respects keeps (connect_ex (Slab := Slab) (U := U) remote b).
Proof. unfold connect_ex, prepare_next_batch. repeat keeps_step. Qed.

(** ** Posts *)

(** A post returns; a refused one is counted all the same. *)
Lemma post_rdma_spec read ra rk la lk n e :
  exists e' r, post_rdma read ra rk la lk n e = Some (e', r) /\
    qpn e' = qpn e /\ raw_rdma_done e' = raw_rdma_done e /\
    raw_rdma_posted e' = u32 (raw_rdma_posted e + 1) /\
    transfers e' <= transfers e + match r with Ok _ => 1 | Err _ => 0 end.
Proof.
  unfold post_rdma. cbn [p_bind p_modify p_get].
  change (qp (set_raw_rdma_posted _ e)) with (qp e).
  destruct (qp e) as [q|] eqn:Hq; unfold transfers; rewrite ?Hq.
  2:{ eexists _, _. split; [done|]. cbn. rewrite Hq. split_and!; try done; lia. }
  unfold emit_rdma. destruct (available q <? 1); cbn [p_bind p_modify p_fail].
  { eexists _, _. split; [done|]. cbn -[raw_count]. split_and!; try done; lia. }
  eexists _, _. split; [done|]. cbn [set_qp set_raw_rdma_posted qp]. rewrite ring_doorbell_table.
  split_and!; try done. cbn -[raw_count RAW_RDMA_SENTINEL_QPN].
  exact (raw_count_store (table q) _ (Some (RAW_RDMA_SENTINEL_QPN, _))).
Qed.

(** On a queue that is in order: a post takes the next block and shows it to the
    device without touching a request in flight, or finds the queue full. *)
Lemma post_rdma_posts read ra rk la lk n e q :
  qp e = Some q -> sq_ok q ->
  let e1 := set_raw_rdma_posted (u32 (raw_rdma_posted e + 1)) e in
  if in_flight q =? wqe_cnt q
  then post_rdma read ra rk la lk n e = Some (set_qp (Some q) e1, Err (Submission SqFull))
  else exists q', post_rdma read ra rk la lk n e = Some (set_qp (Some q') e1, Ok tt) /\
    sq_ok q' /\ in_flight_kept q q' /\ in_flight q' = in_flight q + 1 /\ dbrec q' = pi q' /\
    holds_wqe q' (pi q) (WRdma read (pi q) true (mkRdma ra rk) (mkSge la n lk)) 1 /\
    table q' !! Z.to_nat (slot q (pi q)) = Some (Some (RAW_RDMA_SENTINEL_QPN, pi q')).
Proof.
  intros Hq Hok e1. pose proof (emit_rdma_spec q read (mkRdma ra rk) (mkSge la n lk)
    RAW_RDMA_SENTINEL_QPN Hok) as H.
  unfold post_rdma. cbn [p_bind p_modify p_get]. fold e1. change (qp e1) with (qp e). rewrite Hq.
  destruct (in_flight q =? wqe_cnt q).
  { rewrite H. done. }
  destruct H as (q' & -> & H1 & H2 & H3 & H4 & _ & H5 & H6 & H7 & H8). cbn [p_modify].
  unfold ring_doorbell_bf. rewrite H8. eexists. split; [done|]. split_and!; try done.
  cbn [table pi]. rewrite H7. apply list_lookup_insert_eq.
  destruct Hok as (A1 & A2 & A3 & A4 & A5 & A6 & A7).
  rewrite slot_mod by done.
  pose proof (Z.mod_pos_bound (pi q) (wqe_cnt q) ltac:(apply wqe_cnt_pos; done)). lia.
Qed.

(** ** Executions *)

Definition refused (i : nat) (log : list nat) : Z := Z.of_nat (length (filter (eq i) log)).

(** The operations of a context, with endpoints as [create_endpoint] makes them, and
    the posts; [log] names the endpoints of posts that were refused. *)
Inductive raw_step : Context Slab U * list nat -> Context Slab U * list nat -> Prop :=
| raw_ctx c c' log :
    ctx_step c c' -> length (heap c') = length (heap c) -> raw_step (c, log) (c', log)
| raw_create config sq n sa sk rcva rcvk c log :
    n <> RAW_RDMA_SENTINEL_QPN -> raw_count (default [] (table <$> sq)) = 0 ->
    raw_step (c, log) ((create_endpoint (endpoint_new config sq n sa sk rcva rcvk) c).2, log)
| raw_connect ref remote b c e e' r log :
    deref c ref = Some e -> connect_ex remote b e = Some (e', r) ->
    raw_step (c, log) (store c ref e', log)
| raw_post read ref ra rk la lk n c e c' r log :
    deref c ref = Some e -> raw_rdma_posted e + 1 < 2 ^ 32 ->
    ctx_post read ref ra rk la lk n c = Some (c', r) ->
    raw_step (c, log) (c', match r with Ok _ => log | Err _ => Z.to_nat ref :: log end).

Definition covers (s : Context Slab U * list nat) : Prop :=
  Forall (fun i => (i < length (heap s.1))%nat) s.2 /\
  forall i e, heap s.1 !! i = Some e -> raw_inv (refused i s.2) e.

Lemma kept_covers c c' log : kept c c' -> covers (c, log) -> covers (c', log).
Proof.
  intros Hk [H1 H2]. unfold kept in Hk. cbn in *. split; cbn.
  - by rewrite <-(Forall2_length _ _ _ Hk).
  - intros i e' He'. destruct (Forall2_lookup_r _ _ _ _ _ Hk He') as (e & He & Hee).
    apply Hee; [unfold refused; lia|auto].
Qed.

Lemma raw_step_covers s s' : raw_step s s' -> covers s -> covers s'.
Proof.
  destruct 1 as [c c' log Hs Hl|config sq n sa sk rcva rcvk c log Hn Hc|ref remote b c e e' r log He Hr
    |read ref ra rk la lk n c e c' r log He Hb Hr].
  - apply kept_covers. by apply ctx_step_kept.
  - intros [H1 H2]. cbn in *. split; cbn.
    + eapply Forall_impl; [exact H1|]. intros i Hi. cbn in Hi. rewrite length_app. cbn. lia.
    + intros i e He. apply lookup_app_Some in He as [He|[Hi He]]; [by apply H2|].
      apply list_lookup_singleton_Some in He as [Hi0 <-].
      assert (refused i log = 0) as ->.
      { unfold refused. replace (filter (eq i) log) with (@nil nat); [done|]. symmetry.
        clear -H1 Hi. cbn in H1. induction H1 as [|j log Hj H1 IH]; [done|]. rewrite filter_cons_False; [done|lia]. }
      unfold raw_inv, transfers. cbn -[raw_count]. split_and!; try done; try lia.
      destruct sq; cbn -[raw_count] in *; lia.
  - apply kept_covers. eapply store_kept; [done|]. by eapply connect_ex_keeps.
  - intros [H1 H2]. unfold ctx_post in Hr. rewrite He in Hr.
    destruct (post_rdma_spec read ra rk la lk n e) as (e' & r' & Hp & P1 & P2 & P3 & P4).
    replace ((if read then post_rdma_read else post_rdma_write) ra rk la lk n e)
      with (Some (e', r')) in Hr by (by destruct read). injection Hr as <- <-.
    unfold deref in He. pose proof (H2 _ _ He) as (I1 & I2 & I3). cbn [fst snd] in *.
    pose proof (transfers_nonneg e).
    assert (0 <= refused (Z.to_nat ref) log) by (unfold refused; lia).
    rewrite u32_small in P3 by lia. pose proof (lookup_lt_Some _ _ _ He) as Hlt.
    split; cbn [fst snd heap store set_heap].
    + rewrite length_insert. destruct r'; [done|]. by constructor.
    + intros i x Hx. destruct (decide (i = Z.to_nat ref)) as [->|Hne].
      * rewrite list_lookup_insert_eq in Hx by done. injection Hx as <-.
        unfold raw_inv. rewrite P1, P2, P3. split_and!; try done; cbn in I3; try lia.
        destruct r'; [lia|]. unfold refused in *. rewrite filter_cons_True by done. cbn. lia.
      * rewrite list_lookup_insert_ne in Hx by done. specialize (H2 i x Hx).
        destruct r'; [done|]. unfold refused in *. by rewrite filter_cons_False.
Qed.

Lemma raw_steps_cover s s' : rtc raw_step s s' -> covers s -> covers s'.
Proof. induction 1; eauto using raw_step_covers. Qed.

(** The completion of a transfer takes it out of the queue and of the count. *)
Lemma completion_counts c ref e q k d r :
  raw_inv r e -> 0 <= r -> deref c ref = Some e -> qp e = Some q ->
  FastMap.get (endpoints c) (qp_num k) = Some ref -> is_error k = false ->
  table q !! Z.to_nat (slot q (wqe_counter k)) = Some (Some (RAW_RDMA_SENTINEL_QPN, d)) ->
  exists c' e', on_send_cqe c k = Some c' /\ deref c' ref = Some e' /\
    transfers e' = transfers e - 1 /\ raw_rdma_pending e' = raw_rdma_pending e - 1.
Proof.
  intros (_ & I1 & I2) Hr He Hq Hg Hk Ht. unfold on_send_cqe. rewrite Hg, He, Hq.
  unfold process_completion, table_take. rewrite Ht. cbv beta iota zeta delta [id from_option].
  rewrite Hk, Z.eqb_refl. cbn [negb andb]. eexists _, _. split; [done|]. split.
  { apply list_lookup_insert_eq. by eapply lookup_lt_Some. }
  pose proof (raw_count_insert _ _ _ None Ht) as Hc. cbn [raw_entry] in Hc. rewrite Z.eqb_refl in Hc.
  unfold raw_rdma_pending, transfers in *. rewrite Hq in *. cbn -[raw_count].
  pose proof (raw_count_nonneg (<[Z.to_nat (slot q (wqe_counter k)) := None]> (table q))).
  split; [lia|]. rewrite (u32_small (raw_rdma_done e + 1)), !u32_small by lia. lia.
Qed.

(** C12: The count of one-sided operations covers what is in the queue.  Over
    endpoints as a context creates them, through any sequence of calls, replies,
    polls, flushes, connections and one-sided posts, successful or not, with any
    completions, [raw_rdma_pending] of an endpoint is at least the number of
    transfers posted to its send queue and not completed, plus the number of its
    posts that were refused.  So an endpoint with nothing pending has no transfer in
    flight, and an endpoint of which one post was refused never has nothing pending
    again.  The completion of a transfer lowers both numbers by one. *)
Theorem raw_pending_covers max_wr c log ref e :
  rtc raw_step (build max_wr, []) (c, log) -> deref c ref = Some e ->
  transfers e + refused (Z.to_nat ref) log <= raw_rdma_pending e /\
  forall q k d, qp e = Some q -> FastMap.get (endpoints c) (qp_num k) = Some ref ->
    is_error k = false ->
    table q !! Z.to_nat (slot q (wqe_counter k)) = Some (Some (RAW_RDMA_SENTINEL_QPN, d)) ->
    exists c' e', on_send_cqe c k = Some c' /\ deref c' ref = Some e' /\
      transfers e' = transfers e - 1 /\ raw_rdma_pending e' = raw_rdma_pending e - 1.
Proof.
  intros Hr He. apply raw_steps_cover in Hr as [_ H].
  2:{ split; [constructor|]. intros i x Hx. done. }
  assert (raw_inv (refused (Z.to_nat ref) log) e) as Hi by (by apply H).
  assert (0 <= refused (Z.to_nat ref) log) as H0 by (unfold refused; lia).
  split; [by apply raw_inv_pending|]. intros q k d. by apply (completion_counts c ref e q k d _ Hi H0).
Qed.

End Raw.

(** A queue of one block, a transfer and a second one that is refused: after the
    completion of the first, one is pending still. *)
Definition demo_new : Context ListSlab Z :=
  (create_endpoint (endpoint_new (mkConfig 64 64 16) (Some (sq_new 1)) 5 0 0 0 0) (build 4)).2.
Definition demo_posted : Context ListSlab Z :=
  default demo_new (fst <$> ctx_post true 0 100 1 200 2 8 demo_new).
Definition demo_refused : Context ListSlab Z :=
  default demo_new (fst <$> ctx_post false 0 300 1 400 2 8 demo_posted).
Definition demo_completed : Context ListSlab Z :=
  default demo_new (flush_endpoints 1 [mkCqe Completed 5 0 0] demo_refused).

Lemma demo_run : rtc raw_step (build 4, []) (demo_completed, [0%nat]).
Proof.
  apply (rtc_l _ _ (demo_new, [])).
  { by apply (raw_create (mkConfig 64 64 16) (Some (sq_new 1)) 5 0 0 0 0). }
  apply (rtc_l _ _ (demo_posted, [])).
  { by eapply (raw_post true 0 100 1 200 2 8 demo_new _ demo_posted (Ok tt)). }
  apply (rtc_l _ _ (demo_refused, [0%nat])).
  { by eapply (raw_post false 0 300 1 400 2 8 demo_posted _ demo_refused (Err (Submission SqFull))). }
  apply rtc_once, raw_ctx; [|reflexivity].
  apply (ctx_step_flush 1 [mkCqe Completed 5 0 0]). vm_compute. reflexivity.
Qed.

Lemma raw_pending_covers_witness :
  exists e, deref demo_completed 0 = Some e /\
    transfers e = 0 /\ raw_rdma_pending e = 1 /\ transfers e + refused 0 [0%nat] <= raw_rdma_pending e.
Proof.
  destruct (deref demo_completed 0) as [e|] eqn:He; [|vm_compute in He; congruence].
  pose proof (raw_pending_covers 4 demo_completed [0%nat] 0 e demo_run He) as [H _].
  exists e. vm_compute in He. injection He as <-.
  split; [reflexivity|]. split; [reflexivity|]. split; [reflexivity|exact H].
Defined.

End RcRaw.
