(* ===== verification/Protocol.v ===== *)
(** * Protocol: the ScaleRPC wire format of [scalerpc/src/protocol.rs]

    Packed headers as byte layouts, the constructors and accessors of response
    headers, the right-aligned message trailer with its publication order, and
    the request slot a client fills and the server polls. *)

From S2P Require Import Prelude.

Module Protocol.

Definition REQUEST_MAGIC : Z := 3735928559.
Definition RESPONSE_MAGIC : Z := 3203391149.
Definition MESSAGE_VALID : Z := 1.
Definition MESSAGE_INVALID : Z := 0.
Definition MESSAGE_BLOCK_SIZE : Z := 4080.
Definition MESSAGE_TRAILER_SIZE : Z := 8.
Definition MESSAGE_MAX_DATA_SIZE : Z := MESSAGE_BLOCK_SIZE - MESSAGE_TRAILER_SIZE.

(** ** Packed structures

    A [repr(C, packed)] structure is the little-endian bytes of its fields, one
    after the other. *)

Fixpoint encode_fields (ws : list nat) (vs : list Z) : list Z :=
  match ws, vs with
  | w :: ws, v :: vs => le_bytes w v ++ encode_fields ws vs
  | _, _ => []
  end.

Fixpoint decode_fields (ws : list nat) (buf : list Z) (off : nat) : list Z :=
  match ws with
  | [] => []
  | w :: ws => le_value (read_bytes buf off w) :: decode_fields ws buf (off + w)
  end.

(** [size_of] of a packed structure. *)
Fixpoint size_of (ws : list nat) : nat :=
  match ws with
  | [] => 0%nat
  | w :: ws => (w + size_of ws)%nat
  end.

(** ** Request header *)

Record RequestHeader : Type := mkRequestHeader {
  rq_magic : Z;
  rq_req_id : Z;
  rq_rpc_type : Z;
  rq_payload_len : Z;
  rq_client_slot_addr : Z;
  rq_client_slot_rkey : Z;
  rq_sender_conn_id : Z;
  rq_slot_seq : Z;
}.

Definition request_widths : list nat := [4; 8; 2; 2; 8; 4; 4; 8]%nat.
Definition request_fields (h : RequestHeader) : list Z :=
  [rq_magic h; rq_req_id h; rq_rpc_type h; rq_payload_len h; rq_client_slot_addr h;
   rq_client_slot_rkey h; rq_sender_conn_id h; rq_slot_seq h].
Definition REQUEST_HEADER_SIZE : Z := Z.of_nat (size_of request_widths).

Definition request_new (req_id rpc_type payload_len addr rkey conn_id : Z) : RequestHeader :=
  mkRequestHeader REQUEST_MAGIC req_id rpc_type payload_len addr rkey conn_id 0.

Definition request_new_with_seq (req_id rpc_type payload_len addr rkey conn_id slot_seq : Z)
    : RequestHeader :=
  mkRequestHeader REQUEST_MAGIC req_id rpc_type payload_len addr rkey conn_id slot_seq.

Definition request_is_valid (h : RequestHeader) : bool := rq_magic h =? REQUEST_MAGIC.

Definition request_write_to (h : RequestHeader) (buf : list Z) (off : nat) : list Z :=
  write_bytes buf off (encode_fields request_widths (request_fields h)).

Definition request_read_from (buf : list Z) (off : nat) : RequestHeader :=
  match decode_fields request_widths buf off with
  | [a; b; c; d; e; f; g; h] => mkRequestHeader a b c d e f g h
  | _ => mkRequestHeader 0 0 0 0 0 0 0 0
  end.

(** ** Response header *)

Definition FLAG_CONTEXT_SWITCH : Z := 1.
Definition FLAG_PROCESSING_POOL_INFO : Z := 2.
Definition FLAG_CREDIT_ACK : Z := 4.

Record ResponseHeader : Type := mkResponseHeader {
  rs_magic : Z;
  rs_req_id : Z;
  rs_status : Z;
  rs_payload_len : Z;
  rs_flags : Z;
  rs_context_switch_seq : Z;
  rs_processing_pool_addr : Z;
  rs_processing_pool_rkey : Z;
  rs_padding : Z;
  rs_acked_slot_seq : Z;
}.

Definition response_widths : list nat := [4; 8; 4; 4; 4; 8; 8; 4; 4; 8]%nat.
Definition response_fields (h : ResponseHeader) : list Z :=
  [rs_magic h; rs_req_id h; rs_status h; rs_payload_len h; rs_flags h;
   rs_context_switch_seq h; rs_processing_pool_addr h; rs_processing_pool_rkey h;
   rs_padding h; rs_acked_slot_seq h].

Definition response_new (req_id status payload_len : Z) : ResponseHeader :=
  mkResponseHeader RESPONSE_MAGIC req_id status payload_len 0 0 0 0 0 0.

Definition with_credit_ack (req_id status payload_len acked_seq : Z) : ResponseHeader :=
  mkResponseHeader RESPONSE_MAGIC req_id status payload_len FLAG_CREDIT_ACK 0 0 0 0 acked_seq.

(** [((fetched_seq as u64) << 32) | (scheduler_seq as u32 as u64)] *)
Definition pack_seq (scheduler_seq fetched_seq : Z) : Z :=
  Z.lor (Z.shiftl fetched_seq 32) (u32 scheduler_seq).

Definition with_context_switch (req_id status payload_len scheduler_seq fetched_seq : Z)
    : ResponseHeader :=
  mkResponseHeader RESPONSE_MAGIC req_id status payload_len FLAG_CONTEXT_SWITCH
    (pack_seq scheduler_seq fetched_seq) 0 0 0 0.

Definition with_processing_pool_info
    (req_id status payload_len scheduler_seq fetched_seq pool_addr pool_rkey : Z)
    : ResponseHeader :=
  mkResponseHeader RESPONSE_MAGIC req_id status payload_len
    (Z.lor FLAG_CONTEXT_SWITCH FLAG_PROCESSING_POOL_INFO)
    (pack_seq scheduler_seq fetched_seq) pool_addr pool_rkey 0 0.

Definition with_context_switch_and_credit_ack
    (req_id status payload_len scheduler_seq fetched_seq acked_seq : Z) : ResponseHeader :=
  mkResponseHeader RESPONSE_MAGIC req_id status payload_len
    (Z.lor FLAG_CONTEXT_SWITCH FLAG_CREDIT_ACK)
    (pack_seq scheduler_seq fetched_seq) 0 0 0 acked_seq.

Definition with_processing_pool_info_and_credit_ack
    (req_id status payload_len scheduler_seq fetched_seq pool_addr pool_rkey acked_seq : Z)
    : ResponseHeader :=
  mkResponseHeader RESPONSE_MAGIC req_id status payload_len
    (Z.lor (Z.lor FLAG_CONTEXT_SWITCH FLAG_PROCESSING_POOL_INFO) FLAG_CREDIT_ACK)
    (pack_seq scheduler_seq fetched_seq) pool_addr pool_rkey 0 acked_seq.

Definition response_success (req_id payload_len : Z) : ResponseHeader :=
  response_new req_id 0 payload_len.
Definition response_error (req_id status : Z) : ResponseHeader := response_new req_id status 0.

Definition response_is_valid (h : ResponseHeader) : bool := rs_magic h =? RESPONSE_MAGIC.
Definition response_is_success (h : ResponseHeader) : bool := rs_status h =? 0.
Definition has_flag (h : ResponseHeader) (flag : Z) : bool := negb (Z.land (rs_flags h) flag =? 0).
Definition has_context_switch (h : ResponseHeader) : bool := has_flag h FLAG_CONTEXT_SWITCH.
Definition has_processing_pool_info (h : ResponseHeader) : bool :=
  has_flag h FLAG_PROCESSING_POOL_INFO.
Definition has_credit_ack (h : ResponseHeader) : bool := has_flag h FLAG_CREDIT_ACK.
Definition get_acked_slot_seq (h : ResponseHeader) : Z := rs_acked_slot_seq h.
Definition get_context_switch_seq (h : ResponseHeader) : Z :=
  Z.land (rs_context_switch_seq h) U32_MAX.
Definition get_fetched_seq (h : ResponseHeader) : Z :=
  u32 (Z.shiftr (rs_context_switch_seq h) 32).
Definition get_processing_pool_addr (h : ResponseHeader) : option Z :=
  if has_processing_pool_info h then Some (rs_processing_pool_addr h) else None.
Definition get_processing_pool_rkey (h : ResponseHeader) : option Z :=
  if has_processing_pool_info h then Some (rs_processing_pool_rkey h) else None.

Definition response_write_to (h : ResponseHeader) (buf : list Z) (off : nat) : list Z :=
  write_bytes buf off (encode_fields response_widths (response_fields h)).

Definition response_read_from (buf : list Z) (off : nat) : ResponseHeader :=
  match decode_fields response_widths buf off with
  | [a; b; c; d; e; f; g; h; i; j] => mkResponseHeader a b c d e f g h i j
  | _ => mkResponseHeader 0 0 0 0 0 0 0 0 0 0
  end.

(** ** Endpoint entry and context switch event *)

Record EndpointEntry : Type := mkEndpointEntry {
  req_addr : Z;
  batch_size : Z;
  seq : Z;
}.

Definition entry_widths : list nat := [8; 4; 4]%nat.
Definition entry_write_to (x : EndpointEntry) (buf : list Z) (off : nat) : list Z :=
  write_bytes buf off (encode_fields entry_widths [req_addr x; batch_size x; seq x]).
Definition entry_read_from (buf : list Z) (off : nat) : EndpointEntry :=
  match decode_fields entry_widths buf off with
  | [a; b; c] => mkEndpointEntry a b c
  | _ => mkEndpointEntry 0 0 0
  end.

Record ContextSwitchEvent : Type := mkEvent {
  ev_magic : Z;
  ev_fetched_seq : Z;
  ev_sequence : Z;
}.

Definition EVENT_MAGIC : Z := 3320301031.
Definition event_new (sequence fetched_seq : Z) : ContextSwitchEvent :=
  mkEvent EVENT_MAGIC fetched_seq sequence.
Definition event_is_valid (x : ContextSwitchEvent) : bool := ev_magic x =? EVENT_MAGIC.
Definition event_widths : list nat := [4; 4; 8]%nat.
Definition event_write_to (x : ContextSwitchEvent) (buf : list Z) (off : nat) : list Z :=
  write_bytes buf off
    (encode_fields event_widths [ev_magic x; ev_fetched_seq x; ev_sequence x]).
Definition event_read_from (buf : list Z) (off : nat) : ContextSwitchEvent :=
  match decode_fields event_widths buf off with
  | [a; b; c] => mkEvent a b c
  | _ => mkEvent 0 0 0
  end.

(** ** Message trailer

    [write_to] is two volatile stores with a release fence between them; the
    stores in order, so that a reader can run between them. *)

Definition trailer_offset : nat := Z.to_nat (MESSAGE_BLOCK_SIZE - MESSAGE_TRAILER_SIZE).

Definition trailer_stores (off : nat) (msg_len : Z) : list (nat * list Z) :=
  [((off + trailer_offset)%nat, le_bytes 4 msg_len);
   ((off + trailer_offset + 4)%nat, le_bytes 4 MESSAGE_VALID)].

Definition run_stores (buf : list Z) (ss : list (nat * list Z)) : list Z :=
  foldl (fun b s => write_bytes b s.1 s.2) buf ss.

Definition trailer_write_to (buf : list Z) (off : nat) (msg_len : Z) : list Z :=
  run_stores buf (trailer_stores off msg_len).

Definition trailer_read_from (buf : list Z) (off : nat) : Z * Z :=
  let valid := le_value (read_bytes buf (off + trailer_offset + 4) 4) in
  let msg_len := le_value (read_bytes buf (off + trailer_offset) 4) in
  (msg_len, valid).

(** ** Request slots *)

(** [WarmupBuffer] of the client: blocks of [MESSAGE_BLOCK_SIZE] bytes, the first
    [request_count] of them filled.  The field [write_offset] is only ever set
    to zero and never read, and the memory region is a handle of the verbs
    library. *)
Record WarmupBuffer : Type := mkWarmup {
  wb_buffer : list Z;
  wb_request_count : Z;
}.

Inductive WarmupError : Type := NoFreeSlots.

(** [WarmupBuffer::new] when the allocation and the registration succeed. *)
Definition warmup_new (num_slots : Z) : WarmupBuffer :=
  mkWarmup (replicate (Z.to_nat (num_slots * MESSAGE_BLOCK_SIZE)) 0) 0.

Definition warmup_capacity (w : WarmupBuffer) : Z :=
  Z.of_nat (length (wb_buffer w)) / MESSAGE_BLOCK_SIZE.

Definition block_offset (i : Z) : nat := Z.to_nat (i * MESSAGE_BLOCK_SIZE).

(** [WarmupBuffer::write_request]; [None] when the payload is copied past the
    end of the allocated buffer. *)
Definition write_request (w : WarmupBuffer) (header : RequestHeader) (payload : list Z)
    : option (WarmupBuffer * result Z WarmupError) :=
  if warmup_capacity w <=? wb_request_count w then Some (w, Err NoFreeSlots)
  else
    let slot_index := wb_request_count w in
    let off := block_offset slot_index in
    let plen := Z.of_nat (length payload) in
    if Z.of_nat (length (wb_buffer w)) <? Z.of_nat off + REQUEST_HEADER_SIZE + plen then None
    else
      let buf := request_write_to header (wb_buffer w) off in
      let buf := write_bytes buf (off + Z.to_nat REQUEST_HEADER_SIZE) payload in
      let msg_len := u32 (REQUEST_HEADER_SIZE + plen) in
      let buf := trailer_write_to buf off msg_len in
      Some (mkWarmup buf (wb_request_count w + 1), Ok slot_index).

(** [WarmupBuffer::clear]: every valid flag zeroed. *)
Fixpoint clear_flags (buf : list Z) (n : nat) : list Z :=
  match n with
  | O => buf
  | S i => write_bytes (clear_flags buf i) (block_offset (Z.of_nat i) + trailer_offset + 4)
             (le_bytes 4 0)
  end.

Definition warmup_clear (w : WarmupBuffer) : WarmupBuffer :=
  mkWarmup (clear_flags (wb_buffer w) (Z.to_nat (warmup_capacity w))) 0.

Record IncomingRequest : Type := mkIncoming {
  in_req_id : Z;
  in_rpc_type : Z;
  in_payload : list Z;
  in_client_slot_addr : Z;
  in_client_slot_rkey : Z;
  in_conn_id : Z;
  in_slot_index : Z;
  in_slot_seq : Z;
}.

(** [check_slot_for_request] on the block of slot [slot_index], which lies at
    [off]: the request, if any, and the memory with its valid flag cleared. *)
Definition check_slot_for_request (buf : list Z) (off : nat) (slot_index : Z)
    : option IncomingRequest * list Z :=
  let '(msg_len, valid) := trailer_read_from buf off in
  if (valid =? 0) || (msg_len =? 0) then (None, buf)
  else
    let header := request_read_from buf off in
    let payload_len := rq_payload_len header in
    let payload := read_bytes buf (off + Z.to_nat REQUEST_HEADER_SIZE) (Z.to_nat payload_len) in
    let buf := write_bytes buf (off + Z.to_nat (MESSAGE_BLOCK_SIZE - 4)) (le_bytes 4 0) in
    (Some (mkIncoming (rq_req_id header) (rq_rpc_type header) payload
             (rq_client_slot_addr header) (rq_client_slot_rkey header)
             (rq_sender_conn_id header) slot_index (rq_slot_seq header)), buf).

(** ** Lemmas *)

Definition fits (w : nat) (v : Z) : Prop := is_uint (8 * Z.of_nat w) v.

Lemma length_encode_fields ws vs :
  length ws = length vs -> length (encode_fields ws vs) = size_of ws.
Proof.
  revert vs. induction ws as [|w ws IH]; intros [|v vs] H; try done.
  cbn [encode_fields]. rewrite length_app, length_le_bytes, IH by (cbn in H; lia). done.
Qed.

Lemma decode_fields_ext ws buf1 off1 buf2 off2 :
  read_bytes buf1 off1 (size_of ws) = read_bytes buf2 off2 (size_of ws) ->
  decode_fields ws buf1 off1 = decode_fields ws buf2 off2.
Proof.
  revert off1 off2. induction ws as [|w ws IH]; intros off1 off2 H; [done|].
  cbn [size_of] in H. cbn [decode_fields]. f_equal.
  - f_equal. rewrite <-(Nat.add_0_r off1), <-(Nat.add_0_r off2).
    rewrite <-!(read_bytes_read _ _ (w + size_of ws)) by lia. by rewrite H.
  - apply IH. rewrite <-!(read_bytes_read _ _ (w + size_of ws)) by lia. by rewrite H.
Qed.

Lemma decode_encode_fields ws vs rest :
  Forall2 fits ws vs -> decode_fields ws (encode_fields ws vs ++ rest) 0 = vs.
Proof.
  intros H. revert rest. induction H as [|w v ws vs Hv Hrest IH]; intros rest; [done|].
  cbn [decode_fields encode_fields]. rewrite <-app_assoc. f_equal.
  - rewrite read_bytes_app_l by (rewrite length_le_bytes; lia).
    rewrite <-(length_le_bytes w v) at 2. rewrite read_bytes_all, le_value_le_bytes.
    by apply Z.mod_small.
  - etrans; [|apply (IH rest)]. apply decode_fields_ext.
    rewrite read_bytes_app_r by (rewrite length_le_bytes; lia).
    rewrite length_le_bytes. f_equal. lia.
Qed.

(** A structure written at [off] is read back, and nothing else changes. *)
Lemma fields_roundtrip ws vs buf off :
  Forall2 fits ws vs -> (off + size_of ws <= length buf)%nat ->
  decode_fields ws (write_bytes buf off (encode_fields ws vs)) off = vs.
Proof.
  intros H Hl. pose proof (length_encode_fields ws vs (Forall2_length _ _ _ H)) as Hlen.
  rewrite <-(decode_encode_fields ws vs [] H) at 2. apply decode_fields_ext.
  rewrite app_nil_r, <-Hlen, read_write_same, read_bytes_all by lia. done.
Qed.

Lemma decode_fields_out ws buf off data off' :
  (off + length data <= length buf)%nat ->
  (off' + size_of ws <= off \/ off + length data <= off')%nat ->
  decode_fields ws (write_bytes buf off data) off' = decode_fields ws buf off'.
Proof. intros H Hd. apply decode_fields_ext. by apply read_write_out. Qed.

Definition request_ok (h : RequestHeader) : Prop :=
  Forall2 fits request_widths (request_fields h).

Definition response_ok (h : ResponseHeader) : Prop :=
  Forall2 fits response_widths (response_fields h).

Lemma request_read_write h buf off :
  request_ok h -> (off + 40 <= length buf)%nat ->
  request_read_from (request_write_to h buf off) off = h.
Proof.
  intros H Hl. unfold request_read_from, request_write_to.
  rewrite fields_roundtrip by done. by destruct h.
Qed.

Lemma response_read_write h buf off :
  response_ok h -> (off + 56 <= length buf)%nat ->
  response_read_from (response_write_to h buf off) off = h.
Proof.
  intros H Hl. unfold response_read_from, response_write_to.
  rewrite fields_roundtrip by done. by destruct h.
Qed.

Lemma pack_seq_value s f : 0 <= f < 2 ^ 32 -> pack_seq s f = f * 2 ^ 32 + u32 s.
Proof. intros Hf. apply lor_shiftl; [lia|apply u32_range]. Qed.

Lemma unpack_seq s f :
  0 <= f < 2 ^ 32 ->
  Z.land (pack_seq s f) U32_MAX = u32 s /\ u32 (Z.shiftr (pack_seq s f) 32) = f /\
  0 <= pack_seq s f < 2 ^ 64.
Proof.
  intros Hf. pose proof (u32_range s). rewrite pack_seq_value by done.
  change U32_MAX with (2 ^ 32 - 1). rewrite land_mask by lia. split_and!.
  - rewrite Z.add_comm, Z.mod_add by lia. by apply Z.mod_small.
  - rewrite Z.shiftr_div_pow2, Z.div_add_l, Z.div_small, Z.add_0_r by lia. by apply u32_small.
  - lia.
  - lia.
Qed.

Lemma trailer_offset_val : trailer_offset = 4072%nat.
Proof. reflexivity. Qed.

Lemma trailer_read_ext buf1 off1 buf2 off2 :
  read_bytes buf1 off1 4080 = read_bytes buf2 off2 4080 ->
  trailer_read_from buf1 off1 = trailer_read_from buf2 off2.
Proof.
  intros H. unfold trailer_read_from. rewrite trailer_offset_val, <-!Nat.add_assoc.
  rewrite <-!(read_bytes_read buf1 off1 4080), <-!(read_bytes_read buf2 off2 4080) by lia.
  by rewrite H.
Qed.

Lemma request_read_ext buf1 off1 buf2 off2 :
  read_bytes buf1 off1 40 = read_bytes buf2 off2 40 ->
  request_read_from buf1 off1 = request_read_from buf2 off2.
Proof.
  intros H. unfold request_read_from. by rewrite (decode_fields_ext _ buf1 off1 buf2 off2).
Qed.

(** A prefix of equal blocks is equal. *)
Lemma read_prefix buf1 off1 buf2 off2 k n m :
  (k + n <= m)%nat -> read_bytes buf1 off1 m = read_bytes buf2 off2 m ->
  read_bytes buf1 (off1 + k) n = read_bytes buf2 (off2 + k) n.
Proof. intros Hk H. rewrite <-!(read_bytes_read _ _ m) by done. by rewrite H. Qed.

(** After both stores the trailer reads back; the data before it is untouched. *)
Lemma trailer_read_write buf off len :
  (off + 4080 <= length buf)%nat -> is_uint 32 len ->
  trailer_read_from (trailer_write_to buf off len) off = (len, 1).
Proof.
  intros H Hl. unfold trailer_read_from, trailer_write_to, run_stores, trailer_stores.
  cbn [foldl fst snd]. rewrite trailer_offset_val.
  pose proof (length_le_bytes 4 len) as L1. pose proof (length_le_bytes 4 MESSAGE_VALID) as L2.
  f_equal.
  - rewrite read_write_out by (rewrite ?length_write_bytes; lia).
    rewrite read_write_n by (done || lia). rewrite le_value_u32. by apply u32_small.
  - by rewrite read_write_n by (rewrite ?length_write_bytes; done || lia).
Qed.

Lemma read_before_trailer buf off len k n :
  (off + 4080 <= length buf)%nat -> (k + n <= 4072)%nat ->
  read_bytes (trailer_write_to buf off len) (off + k) n = read_bytes buf (off + k) n.
Proof.
  intros H Hk. unfold trailer_write_to, run_stores, trailer_stores. cbn [foldl fst snd].
  rewrite trailer_offset_val.
  pose proof (length_le_bytes 4 len). pose proof (length_le_bytes 4 MESSAGE_VALID).
  rewrite read_write_out by (rewrite ?length_write_bytes; lia).
  by rewrite read_write_out by lia.
Qed.

Lemma length_request_write h buf off :
  (off + 40 <= length buf)%nat -> length (request_write_to h buf off) = length buf.
Proof. intros H. apply length_write_bytes. lia. Qed.

Lemma length_trailer_write buf off len :
  (off + 4080 <= length buf)%nat -> length (trailer_write_to buf off len) = length buf.
Proof.
  intros H. unfold trailer_write_to, run_stores, trailer_stores. cbn [foldl fst snd].
  rewrite trailer_offset_val. rewrite !length_write_bytes; rewrite ?length_write_bytes; lia.
Qed.

(** The block [write_request] fills. *)
Definition filled_block (h : RequestHeader) (payload buf : list Z) (off : nat) : list Z :=
  trailer_write_to (write_bytes (request_write_to h buf off) (off + 40) payload) off
    (u32 (40 + Z.of_nat (length payload))).

Lemma filled_block_spec h payload buf off :
  request_ok h -> (off + 4080 <= length buf)%nat -> (length payload <= 4032)%nat ->
  let b := filled_block h payload buf off in
  request_read_from b off = h /\ read_bytes b (off + 40) (length payload) = payload /\
  trailer_read_from b off = (40 + Z.of_nat (length payload), 1) /\ length b = length buf.
Proof.
  intros Hh Hl Hp b. subst b. unfold filled_block.
  pose proof (length_request_write h buf off ltac:(lia)) as L1.
  set (b1 := request_write_to h buf off) in *.
  assert (length (write_bytes b1 (off + 40) payload) = length buf) as L2
    by (rewrite length_write_bytes; lia).
  split_and!.
  - etrans; [|apply (request_read_write h buf off Hh); lia].
    apply request_read_ext. pose proof (read_before_trailer (write_bytes b1 (off + 40) payload)
      off (u32 (40 + Z.of_nat (length payload))) 0 40) as E.
    rewrite Nat.add_0_r in E. rewrite E by lia. fold b1. apply read_write_out; lia.
  - rewrite read_before_trailer by lia. apply read_write_same. lia.
  - rewrite u32_small by lia. apply trailer_read_write; [lia|unfold is_uint; lia].
  - rewrite length_trailer_write by lia. done.
Qed.

(** A block equal to a filled one is polled as that request. *)
Lemma check_filled mem off buf off' h payload i :
  request_ok h -> (off' + 4080 <= length buf)%nat -> (off + 4080 <= length mem)%nat ->
  (length payload <= 4032)%nat -> rq_payload_len h = Z.of_nat (length payload) ->
  read_bytes mem off 4080 = read_bytes (filled_block h payload buf off') off' 4080 ->
  check_slot_for_request mem off i =
    (Some (mkIncoming (rq_req_id h) (rq_rpc_type h) payload (rq_client_slot_addr h)
             (rq_client_slot_rkey h) (rq_sender_conn_id h) i (rq_slot_seq h)),
     write_bytes mem (off + 4076) (le_bytes 4 0)).
Proof.
  intros Hh Hl Hl' Hp Hpl Heq.
  destruct (filled_block_spec h payload buf off' Hh Hl Hp) as (F1 & F2 & F3 & F4).
  unfold check_slot_for_request. rewrite (trailer_read_ext _ _ _ _ Heq), F3.
  rewrite (proj2 (Z.eqb_neq _ _)) by lia. rewrite (proj2 (Z.eqb_neq _ _)) by lia.
  assert (request_read_from mem off = h) as ->.
  { rewrite <-F1. apply request_read_ext.
    pose proof (read_prefix _ _ _ _ 0 40 4080 ltac:(lia) Heq) as E.
    by rewrite !Nat.add_0_r in E. }
  rewrite Hpl, Nat2Z.id. change (Z.to_nat REQUEST_HEADER_SIZE) with 40%nat.
  rewrite (read_prefix _ _ _ _ 40 (length payload) 4080 ltac:(lia) Heq), F2. done.
Qed.

Lemma check_cleared mem off i :
  (off + 4080 <= length mem)%nat ->
  check_slot_for_request (write_bytes mem (off + 4076) (le_bytes 4 0)) off i =
    (None, write_bytes mem (off + 4076) (le_bytes 4 0)).
Proof.
  intros H. unfold check_slot_for_request, trailer_read_from. rewrite trailer_offset_val.
  rewrite <-Nat.add_assoc. change (4072 + 4)%nat with 4076%nat.
  by rewrite read_write_n by (done || lia).
Qed.

Lemma block_in_range w i :
  0 <= i < warmup_capacity w -> (block_offset i + 4080 <= length (wb_buffer w))%nat.
Proof.
  unfold warmup_capacity, block_offset, MESSAGE_BLOCK_SIZE. intros H.
  pose proof (Z.mul_div_le (Z.of_nat (length (wb_buffer w))) 4080). nia.
Qed.

(** Filling one block leaves the others alone. *)
Lemma filled_block_out h payload buf off off' :
  (off + 4080 <= length buf)%nat -> (length payload <= 4032)%nat ->
  (off' + 4080 <= off \/ off + 4080 <= off')%nat ->
  read_bytes (filled_block h payload buf off) off' 4080 = read_bytes buf off' 4080.
Proof.
  intros Hl Hp Hd. apply read_bytes_ext. intros k Hk. unfold filled_block, trailer_write_to,
    run_stores, trailer_stores. cbn [foldl fst snd]. rewrite trailer_offset_val.
  assert (length (encode_fields request_widths (request_fields h)) = 40%nat) as L1
    by (rewrite length_encode_fields; done).
  pose proof (length_le_bytes 4 MESSAGE_VALID) as L2.
  pose proof (length_le_bytes 4 (u32 (40 + Z.of_nat (length payload)))) as L3.
  unfold request_write_to.
  rewrite !lookup_write_bytes by (rewrite ?length_write_bytes; rewrite ?length_write_bytes;
    rewrite ?length_write_bytes; lia).
  by rewrite !decide_False by lia.
Qed.

(** ** Properties *)

(** Every kind of response header survives the wire: after it is written to
    and read from any buffer it is valid, its flags say exactly what its
    constructor was given, and the packed sequence numbers, the pool address and
    the acknowledgement come back (the scheduler sequence truncated to 32 bits). *)
Theorem response_wire_accessors buf off req status plen sched fetched addr rkey acked :
  is_uint 64 req -> is_uint 32 status -> is_uint 32 plen -> is_uint 32 fetched ->
  is_uint 64 addr -> is_uint 32 rkey -> is_uint 64 acked -> (off + 56 <= length buf)%nat ->
  let wire h := response_read_from (response_write_to h buf off) off in
  let seqs h := (get_context_switch_seq h, get_fetched_seq h) in
  let info h := (has_context_switch h, get_processing_pool_addr h, get_processing_pool_rkey h,
                 has_credit_ack h, get_acked_slot_seq h) in
  (let h := wire (with_processing_pool_info_and_credit_ack req status plen sched fetched
                    addr rkey acked) in
   response_is_valid h = true /\ seqs h = (u32 sched, fetched) /\
   info h = (true, Some addr, Some rkey, true, acked)) /\
  (let h := wire (with_processing_pool_info req status plen sched fetched addr rkey) in
   response_is_valid h = true /\ seqs h = (u32 sched, fetched) /\
   info h = (true, Some addr, Some rkey, false, 0)) /\
  (let h := wire (with_context_switch_and_credit_ack req status plen sched fetched acked) in
   response_is_valid h = true /\ seqs h = (u32 sched, fetched) /\
   info h = (true, None, None, true, acked)) /\
  (let h := wire (with_context_switch req status plen sched fetched) in
   response_is_valid h = true /\ seqs h = (u32 sched, fetched) /\
   info h = (true, None, None, false, 0)) /\
  (let h := wire (with_credit_ack req status plen acked) in
   response_is_valid h = true /\ info h = (false, None, None, true, acked)) /\
  (let h := wire (response_new req status plen) in
   response_is_valid h = true /\ info h = (false, None, None, false, 0) /\
   response_is_success h = (status =? 0) /\ rs_payload_len h = plen).
Proof.
  intros H1 H2 H3 H4 H5 H6 H7 Hl wire seqs info. unfold is_uint in *.
  destruct (unpack_seq sched fetched H4) as (U1 & U2 & U3).
  assert (forall h, response_ok h -> wire h = h) as Hw by (intros; by apply response_read_write).
  assert (forall f c a k s, 0 <= f < 8 -> is_uint 64 c -> is_uint 64 a -> is_uint 32 k ->
    is_uint 64 s -> response_ok (mkResponseHeader RESPONSE_MAGIC req status plen f c a k 0 s))
    as Hok.
  { intros f c a k s F1 F2 F3 F4 F5. unfold response_ok, response_fields, response_widths, fits,
      is_uint, RESPONSE_MAGIC in *. cbn [rs_magic rs_req_id rs_status rs_payload_len rs_flags
      rs_context_switch_seq rs_processing_pool_addr rs_processing_pool_rkey rs_padding
      rs_acked_slot_seq].
    change (8 * Z.of_nat 4) with 32. change (8 * Z.of_nat 8) with 64. repeat (apply Forall2_cons; split; [lia|]). constructor. }
  split_and!; (rewrite Hw by (apply Hok; unfold is_uint; first [lia|by vm_compute])); unfold seqs, info;
    unfold get_context_switch_seq, get_fetched_seq; cbn; rewrite ?U1, ?U2; done.
Qed.

Lemma response_wire_accessors_witness :
  let h := response_read_from (response_write_to
             (with_context_switch 7 0 16 (2 ^ 32 + 5) 9) (replicate 60 0) 2) 2 in
  get_context_switch_seq h = 5 /\ get_fetched_seq h = 9.
Proof.
  destruct (response_wire_accessors (replicate 60 0) 2 7 0 16 (2 ^ 32 + 5) 9 0 0 0)
    as (_ & _ & _ & (_ & H & _) & _); try (unfold is_uint; lia); [cbn; lia|].
  split; [exact (f_equal fst H)|exact (f_equal snd H)].
Defined.

(** The trailer is published in order: polling a cleared block between the
    stores of [write_to] never sees a valid message, and after the last store it
    sees the valid flag together with the final length. *)
Theorem trailer_publication buf off len (k : nat) :
  (off + 4080 <= length buf)%nat -> is_uint 32 len ->
  (trailer_read_from buf off).2 = MESSAGE_INVALID ->
  let mid := run_stores buf (take k (trailer_stores off len)) in
  if decide (k < 2)%nat then (trailer_read_from mid off).2 = MESSAGE_INVALID
  else trailer_read_from mid off = (len, MESSAGE_VALID).
Proof.
  intros H Hl Hz. destruct k as [|[|k]]; cbn zeta.
  - exact Hz.
  - rewrite decide_True by lia. unfold trailer_read_from in *.
    cbn [trailer_stores take run_stores foldl fst snd] in *. rewrite trailer_offset_val in *.
    pose proof (length_le_bytes 4 len). by rewrite read_write_out by lia.
  - rewrite decide_False by lia. replace (take (S (S k)) _) with (trailer_stores off len).
    + by apply trailer_read_write.
    + unfold trailer_stores. cbn. by rewrite take_nil.
Qed.

Lemma trailer_publication_witness :
  trailer_read_from (run_stores (replicate 4080 0) (trailer_stores 0 100)) 0 = (100, 1).
Proof.
  apply (trailer_publication (replicate 4080 0) 0 100 2);
    [rewrite length_replicate; lia|unfold is_uint; lia|vm_compute; reflexivity].
Defined.

(** A request the client writes to its warmup buffer, once its block has been
    copied to a slot of the server's pool, is polled by the server with every
    header field and the payload intact, exactly once (a second poll of the slot
    finds nothing); the other blocks of the warmup buffer are untouched and a
    full buffer is reported. *)
Theorem request_slot_roundtrip w h payload mem off i :
  request_ok h -> (length payload <= 4032)%nat -> rq_payload_len h = Z.of_nat (length payload) ->
  0 <= wb_request_count w ->
  match write_request w h payload with
  | None => False
  | Some (w', Err _) => w' = w /\ warmup_capacity w <= wb_request_count w
  | Some (w', Ok n) =>
      n = wb_request_count w /\ wb_request_count w' = n + 1 /\ n < warmup_capacity w /\
      (forall m, 0 <= m < warmup_capacity w -> m <> n ->
         read_bytes (wb_buffer w') (block_offset m) 4080 =
         read_bytes (wb_buffer w) (block_offset m) 4080) /\
      ((off + 4080 <= length mem)%nat ->
       read_bytes mem off 4080 = read_bytes (wb_buffer w') (block_offset n) 4080 ->
       let '(r, mem') := check_slot_for_request mem off i in
       r = Some (mkIncoming (rq_req_id h) (rq_rpc_type h) payload (rq_client_slot_addr h)
                   (rq_client_slot_rkey h) (rq_sender_conn_id h) i (rq_slot_seq h)) /\
       (check_slot_for_request mem' off i).1 = None)
  end.
Proof.
  intros Hh Hp Hpl Hc. unfold write_request.
  destruct (warmup_capacity w <=? wb_request_count w) eqn:E; guards; [done|].
  pose proof (block_in_range w (wb_request_count w) ltac:(lia)) as Hr.
  change REQUEST_HEADER_SIZE with 40. rewrite (proj2 (Z.ltb_ge _ _)) by lia.
  change (Z.to_nat 40) with 40%nat.
  fold (filled_block h payload (wb_buffer w) (block_offset (wb_request_count w))).
  cbn [wb_request_count wb_buffer]. split_and!; [done..| |].
  - intros m Hm Hne. apply filled_block_out; [lia|lia|].
    unfold block_offset, MESSAGE_BLOCK_SIZE. nia.
  - intros Hl Heq. rewrite (check_filled mem off _ _ h payload i Hh Hr Hl Hp Hpl Heq).
    split; [done|]. by rewrite check_cleared.
Qed.

Lemma request_slot_roundtrip_witness :
  let h := request_new 7 1 3 4096 5 2 in
  match write_request (warmup_new 1) h [1; 2; 3] with
  | Some (w', Ok n) => n = 0
  | _ => False
  end.
Proof.
  pose proof (request_slot_roundtrip (warmup_new 1) (request_new 7 1 3 4096 5 2) [1; 2; 3] [] 0 0)
    as H.
  cbn zeta. destruct (write_request (warmup_new 1) (request_new 7 1 3 4096 5 2) [1; 2; 3])
    as [[w' [n|e]]|].
  - apply H; [repeat constructor; vm_compute; discriminate|cbn; lia|reflexivity|vm_compute; discriminate].
  - destruct H as [_ H]; [repeat constructor; vm_compute; discriminate|cbn; lia|reflexivity|vm_compute; discriminate|].
    revert H. vm_compute. intros H. by apply H.
  - apply H; [repeat constructor; vm_compute; discriminate|cbn; lia|reflexivity|vm_compute; discriminate].
Defined.

End Protocol.
