(* ===== verification/Mapping.v ===== *)
(** * Mapping: the virtualized mapping of [scalerpc/src/mapping.rs]

    Connections and the message slots they own, in two vectors that must agree,
    with two counters. *)

From S2P Require Import Prelude.

Module Mapping.

Record MappingEntry : Type := mkEntry {
  conn_id : Z;
  slots : list Z;
  remote_slot_addr : Z;
  remote_slot_rkey : Z;
}.

Definition entry_new (c : Z) : MappingEntry := mkEntry c [] 0 0.
Definition set_remote (e : MappingEntry) (addr rkey : Z) : MappingEntry :=
  mkEntry (conn_id e) (slots e) addr rkey.
Definition add_slot (e : MappingEntry) (slot_index : Z) : MappingEntry :=
  mkEntry (conn_id e) (slots e ++ [slot_index]) (remote_slot_addr e) (remote_slot_rkey e).

(** Removes the first occurrence. *)
Fixpoint remove_first (x : Z) (l : list Z) : list Z :=
  match l with
  | [] => []
  | y :: l => if y =? x then l else y :: remove_first x l
  end.

Definition remove_slot (e : MappingEntry) (slot_index : Z) : bool * MappingEntry :=
  if bool_decide (slot_index ∈ slots e)
  then (true, mkEntry (conn_id e) (remove_first slot_index (slots e)) (remote_slot_addr e)
                (remote_slot_rkey e))
  else (false, e).

Record VirtualMapping : Type := mkMapping {
  entries : list (option MappingEntry);
  slot_to_conn : list (option Z);
  num_connections : Z;
  num_bound_slots : Z;
}.

Inductive Error : Type :=
| InvalidSlotIndex (slot_index : Z)
| ConnectionNotFound (c : Z).

Definition new : VirtualMapping := mkMapping [] [] 0 0.

(** [resize_with] to [n] entries when the vector is shorter. *)
Definition grow {A} (l : list (option A)) (n : nat) : list (option A) :=
  if (n <=? length l)%nat then l else l ++ replicate (n - length l) None.

(** [l.get(i).and_then(|x| x)] for an index known not to be negative. *)
Definition at_index {A} (l : list (option A)) (i : Z) : option A :=
  default None (l !! Z.to_nat i).

Definition register_connection (c : Z) (m : VirtualMapping) : VirtualMapping :=
  let es := grow (entries m) (S (Z.to_nat c)) in
  mkMapping (<[Z.to_nat c := Some (entry_new c)]> es) (slot_to_conn m)
    (num_connections m + 1) (num_bound_slots m).

(** The loop of [unregister_connection] over the slots of the entry. *)
Fixpoint release_slots (ss : list Z) (s2c : list (option Z)) (bound : Z)
    : list (option Z) * Z :=
  match ss with
  | [] => (s2c, bound)
  | s :: ss =>
      match at_index s2c s with
      | Some _ => release_slots ss (<[Z.to_nat s := None]> s2c) (bound - 1)
      | None => release_slots ss s2c bound
      end
  end.

Definition unregister_connection (c : Z) (m : VirtualMapping)
    : option MappingEntry * VirtualMapping :=
  match at_index (entries m) c with
  | None => (None, m)
  | Some entry =>
      let '(s2c, bound) := release_slots (slots entry) (slot_to_conn m) (num_bound_slots m) in
      (Some entry,
       mkMapping (<[Z.to_nat c := None]> (entries m)) s2c (num_connections m - 1) bound)
  end.

Definition get_connection (c : Z) (m : VirtualMapping) : option MappingEntry :=
  at_index (entries m) c.

Definition bind_slot (c slot_index : Z) (m : VirtualMapping)
    : VirtualMapping * result unit Error :=
  let s2c := grow (slot_to_conn m) (S (Z.to_nat slot_index)) in
  let m1 := mkMapping (entries m) s2c (num_connections m) (num_bound_slots m) in
  match at_index s2c slot_index with
  | Some _ => (m1, Err (InvalidSlotIndex slot_index))
  | None =>
      match at_index (entries m) c with
      | None => (m1, Err (ConnectionNotFound c))
      | Some entry =>
          (mkMapping (<[Z.to_nat c := Some (add_slot entry slot_index)]> (entries m))
             (<[Z.to_nat slot_index := Some c]> s2c) (num_connections m)
             (num_bound_slots m + 1), Ok tt)
      end
  end.

Definition unbind_slot (slot_index : Z) (m : VirtualMapping) : option Z * VirtualMapping :=
  match at_index (slot_to_conn m) slot_index with
  | None => (None, m)
  | Some c =>
      let es := match at_index (entries m) c with
                | Some entry => <[Z.to_nat c := Some (remove_slot entry slot_index).2]> (entries m)
                | None => entries m
                end in
      (Some c, mkMapping es (<[Z.to_nat slot_index := None]> (slot_to_conn m))
                 (num_connections m) (num_bound_slots m - 1))
  end.

Definition get_slot_owner (slot_index : Z) (m : VirtualMapping) : option Z :=
  at_index (slot_to_conn m) slot_index.

Definition set_remote_slot (c addr rkey : Z) (m : VirtualMapping)
    : VirtualMapping * result unit Error :=
  match at_index (entries m) c with
  | None => (m, Err (ConnectionNotFound c))
  | Some entry =>
      (mkMapping (<[Z.to_nat c := Some (set_remote entry addr rkey)]> (entries m))
         (slot_to_conn m) (num_connections m) (num_bound_slots m), Ok tt)
  end.

Definition connections (m : VirtualMapping) : list MappingEntry := omap id (entries m).

(** ** Invariant *)

Definition occupied {A} (l : list (option A)) : Z := Z.of_nat (length (omap id l)).

(** The two vectors describe the same binding, each connection lists a slot once,
    and the counters are exact. *)
Record mapping_ok (m : VirtualMapping) : Prop := mk_mapping_ok {
  mo_id : forall c e, 0 <= c -> at_index (entries m) c = Some e ->
    conn_id e = c /\ NoDup (slots e) /\ Forall (fun s => 0 <= s) (slots e);
  mo_owner : forall s c, 0 <= s ->
    (at_index (slot_to_conn m) s = Some c <->
     0 <= c /\ exists e, at_index (entries m) c = Some e /\ s ∈ slots e);
  mo_conns : num_connections m = occupied (entries m);
  mo_bound : num_bound_slots m = occupied (slot_to_conn m);
}.

(** ** Vectors *)

Section Vectors.
Context {A : Type}.
Implicit Types l : list (option A).

Lemma at_index_grow l n i : at_index (grow l n) i = at_index l i.
Proof.
  unfold at_index, grow. destruct (n <=? length l)%nat eqn:E; [done|].
  apply Nat.leb_gt in E. destruct (decide (Z.to_nat i < length l)%nat).
  - by rewrite lookup_app_l.
  - rewrite lookup_app_r by lia. rewrite (lookup_ge_None_2 l) by lia. cbn.
    destruct (decide (Z.to_nat i - length l < n - length l)%nat).
    + by rewrite lookup_replicate_2.
    + by rewrite lookup_ge_None_2 by (rewrite length_replicate; lia).
Qed.

Lemma length_grow l n : (n <= length (grow l n))%nat.
Proof.
  unfold grow. destruct (n <=? length l)%nat eqn:E.
  - by apply Nat.leb_le.
  - apply Nat.leb_gt in E. rewrite length_app, length_replicate. lia.
Qed.

Lemma at_index_lt l i x : at_index l i = Some x -> (Z.to_nat i < length l)%nat.
Proof.
  unfold at_index. intros H. destruct (l !! Z.to_nat i) eqn:E; [|done].
  by eapply lookup_lt_Some.
Qed.

Lemma at_index_insert l i (o : option A) j :
  (Z.to_nat i < length l)%nat -> 0 <= i -> 0 <= j ->
  at_index (<[Z.to_nat i := o]> l) j = if decide (i = j) then o else at_index l j.
Proof.
  intros Hl Hi Hj. unfold at_index. case_decide as H.
  - subst. by rewrite list_lookup_insert_eq.
  - by rewrite list_lookup_insert_ne by lia.
Qed.

Lemma occupied_app l1 l2 : occupied (l1 ++ l2) = occupied l1 + occupied l2.
Proof. unfold occupied. rewrite omap_app, length_app. lia. Qed.

Lemma occupied_grow l n : occupied (grow l n) = occupied l.
Proof.
  unfold grow. destruct (n <=? length l)%nat; [done|]. rewrite occupied_app.
  assert (occupied (replicate (n - length l) (@None A)) = 0) as ->; [|lia].
  unfold occupied. induction (n - length l)%nat; [done|]. done.
Qed.

Lemma occupied_cons (o : option A) l : occupied (o :: l) = (if o then 1 else 0) + occupied l.
Proof. unfold occupied. destruct o; cbn; lia. Qed.

(** Replacing the entry at an index changes the count by what it held. *)
Lemma occupied_insert l i (o : option A) :
  (Z.to_nat i < length l)%nat ->
  occupied (<[Z.to_nat i := o]> l) =
  occupied l - (if at_index l i then 1 else 0) + (if o then 1 else 0).
Proof.
  intros Hl. unfold at_index. destruct (lookup_lt_is_Some_2 l _ Hl) as [x Hx]. rewrite Hx. cbn.
  set (n := Z.to_nat i) in *.
  assert (occupied l = occupied (take n l) + occupied (x :: drop (S n) l)) as ->
    by (rewrite <-occupied_app; f_equal; symmetry; by apply take_drop_middle).
  rewrite (insert_take_drop l n o Hl), occupied_app, !occupied_cons. lia.
Qed.

End Vectors.

Lemma remove_first_notin x l : NoDup l -> forall y, y ∈ remove_first x l <-> y ∈ l /\ y <> x.
Proof.
  induction 1 as [|z l Hz Hnd IH]; intros y; cbn; [set_solver|].
  destruct (z =? x) eqn:E; guards; subst; set_solver.
Qed.

Lemma remove_first_nodup x l : NoDup l -> NoDup (remove_first x l).
Proof.
  induction 1 as [|z l Hz Hnd IH]; cbn; [constructor|].
  destruct (z =? x); [done|]. constructor; [|done].
  rewrite remove_first_notin by done. tauto.
Qed.

(** ** Operations keep the invariant *)

Lemma new_ok : mapping_ok new.
Proof.
  constructor; try done. intros s c Hs. unfold at_index. cbn.
  split; [done|intros (_ & e & H & _); by rewrite lookup_nil in H].
Qed.

(** Reading through an insert into a vector grown to hold the index. *)
Lemma at_index_grow_insert {A} (l : list (option A)) i o j :
  0 <= i -> 0 <= j ->
  at_index (<[Z.to_nat i := o]> (grow l (S (Z.to_nat i)))) j =
  if decide (i = j) then o else at_index l j.
Proof.
  intros Hi Hj. rewrite at_index_insert, at_index_grow; [done| |done..].
  pose proof (length_grow l (S (Z.to_nat i))). lia.
Qed.

Lemma register_ok c m :
  0 <= c -> get_connection c m = None -> mapping_ok m -> mapping_ok (register_connection c m).
Proof.
  intros Hc Hf [H1 H2 H3 H4]. unfold get_connection in Hf.
  constructor; cbn [entries slot_to_conn num_connections num_bound_slots register_connection].
  - intros c' e Hc' He. rewrite at_index_grow_insert in He by done. case_decide; [|by apply H1].
    simplify_eq. cbn. split_and!; [done|constructor|constructor].
  - intros s c' Hs. rewrite H2 by done.
    split; intros (Hc' & e & He & Hin); (split; [done|]).
    + exists e. rewrite at_index_grow_insert by done. by rewrite decide_False by congruence.
    + rewrite at_index_grow_insert in He by done. case_decide; [|by exists e].
      simplify_eq. cbn in Hin. set_solver.
  - pose proof (length_grow (entries m) (S (Z.to_nat c))).
    rewrite occupied_insert, occupied_grow, at_index_grow, Hf by lia. cbn. lia.
  - done.
Qed.

Lemma release_slots_spec ss s2c b :
  Forall (fun s => 0 <= s) ss ->
  let '(s2c', b') := release_slots ss s2c b in
  (forall s, 0 <= s -> at_index s2c' s = if decide (s ∈ ss) then None else at_index s2c s) /\
  b' - occupied s2c' = b - occupied s2c.
Proof.
  intros Hss. revert s2c b. induction Hss as [|x ss Hx Hss IH]; intros s2c b; cbn.
  { split; [|done]. intros s Hs. by rewrite decide_False by set_solver. }
  destruct (at_index s2c x) as [c|] eqn:E.
  - specialize (IH (<[Z.to_nat x := None]> s2c) (b - 1)).
    destruct (release_slots ss _ _) as [s2c' b']. destruct IH as [IH1 IH2].
    pose proof (at_index_lt _ _ _ E) as Hlt. rewrite occupied_insert, E in IH2 by done.
    split; [|cbn in IH2; lia]. intros s Hs. rewrite IH1, at_index_insert by done.
    repeat case_decide; set_solver.
  - specialize (IH s2c b). destruct (release_slots ss _ _) as [s2c' b'].
    destruct IH as [IH1 IH2]. split; [|done]. intros s Hs. rewrite IH1 by done.
    destruct (decide (s = x)) as [->|]; [rewrite E; by repeat case_decide|].
    repeat case_decide; set_solver.
Qed.

Lemma unregister_ok c m : 0 <= c -> mapping_ok m -> mapping_ok (unregister_connection c m).2.
Proof.
  intros Hc [H1 H2 H3 H4]. unfold unregister_connection.
  destruct (at_index (entries m) c) as [e|] eqn:He; [|done].
  destruct (H1 c e Hc He) as (Hid & Hnd & Hpos). pose proof (at_index_lt _ _ _ He) as Hlt.
  pose proof (release_slots_spec (slots e) (slot_to_conn m) (num_bound_slots m) Hpos) as Hr.
  destruct (release_slots _ _ _) as [s2c' b']. destruct Hr as [Hr1 Hr2].
  constructor; cbn.
  - intros c' e' Hc' He'. rewrite at_index_insert in He' by done. case_decide; [done|by apply H1].
  - intros s c' Hs. rewrite Hr1 by done. split.
    + case_decide as Hin; [done|]. rewrite H2 by done. intros (Hc' & e' & He' & Hin').
      split; [done|]. exists e'. rewrite at_index_insert by done.
      by rewrite decide_False by congruence.
    + intros (Hc' & e' & He' & Hin'). rewrite at_index_insert in He' by done.
      case_decide as Hne; [done|].
      assert (at_index (slot_to_conn m) s = Some c') as Hs' by (apply H2; eauto).
      rewrite decide_False; [done|]. intros Hin.
      assert (at_index (slot_to_conn m) s = Some c) by (apply H2; eauto). congruence.
  - rewrite occupied_insert, He by done. cbn. lia.
  - lia.
Qed.

Lemma bind_ok c s m : 0 <= c -> 0 <= s -> mapping_ok m -> mapping_ok (bind_slot c s m).1.
Proof.
  intros Hc Hs [H1 H2 H3 H4]. unfold bind_slot. rewrite at_index_grow.
  assert (mapping_ok (mkMapping (entries m) (grow (slot_to_conn m) (S (Z.to_nat s)))
    (num_connections m) (num_bound_slots m))) as Hg.
  { constructor; cbn; [done| |done|by rewrite occupied_grow].
    intros s' c' Hs'. rewrite at_index_grow. by apply H2. }
  destruct (at_index (slot_to_conn m) s) as [c0|] eqn:E0; [done|].
  destruct (at_index (entries m) c) as [e|] eqn:He; [|done]. cbn [fst].
  destruct (H1 c e Hc He) as (Hid & Hnd & Hpos). pose proof (at_index_lt _ _ _ He) as Hlt.
  assert (s ∉ slots e) as Hni.
  { intros Hin. assert (at_index (slot_to_conn m) s = Some c) by (apply H2; eauto). congruence. }
  pose proof (length_grow (slot_to_conn m) (S (Z.to_nat s))) as Hlg.
  constructor; cbn.
  - intros c' e' Hc' He'. rewrite at_index_insert in He' by done. case_decide; [|by apply H1].
    simplify_eq. cbn. split_and!; [done| |apply Forall_app; auto].
    apply NoDup_app. split_and!; [done|set_solver|apply NoDup_singleton].
  - intros s' c' Hs'. rewrite at_index_grow_insert by done. case_decide as Hss.
    + subst s'. split.
      * intros [= <-]. split; [done|]. eexists. rewrite at_index_insert, decide_True by done.
        split; [done|]. cbn. set_solver.
      * intros (Hc' & e' & He' & Hin). rewrite at_index_insert in He' by done.
        case_decide; [congruence|].
        assert (at_index (slot_to_conn m) s = Some c') by (apply H2; eauto). congruence.
    + rewrite H2 by done. split; intros (Hc' & e' & He' & Hin); (split; [done|]).
      * destruct (decide (c = c')) as [<-|Hne].
        -- eexists. rewrite at_index_insert, decide_True by done. split; [done|].
           simplify_eq. cbn. set_solver.
        -- exists e'. by rewrite at_index_insert, decide_False by done.
      * rewrite at_index_insert in He' by done. case_decide; [|by exists e'].
        simplify_eq. exists e. split; [done|]. cbn in Hin. set_solver.
  - rewrite occupied_insert, He by done. cbn. lia.
  - rewrite occupied_insert, occupied_grow, at_index_grow, E0 by lia. cbn. lia.
Qed.

Lemma unbind_ok s m : 0 <= s -> mapping_ok m -> mapping_ok (unbind_slot s m).2.
Proof.
  intros Hs [H1 H2 H3 H4]. unfold unbind_slot.
  destruct (at_index (slot_to_conn m) s) as [c|] eqn:E0; [|done].
  destruct (proj1 (H2 s c Hs) E0) as (Hc & e & He & Hin). rewrite He.
  destruct (H1 c e Hc He) as (Hid & Hnd & Hpos). pose proof (at_index_lt _ _ _ He) as Hlt.
  pose proof (at_index_lt _ _ _ E0) as Hlt'. unfold remove_slot.
  rewrite bool_decide_true by done. cbn [snd].
  constructor; cbn.
  - intros c' e' Hc' He'. rewrite at_index_insert in He' by done. case_decide; [|by apply H1].
    simplify_eq. cbn. split_and!; [done|by apply remove_first_nodup|].
    apply Forall_forall. intros x Hx%remove_first_notin; [|done].
    rewrite Forall_forall in Hpos. apply Hpos. tauto.
  - intros s' c' Hs'. rewrite at_index_insert by done. case_decide as Hss.
    + subst s'. split; [done|]. intros (Hc' & e' & He' & Hin').
      rewrite at_index_insert in He' by done. case_decide.
      * simplify_eq. cbn in Hin'. apply remove_first_notin in Hin'; [tauto|done].
      * assert (at_index (slot_to_conn m) s = Some c') by (apply H2; eauto). congruence.
    + rewrite H2 by done. split; intros (Hc' & e' & He' & Hin'); (split; [done|]).
      * destruct (decide (c = c')) as [<-|Hne].
        -- eexists. rewrite at_index_insert, decide_True by done. split; [done|].
           simplify_eq. cbn. apply remove_first_notin; [done|]. split; [done|congruence].
        -- exists e'. by rewrite at_index_insert, decide_False by done.
      * rewrite at_index_insert in He' by done. case_decide; [|by exists e'].
        simplify_eq. exists e. split; [done|]. cbn in Hin'.
        apply remove_first_notin in Hin'; [tauto|done].
  - rewrite occupied_insert, He by done. cbn. lia.
  - rewrite occupied_insert, E0 by done. cbn. lia.
Qed.

Lemma set_remote_ok c a k m : 0 <= c -> mapping_ok m -> mapping_ok (set_remote_slot c a k m).1.
Proof.
  intros Hc [H1 H2 H3 H4]. unfold set_remote_slot.
  destruct (at_index (entries m) c) as [e|] eqn:He; [|done].
  pose proof (at_index_lt _ _ _ He) as Hlt. cbn [fst]. constructor; cbn; [| | |done].
  - intros c' e' Hc' He'. rewrite at_index_insert in He' by done. case_decide; [|by apply H1].
    simplify_eq. by apply (H1 c' e).
  - intros s c' Hs. rewrite H2 by done. split; intros (Hc' & e' & He' & Hin); (split; [done|]).
    + destruct (decide (c = c')) as [<-|Hne].
      * eexists. rewrite at_index_insert, decide_True by done. split; [done|]. by simplify_eq.
      * exists e'. by rewrite at_index_insert, decide_False by done.
    + rewrite at_index_insert in He' by done. case_decide; [|by exists e'].
      simplify_eq. by exists e.
  - rewrite occupied_insert, He by done. cbn. lia.
Qed.

(** One operation; a connection identifier is registered at most once at a time,
    as the server and the client do. *)
Inductive mapping_step : VirtualMapping -> VirtualMapping -> Prop :=
| step_register c m :
    0 <= c -> get_connection c m = None -> mapping_step m (register_connection c m)
| step_unregister c m : 0 <= c -> mapping_step m (unregister_connection c m).2
| step_bind c s m : 0 <= c -> 0 <= s -> mapping_step m (bind_slot c s m).1
| step_unbind s m : 0 <= s -> mapping_step m (unbind_slot s m).2
| step_set_remote c a k m : 0 <= c -> mapping_step m (set_remote_slot c a k m).1.

Lemma mapping_step_ok m m' : mapping_step m m' -> mapping_ok m -> mapping_ok m'.
Proof.
  destruct 1; eauto using register_ok, unregister_ok, bind_ok, unbind_ok, set_remote_ok.
Qed.

(** ** Properties *)

(** In every state reachable from the empty mapping the two tables agree: a
    slot has at most one owner, the owner lists it exactly once, no connection
    lists a slot it does not own, and both counters are exact. *)
Theorem mapping_reachable m :
  rtc mapping_step new m ->
  num_connections m = Z.of_nat (length (connections m)) /\
  num_bound_slots m = occupied (slot_to_conn m) /\
  (forall c e, 0 <= c -> get_connection c m = Some e -> conn_id e = c /\ NoDup (slots e)) /\
  (forall s c, 0 <= s -> (get_slot_owner s m = Some c <->
     0 <= c /\ exists e, get_connection c m = Some e /\ s ∈ slots e)).
Proof.
  intros Hr. assert (mapping_ok m) as [H1 H2 H3 H4].
  { pose proof new_ok as Hn. revert Hn. generalize new Hr. clear Hr.
    induction 1 as [|m1 m2 m3 Hs _ IH]; eauto using mapping_step_ok. }
  split_and!; [done..| |done]. intros c e Hc He. destruct (H1 c e Hc He) as (? & ? & _). done.
Qed.

Lemma mapping_reachable_witness :
  num_connections (bind_slot 0 5 (register_connection 0 new)).1 = 1.
Proof.
  apply (mapping_reachable (bind_slot 0 5 (register_connection 0 new)).1).
  eapply rtc_l; [apply (step_register 0); [lia|reflexivity]|].
  apply rtc_once, step_bind; lia.
Defined.

(** [bind_slot] succeeds exactly when the slot is free and the connection is
    registered; it then owns the slot, nothing else changes owner, and
    [unbind_slot] gives the slot back.  A refused binding changes no binding. *)
Theorem bind_slot_correct c s m :
  mapping_ok m -> 0 <= c -> 0 <= s ->
  let '(m', r) := bind_slot c s m in
  (forall s', 0 <= s' -> get_slot_owner s' m' =
     if is_ok r && (s' =? s) then Some c else get_slot_owner s' m) /\
  (is_ok r = true <-> get_slot_owner s m = None /\ is_Some (get_connection c m)) /\
  (is_ok r = true -> (unbind_slot s m').1 = Some c /\
     forall s', 0 <= s' -> get_slot_owner s' (unbind_slot s m').2 = get_slot_owner s' m).
Proof.
  intros Hok Hc Hs. unfold bind_slot, get_slot_owner, get_connection. rewrite at_index_grow.
  pose proof (length_grow (slot_to_conn m) (S (Z.to_nat s))) as Hlg.
  destruct (at_index (slot_to_conn m) s) as [c0|] eqn:E0.
  { split_and!; cbn; [|split; [done|by intros [? _]]|done].
    intros s' Hs'. by apply at_index_grow. }
  destruct (at_index (entries m) c) as [e|] eqn:He.
  2:{ split_and!; cbn; [|split; [done|by intros [_ [? ?]]]|done].
      intros s' Hs'. by apply at_index_grow. }
  split_and!; [|by split; eauto|].
  - intros s' Hs'. cbn. rewrite at_index_grow_insert by done.
    case_decide; [subst; by rewrite Z.eqb_refl|]. by rewrite (proj2 (Z.eqb_neq _ _)) by congruence.
  - intros _. unfold unbind_slot. cbn [slot_to_conn entries].
    rewrite at_index_grow_insert, decide_True by done. split; [done|].
    intros s' Hs'. cbn. rewrite at_index_insert by (rewrite ?length_insert; lia || done).
    rewrite at_index_grow_insert by done. case_decide; [by subst|done].
Qed.

Lemma bind_slot_correct_witness :
  get_slot_owner 5 (bind_slot 0 5 (register_connection 0 new)).1 = Some 0.
Proof.
  assert (mapping_ok (register_connection 0 new)) as Hok
    by (apply register_ok; [lia|reflexivity|apply new_ok]).
  pose proof (bind_slot_correct 0 5 (register_connection 0 new) Hok ltac:(lia) ltac:(lia)) as H.
  destruct (bind_slot 0 5 (register_connection 0 new)) as [m' r] eqn:E. destruct H as (H & _).
  cbn [fst]. rewrite H by lia. injection E as _ <-. reflexivity.
Defined.

(** Registering an identifier again counts the connection twice and orphans its
    slots: they stay bound but no connection lists them, so that unregistering
    does not release them. *)
Lemma register_twice_orphans_slots :
  let m := register_connection 0 (bind_slot 0 5 (register_connection 0 new)).1 in
  num_connections m = 2 /\ length (connections m) = 1%nat /\
  slots <$> get_connection 0 m = Some [] /\ get_slot_owner 5 m = Some 0 /\
  get_slot_owner 5 (unregister_connection 0 m).2 = Some 0.
Proof. vm_compute. done. Qed.

End Mapping.
