(* ===== verification/Pool.v ===== *)
(** * Pool: the message pool of [scalerpc/src/pool.rs]

    Slots with a state and an owner, the free list, allocation from the whole
    pool or from a range, and the handles that return their slot when dropped.
    The pool's mutex makes every operation atomic. *)

From S2P Require Import Prelude.

Module Pool.

(** [error::SlotState] *)
Inductive SlotState : Type := Free | Reserved | RequestPending | ResponseReady.

#[export] Instance SlotState_eq_dec : EqDecision SlotState.
Proof. solve_decision. Defined.

Definition state_code (s : SlotState) : Z :=
  match s with Free => 0 | Reserved => 1 | RequestPending => 2 | ResponseReady => 3 end.

Definition from_u8 (v : Z) : option SlotState :=
  match v with
  | 0 => Some Free
  | 1 => Some Reserved
  | 2 => Some RequestPending
  | 3 => Some ResponseReady
  | _ => None
  end.

Definition SLOT_HEADER_SIZE : Z := 16.
Definition DEFAULT_SLOT_SIZE : Z := 4096.
Definition NO_OWNER : Z := U32_MAX.

(** [struct MessageSlot]: the header fields as stored, then the data area. *)
Record MessageSlot : Type := mkSlot { state_byte : Z; owner_conn : Z; data : list Z }.

Definition state (s : MessageSlot) : SlotState := default Free (from_u8 (state_byte s)).
Definition set_state (st : SlotState) (s : MessageSlot) : MessageSlot :=
  mkSlot (state_code st) (owner_conn s) (data s).
Definition owner (s : MessageSlot) : option Z :=
  if owner_conn s =? NO_OWNER then None else Some (owner_conn s).
Definition set_owner (c : option Z) (s : MessageSlot) : MessageSlot :=
  mkSlot (state_byte s) (default NO_OWNER c) (data s).

(** [try_transition]: compare-exchange on the state byte. *)
Definition try_transition (expected new : SlotState) (s : MessageSlot) : bool * MessageSlot :=
  if state_byte s =? state_code expected then (true, set_state new s) else (false, s).

Record MessagePool : Type := mkPool {
  base : Z;
  slots : list MessageSlot;
  slot_data_size : Z;
  free_list : list Z;
}.

Inductive Error : Type :=
| NoFreeSlots
| InvalidSlotState (expected actual : SlotState).

Definition num_slots (p : MessagePool) : Z := Z.of_nat (length (slots p)).

(** [MessagePool::new] when the allocation (at [addr]) and the registration
    succeed. *)
Definition pool_new (addr n data_size : Z) : MessagePool :=
  mkPool addr
    (replicate (Z.to_nat n)
       (set_owner None (set_state Free
          (mkSlot 0 0 (replicate (Z.to_nat (DEFAULT_SLOT_SIZE - SLOT_HEADER_SIZE)) 0)))))
    data_size (seqZ 0 n).

Definition get_slot (p : MessagePool) (index : Z) : option MessageSlot :=
  if num_slots p <=? index then None else slots p !! Z.to_nat index.

Definition slot_addr (p : MessagePool) (index : Z) : option Z :=
  if num_slots p <=? index then None else Some (base p + index * DEFAULT_SLOT_SIZE).

Definition slot_data_addr (p : MessagePool) (index : Z) : option Z :=
  if num_slots p <=? index then None
  else Some (base p + index * DEFAULT_SLOT_SIZE + SLOT_HEADER_SIZE).

Definition put_slot (p : MessagePool) (index : Z) (s : MessageSlot) : MessagePool :=
  mkPool (base p) (<[Z.to_nat index := s]> (slots p)) (slot_data_size p) (free_list p).

Definition set_free (p : MessagePool) (l : list Z) : MessagePool :=
  mkPool (base p) (slots p) (slot_data_size p) l.

(** [alloc]: pops the last index of the free list; [None] is the [unwrap] of an
    index out of range.  The result is the index of the handle. *)
Definition alloc (p : MessagePool) : option (MessagePool * result Z Error) :=
  match last (free_list p) with
  | None => Some (p, Err NoFreeSlots)
  | Some index =>
      let rest := take (length (free_list p) - 1) (free_list p) in
      match get_slot p index with
      | None => None
      | Some slot =>
          match try_transition Free Reserved slot with
          | (true, slot') => Some (set_free (put_slot p index slot') rest, Ok index)
          | (false, slot') =>
              Some (set_free p (rest ++ [index]), Err (InvalidSlotState Free (state slot')))
          end
      end
  end.

(** [Vec::swap_remove]. *)
Definition swap_remove (l : list Z) (pos : nat) : list Z :=
  match last l with
  | None => l
  | Some x => take (length l - 1) (<[pos := x]> l)
  end.

(** The scan of [alloc_from_slots] over the free list from position [pos]. *)
Fixpoint scan (p : MessagePool) (min_slot max_slot : Z) (pos : nat) (l : list Z)
    : option (MessagePool * result Z Error) :=
  match l with
  | [] => Some (p, Err NoFreeSlots)
  | free_idx :: l =>
      if (min_slot <=? free_idx) && (free_idx <=? max_slot) then
        match get_slot p free_idx with
        | None => None
        | Some slot =>
            match try_transition Free Reserved slot with
            | (true, slot') =>
                Some (set_free (put_slot p free_idx slot') (swap_remove (free_list p) pos),
                      Ok free_idx)
            | (false, _) => scan p min_slot max_slot (S pos) l
            end
        end
      else scan p min_slot max_slot (S pos) l
  end.

Definition alloc_from_slots (ss : list Z) (p : MessagePool)
    : option (MessagePool * result Z Error) :=
  match head ss, last ss with
  | Some min_slot, Some max_slot => scan p min_slot max_slot 0 (free_list p)
  | _, _ => Some (p, Err NoFreeSlots)
  end.

(** [free_slot_by_index], which dropping a handle calls. *)
Definition free_slot_by_index (index : Z) (p : MessagePool) : MessagePool :=
  match get_slot p index with
  | None => p
  | Some slot =>
      let p := put_slot p index (set_owner None (set_state Free slot)) in
      set_free p (free_list p ++ [index])
  end.

Definition free_count (p : MessagePool) : Z := Z.of_nat (length (free_list p)).

(** [SlotHandle::write] and [read].  The clamp is the configured
    [slot_data_size]; [None] when that lets the copy leave the data area of the
    slot. *)
Definition handle_write (index : Z) (bytes : list Z) (p : MessagePool)
    : option (MessagePool * Z) :=
  match get_slot p index with
  | None => None
  | Some s =>
      let len := Z.min (Z.of_nat (length bytes)) (slot_data_size p) in
      if Z.of_nat (length (data s)) <? len then None
      else Some (put_slot p index (mkSlot (state_byte s) (owner_conn s)
              (write_bytes (data s) 0 (take (Z.to_nat len) bytes))), len)
  end.

Definition handle_read (index len : Z) (p : MessagePool) : option (list Z) :=
  match get_slot p index with
  | None => None
  | Some s =>
      let len := Z.min len (slot_data_size p) in
      if Z.of_nat (length (data s)) <? len then None
      else Some (read_bytes (data s) 0 (Z.to_nat len))
  end.

Definition handle_set_state (index : Z) (st : SlotState) (p : MessagePool) : option MessagePool :=
  match get_slot p index with
  | None => None
  | Some s => Some (put_slot p index (set_state st s))
  end.

(** ** Invariant

    [held] are the indices owned outside the pool, by handles or by requests
    that released one.  Free and held slots partition the pool, and a free slot
    is in state [Free]. *)

Record pool_ok (held : list Z) (p : MessagePool) : Prop := mk_pool_ok {
  po_perm : free_list p ++ held ≡ₚ seqZ 0 (num_slots p);
  po_free : forall i s, i ∈ free_list p -> get_slot p i = Some s ->
    state_byte s = state_code Free;
}.

Lemma pool_ok_nodup held p : pool_ok held p -> NoDup (free_list p ++ held).
Proof. intros [Hp _]. rewrite Hp. apply NoDup_seqZ. Qed.

Lemma pool_ok_range held p i : pool_ok held p -> i ∈ free_list p ++ held ->
  0 <= i < num_slots p /\ is_Some (get_slot p i).
Proof.
  intros [Hp _] Hi. rewrite Hp in Hi. apply elem_of_seqZ in Hi as Hr. split; [lia|].
  unfold get_slot. rewrite (proj2 (Z.leb_gt _ _)) by lia. apply lookup_lt_is_Some_2.
  unfold num_slots in Hr. lia.
Qed.

Lemma num_slots_put p i s : num_slots (put_slot p i s) = num_slots p.
Proof. unfold num_slots. cbn. by rewrite length_insert. Qed.

Lemma get_put p i s j :
  0 <= i -> 0 <= j -> is_Some (get_slot p i) ->
  get_slot (put_slot p i s) j = if decide (i = j) then Some s else get_slot p j.
Proof.
  intros Hi Hj [s0 Hs]. unfold get_slot in *. rewrite num_slots_put.
  destruct (num_slots p <=? i) eqn:E; [done|]. apply lookup_lt_Some in Hs. guards.
  cbn. case_decide as H.
  - subst. rewrite (proj2 (Z.leb_gt _ _)) by lia. by apply list_lookup_insert_eq.
  - destruct (num_slots p <=? j); [done|]. apply list_lookup_insert_ne. lia.
Qed.

(** Taking a free slot out of the pool, and putting a held one back. *)
Lemma pool_ok_take held p i rest s :
  pool_ok held p -> free_list p ≡ₚ i :: rest ->
  pool_ok (i :: held) (set_free (put_slot p i s) rest).
Proof.
  intros Hok Hp. pose proof (pool_ok_nodup held p Hok) as Hnd.
  assert (i ∈ free_list p ++ held) as Hi by (rewrite Hp; set_solver).
  destruct (pool_ok_range held p i Hok Hi) as [Hr Hs]. destruct Hok as [H1 H2].
  constructor; cbn [free_list set_free].
  - change (num_slots (set_free ?p rest)) with (num_slots p). rewrite num_slots_put, <-H1, Hp.
    symmetry. apply Permutation_middle.
  - intros j sj Hj Hg. change (get_slot (set_free ?p rest) j) with (get_slot p j) in Hg.
    assert (j ∈ free_list p ++ held) as Hj' by (rewrite Hp; set_solver).
    assert (0 <= j).
    { rewrite H1 in Hj'. apply elem_of_seqZ in Hj'. lia. }
    rewrite get_put in Hg by (done || lia). case_decide as Hij.
    + subst j. rewrite Hp in Hnd. cbn in Hnd. apply NoDup_cons in Hnd as [Hni _]. set_solver.
    + eapply H2; [|done]. rewrite Hp. set_solver.
Qed.

Lemma pool_ok_put held held' p i s :
  pool_ok held p -> held ≡ₚ i :: held' -> state_byte s = state_code Free ->
  pool_ok held' (set_free (put_slot p i s) (free_list p ++ [i])).
Proof.
  intros Hok Hh Hst. assert (i ∈ free_list p ++ held) as Hi by (rewrite Hh; set_solver).
  destruct (pool_ok_range held p i Hok Hi) as [Hr Hs]. destruct Hok as [H1 H2].
  constructor; cbn [free_list set_free].
  - change (num_slots (set_free ?p ?l)) with (num_slots p). rewrite num_slots_put, <-H1, Hh.
    by rewrite <-app_assoc.
  - intros j sj Hj Hg. change (get_slot (set_free ?p ?l) j) with (get_slot p j) in Hg.
    assert (0 <= j).
    { assert (j ∈ free_list p ++ held) as Hj' by (rewrite Hh; set_solver).
      rewrite H1 in Hj'. apply elem_of_seqZ in Hj'. lia. }
    rewrite get_put in Hg by (done || lia). case_decide as Hij; [congruence|].
    eapply H2; [|done]. set_solver.
Qed.

(** Changing a held slot. *)
Lemma pool_ok_held held p i s : pool_ok held p -> i ∈ held -> pool_ok held (put_slot p i s).
Proof.
  intros Hok Hi. assert (i ∈ free_list p ++ held) as Hi' by set_solver.
  pose proof (pool_ok_nodup held p Hok) as Hnd.
  destruct (pool_ok_range held p i Hok Hi') as [Hr Hs]. pose proof Hok as [H1 H2].
  constructor; [by rewrite num_slots_put|]. intros j sj Hj Hg. cbn in Hj.
  destruct (pool_ok_range held p j Hok ltac:(set_solver)) as [Hrj _].
  rewrite get_put in Hg by (done || lia). case_decide as Hij; [|by eapply H2].
  subst j. apply NoDup_app in Hnd as (_ & Hd & _). by destruct (Hd i Hj).
Qed.

Lemma last_take (l : list Z) x : last l = Some x -> l = take (length l - 1) l ++ [x].
Proof.
  intros [l' ->]%last_Some. rewrite length_app. cbn. rewrite Nat.add_sub.
  by rewrite take_app_length.
Qed.

Lemma swap_remove_perm l pos x : l !! pos = Some x -> l ≡ₚ x :: swap_remove l pos.
Proof.
  intros Hx. unfold swap_remove. destruct (last l) as [y|] eqn:Hl.
  2:{ apply last_None in Hl. by subst. }
  apply last_Some in Hl as [l' ->]. rewrite length_app. cbn. rewrite Nat.add_sub.
  destruct (decide (pos < length l')%nat) as [Hlt|Hge].
  - rewrite lookup_app_l in Hx by done. rewrite insert_app_l by done.
    rewrite take_app_le, take_ge by (rewrite length_insert; lia).
    rewrite (insert_take_drop l' pos y Hlt). rewrite <-(take_drop_middle l' pos x Hx) at 1.
    rewrite <-app_assoc. cbn. solve_Permutation.
  - assert (pos = length l') as -> by (apply lookup_lt_Some in Hx; rewrite length_app in Hx;
      cbn in Hx; lia).
    rewrite lookup_app_r, Nat.sub_diag in Hx by lia. cbn in Hx. simplify_eq.
    rewrite insert_app_r_alt, Nat.sub_diag by lia. cbn. rewrite take_app_length.
    symmetry. apply Permutation_cons_append.
Qed.

Lemma free_transition held p i s :
  pool_ok held p -> i ∈ free_list p -> get_slot p i = Some s ->
  try_transition Free Reserved s = (true, set_state Reserved s).
Proof. intros [_ H2] Hi Hs. unfold try_transition. by rewrite (H2 i s Hi Hs), Z.eqb_refl. Qed.

Lemma alloc_spec held p :
  pool_ok held p ->
  match alloc p with
  | None => False
  | Some (p', Ok i) => i ∈ free_list p /\ pool_ok (i :: held) p'
  | Some (p', Err e) => p' = p /\ e = NoFreeSlots /\ free_list p = []
  end.
Proof.
  intros Hok. unfold alloc. destruct (last (free_list p)) as [i|] eqn:Hl.
  2:{ by apply last_None in Hl. }
  pose proof (last_take _ _ Hl) as Ht.
  assert (i ∈ free_list p) as Hi by (rewrite Ht; set_solver).
  destruct (pool_ok_range held p i Hok ltac:(set_solver)) as [_ [s Hs]]. rewrite Hs.
  rewrite (free_transition held p i s Hok Hi Hs). split; [done|].
  apply pool_ok_take; [done|]. rewrite Ht at 1. symmetry. apply Permutation_cons_append.
Qed.

Lemma scan_spec held p mn mx pre l :
  pool_ok held p -> free_list p = pre ++ l ->
  match scan p mn mx (length pre) l with
  | None => False
  | Some (p', Ok i) => mn <= i <= mx /\ i ∈ free_list p /\ pool_ok (i :: held) p'
  | Some (p', Err e) => p' = p /\ e = NoFreeSlots /\ forall i, i ∈ l -> ~ (mn <= i <= mx)
  end.
Proof.
  intros Hok. revert pre. induction l as [|i l IH]; intros pre Hf; cbn [scan].
  { split_and!; [done..|]. set_solver. }
  specialize (IH (pre ++ [i])). rewrite length_app, Nat.add_comm in IH.
  rewrite <-app_assoc in IH. specialize (IH Hf). cbn [Nat.add length] in IH.
  destruct ((mn <=? i) && (i <=? mx)) eqn:E.
  - guards. assert (i ∈ free_list p) as Hi by (rewrite Hf; set_solver).
    destruct (pool_ok_range held p i Hok ltac:(set_solver)) as [_ [s Hs]]. rewrite Hs.
    rewrite (free_transition held p i s Hok Hi Hs). split_and!; [lia..|done|].
    apply pool_ok_take; [done|]. apply swap_remove_perm. rewrite Hf.
    rewrite lookup_app_r, Nat.sub_diag by lia. done.
  - destruct (scan p mn mx (S (length pre)) l) as [[p' [j|e]]|]; [done| |done].
    destruct IH as (-> & -> & IH). split_and!; [done..|]. intros j [->|Hj]%elem_of_cons.
    + apply andb_false_iff in E. destruct E; guards; lia.
    + by apply IH.
Qed.

(** ** Interleavings

    The pool is shared by every thread behind a mutex: an execution is a
    sequence of these atomic steps. *)

Inductive pool_step : list Z * MessagePool -> list Z * MessagePool -> Prop :=
| step_alloc held p p' i :
    alloc p = Some (p', Ok i) -> pool_step (held, p) (i :: held, p')
| step_alloc_from ss held p p' i :
    alloc_from_slots ss p = Some (p', Ok i) -> pool_step (held, p) (i :: held, p')
| step_free i held held' p :
    held ≡ₚ i :: held' -> pool_step (held, p) (held', free_slot_by_index i p)
| step_write i bytes held p p' n :
    i ∈ held -> handle_write i bytes p = Some (p', n) -> pool_step (held, p) (held, p')
| step_set_state i st held p p' :
    i ∈ held -> handle_set_state i st p = Some p' -> pool_step (held, p) (held, p').

Lemma pool_step_ok s s' : pool_step s s' -> pool_ok s.1 s.2 -> pool_ok s'.1 s'.2.
Proof.
  destruct 1 as [held p p' i Ha|ss held p p' i Ha|i held held' p Hh|i bytes held p p' n Hi Hw
    |i st held p p' Hi Hw]; cbn [fst snd]; intros Hok.
  - pose proof (alloc_spec held p Hok) as H. rewrite Ha in H. tauto.
  - unfold alloc_from_slots in Ha. destruct (head ss); [|done]. destruct (last ss); [|done].
    pose proof (scan_spec held p z z0 [] (free_list p) Hok eq_refl) as H.
    cbn [length] in H. rewrite Ha in H. tauto.
  - unfold free_slot_by_index.
    destruct (pool_ok_range held p i Hok) as [_ [s Hs]]; [rewrite Hh; set_solver|].
    rewrite Hs. cbn zeta. change (free_list (put_slot ?p ?i ?s)) with (free_list p).
    by eapply pool_ok_put.
  - unfold handle_write in Hw. destruct (get_slot p i) as [s|]; [|done].
    destruct (_ <? _); simplify_eq.
    by apply pool_ok_held.
  - unfold handle_set_state in Hw. destruct (get_slot p i); [|done]. simplify_eq.
    by apply pool_ok_held.
Qed.

Lemma pool_new_ok addr n sz : 0 <= n -> pool_ok [] (pool_new addr n sz).
Proof.
  intros Hn. constructor.
  - rewrite app_nil_r. unfold num_slots. cbn. rewrite length_replicate. by rewrite Z2Nat.id.
  - intros i s _ Hg. unfold get_slot in Hg. destruct (_ <=? _); [done|]. cbn in Hg.
    apply lookup_replicate in Hg as [-> _]. done.
Qed.

(** ** Properties *)

(** C18: whatever the threads do, a slot is never held twice nor both held and
    free, no slot is lost, and every slot on the free list is in state [Free]. *)
Theorem pool_exclusive addr n sz held p :
  0 <= n -> rtc pool_step ([], pool_new addr n sz) (held, p) ->
  NoDup held /\ (forall i, i ∈ held -> i ∉ free_list p) /\
  free_count p + Z.of_nat (length held) = num_slots p /\
  (forall i s, i ∈ free_list p -> get_slot p i = Some s -> state s = Free).
Proof.
  intros Hn Hr. assert (pool_ok held p) as Hok.
  { change (pool_ok (held, p).1 (held, p).2). pose proof (pool_new_ok addr n sz Hn) as H0.
    change (pool_ok ([], pool_new addr n sz).1 ([] : list Z, pool_new addr n sz).2) in H0.
    revert H0. induction Hr; eauto using pool_step_ok. }
  pose proof (pool_ok_nodup held p Hok) as (_ & Hd & Hh)%NoDup_app.
  destruct Hok as [H1 H2]. split_and!; [done|set_solver| |].
  - apply Permutation_length in H1. rewrite length_app, length_seqZ in H1.
    unfold free_count, num_slots in *. lia.
  - intros i s Hi Hg. unfold state. by rewrite (H2 i s Hi Hg).
Qed.

Lemma pool_exclusive_witness :
  exists p, alloc (pool_new 0 2 100) = Some (p, Ok 1) /\ free_count p = 1.
Proof.
  eexists. split; [reflexivity|]. set (p := set_free _ _).
  assert (rtc pool_step ([], pool_new 0 2 100) ([1], p)) as Hr
    by (apply rtc_once, step_alloc; reflexivity).
  destruct (pool_exclusive 0 2 100 [1] p ltac:(lia) Hr) as (_ & _ & H & _).
  change (num_slots p) with 2 in H. cbn [length] in H. lia.
Defined.

(** Allocation is complete: [alloc] fails only on an empty free list, and
    [alloc_from_slots] returns a slot of the requested range that was free, or
    fails because the range has none; neither panics. *)
Theorem alloc_complete held p ss mn mx :
  pool_ok held p -> head ss = Some mn -> last ss = Some mx ->
  (exists p' r, alloc p = Some (p', r) /\
     match r with
     | Ok i => i ∈ free_list p /\ pool_ok (i :: held) p'
     | Err e => e = NoFreeSlots /\ free_list p = []
     end) /\
  (exists p' r, alloc_from_slots ss p = Some (p', r) /\
     match r with
     | Ok i => mn <= i <= mx /\ i ∈ free_list p /\ pool_ok (i :: held) p'
     | Err e => e = NoFreeSlots /\ forall i, i ∈ free_list p -> ~ (mn <= i <= mx)
     end).
Proof.
  intros Hok Hh Hl. split.
  - pose proof (alloc_spec held p Hok) as H. destruct (alloc p) as [[p' [i|e]]|]; [| |done].
    + by exists p', (Ok i).
    + exists p', (Err e). tauto.
  - unfold alloc_from_slots. rewrite Hh, Hl.
    pose proof (scan_spec held p mn mx [] (free_list p) Hok eq_refl) as H. cbn [length] in H.
    destruct (scan p mn mx 0 (free_list p)) as [[p' [i|e]]|]; [| |done].
    + by exists p', (Ok i).
    + exists p', (Err e). tauto.
Qed.

Lemma alloc_complete_witness :
  exists p' r, alloc_from_slots [1; 2] (pool_new 0 4 100) = Some (p', r) /\
    match r with Ok i => 1 <= i <= 2 | Err _ => False end.
Proof.
  destruct (alloc_complete [] (pool_new 0 4 100) [1; 2] 1 2) as [_ (p' & r & H & Hr)];
    [apply pool_new_ok; lia|reflexivity|reflexivity|].
  exists p', r. split; [exact H|]. destruct r as [i|e]; [tauto|].
  destruct Hr as [_ Hr]. apply (Hr 1); [|lia].
  change (free_list (pool_new 0 4 100)) with [0; 1; 2; 3]. set_solver.
Defined.

End Pool.
