(* ===== verification/Store.v ===== *)
(** * Store: the chunk store of [aggfs/src/store.rs]

    Chunks in a persistent-memory region handed out by a bump allocator, with a
    chunk capacity per file.  The region ([PmemRegion], its mapping and cache
    flushes) is its bytes; [None] is a failed [assert!] or [expect]. *)

From S2P Require Import Prelude.

Module Store.

Record ChunkLocation : Type := mkChunk { offset : Z; valid_len : Z }.

Record PmemStore : Type := mkStore {
  region : list Z;
  chunk_table : gmap (Z * Z) ChunkLocation;
  next_offset : Z;
  file_chunk_size : gmap Z Z;
  max_chunk_capacity : Z;
}.

Definition store_new (r : list Z) (max : Z) : PmemStore := mkStore r ∅ 0 ∅ max.

Definition region_len (s : PmemStore) : Z := Z.of_nat (length (region s)).

Definition register_file (path_hash chunk_size : Z) (s : PmemStore) : PmemStore :=
  mkStore (region s) (chunk_table s) (next_offset s)
    (<[path_hash := chunk_size]> (file_chunk_size s)) (max_chunk_capacity s).

Definition effective_chunk_size (s : PmemStore) (path_hash : Z) : Z :=
  default (max_chunk_capacity s) (file_chunk_size s !! path_hash).

Definition ensure_chunk (path_hash chunk_idx capacity : Z) (s : PmemStore)
    : option (PmemStore * ChunkLocation) :=
  match chunk_table s !! (path_hash, chunk_idx) with
  | Some c => Some (s, c)
  | None =>
      let off := next_offset s in
      if off + capacity <=? region_len s then
        let c := mkChunk off 0 in
        Some (mkStore (region s) (<[(path_hash, chunk_idx) := c]> (chunk_table s))
                (off + capacity) (file_chunk_size s) (max_chunk_capacity s), c)
      else None
  end.

Definition set_chunk (k : Z * Z) (c : ChunkLocation) (s : PmemStore) : PmemStore :=
  mkStore (region s) (<[k := c]> (chunk_table s)) (next_offset s) (file_chunk_size s)
    (max_chunk_capacity s).

(** Copy and persist [data] at [off] of the region. *)
Definition copy_in (off : Z) (data : list Z) (s : PmemStore) : PmemStore :=
  mkStore (write_bytes (region s) (Z.to_nat off) data) (chunk_table s) (next_offset s)
    (file_chunk_size s) (max_chunk_capacity s).

Definition write (path_hash chunk_idx off : Z) (data : list Z) (s : PmemStore)
    : option PmemStore :=
  let capacity := effective_chunk_size s path_hash in
  let stop := off + Z.of_nat (length data) in
  if stop <=? capacity then
    match ensure_chunk path_hash chunk_idx capacity s with
    | None => None
    | Some (s, chunk) =>
        let s := if valid_len chunk <? stop
                 then set_chunk (path_hash, chunk_idx) (mkChunk (offset chunk) stop) s else s in
        Some (copy_in (offset chunk + off) data s)
    end
  else None.

(** [read] into a buffer of [len] bytes: the bytes read. *)
Definition read (path_hash chunk_idx off len : Z) (s : PmemStore) : list Z :=
  match chunk_table s !! (path_hash, chunk_idx) with
  | None => []
  | Some c =>
      if valid_len c <=? off then []
      else
        let available := valid_len c - off in
        let to_read := Z.min len available in
        read_bytes (region s) (Z.to_nat (offset c + off)) (Z.to_nat to_read)
  end.

Definition remove (path_hash chunk_idx : Z) (s : PmemStore) : PmemStore * bool :=
  let sizes := if chunk_idx =? 0 then delete path_hash (file_chunk_size s)
               else file_chunk_size s in
  (mkStore (region s) (delete (path_hash, chunk_idx) (chunk_table s)) (next_offset s) sizes
     (max_chunk_capacity s),
   match chunk_table s !! (path_hash, chunk_idx) with Some _ => true | None => false end).

(** [prepare_write]: the region offset the device may write at, and how much. *)
Definition prepare_write (path_hash chunk_idx off : Z) (s : PmemStore)
    : option (PmemStore * (Z * Z)) :=
  let capacity := effective_chunk_size s path_hash in
  if off <=? capacity then
    match ensure_chunk path_hash chunk_idx capacity s with
    | None => None
    | Some (s, chunk) => Some (s, (offset chunk + off, capacity - off))
    end
  else None.

Definition commit_write (path_hash chunk_idx off len : Z) (s : PmemStore) : option PmemStore :=
  match chunk_table s !! (path_hash, chunk_idx) with
  | None => None
  | Some chunk =>
      let stop := off + len in
      Some (if valid_len chunk <? stop
            then set_chunk (path_hash, chunk_idx) (mkChunk (offset chunk) stop) s else s)
  end.

(** [ptr_for_chunk_read]: [Some None] is the null pointer. *)
Definition ptr_for_chunk_read (path_hash chunk_idx off : Z) (s : PmemStore)
    : option (option Z * Z) :=
  match chunk_table s !! (path_hash, chunk_idx) with
  | None => None
  | Some chunk =>
      if valid_len chunk <=? off then Some (None, 0)
      else Some (Some (offset chunk + off), valid_len chunk - off)
  end.

(** ** Invariant

    [caps] is the capacity each chunk was allocated with.  Chunks lie inside the
    allocated part of the region, do not overlap, and no file is allowed chunks
    larger than the ones it has. *)

Record store_ok (caps : gmap (Z * Z) Z) (s : PmemStore) : Prop := mk_store_ok {
  so_next : 0 <= next_offset s <= region_len s;
  so_size : forall ph, 0 <= effective_chunk_size s ph;
  so_chunk : forall k c, chunk_table s !! k = Some c ->
    exists cap, caps !! k = Some cap /\ 0 <= offset c /\ offset c + cap <= next_offset s /\
      0 <= valid_len c <= cap /\ effective_chunk_size s k.1 <= cap;
  so_disj : forall k1 k2 c1 c2 n1 n2, k1 <> k2 ->
    chunk_table s !! k1 = Some c1 -> chunk_table s !! k2 = Some c2 ->
    caps !! k1 = Some n1 -> caps !! k2 = Some n2 ->
    offset c1 + n1 <= offset c2 \/ offset c2 + n2 <= offset c1;
}.

Lemma store_new_ok r max : 0 <= max -> store_ok ∅ (store_new r max).
Proof.
  intros Hm. constructor; cbn.
  - unfold region_len. cbn. lia.
  - intros ph. unfold effective_chunk_size. cbn. by rewrite lookup_empty.
  - intros k c. by rewrite lookup_empty.
  - intros k1 k2 c1 c2 n1 n2 _. by rewrite lookup_empty.
Qed.

(** The capacity a chunk has, or gets when it is allocated. *)
Definition with_cap (caps : gmap (Z * Z) Z) (s : PmemStore) (k : Z * Z) : gmap (Z * Z) Z :=
  match chunk_table s !! k with
  | Some _ => caps
  | None => <[k := effective_chunk_size s k.1]> caps
  end.

Lemma ensure_chunk_ok caps s ph ci s' c :
  store_ok caps s -> ensure_chunk ph ci (effective_chunk_size s ph) s = Some (s', c) ->
  let caps' := with_cap caps s (ph, ci) in
  store_ok caps' s' /\ chunk_table s' !! (ph, ci) = Some c /\ region s' = region s /\
  (forall k, k <> (ph, ci) -> chunk_table s' !! k = chunk_table s !! k) /\
  (forall ph', effective_chunk_size s' ph' = effective_chunk_size s ph') /\
  (chunk_table s !! (ph, ci) = Some c \/ (chunk_table s !! (ph, ci) = None /\ valid_len c = 0)).
Proof.
  intros Hok. unfold ensure_chunk, with_cap. cbn [fst].
  destruct (chunk_table s !! (ph, ci)) as [c0|] eqn:E0.
  { intros [= <- <-]. split_and!; try done. by left. }
  destruct (_ <=? region_len s) eqn:E1; [|done]. intros [= <- <-]. guards.
  destruct Hok as [H1 H2 H3 H4]. pose proof (H2 ph) as Hph.
  split_and!; [|cbn; by rewrite lookup_insert_eq|done| |done|by right].
  - constructor; cbn.
    + unfold region_len in *. cbn. lia.
    + done.
    + intros k c Hk. destruct (decide (k = (ph, ci))) as [->|Hne].
      * rewrite lookup_insert_eq in Hk. simplify_eq. exists (effective_chunk_size s ph).
        rewrite lookup_insert_eq. cbn. change (effective_chunk_size _ ph) with
          (effective_chunk_size s ph) at 3. split_and!; (done || lia).
      * rewrite lookup_insert_ne in Hk by done. destruct (H3 k c Hk) as (cap & A & B & D & F & G).
        exists cap. rewrite lookup_insert_ne by done.
        change (effective_chunk_size _ k.1) with (effective_chunk_size s k.1).
        split_and!; (done || lia).
    + intros k1 k2 c1 c2 n1 n2 Hne Hk1 Hk2 Hn1 Hn2.
      destruct (decide (k1 = (ph, ci))) as [->|Hne1].
      * simplify_map_eq. destruct (H3 k2 c2 Hk2) as (cap & A & B & D & _). simplify_map_eq. lia.
      * destruct (decide (k2 = (ph, ci))) as [->|Hne2]; simplify_map_eq; [|by eapply (H4 k1 k2)].
        destruct (H3 k1 c1 Hk1) as (cap & A & B & D & _). simplify_map_eq. lia.
  - intros k Hk. cbn. by rewrite lookup_insert_ne.
Qed.

(** Growing the valid part of a chunk within the file's capacity. *)
Lemma set_valid_ok caps s k c n :
  store_ok caps s -> chunk_table s !! k = Some c -> 0 <= n <= effective_chunk_size s k.1 ->
  store_ok caps (set_chunk k (mkChunk (offset c) n) s).
Proof.
  intros [H1 H2 H3 H4] Hc Hn.
  assert (forall k' c', chunk_table (set_chunk k (mkChunk (offset c) n) s) !! k' = Some c' ->
    exists c0, chunk_table s !! k' = Some c0 /\ offset c' = offset c0 /\
      (valid_len c' = valid_len c0 \/ (k' = k /\ valid_len c' = n))) as Hold.
  { intros k' c' Hk'. cbn in Hk'. destruct (decide (k' = k)) as [->|]; simplify_map_eq.
    - exists c. split_and!; [done..|by right].
    - exists c'. split_and!; [done..|by left]. }
  constructor; [done|done| |].
  - intros k' c' Hk'. destruct (Hold k' c' Hk') as (c0 & Hc0 & Eo & Ev).
    destruct (H3 k' c0 Hc0) as (cap & A & B & D & F & G). exists cap. rewrite Eo.
    change (effective_chunk_size (set_chunk _ _ s) ?p) with (effective_chunk_size s p).
    split_and!; try done.
    + destruct Ev as [->|[_ ->]]; lia.
    + destruct Ev as [->|[-> ->]]; lia.
  - intros k1 k2 c1 c2 n1 n2 Hne Hk1 Hk2 Hn1 Hn2.
    destruct (Hold k1 c1 Hk1) as (a1 & A1 & -> & _). destruct (Hold k2 c2 Hk2) as (a2 & A2 & -> & _).
    by eapply (H4 k1 k2).
Qed.

Lemma copy_in_ok caps s off data :
  store_ok caps s -> 0 <= off -> off + Z.of_nat (length data) <= region_len s ->
  store_ok caps (copy_in off data s).
Proof.
  intros [H1 H2 H3 H4] Ho Hl. constructor; [|done..]. unfold region_len in *. cbn.
  rewrite length_write_bytes by lia. done.
Qed.

(** Where a write goes, and what it leaves alone. *)
Lemma write_spec caps s ph ci off data s' :
  store_ok caps s -> 0 <= off -> write ph ci off data s = Some s' ->
  let caps' := with_cap caps s (ph, ci) in
  let stop := off + Z.of_nat (length data) in
  exists c cap, store_ok caps' s' /\ chunk_table s' !! (ph, ci) = Some c /\
    caps' !! (ph, ci) = Some cap /\ stop <= cap /\ stop <= valid_len c /\
    region s' = write_bytes (region s) (Z.to_nat (offset c + off)) data /\
    (forall k, k <> (ph, ci) -> chunk_table s' !! k = chunk_table s !! k) /\
    (forall c0, chunk_table s !! (ph, ci) = Some c0 ->
       offset c = offset c0 /\ valid_len c = Z.max (valid_len c0) stop).
Proof.
  intros Hok Ho. unfold write. set (stop := off + Z.of_nat (length data)).
  destruct (stop <=? effective_chunk_size s ph) eqn:E1; [|done]. guards.
  destruct (ensure_chunk ph ci _ s) as [[s1 c1]|] eqn:E2; [|done]. intros [= <-].
  destruct (ensure_chunk_ok caps s ph ci s1 c1 Hok E2) as (Hok1 & Hc1 & Hr1 & Hk1 & He1 & Hold).
  set (caps' := with_cap caps s (ph, ci)) in *.
  destruct (so_chunk _ _ Hok1 _ _ Hc1) as (cap & A & B & D & F & G). cbn [fst] in G.
  rewrite He1 in G. pose proof (so_next _ _ Hok1) as Hnext.
  set (s2 := if valid_len c1 <? stop then _ else s1).
  assert (store_ok caps' s2 /\ region s2 = region s1 /\
    chunk_table s2 !! (ph, ci) = Some (mkChunk (offset c1) (Z.max (valid_len c1) stop)) /\
    (forall k, k <> (ph, ci) -> chunk_table s2 !! k = chunk_table s1 !! k))
    as (Hok2 & Hr2 & Hc2 & Hk2).
  { subst s2. destruct (valid_len c1 <? stop) eqn:E3; guards.
    - split_and!; [|done|..].
      + apply set_valid_ok; [done..|]. cbn [fst]. rewrite He1. lia.
      + cbn. rewrite lookup_insert_eq. do 2 f_equal. lia.
      + intros k Hk. cbn. by rewrite lookup_insert_ne.
    - split_and!; try done. rewrite Hc1. destruct c1; cbn in *. do 2 f_equal. lia. }
  exists (mkChunk (offset c1) (Z.max (valid_len c1) stop)), cap.
  split_and!; try done; cbn [offset valid_len]; try lia.
  - apply copy_in_ok; [done|lia|]. unfold region_len in *. rewrite Hr2. lia.
  - cbn. by rewrite Hr2, Hr1.
  - intros k Hk. cbn. by rewrite Hk2, Hk1.
  - intros c0 Hc0. destruct Hold as [Hold|[Hold _]]; [|congruence]. by simplify_eq.
Qed.

Lemma register_file_ok caps s ph n :
  store_ok caps s -> 0 <= n ->
  (forall ci c cap, chunk_table s !! (ph, ci) = Some c -> caps !! (ph, ci) = Some cap -> n <= cap) ->
  store_ok caps (register_file ph n s).
Proof.
  intros [H1 H2 H3 H4] Hn Hf.
  assert (forall ph', effective_chunk_size (register_file ph n s) ph' =
    if decide (ph = ph') then n else effective_chunk_size s ph') as He.
  { intros ph'. unfold effective_chunk_size. cbn. case_decide; by simplify_map_eq. }
  constructor; [done| | |done].
  - intros ph'. rewrite He. case_decide; [done|apply H2].
  - intros [ph' ci] c Hc. rewrite He. cbn in *. destruct (H3 (ph', ci) c Hc) as (cap & A & B & D & F & G).
    exists cap. split_and!; try done; [lia..|]. case_decide; [subst; by eapply Hf|done].
Qed.

Lemma remove_ok caps s ph ci :
  store_ok caps s -> 0 <= max_chunk_capacity s ->
  (ci = 0 -> forall i c cap, i <> 0 -> chunk_table s !! (ph, i) = Some c ->
     caps !! (ph, i) = Some cap -> max_chunk_capacity s <= cap) ->
  store_ok caps (remove ph ci s).1.
Proof.
  intros [H1 H2 H3 H4] Hm Hz. unfold remove. cbn [fst]. set (s' := mkStore _ _ _ _ _).
  assert (forall k c, chunk_table s' !! k = Some c ->
    chunk_table s !! k = Some c /\ k <> (ph, ci)) as Hd.
  { intros k c Hk. cbn in Hk. by apply lookup_delete_Some in Hk as [? ?]. }
  assert (forall ph', effective_chunk_size s' ph' = effective_chunk_size s ph' \/
    (ci = 0 /\ ph' = ph /\ effective_chunk_size s' ph' = max_chunk_capacity s)) as He.
  { intros ph'. unfold effective_chunk_size. cbn. destruct (ci =? 0) eqn:E; guards; [|by left].
    destruct (decide (ph' = ph)) as [->|]; simplify_map_eq; [by right|by left]. }
  constructor; [done| | |].
  - intros ph'. destruct (He ph') as [->|(_ & _ & ->)]; [apply H2|done].
  - intros k c Hk. destruct (Hd k c Hk) as [Hk' Hne].
    destruct (H3 k c Hk') as (cap & A & B & D & F & G). exists cap.
    do 4 (split; [assumption|]).
    destruct (He k.1) as [->|(Hc0 & Hp & ->)]; [done|]. destruct k as [p i]. cbn in Hp. subst p.
    assert (i <> 0) as Hi by (intros ->; by subst). by eapply Hz.
  - intros k1 k2 c1 c2 n1 n2 Hne Hk1 Hk2. destruct (Hd k1 c1 Hk1), (Hd k2 c2 Hk2).
    by apply (H4 k1 k2).
Qed.

(** Every operation a daemon issues.  The zero-copy write is [prepare_write], the
    device copying [data] to the place it returned, and [commit_write]. *)
Inductive StoreOp : Type :=
| OpRegister (ph n : Z)
| OpWrite (ph ci off : Z) (data : list Z)
| OpRdmaWrite (ph ci off : Z) (data : list Z)
| OpRemove (ph ci : Z).

Definition store_do (o : StoreOp) (s : PmemStore) : option PmemStore :=
  match o with
  | OpRegister ph n => Some (register_file ph n s)
  | OpWrite ph ci off data => write ph ci off data s
  | OpRdmaWrite ph ci off data =>
      '(s, (dst, _)) ← prepare_write ph ci off s;
      commit_write ph ci off (Z.of_nat (length data)) (copy_in dst data s)
  | OpRemove ph ci => Some (remove ph ci s).1
  end.

(** Sizes and offsets are unsigned. *)
Definition op_ok (o : StoreOp) : Prop :=
  match o with
  | OpRegister _ n => 0 <= n
  | OpWrite _ _ off _ | OpRdmaWrite _ _ off _ => 0 <= off
  | OpRemove _ _ => True
  end.

(** The operation respects the capacities [caps] the chunks were allocated with:
    the chunk size a file gets - by registration, or the default when its chunk 0
    is removed - is not larger than a chunk it still has, and a zero-copy write
    stays in the room [prepare_write] reports. *)
Definition within (caps : gmap (Z * Z) Z) (o : StoreOp) (s : PmemStore) : Prop :=
  match o with
  | OpRegister ph n =>
      forall ci c cap, chunk_table s !! (ph, ci) = Some c -> caps !! (ph, ci) = Some cap -> n <= cap
  | OpWrite _ _ _ _ => True
  | OpRdmaWrite ph ci off data =>
      forall s1 dst n, prepare_write ph ci off s = Some (s1, (dst, n)) -> Z.of_nat (length data) <= n
  | OpRemove ph ci =>
      ci = 0 -> forall i c cap, i <> 0 -> chunk_table s !! (ph, i) = Some c ->
        caps !! (ph, i) = Some cap -> max_chunk_capacity s <= cap
  end.

(** The capacities after the operation. *)
Definition caps_after (caps : gmap (Z * Z) Z) (o : StoreOp) (s : PmemStore) : gmap (Z * Z) Z :=
  match o with
  | OpWrite ph ci _ _ | OpRdmaWrite ph ci _ _ => with_cap caps s (ph, ci)
  | _ => caps
  end.

Inductive store_step : gmap (Z * Z) Z * PmemStore -> gmap (Z * Z) Z * PmemStore -> Prop :=
| step_do o caps s s' :
    op_ok o -> store_do o s = Some s' -> within caps o s ->
    store_step (caps, s) (caps_after caps o s, s').

(** The zero-copy write is the plain one. *)
Lemma rdma_write_is_write ph ci off n data s s1 dst s2 :
  prepare_write ph ci off s = Some (s1, (dst, n)) -> Z.of_nat (length data) <= n ->
  commit_write ph ci off (Z.of_nat (length data)) (copy_in dst data s1) = Some s2 ->
  write ph ci off data s = Some s2.
Proof.
  unfold prepare_write, write, commit_write. destruct (off <=? _) eqn:E1; [|done]. guards.
  destruct (ensure_chunk ph ci _ s) as [[s3 c]|] eqn:E2; [|done]. intros [= <- <- <-] Hn.
  rewrite (proj2 (Z.leb_le _ _)) by lia.
  assert (chunk_table s3 !! (ph, ci) = Some c) as Hc.
  { revert E2. unfold ensure_chunk. destruct (chunk_table s !! (ph, ci)) eqn:E3.
    - intros [= <- <-]. done.
    - destruct (_ <=? _); [|done]. intros [= <- <-]. cbn. by rewrite lookup_insert_eq. }
  cbn [chunk_table copy_in]. rewrite Hc. intros [= <-]. by destruct (valid_len c <? _).
Qed.

Lemma write_frame ph ci off data s s' :
  write ph ci off data s = Some s' -> max_chunk_capacity s' = max_chunk_capacity s.
Proof.
  unfold write. destruct (_ <=? _); [|done]. unfold ensure_chunk.
  destruct (chunk_table s !! (ph, ci)); [|destruct (_ <=? _); [|done]]; intros [= <-];
    by destruct (_ <? _).
Qed.

Lemma store_step_ok x x' :
  store_step x x' -> store_ok x.1 x.2 -> 0 <= max_chunk_capacity x.2 ->
  store_ok x'.1 x'.2 /\ 0 <= max_chunk_capacity x'.2.
Proof.
  destruct 1 as [o caps s s' Ho Hd Hw]. cbn [fst snd]. intros Hok Hm.
  assert (forall ph ci off data, 0 <= off -> write ph ci off data s = Some s' ->
    store_ok (with_cap caps s (ph, ci)) s' /\ 0 <= max_chunk_capacity s') as Hwr.
  { intros ph ci off data Hoff E. destruct (write_spec caps s ph ci off data s' Hok Hoff E) as (c & cap & H & _).
    split; [exact H|]. by rewrite (write_frame _ _ _ _ _ _ E). }
  destruct o as [ph n|ph ci off data|ph ci off data|ph ci]; cbn in Ho, Hd, Hw |- *.
  - injection Hd as <-. split; [by apply register_file_ok|done].
  - by apply (Hwr ph ci off data).
  - destruct (prepare_write ph ci off s) as [[s1 [dst n]]|] eqn:E; [|done]. cbn in Hd.
    apply (Hwr ph ci off data); [done|].
    exact (rdma_write_is_write _ _ _ _ _ _ _ _ _ E (Hw _ _ _ eq_refl) Hd).
  - injection Hd as <-. split; [by apply remove_ok|done].
Qed.

(** A read inside its chunk does not see a write to another range. *)
Lemma read_region_out s r' ph ci off len c cap next :
  chunk_table s !! (ph, ci) = Some c -> 0 <= off -> 0 <= offset c -> valid_len c <= cap ->
  (forall a n, offset c <= a -> 0 <= n -> a + n <= offset c + cap ->
     read_bytes r' (Z.to_nat a) (Z.to_nat n) = read_bytes (region s) (Z.to_nat a) (Z.to_nat n)) ->
  forall fs mx t, t !! (ph, ci) = Some c ->
  read ph ci off len (mkStore r' t next fs mx) = read ph ci off len s.
Proof.
  intros Hc Ho Hc0 Hv Hr fs mx t Ht. unfold read. cbn [chunk_table region]. rewrite Ht, Hc.
  destruct (valid_len c <=? off) eqn:E; guards; [done|].
  destruct (decide (0 <= Z.min len (valid_len c - off))).
  - apply Hr; lia.
  - by replace (Z.to_nat (Z.min len (valid_len c - off))) with 0%nat by lia.
Qed.

(** ** Properties *)

(** C19: over every sequence of registrations, writes, zero-copy writes and
    removals that do not panic, the valid parts of different chunks do not
    overlap and all lie inside the region, as long as the operations respect the
    capacities the chunks were allocated with ([within]): the chunk size in
    force for a file never exceeds a chunk it has, and a zero-copy write stays in
    the room it was given.  The daemon ensures neither; [unlink_write_corrupts],
    [unlink_recreate_corrupts] and [rdma_write_corrupts] are runs in which a
    chunk is overwritten. *)
Theorem store_reachable r max caps s :
  0 <= max -> rtc store_step (∅, store_new r max) (caps, s) ->
  (forall k c, chunk_table s !! k = Some c ->
     0 <= offset c /\ 0 <= valid_len c /\ offset c + valid_len c <= region_len s) /\
  (forall k1 k2 c1 c2, k1 <> k2 -> chunk_table s !! k1 = Some c1 -> chunk_table s !! k2 = Some c2 ->
     offset c1 + valid_len c1 <= offset c2 \/ offset c2 + valid_len c2 <= offset c1).
Proof.
  intros Hm Hr.
  assert (forall x x', rtc store_step x x' -> store_ok x.1 x.2 -> 0 <= max_chunk_capacity x.2 ->
    store_ok x'.1 x'.2) as Hrun.
  { induction 1 as [|x1 x2 x3 Hs _ IH]; [done|]. intros H1 H2.
    destruct (store_step_ok _ _ Hs H1 H2). by apply IH. }
  destruct (Hrun _ _ Hr (store_new_ok r max Hm) Hm) as [H1 H2 H3 H4]. cbn [fst snd] in *. split.
  - intros k c Hc. destruct (H3 k c Hc) as (cap & A & B & D & F & G). lia.
  - intros k1 k2 c1 c2 Hne Hc1 Hc2. destruct (H3 k1 c1 Hc1) as (n1 & A1 & _ & _ & F1 & _).
    destruct (H3 k2 c2 Hc2) as (n2 & A2 & _ & _ & F2 & _).
    destruct (H4 k1 k2 c1 c2 n1 n2 Hne Hc1 Hc2 A1 A2); lia.
Qed.

Lemma store_reachable_witness :
  exists s, write 7 0 0 [1; 2; 3] (store_new (replicate 16 0) 8) = Some s /\
    forall k c, chunk_table s !! k = Some c -> offset c + valid_len c <= region_len s.
Proof.
  eexists. split; [reflexivity|]. intros k c Hc.
  destruct (store_reachable (replicate 16 0) 8 _ _ ltac:(lia)
    (rtc_once _ _ (step_do (OpWrite 7 0 0 [1; 2; 3]) ∅ (store_new (replicate 16 0) 8) _
      ltac:(cbn; lia) eq_refl I)))
    as [H _]. by apply (H k c).
Defined.

(** Data written to a chunk is read back, reads of any other chunk and of the
    bytes before the write are unchanged, and the invariant is kept. *)
Theorem store_write_read caps s ph ci off data s' :
  store_ok caps s -> 0 <= off -> 0 < Z.of_nat (length data) ->
  write ph ci off data s = Some s' ->
  store_ok (with_cap caps s (ph, ci)) s' /\
  read ph ci off (Z.of_nat (length data)) s' = data /\
  (forall ph' ci' off' len, (ph', ci') <> (ph, ci) -> 0 <= off' ->
     read ph' ci' off' len s' = read ph' ci' off' len s) /\
  (forall c0 off' len, chunk_table s !! (ph, ci) = Some c0 -> 0 <= off' -> 0 <= len ->
     off' + len <= off -> off' + len <= valid_len c0 ->
     read ph ci off' len s' = read ph ci off' len s).
Proof.
  intros Hok Ho Hd Hw.
  destruct (write_spec caps s ph ci off data s' Hok Ho Hw)
    as (c & cap & Hok' & Hc & Hcap & Hs1 & Hs2 & Hreg & Hk & Hold).
  destruct (so_chunk _ _ Hok' _ _ Hc) as (cap' & A & B & D & F & G). simplify_eq.
  pose proof (so_next _ _ Hok') as Hn.
  assert (region_len s' = region_len s) as Hl.
  { unfold region_len in *. rewrite Hreg. rewrite Hreg in Hn.
    unfold write_bytes in Hn |- *. rewrite !length_app, !length_take, length_drop in *. lia. }
  unfold region_len in Hl, Hn.
  split_and!; [done|..].
  - unfold read. rewrite Hc. rewrite (proj2 (Z.leb_gt _ _)) by lia.
    rewrite Z.min_l by lia. rewrite Nat2Z.id, Hreg. apply read_write_same. lia.
  - intros ph' ci' off' len Hne Ho'. destruct (chunk_table s !! (ph', ci')) as [c'|] eqn:Hc'.
    + assert (chunk_table s' !! (ph', ci') = Some c') as Hc'' by (by rewrite Hk).
      destruct (so_chunk _ _ Hok' _ _ Hc'') as (n' & A' & B' & D' & F' & G').
      pose proof (so_disj _ _ Hok' _ _ _ _ _ _ Hne Hc'' Hc A' Hcap) as Hdis.
      destruct s'. eapply (read_region_out s _ ph' ci' off' len c' n'); try done; [lia|].
      intros a m Ha Hm Ham. cbn in Hreg. rewrite Hreg. cbn in *.
      rewrite read_write_out; [done|lia|]. lia.
    + unfold read. by rewrite Hk, Hc'.
  - intros c0 off' len Hc0 Ho' Hlen Hb Hv. destruct (Hold c0 Hc0) as [E1 E2].
    unfold read. rewrite Hc, Hc0, E1.
    destruct (decide (len = 0)) as [->|].
    { by destruct (_ <=? _), (_ <=? _); rewrite ?Z.min_l by lia. }
    rewrite !(proj2 (Z.leb_gt _ _)) by lia. rewrite !Z.min_l by lia. rewrite Hreg, E1.
    apply read_write_out; lia.
Qed.

Lemma store_write_read_witness :
  exists s', write 7 0 2 [1; 2; 3] (store_new (replicate 16 0) 8) = Some s' /\
    read 7 0 2 3 s' = [1; 2; 3].
Proof.
  eexists. split; [reflexivity|].
  eapply (store_write_read ∅ (store_new (replicate 16 0) 8) 7 0 2 [1; 2; 3]);
    [apply store_new_ok; lia|lia|cbn; lia|reflexivity].
Defined.

(** Unlinking removes only chunk 0 and forgets the file's chunk size; after the
    file is created again with larger chunks, a write to a chunk left over from
    before overruns it and changes the data of another file. *)
Theorem unlink_recreate_corrupts :
  let s0 := register_file 2 8 (register_file 1 8 (store_new (replicate 128 0) 64)) in
  exists s1 s2 s3,
    write 1 1 0 [1; 1; 1; 1] s0 = Some s1 /\
    write 2 0 0 [2; 2; 2; 2] s1 = Some s2 /\
    read 2 0 0 4 s2 = [2; 2; 2; 2] /\
    write 1 1 0 (replicate 16 9) (register_file 1 16 (remove 1 0 s2).1) = Some s3 /\
    read 2 0 0 4 s3 = [9; 9; 9; 9].
Proof.
  do 3 eexists. split; [vm_compute; reflexivity|]. split; [vm_compute; reflexivity|].
  split; [vm_compute; reflexivity|]. split; vm_compute; reflexivity.
Qed.

(** An unlink alone is enough: with chunk 0 gone the chunks left over take the
    default size, and a write to one of them overruns it. *)
Theorem unlink_write_corrupts :
  let s0 := register_file 2 8 (register_file 1 8 (store_new (replicate 128 0) 64)) in
  exists s1 s2 s3,
    write 1 1 0 [1; 1; 1; 1] s0 = Some s1 /\
    write 2 0 0 [2; 2; 2; 2] s1 = Some s2 /\
    read 2 0 0 4 s2 = [2; 2; 2; 2] /\
    write 1 1 0 (replicate 16 9) (remove 1 0 s2).1 = Some s3 /\
    read 2 0 0 4 s3 = [9; 9; 9; 9].
Proof.
  do 3 eexists. split; [vm_compute; reflexivity|]. split; [vm_compute; reflexivity|].
  split; [vm_compute; reflexivity|]. split; vm_compute; reflexivity.
Qed.

(** And so is a zero-copy write longer than the room [prepare_write] reports. *)
Theorem rdma_write_corrupts :
  let s0 := register_file 2 8 (register_file 1 8 (store_new (replicate 128 0) 64)) in
  exists s1 s2 s3,
    store_do (OpRdmaWrite 1 0 0 [1; 1; 1; 1]) s0 = Some s1 /\
    store_do (OpRdmaWrite 2 0 0 [2; 2; 2; 2]) s1 = Some s2 /\
    read 2 0 0 4 s2 = [2; 2; 2; 2] /\
    store_do (OpRdmaWrite 1 0 0 (replicate 16 9)) s2 = Some s3 /\
    read 2 0 0 4 s3 = [9; 9; 9; 9].
Proof.
  do 3 eexists. split; [vm_compute; reflexivity|]. split; [vm_compute; reflexivity|].
  split; [vm_compute; reflexivity|]. split; vm_compute; reflexivity.
Qed.

End Store.
