(* ===== verification/Routing.v ===== *)
(** * Routing: placement of chunks on daemons, [aggfs/src/routing.rs]

    The number-aware hash and the round-robin placement of chunks and of
    sequentially numbered files. *)

From S2P Require Import Prelude.

Module Routing.

Definition is_ascii_digit (b : Z) : bool := (48 <=? b) && (b <=? 57).

(** The inner loop: the value of the leading digits (wrapping) and the rest. *)
Fixpoint parse_num (s : list Z) (num : Z) : Z * list Z :=
  match s with
  | b :: s' => if is_ascii_digit b then parse_num s' (u64 (u64 (num * 10) + (b - 48)))
               else (num, s)
  | [] => (num, [])
  end.

(** The outer loop; every iteration consumes a byte, so the length of the name is
    enough fuel. *)
Fixpoint koyama_loop (fuel : nat) (s : list Z) (hash : Z) : Z :=
  match fuel with
  | O => hash
  | S fuel =>
      match s with
      | [] => hash
      | b :: s' =>
          if is_ascii_digit b then
            let '(num, rest) := parse_num s 0 in
            koyama_loop fuel rest (u64 (hash + num))
          else koyama_loop fuel s' (u64 (u64 (hash * 31) + b))
      end
  end.

Definition koyama_hash (s : list Z) : Z := koyama_loop (length s) s 0.

Definition route (path_hash chunk_index total_daemons : Z) : Z :=
  u64 (path_hash + chunk_index) mod total_daemons.

Definition global_to_local (global_id daemons_per_node : Z) : Z * Z :=
  (u32 (global_id / daemons_per_node), global_id mod daemons_per_node).

(** ** Hashing *)

(** Digits of a number, most significant first; the value they spell. *)
Definition digit (d : Z) : Prop := 48 <= d <= 57.
Definition spell (ds : list Z) : Z := foldl (fun n d => n * 10 + (d - 48)) 0 ds.

Lemma is_ascii_digit_spec b : is_ascii_digit b = true <-> digit b.
Proof. unfold is_ascii_digit, digit. rewrite andb_true_iff. lia. Qed.

Lemma parse_num_digits ds rest num :
  Forall digit ds -> (forall b s, rest = b :: s -> ~ digit b) ->
  parse_num (ds ++ rest) (u64 num) =
    (u64 (foldl (fun n d => n * 10 + (d - 48)) num ds), rest).
Proof.
  intros Hds Hr. revert num. induction Hds as [|d ds Hd Hds IH]; intros num; cbn.
  - destruct rest as [|b s]; [done|]. cbn.
    destruct (is_ascii_digit b) eqn:E; [|done]. apply is_ascii_digit_spec in E.
    by destruct (Hr b s eq_refl).
  - rewrite (proj2 (is_ascii_digit_spec d) Hd).
    replace (u64 (u64 (u64 num * 10) + (d - 48))) with (u64 (num * 10 + (d - 48))); [apply IH|].
    unfold u64, wrap. rewrite Zplus_mod_idemp_l.
    rewrite (Z.add_mod (num mod 2 ^ 64 * 10)), (Z.mul_mod_idemp_l num), <-Z.add_mod by done.
    done.
Qed.

Lemma parse_num_length s n : (length (parse_num s n).2 <= length s)%nat.
Proof.
  revert n. induction s as [|b s IH]; intros n; cbn; [done|].
  destruct (is_ascii_digit b); cbn; [|done]. etrans; [apply IH|]. lia.
Qed.

(** More fuel than the length of the name changes nothing. *)
Lemma koyama_loop_fuel f1 f2 s h :
  (length s <= f1)%nat -> (length s <= f2)%nat -> koyama_loop f1 s h = koyama_loop f2 s h.
Proof.
  revert f2 s h. induction f1 as [|f1 IH]; intros f2 s h H1 H2.
  { destruct s; [|cbn in H1; lia]. by destruct f2. }
  destruct s as [|b s]; [by destruct f2|]. destruct f2 as [|f2]; [cbn in H2; lia|].
  cbn [koyama_loop]. cbn [length] in H1, H2.
  destruct (is_ascii_digit b) eqn:E; [|apply IH; lia].
  pose proof (parse_num_length s (u64 (u64 (0 * 10) + (b - 48)))) as Hp.
  cbn [parse_num]. rewrite E. destruct (parse_num s _) as [num rest]. cbn in Hp.
  apply IH; lia.
Qed.

(** The name does not end with a digit. *)
Definition ends_nondigit (p : list Z) : Prop := forall p' b, p = p' ++ [b] -> ~ digit b.

Lemma ends_nondigit_tail b p : ends_nondigit (b :: p) -> ends_nondigit p.
Proof. intros H p' x ->. by apply (H (b :: p') x). Qed.

(** Digits inside such a name end inside it. *)
Lemma parse_num_app p q n :
  ends_nondigit p -> p <> [] ->
  parse_num (p ++ q) n = ((parse_num p n).1, (parse_num p n).2 ++ q) /\
  ends_nondigit (parse_num p n).2.
Proof.
  revert n. induction p as [|b p IH]; intros n He Hne; [done|]. cbn.
  destruct (is_ascii_digit b) eqn:E; [|done]. apply IH; [by eapply ends_nondigit_tail|].
  intros ->. apply (He [] b eq_refl). by apply is_ascii_digit_spec.
Qed.

Lemma koyama_loop_app fuel p q h :
  ends_nondigit p -> (length p + length q <= fuel)%nat ->
  koyama_loop fuel (p ++ q) h = koyama_loop (length q) q (koyama_loop (length p) p h).
Proof.
  revert p h. induction fuel as [|fuel IH]; intros p h He Hl.
  { destruct p, q; cbn in Hl; (done || lia). }
  destruct p as [|b p]; [apply koyama_loop_fuel; cbn in *; lia|].
  cbn [app length koyama_loop]. cbn [length] in Hl.
  destruct (is_ascii_digit b) eqn:E.
  2:{ rewrite IH by (by eapply ends_nondigit_tail || lia). done. }
  pose proof (parse_num_app (b :: p) q 0 He ltac:(done)) as [Hp Hr].
  cbn [app] in Hp. rewrite Hp.
  assert (length (parse_num (b :: p) 0).2 <= length p)%nat as Hlr.
  { cbn [parse_num]. rewrite E. apply parse_num_length. }
  destruct (parse_num (b :: p) 0) as [num rest]. cbn [fst snd] in *.
  rewrite IH by (done || lia). f_equal. apply koyama_loop_fuel; lia.
Qed.

Lemma koyama_loop_num ds h :
  Forall digit ds -> ds <> [] -> koyama_loop (length ds) ds h = u64 (h + u64 (spell ds)).
Proof.
  intros Hds Hne. destruct ds as [|d ds]; [done|].
  cbn [length koyama_loop]. rewrite (proj2 (is_ascii_digit_spec d)) by (by inversion Hds).
  pose proof (parse_num_digits (d :: ds) [] 0 Hds ltac:(done)) as Hp.
  rewrite app_nil_r in Hp. change (u64 0) with 0 in Hp. rewrite Hp. by destruct ds.
Qed.

(** A trailing number is added to the hash of what precedes it. *)
Lemma koyama_hash_number p ds :
  ends_nondigit p -> Forall digit ds -> ds <> [] ->
  koyama_hash (p ++ ds) = u64 (koyama_hash p + spell ds).
Proof.
  intros He Hds Hne. unfold koyama_hash at 1.
  rewrite koyama_loop_app by (done || (rewrite length_app; lia)).
  rewrite koyama_loop_num by done. fold (koyama_hash p). unfold u64, wrap.
  apply Zplus_mod_idemp_r.
Qed.

(** ** Round robin *)

Lemma mod_shift_perm a n : 0 < n ->
  (fun i => (a + i) mod n) <$> seqZ 0 n ≡ₚ seqZ 0 n.
Proof.
  intros Hn. apply NoDup_Permutation.
  - apply NoDup_fmap_2_strong; [|apply NoDup_seqZ].
    intros x y [Hx1 Hx2]%elem_of_seqZ [Hy1 Hy2]%elem_of_seqZ Heq.
    assert ((x - y) mod n = 0) as Hm.
    { replace (x - y) with ((a + x) - (a + y)) by lia.
      rewrite Zminus_mod, Heq, Z.sub_diag. apply Z.mod_0_l. lia. }
    apply Z.mod_divide in Hm as [q Hq]; [|lia].
    assert (q = 0) as -> by nia. lia.
  - apply NoDup_seqZ.
  - intros x. rewrite list_elem_of_fmap, elem_of_seqZ. split.
    + intros (i & -> & _). pose proof (Z.mod_pos_bound (a + i) n Hn). lia.
    + intros Hx. exists ((x - a) mod n). rewrite elem_of_seqZ.
      pose proof (Z.mod_pos_bound (x - a) n Hn). split; [|lia].
      rewrite Zplus_mod_idemp_r. replace (a + (x - a)) with x by lia.
      symmetry. apply Z.mod_small. lia.
Qed.

Lemma route_small h c n : 0 <= h + c < 2 ^ 64 -> route h c n = (h + c) mod n.
Proof. intros H. unfold route. by rewrite u64_small. Qed.

(** ** Properties *)

(** Any [n] consecutive chunks of a file go to the [n] daemons once each (as
    long as the hash does not wrap), and a daemon's global number is its node
    and its index on the node. *)
Theorem chunks_round_robin path_hash first n daemons_per_node :
  0 < n -> 0 <= path_hash -> 0 <= first -> path_hash + first + n <= 2 ^ 64 ->
  0 < daemons_per_node -> n <= 2 ^ 32 ->
  (fun i => route path_hash (first + i) n) <$> seqZ 0 n ≡ₚ seqZ 0 n /\
  forall i, 0 <= i < n ->
    let id := route path_hash (first + i) n in
    let '(node, local) := global_to_local id daemons_per_node in
    node * daemons_per_node + local = id /\ 0 <= local < daemons_per_node.
Proof.
  intros Hn Hh Hf Hlt Hd Hn2. split.
  - rewrite <-(mod_shift_perm (path_hash + first) n Hn) at 2.
    erewrite list_fmap_ext; [reflexivity|]. intros j i Hi%list_elem_of_lookup_2.
    apply elem_of_seqZ in Hi. rewrite route_small; [f_equal; lia|lia].
  - intros i Hi id. unfold global_to_local.
    assert (0 <= id < n) as Hid by (apply Z.mod_pos_bound; lia).
    pose proof (Z.div_mod id daemons_per_node ltac:(lia)) as Hdm.
    assert (0 <= id / daemons_per_node <= id) as Hq.
    { split; [apply Z.div_pos; lia|]. apply Z.div_le_upper_bound; nia. }
    rewrite u32_small by lia. split; [lia|]. by apply Z.mod_pos_bound.
Qed.

Lemma chunks_round_robin_witness :
  (fun i => route 10 (0 + i) 4) <$> seqZ 0 4 ≡ₚ [0; 1; 2; 3].
Proof. apply (chunks_round_robin 10 0 4 2); lia. Defined.

(** Files named by a common prefix and consecutive numbers, however padded,
    are spread over the [n] daemons once each: the hash of the name is the hash
    of the prefix plus the number. *)
Theorem numbered_files_round_robin p (name : Z -> list Z) first n :
  ends_nondigit p -> 0 < n -> 0 <= first ->
  koyama_hash p + first + n <= 2 ^ 64 -> 0 <= koyama_hash p ->
  (forall i, 0 <= i < n -> Forall digit (name i) /\ name i <> [] /\ spell (name i) = first + i) ->
  (fun i => route (koyama_hash (p ++ name i)) 0 n) <$> seqZ 0 n ≡ₚ seqZ 0 n.
Proof.
  intros Hp Hn Hf Hlt Hh Hname. rewrite <-(mod_shift_perm (koyama_hash p + first) n Hn) at 2.
  erewrite list_fmap_ext; [reflexivity|]. intros j i Hi%list_elem_of_lookup_2.
  apply elem_of_seqZ in Hi. destruct (Hname i ltac:(lia)) as (H1 & H2 & H3).
  rewrite koyama_hash_number, H3 by done. rewrite u64_small by lia.
  rewrite route_small; [f_equal; lia|lia].
Qed.

Lemma numbered_files_round_robin_witness :
  (fun i => route (koyama_hash ([102] ++ [48 + i])) 0 4) <$> seqZ 0 4 ≡ₚ [0; 1; 2; 3].
Proof.
  apply (numbered_files_round_robin [102] (fun i => [48 + i]) 0 4);
    [|lia|lia|vm_compute; congruence|vm_compute; congruence|].
  - intros p' b H. destruct p' as [|x [|y p']]; try discriminate. injection H as <-.
    unfold digit. lia.
  - intros i Hi. split_and!; [repeat constructor; unfold digit; lia|done|].
    unfold spell. cbn [foldl]. lia.
Defined.

(** The hash is the only identity a file has, and different names share it:
    "f01" and "f1", and also "x1" and "y". *)
Theorem hash_aliases :
  koyama_hash [102; 48; 49] = koyama_hash [102; 49] /\
  koyama_hash [120; 49] = koyama_hash [121].
Proof. vm_compute. done. Qed.


End Routing.
