(* ===== verification/Onesided.v ===== *)
(** * The one-sided request channels of mempc

    [mempc/src/onesided.rs]: single-producer rings with a generation number per
    slot, which only the producer writes, and the many-caller request/response
    channel built from a pair of them per caller.  A send is two memory
    accesses (value, then generation) and so is a receive (generation, then
    value); the accesses are definitions of their own, the operations are
    composed from them, and [lane_step] interleaves them, so that the theorems
    cover a caller and a server running at the same time.  Memory is
    sequentially consistent, which is what the compiler fences give on the
    x86-64 targets of the crate. *)
From S2P Require Import Prelude.

Module Onesided.

(** ** Rings *)

Section Ring.
Context {T : Type}.

(** [struct Slot]; [data] is [None] while the memory is uninitialised. *)
Record Slot : Type := mkSlot { generation : Z; data : option T }.

(** [Slot::init]. *)
Definition slot_init : Slot := mkSlot U64_MAX None.

Record RawSender : Type := mkSender { s_mask : Z; head : Z; sends_since_publish : Z }.
Record RawReceiver : Type := mkReceiver { r_mask : Z; tail : Z }.

Definition sender_new (capacity : Z) : RawSender := mkSender (capacity - 1) 0 0.
Definition receiver_new (capacity : Z) : RawReceiver := mkReceiver (capacity - 1) 0.

(** The memory accesses: a slot is always reached through a masked index. *)
Definition write_data (i : Z) (v : T) (m : list Slot) : list Slot :=
  alter (fun s => mkSlot (generation s) (Some v)) (Z.to_nat i) m.
Definition write_generation (i g : Z) (m : list Slot) : list Slot :=
  alter (fun s => mkSlot g (data s)) (Z.to_nat i) m.
Definition read_generation (i : Z) (m : list Slot) : option Z := generation <$> m !! Z.to_nat i.
Definition read_data (i : Z) (m : list Slot) : option T := m !! Z.to_nat i ≫= data.

Definition send_idx (tx : RawSender) : Z := Z.land (head tx) (s_mask tx).
Definition recv_idx (rx : RawReceiver) : Z := Z.land (tail rx) (r_mask rx).

(** The two halves of [RawSender::try_send], before and after the release
    fence. *)
Definition send_store (tx : RawSender) (v : T) (m : list Slot) : list Slot :=
  write_data (send_idx tx) v m.
Definition send_commit (tx : RawSender) (m : list Slot) : RawSender * list Slot * Z :=
  (mkSender (s_mask tx) (u64 (head tx + 1)) (u64 (sends_since_publish tx + 1)),
   write_generation (send_idx tx) (head tx) m, send_idx tx).

Definition raw_try_send (tx : RawSender) (v : T) (m : list Slot)
    : option (RawSender * list Slot * Z) :=
  Some (send_commit tx (send_store tx v m)).

(** [RawSender::publish]. *)
Definition publish (tx : RawSender) : RawSender := mkSender (s_mask tx) (head tx) 0.

(** The two halves of [RawReceiver::try_recv], around the acquire fence. *)
Definition recv_check (rx : RawReceiver) (m : list Slot) : bool :=
  bool_decide (read_generation (recv_idx rx) m = Some (tail rx)).
Definition recv_take (rx : RawReceiver) (m : list Slot) : RawReceiver * (Z * option T) :=
  (mkReceiver (r_mask rx) (u64 (tail rx + 1)), (recv_idx rx, read_data (recv_idx rx) m)).

Definition raw_try_recv (rx : RawReceiver) (m : list Slot)
    : option (RawReceiver * (Z * option T)) :=
  if recv_check rx m then Some (recv_take rx m) else None.

Definition available (rx : RawReceiver) (m : list Slot) : Z :=
  if recv_check rx m then 1 else 0.

(** [count_available]: slots from [pos] on whose generation is their position,
    at most [max] of them. *)
Fixpoint count_from (mask pos : Z) (m : list Slot) (max : nat) : Z :=
  match max with
  | O => 0
  | S max =>
      if bool_decide (read_generation (Z.land pos mask) m = Some pos)
      then 1 + count_from mask (u64 (pos + 1)) m max else 0
  end.
Definition count_available (rx : RawReceiver) (max : Z) (m : list Slot) : Z :=
  count_from (r_mask rx) (tail rx) m (Z.to_nat max).

(** [struct Inner]: the shared buffer and the two liveness flags. *)
Record Inner : Type := mkInner { buffer : list Slot; tx_alive : bool; rx_alive : bool }.

(** [Sender::try_send]. *)
Definition try_send (tx : RawSender) (v : T) (ch : Inner) : option (RawSender * Inner * Z) :=
  if negb (rx_alive ch) then None
  else match raw_try_send tx v (buffer ch) with
       | Some (tx, m, i) => Some (tx, mkInner m (tx_alive ch) (rx_alive ch), i)
       | None => None
       end.

(** [Receiver::try_recv]. *)
Definition try_recv (rx : RawReceiver) (ch : Inner) : option (RawReceiver * (Z * option T)) :=
  raw_try_recv rx (buffer ch).

(** [Drop] of the two ends. *)
Definition drop_sender (ch : Inner) : Inner := mkInner (buffer ch) false (rx_alive ch).
Definition drop_receiver (ch : Inner) : Inner := mkInner (buffer ch) (tx_alive ch) false.

(** [create_spsc]; [None] is the failed assertion. *)
Definition create_spsc (capacity : Z) : option (RawSender * RawReceiver * Inner) :=
  if is_power_of_two capacity
  then Some (sender_new capacity, receiver_new capacity,
             mkInner (replicate (Z.to_nat capacity) slot_init) true true)
  else None.

End Ring.
Arguments Slot : clear implicits.
Arguments Inner : clear implicits.

(** ** Request channels *)

Record Response (R : Type) : Type := mkResponse { token : Z; resp_data : R }.
Arguments mkResponse {R} _ _.
Arguments token {R} _.
Arguments resp_data {R} _.

Inductive CallError (Q : Type) : Type :=
| Full (q : Q)
| InflightExceeded (q : Q)
| Disconnected (q : Q).
Arguments Full {Q} _.
Arguments InflightExceeded {Q} _.
Arguments Disconnected {Q} _.

Record ReplyToken : Type := mkToken { tk_caller_id : Z; slot_token : Z }.

Section Channel.
Context {Req Resp : Type}.

(** [OnesidedCaller]; the buffers its two ends share with the server are
    arguments of the operations. *)
Record Caller : Type := mkCaller {
  call_tx : RawSender;
  resp_rx : RawReceiver;
  inflight : Z;
  max_inflight : Z;
}.

(** [CallerState], the server's ends of a caller's rings. *)
Record CallerState : Type := mkState { call_rx : RawReceiver; resp_tx : RawSender }.

Record Server : Type := mkServer { callers : list CallerState; scan_pos : Z }.

Definition call (c : Caller) (req : Req) (ch : Inner Req)
    : Caller * Inner Req * result Z (CallError Req) :=
  if negb (rx_alive ch) then (c, ch, Err (Disconnected req))
  else if max_inflight c <=? inflight c then (c, ch, Err (InflightExceeded req))
  else match try_send (call_tx c) req ch with
       | Some (tx, ch, slot_idx) =>
           (mkCaller tx (resp_rx c) (inflight c + 1) (max_inflight c), ch, Ok slot_idx)
       | None => (c, ch, Err (Full req))
       end.

(** [sync]. *)
Definition sync (c : Caller) : Caller :=
  mkCaller (publish (call_tx c)) (resp_rx c) (inflight c) (max_inflight c).

Definition try_recv_response (c : Caller) (ch : Inner (Response Resp))
    : option (Caller * option (Response Resp)) :=
  match try_recv (resp_rx c) ch with
  | None => None
  | Some (rx, (_, resp)) =>
      Some (mkCaller (call_tx c) rx (u64 (inflight c - 1)) (max_inflight c), resp)
  end.

(** [poll] of the server: the number of lanes with a request at their head. *)
Fixpoint poll (sts : list CallerState) (chs : list (Inner Req)) : Z :=
  match sts, chs with
  | st :: sts, ch :: chs => available (call_rx st) (buffer ch) + poll sts chs
  | _, _ => 0
  end.

(** [try_recv] of the server: at most [n] lanes are looked at, from [scan_pos]
    on. *)
Fixpoint scan (n : nat) (s : Server) (chs : list (Inner Req))
    : Server * option (ReplyToken * option Req) :=
  match n with
  | O => (s, None)
  | S n =>
      let caller_id := scan_pos s in
      let pos := if Z.of_nat (length (callers s)) <=? scan_pos s + 1 then 0
                 else scan_pos s + 1 in
      match callers s !! Z.to_nat caller_id, chs !! Z.to_nat caller_id with
      | Some st, Some ch =>
          match try_recv (call_rx st) ch with
          | Some (rx, (slot_idx, d)) =>
              (mkServer (<[Z.to_nat caller_id := mkState rx (resp_tx st)]> (callers s)) pos,
               Some (mkToken caller_id slot_idx, d))
          | None => scan n (mkServer (callers s) pos) chs
          end
      | _, _ => (s, None)
      end
  end.
Definition server_try_recv (s : Server) (chs : list (Inner Req)) :=
  scan (length (callers s)) s chs.

(** The reply of one lane: [resp_tx.try_send], whose failure is ignored. *)
Definition lane_reply (st : CallerState) (slot_tok : Z) (resp : Resp) (ch : Inner (Response Resp))
    : CallerState * Inner (Response Resp) :=
  match try_send (resp_tx st) (mkResponse slot_tok resp) ch with
  | Some (tx, ch, _) => (mkState (call_rx st) tx, ch)
  | None => (st, ch)
  end.

(** [reply] of the server; [None] when the caller index is out of range. *)
Definition reply (s : Server) (t : ReplyToken) (resp : Resp) (chs : list (Inner (Response Resp)))
    : option (Server * list (Inner (Response Resp))) :=
  match callers s !! Z.to_nat (tk_caller_id t), chs !! Z.to_nat (tk_caller_id t) with
  | Some st, Some ch =>
      let '(st, ch) := lane_reply st (slot_token t) resp ch in
      Some (mkServer (<[Z.to_nat (tk_caller_id t) := st]> (callers s)) (scan_pos s),
            <[Z.to_nat (tk_caller_id t) := ch]> chs)
  | _, _ => None
  end.

(** [OnesidedMpsc::create]: the callers, the server and the rings of each lane. *)
Definition create (max_callers ring_depth max_inflight : Z)
    : option (list Caller * Server * list (Inner Req) * list (Inner (Response Resp))) :=
  match create_spsc ring_depth, create_spsc ring_depth with
  | Some (ctx, crx, cch), Some (rtx, rrx, rch) =>
      let n := Z.to_nat max_callers in
      Some (replicate n (mkCaller ctx rrx 0 max_inflight),
            mkServer (replicate n (mkState crx rtx)) 0,
            replicate n cch, replicate n rch)
  | _, _ => None
  end.

(** ** One lane, its two threads interleaved

    [CSending req]: the caller has stored [req] and not yet its generation;
    [CTaking]: it has seen the generation of a response and not yet read it.
    The server's [VReplying] and [VTaking] are the same on its side. *)

Inductive CallerPc : Type := CIdle | CSending (req : Req) | CTaking.
Inductive ServerPc : Type := VIdle | VTaking | VReplying (r : Response Resp).

(** [tokens] are the reply tokens the server holds; the last four fields record
    what was sent and received so far. *)
Record Lane : Type := mkLane {
  caller : Caller;
  caller_pc : CallerPc;
  sstate : CallerState;
  server_pc : ServerPc;
  call_ch : Inner Req;
  resp_ch : Inner (Response Resp);
  tokens : list Z;
  sent : list Req;
  recvd : list (option Req);
  replied : list (Response Resp);
  answered : list (option (Response Resp));
}.

Definition with_buffer {T} (m : list (Slot T)) (ch : Inner T) : Inner T :=
  mkInner m (tx_alive ch) (rx_alive ch).

Inductive lane_step : Lane -> Lane -> Prop :=
| call_store c st vpc cch rch tks se re rp an req :
    rx_alive cch = true -> inflight c < max_inflight c ->
    lane_step (mkLane c CIdle st vpc cch rch tks se re rp an)
      (mkLane c (CSending req) st vpc
         (with_buffer (send_store (call_tx c) req (buffer cch)) cch) rch tks se re rp an)
| call_commit c req st vpc cch rch tks se re rp an tx m i :
    send_commit (call_tx c) (buffer cch) = (tx, m, i) ->
    lane_step (mkLane c (CSending req) st vpc cch rch tks se re rp an)
      (mkLane (mkCaller tx (resp_rx c) (inflight c + 1) (max_inflight c)) CIdle st vpc
         (with_buffer m cch) rch tks (se ++ [req]) re rp an)
| call_sync c st vpc cch rch tks se re rp an :
    lane_step (mkLane c CIdle st vpc cch rch tks se re rp an)
      (mkLane (sync c) CIdle st vpc cch rch tks se re rp an)
| response_check c st vpc cch rch tks se re rp an :
    recv_check (resp_rx c) (buffer rch) = true ->
    lane_step (mkLane c CIdle st vpc cch rch tks se re rp an)
      (mkLane c CTaking st vpc cch rch tks se re rp an)
| response_take c st vpc cch rch tks se re rp an rx i d :
    recv_take (resp_rx c) (buffer rch) = (rx, (i, d)) ->
    lane_step (mkLane c CTaking st vpc cch rch tks se re rp an)
      (mkLane (mkCaller (call_tx c) rx (u64 (inflight c - 1)) (max_inflight c)) CIdle st vpc
         cch rch tks se re rp (an ++ [d]))
| request_check c cpc st cch rch tks se re rp an :
    recv_check (call_rx st) (buffer cch) = true ->
    lane_step (mkLane c cpc st VIdle cch rch tks se re rp an)
      (mkLane c cpc st VTaking cch rch tks se re rp an)
| request_take c cpc st cch rch tks se re rp an rx i d :
    recv_take (call_rx st) (buffer cch) = (rx, (i, d)) ->
    lane_step (mkLane c cpc st VTaking cch rch tks se re rp an)
      (mkLane c cpc (mkState rx (resp_tx st)) VIdle cch rch (tks ++ [i]) se (re ++ [d]) rp an)
| reply_store c cpc st cch rch tks tks' se re rp an t resp :
    rx_alive rch = true -> tks ≡ₚ t :: tks' ->
    lane_step (mkLane c cpc st VIdle cch rch tks se re rp an)
      (mkLane c cpc st (VReplying (mkResponse t resp)) cch
         (with_buffer (send_store (resp_tx st) (mkResponse t resp) (buffer rch)) rch)
         tks' se re rp an)
| reply_commit c cpc st r cch rch tks se re rp an tx m i :
    send_commit (resp_tx st) (buffer rch) = (tx, m, i) ->
    lane_step (mkLane c cpc st (VReplying r) cch rch tks se re rp an)
      (mkLane c cpc (mkState (call_rx st) tx) VIdle cch (with_buffer m rch)
         tks se re (rp ++ [r]) an)
| token_dropped c cpc st vpc cch rch tks tks' se re rp an t :
    tks ≡ₚ t :: tks' ->
    lane_step (mkLane c cpc st vpc cch rch tks se re rp an)
      (mkLane c cpc st vpc cch rch tks' se re rp an)
| caller_dropped c st vpc cch rch tks se re rp an :
    lane_step (mkLane c CIdle st vpc cch rch tks se re rp an)
      (mkLane c CIdle st vpc (drop_sender cch) (drop_receiver rch) tks se re rp an)
| server_dropped c cpc st cch rch tks se re rp an :
    lane_step (mkLane c cpc st VIdle cch rch tks se re rp an)
      (mkLane c cpc st VIdle (drop_receiver cch) (drop_sender rch) tks se re rp an).

(** Lane [i] of the channel [create] makes. *)
Definition lane_new (max_callers ring_depth max_inflight : Z) (i : nat) : option Lane :=
  match create max_callers ring_depth max_inflight with
  | Some (cs, s, cchs, rchs) =>
      match cs !! i, callers s !! i, cchs !! i, rchs !! i with
      | Some c, Some st, Some cch, Some rch =>
          Some (mkLane c CIdle st VIdle cch rch [] [] [] [] [])
      | _, _, _, _ => None
      end
  | None => None
  end.

End Channel.
Arguments Lane : clear implicits.
Arguments CallerPc : clear implicits.
Arguments ServerPc : clear implicits.

(** ** Rings hold the tail of the history

    [is_gen]: the generation of slot [i] after [len] sends, that of the last
    send to reach the slot, or the initial one. *)

Definition is_gen (cap len i g : Z) : Prop :=
  (len <= i /\ g = U64_MAX) \/
  (exists k, 0 <= k < len /\ len - cap <= k /\ k mod cap = i /\ g = u64 k).

(** [ring_ok]: after the sends [hist], of which the receiver has taken [taken],
    the ring holds the generation of every slot and the values not yet taken;
    [pend] is a value stored whose generation is not. *)
Record ring_ok {T} (cap : Z) (hist : list T) (taken : Z) (pend : option T)
    (m : list (Slot T)) : Prop := mk_ring_ok {
  ro_length : Z.of_nat (length m) = cap;
  ro_gens : forall i, 0 <= i < cap ->
    exists s, m !! Z.to_nat i = Some s /\ is_gen cap (Z.of_nat (length hist)) i (generation s);
  ro_data : forall k v, taken <= k -> 0 <= k -> hist !! Z.to_nat k = Some v ->
    read_data (k mod cap) m = Some v;
  ro_pend : forall v, pend = Some v ->
    read_data (Z.of_nat (length hist) mod cap) m = Some v /\
    Z.of_nat (length hist) < taken + cap;
  ro_taken : 0 <= taken <= Z.of_nat (length hist);
  ro_room : Z.of_nat (length hist) <= taken + cap;
}.

Lemma mod_close cap a b : a mod cap = b mod cap -> - cap < a - b < cap -> a = b.
Proof.
  intros Hm Hd. destruct (decide (cap = 0)) as [->|]; [lia|].
  pose proof (Z.div_mod a cap ltac:(lia)). pose proof (Z.div_mod b cap ltac:(lia)).
  assert (a / cap = b / cap) as E by nia. lia.
Qed.

Lemma mod_shift cap a : cap <> 0 -> (a - cap) mod cap = a mod cap.
Proof. intros H. replace (a - cap) with (a + (-1) * cap) by lia. by rewrite Z.mod_add. Qed.

Section RingLemmas.
Context {T : Type} (k : Z) (Hk : 0 <= k <= 63).
Local Notation cap := (2 ^ k).
Implicit Types (m : list (Slot T)) (hist : list T).

Lemma cap_range : 1 <= cap <= 2 ^ 63.
Proof.
  split; [apply (Z.pow_le_mono_r 2 0 k); lia|apply Z.pow_le_mono_r; lia].
Qed.

(** A wrapped position masked is the position modulo the capacity. *)
Lemma masked_idx n : Z.land (u64 n) (cap - 1) = n mod cap.
Proof.
  rewrite land_mask by lia. unfold u64, wrap. rewrite Z.mod_mod_divide; [done|].
  exists (2 ^ (64 - k)). rewrite <-Z.pow_add_r by lia. f_equal. lia.
Qed.

Lemma idx_range n : 0 <= n mod cap < cap.
Proof. apply Z.mod_pos_bound. pose proof cap_range. lia. Qed.

(** The receiver's generation test succeeds exactly when a value is waiting. *)
Lemma ring_ok_check hist taken pend m :
  ring_ok cap hist taken pend m ->
  read_generation (taken mod cap) m = Some (u64 taken) <-> taken < Z.of_nat (length hist).
Proof.
  intros [_ Hg _ _ Ht Hr]. pose proof cap_range as Hc.
  destruct (Hg (taken mod cap) (idx_range _)) as (s & Hs & HG).
  unfold read_generation. rewrite Hs. cbn. split.
  - intros [= E]. destruct HG as [[Hlen HM]|(n & Hn & Hn' & Hmod & HG)].
    + pose proof (Z.mod_le taken cap ltac:(lia) ltac:(lia)).
      pose proof (idx_range taken). rewrite HM in E. unfold U64_MAX in E.
      rewrite u64_small in E by lia. lia.
    + destruct (decide (taken = Z.of_nat (length hist))) as [Heq|]; [exfalso|lia].
      assert (n = taken - cap) as ->.
      { apply (mod_close cap); [rewrite mod_shift by lia; done|lia]. }
      rewrite HG in E. unfold u64, wrap in E. apply mod_close in E; lia.
  - intros Hlt. f_equal. destruct HG as [[Hlen _]|(n & Hn & Hn' & Hmod & ->)].
    + pose proof (Z.mod_le taken cap ltac:(lia) ltac:(lia)). lia.
    + f_equal. apply (mod_close cap); [done|lia].
Qed.

Lemma ring_ok_value hist taken pend m :
  ring_ok cap hist taken pend m -> taken < Z.of_nat (length hist) ->
  exists v, hist !! Z.to_nat taken = Some v /\ read_data (taken mod cap) m = Some v.
Proof.
  intros [_ _ Hd _ Ht _] Hlt.
  destruct (lookup_lt_is_Some_2 hist (Z.to_nat taken)) as [v Hv]; [lia|].
  exists v. split; [done|]. by apply Hd; [lia..|].
Qed.

Lemma ring_ok_take hist taken pend m :
  ring_ok cap hist taken pend m -> taken < Z.of_nat (length hist) ->
  ring_ok cap hist (taken + 1) pend m.
Proof.
  intros [Hl Hg Hd Hp Ht Hr] Hlt. constructor; [done|done| | |lia|lia].
  - intros n v Hn. apply Hd. lia.
  - intros v Hv. apply Hp in Hv. split; [tauto|lia].
Qed.

Lemma read_data_write i j v m :
  0 <= i -> 0 <= j < Z.of_nat (length m) ->
  read_data i (write_data j v m) = if decide (i = j) then Some v else read_data i m.
Proof.
  intros Hi Hj. unfold read_data, write_data. case_decide as E.
  - subst. destruct (lookup_lt_is_Some_2 m (Z.to_nat j)) as [s Hs]; [lia|].
    by rewrite list_lookup_alter_eq, Hs.
  - by rewrite list_lookup_alter_ne by lia.
Qed.

Lemma ring_ok_store hist taken v m :
  ring_ok cap hist taken None m -> Z.of_nat (length hist) < taken + cap ->
  ring_ok cap hist taken (Some v) (write_data (Z.of_nat (length hist) mod cap) v m).
Proof.
  intros [Hl Hg Hd _ Ht Hr] Hlt. set (j := Z.of_nat (length hist) mod cap).
  assert (0 <= j < cap) as Hj by apply idx_range. constructor; [| | | |lia|lia].
  - unfold write_data. by rewrite length_alter.
  - intros i Hi. destruct (Hg i Hi) as (s & Hs & HG). unfold write_data.
    destruct (decide (i = j)) as [->|]; [|rewrite list_lookup_alter_ne by lia; eauto].
    rewrite list_lookup_alter_eq, Hs. eexists. split; [done|done].
  - intros n w Hn Hn0 Hw. pose proof (lookup_lt_Some _ _ _ Hw).
    rewrite read_data_write by (try apply idx_range; lia). rewrite decide_False; [eauto|].
    intros E. apply mod_close in E; lia.
  - intros w [= <-]. rewrite read_data_write, decide_True by lia. split; [done|lia].
Qed.

Lemma is_gen_step len i g :
  0 <= i < cap -> i <> len mod cap -> is_gen cap len i g -> is_gen cap (len + 1) i g.
Proof.
  intros Hi Hne. pose proof cap_range. intros [[Hlen ->]|(n & Hn & Hn' & <- & ->)].
  - left. split; [|done]. destruct (decide (len = i)) as [->|]; [|lia].
    by rewrite Z.mod_small in Hne by lia.
  - right. exists n. split_and!; [lia|lia| |done|done].
    destruct (decide (n = len - cap)) as [->|]; [|lia].
    by rewrite mod_shift in Hne by lia.
Qed.

Lemma is_gen_last len : 0 <= len -> is_gen cap (len + 1) (len mod cap) (u64 len).
Proof. intros Hl. right. exists len. pose proof cap_range. split_and!; done || lia. Qed.

Lemma ring_ok_commit hist taken v m :
  ring_ok cap hist taken (Some v) m ->
  ring_ok cap (hist ++ [v]) taken None
    (write_generation (Z.of_nat (length hist) mod cap) (u64 (Z.of_nat (length hist))) m).
Proof.
  intros [Hl Hg Hd Hp Ht Hr]. destruct (Hp v eq_refl) as [Hv Hroom].
  set (len := Z.of_nat (length hist)) in *. set (j := len mod cap) in *.
  assert (Z.of_nat (length (hist ++ [v])) = len + 1) as Hlen by (rewrite length_app; cbn; lia).
  assert (0 <= j < cap) as Hj by apply idx_range.
  assert (forall i, 0 <= i -> read_data i (write_generation j (u64 len) m) = read_data i m) as Hrd.
  { intros i Hi. unfold read_data, write_generation.
    destruct (decide (i = j)) as [->|]; [|by rewrite list_lookup_alter_ne by lia].
    rewrite list_lookup_alter_eq. by destruct (m !! Z.to_nat j). }
  constructor; rewrite ?Hlen; [| | |done|lia|lia].
  - unfold write_generation. by rewrite length_alter.
  - intros i Hi. destruct (Hg i Hi) as (s & Hs & HG). unfold write_generation.
    destruct (decide (i = j)) as [->|].
    + rewrite list_lookup_alter_eq, Hs. eexists. split; [done|]. apply is_gen_last. lia.
    + rewrite list_lookup_alter_ne by lia. exists s. split; [done|]. by apply is_gen_step.
  - intros n w Hn Hn0 Hw. rewrite Hrd by apply idx_range.
    apply lookup_app_Some in Hw as [Hw|[Hge Hw]]; [by eapply Hd|].
    apply list_lookup_singleton_Some in Hw as [? <-].
    by replace n with len by lia.
Qed.

Lemma ring_ok_init : ring_ok cap ([] : list T) 0 None (replicate (Z.to_nat cap) slot_init).
Proof.
  pose proof cap_range. constructor; [|  |done|done|cbn; lia|cbn; lia].
  - rewrite length_replicate. lia.
  - intros i Hi. exists slot_init. rewrite lookup_replicate. split; [split; [done|lia]|].
    left. cbn. split; [lia|done].
Qed.

(** *** The ends of a ring at a given position *)

Definition sender_at (n : nat) (tx : RawSender) : Prop :=
  s_mask tx = cap - 1 /\ head tx = u64 (Z.of_nat n).
Definition receiver_at (n : nat) (rx : RawReceiver) : Prop :=
  r_mask rx = cap - 1 /\ tail rx = u64 (Z.of_nat n).

Lemma u64_succ n : u64 (u64 (Z.of_nat n) + 1) = u64 (Z.of_nat (S n)).
Proof. unfold u64, wrap. rewrite Zplus_mod_idemp_l. f_equal. lia. Qed.

Lemma send_idx_at n tx : sender_at n tx -> send_idx tx = Z.of_nat n mod cap.
Proof. intros [Hm Hh]. unfold send_idx. rewrite Hm, Hh. apply masked_idx. Qed.

Lemma recv_idx_at n rx : receiver_at n rx -> recv_idx rx = Z.of_nat n mod cap.
Proof. intros [Hm Hh]. unfold recv_idx. rewrite Hm, Hh. apply masked_idx. Qed.

Lemma store_at hist taken v m tx :
  ring_ok cap hist taken None m -> sender_at (length hist) tx ->
  Z.of_nat (length hist) < taken + cap ->
  ring_ok cap hist taken (Some v) (send_store tx v m).
Proof. intros Hr Hs Hlt. unfold send_store. rewrite (send_idx_at _ _ Hs). by apply ring_ok_store. Qed.

Lemma commit_at hist taken v m tx tx' m' i :
  ring_ok cap hist taken (Some v) m -> sender_at (length hist) tx ->
  send_commit tx m = (tx', m', i) ->
  ring_ok cap (hist ++ [v]) taken None m' /\ sender_at (length (hist ++ [v])) tx'.
Proof.
  intros Hr Hs [= <- <- _]. split.
  - rewrite (send_idx_at _ _ Hs). destruct Hs as [_ ->]. by apply ring_ok_commit.
  - destruct Hs as [Hm Hh]. split; [done|]. cbn [head]. rewrite Hh, u64_succ, length_app.
    cbn [length]. do 2 f_equal. lia.
Qed.

Lemma check_at hist n pend m rx :
  ring_ok cap hist (Z.of_nat n) pend m -> receiver_at n rx ->
  recv_check rx m = bool_decide (n < length hist)%nat.
Proof.
  intros Hr Hs. unfold recv_check. rewrite (recv_idx_at _ _ Hs). destruct Hs as [_ ->].
  apply bool_decide_ext. rewrite (ring_ok_check _ _ _ _ Hr). lia.
Qed.

Lemma take_at hist n pend m rx rx' i d :
  ring_ok cap hist (Z.of_nat n) pend m -> receiver_at n rx -> (n < length hist)%nat ->
  recv_take rx m = (rx', (i, d)) ->
  d = hist !! n /\ i = Z.of_nat n mod cap /\ receiver_at (S n) rx' /\
  ring_ok cap hist (Z.of_nat (S n)) pend m.
Proof.
  intros Hr Hs Hlt [= <- <- <-]. rewrite (recv_idx_at _ _ Hs).
  destruct (ring_ok_value _ _ _ _ Hr ltac:(lia)) as (v & Hv & Hd). rewrite Nat2Z.id in Hv.
  split_and!.
  - by rewrite Hd.
  - done.
  - split; [apply Hs|]. cbn. destruct Hs as [_ ->]. apply u64_succ.
  - rewrite Nat2Z.inj_succ. by apply ring_ok_take; [|lia].
Qed.

(** [count_available] counts the values waiting, up to its bound. *)
Lemma count_available_at hist n pend m rx max :
  ring_ok cap hist (Z.of_nat n) pend m -> receiver_at n rx -> 0 <= max ->
  count_available rx max m = Z.min max (Z.of_nat (length hist) - Z.of_nat n).
Proof.
  intros Hr [Hm Ht] Hmax. unfold count_available. rewrite Hm, Ht.
  rewrite <-(Z2Nat.id max) at 2 by done. clear Hm Ht rx Hmax. generalize (Z.to_nat max). clear max.
  intros j. revert n Hr. induction j as [|j IH]; intros n Hr; pose proof (ro_taken _ _ _ _ _ Hr).
  { cbn. lia. }
  cbn [count_from]. rewrite masked_idx, u64_succ.
  rewrite (bool_decide_ext _ _ (ring_ok_check _ _ _ _ Hr)). case_bool_decide as Hlt; [|lia].
  rewrite IH; [lia|]. rewrite Nat2Z.inj_succ. by apply ring_ok_take.
Qed.

End RingLemmas.

(** What has been received is a prefix of what was sent. *)
Definition prefix_received {T} (got : list (option T)) (hist : list T) : Prop :=
  got = Some <$> take (length got) hist.

Lemma prefix_received_snoc {T} (got : list (option T)) hist :
  prefix_received got hist -> (length got < length hist)%nat ->
  prefix_received (got ++ [hist !! length got]) hist.
Proof.
  unfold prefix_received. intros Hp Hlt.
  destruct (lookup_lt_is_Some_2 hist (length got) Hlt) as [v Hv].
  rewrite Hv, length_app. cbn [length]. rewrite Nat.add_1_r, (take_S_r _ _ _ Hv), fmap_app.
  by rewrite <-Hp.
Qed.

Lemma prefix_received_more {T} (got : list (option T)) hist v :
  prefix_received got hist -> (length got <= length hist)%nat ->
  prefix_received got (hist ++ [v]).
Proof. unfold prefix_received. intros Hp Hle. by rewrite take_app_le. Qed.

(** ** The invariant of a lane *)

Section LaneInvariant.
Context {Req Resp : Type} (k : Z) (Hk : 0 <= k <= 63).
Local Notation cap := (2 ^ k).
Implicit Types l : Lane Req Resp.

Definition pending_req (pc : CallerPc Req) : option Req :=
  match pc with CSending r => Some r | _ => None end.
Definition pending_resp (pc : ServerPc Resp) : option (Response Resp) :=
  match pc with VReplying r => Some r | _ => None end.

(** Every reply token, held or used, is the slot of a different request. *)
Definition tokens_ok l : Prop :=
  tokens l ++ (token <$> option_list (pending_resp (server_pc l))) ++ (token <$> replied l)
    ⊆+ (fun n => n mod cap) <$> seqZ 0 (Z.of_nat (length (recvd l))).

Record lane_ok l : Prop := mk_lane_ok {
  lo_call : ring_ok cap (sent l) (Z.of_nat (length (recvd l))) (pending_req (caller_pc l))
              (buffer (call_ch l));
  lo_resp : ring_ok cap (replied l) (Z.of_nat (length (answered l)))
              (pending_resp (server_pc l)) (buffer (resp_ch l));
  lo_ctx : sender_at k (length (sent l)) (call_tx (caller l));
  lo_crx : receiver_at k (length (recvd l)) (call_rx (sstate l));
  lo_rtx : sender_at k (length (replied l)) (resp_tx (sstate l));
  lo_rrx : receiver_at k (length (answered l)) (resp_rx (caller l));
  lo_recvd : prefix_received (recvd l) (sent l);
  lo_answered : prefix_received (answered l) (replied l);
  lo_inflight : inflight (caller l) = Z.of_nat (length (sent l)) - Z.of_nat (length (answered l));
  lo_limit : inflight (caller l) <= max_inflight (caller l) <= cap;
  lo_caller_pc : match caller_pc l with
                 | CIdle => True
                 | CSending _ => inflight (caller l) < max_inflight (caller l)
                 | CTaking => (length (answered l) < length (replied l))%nat
                 end;
  lo_server_pc : match server_pc l with
                 | VTaking => (length (recvd l) < length (sent l))%nat
                 | _ => True
                 end;
  lo_tokens : tokens_ok l;
}.

(** Replies sent, being sent and owed never exceed the requests received. *)
Lemma replies_bounded l :
  lane_ok l ->
  (length (tokens l) + length (option_list (pending_resp (server_pc l))) + length (replied l)
    <= length (recvd l) <= length (sent l))%nat.
Proof.
  intros Hok. pose proof (submseteq_length _ _ (lo_tokens _ Hok)) as H.
  rewrite !length_app, !length_fmap, length_seqZ in H.
  pose proof (ro_taken _ _ _ _ _ (lo_call _ Hok)). lia.
Qed.

Lemma token_taken l i d :
  tokens_ok l -> i = Z.of_nat (length (recvd l)) mod cap ->
  (tokens l ++ [i]) ++ (token <$> option_list (pending_resp (server_pc l)))
      ++ (token <$> replied l)
    ⊆+ (fun n => n mod cap) <$> seqZ 0 (Z.of_nat (length (recvd l ++ [d]))).
Proof.
  unfold tokens_ok. intros Ht ->. rewrite length_app, Nat.add_1_r, seqZ_S.
  rewrite fmap_app, <-app_assoc. cbn [app fmap list_fmap]. rewrite <-(Permutation_middle (tokens l)).
  rewrite <-Permutation_cons_append. by apply submseteq_skip.
Qed.

Ltac lane := constructor; cbn; try done.

Lemma lane_step_ok l l' : lane_step l l' -> lane_ok l -> lane_ok l'.
Proof.
  intros Hstep Hok. pose proof (replies_bounded l Hok) as Hb. pose proof (cap_range k Hk).
  pose proof (ro_taken _ _ _ _ _ (lo_resp _ Hok)) as Hans.
  destruct Hok as [Hcall Hresp Hctx Hcrx Hrtx Hrrx Hre Han Hin Hlim Hcpc Hvpc Htk].
  destruct Hstep as [c st vpc cch rch tks se re rp an req Hal Hlt
    |c req st vpc cch rch tks se re rp an tx m i Hc|c st vpc cch rch tks se re rp an
    |c st vpc cch rch tks se re rp an Hc|c st vpc cch rch tks se re rp an rx i d Hc
    |c cpc st cch rch tks se re rp an Hc|c cpc st cch rch tks se re rp an rx i d Hc
    |c cpc st cch rch tks tks' se re rp an t resp Hal Hp
    |c cpc st r cch rch tks se re rp an tx m i Hc
    |c cpc st vpc cch rch tks tks' se re rp an t Hp| |]; cbn in *.
  - lane. eapply store_at; [done..|]. lia.
  - destruct (commit_at k Hk _ _ _ _ _ _ _ _ Hcall Hctx Hc) as [H1 H2]. lane.
    + apply prefix_received_more; [done|lia].
    + rewrite length_app. cbn. lia.
    + lia.
    + rewrite length_app. destruct vpc; [done|lia|done].
  - lane.
  - rewrite (check_at k Hk _ _ _ _ _ Hresp Hrrx) in Hc. apply bool_decide_eq_true in Hc. lane.
  - destruct (take_at k Hk _ _ _ _ _ _ _ _ Hresp Hrrx Hcpc Hc) as (-> & _ & H1 & H2).
    lane; rewrite ?length_app, ?Nat.add_1_r; try done.
    + by apply prefix_received_snoc.
    + rewrite u64_small by lia. lia.
    + rewrite u64_small by lia. lia.
  - rewrite (check_at k Hk _ _ _ _ _ Hcall Hcrx) in Hc. apply bool_decide_eq_true in Hc. lane.
  - destruct (take_at k Hk _ _ _ _ _ _ _ _ Hcall Hcrx Hvpc Hc) as (-> & Hi & H1 & H2).
    lane; rewrite ?length_app, ?Nat.add_1_r; try done.
    + by apply prefix_received_snoc.
    + by apply (token_taken _ _ _ Htk).
  - lane.
    + rewrite Hp in Hb. cbn in Hb. eapply store_at; [done..|]. lia.
    + unfold tokens_ok in *. cbn in *. rewrite Hp in Htk.
      by rewrite <-Permutation_middle.
  - destruct (commit_at k Hk _ _ _ _ _ _ _ _ Hresp Hrtx Hc) as [H1 H2]. lane.
    + apply prefix_received_more; [done|lia].
    + rewrite length_app. destruct cpc; [done..|lia].
    + unfold tokens_ok in *. cbn in *. rewrite fmap_app. by rewrite (Permutation_app_comm (_ <$> rp)).
  - lane. unfold tokens_ok in *. cbn in *. rewrite Hp in Htk. etrans; [|exact Htk].
    by apply submseteq_cons.
  - lane.
  - lane.
Qed.

End LaneInvariant.

(** ** The scan of the server *)

Section Scan.
Context {Req : Type} (k : Z) (Hk : 0 <= k <= 63).
Local Notation cap := (2 ^ k).
Implicit Types (hs : list (list Req * nat)) (chs : list (Inner Req)).

(** The server and the request rings, each with its history [h] of which the
    server has taken [n] values. *)
Record lanes_ok (s : Server) chs hs : Prop := mk_lanes_ok {
  la_length : length (callers s) = length hs;
  la_pos : callers s <> [] -> 0 <= scan_pos s < Z.of_nat (length hs);
  la_lane : forall i h n, hs !! i = Some (h, n) ->
    exists st ch pend, callers s !! i = Some st /\ chs !! i = Some ch /\
      receiver_at k n (call_rx st) /\ ring_ok cap h (Z.of_nat n) pend (buffer ch);
}.

(** Lane [p] has no request waiting. *)
Definition lane_empty hs (p : Z) : Prop :=
  exists h n, hs !! Z.to_nat p = Some (h, n) /\ length h = n.

(** The lane [p] the scan stopped at, and what it took there. *)
Definition scan_found (s : Server) hs (p : Z) (s' : Server) (t : ReplyToken) (d : option Req)
    : Prop :=
  exists h n st,
    hs !! Z.to_nat p = Some (h, n) /\ (n < length h)%nat /\ d = h !! n /\
    tk_caller_id t = p /\ slot_token t = Z.of_nat n mod cap /\
    callers s !! Z.to_nat p = Some st /\
    scan_pos s' = (p + 1) mod Z.of_nat (length hs) /\
    (exists rx, receiver_at k (S n) rx /\
       callers s' = <[Z.to_nat p := mkState rx (resp_tx st)]> (callers s)).

Lemma next_pos p N : 0 <= p < N -> (if N <=? p + 1 then 0 else p + 1) = (p + 1) mod N.
Proof.
  intros Hp. destruct (N <=? p + 1) eqn:E; guards.
  - replace (p + 1) with N by lia. by rewrite Z.mod_same by lia.
  - by rewrite Z.mod_small by lia.
Qed.

Lemma shift_pos N p j : ((p + 1) mod N + j) mod N = (p + (j + 1)) mod N.
Proof. rewrite Zplus_mod_idemp_l. f_equal. lia. Qed.

Lemma lane_empty_shift hs N p j :
  lane_empty hs (p mod N) ->
  (j <> 0 -> lane_empty hs (((p + 1) mod N + (j - 1)) mod N)) ->
  lane_empty hs ((p + j) mod N).
Proof.
  intros H0 H. destruct (decide (j = 0)) as [->|Hj]; [by rewrite Z.add_0_r|].
  specialize (H Hj). rewrite shift_pos in H. by replace (j - 1 + 1) with j in H by lia.
Qed.

Lemma lanes_ok_move s chs hs p :
  lanes_ok s chs hs -> (callers s <> [] -> 0 <= p < Z.of_nat (length hs)) ->
  lanes_ok (mkServer (callers s) p) chs hs.
Proof. intros [? ? ?] Hp. by constructor. Qed.

Lemma scan_lanes_spec n s chs hs :
  lanes_ok s chs hs -> callers s <> [] ->
  let N := Z.of_nat (length hs) in
  match scan n s chs with
  | (s', None) =>
      callers s' = callers s /\ scan_pos s' = (scan_pos s + Z.of_nat n) mod N /\
      forall j, 0 <= j < Z.of_nat n -> lane_empty hs ((scan_pos s + j) mod N)
  | (s', Some (t, d)) =>
      exists j, 0 <= j < Z.of_nat n /\ scan_found s hs ((scan_pos s + j) mod N) s' t d /\
        forall i, 0 <= i < j -> lane_empty hs ((scan_pos s + i) mod N)
  end.
Proof.
  intros Hok Hne N. revert s Hok Hne. induction n as [|n IH]; intros s Hok Hne; cbn [scan].
  { split_and!; [done| |lia]. rewrite Z.add_0_r, Z.mod_small; [done|by apply Hok]. }
  pose proof (la_pos _ _ _ Hok Hne) as Hpos. fold N in Hpos.
  destruct (lookup_lt_is_Some_2 hs (Z.to_nat (scan_pos s))) as [[h m] Hh]; [lia|].
  destruct (la_lane _ _ _ Hok _ _ _ Hh) as (st & ch & pend & Hst & Hch & Hrx & Hring).
  rewrite Hst, Hch, (la_length _ _ _ Hok). fold N. rewrite next_pos by done.
  unfold try_recv, raw_try_recv. rewrite (check_at k Hk _ _ _ _ _ Hring Hrx).
  assert (scan_pos s mod N = scan_pos s) as Hmod by by apply Z.mod_small.
  case_bool_decide as Hlt.
  - destruct (recv_take (call_rx st) (buffer ch)) as [rx [i d]] eqn:Ht.
    destruct (take_at k Hk _ _ _ _ _ _ _ _ Hring Hrx Hlt Ht) as (-> & -> & Hrx' & _).
    exists 0. rewrite Z.add_0_r, Hmod. split_and!; [lia..| |lia].
    exists h, m, st. cbn. split_and!; eauto.
  - pose proof (ro_taken _ _ _ _ _ Hring) as Hle.
    assert (lane_empty hs (scan_pos s)) as He by (exists h, m; split; [done|lia]).
    rewrite <-Hmod in He.
    specialize (IH (mkServer (callers s) ((scan_pos s + 1) mod N))). cbn [callers scan_pos] in IH.
    destruct (scan n _ chs) as [s' [[t d]|]].
    + destruct IH as (j & Hjn & Hf & Hbefore).
      { apply lanes_ok_move; [done|]. intros _. apply Z.mod_pos_bound. lia. }
      { done. }
      exists (j + 1). rewrite <-shift_pos. split_and!; [lia..|done|]. intros i Hi.
      apply lane_empty_shift; [done|]. intros ?. apply Hbefore. lia.
    + destruct IH as (Hc & Hp & Hall).
      { apply lanes_ok_move; [done|]. intros _. apply Z.mod_pos_bound. lia. }
      { done. }
      split_and!; [done| |].
      * rewrite Hp, shift_pos. f_equal. lia.
      * intros j Hj. apply lane_empty_shift; [done|]. intros ?. apply Hall. lia.
Qed.

End Scan.

(** ** Reachable lanes *)

Section Reachable.
Context {Req Resp : Type}.
Implicit Types l : Lane Req Resp.

Lemma lane_new_ok n k mi i l :
  0 <= k <= 63 -> 0 <= mi <= 2 ^ k -> lane_new n (2 ^ k) mi i = Some l -> lane_ok k l.
Proof.
  intros Hk Hmi. unfold lane_new, create, create_spsc.
  destruct (is_power_of_two (2 ^ k)); [|done].
  cbn [callers].
  destruct (decide (i < Z.to_nat n)%nat) as [Hi|Hi].
  2:{ by rewrite lookup_ge_None_2 by (rewrite length_replicate; lia). }
  rewrite !lookup_replicate_2 by done. intros [= <-].
  constructor; cbn; try done; try lia; try (apply ring_ok_init; lia).
  apply submseteq_nil_l.
Qed.

Lemma lane_reachable_ok n k mi i l0 l :
  0 <= k <= 63 -> 0 <= mi <= 2 ^ k -> lane_new n (2 ^ k) mi i = Some l0 ->
  rtc lane_step l0 l -> lane_ok k l.
Proof.
  intros Hk Hmi H0 Hr. pose proof (lane_new_ok _ _ _ _ _ Hk Hmi H0) as Hok.
  clear H0. induction Hr; eauto using lane_step_ok.
Qed.

Lemma lane_new_limit n d mi i l :
  lane_new n d mi i = Some l -> max_inflight (caller l) = mi.
Proof.
  unfold lane_new, create. destruct (create_spsc d) as [[[? ?] ?]|]; [|done].
  destruct (create_spsc d) as [[[? ?] ?]|]; [|done]. cbn [callers].
  destruct (replicate _ (mkCaller _ _ _ _) !! i) as [c|] eqn:Hc; [|done].
  apply lookup_replicate in Hc as [-> _].
  repeat (case_match; [|done]). by intros [= <-].
Qed.

Lemma max_inflight_const l l' :
  rtc lane_step l l' -> max_inflight (caller l') = max_inflight (caller l).
Proof. induction 1 as [|? ? ? [] _ IH]; [done|..]; by rewrite IH. Qed.

(** The operations of the two sides on a lane at rest, each run without
    interruption. *)
Definition run_call (req : Req) l : Lane Req Resp :=
  let '(c, ch, r) := call (caller l) req (call_ch l) in
  mkLane c (caller_pc l) (sstate l) (server_pc l) ch (resp_ch l) (tokens l)
    (if is_ok r then sent l ++ [req] else sent l) (recvd l) (replied l) (answered l).

Definition run_response l : Lane Req Resp :=
  match try_recv_response (caller l) (resp_ch l) with
  | None => l
  | Some (c, d) =>
      mkLane c (caller_pc l) (sstate l) (server_pc l) (call_ch l) (resp_ch l) (tokens l)
        (sent l) (recvd l) (replied l) (answered l ++ [d])
  end.

Definition run_receive l : Lane Req Resp :=
  match try_recv (call_rx (sstate l)) (call_ch l) with
  | None => l
  | Some (rx, (i, d)) =>
      mkLane (caller l) (caller_pc l) (mkState rx (resp_tx (sstate l))) (server_pc l) (call_ch l)
        (resp_ch l) (tokens l ++ [i]) (sent l) (recvd l ++ [d]) (replied l) (answered l)
  end.

(** Reply to the [j]-th token held. *)
Definition run_reply (j : nat) (resp : Resp) l : Lane Req Resp :=
  match tokens l !! j with
  | None => l
  | Some t =>
      let '(st, ch) := lane_reply (sstate l) t resp (resp_ch l) in
      mkLane (caller l) (caller_pc l) st (server_pc l) (call_ch l) ch (delete j (tokens l))
        (sent l) (recvd l)
        (if rx_alive (resp_ch l) then replied l ++ [mkResponse t resp] else replied l)
        (answered l)
  end.

Lemma run_call_steps req l : caller_pc l = CIdle -> rtc lane_step l (run_call req l).
Proof.
  destruct l as [c cpc st vpc cch rch tks se re rp an]. cbn. intros ->.
  unfold run_call, call. cbn. destruct (rx_alive cch) eqn:Ha; [|done]. cbn.
  destruct (_ <=? _) eqn:Hlt; [done|]. guards. unfold try_send. rewrite Ha. cbn.
  eapply rtc_l; [by apply (call_store _ _ _ _ _ _ _ _ _ _ req)|].
  eapply rtc_l; [by eapply call_commit|]. unfold with_buffer. cbn. by rewrite Ha.
Qed.

Lemma run_response_steps l : caller_pc l = CIdle -> rtc lane_step l (run_response l).
Proof.
  destruct l as [c cpc st vpc cch rch tks se re rp an]. cbn. intros ->.
  unfold run_response, try_recv_response, try_recv, raw_try_recv. cbn.
  destruct (recv_check _ _) eqn:Hc; [|done]. cbn.
  eapply rtc_l; [by apply response_check|]. eapply rtc_l; [by eapply response_take|done].
Qed.

Lemma run_receive_steps l : server_pc l = VIdle -> rtc lane_step l (run_receive l).
Proof.
  destruct l as [c cpc st vpc cch rch tks se re rp an]. cbn. intros ->.
  unfold run_receive, try_recv, raw_try_recv. cbn.
  destruct (recv_check _ _) eqn:Hc; [|done]. cbn.
  eapply rtc_l; [by apply request_check|]. eapply rtc_l; [by eapply request_take|done].
Qed.

Lemma run_reply_steps j resp l : server_pc l = VIdle -> rtc lane_step l (run_reply j resp l).
Proof.
  destruct l as [c cpc st vpc cch rch tks se re rp an]. cbn. intros ->.
  unfold run_reply. cbn. destruct (tks !! j) as [t|] eqn:Ht; [|done].
  apply delete_Permutation in Ht.
  unfold lane_reply, try_send. destruct (rx_alive rch) eqn:Ha; cbn; rewrite ?Ha.
  - eapply rtc_l; [by apply (reply_store _ _ _ _ _ _ (delete j tks) _ _ _ _ t resp)|].
    eapply rtc_l; [by eapply reply_commit|]. unfold with_buffer. cbn. by rewrite Ha.
  - by eapply rtc_l; [eapply token_dropped|].
Qed.

End Reachable.

(** ** Properties *)

(** C4: whatever the interleaving of the memory accesses of a caller and the
    server, as long as the configured in-flight limit is at most the ring
    depth: what the server has received is a prefix of what the caller sent, and
    what the caller has received a prefix of what the server replied, in order,
    without loss, duplication, tearing or uninitialised reads; the in-flight
    count is exact and within the limit; and the tokens the server holds or has
    replied with are slots of different requests it received. *)
Theorem onesided_lossless {Req Resp : Type} n k mi i (l0 l : Lane Req Resp) :
  0 <= k <= 63 -> 0 <= mi <= 2 ^ k ->
  lane_new n (2 ^ k) mi i = Some l0 -> rtc lane_step l0 l ->
  recvd l = Some <$> take (length (recvd l)) (sent l) /\
  answered l = Some <$> take (length (answered l)) (replied l) /\
  (length (answered l) <= length (replied l) <= length (recvd l))%nat /\
  (length (recvd l) <= length (sent l))%nat /\
  inflight (caller l) = Z.of_nat (length (sent l)) - Z.of_nat (length (answered l)) /\
  0 <= inflight (caller l) <= mi /\
  tokens l ++ (token <$> replied l)
    ⊆+ (fun n => n mod 2 ^ k) <$> seqZ 0 (Z.of_nat (length (recvd l))).
Proof.
  intros Hk Hmi H0 Hr. pose proof (lane_reachable_ok _ _ _ _ _ _ Hk Hmi H0 Hr) as Hok.
  pose proof (replies_bounded _ _ Hok) as Hb.
  pose proof (ro_taken _ _ _ _ _ (lo_resp _ _ Hok)) as Ha.
  pose proof (lo_inflight _ _ Hok) as Hi. pose proof (lo_limit _ _ Hok) as Hl.
  rewrite (max_inflight_const _ _ Hr), (lane_new_limit _ _ _ _ _ H0) in Hl.
  split_and!; [apply Hok|apply Hok|lia..|].
  etrans; [|apply Hok]. apply submseteq_app; [done|]. by apply submseteq_inserts_l.
Qed.

(** The server's [try_recv] takes the next request of the first lane with
    one waiting, counting from [scan_pos], and moves [scan_pos] behind that lane;
    it finds nothing only when no lane has a request waiting, and then changes
    nothing. *)
Theorem server_scan_round_robin {Req : Type} k (s : Server) (chs : list (Inner Req)) hs :
  0 <= k <= 63 -> lanes_ok k s chs hs -> callers s <> [] ->
  match server_try_recv s chs with
  | (s', None) => s' = s /\ forall p, 0 <= p < Z.of_nat (length hs) -> lane_empty hs p
  | (s', Some (t, d)) =>
      exists j, 0 <= j < Z.of_nat (length hs) /\
        scan_found k s hs ((scan_pos s + j) mod Z.of_nat (length hs)) s' t d /\
        forall i, 0 <= i < j -> lane_empty hs ((scan_pos s + i) mod Z.of_nat (length hs))
  end.
Proof.
  intros Hk Hok Hne. pose proof (scan_lanes_spec k Hk (length (callers s)) s chs hs Hok Hne) as H.
  unfold server_try_recv. pose proof (la_pos _ _ _ _ Hok Hne) as Hp.
  rewrite (la_length _ _ _ _ Hok) in *. destruct (scan _ s chs) as [s' [[t d]|]]; [exact H|].
  destruct H as (Hc & Hpos & Hall). split.
  - destruct s, s'. cbn in *. subst. f_equal.
    rewrite <-(Z.mul_1_l (Z.of_nat (length hs))) at 1. rewrite Z.mod_add by lia.
    by apply Z.mod_small.
  - intros p Hp'. specialize (Hall ((p - scan_pos s) mod Z.of_nat (length hs))).
    rewrite Zplus_mod_idemp_r in Hall. replace (scan_pos s + (p - scan_pos s)) with p in Hall by lia.
    rewrite (Z.mod_small p) in Hall by lia. apply Hall, Z.mod_pos_bound. lia.
Qed.

(** On a lane whose thread is between operations, the whole operations of
    the code ([call], [try_recv_response], the receive of a lane and the reply to
    a token) are executions of the interleaving semantics, so that what holds of
    every interleaving holds of them. *)
Theorem operations_are_steps {Req Resp : Type} (l : Lane Req Resp) req resp j :
  caller_pc l = CIdle -> server_pc l = VIdle ->
  rtc lane_step l (run_call req l) /\ rtc lane_step l (run_response l) /\
  rtc lane_step l (run_receive l) /\ rtc lane_step l (run_reply j resp l).
Proof.
  intros Hc Hv. split_and!; auto using run_call_steps, run_response_steps, run_receive_steps,
    run_reply_steps.
Qed.

Definition demo_lane (depth mi : Z) : Lane Z Z :=
  default (mkLane (mkCaller (sender_new 1) (receiver_new 1) 0 0) CIdle
             (mkState (receiver_new 1) (sender_new 1)) VIdle (mkInner [] true true)
             (mkInner [] true true) [] [] [] [] [])
    (lane_new 2 depth mi 1).

(** A whole round trip with the ring wrapping: three requests through a ring of
    two slots. *)
Definition demo_run : Lane Z Z :=
  run_response (run_reply 0 31 (run_receive (run_call 30
    (run_response (run_reply 0 11 (run_receive (run_call 20 (run_call 10 (demo_lane 2 2))))))))).

Lemma demo_run_reachable : rtc lane_step (demo_lane 2 2) demo_run.
Proof.
  unfold demo_run.
  repeat first [etrans; [|apply run_response_steps; vm_compute; reflexivity]
    | etrans; [|apply run_reply_steps; vm_compute; reflexivity]
    | etrans; [|apply run_receive_steps; vm_compute; reflexivity]
    | etrans; [|apply run_call_steps; vm_compute; reflexivity]].
  reflexivity.
Qed.

Lemma onesided_lossless_witness :
  recvd demo_run = [Some 10; Some 20] /\ answered demo_run = [Some (mkResponse 0 11); Some (mkResponse 1 31)] /\
  recvd demo_run = Some <$> take (length (recvd demo_run)) (sent demo_run).
Proof.
  split; [vm_compute; reflexivity|]. split; [vm_compute; reflexivity|].
  apply (onesided_lossless 2 1 2 1 (demo_lane 2 2) demo_run); [lia|lia| |exact demo_run_reachable].
  vm_compute. reflexivity.
Defined.

Lemma operations_are_steps_witness :
  rtc lane_step (demo_lane 2 2) (run_call 5 (demo_lane 2 2)) /\
  sent (run_call 5 (demo_lane 2 2)) = [5].
Proof.
  split; [|vm_compute; reflexivity].
  apply (operations_are_steps (demo_lane 2 2) 5 0 0); vm_compute; reflexivity.
Defined.

Definition demo_server : Server :=
  mkServer (replicate 2 (mkState (receiver_new 2) (sender_new 2))) 0.
Definition demo_ring : list (Slot Z) := replicate 2 slot_init.
Definition demo_rings : list (Inner Z) :=
  [mkInner demo_ring true true;
   mkInner (snd (fst (send_commit (sender_new 2) (send_store (sender_new 2) 7 demo_ring)))) true true].

Lemma demo_lanes_ok : lanes_ok 1 demo_server demo_rings [([], 0%nat); ([7], 0%nat)].
Proof.
  assert (ring_ok (2 ^ 1) ([] : list Z) 0 None demo_ring) as H0 by (apply (ring_ok_init 1); lia).
  assert (sender_at 1 0 (sender_new 2)) as Hs by done.
  pose proof (store_at 1 ltac:(lia) [] 0 7 _ _ H0 Hs ltac:(done)) as H1.
  destruct (commit_at 1 ltac:(lia) [] 0 7 _ _ _ _ _ H1 Hs eq_refl) as [H2 _].
  constructor; [done|cbn; lia|]. intros [|[|i]] h n; cbn; intros Hi; simplify_eq;
    do 2 eexists; exists None; (split_and!; [done..|done]).
Qed.

Lemma server_scan_round_robin_witness :
  snd (server_try_recv demo_server demo_rings) = Some (mkToken 1 0, Some 7) /\
  match server_try_recv demo_server demo_rings with
  | (s', None) => s' = demo_server /\ forall p, 0 <= p < 2 -> lane_empty [([], 0%nat); ([7], 0%nat)] p
  | (s', Some (t, d)) =>
      exists j, 0 <= j < 2 /\
        scan_found 1 demo_server [([], 0%nat); ([7], 0%nat)] ((scan_pos demo_server + j) mod 2) s' t d /\
        forall i, 0 <= i < j ->
          lane_empty [([], 0%nat); ([7], 0%nat)] ((scan_pos demo_server + i) mod 2)
  end.
Proof.
  split; [vm_compute; reflexivity|].
  apply (server_scan_round_robin 1 demo_server demo_rings [([], 0%nat); ([7], 0%nat)]);
    [lia|exact demo_lanes_ok|done].
Defined.

(** [create] accepts an in-flight limit above the ring depth, and then three
    calls on a ring of two slots are all accepted, the third overwrites the
    first, and the lane is dead: the server never sees any of the requests, and
    no operation of either side changes anything any more. *)
Theorem inflight_over_depth_stalls :
  let l := run_call 30 (run_call 20 (run_call 10 (demo_lane 2 3))) in
  sent l = [10; 20; 30] /\ inflight (caller l) = 3 /\ run_receive l = l /\ run_response l = l /\
  forall r j, run_call r l = l /\ run_reply j r l = l.
Proof. vm_compute. split_and!; [done..|]. intros r j. split; [done|]. by destruct j. Qed.

(** Tokens are slot indices, and with deferred replies they collide: while
    the request 10 is held by the server with token 0, the requests 20 and 30 go
    round the ring of two slots, and 30 is given token 0 as well, within the
    in-flight limit of two. *)
Theorem deferred_tokens_collide :
  let l1 := run_receive (run_call 10 (demo_lane 2 2)) in
  let l2 := run_response (run_reply 1 21 (run_receive (run_call 20 l1))) in
  let l3 := run_receive (run_call 30 l2) in
  snd (call (caller (demo_lane 2 2)) 10 (call_ch (demo_lane 2 2))) = Ok 0 /\
  answered l2 = [Some (mkResponse 1 21)] /\
  snd (call (caller l2) 30 (call_ch l2)) = Ok 0 /\
  inflight (caller l3) = 2 /\ tokens l3 = [0; 0].
Proof. vm_compute. done. Qed.

End Onesided.
