(* ===== verification/Wqe.v ===== *)
(** * Wqe: the segments of a work request, [mlx5/src/wqe/mod.rs]

    Every segment writer as the bytes it stores, in the big-endian layout of the
    device: control, RDMA, data, inline, address vectors, atomics (masked ones
    included) and tag matching; the three functions that patch a control segment
    in place.  A decoder of the control segment, by the layout the comments of
    the source give, reads every field back. *)
From S2P Require Import Prelude.

Module Wqe.

Definition CTRL_SEG_SIZE : Z := 16.
Definition RDMA_SEG_SIZE : Z := 16.
Definition DATA_SEG_SIZE : Z := 16.
Definition ATOMIC_SEG_SIZE : Z := 16.
Definition TM_SEG_SIZE : Z := 32.
Definition ADDRESS_VECTOR_SIZE : Z := 48.

(** [x.to_be()] stored through a pointer to an [8 * n]-bit integer. *)
Definition be_bytes (n : nat) (z : Z) : list Z := rev (le_bytes n z).
Definition be_value (bs : list Z) : Z := le_value (rev bs).

Inductive WqeOpcode : Type :=
| Nop | SendInval | RdmaWrite | RdmaWriteImm | Send | SendImm | RdmaRead
| AtomicCs | AtomicFa | AtomicMaskedCs | AtomicMaskedFa | TagMatching.

Definition opcode_u8 (o : WqeOpcode) : Z :=
  match o with
  | Nop => 0 | SendInval => 1 | RdmaWrite => 8 | RdmaWriteImm => 9 | Send => 10
  | SendImm => 11 | RdmaRead => 16 | AtomicCs => 17 | AtomicFa => 18
  | AtomicMaskedCs => 20 | AtomicMaskedFa => 21 | TagMatching => 40
  end.

(** [WqeFlags]: 16 bits, the low byte for [fm_ce_se], the high one for the PCIe
    control byte. *)
Definition FENCE : Z := 64.
Definition COMPLETION : Z := 8.
Definition SOLICITED : Z := 2.
Definition RELAXED_ORDERING : Z := 1024.
Definition fm_ce_se (flags : Z) : Z := Z.land flags 255.
Definition pcie_ctrl (flags : Z) : Z := Z.land (Z.shiftr flags 8) 255.

Record CtrlSegParams : Type := mkCtrl {
  opmod : Z;
  opcode : Z;
  wqe_idx : Z;
  qpn : Z;
  ds_cnt : Z;
  flags : Z;
  imm : Z;
}.

Definition write_ctrl_seg (p : CtrlSegParams) : list Z :=
  let opmod_idx_opcode :=
    Z.lor (Z.lor (u32 (Z.shiftl (opmod p) 24)) (u32 (Z.shiftl (wqe_idx p) 8))) (opcode p) in
  let qpn_ds := Z.lor (u32 (Z.shiftl (qpn p) 8)) (ds_cnt p) in
  let sig_stream_fm := Z.lor (u32 (Z.shiftl (pcie_ctrl (flags p)) 24)) (fm_ce_se (flags p)) in
  be_bytes 4 opmod_idx_opcode ++ be_bytes 4 qpn_ds ++ be_bytes 4 sig_stream_fm
    ++ be_bytes 4 (imm p).

(** Patches of a control segment that starts at [off] in [buf]. *)
Definition update_ctrl_seg_ds_cnt (buf : list Z) (off : nat) (ds : Z) : list Z :=
  write_bytes buf (off + 7) [ds].
Definition update_ctrl_seg_wqe_idx (buf : list Z) (off : nat) (idx : Z) : list Z :=
  write_bytes (write_bytes buf (off + 1) [u8 (Z.shiftr idx 8)]) (off + 2) [u8 idx].
Definition set_ctrl_seg_completion_flag (buf : list Z) (off : nat) : list Z :=
  match buf !! (off + 11)%nat with
  | Some current => write_bytes buf (off + 11) [Z.lor current 8]
  | None => buf
  end.

Definition write_rdma_seg (remote_addr rkey : Z) : list Z :=
  be_bytes 8 remote_addr ++ be_bytes 4 rkey ++ be_bytes 4 0.

Definition write_data_seg (byte_count lkey addr : Z) : list Z :=
  be_bytes 4 byte_count ++ be_bytes 4 lkey ++ be_bytes 8 addr.

Definition inline_padded_size (data_len : Z) : Z := Z.land (4 + data_len + 15) (not64 15).

(** The inline header, with the padded size the function returns. *)
Definition write_inline_header (byte_count : Z) : list Z * Z :=
  (be_bytes 4 (Z.lor 2147483648 byte_count), inline_padded_size byte_count).

Definition write_address_vector_ib (dc_key dctn dlid : Z) : list Z :=
  be_bytes 8 dc_key ++ be_bytes 4 (Z.lor 2147483648 (Z.land dctn 16777215)) ++ [0; 0]
    ++ be_bytes 2 dlid ++ replicate 32 0.

(** [struct GrhAttr] of [types.rs], as far as it is written. *)
Record GrhAttr : Type := mkGrh {
  dgid : list Z;
  sgid_index : Z;
  flow_label : Z;
  traffic_class : Z;
  hop_limit : Z;
}.

Definition write_address_vector_roce (dc_key dctn : Z) (grh : GrhAttr) : list Z :=
  be_bytes 8 dc_key ++ be_bytes 4 (Z.lor 2147483648 (Z.land dctn 16777215)) ++ be_bytes 2 0
    ++ [0; if flow_label grh =? 0 then 0 else 128]
    ++ be_bytes 4 (Z.lor 2147483648 (Z.land (flow_label grh) 1048575))
    ++ [0; hop_limit grh; traffic_class grh; sgid_index grh]
    ++ take 16 (dgid grh) ++ replicate 8 0.

(** [write_ud_address_vector_ib] of [emit.rs]. *)
Record UdAvIb : Type := mkUdAv { remote_qpn : Z; qkey : Z; ud_dlid : Z }.

Definition write_ud_address_vector_ib (av : UdAvIb) : list Z :=
  be_bytes 4 (qkey av) ++ be_bytes 4 0
    ++ be_bytes 4 (Z.lor (Z.land (remote_qpn av) 16777215) 2147483648)
    ++ [0; 0] ++ be_bytes 2 (ud_dlid av) ++ replicate 32 0.

Definition write_atomic_seg_cas (swap compare : Z) : list Z := be_bytes 8 swap ++ be_bytes 8 compare.
Definition write_atomic_seg_fa (add_value : Z) : list Z := be_bytes 8 add_value ++ be_bytes 8 0.

Definition write_masked_atomic_seg32_cas (swap compare swap_mask compare_mask : Z) : list Z :=
  be_bytes 4 swap ++ be_bytes 4 compare ++ be_bytes 4 swap_mask ++ be_bytes 4 compare_mask.
Definition write_masked_atomic_seg32_fa (add field_mask : Z) : list Z :=
  be_bytes 4 add ++ be_bytes 4 field_mask ++ be_bytes 4 0 ++ be_bytes 4 0.
(** The two segments of the 64-bit masked compare-and-swap. *)
Definition write_masked_atomic_seg64_cas (swap compare swap_mask compare_mask : Z)
    : list Z * list Z :=
  (be_bytes 8 swap ++ be_bytes 8 compare, be_bytes 8 swap_mask ++ be_bytes 8 compare_mask).
Definition write_masked_atomic_seg64_fa (add field_mask : Z) : list Z :=
  be_bytes 8 add ++ be_bytes 8 field_mask.
(** A 128-bit value, high half first. *)
Definition be128 (z : Z) : list Z := be_bytes 8 (Z.shiftr z 64) ++ be_bytes 8 z.
Definition write_masked_atomic_seg128_cas (swap compare swap_mask compare_mask : Z) : list Z :=
  be128 swap ++ be128 compare ++ be128 swap_mask ++ be128 compare_mask.
Definition write_masked_atomic_seg128_fa (add field_boundary : Z) : list Z :=
  be128 add ++ be128 field_boundary.

Definition write_tm_seg_add (index sw_cnt tag mask : Z) (signaled : bool) : list Z :=
  [16; if signaled then 128 else 0] ++ be_bytes 2 index ++ be_bytes 2 0 ++ be_bytes 2 sw_cnt
    ++ be_bytes 8 0 ++ be_bytes 8 tag ++ be_bytes 8 mask.
Definition write_tm_seg_del (index : Z) (signaled : bool) : list Z :=
  [32; if signaled then 128 else 0] ++ be_bytes 2 index ++ replicate 28 0.

Definition calc_wqebb_cnt (wqe_size : Z) : Z := u16 ((wqe_size + 63) / 64).

(** ** What the device reads *)

Definition be_field (buf : list Z) (off n : nat) : Z := be_value (read_bytes buf off n).

(** The control segment at [off], by the layout of [write_ctrl_seg]. *)
Definition decode_ctrl_seg (buf : list Z) (off : nat) : CtrlSegParams :=
  mkCtrl (be_field buf off 1) (be_field buf (off + 3) 1) (be_field buf (off + 1) 2)
    (be_field buf (off + 4) 3) (be_field buf (off + 7) 1)
    (be_field buf (off + 8) 1 * 256 + be_field buf (off + 11) 1) (be_field buf (off + 12) 4).

(** The fields fit their wire width. *)
Definition ctrl_ok (p : CtrlSegParams) : Prop :=
  is_uint 8 (opmod p) /\ is_uint 8 (opcode p) /\ is_uint 16 (wqe_idx p) /\
  is_uint 24 (qpn p) /\ is_uint 8 (ds_cnt p) /\ is_uint 16 (flags p) /\ is_uint 32 (imm p).

(** ** Lemmas *)

Lemma length_be_bytes n z : length (be_bytes n z) = n.
Proof. unfold be_bytes. by rewrite length_rev, length_le_bytes. Qed.

Lemma be_value_be_bytes n z : be_value (be_bytes n z) = z mod 2 ^ (8 * Z.of_nat n).
Proof. unfold be_value, be_bytes. by rewrite rev_involutive, le_value_le_bytes. Qed.

#[export] Hint Rewrite length_be_bytes : bytes.

Ltac seg_len := cbv [write_ctrl_seg write_rdma_seg write_data_seg write_address_vector_ib
  write_ud_address_vector_ib write_atomic_seg_cas write_atomic_seg_fa write_tm_seg_add
  write_tm_seg_del]; autorewrite with bytes; cbn; autorewrite with bytes; reflexivity.

Lemma length_ctrl_seg p : length (write_ctrl_seg p) = 16%nat.
Proof. seg_len. Qed.
Lemma length_rdma_seg a r : length (write_rdma_seg a r) = 16%nat.
Proof. seg_len. Qed.
Lemma length_data_seg n l a : length (write_data_seg n l a) = 16%nat.
Proof. seg_len. Qed.
Lemma length_av_ib k d l : length (write_address_vector_ib k d l) = 48%nat.
Proof. seg_len. Qed.
Lemma length_ud_av av : length (write_ud_address_vector_ib av) = 48%nat.
Proof. seg_len. Qed.
Lemma length_atomic_cas a b : length (write_atomic_seg_cas a b) = 16%nat.
Proof. seg_len. Qed.
Lemma length_atomic_fa a : length (write_atomic_seg_fa a) = 16%nat.
Proof. seg_len. Qed.
Lemma length_tm_add i c t m s : length (write_tm_seg_add i c t m s) = 32%nat.
Proof. seg_len. Qed.
Lemma length_tm_del i s : length (write_tm_seg_del i s) = 32%nat.
Proof. seg_len. Qed.

#[export] Hint Rewrite length_ctrl_seg length_rdma_seg length_data_seg length_av_ib length_ud_av
  length_atomic_cas length_atomic_fa length_tm_add length_tm_del : bytes.

(** ** The control segment, read back *)

(** Reading [n] bytes at [k] inside a segment that was stored at [off]. *)
Lemma be_field_write buf off seg k n :
  (off + length seg <= length buf)%nat -> (k + n <= length seg)%nat ->
  be_field (write_bytes buf off seg) (off + k) n = be_field seg k n.
Proof. intros Hl Hk. unfold be_field. by rewrite read_write_in. Qed.

Lemma be_field_app_l a b k n : (k + n <= length a)%nat -> be_field (a ++ b) k n = be_field a k n.
Proof. intros H. unfold be_field. by rewrite read_bytes_app_l. Qed.

Lemma be_field_app_r a b k n :
  (length a <= k)%nat -> be_field (a ++ b) k n = be_field b (k - length a) n.
Proof. intros H. unfold be_field. by rewrite read_bytes_app_r. Qed.

Lemma be_bytes_4 z :
  be_bytes 4 z = [z / 2 ^ 24 mod 256; z / 2 ^ 16 mod 256; z / 2 ^ 8 mod 256; z mod 256].
Proof.
  unfold be_bytes. simpl. rewrite !Z.div_div by lia. reflexivity.
Qed.

Lemma read_be_value n z : is_uint (8 * Z.of_nat n) z -> be_value (be_bytes n z) = z.
Proof. intros H. rewrite be_value_be_bytes. by apply Z.mod_small. Qed.

Lemma ctrl_words p :
  ctrl_ok p ->
  write_ctrl_seg p =
    be_bytes 4 (opmod p * 2 ^ 24 + wqe_idx p * 2 ^ 8 + opcode p) ++
    be_bytes 4 (qpn p * 2 ^ 8 + ds_cnt p) ++
    be_bytes 4 (flags p / 256 * 2 ^ 24 + flags p mod 256) ++ be_bytes 4 (imm p).
Proof.
  intros (Hm & Ho & Hi & Hq & Hd & Hf & _). unfold is_uint in *.
  unfold write_ctrl_seg, pcie_ctrl, fm_ce_se.
  change 255 with (2 ^ 8 - 1). rewrite !land_mask by lia.
  rewrite Z.shiftr_div_pow2, (Z.mod_small (flags p / 2 ^ 8)) by (try split; try apply Z.div_pos;
    try apply Z.div_lt_upper_bound; lia).
  change (2 ^ 8) with 256.
  assert (0 <= flags p / 256 < 256) by (split; [apply Z.div_pos|apply Z.div_lt_upper_bound]; lia).
  assert (0 <= flags p mod 256 < 256) by (apply Z.mod_pos_bound; lia).
  rewrite !u32_small by (rewrite ?Z.shiftl_mul_pow2 by lia; lia).
  rewrite <-Z.lor_assoc, (lor_shiftl (wqe_idx p)), !lor_shiftl by lia.
  by rewrite Z.add_assoc.
Qed.

(** Patching inside a segment that was stored at [off] is storing the patched one. *)
Lemma write_bytes_patch buf off seg k d :
  (off + length seg <= length buf)%nat -> (k + length d <= length seg)%nat ->
  write_bytes (write_bytes buf off seg) (off + k) d = write_bytes buf off (write_bytes seg k d).
Proof.
  intros Hl Hk. apply list_eq. intros i. assert (k <= length seg)%nat by lia.
  rewrite !lookup_write_bytes by (rewrite ?length_write_bytes by lia; lia).
  rewrite length_write_bytes by lia.
  repeat case_decide; try lia; try done. f_equal. lia.
Qed.

(** The control segment stored anywhere, as the device reads it. *)
Lemma decode_ctrl_stored seg buf off :
  length seg = 16%nat -> (off + 16 <= length buf)%nat ->
  decode_ctrl_seg (write_bytes buf off seg) off = decode_ctrl_seg seg 0.
Proof.
  intros Hs Hl. unfold decode_ctrl_seg.
  rewrite <-(Nat.add_0_r off) at 2. by rewrite !be_field_write by lia.
Qed.

Lemma ctrl_seg_bytes p :
  ctrl_ok p ->
  write_ctrl_seg p =
    [opmod p; wqe_idx p / 256; wqe_idx p mod 256; opcode p;
     qpn p / 2 ^ 16; qpn p / 256 mod 256; qpn p mod 256; ds_cnt p;
     flags p / 256; 0; 0; flags p mod 256] ++ be_bytes 4 (imm p).
Proof.
  intros Hp. rewrite ctrl_words by done.
  destruct Hp as (Hm & Ho & Hi & Hq & Hd & Hf & Hv). unfold is_uint in *.
  rewrite !be_bytes_4. cbn [app].
  do 12 (apply (f_equal2 cons); [Z.div_mod_to_equations; lia|]). done.
Qed.

Definition with_ds_cnt (p : CtrlSegParams) (ds : Z) : CtrlSegParams :=
  mkCtrl (opmod p) (opcode p) (wqe_idx p) (qpn p) ds (flags p) (imm p).
Definition with_wqe_idx (p : CtrlSegParams) (idx : Z) : CtrlSegParams :=
  mkCtrl (opmod p) (opcode p) idx (qpn p) (ds_cnt p) (flags p) (imm p).
Definition with_flags (p : CtrlSegParams) (f : Z) : CtrlSegParams :=
  mkCtrl (opmod p) (opcode p) (wqe_idx p) (qpn p) (ds_cnt p) f (imm p).

Ltac decode_ctrl := intros (Hm & Ho & Hi & Hq & Hd & Hf & Hv); unfold is_uint in *;
  unfold decode_ctrl_seg, be_field, be_value, read_bytes, with_ds_cnt, with_wqe_idx, with_flags;
  cbn in *; f_equal;
  Z.div_mod_to_equations; lia.

Lemma decode_ctrl_seg_write p : ctrl_ok p -> decode_ctrl_seg (write_ctrl_seg p) 0 = p.
Proof. intros Hp. rewrite ctrl_seg_bytes, be_bytes_4 by done. revert Hp. destruct p. decode_ctrl. Qed.

Lemma decode_ctrl_write p buf off :
  ctrl_ok p -> (off + 16 <= length buf)%nat ->
  decode_ctrl_seg (write_bytes buf off (write_ctrl_seg p)) off = p.
Proof.
  intros Hp Hl. rewrite decode_ctrl_stored by (autorewrite with bytes; done).
  by apply decode_ctrl_seg_write.
Qed.

Lemma lor_range k a b : 0 <= k -> 0 <= a < 2 ^ k -> 0 <= b < 2 ^ k -> 0 <= Z.lor a b < 2 ^ k.
Proof.
  intros Hk Ha Hb. split; [by apply Z.lor_nonneg; lia|].
  destruct (decide (Z.lor a b = 0)) as [->|]; [lia|].
  assert (0 <= Z.lor a b) by (apply Z.lor_nonneg; lia).
  apply Z.log2_lt_pow2; [lia|]. rewrite Z.log2_lor by lia.
  assert (0 < k).
  { destruct (decide (k = 0)) as [->|]; [|lia]. assert (a = 0) as -> by lia.
    assert (b = 0) as -> by lia. done. }
  apply Z.max_lub_lt.
  - destruct (decide (a = 0)) as [->|]; [cbn; lia|]. apply Z.log2_lt_pow2; lia.
  - destruct (decide (b = 0)) as [->|]; [cbn; lia|]. apply Z.log2_lt_pow2; lia.
Qed.

Lemma lor_8_high f : 0 <= f < 2 ^ 16 -> Z.lor f 8 = f / 256 * 256 + Z.lor (f mod 256) 8.
Proof.
  intros Hf. rewrite (Z.div_mod f 256) at 1 by lia.
  change 256 with (2 ^ 8) at 1. rewrite (Z.mul_comm (2 ^ 8)).
  assert (0 <= f mod 256 < 2 ^ 8) by (apply Z.mod_pos_bound; lia).
  rewrite <-lor_shiftl, <-Z.lor_assoc, lor_shiftl by (try apply lor_range; lia). done.
Qed.

(** A control segment stored at any offset is decoded by the device's layout to
    the fields it was built from; patching the data-segment count or the queue
    index of the stored segment changes that field and no other, and setting the
    completion flag adds that flag. *)
Theorem ctrl_segment_roundtrip p buf off ds idx :
  ctrl_ok p -> (off + 16 <= length buf)%nat -> is_uint 8 ds -> is_uint 16 idx ->
  let b := write_bytes buf off (write_ctrl_seg p) in
  decode_ctrl_seg b off = p /\
  decode_ctrl_seg (update_ctrl_seg_ds_cnt b off ds) off = with_ds_cnt p ds /\
  decode_ctrl_seg (update_ctrl_seg_wqe_idx b off idx) off = with_wqe_idx p idx /\
  decode_ctrl_seg (set_ctrl_seg_completion_flag b off) off =
    with_flags p (Z.lor (flags p) COMPLETION).
Proof.
  intros Hp Hl Hds Hidx b. pose proof (length_ctrl_seg p) as Hs.
  unfold update_ctrl_seg_ds_cnt, update_ctrl_seg_wqe_idx, set_ctrl_seg_completion_flag. subst b.
  split; [by apply decode_ctrl_write|]. rewrite lookup_write_bytes, decide_True by lia.
  replace (off + 11 - off)%nat with 11%nat by lia.
  rewrite ctrl_seg_bytes in * by done. rewrite be_bytes_4 in *. cbn [app lookup list_lookup] in *.
  pose proof Hp as (_ & _ & _ & _ & _ & Hf & _). unfold is_uint, COMPLETION in *.
  rewrite (lor_8_high (flags p)) by done.
  assert (0 <= Z.lor (flags p mod 256) 8 < 2 ^ 8).
  { apply lor_range; [|apply Z.mod_pos_bound|]; lia. }
  unfold u8, wrap. rewrite Z.shiftr_div_pow2 by lia.
  generalize dependent (Z.lor (flags p mod 256) 8). intros fl Hfl. clear Hf.
  split_and!; repeat (rewrite write_bytes_patch by (cbn; lia));
    rewrite decode_ctrl_stored by (cbn; lia); destruct p; revert Hp; decode_ctrl.
Qed.

Example ctrl_segment_roundtrip_witness :
  decode_ctrl_seg (set_ctrl_seg_completion_flag
    (write_bytes (replicate 64 0) 8 (write_ctrl_seg (mkCtrl 0 9 513 77 4 1026 16909060))) 8) 8
  = mkCtrl 0 9 513 77 4 1034 16909060.
Proof.
  refine (proj2 (proj2 (proj2 (ctrl_segment_roundtrip (mkCtrl 0 9 513 77 4 1026 16909060)
    (replicate 64 0) 8 5 6 _ _ _ _)))); unfold ctrl_ok, is_uint; cbn; lia.
Defined.

End Wqe.
