(* ===== verification/Emit.v ===== *)
(** * Emit: the arms of the work-request macros, [mlx5/src/wqe/emit.rs]

    The send queue with its buffer as bytes, and every arm of [emit_wqe!]
    (RC), [emit_dci_wqe!], [emit_ud_wqe!] and [emit_tm_wqe!] with the cold paths
    that pad the end of the ring with a NOP.  An unsignaled arm and its signaled
    twin are one definition, the entry of the table being optional.  All arms are
    shown equal to one reference: lay the request's segments out one after the
    other and post them where they fit.  The properties are proved of the
    reference. *)
From S2P Require Import Prelude SendQueue Wqe.

Module Emit.
Import Wqe.

Notation SgeParams := SendQueue.SgeParams.
Notation mkSge := SendQueue.mkSge.
Notation RdmaParams := SendQueue.RdmaParams.
Notation mkRdma := SendQueue.mkRdma.
Notation SqFull := SendQueue.SqFull.
Notation SubmissionError := SendQueue.SubmissionError.

(** ** The queue *)

(** [struct EmitContext]; [last_wqe] is a byte offset into [buf] and a size. *)
Record EmitContext (Entry : Type) : Type := mkCtx {
  buf : list Z;
  wqe_cnt : Z;
  sqn : Z;
  pi : Z;
  ci : Z;
  last_wqe : option (Z * Z);
  table : list (option (Entry * Z));
}.
Arguments mkCtx {Entry} _ _ _ _ _ _ _.
Arguments buf {Entry} _.
Arguments wqe_cnt {Entry} _.
Arguments sqn {Entry} _.
Arguments pi {Entry} _.
Arguments ci {Entry} _.
Arguments last_wqe {Entry} _.
Arguments table {Entry} _.

Record EmitResult : Type := mkRes {
  res_wqe_ptr : Z;
  res_wqe_idx : Z;
  res_wqe_size : Z;
  res_wqebb_cnt : Z;
}.

(** The stores of a work request: byte offset from its start, bytes. *)
Definition Stores : Type := list (Z * list Z).

Definition store_all (b : list Z) (ptr : Z) (im : Stores) : list Z :=
  fold_left (fun b s => write_bytes b (Z.to_nat (ptr + fst s)) (snd s)) im b.

Section Ops.
Context {Entry : Type}.
Implicit Types (q : EmitContext Entry) (entry : option Entry).

Definition available q : Z := u16 (wqe_cnt q - u16 (pi q - ci q)).
Definition get_wqe_ptr q (idx : Z) : Z := Z.land idx (wqe_cnt q - 1) * 64.
Definition slots_to_end q : Z := wqe_cnt q - Z.land (pi q) (wqe_cnt q - 1).

Definition set_buf q (b : list Z) : EmitContext Entry :=
  mkCtx b (wqe_cnt q) (sqn q) (pi q) (ci q) (last_wqe q) (table q).
Definition advance_pi q (count : Z) : EmitContext Entry :=
  mkCtx (buf q) (wqe_cnt q) (sqn q) (u16 (pi q + count)) (ci q) (last_wqe q) (table q).
Definition set_last_wqe q (ptr size : Z) : EmitContext Entry :=
  mkCtx (buf q) (wqe_cnt q) (sqn q) (pi q) (ci q) (Some (ptr, size)) (table q).

Definition write_nop_wqe (b : list Z) (ptr wqe_idx qpn nop_wqebb_cnt : Z) : list Z :=
  let ds_count := u8 (u8 nop_wqebb_cnt * 4) in
  write_bytes b (Z.to_nat ptr)
    (write_ctrl_seg (mkCtrl 0 (opcode_u8 Nop) wqe_idx qpn ds_count 0 0)).

Definition post_nop q (nop_wqebb_cnt : Z) : EmitContext Entry :=
  let wqe_idx := pi q in
  let wqe_ptr := get_wqe_ptr q wqe_idx in
  let q := set_buf q (write_nop_wqe (buf q) wqe_ptr wqe_idx (sqn q) nop_wqebb_cnt) in
  let q := advance_pi q nop_wqebb_cnt in
  set_last_wqe q wqe_ptr (nop_wqebb_cnt * 64).

(** [table().store(idx, entry, pi)], for a signaled request. *)
Definition table_store q (idx : Z) entry : EmitContext Entry :=
  match entry with
  | Some e =>
      mkCtx (buf q) (wqe_cnt q) (sqn q) (pi q) (ci q) (last_wqe q)
        (<[Z.to_nat (Z.land idx (wqe_cnt q - 1)) := Some (e, pi q)]> (table q))
  | None => q
  end.

Definition is_signaled entry : bool := match entry with Some _ => true | None => false end.
Definition entry_flags (fl : Z) entry : Z :=
  match entry with Some _ => Z.lor fl COMPLETION | None => fl end.
Definition actual_flags (fl : Z) (signaled : bool) : Z :=
  if signaled then Z.lor fl COMPLETION else fl.

(** The tail of every arm: the stores at the producer index, then the new
    producer index, the last request and the result. *)
Definition post q (wqe_size wqebb_cnt : Z) (image : Z -> Stores) : EmitContext Entry * EmitResult :=
  let wqe_idx := pi q in
  let wqe_ptr := get_wqe_ptr q wqe_idx in
  let q := set_buf q (store_all (buf q) wqe_ptr (image wqe_idx)) in
  let q := advance_pi q wqebb_cnt in
  (set_last_wqe q wqe_ptr wqe_size, mkRes wqe_ptr wqe_idx wqe_size wqebb_cnt).

Definition Outcome : Type := EmitContext Entry * result EmitResult SubmissionError.

(** The frame every arm shares: space check, wrap check, hot path, entry. *)
Definition emit_arm q (wqe_size : Z) entry (wrapped : Z -> Z -> Outcome) (image : Z -> Stores)
    : Outcome :=
  let wqebb_cnt := u16 ((wqe_size + 63) / 64) in
  if available q <? wqebb_cnt then (q, Err SqFull)
  else
    let slots := slots_to_end q in
    if (slots <? wqebb_cnt) && (slots <? wqe_cnt q) then
      match wrapped wqebb_cnt slots with
      | (q', Ok res) => (table_store q' (res_wqe_idx res) entry, Ok res)
      | (q', Err e) => (q', Err e)
      end
    else
      let '(q', res) := post q wqe_size wqebb_cnt image in
      (table_store q' (res_wqe_idx res) entry, Ok res).

(** The arms of one-block requests have no wrap check. *)
Definition emit_arm_one_block q (wqe_size wqebb_cnt : Z) entry (image : Z -> Stores) : Outcome :=
  if available q <? wqebb_cnt then (q, Err SqFull)
  else
    let '(q', res) := post q wqe_size wqebb_cnt image in
    (table_store q' (res_wqe_idx res) entry, Ok res).

(** Inline data at [off]: header, then the bytes; the padding is not written. *)
Definition inline_stores (off : Z) (data : list Z) : Stores :=
  [(off, fst (write_inline_header (Z.of_nat (length data)))); (off + 4, data)].

Definition data_store (off : Z) (sge : SgeParams) : Stores :=
  [(off, write_data_seg (SendQueue.sge_len sge) (SendQueue.sge_lkey sge)
           (SendQueue.sge_addr sge))].

Definition rdma_store (off : Z) (rdma : RdmaParams) : Stores :=
  [(off, write_rdma_seg (SendQueue.rdma_remote_addr rdma) (SendQueue.rdma_rkey rdma))].

Definition ctrl_store q (opc : WqeOpcode) (wqe_idx wqe_size fl imm : Z) : Stores :=
  [(0, write_ctrl_seg (mkCtrl 0 (opcode_u8 opc) wqe_idx (sqn q) (u8 (wqe_size / 16)) fl imm))].

Definition no_sge : SgeParams := mkSge 0 0 0.

(** ** The cold paths of the RC arms *)

Definition emit_send_wrap q (fl : Z) (sge : SgeParams) (signaled : bool)
    (inline_data : option (list Z)) (imm : Z) (opc : WqeOpcode) : Outcome :=
  let data_size := match inline_data with
                   | Some data => Z.land (4 + Z.of_nat (length data) + 15) (not64 15)
                   | None => DATA_SEG_SIZE
                   end in
  let wqe_size := CTRL_SEG_SIZE + data_size in
  let wqebb_cnt := calc_wqebb_cnt wqe_size in
  let slots := slots_to_end q in
  let total_needed := u16 (slots + wqebb_cnt) in
  if available q <? total_needed then (q, Err SqFull)
  else
    let q := post_nop q slots in
    let fl := actual_flags fl signaled in
    let '(q', res) := post q wqe_size wqebb_cnt (fun wqe_idx =>
      ctrl_store q opc wqe_idx wqe_size fl imm ++
      match inline_data with
      | Some data => inline_stores CTRL_SEG_SIZE data
      | None => data_store CTRL_SEG_SIZE sge
      end) in
    (q', Ok res).

Definition emit_write_wrap q (fl : Z) (rdma : RdmaParams) (sge : SgeParams) (signaled : bool)
    (inline_data : option (list Z)) (imm : Z) (opc : WqeOpcode) : Outcome :=
  let data_size := match inline_data, 0 <? SendQueue.sge_len sge with
                   | Some data, true => inline_padded_size (Z.of_nat (length data)) + DATA_SEG_SIZE
                   | Some data, false => inline_padded_size (Z.of_nat (length data))
                   | None, _ => DATA_SEG_SIZE
                   end in
  let wqe_size := CTRL_SEG_SIZE + RDMA_SEG_SIZE + data_size in
  let wqebb_cnt := calc_wqebb_cnt wqe_size in
  let slots := slots_to_end q in
  let total_needed := u16 (slots + wqebb_cnt) in
  if available q <? total_needed then (q, Err SqFull)
  else
    let q := post_nop q slots in
    let fl := actual_flags fl signaled in
    let '(q', res) := post q wqe_size wqebb_cnt (fun wqe_idx =>
      ctrl_store q opc wqe_idx wqe_size fl imm ++
      rdma_store CTRL_SEG_SIZE rdma ++
      let data_offset := CTRL_SEG_SIZE + RDMA_SEG_SIZE in
      match inline_data with
      | Some data =>
          inline_stores data_offset data ++
          if 0 <? SendQueue.sge_len sge
          then data_store (data_offset + inline_padded_size (Z.of_nat (length data))) sge
          else []
      | None => data_store data_offset sge
      end) in
    (q', Ok res).

Definition emit_read_wrap q (fl : Z) (rdma : RdmaParams) (sge : SgeParams) (signaled : bool)
    : Outcome :=
  let wqe_size := CTRL_SEG_SIZE + RDMA_SEG_SIZE + DATA_SEG_SIZE in
  let wqebb_cnt := calc_wqebb_cnt wqe_size in
  let slots := slots_to_end q in
  let total_needed := u16 (slots + wqebb_cnt) in
  if available q <? total_needed then (q, Err SqFull)
  else
    let q := post_nop q slots in
    let fl := actual_flags fl signaled in
    let '(q', res) := post q wqe_size wqebb_cnt (fun wqe_idx =>
      ctrl_store q RdmaRead wqe_idx wqe_size fl 0 ++
      rdma_store CTRL_SEG_SIZE rdma ++
      data_store (CTRL_SEG_SIZE + RDMA_SEG_SIZE) sge) in
    (q', Ok res).

Definition emit_cas_wrap q (fl : Z) (rdma : RdmaParams) (swap compare addr lkey : Z)
    (signaled : bool) : Outcome :=
  let wqe_size := CTRL_SEG_SIZE + RDMA_SEG_SIZE + ATOMIC_SEG_SIZE + DATA_SEG_SIZE in
  let wqebb_cnt := calc_wqebb_cnt wqe_size in
  let slots := slots_to_end q in
  let total_needed := u16 (slots + wqebb_cnt) in
  if available q <? total_needed then (q, Err SqFull)
  else
    let q := post_nop q slots in
    let fl := actual_flags fl signaled in
    let '(q', res) := post q wqe_size wqebb_cnt (fun wqe_idx =>
      ctrl_store q AtomicCs wqe_idx wqe_size fl 0 ++
      rdma_store CTRL_SEG_SIZE rdma ++
      [(CTRL_SEG_SIZE + RDMA_SEG_SIZE, write_atomic_seg_cas swap compare)] ++
      data_store (CTRL_SEG_SIZE + RDMA_SEG_SIZE + ATOMIC_SEG_SIZE) (mkSge addr 8 lkey)) in
    (q', Ok res).

Definition emit_fetch_add_wrap q (fl : Z) (rdma : RdmaParams) (add_value addr lkey : Z)
    (signaled : bool) : Outcome :=
  let wqe_size := CTRL_SEG_SIZE + RDMA_SEG_SIZE + ATOMIC_SEG_SIZE + DATA_SEG_SIZE in
  let wqebb_cnt := calc_wqebb_cnt wqe_size in
  let slots := slots_to_end q in
  let total_needed := u16 (slots + wqebb_cnt) in
  if available q <? total_needed then (q, Err SqFull)
  else
    let q := post_nop q slots in
    let fl := actual_flags fl signaled in
    let '(q', res) := post q wqe_size wqebb_cnt (fun wqe_idx =>
      ctrl_store q AtomicFa wqe_idx wqe_size fl 0 ++
      rdma_store CTRL_SEG_SIZE rdma ++
      [(CTRL_SEG_SIZE + RDMA_SEG_SIZE, write_atomic_seg_fa add_value)] ++
      data_store (CTRL_SEG_SIZE + RDMA_SEG_SIZE + ATOMIC_SEG_SIZE) (mkSge addr 8 lkey)) in
    (q', Ok res).

(** ** The arms of [emit_wqe!] *)

Definition emit_send_sge q (fl : Z) (sge : SgeParams) entry : Outcome :=
  let wqe_size := CTRL_SEG_SIZE + DATA_SEG_SIZE in
  let fl := entry_flags fl entry in
  emit_arm q wqe_size entry
    (fun _ _ => emit_send_wrap q fl sge (is_signaled entry) None 0 Send)
    (fun wqe_idx => ctrl_store q Send wqe_idx wqe_size fl 0 ++ data_store CTRL_SEG_SIZE sge).

Definition emit_send_inline q (fl : Z) (data : list Z) entry : Outcome :=
  let inline_size := inline_padded_size (Z.of_nat (length data)) in
  let wqe_size := CTRL_SEG_SIZE + inline_size in
  let fl := entry_flags fl entry in
  emit_arm q wqe_size entry
    (fun _ _ => emit_send_wrap q fl no_sge (is_signaled entry) (Some data) 0 Send)
    (fun wqe_idx => ctrl_store q Send wqe_idx wqe_size fl 0 ++ inline_stores CTRL_SEG_SIZE data).

Definition emit_write_sge q (fl : Z) (rdma : RdmaParams) (sge : SgeParams) entry : Outcome :=
  let wqe_size := CTRL_SEG_SIZE + RDMA_SEG_SIZE + DATA_SEG_SIZE in
  let fl := entry_flags fl entry in
  emit_arm q wqe_size entry
    (fun _ _ => emit_write_wrap q fl rdma sge (is_signaled entry) None 0 RdmaWrite)
    (fun wqe_idx => ctrl_store q RdmaWrite wqe_idx wqe_size fl 0 ++
       rdma_store CTRL_SEG_SIZE rdma ++ data_store (CTRL_SEG_SIZE + RDMA_SEG_SIZE) sge).

Definition emit_write_inline q (fl : Z) (rdma : RdmaParams) (data : list Z) entry : Outcome :=
  let inline_size := inline_padded_size (Z.of_nat (length data)) in
  let wqe_size := CTRL_SEG_SIZE + RDMA_SEG_SIZE + inline_size in
  let fl := entry_flags fl entry in
  emit_arm q wqe_size entry
    (fun _ _ => emit_write_wrap q fl rdma no_sge (is_signaled entry) (Some data) 0 RdmaWrite)
    (fun wqe_idx => ctrl_store q RdmaWrite wqe_idx wqe_size fl 0 ++
       rdma_store CTRL_SEG_SIZE rdma ++ inline_stores (CTRL_SEG_SIZE + RDMA_SEG_SIZE) data).

Definition emit_write_imm_sge q (fl : Z) (rdma : RdmaParams) (imm : Z) (sge : SgeParams) entry
    : Outcome :=
  let wqe_size := CTRL_SEG_SIZE + RDMA_SEG_SIZE + DATA_SEG_SIZE in
  let fl := entry_flags fl entry in
  emit_arm q wqe_size entry
    (fun _ _ => emit_write_wrap q fl rdma sge (is_signaled entry) None imm RdmaWriteImm)
    (fun wqe_idx => ctrl_store q RdmaWriteImm wqe_idx wqe_size fl imm ++
       rdma_store CTRL_SEG_SIZE rdma ++ data_store (CTRL_SEG_SIZE + RDMA_SEG_SIZE) sge).

Definition emit_write_imm_inline q (fl : Z) (rdma : RdmaParams) (imm : Z) (data : list Z) entry
    : Outcome :=
  let inline_size := inline_padded_size (Z.of_nat (length data)) in
  let wqe_size := CTRL_SEG_SIZE + RDMA_SEG_SIZE + inline_size in
  let fl := entry_flags fl entry in
  emit_arm q wqe_size entry
    (fun _ _ => emit_write_wrap q fl rdma no_sge (is_signaled entry) (Some data) imm RdmaWriteImm)
    (fun wqe_idx => ctrl_store q RdmaWriteImm wqe_idx wqe_size fl imm ++
       rdma_store CTRL_SEG_SIZE rdma ++ inline_stores (CTRL_SEG_SIZE + RDMA_SEG_SIZE) data).

Definition emit_write_imm_inline_sge q (fl : Z) (rdma : RdmaParams) (imm : Z) (data : list Z)
    (sge : SgeParams) entry : Outcome :=
  let inline_size := inline_padded_size (Z.of_nat (length data)) in
  let wqe_size := CTRL_SEG_SIZE + RDMA_SEG_SIZE + inline_size + DATA_SEG_SIZE in
  let fl := entry_flags fl entry in
  emit_arm q wqe_size entry
    (fun _ _ => emit_write_wrap q fl rdma sge (is_signaled entry) (Some data) imm RdmaWriteImm)
    (fun wqe_idx => ctrl_store q RdmaWriteImm wqe_idx wqe_size fl imm ++
       rdma_store CTRL_SEG_SIZE rdma ++ inline_stores (CTRL_SEG_SIZE + RDMA_SEG_SIZE) data ++
       data_store (CTRL_SEG_SIZE + RDMA_SEG_SIZE + inline_size) sge).

Definition emit_read q (fl : Z) (rdma : RdmaParams) (sge : SgeParams) entry : Outcome :=
  let wqe_size := CTRL_SEG_SIZE + RDMA_SEG_SIZE + DATA_SEG_SIZE in
  let fl := entry_flags fl entry in
  emit_arm q wqe_size entry
    (fun _ _ => emit_read_wrap q fl rdma sge (is_signaled entry))
    (fun wqe_idx => ctrl_store q RdmaRead wqe_idx wqe_size fl 0 ++
       rdma_store CTRL_SEG_SIZE rdma ++ data_store (CTRL_SEG_SIZE + RDMA_SEG_SIZE) sge).

Definition emit_cas q (fl : Z) (rdma : RdmaParams) (swap compare addr lkey : Z) entry : Outcome :=
  let wqe_size := CTRL_SEG_SIZE + RDMA_SEG_SIZE + ATOMIC_SEG_SIZE + DATA_SEG_SIZE in
  let fl := entry_flags fl entry in
  emit_arm q wqe_size entry
    (fun _ _ => emit_cas_wrap q fl rdma swap compare addr lkey (is_signaled entry))
    (fun wqe_idx => ctrl_store q AtomicCs wqe_idx wqe_size fl 0 ++
       rdma_store CTRL_SEG_SIZE rdma ++
       [(CTRL_SEG_SIZE + RDMA_SEG_SIZE, write_atomic_seg_cas swap compare)] ++
       data_store (CTRL_SEG_SIZE + RDMA_SEG_SIZE + ATOMIC_SEG_SIZE) (mkSge addr 8 lkey)).

Definition emit_fetch_add q (fl : Z) (rdma : RdmaParams) (add_value addr lkey : Z) entry
    : Outcome :=
  let wqe_size := CTRL_SEG_SIZE + RDMA_SEG_SIZE + ATOMIC_SEG_SIZE + DATA_SEG_SIZE in
  let fl := entry_flags fl entry in
  emit_arm q wqe_size entry
    (fun _ _ => emit_fetch_add_wrap q fl rdma add_value addr lkey (is_signaled entry))
    (fun wqe_idx => ctrl_store q AtomicFa wqe_idx wqe_size fl 0 ++
       rdma_store CTRL_SEG_SIZE rdma ++
       [(CTRL_SEG_SIZE + RDMA_SEG_SIZE, write_atomic_seg_fa add_value)] ++
       data_store (CTRL_SEG_SIZE + RDMA_SEG_SIZE + ATOMIC_SEG_SIZE) (mkSge addr 8 lkey)).

Definition emit_nop q (fl : Z) entry : Outcome :=
  let fl := entry_flags fl entry in
  emit_arm_one_block q CTRL_SEG_SIZE 1 entry (fun wqe_idx =>
    [(0, write_ctrl_seg (mkCtrl 0 (opcode_u8 Nop) wqe_idx (sqn q) 1 fl 0))]).

(** ** DCI arms: an address vector after the control segment *)

Record DcAvIb : Type := mkDcAv { dc_key : Z; dctn : Z; dlid : Z }.

Definition av_store (off : Z) (av : DcAvIb) : Stores :=
  [(off, write_address_vector_ib (dc_key av) (dctn av) (dlid av))].

Definition emit_dci_write_wrap q (av : DcAvIb) (fl : Z) (rdma : RdmaParams) (sge : SgeParams)
    (inline_data : option (list Z)) (imm : Z) (opc : WqeOpcode) (wqebb_cnt slots : Z) : Outcome :=
  let total_needed := u16 (slots + wqebb_cnt) in
  if available q <? total_needed then (q, Err SqFull)
  else
    let q := post_nop q slots in
    let data_size := match inline_data, 0 <? SendQueue.sge_len sge with
                     | Some data, true =>
                         inline_padded_size (Z.of_nat (length data)) + DATA_SEG_SIZE
                     | Some data, false => inline_padded_size (Z.of_nat (length data))
                     | None, _ => DATA_SEG_SIZE
                     end in
    let wqe_size := CTRL_SEG_SIZE + ADDRESS_VECTOR_SIZE + RDMA_SEG_SIZE + data_size in
    let wqebb_cnt := calc_wqebb_cnt wqe_size in
    let '(q', res) := post q wqe_size wqebb_cnt (fun wqe_idx =>
      ctrl_store q opc wqe_idx wqe_size fl imm ++
      av_store CTRL_SEG_SIZE av ++
      let rdma_offset := CTRL_SEG_SIZE + ADDRESS_VECTOR_SIZE in
      rdma_store rdma_offset rdma ++
      let data_offset := rdma_offset + RDMA_SEG_SIZE in
      match inline_data with
      | Some data =>
          inline_stores data_offset data ++
          if 0 <? SendQueue.sge_len sge
          then data_store (data_offset + inline_padded_size (Z.of_nat (length data))) sge
          else []
      | None => data_store data_offset sge
      end) in
    (q', Ok res).

Definition emit_dci_read_wrap q (av : DcAvIb) (fl : Z) (rdma : RdmaParams) (sge : SgeParams)
    (wqebb_cnt slots : Z) : Outcome :=
  let wqe_size := CTRL_SEG_SIZE + ADDRESS_VECTOR_SIZE + RDMA_SEG_SIZE + DATA_SEG_SIZE in
  let total_needed := u16 (slots + wqebb_cnt) in
  if available q <? total_needed then (q, Err SqFull)
  else
    let q := post_nop q slots in
    let '(q', res) := post q wqe_size wqebb_cnt (fun wqe_idx =>
      ctrl_store q RdmaRead wqe_idx wqe_size fl 0 ++
      av_store CTRL_SEG_SIZE av ++
      let rdma_offset := CTRL_SEG_SIZE + ADDRESS_VECTOR_SIZE in
      rdma_store rdma_offset rdma ++ data_store (rdma_offset + RDMA_SEG_SIZE) sge) in
    (q', Ok res).

Definition emit_dci_send_wrap q (av : DcAvIb) (fl : Z) (sge : SgeParams)
    (inline_data : option (list Z)) (imm : Z) (opc : WqeOpcode) (wqebb_cnt slots : Z) : Outcome :=
  let total_needed := u16 (slots + wqebb_cnt) in
  if available q <? total_needed then (q, Err SqFull)
  else
    let q := post_nop q slots in
    let data_size := match inline_data with
                     | Some data => inline_padded_size (Z.of_nat (length data))
                     | None => DATA_SEG_SIZE
                     end in
    let wqe_size := CTRL_SEG_SIZE + ADDRESS_VECTOR_SIZE + data_size in
    let wqebb_cnt := calc_wqebb_cnt wqe_size in
    let '(q', res) := post q wqe_size wqebb_cnt (fun wqe_idx =>
      ctrl_store q opc wqe_idx wqe_size fl imm ++
      av_store CTRL_SEG_SIZE av ++
      let data_offset := CTRL_SEG_SIZE + ADDRESS_VECTOR_SIZE in
      match inline_data with
      | Some data => inline_stores data_offset data
      | None => data_store data_offset sge
      end) in
    (q', Ok res).

Definition emit_dci_write_imm_sge q (av : DcAvIb) (fl : Z) (rdma : RdmaParams) (imm : Z)
    (sge : SgeParams) entry : Outcome :=
  let wqe_size := CTRL_SEG_SIZE + ADDRESS_VECTOR_SIZE + RDMA_SEG_SIZE + DATA_SEG_SIZE in
  let fl := entry_flags fl entry in
  emit_arm q wqe_size entry
    (emit_dci_write_wrap q av fl rdma sge None imm RdmaWriteImm)
    (fun wqe_idx => ctrl_store q RdmaWriteImm wqe_idx wqe_size fl imm ++
       av_store CTRL_SEG_SIZE av ++ rdma_store (CTRL_SEG_SIZE + ADDRESS_VECTOR_SIZE) rdma ++
       data_store (CTRL_SEG_SIZE + ADDRESS_VECTOR_SIZE + RDMA_SEG_SIZE) sge).

Definition emit_dci_write_imm_inline_sge q (av : DcAvIb) (fl : Z) (rdma : RdmaParams) (imm : Z)
    (data : list Z) (sge : SgeParams) entry : Outcome :=
  let inline_size := inline_padded_size (Z.of_nat (length data)) in
  let wqe_size :=
    CTRL_SEG_SIZE + ADDRESS_VECTOR_SIZE + RDMA_SEG_SIZE + inline_size + DATA_SEG_SIZE in
  let fl := entry_flags fl entry in
  let inline_off := CTRL_SEG_SIZE + ADDRESS_VECTOR_SIZE + RDMA_SEG_SIZE in
  emit_arm q wqe_size entry
    (emit_dci_write_wrap q av fl rdma sge (Some data) imm RdmaWriteImm)
    (fun wqe_idx => ctrl_store q RdmaWriteImm wqe_idx wqe_size fl imm ++
       av_store CTRL_SEG_SIZE av ++ rdma_store (CTRL_SEG_SIZE + ADDRESS_VECTOR_SIZE) rdma ++
       inline_stores inline_off data ++ data_store (inline_off + inline_size) sge).

(** The next four arms exist only in signaled form. *)
Definition emit_dci_write_sge q (av : DcAvIb) (fl : Z) (rdma : RdmaParams) (sge : SgeParams)
    (e : Entry) : Outcome :=
  let wqe_size := CTRL_SEG_SIZE + ADDRESS_VECTOR_SIZE + RDMA_SEG_SIZE + DATA_SEG_SIZE in
  let fl := Z.lor fl COMPLETION in
  emit_arm q wqe_size (Some e)
    (emit_dci_write_wrap q av fl rdma sge None 0 RdmaWrite)
    (fun wqe_idx => ctrl_store q RdmaWrite wqe_idx wqe_size fl 0 ++
       av_store CTRL_SEG_SIZE av ++ rdma_store (CTRL_SEG_SIZE + ADDRESS_VECTOR_SIZE) rdma ++
       data_store (CTRL_SEG_SIZE + ADDRESS_VECTOR_SIZE + RDMA_SEG_SIZE) sge).

Definition emit_dci_write_inline q (av : DcAvIb) (fl : Z) (rdma : RdmaParams) (data : list Z)
    (e : Entry) : Outcome :=
  let inline_size := inline_padded_size (Z.of_nat (length data)) in
  let wqe_size := CTRL_SEG_SIZE + ADDRESS_VECTOR_SIZE + RDMA_SEG_SIZE + inline_size in
  let fl := Z.lor fl COMPLETION in
  emit_arm q wqe_size (Some e)
    (emit_dci_write_wrap q av fl rdma no_sge (Some data) 0 RdmaWrite)
    (fun wqe_idx => ctrl_store q RdmaWrite wqe_idx wqe_size fl 0 ++
       av_store CTRL_SEG_SIZE av ++ rdma_store (CTRL_SEG_SIZE + ADDRESS_VECTOR_SIZE) rdma ++
       inline_stores (CTRL_SEG_SIZE + ADDRESS_VECTOR_SIZE + RDMA_SEG_SIZE) data).

Definition emit_dci_write_imm_inline q (av : DcAvIb) (fl : Z) (rdma : RdmaParams) (imm : Z)
    (data : list Z) (e : Entry) : Outcome :=
  let inline_size := inline_padded_size (Z.of_nat (length data)) in
  let wqe_size := CTRL_SEG_SIZE + ADDRESS_VECTOR_SIZE + RDMA_SEG_SIZE + inline_size in
  let fl := Z.lor fl COMPLETION in
  emit_arm q wqe_size (Some e)
    (emit_dci_write_wrap q av fl rdma no_sge (Some data) imm RdmaWriteImm)
    (fun wqe_idx => ctrl_store q RdmaWriteImm wqe_idx wqe_size fl imm ++
       av_store CTRL_SEG_SIZE av ++ rdma_store (CTRL_SEG_SIZE + ADDRESS_VECTOR_SIZE) rdma ++
       inline_stores (CTRL_SEG_SIZE + ADDRESS_VECTOR_SIZE + RDMA_SEG_SIZE) data).

Definition emit_dci_read q (av : DcAvIb) (fl : Z) (rdma : RdmaParams) (sge : SgeParams)
    (e : Entry) : Outcome :=
  let wqe_size := CTRL_SEG_SIZE + ADDRESS_VECTOR_SIZE + RDMA_SEG_SIZE + DATA_SEG_SIZE in
  let fl := Z.lor fl COMPLETION in
  emit_arm q wqe_size (Some e)
    (emit_dci_read_wrap q av fl rdma sge)
    (fun wqe_idx => ctrl_store q RdmaRead wqe_idx wqe_size fl 0 ++
       av_store CTRL_SEG_SIZE av ++ rdma_store (CTRL_SEG_SIZE + ADDRESS_VECTOR_SIZE) rdma ++
       data_store (CTRL_SEG_SIZE + ADDRESS_VECTOR_SIZE + RDMA_SEG_SIZE) sge).

Definition emit_dci_send_sge q (av : DcAvIb) (fl : Z) (sge : SgeParams) entry : Outcome :=
  let wqe_size := CTRL_SEG_SIZE + ADDRESS_VECTOR_SIZE + DATA_SEG_SIZE in
  let fl := entry_flags fl entry in
  emit_arm q wqe_size entry
    (emit_dci_send_wrap q av fl sge None 0 Send)
    (fun wqe_idx => ctrl_store q Send wqe_idx wqe_size fl 0 ++
       av_store CTRL_SEG_SIZE av ++ data_store (CTRL_SEG_SIZE + ADDRESS_VECTOR_SIZE) sge).

Definition emit_dci_send_inline q (av : DcAvIb) (fl : Z) (data : list Z) entry : Outcome :=
  let inline_size := inline_padded_size (Z.of_nat (length data)) in
  let wqe_size := CTRL_SEG_SIZE + ADDRESS_VECTOR_SIZE + inline_size in
  let fl := entry_flags fl entry in
  emit_arm q wqe_size entry
    (emit_dci_send_wrap q av fl no_sge (Some data) 0 Send)
    (fun wqe_idx => ctrl_store q Send wqe_idx wqe_size fl 0 ++
       av_store CTRL_SEG_SIZE av ++ inline_stores (CTRL_SEG_SIZE + ADDRESS_VECTOR_SIZE) data).

(** ** UD arms *)

Definition emit_ud_send_wrap q (av : UdAvIb) (fl : Z) (sge : SgeParams)
    (inline_data : option (list Z)) (imm : Z) (opc : WqeOpcode) (wqebb_cnt slots : Z) : Outcome :=
  let total_needed := u16 (slots + wqebb_cnt) in
  if available q <? total_needed then (q, Err SqFull)
  else
    let q := post_nop q slots in
    let data_size := match inline_data with
                     | Some data => inline_padded_size (Z.of_nat (length data))
                     | None => DATA_SEG_SIZE
                     end in
    let wqe_size := CTRL_SEG_SIZE + ADDRESS_VECTOR_SIZE + data_size in
    let wqebb_cnt := calc_wqebb_cnt wqe_size in
    let '(q', res) := post q wqe_size wqebb_cnt (fun wqe_idx =>
      ctrl_store q opc wqe_idx wqe_size fl imm ++
      [(CTRL_SEG_SIZE, write_ud_address_vector_ib av)] ++
      let data_offset := CTRL_SEG_SIZE + ADDRESS_VECTOR_SIZE in
      match inline_data with
      | Some data => inline_stores data_offset data
      | None => data_store data_offset sge
      end) in
    (q', Ok res).

Definition emit_ud_send_sge q (av : UdAvIb) (fl : Z) (sge : SgeParams) entry : Outcome :=
  let wqe_size := CTRL_SEG_SIZE + ADDRESS_VECTOR_SIZE + DATA_SEG_SIZE in
  let fl := entry_flags fl entry in
  emit_arm q wqe_size entry
    (emit_ud_send_wrap q av fl sge None 0 Send)
    (fun wqe_idx => ctrl_store q Send wqe_idx wqe_size fl 0 ++
       [(CTRL_SEG_SIZE, write_ud_address_vector_ib av)] ++
       data_store (CTRL_SEG_SIZE + ADDRESS_VECTOR_SIZE) sge).

Definition emit_ud_send_inline q (av : UdAvIb) (fl : Z) (data : list Z) entry : Outcome :=
  let inline_size := inline_padded_size (Z.of_nat (length data)) in
  let wqe_size := CTRL_SEG_SIZE + ADDRESS_VECTOR_SIZE + inline_size in
  let fl := entry_flags fl entry in
  emit_arm q wqe_size entry
    (emit_ud_send_wrap q av fl no_sge (Some data) 0 Send)
    (fun wqe_idx => ctrl_store q Send wqe_idx wqe_size fl 0 ++
       [(CTRL_SEG_SIZE, write_ud_address_vector_ib av)] ++
       inline_stores (CTRL_SEG_SIZE + ADDRESS_VECTOR_SIZE) data).

(** ** Tag-matching commands: one block each, always with a completion *)

Definition emit_tag_add q (index tag : Z) (sge : SgeParams) entry : Outcome :=
  let wqe_size := CTRL_SEG_SIZE + TM_SEG_SIZE + DATA_SEG_SIZE in
  emit_arm_one_block q wqe_size (u16 ((wqe_size + 63) / 64)) entry (fun wqe_idx =>
    ctrl_store q TagMatching wqe_idx wqe_size COMPLETION 0 ++
    [(CTRL_SEG_SIZE, write_tm_seg_add index index tag U64_MAX (is_signaled entry))] ++
    data_store (CTRL_SEG_SIZE + TM_SEG_SIZE) sge).

Definition emit_tag_del q (index : Z) entry : Outcome :=
  let wqe_size := CTRL_SEG_SIZE + TM_SEG_SIZE in
  emit_arm_one_block q wqe_size (u16 ((wqe_size + 63) / 64)) entry (fun wqe_idx =>
    ctrl_store q TagMatching wqe_idx wqe_size COMPLETION 0 ++
    [(CTRL_SEG_SIZE, write_tm_seg_del index (is_signaled entry))]).

(** ** Reference: a request as its segments, laid out one after the other *)

Inductive Segment : Type :=
| SegRdma (rdma : RdmaParams)
| SegData (sge : SgeParams)
| SegInline (data : list Z)
| SegAv (av : DcAvIb)
| SegUdAv (av : UdAvIb)
| SegCas (swap compare : Z)
| SegFetchAdd (add_value : Z)
| SegTagAdd (index tag : Z) (signaled : bool)
| SegTagDel (index : Z) (signaled : bool).

Definition seg_size (s : Segment) : Z :=
  match s with
  | SegInline data => inline_padded_size (Z.of_nat (length data))
  | SegAv _ | SegUdAv _ => 48
  | SegTagAdd _ _ _ | SegTagDel _ _ => 32
  | _ => 16
  end.

Definition seg_stores (off : Z) (s : Segment) : Stores :=
  match s with
  | SegRdma rdma => rdma_store off rdma
  | SegData sge => data_store off sge
  | SegInline data => inline_stores off data
  | SegAv av => av_store off av
  | SegUdAv av => [(off, write_ud_address_vector_ib av)]
  | SegCas swap compare => [(off, write_atomic_seg_cas swap compare)]
  | SegFetchAdd a => [(off, write_atomic_seg_fa a)]
  | SegTagAdd index tag signaled => [(off, write_tm_seg_add index index tag U64_MAX signaled)]
  | SegTagDel index signaled => [(off, write_tm_seg_del index signaled)]
  end.

Fixpoint layout (off : Z) (segs : list Segment) : Stores :=
  match segs with
  | [] => []
  | s :: segs => seg_stores off s ++ layout (off + seg_size s) segs
  end.

Fixpoint segs_size (segs : list Segment) : Z :=
  match segs with [] => 0 | s :: segs => seg_size s + segs_size segs end.

Record Request : Type := mkReq {
  req_opcode : WqeOpcode;
  req_flags : Z;
  req_imm : Z;
  req_segs : list Segment;
}.

Definition req_size (r : Request) : Z := CTRL_SEG_SIZE + segs_size (req_segs r).
Definition req_blocks (r : Request) : Z := (req_size r + 63) / 64.
Definition req_ctrl (r : Request) (wqe_idx qpn : Z) : CtrlSegParams :=
  mkCtrl 0 (opcode_u8 (req_opcode r)) wqe_idx qpn (req_size r / 16) (req_flags r) (req_imm r).
Definition req_stores (qpn : Z) (r : Request) (wqe_idx : Z) : Stores :=
  (0, write_ctrl_seg (req_ctrl r wqe_idx qpn)) :: layout CTRL_SEG_SIZE (req_segs r).

(** Blocks left unused at the end of the ring because the request does not fit there. *)
Definition padding q (r : Request) : Z :=
  if slots_to_end q <? req_blocks r then slots_to_end q else 0.

Definition emit_reference q (r : Request) entry : Outcome :=
  if available q <? padding q r + req_blocks r then (q, Err SqFull)
  else
    let q1 := if 0 <? padding q r then post_nop q (padding q r) else q in
    let '(q', res) := post q1 (req_size r) (req_blocks r) (req_stores (sqn q) r) in
    (table_store q' (res_wqe_idx res) entry, Ok res).

(** Every arm, with its arguments. *)
Inductive Verb : Type :=
| VSend (fl : Z) (sge : SgeParams) (entry : option Entry)
| VSendInline (fl : Z) (data : list Z) (entry : option Entry)
| VWrite (fl : Z) (rdma : RdmaParams) (sge : SgeParams) (entry : option Entry)
| VWriteInline (fl : Z) (rdma : RdmaParams) (data : list Z) (entry : option Entry)
| VWriteImm (fl : Z) (rdma : RdmaParams) (imm : Z) (sge : SgeParams) (entry : option Entry)
| VWriteImmInline (fl : Z) (rdma : RdmaParams) (imm : Z) (data : list Z) (entry : option Entry)
| VWriteImmInlineSge (fl : Z) (rdma : RdmaParams) (imm : Z) (data : list Z) (sge : SgeParams)
    (entry : option Entry)
| VRead (fl : Z) (rdma : RdmaParams) (sge : SgeParams) (entry : option Entry)
| VCas (fl : Z) (rdma : RdmaParams) (swap compare addr lkey : Z) (entry : option Entry)
| VFetchAdd (fl : Z) (rdma : RdmaParams) (add_value addr lkey : Z) (entry : option Entry)
| VNop (fl : Z) (entry : option Entry)
| VDciWriteImm (av : DcAvIb) (fl : Z) (rdma : RdmaParams) (imm : Z) (sge : SgeParams)
    (entry : option Entry)
| VDciWriteImmInlineSge (av : DcAvIb) (fl : Z) (rdma : RdmaParams) (imm : Z) (data : list Z)
    (sge : SgeParams) (entry : option Entry)
| VDciWrite (av : DcAvIb) (fl : Z) (rdma : RdmaParams) (sge : SgeParams) (e : Entry)
| VDciWriteInline (av : DcAvIb) (fl : Z) (rdma : RdmaParams) (data : list Z) (e : Entry)
| VDciWriteImmInline (av : DcAvIb) (fl : Z) (rdma : RdmaParams) (imm : Z) (data : list Z) (e : Entry)
| VDciRead (av : DcAvIb) (fl : Z) (rdma : RdmaParams) (sge : SgeParams) (e : Entry)
| VDciSend (av : DcAvIb) (fl : Z) (sge : SgeParams) (entry : option Entry)
| VDciSendInline (av : DcAvIb) (fl : Z) (data : list Z) (entry : option Entry)
| VUdSend (av : UdAvIb) (fl : Z) (sge : SgeParams) (entry : option Entry)
| VUdSendInline (av : UdAvIb) (fl : Z) (data : list Z) (entry : option Entry)
| VTagAdd (index tag : Z) (sge : SgeParams) (entry : option Entry)
| VTagDel (index : Z) (entry : option Entry).

Definition emit q (v : Verb) : Outcome :=
  match v with
  | VSend fl sge e => emit_send_sge q fl sge e
  | VSendInline fl data e => emit_send_inline q fl data e
  | VWrite fl rdma sge e => emit_write_sge q fl rdma sge e
  | VWriteInline fl rdma data e => emit_write_inline q fl rdma data e
  | VWriteImm fl rdma imm sge e => emit_write_imm_sge q fl rdma imm sge e
  | VWriteImmInline fl rdma imm data e => emit_write_imm_inline q fl rdma imm data e
  | VWriteImmInlineSge fl rdma imm data sge e =>
      emit_write_imm_inline_sge q fl rdma imm data sge e
  | VRead fl rdma sge e => emit_read q fl rdma sge e
  | VCas fl rdma swap compare addr lkey e => emit_cas q fl rdma swap compare addr lkey e
  | VFetchAdd fl rdma add addr lkey e => emit_fetch_add q fl rdma add addr lkey e
  | VNop fl e => emit_nop q fl e
  | VDciWriteImm av fl rdma imm sge e => emit_dci_write_imm_sge q av fl rdma imm sge e
  | VDciWriteImmInlineSge av fl rdma imm data sge e =>
      emit_dci_write_imm_inline_sge q av fl rdma imm data sge e
  | VDciWrite av fl rdma sge e => emit_dci_write_sge q av fl rdma sge e
  | VDciWriteInline av fl rdma data e => emit_dci_write_inline q av fl rdma data e
  | VDciWriteImmInline av fl rdma imm data e => emit_dci_write_imm_inline q av fl rdma imm data e
  | VDciRead av fl rdma sge e => emit_dci_read q av fl rdma sge e
  | VDciSend av fl sge e => emit_dci_send_sge q av fl sge e
  | VDciSendInline av fl data e => emit_dci_send_inline q av fl data e
  | VUdSend av fl sge e => emit_ud_send_sge q av fl sge e
  | VUdSendInline av fl data e => emit_ud_send_inline q av fl data e
  | VTagAdd index tag sge e => emit_tag_add q index tag sge e
  | VTagDel index e => emit_tag_del q index e
  end.

(** The request an arm stands for, and its entry. *)
Definition request (v : Verb) : Request * option Entry :=
  let c fl := Z.lor fl COMPLETION in
  match v with
  | VSend fl sge e => (mkReq Send (entry_flags fl e) 0 [SegData sge], e)
  | VSendInline fl data e => (mkReq Send (entry_flags fl e) 0 [SegInline data], e)
  | VWrite fl rdma sge e =>
      (mkReq RdmaWrite (entry_flags fl e) 0 [SegRdma rdma; SegData sge], e)
  | VWriteInline fl rdma data e =>
      (mkReq RdmaWrite (entry_flags fl e) 0 [SegRdma rdma; SegInline data], e)
  | VWriteImm fl rdma imm sge e =>
      (mkReq RdmaWriteImm (entry_flags fl e) imm [SegRdma rdma; SegData sge], e)
  | VWriteImmInline fl rdma imm data e =>
      (mkReq RdmaWriteImm (entry_flags fl e) imm [SegRdma rdma; SegInline data], e)
  | VWriteImmInlineSge fl rdma imm data sge e =>
      (mkReq RdmaWriteImm (entry_flags fl e) imm [SegRdma rdma; SegInline data; SegData sge], e)
  | VRead fl rdma sge e =>
      (mkReq RdmaRead (entry_flags fl e) 0 [SegRdma rdma; SegData sge], e)
  | VCas fl rdma swap compare addr lkey e =>
      (mkReq AtomicCs (entry_flags fl e) 0
         [SegRdma rdma; SegCas swap compare; SegData (mkSge addr 8 lkey)], e)
  | VFetchAdd fl rdma add addr lkey e =>
      (mkReq AtomicFa (entry_flags fl e) 0
         [SegRdma rdma; SegFetchAdd add; SegData (mkSge addr 8 lkey)], e)
  | VNop fl e => (mkReq Nop (entry_flags fl e) 0 [], e)
  | VDciWriteImm av fl rdma imm sge e =>
      (mkReq RdmaWriteImm (entry_flags fl e) imm [SegAv av; SegRdma rdma; SegData sge], e)
  | VDciWriteImmInlineSge av fl rdma imm data sge e =>
      (mkReq RdmaWriteImm (entry_flags fl e) imm
         [SegAv av; SegRdma rdma; SegInline data; SegData sge], e)
  | VDciWrite av fl rdma sge e =>
      (mkReq RdmaWrite (c fl) 0 [SegAv av; SegRdma rdma; SegData sge], Some e)
  | VDciWriteInline av fl rdma data e =>
      (mkReq RdmaWrite (c fl) 0 [SegAv av; SegRdma rdma; SegInline data], Some e)
  | VDciWriteImmInline av fl rdma imm data e =>
      (mkReq RdmaWriteImm (c fl) imm [SegAv av; SegRdma rdma; SegInline data], Some e)
  | VDciRead av fl rdma sge e =>
      (mkReq RdmaRead (c fl) 0 [SegAv av; SegRdma rdma; SegData sge], Some e)
  | VDciSend av fl sge e => (mkReq Send (entry_flags fl e) 0 [SegAv av; SegData sge], e)
  | VDciSendInline av fl data e => (mkReq Send (entry_flags fl e) 0 [SegAv av; SegInline data], e)
  | VUdSend av fl sge e => (mkReq Send (entry_flags fl e) 0 [SegUdAv av; SegData sge], e)
  | VUdSendInline av fl data e => (mkReq Send (entry_flags fl e) 0 [SegUdAv av; SegInline data], e)
  | VTagAdd index tag sge e =>
      (mkReq TagMatching COMPLETION 0 [SegTagAdd index tag (is_signaled e); SegData sge], e)
  | VTagDel index e => (mkReq TagMatching COMPLETION 0 [SegTagDel index (is_signaled e)], e)
  end.

(** The requests the reference covers: at most 255 units of 16 bytes, the width of
    the count in the control segment, and, where inline data is followed by a
    scatter entry, a nonempty one (the cold path leaves an empty one out). *)
Definition seg_ok (s : Segment) : Prop :=
  match s with SegInline data => Z.of_nat (length data) <= 4096 | _ => True end.

Definition verb_ok (v : Verb) : Prop :=
  Forall seg_ok (req_segs (fst (request v))) /\ req_size (fst (request v)) <= 4080 /\
  match v with
  | VWriteImmInlineSge _ _ _ _ sge _ | VDciWriteImmInlineSge _ _ _ _ _ sge _ =>
      0 < SendQueue.sge_len sge
  | _ => True
  end.

(** ** Invariant: indices as in the block-level model, and a byte per buffer cell *)

Definition indices q : SendQueue.Sq Entry :=
  SendQueue.mkSq (replicate (Z.to_nat (wqe_cnt q)) None) (wqe_cnt q) (pi q) (ci q) None 0 (table q).

Definition ctx_ok q : Prop :=
  SendQueue.sq_ok (indices q) /\ Z.of_nat (length (buf q)) = 64 * wqe_cnt q /\ is_uint 24 (sqn q).

(** ** The arms and the reference *)

Lemma inline_padded_spec n :
  0 <= n <= 4096 ->
  4 + n <= inline_padded_size n /\ inline_padded_size n mod 16 = 0 /\ inline_padded_size n <= n + 19.
Proof.
  intros Hn. pose proof (align_up_mask_spec (4 + n) 4) as H.
  unfold align_up_mask in H. change (2 ^ 4) with 16 in H. unfold inline_padded_size.
  replace (4 + n + 15) with (4 + n + 16 - 1) by lia. change 15 with (16 - 1). lia.
Qed.

Lemma seg_size_spec s : seg_ok s -> 0 < seg_size s /\ seg_size s mod 16 = 0.
Proof.
  intros Hs. destruct s; cbn in *; try done.
  pose proof (inline_padded_spec (Z.of_nat (length data))). lia.
Qed.

Lemma segs_size_spec segs :
  Forall seg_ok segs -> 0 <= segs_size segs /\ segs_size segs mod 16 = 0.
Proof.
  induction 1 as [|s segs Hs _ [IH1 IH2]]; cbn; [done|].
  destruct (seg_size_spec s Hs) as [H1 H2]. split; [lia|]. by apply aligned_add.
Qed.

Definition req_ok (r : Request) : Prop := Forall seg_ok (req_segs r) /\ req_size r <= 4080.

Lemma req_size_spec r :
  req_ok r ->
  16 <= req_size r /\ req_size r mod 16 = 0 /\ 0 < req_blocks r <= 64 /\
  req_size r <= 64 * req_blocks r /\ u16 (req_blocks r) = req_blocks r /\
  calc_wqebb_cnt (req_size r) = req_blocks r.
Proof.
  intros [Hs Hle]. destruct (segs_size_spec _ Hs) as [H1 H2].
  assert (16 <= req_size r) by (unfold req_size, CTRL_SEG_SIZE; lia).
  assert (req_size r mod 16 = 0) by (apply aligned_add; done).
  assert (0 < req_blocks r <= 64) by (unfold req_blocks; Z.div_mod_to_equations; lia).
  assert (req_size r <= 64 * req_blocks r) by (unfold req_blocks; Z.div_mod_to_equations; lia).
  split_and!; try lia; [apply u16_small; lia|].
  unfold calc_wqebb_cnt. change ((req_size r + 63) / 64) with (req_blocks r).
  apply u16_small; lia.
Qed.

Lemma ctx_available q : ctx_ok q -> 0 <= available q <= wqe_cnt q /\ wqe_cnt q <= 2 ^ 15.
Proof.
  intros (Hok & _). pose proof (SendQueue.available_val _ Hok) as H.
  change (SendQueue.available (indices q)) with (available q) in H. rewrite H.
  pose proof (SendQueue.in_flight_range (indices q)).
  destruct Hok as (_ & ? & _ & _ & ? & _). cbn in *. lia.
Qed.

Lemma ctx_slots q : ctx_ok q -> 0 < slots_to_end q <= wqe_cnt q.
Proof. intros (Hok & _). exact (SendQueue.slots_to_end_bounds _ Hok). Qed.

Lemma post_ext q size cnt im im' : im (pi q) = im' (pi q) -> post q size cnt im = post q size cnt im'.
Proof. intros E. unfold post. by rewrite E. Qed.

(** The cold path of the reference. *)
Definition wrap_reference q (r : Request) (slots : Z) : Outcome :=
  if available q <? u16 (slots + req_blocks r) then (q, Err SqFull)
  else
    let q1 := post_nop q slots in
    let '(q', res) := post q1 (req_size r) (req_blocks r) (req_stores (sqn q) r) in (q', Ok res).

Lemma emit_arm_reference q r entry size wrapped image :
  ctx_ok q -> req_ok r -> size = req_size r ->
  wrapped (req_blocks r) (slots_to_end q) = wrap_reference q r (slots_to_end q) ->
  image (pi q) = req_stores (sqn q) r (pi q) ->
  emit_arm q size entry wrapped image = emit_reference q r entry.
Proof.
  intros Hq Hr -> Hw Hi. pose proof (req_size_spec r Hr) as (_ & _ & Hb & _ & Hu & _).
  pose proof (ctx_available q Hq). pose proof (ctx_slots q Hq).
  unfold emit_arm, emit_reference, padding. fold (req_blocks r). rewrite Hu, Hw.
  unfold wrap_reference. destruct (available q <? req_blocks r) eqn:E1.
  { rewrite (proj2 (Z.ltb_lt _ _)); [done|].
    destruct (slots_to_end q <? req_blocks r) eqn:E2; guards; lia. }
  destruct (slots_to_end q <? req_blocks r) eqn:E2; guards; cbn [andb].
  - rewrite (proj2 (Z.ltb_lt (slots_to_end q) (wqe_cnt q))) by lia.
    rewrite u16_small by lia. rewrite (proj2 (Z.ltb_lt 0 (slots_to_end q))) by lia.
    destruct (available q <? _) eqn:E3; [done|].
    by destruct (post _ _ _ _) as [q' res].
  - rewrite (proj2 (Z.ltb_ge (available q) (0 + _))) by lia. cbn [Z.ltb Z.compare].
    by rewrite (post_ext _ _ _ _ _ Hi).
Qed.

Lemma wrap_body q r slots size cnt1 cnt2 im :
  size = req_size r -> cnt1 = req_blocks r -> cnt2 = req_blocks r ->
  im (pi (post_nop q slots)) = req_stores (sqn q) r (pi (post_nop q slots)) ->
  (if available q <? u16 (slots + cnt1) then (q, Err SqFull)
   else let '(q', res) := post (post_nop q slots) size cnt2 im in (q', Ok res))
  = wrap_reference q r slots.
Proof.
  intros -> -> -> Hi. unfold wrap_reference. by rewrite (post_ext _ _ _ _ _ Hi).
Qed.

Lemma calc_blocks r size :
  req_ok r -> size = req_size r -> calc_wqebb_cnt size = req_blocks r.
Proof. intros Hr ->. by apply req_size_spec. Qed.

Lemma ctrl_store_req q r opc idx size fl imm :
  req_ok r -> size = req_size r -> opc = req_opcode r -> fl = req_flags r -> imm = req_imm r ->
  ctrl_store q opc idx size fl imm = [(0, write_ctrl_seg (req_ctrl r idx (sqn q)))].
Proof.
  intros Hr -> -> -> ->. unfold ctrl_store, req_ctrl.
  pose proof (req_size_spec r Hr) as (H1 & _). destruct Hr as [_ H2].
  unfold u8. rewrite wrap_small; [done|]. unfold is_uint. Z.div_mod_to_equations. lia.
Qed.

Lemma actual_entry_flags fl entry :
  actual_flags (entry_flags fl entry) (is_signaled entry) = entry_flags fl entry.
Proof. destruct entry; cbn; [|done]. by rewrite <-Z.lor_assoc, Z.lor_diag. Qed.

Lemma emit_one_block_reference q r entry image :
  ctx_ok q -> req_ok r -> req_blocks r = 1 -> image (pi q) = req_stores (sqn q) r (pi q) ->
  emit_arm_one_block q (req_size r) 1 entry image = emit_reference q r entry.
Proof.
  intros Hq Hr H1 Hi. pose proof (ctx_slots q Hq).
  unfold emit_arm_one_block, emit_reference, padding. rewrite H1.
  rewrite (proj2 (Z.ltb_ge (slots_to_end q) 1)) by lia.
  change (0 + 1) with 1. change (0 <? 0) with false. cbv iota.
  destruct (available q <? 1); [done|]. by rewrite (post_ext _ _ _ _ _ Hi).
Qed.

End Ops.

Ltac size_eq := unfold req_size, CTRL_SEG_SIZE, RDMA_SEG_SIZE, DATA_SEG_SIZE, ATOMIC_SEG_SIZE,
  ADDRESS_VECTOR_SIZE, TM_SEG_SIZE; cbn [segs_size seg_size req_segs];
  unfold inline_padded_size; lia.
Ltac ctrl_eq r := rewrite (ctrl_store_req _ r) by
  first [assumption | reflexivity | apply actual_entry_flags | size_eq];
  reflexivity.
Ltac cnt_eq := first [reflexivity | apply calc_blocks; [assumption|size_eq]].
(** One arm: its frame, then its cold path. *)
Ltac arm :=
  match goal with |- _ = emit_reference _ ?r _ =>
    apply (emit_arm_reference _ r); [assumption|assumption|size_eq| |ctrl_eq r];
    try change (0 <? SendQueue.sge_len no_sge) with false; cbv beta iota zeta;
    try match goal with Hp : 0 < SendQueue.sge_len _ |- _ =>
      rewrite (proj2 (Z.ltb_lt _ _) Hp) end;
    apply (wrap_body _ r); [size_eq|cnt_eq|cnt_eq|ctrl_eq r]
  end.

Section Equivalence.
Context {Entry : Type}.

Lemma arms_reference (q : EmitContext Entry) v :
  ctx_ok q -> verb_ok v -> emit q v = emit_reference q (fst (request v)) (snd (request v)).
Proof.
  intros Hq (Hs & Hsz & Hl). assert (req_ok (fst (request v))) as Hr by done.
  destruct v; cbn [fst snd request] in *; cbn [emit].
  - unfold emit_send_sge, emit_send_wrap. arm.
  - unfold emit_send_inline, emit_send_wrap. arm.
  - unfold emit_write_sge, emit_write_wrap. arm.
  - unfold emit_write_inline, emit_write_wrap. arm.
  - unfold emit_write_imm_sge, emit_write_wrap. arm.
  - unfold emit_write_imm_inline, emit_write_wrap. arm.
  - unfold emit_write_imm_inline_sge, emit_write_wrap. arm.
  - unfold emit_read, emit_read_wrap. arm.
  - unfold emit_cas, emit_cas_wrap. arm.
  - unfold emit_fetch_add, emit_fetch_add_wrap. arm.
  - by apply (emit_one_block_reference _ (mkReq Nop (entry_flags fl entry) 0 [])).
  - unfold emit_dci_write_imm_sge, emit_dci_write_wrap. arm.
  - unfold emit_dci_write_imm_inline_sge, emit_dci_write_wrap. arm.
  - unfold emit_dci_write_sge, emit_dci_write_wrap. arm.
  - unfold emit_dci_write_inline, emit_dci_write_wrap. arm.
  - unfold emit_dci_write_imm_inline, emit_dci_write_wrap. arm.
  - unfold emit_dci_read, emit_dci_read_wrap. arm.
  - unfold emit_dci_send_sge, emit_dci_send_wrap. arm.
  - unfold emit_dci_send_inline, emit_dci_send_wrap. arm.
  - unfold emit_ud_send_sge, emit_ud_send_wrap. arm.
  - unfold emit_ud_send_inline, emit_ud_send_wrap. arm.
  - by apply (emit_one_block_reference _ (mkReq TagMatching COMPLETION 0
      [SegTagAdd index tag (is_signaled entry); SegData sge])).
  - by apply (emit_one_block_reference _ (mkReq TagMatching COMPLETION 0
      [SegTagDel index (is_signaled entry)])).
Qed.

End Equivalence.

(** ** Stores in the buffer *)

(** The stores lie in [from, size), in order, without overlap. *)
Fixpoint stores_in (from size : Z) (im : Stores) : Prop :=
  match im with
  | [] => from <= size
  | (o, d) :: im => from <= o /\ stores_in (o + Z.of_nat (length d)) size im
  end.

(** The store is found in the buffer, for a request at [ptr]. *)
Definition held (b : list Z) (ptr : Z) (s : Z * list Z) : Prop :=
  read_bytes b (Z.to_nat (ptr + fst s)) (length (snd s)) = snd s.

Lemma stores_in_le from size im : stores_in from size im -> from <= size.
Proof.
  revert from. induction im as [|[o d] im IH]; intros from H; [done|].
  destruct H as [H1 H2]. apply IH in H2. lia.
Qed.

Lemma stores_in_weaken from from' size size' im :
  stores_in from size im -> from' <= from -> size <= size' -> stores_in from' size' im.
Proof.
  revert from from'. induction im as [|[o d] im IH]; intros from from' H Hf Hs; cbn in *; [lia|].
  destruct H as [H1 H2]. split; [lia|]. by apply (IH _ _ H2).
Qed.

Lemma store_all_spec im : forall from size ptr b,
  stores_in from size im -> 0 <= from -> 0 <= ptr -> ptr + size <= Z.of_nat (length b) ->
  let b' := store_all b ptr im in
  length b' = length b /\
  (forall i, Z.of_nat i < ptr + from \/ ptr + size <= Z.of_nat i -> b' !! i = b !! i) /\
  Forall (held b' ptr) im.
Proof.
  induction im as [|[o d] im IH]; intros from size ptr b Hin Hf Hp Hl; cbn zeta.
  { done. }
  destruct Hin as [Ho Hin]. pose proof (stores_in_le _ _ _ Hin) as Hle.
  set (b1 := write_bytes b (Z.to_nat (ptr + o)) d).
  assert (length b1 = length b) as Hl1 by (apply length_write_bytes; lia).
  destruct (IH _ size ptr b1 Hin) as (E1 & E2 & E3); [lia|done|lia|].
  change (store_all b ptr ((o, d) :: im)) with (store_all b1 ptr im).
  split; [by rewrite E1|]. split.
  - intros i Hi. rewrite E2 by lia. subst b1. rewrite lookup_write_bytes by lia.
    by rewrite decide_False by lia.
  - constructor; [|done]. unfold held. cbn [fst snd].
    rewrite (read_bytes_ext _ b1 _ (Z.to_nat (ptr + o))).
    + subst b1. apply read_write_same. lia.
    + intros i Hi. apply E2. lia.
Qed.

Lemma seg_stores_in s off :
  seg_ok s -> stores_in off (off + seg_size s) (seg_stores off s).
Proof.
  intros Hs. destruct s; cbn -[Z.of_nat write_rdma_seg write_data_seg write_address_vector_ib
    write_ud_address_vector_ib write_atomic_seg_cas write_atomic_seg_fa write_tm_seg_add
    write_tm_seg_del be_bytes Z.lor]; autorewrite with bytes; try lia.
  pose proof (inline_padded_spec (Z.of_nat (length data))). cbn in Hs. lia.
Qed.

Lemma stores_in_app from mid size a b :
  stores_in from mid a -> stores_in mid size b -> stores_in from size (a ++ b).
Proof.
  revert from. induction a as [|[o d] a IH]; intros from Ha Hb; cbn in *.
  - by apply (stores_in_weaken mid _ size).
  - destruct Ha as [H1 H2]. split; [done|]. by apply IH.
Qed.

Lemma layout_in segs : forall off,
  Forall seg_ok segs -> stores_in off (off + segs_size segs) (layout off segs).
Proof.
  induction segs as [|s segs IH]; intros off Hs; cbn [layout segs_size].
  { cbn. lia. }
  inversion Hs; subst. apply (stores_in_app _ (off + seg_size s)); [by apply seg_stores_in|].
  rewrite Z.add_assoc. by apply IH.
Qed.

Lemma req_stores_in qpn r idx :
  Forall seg_ok (req_segs r) -> stores_in 0 (req_size r) (req_stores qpn r idx).
Proof.
  intros Hs. split; [done|]. rewrite length_ctrl_seg. by apply (layout_in _ 16).
Qed.

(** ** Posting *)

Section Posting.
Context {Entry : Type}.
Implicit Types (q : EmitContext Entry).

Definition in_flight q : Z := u16 (pi q - ci q).

(** The bytes of the blocks in flight are the same in [q']. *)
Definition kept q q' : Prop :=
  forall d j, 0 <= d < in_flight q -> 0 <= j < 64 ->
    buf q' !! Z.to_nat (64 * ((ci q + d) mod wqe_cnt q) + j) =
    buf q !! Z.to_nat (64 * ((ci q + d) mod wqe_cnt q) + j).

Lemma wqe_ptr_mod q idx : ctx_ok q -> get_wqe_ptr q idx = 64 * (idx mod wqe_cnt q).
Proof.
  intros (Hok & _). pose proof (SendQueue.slot_mod _ idx Hok) as E. cbn in E.
  unfold SendQueue.slot in E. cbn in E. unfold get_wqe_ptr. rewrite E. lia.
Qed.

Lemma post_spec q size cnt im :
  ctx_ok q -> 0 < cnt -> in_flight q + cnt <= wqe_cnt q ->
  pi q mod wqe_cnt q + cnt <= wqe_cnt q -> stores_in 0 (64 * cnt) (im (pi q)) ->
  let q' := fst (post q size cnt im) in
  ctx_ok q' /\ in_flight q' = in_flight q + cnt /\ kept q q' /\
  Forall (held (buf q') (64 * (pi q mod wqe_cnt q))) (im (pi q)).
Proof.
  intros Hq Hcnt Hfit Hend Hin. pose proof Hq as (Hok & Hlen & Hsqn).
  pose proof (SendQueue.wqe_cnt_pos _ Hok) as Hp. cbn in Hp.
  pose proof (Z.mod_pos_bound (pi q) _ Hp) as Hb.
  cbn zeta. unfold post. cbn [fst]. rewrite wqe_ptr_mod by done.
  destruct (store_all_spec (im (pi q)) 0 (64 * cnt) (64 * (pi q mod wqe_cnt q)) (buf q))
    as (E1 & E2 & E3); [done|lia..|].
  pose proof (SendQueue.in_flight_range (indices q)) as Hr.
  change (SendQueue.in_flight (indices q)) with (in_flight q) in Hr.
  assert (u16 (u16 (pi q + cnt) - ci q) = in_flight q + cnt) as Hfl.
  { apply SendQueue.u16_sub_add. fold (in_flight q). destruct Hok as (_ & ? & _). cbn in *. lia. }
  destruct Hok as (H1 & H2 & H3 & H4 & H5 & H6 & H7).
  split; [|split; [done|split; [|done]]].
  - split; [|split; [by cbn; rewrite E1|done]]. split_and!; try done; cbn; [apply u16_range|].
    unfold SendQueue.in_flight. cbn. by rewrite Hfl.
  - intros d j Hd Hj. cbn [buf set_last_wqe advance_pi set_buf]. apply E2.
    pose proof (SendQueue.in_flight_disjoint (indices q) cnt d) as Hdis. cbn in Hdis.
    change (SendQueue.in_flight (indices q)) with (in_flight q) in Hdis.
    pose proof (Z.mod_pos_bound (ci q + d) _ Hp).
    assert (~ pi q mod wqe_cnt q <= (ci q + d) mod wqe_cnt q < pi q mod wqe_cnt q + cnt)
      as Hnot by (apply Hdis; done).
    lia.
Qed.

End Posting.

(** ** Correctness of the reference, and so of every arm *)

Section Correct.
Context {Entry : Type}.
Implicit Types (q : EmitContext Entry).

Definition nop_ctrl (idx qpn cnt : Z) : CtrlSegParams :=
  mkCtrl 0 (opcode_u8 Nop) idx qpn (4 * cnt) 0 0.

(** The padding is a post of one control segment. *)
Lemma post_nop_post q cnt :
  0 <= cnt < 64 ->
  post_nop q cnt =
    fst (post q (cnt * 64) cnt (fun idx => [(0, write_ctrl_seg (nop_ctrl idx (sqn q) cnt))])).
Proof.
  intros Hc. unfold post_nop, post, write_nop_wqe, store_all. cbn [fold_left fst snd].
  rewrite Z.add_0_r. unfold u8. rewrite !wrap_small; [|unfold is_uint..]; try lia.
  - by rewrite (Z.mul_comm cnt 4).
  - rewrite wrap_small; unfold is_uint; lia.
Qed.

Lemma decode_ctrl_ext b1 b2 off :
  (forall j, (j < 16)%nat -> b1 !! (off + j)%nat = b2 !! (off + j)%nat) ->
  decode_ctrl_seg b1 off = decode_ctrl_seg b2 off.
Proof.
  intros H. unfold decode_ctrl_seg, be_field.
  assert (forall k n, (k + n <= 16)%nat -> read_bytes b1 (off + k) n = read_bytes b2 (off + k) n)
    as E.
  { intros k n Hk. apply read_bytes_ext. intros j Hj. rewrite <-!Nat.add_assoc. apply H. lia. }
  pose proof (E 0%nat 1%nat) as E0. rewrite Nat.add_0_r in E0. by rewrite !E, E0 by lia.
Qed.

(** A control segment found in the buffer decodes to its fields. *)
Lemma held_ctrl b ptr p :
  ctrl_ok p -> 0 <= ptr -> held b ptr (0, write_ctrl_seg p) -> decode_ctrl_seg b (Z.to_nat ptr) = p.
Proof.
  intros Hp Hptr Hh. unfold held in Hh. cbn [fst snd] in Hh.
  rewrite Z.add_0_r, length_ctrl_seg in Hh.
  rewrite <-(decode_ctrl_seg_write p Hp). rewrite <-Hh.
  unfold decode_ctrl_seg, be_field. by rewrite !read_bytes_read, !Nat.add_0_r by lia.
Qed.

Record posted q (r : Request) (entry : option Entry) (q' : EmitContext Entry) (res : EmitResult)
    : Prop := mkPosted {
  p_ok : ctx_ok q';
  p_fixed : wqe_cnt q' = wqe_cnt q /\ sqn q' = sqn q /\ ci q' = ci q;
  p_flight : in_flight q' = in_flight q + padding q r + req_blocks r;
  p_kept : kept q q';
  p_idx : res_wqe_idx res = u16 (pi q + padding q r);
  p_size : res_wqe_size res = req_size r /\ res_wqebb_cnt res = req_blocks r;
  p_ptr : res_wqe_ptr res = 64 * (res_wqe_idx res mod wqe_cnt q);
  p_last : last_wqe q' = Some (res_wqe_ptr res, res_wqe_size res);
  (** the request is in one piece, inside the buffer *)
  p_whole : res_wqe_size res <= 64 * req_blocks r /\
            res_wqe_ptr res + 64 * req_blocks r <= 64 * wqe_cnt q;
  p_ctrl : decode_ctrl_seg (buf q') (Z.to_nat (res_wqe_ptr res)) =
           req_ctrl r (res_wqe_idx res) (sqn q);
  p_segs : Forall (held (buf q') (res_wqe_ptr res)) (layout 16 (req_segs r));
  (** the skipped blocks start with a NOP that covers them *)
  p_nop : 0 < padding q r ->
          decode_ctrl_seg (buf q') (Z.to_nat (64 * (pi q mod wqe_cnt q))) =
          nop_ctrl (pi q) (sqn q) (padding q r);
  p_table : table q' = match entry with
                       | Some e => <[Z.to_nat (res_wqe_idx res mod wqe_cnt q) :=
                                       Some (e, pi q')]> (table q)
                       | None => table q
                       end;
}.

Definition fields_ok (r : Request) : Prop := is_uint 16 (req_flags r) /\ is_uint 32 (req_imm r).

Lemma req_ctrl_ok q r idx :
  ctx_ok q -> req_ok r -> fields_ok r -> is_uint 16 idx -> ctrl_ok (req_ctrl r idx (sqn q)).
Proof.
  intros (_ & _ & Hq) Hr [Hf Hi] Hidx. pose proof (req_size_spec r Hr) as (H1 & _).
  destruct Hr as [_ H2]. unfold ctrl_ok, req_ctrl; cbn. split_and!; try done.
  - by destruct (req_opcode r).
  - unfold is_uint. split; [apply Z.div_pos|apply Z.div_lt_upper_bound]; lia.
Qed.

Lemma table_store_ok q idx entry : ctx_ok q -> ctx_ok (table_store q idx entry).
Proof.
  intros (Hok & H1 & H2). destruct entry; [|done]. split; [|done].
  destruct Hok as (? & ? & ? & ? & ? & ? & ?). split_and!; try done. cbn.
  by rewrite length_insert.
Qed.

Lemma pad_spec q r :
  ctx_ok q -> req_ok r ->
  0 <= padding q r < 64 /\ padding q r <= wqe_cnt q /\
  (u16 (pi q + padding q r) mod wqe_cnt q + req_blocks r <= wqe_cnt q \/
   wqe_cnt q < req_blocks r) /\
  pi q mod wqe_cnt q + padding q r <= wqe_cnt q.
Proof.
  intros Hq Hr. pose proof (req_size_spec r Hr) as (_ & _ & Hb & _).
  pose proof (ctx_slots q Hq) as Hs. pose proof Hq as (Hok & _).
  pose proof (SendQueue.slot_mod _ (pi q) Hok) as Hm. cbn in Hm.
  pose proof (SendQueue.wqe_cnt_pos _ Hok) as Hp. cbn in Hp.
  pose proof (SendQueue.u16_mod _ (pi q + padding q r) Hok) as Hu. cbn in Hu.
  assert (slots_to_end q = wqe_cnt q - pi q mod wqe_cnt q) as E
    by (unfold slots_to_end; unfold SendQueue.slot in Hm; cbn in Hm; lia).
  pose proof (Z.mod_pos_bound (pi q) _ Hp).
  rewrite Hu. unfold padding in *.
  destruct (slots_to_end q <? req_blocks r) eqn:E2; guards.
  - split; [lia|]. split; [lia|]. split; [|lia].
    destruct (decide (req_blocks r <= wqe_cnt q)); [left|lia].
    pose proof (Z.div_mod (pi q) (wqe_cnt q)).
    replace (pi q + slots_to_end q) with ((pi q / wqe_cnt q + 1) * wqe_cnt q) by lia.
    rewrite Z.mod_mul by lia. lia.
  - rewrite Z.add_0_r. lia.
Qed.

(** Posting a request where it fits. *)
Lemma post_request q r :
  ctx_ok q -> req_ok r -> fields_ok r -> in_flight q + req_blocks r <= wqe_cnt q ->
  pi q mod wqe_cnt q + req_blocks r <= wqe_cnt q ->
  let ptr := 64 * (pi q mod wqe_cnt q) in
  let q' := fst (post q (req_size r) (req_blocks r) (req_stores (sqn q) r)) in
  ctx_ok q' /\ in_flight q' = in_flight q + req_blocks r /\ kept q q' /\
  decode_ctrl_seg (buf q') (Z.to_nat ptr) = req_ctrl r (pi q) (sqn q) /\
  Forall (held (buf q') ptr) (layout 16 (req_segs r)).
Proof.
  intros Hq Hr Hf Hfit Hend. pose proof (req_size_spec r Hr) as (_ & _ & Hb & Hsz & _).
  destruct (post_spec q (req_size r) (req_blocks r) (req_stores (sqn q) r))
    as (H1 & H2 & H3 & H4); [done|lia..| |].
  { apply (stores_in_weaken 0 _ (req_size r)); [|lia|lia]. by apply req_stores_in; destruct Hr. }
  inversion H4 as [|? ? Hc Hl]; subst. split_and!; try done.
  apply held_ctrl; [|pose proof Hq as (Hok & _)|done].
  - apply req_ctrl_ok; try done. by destruct Hq as ((_ & _ & ? & _) & _).
  - pose proof (SendQueue.wqe_cnt_pos _ Hok) as Hp. cbn in Hp.
    pose proof (Z.mod_pos_bound (pi q) _ Hp). lia.
Qed.

(** The padding, when there is some. *)
Lemma post_nop_spec q cnt :
  ctx_ok q -> 0 < cnt < 64 -> in_flight q + cnt <= wqe_cnt q ->
  pi q mod wqe_cnt q + cnt <= wqe_cnt q ->
  let q' := post_nop q cnt in
  ctx_ok q' /\ in_flight q' = in_flight q + cnt /\ kept q q' /\
  decode_ctrl_seg (buf q') (Z.to_nat (64 * (pi q mod wqe_cnt q))) = nop_ctrl (pi q) (sqn q) cnt.
Proof.
  intros Hq Hc Hfit Hend. cbn zeta. rewrite post_nop_post by lia.
  destruct (post_spec q (cnt * 64) cnt (fun idx => [(0, write_ctrl_seg (nop_ctrl idx (sqn q) cnt))]))
    as (H1 & H2 & H3 & H4); [done|lia..| |].
  { cbn -[write_ctrl_seg Z.of_nat Z.mul]. rewrite length_ctrl_seg. lia. }
  split_and!; try done. inversion H4 as [|? ? Hh _]; subst.
  pose proof Hq as (Hok & _ & Hsqn). pose proof (SendQueue.wqe_cnt_pos _ Hok) as Hp. cbn in Hp.
  pose proof (Z.mod_pos_bound (pi q) _ Hp).
  destruct Hok as (_ & _ & Hpi & _). apply held_ctrl; [|lia|done].
  unfold ctrl_ok, nop_ctrl; cbn. unfold is_uint in *. cbn in *. lia.
Qed.

(** The control segment at the producer index survives what keeps the bytes in flight. *)
Lemma kept_ctrl q q1 q' :
  ctx_ok q -> ctx_ok q1 -> wqe_cnt q1 = wqe_cnt q -> ci q1 = ci q ->
  in_flight q < in_flight q1 -> kept q1 q' ->
  decode_ctrl_seg (buf q') (Z.to_nat (64 * (pi q mod wqe_cnt q))) =
  decode_ctrl_seg (buf q1) (Z.to_nat (64 * (pi q mod wqe_cnt q))).
Proof.
  intros Hq Hq1 Hw Hc Hlt Hk. pose proof Hq as (Hok & _).
  pose proof (SendQueue.wqe_cnt_pos _ Hok) as Hp. cbn in Hp.
  pose proof (SendQueue.pi_mod _ 0 Hok) as E. cbn in E. rewrite !Z.add_0_r in E.
  change (SendQueue.in_flight (indices q)) with (in_flight q) in E.
  pose proof (SendQueue.in_flight_range (indices q)) as Hr.
  change (SendQueue.in_flight (indices q)) with (in_flight q) in Hr.
  pose proof (Z.mod_pos_bound (pi q) _ Hp).
  apply decode_ctrl_ext. intros j Hj.
  specialize (Hk (in_flight q) (Z.of_nat j)). rewrite Hw, Hc, <-E in Hk.
  replace (Z.to_nat (64 * (pi q mod wqe_cnt q)) + j)%nat
    with (Z.to_nat (64 * (pi q mod wqe_cnt q) + Z.of_nat j)) by lia.
  apply Hk; lia.
Qed.

Lemma kept_trans q q1 q2 :
  kept q q1 -> kept q1 q2 -> ci q1 = ci q -> wqe_cnt q1 = wqe_cnt q ->
  in_flight q <= in_flight q1 -> kept q q2.
Proof.
  intros H1 H2 Hc Hw Hle d j Hd Hj. rewrite <-H1 by done. rewrite <-Hc, <-Hw. apply H2; lia.
Qed.

Lemma available_flight q : ctx_ok q -> available q = wqe_cnt q - in_flight q /\ 0 <= in_flight q.
Proof.
  intros (Hok & _). split; [exact (SendQueue.available_val _ Hok)|].
  apply (SendQueue.in_flight_range (indices q)).
Qed.

(** The queue after the padding. *)
Definition padded q (r : Request) : EmitContext Entry :=
  if 0 <? padding q r then post_nop q (padding q r) else q.

Lemma padded_spec q r :
  ctx_ok q -> req_ok r -> padding q r + req_blocks r <= available q ->
  let q1 := padded q r in
  ctx_ok q1 /\ in_flight q1 = in_flight q + padding q r /\ kept q q1 /\
  pi q1 = u16 (pi q + padding q r) /\ (wqe_cnt q1 = wqe_cnt q /\ sqn q1 = sqn q /\ ci q1 = ci q) /\
  table q1 = table q /\
  (0 < padding q r -> decode_ctrl_seg (buf q1) (Z.to_nat (64 * (pi q mod wqe_cnt q))) =
                      nop_ctrl (pi q) (sqn q) (padding q r)).
Proof.
  intros Hq Hr Hav. pose proof (pad_spec q r Hq Hr) as (Hp1 & Hp2 & Hp3 & Hp4).
  pose proof (req_size_spec r Hr) as (_ & _ & Hb & _).
  pose proof (available_flight q Hq) as [Ha Hr0].
  cbn zeta. unfold padded. destruct (0 <? padding q r) eqn:E; guards.
  - destruct (post_nop_spec q (padding q r)) as (? & ? & ? & ?); [done|lia..|]. done.
  - assert (padding q r = 0) as -> by lia. rewrite !Z.add_0_r. split_and!; try done.
    symmetry. apply u16_small. by destruct Hq as ((_ & _ & ? & _) & _).
Qed.

(** From the post to [posted]. *)
Lemma post_posted q r entry :
  ctx_ok q -> req_ok r -> fields_ok r -> padding q r + req_blocks r <= available q ->
  let '(q', res) := post (padded q r) (req_size r) (req_blocks r) (req_stores (sqn q) r) in
  posted q r entry (table_store q' (res_wqe_idx res) entry) res.
Proof.
  intros Hq Hr Hf Hav. pose proof (pad_spec q r Hq Hr) as (Hp1 & Hp2 & Hp3 & Hp4).
  pose proof (req_size_spec r Hr) as (_ & _ & Hb & Hsz & _).
  pose proof Hq as (Hok & _). pose proof (available_flight q Hq) as [Ha Hr0].
  destruct (padded_spec q r Hq Hr Hav) as (A1 & A2 & A3 & A4 & (A5 & A6 & A7) & A8 & A9).
  set (q1 := padded q r) in *.
  destruct (post_request q1 r) as (B1 & B2 & B3 & B4 & B5); [done|done|done|lia| |].
  { rewrite A4, A5. lia. }
  rewrite A4, A5, A6 in *.
  destruct (post q1 (req_size r) (req_blocks r) (req_stores (sqn q) r)) as [q' res] eqn:Epost.
  cbn [fst] in *. pose proof Epost as Ep. unfold post in Ep. injection Ep as Eq' Eres.
  assert (res_wqe_ptr res = 64 * (u16 (pi q + padding q r) mod wqe_cnt q)) as Eptr.
  { subst res. cbn. by rewrite wqe_ptr_mod, A4, A5. }
  split.
  - by apply table_store_ok.
  - destruct entry; subst q'; cbn; done.
  - transitivity (in_flight q'); [by destruct entry|]. lia.
  - apply (kept_trans _ q1); [done| |done|done|lia]. by destruct entry.
  - subst res. cbn. done.
  - by subst res.
  - rewrite Eptr. subst res. cbn. by rewrite A4.
  - rewrite Eptr. subst q' res. destruct entry; cbn; by rewrite wqe_ptr_mod, A4, A5.
  - rewrite Eptr. subst res. cbn. lia.
  - rewrite Eptr. replace (res_wqe_idx res) with (u16 (pi q + padding q r)) by by subst res.
    by destruct entry.
  - rewrite Eptr. by destruct entry.
  - intros Hpos. rewrite <-A9 by done. rewrite (kept_ctrl q q1); try done; [lia|].
    by destruct entry.
  - replace (res_wqe_idx res) with (u16 (pi q + padding q r)) by by subst res.
    destruct entry; [|by subst q'; cbn].
    pose proof (SendQueue.slot_mod _ (u16 (pi q + padding q r)) Hok) as Hsl.
    unfold SendQueue.slot in Hsl. cbn in Hsl.
    subst q'; cbn. rewrite A8, A5, Hsl. done.
Qed.

Lemma reference_correct q r entry :
  ctx_ok q -> req_ok r -> fields_ok r ->
  match emit_reference q r entry with
  | (q', Err e) => e = SqFull /\ q' = q /\ available q < padding q r + req_blocks r
  | (q', Ok res) => padding q r + req_blocks r <= available q /\ posted q r entry q' res
  end.
Proof.
  intros Hq Hr Hf. unfold emit_reference.
  destruct (available q <? padding q r + req_blocks r) eqn:E; guards; [done|].
  pose proof (post_posted q r entry Hq Hr Hf E) as H. unfold padded in H.
  destruct (post _ _ _ _) as [q' res]. done.
Qed.

(** C24: every arm of the work-request macros, on its hot path and on its wrap path,
    signaled or not, is the reference: the request's segments laid out after the
    control segment, at the producer index if they fit before the end of the ring
    and at its start after a NOP otherwise, refused when there is no room. *)
Theorem arms_equal_reference q v :
  ctx_ok q -> verb_ok v -> emit q v = emit_reference q (fst (request v)) (snd (request v)).
Proof. apply arms_reference. Qed.

(** C23: a verb either is refused because its blocks and the padding it needs do not
    fit, leaving the queue as it was, or stores its request in one piece: the device
    decodes the control segment to the verb's opcode, flags, immediate and size,
    finds every segment at its place and, where the end of the ring was skipped, a
    NOP that covers it; the bytes of all requests in flight are untouched, and a
    signaled verb leaves its entry with the index to free up to. *)
Theorem emit_correct q v :
  let r := fst (request v) in
  ctx_ok q -> verb_ok v -> fields_ok r ->
  match emit q v with
  | (q', Err e) => e = SqFull /\ q' = q /\ available q < padding q r + req_blocks r
  | (q', Ok res) => padding q r + req_blocks r <= available q /\ posted q r (snd (request v)) q' res
  end.
Proof.
  intros r Hq Hv Hf. rewrite arms_reference by done.
  apply reference_correct; try done. destruct Hv as (? & ? & _). done.
Qed.

End Correct.

(** A queue of 8 blocks whose producer index is at the last one. *)
Definition demo_ctx : EmitContext nat :=
  mkCtx (replicate 512 0) 8 77 7 7 None (replicate 8 None).
Definition demo_verb : Verb (Entry := nat) :=
  VDciWriteImmInlineSge (mkDcAv 5 9 3) 0 (mkRdma 4096 17) 99 (replicate 32 7) (mkSge 64 10 2)
    (Some 6%nat).

Lemma emit_demo_ok : ctx_ok demo_ctx /\ verb_ok demo_verb /\ fields_ok (fst (request demo_verb)).
Proof.
  split; [|split].
  - split; [|split]; [|reflexivity|unfold is_uint; cbn; lia].
    unfold SendQueue.sq_ok, is_uint. cbn. split_and!; try reflexivity; try lia; vm_compute; congruence.
  - split; [repeat constructor; cbn; lia|split; [vm_compute; congruence|cbn; lia]].
  - split; unfold is_uint; vm_compute; split; congruence.
Qed.

Example arms_equal_reference_witness :
  snd (emit demo_ctx demo_verb) = Ok (mkRes 0 8 144 3).
Proof.
  rewrite arms_equal_reference by apply emit_demo_ok. vm_compute. reflexivity.
Defined.

Example emit_correct_witness :
  exists q' res, emit demo_ctx demo_verb = (q', Ok res) /\
    posted demo_ctx (fst (request demo_verb)) (Some 6%nat) q' res.
Proof.
  pose proof (emit_correct demo_ctx demo_verb) as H. cbn zeta in H.
  destruct emit_demo_ok as (H1 & H2 & H3). specialize (H H1 H2 H3).
  destruct (emit demo_ctx demo_verb) as [q' [res|e]] eqn:E; [by exists q', res; destruct H|].
  exfalso. apply (f_equal snd) in E. vm_compute in E. discriminate.
Defined.

End Emit.
