(* ===== verification/EmitBlocks.v ===== *)
(** * EmitBlocks: the byte-level queue refines the block-level one

    [SendQueue], which the copyrpc endpoint is built on, keeps for every 64-byte
    block which request it belongs to.  Here the inline WRITE+IMM arms of [Emit],
    and its READ and WRITE of one buffer, are shown to simulate it: same decisions, same indices, same table, and
    wherever the block-level queue has the first block of a request, the bytes
    decode to that request's control segment. *)
From S2P Require Import Prelude SendQueue Wqe Emit.

Module EmitBlocks.
Import Wqe Emit.

Section Refinement.
Context {Entry : Type}.
Implicit Types (q : EmitContext Entry) (s : SendQueue.Sq Entry).

(** The control segment of a request of the block-level model. *)
Definition wqe_ctrl (qpn : Z) (w : SendQueue.Wqe) : CtrlSegParams :=
  match w with
  | SendQueue.WNop idx cnt => nop_ctrl idx qpn cnt
  | SendQueue.WWriteImm idx completion rdma imm data sge =>
      mkCtrl 0 (opcode_u8 RdmaWriteImm) idx qpn (SendQueue.wqe_size_of data sge / 16)
        (if completion then COMPLETION else 0) imm
  | SendQueue.WRdma read idx completion rdma sge =>
      mkCtrl 0 (opcode_u8 (if read then RdmaRead else RdmaWrite)) idx qpn 3
        (if completion then COMPLETION else 0) 0
  end.

Record refines q s : Prop := mkRefines {
  r_ctx : ctx_ok q;
  r_sq : SendQueue.sq_ok s;
  r_cnt : SendQueue.wqe_cnt s = wqe_cnt q;
  r_pi : SendQueue.pi s = pi q;
  r_ci : SendQueue.ci s = ci q;
  r_table : SendQueue.table s = table q;
  r_last : last_wqe q = option_map (fun p => (64 * fst p, snd p)) (SendQueue.last_wqe s);
  r_bytes : forall i w, SendQueue.buf s !! i = Some (Some (w, 0)) ->
    decode_ctrl_seg (buf q) (64 * i) = wqe_ctrl (sqn q) w;
}.

(** One post of [wr] written blocks and [c] consumed ones, on both sides. *)
Definition block_post s (w : SendQueue.Wqe) (wr c size : Z) : SendQueue.Sq Entry :=
  SendQueue.set_last_wqe (SendQueue.advance_pi (SendQueue.write_wqe s (SendQueue.pi s) w wr) c)
    (SendQueue.pi s) size.

Lemma post_simulates q s w wr c size im :
  refines q s -> 0 < wr <= c -> in_flight q + c <= wqe_cnt q ->
  pi q mod wqe_cnt q + c <= wqe_cnt q -> stores_in 0 (64 * wr) (im (pi q)) ->
  (exists rest, im (pi q) = (0, write_ctrl_seg (wqe_ctrl (sqn q) w)) :: rest) ->
  ctrl_ok (wqe_ctrl (sqn q) w) ->
  refines (fst (post q size c im)) (block_post s w wr c size).
Proof.
  intros [Hq Hs Hc Hp Hi Ht Hla Hb] Hwr Hfit Hend Hin [rest Eim] Hctrl.
  pose proof (SendQueue.wqe_cnt_pos _ Hs) as Hpos. rewrite Hc in Hpos.
  pose proof (Z.mod_pos_bound (pi q) _ Hpos) as Hm.
  pose proof Hq as (_ & Hlen & _).
  destruct (post_spec q size c im) as (A1 & _ & _ & _); [done|lia|done|done| |].
  { apply (stores_in_weaken 0 _ (64 * wr)); [done|lia|lia]. }
  destruct (SendQueue.post_at s w wr c) as (B1 & _ & _ & _);
    [done|done|unfold SendQueue.in_flight; rewrite Hp, Hi, Hc; done|rewrite Hp, Hc; lia|].
  pose proof (SendQueue.slot_mod s (pi q) Hs) as Hslot. rewrite Hc in Hslot.
  pose proof Hs as (_ & _ & _ & _ & _ & Hlb & _). rewrite Hc in Hlb.
  destruct (store_all_spec (im (pi q)) 0 (64 * wr) (64 * (pi q mod wqe_cnt q)) (buf q))
    as (E1 & E2 & E3); [done|lia..|].
  destruct (SendQueue.put_blocks_spec (SendQueue.buf s) (Z.to_nat (pi q mod wqe_cnt q)) w 0
    (Z.to_nat wr)) as [L1 L2]; [lia|].
  split; try done.
  - cbn. by rewrite Hp.
  - unfold post, block_post. cbn. rewrite wqe_ptr_mod by done. rewrite Hp. f_equal. f_equal.
    unfold SendQueue.slot in *. cbn. by rewrite <-Hslot.
  - intros i w' Hl. cbn [buf post fst set_last_wqe advance_pi set_buf sqn].
    rewrite wqe_ptr_mod by done. cbn in Hl. rewrite Hp, Hslot, L2 in Hl. case_decide as Hd.
    + injection Hl as <- Hk. assert (i = Z.to_nat (pi q mod wqe_cnt q)) as -> by lia.
      replace (64 * Z.to_nat (pi q mod wqe_cnt q))%nat
        with (Z.to_nat (64 * (pi q mod wqe_cnt q))) by lia.
      apply held_ctrl; [done|lia|]. rewrite Eim in *. by inversion E3.
    + rewrite <-(Hb i w' Hl). apply decode_ctrl_ext. intros j Hj. apply E2.
      pose proof (lookup_lt_Some _ _ _ Hl). lia.
Qed.

Definition verb (rdma : SendQueue.RdmaParams) (imm : Z) (data : list Z)
    (sge : option SendQueue.SgeParams) (entry : option Entry) : Verb :=
  match sge with
  | None => VWriteImmInline 0 rdma imm data entry
  | Some sge => VWriteImmInlineSge 0 rdma imm data sge entry
  end.

Definition res_match (r : result EmitResult SubmissionError)
    (r' : result SendQueue.EmitResult SubmissionError) : Prop :=
  match r, r' with
  | Ok a, Ok b => SendQueue.res_wqe_idx b = res_wqe_idx a /\
      SendQueue.res_wqe_size b = res_wqe_size a /\ SendQueue.res_wqebb_cnt b = res_wqebb_cnt a
  | Err a, Err b => a = b
  | _, _ => False
  end.

(** The block-level arms in the form of the reference, for request [w] of [size]
    bytes. *)
Definition block_reference s (w : Z -> SendQueue.Wqe) (size : Z) (entry : option Entry) (pad cnt : Z)
    : SendQueue.Sq Entry * result SendQueue.EmitResult SubmissionError :=
  if SendQueue.available s <? pad + cnt then (s, Err SqFull)
  else
    let s1 := if 0 <? pad then SendQueue.post_nop s pad else s in
    let idx := SendQueue.pi s1 in
    let s2 := block_post s1 (w idx) cnt cnt size in
    (match entry with
     | Some e => SendQueue.table_store s2 idx e (SendQueue.pi s2)
     | None => s2
     end, Ok (SendQueue.mkEmit idx size cnt)).

Definition write_imm_wqe (rdma : SendQueue.RdmaParams) (imm : Z) (data : list Z)
    (sge : option SendQueue.SgeParams) (entry : option Entry) (idx : Z) : SendQueue.Wqe :=
  SendQueue.WWriteImm idx (is_signaled entry) rdma imm data sge.

Lemma block_emit s rdma imm data sge entry :
  SendQueue.sq_ok s -> Z.of_nat (length data) <= 4096 ->
  match sge with Some x => 0 < SendQueue.sge_len x | None => True end ->
  let cnt := (SendQueue.wqe_size_of data sge + 63) / 64 in
  SendQueue.emit_write_imm s rdma imm data sge entry =
  block_reference s (write_imm_wqe rdma imm data sge entry) (SendQueue.wqe_size_of data sge) entry
    (if SendQueue.slots_to_end s <? cnt then SendQueue.slots_to_end s else 0) cnt.
Proof.
  intros Hs Hl Hsge cnt. pose proof (SendQueue.wqe_size_cnt data sge) as Hw. cbn zeta in Hw.
  fold cnt in Hw. destruct Hw as (E1 & Hc & _); [lia|].
  assert (0 <= cnt < 2 ^ 16) as Hcnt.
  { pose proof (inline_padded_spec (Z.of_nat (length data))) as Hi.
    subst cnt. unfold SendQueue.wqe_size_of, SendQueue.CTRL_SEG_SIZE, SendQueue.RDMA_SEG_SIZE,
      SendQueue.DATA_SEG_SIZE.
    change SendQueue.inline_padded_size with inline_padded_size.
    destruct sge; Z.div_mod_to_equations; lia. }
  rewrite u16_small in * by done.
  pose proof (SendQueue.slots_to_end_bounds s Hs) as Hsl.
  unfold SendQueue.emit_write_imm, block_reference. fold cnt. rewrite u16_small by done.
  assert (match sge with Some x => if 0 <? SendQueue.sge_len x then Some x else None
          | None => None end = sge) as Hu.
  { destruct sge; [|done]. by rewrite (proj2 (Z.ltb_lt _ _) Hsge). }
  destruct (SendQueue.available s <? cnt) eqn:E2.
  { rewrite (proj2 (Z.ltb_lt _ _)); [done|].
    destruct (SendQueue.slots_to_end s <? cnt); guards; lia. }
  pose proof (SendQueue.available_val s Hs) as Ha.
  pose proof (SendQueue.in_flight_range s) as Hr.
  destruct (SendQueue.slots_to_end s <? cnt) eqn:E3; guards; cbn [andb].
  - rewrite (proj2 (Z.ltb_lt _ (SendQueue.wqe_cnt s))) by lia.
    unfold SendQueue.emit_write_wrap. rewrite Hu, <-E1.
    rewrite (proj2 (Z.ltb_lt 0 (SendQueue.slots_to_end s))) by lia.
    destruct (SendQueue.available s <? _) eqn:E4; [done|]. by destruct entry.
  - rewrite (proj2 (Z.ltb_ge (SendQueue.available s) (0 + _))) by lia.
    change (0 <? 0) with false. by destruct entry.
Qed.

Lemma nop_simulates q s cnt :
  refines q s -> 0 < cnt < 64 -> in_flight q + cnt <= wqe_cnt q ->
  pi q mod wqe_cnt q + cnt <= wqe_cnt q ->
  refines (post_nop q cnt) (SendQueue.post_nop s cnt).
Proof.
  intros HR Hc Hfit Hend. rewrite post_nop_post by lia.
  change (SendQueue.post_nop s cnt)
    with (block_post s (SendQueue.WNop (SendQueue.pi s) cnt) 1 cnt (cnt * 64)).
  rewrite (r_pi _ _ HR). destruct (r_ctx _ _ HR) as ((_ & _ & Hpi & _) & _ & Hsqn).
  apply post_simulates; try done; try lia.
  - by eexists.
  - unfold ctrl_ok, wqe_ctrl, nop_ctrl; cbn. unfold is_uint in *. cbn in *. lia.
Qed.

Lemma table_store_simulates q s e idx :
  refines q s -> refines (table_store q idx (Some e)) (SendQueue.table_store s idx e (SendQueue.pi s)).
Proof.
  intros [Hq Hs Hc Hp Hi Ht Hla Hb].
  split; try done; [by apply table_store_ok| |].
  - destruct Hs as (? & ? & ? & ? & ? & ? & ?). split_and!; try done. cbn. by rewrite length_insert.
  - cbn. unfold SendQueue.slot. by rewrite Ht, Hc, Hp.
Qed.

Lemma verb_request rdma imm data sge entry :
  let r := fst (request (verb rdma imm data sge entry)) in
  req_size r = SendQueue.wqe_size_of data sge /\ snd (request (verb rdma imm data sge entry)) = entry /\
  forall idx qpn,
    req_ctrl r idx qpn = wqe_ctrl qpn (write_imm_wqe rdma imm data sge entry idx).
Proof.
  cbn zeta. assert (req_size (fst (request (verb rdma imm data sge entry))) =
    SendQueue.wqe_size_of data sge) as E.
  { unfold SendQueue.wqe_size_of. destruct sge; cbn [verb request fst]; unfold req_size;
      cbn [req_segs segs_size seg_size]; unfold CTRL_SEG_SIZE, SendQueue.CTRL_SEG_SIZE,
      SendQueue.RDMA_SEG_SIZE, SendQueue.DATA_SEG_SIZE;
      change SendQueue.inline_padded_size with inline_padded_size; lia. }
  split; [done|]. split; [by destruct sge|]. intros idx qpn. unfold req_ctrl. rewrite E.
  by destruct sge, entry.
Qed.

Lemma reference_simulates q s r w entry :
  refines q s -> req_ok r -> fields_ok r ->
  (forall idx qpn, req_ctrl r idx qpn = wqe_ctrl qpn (w idx)) ->
  let x := emit_reference q r entry in
  let y := block_reference s w (req_size r) entry (padding q r) (req_blocks r) in
  refines (fst x) (fst y) /\ res_match (snd x) (snd y).
Proof.
  intros HR Hr Hf Ectrl. pose proof (r_ctx _ _ HR) as Hq.
  pose proof (req_size_spec r Hr) as (_ & _ & Hbl & Hsz & _).
  pose proof (pad_spec q r Hq Hr) as (P1 & P2 & P3 & P4).
  cbn zeta. unfold emit_reference, block_reference.
  assert (SendQueue.available s = available q) as ->
    by (unfold SendQueue.available; by rewrite (r_cnt _ _ HR), (r_pi _ _ HR), (r_ci _ _ HR)).
  destruct (available q <? _) eqn:E; guards; [done|].
  destruct (padded_spec q r Hq Hr E) as (A1 & A2 & _ & A4 & (A5 & A6 & A7) & _ & _).
  pose proof (available_flight q Hq) as [Ha Hfl].
  assert (refines (padded q r)
    (if 0 <? padding q r then SendQueue.post_nop s (padding q r) else s)) as HR1.
  { unfold padded. destruct (0 <? padding q r) eqn:E0; guards; [|done].
    apply nop_simulates; try done; lia. }
  fold (padded q r). set (q1 := padded q r) in *. set (s1 := if 0 <? padding q r then _ else _) in *.
  assert (refines (fst (post q1 (req_size r) (req_blocks r) (req_stores (sqn q) r)))
    (block_post s1 (w (SendQueue.pi s1)) (req_blocks r) (req_blocks r) (req_size r))) as HR2.
  { rewrite (r_pi _ _ HR1). apply post_simulates; rewrite ?A4, ?A5, ?A6; try done; try lia.
    - apply (stores_in_weaken 0 _ (req_size r)); [|lia|lia]. by apply req_stores_in; destruct Hr.
    - rewrite <-Ectrl. by eexists.
    - rewrite <-Ectrl. apply req_ctrl_ok; try done. apply u16_range. }
  destruct (post _ _ _ _) as [q' res] eqn:Ep. cbn [fst] in HR2.
  assert (res = mkRes (get_wqe_ptr q1 (pi q1)) (pi q1) (req_size r) (req_blocks r)) as Eres
    by (by unfold post in Ep; injection Ep).
  rewrite (r_pi _ _ HR1) in *. subst res. cbn [res_wqe_idx fst snd].
  split; [|done]. destruct entry; [|done]. by apply table_store_simulates.
Qed.

(** C39: the inline WRITE+IMM arms on bytes refine the block-level queue under the
    copyrpc endpoint: from related queues both accept or both refuse, with the same
    index, size and block count, and the queues stay related, so wherever the
    block-level queue records the start of a request the device decodes that
    request's control segment. *)
Theorem emit_refines_blocks q s rdma imm data sge entry :
  refines q s -> verb_ok (verb rdma imm data sge entry) -> is_uint 32 imm ->
  refines (fst (emit q (verb rdma imm data sge entry)))
          (fst (SendQueue.emit_write_imm s rdma imm data sge entry)) /\
  res_match (snd (emit q (verb rdma imm data sge entry)))
            (snd (SendQueue.emit_write_imm s rdma imm data sge entry)).
Proof.
  intros HR Hv Himm. pose proof (r_ctx _ _ HR) as Hq. rewrite arms_reference by done.
  destruct (verb_request rdma imm data sge entry) as (Esz & Een & Ectrl).
  rewrite Een, block_emit; [|by apply r_sq with q|by destruct sge, Hv as (Hs & _); inversion Hs as [|? ? _ H1]; inversion H1
    |by destruct sge, Hv as (_ & _ & ?)].
  set (r := fst (request _)) in *.
  assert (req_ok r) as Hr by (destruct Hv as (? & ? & _); done).
  assert (fields_ok r) as Hf by (split; [subst r; by destruct sge, entry|subst r; by destruct sge]).
  rewrite <-Esz. fold (req_blocks r).
  assert (SendQueue.slots_to_end s = slots_to_end q) as ->
    by (unfold SendQueue.slots_to_end, SendQueue.slot; by rewrite (r_cnt _ _ HR), (r_pi _ _ HR)).
  fold (padding q r). by apply reference_simulates.
Qed.

(** The READ and WRITE of one buffer. *)
Definition rdma_verb (read : bool) (rdma : SendQueue.RdmaParams) (sge : SendQueue.SgeParams)
    (entry : option Entry) : Verb :=
  if read then VRead 0 rdma sge entry else VWrite 0 rdma sge entry.

Lemma emit_rdma_refines q s read rdma sge entry :
  refines q s -> verb_ok (rdma_verb read rdma sge entry) ->
  refines (fst (emit q (rdma_verb read rdma sge entry)))
          (fst (SendQueue.emit_rdma s read rdma sge entry)) /\
  res_match (snd (emit q (rdma_verb read rdma sge entry)))
            (snd (SendQueue.emit_rdma s read rdma sge entry)).
Proof.
  intros HR Hv. pose proof (r_ctx _ _ HR) as Hq. rewrite arms_reference by done.
  assert (snd (request (rdma_verb read rdma sge entry)) = entry) as -> by (by destruct read).
  set (r := fst (request _)).
  assert (req_ok r) as Hr by (destruct Hv as (? & ? & _); done).
  assert (fields_ok r) as Hf by (subst r; destruct read; split; cbn; by try destruct entry).
  assert (req_size r = 48) as Esz by (subst r; by destruct read).
  assert (padding q r = 0) as Ep.
  { unfold padding, req_blocks. rewrite Esz. pose proof (ctx_slots q Hq).
    change ((48 + 63) / 64) with 1. by rewrite (proj2 (Z.ltb_ge _ _)) by lia. }
  pose proof (reference_simulates q s r
    (fun idx => SendQueue.WRdma read idx (is_signaled entry) rdma sge) entry HR Hr Hf) as H.
  rewrite Ep, Esz in H. unfold req_blocks in H. rewrite Esz in H. apply H.
  intros idx qpn. unfold req_ctrl. rewrite Esz. subst r. by destruct read, entry.
Qed.

End Refinement.
(** Two fresh queues are related. *)
Lemma new_refines {Entry} k qpn :
  0 <= k <= 15 -> is_uint 24 qpn ->
  refines (Entry := Entry)
    (mkCtx (replicate (Z.to_nat (64 * 2 ^ k)) 0) (2 ^ k) qpn 0 0 None
       (replicate (Z.to_nat (2 ^ k)) None))
    (SendQueue.sq_new (2 ^ k)).
Proof.
  intros Hk Hq. assert (0 < 2 ^ k) by (apply Z.pow_pos_nonneg; lia).
  assert (2 ^ k <= 2 ^ 15) by (apply Z.pow_le_mono_r; lia).
  assert (SendQueue.sq_ok (Entry := Entry) (SendQueue.sq_new (2 ^ k))) as Hok.
  { unfold SendQueue.sq_ok, SendQueue.sq_new, SendQueue.in_flight. cbn -[Z.pow].
    rewrite !length_replicate. split_and!; try lia; try (unfold is_uint; lia).
    - unfold is_power_of_two. rewrite Z.log2_pow2 by lia. rewrite Z.eqb_refl.
      by rewrite (proj2 (Z.ltb_lt _ _)) by lia.
    - replace (u16 _) with 0 by reflexivity. lia. }
  split; try done.
  - split; [exact Hok|]. split; [cbn; rewrite length_replicate; lia|done].
  - intros i w Hl. cbn in Hl. apply lookup_replicate in Hl as [? _]. done.
Qed.

Example emit_refines_blocks_witness :
  let q := mkCtx (replicate 512 0) 8 77 0 0 None (replicate 8 None) in
  let v := verb (SendQueue.mkRdma 4096 3) 12 [1; 2; 3] None (Some true) in
  refines (fst (emit q v))
    (fst (SendQueue.emit_write_imm (SendQueue.sq_new 8) (SendQueue.mkRdma 4096 3) 12 [1; 2; 3]
       None (Some true))).
Proof.
  cbn zeta. refine (proj1 (emit_refines_blocks _ (SendQueue.sq_new 8) _ _ _ None (Some true) _ _ _)).
  - apply (new_refines 3 77); unfold is_uint; lia.
  - split; [repeat constructor; cbn; lia|split; [vm_compute; congruence|done]].
  - unfold is_uint; lia.
Defined.

End EmitBlocks.
