(* ===== verification/Srq.v ===== *)
(** * Srq: the shared receive queue, [mlx5/src/srq.rs]

    Receive work requests in a ring of [wqe_cnt] slots of [stride] bytes with
    32-bit producer and consumer indices and a table of user entries; the
    BlueFlame batch builder, which writes ahead of the producer index and
    publishes all its requests in [finish].  The queue refines a bounded
    first-in first-out queue of entries, and a batch is the same as posting its
    requests one by one. *)
From S2P Require Import Prelude SendQueue Wqe.

Module Srq.
Import Wqe.

(** [struct SrqState<T>]; [dbrec] is the producer index last shown to the device,
    [pending] the number of requests written since the last doorbell. *)
Record SrqState (T : Type) : Type := mkSrq {
  buf : list Z;
  wqe_cnt : Z;
  stride : Z;
  pi : Z;
  ci : Z;
  dbrec : Z;
  pending_wqe_count : Z;
  table : list (option T);
}.
Arguments mkSrq {T} _ _ _ _ _ _ _ _.
Arguments buf {T} _.
Arguments wqe_cnt {T} _.
Arguments stride {T} _.
Arguments pi {T} _.
Arguments ci {T} _.
Arguments dbrec {T} _.
Arguments pending_wqe_count {T} _.
Arguments table {T} _.

Section Ops.
Context {T : Type}.
Implicit Types (s : SrqState T).

(** The state [init_direct_access_internal] sets up over the device's buffer. *)
Definition srq_init (b : list Z) (cnt st : Z) : SrqState T :=
  mkSrq b cnt st 0 0 0 0 (replicate (Z.to_nat cnt) None).

(** The slot's offset, computed in 32 bits. *)
Definition get_wqe_ptr s (idx : Z) : Z := u32 (Z.land idx (wqe_cnt s - 1) * stride s).

Definition available s : Z := u32 (wqe_cnt s - u32 (pi s - ci s)).

(** The request at slot [idx]: a zeroed next segment and a data segment. *)
Definition write_wqe (b : list Z) (ptr addr len lkey : Z) : list Z :=
  write_bytes (write_bytes b (Z.to_nat ptr) (replicate 16 0)) (Z.to_nat ptr + 16)
    (write_data_seg len lkey addr).

(** Request and entry stored at index [idx]. *)
Definition put s (idx : Z) (entry : T) (addr len lkey : Z) : SrqState T :=
  mkSrq (write_wqe (buf s) (get_wqe_ptr s idx) addr len lkey) (wqe_cnt s) (stride s) (pi s) (ci s)
    (dbrec s) (pending_wqe_count s)
    (<[Z.to_nat (Z.land idx (wqe_cnt s - 1)) := Some entry]> (table s)).

(** [post_recv]; the error is [WouldBlock]. *)
Definition post_recv s (entry : T) (addr len lkey : Z) : SrqState T * result unit unit :=
  if available s =? 0 then (s, Err tt)
  else
    let s := put s (pi s) entry addr len lkey in
    (mkSrq (buf s) (wqe_cnt s) (stride s) (u32 (pi s + 1)) (ci s) (dbrec s)
       (u32 (pending_wqe_count s + 1)) (table s), Ok tt).

Definition ring_doorbell s : SrqState T :=
  mkSrq (buf s) (wqe_cnt s) (stride s) (pi s) (ci s) (pi s) 0 (table s).

Definition ring_doorbell_bf s : SrqState T :=
  if pending_wqe_count s =? 0 then s else ring_doorbell s.

(** [process_completion]: first in first out, whatever index the completion carries. *)
Definition process_completion s : SrqState T * option T :=
  let idx := Z.to_nat (Z.land (ci s) (wqe_cnt s - 1)) in
  (mkSrq (buf s) (wqe_cnt s) (stride s) (pi s) (u32 (ci s + 1)) (dbrec s) (pending_wqe_count s)
     (<[idx := None]> (table s)), default None (table s !! idx)).

Definition advance_ci s (count : Z) : SrqState T :=
  mkSrq (buf s) (wqe_cnt s) (stride s) (pi s) (u32 (ci s + count)) (dbrec s)
    (pending_wqe_count s) (table s).

(** ** The BlueFlame batch *)

Definition SRQ_WQE_SIZE : Z := 32.
Definition BLUEFLAME_BUFFER_SIZE : Z := 256.

(** [struct SrqBlueflameWqeBatch], over the queue it borrows. *)
Record Batch : Type := mkBatch {
  b_state : SrqState T;
  b_buffer : list Z;
  b_offset : Z;
  b_wqe_count : Z;
}.

Definition blueflame_rq_batch s (bf_size : Z) : result Batch SendQueue.SubmissionError :=
  if bf_size =? 0 then Err SendQueue.BlueflameNotAvailable
  else if available s =? 0 then Err SendQueue.RqFull
  else Ok (mkBatch s (replicate (Z.to_nat BLUEFLAME_BUFFER_SIZE) 0) 0 0).

Definition batch_post (b : Batch) (entry : T) (addr len lkey : Z)
    : Batch * result unit SendQueue.SubmissionError :=
  let s := b_state b in
  if available s <=? b_wqe_count b then (b, Err SendQueue.RqFull)
  else if BLUEFLAME_BUFFER_SIZE <? b_offset b + SRQ_WQE_SIZE
  then (b, Err SendQueue.BlueflameOverflow)
  else
    let wqe_idx := u32 (pi s + b_wqe_count b) in
    (mkBatch (put s wqe_idx entry addr len lkey)
       (write_wqe (b_buffer b) (b_offset b) addr len lkey)
       (b_offset b + SRQ_WQE_SIZE) (b_wqe_count b + 1), Ok tt).

(** [finish]: the producer index, then the doorbell record; the copy to the device
    register is the buffer itself. *)
Definition batch_finish (b : Batch) : SrqState T * list Z :=
  let s := b_state b in
  if b_wqe_count b =? 0 then (s, [])
  else
    let p := u32 (pi s + b_wqe_count b) in
    (mkSrq (buf s) (wqe_cnt s) (stride s) p (ci s) p (pending_wqe_count s) (table s),
     take (Z.to_nat (b_offset b)) (b_buffer b)).

(** ** Invariant and abstraction *)

(** Geometry: a power of two of slots, each with room for a request, in a buffer
    whose offsets fit 32 bits. *)
Definition srq_ok s : Prop :=
  (exists k, 0 <= k <= 31 /\ wqe_cnt s = 2 ^ k) /\
  (32 <= stride s /\ wqe_cnt s * stride s <= 2 ^ 32) /\
  is_uint 32 (pi s) /\ is_uint 32 (ci s) /\
  Z.of_nat (length (buf s)) = wqe_cnt s * stride s /\ Z.of_nat (length (table s)) = wqe_cnt s.

(** The entries posted and not consumed, oldest first. *)
Record holds s (l : list T) : Prop := mkHolds {
  h_ok : srq_ok s;
  h_count : u32 (pi s - ci s) = Z.of_nat (length l);
  h_fits : Z.of_nat (length l) <= wqe_cnt s;
  h_entry : forall i x, l !! i = Some x ->
    table s !! Z.to_nat ((ci s + Z.of_nat i) mod wqe_cnt s) = Some (Some x);
}.

Lemma cnt_pos s : srq_ok s -> 0 < wqe_cnt s <= 2 ^ 31.
Proof.
  intros ((k & Hk & ->) & _). split; [apply Z.pow_pos_nonneg; lia|apply Z.pow_le_mono_r; lia].
Qed.

Lemma land_mod s idx : srq_ok s -> Z.land idx (wqe_cnt s - 1) = idx mod wqe_cnt s.
Proof. intros ((k & Hk & ->) & _). apply land_mask. lia. Qed.

Lemma u32_mod s x : srq_ok s -> u32 x mod wqe_cnt s = x mod wqe_cnt s.
Proof.
  intros ((k & Hk & E) & _). unfold u32, wrap. apply Z.mod_mod_divide. rewrite E.
  exists (2 ^ (32 - k)). rewrite <-Z.pow_add_r by lia. f_equal. lia.
Qed.

Lemma srq_available_val s l : holds s l -> available s = wqe_cnt s - Z.of_nat (length l).
Proof.
  intros [Hok Hc Hf _]. pose proof (cnt_pos s Hok). unfold available. rewrite Hc.
  apply u32_small. lia.
Qed.

(** The producer index, from the consumer's. *)
Lemma srq_pi_mod s l k :
  holds s l -> (pi s + k) mod wqe_cnt s = (ci s + Z.of_nat (length l) + k) mod wqe_cnt s.
Proof.
  intros [Hok Hc Hf _]. pose proof (cnt_pos s Hok).
  rewrite <-Hc. rewrite <-(Z.add_mod_idemp_l (ci s + _)) by lia.
  rewrite <-(Z.add_mod_idemp_r (ci s)) by lia. rewrite u32_mod by done.
  rewrite Z.add_mod_idemp_r by lia. rewrite Z.add_mod_idemp_l by lia. f_equal. lia.
Qed.

Lemma slot_ne s l i k :
  holds s l -> (i < length l)%nat -> 0 <= k -> Z.of_nat (length l) + k < wqe_cnt s ->
  (ci s + Z.of_nat i) mod wqe_cnt s <> (pi s + k) mod wqe_cnt s.
Proof.
  intros Hh Hi Hk Hf. pose proof (cnt_pos s (h_ok _ _ Hh)).
  rewrite (srq_pi_mod s l) by done. apply SendQueue.mod_ne. lia.
Qed.

Lemma length_write_wqe b ptr addr len lkey :
  0 <= ptr -> ptr + 32 <= Z.of_nat (length b) ->
  length (write_wqe b ptr addr len lkey) = length b.
Proof.
  intros Hp Hl. unfold write_wqe. rewrite !length_write_bytes; [done|lia|].
  rewrite length_write_bytes; lia.
Qed.

Lemma srq_ptr_val s idx :
  srq_ok s -> get_wqe_ptr s idx = idx mod wqe_cnt s * stride s /\
  0 <= get_wqe_ptr s idx /\ get_wqe_ptr s idx + stride s <= wqe_cnt s * stride s.
Proof.
  intros Hok. pose proof (cnt_pos s Hok). pose proof (Z.mod_pos_bound idx (wqe_cnt s) ltac:(lia)).
  unfold get_wqe_ptr. rewrite land_mod by done. destruct Hok as (_ & [H2 H2'] & _).
  assert (0 <= idx mod wqe_cnt s * stride s /\
          idx mod wqe_cnt s * stride s + stride s <= wqe_cnt s * stride s) as [? ?] by nia.
  rewrite u32_small by lia. lia.
Qed.

Lemma put_ok s idx x a n k : srq_ok s -> srq_ok (put s idx x a n k).
Proof.
  intros Hok. destruct (srq_ptr_val s idx Hok) as (_ & Hp1 & Hp2).
  destruct Hok as (H1 & H2 & H3 & H4 & H5 & H6). unfold srq_ok. cbn.
  rewrite length_insert, length_write_wqe; [done|lia|lia].
Qed.

Lemma u32_sub_add x y c :
  0 <= u32 (x - y) + c < 2 ^ 32 -> u32 (u32 (x + c) - y) = u32 (x - y) + c.
Proof.
  intros H. rewrite <-(u32_small (u32 (x - y) + c)) by done. unfold u32, wrap.
  rewrite Zminus_mod_idemp_l, Zplus_mod_idemp_l. f_equal. lia.
Qed.

Lemma u32_sub_sub x y c :
  0 <= u32 (x - y) - c < 2 ^ 32 -> u32 (x - u32 (y + c)) = u32 (x - y) - c.
Proof.
  intros H. rewrite <-(u32_small (u32 (x - y) - c)) by done. unfold u32, wrap.
  rewrite Zminus_mod_idemp_r, Zminus_mod_idemp_l. f_equal. lia.
Qed.

Lemma post_recv_holds s l x addr len lkey :
  holds s l ->
  if decide (Z.of_nat (length l) = wqe_cnt s) then post_recv s x addr len lkey = (s, Err tt)
  else exists s', post_recv s x addr len lkey = (s', Ok tt) /\ holds s' (l ++ [x]) /\
    read_bytes (buf s') (Z.to_nat (pi s mod wqe_cnt s * stride s) + 16) 16
      = write_data_seg len lkey addr.
Proof.
  intros Hh. pose proof Hh as [Hok Hc Hf He]. pose proof (cnt_pos s Hok).
  unfold post_recv. rewrite (srq_available_val s l) by done. case_decide as Hd.
  { by rewrite (proj2 (Z.eqb_eq _ _)) by lia. }
  rewrite (proj2 (Z.eqb_neq _ _)) by lia. eexists. split; [done|].
  pose proof (put_ok s (pi s) x addr len lkey Hok) as Hok'.
  pose proof (land_mod s (pi s) Hok) as Hm. pose proof (Z.mod_pos_bound (pi s) (wqe_cnt s) ltac:(lia)).
  pose proof (srq_pi_mod s l 0 Hh) as Hpi. rewrite !Z.add_0_r in Hpi.
  split; [split; cbn|].
  - destruct Hok' as (? & ? & ? & ? & ? & ?). unfold srq_ok. cbn. do 2 (split; [done|]).
    split; [apply u32_range|done].
  - rewrite length_app. cbn. rewrite u32_sub_add; rewrite Hc; lia.
  - rewrite length_app. cbn. lia.
  - intros i y Hi. rewrite Hm. apply lookup_app_Some in Hi as [Hi|[Hi1 Hi2]].
    + rewrite list_lookup_insert_ne; [by apply He|]. pose proof (lookup_lt_Some _ _ _ Hi) as Hlt.
      pose proof (slot_ne s l i 0 Hh Hlt ltac:(lia) ltac:(lia)) as Hne. rewrite Z.add_0_r in Hne.
      pose proof (Z.mod_pos_bound (ci s + Z.of_nat i) (wqe_cnt s) ltac:(lia)). lia.
    + apply list_lookup_singleton_Some in Hi2 as [Hi2 <-].
      replace (Z.of_nat i) with (Z.of_nat (length l)) by lia. rewrite <-Hpi.
      apply list_lookup_insert_eq. destruct Hok as (_ & _ & _ & _ & _ & ?). lia.
  - cbn [buf put]. unfold write_wqe. destruct (srq_ptr_val s (pi s) Hok) as (Ep & Hp1 & Hp2).
    rewrite Ep in *. destruct Hok as (_ & H2 & _ & _ & H5 & _).
    apply read_write_n; [by rewrite length_data_seg|]. rewrite length_write_bytes; lia.
Qed.

Lemma process_completion_holds s x l :
  holds s (x :: l) ->
  snd (process_completion s) = Some x /\ holds (fst (process_completion s)) l.
Proof.
  intros Hh. pose proof Hh as [Hok Hc Hf He]. pose proof (cnt_pos s Hok). cbn [length] in *.
  pose proof (He 0%nat x eq_refl) as H0. rewrite Z.add_0_r in H0.
  unfold process_completion. cbn [fst snd]. rewrite land_mod, H0 by done. split; [done|].
  split; cbn.
  - destruct Hok as (? & ? & ? & ? & ? & ?). unfold srq_ok. cbn. rewrite length_insert.
    do 3 (split; [done|]). split; [apply u32_range|done].
  - rewrite u32_sub_sub; rewrite Hc; lia.
  - lia.
  - intros i y Hi. pose proof (lookup_lt_Some _ _ _ Hi).
    rewrite <-(Z.add_mod_idemp_l (u32 _)) by lia. rewrite u32_mod by done.
    rewrite Z.add_mod_idemp_l by lia.
    replace (ci s + 1 + Z.of_nat i) with (ci s + Z.of_nat (S i)) by lia.
    rewrite list_lookup_insert_ne; [by apply He|].
    pose proof (SendQueue.mod_ne (ci s) (ci s + Z.of_nat (S i)) (wqe_cnt s) ltac:(lia)) as Hne.
    pose proof (Z.mod_pos_bound (ci s) (wqe_cnt s) ltac:(lia)).
    pose proof (Z.mod_pos_bound (ci s + Z.of_nat (S i)) (wqe_cnt s) ltac:(lia)). lia.
Qed.

Lemma advance_ci_holds s l n :
  holds s l -> (n <= length l)%nat -> holds (advance_ci s (Z.of_nat n)) (drop n l).
Proof.
  intros Hh Hn. pose proof Hh as [Hok Hc Hf He]. pose proof (cnt_pos s Hok).
  split; cbn; rewrite ?length_drop.
  - destruct Hok as (? & ? & ? & ? & ? & ?). do 3 (split; [done|]). split; [apply u32_range|done].
  - rewrite u32_sub_sub; rewrite Hc; lia.
  - lia.
  - intros i y Hi. rewrite lookup_drop in Hi.
    rewrite <-(Z.add_mod_idemp_l (u32 _)) by lia. rewrite u32_mod by done.
    rewrite Z.add_mod_idemp_l by lia.
    replace (ci s + Z.of_nat n + Z.of_nat i) with (ci s + Z.of_nat (n + i)) by lia. by apply He.
Qed.

(** C32: the shared receive queue is a bounded first-in first-out queue of entries:
    posting is refused exactly when [wqe_cnt] entries are outstanding and otherwise
    appends the entry and stores its data segment in the free slot; a completion
    returns the oldest entry and frees its slot; advancing the consumer index drops
    the oldest entries.  Doorbells change nothing of this.  The ring is at most
    [2 ^ 32] bytes long (part of [holds]), as the code computes offsets in 32
    bits. *)
Theorem srq_refines_fifo s l x addr len lkey n :
  holds s l -> (n <= length l)%nat ->
  available s = wqe_cnt s - Z.of_nat (length l) /\
  (if decide (Z.of_nat (length l) = wqe_cnt s) then post_recv s x addr len lkey = (s, Err tt)
   else exists s', post_recv s x addr len lkey = (s', Ok tt) /\ holds s' (l ++ [x]) /\
     read_bytes (buf s') (Z.to_nat (pi s mod wqe_cnt s * stride s) + 16) 16
       = write_data_seg len lkey addr) /\
  match l with
  | y :: l' => snd (process_completion s) = Some y /\ holds (fst (process_completion s)) l'
  | [] => True
  end /\
  holds (advance_ci s (Z.of_nat n)) (drop n l) /\
  holds (ring_doorbell s) l /\ holds (ring_doorbell_bf s) l.
Proof.
  intros Hh Hn. split; [by apply srq_available_val|]. split; [by apply post_recv_holds|].
  split; [destruct l; [done|by apply process_completion_holds]|].
  split; [by apply advance_ci_holds|].
  assert (holds (ring_doorbell s) l) by by destruct Hh. split; [done|].
  unfold ring_doorbell_bf. by destruct (_ =? 0).
Qed.

(** ** A batch and single posts *)

(** A receive request: entry, address, length, key. *)
Definition Recv : Type := T * (Z * Z * Z).

Fixpoint post_each s (reqs : list Recv) : option (SrqState T) :=
  match reqs with
  | [] => Some s
  | (x, (a, n, k)) :: reqs =>
      match post_recv s x a n k with
      | (s, Ok _) => post_each s reqs
      | (_, Err _) => None
      end
  end.

Fixpoint batch_each (b : Batch) (reqs : list Recv) : option Batch :=
  match reqs with
  | [] => Some b
  | (x, (a, n, k)) :: reqs =>
      match batch_post b x a n k with
      | (b, Ok _) => batch_each b reqs
      | (_, Err _) => None
      end
  end.

(** What the device and the software see of the queue. *)
Definition view s : list Z * Z * Z * Z * Z * Z * list (option T) :=
  (buf s, wqe_cnt s, stride s, pi s, ci s, dbrec s, table s).

(** The batch [b], started on [s0], is [k] requests ahead of its queue; [s] is the
    queue after posting them one by one. *)
Record ahead s0 (b : Batch) s (k : Z) : Prop := mkAhead {
  a_count : b_wqe_count b = k;
  a_offset : b_offset b = 32 * k;
  a_fixed : wqe_cnt (b_state b) = wqe_cnt s0 /\ stride (b_state b) = stride s0 /\
            pi (b_state b) = pi s0 /\ ci (b_state b) = ci s0;
  a_same : wqe_cnt s = wqe_cnt s0 /\ stride s = stride s0 /\ ci s = ci s0;
  a_pi : pi s = u32 (pi s0 + k);
  a_bytes : buf s = buf (b_state b) /\ table s = table (b_state b);
}.

Lemma batch_each_spec reqs : forall s0 b s k l,
  ahead s0 b s k -> 0 <= k -> holds s l -> available s0 = available s + k -> is_uint 32 (pi s0) ->
  Z.of_nat (length l + length reqs) <= wqe_cnt s0 -> k + Z.of_nat (length reqs) <= 8 ->
  exists b' s', batch_each b reqs = Some b' /\ post_each s reqs = Some s' /\
    ahead s0 b' s' (k + Z.of_nat (length reqs)).
Proof.
  induction reqs as [|[x [[a n] key]] reqs IH]; intros s0 b s k l Ha Hk Hh Hav Hpi Hfit H8.
  { exists b, s. by rewrite Z.add_0_r. }
  pose proof Ha as [A1 A2 (A3 & A4 & A5 & A6) (A7 & A8 & A9) A10 (A11 & A12)].
  cbn [length] in *. pose proof (srq_available_val s l Hh) as Hv. rewrite A7 in Hv.
  pose proof (post_recv_holds s l x a n key Hh) as Hp. rewrite A7, decide_False in Hp by lia.
  destruct Hp as (s1 & Hp & Hh1 & _).
  cbn [batch_each post_each]. rewrite Hp.
  unfold batch_post. rewrite A1, A2, A5.
  replace (available (b_state b)) with (available s0)
    by (unfold available; by rewrite A3, A5, A6).
  unfold BLUEFLAME_BUFFER_SIZE, SRQ_WQE_SIZE.
  rewrite (proj2 (Z.leb_gt _ k)) by lia. rewrite (proj2 (Z.ltb_ge 256 _)) by lia.
  unfold post_recv in Hp. rewrite Hv, (proj2 (Z.eqb_neq _ _)) in Hp by lia.
  injection Hp as <-. edestruct (IH s0) as (b' & s' & -> & -> & Ha'); [| | exact Hh1 | | | | |].
  4: exact Hpi.
  - split; cbn; rewrite ?A1, ?A2, ?A10; try done; [lia| |].
    + unfold u32, wrap. rewrite Zplus_mod_idemp_l. f_equal. lia.
    + split; unfold get_wqe_ptr; cbn; by rewrite ?A11, ?A12, ?A3, ?A4, ?A7, ?A8.
  - lia.
  - rewrite (srq_available_val _ _ Hh1), length_app. cbn. rewrite A7. lia.
  - rewrite length_app. cbn. lia.
  - lia.
  - exists b', s'. split; [done|]. split; [done|].
    replace (k + Z.of_nat (Datatypes.S (length reqs))) with (k + 1 + Z.of_nat (length reqs)) by lia. done.
Qed.

(** A BlueFlame batch of at most eight receive requests that fit the queue is
    equivalent to posting them one by one and ringing the doorbell: same buffer,
    same table, same indices, same doorbell record. *)
Theorem batch_equals_posts s l reqs bf_size :
  holds s l -> bf_size <> 0 -> reqs <> [] ->
  Z.of_nat (length l + length reqs) <= wqe_cnt s -> (length reqs <= 8)%nat ->
  exists b b' s',
    blueflame_rq_batch s bf_size = Ok b /\ batch_each b reqs = Some b' /\
    post_each s reqs = Some s' /\
    view (fst (batch_finish b')) = view (ring_doorbell s').
Proof.
  intros Hh Hbf Hne Hfit H8. pose proof (h_ok _ _ Hh) as (_ & _ & Hpi & _).
  assert (0 < length reqs)%nat by (destruct reqs; [done|cbn; lia]).
  unfold blueflame_rq_batch. rewrite (proj2 (Z.eqb_neq _ _)) by done.
  rewrite (srq_available_val s l), (proj2 (Z.eqb_neq _ _)) by (done || lia).
  set (b := mkBatch s _ 0 0).
  destruct (batch_each_spec reqs s b s 0 l) as (b' & s' & E1 & E2 & Ha); try done; try lia.
  { split; try done. cbn. rewrite Z.add_0_r. symmetry. by apply u32_small. }
  exists b, b', s'. split_and!; try done.
  destruct Ha as [A1 A2 (A3 & A4 & A5 & A6) (A7 & A8 & A9) A10 (A11 & A12)].
  unfold batch_finish. rewrite A1, (proj2 (Z.eqb_neq _ _)) by lia.
  unfold view, ring_doorbell; cbn. congruence.
Qed.

End Ops.

Definition demo : SrqState nat := srq_init (replicate 128 0) 4 32.

Lemma demo_holds : holds demo [].
Proof.
  split; [|reflexivity|cbn; lia|done].
  split; [exists 2; split; [lia|reflexivity]|]. unfold is_uint. split_and!; done.
Qed.

Example srq_refines_fifo_witness :
  exists s', post_recv demo 7%nat 4096 64 5 = (s', Ok tt) /\ holds s' [7%nat].
Proof.
  destruct (srq_refines_fifo demo [] 7%nat 4096 64 5 0 demo_holds ltac:(cbn; lia)) as (_ & H & _).
  destruct (decide _) as [E|_]; [cbn in E; lia|]. destruct H as (s' & H1 & H2 & _). by exists s'.
Defined.

Example batch_equals_posts_witness :
  exists b b' s', blueflame_rq_batch demo 256 = Ok b /\
    batch_each b [(1%nat, (10, 20, 30)); (2%nat, (11, 21, 31))] = Some b' /\
    post_each demo [(1%nat, (10, 20, 30)); (2%nat, (11, 21, 31))] = Some s' /\
    view (fst (batch_finish b')) = view (ring_doorbell s').
Proof. apply (batch_equals_posts demo []); [apply demo_holds|done|done|cbn; lia|cbn; lia]. Defined.

End Srq.
