(* ===== verification/DirtyList.v ===== *)
(** * DirtyList: the intrusive queue of dirty endpoints, [copyrpc/src/dc.rs]

    [DirtyEndpointList] threads a queue of endpoint numbers through a vector of
    successors, with a membership bit per endpoint.  Its operations as the code
    writes them ([None] is an index out of bounds), and the refinement to a
    list without duplicates. *)
From S2P Require Import Prelude.

Module DirtyList.

Definition DIRTY_NONE : Z := U32_MAX.

Record DirtyEndpointList : Type := mkDirty {
  head : Z;
  tail : Z;
  next : list Z;
  in_list : list bool;
}.

Definition new : DirtyEndpointList := mkDirty DIRTY_NONE DIRTY_NONE [] [].

(** [Vec::resize] to a length that is not smaller. *)
Definition resize {A} (l : list A) (n : nat) (x : A) : list A := l ++ replicate (n - length l) x.

Definition ensure_slot (id : Z) (d : DirtyEndpointList) : DirtyEndpointList :=
  let idx := Z.to_nat id in
  if (length (next d) <=? idx)%nat
  then mkDirty (head d) (tail d) (resize (next d) (S idx) DIRTY_NONE)
         (resize (in_list d) (S idx) false)
  else d.

(** [v[i] = x]. *)
Definition store {A} (l : list A) (i : Z) (x : A) : option (list A) :=
  if (Z.to_nat i <? length l)%nat then Some (<[Z.to_nat i := x]> l) else None.

Definition push_back (id : Z) (d : DirtyEndpointList) : option DirtyEndpointList :=
  let d := ensure_slot id d in
  match in_list d !! Z.to_nat id with
  | None => None
  | Some true => Some d
  | Some false =>
      match store (in_list d) id true, store (next d) id DIRTY_NONE with
      | Some il, Some nx =>
          if tail d =? DIRTY_NONE then Some (mkDirty id id nx il)
          else match store nx (tail d) id with
               | Some nx => Some (mkDirty (head d) id nx il)
               | None => None
               end
      | _, _ => None
      end
  end.

Definition pop_front (d : DirtyEndpointList) : option (DirtyEndpointList * option Z) :=
  if head d =? DIRTY_NONE then Some (d, None)
  else
    let id := head d in
    match next d !! Z.to_nat id with
    | None => None
    | Some h =>
        let t := if h =? DIRTY_NONE then DIRTY_NONE else tail d in
        match store (next d) id DIRTY_NONE, store (in_list d) id false with
        | Some nx, Some il => Some (mkDirty h t nx il, Some id)
        | _, _ => None
        end
    end.

Definition is_empty (d : DirtyEndpointList) : bool := head d =? DIRTY_NONE.

(** ** The queue it represents *)

(** [chain nx h l]: following successors from [h] visits [l] and ends. *)
Fixpoint chain (nx : list Z) (h : Z) (l : list Z) : Prop :=
  match l with
  | [] => h = DIRTY_NONE
  | a :: l => h = a /\ exists b, nx !! Z.to_nat a = Some b /\ chain nx b l
  end.

Definition valid_id (id : Z) : Prop := 0 <= id < DIRTY_NONE.

Record represents (d : DirtyEndpointList) (l : list Z) : Prop := mk_represents {
  re_length : length (in_list d) = length (next d);
  re_valid : Forall valid_id l;
  re_nodup : NoDup l;
  re_chain : chain (next d) (head d) l;
  re_tail : tail d = default DIRTY_NONE (last l);
  re_member : forall id, valid_id id ->
    default false (in_list d !! Z.to_nat id) = bool_decide (id ∈ l);
}.

(** The abstract operations. *)
Definition enqueue (id : Z) (l : list Z) : list Z := if decide (id ∈ l) then l else l ++ [id].

Lemma chain_insert_ne nx h l i x :
  0 <= i -> Forall valid_id l -> i ∉ l -> chain nx h l -> chain (<[Z.to_nat i := x]> nx) h l.
Proof.
  intros Hi Hv Hn. revert h. induction Hv as [|a l Ha Hl IH]; intros h; cbn; [done|].
  apply not_elem_of_cons in Hn as [Hne Hn]. intros [-> (b & Hb & Hc)].
  unfold valid_id in Ha. split; [done|]. exists b.
  rewrite list_lookup_insert_ne by lia. auto.
Qed.

Lemma chain_app_ext nx xs h l : chain nx h l -> chain (nx ++ xs) h l.
Proof.
  revert h. induction l as [|a l IH]; intros h; cbn; [done|].
  intros [-> (b & Hb & Hc)]. split; [done|]. exists b.
  split; [by apply lookup_app_l_Some|auto].
Qed.

(** Linking a new last element behind the old one. *)
Lemma chain_snoc nx h l t id :
  last l = Some t -> Forall valid_id l -> NoDup l -> 0 <= t ->
  nx !! Z.to_nat id = Some DIRTY_NONE -> id ∉ l -> 0 <= id ->
  chain nx h l -> chain (<[Z.to_nat t := id]> nx) h (l ++ [id]).
Proof.
  intros Hl Hv Hnd Ht Hid Hni Hid0. revert h. induction Hv as [|a l Ha Hvl IH]; intros h; [done|].
  apply NoDup_cons in Hnd as [Hal Hnd]. apply not_elem_of_cons in Hni as [Hne Hni].
  intros [-> (b & Hb & Hc)]. cbn. split; [done|]. unfold valid_id in Ha.
  destruct l as [|c l'].
  - cbn in Hl. injection Hl as <-. exists id. split.
    + apply list_lookup_insert_eq. by eapply lookup_lt_Some.
    + cbn. split; [done|]. exists DIRTY_NONE. split; [|done].
      by rewrite list_lookup_insert_ne by lia.
  - rewrite last_cons_cons in Hl. exists b. split.
    + rewrite list_lookup_insert_ne; [done|].
      pose proof (last_Some_elem_of _ _ Hl). intros E. apply Hal.
      replace a with t by lia. done.
    + by apply IH.
Qed.

Lemma new_represents : represents new [].
Proof. by constructor; try constructor. Qed.

Lemma lookup_resize_false (l : list bool) n i :
  default false (resize l n false !! i) = default false (l !! i).
Proof.
  unfold resize. destruct (decide (i < length l)%nat).
  - by rewrite lookup_app_l.
  - rewrite lookup_app_r, (lookup_ge_None_2 l) by lia. cbn.
    destruct (replicate _ false !! _) eqn:E; [|done].
    by apply lookup_replicate in E as [-> _].
Qed.

Lemma ensure_slot_represents id d l :
  represents d l ->
  represents (ensure_slot id d) l /\ (Z.to_nat id < length (next (ensure_slot id d)))%nat.
Proof.
  intros [Hlen Hv Hnd Hc Ht Hm]. unfold ensure_slot.
  destruct (_ <=? _)%nat eqn:E; [apply Nat.leb_le in E|apply Nat.leb_gt in E; by split].
  unfold resize. split; cbn [next].
  - constructor; cbn; [|done..| | |].
    + rewrite !length_app, !length_replicate. lia.
    + by apply chain_app_ext.
    + done.
    + intros i Hi. rewrite <-Hm by done. apply lookup_resize_false.
  - rewrite length_app, length_replicate. lia.
Qed.

Lemma store_Some {A} (l : list A) i x :
  (Z.to_nat i < length l)%nat -> store l i x = Some (<[Z.to_nat i := x]> l).
Proof. intros H. unfold store. by rewrite (proj2 (Nat.ltb_lt _ _) H). Qed.

Lemma chain_head_in nx h l : chain nx h l -> h <> DIRTY_NONE -> exists l', l = h :: l'.
Proof. destruct l as [|a l]; cbn; [done|]. intros [-> _]. eauto. Qed.

Lemma member_insert il (l l' : list Z) id b :
  0 <= id -> (Z.to_nat id < length il)%nat ->
  (forall i, valid_id i -> default false (il !! Z.to_nat i) = bool_decide (i ∈ l)) ->
  (id ∈ l' <-> b = true) -> (forall i, i <> id -> i ∈ l' <-> i ∈ l) ->
  forall i, valid_id i ->
    default false (<[Z.to_nat id := b]> il !! Z.to_nat i) = bool_decide (i ∈ l').
Proof.
  intros Hid Hlt Hm Hb Hl i Hi. unfold valid_id in Hi.
  destruct (decide (i = id)) as [->|Hne].
  - rewrite list_lookup_insert_eq by done. cbn. symmetry.
    destruct b; [apply bool_decide_eq_true|apply bool_decide_eq_false]; naive_solver.
  - rewrite list_lookup_insert_ne, Hm by (done || lia). by apply bool_decide_ext; rewrite Hl.
Qed.

Lemma push_back_represents id d l :
  represents d l -> valid_id id ->
  exists d', push_back id d = Some d' /\ represents d' (enqueue id l).
Proof.
  intros Hr Hid. destruct (ensure_slot_represents id d l Hr) as [Hr' Hlt]. clear Hr.
  unfold push_back, enqueue. set (d1 := ensure_slot id d) in *. clearbody d1.
  destruct Hr' as [Hlen Hv Hnd Hc Ht Hm]. pose proof (Hm id Hid) as Hmid.
  destruct (lookup_lt_is_Some_2 (in_list d1) (Z.to_nat id)) as [b Hb]; [lia|].
  rewrite Hb in *. cbn in Hmid. pose proof Hid as [Hid0 _].
  case_decide as Hin.
  - rewrite bool_decide_true in Hmid by done. subst b. exists d1. split; [done|by constructor].
  - rewrite bool_decide_false in Hmid by done. subst b.
    rewrite (store_Some (in_list d1)), (store_Some (next d1)) by lia.
    assert (Forall valid_id (l ++ [id])) as Hv' by (apply Forall_app; auto).
    assert (NoDup (l ++ [id])) as Hnd' by (apply NoDup_app; split_and!; [done|set_solver|by apply NoDup_singleton]).
    assert (forall i, valid_id i -> default false (<[Z.to_nat id := true]> (in_list d1) !! Z.to_nat i) =
      bool_decide (i ∈ l ++ [id])) as Hm'.
    { eapply member_insert; [done|lia|done|set_solver|set_solver]. }
    assert (chain (<[Z.to_nat id := DIRTY_NONE]> (next d1)) (head d1) l) as Hc'.
    { by apply chain_insert_ne. }
    assert (<[Z.to_nat id := DIRTY_NONE]> (next d1) !! Z.to_nat id = Some DIRTY_NONE) as Hn.
    { by apply list_lookup_insert_eq. }
    destruct (last l) as [t|] eqn:El.
    + assert (tail d1 = t) as Et by exact Ht. rewrite Et. pose proof (last_Some_elem_of _ _ El) as Hin_t.
      pose proof (proj1 (Forall_forall _ _) Hv t Hin_t) as Hvt. unfold valid_id in Hvt.
      rewrite (proj2 (Z.eqb_neq _ _)) by lia. rewrite store_Some.
      2:{ rewrite length_insert. assert (in_list d1 !! Z.to_nat t <> None) as Hx.
          { intros E. pose proof (Hm t Hvt) as Hmt. rewrite E, bool_decide_true in Hmt by done. done. }
          rewrite <-Hlen. by apply lookup_lt_is_Some, not_eq_None_Some. }
      eexists. split; [done|]. constructor; cbn; [by rewrite !length_insert|done|done| | |done].
      * eapply chain_snoc; [exact El|done|done|lia|done..].
      * exact (f_equal (default DIRTY_NONE) (eq_sym (last_snoc id l))).
    + apply last_None in El as ->. cbn in Ht, Hc. rewrite Ht, Z.eqb_refl.
      eexists. split; [done|]. constructor; cbn; [by rewrite !length_insert|done|done| |done|done].
      split; [done|]. exists DIRTY_NONE. split; [done|done].
Qed.

Lemma pop_front_represents d l :
  represents d l ->
  exists d', pop_front d = Some (d', list.head l) /\ represents d' (list.tail l).
Proof.
  intros Hr. pose proof Hr as [Hlen Hv Hnd Hc Ht Hm]. unfold pop_front.
  destruct l as [|a l]; cbn in Hc.
  { rewrite Hc, Z.eqb_refl. by exists d. }
  destruct Hc as [Hh (b & Hb & Hc)]. apply Forall_cons in Hv as [Ha Hv].
  pose proof Ha as [Ha0 Ha1]. apply NoDup_cons in Hnd as [Hni Hnd].
  rewrite Hh, (proj2 (Z.eqb_neq _ _)), Hb by lia.
  pose proof (lookup_lt_Some _ _ _ Hb) as Hlt. rewrite !store_Some by lia.
  eexists. split; [done|]. constructor; cbn; [by rewrite !length_insert|done|done| | |].
  - by apply chain_insert_ne.
  - destruct l as [|c l].
    + cbn in Hc. by rewrite Hc, Z.eqb_refl.
    + destruct Hc as [-> _]. apply Forall_cons in Hv as [[] _].
      rewrite (proj2 (Z.eqb_neq _ _)) by lia. by rewrite Ht, last_cons_cons.
  - eapply member_insert; [done|lia|done| |]; set_solver.
Qed.

Lemma is_empty_represents d l : represents d l -> is_empty d = bool_decide (l = []).
Proof.
  intros [_ Hv _ Hc _ _]. unfold is_empty. destruct l as [|a l]; cbn in Hc.
  - rewrite Hc. done.
  - destruct Hc as [-> _]. apply Forall_cons in Hv as [[] _]. cbn. lia.
Qed.

(** The list a queue represents is unique. *)
Lemma represents_inj d l l' : represents d l -> represents d l' -> l = l'.
Proof.
  intros [_ Hv _ Hc _ _] [_ Hv' _ Hc' _ _]. revert Hc Hc'. generalize (head d).
  revert l' Hv'. induction Hv as [|a l [] Hl IH]; intros l' Hv' h.
  - destruct Hv' as [|b l' []]; [done|]. cbn. intros -> [? _]. unfold DIRTY_NONE in *. lia.
  - destruct Hv' as [|b l' [] Hl']; cbn; [intros [-> _] ?; unfold DIRTY_NONE in *; lia|].
    intros [-> (x & Hx & Hc)] [<- (y & Hy & Hc')]. f_equal. apply (IH l' Hl' x); [done|].
    by simplify_eq.
Qed.

(** ** Properties *)

(** The linked queue of dirty endpoints is a first-in first-out queue in
    which an endpoint occurs at most once: from a queue that represents a list,
    pushing appends the endpoint unless it is there already, popping takes the
    front or reports an empty list, emptiness is reported exactly, and no
    operation runs out of bounds. *)
Theorem dirty_list_refines_queue d l id :
  represents d l -> valid_id id ->
  NoDup l /\ is_empty d = bool_decide (l = []) /\
  (exists d', push_back id d = Some d' /\
     represents d' (if decide (id ∈ l) then l else l ++ [id])) /\
  (exists d', pop_front d = Some (d', list.head l) /\ represents d' (list.tail l)).
Proof.
  intros Hr Hid. split_and!; [apply Hr|by apply is_empty_represents| |by apply pop_front_represents].
  by apply push_back_represents.
Qed.

Lemma dirty_list_refines_queue_witness :
  (push_back 3 new ≫= push_back 1) ≫= pop_front =
    Some (mkDirty 1 1 (replicate 4 DIRTY_NONE) [false; true; false; false], Some 3) /\
  (exists d', push_back 3 new = Some d' /\
     represents d' (if decide (3 ∈ ([] : list Z)) then [] else [] ++ [3])).
Proof.
  split; [vm_compute; reflexivity|].
  apply (dirty_list_refines_queue new [] 3); [exact new_represents|done].
Defined.

End DirtyList.
