(* ===== verification/Dc.v ===== *)
(** * Dc: the dynamically-connected transport of [copyrpc/src/dc.rs]

    The endpoint of the DC transport.  Unlike the RC one it sends a batch as one
    scatter entry through a DCI shared by all endpoints, carries the batch length
    in the batch header and not in the immediate value (which names the receiving
    endpoint), and defers the wrap at the end of a cycle to the next flush.
    Debug assertions are kept: they panic, as in a debug build.  [None] is a
    panic or a raw-pointer access outside a ring. *)
From S2P Require Import Prelude FastMap Encoding Ring SendQueue Rc Wqe Emit DirtyList.

Module Dc.
Import Encoding DirtyList.

Notation Error := Rc.Error.
Notation CallError := Rc.CallError.
Notation RemoteRingInfo := Rc.RemoteRingInfo.

Definition BATCH_HEADER_SIZE : Z := 32.
Definition DC_HEADER_SIZE : Z := 8.
Definition CREDIT_RETURN_RESERVE : Z := BATCH_HEADER_SIZE.
Definition SIGNAL_INTERVAL_MASK : Z := 7.

Definition dc_padded_message_size (payload_len : Z) : Z :=
  let total := DC_HEADER_SIZE + payload_len in
  Z.land (total + ALIGNMENT - 1) (not64 (ALIGNMENT - 1)).

Definition dc_encode_header (buf : list Z) (off : nat) (call_id payload_len : Z) : list Z :=
  write_bytes (write_bytes buf off (le_bytes 4 call_id)) (off + 4) (le_bytes 4 payload_len).

Definition dc_decode_header (buf : list Z) (off : nat) : Z * Z :=
  (le_value (read_bytes buf off 4), le_value (read_bytes buf (off + 4) 4)).

Definition encode_batch_header (buf : list Z) (off : nat)
    (delta ring_credit_return message_count : Z) : list Z :=
  let buf := write_bytes buf off (le_bytes 8 delta) in
  let buf := write_bytes buf (off + 8) (le_bytes 8 ring_credit_return) in
  let buf := write_bytes buf (off + 16) (le_bytes 4 message_count) in
  write_bytes buf (off + 20) (replicate 12 0).

Record RemoteDctInfo : Type := mkDct { rd_dctn : Z; rd_dc_key : Z; rd_dlid : Z }.

(** [struct RemoteEndpointInfo]. *)
Record RemoteEndpointInfo : Type := mkRemoteInfo {
  dct_number : Z;
  dc_key : Z;
  local_identifier : Z;
  recv_ring_addr : Z;
  recv_ring_rkey : Z;
  recv_ring_size : Z;
  initial_credit : Z;
  info_endpoint_id : Z;
}.

(** [struct LocalEndpointInfo]. *)
Record LocalEndpointInfo : Type := mkLocalInfo {
  l_dct_number : Z;
  l_dc_key : Z;
  l_recv_ring_addr : Z;
  l_recv_ring_rkey : Z;
  l_recv_ring_size : Z;
  l_initial_credit : Z;
  l_endpoint_id : Z;
}.

(** The send queue of the DCI; its table holds endpoint numbers. *)
Definition Dci : Type := Emit.EmitContext Z.

(** [struct EndpointInner<U>]. *)
Record EndpointInner (Slab : Type -> Type) (U : Type) : Type := mkEp {
  endpoint_id : Z;
  send_ring : list Z;
  send_mr_addr : Z;
  send_mr_lkey : Z;
  recv_ring : list Z;
  recv_mr_addr : Z;
  recv_mr_rkey : Z;
  remote_recv_ring : option RemoteRingInfo;
  remote_dct : option RemoteDctInfo;
  remote_endpoint_id : Z;
  send_ring_producer : Z;
  recv_ring_producer : Z;
  last_recv_pos : Z;
  last_notified_recv_pos : Z;
  remote_consumer_pos : Z;
  pending_calls : Slab U;
  flush_start_pos : Z;
  meta_pos : Z;
  batch_message_count : Z;
  wrap_pending : bool;
  unsignaled_count : Z;
  newly_signaled_count : Z;
}.
Arguments mkEp {Slab U}.
Arguments endpoint_id {Slab U} _.
Arguments send_ring {Slab U} _.
Arguments send_mr_addr {Slab U} _.
Arguments send_mr_lkey {Slab U} _.
Arguments recv_ring {Slab U} _.
Arguments recv_mr_addr {Slab U} _.
Arguments recv_mr_rkey {Slab U} _.
Arguments remote_recv_ring {Slab U} _.
Arguments remote_dct {Slab U} _.
Arguments remote_endpoint_id {Slab U} _.
Arguments send_ring_producer {Slab U} _.
Arguments recv_ring_producer {Slab U} _.
Arguments last_recv_pos {Slab U} _.
Arguments last_notified_recv_pos {Slab U} _.
Arguments remote_consumer_pos {Slab U} _.
Arguments pending_calls {Slab U} _.
Arguments flush_start_pos {Slab U} _.
Arguments meta_pos {Slab U} _.
Arguments batch_message_count {Slab U} _.
Arguments wrap_pending {Slab U} _.
Arguments unsignaled_count {Slab U} _.
Arguments newly_signaled_count {Slab U} _.

Section Endpoint.
Context {Slab : Type -> Type} `{!SlabOps Slab} {U : Type}.
Implicit Types (e : EndpointInner Slab U) (q : option Dci).

Definition set_send_ring (v : list Z) (e : EndpointInner Slab U) : EndpointInner Slab U :=
  mkEp (endpoint_id e) v (send_mr_addr e) (send_mr_lkey e) (recv_ring e) (recv_mr_addr e)
    (recv_mr_rkey e) (remote_recv_ring e) (remote_dct e) (remote_endpoint_id e)
    (send_ring_producer e) (recv_ring_producer e) (last_recv_pos e) (last_notified_recv_pos e)
    (remote_consumer_pos e) (pending_calls e) (flush_start_pos e) (meta_pos e)
    (batch_message_count e) (wrap_pending e) (unsignaled_count e) (newly_signaled_count e).
Definition set_recv_ring (v : list Z) (e : EndpointInner Slab U) : EndpointInner Slab U :=
  mkEp (endpoint_id e) (send_ring e) (send_mr_addr e) (send_mr_lkey e) v (recv_mr_addr e)
    (recv_mr_rkey e) (remote_recv_ring e) (remote_dct e) (remote_endpoint_id e)
    (send_ring_producer e) (recv_ring_producer e) (last_recv_pos e) (last_notified_recv_pos e)
    (remote_consumer_pos e) (pending_calls e) (flush_start_pos e) (meta_pos e)
    (batch_message_count e) (wrap_pending e) (unsignaled_count e) (newly_signaled_count e).
Definition set_remote_recv_ring (v : option RemoteRingInfo) (e : EndpointInner Slab U) : EndpointInner Slab U :=
  mkEp (endpoint_id e) (send_ring e) (send_mr_addr e) (send_mr_lkey e) (recv_ring e)
    (recv_mr_addr e) (recv_mr_rkey e) v (remote_dct e) (remote_endpoint_id e)
    (send_ring_producer e) (recv_ring_producer e) (last_recv_pos e) (last_notified_recv_pos e)
    (remote_consumer_pos e) (pending_calls e) (flush_start_pos e) (meta_pos e)
    (batch_message_count e) (wrap_pending e) (unsignaled_count e) (newly_signaled_count e).
Definition set_remote_dct (v : option RemoteDctInfo) (e : EndpointInner Slab U) : EndpointInner Slab U :=
  mkEp (endpoint_id e) (send_ring e) (send_mr_addr e) (send_mr_lkey e) (recv_ring e)
    (recv_mr_addr e) (recv_mr_rkey e) (remote_recv_ring e) v (remote_endpoint_id e)
    (send_ring_producer e) (recv_ring_producer e) (last_recv_pos e) (last_notified_recv_pos e)
    (remote_consumer_pos e) (pending_calls e) (flush_start_pos e) (meta_pos e)
    (batch_message_count e) (wrap_pending e) (unsignaled_count e) (newly_signaled_count e).
Definition set_remote_endpoint_id (v : Z) (e : EndpointInner Slab U) : EndpointInner Slab U :=
  mkEp (endpoint_id e) (send_ring e) (send_mr_addr e) (send_mr_lkey e) (recv_ring e)
    (recv_mr_addr e) (recv_mr_rkey e) (remote_recv_ring e) (remote_dct e) v
    (send_ring_producer e) (recv_ring_producer e) (last_recv_pos e) (last_notified_recv_pos e)
    (remote_consumer_pos e) (pending_calls e) (flush_start_pos e) (meta_pos e)
    (batch_message_count e) (wrap_pending e) (unsignaled_count e) (newly_signaled_count e).
Definition set_send_ring_producer (v : Z) (e : EndpointInner Slab U) : EndpointInner Slab U :=
  mkEp (endpoint_id e) (send_ring e) (send_mr_addr e) (send_mr_lkey e) (recv_ring e)
    (recv_mr_addr e) (recv_mr_rkey e) (remote_recv_ring e) (remote_dct e) (remote_endpoint_id e)
    v (recv_ring_producer e) (last_recv_pos e) (last_notified_recv_pos e)
    (remote_consumer_pos e) (pending_calls e) (flush_start_pos e) (meta_pos e)
    (batch_message_count e) (wrap_pending e) (unsignaled_count e) (newly_signaled_count e).
Definition set_recv_ring_producer (v : Z) (e : EndpointInner Slab U) : EndpointInner Slab U :=
  mkEp (endpoint_id e) (send_ring e) (send_mr_addr e) (send_mr_lkey e) (recv_ring e)
    (recv_mr_addr e) (recv_mr_rkey e) (remote_recv_ring e) (remote_dct e) (remote_endpoint_id e)
    (send_ring_producer e) v (last_recv_pos e) (last_notified_recv_pos e)
    (remote_consumer_pos e) (pending_calls e) (flush_start_pos e) (meta_pos e)
    (batch_message_count e) (wrap_pending e) (unsignaled_count e) (newly_signaled_count e).
Definition set_last_recv_pos (v : Z) (e : EndpointInner Slab U) : EndpointInner Slab U :=
  mkEp (endpoint_id e) (send_ring e) (send_mr_addr e) (send_mr_lkey e) (recv_ring e)
    (recv_mr_addr e) (recv_mr_rkey e) (remote_recv_ring e) (remote_dct e) (remote_endpoint_id e)
    (send_ring_producer e) (recv_ring_producer e) v (last_notified_recv_pos e)
    (remote_consumer_pos e) (pending_calls e) (flush_start_pos e) (meta_pos e)
    (batch_message_count e) (wrap_pending e) (unsignaled_count e) (newly_signaled_count e).
Definition set_last_notified_recv_pos (v : Z) (e : EndpointInner Slab U) : EndpointInner Slab U :=
  mkEp (endpoint_id e) (send_ring e) (send_mr_addr e) (send_mr_lkey e) (recv_ring e)
    (recv_mr_addr e) (recv_mr_rkey e) (remote_recv_ring e) (remote_dct e) (remote_endpoint_id e)
    (send_ring_producer e) (recv_ring_producer e) (last_recv_pos e) v (remote_consumer_pos e)
    (pending_calls e) (flush_start_pos e) (meta_pos e) (batch_message_count e) (wrap_pending e)
    (unsignaled_count e) (newly_signaled_count e).
Definition set_remote_consumer_pos (v : Z) (e : EndpointInner Slab U) : EndpointInner Slab U :=
  mkEp (endpoint_id e) (send_ring e) (send_mr_addr e) (send_mr_lkey e) (recv_ring e)
    (recv_mr_addr e) (recv_mr_rkey e) (remote_recv_ring e) (remote_dct e) (remote_endpoint_id e)
    (send_ring_producer e) (recv_ring_producer e) (last_recv_pos e) (last_notified_recv_pos e) v
    (pending_calls e) (flush_start_pos e) (meta_pos e) (batch_message_count e) (wrap_pending e)
    (unsignaled_count e) (newly_signaled_count e).
Definition set_pending_calls (v : Slab U) (e : EndpointInner Slab U) : EndpointInner Slab U :=
  mkEp (endpoint_id e) (send_ring e) (send_mr_addr e) (send_mr_lkey e) (recv_ring e)
    (recv_mr_addr e) (recv_mr_rkey e) (remote_recv_ring e) (remote_dct e) (remote_endpoint_id e)
    (send_ring_producer e) (recv_ring_producer e) (last_recv_pos e) (last_notified_recv_pos e)
    (remote_consumer_pos e) v (flush_start_pos e) (meta_pos e) (batch_message_count e)
    (wrap_pending e) (unsignaled_count e) (newly_signaled_count e).
Definition set_flush_start_pos (v : Z) (e : EndpointInner Slab U) : EndpointInner Slab U :=
  mkEp (endpoint_id e) (send_ring e) (send_mr_addr e) (send_mr_lkey e) (recv_ring e)
    (recv_mr_addr e) (recv_mr_rkey e) (remote_recv_ring e) (remote_dct e) (remote_endpoint_id e)
    (send_ring_producer e) (recv_ring_producer e) (last_recv_pos e) (last_notified_recv_pos e)
    (remote_consumer_pos e) (pending_calls e) v (meta_pos e) (batch_message_count e)
    (wrap_pending e) (unsignaled_count e) (newly_signaled_count e).
Definition set_meta_pos (v : Z) (e : EndpointInner Slab U) : EndpointInner Slab U :=
  mkEp (endpoint_id e) (send_ring e) (send_mr_addr e) (send_mr_lkey e) (recv_ring e)
    (recv_mr_addr e) (recv_mr_rkey e) (remote_recv_ring e) (remote_dct e) (remote_endpoint_id e)
    (send_ring_producer e) (recv_ring_producer e) (last_recv_pos e) (last_notified_recv_pos e)
    (remote_consumer_pos e) (pending_calls e) (flush_start_pos e) v (batch_message_count e)
    (wrap_pending e) (unsignaled_count e) (newly_signaled_count e).
Definition set_batch_message_count (v : Z) (e : EndpointInner Slab U) : EndpointInner Slab U :=
  mkEp (endpoint_id e) (send_ring e) (send_mr_addr e) (send_mr_lkey e) (recv_ring e)
    (recv_mr_addr e) (recv_mr_rkey e) (remote_recv_ring e) (remote_dct e) (remote_endpoint_id e)
    (send_ring_producer e) (recv_ring_producer e) (last_recv_pos e) (last_notified_recv_pos e)
    (remote_consumer_pos e) (pending_calls e) (flush_start_pos e) (meta_pos e) v
    (wrap_pending e) (unsignaled_count e) (newly_signaled_count e).
Definition set_wrap_pending (v : bool) (e : EndpointInner Slab U) : EndpointInner Slab U :=
  mkEp (endpoint_id e) (send_ring e) (send_mr_addr e) (send_mr_lkey e) (recv_ring e)
    (recv_mr_addr e) (recv_mr_rkey e) (remote_recv_ring e) (remote_dct e) (remote_endpoint_id e)
    (send_ring_producer e) (recv_ring_producer e) (last_recv_pos e) (last_notified_recv_pos e)
    (remote_consumer_pos e) (pending_calls e) (flush_start_pos e) (meta_pos e)
    (batch_message_count e) v (unsignaled_count e) (newly_signaled_count e).
Definition set_unsignaled_count (v : Z) (e : EndpointInner Slab U) : EndpointInner Slab U :=
  mkEp (endpoint_id e) (send_ring e) (send_mr_addr e) (send_mr_lkey e) (recv_ring e)
    (recv_mr_addr e) (recv_mr_rkey e) (remote_recv_ring e) (remote_dct e) (remote_endpoint_id e)
    (send_ring_producer e) (recv_ring_producer e) (last_recv_pos e) (last_notified_recv_pos e)
    (remote_consumer_pos e) (pending_calls e) (flush_start_pos e) (meta_pos e)
    (batch_message_count e) (wrap_pending e) v (newly_signaled_count e).
Definition set_newly_signaled_count (v : Z) (e : EndpointInner Slab U) : EndpointInner Slab U :=
  mkEp (endpoint_id e) (send_ring e) (send_mr_addr e) (send_mr_lkey e) (recv_ring e)
    (recv_mr_addr e) (recv_mr_rkey e) (remote_recv_ring e) (remote_dct e) (remote_endpoint_id e)
    (send_ring_producer e) (recv_ring_producer e) (last_recv_pos e) (last_notified_recv_pos e)
    (remote_consumer_pos e) (pending_calls e) (flush_start_pos e) (meta_pos e)
    (batch_message_count e) (wrap_pending e) (unsignaled_count e) v.

Definition send_ring_len e : Z := Z.of_nat (length (send_ring e)).
Definition recv_ring_len e : Z := Z.of_nat (length (recv_ring e)).

(** [EndpointInner::new]; addresses and keys of the memory regions come from the
    device. *)
Definition endpoint_new (cfg_send cfg_recv id saddr slkey raddr rrkey : Z)
    : EndpointInner Slab U :=
  mkEp id (replicate (Z.to_nat (Ring.next_power_of_two cfg_send)) 0) saddr slkey
    (replicate (Z.to_nat (Ring.next_power_of_two cfg_recv)) 0) raddr rrkey
    None None 0 0 0 0 0 0 (slab_new U) 0 0 0 false 0 0.

(** [local_info], with the DCT number and key of the context. *)
Definition local_info e (dctn key : Z) : LocalEndpointInfo :=
  mkLocalInfo dctn key (recv_mr_addr e) (recv_mr_rkey e) (recv_ring_len e)
    (recv_ring_len e / 2) (endpoint_id e).

Definition has_cycle_room_for e (msg_size : Z) : bool :=
  let ring_size := send_ring_len e in
  let meta_offset := Z.land (meta_pos e) (ring_size - 1) in
  let batch_end := u64 (u64 (send_ring_producer e + msg_size) - meta_pos e) in
  u64 (meta_offset + batch_end) <? ring_size.

Definition prepare_next_batch e : EndpointInner Slab U :=
  let producer := send_ring_producer e in
  let e := set_meta_pos producer e in
  let e := set_batch_message_count 0 e in
  set_send_ring_producer (u64 (producer + BATCH_HEADER_SIZE)) e.

Definition emit_batch e q (message_count : Z)
    : option (EndpointInner Slab U * option Dci * result unit Error) :=
  match remote_recv_ring e, remote_dct e with
  | None, _ => Some (e, q, Err Rc.RemoteConsumerUnknown)
  | Some _, None => Some (e, q, Err Rc.RemoteConsumerUnknown)
  | Some remote_ring, Some rd =>
      let start := flush_start_pos e in
      let stop := send_ring_producer e in
      let delta := u64 (stop - start) in
      let ring_credit_return := u64 (last_recv_pos e - last_notified_recv_pos e) in
      let e := set_last_notified_recv_pos (last_recv_pos e) e in
      let ring_mask := send_ring_len e - 1 in
      let start_offset := Z.land start ring_mask in
      if send_ring_len e <? start_offset + BATCH_HEADER_SIZE then None
      else
        let e := set_send_ring (encode_batch_header (send_ring e) (Z.to_nat start_offset) delta
                                  ring_credit_return message_count) e in
        let local_addr := u64 (send_mr_addr e + start_offset) in
        let sge_len := u32 delta in
        let remote_offset := Z.land start (Rc.size remote_ring - 1) in
        let remote_addr := u64 (Rc.addr remote_ring + remote_offset) in
        let imm := remote_endpoint_id e in
        if negb ((flush_start_pos e =? meta_pos e) &&
                 (remote_offset + delta <=? Rc.size remote_ring) &&
                 (start_offset + delta <=? send_ring_len e)) then None
        else
          match q with
          | None => Some (e, q, Err (Rc.Io Rc.DirectAccessNotInitialized))
          | Some ctx =>
              let av := Emit.mkDcAv (rd_dc_key rd) (rd_dctn rd) (rd_dlid rd) in
              let next_count := u32 (unsignaled_count e + 1) in
              let should_signal := Z.land next_count SIGNAL_INTERVAL_MASK =? 0 in
              match Emit.emit_dci_write_imm_sge ctx av 0
                      (SendQueue.mkRdma remote_addr (Rc.rkey remote_ring)) imm
                      (SendQueue.mkSge local_addr sge_len (send_mr_lkey e))
                      (if should_signal then Some (endpoint_id e) else None) with
              | (ctx, Err SendQueue.SqFull) => Some (e, Some ctx, Err Rc.RingFull)
              | (ctx, Err err) => Some (e, Some ctx, Err (Rc.Io (Rc.Submission err)))
              | (ctx, Ok _) =>
                  let e :=
                    if should_signal then
                      set_newly_signaled_count
                        (Z.min U32_MAX (newly_signaled_count e + 1)) (set_unsignaled_count 0 e)
                    else set_unsignaled_count next_count e in
                  Some (set_flush_start_pos stop e, Some ctx, Ok tt)
              end
          end
  end.

Definition take_newly_signaled_count e : Z * EndpointInner Slab U :=
  (newly_signaled_count e, set_newly_signaled_count 0 e).

Definition emit_wrap e q : option (EndpointInner Slab U * option Dci * result unit Error) :=
  let mpos := meta_pos e in
  let e := set_send_ring_producer mpos e in
  let ring_size := send_ring_len e in
  let offset := Z.land mpos (ring_size - 1) in
  let remaining := ring_size - offset in
  if remaining <? BATCH_HEADER_SIZE then None
  else
    let e := set_send_ring_producer (u64 (mpos + remaining)) e in
    match emit_batch e q WRAP_MESSAGE_COUNT with
    | Some (e, q, Ok _) => Some (prepare_next_batch e, q, Ok tt)
    | Some (e, q, Err err) => Some (e, q, Err err)
    | None => None
    end.

(** The credit-return-only batch at the end of [emit_pending]. *)
Definition emit_credit_only e q (emitted : bool)
    : option (EndpointInner Slab U * option Dci * result bool Error) :=
  if emitted then Some (e, q, Ok true)
  else
    let unreturned := u64 (last_recv_pos e - last_notified_recv_pos e) in
    if 0 <? unreturned then
      match emit_batch e q 0 with
      | Some (e, q, Ok _) => Some (prepare_next_batch e, q, Ok true)
      | Some (e, q, Err err) => Some (e, q, Err err)
      | None => None
      end
    else Some (e, q, Ok false).

(** The deferred wrap of [emit_pending], then the rest. *)
Definition emit_deferred_wrap e q (emitted : bool)
    : option (EndpointInner Slab U * option Dci * result bool Error) :=
  if wrap_pending e then
    match emit_wrap e q with
    | Some (e, q, Ok _) => emit_credit_only (set_wrap_pending false e) q true
    | Some (e, q, Err err) => Some (e, q, if emitted then Ok true else Err err)
    | None => None
    end
  else emit_credit_only e q emitted.

Definition emit_pending e q : option (EndpointInner Slab U * option Dci * result bool Error) :=
  if 0 <? batch_message_count e then
    match emit_batch e q (batch_message_count e) with
    | Some (e, q, Ok _) => emit_deferred_wrap (prepare_next_batch e) q true
    | Some (e, q, Err err) => Some (e, q, Err err)
    | None => None
    end
  else emit_deferred_wrap e q false.

Definition has_pending_flush e : bool := wrap_pending e || (0 <? batch_message_count e).

Definition connect e (remote : RemoteEndpointInfo) : EndpointInner Slab U :=
  let e := set_remote_recv_ring (Some (Rc.mkRemote (recv_ring_addr remote)
             (recv_ring_rkey remote) (recv_ring_size remote))) e in
  let e := set_remote_dct (Some (mkDct (dct_number remote) (dc_key remote)
             (local_identifier remote))) e in
  let e := set_remote_endpoint_id (info_endpoint_id remote) e in
  let e := set_remote_consumer_pos 0 e in
  prepare_next_batch e.

(** The space check [call] and [reply] share: the bytes still free in the remote
    ring, less the reserve for a credit-return batch. *)
Definition remote_available e (remote_ring : RemoteRingInfo) : Z :=
  let in_flight := saturating_sub (send_ring_producer e) (remote_consumer_pos e) in
  saturating_sub (Rc.size remote_ring) (u64 (in_flight + CREDIT_RETURN_RESERVE)).

(** Header and payload stored at the producer position, the message counted. *)
Definition append_message e (call_id : Z) (data : list Z) (msg_size : Z)
    : option (EndpointInner Slab U) :=
  let producer := send_ring_producer e in
  let send_offset := Z.land producer (send_ring_len e - 1) in
  if send_ring_len e <? send_offset + DC_HEADER_SIZE + Z.of_nat (length data) then None
  else
    let ring := dc_encode_header (send_ring e) (Z.to_nat send_offset) call_id
                  (u32 (Z.of_nat (length data))) in
    let ring := write_bytes ring (Z.to_nat send_offset + Z.to_nat DC_HEADER_SIZE) data in
    let e := set_send_ring ring e in
    let e := set_send_ring_producer (u64 (producer + msg_size)) e in
    Some (set_batch_message_count (u32 (batch_message_count e + 1)) e).

(** [Endpoint::call]; [dl] is the list of dirty endpoints shared with the context. *)
Definition call e (dl : DirtyEndpointList) (data : list Z) (user_data : U)
    : option (EndpointInner Slab U * DirtyEndpointList * result Z (CallError U)) :=
  match remote_recv_ring e with
  | None => Some (e, dl, Err (Rc.CallOther Rc.RemoteConsumerUnknown))
  | Some remote_ring =>
      let msg_size := dc_padded_message_size (u32 (Z.of_nat (length data))) in
      if negb (has_cycle_room_for e msg_size) then
        let e := set_wrap_pending true e in
        match push_back (endpoint_id e) dl with
        | Some dl => Some (e, dl, Err (Rc.CallRingFull user_data))
        | None => None
        end
      else if remote_available e remote_ring <? msg_size then
        match push_back (endpoint_id e) dl with
        | Some dl => Some (e, dl, Err (Rc.CallRingFull user_data))
        | None => None
        end
      else
        let '(key, slab) := slab_insert (pending_calls e) user_data in
        let call_id := u32 key in
        match append_message (set_pending_calls slab e) call_id data msg_size with
        | Some e =>
            match push_back (endpoint_id e) dl with
            | Some dl => Some (e, dl, Ok call_id)
            | None => None
            end
        | None => None
        end
  end.

(** [RecvHandle::reply]; [call_id] is the handle's field. *)
Definition reply e (dl : DirtyEndpointList) (call_id : Z) (data : list Z)
    : option (EndpointInner Slab U * DirtyEndpointList * result unit Error) :=
  match remote_recv_ring e with
  | None => Some (e, dl, Err Rc.RemoteConsumerUnknown)
  | Some remote_ring =>
      let msg_size := dc_padded_message_size (u32 (Z.of_nat (length data))) in
      if negb (has_cycle_room_for e msg_size) then
        let e := set_wrap_pending true e in
        match push_back (endpoint_id e) dl with
        | Some dl => Some (e, dl, Err Rc.RingFull)
        | None => None
        end
      else if remote_available e remote_ring <? msg_size then
        match push_back (endpoint_id e) dl with
        | Some dl => Some (e, dl, Err Rc.RingFull)
        | None => None
        end
      else
        match append_message e (to_response_id call_id) data msg_size with
        | Some e =>
            match push_back (endpoint_id e) dl with
            | Some dl => Some (e, dl, Ok tt)
            | None => None
            end
        | None => None
        end
  end.

(** ** Receive path *)

(** [struct RecvMessage<U>], the endpoint being named by its number. *)
Record RecvMessage : Type := mkRecv {
  msg_endpoint_id : Z;
  msg_call_id : Z;
  data_offset : Z;
  data_len : Z;
}.

(** The endpoint, the stack of received requests (last pushed first) and the
    responses handed to [on_response]. *)
Record RecvState : Type := mkRecvState {
  rs_ep : EndpointInner Slab U;
  rs_stack : list RecvMessage;
  rs_responses : list (U * list Z);
}.

(** One iteration of the message loop of [process_cqe_static]. *)
Definition process_message (id : Z) (st : RecvState) : option RecvState :=
  let e := rs_ep st in
  let pos := last_recv_pos e in
  let header_offset := Z.land pos (recv_ring_len e - 1) in
  if recv_ring_len e <? header_offset + DC_HEADER_SIZE then None
  else
    let '(cid, payload_len) := dc_decode_header (recv_ring e) (Z.to_nat header_offset) in
    let msg_size := dc_padded_message_size payload_len in
    let e := set_last_recv_pos (u64 (pos + msg_size)) e in
    if is_response cid then
      let '(user_data, slab) := slab_try_remove (pending_calls e) (from_response_id cid) in
      let e := set_pending_calls slab e in
      match user_data with
      | Some u =>
          let off := header_offset + DC_HEADER_SIZE in
          match slice (recv_ring e) off (off + payload_len) with
          | Some data => Some (mkRecvState e (rs_stack st) (rs_responses st ++ [(u, data)]))
          | None => None
          end
      | None => Some (mkRecvState e (rs_stack st) (rs_responses st))
      end
    else
      Some (mkRecvState e
              (mkRecv id cid (header_offset + DC_HEADER_SIZE) payload_len :: rs_stack st)
              (rs_responses st)).

Fixpoint process_messages (id : Z) (n : nat) (st : RecvState) : option RecvState :=
  match n with
  | O => Some st
  | S n => match process_message id st with
           | Some st => process_messages id n st
           | None => None
           end
  end.

(** [process_cqe_static], once the endpoint has been found. *)
Definition process_cqe (id : Z) (st : RecvState) : option RecvState :=
  let e := rs_ep st in
  let pos := last_recv_pos e in
  let meta_offset := Z.land pos (recv_ring_len e - 1) in
  if recv_ring_len e <? meta_offset + 20 then None
  else
    let off := Z.to_nat meta_offset in
    let delta := le_value (read_bytes (recv_ring e) off 8) in
    let ring_credit_return := le_value (read_bytes (recv_ring e) (off + 8) 8) in
    let message_count := le_value (read_bytes (recv_ring e) (off + 16) 4) in
    let e := set_recv_ring_producer (u64 (recv_ring_producer e + delta)) e in
    let e := set_remote_consumer_pos (u64 (remote_consumer_pos e + ring_credit_return)) e in
    let e := set_last_recv_pos (u64 (pos + BATCH_HEADER_SIZE)) e in
    if message_count =? WRAP_MESSAGE_COUNT then
      let skip := u64 (delta - BATCH_HEADER_SIZE) in
      Some (mkRecvState (set_last_recv_pos (u64 (last_recv_pos e + skip)) e)
              (rs_stack st) (rs_responses st))
    else process_messages id (Z.to_nat message_count) (mkRecvState e (rs_stack st) (rs_responses st)).

End Endpoint.
End Dc.
