(* ===== verification/DcProps.v ===== *)
(** * DcProps: batches of the DC transport from sender to receiver

    The endpoint invariant with the open batch as an abstract list of messages,
    [call], [reply] and [emit_pending] against it, and the delivery of a batch:
    the bytes of the posted work request, executed by the device, put exactly the
    batch in the receiver's ring, and the receive path decodes it. *)
From S2P Require Import Prelude FastMap Encoding Ring SendQueue Rc RcProps Wqe Emit DirtyList Dc.

Module DcProps.
Import Encoding DirtyList Dc.

(** ** Messages in a ring *)

(** A message: call number as on the wire, payload. *)
Definition Msg : Type := Z * list Z.

Definition msg_ok (m : Msg) : Prop := is_uint 32 (fst m) /\ Z.of_nat (length (snd m)) < 2 ^ 31.
Definition msg_size (m : Msg) : Z := dc_padded_message_size (Z.of_nat (length (snd m))).
Definition msg_bytes (m : Msg) : list Z :=
  le_bytes 4 (fst m) ++ le_bytes 4 (Z.of_nat (length (snd m))) ++ snd m.

Fixpoint batch_size (ms : list Msg) : Z :=
  match ms with [] => 0 | m :: ms => msg_size m + batch_size ms end.

(** The messages lie one after the other from offset [off]. *)
Fixpoint msgs_at (ring : list Z) (off : Z) (ms : list Msg) : Prop :=
  match ms with
  | [] => True
  | m :: ms =>
      read_bytes ring (Z.to_nat off) (8 + length (snd m)) = msg_bytes m /\
      msgs_at ring (off + msg_size m) ms
  end.

Lemma dc_padded_spec n :
  0 <= n < 2 ^ 32 ->
  8 + n <= dc_padded_message_size n < 8 + n + 32 /\ dc_padded_message_size n mod 32 = 0 /\
  32 <= dc_padded_message_size n.
Proof.
  intros Hn. pose proof (align_up_mask_spec (8 + n) 5) as H. unfold align_up_mask in H.
  change (2 ^ 5) with 32 in H. unfold dc_padded_message_size, DC_HEADER_SIZE, ALIGNMENT.
  destruct H as [H1 H2]; [lia..|]. split; [lia|]. split; [done|].
  destruct (decide (32 <= Z.land (8 + n + 32 - 1) (not64 (32 - 1)))); [done|].
  rewrite Z.mod_small in H2; lia.
Qed.

Lemma dc_msg_size_spec m :
  msg_ok m ->
  8 + Z.of_nat (length (snd m)) <= msg_size m /\ 32 <= msg_size m /\ msg_size m mod 32 = 0.
Proof.
  intros [_ Hl]. pose proof (dc_padded_spec (Z.of_nat (length (snd m)))). unfold msg_size. lia.
Qed.

Lemma batch_size_spec ms :
  Forall msg_ok ms ->
  32 * Z.of_nat (length ms) <= batch_size ms /\ batch_size ms mod 32 = 0.
Proof.
  induction 1 as [|m ms Hm _ [IH1 IH2]]; cbn [batch_size length]; [done|].
  pose proof (dc_msg_size_spec m Hm) as (? & ? & ?). split; [lia|]. by apply aligned_add.
Qed.

Lemma batch_size_app a b : batch_size (a ++ b) = batch_size a + batch_size b.
Proof. induction a as [|m a IH]; cbn; [done|]. rewrite IH. lia. Qed.

Lemma dc_length_msg_bytes m : length (msg_bytes m) = (8 + length (snd m))%nat.
Proof. unfold msg_bytes. rewrite !length_app, !length_le_bytes. lia. Qed.

Lemma dc_msgs_at_ext ring ring' off off' ms :
  Forall msg_ok ms -> 0 <= off -> 0 <= off' ->
  (forall j, 0 <= j < batch_size ms ->
    ring' !! Z.to_nat (off' + j) = ring !! Z.to_nat (off + j)) ->
  msgs_at ring off ms -> msgs_at ring' off' ms.
Proof.
  intros Hms. revert off off'. induction Hms as [|m ms Hm Hms IH]; intros off off' Ho Ho' He; [done|].
  cbn [msgs_at batch_size] in *. pose proof (dc_msg_size_spec m Hm) as (H1 & H2 & _).
  pose proof (batch_size_spec ms Hms) as [H3 _].
  intros [E Hr]. split.
  - rewrite <-E. apply read_bytes_ext. intros i Hi.
    specialize (He (Z.of_nat i)).
    replace (Z.to_nat off' + i)%nat with (Z.to_nat (off' + Z.of_nat i)) by lia.
    replace (Z.to_nat off + i)%nat with (Z.to_nat (off + Z.of_nat i)) by lia. apply He. lia.
  - apply (IH (off + msg_size m)); try lia; [|done]. intros j Hj.
    specialize (He (msg_size m + j)). rewrite !Z.add_assoc in He. apply He. lia.
Qed.

Lemma msgs_at_snoc ring off ms m :
  msgs_at ring off ms ->
  read_bytes ring (Z.to_nat (off + batch_size ms)) (8 + length (snd m)) = msg_bytes m ->
  msgs_at ring off (ms ++ [m]).
Proof.
  revert off. induction ms as [|m' ms IH]; intros off H E; cbn in *.
  - by rewrite Z.add_0_r in E.
  - destruct H as [H1 H2]. split; [done|]. apply IH; [done|]. by rewrite <-Z.add_assoc.
Qed.

(** A decoded header. *)
Lemma dc_decode_at ring off m :
  msg_ok m -> read_bytes ring off (8 + length (snd m)) = msg_bytes m ->
  dc_decode_header ring off = (fst m, Z.of_nat (length (snd m))).
Proof.
  intros [Hc Hl] E. unfold dc_decode_header.
  assert (read_bytes ring off 4 = le_bytes 4 (fst m)) as ->.
  { rewrite <-(Nat.add_0_r off), <-(read_bytes_read ring off (8 + length (snd m))) by lia.
    rewrite E. unfold msg_bytes. apply read_le_bytes. }
  assert (read_bytes ring (off + 4) 4 = le_bytes 4 (Z.of_nat (length (snd m)))) as ->.
  { rewrite <-(read_bytes_read ring off (8 + length (snd m))) by lia.
    rewrite E. unfold msg_bytes. rewrite read_bytes_app_r by (rewrite length_le_bytes; lia).
    rewrite length_le_bytes. apply read_le_bytes. }
  rewrite !le_value_u32. rewrite !u32_small; unfold is_uint in *; try lia. done.
Qed.

Lemma payload_at ring off m :
  read_bytes ring off (8 + length (snd m)) = msg_bytes m ->
  read_bytes ring (off + 8) (length (snd m)) = snd m.
Proof.
  intros E. rewrite <-(read_bytes_read ring off (8 + length (snd m))) by lia.
  rewrite E. unfold msg_bytes. rewrite app_assoc.
  rewrite read_bytes_app_r by (rewrite length_app, !length_le_bytes; lia).
  rewrite length_app, !length_le_bytes. apply read_bytes_all.
Qed.

(** ** The endpoint and its open batch *)

Section Sender.
Context {Slab : Type -> Type} `{!SlabOps Slab, !SlabLaws Slab} {U : Type}.
Implicit Types (e : EndpointInner Slab U).

(** Positions stay far from the 64-bit bound. *)
Definition POS_MAX : Z := 2 ^ 62.

Definition ring_size_ok (S : Z) : Prop := exists k, 6 <= k <= 31 /\ S = 2 ^ k.

(** The offset of the open batch in the ring. *)
Definition meta_off (S : Z) e : Z := meta_pos e mod S.

(** The batch under construction holds the messages [ms]. *)
Definition batch_open (S : Z) e (ms : list Msg) : Prop :=
  send_ring_producer e = meta_pos e + 32 + batch_size ms /\
  (if decide (ms = []) then True else meta_off S e + 32 + batch_size ms < S) /\
  msgs_at (send_ring e) (meta_off S e + 32) ms.

(** A wrap was prepared and refused by the send queue. *)
Definition wrap_refused (S : Z) e (ms : list Msg) : Prop :=
  ms = [] /\ wrap_pending e = true /\ send_ring_producer e = meta_pos e + (S - meta_off S e).

Record ep_ok (S : Z) e (ms : list Msg) : Prop := mkOk {
  ok_size : ring_size_ok S;
  ok_len : send_ring_len e = S;
  ok_pos : 0 <= meta_pos e < POS_MAX /\ meta_pos e mod 32 = 0;
  ok_flush : flush_start_pos e = meta_pos e;
  ok_count : batch_message_count e = Z.of_nat (length ms);
  ok_msgs : Forall msg_ok ms;
  ok_batch : batch_open S e ms \/ wrap_refused S e ms;
}.

Lemma ring_facts S : ring_size_ok S -> 64 <= S <= 2 ^ 31 /\ (32 | S) /\ S mod 32 = 0.
Proof.
  intros (k & Hk & ->). assert (2 ^ k = 2 ^ (k - 5) * 32) as E.
  { change 32 with (2 ^ 5). rewrite <-Z.pow_add_r by lia. f_equal. lia. }
  split; [split; [change 64 with (2 ^ 6)|]; apply Z.pow_le_mono_r; lia|].
  assert (32 | 2 ^ k) as Hd by (rewrite E; apply Z.divide_factor_r).
  split; [done|]. by apply Z.mod_divide.
Qed.

Lemma dc_ring_land S pos : ring_size_ok S -> Z.land pos (S - 1) = pos mod S.
Proof. intros (k & Hk & ->). apply land_mask. lia. Qed.

Lemma off_facts S pos :
  ring_size_ok S -> pos mod 32 = 0 -> 0 <= pos mod S /\ pos mod S + 32 <= S /\ (pos mod S) mod 32 = 0.
Proof.
  intros Hs Hp. pose proof (ring_facts S Hs) as (H1 & H2 & H3).
  pose proof (Z.mod_pos_bound pos S ltac:(lia)).
  assert ((pos mod S) mod 32 = 0) as Ha by by apply aligned_mod.
  assert (pos mod S + 32 <= S); [|lia].
  assert (pos mod S <= S - 32); [|lia].
  pose proof (aligned_sub 32 S (pos mod S) H3 Ha) as Hx.
  destruct (decide (S - pos mod S < 32)); [|lia].
  rewrite Z.mod_small in Hx; lia.
Qed.

(** Positions of one cycle: the offset moves with the position. *)
Lemma mod_in_cycle S p d : 0 < S -> 0 <= d -> p mod S + d < S -> (p + d) mod S = p mod S + d.
Proof.
  intros HS Hd Hlt. rewrite <-Z.add_mod_idemp_l by lia. apply Z.mod_small.
  pose proof (Z.mod_pos_bound p S HS). lia.
Qed.

Lemma batch_bounds S e ms :
  ep_ok S e ms -> batch_open S e ms ->
  meta_off S e + 32 + batch_size ms <= S /\ 0 <= batch_size ms.
Proof.
  intros Hok (_ & Hlt & _). pose proof (batch_size_spec ms (ok_msgs _ _ _ Hok)) as [H1 _].
  pose proof (off_facts S (meta_pos e) (ok_size _ _ _ Hok)) as Ho.
  destruct Hok as [Hs _ [_ Hal] _ _ _ _]. specialize (Ho Hal).
  unfold meta_off in *. case_decide; subst; cbn; lia.
Qed.

(** The producer stays within the cycle of the batch. *)
Lemma producer_bounds S e ms :
  ep_ok S e ms ->
  meta_pos e <= send_ring_producer e <= meta_pos e + (S - meta_off S e) /\
  send_ring_producer e mod 32 = 0.
Proof.
  intros Hok. pose proof Hok as [Hs Hl [Hp Ha] Hf Hc Hm Hb].
  pose proof (off_facts S (meta_pos e) Hs Ha) as (H1 & H2 & H3).
  pose proof (ring_facts S Hs) as (H4 & _ & H5).
  destruct Hb as [Ho|(-> & _ & ->)].
  - pose proof (batch_bounds S e ms Hok Ho) as [? ?].
    pose proof (batch_size_spec ms Hm) as [_ Hz]. destruct Ho as (-> & _).
    split; [lia|]. apply aligned_add; [by apply aligned_add|done].
  - unfold meta_off. split; [lia|]. apply aligned_add; [done|]. by apply aligned_sub.
Qed.

(** The room check of [call] and [reply], on the batch. *)
Lemma cycle_room S e ms n :
  ep_ok S e ms -> 0 <= n < 2 ^ 33 ->
  has_cycle_room_for e n = true ->
  batch_open S e ms /\ meta_off S e + 32 + batch_size ms + n < S.
Proof.
  intros Hok Hn. pose proof Hok as [Hs Hl [Hp Ha] Hf Hc Hm Hb].
  pose proof (producer_bounds S e ms Hok) as [Hpr _].
  pose proof (ring_facts S Hs) as (H4 & _ & H5).
  pose proof (off_facts S (meta_pos e) Hs Ha) as (H1 & H2 & H3). fold (meta_off S e) in *.
  unfold has_cycle_room_for. rewrite Hl, dc_ring_land by done. fold (meta_off S e).
  unfold POS_MAX in *. rewrite (u64_small (send_ring_producer e + n)) by lia.
  rewrite (u64_small (_ - _)) by lia. rewrite u64_small by lia.
  intros Hlt. guards. destruct Hb as [Ho|(-> & _ & Hw)]; [|lia].
  split; [done|]. destruct Ho as (Ho & _). lia.
Qed.

(** Header and payload stored as the bytes of the message. *)
Lemma encode_msg ring off m :
  (off + 8 + length (snd m) <= length ring)%nat ->
  write_bytes (dc_encode_header ring off (fst m) (Z.of_nat (length (snd m)))) (off + 8) (snd m)
  = write_bytes ring off (msg_bytes m).
Proof.
  intros Hl. unfold dc_encode_header, msg_bytes. set (a := le_bytes 4 _). set (b := le_bytes 4 _).
  assert (length a = 4%nat /\ length b = 4%nat) as [Ha Hb] by (subst a b; by rewrite !length_le_bytes).
  replace (off + 4)%nat with (off + length a)%nat by lia.
  rewrite write_bytes_app by lia.
  replace (off + 8)%nat with (off + length (a ++ b))%nat by (rewrite length_app; lia).
  rewrite write_bytes_app by (rewrite length_app; lia). by rewrite app_assoc.
Qed.

(** [append_message], its effect written out. *)
Definition appended S e (m : Msg) : EndpointInner Slab U :=
  set_batch_message_count (batch_message_count e + 1)
    (set_send_ring_producer (send_ring_producer e + msg_size m)
       (set_send_ring (write_bytes (send_ring e) (Z.to_nat (send_ring_producer e mod S))
                         (msg_bytes m)) e)).

Lemma append_spec S e ms m :
  ep_ok S e ms -> msg_ok m -> has_cycle_room_for e (msg_size m) = true ->
  append_message e (fst m) (snd m) (msg_size m) = Some (appended S e m) /\
  ep_ok S (appended S e m) (ms ++ [m]).
Proof.
  intros Hok Hm Hroom. pose proof (dc_msg_size_spec m Hm) as (M1 & M2 & M3).
  pose proof Hm as [Hcid Hlen].
  assert (msg_size m < 2 ^ 33) as M4
    by (pose proof (dc_padded_spec (Z.of_nat (length (snd m)))); unfold msg_size; lia).
  destruct (cycle_room S e ms (msg_size m) Hok) as [Ho Hlt]; [lia|done|].
  pose proof Hok as [Hs Hl [Hp Ha] Hf Hc Hms _].
  pose proof (ring_facts S Hs) as (R1 & _ & _).
  pose proof (off_facts S (meta_pos e) Hs Ha) as (O1 & O2 & _). fold (meta_off S e) in *.
  pose proof (batch_size_spec ms Hms) as [B1 _]. destruct Ho as (Hpr & _ & Hat).
  assert (send_ring_producer e mod S = meta_off S e + 32 + batch_size ms) as Hoff.
  { rewrite Hpr, <-Z.add_assoc. unfold meta_off in *. rewrite mod_in_cycle by lia. lia. }
  unfold send_ring_len in Hl. unfold POS_MAX in *. split.
  - unfold append_message, send_ring_len. rewrite Hl, dc_ring_land by done. rewrite Hoff.
    unfold DC_HEADER_SIZE. rewrite (proj2 (Z.ltb_ge _ _)) by lia.
    rewrite (u32_small (Z.of_nat _)) by lia. change (Z.to_nat 8) with 8%nat.
    rewrite encode_msg by lia.
    rewrite (u64_small (_ + _)) by lia. cbn [batch_message_count set_send_ring
      set_send_ring_producer]. rewrite u32_small by lia.
    unfold appended. by rewrite Hoff.
  - assert (length (write_bytes (send_ring e) (Z.to_nat (meta_off S e + 32 + batch_size ms))
      (msg_bytes m)) = length (send_ring e)) as Hlw by (apply length_write_bytes; lia).
    assert ((Z.to_nat (meta_off S e + 32 + batch_size ms) + length (msg_bytes m)
             <= length (send_ring e))%nat) as Hfit by (rewrite dc_length_msg_bytes; lia).
    split; try done.
    + unfold send_ring_len, appended. cbn [send_ring set_batch_message_count
        set_send_ring_producer set_send_ring]. by rewrite Hoff, Hlw.
    + cbn. rewrite Hc, length_app. cbn. lia.
    + by apply Forall_app; split; [|constructor].
    + left. unfold batch_open. rewrite batch_size_app. cbn [batch_size].
      change (meta_off S (appended S e m)) with (meta_off S e).
      split_and!; [cbn; lia|case_decide; [done|lia]|].
      change (send_ring (appended S e m)) with
        (write_bytes (send_ring e) (Z.to_nat (send_ring_producer e mod S)) (msg_bytes m)).
      rewrite Hoff. apply msgs_at_snoc.
      * apply (dc_msgs_at_ext (send_ring e) _ (meta_off S e + 32)); try done; try lia.
        intros j Hj. rewrite lookup_write_bytes, decide_False by lia. done.
      * rewrite <-dc_length_msg_bytes. apply read_write_same. lia.
Qed.

(** ** Calls and replies *)

(** What connects an endpoint to its peer, and stays. *)
Definition credit_ok e (rr : RemoteRingInfo) : Prop :=
  remote_recv_ring e = Some rr /\ 0 <= Rc.size rr <= 2 ^ 32 /\
  0 <= remote_consumer_pos e <= send_ring_producer e.

Lemma available_spec S e ms rr :
  ep_ok S e ms -> credit_ok e rr ->
  remote_available e rr =
    Z.max 0 (Rc.size rr - (send_ring_producer e - remote_consumer_pos e + 32)).
Proof.
  intros Hok (_ & Hsz & Hc). pose proof (producer_bounds S e ms Hok) as [Hp _].
  pose proof (ring_facts S (ok_size _ _ _ Hok)) as (H4 & _).
  pose proof (ok_pos _ _ _ Hok) as [Hm Ha].
  pose proof (off_facts S (meta_pos e) (ok_size _ _ _ Hok) Ha) as (O1 & _).
  unfold remote_available, CREDIT_RETURN_RESERVE, BATCH_HEADER_SIZE, POS_MAX, meta_off in *.
  rewrite (saturating_sub_le (send_ring_producer e)) by lia.
  rewrite u64_small by lia. done.
Qed.

Lemma ep_ok_ext S e e' ms :
  ep_ok S e ms -> send_ring e' = send_ring e -> meta_pos e' = meta_pos e ->
  flush_start_pos e' = flush_start_pos e -> batch_message_count e' = batch_message_count e ->
  send_ring_producer e' = send_ring_producer e ->
  (wrap_pending e = true -> wrap_pending e' = true) -> ep_ok S e' ms.
Proof.
  intros [Hs Hl [Hp Ha] Hf Hc Hms Hb] E1 E2 E3 E4 E5 E6.
  split; unfold send_ring_len, batch_open, wrap_refused, meta_off in *;
    rewrite ?E1, ?E2, ?E3, ?E4, ?E5; try done.
  destruct Hb as [Hb|(? & ? & ?)]; [by left|right; auto].
Qed.

(** The three ways a message is accepted or refused. *)
Inductive submit_case S e (ms : list Msg) (rr : RemoteRingInfo) (m : Msg)
    : EndpointInner Slab U -> bool -> Prop :=
| submit_wrap :
    S <= meta_off S e + (send_ring_producer e - meta_pos e) + msg_size m ->
    submit_case S e ms rr m (set_wrap_pending true e) false
| submit_credit :
    Rc.size rr < send_ring_producer e - remote_consumer_pos e + 32 + msg_size m ->
    submit_case S e ms rr m e false
| submit_ok :
    send_ring_producer e - remote_consumer_pos e + 32 + msg_size m <= Rc.size rr ->
    submit_case S e ms rr m (appended S e m) true.

Lemma no_cycle_room S e ms m :
  ep_ok S e ms -> msg_ok m -> has_cycle_room_for e (msg_size m) = false ->
  S <= meta_off S e + (send_ring_producer e - meta_pos e) + msg_size m.
Proof.
  intros Hok Hm. pose proof Hok as [Hs Hl [Hp Ha] Hf Hc Hms Hb].
  pose proof (producer_bounds S e ms Hok) as [Hpr _].
  pose proof (ring_facts S Hs) as (H4 & _ & H5).
  pose proof (off_facts S (meta_pos e) Hs Ha) as (H1 & H2 & H3). fold (meta_off S e) in *.
  pose proof (dc_padded_spec (Z.of_nat (length (snd m)))) as Hd. destruct Hm as [_ Hl2].
  unfold has_cycle_room_for. rewrite Hl, dc_ring_land by done. fold (meta_off S e).
  unfold POS_MAX, msg_size in *. set (n := dc_padded_message_size _) in *.
  rewrite (u64_small (send_ring_producer e + n)) by lia.
  rewrite (u64_small (_ - _)) by lia. rewrite u64_small by lia. intros Hge. guards. lia.
Qed.

(** The two checks of [call] and [reply] decide the case. *)
Lemma submit_decide S e ms rr m :
  ep_ok S e ms -> credit_ok e rr -> msg_ok m ->
  (has_cycle_room_for e (msg_size m) = false /\
     submit_case S e ms rr m (set_wrap_pending true e) false) \/
  (has_cycle_room_for e (msg_size m) = true /\
   (remote_available e rr <? msg_size m) = true /\ submit_case S e ms rr m e false) \/
  (has_cycle_room_for e (msg_size m) = true /\
   (remote_available e rr <? msg_size m) = false /\ submit_case S e ms rr m (appended S e m) true).
Proof.
  intros Hok Hcr Hm. pose proof (dc_msg_size_spec _ Hm) as (_ & M2 & _).
  rewrite (available_spec S e ms) by done.
  destruct (has_cycle_room_for e (msg_size m)) eqn:Hroom; [right|left].
  - destruct (_ <? msg_size m) eqn:Hav; guards; [left|right].
    + split_and!; try done. apply submit_credit. lia.
    + split_and!; try done. apply submit_ok. lia.
  - split; [done|]. apply submit_wrap. by apply (no_cycle_room S e ms).
Qed.

Lemma submit_refused_ok S e ms rr m e' :
  ep_ok S e ms -> submit_case S e ms rr m e' false -> ep_ok S e' ms.
Proof.
  intros Hok Hc. inversion Hc; subst; [|done]. by apply (ep_ok_ext S e).
Qed.

(** A DC call on a connected endpoint is refused, giving the user data back,
    exactly when the message does not fit the current cycle (then a wrap is
    scheduled) or when it would leave the remote ring without the bytes reserved
    for returning credit (then nothing changes); otherwise the message joins the
    open batch and the user data waits under the returned number.  The endpoint is
    queued for flushing in every case and the batch invariant holds. *)
Theorem dc_call_correct S e ms rr dl l data u :
  ep_ok S e ms -> credit_ok e rr -> Z.of_nat (length data) < 2 ^ 31 ->
  (slab_insert (pending_calls e) u).1 < 2 ^ 31 ->
  represents dl l -> valid_id (endpoint_id e) ->
  exists e' dl' r,
    call e dl data u = Some (e', dl', r) /\ represents dl' (enqueue (endpoint_id e) l) /\
    match r with
    | Err err => err = Rc.CallRingFull u /\ ep_ok S e' ms /\
                 submit_case S e ms rr (0, data) e' false
    | Ok id =>
        let m := (id, data) in
        slab_get (pending_calls e) id = None /\
        (forall k, slab_get (pending_calls e') k =
           if decide (k = id) then Some u else slab_get (pending_calls e) k) /\
        ep_ok S e' (ms ++ [m]) /\
        submit_case S (set_pending_calls (slab_insert (pending_calls e) u).2 e) ms rr m e' true
    end.
Proof.
  intros Hok Hcr Hlen Hkey Hrep Hid. pose proof Hcr as (Hrr & _).
  destruct (push_back_represents (endpoint_id e) dl l) as (dl' & Hpush & Hrep'); [done|done|].
  assert (msg_ok (0, data)) as Hm0 by (split; cbn; unfold is_uint; lia).
  unfold call. rewrite Hrr, u32_small by lia.
  change (dc_padded_message_size (Z.of_nat (length data))) with (msg_size (0, data)).
  destruct (submit_decide S e ms rr (0, data) Hok Hcr Hm0)
    as [[-> Hs]|[(-> & -> & Hs)|(Hroom & -> & Hs)]]; cbn [negb].
  - change (endpoint_id (set_wrap_pending true e)) with (endpoint_id e). rewrite Hpush.
    eexists _, _, _. split; [done|]. cbv iota. split_and!; try done. by apply (submit_refused_ok S e ms rr (0, data)).
  - rewrite Hpush. eexists _, _, _. split; [done|]. cbv iota. split_and!; done.
  - rewrite Hroom. cbn [negb].
    pose proof (slab_insert_vacant _ (pending_calls e) u) as [Hk0 Hvac].
    pose proof (slab_get_insert _ (pending_calls e) u) as Hget.
    destruct (slab_insert (pending_calls e) u) as [key slab] eqn:Hins. cbn [fst snd] in *.
    rewrite u32_small by lia. set (e1 := set_pending_calls slab e).
    assert (ep_ok S e1 ms) as Hok1 by by apply (ep_ok_ext S e).
    assert (msg_ok (key, data)) as Hm by (split; cbn; unfold is_uint; lia).
    destruct (append_spec S e1 ms (key, data) Hok1 Hm Hroom) as [Happ Hok2].
    cbn [fst snd] in Happ. change (msg_size (key, data)) with (msg_size (0, data)) in Happ.
    rewrite Happ. change (endpoint_id (appended S e1 (key, data))) with (endpoint_id e).
    rewrite Hpush. eexists _, _, _. split; [done|]. split; [done|]. split; [done|].
    split; [exact Hget|]. split; [done|]. inversion Hs; subst. by apply submit_ok.
Qed.

(** A DC reply is refused in the same two cases as a call, then leaving the
    batch as it was, so the caller can retry after a flush; otherwise the response
    joins the open batch under the response form of the request's number. *)
Theorem dc_reply_correct S e ms rr dl l id data :
  ep_ok S e ms -> credit_ok e rr -> Z.of_nat (length data) < 2 ^ 31 -> is_uint 31 id ->
  represents dl l -> valid_id (endpoint_id e) ->
  let m := (to_response_id id, data) in
  exists e' dl' r,
    reply e dl id data = Some (e', dl', r) /\ represents dl' (enqueue (endpoint_id e) l) /\
    submit_case S e ms rr m e' (is_ok r) /\
    match r with
    | Err err => err = Rc.RingFull /\ ep_ok S e' ms
    | Ok _ => ep_ok S e' (ms ++ [m])
    end.
Proof.
  intros Hok Hcr Hlen Hid0 Hrep Hid m. pose proof Hcr as (Hrr & _).
  destruct (push_back_represents (endpoint_id e) dl l) as (dl' & Hpush & Hrep'); [done|done|].
  assert (msg_ok m) as Hm.
  { split; [|done]. cbn. unfold is_uint in *. rewrite to_response_id_add; lia. }
  unfold reply. rewrite Hrr, u32_small by lia.
  change (dc_padded_message_size (Z.of_nat (length data))) with (msg_size m).
  destruct (submit_decide S e ms rr m Hok Hcr Hm)
    as [[-> Hs]|[(-> & -> & Hs)|(Hroom & -> & Hs)]]; cbn [negb].
  - change (endpoint_id (set_wrap_pending true e)) with (endpoint_id e). rewrite Hpush.
    eexists _, _, _. split; [done|]. cbv iota. split_and!; try done. by apply (submit_refused_ok S e ms rr m).
  - rewrite Hpush. eexists _, _, _. split; [done|]. cbv iota. split_and!; done.
  - rewrite Hroom. cbn [negb]. destruct (append_spec S e ms m Hok Hm Hroom) as [Happ Hok2].
    subst m. cbn [fst snd] in Happ. rewrite Happ.
    change (endpoint_id (appended S e _)) with (endpoint_id e). rewrite Hpush.
    eexists _, _, _. split; [done|]. cbv iota. split_and!; done.
Qed.

(** ** Emission *)

Record peer_ok (S : Z) e (rr : RemoteRingInfo) (rd : RemoteDctInfo) : Prop := mkPeer {
  pe_ring : remote_recv_ring e = Some rr;
  pe_dct : remote_dct e = Some rd;
  pe_size : ring_size_ok (Rc.size rr) /\ S <= Rc.size rr;
  pe_addr : 0 <= Rc.addr rr /\ Rc.addr rr + Rc.size rr <= 2 ^ 64;
  pe_rkey : is_uint 32 (Rc.rkey rr);
  pe_mr : 0 <= send_mr_addr e /\ send_mr_addr e + S <= 2 ^ 64;
  pe_lkey : is_uint 32 (send_mr_lkey e);
  pe_id : is_uint 32 (remote_endpoint_id e);
}.

Definition credit_return e : Z := last_recv_pos e - last_notified_recv_pos e.
Definition recv_ok e : Prop :=
  0 <= last_notified_recv_pos e <= last_recv_pos e /\ last_recv_pos e < POS_MAX.

(** The batch header is in the ring and the credit counted as returned. *)
Definition headed S e (count : Z) : EndpointInner Slab U :=
  set_send_ring (write_bytes (send_ring e) (Z.to_nat (meta_off S e))
                   (metadata_bytes (send_ring_producer e - meta_pos e) (credit_return e) count))
    (set_last_notified_recv_pos (last_recv_pos e) e).

Definition signals e : bool := Z.land (u32 (unsignaled_count e + 1)) SIGNAL_INTERVAL_MASK =? 0.

Definition signal_update e : EndpointInner Slab U :=
  if signals e then
    set_newly_signaled_count (Z.min U32_MAX (newly_signaled_count e + 1)) (set_unsignaled_count 0 e)
  else set_unsignaled_count (u32 (unsignaled_count e + 1)) e.

Definition sent S e (count : Z) : EndpointInner Slab U :=
  set_flush_start_pos (send_ring_producer e) (signal_update (headed S e count)).

(** The work request of the open batch. *)
Definition batch_entry e : option Z := if signals e then Some (endpoint_id e) else None.

Definition batch_verb S e (rr : RemoteRingInfo) (rd : RemoteDctInfo) : Emit.Verb (Entry := Z) :=
  Emit.VDciWriteImm (Emit.mkDcAv (rd_dc_key rd) (rd_dctn rd) (rd_dlid rd)) 0
    (SendQueue.mkRdma (Rc.addr rr + meta_pos e mod Rc.size rr) (Rc.rkey rr))
    (remote_endpoint_id e)
    (SendQueue.mkSge (send_mr_addr e + meta_off S e) (send_ring_producer e - meta_pos e)
       (send_mr_lkey e))
    (batch_entry e).

(** A cycle of the send ring does not cross the end of a larger remote ring. *)
Lemma remote_room S R p d :
  ring_size_ok S -> ring_size_ok R -> S <= R -> 0 <= d -> p mod S + d <= S -> p mod R + d <= R.
Proof.
  intros (k & Hk & ->) (j & Hj & ->) Hle Hd Hr. apply Z.pow_le_mono_r_iff in Hle; [|lia|lia].
  assert (2 ^ j = 2 ^ (j - k) * 2 ^ k) as E by (rewrite <-Z.pow_add_r by lia; f_equal; lia).
  assert (0 < 2 ^ k) by (apply Z.pow_pos_nonneg; lia).
  assert (0 < 2 ^ j) by (apply Z.pow_pos_nonneg; lia).
  pose proof (Z.mod_pos_bound p (2 ^ j) ltac:(done)).
  assert ((p mod 2 ^ j) mod 2 ^ k = p mod 2 ^ k) as Em.
  { apply Z.mod_mod_divide. rewrite E. apply Z.divide_factor_r. }
  pose proof (Z.div_mod (p mod 2 ^ j) (2 ^ k) ltac:(lia)) as Hdm. rewrite Em in Hdm.
  assert (p mod 2 ^ j / 2 ^ k < 2 ^ (j - k)) by (apply Z.div_lt_upper_bound; lia). nia.
Qed.

Lemma batch_header S e ms (b : list Z) c :
  ep_ok S e ms -> length b = length (send_ring e) ->
  encode_batch_header b (Z.to_nat (meta_off S e)) (send_ring_producer e - meta_pos e)
    (credit_return e) c
  = write_bytes b (Z.to_nat (meta_off S e))
      (metadata_bytes (send_ring_producer e - meta_pos e) (credit_return e) c).
Proof.
  intros Hok Hl. apply encode_flow_metadata_bytes.
  pose proof (off_facts S (meta_pos e) (ok_size _ _ _ Hok)) as Ho.
  destruct Hok as [Hs Hlen [_ Ha] _ _ _ _]. unfold send_ring_len in Hlen.
  specialize (Ho Ha). unfold meta_off. lia.
Qed.

Lemma emit_batch_spec S e ms rr rd (ctx : Dci) count :
  ep_ok S e ms -> peer_ok S e rr rd -> recv_ok e -> Emit.ctx_ok ctx ->
  match emit_batch e (Some ctx) count with
  | Some (e', q', Err err) =>
      err = Rc.RingFull /\ q' = Some ctx /\ e' = headed S e count /\
      Emit.available ctx <
        Emit.padding ctx (fst (Emit.request (batch_verb S e rr rd))) + 2
  | Some (e', q', Ok _) =>
      exists ctx' res, q' = Some ctx' /\ e' = sent S e count /\
        Emit.posted ctx (fst (Emit.request (batch_verb S e rr rd))) (batch_entry e) ctx' res
  | None => False
  end.
Proof.
  intros Hok [P1 P2 [P3 P3'] P4 P5 P6 P7 P8] Hrv Hctx.
  pose proof (producer_bounds S e ms Hok) as [Hpr _].
  pose proof Hok as [Hs Hl [Hp Ha] Hf Hc Hms _].
  pose proof (ring_facts S Hs) as (R1 & _). pose proof (off_facts S (meta_pos e) Hs Ha) as (O1 & O2 & _).
  pose proof (remote_room S (Rc.size rr) (meta_pos e) (send_ring_producer e - meta_pos e) Hs P3 P3')
    as Hrem. unfold meta_off in Hpr. specialize (Hrem ltac:(lia) ltac:(lia)).
  pose proof (ring_facts _ P3) as (R2 & _).
  pose proof (Z.mod_pos_bound (meta_pos e) (Rc.size rr) ltac:(lia)) as Hmr.
  destruct Hrv as [Hrv1 Hrv2]. unfold POS_MAX in *.
  unfold emit_batch. rewrite P1, P2, Hf.
  cbn [send_ring_len set_last_notified_recv_pos send_ring].
  change (send_ring_len (set_last_notified_recv_pos (last_recv_pos e) e)) with (send_ring_len e).
  rewrite Hl, !dc_ring_land by done. unfold BATCH_HEADER_SIZE.
  rewrite (proj2 (Z.ltb_ge S _)) by lia.
  rewrite (u64_small (send_ring_producer e - meta_pos e)) by lia.
  fold (credit_return e). rewrite (u64_small (credit_return e)) by (unfold credit_return; lia).
  change (send_ring (set_last_notified_recv_pos (last_recv_pos e) e)) with (send_ring e).
  pose proof (batch_header S e ms (send_ring e) count Hok eq_refl) as Hh.
  unfold meta_off in Hh. rewrite Hh. fold (meta_off S e).
  fold (headed S e count).
  assert (send_ring_len (headed S e count) = S) as Hlh.
  { unfold send_ring_len, headed, meta_off in *. cbn [send_ring set_send_ring].
    rewrite length_write_bytes; [done|]. lia. }
  rewrite Hlh. change (flush_start_pos (headed S e count)) with (flush_start_pos e).
  change (meta_pos (headed S e count)) with (meta_pos e).
  rewrite Hf, Z.eqb_refl, (proj2 (Z.leb_le (_ + _) (Rc.size rr)) Hrem).
  rewrite (proj2 (Z.leb_le (_ + _) S)) by (unfold meta_off; lia). cbn [andb negb].
  cbn [remote_endpoint_id send_mr_addr send_mr_lkey unsignaled_count endpoint_id headed
    set_send_ring set_last_notified_recv_pos].
  rewrite (u64_small (Rc.addr rr + _)), (u64_small (send_mr_addr e + _)),
    (u32_small (send_ring_producer e - _)) by (unfold meta_off; lia).
  fold (signals e). fold (batch_entry e).
  change (Emit.emit_dci_write_imm_sge ctx _ _ _ _ _ _) with (Emit.emit ctx (batch_verb S e rr rd)).
  rewrite Emit.arms_reference; [|done|].
  2:{ split; [repeat constructor|]. split; [vm_compute; congruence|done]. }
  pose proof (Emit.reference_correct ctx (fst (Emit.request (batch_verb S e rr rd)))
    (batch_entry e) Hctx) as Href.
  change (snd (Emit.request (batch_verb S e rr rd))) with (batch_entry e).
  destruct (Emit.emit_reference _ _ _) as [ctx' [res|err]].
  - destruct Href as [_ Hpost].
    + split; [repeat constructor|vm_compute; congruence].
    + split; [|done]. unfold is_uint. cbn. unfold batch_entry. by destruct (signals e).
    + exists ctx', res. split; [done|]. split; [|done].
      unfold sent, signal_update, signals. done.
  - destruct Href as (-> & -> & Hav).
    + split; [repeat constructor|vm_compute; congruence].
    + split; [|done]. unfold is_uint. cbn. unfold batch_entry. by destruct (signals e).
    + done.
Qed.

(** Writing the header keeps the batch. *)
Lemma headed_ok S e ms count : ep_ok S e ms -> ep_ok S (headed S e count) ms.
Proof.
  intros Hok. pose proof Hok as [Hs Hl [Hp Ha] Hf Hc Hms Hb].
  pose proof (off_facts S (meta_pos e) Hs Ha) as (O1 & O2 & _). fold (meta_off S e) in *.
  unfold send_ring_len in Hl.
  assert (length (send_ring (headed S e count)) = length (send_ring e)) as E.
  { cbn. rewrite length_write_bytes; [done|]. lia. }
  split; try done.
  - unfold send_ring_len. by rewrite E.
  - destruct Hb as [Ho|Hw]; [left|by right].
    pose proof (batch_bounds S e ms Hok Ho) as [B1 B2]. destruct Ho as (H1 & H2 & H3).
    split; [done|]. split; [done|].
    change (meta_off S (headed S e count)) with (meta_off S e).
    apply (dc_msgs_at_ext (send_ring e) _ (meta_off S e + 32)); try done; try lia.
    intros j Hj. cbn [headed send_ring set_send_ring].
    rewrite lookup_write_bytes by (rewrite length_metadata_bytes; lia).
    rewrite length_metadata_bytes, decide_False by lia. done.
Qed.

(** A batch was posted and the next one opened: it is empty. *)
Definition next_batch S e (count : Z) : EndpointInner Slab U := prepare_next_batch (sent S e count).

Lemma signal_update_fields e :
  send_ring (signal_update e) = send_ring e /\ meta_pos (signal_update e) = meta_pos e /\
  send_ring_producer (signal_update e) = send_ring_producer e.
Proof. unfold signal_update. by destruct (signals e). Qed.

Lemma next_batch_ok S e ms count :
  ep_ok S e ms -> send_ring_producer e < POS_MAX ->
  ep_ok S (next_batch S e count) [] /\ batch_open S (next_batch S e count) [].
Proof.
  intros Hok Hlt. cut (batch_open S (next_batch S e count) [] /\
    (batch_open S (next_batch S e count) [] -> ep_ok S (next_batch S e count) [])).
  { intros [H1 H2]. split; auto. } pose proof (producer_bounds S e ms Hok) as [Hp Ha].
  pose proof (headed_ok S e ms count Hok) as Hh.
  pose proof (ok_size _ _ _ Hok) as Hs. pose proof (ok_pos _ _ _ Hok) as [Hm _].
  unfold next_batch, sent, prepare_next_batch.
  destruct (signal_update_fields (headed S e count)) as (E1 & E2 & E3).
  unfold POS_MAX in *. split.
  - unfold batch_open. rewrite decide_True by done.
    split; [|done]. cbn -[headed signal_update]. rewrite E3.
    change (send_ring_producer (headed S e count)) with (send_ring_producer e).
    rewrite Z.add_0_r. apply u64_small. unfold BATCH_HEADER_SIZE. lia.
  - intros Ho. split; try done; [| |by left].
    + unfold send_ring_len. cbn -[headed signal_update]. rewrite E1. apply Hh.
    + cbn -[headed signal_update]. rewrite E3.
      change (send_ring_producer (headed S e count)) with (send_ring_producer e).
      unfold POS_MAX. split; [lia|done].
Qed.

(** What [emit_pending] keeps besides the batch. *)
Definition kept_peer e e' : Prop :=
  remote_recv_ring e' = remote_recv_ring e /\ remote_dct e' = remote_dct e /\
  remote_endpoint_id e' = remote_endpoint_id e /\ send_mr_addr e' = send_mr_addr e /\
  send_mr_lkey e' = send_mr_lkey e /\ last_recv_pos e' = last_recv_pos e /\
  remote_consumer_pos e' = remote_consumer_pos e /\ pending_calls e' = pending_calls e /\
  endpoint_id e' = endpoint_id e /\ recv_ring e' = recv_ring e /\
  last_notified_recv_pos e <= last_notified_recv_pos e' <= Z.max (last_recv_pos e) (last_notified_recv_pos e).

Lemma kept_peer_refl e : kept_peer e e.
Proof. unfold kept_peer. split_and!; try done; lia. Qed.

Lemma kept_peer_trans e1 e2 e3 : kept_peer e1 e2 -> kept_peer e2 e3 -> kept_peer e1 e3.
Proof.
  intros (A1 & A2 & A3 & A4 & A5 & A6 & A7 & A8 & A9 & A10 & A11 & A12)
    (B1 & B2 & B3 & B4 & B5 & B6 & B7 & B8 & B9 & B10 & B11 & B12).
  unfold kept_peer. split_and!; try congruence; lia.
Qed.

Lemma headed_kept S e count : recv_ok e -> kept_peer e (headed S e count).
Proof. intros [H _]. unfold kept_peer. split_and!; try done; cbn; lia. Qed.

Lemma next_batch_kept S e count : recv_ok e -> kept_peer e (next_batch S e count).
Proof.
  intros [H _]. unfold next_batch, sent, prepare_next_batch, signal_update.
  destruct (signals _); unfold kept_peer; split_and!; try done; cbn; lia.
Qed.

Lemma kept_peer_ok S e e' rr rd : kept_peer e e' -> peer_ok S e rr rd -> peer_ok S e' rr rd.
Proof.
  intros (A1 & A2 & A3 & A4 & A5 & _) [P1 P2 P3 P4 P5 P6 P7 P8].
  split; rewrite ?A1, ?A2, ?A3, ?A4, ?A5; done.
Qed.

Lemma kept_recv_ok e e' : kept_peer e e' -> recv_ok e -> recv_ok e'.
Proof.
  intros (_ & _ & _ & _ & _ & A6 & _ & _ & _ & _ & A11) [H1 H2]. unfold recv_ok. rewrite A6. lia.
Qed.

(** Too few blocks are free for the request of a batch and the padding before it. *)
Definition full (q : Dci) : Prop := Emit.available q < 3.

(** An emission either is refused by a full send queue or posts the batch. *)
Lemma emit_step S e ms rr rd (ctx : Dci) count :
  ep_ok S e ms -> peer_ok S e rr rd -> recv_ok e -> Emit.ctx_ok ctx ->
  (emit_batch e (Some ctx) count = Some (headed S e count, Some ctx, Err Rc.RingFull) /\ full ctx) \/
  exists ctx' res, emit_batch e (Some ctx) count = Some (sent S e count, Some ctx', Ok tt) /\
    Emit.posted ctx (fst (Emit.request (batch_verb S e rr rd))) (batch_entry e) ctx' res.
Proof.
  intros Hok Hpe Hr Hc. pose proof (emit_batch_spec S e ms rr rd ctx count Hok Hpe Hr Hc) as H.
  destruct (emit_batch e (Some ctx) count) as [[[e' q'] [[]|err]]|]; [right|left|done].
  - destruct H as (ctx' & res & -> & -> & H). by exists ctx', res.
  - destruct H as (-> & -> & -> & H). split; [done|].
    unfold full, Emit.padding in *. change (Emit.req_blocks _) with 2 in H.
    destruct (Emit.slots_to_end ctx <? 2) eqn:E; guards; lia.
Qed.

(** The send queue of the DCI has grown: what was in flight is still there, and
    the device has something to be shown. *)
Record dci_ext (q q' : Dci) : Prop := mkExt {
  ext_ok : Emit.ctx_ok q';
  ext_fixed : Emit.wqe_cnt q' = Emit.wqe_cnt q /\ Emit.sqn q' = Emit.sqn q /\ Emit.ci q' = Emit.ci q;
  ext_flight : Emit.in_flight q <= Emit.in_flight q';
  ext_kept : Emit.kept q q';
  ext_last : q' = q \/ Emit.last_wqe q' <> None;
}.

Lemma dci_ext_refl q : Emit.ctx_ok q -> dci_ext q q.
Proof. intros H. split; try done; by left. Qed.

Lemma dci_ext_trans q1 q2 q3 : dci_ext q1 q2 -> dci_ext q2 q3 -> dci_ext q1 q3.
Proof.
  intros [A1 (A2 & A3 & A4) A5 A6 A7] [B1 (B2 & B3 & B4) B5 B6 B7].
  split; [done|by rewrite B2, B3, B4|lia| |].
  - by apply (Emit.kept_trans q1 q2 q3).
  - destruct B7 as [->|B7]; [done|by right].
Qed.

Lemma padding_nonneg (q : Dci) r : Emit.ctx_ok q -> 0 <= Emit.padding q r.
Proof.
  intros (Hok & _). pose proof (SendQueue.slots_to_end_bounds _ Hok) as Hs.
  change (SendQueue.slots_to_end (Emit.indices q)) with (Emit.slots_to_end q) in Hs.
  unfold Emit.padding. destruct (_ <? _); lia.
Qed.

(** The batch request takes two blocks. *)
Lemma posted_ext S e rr rd q entry q' res :
  Emit.ctx_ok q -> Emit.posted q (fst (Emit.request (batch_verb S e rr rd))) entry q' res ->
  dci_ext q q'.
Proof.
  intros Hok Hp. pose proof (Emit.p_flight _ _ _ _ _ Hp) as Hf.
  pose proof (padding_nonneg q (fst (Emit.request (batch_verb S e rr rd))) Hok) as Hn.
  change (Emit.req_blocks _) with 2 in Hf.
  split; [apply Hp|apply Hp|lia|apply Hp|right; by rewrite (Emit.p_last _ _ _ _ _ Hp)].
Qed.

(** The state after an emission attempt of [emit_pending]. *)
Record flushed S e (ctx : Dci) e' (ctx' : Dci) : Prop := mkFlushed {
  fl_ctx : Emit.ctx_ok ctx';
  fl_ext : dci_ext ctx ctx';
  fl_kept : kept_peer e e';
  fl_pos : meta_pos e <= meta_pos e' <= meta_pos e + S;
}.

Lemma flushed_headed S e ms ctx count :
  ep_ok S e ms -> recv_ok e -> Emit.ctx_ok ctx -> flushed S e ctx (headed S e count) ctx.
Proof.
  intros Hok Hr Hc. split; [done|by apply dci_ext_refl|by apply headed_kept|]. cbn.
  pose proof (ring_facts S (ok_size _ _ _ Hok)). lia.
Qed.

Lemma flushed_next S e ms ctx rr rd entry ctx' res count :
  ep_ok S e ms -> recv_ok e -> Emit.ctx_ok ctx ->
  Emit.posted ctx (fst (Emit.request (batch_verb S e rr rd))) entry ctx' res ->
  flushed S e ctx (next_batch S e count) ctx'.
Proof.
  intros Hok Hr Hc Hp. split; [apply Hp|by eapply posted_ext|by apply next_batch_kept|].
  pose proof (producer_bounds S e ms Hok) as [Hb _].
  pose proof (off_facts S (meta_pos e) (ok_size _ _ _ Hok)) as Ho.
  destruct (ok_pos _ _ _ Hok) as [_ Ha]. specialize (Ho Ha). fold (meta_off S e) in Ho.
  replace (meta_pos (next_batch S e count)) with (send_ring_producer e); [lia|].
  unfold next_batch, sent, prepare_next_batch, signal_update. by destruct (signals _).
Qed.

(** [emit_wrap] sends the rest of the cycle as one batch. *)
Lemma emit_wrap_eq S e q :
  ep_ok S e [] -> wrap_pending e = true -> meta_pos e + S < POS_MAX ->
  let ew := set_send_ring_producer (meta_pos e + (S - meta_off S e)) e in
  ep_ok S ew [] /\
  emit_wrap e q = match emit_batch ew q WRAP_MESSAGE_COUNT with
                  | Some (e, q, Ok _) => Some (prepare_next_batch e, q, Ok tt)
                  | Some (e, q, Err err) => Some (e, q, Err err)
                  | None => None
                  end.
Proof.
  intros Hok Hw Hpos ew. pose proof Hok as [Hs Hl [Hp Ha] Hf Hcnt Hms Hb].
  pose proof (off_facts S (meta_pos e) Hs Ha) as (O1 & O2 & _).
  pose proof (ring_facts S Hs) as (R1 & _).
  split; [split; try done; right; done|].
  unfold emit_wrap. cbn [meta_pos set_send_ring_producer].
  change (send_ring_len (set_send_ring_producer (meta_pos e) e)) with (send_ring_len e).
  rewrite Hl, dc_ring_land by done. unfold BATCH_HEADER_SIZE.
  rewrite (proj2 (Z.ltb_ge _ 32)) by lia. unfold POS_MAX in *. by rewrite u64_small by lia.
Qed.

Lemma emit_wrap_spec S e rr rd (ctx : Dci) :
  ep_ok S e [] -> wrap_pending e = true -> peer_ok S e rr rd -> recv_ok e -> Emit.ctx_ok ctx ->
  meta_pos e + S < POS_MAX ->
  exists e' ctx' r, emit_wrap e (Some ctx) = Some (e', Some ctx', r) /\
    ep_ok S e' [] /\ flushed S e ctx e' ctx' /\ wrap_pending e' = true /\
    ((r = Ok tt /\ batch_open S e' []) \/ (r = Err Rc.RingFull /\ ctx' = ctx /\ full ctx)).
Proof.
  intros Hok Hw Hpe Hr Hc Hpos. pose proof Hok as [Hs Hl [Hp Ha] Hf Hcnt Hms Hb].
  pose proof (off_facts S (meta_pos e) Hs Ha) as (O1 & O2 & _).
  pose proof (ring_facts S Hs) as (R1 & _).
  destruct (emit_wrap_eq S e (Some ctx) Hok Hw Hpos) as [Hokw ->].
  set (ew := set_send_ring_producer (meta_pos e + (S - meta_off S e)) e) in *.
  assert (peer_ok S ew rr rd) as Hpew by by destruct Hpe.
  assert (forall x y, flushed S ew ctx x y -> flushed S e ctx x y) as Hew
    by (intros x y [? ? ? ?]; by split).
  unfold POS_MAX in *.
  destruct (emit_step S ew [] rr rd ctx WRAP_MESSAGE_COUNT Hokw Hpew Hr Hc)
    as [[-> Hfull]|(ctx' & res & -> & Hpost)].
  - eexists _, _, _. split; [done|]. split; [by apply headed_ok|].
    split; [by apply Hew, (flushed_headed S ew [])|]. split; [done|by right].
  - destruct (next_batch_ok S ew [] WRAP_MESSAGE_COUNT Hokw) as [N1 N2].
    { unfold POS_MAX, ew, meta_off. cbn. lia. }
    eexists _, _, _. split; [done|]. split; [exact N1|split].
    + apply Hew. by apply (flushed_next S ew [] _ _ _ _ _ _ WRAP_MESSAGE_COUNT Hokw Hr Hc Hpost).
    + split; [|by left]. unfold prepare_next_batch, sent, signal_update. by destruct (signals _).
Qed.

Lemma credit_only_spec S e rr rd (ctx : Dci) b :
  ep_ok S e [] -> peer_ok S e rr rd -> recv_ok e -> Emit.ctx_ok ctx ->
  meta_pos e + S < POS_MAX ->
  exists e' ctx' r, emit_credit_only e (Some ctx) b = Some (e', Some ctx', r) /\
    ep_ok S e' [] /\ flushed S e ctx e' ctx' /\ wrap_pending e' = wrap_pending e /\
    (exists b', r = Ok b' \/ r = Err Rc.RingFull) /\ (b = true -> r = Ok true) /\
    (r = Ok true \/ ctx' = ctx) /\ (forall err, r = Err err -> full ctx).
Proof.
  intros Hok Hpe Hr Hc Hpos. unfold emit_credit_only.
  pose proof (ring_facts S (ok_size _ _ _ Hok)) as (R1 & _).
  assert (flushed S e ctx e ctx) as Hrefl
    by (split; [done|by apply dci_ext_refl|apply kept_peer_refl|lia]).
  destruct b; [by eexists _, _, _; split_and!; eauto|].
  destruct (0 <? _); [|by eexists _, _, _; split_and!; eauto].
  pose proof (producer_bounds S e [] Hok) as [Hb _].
  destruct (ok_pos _ _ _ Hok) as [Hp Ha].
  pose proof (off_facts S (meta_pos e) (ok_size _ _ _ Hok) Ha) as (O1 & _).
  destruct (emit_step S e [] rr rd ctx 0 Hok Hpe Hr Hc) as [[-> Hfull]|(ctx' & res & -> & Hpost)].
  - eexists _, _, _. split; [done|]. split; [by apply headed_ok|].
    split; [by apply (flushed_headed S e [])|]. split; [done|].
    split; [exists true; by right|]. split; [done|]. split; [by right|done].
  - eexists _, _, _. split; [done|]. split; [|split].
    + apply (next_batch_ok S e []); [done|]. unfold meta_off in *. lia.
    + by apply (flushed_next S e [] _ _ _ _ _ _ 0 Hok Hr Hc Hpost).
    + split; [|split; [exists true; by left|split; [done|split; [by left|done]]]].
      unfold prepare_next_batch, sent, signal_update. by destruct (signals _).
Qed.

(** The wrap that follows a flushed batch, or the credit. *)
Lemma deferred_spec S e rr rd (ctx : Dci) b :
  ep_ok S e [] -> peer_ok S e rr rd -> recv_ok e -> Emit.ctx_ok ctx ->
  meta_pos e + 2 * S < POS_MAX ->
  exists e' ctx' r, emit_deferred_wrap e (Some ctx) b = Some (e', Some ctx', r) /\
    ep_ok S e' [] /\ dci_ext ctx ctx' /\ kept_peer e e' /\
    (meta_pos e <= meta_pos e' <= meta_pos e + S) /\
    (exists b', r = Ok b' \/ r = Err Rc.RingFull) /\ (b = true -> r = Ok true) /\
    (wrap_pending e' = true -> wrap_pending e = true /\ (b = false -> r = Err Rc.RingFull)) /\
    (r = Ok true \/ ctx' = ctx) /\ (forall err, r = Err err -> full ctx).
Proof.
  intros Hok Hpe Hr Hc Hpos. pose proof (ring_facts S (ok_size _ _ _ Hok)) as (R1 & _).
  unfold emit_deferred_wrap. destruct (wrap_pending e) eqn:Hw.
  - destruct (emit_wrap_spec S e rr rd ctx) as (e1 & c1 & r1 & -> & A1 & A2 & A3 & A4); try done; [lia|].
    destruct A4 as [[-> Ho]|(-> & -> & Hfull)].
    + cbn [emit_credit_only]. eexists _, _, _. split; [done|].
      split; [by destruct A1; split; try done; left|].
      split; [apply A2|]. split; [by destruct A2|]. split; [apply A2|].
      split; [exists true; by left|]. split; [done|]. split; [done|]. split; [by left|done].
    + eexists _, _, _. split; [done|]. split; [done|]. split; [apply A2|]. split; [apply A2|].
      split; [apply A2|]. destruct b; (split; [exists true; auto|]); split_and!; try done; try by right.
  - destruct (credit_only_spec S e rr rd ctx b) as (e1 & c1 & r1 & -> & A1 & A2 & A3 & A4 & A5 & A6);
      try done; [lia|].
    eexists _, _, _. split; [done|]. split; [done|]. split; [apply A2|]. split; [apply A2|].
    split; [apply A2|]. split; [done|]. split; [done|]. split; [by rewrite A3, Hw|done].
Qed.

(** The open batch stays as it is. *)
Definition unsent e e' : Prop :=
  meta_pos e' = meta_pos e /\ send_ring_producer e' = send_ring_producer e /\
  unsignaled_count e' = unsignaled_count e.

Lemma emit_pending_spec S e ms rr rd (ctx : Dci) :
  ep_ok S e ms -> peer_ok S e rr rd -> recv_ok e -> Emit.ctx_ok ctx ->
  meta_pos e + 3 * S < POS_MAX ->
  exists e' ctx' r,
    emit_pending e (Some ctx) = Some (e', Some ctx', r) /\
    dci_ext ctx ctx' /\ kept_peer e e' /\
    (meta_pos e <= meta_pos e' <= meta_pos e + 2 * S) /\
    match r with
    | Ok b => ep_ok S e' [] /\
              (wrap_pending e' = true -> wrap_pending e = true /\ ms <> []) /\
              (ms <> [] -> exists ctx1 res,
                 Emit.posted ctx (fst (Emit.request (batch_verb S e rr rd))) (batch_entry e) ctx1 res /\
                 dci_ext ctx1 ctx') /\
              (b = true \/ ctx' = ctx)
    | Err err => err = Rc.RingFull /\ ep_ok S e' ms /\ (ms <> [] -> unsent e e') /\ ctx' = ctx /\ full ctx
    end.
Proof.
  intros Hok Hpe Hr Hc Hpos. pose proof (ring_facts S (ok_size _ _ _ Hok)) as (R1 & _).
  unfold emit_pending. rewrite (ok_count _ _ _ Hok). destruct ms as [|m ms].
  - change (0 <? Z.of_nat (length [])) with false. cbv iota.
    destruct (deferred_spec S e rr rd ctx false)
      as (e' & c' & r & -> & A1 & A2 & A3 & Ap & [b' A4] & _ & A6 & A7 & A8); try done; [lia|].
    eexists _, _, _. split; [done|]. split; [done|]. split; [done|]. split; [lia|].
    destruct A4 as [-> | ->].
    + split; [done|]. split.
      { intros Hw. by destruct (A6 Hw) as [_ ?%(fun f => f eq_refl)]. }
      split; [done|]. destruct A7 as [[= ->]|A7]; [by left|by right].
    + split; [done|]. split; [done|]. split; [done|]. split; [by destruct A7|by apply (A8 Rc.RingFull)].
  - rewrite (proj2 (Z.ltb_lt 0 _)) by (cbn; lia).
    destruct (emit_step S e (m :: ms) rr rd ctx (Z.of_nat (length (m :: ms))) Hok Hpe Hr Hc)
      as [[-> Hfull]|(c1 & res & -> & Hpost)].
    + eexists _, _, _. split; [done|]. split; [by apply dci_ext_refl|]. split; [by apply headed_kept|].
      split; [cbn; lia|]. split; [done|]. split; [by apply headed_ok|done].
    + pose proof (flushed_next S e (m :: ms) _ _ _ _ _ _ (Z.of_nat (length (m :: ms))) Hok Hr Hc Hpost)
        as [F1 F2 F3 F4].
      destruct (next_batch_ok S e (m :: ms) (Z.of_nat (length (m :: ms))) Hok) as [N1 _].
      { pose proof (producer_bounds S e _ Hok) as [Hb _].
        destruct (ok_pos _ _ _ Hok) as [Hp Ha].
        pose proof (off_facts S (meta_pos e) (ok_size _ _ _ Hok) Ha) as (O1 & _).
        unfold meta_off in Hb. lia. }
      fold (next_batch S e (Z.of_nat (length (m :: ms)))). set (e1 := next_batch _ _ _) in *.
      destruct (deferred_spec S e1 rr rd c1 true)
        as (e' & c' & r & -> & A1 & A2 & A3 & Ap & _ & A5 & A6 & _);
        [done|by apply (kept_peer_ok S e)|by apply (kept_recv_ok e)|done|lia|].
      eexists _, _, _. split; [done|]. split; [by apply (dci_ext_trans _ c1)|].
      split; [by apply (kept_peer_trans _ e1)|].
      split; [lia|]. rewrite (A5 eq_refl). split; [done|]. split.
      { intros Hw. split; [|done]. destruct (A6 Hw) as [Hw1 _]. rewrite <-Hw1. subst e1.
        unfold next_batch, prepare_next_batch, sent, signal_update. by destruct (signals _). }
      split; [|by left]. intros _. by exists c1, res.
Qed.

(** Flushing a DC endpoint never panics (its debug assertions hold: the batch
    lies in one cycle of the local and of the remote ring), fails only because the
    send queue is full, and keeps the batch invariant: on success the batch is
    empty, and a wrap is left over only when the queue filled up behind the batch;
    on failure every message is still in the batch. *)
Theorem dc_flush_correct S e ms rr rd (ctx : Dci) :
  ep_ok S e ms -> peer_ok S e rr rd -> recv_ok e -> Emit.ctx_ok ctx ->
  meta_pos e + 3 * S < POS_MAX ->
  exists e' ctx' r,
    emit_pending e (Some ctx) = Some (e', Some ctx', r) /\
    Emit.ctx_ok ctx' /\ kept_peer e e' /\
    match r with
    | Ok b => ep_ok S e' [] /\
              (wrap_pending e' = true -> wrap_pending e = true /\ ms <> [])
    | Err err => err = Rc.RingFull /\ ep_ok S e' ms
    end.
Proof.
  intros Hok Hpe Hr Hc Hpos.
  destruct (emit_pending_spec S e ms rr rd ctx) as (e' & ctx' & r & H1 & H2 & H3 & _ & H4); try done.
  exists e', ctx', r. split; [done|]. split; [apply H2|]. split; [done|].
  destruct r; destruct_and!; by split_and!.
Qed.


End Sender.
(** ** Receiving *)

Section Receiver.
Context {Slab : Type -> Type} `{!SlabOps Slab} {U : Type}.
Implicit Types (e : EndpointInner Slab U) (st : RecvState (Slab := Slab) (U := U)).

(** The requests of a batch, and what its responses do to the pending calls. *)
Definition requests (ms : list Msg) : list Msg := filter (fun m => is_response (fst m) = false) ms.

Fixpoint respond (slab : Slab U) (ms : list Msg) : Slab U * list (U * list Z) :=
  match ms with
  | [] => (slab, [])
  | m :: ms =>
      if is_response (fst m) then
        let '(u, slab) := slab_try_remove slab (from_response_id (fst m)) in
        let '(slab, out) := respond slab ms in
        (slab, match u with Some u => (u, snd m) :: out | None => out end)
      else respond slab ms
  end.

(** A received request, with the payload read through its offset. *)
Definition request_view (ring : list Z) (m : RecvMessage) : Msg :=
  (msg_call_id m, read_bytes ring (Z.to_nat (data_offset m)) (Z.to_nat (data_len m))).

(** What the message loop leaves alone. *)
Definition same_receiver e e' : Prop :=
  recv_ring e' = recv_ring e /\ remote_consumer_pos e' = remote_consumer_pos e /\
  recv_ring_producer e' = recv_ring_producer e /\ endpoint_id e' = endpoint_id e.

Record received (id : Z) (ms : list Msg) st st' : Prop := mkReceived {
  rc_same : same_receiver (rs_ep st) (rs_ep st');
  rc_pos : last_recv_pos (rs_ep st') = last_recv_pos (rs_ep st) + batch_size ms;
  rc_pending : pending_calls (rs_ep st') = fst (respond (pending_calls (rs_ep st)) ms);
  rc_responses : rs_responses st' = rs_responses st ++ snd (respond (pending_calls (rs_ep st)) ms);
  rc_stack : exists new, rs_stack st' = new ++ rs_stack st /\
    map (request_view (recv_ring (rs_ep st))) new = rev (requests ms) /\
    Forall (fun m => msg_endpoint_id m = id) new;
}.

Lemma process_message_spec R id st m :
  ring_size_ok R -> recv_ring_len (rs_ep st) = R -> msg_ok m ->
  let pos := last_recv_pos (rs_ep st) in
  0 <= pos < 2 ^ 63 -> pos mod R + msg_size m <= R ->
  read_bytes (recv_ring (rs_ep st)) (Z.to_nat (pos mod R)) (8 + length (snd m)) = msg_bytes m ->
  exists st', process_message id st = Some st' /\ received id [m] st st'.
Proof.
  intros HR Hlen Hm pos Hpos Hfit E. pose proof (ring_facts R HR) as (R1 & _).
  pose proof (dc_msg_size_spec m Hm) as (M1 & M2 & _).
  pose proof (Z.mod_pos_bound pos R ltac:(lia)) as Hb.
  assert (msg_size m < 2 ^ 33) as M4
    by (pose proof (dc_padded_spec (Z.of_nat (length (snd m)))); unfold msg_size; lia).
  unfold process_message. fold pos. rewrite Hlen, dc_ring_land by done.
  unfold DC_HEADER_SIZE. rewrite (proj2 (Z.ltb_ge R _)) by lia.
  rewrite (dc_decode_at _ _ m) by done. fold (msg_size m).
  rewrite (u64_small (pos + _)) by lia. apply payload_at in E as Ep.
  replace (Z.to_nat (pos mod R) + 8)%nat with (Z.to_nat (pos mod R + 8)) in Ep by lia.
  destruct (is_response (fst m)) eqn:Hresp.
  - cbn [pending_calls set_last_recv_pos].
    destruct (slab_try_remove (pending_calls (rs_ep st)) (from_response_id (fst m)))
      as [u slab] eqn:Hrm.
    assert (requests [m] = []) as Ereq.
    { unfold requests. rewrite filter_cons_False; [done|]. by rewrite Hresp. }
    destruct u as [u|].
    + rewrite slice_in by (unfold recv_ring_len in Hlen; cbn; lia).
      eexists. split; [done|].
      split; cbn [rs_ep rs_stack rs_responses batch_size respond]; rewrite ?Hresp, ?Hrm; try done.
      * cbn. fold pos. lia.
      * cbn [fst snd recv_ring set_pending_calls set_last_recv_pos].
        do 4 f_equal. rewrite <-Ep at 2. f_equal. lia.
      * exists []. by rewrite Ereq.
    + eexists. split; [done|].
      split; cbn [rs_ep rs_stack rs_responses batch_size respond]; rewrite ?Hresp, ?Hrm; try done.
      * cbn. fold pos. lia.
      * by rewrite app_nil_r.
      * exists []. by rewrite Ereq.
  - assert (requests [m] = [m]) as Ereq.
    { unfold requests. by rewrite filter_cons_True. }
    eexists. split; [done|].
    split; cbn [rs_ep rs_stack rs_responses batch_size respond]; rewrite ?Hresp; try done.
    + cbn. fold pos. lia.
    + by rewrite app_nil_r.
    + exists [mkRecv id (fst m) (pos mod R + 8) (Z.of_nat (length (snd m)))].
      split; [done|]. split; [|by constructor]. rewrite Ereq. cbn. unfold request_view. cbn.
      rewrite Nat2Z.id, Ep. by destruct m.
Qed.

Lemma respond_cons slab m ms :
  respond slab (m :: ms) =
    let '(slab1, out1) := respond slab [m] in
    let '(slab2, out2) := respond slab1 ms in (slab2, out1 ++ out2).
Proof.
  cbn. destruct (is_response (fst m)); [|by destruct (respond slab ms)].
  destruct (slab_try_remove _ _) as [u slab1]. destruct (respond slab1 ms) as [slab2 out2].
  by destruct u.
Qed.

Lemma requests_cons m ms : requests (m :: ms) = requests [m] ++ requests ms.
Proof. unfold requests. by rewrite <-filter_app. Qed.

Lemma received_cons id m ms st1 st2 st3 :
  received id [m] st1 st2 -> received id ms st2 st3 -> received id (m :: ms) st1 st3.
Proof.
  intros [(S1 & S2 & S3 & S4) P1 D1 Rs1 (n1 & N1 & V1 & F1)]
    [(T1 & T2 & T3 & T4) P2 D2 Rs2 (n2 & N2 & V2 & F2)].
  pose proof (respond_cons (pending_calls (rs_ep st1)) m ms) as Hc.
  destruct (respond (pending_calls (rs_ep st1)) [m]) as [slab1 out1] eqn:E1.
  cbn [fst snd] in D1, Rs1. rewrite D1 in D2, Rs2.
  destruct (respond slab1 ms) as [slab2 out2] eqn:E2. cbn [fst snd] in D2, Rs2.
  split.
  - unfold same_receiver. split_and!; congruence.
  - rewrite P2, P1. cbn. lia.
  - by rewrite Hc.
  - rewrite Hc, Rs2, Rs1. cbn. by rewrite app_assoc.
  - exists (n2 ++ n1). split; [by rewrite N2, N1, app_assoc|]. split.
    + rewrite map_app, V1, <-S1, V2. by rewrite (requests_cons m ms), rev_app_distr.
    + by apply Forall_app.
Qed.

Lemma process_messages_spec R id ms : forall st,
  ring_size_ok R -> recv_ring_len (rs_ep st) = R -> Forall msg_ok ms ->
  let pos := last_recv_pos (rs_ep st) in
  0 <= pos -> pos + batch_size ms < 2 ^ 63 -> pos mod 32 = 0 ->
  (ms <> [] -> pos mod R + batch_size ms <= R) ->
  (ms <> [] -> msgs_at (recv_ring (rs_ep st)) (pos mod R) ms) ->
  exists st', process_messages id (length ms) st = Some st' /\ received id ms st st'.
Proof.
  induction ms as [|m ms IH]; intros st HR Hlen Hms pos Hpos Hmax Hal Hfit Hat.
  { exists st. split; [done|]. split; try done; cbn.
    - lia.
    - by rewrite app_nil_r.
    - by exists []. }
  apply Forall_cons in Hms as [Hm Hms]. cbn [batch_size msgs_at length process_messages] in *.
  pose proof (dc_msg_size_spec m Hm) as (M1 & M2 & M3).
  pose proof (batch_size_spec ms Hms) as [B1 _].
  specialize (Hfit ltac:(done)). destruct (Hat ltac:(done)) as [Hrd Hat'].
  pose proof (ring_facts R HR) as (R1 & _).
  destruct (process_message_spec R id st m) as (st1 & -> & Hr1); try done; fold pos; try lia.
  pose proof Hr1 as [(S1 & _) P1 _ _ _]. cbn in P1. rewrite Z.add_0_r in P1. fold pos in P1.
  destruct (IH st1) as (st2 & -> & Hr2); try done; rewrite ?P1.
  - unfold recv_ring_len. by rewrite S1.
  - lia.
  - lia.
  - by apply aligned_add.
  - intros Hne. rewrite mod_in_cycle; [lia|lia|lia|]. destruct ms; [done|].
    apply Forall_cons in Hms as [Hm2 Hms]. pose proof (dc_msg_size_spec _ Hm2).
    pose proof (batch_size_spec ms Hms) as [? _]. cbn in *. lia.
  - intros Hne. rewrite S1, mod_in_cycle; [done|lia|lia|]. destruct ms; [done|].
    apply Forall_cons in Hms as [Hm2 Hms]. pose proof (dc_msg_size_spec _ Hm2).
    pose proof (batch_size_spec ms Hms) as [? _]. cbn in *. lia.
  - exists st2. split; [done|]. by apply (received_cons id m ms st st1).
Qed.

(** The receiver after the header of a batch. *)
Definition after_header e (delta credit : Z) : EndpointInner Slab U :=
  set_last_recv_pos (last_recv_pos e + 32)
    (set_remote_consumer_pos (remote_consumer_pos e + credit)
       (set_recv_ring_producer (recv_ring_producer e + delta) e)).

Lemma read_header ring off delta credit count :
  read_bytes ring off 32 = metadata_bytes delta credit count ->
  is_uint 64 delta -> is_uint 64 credit -> is_uint 32 count ->
  le_value (read_bytes ring off 8) = delta /\ le_value (read_bytes ring (off + 8) 8) = credit /\
  le_value (read_bytes ring (off + 16) 4) = count.
Proof.
  intros E Hd Hc Hn.
  pose proof (decode_metadata_bytes delta credit count []) as D. rewrite app_nil_r, <-E in D.
  unfold decode_flow_metadata in D. rewrite !read_bytes_read in D by lia.
  rewrite Nat.add_0_r in D. injection D as D1 D2 D3. rewrite D1, D2, D3.
  by rewrite !u64_small, u32_small.
Qed.

(** Where the receiver stands: in step with the sender, away from the 64-bit bound. *)
Record receiver_ok (R : Z) e : Prop := mkRecvOk {
  ro_size : ring_size_ok R;
  ro_len : recv_ring_len e = R;
  ro_pos : 0 <= last_recv_pos e < POS_MAX /\ last_recv_pos e mod 32 = 0;
  ro_prod : 0 <= recv_ring_producer e < POS_MAX;
  ro_cons : 0 <= remote_consumer_pos e < POS_MAX;
}.

Lemma process_cqe_header R id st delta credit count :
  receiver_ok R (rs_ep st) -> is_uint 62 delta -> is_uint 62 credit -> is_uint 32 count ->
  read_bytes (recv_ring (rs_ep st)) (Z.to_nat (last_recv_pos (rs_ep st) mod R)) 32 =
    metadata_bytes delta credit count ->
  let e1 := after_header (rs_ep st) delta credit in
  process_cqe id st =
    if count =? WRAP_MESSAGE_COUNT then
      Some (mkRecvState (set_last_recv_pos (u64 (last_recv_pos e1 + u64 (delta - 32))) e1)
              (rs_stack st) (rs_responses st))
    else process_messages id (Z.to_nat count) (mkRecvState e1 (rs_stack st) (rs_responses st)).
Proof.
  intros [HR Hl [Hp Ha] Hpr Hc] Hd Hcr Hn E.
  pose proof (off_facts R (last_recv_pos (rs_ep st)) HR Ha) as (O1 & O2 & _).
  destruct (read_header _ _ _ _ _ E) as (E1 & E2 & E3); [unfold is_uint in *; lia..|done|].
  unfold POS_MAX, is_uint in *. unfold process_cqe. rewrite Hl, dc_ring_land by done.
  rewrite (proj2 (Z.ltb_ge R _)) by lia. rewrite E1, E2, E3. unfold BATCH_HEADER_SIZE.
  cbn [remote_consumer_pos set_recv_ring_producer last_recv_pos set_last_recv_pos].
  rewrite (u64_small (recv_ring_producer _ + _)), (u64_small (remote_consumer_pos _ + _)),
    (u64_small (_ + 32)) by lia.
  unfold after_header. cbn [last_recv_pos set_last_recv_pos].
  by destruct (count =? WRAP_MESSAGE_COUNT).
Qed.

Lemma process_batch R id st ms delta credit :
  receiver_ok R (rs_ep st) -> Forall msg_ok ms -> is_uint 62 delta -> is_uint 62 credit ->
  let e := rs_ep st in
  let off := last_recv_pos e mod R in
  off + 32 + batch_size ms <= R ->
  read_bytes (recv_ring e) (Z.to_nat off) 32 =
    metadata_bytes delta credit (Z.of_nat (length ms)) ->
  msgs_at (recv_ring e) (off + 32) ms ->
  exists st', process_cqe id st = Some st' /\
    received id ms (mkRecvState (after_header e delta credit) (rs_stack st) (rs_responses st)) st'.
Proof.
  intros Hrec Hms Hd Hcr e off Hfit Hh Hat. pose proof Hrec as [HR Hl [Hp Ha] _ _].
  fold e in Hl, Hp, Ha. pose proof (batch_size_spec ms Hms) as [B1 _].
  pose proof (ring_facts R HR) as (R1 & _).
  pose proof (off_facts R (last_recv_pos e) HR Ha) as (O1 & _). fold off in O1.
  rewrite (process_cqe_header R id st delta credit (Z.of_nat (length ms)))
    by (try done; unfold is_uint; lia).
  unfold WRAP_MESSAGE_COUNT, U32_MAX. rewrite (proj2 (Z.eqb_neq _ _)) by lia.
  rewrite Nat2Z.id. unfold POS_MAX in *.
  assert (ms <> [] -> (last_recv_pos e + 32) mod R = off + 32) as Eoff.
  { intros Hne. destruct ms; [done|]. apply mod_in_cycle; [lia|lia|]. fold off. cbn [length] in B1. lia. }
  apply (process_messages_spec R); try done; cbn -[Z.modulo msgs_at].
  - lia.
  - lia.
  - by apply aligned_add.
  - intros Hne. rewrite Eoff by done. lia.
  - intros Hne. by rewrite Eoff by done.
Qed.

Lemma process_wrap R id st delta credit :
  receiver_ok R (rs_ep st) -> 32 <= delta < 2 ^ 62 -> is_uint 62 credit ->
  read_bytes (recv_ring (rs_ep st)) (Z.to_nat (last_recv_pos (rs_ep st) mod R)) 32 =
    metadata_bytes delta credit WRAP_MESSAGE_COUNT ->
  process_cqe id st =
    Some (mkRecvState (set_last_recv_pos (last_recv_pos (rs_ep st) + delta)
                         (after_header (rs_ep st) delta credit))
            (rs_stack st) (rs_responses st)).
Proof.
  intros Hrec Hd Hcr Hh. pose proof Hrec as [_ _ [Hp _] _ _]. unfold POS_MAX in *.
  rewrite (process_cqe_header R id st delta credit WRAP_MESSAGE_COUNT)
    by (try done; unfold is_uint, WRAP_MESSAGE_COUNT, U32_MAX in *; lia).
  rewrite Z.eqb_refl. unfold after_header. cbn [last_recv_pos set_last_recv_pos].
  rewrite (u64_small (delta - 32)) by lia. rewrite u64_small by lia.
  do 3 f_equal. lia.
Qed.

End Receiver.
(** ** The device, and delivery *)

(** A DCI RDMA WRITE with immediate, as the device fetches it. *)
Record DmaWrite : Type := mkDma {
  w_ctrl : Wqe.CtrlSegParams;
  w_remote : Z;
  w_rkey : Z;
  w_len : Z;
  w_lkey : Z;
  w_laddr : Z;
}.

Definition fetch_wqe (b : list Z) (ptr : nat) : DmaWrite :=
  mkDma (Wqe.decode_ctrl_seg b ptr) (Wqe.be_field b (ptr + 64) 8) (Wqe.be_field b (ptr + 72) 4)
    (Wqe.be_field b (ptr + 80) 4) (Wqe.be_field b (ptr + 84) 4) (Wqe.be_field b (ptr + 88) 8).

(** Executing it: bytes of the local region at [saddr] to the remote one at [raddr]. *)
Definition device_write (w : DmaWrite) (sring : list Z) (saddr : Z) (rring : list Z) (raddr : Z)
    : list Z :=
  write_bytes rring (Z.to_nat (w_remote w - raddr))
    (read_bytes sring (Z.to_nat (w_laddr w - saddr)) (Z.to_nat (w_len w))).

Lemma held_field b ptr off seg k n :
  Emit.held b ptr (off, seg) -> 0 <= ptr -> 0 <= off -> (k + n <= length seg)%nat ->
  Wqe.be_field b (Z.to_nat ptr + (Z.to_nat off + k)) n = Wqe.be_field seg k n.
Proof.
  intros Hh Hp Ho Hk. unfold Emit.held in Hh. cbn [fst snd] in Hh.
  unfold Wqe.be_field. rewrite <-Hh, read_bytes_read by done.
  do 2 f_equal. lia.
Qed.

Lemma be_field_here n z rest :
  is_uint (8 * Z.of_nat n) z -> Wqe.be_field (Wqe.be_bytes n z ++ rest) 0 n = z.
Proof.
  intros H. unfold Wqe.be_field.
  rewrite read_bytes_app_l by (rewrite Wqe.length_be_bytes; lia).
  rewrite <-(Wqe.length_be_bytes n z) at 2. rewrite read_bytes_all. by apply Wqe.read_be_value.
Qed.

Lemma be_field_skip m z rest k n :
  Wqe.be_field (Wqe.be_bytes m z ++ rest) (m + k) n = Wqe.be_field rest k n.
Proof.
  rewrite Wqe.be_field_app_r by (rewrite Wqe.length_be_bytes; lia).
  rewrite Wqe.length_be_bytes. f_equal. lia.
Qed.

Lemma fetch_posted {Entry} (q q' : Emit.EmitContext Entry) av fl rdma imm sge entry res :
  is_uint 64 (SendQueue.rdma_remote_addr rdma) -> is_uint 32 (SendQueue.rdma_rkey rdma) ->
  is_uint 32 (SendQueue.sge_len sge) -> is_uint 32 (SendQueue.sge_lkey sge) ->
  is_uint 64 (SendQueue.sge_addr sge) -> 0 <= Emit.res_wqe_ptr res ->
  let r := Emit.mkReq Wqe.RdmaWriteImm fl imm [Emit.SegAv av; Emit.SegRdma rdma; Emit.SegData sge] in
  Emit.posted q r entry q' res ->
  fetch_wqe (Emit.buf q') (Z.to_nat (Emit.res_wqe_ptr res)) =
    mkDma (Emit.req_ctrl r (Emit.res_wqe_idx res) (Emit.sqn q))
      (SendQueue.rdma_remote_addr rdma) (SendQueue.rdma_rkey rdma) (SendQueue.sge_len sge)
      (SendQueue.sge_lkey sge) (SendQueue.sge_addr sge).
Proof.
  intros H1 H2 H3 H4 H5 Hptr r Hp. pose proof (Emit.p_segs _ _ _ _ _ Hp) as Hs.
  change (Forall (Emit.held (Emit.buf q') (Emit.res_wqe_ptr res))
    [(16, Wqe.write_address_vector_ib (Emit.dc_key av) (Emit.dctn av) (Emit.dlid av));
     (64, Wqe.write_rdma_seg (SendQueue.rdma_remote_addr rdma) (SendQueue.rdma_rkey rdma));
     (80, Wqe.write_data_seg (SendQueue.sge_len sge) (SendQueue.sge_lkey sge)
            (SendQueue.sge_addr sge))]) in Hs.
  apply Forall_cons in Hs as [_ Hs]. apply Forall_cons in Hs as [Hr Hs].
  apply Forall_cons in Hs as [Hd _]. unfold fetch_wqe. rewrite (Emit.p_ctrl _ _ _ _ _ Hp).
  assert (forall k n, (k + n <= 16)%nat ->
    Wqe.be_field (Emit.buf q') (Z.to_nat (Emit.res_wqe_ptr res) + (64 + k)) n =
    Wqe.be_field (Wqe.write_rdma_seg (SendQueue.rdma_remote_addr rdma) (SendQueue.rdma_rkey rdma)) k n)
    as Er by (intros k n Hk; apply (held_field _ _ 64); try done; by rewrite Wqe.length_rdma_seg).
  assert (forall k n, (k + n <= 16)%nat ->
    Wqe.be_field (Emit.buf q') (Z.to_nat (Emit.res_wqe_ptr res) + (80 + k)) n =
    Wqe.be_field (Wqe.write_data_seg (SendQueue.sge_len sge) (SendQueue.sge_lkey sge)
      (SendQueue.sge_addr sge)) k n)
    as Ed by (intros k n Hk; apply (held_field _ _ 80); try done; by rewrite Wqe.length_data_seg).
  pose proof (Er 0%nat 8%nat ltac:(lia)) as E1. pose proof (Er (8 + 0)%nat 4%nat ltac:(lia)) as E2.
  pose proof (Ed 0%nat 4%nat ltac:(lia)) as E3. pose proof (Ed (4 + 0)%nat 4%nat ltac:(lia)) as E4.
  pose proof (Ed (4 + (4 + 0))%nat 8%nat ltac:(lia)) as E5.
  unfold Wqe.write_rdma_seg, Wqe.write_data_seg in *.
  rewrite be_field_here in E1 by done. rewrite be_field_skip, be_field_here in E2 by done.
  rewrite be_field_here in E3 by done. rewrite be_field_skip, be_field_here in E4 by done.
  rewrite !be_field_skip in E5.
  rewrite <-(app_nil_r (Wqe.be_bytes 8 _)) in E5. rewrite be_field_here in E5 by done.
  cbn [Nat.add] in *. by rewrite E1, E2, E3, E4, E5.
Qed.

Section Delivery.
Context {Slab : Type -> Type} `{!SlabOps Slab, !SlabLaws Slab} {U : Type}.
Implicit Types (e r : EndpointInner Slab U).

(** [r] is the endpoint [e] sends to, in step with it. *)
Record linked (R : Z) e (rr : RemoteRingInfo) r : Prop := mkLinked {
  li_recv : receiver_ok R r;
  li_size : Rc.size rr = R;
  li_addr : Rc.addr rr = recv_mr_addr r;
  li_id : remote_endpoint_id e = endpoint_id r;
  li_pos : last_recv_pos r = meta_pos e;
}.

(** The local bytes of the batch when the device reads them. *)
Definition batch_bytes_in S e (sring ring : list Z) : Prop :=
  forall j, 0 <= j < send_ring_producer e - meta_pos e ->
    sring !! Z.to_nat (meta_off S e + j) = ring !! Z.to_nat (meta_off S e + j).

(** The device executes the posted request: the batch region arrives. *)
Lemma device_delivers S R e ms rr rd r (ctx ctx' : Dci) res count sring :
  ep_ok S e ms -> peer_ok S e rr rd -> linked R e rr r ->
  Emit.posted ctx (fst (Emit.request (batch_verb S e rr rd))) (batch_entry e) ctx' res ->
  batch_bytes_in S e sring (send_ring (headed S e count)) ->
  length sring = length (send_ring e) -> Emit.ctx_ok ctx ->
  let w := fetch_wqe (Emit.buf ctx') (Z.to_nat (Emit.res_wqe_ptr res)) in
  let ring' := device_write w sring (send_mr_addr e) (recv_ring r) (recv_mr_addr r) in
  Wqe.imm (w_ctrl w) = endpoint_id r /\ length ring' = length (recv_ring r) /\
  forall j, 0 <= j < send_ring_producer e - meta_pos e ->
    ring' !! Z.to_nat (meta_pos e mod R + j) =
    send_ring (headed S e count) !! Z.to_nat (meta_off S e + j).
Proof.
  intros Hok Hpe Hli Hpost Hsr Hlen Hctx w ring'. pose proof Hpe as [P1 P2 [P3 P3'] P4 P5 P6 P7 P8].
  destruct Hli as [[HR Hrl _ _ _] L2 L3 L4 L5]. rewrite <-L2 in *. clear L2 R.
  pose proof (producer_bounds S e ms Hok) as [Hpr _].
  pose proof Hok as [Hs Hl [Hp Ha] _ _ _ _]. unfold send_ring_len, recv_ring_len in *.
  pose proof (ring_facts S Hs) as (R1 & _). pose proof (ring_facts _ HR) as (R2 & _).
  pose proof (off_facts S (meta_pos e) Hs Ha) as (O1 & O2 & _). fold (meta_off S e) in *.
  pose proof (remote_room S (Rc.size rr) (meta_pos e) (send_ring_producer e - meta_pos e) Hs HR P3'
    ltac:(lia) ltac:(unfold meta_off in *; lia)) as Hrem.
  pose proof (Z.mod_pos_bound (meta_pos e) (Rc.size rr) ltac:(lia)) as Hmr.
  assert (0 <= Emit.res_wqe_ptr res) as Hptr.
  { rewrite (Emit.p_ptr _ _ _ _ _ Hpost).
    destruct Hctx as (Hcok & _). pose proof (SendQueue.wqe_cnt_pos _ Hcok) as Hpos. cbn in Hpos.
    pose proof (Z.mod_pos_bound (Emit.res_wqe_idx res) _ Hpos). lia. }
  assert (w = mkDma (Emit.req_ctrl (fst (Emit.request (batch_verb S e rr rd))) (Emit.res_wqe_idx res)
      (Emit.sqn ctx)) (Rc.addr rr + meta_pos e mod Rc.size rr) (Rc.rkey rr)
      (send_ring_producer e - meta_pos e) (send_mr_lkey e) (send_mr_addr e + meta_off S e)) as Ew.
  { apply (fetch_posted ctx ctx' _ _ (SendQueue.mkRdma _ _) _ (SendQueue.mkSge _ _ _)
      (batch_entry e) res); try done; unfold is_uint; cbn; lia. }
  subst ring'. rewrite Ew. unfold device_write. cbn [w_ctrl w_remote w_laddr w_len].
  split; [done|]. rewrite <-L3.
  replace (Rc.addr rr + meta_pos e mod Rc.size rr - Rc.addr rr) with (meta_pos e mod Rc.size rr) by lia.
  replace (send_mr_addr e + meta_off S e - send_mr_addr e) with (meta_off S e) by lia.
  set (n := send_ring_producer e - meta_pos e) in *.
  assert (length (read_bytes sring (Z.to_nat (meta_off S e)) (Z.to_nat n)) = Z.to_nat n) as Hlr.
  { apply length_read_bytes. lia. }
  split; [apply length_write_bytes; lia|].
  intros j Hj. rewrite lookup_write_bytes by lia. rewrite Hlr, decide_True by lia.
  rewrite lookup_read_bytes by lia. rewrite <-Hsr by done. f_equal. lia.
Qed.

(** The header of the batch in the ring after the write. *)
Lemma header_arrives S R e ms r ring' count :
  ep_ok S e ms -> receiver_ok R r -> length ring' = length (recv_ring r) ->
  32 <= send_ring_producer e - meta_pos e ->
  (forall j, 0 <= j < send_ring_producer e - meta_pos e ->
    ring' !! Z.to_nat (meta_pos e mod R + j) =
    send_ring (headed S e count) !! Z.to_nat (meta_off S e + j)) ->
  read_bytes ring' (Z.to_nat (meta_pos e mod R)) 32 =
    metadata_bytes (send_ring_producer e - meta_pos e) (credit_return e) count.
Proof.
  intros Hok [HR _ _ _ _] Hlen Hd Hj. pose proof Hok as [Hs Hl [Hp Ha] _ _ _ _].
  unfold send_ring_len in Hl. pose proof (off_facts S (meta_pos e) Hs Ha) as (O1 & O2 & _).
  pose proof (off_facts R (meta_pos e) HR Ha) as (O3 & _). fold (meta_off S e) in *.
  rewrite (read_bytes_ext _ (send_ring (headed S e count)) _ (Z.to_nat (meta_off S e))).
  - cbn [headed send_ring set_send_ring].
    apply (read_write_n _ _ _ 32); rewrite ?length_metadata_bytes; lia.
  - intros i Hi. specialize (Hj (Z.of_nat i)).
    replace (Z.to_nat (meta_pos e mod R) + i)%nat with (Z.to_nat (meta_pos e mod R + Z.of_nat i)) by lia.
    replace (Z.to_nat (meta_off S e) + i)%nat with (Z.to_nat (meta_off S e + Z.of_nat i)) by lia.
    apply Hj. lia.
Qed.

Lemma headed_bytes S e count : send_ring (sent S e count) = send_ring (headed S e count).
Proof. unfold sent, signal_update. by destruct (signals _). Qed.

Lemma set_recv_ring_ok R r ring' :
  receiver_ok R r -> length ring' = length (recv_ring r) -> receiver_ok R (set_recv_ring ring' r).
Proof.
  intros [H1 H2 H3 H4 H5] Hl. split; try done. unfold recv_ring_len in *. cbn. by rewrite Hl.
Qed.

(** C21: a DC batch arrives whole and in order: after a successful emission the
    device, executing the bytes of the posted work request, writes the batch into
    the receiver's ring and names the receiving endpoint in the immediate value;
    processing the completion hands over exactly the batch's messages (requests
    with their payload readable in the ring, responses to their pending calls),
    returns the sender's credit, and leaves the receiver where the sender's next
    batch will start. *)
Theorem dc_batch_delivery S R e ms rr rd r (ctx ctx' : Dci) e' sring stack resp :
  ep_ok S e ms -> batch_open S e ms -> peer_ok S e rr rd -> recv_ok e -> Emit.ctx_ok ctx ->
  linked R e rr r ->
  emit_batch e (Some ctx) (Z.of_nat (length ms)) = Some (e', Some ctx', Ok tt) ->
  batch_bytes_in S e sring (send_ring e') -> length sring = length (send_ring e) ->
  exists ptr size, Emit.last_wqe ctx' = Some (ptr, size) /\
  let w := fetch_wqe (Emit.buf ctx') (Z.to_nat ptr) in
  let ring' := device_write w sring (send_mr_addr e) (recv_ring r) (recv_mr_addr r) in
  Wqe.imm (w_ctrl w) = endpoint_id r /\
  exists st',
    process_cqe (endpoint_id r) (mkRecvState (set_recv_ring ring' r) stack resp) = Some st' /\
    last_recv_pos (rs_ep st') = meta_pos (prepare_next_batch e') /\
    remote_consumer_pos (rs_ep st') = remote_consumer_pos r + credit_return e /\
    pending_calls (rs_ep st') = fst (respond (pending_calls r) ms) /\
    rs_responses st' = resp ++ snd (respond (pending_calls r) ms) /\
    exists new, rs_stack st' = new ++ stack /\
      map (request_view ring') new = rev (requests ms) /\
      Forall (fun m => msg_endpoint_id m = endpoint_id r) new.
Proof.
  intros Hok Ho Hpe Hrv Hctx Hli Hem Hsr Hlen.
  destruct (emit_step S e ms rr rd ctx (Z.of_nat (length ms)) Hok Hpe Hrv Hctx)
    as [[Hx _]|(c' & res & Hx & Hpost)]; rewrite Hx in Hem; [done|].
  injection Hem as <- <-. rewrite headed_bytes in Hsr.
  exists (Emit.res_wqe_ptr res), (Emit.res_wqe_size res).
  split; [apply (Emit.p_last _ _ _ _ _ Hpost)|]. cbv zeta.
  destruct (device_delivers S R e ms rr rd r ctx c' res _ sring Hok Hpe Hli Hpost Hsr Hlen Hctx)
    as (Himm & Hrl & Hj). split; [done|].
  set (ring' := device_write _ _ _ _ _) in *.
  pose proof Hli as [Hrec _ _ _ Hpos]. pose proof (batch_bounds S e ms Hok Ho) as [B1 B2].
  pose proof Ho as (Hprod & _ & Hat). pose proof (ok_msgs _ _ _ Hok) as Hms.
  pose proof Hok as [Hs Hl [Hp Ha] _ _ _ _]. pose proof (ring_facts S Hs) as (R1 & _).
  pose proof Hpe as [_ _ [_ HSR] _ _ _ _ _].
  rewrite (li_size _ _ _ _ Hli) in HSR. pose proof Hrec as [HR _ _ _ _].
  pose proof (off_facts R (meta_pos e) HR Ha) as (O3 & _).
  pose proof (off_facts S (meta_pos e) Hs Ha) as (O1 & _). fold (meta_off S e) in *.
  pose proof (remote_room S R (meta_pos e) (32 + batch_size ms) Hs HR HSR ltac:(lia)
    ltac:(unfold meta_off in *; lia)) as Hrem.
  destruct Hrv as [Hv1 Hv2]. unfold POS_MAX in *.
  destruct (process_batch R (endpoint_id r) (mkRecvState (set_recv_ring ring' r) stack resp) ms
    (send_ring_producer e - meta_pos e) (credit_return e)) as (st' & Hpc & Hrc);
    cbn -[Z.modulo]; rewrite ?Hpos; try done.
  - by apply set_recv_ring_ok.
  - unfold is_uint. lia.
  - unfold is_uint, credit_return. lia.
  - lia.
  - apply (header_arrives S R e ms r); try done. lia.
  - apply (dc_msgs_at_ext (send_ring (headed S e (Z.of_nat (length ms)))) _ (meta_off S e + 32));
      try done; try lia.
    + intros j Hj'. rewrite <-!Z.add_assoc. apply Hj. lia.
    + destruct (headed_ok S e ms (Z.of_nat (length ms)) Hok) as [_ _ _ _ _ _ [(_ & _ & H)|H]]; [done|].
      destruct H as (-> & _). done.
  - exists st'. split; [exact Hpc|]. destruct Hrc as [(S1 & S2 & _) P1 D1 Rs1 Hst].
    cbn in S1, S2, P1, D1, Rs1. split; [|split; [done|split; [done|split; [done|]]]].
    + rewrite P1, Hpos. unfold sent, signal_update. destruct (signals _); cbn; lia.
    + destruct Hst as (new & N1 & N2 & N3). exists new. done.
Qed.

(** A DC wrap brings both sides to the next cycle wherever in the ring it is
    sent, also from the last header slot: after a successful wrap the device write
    makes the receiver skip to the start of the next cycle, exactly where the
    sender's next batch begins, without touching messages or calls. *)
Theorem dc_wrap_delivery S R e rr rd r (ctx ctx' : Dci) e' sring stack resp :
  ep_ok S e [] -> wrap_pending e = true -> peer_ok S e rr rd -> recv_ok e -> Emit.ctx_ok ctx ->
  meta_pos e + S < POS_MAX -> linked R e rr r ->
  emit_wrap e (Some ctx) = Some (e', Some ctx', Ok tt) ->
  batch_bytes_in S (set_send_ring_producer (meta_pos e + (S - meta_off S e)) e) sring (send_ring e') ->
  length sring = length (send_ring e) ->
  exists ptr size, Emit.last_wqe ctx' = Some (ptr, size) /\
  let w := fetch_wqe (Emit.buf ctx') (Z.to_nat ptr) in
  let ring' := device_write w sring (send_mr_addr e) (recv_ring r) (recv_mr_addr r) in
  Wqe.imm (w_ctrl w) = endpoint_id r /\
  exists r',
    process_cqe (endpoint_id r) (mkRecvState (set_recv_ring ring' r) stack resp) =
      Some (mkRecvState r' stack resp) /\
    last_recv_pos r' = meta_pos e' /\ meta_pos e' mod S = 0 /\ meta_pos e < meta_pos e' /\
    remote_consumer_pos r' = remote_consumer_pos r + credit_return e /\
    pending_calls r' = pending_calls r.
Proof.
  intros Hok Hw Hpe Hrv Hctx Hmax Hli Hem Hsr Hlen.
  pose proof Hok as [Hs Hl [Hp Ha] Hf Hcnt Hms _]. pose proof (ring_facts S Hs) as (R1 & _).
  pose proof (off_facts S (meta_pos e) Hs Ha) as (O1 & O2 & _). fold (meta_off S e) in *.
  destruct (emit_wrap_eq S e (Some ctx) Hok Hw Hmax) as [Hokw Heq]. rewrite Heq in Hem. clear Heq.
  set (ew := set_send_ring_producer (meta_pos e + (S - meta_off S e)) e) in *.
  assert (peer_ok S ew rr rd) as Hpew by by destruct Hpe.
  assert (linked R ew rr r) as Hliw by by destruct Hli.
  destruct (emit_step S ew [] rr rd ctx WRAP_MESSAGE_COUNT Hokw Hpew Hrv Hctx)
    as [[Hx _]|(c' & res & Hx & Hpost)]; rewrite Hx in Hem; [done|].
  injection Hem as <- <-.
  change (send_ring (prepare_next_batch (sent S ew WRAP_MESSAGE_COUNT)))
    with (send_ring (sent S ew WRAP_MESSAGE_COUNT)) in Hsr. rewrite headed_bytes in Hsr.
  exists (Emit.res_wqe_ptr res), (Emit.res_wqe_size res).
  split; [apply (Emit.p_last _ _ _ _ _ Hpost)|]. cbv zeta.
  destruct (device_delivers S R ew [] rr rd r ctx c' res _ sring Hokw Hpew Hliw Hpost Hsr Hlen Hctx)
    as (Himm & Hrl & Hj). split; [done|].
  change (send_mr_addr ew) with (send_mr_addr e) in *.
  set (ring' := device_write _ _ _ _ _) in *. pose proof Hli as [Hrec _ _ _ Hpos].
  pose proof (header_arrives S R ew [] r ring' WRAP_MESSAGE_COUNT Hokw Hrec Hrl) as Hh.
  cbn [send_ring_producer meta_pos ew set_send_ring_producer] in Hh, Hj.
  replace (meta_pos e + (S - meta_off S e) - meta_pos e) with (S - meta_off S e) in Hh, Hj by lia.
  specialize (Hh ltac:(lia) Hj). destruct Hrv as [Hv1 Hv2]. unfold POS_MAX in *.
  rewrite (process_wrap R _ (mkRecvState (set_recv_ring ring' r) stack resp)
    (S - meta_off S e) (credit_return e)).
  - eexists. split; [done|]. assert (meta_pos (prepare_next_batch (sent S ew WRAP_MESSAGE_COUNT))
      = meta_pos e + (S - meta_off S e)) as ->
      by (unfold sent, signal_update; by destruct (signals _)).
    cbn -[Z.modulo]. split; [lia|]. split; [|split; [lia|done]].
    pose proof (Z.div_mod (meta_pos e) S ltac:(lia)) as Hdm. unfold meta_off.
    replace (meta_pos e + (S - meta_pos e mod S)) with ((meta_pos e / S + 1) * S) by lia.
    apply Z.mod_mul. lia.
  - by apply set_recv_ring_ok.
  - lia.
  - unfold is_uint, credit_return. lia.
  - cbn [rs_ep recv_ring set_recv_ring last_recv_pos]. rewrite Hpos. exact Hh.
Qed.

End Delivery.

(** ** A connected pair *)

#[local] Existing Instance RcProps.list_slab_ops.
#[local] Existing Instance RcProps.list_slab_laws.

(** A freshly connected endpoint satisfies the invariant, with no message. *)
Lemma connect_ok {Slab : Type -> Type} `{!SlabOps Slab} {U : Type}
    cfg_send cfg_recv id saddr slkey raddr rrkey remote :
  ring_size_ok (Ring.next_power_of_two cfg_send) ->
  ep_ok (Ring.next_power_of_two cfg_send)
    (connect (endpoint_new (Slab := Slab) (U := U) cfg_send cfg_recv id saddr slkey raddr rrkey) remote)
    [].
Proof.
  intros Hs. pose proof (ring_facts _ Hs) as (R1 & _).
  split; cbn; try done.
  - unfold send_ring_len. cbn [send_ring connect prepare_next_batch endpoint_new
      set_send_ring_producer set_batch_message_count set_meta_pos set_remote_consumer_pos
      set_remote_endpoint_id set_remote_dct set_remote_recv_ring]. rewrite length_replicate. lia.
  - left. by split.
Qed.

Definition demo_info (id addr rkey : Z) : RemoteEndpointInfo := mkRemoteInfo 33 5 2 addr rkey 128 64 id.
Definition demo_a : EndpointInner RcProps.ListSlab Z :=
  connect (endpoint_new 128 128 1 4096 7 8192 9) (demo_info 2 65536 11).
Definition demo_b : EndpointInner RcProps.ListSlab Z :=
  connect (endpoint_new 128 128 2 32768 12 65536 11) (demo_info 1 8192 9).
Definition demo_dci : Dci :=
  Emit.mkCtx (replicate 1024 0) 16 77 0 0 None (replicate 16 None).
Definition demo_rr : RemoteRingInfo := Rc.mkRemote 65536 11 128.
Definition demo_rd : RemoteDctInfo := mkDct 33 5 2.
Definition demo_msg : Msg := (0, [10; 20; 30]).
Definition demo_batch : EndpointInner RcProps.ListSlab Z := appended 128 demo_a demo_msg.

Lemma demo_size : ring_size_ok 128.
Proof. exists 7. split; [lia|reflexivity]. Qed.

Lemma demo_a_ok : ep_ok 128 demo_a [].
Proof. apply (connect_ok 128 128 1 4096 7 8192 9 (demo_info 2 65536 11)). apply demo_size. Qed.

Lemma demo_credit : credit_ok demo_a demo_rr.
Proof. split; [reflexivity|]. vm_compute. repeat split; congruence. Qed.

Lemma demo_peer : peer_ok 128 demo_a demo_rr demo_rd.
Proof.
  split; try reflexivity; [split; [apply demo_size|cbn; lia]|..];
    vm_compute; repeat split; congruence.
Qed.

Lemma demo_recv : recv_ok demo_a.
Proof. vm_compute. repeat split; congruence. Qed.

Lemma demo_dci_ok : Emit.ctx_ok demo_dci.
Proof. vm_compute. repeat split; congruence. Qed.

Lemma demo_batch_ok : ep_ok 128 demo_batch [demo_msg].
Proof.
  apply (append_spec 128 demo_a [] demo_msg); [apply demo_a_ok|vm_compute; repeat split; congruence|].
  reflexivity.
Qed.

Lemma demo_batch_peer : peer_ok 128 demo_batch demo_rr demo_rd.
Proof. by destruct demo_peer. Qed.

Lemma demo_linked : linked 128 demo_batch demo_rr demo_b.
Proof.
  split; try reflexivity. split; [apply demo_size|reflexivity|..];
    vm_compute; repeat split; congruence.
Qed.

Lemma dc_call_correct_witness :
  exists e' dl', call demo_a DirtyList.new [10; 20; 30] 99 = Some (e', dl', Ok 0) /\
    represents dl' [1] /\ ep_ok 128 e' [(0, [10; 20; 30])].
Proof.
  destruct (dc_call_correct 128 demo_a [] demo_rr DirtyList.new [] [10; 20; 30] 99)
    as (e' & dl' & r & E & Hr & H);
    [apply demo_a_ok|apply demo_credit|cbn; lia|cbn; lia|exact new_represents|done|].
  assert (is_ok r = true) as Hk.
  { revert E. vm_compute. by intros [= _ _ <-]. }
  destruct r as [id|err]; [|done]. assert (id = 0) as ->.
  { revert E. vm_compute. by intros [= _ _ <-]. }
  exists e', dl'. split; [exact E|]. split; [exact Hr|]. apply H.
Defined.

Lemma dc_reply_correct_witness :
  exists e' dl' r, reply demo_a DirtyList.new 3 [7] = Some (e', dl', r) /\
    represents dl' (enqueue 1 []).
Proof.
  destruct (dc_reply_correct 128 demo_a [] demo_rr DirtyList.new [] 3 [7])
    as (e' & dl' & r & E & Hr & _);
    [apply demo_a_ok|apply demo_credit|cbn; lia|done|exact new_represents|done|].
  by exists e', dl', r.
Defined.

Lemma dc_flush_correct_witness :
  exists e' ctx', emit_pending demo_batch (Some demo_dci) = Some (e', Some ctx', Ok true) /\
    ep_ok 128 e' [].
Proof.
  destruct (dc_flush_correct 128 demo_batch [demo_msg] demo_rr demo_rd demo_dci)
    as (e' & ctx' & r & E & _ & _ & H);
    [apply demo_batch_ok|apply demo_batch_peer|apply demo_recv|apply demo_dci_ok|done|].
  assert (r = Ok true) as ->.
  { assert (match emit_pending demo_batch (Some demo_dci) with
            | Some (_, _, r) => r | None => Err Rc.RingFull end = Ok true) as Ev
      by (vm_compute; reflexivity). by rewrite E in Ev. }
  exists e', ctx'. split; [exact E|]. apply H.
Defined.

(** The sender and the queue after the batch was posted. *)
Definition demo_sent : EndpointInner RcProps.ListSlab Z * Dci :=
  match emit_batch demo_batch (Some demo_dci) 1 with
  | Some (e, Some q, Ok _) => (e, q)
  | _ => (demo_batch, demo_dci)
  end.

Lemma dc_batch_delivery_witness :
  exists ptr size, Emit.last_wqe demo_sent.2 = Some (ptr, size) /\
  exists st', process_cqe 2 (mkRecvState (set_recv_ring
      (device_write (fetch_wqe (Emit.buf demo_sent.2) (Z.to_nat ptr)) (send_ring demo_sent.1) 4096
         (recv_ring demo_b) 65536) demo_b) [] []) = Some st' /\
    last_recv_pos (rs_ep st') = 64.
Proof.
  destruct (dc_batch_delivery 128 128 demo_batch [demo_msg] demo_rr demo_rd demo_b demo_dci
    demo_sent.2 demo_sent.1 (send_ring demo_sent.1) [] [])
    as (ptr & size & E & _ & st' & Hst & Hpos & _).
  - apply demo_batch_ok.
  - vm_compute. repeat split; congruence.
  - apply demo_batch_peer.
  - apply demo_recv.
  - apply demo_dci_ok.
  - apply demo_linked.
  - vm_compute. reflexivity.
  - intros j _. reflexivity.
  - vm_compute. reflexivity.
  - exists ptr, size. split; [exact E|]. exists st'. split; [exact Hst|].
    rewrite Hpos. vm_compute. reflexivity.
Defined.

(** A wrap from the freshly connected endpoint. *)
Definition demo_wrap : EndpointInner RcProps.ListSlab Z := set_wrap_pending true demo_a.

Definition demo_wrapped : EndpointInner RcProps.ListSlab Z * Dci :=
  match emit_wrap demo_wrap (Some demo_dci) with
  | Some (e, Some q, Ok _) => (e, q)
  | _ => (demo_wrap, demo_dci)
  end.

Lemma wrap_scheduled_ok {Slab : Type -> Type} {U : Type} S (e : EndpointInner Slab U) ms rr rd :
  ep_ok S e ms -> peer_ok S e rr rd ->
  ep_ok S (set_wrap_pending true e) ms /\ peer_ok S (set_wrap_pending true e) rr rd.
Proof. intros Hok Hpe. split; [by apply (ep_ok_ext S e)|by destruct Hpe]. Qed.

Lemma demo_wrap_ok : ep_ok 128 demo_wrap [] /\ peer_ok 128 demo_wrap demo_rr demo_rd.
Proof. exact (wrap_scheduled_ok 128 demo_a [] demo_rr demo_rd demo_a_ok demo_peer). Qed.

Lemma demo_wrap_recv : recv_ok demo_wrap.
Proof. vm_compute. repeat split; congruence. Qed.

Lemma demo_wrap_linked : linked 128 demo_wrap demo_rr demo_b.
Proof. destruct demo_linked. split; try assumption; vm_compute; reflexivity. Qed.

Lemma dc_wrap_delivery_witness :
  exists ptr size r', Emit.last_wqe demo_wrapped.2 = Some (ptr, size) /\
    process_cqe 2 (mkRecvState (set_recv_ring
      (device_write (fetch_wqe (Emit.buf demo_wrapped.2) (Z.to_nat ptr)) (send_ring demo_wrapped.1)
         4096 (recv_ring demo_b) 65536) demo_b) [] []) = Some (mkRecvState r' [] []) /\
    last_recv_pos r' = 128.
Proof.
  destruct (dc_wrap_delivery 128 128 demo_wrap demo_rr demo_rd demo_b demo_dci
    demo_wrapped.2 demo_wrapped.1 (send_ring demo_wrapped.1) [] [])
    as (ptr & size & E & _ & r' & Hst & Hpos & _).
  - apply demo_wrap_ok.
  - reflexivity.
  - apply demo_wrap_ok.
  - apply demo_wrap_recv.
  - apply demo_dci_ok.
  - vm_compute. reflexivity.
  - apply demo_wrap_linked.
  - vm_compute. reflexivity.
  - intros j _. reflexivity.
  - vm_compute. reflexivity.
  - exists ptr, size, r'. split; [exact E|]. split; [exact Hst|].
    rewrite Hpos. vm_compute. reflexivity.
Defined.

End DcProps.
