(* ===== verification/DcContext.v ===== *)
(** * DcContext: the context of the DC transport, [copyrpc/src/dc.rs]

    The endpoints of a process share one DCI, one DCT with its shared receive
    queue and one list of dirty endpoints.  An endpoint is owned by the context
    under its number, which is how handles, received requests and the dirty list
    refer to it; the table is a finite map ([FastMap] refines one).  The receive
    queue is the model of [Srq], the DCI's send queue the one of [Emit]. *)
From S2P Require Import Prelude FastMap Encoding Ring SendQueue Rc RcProps Wqe Emit Srq DirtyList Dc DcProps.

Module DcContext.
Import Encoding DirtyList Dc DcProps.

(** A completion of the receive queue: an error, or the immediate value. *)
Inductive RecvCqe : Type := CqeError | CqeImm (imm : Z).

Section Context.
Context {Slab : Type -> Type} `{!SlabOps Slab} {U : Type}.

(** [struct Context<U>]; [dci_dbrec] is the producer index the device was shown. *)
Record Context : Type := mkContext {
  srq : Srq.SrqState unit;
  srq_posted : Z;
  srq_max_wr : Z;
  dci : option Dci;
  dci_dbrec : Z;
  endpoints : gmap Z (EndpointInner Slab U);
  dirty_endpoints : DirtyEndpointList;
  pending_send_cqes : Z;
  recv_stack : list RecvMessage;
  next_endpoint_id : Z;
}.
Implicit Types (c : Context) (e : EndpointInner Slab U).

Definition set_srq c (s : Srq.SrqState unit) (posted : Z) : Context :=
  mkContext s posted (srq_max_wr c) (dci c) (dci_dbrec c) (endpoints c) (dirty_endpoints c)
    (pending_send_cqes c) (recv_stack c) (next_endpoint_id c).
Definition set_dci c (q : option Dci) (db : Z) : Context :=
  mkContext (srq c) (srq_posted c) (srq_max_wr c) q db (endpoints c) (dirty_endpoints c)
    (pending_send_cqes c) (recv_stack c) (next_endpoint_id c).
Definition set_endpoint c (id : Z) e : Context :=
  mkContext (srq c) (srq_posted c) (srq_max_wr c) (dci c) (dci_dbrec c) (<[id := e]> (endpoints c))
    (dirty_endpoints c) (pending_send_cqes c) (recv_stack c) (next_endpoint_id c).
Definition set_dirty c (dl : DirtyEndpointList) : Context :=
  mkContext (srq c) (srq_posted c) (srq_max_wr c) (dci c) (dci_dbrec c) (endpoints c) dl
    (pending_send_cqes c) (recv_stack c) (next_endpoint_id c).
Definition set_pending_send c (n : Z) : Context :=
  mkContext (srq c) (srq_posted c) (srq_max_wr c) (dci c) (dci_dbrec c) (endpoints c)
    (dirty_endpoints c) n (recv_stack c) (next_endpoint_id c).
Definition set_recv_stack c (s : list RecvMessage) : Context :=
  mkContext (srq c) (srq_posted c) (srq_max_wr c) (dci c) (dci_dbrec c) (endpoints c)
    (dirty_endpoints c) (pending_send_cqes c) s (next_endpoint_id c).

(** [n] times [let _ = srq.post_recv(SrqEntry, 0, 0, 0)]. *)
Fixpoint post_recvs (n : nat) (s : Srq.SrqState unit) : Srq.SrqState unit :=
  match n with
  | O => s
  | S n => post_recvs n (Srq.post_recv s tt 0 0 0).1
  end.

(** [ContextBuilder::build], given the receive queue's buffer and the send queue. *)
Definition build (srq_buf : list Z) (srq_cnt srq_stride max_wr : Z) (q : option Dci) : Context :=
  let s := Srq.srq_init srq_buf srq_cnt srq_stride in
  let s := Srq.ring_doorbell (post_recvs (Z.to_nat max_wr) s) in
  mkContext s max_wr max_wr q 0 ∅ DirtyList.new 0 [] 1.

Definition mark_endpoint_dirty c (id : Z) : option Context :=
  match push_back id (dirty_endpoints c) with
  | Some dl => Some (set_dirty c dl)
  | None => None
  end.

Definition has_dirty_endpoints c : bool := negb (DirtyList.is_empty (dirty_endpoints c)).

Definition create_endpoint c (cfg_send cfg_recv saddr slkey raddr rrkey : Z) : Context * Z :=
  let id := next_endpoint_id c in
  let inner := endpoint_new cfg_send cfg_recv id saddr slkey raddr rrkey in
  (mkContext (srq c) (srq_posted c) (srq_max_wr c) (dci c) (dci_dbrec c)
     (<[id := inner]> (endpoints c)) (dirty_endpoints c) (pending_send_cqes c) (recv_stack c)
     (u32 (id + 1)), id).

(** ** Receiving *)

(** The closure given to [poll_raw], on one completion: endpoints, request stack
    and the responses handed to the callback. *)
Definition on_recv_cqe (cqe : RecvCqe) (st : Context * list (U * list Z))
    : option (Context * list (U * list Z)) :=
  let '(c, resp) := st in
  match cqe with
  | CqeError => Some st
  | CqeImm id =>
      match endpoints c !! id with
      | None => Some st
      | Some e =>
          match process_cqe id (mkRecvState e (recv_stack c) resp) with
          | None => None
          | Some rs => Some (set_recv_stack (set_endpoint c id (rs_ep rs)) (rs_stack rs),
                             rs_responses rs)
          end
      end
  end.

Fixpoint drain_recv (cqes : list RecvCqe) (st : Context * list (U * list Z))
    : option (Context * list (U * list Z)) :=
  match cqes with
  | [] => Some st
  | cqe :: cqes => match on_recv_cqe cqe st with
                   | Some st => drain_recv cqes st
                   | None => None
                   end
  end.

(** The accounting at the end of both polling functions: [srq_posted], and the
    refill below two thirds. *)
Definition refill c (recv_count : Z) : Context :=
  let posted := saturating_sub (srq_posted c) recv_count in
  let threshold := u32 (srq_max_wr c * 2) / 3 in
  if posted <? threshold then
    let to_post := u32 (srq_max_wr c - posted) in
    set_srq c (Srq.ring_doorbell (post_recvs (Z.to_nat to_post) (srq c))) (srq_max_wr c)
  else set_srq c (srq c) posted.

Definition poll_recv_counted c (cqes : list RecvCqe) : option (Context * list (U * list Z) * Z) :=
  match drain_recv cqes (c, []) with
  | None => None
  | Some (c, resp) =>
      let recv_count := u32 (Z.of_nat (length cqes)) in
      if 0 <? recv_count then
        let c := set_srq c (Srq.advance_ci (srq c) recv_count) (srq_posted c) in
        Some (refill c recv_count, resp, recv_count)
      else Some (c, resp, recv_count)
  end.

Definition poll_recv c (cqes : list RecvCqe) : option (Context * list (U * list Z)) :=
  match poll_recv_counted c cqes with
  | Some (c, resp, _) => Some (c, resp)
  | None => None
  end.

(** [RecvPoller::poll]. *)
Definition poller_poll c (cqes : list RecvCqe) : option (Context * list (U * list Z) * Z) :=
  match cqes with
  | [] => Some (c, [], 0)
  | _ =>
      match drain_recv cqes (c, []) with
      | None => None
      | Some (c, resp) =>
          let recv_count := u32 (Z.of_nat (length cqes)) in
          if 0 <? recv_count then Some (refill c recv_count, resp, recv_count)
          else Some (c, resp, recv_count)
      end
  end.

(** [recv]: the last request, its payload read from the endpoint's ring. *)
Definition recv c : Context * option (RecvMessage * list Z) :=
  match recv_stack c with
  | [] => (c, None)
  | m :: stack =>
      let data := match endpoints c !! msg_endpoint_id m with
                  | Some e => read_bytes (recv_ring e) (Z.to_nat (data_offset m))
                                (Z.to_nat (data_len m))
                  | None => []
                  end in
      (set_recv_stack c stack, Some (m, data))
  end.

(** ** Sending *)

(** [process_completion] of the DCI's send queue. *)
Definition process_completion (q : Dci) (wqe_idx : Z) : Dci :=
  let slot := Z.to_nat (Z.land wqe_idx (Emit.wqe_cnt q - 1)) in
  match default None (Emit.table q !! slot) with
  | Some (_, ci_delta) =>
      Emit.mkCtx (Emit.buf q) (Emit.wqe_cnt q) (Emit.sqn q) (Emit.pi q) ci_delta (Emit.last_wqe q)
        (<[slot := None]> (Emit.table q))
  | None => q
  end.

(** [send_cq.poll()] until it is empty: every completion goes to the DCI. *)
Definition drain_send (cqes : list Z) (q : option Dci) : option Dci :=
  match q with
  | Some q => Some (fold_left process_completion cqes q)
  | None => None
  end.

Definition ring_sq_doorbell_bf c : Context :=
  match dci c with
  | Some q =>
      match Emit.last_wqe q with
      | Some _ => set_dci c (Some (Emit.mkCtx (Emit.buf q) (Emit.wqe_cnt q) (Emit.sqn q) (Emit.pi q)
                                     (Emit.ci q) None (Emit.table q))) (Emit.pi q)
      | None => c
      end
  | None => c
  end.

(** The loop of [flush_endpoints] over the dirty list, with [emitted] and
    [newly_signaled]. *)
Fixpoint flush_loop (fuel : nat) c (emitted : bool) (newly : Z) : option (Context * bool * Z) :=
  match fuel with
  | O => None
  | S fuel =>
      match pop_front (dirty_endpoints c) with
      | None => None
      | Some (dl, None) => Some (set_dirty c dl, emitted, newly)
      | Some (dl, Some id) =>
          let c := set_dirty c dl in
          match endpoints c !! id with
          | None => flush_loop fuel c emitted newly
          | Some e =>
              match emit_pending e (dci c) with
              | None => None
              | Some (e, q, r) =>
                  let '(n, e) := take_newly_signaled_count e in
                  let newly := Z.min U32_MAX (newly + n) in
                  let c := set_dci (set_endpoint c id e) q (dci_dbrec c) in
                  match r with
                  | Ok was_emitted =>
                      let emitted := emitted || was_emitted in
                      if has_pending_flush e then
                        match mark_endpoint_dirty c id with
                        | Some c => flush_loop fuel c emitted newly
                        | None => None
                        end
                      else flush_loop fuel c emitted newly
                  | Err Rc.RingFull =>
                      match mark_endpoint_dirty c id with
                      | Some c => Some (c, emitted, newly)
                      | None => None
                      end
                  | Err _ => flush_loop fuel c emitted newly
                  end
              end
          end
      end
  end.

(** [flush_endpoints]; [cqes] are the send completions the device has reported,
    by request index. *)
Definition flush_endpoints (fuel : nat) c (cqes : list Z) : option Context :=
  let c :=
    if 0 <? pending_send_cqes c then
      let polled := Z.min U32_MAX (Z.of_nat (length cqes)) in
      set_pending_send (set_dci c (drain_send cqes (dci c)) (dci_dbrec c))
        (saturating_sub (pending_send_cqes c) polled)
    else c in
  match flush_loop fuel c false 0 with
  | None => None
  | Some (c, emitted, newly) =>
      let c := if 0 <? newly
               then set_pending_send c (Z.min U32_MAX (pending_send_cqes c + newly)) else c in
      Some (if emitted then ring_sq_doorbell_bf c else c)
  end.

Definition poll (fuel : nat) c (rcqes : list RecvCqe) (scqes : list Z)
    : option (Context * list (U * list Z)) :=
  match poll_recv c rcqes with
  | None => None
  | Some (c, resp) =>
      match flush_endpoints fuel c scqes with
      | Some c => Some (c, resp)
      | None => None
      end
  end.

(** [Endpoint::call] and [RecvHandle::reply] through their handle. *)
Definition ctx_call c (id : Z) (data : list Z) (user_data : U)
    : option (Context * result Z (CallError U)) :=
  match endpoints c !! id with
  | None => None
  | Some e =>
      match call e (dirty_endpoints c) data user_data with
      | Some (e, dl, r) => Some (set_dirty (set_endpoint c id e) dl, r)
      | None => None
      end
  end.

Definition ctx_reply c (m : RecvMessage) (data : list Z) : option (Context * result unit Error) :=
  match endpoints c !! msg_endpoint_id m with
  | None => None
  | Some e =>
      match reply e (dirty_endpoints c) (msg_call_id m) data with
      | Some (e, dl, r) => Some (set_dirty (set_endpoint c (msg_endpoint_id m) e) dl, r)
      | None => None
      end
  end.

Definition ctx_connect c (id : Z) (remote : RemoteEndpointInfo) : option Context :=
  match endpoints c !! id with
  | None => None
  | Some e => Some (set_endpoint c id (connect e remote))
  end.

End Context.
Arguments Context Slab U : clear implicits.

(** ** The flush loop *)

Section Flush.
Context {Slab : Type -> Type} `{!SlabOps Slab, !SlabLaws Slab} {U : Type}.
Implicit Types (c : Context Slab U) (e : EndpointInner Slab U).

(** An endpoint the flush can send from, with room for [n] more cycles. *)
Definition sendable (n : Z) e (S : Z) (ms : list Msg) : Prop :=
  ep_ok S e ms /\ recv_ok e /\ (exists rr rd, peer_ok S e rr rd) /\ meta_pos e + n * S < POS_MAX.

(** How often the loop can visit an endpoint: once more when a wrap is left over
    behind a batch. *)
Definition visits (ms : list Msg) : nat := if decide (ms = []) then 1 else 2.

Definition flushable e (n : nat) : Prop :=
  exists S ms, sendable (3 * Z.of_nat n) e S ms /\ n = visits ms.

(** The request for the open batch of [e] is in the send queue [q] of the DCI,
    behind [from] blocks: the device fetches a WRITE+IMM of the batch's bytes to
    the batch's place in the peer's ring, for the peer's endpoint. *)
Definition batch_in_queue (S : Z) e (from : Z) (q : Dci) : Prop :=
  exists rr rd d, remote_recv_ring e = Some rr /\ remote_dct e = Some rd /\
    from <= d /\ d + 2 <= Emit.in_flight q /\
    (Emit.ci q + d) mod Emit.wqe_cnt q + 2 <= Emit.wqe_cnt q /\
    fetch_wqe (Emit.buf q) (Z.to_nat (64 * ((Emit.ci q + d) mod Emit.wqe_cnt q))) =
      mkDma (Emit.req_ctrl (fst (Emit.request (batch_verb S e rr rd))) (u16 (Emit.ci q + d)) (Emit.sqn q))
        (Rc.addr rr + meta_pos e mod Rc.size rr) (Rc.rkey rr)
        (send_ring_producer e - meta_pos e) (send_mr_lkey e) (send_mr_addr e + meta_off S e).

Lemma fetch_wqe_ext b b' ptr :
  (forall j, (j < 96)%nat -> b' !! (ptr + j)%nat = b !! (ptr + j)%nat) ->
  fetch_wqe b' ptr = fetch_wqe b ptr.
Proof.
  intros H. assert (forall k n, (k + n <= 96)%nat -> Wqe.be_field b' (ptr + k) n = Wqe.be_field b (ptr + k) n) as Hf.
  { intros k n Hk. unfold Wqe.be_field. f_equal. apply read_bytes_ext. intros i Hi.
    rewrite <-Nat.add_assoc. apply H. lia. }
  unfold fetch_wqe. rewrite !Hf by lia. f_equal.
  apply Emit.decode_ctrl_ext. intros j Hj. apply H. lia.
Qed.

Lemma batch_in_queue_ext S e from q q' :
  0 <= from -> batch_in_queue S e from q -> dci_ext q q' -> batch_in_queue S e from q'.
Proof.
  intros Hf (rr & rd & d & H1 & H2 & H3 & H4 & H5 & H6) [A1 (A2 & A3 & A4) A5 A6 _].
  exists rr, rd, d. rewrite A2, A3, A4. split_and!; try done; [lia|].
  rewrite <-H6. apply fetch_wqe_ext. intros j Hj.
  pose proof A1 as (Hok & _). pose proof (SendQueue.wqe_cnt_pos _ Hok) as Hp. cbn in Hp. rewrite A2 in Hp.
  pose proof (Z.mod_pos_bound (Emit.ci q + d) _ Hp) as Hb.
  destruct (decide (j < 64)%nat).
  - specialize (A6 d (Z.of_nat j) ltac:(lia) ltac:(lia)).
    replace (Z.to_nat (64 * ((Emit.ci q + d) mod Emit.wqe_cnt q)) + j)%nat
      with (Z.to_nat (64 * ((Emit.ci q + d) mod Emit.wqe_cnt q) + Z.of_nat j)) by lia. exact A6.
  - specialize (A6 (d + 1) (Z.of_nat j - 64) ltac:(lia) ltac:(lia)).
    assert ((Emit.ci q + (d + 1)) mod Emit.wqe_cnt q = (Emit.ci q + d) mod Emit.wqe_cnt q + 1) as E.
    { rewrite Z.add_assoc, <-Z.add_mod_idemp_l by lia. apply Z.mod_small. lia. }
    rewrite E in A6.
    replace (Z.to_nat (64 * ((Emit.ci q + d) mod Emit.wqe_cnt q)) + j)%nat
      with (Z.to_nat (64 * ((Emit.ci q + d) mod Emit.wqe_cnt q + 1) + (Z.of_nat j - 64))) by lia. exact A6.
Qed.

(** What a flush may change of an endpoint: no message is lost, the batch is
    posted as a whole or stays as a whole. *)
Definition advanced (from : Z) (q : Dci) e e' : Prop :=
  kept_peer e e' /\
  forall S ms, ep_ok S e ms ->
    (ep_ok S e' ms /\ (ms <> [] -> unsent e e')) \/
    (ms <> [] /\ ep_ok S e' [] /\ batch_in_queue S e from q).

Lemma advanced_refl from q e : advanced from q e e.
Proof. split; [apply kept_peer_refl|]. intros S ms H. left. by split. Qed.

Lemma batch_in_queue_unsent S e e' from q :
  kept_peer e e' -> unsent e e' -> batch_in_queue S e' from q -> batch_in_queue S e from q.
Proof.
  intros (K1 & K2 & K3 & K4 & K5 & _ & _ & _ & K9 & _) (U1 & U2 & U3) (rr & rd & d & H1 & H2 & H3 & H4 & H5 & H6).
  exists rr, rd, d. rewrite <-K1, <-K2. split_and!; try done. rewrite H6.
  unfold batch_verb, batch_entry, signals, meta_off. by rewrite K3, K4, K5, K9, U1, U2, U3.
Qed.

Lemma advanced_trans from q e1 e2 e3 :
  advanced from q e1 e2 -> advanced from q e2 e3 -> advanced from q e1 e3.
Proof.
  intros [K1 H1] [K2 H2]. split; [by apply (kept_peer_trans _ e2)|]. intros S ms Hok.
  destruct (H1 S ms Hok) as [[Hok1 U1]|(Hne & Hok1 & Hq)].
  - destruct (H2 S ms Hok1) as [[Hok2 U2]|(Hne & Hok2 & Hq)].
    + left. split; [done|]. intros Hne. destruct (U1 Hne) as (A1 & A2 & A3), (U2 Hne) as (B1 & B2 & B3).
      unfold unsent. split_and!; congruence.
    + right. split_and!; try done. eapply batch_in_queue_unsent; eauto.
  - right. destruct (H2 S [] Hok1) as [[Hok2 _]|(? & _)]; [by split_and!|done].
Qed.

Lemma advanced_ext from from' q q' e e' :
  0 <= from' <= from -> dci_ext q q' -> advanced from q e e' -> advanced from' q' e e'.
Proof.
  intros Hf Hx [K H]. split; [done|]. intros S ms Hok.
  destruct (H S ms Hok) as [?|(? & ? & Hq)]; [by left|right]. split_and!; try done.
  apply (batch_in_queue_ext S e from' q); [lia| |done].
  destruct Hq as (rr & rd & d & E1 & E2 & E3 & E4 & E5 & E6). exists rr, rd, d. split_and!; try done; lia.
Qed.

(** The messages of a batch are determined by the endpoint. *)
Lemma same_ring_size S S' e ms ms' : ep_ok S e ms -> ep_ok S' e ms' -> S' = S.
Proof. intros H H'. by rewrite <-(ok_len _ _ _ H), <-(ok_len _ _ _ H'). Qed.

Lemma batch_nil S e ms ms' : ep_ok S e ms -> ep_ok S e ms' -> ms = [] -> ms' = [].
Proof.
  intros H H' ->. pose proof (ok_count _ _ _ H) as E. rewrite (ok_count _ _ _ H') in E.
  by destruct ms'.
Qed.

Lemma msg_bytes_inj m m' ring off :
  msg_ok m -> msg_ok m' ->
  read_bytes ring off (8 + length (snd m)) = msg_bytes m ->
  read_bytes ring off (8 + length (snd m')) = msg_bytes m' -> m = m'.
Proof.
  intros Hm Hm' E E'. pose proof (dc_decode_at _ _ _ Hm E) as D.
  rewrite (dc_decode_at _ _ _ Hm' E') in D. injection D as D1 D2.
  pose proof (payload_at _ _ _ E) as P. pose proof (payload_at _ _ _ E') as P'.
  assert (length (snd m') = length (snd m)) as EL by lia. rewrite EL, P in P'.
  destruct m, m'; cbn in *; congruence.
Qed.

Lemma msgs_at_inj ring off ms ms' :
  Forall msg_ok ms -> Forall msg_ok ms' -> length ms = length ms' ->
  msgs_at ring off ms -> msgs_at ring off ms' -> ms = ms'.
Proof.
  intros H. revert off ms'. induction H as [|m ms Hm Hms IH]; intros off [|m' ms'] H' Hl; try done.
  apply Forall_cons in H' as [Hm' Hms']. intros [E At] [E' At'].
  pose proof (msg_bytes_inj m m' ring _ Hm Hm' E E') as ->. f_equal.
  apply (IH (off + msg_size m')); auto.
Qed.

Lemma batch_unique S e ms ms' : ep_ok S e ms -> ep_ok S e ms' -> ms = ms'.
Proof.
  intros H H'. assert (length ms = length ms') as Hl.
  { pose proof (ok_count _ _ _ H) as E. rewrite (ok_count _ _ _ H') in E. lia. }
  pose proof (ok_batch _ _ _ H) as [(_ & _ & At)|(-> & _)]; [|by destruct ms'].
  pose proof (ok_batch _ _ _ H') as [(_ & _ & At')|(-> & _)]; [|by destruct ms].
  apply (msgs_at_inj (send_ring e) (meta_off S e + 32)); [apply H|apply H'|done..].
Qed.

(** The posted request, as the device fetches it. *)
Lemma posted_in_queue S e ms rr rd (ctx ctx' : Dci) res :
  ep_ok S e ms -> peer_ok S e rr rd -> Emit.ctx_ok ctx ->
  Emit.posted ctx (fst (Emit.request (batch_verb S e rr rd))) (batch_entry e) ctx' res ->
  batch_in_queue S e (Emit.in_flight ctx) ctx'.
Proof.
  intros Hok Hpe Hc Hp. pose proof Hpe as [P1 P2 [P3 P3'] P4 P5 P6 P7 P8].
  pose proof (producer_bounds S e ms Hok) as [Hpr _].
  pose proof Hok as [Hs Hl [Hp0 Ha] _ _ _ _]. pose proof (ring_facts S Hs) as (R1 & _).
  pose proof (ring_facts _ P3) as (R2 & _).
  pose proof (off_facts S (meta_pos e) Hs Ha) as (O1 & O2 & _). fold (meta_off S e) in *.
  pose proof (Z.mod_pos_bound (meta_pos e) (Rc.size rr) ltac:(lia)) as Hmr.
  pose proof Hc as (Hcok & _). pose proof (SendQueue.wqe_cnt_pos _ Hcok) as Hpos. cbn in Hpos.
  set (r := fst (Emit.request (batch_verb S e rr rd))) in *.
  pose proof (padding_nonneg ctx r Hc) as Hn. set (pad := Emit.padding ctx r) in *.
  pose proof (Emit.p_flight _ _ _ _ _ Hp) as Hf. change (Emit.req_blocks r) with 2 in Hf. fold pad in Hf.
  destruct (Emit.p_fixed _ _ _ _ _ Hp) as (F1 & F2 & F3).
  pose proof (SendQueue.pi_mod _ pad Hcok) as Em. cbn in Em.
  change (SendQueue.in_flight (Emit.indices ctx)) with (Emit.in_flight ctx) in Em.
  assert (u16 (Emit.pi ctx + pad) = u16 (Emit.ci ctx + (Emit.in_flight ctx + pad))) as Ei.
  { unfold Emit.in_flight, u16, wrap. rewrite Z.add_assoc.
    rewrite <-(Zplus_mod_idemp_l (Emit.ci ctx + _)), Zplus_mod_idemp_r, Zplus_mod_idemp_l. f_equal. lia. }
  pose proof (Emit.p_idx _ _ _ _ _ Hp) as Hi. fold pad in Hi.
  pose proof (Emit.p_ptr _ _ _ _ _ Hp) as Hptr.
  assert (Emit.res_wqe_idx res mod Emit.wqe_cnt ctx =
          (Emit.ci ctx + (Emit.in_flight ctx + pad)) mod Emit.wqe_cnt ctx) as Eidx.
  { rewrite Hi, (SendQueue.u16_mod (Emit.indices ctx)) by done. cbn. rewrite Em. f_equal. lia. }
  destruct (Emit.p_whole _ _ _ _ _ Hp) as [_ Hw]. change (Emit.req_blocks r) with 2 in Hw.
  pose proof (Z.mod_pos_bound (Emit.res_wqe_idx res) _ Hpos) as Hb.
  exists rr, rd, (Emit.in_flight ctx + pad). rewrite F1, F2, F3.
  split_and!; try done; [lia|lia|lia|].
  rewrite <-Eidx, <-Ei, <-Hi, <-Hptr.
  apply (fetch_posted ctx ctx' _ _ (SendQueue.mkRdma _ _) _ (SendQueue.mkSge _ _ _)
    (batch_entry e) res); try done; unfold is_uint; cbn; try lia.
Qed.

(** One visit of the loop. *)
Lemma visit_spec e n (ctx : Dci) :
  flushable e n -> Emit.ctx_ok ctx ->
  exists e' ctx' r, emit_pending e (Some ctx) = Some (e', Some ctx', r) /\ dci_ext ctx ctx' /\
    advanced (Emit.in_flight ctx) ctx' e e' /\
    match r with
    | Ok b => (has_pending_flush e' = true -> n = 2%nat /\ flushable e' 1) /\ (b = true \/ ctx' = ctx)
    | Err err => err = Rc.RingFull /\ ctx' = ctx /\ full ctx
    end.
Proof.
  intros (S & ms & (Hok & Hr & (rr & rd & Hpe) & Hpos) & ->) Hc.
  pose proof (ring_facts S (ok_size _ _ _ Hok)) as (R1 & _).
  assert (1 <= visits ms)%nat as Hv by (unfold visits; case_decide; lia).
  destruct (emit_pending_spec S e ms rr rd ctx) as (e' & c' & r & -> & H2 & H3 & H4 & H5);
    try done; [nia|].
  pose proof (proj2 (Emit.available_flight ctx Hc)) as Hfl.
  exists e', c', r. split; [done|]. split; [done|].
  assert ((ep_ok S e' ms /\ (ms <> [] -> unsent e e')) \/
    (ms <> [] /\ ep_ok S e' [] /\ batch_in_queue S e (Emit.in_flight ctx) c') ->
    advanced (Emit.in_flight ctx) c' e e') as Hadv.
  { intros Hor. split; [done|]. intros S0 ms0 Hok0.
    pose proof (same_ring_size S S0 e ms ms0 Hok Hok0) as ->.
    by rewrite <-(batch_unique S e ms ms0 Hok Hok0). }
  destruct r as [b|err].
  - destruct H5 as (Hok' & Hw & Hpost & Hb). split.
    + apply Hadv. destruct (decide (ms = [])) as [->|Hne]; [by left|right].
      destruct (Hpost Hne) as (c1 & res & Hp & Hx). split_and!; try done.
      apply (batch_in_queue_ext S e _ c1); [done| |done].
      by apply (posted_in_queue S e ms rr rd ctx c1 res).
    + split; [|done]. intros Hpf. unfold has_pending_flush in Hpf. rewrite (ok_count _ _ _ Hok') in Hpf.
      rewrite orb_false_r in Hpf. destruct (Hw Hpf) as [_ Hms].
      unfold visits in *. rewrite decide_False in Hpos by done.
      split; [by rewrite decide_False|]. exists S, []. split; [|done].
      split; [done|]. split; [by apply (kept_recv_ok e)|].
      split; [exists rr, rd; by apply (kept_peer_ok S e)|]. lia.
  - destruct H5 as (-> & Hok' & Hun & -> & Hfull). split; [|done]. apply Hadv. by left.
Qed.

(** Taking the signal count leaves the rest. *)
Lemma take_advanced from q e e' :
  advanced from q e e' -> advanced from q e (take_newly_signaled_count e').2.
Proof.
  intros [K H]. split; [exact K|]. intros S ms Hok.
  destruct (H S ms Hok) as [[Hok' Hu]|(Hne & Hok' & Hq)]; [left|right].
  - split; [by apply (ep_ok_ext S e')|done].
  - split_and!; try done. by apply (ep_ok_ext S e').
Qed.

Lemma take_flushable e n : flushable e n -> flushable (take_newly_signaled_count e).2 n.
Proof.
  intros (S & ms & (Hok & Hr & (rr & rd & Hpe) & Hpos) & ->). exists S, ms. split; [|done].
  split; [by apply (ep_ok_ext S e)|]. split; [done|]. split; [|done]. exists rr, rd. by destruct Hpe.
Qed.

(** The endpoints of a context, in step: those not visited are untouched, the
    visited ones advanced, whoever still has work is in the list, which is empty
    unless the send queue is full, and the send queue has grown from [q0] to [q]. *)
Record flush_post c (l : list Z) c' (q0 q : Dci) : Prop := mkFlushPost {
  fp_list : exists l', represents (dirty_endpoints c') l' /\ (forall id, id ∈ l' -> id ∈ l) /\
    (forall id e', id ∈ l -> endpoints c' !! id = Some e' -> has_pending_flush e' = true -> id ∈ l') /\
    (l' <> [] -> full q);
  fp_other : forall id, id ∉ l -> endpoints c' !! id = endpoints c !! id;
  fp_adv : forall id e, endpoints c !! id = Some e ->
    exists e', endpoints c' !! id = Some e' /\ advanced (Emit.in_flight q0) q e e';
  fp_dci : dci c' = Some q;
  fp_ext : dci_ext q0 q;
}.

(** A visit of [id] composed with the rest of the loop. *)
Lemma flush_post_step c c1 c' id rest l1 e e1 q0 q1 q :
  Emit.ctx_ok q0 -> dci_ext q0 q1 ->
  endpoints c !! id = Some e -> endpoints c1 = <[id := e1]> (endpoints c) ->
  advanced (Emit.in_flight q0) q1 e e1 ->
  (forall i, i ∈ l1 -> i ∈ id :: rest) -> (forall i, i ∈ rest -> i ∈ l1) ->
  (id ∉ l1 -> has_pending_flush e1 = false) ->
  flush_post c1 l1 c' q1 q -> flush_post c (id :: rest) c' q0 q.
Proof.
  intros Hq0 Hx He E1 Hadv Hsub Hsup Hid [(l' & L1 & L2 & L3 & L4) Ho Ha Hd Hx'].
  pose proof (proj2 (Emit.available_flight q0 Hq0)) as Hf. pose proof (ext_flight _ _ Hx) as Hf'.
  assert (forall e0 e', advanced (Emit.in_flight q1) q e0 e' -> advanced (Emit.in_flight q0) q e0 e') as Hmono.
  { intros e0 e' H. apply (advanced_ext (Emit.in_flight q1) _ q); [lia| |done].
    apply dci_ext_refl, Hx'. }
  split; [| | |done|by apply (dci_ext_trans _ q1)].
  - exists l'. split; [done|]. split; [auto|]. split; [|done]. intros i e' Hi Hl Hp.
    destruct (decide (i ∈ l1)) as [Hi1|Hi1]; [by apply (L3 i e')|].
    assert (i = id) as -> by (apply elem_of_cons in Hi as [|]; [done|by destruct Hi1; auto]).
    rewrite (Ho id Hi1), E1, lookup_insert_eq in Hl. injection Hl as <-.
    rewrite (Hid Hi1) in Hp. done.
  - intros i Hi. apply not_elem_of_cons in Hi as [Hne Hi].
    rewrite Ho, E1, lookup_insert_ne by (try done; intros ?%Hsub%elem_of_cons; tauto). done.
  - intros i e0 He0. destruct (decide (i = id)) as [->|Hne].
    + rewrite He in He0. injection He0 as <-.
      destruct (Ha id e1) as (e' & He' & Hadv'); [by rewrite E1, lookup_insert_eq|].
      exists e'. split; [done|]. apply (advanced_trans _ _ _ e1); [|by apply Hmono].
      apply (advanced_ext (Emit.in_flight q0) _ q1); [lia|done..].
    + destruct (Ha i e0) as (e' & He' & Hadv'); [by rewrite E1, lookup_insert_ne|].
      exists e'. split; [done|by apply Hmono].
Qed.

(** An endpoint that is gone is skipped. *)
Lemma flush_post_skip c c1 c' id rest q0 q :
  endpoints c !! id = None -> endpoints c1 = endpoints c ->
  flush_post c1 rest c' q0 q -> flush_post c (id :: rest) c' q0 q.
Proof.
  intros He E1 [(l' & L1 & L2 & L3 & L4) Ho Ha Hd Hx]. rewrite E1 in *.
  destruct (decide (id ∈ rest)) as [Hin|Hin].
  { split; try done.
    - exists l'. split; [done|]. split; [set_solver|]. split; [|done].
      intros i e' [->|]%elem_of_cons; eauto.
    - intros i Hi. apply Ho. set_solver. }
  split; try done.
  - exists l'. split; [done|]. split; [set_solver|]. split; [|done].
    intros i e' [->|]%elem_of_cons; [|eauto].
    rewrite (Ho id Hin), He. done.
  - intros i Hi. apply Ho. set_solver.
Qed.

Lemma flush_post_refl c c' l (ctx : Dci) :
  represents (dirty_endpoints c') l -> endpoints c' = endpoints c -> dci c' = Some ctx ->
  Emit.ctx_ok ctx -> (l <> [] -> full ctx) -> flush_post c l c' ctx ctx.
Proof.
  intros Hr E Hd Hc Hl. split; [by exists l|by rewrite E| |done|by apply dci_ext_refl].
  intros id e He. rewrite E. eauto using advanced_refl.
Qed.

Lemma mark_spec c l id :
  represents (dirty_endpoints c) l -> valid_id id ->
  exists dl, mark_endpoint_dirty c id = Some (set_dirty c dl) /\ represents dl (enqueue id l).
Proof.
  intros Hr Hid. destruct (push_back_represents id _ l Hr Hid) as (dl & E & Hdl).
  exists dl. unfold mark_endpoint_dirty. by rewrite E.
Qed.

Definition weights_ok c (ps : list (Z * nat)) : Prop :=
  forall id n, (id, n) ∈ ps ->
    (1 <= n)%nat /\ forall e, endpoints c !! id = Some e -> flushable e n.

Lemma weights_other c c1 id n e1 ps :
  weights_ok c ((id, n) :: ps) -> id ∉ ps.*1 -> endpoints c1 = <[id := e1]> (endpoints c) ->
  weights_ok c1 ps.
Proof.
  intros Hw Hni E i k Hin. destruct (Hw i k) as [H1 H2]; [by right|]. split; [done|].
  intros e. rewrite E, lookup_insert_ne; [auto|]. intros <-. apply Hni.
  apply list_elem_of_fmap. by exists (id, k).
Qed.

Lemma dc_flush_loop_spec fuel : forall c ps ctx emitted newly,
  represents (dirty_endpoints c) ps.*1 -> dci c = Some ctx -> Emit.ctx_ok ctx ->
  weights_ok c ps -> (sum_list ps.*2 < fuel)%nat ->
  exists c' em nw q, flush_loop fuel c emitted newly = Some (c', em, nw) /\
    flush_post c ps.*1 c' ctx q /\ (em = false -> q = ctx) /\ (emitted = true -> em = true).
Proof.
  induction fuel as [|fuel IH]; intros c ps ctx em nw Hr Hd Hc Hw Hf; [lia|].
  cbn [flush_loop]. destruct (pop_front_represents _ _ Hr) as (dl & -> & Hdl).
  destruct ps as [|[id n] ps]; cbn [fmap list_fmap fst snd sum_list head tail list.head] in *.
  { eexists _, _, _, ctx. split; [done|]. split; [by apply (flush_post_refl c _ [] ctx)|done]. }
  change (endpoints (set_dirty c dl)) with (endpoints c).
  change (n + sum_list ps.*2 < S fuel)%nat in Hf.
  destruct (Hw id n) as [Hn1 Hfl]; [by left|].
  pose proof (re_valid _ _ Hr) as Hval. apply Forall_cons in Hval as [Hid _].
  pose proof (re_nodup _ _ Hr) as Hnd. apply NoDup_cons in Hnd as [Hni _].
  destruct (endpoints c !! id) as [e|] eqn:He.
  2:{ destruct (IH (set_dirty c dl) ps ctx em nw) as (c' & em' & nw' & q & -> & Hp & He' & Hm); try done.
      - intros i k Hin. apply (Hw i k). by right.
      - lia.
      - eexists _, _, _, q. split; [done|]. split; [|done]. by apply (flush_post_skip c (set_dirty c dl)). }
  change (dci (set_dirty c dl)) with (dci c). rewrite Hd.
  destruct (visit_spec e n ctx (Hfl e eq_refl) Hc) as (e1 & ctx1 & r & -> & Hx & Hadv & Hres).
  pose proof (ext_ok _ _ Hx) as Hc1.
  apply take_advanced in Hadv. cbn [take_newly_signaled_count] in *.
  set (e2 := set_newly_signaled_count 0 e1) in *.
  set (c1 := set_dci (set_endpoint (set_dirty c dl) id e2) (Some ctx1) _).
  assert (weights_ok c1 ps) as Hw1 by by apply (weights_other c c1 id n e2).
  destruct r as [b|err].
  - destruct Hres as [Hres Hb].
    assert (forall em' q, (em' = false -> q = ctx1) -> (em || b = true -> em' = true) ->
      (em' = false -> q = ctx) /\ (em = true -> em' = true)) as Hem.
    { intros em' q H1 H2. split; [|intros ->; by apply H2]. intros ->. rewrite (H1 eq_refl).
      destruct Hb as [-> | ->]; [|done]. rewrite orb_true_r in H2. by specialize (H2 eq_refl). }
    destruct (has_pending_flush e2) eqn:Hpf.
    + destruct (Hres Hpf) as [-> Hfl1]. destruct (mark_spec c1 ps.*1 id) as (dl1 & -> & Hdl1); [done..|].
      unfold enqueue in Hdl1. rewrite decide_False in Hdl1 by done.
      destruct (IH (set_dirty c1 dl1) (ps ++ [(id, 1%nat)]) ctx1 (em || b) (Z.min U32_MAX (nw + newly_signaled_count e1)))
        as (c' & em' & nw' & q & -> & Hp & G1 & G2); try done.
      * by rewrite fmap_app.
      * intros i k [Hin|[= -> ->]%list_elem_of_singleton]%elem_of_app; [by apply Hw1|].
        split; [done|]. intros e0. cbn. rewrite lookup_insert_eq. intros [= <-].
        by apply (take_flushable e1).
      * rewrite fmap_app, sum_list_with_app. cbn. lia.
      * eexists _, _, _, q. split; [done|]. rewrite fmap_app in Hp. split; [|by apply Hem].
        apply (flush_post_step c (set_dirty c1 dl1) c' id ps.*1 (ps.*1 ++ [id]) e e2 ctx ctx1); try done; set_solver.
    + destruct (IH c1 ps ctx1 (em || b) (Z.min U32_MAX (nw + newly_signaled_count e1)))
        as (c' & em' & nw' & q & -> & Hp & G1 & G2); try done; [lia|].
      eexists _, _, _, q. split; [done|]. split; [|by apply Hem].
      apply (flush_post_step c c1 c' id ps.*1 ps.*1 e e2 ctx ctx1); try done. set_solver.
  - destruct Hres as (-> & -> & Hfull). destruct (mark_spec c1 ps.*1 id) as (dl1 & -> & Hdl1); [done..|].
    unfold enqueue in Hdl1. rewrite decide_False in Hdl1 by done.
    eexists _, _, _, ctx. split; [done|]. split; [|done].
    apply (flush_post_step c (set_dirty c1 dl1) _ id ps.*1 (ps.*1 ++ [id]) e e2 ctx ctx); try done; try set_solver.
    by apply (flush_post_refl _ _ _ ctx).
Qed.

Definition drained c (cqes : list Z) : option Dci :=
  if 0 <? pending_send_cqes c then drain_send cqes (dci c) else dci c.

(** The visits the loop needs for a dirty list, from the endpoints. *)
Lemma weights_exist c (l : list Z) :
  (forall id e, id ∈ l -> endpoints c !! id = Some e -> exists S ms, sendable 6 e S ms) ->
  exists ps, ps.*1 = l /\ weights_ok c ps /\ (sum_list ps.*2 <= 2 * length l)%nat.
Proof.
  induction l as [|id l IH]; intros H.
  { exists []. split; [done|]. split; [|cbn; lia]. intros i n Hin. by apply not_elem_of_nil in Hin. }
  destruct IH as (ps & <- & Hw & Hs); [intros i e Hi; apply H; by right|].
  assert (exists n, (1 <= n <= 2)%nat /\ forall e, endpoints c !! id = Some e -> flushable e n)
    as (n & Hn & Hf).
  { destruct (endpoints c !! id) as [e|] eqn:He; [|exists 1%nat; split; [lia|done]].
    destruct (H id e) as (S & ms & Hse); [by left|done|]. exists (visits ms).
    split; [unfold visits; case_decide; lia|]. intros e0 [= <-]. exists S, ms. split; [|done].
    destruct Hse as (? & ? & ? & Hp). split_and!; try done.
    pose proof (ring_facts S (ok_size _ _ _ H0)) as (? & _). unfold visits. case_decide; lia. }
  exists ((id, n) :: ps). split; [done|]. split.
  - intros i k [[= -> ->]|Hin]%elem_of_cons; [split; [lia|done]|by apply Hw].
  - change (n + sum_list ps.*2 <= 2 * S (length ps.*1))%nat. lia.
Qed.

(** The doorbell of [flush_endpoints] touches neither endpoints nor requests, and
    shows the device what the loop posted. *)
Lemma doorbell_frame c q ctx (em : bool) :
  dci c = Some q -> dci_ext ctx q -> (em = false -> q = ctx) ->
  let c' := if em then ring_sq_doorbell_bf c else c in
  exists q', dci c' = Some q' /\ dirty_endpoints c' = dirty_endpoints c /\
    endpoints c' = endpoints c /\
    (forall S e from, batch_in_queue S e from q -> batch_in_queue S e from q') /\
    (full q -> full q') /\ (Emit.in_flight q' = Emit.in_flight ctx \/ dci_dbrec c' = Emit.pi q').
Proof.
  intros Hq Hx Hem. destruct em.
  - unfold ring_sq_doorbell_bf. rewrite Hq. destruct (Emit.last_wqe q) eqn:E.
    + eexists. split; [done|]. split_and!; try done. by right.
    + exists q. split_and!; try done. left. by destruct (ext_last _ _ Hx) as [->|?].
  - exists q. split_and!; try done. left. by rewrite (Hem eq_refl).
Qed.

(** C22: one call of [flush_endpoints] on a DC context terminates, without panic,
    after at most two visits per queued endpoint, and loses no message.  The
    batch of an endpoint is still open as it was, or it is empty and the send
    queue of the DCI holds, behind the requests that were in flight, a WRITE+IMM
    for the bytes of that batch to its place in the peer's ring; when anything
    was posted the producer index is shown to the device.  Connection state is
    kept, endpoints that were not queued are untouched, and every endpoint that
    still has messages or a wrap to send is in the dirty list afterwards: none is
    forgotten.  That list is empty, so every batch was posted, unless fewer than
    the three blocks a request and its padding can take are free in the DCI. *)
Theorem dc_flush_endpoints_complete c l ctx cqes :
  represents (dirty_endpoints c) l -> drained c cqes = Some ctx -> Emit.ctx_ok ctx ->
  (forall id e, id ∈ l -> endpoints c !! id = Some e -> exists S ms, sendable 6 e S ms) ->
  (forall id e, endpoints c !! id = Some e -> has_pending_flush e = true -> id ∈ l) ->
  exists c' l' q, flush_endpoints (S (2 * length l)) c cqes = Some c' /\
    represents (dirty_endpoints c') l' /\ dci c' = Some q /\ (l' <> [] -> full q) /\
    (forall id e', endpoints c' !! id = Some e' -> has_pending_flush e' = true -> id ∈ l') /\
    (forall id, id ∉ l -> endpoints c' !! id = endpoints c !! id) /\
    (forall id e, endpoints c !! id = Some e ->
       exists e', endpoints c' !! id = Some e' /\ kept_peer e e' /\
         forall S ms, ep_ok S e ms ->
           (ep_ok S e' ms /\ (ms <> [] -> unsent e e')) \/
           (ep_ok S e' [] /\ batch_in_queue S e (Emit.in_flight ctx) q)) /\
    (Emit.in_flight q = Emit.in_flight ctx \/ dci_dbrec c' = Emit.pi q).
Proof.
  intros Hr Hd Hc Hs Hin. destruct (weights_exist c l Hs) as (ps & <- & Hw & Hsum).
  unfold flush_endpoints. set (c0 := if 0 <? pending_send_cqes c then _ else c).
  assert (dirty_endpoints c0 = dirty_endpoints c /\ endpoints c0 = endpoints c /\ dci c0 = Some ctx)
    as (E1 & E2 & E3).
  { unfold c0, drained in *. by destruct (0 <? _). }
  clearbody c0.
  destruct (dc_flush_loop_spec (S (2 * length ps.*1)) c0 ps ctx false 0)
    as (c' & em & nw & q & -> & [(l' & L1 & L2 & L3 & L4) Ho Ha Hq Hx] & Hem & _); try done.
  { by rewrite E1. } { intros i n. rewrite E2. apply Hw. } { lia. }
  rewrite E2 in *. set (c1 := if 0 <? nw then _ else c').
  assert (dirty_endpoints c1 = dirty_endpoints c' /\ endpoints c1 = endpoints c' /\ dci c1 = dci c')
    as (F1 & F2 & F3).
  { unfold c1. by destruct (0 <? nw). }
  clearbody c1. set (c2 := if em then _ else _).
  destruct (doorbell_frame c1 q ctx em ltac:(by rewrite F3) Hx Hem) as (q' & D1 & D2 & D3 & D4 & Df & D5).
  fold c2 in D1, D2, D3, D5. exists c2, l', q'. rewrite D2, D3, F1, F2.
  split; [done|]. split; [done|]. split; [done|]. split; [auto|]. split; [|split; [exact Ho|split; [|exact D5]]].
  - intros id e' He' Hp. destruct (decide (id ∈ ps.*1)) as [Hi|Hi]; [by apply (L3 id e')|].
    rewrite (Ho id Hi) in He'. destruct Hi. by apply (Hin id e').
  - intros id e He. destruct (Ha id e He) as (e' & He' & Hk & Hadv). exists e'. split; [done|].
    split; [done|]. intros S0 ms Hok. destruct (Hadv S0 ms Hok) as [?|(_ & ? & Hb)]; [by left|right].
    split; [done|]. by apply D4.
Qed.

End Flush.

(** ** Receive buffers *)

Section Buffers.
Context {Slab : Type -> Type} `{!SlabOps Slab} {U : Type}.
Implicit Types (c : Context Slab U).

(** Receive buffers in step: [srq_posted] is what the queue holds. *)
Definition buffers_ok c (l : list unit) : Prop :=
  Srq.holds (srq c) l /\ srq_posted c = Z.of_nat (length l) /\
  srq_posted c <= srq_max_wr c <= Srq.wqe_cnt (srq c) /\ srq_max_wr c < 2 ^ 31.

Lemma post_recv_one (s : Srq.SrqState unit) l :
  Srq.holds s l -> Z.of_nat (length l) < Srq.wqe_cnt s ->
  Srq.holds (Srq.post_recv s tt 0 0 0).1 (l ++ [tt]) /\
  Srq.wqe_cnt (Srq.post_recv s tt 0 0 0).1 = Srq.wqe_cnt s /\
  Srq.ci (Srq.post_recv s tt 0 0 0).1 = Srq.ci s.
Proof.
  intros Hh Hlt. pose proof (Srq.post_recv_holds s l tt 0 0 0 Hh) as H.
  rewrite decide_False in H by lia. destruct H as (s' & E & Hh' & _). rewrite E. cbn.
  split; [done|]. unfold Srq.post_recv in E. destruct (_ =? 0); [done|]. by injection E as <-.
Qed.

(** [n] posts fill up to the capacity. *)
Lemma post_recvs_holds n : forall (s : Srq.SrqState unit) l,
  Srq.holds s l ->
  exists k, Srq.holds (post_recvs n s) (l ++ replicate k tt) /\
    k = Nat.min n (Z.to_nat (Srq.wqe_cnt s) - length l) /\
    Srq.wqe_cnt (post_recvs n s) = Srq.wqe_cnt s /\ Srq.ci (post_recvs n s) = Srq.ci s.
Proof.
  induction n as [|n IH]; intros s l Hh; cbn [post_recvs].
  { exists 0%nat. rewrite app_nil_r. split_and!; try done. }
  pose proof (Srq.h_fits _ _ Hh) as Hfit.
  destruct (decide (Z.of_nat (length l) = Srq.wqe_cnt s)) as [He|Hne].
  - pose proof (Srq.post_recv_holds s l tt 0 0 0 Hh) as H. rewrite decide_True in H by done.
    rewrite H. cbn [fst]. destruct (IH s l Hh) as (k & H1 & H2 & H3 & H4).
    exists k. split_and!; try done. lia.
  - destruct (post_recv_one s l Hh) as (H1 & H2 & H3); [lia|].
    destruct (IH _ _ H1) as (k & H4 & H5 & H6 & H7). exists (S k).
    rewrite H2, length_app in H5. cbn in H5. split_and!; [|lia|congruence..].
    cbn [replicate]. by rewrite cons_middle, app_assoc.
Qed.

Lemma drain_recv_srq cqes : forall c resp c' resp',
  drain_recv cqes (c, resp) = Some (c', resp') ->
  srq c' = srq c /\ srq_posted c' = srq_posted c /\ srq_max_wr c' = srq_max_wr c.
Proof.
  induction cqes as [|cqe cqes IH]; intros c resp c' resp'; cbn [drain_recv];
    [by intros [= <- <-]|].
  destruct (on_recv_cqe cqe (c, resp)) as [[c1 resp1]|] eqn:E; [|done].
  intros H. apply IH in H as (-> & -> & ->). revert E. unfold on_recv_cqe.
  destruct cqe as [|id]; [by intros [= <- <-]|]. destruct (endpoints c !! id); [|by intros [= <- <-]].
  destruct (process_cqe _ _); [|done]. by intros [= <- <-].
Qed.

(** Receive-buffer accounting of [poll_recv_counted]: the count of posted
    buffers stays the number the shared receive queue really holds, and whenever
    completions were processed at least two thirds of the configured buffers are
    available to the device again. *)
Theorem dc_poll_refills c l cqes c' resp n :
  buffers_ok c l -> (length cqes <= length l)%nat ->
  poll_recv_counted c cqes = Some (c', resp, n) ->
  n = Z.of_nat (length cqes) /\ srq_max_wr c' = srq_max_wr c /\
  exists l', buffers_ok c' l' /\ (0 < n -> srq_max_wr c * 2 / 3 <= Z.of_nat (length l')).
Proof.
  intros (Hh & Hp & Hm & Hmax) Hlen. unfold poll_recv_counted.
  destruct (drain_recv cqes (c, [])) as [[c1 resp1]|] eqn:Hd; [|done].
  destruct (drain_recv_srq _ _ _ _ _ Hd) as (E1 & E2 & E3).
  rewrite u32_small by lia. destruct (0 <? _) eqn:Hn; guards.
  2:{ intros [= <- <- <-]. split; [done|]. split; [done|]. exists l. split; [|lia].
      unfold buffers_ok. by rewrite E1, E2, E3. }
  intros [= <- <- <-]. split; [done|]. split; [unfold refill; by destruct (_ <? _)|].
  pose proof (Srq.advance_ci_holds (srq c) l (length cqes) Hh Hlen) as Ha.
  unfold refill. cbn [srq srq_posted srq_max_wr set_srq]. rewrite E1, E2, E3.
  rewrite saturating_sub_le by lia. rewrite (u32_small (_ * 2)) by lia.
  destruct (_ <? _) eqn:Ht; guards.
  - rewrite u32_small by lia.
    destruct (post_recvs_holds (Z.to_nat (srq_max_wr c - (srq_posted c - Z.of_nat (length cqes))))
      _ _ Ha) as (k & H1 & H2 & H3 & _).
    rewrite length_drop in H2. change (Srq.wqe_cnt (Srq.advance_ci _ _)) with (Srq.wqe_cnt (srq c)) in *.
    exists (drop (length cqes) l ++ replicate k tt). split.
    + split; [by destruct H1|]. cbn [srq srq_posted srq_max_wr set_srq].
      rewrite length_app, length_drop, length_replicate. cbn -[post_recvs]. rewrite H3.
      split_and!; lia.
    + rewrite length_app, length_drop, length_replicate. intros _.
      pose proof (Z.div_le_upper_bound (srq_max_wr c * 2) 3 (srq_max_wr c)). lia.
  - exists (drop (length cqes) l). split; [split; [done|]|]; cbn; rewrite length_drop; [lia|].
    intros _. lia.
Qed.

(** A poll through a [RecvPoller]. *)
Definition poller_step c c' : Prop :=
  exists cqes resp n, poller_poll c cqes = Some (c', resp, n).

Lemma poller_step_holds c c' l :
  poller_step c c' -> Srq.holds (srq c) l ->
  exists k, Srq.holds (srq c') (l ++ replicate k tt) /\
    Srq.wqe_cnt (srq c') = Srq.wqe_cnt (srq c) /\ Srq.ci (srq c') = Srq.ci (srq c).
Proof.
  intros (cqes & resp & n & H) Hh.
  assert (exists k, Srq.holds (srq c) (l ++ replicate k tt) /\
    Srq.wqe_cnt (srq c) = Srq.wqe_cnt (srq c) /\ Srq.ci (srq c) = Srq.ci (srq c)) as Hsame.
  { exists 0%nat. by rewrite app_nil_r. }
  unfold poller_poll in H. destruct cqes as [|cqe cqes]; [by injection H as <- _ _|].
  destruct (drain_recv _ _) as [[c1 resp1]|] eqn:Hd; [|done].
  destruct (drain_recv_srq _ _ _ _ _ Hd) as (E1 & E2 & E3).
  destruct (0 <? _); injection H as <- _ _; [|by rewrite E1].
  unfold refill. destruct (_ <? _); cbn [srq set_srq]; rewrite E1; [|done].
  destruct (post_recvs_holds (Z.to_nat (u32 (srq_max_wr c1 -
    saturating_sub (srq_posted c1) (u32 (Z.of_nat (length (cqe :: cqes))))))) (srq c) l Hh)
    as (k & H1 & _ & H3 & H4). exists k. split; [by destruct H1|]. done.
Qed.

Lemma poller_rtc c c' :
  rtc poller_step c c' -> forall l, Srq.holds (srq c) l ->
  exists k, Srq.holds (srq c') (l ++ replicate k tt) /\
    Srq.wqe_cnt (srq c') = Srq.wqe_cnt (srq c) /\ Srq.ci (srq c') = Srq.ci (srq c).
Proof.
  induction 1 as [c|c c1 c' H1 _ IH]; intros l Hh.
  - exists 0%nat. by rewrite app_nil_r.
  - destruct (poller_step_holds c c1 l H1 Hh) as (k & A1 & A2 & A3).
    destruct (IH _ A1) as (j & B1 & B2 & B3). exists (k + j)%nat.
    rewrite replicate_add, app_assoc. split; [done|]. split; congruence.
Qed.

(** [RecvPoller::poll] refills without advancing the consumer index of the
    receive queue, unlike [poll_recv_counted]: through any number of its polls the
    consumer index stands still, so the queue accepts no more buffers than it had
    free at the start, whatever [srq_posted] says: none at all when it was built
    full. *)
Theorem recv_poller_starves c l c' :
  Srq.holds (srq c) l -> rtc poller_step c c' ->
  exists k, Srq.holds (srq c') (l ++ replicate k tt) /\
    Z.of_nat k <= Srq.wqe_cnt (srq c) - Z.of_nat (length l) /\
    Srq.ci (srq c') = Srq.ci (srq c).
Proof.
  intros Hh Hr. destruct (poller_rtc c c' Hr l Hh) as (k & H1 & H2 & H3). exists k.
  split; [done|]. split; [|done]. pose proof (Srq.h_fits _ _ H1) as Hf.
  rewrite length_app, length_replicate, H2 in Hf. lia.
Qed.

End Buffers.

(** ** Credit *)

Section Credit.
Context {Slab : Type -> Type} `{!SlabOps Slab, !SlabLaws Slab} {U : Type}.
Implicit Types (e : EndpointInner Slab U).

(** An emission the send queue refuses loses credit: [emit_batch] counts the
    credit as returned before it posts, so after the refusal nothing is left to
    return and the header of any later emission of the same batch carries zero,
    while the peer never saw the refused one. *)
Theorem refused_emission_loses_credit S e ms rr rd (ctx ctx2 : Dci) count e' q' count2 e2 q2 :
  ep_ok S e ms -> peer_ok S e rr rd -> recv_ok e -> Emit.ctx_ok ctx -> Emit.ctx_ok ctx2 ->
  emit_batch e (Some ctx) count = Some (e', q', Err Rc.RingFull) ->
  emit_batch e' (Some ctx2) count2 = Some (e2, q2, Ok tt) ->
  credit_return e' = 0 /\ last_recv_pos e' = last_recv_pos e /\
  read_bytes (send_ring e2) (Z.to_nat (meta_off S e)) 32 =
    metadata_bytes (send_ring_producer e - meta_pos e) 0 count2.
Proof.
  intros Hok Hpe Hr Hc Hc2 E1 E2.
  destruct (emit_step S e ms rr rd ctx count Hok Hpe Hr Hc) as [[Hx _]|(c' & res & Hx & _)];
    rewrite Hx in E1; [|done].
  injection E1 as <- <-. assert (credit_return (headed S e count) = 0) as Hz.
  { unfold credit_return. cbn. lia. }
  split; [done|]. split; [done|].
  pose proof (headed_ok S e ms count Hok) as Hok'.
  assert (peer_ok S (headed S e count) rr rd) as Hpe' by by destruct Hpe.
  assert (recv_ok (headed S e count)) as Hr'
    by by apply (kept_recv_ok e); [apply headed_kept|].
  destruct (emit_step S (headed S e count) ms rr rd ctx2 count2 Hok' Hpe' Hr' Hc2)
    as [[Hy _]|(c' & res & Hy & _)]; rewrite Hy in E2; [done|].
  injection E2 as <- <-. rewrite headed_bytes. cbn [headed send_ring set_send_ring].
  change (meta_off S (headed S e count)) with (meta_off S e). rewrite Hz.
  change (send_ring_producer (headed S e count)) with (send_ring_producer e).
  change (meta_pos (headed S e count)) with (meta_pos e).
  pose proof (ok_pos _ _ _ Hok) as [_ Ha].
  pose proof (off_facts S (meta_pos e) (ok_size _ _ _ Hok) Ha) as (O1 & O2 & _).
  pose proof (ok_len _ _ _ Hok) as Hl. unfold send_ring_len in Hl. unfold meta_off in *.
  apply (read_write_n _ _ _ 32); rewrite ?length_metadata_bytes; [done|].
  rewrite length_write_bytes; rewrite ?length_metadata_bytes; lia.
Qed.

End Credit.

(** ** Runs *)

#[local] Existing Instance RcProps.list_slab_ops.
#[local] Existing Instance RcProps.list_slab_laws.
Notation DemoEp := (EndpointInner RcProps.ListSlab Z).

(** [e] flushes through [q]; the device writes what was posted into the ring of
    [peer]. *)
Definition transmit (e : DemoEp) (q : Dci) (peer : DemoEp) : option (DemoEp * Dci * DemoEp) :=
  match emit_pending e (Some q) with
  | Some (e', Some q', Ok true) =>
      match Emit.last_wqe q' with
      | Some (ptr, _) =>
          Some (e', q', set_recv_ring
            (device_write (fetch_wqe (Emit.buf q') (Z.to_nat ptr)) (send_ring e') (send_mr_addr e')
               (recv_ring peer) (recv_mr_addr peer)) peer)
      | None => None
      end
  | _ => None
  end.

Definition submit (e : DemoEp) (data : list Z) : option DemoEp :=
  match call e DirtyList.new data 0 with
  | Some (e, _, Ok _) => Some e
  | _ => None
  end.

(** A completion is processed: the endpoint and the number of requests received. *)
Definition consume (e : DemoEp) : option (DemoEp * nat) :=
  match process_cqe (endpoint_id e) (mkRecvState e [] []) with
  | Some st => Some (rs_ep st, length (rs_stack st))
  | None => None
  end.

Definition pair_info (id addr rkey : Z) : RemoteEndpointInfo := mkRemoteInfo 33 5 2 addr rkey 256 128 id.
Definition pair_a : DemoEp := connect (endpoint_new 256 256 1 4096 7 8192 9) (pair_info 2 65536 11).
Definition pair_b : DemoEp := connect (endpoint_new 256 256 2 32768 12 65536 11) (pair_info 1 8192 9).

(** One request from [a] fills its cycle of the ring of [b]; [b] has not looked
    yet. *)
Definition filled : option (DemoEp * Dci * DemoEp) :=
  match submit pair_a (replicate 184 7) with
  | Some a => transmit a demo_dci pair_b
  | None => None
  end.

(** [b] sends a small request, which [a] receives; [a] then flushes. *)
Definition ping (st : DemoEp * Dci * DemoEp) : option (DemoEp * Dci * DemoEp) :=
  let '(a, q, b) := st in
  match submit b [1] with
  | None => None
  | Some b =>
      match transmit b demo_dci a with
      | None => None
      | Some (b, _, a) =>
          match consume a with
          | Some (a, _) => transmit a q b
          | None => None
          end
      end
  end.

(** Credit-return-only batches overrun the receiver: they are sent without
    looking at the free space of the remote ring and only one header is reserved.
    With a request filling the ring and not yet consumed, the first credit return
    takes the reserve and the second overwrites the header of the request: the
    receiver, which would have got one request, gets none. *)
Theorem credit_return_overruns :
  (filled ≫= fun '(_, _, b) => consume b) ≫= (fun '(_, n) => Some n) = Some 1%nat /\
  ((filled ≫= ping) ≫= fun '(_, _, b) => consume b) ≫= (fun '(_, n) => Some n) = Some 1%nat /\
  (((filled ≫= ping) ≫= ping) ≫= fun '(_, _, b) => consume b) ≫= (fun '(_, n) => Some n) = Some 0%nat.
Proof. vm_compute. done. Qed.

(** A context holding the endpoint of the demonstration batch, queued. *)
Definition demo_queue : DirtyEndpointList := mkDirty 1 1 [DIRTY_NONE; DIRTY_NONE] [false; true].
Definition demo_context : Context RcProps.ListSlab Z :=
  let c := build (replicate 128 0) 4 32 4 (Some demo_dci) in
  set_dirty (set_endpoint c 1 demo_batch) demo_queue.

Lemma demo_queue_represents : represents demo_queue [1].
Proof.
  destruct (push_back_represents 1 DirtyList.new [] new_represents) as (dl & E & H); [done|].
  assert (push_back 1 DirtyList.new = Some demo_queue) as E' by (vm_compute; reflexivity).
  rewrite E' in E. injection E as <-. exact H.
Qed.

Lemma demo_endpoint (e : DemoEp) id : endpoints demo_context !! id = Some e -> id = 1 /\ e = demo_batch.
Proof.
  change (endpoints demo_context) with (<[1 := demo_batch]> (∅ : gmap Z DemoEp)).
  rewrite lookup_insert_Some, lookup_empty. naive_solver.
Qed.

Lemma dc_flush_endpoints_complete_witness :
  exists c', flush_endpoints 3 demo_context [] = Some c'.
Proof.
  destruct (dc_flush_endpoints_complete demo_context [1] demo_dci [])
    as (c' & l' & q & H & _).
  - exact demo_queue_represents.
  - reflexivity.
  - apply demo_dci_ok.
  - intros id e _ [-> ->]%demo_endpoint. exists 128, [demo_msg].
    split; [apply demo_batch_ok|]. split; [apply demo_recv|].
    split; [exists demo_rr, demo_rd; apply demo_batch_peer|]. vm_compute. reflexivity.
  - intros id e [-> _]%demo_endpoint _. by left.
  - exists c'. exact H.
Defined.

Lemma build_holds (b : list Z) cnt stride n :
  Srq.holds (Srq.srq_init b cnt stride : Srq.SrqState unit) [] -> (Z.of_nat n <= cnt) ->
  Srq.holds (Srq.ring_doorbell (post_recvs n (Srq.srq_init b cnt stride))) (replicate n tt).
Proof.
  intros Hh Hn. destruct (post_recvs_holds n _ _ Hh) as (k & H1 & H2 & _). cbn in H1, H2.
  replace (replicate n tt) with (replicate k tt) by (f_equal; lia). by destruct H1.
Qed.

Lemma demo_buffers : buffers_ok demo_context (replicate 4 tt).
Proof.
  split; [|vm_compute; repeat split; congruence].
  assert (Srq.holds (Srq.srq_init (replicate 128 0) 4 32 : Srq.SrqState unit) []) as Hi.
  { split; [|reflexivity|cbn; lia|done].
    split; [exists 2; split; [lia|reflexivity]|]. unfold is_uint. split_and!; done. }
  exact (build_holds _ _ _ 4 Hi ltac:(done)).
Qed.

Lemma dc_poll_refills_witness :
  exists c', poll_recv_counted demo_context [CqeError; CqeError] = Some (c', [], 2) /\
  exists l', buffers_ok c' l' /\ 2 <= Z.of_nat (length l').
Proof.
  assert (exists c', poll_recv_counted demo_context [CqeError; CqeError] = Some (c', [], 2))
    as [c' E] by (eexists; reflexivity).
  exists c'. split; [exact E|].
  destruct (dc_poll_refills demo_context (replicate 4 tt) [CqeError; CqeError] c' [] 2)
    as (_ & _ & l' & H & Hl); [apply demo_buffers|cbn; lia|exact E|].
  exists l'. split; [exact H|]. specialize (Hl ltac:(lia)).
  change (srq_max_wr demo_context) with 4 in Hl. exact Hl.
Defined.

Lemma recv_poller_starves_witness :
  exists c', poller_poll demo_context [CqeError; CqeError; CqeError] = Some (c', [], 3) /\
    srq_posted c' = 4 /\ Srq.pi (srq c') = Srq.pi (srq demo_context) /\
    Srq.ci (srq c') = Srq.ci (srq demo_context).
Proof.
  assert (exists c', poller_poll demo_context [CqeError; CqeError; CqeError] = Some (c', [], 3) /\
    srq_posted c' = 4 /\ Srq.pi (srq c') = Srq.pi (srq demo_context))
    as (c' & E & H1 & H2) by (eexists; split; [reflexivity|]; split; vm_compute; reflexivity).
  exists c'. split; [exact E|]. split; [exact H1|]. split; [exact H2|].
  destruct (recv_poller_starves demo_context (replicate 4 tt) c') as (k & _ & _ & H);
    [apply demo_buffers| |exact H]. apply rtc_once. by exists [CqeError; CqeError; CqeError], [], 3.
Defined.

(** A sender that owes credit, and a queue with no room. *)
Definition demo_owing : DemoEp := set_last_recv_pos 64 demo_batch.
Definition demo_full : Dci := Emit.mkCtx (replicate 1024 0) 16 77 16 0 None (replicate 16 None).
Definition demo_refused : DemoEp :=
  match emit_batch demo_owing (Some demo_full) 1 with
  | Some (e, _, Err _) => e
  | _ => demo_owing
  end.
Definition demo_retried : DemoEp :=
  match emit_batch demo_refused (Some demo_dci) 1 with
  | Some (e, _, Ok _) => e
  | _ => demo_owing
  end.

Lemma owing_ok {Slab : Type -> Type} {U : Type} S (e : EndpointInner Slab U) ms rr rd v :
  ep_ok S e ms -> peer_ok S e rr rd ->
  ep_ok S (set_last_recv_pos v e) ms /\ peer_ok S (set_last_recv_pos v e) rr rd.
Proof. intros Hok Hpe. split; [by apply (ep_ok_ext S e)|by destruct Hpe]. Qed.

Lemma demo_owing_ok : ep_ok 128 demo_owing [demo_msg] /\ peer_ok 128 demo_owing demo_rr demo_rd.
Proof. exact (owing_ok 128 demo_batch _ demo_rr demo_rd 64 demo_batch_ok demo_batch_peer). Qed.

Lemma refused_emission_loses_credit_witness :
  credit_return demo_owing = 64 /\
  read_bytes (send_ring demo_retried) 0 32 = metadata_bytes 64 0 1.
Proof.
  split; [vm_compute; reflexivity|].
  destruct (refused_emission_loses_credit 128 demo_owing [demo_msg] demo_rr demo_rd demo_full demo_dci
    1 demo_refused (Some demo_full) 1 demo_retried
    (match emit_batch demo_refused (Some demo_dci) 1 with Some (_, q, _) => q | None => None end))
    as (_ & _ & H).
  - apply demo_owing_ok.
  - apply demo_owing_ok.
  - vm_compute. repeat split; congruence.
  - vm_compute. repeat split; congruence.
  - apply demo_dci_ok.
  - vm_compute. reflexivity.
  - vm_compute. reflexivity.
  - replace (meta_off 128 demo_owing) with 0 in H by (vm_compute; reflexivity).
    replace (send_ring_producer demo_owing - meta_pos demo_owing) with 64 in H
      by (vm_compute; reflexivity). exact H.
Defined.

End DcContext.
