(* ===== verification/Cq.v ===== *)
(** * Cq: completion queues, [mlx5/src/cq.rs] and [mlx5/src/mono_cq.rs]

    The ring of completion entries the device writes and the program polls:
    parsing of an entry, expansion of compressed entries, the owner bit that
    flips every lap, the doorbell record, dispatch to the registered queues with
    its one-entry cache; and the monomorphic queue with its two polling paths. *)
From S2P Require Import Prelude Wqe.

Module Cq.
Import Wqe.

(** ** Entries *)

Inductive CqeOpcode : Type :=
| Req | RespRdmaWriteImm | RespSend | RespSendImm | RespSendInv
| TmMatchContext | TmFinish | ReqErr | RespErr.

Definition from_u8 (v : Z) : option CqeOpcode :=
  match v with
  | 0 => Some Req
  | 1 => Some RespRdmaWriteImm
  | 2 => Some RespSend
  | 3 => Some RespSendImm
  | 4 => Some RespSendInv
  | 5 => Some TmMatchContext
  | 6 => Some TmFinish
  | 13 => Some ReqErr
  | 14 => Some RespErr
  | _ => None
  end.

Definition is_responder (o : CqeOpcode) : bool :=
  match o with
  | RespRdmaWriteImm | RespSend | RespSendImm | RespSendInv | RespErr => true
  | _ => false
  end.

Definition is_error (o : CqeOpcode) : bool :=
  match o with ReqErr | RespErr => true | _ => false end.

Definition MAX_INLINE_SCATTER_SIZE : Z := 32.
Definition MLX5_INLINE_SCATTER_32 : Z := 4.
Definition MLX5_INLINE_SCATTER_64 : Z := 8.

Record Cqe : Type := mkCqe {
  opcode : CqeOpcode;
  wqe_counter : Z;
  qp_num : Z;
  byte_cnt : Z;
  imm : Z;
  syndrome : Z;
  vendor_err : Z;
  app_info : Z;
  is_inline_scatter : bool;
  inline_data : list Z;
}.

Definition byte_at (b : list Z) (off : nat) : Z := default 0 (b !! off).

(** [Cqe::from_ptr]. *)
Definition cqe_from_ptr (b : list Z) (off : nat) : Cqe :=
  let op_own := byte_at b (off + 63) in
  let opc := default ReqErr (from_u8 (Z.shiftr op_own 4)) in
  let scatter := negb (Z.land op_own (Z.lor MLX5_INLINE_SCATTER_32 MLX5_INLINE_SCATTER_64) =? 0) in
  let counter := be_field b (off + 60) 2 in
  let qpn := Z.land (be_field b (off + 56) 4) 16777215 in
  let cnt := be_field b (off + 44) 4 in
  let im := be_field b (off + 36) 4 in
  let app := be_field b (off + 50) 2 in
  let '(verr, synd) := if is_error opc then (byte_at b (off + 54), byte_at b (off + 55)) else (0, 0) in
  let inl := replicate (Z.to_nat MAX_INLINE_SCATTER_SIZE) 0 in
  let inl := if scatter
             then write_bytes inl 0 (read_bytes b off (Z.to_nat (Z.min cnt MAX_INLINE_SCATTER_SIZE)))
             else inl in
  mkCqe opc counter qpn cnt im synd verr app scatter inl.

(** [Cqe::inline_data]. *)
Definition cqe_inline_data (c : Cqe) : option (list Z) :=
  if is_inline_scatter c
  then Some (take (Z.to_nat (Z.min (byte_cnt c) MAX_INLINE_SCATTER_SIZE)) (inline_data c))
  else None.

(** ** Compressed entries *)

Inductive MiniCqeFormat : Type := Responder | Requester | ResponderCsum | L3L4Hash.

Record MiniCqe : Type := mkMini { m_wqe_counter : Z; m_byte_cnt : Z; m_checksum : Z }.

Definition from_ptr_responder (b : list Z) (off : nat) (counter : Z) : MiniCqe :=
  mkMini counter (be_field b off 4) (be_field b (off + 4) 2).

Definition from_ptr_requester (b : list Z) (off : nat) : MiniCqe :=
  let s_wqe_info := be_field b off 4 in
  mkMini (Z.shiftr s_wqe_info 16) (be_field b (off + 4) 4) 0.

Record CompressedCqeHeader : Type := mkHeader {
  count : Z;
  format : MiniCqeFormat;
  base_wqe_counter : Z;
  h_qp_num : Z;
  h_opcode : CqeOpcode;
}.

Definition header_from_ptr (b : list Z) (off : nat) (title_opcode : CqeOpcode) : CompressedCqeHeader :=
  let qpn := Z.land (be_field b (off + 56) 4) 16777215 in
  let base := be_field b (off + 60) 2 in
  let mini_cqe_cnt := byte_at b (off + 62) in
  let fmt := match Z.land (Z.shiftr mini_cqe_cnt 6) 3 with
             | 0 => Responder
             | 1 => Requester
             | 2 => ResponderCsum
             | _ => L3L4Hash
             end in
  mkHeader (Z.land (Z.shiftr mini_cqe_cnt 2) 15 + 1) fmt base qpn title_opcode.

(** [struct MiniCqeIterator]; the pointer is an offset into the queue's buffer. *)
Record MiniCqeIterator : Type := mkIter {
  header : CompressedCqeHeader;
  current : Z;
  mini_cqe_ptr : nat;
}.

Definition iter_new (b : list Z) (off : nat) (title_opcode : CqeOpcode) : MiniCqeIterator :=
  mkIter (header_from_ptr b off title_opcode) 0 off.

(** The completion of mini entry [i] of the block at [off]. *)
Definition mini_cqe (b : list Z) (off : nat) (h : CompressedCqeHeader) (i : Z) : Cqe :=
  let mini_ptr := (off + Z.to_nat (i * 8))%nat in
  let mini := match format h with
              | Requester => from_ptr_requester b mini_ptr
              | _ => from_ptr_responder b mini_ptr (u16 (base_wqe_counter h + i))
              end in
  mkCqe (h_opcode h) (m_wqe_counter mini) (h_qp_num h) (m_byte_cnt mini) 0 0 0 0 false
    (replicate (Z.to_nat MAX_INLINE_SCATTER_SIZE) 0).

Definition next_mini_cqe (b : list Z) (it : MiniCqeIterator) : MiniCqeIterator * option Cqe :=
  if count (header it) <=? current it then (it, None)
  else (mkIter (header it) (current it + 1) (mini_cqe_ptr it),
        Some (mini_cqe b (mini_cqe_ptr it) (header it) (current it))).

Definition has_more (it : MiniCqeIterator) : bool := current it <? count (header it).

(** ** The queue *)

(** [struct CqState]; [dbrec] is the consumer index last shown to the device. *)
Record CqState : Type := mkCq {
  buf : list Z;
  cqe_cnt : Z;
  cqe_cnt_log2 : Z;
  cqe_size : Z;
  dbrec : Z;
  ci : Z;
  pending_mini_cqes : option MiniCqeIterator;
  title_opcode : CqeOpcode;
}.
Implicit Types (s : CqState).

Definition cqe64_offset s : Z := if cqe_size s =? 128 then 64 else 0.
Definition cqe64_ptr s (idx : Z) : nat := Z.to_nat (idx * cqe_size s + cqe64_offset s).

(** The loop of [create_cq] that marks every entry as owned by the device. *)
Fixpoint mark_hw_owned s (n : nat) (b : list Z) : list Z :=
  match n with
  | O => b
  | S n => write_bytes (mark_hw_owned s n b) (cqe64_ptr s (Z.of_nat n) + 63) [241]
  end.

(** The state [create_cq] sets up over the device's buffer of [2 ^ log2] entries. *)
Definition create_cq (b : list Z) (log2 size : Z) : CqState :=
  let s := mkCq b (2 ^ log2) log2 size 0 0 None Req in
  mkCq (mark_hw_owned s (Z.to_nat (2 ^ log2)) b) (2 ^ log2) log2 size 0 0 None Req.

Definition sw_owner s : Z := Z.land (Z.shiftr (ci s) (cqe_cnt_log2 s)) 1.

(** [Cq::has_pending_cqe]. *)
Definition has_pending_cqe s : bool :=
  match pending_mini_cqes s with
  | Some _ => true
  | None =>
      let idx := Z.land (ci s) (cqe_cnt s - 1) in
      let op_own := byte_at (buf s) (cqe64_ptr s idx + 63) in
      sw_owner s =? Z.land op_own 1
  end.

Definition flush s : CqState :=
  mkCq (buf s) (cqe_cnt s) (cqe_cnt_log2 s) (cqe_size s) (Z.land (ci s) 16777215) (ci s)
    (pending_mini_cqes s) (title_opcode s).

Definition set_pending s (p : option MiniCqeIterator) : CqState :=
  mkCq (buf s) (cqe_cnt s) (cqe_cnt_log2 s) (cqe_size s) (dbrec s) (ci s) p (title_opcode s).
Definition set_ci s (v : Z) : CqState :=
  mkCq (buf s) (cqe_cnt s) (cqe_cnt_log2 s) (cqe_size s) (dbrec s) v (pending_mini_cqes s)
    (title_opcode s).
Definition set_title s (o : CqeOpcode) : CqState :=
  mkCq (buf s) (cqe_cnt s) (cqe_cnt_log2 s) (cqe_size s) (dbrec s) (ci s) (pending_mini_cqes s) o.

(** A compressed entry at [off]: the first completion, the rest kept pending. *)
Definition open_compressed s (off : nat) : CqState * option Cqe :=
  let it := iter_new (buf s) off (title_opcode s) in
  let s := set_ci s (u32 (ci s + 1)) in
  match next_mini_cqe (buf s) it with
  | (it, Some cqe) => (if has_more it then set_pending s (Some it) else s, Some cqe)
  | (_, None) => (s, None)
  end.

(** A regular entry at [off]. *)
Definition take_regular s (off : nat) : CqState * option Cqe :=
  let cqe := cqe_from_ptr (buf s) off in
  (set_ci (set_title s (opcode cqe)) (u32 (ci s + 1)), Some cqe).

(** The entry under the consumer index; [Cq::try_next_cqe] after the pending
    completions. *)
Definition next_entry s : CqState * option Cqe :=
  let idx := Z.land (ci s) (cqe_cnt s - 1) in
  let off := cqe64_ptr s idx in
  let op_own := byte_at (buf s) (off + 63) in
  if negb (sw_owner s =? Z.land op_own 1) then (s, None)
  else
    let opcode_raw := Z.shiftr op_own 4 in
    if opcode_raw =? 15 then open_compressed s off
    else
      match from_u8 opcode_raw with
      | None => (s, None)
      | Some _ => take_regular s off
      end.

Definition try_next_cqe s : CqState * option Cqe :=
  match pending_mini_cqes s with
  | Some it =>
      match next_mini_cqe (buf s) it with
      | (it, Some cqe) => (set_pending s (if has_more it then Some it else None), Some cqe)
      | (_, None) => next_entry (set_pending s None)
      end
  | None => next_entry s
  end.

(** [Cq::poll_raw]: the completions given to the callback, in order. *)
Fixpoint poll_raw (fuel : nat) s : option (CqState * list Cqe) :=
  match fuel with
  | O => None
  | S fuel =>
      match try_next_cqe s with
      | (s, None) => Some (s, [])
      | (s, Some cqe) =>
          match poll_raw fuel s with
          | Some (s, cqes) => Some (s, cqe :: cqes)
          | None => None
          end
      end
  end.

(** ** Dispatch *)

Section Dispatch.
Context {W T : Type} (upgrade : W -> option T).

(** The registered queues by number, as weak references, and the cache of the
    last one found; [upgrade] is [Weak::upgrade]. *)
Record Queues : Type := mkQueues { queues : gmap Z W; last_queue_cache : option (Z * T) }.

Definition register_queue (qs : Queues) (qpn : Z) (w : W) : Queues :=
  mkQueues (<[qpn := w]> (queues qs)) (last_queue_cache qs).

Definition unregister_queue (qs : Queues) (qpn : Z) : Queues :=
  let cache := match last_queue_cache qs with
               | Some (cached, t) => if cached =? qpn then None else Some (cached, t)
               | None => None
               end in
  mkQueues (delete qpn (queues qs)) cache.

Definition lookup_queue (qs : Queues) (qpn : Z) : option T := queues qs !! qpn ≫= upgrade.

Definition find_queue (qs : Queues) (qpn : Z) : Queues * option T :=
  let slow :=
    match lookup_queue qs qpn with
    | Some t => (mkQueues (queues qs) (Some (qpn, t)), Some t)
    | None => (qs, None)
    end in
  match last_queue_cache qs with
  | Some (cached, t) => if cached =? qpn then (qs, Some t) else slow
  | None => slow
  end.

(** [Cq::poll]: the completions handed to [dispatch_cqe] of their queue, and the
    number polled. *)
Fixpoint poll (fuel : nat) s (qs : Queues) : option (CqState * Queues * list (T * Cqe) * Z) :=
  match fuel with
  | O => None
  | S fuel =>
      match try_next_cqe s with
      | (s, None) => Some (s, qs, [], 0)
      | (s, Some cqe) =>
          let '(qs, t) := find_queue qs (qp_num cqe) in
          match poll fuel s qs with
          | Some (s, qs, l, n) =>
              Some (s, qs, match t with Some t => (t, cqe) :: l | None => l end, n + 1)
          | None => None
          end
      end
  end.

End Dispatch.

(** ** The monomorphic queue *)

(** [struct MonoCqState]: the same ring, whether compression was enabled, and the
    number of compressed entries seen. *)
Record MonoCqState : Type := mkMono {
  mono : CqState;
  cqe_compression : bool;
  compressed_cqe_count : Z;
}.

Fixpoint mono_mark_hw_owned s (n : nat) (b : list Z) : list Z :=
  match n with
  | O => b
  | S n => write_bytes (write_bytes (mono_mark_hw_owned s n b) (cqe64_ptr s (Z.of_nat n) + 62) [255])
             (cqe64_ptr s (Z.of_nat n) + 63) [241]
  end.

Definition create_mono_cq (b : list Z) (log2 size : Z) (compression : bool) : MonoCqState :=
  let s := mkCq b (2 ^ log2) log2 size 0 0 None Req in
  mkMono (mkCq (mono_mark_hw_owned s (Z.to_nat (2 ^ log2)) b) (2 ^ log2) log2 size 0 0 None Req)
    compression 0.

Definition try_next_cqe_simple s : CqState * option Cqe :=
  let idx := Z.land (ci s) (cqe_cnt s - 1) in
  let off := cqe64_ptr s idx in
  let op_own := byte_at (buf s) (off + 63) in
  if negb (sw_owner s =? Z.land op_own 1) || (Z.shiftr op_own 4 =? 15) then (s, None)
  else (set_ci s (u32 (ci s + 1)), Some (cqe_from_ptr (buf s) off)).

Definition CQE_FORMAT_MASK : Z := 12.

(** [try_next_cqe_compressed] after the pending completions. *)
Definition mono_next_entry (m : MonoCqState) : MonoCqState * option Cqe :=
  let s := mono m in
  let idx := Z.land (ci s) (cqe_cnt s - 1) in
  let off := cqe64_ptr s idx in
  let op_own := byte_at (buf s) (off + 63) in
  let is_compressed_format := Z.land op_own CQE_FORMAT_MASK =? CQE_FORMAT_MASK in
  let is_hw_owned :=
    if is_compressed_format then
      let signature := byte_at (buf s) (off + 62) in
      let sw_it_count := Z.land (Z.shiftr (ci s) (cqe_cnt_log2 s)) 255 in
      negb (Z.lxor sw_it_count signature =? 0)
    else negb (sw_owner s =? Z.land op_own 1) in
  if is_hw_owned then (m, None)
  else if is_compressed_format then
    if ci s =? 0 then (m, None)
    else
      let '(s, r) := open_compressed s off in
      (mkMono s (cqe_compression m) (compressed_cqe_count m + 1), r)
  else
    match from_u8 (Z.shiftr op_own 4) with
    | None => (m, None)
    | Some _ =>
        let '(s, r) := take_regular s off in
        (mkMono s (cqe_compression m) (compressed_cqe_count m), r)
    end.

Definition try_next_cqe_compressed (m : MonoCqState) : MonoCqState * option Cqe :=
  let put s := mkMono s (cqe_compression m) (compressed_cqe_count m) in
  match pending_mini_cqes (mono m) with
  | Some it =>
      match next_mini_cqe (buf (mono m)) it with
      | (it, Some cqe) =>
          (put (set_pending (mono m) (if has_more it then Some it else None)), Some cqe)
      | (_, None) => mono_next_entry (put (set_pending (mono m) None))
      end
  | None => mono_next_entry m
  end.

Definition mono_try_next_cqe (m : MonoCqState) : MonoCqState * option Cqe :=
  if negb (cqe_compression m) then
    let '(s, r) := try_next_cqe_simple (mono m) in
    (mkMono s (cqe_compression m) (compressed_cqe_count m), r)
  else try_next_cqe_compressed m.

(** ** What the device writes *)

(** The slot of position [q], counted from the creation of the queue. *)
Definition slot s (q : Z) : nat := cqe64_ptr s (q mod cqe_cnt s).
Definition entry_at s (q : Z) : list Z := read_bytes (buf s) (slot s q) 64.

(** The owner bit an entry carries, and the one of position [q]. *)
Definition owner (e : list Z) : Z := Z.land (byte_at e 63) 1.
Definition lap s (q : Z) : Z := (q / cqe_cnt s) mod 2.
Definition raw_opcode (e : list Z) : Z := Z.shiftr (byte_at e 63) 4.
Definition is_compressed (e : list Z) : bool := raw_opcode e =? 15.

(** An entry a device writes: a known opcode, or a compressed block whose
    completions fit the entry. *)
Definition entry_ok (e : list Z) : Prop :=
  length e = 64%nat /\
  (if is_compressed e then count (header_from_ptr e 0 Req) <= 7
   else is_Some (from_u8 (raw_opcode e))).

(** The device writes entry [e] at position [q]. *)
Definition hw_put s (q : Z) (e : list Z) : CqState :=
  mkCq (write_bytes (buf s) (slot s q) e) (cqe_cnt s) (cqe_cnt_log2 s) (cqe_size s) (dbrec s) (ci s)
    (pending_mini_cqes s) (title_opcode s).

(** The completions an entry stands for, after the last regular opcode [t]. *)
Definition minis (b : list Z) (off : nat) (h : CompressedCqeHeader) (i : Z) : list Cqe :=
  mini_cqe b off h <$> seqZ i (count h - i).

Definition completions (t : CqeOpcode) (e : list Z) : list Cqe :=
  if is_compressed e then minis e 0 (header_from_ptr e 0 t) 0 else [cqe_from_ptr e 0].

Definition title_after (t : CqeOpcode) (e : list Z) : CqeOpcode :=
  if is_compressed e then t else opcode (cqe_from_ptr e 0).

Fixpoint expand (t : CqeOpcode) (es : list (list Z)) : list Cqe :=
  match es with
  | [] => []
  | e :: es => completions t e ++ expand (title_after t e) es
  end.

(** A run: the program polls and writes the doorbell record between polls, when no
    completion of an opened entry is left; the device writes while it has entries
    acknowledged.  The state is the queue, how far the device may go ([acked] entries consumed when
    the doorbell record was last written), the positions consumed and produced,
    everything produced and everything polled. *)
Record Run : Type := mkRun {
  cq : CqState;
  acked : Z;
  consumed : Z;
  produced : Z;
  log : list (list Z);
  out : list Cqe;
}.

Inductive cq_step : Run -> Run -> Prop :=
| step_poll r :
    cq_step r
      (let '(s, c) := try_next_cqe (cq r) in
       mkRun s (acked r) (consumed r + u32 (ci s - ci (cq r))) (produced r) (log r)
         (out r ++ option_list c))
| step_flush r :
    pending_mini_cqes (cq r) = None ->
    cq_step r (mkRun (flush (cq r)) (consumed r) (consumed r) (produced r) (log r) (out r))
| step_device r e :
    produced r < acked r + cqe_cnt (cq r) -> entry_ok e -> owner e = lap (cq r) (produced r) ->
    cq_step r (mkRun (hw_put (cq r) (produced r) e) (acked r) (consumed r) (produced r + 1)
                 (log r ++ [e]) (out r)).

Definition run_new (b : list Z) (log2 size : Z) : Run :=
  mkRun (create_cq b log2 size) 0 0 0 [] [].

(** ** Reading through a slot *)

Lemma byte_at_in b off k : (k < 64)%nat -> byte_at b (off + k) = byte_at (read_bytes b off 64) k.
Proof. intros Hk. unfold byte_at. by rewrite lookup_read_bytes. Qed.

Lemma be_field_in b off k n :
  (k + n <= 64)%nat -> be_field b (off + k) n = be_field (read_bytes b off 64) k n.
Proof. intros Hk. unfold be_field. by rewrite read_bytes_read. Qed.

Lemma read_twice b off n :
  (n <= 64)%nat -> read_bytes (read_bytes b off 64) 0 n = read_bytes b off n.
Proof. intros Hn. by rewrite read_bytes_read, Nat.add_0_r by lia. Qed.

Lemma cqe_from_ptr_in b off : cqe_from_ptr b off = cqe_from_ptr (read_bytes b off 64) 0.
Proof.
  unfold cqe_from_ptr. rewrite !byte_at_in, !be_field_in, (read_twice b off 64) by lia.
  rewrite read_twice by (unfold MAX_INLINE_SCATTER_SIZE; lia). done.
Qed.

Lemma header_in b off t : header_from_ptr b off t = header_from_ptr (read_bytes b off 64) 0 t.
Proof. unfold header_from_ptr. by rewrite !byte_at_in, !be_field_in, read_twice by lia. Qed.

Lemma mini_cqe_in b off h i :
  0 <= i < 7 -> mini_cqe b off h i = mini_cqe (read_bytes b off 64) 0 h i.
Proof.
  intros Hi. unfold mini_cqe, from_ptr_responder, from_ptr_requester.
  assert (Z.to_nat (i * 8) + 8 <= 64)%nat by lia. set (k := Z.to_nat (i * 8)) in *. cbn [Nat.add].
  rewrite <-?Nat.add_assoc, !(be_field_in b off) by lia. done.
Qed.

Lemma minis_in b off h i :
  0 <= i -> count h <= 7 -> minis b off h i = minis (read_bytes b off 64) 0 h i.
Proof.
  intros Hi Hc. apply list_fmap_ext. intros j k Hk%list_elem_of_lookup_2.
  apply elem_of_seqZ in Hk. apply mini_cqe_in. lia.
Qed.

Lemma minis_cons b off h i :
  i < count h -> minis b off h i = mini_cqe b off h i :: minis b off h (i + 1).
Proof.
  intros Hi. unfold minis. rewrite seqZ_cons by lia. cbn [fmap list_fmap].
  by replace (count h - (i + 1)) with (Z.pred (count h - i)) by lia.
Qed.

Lemma minis_nil b off h i : count h <= i -> minis b off h i = [].
Proof. intros Hi. unfold minis. by rewrite seqZ_nil by lia. Qed.

Lemma count_pos b off t : 1 <= count (header_from_ptr b off t).
Proof.
  cbn. pose proof (land_mask (Z.shiftr (byte_at b (off + 62)) 2) 4 ltac:(lia)) as E.
  change (2 ^ 4 - 1) with 15 in E. rewrite E.
  pose proof (Z.mod_pos_bound (Z.shiftr (byte_at b (off + 62)) 2) (2 ^ 4) ltac:(lia)). lia.
Qed.

Lemma completions_cons t e : exists c l, completions t e = c :: l.
Proof.
  unfold completions. destruct (is_compressed e); [|eauto].
  rewrite minis_cons; [eauto|]. pose proof (count_pos e 0 t). lia.
Qed.

(** ** Slots *)

Record geometry s : Prop := mkGeometry {
  g_cnt : 0 <= cqe_cnt_log2 s <= 31 /\ cqe_cnt s = 2 ^ cqe_cnt_log2 s;
  g_size : cqe_size s = 64 \/ cqe_size s = 128;
  g_len : Z.of_nat (length (buf s)) = cqe_cnt s * cqe_size s;
}.

Lemma cq_cnt_pos s : geometry s -> 0 < cqe_cnt s.
Proof. intros [[H ->] _ _]. apply Z.pow_pos_nonneg; lia. Qed.

(** The ring index of a 32-bit consumer index is the position modulo the size. *)
Lemma ring_idx s c : geometry s -> Z.land (u32 c) (cqe_cnt s - 1) = c mod cqe_cnt s.
Proof.
  intros [[H E] _ _]. rewrite E, land_mask by lia. unfold u32, wrap.
  apply Z.mod_mod_divide. exists (2 ^ (32 - cqe_cnt_log2 s)).
  rewrite <-Z.pow_add_r by lia. f_equal. lia.
Qed.

Lemma sw_owner_lap s c : geometry s -> ci s = u32 c -> sw_owner s = lap s c.
Proof.
  intros [[H E] _ _] Hc. unfold sw_owner, lap. rewrite Hc, E.
  change 1 with (Z.ones 1). rewrite Z.land_ones by lia. rewrite Z.shiftr_div_pow2 by lia.
  change (2 ^ 1) with 2. unfold u32, wrap. set (k := cqe_cnt_log2 s) in *.
  replace (2 ^ 32) with (2 ^ k * 2 ^ (32 - k)) by (rewrite <-Z.pow_add_r by lia; f_equal; lia).
  rewrite Z.rem_mul_r by (apply Z.pow_nonzero || apply Z.pow_pos_nonneg; lia).
  rewrite Z.mul_comm, Z.div_add by (apply Z.pow_nonzero; lia).
  rewrite (Z.div_small (c mod 2 ^ k)) by (apply Z.mod_pos_bound, Z.pow_pos_nonneg; lia).
  cbn [Z.add]. apply Z.mod_mod_divide. exists (2 ^ (31 - k)).
  change 2 with (2 ^ 1) at 3. rewrite <-Z.pow_add_r by lia. f_equal. lia.
Qed.

Lemma slot_fits s q : geometry s -> (slot s q + 64 <= length (buf s))%nat.
Proof.
  intros Hg. pose proof (cq_cnt_pos s Hg). destruct Hg as [_ Hs Hl].
  pose proof (Z.mod_pos_bound q (cqe_cnt s) ltac:(lia)).
  unfold slot, cqe64_ptr, cqe64_offset. destruct Hs as [E|E]; rewrite E in *; cbn; lia.
Qed.

Lemma slots_apart s p q :
  geometry s -> p mod cqe_cnt s <> q mod cqe_cnt s ->
  (slot s p + 64 <= slot s q \/ slot s q + 64 <= slot s p)%nat.
Proof.
  intros Hg Hne. pose proof (cq_cnt_pos s Hg). destruct Hg as [_ Hs _].
  pose proof (Z.mod_pos_bound p (cqe_cnt s) ltac:(lia)).
  pose proof (Z.mod_pos_bound q (cqe_cnt s) ltac:(lia)).
  unfold slot, cqe64_ptr, cqe64_offset. destruct Hs as [E|E]; rewrite E in *; cbn; lia.
Qed.

Lemma near_apart s p q : geometry s -> p < q < p + cqe_cnt s -> p mod cqe_cnt s <> q mod cqe_cnt s.
Proof.
  intros Hg Hpq. pose proof (cq_cnt_pos s Hg) as Hpos.
  intros E. assert ((q - p) mod cqe_cnt s = 0) as Hz.
  { rewrite Zminus_mod, <-E, Z.sub_diag. by apply Z.mod_0_l; lia. }
  rewrite Z.mod_small in Hz; lia.
Qed.

(** The lap changes when the position moves by the size of the ring. *)
Lemma lap_next s q : geometry s -> lap s (q + cqe_cnt s) <> lap s q.
Proof.
  intros Hg. pose proof (cq_cnt_pos s Hg). unfold lap.
  replace (q + cqe_cnt s) with (q + 1 * cqe_cnt s) by lia. rewrite Z.div_add by lia.
  pose proof (Z.mod_pos_bound (q / cqe_cnt s) 2 ltac:(lia)).
  rewrite <-Z.add_mod_idemp_l by lia.
  destruct (decide ((q / cqe_cnt s) mod 2 = 0)) as [->|]; [done|].
  replace ((q / cqe_cnt s) mod 2) with 1 by lia. done.
Qed.

(** ** The invariant *)

(** What is still to be polled: of a compressed entry that was opened, and of
    the entries [es] behind the consumer. *)
Definition rest s : list Cqe :=
  match pending_mini_cqes s with
  | Some it => minis (buf s) (mini_cqe_ptr it) (header it) (current it)
  | None => []
  end.
Definition remaining s (es : list (list Z)) : list Cqe := rest s ++ expand (title_opcode s) es.

(** [a] entries acknowledged, [c] consumed, [es] produced and not consumed. *)
Record cq_inv s (a c : Z) (es : list (list Z)) : Prop := mkInv {
  i_geo : geometry s;
  i_ci : ci s = u32 c;
  i_pos : 0 <= a <= c /\ c + Z.of_nat (length es) <= a + cqe_cnt s;
  i_entry : forall i e, es !! i = Some e ->
    entry_at s (c + Z.of_nat i) = e /\ entry_ok e /\ owner e = lap s (c + Z.of_nat i);
  i_free : forall q, c + Z.of_nat (length es) <= q < c + cqe_cnt s ->
    owner (entry_at s q) <> lap s q;
  i_pend : forall it, pending_mini_cqes s = Some it ->
    a < c /\ mini_cqe_ptr it = slot s (c - 1) /\ 0 <= current it < count (header it) /\
    count (header it) <= 7;
}.

Lemma entry_at_wrap s q : geometry s -> entry_at s (q + cqe_cnt s) = entry_at s q.
Proof.
  intros Hg. pose proof (cq_cnt_pos s Hg). unfold entry_at, slot.
  replace (q + cqe_cnt s) with (q + 1 * cqe_cnt s) by lia. by rewrite Z.mod_add by lia.
Qed.

(** Consuming the first entry. *)
Lemma inv_advance s a c e es p t :
  cq_inv s a c (e :: es) ->
  (forall it, p = Some it -> mini_cqe_ptr it = slot s c /\ 0 <= current it < count (header it) /\
     count (header it) <= 7) ->
  cq_inv (mkCq (buf s) (cqe_cnt s) (cqe_cnt_log2 s) (cqe_size s) (dbrec s) (u32 (ci s + 1)) p t)
    a (c + 1) es.
Proof.
  intros [Hg Hci Hpos He Hf Hp] Hnew. cbn [length] in *. split; cbn -[lap entry_at slot].
  - by destruct Hg.
  - rewrite Hci. apply u32_succ.
  - lia.
  - intros i x Hi. replace (c + 1 + Z.of_nat i) with (c + Z.of_nat (S i)) by lia.
    by apply (He (S i)).
  - intros q Hq. destruct (decide (q = c + cqe_cnt s)) as [->|Hne]; [|apply (Hf q); lia].
    change (entry_at _ ?q) with (entry_at s q). change (lap _ ?q) with (lap s q).
    rewrite entry_at_wrap by done. destruct (He 0%nat e eq_refl) as (E & _ & Ho).
    rewrite Z.add_0_r in E, Ho. rewrite E, Ho. intros Hx. by apply (lap_next s c Hg).
  - intros it Hit. destruct (Hnew it Hit) as (H1 & H2 & H3).
    replace (c + 1 - 1) with c by lia. split; [lia|]. done.
Qed.

(** The entry under the consumer index, if the device has written it. *)
Lemma next_entry_inv s a c es :
  cq_inv s a c es -> pending_mini_cqes s = None ->
  match es with
  | [] => next_entry s = (s, None)
  | e :: es' =>
      exists s' x, next_entry s = (s', Some x) /\ cq_inv s' a (c + 1) es' /\
        ci s' = u32 (ci s + 1) /\ title_opcode s' = title_after (title_opcode s) e /\
        remaining s es = x :: remaining s' es'
  end.
Proof.
  intros Hinv Hnp. pose proof Hinv as [Hg Hci Hpos He Hf _]. pose proof (cq_cnt_pos s Hg) as Hcp.
  unfold next_entry. rewrite (sw_owner_lap s c Hg Hci), Hci, ring_idx by done.
  fold (slot s c). rewrite byte_at_in by lia. fold (entry_at s c). fold (owner (entry_at s c)).
  destruct es as [|e es'].
  { cbn in Hpos. specialize (Hf c ltac:(cbn; lia)).
    by rewrite (proj2 (Z.eqb_neq _ _)) by congruence. }
  destruct (He 0%nat e eq_refl) as (E & [_ Hok] & Ho). rewrite Z.add_0_r in E, Ho.
  rewrite E, Ho, Z.eqb_refl. cbn [negb]. fold (raw_opcode e). fold (is_compressed e).
  unfold remaining, rest. rewrite Hnp. cbn [app expand]. unfold completions, title_after.
  destruct (is_compressed e) eqn:Hc.
  - unfold open_compressed, iter_new, next_mini_cqe, has_more.
    cbn [header current mini_cqe_ptr set_ci buf].
    rewrite header_in. fold (entry_at s c). rewrite E.
    set (h := header_from_ptr e 0 (title_opcode s)).
    pose proof (count_pos e 0 (title_opcode s)) as Hp1. fold h in Hp1.
    assert (count h <= 7) as Hp7 by exact Hok.
    rewrite (proj2 (Z.leb_gt _ 0)) by lia. rewrite (minis_cons e 0 h 0) by lia.
    assert (mini_cqe (buf s) (slot s c) h 0 = mini_cqe e 0 h 0) as Em
      by (rewrite mini_cqe_in by lia; fold (entry_at s c); by rewrite E).
    eexists _, _. split; [reflexivity|]. rewrite Em. change (0 + 1) with 1.
    cbn [current header].
    destruct (1 <? count h) eqn:Hm; guards.
    + split; [|split; [cbn; by rewrite Hci|split; [reflexivity|]]].
      * apply (inv_advance s a c e es'); [done|]. intros it [= <-]. cbn [mini_cqe_ptr current header]. split; [done|lia].
      * cbn [pending_mini_cqes set_pending set_ci mini_cqe_ptr header current buf title_opcode app].
        f_equal. f_equal. rewrite (minis_in (buf s)) by lia. fold (entry_at s c). by rewrite E.
    + split; [|split; [cbn; by rewrite Hci|split; [reflexivity|]]].
      * apply (inv_advance s a c e es'); [done|]. by rewrite Hnp.
      * cbn [pending_mini_cqes set_ci title_opcode]. rewrite Hnp, (minis_nil e 0 h 1) by lia. done.
  - destruct Hok as [o Ho']. rewrite Ho'. unfold take_regular.
    rewrite cqe_from_ptr_in. fold (entry_at s c). rewrite E.
    eexists _, _. split; [reflexivity|]. split; [|split; [cbn; by rewrite Hci|split; [reflexivity|]]].
    + apply (inv_advance s a c e es'); [done|]. cbn. by rewrite Hnp.
    + cbn [pending_mini_cqes set_ci set_title title_opcode]. by rewrite Hnp.
Qed.

Lemma u32_self x : u32 (x - x) = 0.
Proof. by rewrite Z.sub_diag. Qed.

Lemma u32_next c : u32 (u32 (u32 c + 1) - u32 c) = 1.
Proof.
  unfold u32, wrap. rewrite Zminus_mod_idemp_l.
  by replace (c mod 2 ^ 32 + 1 - c mod 2 ^ 32) with 1 by lia.
Qed.

Lemma try_next_inv s a c es :
  cq_inv s a c es ->
  match remaining s es with
  | [] => try_next_cqe s = (s, None)
  | x :: l =>
      exists s' es', try_next_cqe s = (s', Some x) /\
        cq_inv s' a (c + u32 (ci s' - ci s)) es' /\ remaining s' es' = l /\
        c + u32 (ci s' - ci s) + Z.of_nat (length es') = c + Z.of_nat (length es) /\
        foldl title_after (title_opcode s') es' = foldl title_after (title_opcode s) es
  end.
Proof.
  intros Hinv. destruct (pending_mini_cqes s) as [it|] eqn:Hpend.
  - destruct (i_pend _ _ _ _ Hinv it Hpend) as (P1 & P2 & P3 & P4).
    unfold remaining, rest. rewrite Hpend, minis_cons by lia. cbn [app].
    unfold try_next_cqe, next_mini_cqe. rewrite Hpend.
    rewrite (proj2 (Z.leb_gt _ _)) by lia. unfold has_more. cbn [current header].
    set (it' := mkIter _ _ _).
    assert (forall p, (forall j, p = Some j -> j = it' /\ current it + 1 < count (header it)) ->
      cq_inv (set_pending s p) a (c + u32 (ci s - ci s)) es) as Hset.
    { intros p Hp. rewrite u32_self, Z.add_0_r. destruct Hinv as [Hg Hci Hpos He Hf _].
      split; try done; [by destruct Hg|]. intros j Hj. destruct (Hp j Hj) as [-> Hlt].
      cbn. split; [done|]. split; [done|lia]. }
    exists (set_pending s (if current it + 1 <? count (header it) then Some it' else None)), es.
    change (ci (set_pending s _)) with (ci s). split; [done|]. split; [|split; [|split; [|done]]].
    + apply Hset. intros j. destruct (_ <? _) eqn:Hl; [|done]. guards. by intros [= <-].
    + cbn [pending_mini_cqes set_pending title_opcode buf].
      destruct (_ <? _) eqn:Hl; guards; [done|]. by rewrite minis_nil by lia.
    + rewrite u32_self. lia.
  - pose proof (next_entry_inv s a c es Hinv Hpend) as H. unfold try_next_cqe. rewrite Hpend.
    destruct es as [|e es']; [unfold remaining, rest; by rewrite Hpend|].
    destruct H as (s' & x & Hn & Hinv' & Hci & Ht & Hrem). rewrite Hrem.
    exists s', es'. rewrite Hci, (i_ci _ _ _ _ Hinv), u32_next. split; [done|].
    split; [done|]. split; [done|]. split; [cbn [length]; lia|]. by rewrite Ht.
Qed.

(** The device writes the next entry: the other slots are left alone. *)
Lemma entry_at_put s p e q :
  geometry s -> length e = 64%nat ->
  entry_at (hw_put s p e) q =
    if decide (p mod cqe_cnt s = q mod cqe_cnt s) then e else entry_at s q.
Proof.
  intros Hg Hl. pose proof (slot_fits s p Hg). unfold entry_at.
  change (slot (hw_put s p e) q) with (slot s q). cbn [buf hw_put]. case_decide as Hd.
  - unfold slot. rewrite <-Hd. fold (slot s p). rewrite <-Hl. apply read_write_same. lia.
  - apply read_write_out; rewrite Hl; [lia|]. pose proof (slots_apart s p q Hg Hd). lia.
Qed.

Lemma put_inv s a c es e :
  cq_inv s a c es -> c + Z.of_nat (length es) < a + cqe_cnt s -> entry_ok e ->
  owner e = lap s (c + Z.of_nat (length es)) ->
  cq_inv (hw_put s (c + Z.of_nat (length es)) e) a c (es ++ [e]) /\
  rest (hw_put s (c + Z.of_nat (length es)) e) = rest s.
Proof.
  intros [Hg Hci Hpos He Hf Hp] Hroom Hok Ho. set (p := c + Z.of_nat (length es)) in *.
  pose proof (cq_cnt_pos s Hg) as Hcp. pose proof Hok as [Hl _].
  assert (forall q, p < q < p + cqe_cnt s \/ q < p < q + cqe_cnt s ->
    entry_at (hw_put s p e) q = entry_at s q) as Hother.
  { intros q Hq. rewrite entry_at_put by done. rewrite decide_False; [done|].
    destruct Hq as [Hq|Hq]; [|intros E; symmetry in E; revert E]; by apply near_apart. }
  split.
  - split; try done.
    + pose proof (slot_fits s p Hg). destruct Hg as [G1 G2 G3]. split; try done.
      cbn [buf hw_put cqe_cnt cqe_size]. rewrite length_write_bytes; [done|lia].
    + rewrite length_app. cbn. lia.
    + intros i x Hi. change (lap (hw_put s p e)) with (lap s).
      apply lookup_app_Some in Hi as [Hi|[Hi1 Hi2]].
      * pose proof (lookup_lt_Some _ _ _ Hi). rewrite Hother by lia. by apply He.
      * apply list_lookup_singleton_Some in Hi2 as [Hi2 <-].
        replace (c + Z.of_nat i) with p by lia. rewrite entry_at_put, decide_True by done. done.
    + intros q. rewrite length_app. cbn [length cqe_cnt hw_put]. intros Hq.
      change (lap (hw_put s p e)) with (lap s). rewrite Hother by lia. apply Hf. lia.
  - unfold rest. cbn [pending_mini_cqes buf hw_put].
    destruct (pending_mini_cqes s) as [it|] eqn:Hpend; [|done].
    destruct (Hp it eq_refl) as (P1 & -> & P3 & P4).
    rewrite (minis_in (buf s)), (minis_in (write_bytes _ _ _)) by lia.
    fold (entry_at s (c - 1)). specialize (Hother (c - 1) ltac:(lia)).
    unfold entry_at in Hother at 1. cbn [buf hw_put] in Hother.
    change (slot (hw_put s p e)) with (slot s) in Hother. by rewrite Hother.
Qed.

Lemma flush_inv s a c es : cq_inv s a c es -> pending_mini_cqes s = None -> cq_inv (flush s) c c es.
Proof.
  intros [Hg Hci Hpos He Hf Hp] Hn. split; try done; [by destruct Hg|cbn; lia|].
  cbn. by rewrite Hn.
Qed.

(** ** Creation *)

Lemma byte_at_write b off off' x :
  (off < length b)%nat ->
  byte_at (write_bytes b off [x]) off' = if decide (off' = off) then x else byte_at b off'.
Proof.
  intros Hl. unfold byte_at. rewrite lookup_write_bytes by (cbn; lia). cbn [length].
  case_decide as H1; case_decide as H2; try lia.
  by replace (off' - off)%nat with 0%nat by lia.
Qed.

Lemma mark_hw_owned_spec s n : forall b,
  (cqe_size s = 64 \/ cqe_size s = 128) ->
  Z.of_nat n * cqe_size s <= Z.of_nat (length b) ->
  length (mark_hw_owned s n b) = length b /\
  forall i, (i < n)%nat -> byte_at (mark_hw_owned s n b) (cqe64_ptr s (Z.of_nat i) + 63) = 241.
Proof.
  intros b Hs. induction n as [|n IH]; intros Hl; cbn [mark_hw_owned]; [split; [done|lia]|].
  destruct IH as [IH1 IH2]; [nia|].
  assert (cqe64_ptr s (Z.of_nat n) + 63 < length (mark_hw_owned s n b))%nat as Hfit.
  { rewrite IH1. unfold cqe64_ptr, cqe64_offset.
    destruct Hs as [E|E]; rewrite E in *; cbn [Z.eqb Pos.eqb]; lia. }
  split; [rewrite length_write_bytes; [done|cbn; lia]|].
  intros i Hi. rewrite byte_at_write by done. case_decide as Hd; [done|]. apply IH2.
  destruct (decide (i = n)) as [->|]; [done|lia].
Qed.

Lemma create_inv b log2 size :
  0 <= log2 <= 31 -> size = 64 \/ size = 128 -> Z.of_nat (length b) = 2 ^ log2 * size ->
  cq_inv (create_cq b log2 size) 0 0 [].
Proof.
  intros Hk Hs Hl. set (s0 := mkCq b (2 ^ log2) log2 size 0 0 None Req).
  assert (0 < 2 ^ log2) as Hp by (apply Z.pow_pos_nonneg; lia).
  destruct (mark_hw_owned_spec s0 (Z.to_nat (2 ^ log2)) b) as [M1 M2]; [done|cbn; lia|].
  split; try done; cbn [length].
  - split; [done|done|]. cbn [buf create_cq cqe_cnt cqe_size]. fold s0. by rewrite M1.
  - cbn [cqe_cnt create_cq]. lia.
  - intros q Hq. rewrite !Z.add_0_l in Hq. unfold owner, entry_at.
    rewrite <-byte_at_in by lia. unfold slot, lap. cbn [cqe_cnt create_cq] in *.
    rewrite (Z.mod_small q), (Z.div_small q) by lia. cbn [buf create_cq]. fold s0.
    change (cqe64_ptr (create_cq b log2 size) q) with (cqe64_ptr s0 q).
    replace q with (Z.of_nat (Z.to_nat q)) by lia. rewrite M2 by lia. done.
Qed.

(** ** Properties *)

Record run_inv (r : Run) (es : list (list Z)) : Prop := mkRunInv {
  ri_inv : cq_inv (cq r) (acked r) (consumed r) es;
  ri_prod : produced r = consumed r + Z.of_nat (length es);
  ri_title : foldl title_after Req (log r) = foldl title_after (title_opcode (cq r)) es;
  ri_log : expand Req (log r) = out r ++ remaining (cq r) es;
}.

Lemma expand_snoc t es e : expand t (es ++ [e]) = expand t es ++ completions (foldl title_after t es) e.
Proof.
  revert t. induction es as [|x es IH]; intros t; cbn; [by rewrite app_nil_r|].
  by rewrite IH, app_assoc.
Qed.

Lemma cq_step_inv r r' es : cq_step r r' -> run_inv r es -> exists es', run_inv r' es'.
Proof.
  intros Hstep [Hi Hp Ht Hl]. destruct Hstep as [r|r Hn|r e Hroom Hok Ho].
  - pose proof (try_next_inv _ _ _ _ Hi) as H.
    destruct (remaining (cq r) es) as [|x l] eqn:Hrem.
    + rewrite H. exists es. rewrite u32_self, Z.add_0_r. split; cbn; try done.
      rewrite app_nil_r. by rewrite Hrem.
    + destruct H as (s' & es' & -> & H1 & H2 & H3 & H4). exists es'.
      split; cbn; [done|lia|congruence|]. by rewrite Hl, H2, <-app_assoc.
  - exists es. split; try done. by apply (flush_inv _ (acked r)).
  - rewrite Hp in *. destruct (put_inv _ _ _ _ e Hi Hroom Hok Ho) as [H1 H2].
    exists (es ++ [e]). split; cbn [cq acked consumed produced log out].
    + done.
    + rewrite length_app. cbn. lia.
    + rewrite !foldl_snoc. cbn [title_opcode hw_put]. by rewrite Ht.
    + rewrite expand_snoc, Hl, Ht. unfold remaining. rewrite H2.
      cbn [title_opcode hw_put]. by rewrite expand_snoc, !app_assoc.
Qed.

Lemma poll_raw_inv s a c es :
  cq_inv s a c es ->
  exists s' c', poll_raw (S (length (remaining s es))) s = Some (s', remaining s es) /\
    cq_inv s' a c' [] /\ remaining s' [] = [] /\ c' = c + Z.of_nat (length es).
Proof.
  remember (remaining s es) as l eqn:Hl. revert s c es Hl.
  induction l as [|x l IH]; intros s c es Hl Hi; pose proof (try_next_inv s a c es Hi) as H;
    rewrite <-Hl in H; cbn [length poll_raw].
  - rewrite H. exists s, c. assert (es = []) as ->.
    { destruct es as [|e es]; [done|]. unfold remaining in Hl. cbn [expand] in Hl.
      destruct (completions_cons (title_opcode s) e) as (y & k & E). rewrite E in Hl.
      by destruct (rest s). }
    split; [done|]. split; [done|]. split; [done|]. cbn. lia.
  - destruct H as (s' & es' & -> & H1 & H2 & H3 & _).
    destruct (IH s' _ es' (eq_sym H2) H1) as (s2 & c2 & E & G1 & G2 & G3). cbn [length poll_raw] in E.
    rewrite E. exists s2, c2. split; [done|]. split; [done|]. split; [done|]. lia.
Qed.

Lemma has_pending_inv s a c es :
  cq_inv s a c es -> has_pending_cqe s = negb (bool_decide (remaining s es = [])).
Proof.
  intros Hi. unfold has_pending_cqe, remaining, rest.
  destruct (pending_mini_cqes s) as [it|] eqn:Hp.
  - destruct (i_pend _ _ _ _ Hi it Hp) as (_ & _ & P & _). rewrite minis_cons by lia. done.
  - pose proof Hi as [Hg Hci Hpos He Hf _]. pose proof (cq_cnt_pos s Hg).
    rewrite (sw_owner_lap s c Hg Hci), Hci, ring_idx by done. fold (slot s c).
    rewrite byte_at_in by lia. fold (entry_at s c). fold (owner (entry_at s c)).
    destruct es as [|e es].
    + rewrite (proj2 (Z.eqb_neq _ _)); [done|]. intros E. apply (Hf c); cbn in *; [lia|done].
    + destruct (He 0%nat e eq_refl) as (E & _ & Ho). rewrite Z.add_0_r in E, Ho.
      rewrite E, Ho, Z.eqb_refl. cbn [expand app].
      destruct (completions_cons (title_opcode s) e) as (y & k & ->). done.
Qed.

(** C25: the completion queue loses, duplicates and reorders nothing.  For any
    interleaving of the device writing entries (regular, or compressed blocks of
    up to seven completions), the program polling and the program acknowledging
    what it polled, the completions polled are a prefix of the completions the
    entries stand for, across every lap of the ring and the wrap-around of the
    32-bit consumer index.  A poll loop then terminates with exactly the missing
    ones, and the peek says whether there are any. *)
Theorem cq_lossless b log2 size r :
  0 <= log2 <= 31 -> size = 64 \/ size = 128 -> Z.of_nat (length b) = 2 ^ log2 * size ->
  rtc cq_step (run_new b log2 size) r ->
  exists missing s',
    expand Req (log r) = out r ++ missing /\
    poll_raw (S (length missing)) (cq r) = Some (s', missing) /\
    has_pending_cqe s' = false /\ ci s' = u32 (produced r) /\
    has_pending_cqe (cq r) = negb (bool_decide (missing = [])).
Proof.
  intros Hk Hs Hl Hr.
  assert (exists es, run_inv r es) as (es & [Hi Hp _ Hlog]).
  { refine (rtc_ind_r (fun r => exists es, run_inv r es) _ _ _ r Hr).
    - exists []. split; try done. by apply create_inv.
    - intros r1 r2 _ H2 [es He]. by apply (cq_step_inv r1 r2 es). }
  destruct (poll_raw_inv _ _ _ _ Hi) as (s' & c' & E & H1 & H2 & H3).
  exists (remaining (cq r) es), s'. split; [done|]. split; [done|].
  split; [by rewrite (has_pending_inv _ _ _ _ H1), H2|].
  split; [by rewrite (i_ci _ _ _ _ H1), H3, Hp|]. by apply (has_pending_inv _ (acked r) (consumed r)).
Qed.

(** ** Dispatch through the cache *)

Section Cache.
Context {W T : Type} (upgrade : W -> option T).
Implicit Types (qs : Queues (W := W) (T := T)).

(** The cached queue is the one the table gives. *)
Definition cache_ok qs : Prop :=
  forall qpn t, last_queue_cache qs = Some (qpn, t) -> lookup_queue upgrade qs qpn = Some t.

Lemma find_queue_spec qs qpn :
  cache_ok qs ->
  (find_queue upgrade qs qpn).2 = lookup_queue upgrade qs qpn /\
  queues (find_queue upgrade qs qpn).1 = queues qs /\
  cache_ok (find_queue upgrade qs qpn).1.
Proof.
  intros Hc.
  assert (let slow := match lookup_queue upgrade qs qpn with
            | Some t => (mkQueues (queues qs) (Some (qpn, t)), Some t)
            | None => (qs, None) end in
    slow.2 = lookup_queue upgrade qs qpn /\ queues slow.1 = queues qs /\ cache_ok slow.1) as Hslow.
  { destruct (lookup_queue upgrade qs qpn) as [t|] eqn:E; cbn; [|done].
    split; [done|]. split; [done|]. intros q t' [= <- <-]. exact E. }
  unfold find_queue. destruct (last_queue_cache qs) as [[cached t]|] eqn:Ec; [|exact Hslow].
  destruct (cached =? qpn) eqn:E; [|exact Hslow]. apply Z.eqb_eq in E as ->. cbn.
  split; [by rewrite (Hc qpn t)|]. done.
Qed.

Lemma unregister_cache_ok qs qpn : cache_ok qs -> cache_ok (unregister_queue qs qpn).
Proof.
  intros Hc q t. unfold unregister_queue, lookup_queue. cbn.
  destruct (last_queue_cache qs) as [[cached t']|] eqn:Ec; [|done].
  destruct (cached =? qpn) eqn:E; [done|]. guards. intros [= <- <-].
  rewrite lookup_delete_ne by lia. by apply Hc.
Qed.

Lemma register_cache_ok qs qpn w :
  cache_ok qs -> queues qs !! qpn = None -> cache_ok (register_queue qs qpn w).
Proof.
  intros Hc Hn q t Hq. specialize (Hc q t Hq). unfold lookup_queue in *. cbn.
  destruct (decide (q = qpn)) as [->|]; [by rewrite Hn in Hc|]. by rewrite lookup_insert_ne.
Qed.

(** Polling with dispatch is polling, each completion sent to the queue the table
    gives for its number. *)
Definition dispatched (qs : gmap Z W) (cqes : list Cqe) : list (T * Cqe) :=
  omap (fun c => (fun t => (t, c)) <$> (qs !! qp_num c ≫= upgrade)) cqes.

(** Dispatching completions through the one-entry cache is invisible: as long
    as queue numbers are not registered twice (the cache then agrees with the
    table), [poll] hands exactly the completions [poll_raw] would see, in order, to
    the registered queue of their number, drops those of unknown queues, and
    reports the number polled. *)
Theorem poll_dispatches fuel s qs :
  cache_ok qs ->
  match poll upgrade fuel s qs, poll_raw fuel s with
  | Some (s1, qs', l, n), Some (s2, cqes) =>
      s1 = s2 /\ l = dispatched (queues qs) cqes /\ n = Z.of_nat (length cqes) /\
      queues qs' = queues qs /\ cache_ok qs'
  | None, None => True
  | _, _ => False
  end.
Proof.
  revert s qs. induction fuel as [|fuel IH]; intros s qs Hc; cbn [poll poll_raw]; [done|].
  destruct (try_next_cqe s) as [s1 [cqe|]]; [|done].
  destruct (find_queue_spec qs (qp_num cqe) Hc) as (F1 & F2 & F3).
  destruct (find_queue upgrade qs (qp_num cqe)) as [qs1 t]. cbn [fst snd] in *.
  specialize (IH s1 qs1 F3).
  destruct (poll upgrade fuel s1 qs1) as [[[[s2 qs2] l] n]|], (poll_raw fuel s1) as [[s3 cqes]|];
    try done.
  destruct IH as (-> & -> & -> & H1 & H2). rewrite F2 in *. split; [done|].
  split; [|split; [cbn; lia|by rewrite H1]].
  rewrite F1. unfold dispatched, lookup_queue. cbn [omap list_omap].
  by destruct (queues qs !! qp_num cqe ≫= upgrade).
Qed.

End Cache.

(** ** The monomorphic queue *)

(** The uncompressed path of the monomorphic queue against the general one, on
    every entry: both wait while the device owns the entry; on a known opcode they
    return the same completion and advance alike; on a compression marker the
    monomorphic path waits; an entry with an unknown opcode is reported as an error
    by the monomorphic path, while the general queue never gets past it. *)
Theorem mono_simple_against_cq s :
  pending_mini_cqes s = None ->
  let off := cqe64_ptr s (Z.land (ci s) (cqe_cnt s - 1)) in
  let op_own := byte_at (buf s) (off + 63) in
  let opc := Z.shiftr op_own 4 in
  if negb (sw_owner s =? Z.land op_own 1) then
    try_next_cqe s = (s, None) /\ try_next_cqe_simple s = (s, None)
  else if opc =? 15 then try_next_cqe_simple s = (s, None)
  else
    exists s' cqe, try_next_cqe_simple s = (s', Some cqe) /\ ci s' = u32 (ci s + 1) /\
      match from_u8 opc with
      | Some o => try_next_cqe s = (set_title s' o, Some cqe) /\ opcode cqe = o
      | None => try_next_cqe s = (s, None) /\ opcode cqe = ReqErr
      end.
Proof.
  intros Hp off op_own opc. unfold try_next_cqe, next_entry, try_next_cqe_simple.
  rewrite Hp. fold off. fold op_own. fold opc.
  destruct (sw_owner s =? Z.land op_own 1); cbn [negb orb]; [|done].
  destruct (opc =? 15); [done|]. eexists _, _. split; [done|]. split; [done|].
  assert (opcode (cqe_from_ptr (buf s) off) = default ReqErr (from_u8 opc)) as Ho.
  { unfold cqe_from_ptr. fold op_own. fold opc. by destruct (is_error _). }
  destruct (from_u8 opc) as [o|]; [|done]. unfold take_regular. by rewrite Ho.
Qed.

(** With compression enabled the monomorphic queue reads the same byte of a
    compressed entry both as its lap signature and as format and number of its
    completions: every block it accepts is expanded to a number of completions that
    depends on the lap alone, one during the first four laps, whatever the device
    put in it. *)
Theorem mono_compressed_count_is_lap m m' cqe :
  pending_mini_cqes (mono m) = None ->
  let s := mono m in
  let off := cqe64_ptr s (Z.land (ci s) (cqe_cnt s - 1)) in
  Z.land (byte_at (buf s) (off + 63)) CQE_FORMAT_MASK = CQE_FORMAT_MASK ->
  mono_next_entry m = (m', Some cqe) ->
  let n := Z.land (Z.shiftr (ci s) (cqe_cnt_log2 s)) 255 in
  count (header_from_ptr (buf s) off (title_opcode s)) = Z.land (Z.shiftr n 2) 15 + 1 /\
  (n < 4 -> pending_mini_cqes (mono m') = None).
Proof.
  intros Hp s off Hf Hn n. unfold mono_next_entry in Hn. fold s in Hn. fold off in Hn.
  rewrite Hf, Z.eqb_refl in Hn. cbv iota in Hn. fold n in Hn.
  destruct (Z.lxor n (byte_at (buf s) (off + 62)) =? 0) eqn:Hx; cbn [negb] in Hn; [|done].
  apply Z.eqb_eq in Hx. apply Z.lxor_eq in Hx.
  destruct (ci s =? 0); [done|].
  assert (count (header_from_ptr (buf s) off (title_opcode s)) = Z.land (Z.shiftr n 2) 15 + 1) as Hc
    by (cbn; by rewrite Hx).
  split; [done|]. intros Hlt. destruct (open_compressed s off) as [s1 r] eqn:Ho.
  injection Hn as <- _. cbn [mono]. revert Ho. unfold open_compressed, next_mini_cqe, has_more.
  assert (0 <= n) as Hn0 by (apply Z.land_nonneg; right; lia).
  assert (count (header_from_ptr (buf s) off (title_opcode s)) = 1) as H1.
  { rewrite Hc. by replace (Z.shiftr n 2) with 0
      by (rewrite Z.shiftr_div_pow2 by lia; symmetry; apply Z.div_small; lia). }
  unfold iter_new. cbn [header current mini_cqe_ptr]. rewrite H1.
  change (1 <=? 0) with false. cbv iota. cbn [header current]. rewrite H1.
  change (0 + 1 <? 1) with false. cbv iota. intros [= <- _]. exact Hp.
Qed.

(** The header of a compressed entry can announce up to sixteen completions, but
    only seven fit in front of it: the eighth is read from the header itself. *)
Lemma eighth_mini_reads_header b off h :
  format h = Responder -> byte_cnt (mini_cqe b off h 7) = be_field b (off + 56) 4.
Proof. intros E. unfold mini_cqe. rewrite E. done. Qed.

(** ** Witnesses *)

(** A write-with-immediate completion, for even and for odd laps. *)
Definition demo_entry (o : Z) : list Z := replicate 63 0 ++ [16 + o].
Definition demo_run : Run :=
  let r := run_new (replicate 128 0) 1 64 in
  mkRun (hw_put (cq r) 0 (demo_entry 0)) 0 0 1 [demo_entry 0] [].

Lemma cq_lossless_witness :
  exists missing s',
    expand Req (log demo_run) = out demo_run ++ missing /\
    poll_raw (S (length missing)) (cq demo_run) = Some (s', missing) /\ ci s' = 1.
Proof.
  destruct (cq_lossless (replicate 128 0) 1 64 demo_run) as (l & s' & H1 & H2 & _ & H3 & _).
  - lia.
  - by left.
  - reflexivity.
  - apply rtc_once.
    refine (step_device (run_new (replicate 128 0) 1 64) (demo_entry 0) _ _ _); [reflexivity| |reflexivity].
    split; [reflexivity|]. by exists RespRdmaWriteImm.
  - exists l, s'. split; [exact H1|]. split; [exact H2|]. exact H3.
Defined.

Lemma poll_dispatches_witness :
  exists s1 qs l, poll Some 3 (cq demo_run) (mkQueues {[ 0 := 7 ]} None) = Some (s1, qs, l, 1) /\
    l = dispatched Some {[ 0 := 7 ]} [cqe_from_ptr (demo_entry 0) 0].
Proof.
  pose proof (poll_dispatches Some 3 (cq demo_run) (mkQueues {[ 0 := 7 ]} None)) as H.
  assert (exists s2, poll_raw 3 (cq demo_run) = Some (s2, [cqe_from_ptr (demo_entry 0) 0]))
    as [s2 E] by (eexists; vm_compute; reflexivity).
  destruct (poll Some 3 (cq demo_run) (mkQueues {[ 0 := 7 ]} None)) as [[[[s1 qs] l] n]|];
    rewrite E in H; specialize (H ltac:(by intros ? ?)); [|done].
  destruct H as (_ & H1 & H2 & _). exists s1, qs, l. split; [by rewrite H2|exact H1].
Defined.

Lemma mono_simple_against_cq_witness :
  exists s' x, try_next_cqe_simple (cq demo_run) = (s', Some x) /\ opcode x = RespRdmaWriteImm.
Proof.
  destruct (mono_simple_against_cq (cq demo_run)) as (s' & x & H1 & _ & H2); [reflexivity|].
  exists s', x. split; [exact H1|]. exact (proj2 H2).
Defined.

(** A compressed entry of the second lap that announces one completion. *)
Definition demo_mono : MonoCqState :=
  mkMono (mkCq (replicate 62 0 ++ [1; 29] ++ replicate 64 0) 2 1 64 2 2 None RespSend) true 0.

Lemma mono_compressed_count_is_lap_witness :
  exists m' x, mono_next_entry demo_mono = (m', Some x) /\ pending_mini_cqes (mono m') = None.
Proof.
  assert (exists m' x, mono_next_entry demo_mono = (m', Some x)) as (m' & x & E)
    by (eexists _, _; reflexivity).
  exists m', x. split; [exact E|].
  apply (mono_compressed_count_is_lap demo_mono m' x); [reflexivity|reflexivity|exact E|reflexivity].
Defined.

End Cq.
