(* ===== verification/Mpsc.v ===== *)
(** * Mpsc: the transport interface of [mempc] and its first client and instance

    [mempc/src/lib.rs] has one interface, [MpscCaller], that every transport
    implements.  Here it is a class of operations with a class of laws: requests
    are numbered by consecutive tokens, or by tokens that repeat after a number of
    requests, and answered in order.  The adapter
    [CallerWithUserData] ([user_data.rs]) is proved correct against the laws, and
    the FastForward transport ([Fastforward]) and the one-sided channels ([FluxProps])
    are shown to satisfy them.  A lane
    is one caller with the two rings it shares with the server. *)
From S2P Require Import Prelude Onesided.

Module Mpsc.

Notation CallError := Onesided.CallError.
Notation Response := Onesided.Response.
Notation mkResponse := Onesided.mkResponse.

(** ** The interface *)

(** [trait MpscCaller]; [serve] are the steps the server may make on the lane. *)
Class CallerOps (L Req Resp : Type) : Type := {
  caller_call : L -> Req -> option (L * result Z (CallError Req));
  caller_sync : L -> L;
  caller_try_recv_response : L -> option (L * option (Z * Resp));
  caller_pending_count : L -> Z;
  serve : L -> L -> Prop;
}.

(** [in_window l k n]: the requests [k], ..., [k + n - 1] are unanswered, and [k]
    is the next to be answered.  The token of a request is its number modulo
    [modulus]; a modulus of 0 means that tokens do not repeat ([x mod 0] is [x]). *)
Class CallerLaws (L Req Resp : Type) `{!CallerOps L Req Resp} : Type := {
  window : Z;
  modulus : Z;
  in_window : L -> Z -> Z -> Prop;
  window_bound : forall l k n, in_window l k n -> 0 <= k /\ 0 <= n <= window;
  window_pending : forall l k n, in_window l k n -> caller_pending_count l = n;
  window_call : forall l k n req, in_window l k n -> k + n + 1 < 2 ^ 64 ->
    exists l' r, caller_call l req = Some (l', r) /\
      match r with
      | Ok t => t mod modulus = (k + n) mod modulus /\ in_window l' k (n + 1)
      | Err _ => in_window l' k n
      end;
  window_sync : forall l k n, in_window l k n -> in_window (caller_sync l) k n;
  window_recv : forall l k n, in_window l k n ->
    exists l' r, caller_try_recv_response l = Some (l', r) /\
      match r with
      | Some (t, _) =>
          t mod modulus = k mod modulus /\ 0 < n /\ in_window l' (k + 1) (n - 1)
      | None => in_window l' k n
      end;
  window_serve : forall l l' k n, in_window l k n -> serve l l' -> in_window l' k n;
}.

(** ** The user-data adapter *)

Section UserData.
Context {L Req Resp U : Type} `{!CallerOps L Req Resp}.

(** [struct CallerWithUserData]. *)
Record CallerWithUserData : Type := mkWith { caller : L; user_data : list (option U) }.
Implicit Types (w : CallerWithUserData).

Definition with_new (c : L) (capacity : nat) : CallerWithUserData :=
  mkWith c (replicate capacity None).

(** [token as usize % self.user_data.len()]; a remainder by zero panics. *)
Definition ud_slot w (token : Z) : option nat :=
  if decide (user_data w = []) then None
  else Some (Z.to_nat (token mod Z.of_nat (length (user_data w)))).

Definition with_call w (req : Req) (u : U) : option (CallerWithUserData * result unit (CallError Req)) :=
  match caller_call (caller w) req with
  | None => None
  | Some (c, Ok token) =>
      match ud_slot w token with
      | Some slot => Some (mkWith c (<[slot := Some u]> (user_data w)), Ok tt)
      | None => None
      end
  | Some (c, Err e) => Some (mkWith c (user_data w), Err e)
  end.

(** The loop of [poll], with the responses given to the callback. *)
Fixpoint with_poll_loop (fuel : nat) w : option (CallerWithUserData * list (U * Resp)) :=
  match fuel with
  | O => None
  | S fuel =>
      match caller_try_recv_response (caller w) with
      | None => None
      | Some (c, None) => Some (mkWith c (user_data w), [])
      | Some (c, Some (token, resp)) =>
          match ud_slot w token with
          | None => None
          | Some slot =>
              let ud := default None (user_data w !! slot) in
              match with_poll_loop fuel (mkWith c (<[slot := None]> (user_data w))) with
              | Some (w, out) =>
                  Some (w, match ud with Some u => (u, resp) :: out | None => out end)
              | None => None
              end
          end
      end
  end.

Definition with_poll (fuel : nat) w : option (CallerWithUserData * list (U * Resp)) :=
  with_poll_loop fuel (mkWith (caller_sync (caller w)) (user_data w)).

Definition with_pending_count w : Z := caller_pending_count (caller w).

(** ** The adapter against the laws *)

Context `{!CallerLaws L Req Resp}.

(** [us]: the user data of all accepted calls, [k] of which were answered. *)
Record with_inv w (us : list U) (k : Z) : Prop := mkWithInv {
  wi_window : in_window (caller w) k (Z.of_nat (length us) - k);
  wi_room : window <= Z.of_nat (length (user_data w)) /\ user_data w <> [];
  wi_divide : (Z.of_nat (length (user_data w)) | modulus);
  wi_slots : forall i u, k <= Z.of_nat i -> us !! i = Some u ->
    user_data w !! Z.to_nat (Z.of_nat i mod Z.of_nat (length (user_data w))) = Some (Some u);
}.

Lemma ud_slot_val w t :
  user_data w <> [] -> ud_slot w t = Some (Z.to_nat (t mod Z.of_nat (length (user_data w)))).
Proof. intros H. unfold ud_slot. by rewrite decide_False. Qed.

(** Tokens that are equal modulo [modulus] have the same slot. *)
Lemma ud_slot_token w t n :
  user_data w <> [] -> (Z.of_nat (length (user_data w)) | modulus) ->
  t mod modulus = n mod modulus ->
  ud_slot w t = Some (Z.to_nat (n mod Z.of_nat (length (user_data w)))).
Proof.
  intros Hne Hd E. rewrite ud_slot_val by done.
  by rewrite <-(Z.mod_mod_divide t modulus), E, Z.mod_mod_divide.
Qed.

(** Tokens of one window use different slots. *)
Lemma slots_differ (n i j : Z) :
  0 <= i -> i < j < i + n -> Z.to_nat (i mod n) <> Z.to_nat (j mod n).
Proof.
  intros Hi Hj E. pose proof (Z.mod_pos_bound i n ltac:(lia)). pose proof (Z.mod_pos_bound j n ltac:(lia)).
  assert (i mod n = j mod n) as E' by lia.
  assert ((j - i) mod n = 0) as Hz by (rewrite Zminus_mod, <-E', Z.sub_diag; apply Z.mod_0_l; lia).
  rewrite Z.mod_small in Hz; lia.
Qed.

Lemma call_inv w us k req u :
  with_inv w us k -> Z.of_nat (length us) + 1 < 2 ^ 64 ->
  exists w' r, with_call w req u = Some (w', r) /\
    with_inv w' (if is_ok r then us ++ [u] else us) k.
Proof.
  intros [Hw [Hr Hne] Hdiv Hs] Hlt. pose proof (window_bound _ _ _ Hw) as [Hk Hn].
  destruct (window_call _ _ _ req Hw) as (l' & r & E & Hcase); [lia|].
  unfold with_call. rewrite E. destruct r as [t|err].
  2:{ eexists _, _. split; [done|]. split; try done. }
  destruct Hcase as [Ht Hw']. rewrite (ud_slot_token w t _ Hne Hdiv Ht). eexists _, _. split; [done|].
  pose proof (window_bound _ _ _ Hw') as [_ Hn'].
  replace (k + (Z.of_nat (length us) - k)) with (Z.of_nat (length us)) in * by lia.
  set (n := Z.of_nat (length (user_data w))) in *.
  split; cbn [is_ok caller user_data]; rewrite ?length_insert; fold n.
  - rewrite length_app. cbn. by replace (Z.of_nat (length us + 1) - k)
      with (Z.of_nat (length us) - k + 1) by lia.
  - split; [done|]. intros Hx. apply (f_equal length) in Hx. rewrite length_insert in Hx.
    by destruct (user_data w).
  - done.
  - intros i v Hi Hv. apply lookup_app_Some in Hv as [Hv|[Hv1 Hv2]].
    + pose proof (lookup_lt_Some _ _ _ Hv). rewrite list_lookup_insert_ne; [by apply Hs|].
      intros Hx. symmetry in Hx. revert Hx. apply slots_differ; lia.
    + apply list_lookup_singleton_Some in Hv2 as [Hv2 <-].
      replace (Z.of_nat i) with (Z.of_nat (length us)) by lia.
      apply list_lookup_insert_eq. pose proof (Z.mod_pos_bound (Z.of_nat (length us)) n ltac:(lia)). lia.
Qed.

Lemma with_poll_loop_S fuel w :
  with_poll_loop (S fuel) w =
    match caller_try_recv_response (caller w) with
    | None => None
    | Some (c, None) => Some (mkWith c (user_data w), [])
    | Some (c, Some (token, resp)) =>
        match ud_slot w token with
        | None => None
        | Some slot =>
            match with_poll_loop fuel (mkWith c (<[slot := None]> (user_data w))) with
            | Some (w', out) =>
                Some (w', match default None (user_data w !! slot) with
                          | Some u => (u, resp) :: out | None => out end)
            | None => None
            end
        end
    end.
Proof. done. Qed.

(** One response: it is the oldest unanswered call's. *)
Lemma poll_step w us k :
  with_inv w us k ->
  exists l' r, caller_try_recv_response (caller w) = Some (l', r) /\
    match r with
    | None => with_inv (mkWith l' (user_data w)) us k
    | Some (t, _) =>
        exists slot u, ud_slot w t = Some slot /\ us !! Z.to_nat k = Some u /\ 0 <= k /\
          default None (user_data w !! slot) = Some u /\
          with_inv (mkWith l' (<[slot := None]> (user_data w))) us (k + 1)
    end.
Proof.
  intros [Hw [Hr Hne] Hdiv Hs]. pose proof (window_bound _ _ _ Hw) as [Hk Hn].
  destruct (window_recv _ _ _ Hw) as (l' & r & E & Hcase). exists l', r. split; [done|].
  destruct r as [[t resp]|]; [|by split].
  destruct Hcase as (Ht & Hpos & Hw'). rewrite (ud_slot_token w t k Hne Hdiv Ht).
  set (n := Z.of_nat (length (user_data w))) in *.
  destruct (lookup_lt_is_Some_2 us (Z.to_nat k)) as [u Hu]; [lia|].
  pose proof (Hs (Z.to_nat k) u ltac:(lia) Hu) as Hslot. rewrite Z2Nat.id in Hslot by lia.
  exists (Z.to_nat (k mod n)), u. split; [done|]. split; [done|]. split; [done|].
  split; [by rewrite Hslot|].
  split; cbn [caller user_data]; rewrite ?length_insert; fold n.
  - by replace (Z.of_nat (length us) - (k + 1)) with (Z.of_nat (length us) - k - 1) by lia.
  - split; [done|]. intros Hx. apply (f_equal length) in Hx. rewrite length_insert in Hx.
    by destruct (user_data w).
  - done.
  - intros i v Hiv Hv. pose proof (lookup_lt_Some _ _ _ Hv).
    rewrite list_lookup_insert_ne; [apply Hs; [lia|done]|]. apply slots_differ; lia.
Qed.

(** What a poll gave back, from the [k]-th call on. *)
Definition given_back (us : list U) (k k' : Z) : list U :=
  take (Z.to_nat (k' - k)) (drop (Z.to_nat k) us).

Lemma given_back_cons us k k' u :
  us !! Z.to_nat k = Some u -> 0 <= k -> k + 1 <= k' ->
  given_back us k k' = u :: given_back us (k + 1) k'.
Proof.
  intros Hu Hk Hle. unfold given_back. rewrite (drop_S us u (Z.to_nat k)) by done.
  replace (Z.to_nat (k' - k)) with (S (Z.to_nat (k' - (k + 1)))) by lia. cbn [take].
  by replace (S (Z.to_nat k)) with (Z.to_nat (k + 1)) by lia.
Qed.

Lemma poll_loop_inv fuel : forall w us k w' out,
  with_inv w us k -> with_poll_loop fuel w = Some (w', out) ->
  exists k', with_inv w' us k' /\ k <= k' /\ out.*1 = given_back us k k'.
Proof.
  induction fuel as [|fuel IH]; intros w us k w' out Hi; [done|]. rewrite with_poll_loop_S.
  destruct (poll_step w us k Hi) as (l' & r & -> & Hcase). destruct r as [[t resp]|].
  - destruct Hcase as (slot & u & -> & Hu & Hk & -> & Hi').
    destruct (with_poll_loop fuel _) as [[w1 out1]|] eqn:E; [|done]. intros [= <- <-].
    destruct (IH _ _ _ _ _ Hi' E) as (k' & H1 & H2 & H3). exists k'. split; [done|].
    split; [lia|]. cbn [fmap list_fmap fst]. by rewrite H3, <-given_back_cons by (done || lia).
  - intros [= <- <-]. exists k. split; [done|]. split; [lia|].
    unfold given_back. by rewrite Z.sub_diag.
Qed.

(** The loop ends: every iteration answers a call. *)
Lemma poll_loop_total m : forall w us k,
  with_inv w us k -> Z.of_nat (length us) - k <= Z.of_nat m ->
  exists w' out, with_poll_loop (S m) w = Some (w', out).
Proof.
  induction m as [|m IH]; intros w us k Hi Hle; rewrite with_poll_loop_S;
    destruct (poll_step w us k Hi) as (l' & r & -> & Hcase); destruct r as [[t resp]|]; eauto;
    destruct Hcase as (slot & u & -> & Hu & Hk & -> & Hi').
  - apply lookup_lt_Some in Hu. lia.
  - destruct (IH _ _ _ Hi') as (w' & out & ->); [lia|]. eauto.
Qed.

(** Any use of the adapter: calls and polls of the client, steps of the server;
    with the user data accepted so far and the user data given back so far. *)
Inductive with_step : CallerWithUserData * list U * list U -> CallerWithUserData * list U * list U -> Prop :=
| with_step_call w us got req u w' r :
    Z.of_nat (length us) + 1 < 2 ^ 64 -> with_call w req u = Some (w', r) ->
    with_step (w, us, got) (w', if is_ok r then us ++ [u] else us, got)
| with_step_poll w us got fuel w' out :
    with_poll fuel w = Some (w', out) -> with_step (w, us, got) (w', us, got ++ out.*1)
| with_step_serve w us got c :
    serve (caller w) c -> with_step (w, us, got) (mkWith c (user_data w), us, got).

Lemma sync_inv w us k :
  with_inv w us k -> with_inv (mkWith (caller_sync (caller w)) (user_data w)) us k.
Proof. intros [Hw Hr Hd Hs]. split; [by apply window_sync|done..]. Qed.

Lemma with_step_inv w us got w' us' got' :
  with_step (w, us, got) (w', us', got') ->
  with_inv w us (Z.of_nat (length got)) -> got = take (length got) us ->
  with_inv w' us' (Z.of_nat (length got')) /\ got' = take (length got') us'.
Proof.
  intros Hstep Hi Hg.
  assert (length got <= length us)%nat as Hle by (rewrite Hg, length_take; lia).
  inversion Hstep as [w0 us0 got0 req u w1 r Hl Ec|w0 us0 got0 fuel w1 out Ep|w0 us0 got0 c Hserve];
    subst w0 us0 got0 w' us'; try subst got'.
  - destruct (call_inv w us (Z.of_nat (length got)) req u Hi) as (w2 & r2 & E & Hi'); [done|].
    rewrite Ec in E. injection E as <- <-. split; [done|].
    destruct (is_ok r); [|done]. by rewrite take_app_le by lia.
  - destruct (poll_loop_inv _ _ _ _ _ _ (sync_inv _ _ _ Hi) Ep) as (k' & H1 & H2 & H3).
    pose proof (window_bound _ _ _ (wi_window _ _ _ H1)) as [Hk Hn].
    assert (length out.*1 = Z.to_nat k' - length got)%nat as Hlo.
    { rewrite H3. unfold given_back. rewrite length_take, length_drop. lia. }
    rewrite length_app, Hlo. replace (length got + (Z.to_nat k' - length got))%nat with (Z.to_nat k') by lia.
    split; [by rewrite Z2Nat.id by lia|].
    rewrite H3. unfold given_back. rewrite Nat2Z.id. rewrite Hg at 1.
    replace (Z.to_nat (k' - Z.of_nat (length got))) with (Z.to_nat k' - length got)%nat by lia.
    rewrite take_take_drop. f_equal. lia.
  - split; [|done]. destruct Hi as [Hw Hr Hd Hs]. split; try done.
    eapply window_serve; [exact Hw|done].
Qed.

(** Whatever transport satisfies the laws, the adapter gives every accepted
    call's user data back exactly once and in order: through any interleaving of
    calls, polls and server steps, with at least as many slots as the transport has
    requests in flight and a number of slots that divides the modulus of its tokens,
    the user data given to the callback are a prefix of those of
    the accepted calls, the rest are still pending, and a further poll terminates
    without panic. *)
Theorem user_data_in_order w c capacity us got :
  in_window c 0 0 -> window <= Z.of_nat capacity -> (0 < capacity)%nat ->
  (Z.of_nat capacity | modulus) ->
  rtc with_step (with_new c capacity, [], []) (w, us, got) ->
  (exists rest, us = got ++ rest /\ with_pending_count w = Z.of_nat (length rest)) /\
  exists w' out, with_poll (S (length us)) w = Some (w', out) /\
    exists rest', us = got ++ out.*1 ++ rest'.
Proof.
  intros Hc Hcap Hpos Hdiv Hr.
  assert (with_inv w us (Z.of_nat (length got)) /\ got = take (length got) us) as [Hi Hg].
  { refine (rtc_ind_r (fun st => let '(w, us, got) := st in
      with_inv w us (Z.of_nat (length got)) /\ got = take (length got) us) _ _ _ (w, us, got) Hr).
    - split; [|done]. split; cbn; [done| | |done]; rewrite length_replicate; [|done].
      split; [done|]. destruct capacity; [lia|done].
    - clear. intros [[w us] got] [[w' us'] got'] _ Hstep [Hi Hg]. by apply (with_step_inv w us got). }
  split.
  - exists (drop (length got) us). split; [by rewrite Hg at 1; rewrite take_drop|].
    unfold with_pending_count. rewrite (window_pending _ _ _ (wi_window _ _ _ Hi)), length_drop.
    pose proof (window_bound _ _ _ (wi_window _ _ _ Hi)). lia.
  - destruct (poll_loop_total (length us) _ us _ (sync_inv _ _ _ Hi)) as (w' & out & E); [lia|].
    destruct (poll_loop_inv _ _ _ _ _ _ (sync_inv _ _ _ Hi) E) as (k' & _ & _ & Ho).
    exists w', out. split; [exact E|]. exists (drop (Z.to_nat (k' - Z.of_nat (length got))) (drop (length got) us)).
    rewrite Ho. unfold given_back. rewrite Nat2Z.id, take_drop. rewrite Hg at 1.
    by rewrite take_drop.
Qed.

End UserData.
Arguments CallerWithUserData L U : clear implicits.
End Mpsc.
