(* ===== verification/Fastforward.v ===== *)
(** * Fastforward: the validity-flag transport of [mempc]

    [mempc/src/fastforward.rs].  A ring slot carries a flag: the sender fills a slot
    whose flag is clear and sets it, the receiver empties a slot whose flag is set
    and clears it; no index is shared.  A channel has two rings per caller and one
    server that scans the lanes.  Operations are atomic here: each has one access to
    the flag of one slot that the other side can observe, its last.  The channel is
    shown to implement a bounded queue of requests and a queue of responses per
    caller, and to satisfy the laws of [Mpsc.CallerLaws]. *)
From S2P Require Import Prelude Onesided Mpsc.

Module Fastforward.

Notation CallError := Onesided.CallError.
Notation Full := Onesided.Full.
Notation InflightExceeded := Onesided.InflightExceeded.
Notation Response := Onesided.Response.
Notation mkResponse := Onesided.mkResponse.
Notation ReplyToken := Onesided.ReplyToken.
Notation mkToken := Onesided.mkToken.
Notation tk_caller_id := Onesided.tk_caller_id.
Notation slot_token := Onesided.slot_token.

(** ** The rings *)

Section Spsc.
Context {T : Type}.

(** [struct Slot]; [data] is [None] while the memory is uninitialised. *)
Record Slot : Type := mkSlot { valid : bool; data : option T }.

Definition slot_new : Slot := mkSlot false None.
Definition set_valid (b : bool) (s : Slot) : Slot := mkSlot b (data s).
Definition write_data (d : T) (s : Slot) : Slot := mkSlot (valid s) (Some d).

Record FastForwardSpscTx : Type := mkTx { tx_send_count : Z }.
Record FastForwardSpscRx : Type := mkRx { rx_recv_count : Z }.

(** [count as usize % ring.len()]: the remainder by zero panics. *)
Definition slot_index (ring : list Slot) (count : Z) : option nat :=
  if decide (ring = []) then None else Some (Z.to_nat (count mod Z.of_nat (length ring))).

(** [FastForwardSpscTx::try_send]; [None] is a panic. *)
Definition try_send (tx : FastForwardSpscTx) (ring : list Slot) (d : T)
    : option (FastForwardSpscTx * list Slot * result Z T) :=
  match slot_index ring (tx_send_count tx) with
  | None => None
  | Some slot_idx =>
      match ring !! slot_idx with
      | None => None
      | Some slot =>
          if valid slot then Some (tx, ring, Err d)
          else Some (mkTx (u64 (tx_send_count tx + 1)),
                     <[slot_idx := set_valid true (write_data d slot)]> ring,
                     Ok (tx_send_count tx))
      end
  end.

(** [FastForwardSpscRx::try_recv]; a read of uninitialised memory is [None] too. *)
Definition try_recv (rx : FastForwardSpscRx) (ring : list Slot)
    : option (FastForwardSpscRx * list Slot * option (Z * T)) :=
  match slot_index ring (rx_recv_count rx) with
  | None => None
  | Some slot_idx =>
      match ring !! slot_idx with
      | None => None
      | Some slot =>
          if negb (valid slot) then Some (rx, ring, None)
          else match data slot with
               | None => None
               | Some d => Some (mkRx (u64 (rx_recv_count rx + 1)),
                                 <[slot_idx := set_valid false slot]> ring,
                                 Some (rx_recv_count rx, d))
               end
      end
  end.

Definition fastforward_spsc (ring_depth : nat) : FastForwardSpscTx * FastForwardSpscRx * list Slot :=
  (mkTx 0, mkRx 0, replicate ring_depth slot_new).

(** ** A ring is a bounded queue

    [holds ring c q]: from the slot of position [c] on, the ring holds the values [q]
    and is otherwise empty. *)
Record holds (ring : list Slot) (c : Z) (q : list T) : Prop := mkHolds {
  h_count : 0 <= c;
  h_room : (length q <= length ring)%nat /\ ring <> [];
  h_full : forall j d, q !! j = Some d ->
    ring !! Z.to_nat ((c + Z.of_nat j) mod Z.of_nat (length ring)) = Some (mkSlot true (Some d));
  h_empty : forall j, (length q <= j < length ring)%nat -> exists d,
    ring !! Z.to_nat ((c + Z.of_nat j) mod Z.of_nat (length ring)) = Some (mkSlot false d);
}.

Lemma slot_index_val ring c :
  ring <> [] -> slot_index ring c = Some (Z.to_nat (c mod Z.of_nat (length ring))).
Proof. intros H. unfold slot_index. by rewrite decide_False. Qed.

Lemma ring_len_pos (ring : list Slot) : ring <> [] -> 0 < Z.of_nat (length ring).
Proof. destruct ring; [done|cbn; lia]. Qed.

Lemma insert_ne_nil {A} (l : list A) i x : l <> [] -> <[i := x]> l <> [].
Proof. intros H E. apply (f_equal length) in E. rewrite length_insert in E. by destruct l. Qed.

Lemma holds_new depth : (0 < depth)%nat -> holds (replicate depth slot_new) 0 [].
Proof.
  intros Hd. split; [done| |done|].
  - cbn. split; [lia|]. by destruct depth; [lia|].
  - rewrite length_replicate. intros j Hj. exists None. apply lookup_replicate. split; [done|].
    pose proof (Z.mod_pos_bound (0 + Z.of_nat j) (Z.of_nat depth) ltac:(lia)). lia.
Qed.

(** Positions less than a lap apart are in different slots. *)
Lemma holds_slots_differ (ring : list Slot) c (i j : nat) :
  0 <= c -> (i < length ring)%nat -> (j < length ring)%nat -> i <> j ->
  Z.to_nat ((c + Z.of_nat i) mod Z.of_nat (length ring)) <>
  Z.to_nat ((c + Z.of_nat j) mod Z.of_nat (length ring)).
Proof.
  intros Hc Hi Hj Hne. destruct (decide (i < j)%nat).
  - apply Mpsc.slots_differ; lia.
  - apply not_eq_sym, Mpsc.slots_differ; lia.
Qed.

(** A send appends unless the ring is full. *)
Lemma try_send_holds ring c q d :
  holds ring c q -> c + Z.of_nat (length q) + 1 < 2 ^ 64 ->
  let tx := mkTx (c + Z.of_nat (length q)) in
  if decide (length q < length ring)%nat
  then exists ring', try_send tx ring d = Some (mkTx (c + Z.of_nat (length q) + 1), ring',
         Ok (c + Z.of_nat (length q))) /\ holds ring' c (q ++ [d]) /\ length ring' = length ring
  else try_send tx ring d = Some (tx, ring, Err d).
Proof.
  intros [Hc [Hl Hne] Hf He] Hlt. cbn zeta. unfold try_send. cbn [tx_send_count].
  rewrite slot_index_val by done. pose proof (ring_len_pos _ Hne). case_decide as Hd.
  - destruct (He (length q)) as [d0 ->]; [lia|]. cbn [valid]. rewrite u64_small by lia.
    eexists. split; [reflexivity|]. rewrite length_insert. split; [|done].
    split; rewrite ?length_insert, ?length_app; cbn [length]; [done| | |].
    + split; [lia|by apply insert_ne_nil].
    + intros j d' Hj. apply lookup_app_Some in Hj as [Hj|[Hj1 Hj2]].
      * pose proof (lookup_lt_Some _ _ _ Hj). rewrite list_lookup_insert_ne; [by apply Hf|].
        apply holds_slots_differ; lia.
      * apply list_lookup_singleton_Some in Hj2 as [Hj2 <-].
        replace j with (length q) by lia. rewrite list_lookup_insert_eq; [done|].
        pose proof (Z.mod_pos_bound (c + Z.of_nat (length q)) (Z.of_nat (length ring)) ltac:(lia)). lia.
    + intros j Hj. rewrite list_lookup_insert_ne; [apply He; lia|]. apply holds_slots_differ; lia.
  - destruct q as [|x q]; [destruct ring; [done|cbn in *; lia]|].
    replace (length (x :: q)) with (length ring) in * by lia.
    assert ((c + Z.of_nat (length ring)) mod Z.of_nat (length ring) =
            (c + Z.of_nat 0) mod Z.of_nat (length ring)) as E.
    { rewrite <-(Z.mul_1_l (Z.of_nat (length ring))) at 1. rewrite Z.mod_add by lia. f_equal. lia. }
    rewrite E, (Hf 0%nat x) by done. done.
Qed.

(** Clearing the flag of the first value's slot takes it. *)
Lemma clear_holds ring c d q :
  holds ring c (d :: q) ->
  let i := Z.to_nat (c mod Z.of_nat (length ring)) in
  ring !! i = Some (mkSlot true (Some d)) /\
  holds (<[i := mkSlot false (Some d)]> ring) (c + 1) q.
Proof.
  intros [Hc [Hl Hne] Hf He] i. pose proof (ring_len_pos _ Hne).
  pose proof (Hf 0%nat d eq_refl) as E. rewrite Z.add_0_r in E. split; [done|].
  cbn [length] in *. split; rewrite ?length_insert; [lia| | |].
  - split; [lia|by apply insert_ne_nil].
  - intros j d' Hj. pose proof (lookup_lt_Some _ _ _ Hj).
    replace (c + 1 + Z.of_nat j) with (c + Z.of_nat (S j)) by lia.
    rewrite list_lookup_insert_ne; [by apply Hf|]. unfold i.
    rewrite <-(Z.add_0_r c) at 1. apply (holds_slots_differ ring c 0); lia.
  - intros j Hj. replace (c + 1 + Z.of_nat j) with (c + Z.of_nat (S j)) by lia.
    destruct (decide (S j = length ring)) as [->|Hj'].
    + exists (Some d).
      replace ((c + Z.of_nat (length ring)) mod Z.of_nat (length ring)) with (c mod Z.of_nat (length ring))
        by (rewrite <-(Z.mul_1_l (Z.of_nat (length ring))) at 2; by rewrite Z.mod_add by lia).
      rewrite list_lookup_insert_eq; [done|].
      pose proof (Z.mod_pos_bound c (Z.of_nat (length ring)) ltac:(lia)). lia.
    + rewrite list_lookup_insert_ne; [apply He; lia|]. unfold i.
      rewrite <-(Z.add_0_r c) at 1. apply (holds_slots_differ ring c 0); lia.
Qed.

(** The flag at the read position tells whether a value waits. *)
Lemma head_valid ring c q :
  holds ring c q -> exists d,
  ring !! Z.to_nat (c mod Z.of_nat (length ring)) = Some (mkSlot (bool_decide (q <> [])) d).
Proof.
  intros H. destruct q as [|d q].
  - destruct H as [Hc [Hl Hne] Hf He]. pose proof (ring_len_pos _ Hne).
    destruct (He 0%nat) as [d0 E]; [cbn; lia|]. rewrite Z.add_0_r in E. by exists d0.
  - exists (Some d). by apply clear_holds in H as [-> _].
Qed.

(** A receive takes the first value, if there is one. *)
Lemma try_recv_holds ring c q :
  holds ring c q -> c + Z.of_nat (length q) < 2 ^ 64 ->
  match q with
  | [] => try_recv (mkRx c) ring = Some (mkRx c, ring, None)
  | d :: q' => exists ring', try_recv (mkRx c) ring = Some (mkRx (c + 1), ring', Some (c, d)) /\
      holds ring' (c + 1) q' /\ length ring' = length ring
  end.
Proof.
  intros H Hlt. pose proof H as [Hc [Hl Hne] _ _]. unfold try_recv. cbn [rx_recv_count].
  rewrite slot_index_val by done. destruct q as [|d q].
  - by apply head_valid in H as [d ->].
  - apply clear_holds in H as [-> H]. cbn [valid data negb].
    cbn [length] in Hlt. rewrite u64_small by lia.
    eexists. split; [reflexivity|]. by rewrite length_insert.
Qed.

End Spsc.
Arguments Slot : clear implicits.

(** ** The channel *)

Section Channel.
Context {Req Resp : Type}.

Record FastForwardCaller : Type := mkCaller {
  call_tx : FastForwardSpscTx;
  resp_rx : FastForwardSpscRx;
  send_count : Z;
  inflight : Z;
  max_inflight : Z;
}.

(** [PerCallerState], the server's ends of a caller's rings. *)
Record PerCallerState : Type := mkState {
  call_rx : FastForwardSpscRx;
  resp_tx : FastForwardSpscTx;
  recv_count : Z;
}.

(** A caller, the server's state for it and the two rings they share. *)
Record Lane : Type := mkLane {
  caller : FastForwardCaller;
  state : PerCallerState;
  req_ring : list (Slot Req);
  resp_ring : list (Slot (Response Resp));
}.

(** The server's [available] and [scan_idx], with the lanes it scans. *)
Record Channel : Type := mkChannel {
  lanes : list Lane;
  available : list nat;
  scan_idx : nat;
}.

(** [FastForwardRecvRef], without its [consumed] flag: a handle is consumed by the
    operation that ends it. *)
Record FastForwardRecvRef : Type := mkRef { ref_caller_id : nat; ref_slot_idx : nat }.

Implicit Types (l : Lane) (ch : Channel).

(** The operations of one lane. *)
Definition call l (req : Req) : option (Lane * result Z (CallError Req)) :=
  let c := caller l in
  if max_inflight c <=? inflight c then Some (l, Err (InflightExceeded req))
  else match try_send (call_tx c) (req_ring l) req with
       | None => None
       | Some (tx, ring, Ok _) =>
           Some (mkLane (mkCaller tx (resp_rx c) (u64 (send_count c + 1)) (u64 (inflight c + 1)) (max_inflight c))
                   (state l) ring (resp_ring l), Ok (send_count c))
       | Some (tx, ring, Err req) => Some (l, Err (Full req))
       end.

Definition sync l : Lane := l.

Definition try_recv_response l : option (Lane * option (Z * Resp)) :=
  let c := caller l in
  match try_recv (resp_rx c) (resp_ring l) with
  | None => None
  | Some (rx, ring, None) => Some (l, None)
  | Some (rx, ring, Some (_, resp)) =>
      Some (mkLane (mkCaller (call_tx c) rx (send_count c) (u64 (inflight c - 1)) (max_inflight c))
              (state l) (req_ring l) ring, Some (Onesided.token resp, Onesided.resp_data resp))
  end.

Definition pending_count l : Z := inflight (caller l).

(** The slot the server looks at: the index and the slot. *)
Definition head_slot l : option (nat * Slot Req) :=
  match slot_index (req_ring l) (recv_count (state l)) with
  | None => None
  | Some slot_idx => (fun s => (slot_idx, s)) <$> req_ring l !! slot_idx
  end.

(** The reply of one lane; [let _ = state.resp_tx.try_send(response)]. *)
Definition lane_reply l (token : Z) (resp : Resp) : option Lane :=
  match try_send (resp_tx (state l)) (resp_ring l) (mkResponse token resp) with
  | None => None
  | Some (tx, ring, _) =>
      Some (mkLane (caller l) (mkState (call_rx (state l)) tx (recv_count (state l))) (req_ring l) ring)
  end.

(** The slot is freed and [recv_count] moves on. *)
Definition lane_consume l (slot_idx : nat) : option Lane :=
  match req_ring l !! slot_idx with
  | None => None
  | Some slot =>
      Some (mkLane (caller l)
              (mkState (call_rx (state l)) (resp_tx (state l)) (u64 (recv_count (state l) + 1)))
              (<[slot_idx := set_valid false slot]> (req_ring l)) (resp_ring l))
  end.

Definition with_lane ch (i : nat) l : Channel := mkChannel (<[i := l]> (lanes ch)) (available ch) (scan_idx ch).

(** The loop of [FastForwardServer::poll], [n] lanes from [scan_idx] on. *)
Fixpoint poll_loop (n : nat) ch : option Channel :=
  match n with
  | O => Some ch
  | S n =>
      let caller_id := scan_idx ch in
      let next := if decide (length (lanes ch) <= S caller_id)%nat then O else S caller_id in
      match lanes ch !! caller_id ≫= head_slot with
      | None => None
      | Some (_, slot) =>
          poll_loop n (mkChannel (lanes ch)
            (if valid slot then available ch ++ [caller_id] else available ch) next)
      end
  end.

Definition poll ch : option (Channel * Z) :=
  ch' ← poll_loop (length (lanes ch)) (mkChannel (lanes ch) [] (scan_idx ch));
  Some (ch', u32 (Z.of_nat (length (available ch')))).

(** [Vec::swap_remove(0)]. *)
Definition swap_remove0 {A} (v : list A) : option (A * list A) :=
  match v with
  | [] => None
  | x :: v' => Some (x, match rev v' with [] => [] | y :: _ => y :: take (length v' - 1) v' end)
  end.

Definition server_try_recv ch : option (Channel * option FastForwardRecvRef) :=
  match swap_remove0 (available ch) with
  | None => Some (ch, None)
  | Some (caller_id, rest) =>
      let ch := mkChannel (lanes ch) rest (scan_idx ch) in
      match lanes ch !! caller_id ≫= head_slot with
      | None => None
      | Some (slot_idx, slot) =>
          if valid slot then Some (ch, Some (mkRef caller_id slot_idx)) else Some (ch, None)
      end
  end.

(** [FastForwardServer::reply]. *)
Definition server_reply ch (t : ReplyToken) (resp : Resp) : option Channel :=
  l ← lanes ch !! Z.to_nat (tk_caller_id t);
  l' ← lane_reply l (slot_token t) resp;
  Some (with_lane ch (Z.to_nat (tk_caller_id t)) l').

(** The methods of the handle. *)
Definition ref_data ch (r : FastForwardRecvRef) : option Req :=
  l ← lanes ch !! ref_caller_id r;
  slot ← req_ring l !! ref_slot_idx r;
  data slot.

Definition ref_reply ch (r : FastForwardRecvRef) (resp : Resp) : option Channel :=
  l ← lanes ch !! ref_caller_id r;
  l' ← lane_consume l (ref_slot_idx r);
  l'' ← lane_reply l' (recv_count (state l)) resp;
  Some (with_lane ch (ref_caller_id r) l'').

Definition ref_into_token ch (r : FastForwardRecvRef) : option (Channel * ReplyToken) :=
  l ← lanes ch !! ref_caller_id r;
  l' ← lane_consume l (ref_slot_idx r);
  Some (with_lane ch (ref_caller_id r) l', mkToken (Z.of_nat (ref_caller_id r)) (recv_count (state l))).

(** [FastForwardMpsc::create]. *)
Definition create (max_callers ring_depth : nat) (max_inflight : Z) : Channel :=
  let '(call_tx, call_rx, creq) := fastforward_spsc ring_depth in
  let '(resp_tx, resp_rx, cresp) := fastforward_spsc ring_depth in
  mkChannel (replicate max_callers
    (mkLane (mkCaller call_tx resp_rx 0 0 max_inflight) (mkState call_rx resp_tx 0) creq cresp)) [] 0.

(** The caller's operations on the [i]-th lane of a channel. *)
Definition on_lane {R} (i : nat) (f : Lane -> option (Lane * R)) ch : option (Channel * R) :=
  l ← lanes ch !! i;
  '(l', r) ← f l;
  Some (with_lane ch i l', r).

(** ** Programs of the callers and the server

    The handle of [try_recv] borrows the server, so it is part of the state and the
    server does nothing else while it is held. *)
Definition System : Type := Channel * option FastForwardRecvRef.

Inductive op : Type :=
| OCall (i : nat) (req : Req)
| ORecv (i : nat)
| OPoll
| OTake
| OReply (resp : Resp)
| ODefer
| OReplyToken (t : ReplyToken) (resp : Resp).

Inductive out : Type :=
| RCall (r : result Z (CallError Req))
| RRecv (r : option (Z * Resp))
| RPoll (n : Z)
| RTake (r : option (nat * Req))
| RDone
| RToken (t : ReplyToken).

Definition exec (s : System) (o : op) : option (System * out) :=
  let '(ch, held) := s in
  match o, held with
  | OCall i req, _ => '(ch', r) ← on_lane i (fun l => call l req) ch; Some ((ch', held), RCall r)
  | ORecv i, _ => '(ch', r) ← on_lane i try_recv_response ch; Some ((ch', held), RRecv r)
  | OPoll, None => '(ch', n) ← poll ch; Some ((ch', None), RPoll n)
  | OTake, None =>
      match server_try_recv ch with
      | None => None
      | Some (ch', None) => Some ((ch', None), RTake None)
      | Some (ch', Some r) =>
          d ← ref_data ch' r; Some ((ch', Some r), RTake (Some (ref_caller_id r, d)))
      end
  | OReply resp, Some r => ch' ← ref_reply ch r resp; Some ((ch', None), RDone)
  | ODefer, Some r => '(ch', t) ← ref_into_token ch r; Some ((ch', None), RToken t)
  | OReplyToken t resp, None => ch' ← server_reply ch t resp; Some ((ch', None), RDone)
  | _, _ => None
  end.

(** ** What a channel promises

    Per caller: the responses that wait, the tokens of the requests taken and not
    answered, the requests that wait, and the number of responses received. *)
Record AbsLane : Type := mkAbs {
  a_answered : Z;
  a_resps : list (Response Resp);
  a_outstanding : list Z;
  a_reqs : list Req;
}.
Implicit Types (a : AbsLane).

Definition a_taken a : Z := a_answered a + Z.of_nat (length (a_resps a)) + Z.of_nat (length (a_outstanding a)).
Definition a_pending a : Z :=
  Z.of_nat (length (a_resps a)) + Z.of_nat (length (a_outstanding a)) + Z.of_nat (length (a_reqs a)).
Definition a_next a : Z := a_taken a + Z.of_nat (length (a_reqs a)).

Definition spec_call (m : Z) a (req : Req) : AbsLane * result Z (CallError Req) :=
  if m <=? a_pending a then (a, Err (InflightExceeded req))
  else (mkAbs (a_answered a) (a_resps a) (a_outstanding a) (a_reqs a ++ [req]), Ok (a_next a)).

Definition spec_recv a : AbsLane * option (Z * Resp) :=
  match a_resps a with
  | [] => (a, None)
  | r :: rs => (mkAbs (a_answered a + 1) rs (a_outstanding a) (a_reqs a),
                Some (Onesided.token r, Onesided.resp_data r))
  end.

(** The specification's state: the lanes, those the last scan found and whose
    requests were not taken since, and the lane of the handle that is held. *)
Record Spec : Type := mkSpec {
  s_lanes : list AbsLane;
  s_avail : list nat;
  s_held : option nat;
}.

Definition waiting (als : list AbsLane) (i : nat) : Prop := exists a, als !! i = Some a /\ a_reqs a <> [].

(** [m] is the bound on the requests in flight of a caller. *)
Inductive spec_step (m : Z) : Spec -> op -> out -> Spec -> Prop :=
| spec_step_call als av h i a req :
    als !! i = Some a ->
    spec_step m (mkSpec als av h) (OCall i req) (RCall (spec_call m a req).2)
      (mkSpec (<[i := (spec_call m a req).1]> als) av h)
| spec_step_recv als av h i a :
    als !! i = Some a ->
    spec_step m (mkSpec als av h) (ORecv i) (RRecv (spec_recv a).2)
      (mkSpec (<[i := (spec_recv a).1]> als) av h)
| spec_step_poll als av av' :
    NoDup av' -> (forall i, i ∈ av' <-> waiting als i) ->
    spec_step m (mkSpec als av None) OPoll (RPoll (u32 (Z.of_nat (length av')))) (mkSpec als av' None)
| spec_step_take_none als :
    spec_step m (mkSpec als [] None) OTake (RTake None) (mkSpec als [] None)
| spec_step_take als av i av' k rs os q qs :
    av ≡ₚ i :: av' -> als !! i = Some (mkAbs k rs os (q :: qs)) ->
    spec_step m (mkSpec als av None) OTake (RTake (Some (i, q))) (mkSpec als av' (Some i))
| spec_step_reply als av i k rs os q qs resp :
    let a := mkAbs k rs os (q :: qs) in
    als !! i = Some a ->
    spec_step m (mkSpec als av (Some i)) (OReply resp) RDone
      (mkSpec (<[i := mkAbs k (rs ++ [mkResponse (a_taken a) resp]) os qs]> als) av None)
| spec_step_defer als av i k rs os q qs :
    let a := mkAbs k rs os (q :: qs) in
    als !! i = Some a ->
    spec_step m (mkSpec als av (Some i)) ODefer (RToken (mkToken (Z.of_nat i) (a_taken a)))
      (mkSpec (<[i := mkAbs k rs (os ++ [a_taken a]) qs]> als) av None)
| spec_step_reply_token als av i k rs os1 t os2 qs resp :
    als !! i = Some (mkAbs k rs (os1 ++ t :: os2) qs) ->
    spec_step m (mkSpec als av None) (OReplyToken (mkToken (Z.of_nat i) t) resp) RDone
      (mkSpec (<[i := mkAbs k (rs ++ [mkResponse t resp]) (os1 ++ os2) qs]> als) av None).

(** What the program has to ensure: callers exist, tokens do not run out, the handle
    is used as the borrow checker demands, and a token is answered once. *)
Definition op_ok (sp : Spec) (o : op) : Prop :=
  match o with
  | OCall i _ => exists a, s_lanes sp !! i = Some a /\ a_next a + 1 < 2 ^ 64
  | ORecv i => exists a, s_lanes sp !! i = Some a
  | OPoll | OTake => s_held sp = None
  | OReply _ | ODefer => s_held sp <> None
  | OReplyToken t _ => s_held sp = None /\ exists i a, s_lanes sp !! i = Some a /\
      t = mkToken (Z.of_nat i) (slot_token t) /\ slot_token t ∈ a_outstanding a
  end.

Definition spec_init (max_callers : nat) : Spec :=
  mkSpec (replicate max_callers (mkAbs 0 [] [] [])) [] None.

(** ** The lanes implement it *)

Record lane_rel (N : nat) (m : Z) l a : Prop := mkLaneRel {
  lr_caller : caller l = mkCaller (mkTx (a_next a)) (mkRx (a_answered a)) (a_next a) (a_pending a) m;
  lr_resp_tx : resp_tx (state l) = mkTx (a_answered a + Z.of_nat (length (a_resps a)));
  lr_recv_count : recv_count (state l) = a_taken a;
  lr_req : holds (req_ring l) (a_taken a) (a_reqs a);
  lr_resp : holds (resp_ring l) (a_answered a) (a_resps a);
  lr_size : length (req_ring l) = N /\ length (resp_ring l) = N;
  lr_bound : a_pending a <= m <= Z.of_nat N;
  lr_next : 0 <= a_answered a /\ a_next a < 2 ^ 64;
}.

Ltac abs_lia := unfold a_next, a_taken, a_pending in *; cbn [a_answered a_resps a_outstanding a_reqs] in *;
  rewrite ?length_app in *; cbn [length] in *; lia.

Ltac lane_split :=
  split; cbn [caller state req_ring resp_ring call_rx resp_tx recv_count a_answered a_resps a_outstanding a_reqs];
  try done; try abs_lia.
Ltac count_eq := f_equal; abs_lia || (f_equal; abs_lia).

Lemma lane_rel_new N m :
  (0 < N)%nat -> 0 <= m <= Z.of_nat N ->
  forall l, l ∈ lanes (create 1 N m) -> lane_rel N m l (mkAbs 0 [] [] []).
Proof.
  intros HN Hm l Hl. cbn in Hl. apply list_elem_of_singleton in Hl as ->.
  split; try done; cbn; rewrite ?length_replicate; try done; by apply holds_new.
Qed.

Lemma call_rel N m l a req :
  lane_rel N m l a -> a_next a + 1 < 2 ^ 64 ->
  exists l', call l req = Some (l', (spec_call m a req).2) /\ lane_rel N m l' (spec_call m a req).1.
Proof.
  intros H Hlt. pose proof H as [Hc Ht Hr Hq Hp [Hs1 Hs2] Hb Hn]. unfold call, spec_call.
  rewrite Hc. cbn [max_inflight inflight call_tx resp_rx send_count]. case_match eqn:Em; [by exists l|].
  pose proof (try_send_holds _ _ _ req Hq) as Hsend. cbn zeta in Hsend. fold (a_next a) in Hsend.
  rewrite decide_True in Hsend by abs_lia.
  destruct Hsend as (ring' & -> & Hq' & Hlen); [done|].
  eexists. split; [reflexivity|]. cbn [fst snd].
  rewrite !u64_small by abs_lia.
  lane_split. count_eq.
Qed.

Lemma recv_rel N m l a :
  lane_rel N m l a ->
  exists l', try_recv_response l = Some (l', (spec_recv a).2) /\ lane_rel N m l' (spec_recv a).1.
Proof.
  intros H. pose proof H as [Hc Ht Hr Hq Hp [Hs1 Hs2] Hb Hn]. unfold try_recv_response, spec_recv.
  rewrite Hc. cbn [max_inflight inflight call_tx resp_rx send_count].
  pose proof (try_recv_holds _ _ _ Hp ltac:(abs_lia)) as Hrecv.
  destruct a as [k rs os qs]. cbn [a_resps a_answered a_outstanding a_reqs] in *.
  destruct rs as [|r rs]; [rewrite Hrecv; by exists l|].
  destruct Hrecv as (ring' & -> & Hp' & Hlen). eexists. split; [reflexivity|]. cbn [fst snd].
  rewrite u64_small by abs_lia.
  lane_split.
  - count_eq.
  - rewrite Ht. f_equal. abs_lia.
  - by replace (a_taken _) with (a_taken (mkAbs k (r :: rs) os qs)) by abs_lia.
Qed.

(** The server's half of a lane. *)
Lemma head_slot_rel N m l a :
  lane_rel N m l a -> exists d, head_slot l =
    Some (Z.to_nat (a_taken a mod Z.of_nat N), mkSlot (bool_decide (a_reqs a <> [])) d).
Proof.
  intros [Hc Ht Hr Hq Hp [Hs1 Hs2] Hb Hn]. unfold head_slot. rewrite Hr.
  pose proof (h_room _ _ _ Hq) as [_ Hne]. rewrite slot_index_val by done.
  destruct (head_valid _ _ _ Hq) as [d ->]. exists d. by rewrite Hs1.
Qed.

Lemma consume_rel N m l k rs os q qs :
  let a := mkAbs k rs os (q :: qs) in
  lane_rel N m l a ->
  let i := Z.to_nat (a_taken a mod Z.of_nat N) in
  (req_ring l !! i ≫= data) = Some q /\
  exists l', lane_consume l i = Some l' /\ lane_rel N m l' (mkAbs k rs (os ++ [a_taken a]) qs).
Proof.
  intros a [Hc Ht Hr Hq Hp [Hs1 Hs2] Hb Hn] i.
  destruct (clear_holds _ _ _ _ Hq) as [Hi Hq']. rewrite Hs1 in Hi, Hq'. fold i in Hi, Hq'.
  unfold lane_consume. rewrite Hi. split; [done|]. eexists. split; [reflexivity|]. subst a.
  rewrite Hr, u64_small by abs_lia.
  lane_split; rewrite ?length_insert; try done.
  - rewrite Hc. count_eq.
  - by replace (a_taken (mkAbs k rs (os ++ _) qs)) with (a_taken (mkAbs k rs os (q :: qs)) + 1) by abs_lia.
Qed.

Lemma reply_rel N m l k rs os1 t os2 qs resp :
  lane_rel N m l (mkAbs k rs (os1 ++ t :: os2) qs) ->
  exists l', lane_reply l t resp = Some l' /\
    lane_rel N m l' (mkAbs k (rs ++ [mkResponse t resp]) (os1 ++ os2) qs).
Proof.
  intros [Hc Ht Hr Hq Hp [Hs1 Hs2] Hb Hn]. unfold lane_reply. rewrite Ht.
  pose proof (try_send_holds _ _ _ (mkResponse t resp) Hp ltac:(abs_lia)) as Hsend. cbn zeta in Hsend.
  cbn [a_answered a_resps a_outstanding a_reqs] in Hsend.
  rewrite decide_True in Hsend by abs_lia.
  destruct Hsend as (ring' & E & Hp' & Hlen). cbn [a_answered a_resps]. rewrite E.
  eexists. split; [reflexivity|].
  lane_split.
  - rewrite Hc. count_eq.
  - f_equal. abs_lia.
  - by replace (a_taken (mkAbs k (rs ++ _) (os1 ++ os2) qs)) with (a_taken (mkAbs k rs (os1 ++ t :: os2) qs)) by abs_lia.
Qed.

(** ** The channel implements it *)

Definition held_rel (N : nat) (sp : Spec) (held : option FastForwardRecvRef) : Prop :=
  match held, s_held sp with
  | None, None => True
  | Some r, Some i =>
      exists a, s_lanes sp !! i = Some a /\ a_reqs a <> [] /\ i ∉ s_avail sp /\
        r = mkRef i (Z.to_nat (a_taken a mod Z.of_nat N))
  | _, _ => False
  end.

Record sys_rel (N : nat) (m : Z) (s : System) (sp : Spec) : Prop := mkSysRel {
  sr_lanes : Forall2 (lane_rel N m) (lanes s.1) (s_lanes sp);
  sr_avail : available s.1 = s_avail sp /\ NoDup (s_avail sp);
  sr_waiting : forall i, i ∈ s_avail sp -> waiting (s_lanes sp) i;
  sr_held : held_rel N sp s.2;
  sr_scan : (scan_idx s.1 < length (lanes s.1))%nat \/ lanes s.1 = [];
}.

Lemma lane_at N m s sp i a :
  sys_rel N m s sp -> s_lanes sp !! i = Some a ->
  exists l, lanes s.1 !! i = Some l /\ lane_rel N m l a.
Proof. intros H Ha. exact (Forall2_lookup_r _ _ _ _ _ (sr_lanes _ _ _ _ H) Ha). Qed.

(** A step of one lane that leaves its first request in place. *)
Lemma sys_rel_lane N m ch held sp i a l' a' :
  sys_rel N m (ch, held) sp -> s_lanes sp !! i = Some a -> lane_rel N m l' a' ->
  (a_reqs a <> [] -> a_reqs a' <> []) -> a_taken a' = a_taken a ->
  sys_rel N m (with_lane ch i l', held) (mkSpec (<[i := a']> (s_lanes sp)) (s_avail sp) (s_held sp)).
Proof.
  intros [Hl Ha Hw Hh Hs] Hi Hr Hreq Htk. split; cbn [fst snd with_lane lanes available scan_idx s_lanes s_avail s_held] in *.
  - by apply Forall2_insert.
  - done.
  - intros j (b & Hb & Hne)%Hw. destruct (decide (j = i)) as [->|].
    + exists a'. rewrite list_lookup_insert_eq by (by eapply lookup_lt_Some). split; [done|].
      apply Hreq. congruence.
    + exists b. by rewrite list_lookup_insert_ne.
  - unfold held_rel in *. destruct held as [r|], (s_held sp) as [j|]; try done.
    cbn [s_lanes s_avail s_held] in *.
    destruct Hh as (b & Hb & Hne & Hn & ->). destruct (decide (j = i)) as [->|].
    + exists a'. rewrite list_lookup_insert_eq by (by eapply lookup_lt_Some).
      replace b with a in * by congruence. rewrite Htk. auto.
    + exists b. by rewrite list_lookup_insert_ne.
  - rewrite length_insert. destruct Hs as [Hs|Hs]; [by left|right]. by rewrite Hs.
Qed.

(** A step of the server that ends with the handle, or without one. *)
Lemma sys_rel_server N m ch held sp i a l' a' :
  sys_rel N m (ch, held) sp -> s_lanes sp !! i = Some a -> lane_rel N m l' a' ->
  (i ∈ s_avail sp -> a_reqs a' <> []) ->
  sys_rel N m (with_lane ch i l', None) (mkSpec (<[i := a']> (s_lanes sp)) (s_avail sp) None).
Proof.
  intros [Hl Ha Hw Hh Hs] Hi Hr Hreq. split; cbn [fst snd with_lane lanes available scan_idx s_lanes s_avail s_held] in *.
  - by apply Forall2_insert.
  - done.
  - intros j Hj. pose proof (Hw j Hj) as (b & Hb & Hne). destruct (decide (j = i)) as [->|].
    + exists a'. rewrite list_lookup_insert_eq by (by eapply lookup_lt_Some). auto.
    + exists b. by rewrite list_lookup_insert_ne.
  - done.
  - rewrite length_insert. destruct Hs as [Hs|Hs]; [by left|right]. by rewrite Hs.
Qed.

(** The scan: from [scan_idx] on, [n] lanes, those with a request. *)
Lemma poll_loop_scan N m als n : forall ch,
  Forall2 (lane_rel N m) (lanes ch) als -> (scan_idx ch < length (lanes ch))%nat ->
  (n <= length (lanes ch))%nat ->
  exists found idx, poll_loop n ch = Some (mkChannel (lanes ch) (available ch ++ found) idx) /\
    (idx < length (lanes ch))%nat /\ NoDup found /\
    forall i, i ∈ found <-> waiting als i /\ exists j, (j < n)%nat /\
      (scan_idx ch + j = i \/ scan_idx ch + j = i + length (lanes ch))%nat.
Proof.
  induction n as [|n IH]; intros ch Hl Hs Hn.
  { exists [], (scan_idx ch). rewrite app_nil_r. split; [by destruct ch|]. split; [done|].
    split; [constructor|]. intros i. split; [by intros ?%not_elem_of_nil|]. intros (_ & j & Hj & _). lia. }
  cbn [poll_loop]. destruct (lookup_lt_is_Some_2 (lanes ch) (scan_idx ch) Hs) as [l El].
  destruct (Forall2_lookup_l _ _ _ _ _ Hl El) as (a & Ea & Hrel).
  destruct (head_slot_rel _ _ _ _ Hrel) as [d Ed]. rewrite El. cbn [mbind option_bind]. rewrite Ed. cbn [valid].
  set (next := if decide _ then O else S (scan_idx ch)).
  set (here := if bool_decide (a_reqs a <> []) then [scan_idx ch] else []).
  destruct (IH (mkChannel (lanes ch) (available ch ++ here) next)) as (found & idx & E & Hidx & Hnd & Hin);
    cbn [lanes scan_idx available] in *; [done|subst next; case_decide; lia|lia|].
  exists (here ++ found), idx. split.
  { rewrite app_assoc, <-E. subst here. case_bool_decide; [done|]. by rewrite app_nil_r. }
  split; [done|].
  assert (forall i, i ∈ here <-> waiting als i /\ i = scan_idx ch) as Hhere.
  { intros i. subst here. case_bool_decide as Hb.
    - rewrite list_elem_of_singleton. split; [intros ->|tauto]. split; [by exists a|done].
    - split; [by intros ?%not_elem_of_nil|]. intros ((b & Hb' & Hne) & ->). congruence. }
  split.
  - apply NoDup_app. split; [|split; [|done]].
    + subst here. case_bool_decide; [apply NoDup_singleton|constructor].
    + intros i [_ ->]%Hhere (_ & j & Hj & Hx)%Hin. subst next. case_decide; lia.
  - intros i. rewrite elem_of_app, Hhere, Hin. split.
    + intros [(Hw & ->)|(Hw & j & Hj & Hx)].
      * split; [done|]. exists O. split; lia.
      * split; [done|]. exists (S j). split; [lia|].
        pose proof Hw as (b & Hb & _). apply lookup_lt_Some in Hb. rewrite <-(Forall2_length _ _ _ Hl) in Hb.
        subst next. case_decide; lia.
    + intros (Hw & j & Hj & Hx). destruct j as [|j].
      * left. split; [done|]. pose proof Hw as (b & Hb & _). apply lookup_lt_Some in Hb. 
        rewrite <-(Forall2_length _ _ _ Hl) in Hb. lia.
      * right. split; [done|]. exists j. split; [lia|].
        pose proof Hw as (b & Hb & _). apply lookup_lt_Some in Hb. rewrite <-(Forall2_length _ _ _ Hl) in Hb.
        subst next. case_decide; lia.
Qed.

Lemma swap_remove0_perm {A} (v : list A) :
  match swap_remove0 v with None => v = [] | Some (x, v') => v ≡ₚ x :: v' end.
Proof.
  destruct v as [|x v]; [done|]. cbn. destruct v as [|y v _] using rev_ind; [done|].
  rewrite rev_app_distr. cbn [rev app]. rewrite length_app. cbn [length].
  replace (length v + 1 - 1)%nat with (length v) by lia. rewrite take_app_length.
  constructor. apply Permutation_app_comm.
Qed.

(** The caller's operations. *)
Lemma call_sys N m ch held sp i a req :
  sys_rel N m (ch, held) sp -> s_lanes sp !! i = Some a -> a_next a + 1 < 2 ^ 64 ->
  exists ch', on_lane i (fun l => call l req) ch = Some (ch', (spec_call m a req).2) /\
    sys_rel N m (ch', held) (mkSpec (<[i := (spec_call m a req).1]> (s_lanes sp)) (s_avail sp) (s_held sp)).
Proof.
  intros H Ha Hlt. destruct (lane_at _ _ _ _ _ _ H Ha) as (l & El & Hl). cbn [fst] in El.
  destruct (call_rel _ _ _ _ req Hl Hlt) as (l' & Ec & Hl').
  eexists. split; [unfold on_lane; rewrite El; cbn; by rewrite Ec|].
  apply (sys_rel_lane _ _ _ _ _ _ _ _ _ H Ha Hl'); unfold spec_call; case_match; try done.
  cbn. intros _. by destruct (a_reqs a).
Qed.

Lemma recv_sys N m ch held sp i a :
  sys_rel N m (ch, held) sp -> s_lanes sp !! i = Some a ->
  exists ch', on_lane i try_recv_response ch = Some (ch', (spec_recv a).2) /\
    sys_rel N m (ch', held) (mkSpec (<[i := (spec_recv a).1]> (s_lanes sp)) (s_avail sp) (s_held sp)).
Proof.
  intros H Ha. destruct (lane_at _ _ _ _ _ _ H Ha) as (l & El & Hl). cbn [fst] in El.
  destruct (recv_rel _ _ _ _ Hl) as (l' & Ec & Hl').
  eexists. split; [unfold on_lane; rewrite El; cbn; by rewrite Ec|].
  apply (sys_rel_lane _ _ _ _ _ _ _ _ _ H Ha Hl'); unfold spec_recv; [by case_match|].
  unfold a_taken. destruct (a_resps a) eqn:E; cbn; rewrite ?E; cbn; lia.
Qed.

(** The operations, one by one. *)
Definition simulated (N : nat) (m : Z) (s : System) (sp : Spec) (o : op) : Prop :=
  exists s' r sp', exec s o = Some (s', r) /\ spec_step m sp o r sp' /\ sys_rel N m s' sp'.

Lemma sim_caller N m s sp o :
  sys_rel N m s sp -> op_ok sp o ->
  match o with OCall _ _ | ORecv _ => True | _ => False end -> simulated N m s sp o.
Proof.
  destruct s as [ch held], sp as [als av h]. intros H Hok Ho.
  destruct o as [i req|i| | | | |]; try done; cbn [op_ok s_lanes] in Hok.
  - destruct Hok as (a & Ha & Hlt). destruct (call_sys _ _ _ _ _ _ _ req H Ha Hlt) as (ch' & E & H').
    eexists _, _, _. split; [cbn; by rewrite E|]. split; [by apply spec_step_call|done].
  - destruct Hok as (a & Ha). destruct (recv_sys _ _ _ _ _ _ _ H Ha) as (ch' & E & H').
    eexists _, _, _. split; [cbn; by rewrite E|]. split; [by apply spec_step_recv|done].
Qed.

Lemma sim_poll N m ch als av :
  sys_rel N m (ch, None) (mkSpec als av None) -> simulated N m (ch, None) (mkSpec als av None) OPoll.
Proof.
  intros [Hl [Ha Hnd] Hw Hh Hs]. cbn [fst snd s_lanes s_avail] in *. unfold simulated. cbn [exec]. unfold poll.
  pose proof (Forall2_length _ _ _ Hl) as Hlen.
  destruct Hs as [Hs|Hs].
  - destruct (poll_loop_scan N m als (length (lanes ch)) (mkChannel (lanes ch) [] (scan_idx ch)))
      as (found & idx & E & Hidx & Hf & Hin); [done..|].
    cbn [lanes scan_idx available app] in *. rewrite E. eexists _, _, _. split; [reflexivity|]. cbn [available].
    assert (forall i, i ∈ found <-> waiting als i) as Hin'.
    { intros i. rewrite Hin. split; [tauto|]. intros Hwi. split; [done|].
      pose proof Hwi as (b & Hb & _). apply lookup_lt_Some in Hb. rewrite <-Hlen in Hb.
      destruct (decide (scan_idx ch <= i)%nat).
      - exists (i - scan_idx ch)%nat. lia.
      - exists (i + length (lanes ch) - scan_idx ch)%nat. lia. }
    split; [by apply spec_step_poll|]. split; cbn; [done|done|by intros i ?%Hin'|done|by left].
  - rewrite Hs. cbn. eexists _, _, _. split; [reflexivity|]. rewrite Hs in Hl. apply Forall2_nil_inv_l in Hl as ->.
    split.
    + apply (spec_step_poll m [] av []); [constructor|]. intros i. split; [by intros ?%not_elem_of_nil|].
      by intros (b & Hb & _).
    + split; cbn; [constructor|split; [done|constructor]|by intros i ?%not_elem_of_nil|done|by right].
Qed.

Lemma sim_take N m ch als av :
  sys_rel N m (ch, None) (mkSpec als av None) -> simulated N m (ch, None) (mkSpec als av None) OTake.
Proof.
  intros H. pose proof H as [Hl [Ha Hnd] Hw Hh Hs]. cbn [fst snd s_lanes s_avail] in *.
  unfold simulated. cbn [exec]. unfold server_try_recv. rewrite Ha.
  pose proof (swap_remove0_perm av) as Hp. destruct (swap_remove0 av) as [[i rest]|].
  2:{ eexists _, _, _. split; [reflexivity|]. split; [rewrite Hp; apply spec_step_take_none|]. by rewrite Hp in H. }
  destruct (Hw i) as (a & Hi & Hne); [rewrite Hp; set_solver|].
  destruct (lane_at _ _ _ _ _ _ H Hi) as (l & El & Hrel). cbn [fst lanes] in *.
  destruct (head_slot_rel _ _ _ _ Hrel) as [d Ed]. rewrite El. cbn [mbind option_bind]. rewrite Ed.
  rewrite bool_decide_true by done. cbn [valid].
  destruct a as [k rs os [|q qs]]; [done|].
  destruct (consume_rel _ _ _ _ _ _ _ _ Hrel) as [Hd _].
  unfold ref_data. cbn [lanes ref_caller_id ref_slot_idx]. rewrite El. cbn [mbind option_bind].
  destruct (req_ring l !! _) as [slot|]; [|done]. cbn [mbind option_bind] in Hd |- *. rewrite Hd.
  eexists _, _, _. split; [reflexivity|]. cbn [ref_caller_id].
  split; [by apply (spec_step_take _ _ _ i rest k rs os q qs)|].
  rewrite Hp in Hnd. apply NoDup_cons in Hnd as [Hni Hnd].
  split; cbn [fst snd s_lanes s_avail s_held lanes available scan_idx]; try done.
  - intros j Hj. apply Hw. rewrite Hp. set_solver.
  - exists (mkAbs k rs os (q :: qs)). done.
Qed.

(** The handle's operations end it; its lane may not be in [available]. *)
Lemma sim_handle N m s sp o :
  sys_rel N m s sp -> op_ok sp o ->
  match o with OReply _ | ODefer => True | _ => False end -> simulated N m s sp o.
Proof.
  destruct s as [ch held], sp as [als av h]. intros H Hok Ho. pose proof (sr_held _ _ _ _ H) as Hh.
  unfold held_rel in Hh. cbn [snd s_held s_lanes s_avail] in Hh.
  destruct o as [| | | |resp| |]; try done; cbn [op_ok s_held] in Hok; destruct h as [i|]; try done;
    destruct held as [r|]; try done; destruct Hh as (a & Ha & Hne & Hni & ->);
    destruct a as [k rs os [|q qs]]; try done; clear Hne;
    destruct (lane_at _ _ _ _ _ _ H Ha) as (l & El & Hl); cbn [fst] in El;
    destruct (consume_rel _ _ _ _ _ _ _ _ Hl) as [_ (l1 & E1 & Hl1)];
    unfold simulated; cbn [exec]; unfold ref_reply, ref_into_token; cbn [ref_caller_id ref_slot_idx];
    rewrite El; cbn [mbind option_bind]; rewrite E1; cbn [mbind option_bind].
  - rewrite (lr_recv_count _ _ _ _ Hl).
    destruct (reply_rel _ _ _ _ _ _ _ [] _ resp Hl1) as (l2 & E2 & Hl2). rewrite E2. cbn [mbind option_bind].
    eexists _, _, _. split; [reflexivity|]. rewrite app_nil_r in Hl2.
    split; [by eapply spec_step_reply|]. by apply (sys_rel_server _ _ _ _ _ _ _ _ _ H Ha Hl2).
  - rewrite (lr_recv_count _ _ _ _ Hl). eexists _, _, _. split; [reflexivity|].
    split; [by eapply spec_step_defer|]. by apply (sys_rel_server _ _ _ _ _ _ _ _ _ H Ha Hl1).
Qed.

Lemma sim_reply_token N m s sp t resp :
  sys_rel N m s sp -> op_ok sp (OReplyToken t resp) -> simulated N m s sp (OReplyToken t resp).
Proof.
  destruct s as [ch held], sp as [als av h]. intros H (Hh & i & a & Ha & Ht & Hin).
  pose proof (sr_held _ _ _ _ H) as Hhr. cbn in Hh, Ha. subst h. unfold held_rel in Hhr. cbn in Hhr.
  destruct held; [done|]. destruct t as [ti tt]. cbn in Ht, Hin. injection Ht as ->.
  destruct a as [k rs os qs]. cbn in Hin. apply list_elem_of_split in Hin as (os1 & os2 & ->).
  destruct (lane_at _ _ _ _ _ _ H Ha) as (l & El & Hl). cbn [fst] in El.
  destruct (reply_rel _ _ _ _ _ _ _ _ _ resp Hl) as (l2 & E2 & Hl2).
  unfold simulated. cbn [exec]. unfold server_reply. cbn [Onesided.tk_caller_id Onesided.slot_token].
  rewrite Nat2Z.id, El. cbn [mbind option_bind]. rewrite E2. cbn [mbind option_bind].
  eexists _, _, _. split; [reflexivity|]. split; [by apply spec_step_reply_token|].
  apply (sys_rel_server _ _ _ _ _ _ _ _ _ H Ha Hl2). cbn. intros Hi.
  destruct (sr_waiting _ _ _ _ H i Hi) as (b & Hb & Hne). cbn in Hb. rewrite Ha in Hb. by injection Hb as <-.
Qed.

Lemma exec_simulated N m s sp o : sys_rel N m s sp -> op_ok sp o -> simulated N m s sp o.
Proof.
  intros H Hok. destruct o; [by apply sim_caller|by apply sim_caller| | |by apply sim_handle|by apply sim_handle|
    by apply sim_reply_token].
  all: destruct s as [ch held], sp as [als av h]; cbn in Hok; subst h;
    pose proof (sr_held _ _ _ _ H) as Hh; unfold held_rel in Hh; cbn in Hh; destruct held; try done.
  - by apply sim_poll.
  - by apply sim_take.
Qed.

Lemma create_rel n N m :
  (0 < N)%nat -> 0 <= m <= Z.of_nat N -> sys_rel N m (create n N m, None) (spec_init n).
Proof.
  intros HN Hm. split; cbn; [|split; [done|constructor]|by intros i ?%not_elem_of_nil|done|].
  - apply Forall2_replicate. apply (lane_rel_new N m HN Hm). cbn. set_solver.
  - rewrite length_replicate. destruct n; [by right|left; lia].
Qed.

(** C30: FastForward refines the queue specification.  A channel created with
    [max_inflight <= ring_depth] starts in the specification's initial state, and
    from related states every operation a program may do (a call or a response poll
    of any caller, a scan, a receive, an immediate, deferred or late reply, in any
    interleaving) returns without panic a result the specification allows, and the
    states stay related: calls are refused only at the in-flight bound, requests of a
    caller reach the server once and in order, a scan finds exactly the callers with
    requests, every answer given reaches its caller once with its token, none is
    dropped. *)
Theorem fastforward_refines n N m :
  (0 < N)%nat -> 0 <= m <= Z.of_nat N ->
  sys_rel N m (create n N m, None) (spec_init n) /\
  forall s sp o, sys_rel N m s sp -> op_ok sp o ->
    exists s' r sp', exec s o = Some (s', r) /\ spec_step m sp o r sp' /\ sys_rel N m s' sp'.
Proof. intros HN Hm. split; [by apply create_rel|]. intros s sp o. apply exec_simulated. Qed.

(** ** The channel satisfies the laws of a transport

    Seen from caller [i]: the server answers each request it takes before it takes
    the next, and the other callers do what they like. *)
Definition served_op (i : nat) (s : System) (o : op) : Prop :=
  match o with
  | OCall j _ => j <> i /\ exists l, lanes s.1 !! j = Some l /\ send_count (caller l) + 1 < 2 ^ 64
  | ORecv j => j <> i /\ (j < length (lanes s.1))%nat
  | OPoll | OTake => s.2 = None
  | OReply _ => s.2 <> None
  | ODefer | OReplyToken _ _ => False
  end.

#[export] Instance fastforward_ops (i : nat) : Mpsc.CallerOps System Req Resp := {|
  Mpsc.caller_call s req := '(ch, r) ← on_lane i (fun l => call l req) s.1; Some ((ch, s.2), r);
  Mpsc.caller_sync s :=
    (mkChannel (alter sync i (lanes s.1)) (available s.1) (scan_idx s.1), s.2);
  Mpsc.caller_try_recv_response s := '(ch, r) ← on_lane i try_recv_response s.1; Some ((ch, s.2), r);
  Mpsc.caller_pending_count s := default 0 (pending_count <$> lanes s.1 !! i);
  Mpsc.serve s s' := exists o r, served_op i s o /\ exec s o = Some (s', r);
|}.

Record lane_window (a : AbsLane) (k n : Z) : Prop := mkLaneWindow {
  lw_answered : a_answered a = k;
  lw_outstanding : a_outstanding a = [];
  lw_tokens : forall j r, a_resps a !! j = Some r -> Onesided.token r = k + Z.of_nat j;
  lw_pending : a_pending a = n;
}.

Definition fastforward_window (N : nat) (m : Z) (i : nat) (s : System) (k n : Z) : Prop :=
  exists sp a, sys_rel N m s sp /\ s_lanes sp !! i = Some a /\ lane_window a k n.

Lemma lane_window_call m a k n req :
  lane_window a k n ->
  match (spec_call m a req).2 with
  | Ok t => t = k + n /\ lane_window (spec_call m a req).1 k (n + 1)
  | Err _ => lane_window (spec_call m a req).1 k n
  end.
Proof.
  intros H. pose proof H as [Hk Ho Ht Hp]. unfold spec_call.
  destruct (m <=? a_pending a); cbn [fst snd]; [done|].
  split; [abs_lia|]. split; cbn [a_answered a_resps a_outstanding a_reqs]; try done. abs_lia.
Qed.

Lemma lane_window_recv a k n :
  lane_window a k n ->
  match (spec_recv a).2 with
  | Some (t, _) => t = k /\ 0 < n /\ lane_window (spec_recv a).1 (k + 1) (n - 1)
  | None => lane_window (spec_recv a).1 k n
  end.
Proof.
  intros H. pose proof H as [Hk Ho Ht Hp]. unfold spec_recv.
  destruct a as [k' [|r rs] os qs]; cbn [fst snd a_resps]; [done|].
  cbn [a_answered a_resps a_outstanding a_reqs] in *.
  split; [rewrite (Ht O r) by done; lia|]. split; [abs_lia|].
  split; cbn [a_answered a_resps a_outstanding a_reqs]; [lia|done| |abs_lia].
  intros j r' Hj. rewrite (Ht (S j) r') by done. lia.
Qed.

Lemma lane_window_reply k0 rs os q qs k n resp :
  let a := mkAbs k0 rs os (q :: qs) in
  lane_window a k n -> lane_window (mkAbs k0 (rs ++ [mkResponse (a_taken a) resp]) os qs) k n.
Proof.
  intros a [Hk Ho Ht Hp]. subst a. cbn [a_answered a_outstanding] in *.
  split; cbn [a_answered a_outstanding a_resps]; try done; [|abs_lia].
  intros j r Hj. apply lookup_app_Some in Hj as [Hj|[Hj1 Hj2]]; [by apply Ht|].
  apply list_lookup_singleton_Some in Hj2 as [Hj2 <-]. cbn. rewrite Ho in *. abs_lia.
Qed.

Lemma served_op_ok N m i s sp o : sys_rel N m s sp -> served_op i s o -> op_ok sp o.
Proof.
  intros H. pose proof (sr_held _ _ _ _ H) as Hh. unfold held_rel in Hh.
  destruct o as [j req|j| | |resp| |]; cbn; try done;
    try (intros Hs2; by destruct s.2, (s_held sp)).
  - intros (_ & l & El & Hlt). destruct (Forall2_lookup_l _ _ _ _ _ (sr_lanes _ _ _ _ H) El) as (a & Ea & Hl).
    exists a. split; [done|]. by rewrite (lr_caller _ _ _ _ Hl) in Hlt.
  - intros (_ & Hlt). destruct (lookup_lt_is_Some_2 _ _ Hlt) as [l El].
    destruct (Forall2_lookup_l _ _ _ _ _ (sr_lanes _ _ _ _ H) El) as (a & Ea & Hl). by exists a.
Qed.

Lemma served_window m sp o r sp' i s a k n :
  spec_step m sp o r sp' -> served_op i s o -> s_lanes sp !! i = Some a -> lane_window a k n ->
  exists a', s_lanes sp' !! i = Some a' /\ lane_window a' k n.
Proof.
  intros Hstep Hserve Ha Hw.
  inversion Hstep as [als av h j b req Hb|als av h j b Hb|als av av' Hnd Hav|als|als av j av' k0 rs os q qs Hp Hb|
    als av j k0 rs os q qs resp b Hb| |]; subst; cbn [s_lanes] in *; try (by exists a); try done.
  - destruct Hserve as [Hne _]. exists a. by rewrite list_lookup_insert_ne.
  - destruct Hserve as [Hne _]. exists a. by rewrite list_lookup_insert_ne.
  - destruct (decide (j = i)) as [->|].
    + eexists. rewrite list_lookup_insert_eq by (by eapply lookup_lt_Some). split; [reflexivity|].
      apply lane_window_reply. rewrite Hb in Ha. by injection Ha as <-.
    + exists a. by rewrite list_lookup_insert_ne.
Qed.

#[export] Program Instance fastforward_laws (N : nat) (m : Z) (i : nat)
    : @Mpsc.CallerLaws System Req Resp (fastforward_ops i) := {|
  Mpsc.window := m;
  Mpsc.modulus := 0;
  Mpsc.in_window := fastforward_window N m i;
|}.
Next Obligation.
  intros N m i s k n (sp & a & H & Ha & [Hk Ho Ht Hp]).
  destruct (lane_at _ _ _ _ _ _ H Ha) as (l & El & Hl). pose proof (lr_bound _ _ _ _ Hl).
  pose proof (lr_next _ _ _ _ Hl). abs_lia.
Qed.
Next Obligation.
  intros N m i s k n (sp & a & H & Ha & [Hk Ho Ht Hp]).
  destruct (lane_at _ _ _ _ _ _ H Ha) as (l & El & Hl). cbn. rewrite El. cbn. unfold pending_count.
  by rewrite (lr_caller _ _ _ _ Hl).
Qed.
Next Obligation.
  intros N m i [ch held] k n req (sp & a & H & Ha & Hw) Hlt.
  assert (a_next a = k + n) as Hnext by (destruct Hw; abs_lia).
  destruct (call_sys _ _ _ _ _ _ _ req H Ha ltac:(lia)) as (ch' & E & Hsys).
  eexists _, _. split; [cbn; by rewrite E|]. cbn [snd].
  assert ((<[i := (spec_call m a req).1]> (s_lanes sp)) !! i = Some (spec_call m a req).1) as Hi'
    by (apply list_lookup_insert_eq; by eapply lookup_lt_Some).
  pose proof (lane_window_call m a k n req Hw) as Hc.
  destruct (spec_call m a req).2; [destruct Hc as [-> Hc2]; split; [done|]|]; by eexists _, _.
Qed.
Next Obligation.
  intros N m i [ch held] k n Hw. cbn. unfold sync.
  replace (alter _ i (lanes ch)) with (lanes ch); [by destruct ch|].
  symmetry. apply list_alter_id. done.
Qed.
Next Obligation.
  intros N m i [ch held] k n (sp & a & H & Ha & Hw).
  destruct (recv_sys _ _ _ _ _ _ _ H Ha) as (ch' & E & Hsys).
  eexists _, _. split; [cbn; by rewrite E|]. cbn [snd].
  assert ((<[i := (spec_recv a).1]> (s_lanes sp)) !! i = Some (spec_recv a).1) as Hi'
    by (apply list_lookup_insert_eq; by eapply lookup_lt_Some).
  pose proof (lane_window_recv a k n Hw) as Hc.
  destruct (spec_recv a).2 as [[t r]|]; [destruct Hc as (-> & Hc2 & Hc3); do 2 (split; [done|])|]; by eexists _, _.
Qed.
Next Obligation.
  intros N m i s s' k n (sp & a & H & Ha & Hw) (o & r & Hserve & Hexec).
  destruct (exec_simulated _ _ _ _ o H (served_op_ok _ _ _ _ _ _ H Hserve)) as (s2 & r2 & sp2 & E & Hstep & H').
  rewrite Hexec in E. injection E as <- <-.
  destruct (served_window _ _ _ _ _ _ _ _ _ _ Hstep Hserve Ha Hw) as (a' & Ha' & Hw').
  by exists sp2, a'.
Qed.

End Channel.
Arguments Lane : clear implicits.
Arguments Channel : clear implicits.
Arguments System : clear implicits.
Arguments op : clear implicits.

(** ** Concrete runs *)

(** A program of operations and its results. *)
Fixpoint run {Req Resp} (s : System Req Resp) (os : list (op Req Resp)) : option (System Req Resp * list out) :=
  match os with
  | [] => Some (s, [])
  | o :: os => '(s', r) ← exec s o; '(s'', rs) ← run s' os; Some (s'', r :: rs)
  end.

Lemma fastforward_refines_witness :
  sys_rel 2 2 (create (Req := Z) (Resp := Z) 2 2 2, None) (spec_init 2) /\
  exists s' r sp', exec (create 2 2 2, None) (OCall 0 (10 : Z) : op Z Z) = Some (s', r) /\
    spec_step 2 (spec_init 2) (OCall 0 10) r sp' /\ sys_rel 2 2 s' sp'.
Proof.
  destruct (fastforward_refines (Req := Z) (Resp := Z) 2 2 2 ltac:(lia) ltac:(lia)) as [H1 H2].
  split; [exact H1|]. apply (H2 _ _ _ H1). by exists (mkAbs 0 [] [] []).
Defined.

(** One exchange through the adapter on a FastForward channel. *)
Lemma user_data_in_order_witness :
  let ops := fastforward_ops (Req := Z) (Resp := Z) 0 in
  exists w, rtc (Mpsc.with_step (CallerOps0 := ops))
      (Mpsc.with_new (create 1 2 2, None) 2, [], []) (w, [7; 8], [7]) /\
    (exists rest, [7; 8] = [7] ++ rest /\ Mpsc.with_pending_count (CallerOps0 := ops) w = Z.of_nat (length rest)) /\
    exists w' out, Mpsc.with_poll (CallerOps0 := ops) 3 w = Some (w', out) /\ exists rest', [7; 8] = [7] ++ out.*1 ++ rest'.
Proof.
  assert (exists w, rtc (Mpsc.with_step (CallerOps0 := fastforward_ops (Req := Z) (Resp := Z) 0))
      (Mpsc.with_new (create 1 2 2, None) 2, [], []) (w, [7; 8], [7])) as [w Hw].
  { eexists. eapply rtc_l; [apply (Mpsc.with_step_call _ [] _ 10 7); [done|vm_compute; reflexivity]|].
    eapply rtc_l; [apply (Mpsc.with_step_call _ [7] _ 11 8); [done|vm_compute; reflexivity]|].
    eapply rtc_l; [apply Mpsc.with_step_serve; exists OPoll; eexists; split; [done|vm_compute; reflexivity]|].
    eapply rtc_l; [apply Mpsc.with_step_serve; exists OTake; eexists; split; [done|vm_compute; reflexivity]|].
    eapply rtc_l; [apply Mpsc.with_step_serve; exists (OReply 20); eexists; split; [done|vm_compute; reflexivity]|].
    eapply rtc_l; [apply (Mpsc.with_step_poll _ _ _ 3); vm_compute; reflexivity|]. apply rtc_refl. }
  exists w. split; [exact Hw|].
  apply (Mpsc.user_data_in_order (CallerLaws0 := fastforward_laws 2 2 0) w (create 1 2 2, None) 2);
    [|cbn; lia|lia|by exists 0|exact Hw].
  exists (spec_init 1), (mkAbs 0 [] [] []). split; [by apply create_rel; lia|]. by split.
Defined.

(** With [max_inflight > ring_depth] an answer can be lost: the response ring is
    full, [try_send] fails and [reply] ignores it.  The caller receives one of its two
    responses and its other request stays in flight for ever. *)
Lemma reply_lost_beyond_ring_depth :
  let prog := [OCall 0 10; OPoll; OTake; OReply 20; OCall 0 11; OPoll; OTake; OReply 21; ORecv 0; ORecv 0] in
  exists s, run (create 1 1 2, None) prog = Some (s, [RCall (Ok 0); RPoll 1; RTake (Some (O, 10)); RDone;
      RCall (Ok 1); RPoll 1; RTake (Some (O, 11)); RDone; RRecv (Some (0, 20)); RRecv None]) /\
    pending_count <$> lanes s.1 !! O = Some 1.
Proof. eexists. split; vm_compute; reflexivity. Qed.

(** Deferred replies may come back out of order, and then [capacity >= max_inflight]
    does not keep the adapter's slots apart: the request with token 2 takes the slot of
    token 0, which is still unanswered, and the answer to token 0 is given to the
    callback with the user data of token 2. *)
Definition late_reply_run : option (list (Z * Z) * list (Z * Z)) :=
  let ops := fastforward_ops (Req := Z) (Resp := Z) 0 in
  let on_server (w : Mpsc.CallerWithUserData (System Z Z) Z) os :=
    '(s, _) ← run (Mpsc.caller w) os; Some (Mpsc.mkWith s (Mpsc.user_data w)) in
  '(w, _) ← Mpsc.with_call (CallerOps0 := ops) (Mpsc.with_new (create 1 2 2, None) 2) 10 100;
  '(w, _) ← Mpsc.with_call (CallerOps0 := ops) w 11 101;
  w ← on_server w [OPoll; OTake; ODefer; OPoll; OTake; OReply 21];
  '(w, got1) ← Mpsc.with_poll (CallerOps0 := ops) 3 w;
  '(w, _) ← Mpsc.with_call (CallerOps0 := ops) w 12 102;
  w ← on_server w [OReplyToken (mkToken 0 0) 20];
  '(w, got2) ← Mpsc.with_poll (CallerOps0 := ops) 3 w;
  Some (got1, got2).

Lemma late_reply_swaps_user_data : late_reply_run = Some ([(101, 21)], [(102, 20)]).
Proof. vm_compute. reflexivity. Qed.

End Fastforward.
