(* ===== verification/FetchAdd.v ===== *)
(** * FetchAdd: the shared request ring of [mempc] and its response rings

    [mempc/src/fetch_add.rs] and the response ring of [mempc/src/common.rs].  All
    callers push into one ring: a position is claimed with [fetch_add], the caller
    waits until the slot's sequence number says that the slot is free for this
    position, writes, and publishes by moving the sequence number on; the server takes
    the positions in order.  Each operation is composed from its accesses to shared
    memory, and [ring_step] interleaves the accesses of any number of callers and the
    server.  Memory is sequentially consistent: the acquire and release accesses the
    code makes order the data accesses with the sequence number. *)
From S2P Require Import Prelude Onesided Mpsc Fastforward.

Module FetchAdd.

Notation CallError := Onesided.CallError.
Notation InflightExceeded := Onesided.InflightExceeded.
Notation Disconnected := Onesided.Disconnected.
Notation ReplyToken := Onesided.ReplyToken.
Notation mkToken := Onesided.mkToken.

(** ** The request ring *)

Section Ring.
Context {T : Type}.

(** [struct ReqSlot]; [slot_data] is [None] while the memory is uninitialised. *)
Record ReqSlot : Type := mkSlot { seq : Z; slot_caller : nat; slot_data : option T }.

Record RequestRing : Type := mkRing {
  buffer : list ReqSlot;
  head : Z;
  tail : Z;
  mask : Z;
  capacity : Z;
  sender_count : Z;
  rx_alive : bool;
}.
Implicit Types (r : RequestRing).

(** [RequestRing::new]; [None] is the failed assertion. *)
Definition ring_new (cap num_senders : Z) : option RequestRing :=
  if is_power_of_two cap
  then Some (mkRing ((fun i => mkSlot (Z.of_nat i) 0 None) <$> List.seq 0 (Z.to_nat cap))
               0 0 (cap - 1) cap num_senders true)
  else None.

Definition with_buffer r (b : list ReqSlot) : RequestRing :=
  mkRing b (head r) (tail r) (mask r) (capacity r) (sender_count r) (rx_alive r).

(** A slot is always reached through a masked position. *)
Definition idx r (pos : Z) : nat := Z.to_nat (Z.land pos (mask r)).
Definition slot_seq r (pos : Z) : option Z := seq <$> buffer r !! idx r pos.

(** The accesses of [try_push]. *)
Definition push_claim r : RequestRing * Z :=
  (mkRing (buffer r) (u64 (head r + 1)) (tail r) (mask r) (capacity r) (sender_count r) (rx_alive r), head r).
Definition push_ready r (pos : Z) : bool := bool_decide (slot_seq r pos = Some pos).
Definition push_write r (pos : Z) (caller_id : nat) (d : T) : RequestRing :=
  with_buffer r (alter (fun s => mkSlot (seq s) caller_id (Some d)) (idx r pos) (buffer r)).
Definition push_publish r (pos : Z) : RequestRing :=
  with_buffer r (alter (fun s => mkSlot (u64 (pos + 1)) (slot_caller s) (slot_data s)) (idx r pos) (buffer r)).

(** The wait for the slot, when nobody else runs: [None] is still spinning. *)
Fixpoint push_wait (fuel : nat) r (pos : Z) : option bool :=
  match fuel with
  | O => None
  | S fuel =>
      if push_ready r pos then Some true
      else if negb (rx_alive r) then Some false
      else push_wait fuel r pos
  end.

(** [RequestRing::try_push], run alone. *)
Definition try_push (fuel : nat) r (caller_id : nat) (d : T) : option (RequestRing * result Z (CallError T)) :=
  if negb (rx_alive r) then Some (r, Err (Disconnected d))
  else
    let '(r, pos) := push_claim r in
    match push_wait fuel r pos with
    | None => None
    | Some false => Some (r, Err (Disconnected d))
    | Some true => Some (push_publish (push_write r pos caller_id d) pos, Ok pos)
    end.

(** The accesses of [try_pop]. *)
Definition pop_ready r : bool := bool_decide (slot_seq r (tail r) = Some (u64 (tail r + 1))).
Definition pop_read r : option (nat * T) :=
  s ← buffer r !! idx r (tail r); d ← slot_data s; Some (slot_caller s, d).
(** The slot is freed and [tail] moved in one access: only the popping side reads
    [tail], so that no caller can tell the two stores apart. *)
Definition pop_free r : RequestRing :=
  mkRing (alter (fun s => mkSlot (u64 (tail r + capacity r)) (slot_caller s) (slot_data s)) (idx r (tail r)) (buffer r))
    (head r) (u64 (tail r + 1)) (mask r) (capacity r) (sender_count r) (rx_alive r).

(** [RequestRing::try_pop]; the outer [None] is a read of uninitialised memory. *)
Definition try_pop r : option (RequestRing * option (nat * T * Z)) :=
  if pop_ready r
  then '(caller_id, d) ← pop_read r; Some (pop_free r, Some (caller_id, d, tail r))
  else Some (r, None).

Definition ring_available r : Z := saturating_sub (head r) (tail r).

Definition disconnect_tx r : RequestRing :=
  mkRing (buffer r) (head r) (tail r) (mask r) (capacity r) (u64 (sender_count r - 1)) (rx_alive r).
Definition disconnect_rx r : RequestRing :=
  mkRing (buffer r) (head r) (tail r) (mask r) (capacity r) (sender_count r) false.

End Ring.
Arguments ReqSlot : clear implicits.
Arguments RequestRing : clear implicits.

(** ** Response rings *)

Section RespRing.
Context {T : Type}.

(** [struct ResponseRing]; a slot is a flag and a token with its response, which is
    the slot type of the FastForward rings. *)
Record ResponseRing : Type := mkResp {
  resp_buffer : list (Fastforward.Slot (Z * T));
  write_pos : Z;
  read_pos : Z;
  resp_mask : Z;
  resp_rx_alive : bool;
}.
Implicit Types (r : ResponseRing).

Definition resp_new (cap : Z) : option ResponseRing :=
  if is_power_of_two cap
  then Some (mkResp (replicate (Z.to_nat cap) Fastforward.slot_new) 0 0 (cap - 1) true)
  else None.

(** [ResponseRing::try_push]; [None] is an index out of range. *)
Definition resp_try_push r (token : Z) (d : T) : option (ResponseRing * bool) :=
  if negb (resp_rx_alive r) then Some (r, false)
  else
    let pos := write_pos r in
    let i := Z.to_nat (Z.land pos (resp_mask r)) in
    match resp_buffer r !! i with
    | None => None
    | Some slot =>
        if Fastforward.valid slot then Some (r, false)
        else Some (mkResp (<[i := Fastforward.mkSlot true (Some (token, d))]> (resp_buffer r))
                     (u64 (pos + 1)) (read_pos r) (resp_mask r) (resp_rx_alive r), true)
    end.

(** [ResponseRing::try_pop]. *)
Definition resp_try_pop r : option (ResponseRing * option (Z * T)) :=
  let pos := read_pos r in
  let i := Z.to_nat (Z.land pos (resp_mask r)) in
  match resp_buffer r !! i with
  | None => None
  | Some slot =>
      if negb (Fastforward.valid slot) then Some (r, None)
      else match Fastforward.data slot with
           | None => None
           | Some d => Some (mkResp (<[i := Fastforward.mkSlot false (Some d)]> (resp_buffer r))
                               (write_pos r) (u64 (pos + 1)) (resp_mask r) (resp_rx_alive r), Some d)
           end
  end.

Definition resp_disconnect_rx r : ResponseRing :=
  mkResp (resp_buffer r) (write_pos r) (read_pos r) (resp_mask r) false.

End RespRing.
Arguments ResponseRing : clear implicits.

(** ** Callers and server *)

Section Channel.
Context {Req Resp : Type}.

Record FetchAddCaller : Type := mkCaller {
  caller_id : nat;
  send_count : Z;
  inflight : Z;
  max_inflight : Z;
  caller_disconnected : bool;
}.

Record FetchAddServer : Type := mkServer { recv_counts : list Z; server_disconnected : bool }.

(** [FetchAddCaller::call]. *)
Definition call (fuel : nat) (c : FetchAddCaller) (r : RequestRing Req) (req : Req)
    : option (FetchAddCaller * RequestRing Req * result Z (CallError Req)) :=
  if max_inflight c <=? inflight c then Some (c, r, Err (InflightExceeded req))
  else match try_push fuel r (caller_id c) req with
       | None => None
       | Some (r, Err e) => Some (c, r, Err e)
       | Some (r, Ok _) =>
           Some (mkCaller (caller_id c) (u64 (send_count c + 1)) (u64 (inflight c + 1)) (max_inflight c)
                   (caller_disconnected c), r, Ok (send_count c))
       end.

(** [FetchAddCaller::try_recv_response]. *)
Definition try_recv_response (c : FetchAddCaller) (rr : ResponseRing Resp)
    : option (FetchAddCaller * ResponseRing Resp * option (Z * Resp)) :=
  '(rr, result) ← resp_try_pop rr;
  Some (match result with
        | Some _ => mkCaller (caller_id c) (send_count c) (saturating_sub (inflight c) 1) (max_inflight c)
                      (caller_disconnected c)
        | None => c
        end, rr, result).

(** [Drop] of a caller and of the server. *)
Definition drop_caller (c : FetchAddCaller) (r : RequestRing Req) (rr : ResponseRing Resp)
    : FetchAddCaller * RequestRing Req * ResponseRing Resp :=
  if caller_disconnected c then (c, r, rr)
  else (mkCaller (caller_id c) (send_count c) (inflight c) (max_inflight c) true,
        disconnect_tx r, resp_disconnect_rx rr).
Definition drop_server (s : FetchAddServer) (r : RequestRing Req) : FetchAddServer * RequestRing Req :=
  if server_disconnected s then (s, r) else (mkServer (recv_counts s) true, disconnect_rx r).

(** [FetchAddServer::poll]. *)
Definition server_poll (r : RequestRing Req) : Z := u32 (ring_available r).

(** [FetchAddServer::try_recv]: the handle's caller, token and request. *)
Definition server_try_recv (s : FetchAddServer) (r : RequestRing Req)
    : option (FetchAddServer * RequestRing Req * option (ReplyToken * Req)) :=
  match try_pop r with
  | None => None
  | Some (r, None) => Some (s, r, None)
  | Some (r, Some (cid, d, _)) =>
      t ← recv_counts s !! cid;
      Some (mkServer (<[cid := u64 (t + 1)]> (recv_counts s)) (server_disconnected s), r,
            Some (mkToken (Z.of_nat cid) t, d))
  end.

(** The loop of [FetchAddServer::reply], run alone: [None] is still spinning. *)
Fixpoint reply (fuel : nat) (rr : ResponseRing Resp) (token : Z) (resp : Resp) : option (ResponseRing Resp) :=
  match fuel with
  | O => None
  | S fuel =>
      match resp_try_push rr token resp with
      | None => None
      | Some (rr, true) => Some rr
      | Some (rr, false) => if negb (resp_rx_alive rr) then Some rr else reply fuel rr token resp
      end
  end.

(** [FetchAddMpsc::create]: the callers, the server, the request ring and the
    response rings. *)
Definition create (max_callers : nat) (ring_depth max_inflight : Z)
    : option (list FetchAddCaller * FetchAddServer * RequestRing Req * list (ResponseRing Resp)) :=
  if bool_decide (max_callers = O) then None
  else
    r ← ring_new ring_depth (Z.of_nat max_callers);
    rr ← resp_new ring_depth;
    Some ((fun id => mkCaller id 0 0 max_inflight false) <$> List.seq 0 max_callers,
          mkServer (replicate max_callers 0) false, r, replicate max_callers rr).

End Channel.

(** ** The ring under concurrency

    Where each caller is in [call]: [PStart] has seen the server alive, [PClaimed] has
    a position and waits, [POwned] has seen its slot free, [PWritten] has written it;
    and where the server is in [try_recv]. *)

Section Concurrent.
Context {T : Type}.

Inductive Pc : Type :=
| PIdle
| PStart (d : T)
| PClaimed (pos : Z) (d : T)
| POwned (pos : Z) (d : T)
| PWritten (pos : Z) (d : T).

Inductive ServerPc : Type := SIdle | SReady | SRead (cid : nat) (d : T).

(** [claims]: what was claimed at each position, with the token the caller returns;
    [taken]: what [try_recv] returned, with the token it assigned.  Both are history
    and not read by any step. *)
Record Sys : Type := mkSys {
  ring : RequestRing T;
  callers : list (Pc * Z);
  spc : ServerPc;
  counts : list Z;
  claims : list (nat * Z * T);
  taken : list (nat * Z * T);
}.
Implicit Types (s : Sys).

(** A ring is used for fewer than [POS_MAX] requests, so that positions do not wrap. *)
Definition POS_MAX : Z := 2 ^ 62.

Definition with_caller s (r : RequestRing T) (j : nat) (pc : Pc) (sc : Z) : Sys :=
  mkSys r (<[j := (pc, sc)]> (callers s)) (spc s) (counts s) (claims s) (taken s).

Inductive ring_step : Sys -> Sys -> Prop :=
| step_start s j sc d :
    callers s !! j = Some (PIdle, sc) -> rx_alive (ring s) = true ->
    ring_step s (with_caller s (ring s) j (PStart d) sc)
| step_claim s j sc d r pos :
    callers s !! j = Some (PStart d, sc) -> push_claim (ring s) = (r, pos) -> pos + 1 < POS_MAX ->
    ring_step s (mkSys r (<[j := (PClaimed pos d, sc)]> (callers s)) (spc s) (counts s)
                   (claims s ++ [(j, sc, d)]) (taken s))
| step_own s j sc pos d :
    callers s !! j = Some (PClaimed pos d, sc) -> push_ready (ring s) pos = true ->
    ring_step s (with_caller s (ring s) j (POwned pos d) sc)
| step_give_up s j sc pos d :
    callers s !! j = Some (PClaimed pos d, sc) -> rx_alive (ring s) = false ->
    ring_step s (with_caller s (ring s) j PIdle sc)
| step_write s j sc pos d :
    callers s !! j = Some (POwned pos d, sc) ->
    ring_step s (with_caller s (push_write (ring s) pos j d) j (PWritten pos d) sc)
| step_publish s j sc pos d :
    callers s !! j = Some (PWritten pos d, sc) ->
    ring_step s (with_caller s (push_publish (ring s) pos) j PIdle (u64 (sc + 1)))
| step_look s :
    spc s = SIdle -> rx_alive (ring s) = true -> pop_ready (ring s) = true ->
    ring_step s (mkSys (ring s) (callers s) SReady (counts s) (claims s) (taken s))
| step_read s cid d :
    spc s = SReady -> pop_read (ring s) = Some (cid, d) ->
    ring_step s (mkSys (ring s) (callers s) (SRead cid d) (counts s) (claims s) (taken s))
| step_free s cid d t :
    spc s = SRead cid d -> counts s !! cid = Some t ->
    ring_step s (mkSys (pop_free (ring s)) (callers s) SIdle (<[cid := u64 (t + 1)]> (counts s))
                   (claims s) (taken s ++ [(cid, t, d)]))
| step_drop s :
    spc s = SIdle ->
    ring_step s (mkSys (disconnect_rx (ring s)) (callers s) SIdle (counts s) (claims s) (taken s)).

(** The state after [create]. *)
Definition sys_init (n : nat) (r : RequestRing T) : Sys :=
  mkSys r (replicate n (PIdle, 0)) SIdle (replicate n 0) [] [].

(** ** Its invariant *)

(** How many of the entries are caller [j]'s. *)
Definition count_of (j : nat) (l : list (nat * Z * T)) : Z :=
  Z.of_nat (length (filter (fun x => x.1.1 = j) l)).

Definition claim_at s (pos : Z) (j : nat) (sc : Z) (d : T) : Prop :=
  0 <= pos /\ claims s !! Z.to_nat pos = Some (j, sc, d).

(** A caller that has claimed [pos]: not taken yet, and once the slot's turn has come
    the slot is reserved for it. *)
Definition claimed s (j : nat) (sc pos : Z) (d : T) : Prop :=
  claim_at s pos j sc d /\ tail (ring s) <= pos /\ sc + 1 = count_of j (claims s) /\
  (pos < tail (ring s) + capacity (ring s) -> slot_seq (ring s) pos = Some pos).

Definition caller_ok s (j : nat) (pc : Pc) (sc : Z) : Prop :=
  0 <= sc /\
  match pc with
  | PIdle => rx_alive (ring s) = true -> sc = count_of j (claims s)
  | PStart _ => sc = count_of j (claims s)
  | PClaimed pos d => claimed s j sc pos d
  | POwned pos d => claimed s j sc pos d /\ pos < tail (ring s) + capacity (ring s)
  | PWritten pos d =>
      claimed s j sc pos d /\ pos < tail (ring s) + capacity (ring s) /\
      buffer (ring s) !! idx (ring s) pos = Some (mkSlot pos j (Some d))
  end.

(** The slot of a position of the current lap is either waiting for that position or
    holds what was claimed there. *)
Definition slot_ok s (pos : Z) : Prop :=
  exists sl, buffer (ring s) !! idx (ring s) pos = Some sl /\
    (seq sl = pos \/
     seq sl = pos + 1 /\ exists j sc d, claim_at s pos j sc d /\ sl = mkSlot (pos + 1) j (Some d)).

Definition server_ok s : Prop :=
  match spc s with
  | SIdle => True
  | SReady => rx_alive (ring s) = true /\ slot_seq (ring s) (tail (ring s)) = Some (tail (ring s) + 1)
  | SRead cid d => rx_alive (ring s) = true /\ slot_seq (ring s) (tail (ring s)) = Some (tail (ring s) + 1) /\
      exists t, claim_at s (tail (ring s)) cid t d
  end.

Definition pc_pos (pc : Pc) : option Z :=
  match pc with PIdle | PStart _ => None | PClaimed pos _ | POwned pos _ | PWritten pos _ => Some pos end.

(** Every position claimed and not taken is filled or has a caller at work on it. *)
Definition position_ok s (pos : Z) : Prop :=
  pos < tail (ring s) + capacity (ring s) /\ slot_seq (ring s) pos = Some (pos + 1) \/
  exists j pc sc, callers s !! j = Some (pc, sc) /\ pc_pos pc = Some pos.

Record sys_ok s : Prop := mkSysOk {
  ok_shape : exists e, 1 <= e <= 62 /\ capacity (ring s) = 2 ^ e /\ mask (ring s) = 2 ^ e - 1 /\
    length (buffer (ring s)) = Z.to_nat (2 ^ e);
  ok_tail : tail (ring s) = Z.of_nat (length (taken s));
  ok_head : head (ring s) = Z.of_nat (length (claims s)) /\ head (ring s) < POS_MAX;
  ok_taken : taken s = take (length (taken s)) (claims s) /\ (length (taken s) <= length (claims s))%nat;
  ok_slots : forall pos, tail (ring s) <= pos < tail (ring s) + capacity (ring s) -> slot_ok s pos;
  ok_callers : forall j pc sc, callers s !! j = Some (pc, sc) -> caller_ok s j pc sc;
  ok_server : server_ok s;
  ok_counts : forall j t, counts s !! j = Some t -> t = count_of j (taken s);
  ok_ids : length (counts s) = length (callers s) /\
    forall p j sc d, claims s !! p = Some (j, sc, d) ->
      (j < length (callers s))%nat /\ sc = count_of j (take p (claims s));
  ok_positions : rx_alive (ring s) = true ->
    forall pos, tail (ring s) <= pos < head (ring s) -> position_ok s pos;
}.

(** ** Slots and positions *)

Section Shape.
Context (r : RequestRing T) (e : Z).
Hypothesis He : 0 <= e.
Hypothesis Hmask : mask r = 2 ^ e - 1.

Lemma idx_mod pos : idx r pos = Z.to_nat (pos mod 2 ^ e).
Proof. unfold idx. by rewrite Hmask, land_mask. Qed.

Lemma pow_pos_e : 0 < 2 ^ e.
Proof. by apply Z.pow_pos_nonneg. Qed.

Lemma idx_lt pos : length (buffer r) = Z.to_nat (2 ^ e) -> (idx r pos < length (buffer r))%nat.
Proof.
  intros ->. rewrite idx_mod. pose proof pow_pos_e. pose proof (Z.mod_pos_bound pos (2 ^ e) ltac:(lia)). lia.
Qed.

Lemma idx_lap pos : idx r (pos + 2 ^ e) = idx r pos.
Proof.
  rewrite !idx_mod. pose proof pow_pos_e.
  rewrite <-(Z.mul_1_l (2 ^ e)) at 1. by rewrite Z.mod_add by lia.
Qed.

(** Positions of one lap are in different slots. *)
Lemma idx_differ t p q :
  0 <= t -> t <= p < t + 2 ^ e -> t <= q < t + 2 ^ e -> p <> q -> idx r p <> idx r q.
Proof.
  intros Ht Hp Hq Hne. rewrite !idx_mod. destruct (decide (p < q)).
  - apply Mpsc.slots_differ; lia.
  - apply not_eq_sym, Mpsc.slots_differ; lia.
Qed.

(** Every position shares its slot with one of the current lap. *)
Lemma idx_current t p :
  0 <= t <= p -> exists q, t <= q < t + 2 ^ e /\ idx r q = idx r p /\ (2 ^ e | p - q) /\ q <= p.
Proof.
  intros Ht. pose proof pow_pos_e. pose proof (Z.mod_pos_bound (p - t) (2 ^ e) ltac:(lia)) as Hm.
  pose proof (Z.div_mod (p - t) (2 ^ e) ltac:(lia)) as Hdm.
  pose proof (Z.div_pos (p - t) (2 ^ e) ltac:(lia) ltac:(lia)) as Hd.
  assert (p - (t + (p - t) mod 2 ^ e) = (p - t) / 2 ^ e * 2 ^ e) as Hx by lia.
  exists (t + (p - t) mod 2 ^ e). split; [lia|]. split; [|split; [by exists ((p - t) / 2 ^ e)|nia]].
  rewrite !idx_mod. f_equal. replace p with (t + (p - t) mod 2 ^ e + (p - t) / 2 ^ e * 2 ^ e) at 2 by lia.
  by rewrite Z.mod_add by lia.
Qed.

End Shape.

Lemma count_of_app j (l : list (nat * Z * T)) i t d :
  count_of j (l ++ [(i, t, d)]) = count_of j l + if decide (i = j) then 1 else 0.
Proof.
  unfold count_of. rewrite filter_app, length_app, filter_cons. cbn [fst]. case_decide; cbn; lia.
Qed.

Lemma count_of_bound j (l : list (nat * Z * T)) : 0 <= count_of j l <= Z.of_nat (length l).
Proof. unfold count_of. pose proof (length_filter (fun x => x.1.1 = j) l). lia. Qed.

(** A claimed slot comes free for its position only in its lap: this is where a ring
    of one slot differs, whose filled slot has the sequence number of the next
    position. *)
Lemma ready_in_lap s pos :
  sys_ok s -> tail (ring s) <= pos -> slot_seq (ring s) pos = Some pos ->
  pos < tail (ring s) + capacity (ring s).
Proof.
  intros [(e & He & Hc & Hm & Hl) Ht _ _ Hslots _ _ _ _ _] Hle Hseq.
  destruct (idx_current (ring s) e ltac:(lia) Hm (tail (ring s)) pos) as (q & Hq & Hi & [z Hz] & Hqp); [lia|].
  rewrite <-Hc in Hq. destruct (Hslots q Hq) as (sl & Hsl & Hcase).
  unfold slot_seq in Hseq. rewrite <-Hi, Hsl in Hseq. injection Hseq as Hseq.
  assert (2 <= 2 ^ e) by (change 2 with (2 ^ 1) at 1; apply Z.pow_le_mono_r; lia).
  destruct Hcase as [Hcase|[Hcase _]]; [lia|]. assert (z * 2 ^ e = 1) as Hx by (rewrite <-Hz; lia).
  clear -Hx H. generalize dependent (2 ^ e). intros m Hm Hx.
  destruct (decide (z <= 0)); nia.
Qed.

(** ** Every access keeps the invariant *)

Lemma claim_at_lt s pos j t d : claim_at s pos j t d -> 0 <= pos < Z.of_nat (length (claims s)).
Proof. intros [H0 H]. apply lookup_lt_Some in H. lia. Qed.

(** One position has one claim, so two callers have different positions. *)
Lemma claim_at_unique s pos i j t t' d d' :
  claim_at s pos i t d -> claim_at s pos j t' d' -> i = j /\ t = t' /\ d = d'.
Proof. intros [_ H1] [_ H2]. rewrite H1 in H2. by injection H2 as -> -> ->. Qed.

Lemma caller_claimed s j pc sc pos :
  caller_ok s j pc sc -> pc_pos pc = Some pos -> exists d, claimed s j sc pos d.
Proof. intros [_ H] Hp. destruct pc; try done; injection Hp as <-; eexists; try apply H; naive_solver. Qed.

(** What another caller or the server has to leave alone. *)
Lemma caller_ok_frame s s' j pc sc :
  caller_ok s j pc sc ->
  (rx_alive (ring s') = true -> rx_alive (ring s) = true) ->
  count_of j (claims s') = count_of j (claims s) ->
  (forall pos t d, claim_at s pos j t d -> claim_at s' pos j t d) ->
  capacity (ring s') = capacity (ring s) -> tail (ring s) <= tail (ring s') ->
  (forall pos, pc_pos pc = Some pos ->
     tail (ring s') <= pos /\
     (pos < tail (ring s') + capacity (ring s) -> slot_seq (ring s') pos = Some pos) /\
     (pos < tail (ring s) + capacity (ring s) ->
        buffer (ring s') !! idx (ring s') pos = buffer (ring s) !! idx (ring s) pos)) ->
  caller_ok s' j pc sc.
Proof.
  intros [H0 H] Hrx Hcount Hclaim Hcap Htail Hpos. split; [done|].
  assert (forall pos d, pc_pos pc = Some pos -> claimed s j sc pos d -> claimed s' j sc pos d) as Hcl.
  { intros pos d Hp (H1 & H2 & H3 & H4). destruct (Hpos pos Hp) as (H5 & H6 & H7).
    split; [by apply Hclaim|]. split; [done|]. rewrite Hcount, Hcap. auto. }
  destruct pc as [|d|pos d|pos d|pos d]; cbn [pc_pos] in *.
  - intros Ha. rewrite Hcount. auto.
  - by rewrite Hcount.
  - by apply Hcl.
  - destruct H as [H1 H2]. split; [by apply Hcl|]. rewrite Hcap. lia.
  - destruct H as (H1 & H2 & H3). split; [by apply Hcl|]. split; [rewrite Hcap; lia|].
    destruct (Hpos pos eq_refl) as (_ & _ & ->); done.
Qed.

(** The steps that touch neither the history nor the ring's slots. *)
Lemma sys_ok_caller s j pc sc pc' :
  sys_ok s -> callers s !! j = Some (pc, sc) -> caller_ok s j pc' sc ->
  (rx_alive (ring s) = true -> pc_pos pc' = pc_pos pc) ->
  sys_ok (with_caller s (ring s) j pc' sc).
Proof.
  intros [H1 H2 H3 H4 H5 H6 H7 H8 H9 H10] Hj Hok Hpos.
  split; cbn [ring callers spc counts claims taken with_caller] in *; try done.
  - intros i pc0 sc0 Hi. destruct (decide (i = j)) as [->|Hne].
    + rewrite list_lookup_insert_eq in Hi by (by eapply lookup_lt_Some). by injection Hi as <- <-.
    + rewrite list_lookup_insert_ne in Hi by done. apply (H6 i pc0 sc0 Hi).
  - by rewrite length_insert.
  - intros Ha pos Hp. destruct (H10 Ha pos Hp) as [Hf|(i & pc0 & sc0 & Hi & Hpc)]; [by left|]. right.
    destruct (decide (i = j)) as [->|Hne].
    + exists j, pc', sc. cbn. rewrite list_lookup_insert_eq by (by eapply lookup_lt_Some). split; [done|].
      rewrite Hpos by done. congruence.
    + exists i, pc0, sc0. cbn. by rewrite list_lookup_insert_ne.
Qed.

Lemma step_start_ok s j sc d :
  sys_ok s -> callers s !! j = Some (PIdle, sc) -> rx_alive (ring s) = true ->
  sys_ok (with_caller s (ring s) j (PStart d) sc).
Proof.
  intros H Hj Ha. destruct (ok_callers _ H _ _ _ Hj) as [H0 Hc].
  apply (sys_ok_caller s j PIdle sc); [done|done| |done]. split; [done|]. by apply Hc.
Qed.

Lemma step_own_ok s j sc pos d :
  sys_ok s -> callers s !! j = Some (PClaimed pos d, sc) -> push_ready (ring s) pos = true ->
  sys_ok (with_caller s (ring s) j (POwned pos d) sc).
Proof.
  intros H Hj Hr. destruct (ok_callers _ H _ _ _ Hj) as [H0 Hc].
  apply (sys_ok_caller s j (PClaimed pos d) sc); [done|done| |done]. split; [done|]. split; [done|].
  apply bool_decide_eq_true in Hr. apply ready_in_lap; [done|apply Hc|done].
Qed.

Lemma step_give_up_ok s j sc pos d :
  sys_ok s -> callers s !! j = Some (PClaimed pos d, sc) -> rx_alive (ring s) = false ->
  sys_ok (with_caller s (ring s) j PIdle sc).
Proof.
  intros H Hj Hr. destruct (ok_callers _ H _ _ _ Hj) as [H0 Hc].
  apply (sys_ok_caller s j (PClaimed pos d) sc); [done|done| |by rewrite Hr]. split; [done|]. by rewrite Hr.
Qed.

(** A store into the slot of a position of the current lap, by the caller that owns
    it; [f] is the store. *)
Lemma sys_ok_store s j sc pos d pc pc' sc' f :
  sys_ok s -> callers s !! j = Some (pc, sc) -> claimed s j sc pos d -> pc_pos pc = Some pos ->
  pos < tail (ring s) + capacity (ring s) ->
  let s' := with_caller s (with_buffer (ring s) (alter f (idx (ring s) pos) (buffer (ring s)))) j pc' sc' in
  caller_ok s' j pc' sc' -> slot_ok s' pos -> position_ok s' pos -> sys_ok s'.
Proof.
  intros H Hj Hcl Hpc Hlt s' Hj' Hslot Hposok.
  pose proof H as [(e & He & Hc & Hm & Hl) H2 H3 H4 H5 H6 H7 H8 H9 H10].
  destruct Hcl as (Hat & Hle & Hcnt & Hseq). specialize (Hseq Hlt).
  assert (forall q, tail (ring s) <= q < tail (ring s) + capacity (ring s) -> q <> pos ->
    buffer (ring s') !! idx (ring s') q = buffer (ring s) !! idx (ring s) q) as Hother.
  { intros q Hq Hne. unfold s'. cbn [ring with_caller with_buffer buffer]. change (idx (with_buffer _ _)) with (idx (ring s)).
    apply list_lookup_alter_ne. rewrite Hc in *. apply (idx_differ (ring s) e ltac:(lia) Hm (tail (ring s))); lia. }
  assert (forall q, tail (ring s) <= q < tail (ring s) + capacity (ring s) -> q <> pos ->
    slot_seq (ring s') q = slot_seq (ring s) q) as Hseqo.
  { intros q Hq Hne. unfold slot_seq. by rewrite Hother. }
  split; [| | | | | | | | |]; try done.
  - exists e. unfold s'. cbn [ring with_caller with_buffer capacity mask buffer]. by rewrite length_alter.
  - intros q Hq. destruct (decide (q = pos)) as [->|Hne]; [done|].
    destruct (H5 q Hq) as (sl & Hsl & Hcase). exists sl. by rewrite Hother.
  - intros i pc0 sc0 Hi. unfold s' in Hi. cbn [callers with_caller] in Hi. destruct (decide (i = j)) as [->|Hne].
    + rewrite list_lookup_insert_eq in Hi by (by eapply lookup_lt_Some). by injection Hi as <- <-.
    + rewrite list_lookup_insert_ne in Hi by done. pose proof (H6 i pc0 sc0 Hi) as Hi0.
      apply (caller_ok_frame s); try done. intros q Hq.
      destruct (caller_claimed _ _ _ _ _ Hi0 Hq) as (d0 & Hat0 & Hle0 & _ & Hseq0).
      assert (q <> pos) by (intros ->; by destruct (claim_at_unique _ _ _ _ _ _ _ _ Hat Hat0)).
      change (tail (ring s')) with (tail (ring s)). split; [done|].
      split; intros Hq'; [rewrite Hseqo by (done || lia); by apply Hseq0|by apply Hother].
  - unfold server_ok in *. change (spc s') with (spc s). change (tail (ring s')) with (tail (ring s)).
    pose proof (claim_at_lt _ _ _ _ _ Hat).
    assert (slot_seq (ring s) (tail (ring s)) = Some (tail (ring s) + 1) ->
      slot_seq (ring s') (tail (ring s)) = Some (tail (ring s) + 1)) as Htl.
    { intros Hx. rewrite Hseqo; [done| |]; [pose proof (pow_pos_e e ltac:(lia)); lia|].
      intros <-. rewrite Hseq in Hx. injection Hx. lia. }
    destruct (spc s); [done|naive_solver|]. destruct H7 as (Ha & Hx & Ht). auto.
  - unfold s'. cbn [counts callers with_caller claims]. by rewrite length_insert.
  - intros Ha q Hq. destruct (decide (q = pos)) as [->|Hne]; [done|].
    destruct (H10 Ha q Hq) as [[Hq1 Hq2]|(i & pc0 & sc0 & Hi & Hpc0)].
    + left. change (tail (ring s')) with (tail (ring s)) in *. change (capacity (ring s')) with (capacity (ring s)).
      split; [done|]. rewrite Hseqo; [done| |done]. lia.
    + right. exists i, pc0, sc0. unfold s'. cbn [callers with_caller]. rewrite list_lookup_insert_ne; [done|].
      intros <-. rewrite Hj in Hi. injection Hi as <- <-. congruence.
Qed.

Lemma slot_seq_inv (r : RequestRing T) pos q : slot_seq r pos = Some q -> exists c d, buffer r !! idx r pos = Some (mkSlot q c d).
Proof.
  unfold slot_seq. destruct (buffer r !! idx r pos) as [[q' c d]|]; [|done]. cbn. intros [= <-]. by exists c, d.
Qed.

Lemma step_write_ok s j sc pos d :
  sys_ok s -> callers s !! j = Some (POwned pos d, sc) ->
  sys_ok (with_caller s (push_write (ring s) pos j d) j (PWritten pos d) sc).
Proof.
  intros H Hj. destruct (ok_callers _ H _ _ _ Hj) as [H0 [Hcl Hlt]].
  pose proof Hcl as (Hat & Hle & Hcnt & Hseq). pose proof (Hseq Hlt) as Hs.
  destruct (slot_seq_inv _ _ _ Hs) as (c0 & d0 & Hb).
  set (s' := with_caller s (push_write (ring s) pos j d) j (PWritten pos d) sc).
  assert (buffer (ring s') !! idx (ring s') pos = Some (mkSlot pos j (Some d))) as Hb'.
  { unfold s'. cbn [ring with_caller push_write with_buffer buffer]. change (idx (push_write _ _ _ _)) with (idx (ring s)).
    by rewrite list_lookup_alter_eq, Hb. }
  apply (sys_ok_store s j sc pos d (POwned pos d)); try done; fold (push_write (ring s) pos j d); fold s'.
  - split; [done|]. split; [|done]. split; [done|]. split; [done|]. split; [done|]. intros _.
    unfold slot_seq. by rewrite Hb'.
  - eexists. split; [exact Hb'|]. by left.
  - right. exists j, (PWritten pos d), sc. split; [|done]. unfold s'. cbn [callers with_caller].
    apply list_lookup_insert_eq. by eapply lookup_lt_Some.
Qed.

Lemma head_small s : sys_ok s -> 0 <= tail (ring s) <= head (ring s) /\ head (ring s) < 2 ^ 62 /\
  0 < capacity (ring s) <= 2 ^ 62.
Proof.
  intros [(e & He & Hc & Hm & Hl) Ht [Hh Hp] [_ Hle] _ _ _ _ _ _]. unfold POS_MAX in Hp.
  rewrite Hc. pose proof (Z.pow_le_mono_r 2 e 62). pose proof (Z.pow_pos_nonneg 2 e). lia.
Qed.

Lemma step_publish_ok s j sc pos d :
  sys_ok s -> callers s !! j = Some (PWritten pos d, sc) ->
  sys_ok (with_caller s (push_publish (ring s) pos) j PIdle (u64 (sc + 1))).
Proof.
  intros H Hj. destruct (ok_callers _ H _ _ _ Hj) as [H0 (Hcl & Hlt & Hb)].
  pose proof Hcl as (Hat & Hle & Hcnt & Hseq). pose proof (claim_at_lt _ _ _ _ _ Hat).
  pose proof (count_of_bound j (claims s)). pose proof (head_small s H). destruct (ok_head s H) as [Hh _].
  rewrite (u64_small (sc + 1)) by lia.
  set (s' := with_caller s (push_publish (ring s) pos) j PIdle (sc + 1)).
  assert (buffer (ring s') !! idx (ring s') pos = Some (mkSlot (pos + 1) j (Some d))) as Hb'.
  { unfold s'. cbn [ring with_caller push_publish with_buffer buffer]. change (idx (push_publish _ _)) with (idx (ring s)).
    rewrite list_lookup_alter_eq, Hb. cbn. by rewrite u64_small by lia. }
  apply (sys_ok_store s j sc pos d (PWritten pos d)); try done; fold (push_publish (ring s) pos); fold s'.
  - split; [lia|]. intros _. done.
  - eexists. split; [exact Hb'|]. right. split; [done|]. by exists j, sc, d.
  - left. split; [done|]. unfold slot_seq. by rewrite Hb'.
Qed.

Lemma step_claim_ok s j sc d r pos :
  sys_ok s -> callers s !! j = Some (PStart d, sc) -> push_claim (ring s) = (r, pos) -> pos + 1 < POS_MAX ->
  sys_ok (mkSys r (<[j := (PClaimed pos d, sc)]> (callers s)) (spc s) (counts s)
            (claims s ++ [(j, sc, d)]) (taken s)).
Proof.
  intros H Hj [= <- <-] Hmax. destruct (ok_callers _ H _ _ _ Hj) as [H0 Hsc]. pose proof (head_small s H) as Hsmall.
  pose proof H as [H1 H2 H3 H4 H5 H6 H7 H8 H9 H10].
  set (s' := mkSys _ _ _ _ _ _).
  assert (forall p i t d, claim_at s p i t d -> claim_at s' p i t d) as Hmono.
  { intros p i t d0 [Hp0 Hp]. split; [done|]. cbn. by apply lookup_app_l_Some. }
  destruct H3 as [Hh Hhm]. unfold POS_MAX in *.
  split; subst s'; cbn [ring callers spc counts claims taken buffer head tail mask capacity rx_alive] in *; try done.
  - rewrite u64_small, length_app by lia. cbn [length]. unfold POS_MAX. lia.
  - destruct H4 as [H4 H4']. rewrite take_app_le by lia. split; [done|]. rewrite length_app. lia.
  - intros p Hp. destruct (H5 p Hp) as (sl & Hsl & Hcase). exists sl. split; [done|].
    destruct Hcase as [Hcase|[Hcase (i & t & d0 & Hat & He)]]; [by left|right]. split; [done|].
    exists i, t, d0. split; [by apply Hmono|done].
  - intros i pc0 sc0 Hi. destruct (decide (i = j)) as [->|Hne].
    + rewrite list_lookup_insert_eq in Hi by (by eapply lookup_lt_Some). injection Hi as <- <-.
      split; [done|]. split; [split; [lia|]|].
      { cbn [claims]. rewrite Hh, Nat2Z.id. apply list_lookup_middle. done. }
      cbn [ring tail capacity claims]. split; [lia|].
      split; [rewrite count_of_app, decide_True by done; by rewrite Hsc|].
      intros Hlt. destruct (H5 (head (ring s))) as (sl & Hsl & Hcase); [lia|].
      unfold slot_seq. change (idx (mkRing _ _ _ _ _ _ _)) with (idx (ring s)). cbn [buffer]. rewrite Hsl. cbn. f_equal.
      destruct Hcase as [Hcase|[_ (i & t & d0 & Hat & _)]]; [done|]. apply claim_at_lt in Hat. lia.
    + rewrite list_lookup_insert_ne in Hi by done. pose proof (H6 i pc0 sc0 Hi) as Hi0.
      apply (caller_ok_frame s); try done; cbn [ring tail capacity claims].
      * rewrite count_of_app, decide_False by done. lia.
      * intros p t d0. apply Hmono.
      * intros q Hq. destruct (caller_claimed _ _ _ _ _ Hi0 Hq) as (d0 & Hat0 & Hle0 & _ & Hseq0). done.
  - unfold server_ok in *. cbn [spc ring tail rx_alive]. destruct (spc s) as [| |cid d0]; [done|done|].
    destruct H7 as (Ha & Hq & t & Hat). split; [done|]. split; [done|]. exists t. by apply Hmono.
  - rewrite length_insert. split; [apply H9|]. intros p i t d0 Hp. apply lookup_app_Some in Hp as [Hp|[Hp1 Hp2]].
    + pose proof (lookup_lt_Some _ _ _ Hp). rewrite take_app_le by lia. by apply (proj2 H9 p i t d0).
    + apply list_lookup_singleton_Some in Hp2 as [Hp2 [= <- <- <-]]. split; [by eapply lookup_lt_Some|].
      replace p with (length (claims s)) by lia. by rewrite take_app_length.
  - intros Ha p Hp. rewrite u64_small in Hp by lia. destruct (decide (p = head (ring s))) as [->|Hne].
    + right. exists j, (PClaimed (head (ring s)) d), sc. cbn [callers]. split; [|done].
      apply list_lookup_insert_eq. by eapply lookup_lt_Some.
    + destruct (H10 Ha p) as [Hf|(i & pc0 & sc0 & Hi & Hpc)]; [lia|by left|right].
      exists i, pc0, sc0. cbn [callers]. rewrite list_lookup_insert_ne; [done|].
      intros <-. rewrite Hj in Hi. injection Hi as <- <-. done.
Qed.

(** A step of the server that leaves the ring and the histories alone. *)
Lemma sys_ok_server s pc :
  sys_ok s -> server_ok (mkSys (ring s) (callers s) pc (counts s) (claims s) (taken s)) ->
  sys_ok (mkSys (ring s) (callers s) pc (counts s) (claims s) (taken s)).
Proof. intros [H1 H2 H3 H4 H5 H6 H7 H8 H9 H10] Hs. by split. Qed.

Lemma step_look_ok s :
  sys_ok s -> spc s = SIdle -> rx_alive (ring s) = true -> pop_ready (ring s) = true ->
  sys_ok (mkSys (ring s) (callers s) SReady (counts s) (claims s) (taken s)).
Proof.
  intros H _ Ha Hr. apply sys_ok_server; [done|]. split; [done|]. cbn.
  apply bool_decide_eq_true in Hr. pose proof (head_small s H). by rewrite u64_small in Hr by lia.
Qed.

(** A filled slot holds what was claimed at its position. *)
Lemma filled_slot s pos :
  sys_ok s -> tail (ring s) <= pos < tail (ring s) + capacity (ring s) ->
  slot_seq (ring s) pos = Some (pos + 1) ->
  exists j t d, claim_at s pos j t d /\ buffer (ring s) !! idx (ring s) pos = Some (mkSlot (pos + 1) j (Some d)).
Proof.
  intros H Hp Hs. destruct (ok_slots s H pos Hp) as (sl & Hsl & Hcase). unfold slot_seq in Hs.
  rewrite Hsl in Hs. injection Hs as Hs. destruct Hcase as [Hcase|[_ (j & t & d & Hat & ->)]]; [lia|]. eauto.
Qed.

Lemma step_read_ok s cid d :
  sys_ok s -> spc s = SReady -> pop_read (ring s) = Some (cid, d) ->
  sys_ok (mkSys (ring s) (callers s) (SRead cid d) (counts s) (claims s) (taken s)).
Proof.
  intros H Hpc Hr. pose proof (ok_server s H) as Hs. unfold server_ok in Hs. rewrite Hpc in Hs.
  destruct Hs as [Ha Hs]. pose proof (head_small s H).
  destruct (filled_slot s (tail (ring s)) H ltac:(lia) Hs) as (j & t & d0 & Hat & Hb).
  apply sys_ok_server; [done|]. split; [done|]. split; [done|]. exists t.
  unfold pop_read in Hr. rewrite Hb in Hr. cbn in Hr. by injection Hr as <- <-.
Qed.

Lemma step_free_ok s cid d t :
  sys_ok s -> spc s = SRead cid d -> counts s !! cid = Some t ->
  sys_ok (mkSys (pop_free (ring s)) (callers s) SIdle (<[cid := u64 (t + 1)]> (counts s))
            (claims s) (taken s ++ [(cid, t, d)])).
Proof.
  intros H Hpc Hcnt. pose proof (ok_server s H) as Hs. unfold server_ok in Hs. rewrite Hpc in Hs.
  destruct Hs as (Ha & Hs & t0 & Hat). pose proof (head_small s H) as Hsmall.
  pose proof H as [(e & He & Hc & Hm & Hl) H2 [H3 H3'] [H4 H4'] H5 H6 H7 H8 [H9 H9'] H10].
  pose proof (claim_at_lt _ _ _ _ _ Hat) as Hlt. destruct Hat as [_ Hat]. rewrite H2, Nat2Z.id in Hat.
  assert (t = t0) as <-.
  { rewrite (H8 _ _ Hcnt). destruct (H9' _ _ _ _ Hat) as [_ ->]. by rewrite <-H4. }
  set (s' := mkSys _ _ _ _ _ _).
  assert (tail (ring s') = tail (ring s) + 1) as Ht'.
  { unfold s'. cbn [ring pop_free tail]. apply u64_small. lia. }
  assert (forall q, tail (ring s) < q < tail (ring s) + capacity (ring s) ->
    buffer (ring s') !! idx (ring s') q = buffer (ring s) !! idx (ring s) q) as Hother.
  { intros q Hq. unfold s'. cbn [ring pop_free buffer]. change (idx (pop_free _)) with (idx (ring s)).
    apply list_lookup_alter_ne. rewrite Hc in *. apply (idx_differ (ring s) e ltac:(lia) Hm (tail (ring s))); lia. }
  assert (exists c0 d0, buffer (ring s') !! idx (ring s') (tail (ring s) + capacity (ring s)) =
    Some (mkSlot (tail (ring s) + capacity (ring s)) c0 d0)) as (c0 & d0 & Hfree).
  { destruct (slot_seq_inv _ _ _ Hs) as (c0 & d0 & Hb). exists c0, d0. unfold s'.
    cbn [ring pop_free buffer]. change (idx (pop_free _)) with (idx (ring s)).
    rewrite Hc. rewrite (idx_lap (ring s) e ltac:(lia) Hm).
    rewrite list_lookup_alter_eq, Hb. cbn. by rewrite u64_small by lia. }
  assert (forall q, tail (ring s) < q <= tail (ring s) + capacity (ring s) ->
    (q < tail (ring s) + capacity (ring s) -> slot_seq (ring s) q = Some q) -> slot_seq (ring s') q = Some q) as Hseq.
  { intros q Hq Hold. unfold slot_seq. destruct (decide (q = tail (ring s) + capacity (ring s))) as [->|].
    - by rewrite Hfree.
    - rewrite Hother by lia. apply Hold. lia. }
  split.
  - exists e. unfold s'. cbn [ring pop_free capacity mask buffer]. by rewrite length_alter.
  - rewrite Ht'. unfold s'. cbn [taken]. rewrite length_app. cbn [length]. lia.
  - done.
  - unfold s'. cbn [taken claims]. rewrite length_app. cbn [length]. rewrite Nat.add_1_r.
    rewrite (take_S_r _ _ _ Hat), <-H4. split; [done|lia].
  - intros pos Hp. rewrite Ht' in Hp. change (capacity (ring s')) with (capacity (ring s)) in Hp.
    destruct (decide (pos = tail (ring s) + capacity (ring s))) as [->|Hne].
    + eexists. split; [exact Hfree|]. by left.
    + destruct (H5 pos) as (sl & Hsl & Hcase); [lia|]. exists sl. rewrite Hother by lia. done.
  - intros j pc sc Hj. pose proof (H6 j pc sc Hj) as Hj0. apply (caller_ok_frame s); try done; [lia|].
    intros q Hq. destruct (caller_claimed _ _ _ _ _ Hj0 Hq) as (d1 & Hat1 & Hle1 & _ & Hseq1).
    assert (q <> tail (ring s)) by (intros ->; rewrite Hseq1 in Hs by lia; injection Hs; lia).
    split; [lia|]. split; intros Hq'; [|apply Hother; lia].
    destruct (decide (q < tail (ring s) + capacity (ring s))); apply Hseq; (done || lia).
  - done.
  - unfold s'. cbn [counts taken]. intros j t1 Hj. rewrite count_of_app. pose proof (count_of_bound cid (taken s)).
    pose proof (H8 _ _ Hcnt). destruct (decide (cid = j)) as [->|Hne].
    + rewrite list_lookup_insert_eq in Hj by (by eapply lookup_lt_Some). injection Hj as <-.
      rewrite u64_small by lia. lia.
    + rewrite list_lookup_insert_ne in Hj by done. rewrite (H8 j t1 Hj). lia.
  - unfold s'. cbn [counts callers claims]. by rewrite length_insert.
  - intros _ pos Hp. rewrite Ht' in Hp. change (head (ring s')) with (head (ring s)) in Hp.
    destruct (H10 Ha pos) as [[Hf1 Hf2]|Hf]; [lia| |by right]. left.
    change (capacity (ring s')) with (capacity (ring s)). split; [lia|].
    unfold slot_seq. rewrite Hother by lia. done.
Qed.

Lemma step_drop_ok s :
  sys_ok s -> spc s = SIdle ->
  sys_ok (mkSys (disconnect_rx (ring s)) (callers s) SIdle (counts s) (claims s) (taken s)).
Proof.
  intros [H1 H2 H3 H4 H5 H6 H7 H8 H9 H10] Hpc. split; try done.
  intros j pc sc Hj. apply (caller_ok_frame s); try done; [by apply H6|].
  intros q Hq. destruct (caller_claimed _ _ _ _ _ (H6 _ _ _ Hj) Hq) as (d0 & Hat & Hle & _ & Hseq). done.
Qed.

Lemma fetch_add_step_ok s s' : ring_step s s' -> sys_ok s -> sys_ok s'.
Proof.
  destruct 1; intros Hok.
  - by apply step_start_ok.
  - by eapply step_claim_ok.
  - by apply step_own_ok.
  - by eapply step_give_up_ok.
  - by apply step_write_ok.
  - by eapply step_publish_ok.
  - by apply step_look_ok.
  - by apply step_read_ok.
  - by apply step_free_ok.
  - by apply step_drop_ok.
Qed.

Lemma ring_new_ok n cap senders r :
  2 <= cap <= 2 ^ 62 -> ring_new cap senders = Some r -> sys_ok (sys_init n r).
Proof.
  intros Hcap. unfold ring_new. destruct (is_power_of_two cap) eqn:Hp; [|done]. intros [= <-].
  apply is_power_of_two_spec in Hp as (e & He & ->).
  assert (1 <= e <= 62) as He'.
  { split; [apply Z.nlt_ge; intros ?; assert (e = 0) as -> by lia; lia|].
    apply Z.nlt_ge. intros Hlt. apply (Z.pow_lt_mono_r 2) in Hlt; lia. }
  split; cbn; try done.
  - exists e. rewrite length_fmap, length_seq. done.
  - intros pos Hpos. set (r := mkRing _ _ _ _ _ _ _).
    assert (idx r pos = Z.to_nat pos) as Hi by (rewrite (idx_mod r e) by done; by rewrite Z.mod_small by lia).
    exists (mkSlot pos 0 None). split; [|by left]. cbn. change (idx _) with (idx r). rewrite Hi.
    rewrite list_lookup_fmap, lookup_seq_lt by lia. cbn. do 2 f_equal. lia.
  - intros j pc sc Hj. apply lookup_replicate in Hj as [[= -> ->] _]. by split.
  - intros j t Hj. by apply lookup_replicate in Hj as [-> _].
  - by rewrite !length_replicate.
  - intros _ pos Hpos. lia.
Qed.

Lemma fetch_add_reachable n cap senders r s :
  2 <= cap <= 2 ^ 62 -> ring_new cap senders = Some r -> rtc ring_step (sys_init n r) s -> sys_ok s.
Proof.
  intros Hcap Hnew Hr. refine (rtc_ind_r (fun s => sys_ok s) _ _ _ s Hr).
  - by eapply ring_new_ok.
  - intros s1 s2 _ Hstep Hok. by eapply fetch_add_step_ok.
Qed.

(** The functions of the code are runs of these steps: a push that returns a
    position, and a receive that returns a request. *)
Lemma push_wait_true fuel (r : RequestRing T) pos : push_wait fuel r pos = Some true -> push_ready r pos = true.
Proof. induction fuel as [|fuel IH]; [done|]. cbn. destruct (push_ready r pos); [done|]. by destruct (rx_alive r). Qed.

Lemma try_push_steps fuel s j sc d r' pos :
  callers s !! j = Some (PIdle, sc) -> head (ring s) + 1 < POS_MAX ->
  try_push fuel (ring s) j d = Some (r', Ok pos) ->
  rtc ring_step s (mkSys r' (<[j := (PIdle, u64 (sc + 1))]> (callers s)) (spc s) (counts s)
                     (claims s ++ [(j, sc, d)]) (taken s)).
Proof.
  intros Hj Hmax. unfold try_push. destruct (rx_alive (ring s)) eqn:Ha; [cbn [negb]|done].
  destruct (push_claim (ring s)) as [r p] eqn:Ec. pose proof Ec as [= Er Ep].
  destruct (push_wait fuel r p) as [[]|] eqn:Ew; try done. intros [= <- <-].
  pose proof (lookup_lt_Some _ _ _ Hj) as Hlt.
  assert (forall pc, (<[j := pc]> (callers s)) !! j = Some pc) as Hl by (intros pc; by apply list_lookup_insert_eq).
  eapply rtc_l; [by apply (step_start s j sc d)|]. unfold with_caller. cbn [ring].
  eapply rtc_l; [apply (step_claim _ j sc d r p); cbn [ring callers]; [apply Hl|done|lia]|].
  cbn [callers spc counts claims taken]. rewrite list_insert_insert_eq.
  eapply rtc_l; [apply (step_own _ j sc p d); cbn [ring callers]; [apply Hl|by eapply push_wait_true]|].
  unfold with_caller. cbn [ring callers spc counts claims taken]. rewrite list_insert_insert_eq.
  eapply rtc_l; [apply (step_write _ j sc p d); cbn [callers]; apply Hl|].
  unfold with_caller. cbn [ring callers spc counts claims taken]. rewrite list_insert_insert_eq.
  eapply rtc_l; [apply (step_publish _ j sc p d); cbn [callers]; apply Hl|].
  unfold with_caller. cbn [ring callers spc counts claims taken]. rewrite list_insert_insert_eq.
  apply rtc_refl.
Qed.

Lemma try_recv_steps s sd sd' r' cid t d cs' :
  spc s = SIdle -> rx_alive (ring s) = true ->
  server_try_recv (mkServer (counts s) sd) (ring s) = Some (mkServer cs' sd', r', Some (mkToken (Z.of_nat cid) t, d)) ->
  rtc ring_step s (mkSys r' (callers s) SIdle cs' (claims s) (taken s ++ [(cid, t, d)])).
Proof.
  intros Hpc Ha. unfold server_try_recv, try_pop. destruct (pop_ready (ring s)) eqn:Er; [|done].
  destruct (pop_read (ring s)) as [[c d0]|] eqn:Ed; [|done]. cbn [mbind option_bind].
  destruct (counts s !! c) as [t0|] eqn:Et; cbn [recv_counts]; rewrite Et; [|done]. cbn [mbind option_bind].
  intros [= <- <- <- Hc <- <-]. apply Nat2Z.inj in Hc as ->.
  eapply rtc_l; [by apply step_look|].
  eapply rtc_l; [by apply (step_read _ cid d0)|]. cbn [ring callers counts claims taken].
  eapply rtc_l; [by apply (step_free _ cid d0 t0)|]. apply rtc_refl.
Qed.

(** C26: the shared ring is a linearisable queue for any number of callers.  With two
    slots or more, whatever the interleaving of the callers' and the server's memory
    accesses: the requests the server takes are, in order and each once, those claimed
    by [fetch_add], with the data and caller of each, and the token the server counts
    is the token the caller returns; two callers that write never write the same slot,
    and none writes the slot the server reads; and a server that finds nothing at its
    position has taken every request, or the request's caller is still between its
    claim and its publication. *)
Theorem fetch_add_linearizable n cap senders (r : RequestRing T) s :
  2 <= cap <= 2 ^ 62 -> ring_new cap senders = Some r -> rtc ring_step (sys_init n r) s ->
  (exists rest, claims s = taken s ++ rest) /\
  (forall i j pos pos' d d' sc sc', i <> j ->
     callers s !! i = Some (POwned pos d, sc) -> callers s !! j = Some (POwned pos' d', sc') ->
     idx (ring s) pos <> idx (ring s) pos') /\
  (forall i pos d sc, spc s <> SIdle -> callers s !! i = Some (POwned pos d, sc) ->
     idx (ring s) pos <> idx (ring s) (tail (ring s))) /\
  (rx_alive (ring s) = true -> pop_ready (ring s) = false ->
     claims s = taken s \/
     exists j pc sc, callers s !! j = Some (pc, sc) /\ pc_pos pc = Some (tail (ring s))).
Proof.
  intros Hcap Hnew Hr. pose proof (fetch_add_reachable _ _ _ _ _ Hcap Hnew Hr) as H.
  pose proof H as [(e & He & Hc & Hm & Hl) H2 [H3 H3'] [H4 H4'] H5 H6 H7 H8 H9 H10].
  pose proof (head_small s H) as Hsmall.
  split; [|split; [|split]].
  - exists (drop (length (taken s)) (claims s)). rewrite H4 at 1. by rewrite take_drop.
  - intros i j pos pos' d d' sc sc' Hne Hi Hj.
    destruct (H6 _ _ _ Hi) as [_ [(Hat & Hle & _) Hlt]]. destruct (H6 _ _ _ Hj) as [_ [(Hat' & Hle' & _) Hlt']].
    rewrite Hc in *. apply (idx_differ (ring s) e ltac:(lia) Hm (tail (ring s))); try lia.
    intros ->. by destruct (claim_at_unique _ _ _ _ _ _ _ _ Hat Hat').
  - intros i pos d sc Hpc Hi. destruct (H6 _ _ _ Hi) as [_ [(Hat & Hle & _ & Hseq) Hlt]].
    assert (slot_seq (ring s) (tail (ring s)) = Some (tail (ring s) + 1)) as Hs.
    { unfold server_ok in H7. destruct (spc s); [done|apply H7|apply H7]. }
    rewrite Hc in *. apply (idx_differ (ring s) e ltac:(lia) Hm (tail (ring s))); try lia.
    intros ->. rewrite Hseq in Hs by lia. injection Hs. lia.
  - intros Ha Hnr. destruct (decide (tail (ring s) = head (ring s))) as [Heq|Hne].
    + left. rewrite H4, take_ge by lia. done.
    + right. destruct (H10 Ha (tail (ring s))) as [[_ Hs]|Ho]; [lia| |done].
      apply bool_decide_eq_false in Hnr. rewrite u64_small in Hnr by lia. done.
Qed.

(** A push into a ring whose slot is not free does not fail: it waits as long as the
    server lives, and returns neither [Ok] nor [Full]. *)
Lemma busy_ring_spins fuel (r : RequestRing T) j d :
  rx_alive r = true -> push_ready (push_claim r).1 (head r) = false -> try_push fuel r j d = None.
Proof.
  intros Ha Hr. unfold try_push. rewrite Ha. cbn [negb]. destruct (push_claim r) as [r' p] eqn:Ec.
  pose proof Ec as [= Er <-]. cbn [fst] in Hr.
  assert (rx_alive r' = true) as Ha' by (by rewrite <-Er).
  assert (push_wait fuel r' (head r) = None) as ->; [|done].
  induction fuel as [|fuel IH]; [done|]. cbn [push_wait]. by rewrite Hr, Ha'.
Qed.

End Concurrent.

(** ** Response rings are FastForward rings *)

Lemma response_ring_push {T} (r : ResponseRing T) e token d :
  0 <= e -> resp_mask r = 2 ^ e - 1 -> length (resp_buffer r) = Z.to_nat (2 ^ e) -> resp_rx_alive r = true ->
  resp_try_push r token d =
    match Fastforward.try_send (Fastforward.mkTx (write_pos r)) (resp_buffer r) (token, d) with
    | None => None
    | Some (tx, b, Ok _) => Some (mkResp b (Fastforward.tx_send_count tx) (read_pos r) (resp_mask r) true, true)
    | Some (_, _, Err _) => Some (r, false)
    end.
Proof.
  intros He Hm Hl Ha. unfold resp_try_push, Fastforward.try_send. rewrite Ha. cbn [negb Fastforward.tx_send_count].
  pose proof (Z.pow_pos_nonneg 2 e ltac:(lia) He).
  rewrite Fastforward.slot_index_val by (intros E; rewrite E in Hl; cbn in Hl; lia).
  rewrite Hm, land_mask, Hl, Z2Nat.id by lia.
  destruct (resp_buffer r !! _) as [[v dd]|]; [|done]. cbn [Fastforward.valid]. by destruct v.
Qed.

Lemma response_ring_pop {T} (r : ResponseRing T) e :
  0 <= e -> resp_mask r = 2 ^ e - 1 -> length (resp_buffer r) = Z.to_nat (2 ^ e) ->
  resp_try_pop r =
    match Fastforward.try_recv (Fastforward.mkRx (read_pos r)) (resp_buffer r) with
    | None => None
    | Some (_, _, None) => Some (r, None)
    | Some (rx, b, Some (_, d)) =>
        Some (mkResp b (write_pos r) (Fastforward.rx_recv_count rx) (resp_mask r) (resp_rx_alive r), Some d)
    end.
Proof.
  intros He Hm Hl. unfold resp_try_pop, Fastforward.try_recv. cbn [Fastforward.rx_recv_count].
  pose proof (Z.pow_pos_nonneg 2 e ltac:(lia) He).
  rewrite Fastforward.slot_index_val by (intros E; rewrite E in Hl; cbn in Hl; lia).
  rewrite Hm, land_mask, Hl, Z2Nat.id by lia.
  destruct (resp_buffer r !! _) as [[v dd]|]; [|done]. cbn [Fastforward.valid Fastforward.data].
  destruct v; [|done]. cbn [negb]. by destruct dd.
Qed.

(** A reply never waits while the ring has room: its response is appended to those
    that wait. *)
Lemma reply_returns {T} (r : ResponseRing T) e q token d fuel :
  0 <= e -> resp_mask r = 2 ^ e - 1 -> length (resp_buffer r) = Z.to_nat (2 ^ e) -> resp_rx_alive r = true ->
  Fastforward.holds (resp_buffer r) (read_pos r) q -> write_pos r = read_pos r + Z.of_nat (length q) ->
  write_pos r + 1 < 2 ^ 64 -> Z.of_nat (length q) < 2 ^ e ->
  exists b, reply (S fuel) r token d = Some (mkResp b (write_pos r + 1) (read_pos r) (resp_mask r) true) /\
    Fastforward.holds b (read_pos r) (q ++ [(token, d)]).
Proof.
  intros He Hm Hl Ha Hh Hw Hlt Hroom. cbn [reply]. rewrite (response_ring_push r e) by done.
  pose proof (Fastforward.try_send_holds _ _ _ (token, d) Hh ltac:(lia)) as Hs. cbn zeta in Hs.
  rewrite decide_True in Hs by lia. destruct Hs as (b & E & Hb & _). rewrite Hw, E.
  exists b. by split.
Qed.

(** ** Concrete runs *)

(** Two callers and a server on a ring of two slots. *)
Definition two_callers : option (RequestRing Z * list (option (nat * Z * Z))) :=
  r ← ring_new 2 2;
  '(r, _) ← try_push 1 r 1 21;
  '(r, _) ← try_push 1 r 0 20;
  '(r, a) ← try_pop r;
  '(r, _) ← try_push 1 r 1 22;
  '(r, b) ← try_pop r;
  '(r, c) ← try_pop r;
  '(r, d) ← try_pop r;
  Some (r, [a; b; c; d]).

Example two_callers_run :
  snd <$> two_callers = Some [Some (1%nat, 21, 0); Some (0%nat, 20, 1); Some (1%nat, 22, 2); None].
Proof. reflexivity. Qed.

(** A ring of one slot is accepted by [new] and broken: the filled slot's sequence
    number is the one the next position waits for, so the second push overwrites the
    first request, and then the server finds neither: its position waits for a sequence
    number that has passed. *)
Definition one_slot_run : option (list Z * list (option (nat * Z * Z))) :=
  r ← ring_new 1 1;
  '(r, p) ← try_push 1 r 0 20;
  '(r, q) ← try_push 1 r 0 21;
  '(r, a) ← try_pop r;
  '(r, b) ← try_pop r;
  match p, q with Ok p, Ok q => Some ([p; q], [a; b]) | _, _ => None end.

Lemma one_slot_ring_loses_requests : one_slot_run = Some ([0; 1], [None; None]).
Proof. reflexivity. Qed.

(** The theorem on a run of two callers, one of them still writing. *)
Lemma fetch_add_linearizable_witness :
  exists r s, ring_new 2 2 = Some r /\ rtc ring_step (sys_init 2 r) s /\
    claims s = [(1%nat, 0, 21); (0%nat, 0, 20)] /\ taken s = [(1%nat, 0, 21)] /\
    (exists rest, claims s = taken s ++ rest).
Proof.
  destruct (ring_new (T := Z) 2 2) as [r|] eqn:Er; [|discriminate].
  pose proof Er as Er'. vm_compute in Er'. injection Er' as Er'.
  assert (exists s, rtc ring_step (sys_init 2 r) s /\
    claims s = [(1%nat, 0, 21); (0%nat, 0, 20)] /\ taken s = [(1%nat, 0, 21)]) as (s & Hr & Hc & Ht).
  { eexists. split; [|subst r; split].
    - subst r. etrans; [eapply (try_push_steps 1 _ 1 0 21); [vm_compute; reflexivity..]|].
      eapply rtc_l; [eapply (step_start _ 0 0 20); [vm_compute; reflexivity..]|].
      eapply rtc_l; [eapply (step_claim _ 0 0 20); [vm_compute; reflexivity..]|].
      eapply rtc_l; [eapply (step_own _ 0 0); [vm_compute; reflexivity..]|].
      etrans; [eapply (try_recv_steps _ false false _ 1); [vm_compute; reflexivity..]|].
      apply rtc_refl.
    - reflexivity.
    - reflexivity. }
  exists r, s. split; [done|]. split; [done|]. split; [done|]. split; [done|].
  apply (fetch_add_linearizable 2 2 2 r s ltac:(lia) Er Hr).
Defined.

End FetchAdd.
