(* ===== verification/Bbq.v ===== *)
(** * Bbq: the block-based request ring of [mempc/src/bbq.rs]

    The ring is cut into blocks.  A caller claims a position of the block at the head
    with [fetch_add], writes, and waits for its turn to move the block's watermark;
    when the block has no position left it moves the head.  The server reads up to the
    watermark, and gives a block that it has read to the next lap.  A push and a
    receive are functions of their accesses to shared memory, one access a step, and
    [bbq_step] interleaves those of any number of callers and the server; memory is
    sequentially consistent. *)
From S2P Require Import Prelude Onesided Mpsc Fastforward FetchAdd.

Module Bbq.

Notation ReplyToken := Onesided.ReplyToken.
Notation mkToken := Onesided.mkToken.

(** [CallError]. *)
Inductive CallError (T : Type) : Type :=
| Disconnected (d : T) | Full (d : T) | InflightExceeded (d : T).
Arguments Disconnected {T} d.
Arguments Full {T} d.
Arguments InflightExceeded {T} d.

Definition DEFAULT_BLOCK_COUNT : Z := 4.

(** ** The request ring *)

Record BbqBlock : Type := mkBlock { allocated : Z; committed : Z; version : Z }.

Section Ring.
Context {T : Type}.

(** [struct BbqRequestRing]; an entry is [None] while its memory is uninitialised. *)
Record BbqRequestRing : Type := mkRing {
  entries : list (option (nat * T));
  blocks : list BbqBlock;
  phead : Z;
  ctail : Z;
  block_size : Z;
  block_mask : Z;
  block_count_shift : Z;
  block_size_shift : Z;
  sender_count : Z;
  rx_alive : bool;
}.
Implicit Types (r : BbqRequestRing).

(** [BbqRequestRing::new]; [None] is a failed assertion. *)
Definition ring_new (ring_depth block_count num_senders : Z) : option BbqRequestRing :=
  if is_power_of_two ring_depth && is_power_of_two block_count && (block_count <=? ring_depth)
     && (ring_depth mod block_count =? 0)
  then
    let bs := u32 (ring_depth / block_count) in
    Some (mkRing (replicate (Z.to_nat ring_depth) None)
            (replicate (Z.to_nat block_count) (mkBlock 0 0 0)) 0 0 bs (block_count - 1)
            (Z.log2 block_count) (Z.log2 bs) num_senders true)
  else None.

Definition block_idx r (pos : Z) : nat := Z.to_nat (Z.land pos (block_mask r)).
Definition entry_idx r (i : nat) (pos : Z) : nat :=
  Z.to_nat (Z.shiftl (Z.of_nat i) (block_size_shift r) + pos).
(** The lap of a block index of the head or the tail. *)
Definition lap r (pos : Z) : Z := u32 (Z.shiftr pos (block_count_shift r)).

Definition with_entries r (es : list (option (nat * T))) : BbqRequestRing :=
  mkRing es (blocks r) (phead r) (ctail r) (block_size r) (block_mask r) (block_count_shift r)
    (block_size_shift r) (sender_count r) (rx_alive r).
Definition with_blocks r (bs : list BbqBlock) : BbqRequestRing :=
  mkRing (entries r) bs (phead r) (ctail r) (block_size r) (block_mask r) (block_count_shift r)
    (block_size_shift r) (sender_count r) (rx_alive r).
Definition with_phead r (p : Z) : BbqRequestRing :=
  mkRing (entries r) (blocks r) p (ctail r) (block_size r) (block_mask r) (block_count_shift r)
    (block_size_shift r) (sender_count r) (rx_alive r).
Definition with_ctail r (t : Z) : BbqRequestRing :=
  mkRing (entries r) (blocks r) (phead r) t (block_size r) (block_mask r) (block_count_shift r)
    (block_size_shift r) (sender_count r) (rx_alive r).

Definition set_allocated (a : Z) (b : BbqBlock) : BbqBlock := mkBlock a (committed b) (version b).
Definition set_committed (c : Z) (b : BbqBlock) : BbqBlock := mkBlock (allocated b) c (version b).
Definition set_version (v : Z) (b : BbqBlock) : BbqBlock := mkBlock (allocated b) (committed b) v.
Definition on_block r (i : nat) (f : BbqBlock -> BbqBlock) : BbqRequestRing :=
  with_blocks r (alter f i (blocks r)).

Definition disconnect_tx r : BbqRequestRing :=
  mkRing (entries r) (blocks r) (phead r) (ctail r) (block_size r) (block_mask r)
    (block_count_shift r) (block_size_shift r) (u64 (sender_count r - 1)) (rx_alive r).
Definition disconnect_rx r : BbqRequestRing :=
  mkRing (entries r) (blocks r) (phead r) (ctail r) (block_size r) (block_mask r)
    (block_count_shift r) (block_size_shift r) (sender_count r) false.

(** *** Pushing *)

(** Where a push is: at the first test of [rx_alive]; at the loads of the head, of the
    version and, when that is another, of [rx_alive] again; at the claim; at the
    exchange of the head; at the write; at the loads of the watermark and of [rx_alive]
    while it waits, the latter only until the server is gone; at the store. *)
Inductive Push : Type :=
| PStart (d : T)
| PHead (d : T)
| PVersion (head : Z) (d : T)
| PRefused (d : T)
| PClaim (head : Z) (d : T)
| PAdvance (head : Z) (d : T)
| PWrite (i : nat) (pos : Z) (d : T)
| PWait (i : nat) (pos : Z) (d : T) (gone : bool)
| PAlive (i : nat) (pos : Z) (d : T)
| PStore (i : nat) (pos : Z) (d : T)
| PDone (res : result unit (CallError T)).

(** One access of [try_push]; [None] is an index out of range. *)
Definition push_step (caller_id : nat) r (p : Push) : option (BbqRequestRing * Push) :=
  match p with
  | PStart d => Some (r, if rx_alive r then PHead d else PDone (Err (Disconnected d)))
  | PHead d => Some (r, PVersion (phead r) d)
  | PVersion h d =>
      b ← blocks r !! block_idx r h;
      Some (r, if version b =? lap r h then PClaim h d else PRefused d)
  | PRefused d => Some (r, PDone (Err (if rx_alive r then Full d else Disconnected d)))
  | PClaim h d =>
      let i := block_idx r h in
      b ← blocks r !! i;
      let pos := allocated b in
      Some (on_block r i (set_allocated (u32 (pos + 1))),
            if block_size r <=? pos then PAdvance h d else PWrite i pos d)
  | PAdvance h d =>
      Some (if phead r =? h then with_phead r (u64 (h + 1)) else r, PHead d)
  | PWrite i pos d =>
      _ ← entries r !! entry_idx r i pos;
      Some (with_entries r (<[entry_idx r i pos := Some (caller_id, d)]> (entries r)), PWait i pos d false)
  | PWait i pos d gone =>
      b ← blocks r !! i;
      Some (r, if committed b =? pos then PStore i pos d
               else if gone then PWait i pos d true else PAlive i pos d)
  | PAlive i pos d => Some (r, PWait i pos d (negb (rx_alive r)))
  | PStore i pos d => Some (on_block r i (set_committed (u32 (pos + 1))), PDone (Ok tt))
  | PDone res => Some (r, PDone res)
  end.

(** A push that runs alone; [None] is also a push that is still waiting. *)
Fixpoint push_run (fuel : nat) (caller_id : nat) r (p : Push) : option (BbqRequestRing * result unit (CallError T)) :=
  match fuel, p with
  | _, PDone res => Some (r, res)
  | O, _ => None
  | S fuel, _ => '(r, p) ← push_step caller_id r p; push_run fuel caller_id r p
  end.

Definition try_push (fuel : nat) r (caller_id : nat) (d : T) : option (BbqRequestRing * result unit (CallError T)) :=
  push_run fuel caller_id r (PStart d).

(** *** Receiving *)

(** [struct BbqServer], less the rings. *)
Record BbqServer : Type := mkServer {
  recv_counts : list Z;
  consumer_entry_idx : Z;
  cached_committed : Z;
  server_disconnected : bool;
}.

(** Where the server is: at the start of [try_advance_block], which [poll] repeats
    and [try_recv] calls once; at the load of [allocated]; at the four stores that
    give a block to the next lap; at the load of the watermark; at the read. *)
Inductive Op : Type := Poll | Recv.
Inductive Serve : Type :=
| SIdle
| SAdvance (op : Op)
| SAllocated (op : Op)
| SResetAllocated (op : Op)
| SResetCommitted (op : Op)
| SVersion (op : Op)
| STail (op : Op)
| SCommitted (op : Op)
| SRead.

(** What the server returns. *)
Inductive Answer : Type := Polled (n : Z) | Received (m : option (ReplyToken * T)).

Definition set_cached (c : Z) (s : BbqServer) : BbqServer :=
  mkServer (recv_counts s) (consumer_entry_idx s) c (server_disconnected s).

Definition after_advance (op : Op) (s : BbqServer) : Serve :=
  match op with
  | Poll => SCommitted Poll
  | Recv => if cached_committed s <=? consumer_entry_idx s then SCommitted Recv else SRead
  end.

(** One access of [poll] or [try_recv]; the tail is the server's own. *)
Definition serve_step r (s : BbqServer) (p : Serve)
    : option (BbqRequestRing * BbqServer * Serve * option Answer) :=
  let i := block_idx r (ctail r) in
  match p with
  | SIdle => Some (r, s, SIdle, None)
  | SAdvance op =>
      Some (r, s, if consumer_entry_idx s <? block_size r then after_advance op s else SAllocated op, None)
  | SAllocated op =>
      b ← blocks r !! i;
      Some (r, s, if allocated b <? block_size r then after_advance op s else SResetAllocated op, None)
  | SResetAllocated op => Some (on_block r i (set_allocated 0), s, SResetCommitted op, None)
  | SResetCommitted op => Some (on_block r i (set_committed 0), s, SVersion op, None)
  | SVersion op => Some (on_block r i (set_version (u32 (lap r (ctail r) + 1))), s, STail op, None)
  | STail op =>
      let s := mkServer (recv_counts s) 0 0 (server_disconnected s) in
      Some (with_ctail r (u64 (ctail r + 1)), s,
            match op with Poll => SAdvance Poll | Recv => after_advance Recv s end, None)
  | SCommitted Poll =>
      b ← blocks r !! i;
      Some (r, set_cached (committed b) s, SIdle,
            Some (Polled (saturating_sub (committed b) (consumer_entry_idx s))))
  | SCommitted Recv =>
      b ← blocks r !! i;
      let s := set_cached (committed b) s in
      if committed b <=? consumer_entry_idx s then Some (r, s, SIdle, Some (Received None))
      else Some (r, s, SRead, None)
  | SRead =>
      e ← entries r !! entry_idx r i (consumer_entry_idx s);
      '(caller, d) ← e;
      t ← recv_counts s !! caller;
      Some (r, mkServer (<[caller := u64 (t + 1)]> (recv_counts s)) (u32 (consumer_entry_idx s + 1))
                 (cached_committed s) (server_disconnected s),
            SIdle, Some (Received (Some (mkToken (Z.of_nat caller) t, d))))
  end.

(** [poll] and [try_recv] run alone. *)
Fixpoint serve_run (fuel : nat) r (s : BbqServer) (p : Serve)
    : option (BbqRequestRing * BbqServer * Answer) :=
  match fuel with
  | O => None
  | S fuel =>
      '(r, s, p, ans) ← serve_step r s p;
      match ans with
      | Some a => Some (r, s, a)
      | None => serve_run fuel r s p
      end
  end.

Definition server_poll (fuel : nat) r (s : BbqServer) := serve_run fuel r s (SAdvance Poll).
Definition server_try_recv (fuel : nat) r (s : BbqServer) := serve_run fuel r s (SAdvance Recv).

End Ring.
Arguments BbqRequestRing : clear implicits.
Arguments Push : clear implicits.
Arguments Answer : clear implicits.

(** ** Response rings, callers and server *)

Section Channel.
Context {Req Resp : Type}.

(** The response ring is the one of [fetch_add.rs], line by line. *)
Definition ResponseRing : Type := FetchAdd.ResponseRing Resp.
Definition resp_new : Z -> option ResponseRing := FetchAdd.resp_new.
Definition resp_try_push : ResponseRing -> Z -> Resp -> option (ResponseRing * bool) := FetchAdd.resp_try_push.
Definition resp_try_pop : ResponseRing -> option (ResponseRing * option (Z * Resp)) := FetchAdd.resp_try_pop.

Record BbqCaller : Type := mkCaller {
  caller_id : nat;
  send_count : Z;
  inflight : Z;
  max_inflight : Z;
  caller_disconnected : bool;
}.

Definition call (fuel : nat) (c : BbqCaller) (r : BbqRequestRing Req) (req : Req)
    : option (BbqCaller * BbqRequestRing Req * result Z (CallError Req)) :=
  if max_inflight c <=? inflight c then Some (c, r, Err (InflightExceeded req))
  else
    '(r, res) ← try_push fuel r (caller_id c) req;
    Some (match res with
          | Err e => (c, r, Err e)
          | Ok _ => (mkCaller (caller_id c) (u64 (send_count c + 1)) (u64 (inflight c + 1))
                       (max_inflight c) (caller_disconnected c), r, Ok (send_count c))
          end).

Definition try_recv_response (c : BbqCaller) (rr : ResponseRing)
    : option (BbqCaller * ResponseRing * option (Z * Resp)) :=
  '(rr, result) ← resp_try_pop rr;
  Some (match result with
        | Some _ => mkCaller (caller_id c) (send_count c) (saturating_sub (inflight c) 1) (max_inflight c)
                      (caller_disconnected c)
        | None => c
        end, rr, result).

Definition drop_caller (c : BbqCaller) (r : BbqRequestRing Req) (rr : ResponseRing)
    : BbqCaller * BbqRequestRing Req * ResponseRing :=
  if caller_disconnected c then (c, r, rr)
  else (mkCaller (caller_id c) (send_count c) (inflight c) (max_inflight c) true,
        disconnect_tx r, FetchAdd.resp_disconnect_rx rr).

Definition drop_server (s : BbqServer) (r : BbqRequestRing Req) : BbqServer * BbqRequestRing Req :=
  if server_disconnected s then (s, r)
  else (mkServer (recv_counts s) (consumer_entry_idx s) (cached_committed s) true, disconnect_rx r).

(** The loop of [reply], run alone: [None] is still spinning. *)
Fixpoint reply (fuel : nat) (rr : ResponseRing) (token : Z) (resp : Resp) : option ResponseRing :=
  match fuel with
  | O => None
  | S fuel =>
      match resp_try_push rr token resp with
      | None => None
      | Some (rr, true) => Some rr
      | Some (rr, false) => reply fuel rr token resp
      end
  end.

Definition create (max_callers : nat) (ring_depth max_inflight : Z)
    : option (list BbqCaller * BbqServer * BbqRequestRing Req * list ResponseRing) :=
  if is_power_of_two ring_depth && negb (bool_decide (max_callers = O))
     && (DEFAULT_BLOCK_COUNT <=? ring_depth) && (ring_depth mod DEFAULT_BLOCK_COUNT =? 0)
  then
    r ← ring_new ring_depth DEFAULT_BLOCK_COUNT (Z.of_nat max_callers);
    rr ← resp_new ring_depth;
    Some ((fun id => mkCaller id 0 0 max_inflight false) <$> List.seq 0 max_callers,
          mkServer (replicate max_callers 0) 0 0 false, r, replicate max_callers rr)
  else None.

(** A reply to a caller that is gone never returns. *)
Lemma reply_dropped_spins fuel (rr : ResponseRing) token resp :
  FetchAdd.resp_rx_alive rr = false -> reply fuel rr token resp = None.
Proof.
  intros H. induction fuel as [|fuel IH]; [done|]. cbn. unfold resp_try_push, FetchAdd.resp_try_push.
  by rewrite H.
Qed.

End Channel.

(** ** The ring under concurrency *)

Section Concurrent.
Context {T : Type}.

(** [accepted] is what pushes have committed, [taken] what [try_recv] has returned;
    neither is read by a step. *)
Record Sys : Type := mkSys {
  ring : BbqRequestRing T;
  server : BbqServer;
  serve : Serve;
  callers : list (option (Push T));
  accepted : list (nat * T);
  taken : list (nat * T);
}.
Implicit Types (s : Sys) (r : BbqRequestRing T).

Definition committing (j : nat) (p : Push T) : list (nat * T) :=
  match p with PStore _ _ d => [(j, d)] | _ => [] end.
Definition receiving (a : option (Answer T)) : list (nat * T) :=
  match a with
  | Some (Received (Some (t, d))) => [(Z.to_nat (Onesided.tk_caller_id t), d)]
  | _ => []
  end.

(** A claim counts in 32 bits. *)
Definition claimable r (p : Push T) : Prop :=
  match p with
  | PClaim h _ => forall b, blocks r !! block_idx r h = Some b -> allocated b + 1 < 2 ^ 32
  | _ => True
  end.

Inductive bbq_step : Sys -> Sys -> Prop :=
| step_call s j d :
    callers s !! j = Some None ->
    bbq_step s (mkSys (ring s) (server s) (serve s) (<[j := Some (PStart d)]> (callers s))
                  (accepted s) (taken s))
| step_push s j p r p' :
    callers s !! j = Some (Some p) -> claimable (ring s) p -> push_step j (ring s) p = Some (r, p') ->
    bbq_step s (mkSys r (server s) (serve s) (<[j := Some p']> (callers s))
                  (accepted s ++ committing j p) (taken s))
| step_return s j res :
    callers s !! j = Some (Some (PDone res)) ->
    bbq_step s (mkSys (ring s) (server s) (serve s) (<[j := None]> (callers s)) (accepted s) (taken s))
| step_start s op :
    serve s = SIdle ->
    bbq_step s (mkSys (ring s) (server s) (SAdvance op) (callers s) (accepted s) (taken s))
| step_serve s r v p a :
    serve_step (ring s) (server s) (serve s) = Some (r, v, p, a) ->
    bbq_step s (mkSys r v p (callers s) (accepted s) (taken s ++ receiving a))
| step_drop s :
    serve s = SIdle ->
    bbq_step s (mkSys (disconnect_rx (ring s)) (server s) SIdle (callers s) (accepted s) (taken s)).

Definition sys_init (n : nat) r : Sys :=
  mkSys r (mkServer (replicate n 0) 0 0 false) SIdle (replicate n None) [] [].

(** *** What is in the ring *)

(** The block at the tail. *)
Definition tail_idx s : nat := block_idx (ring s) (ctail (ring s)).

(** While a block is given to the next lap, the server's index belongs to the last. *)
Definition late (p : Serve) : bool :=
  match p with SResetCommitted _ | SVersion _ | STail _ => true | _ => false end.

(** The positions of block [i] from [lo] up to [hi] are committed and not read;
    between the first two stores the watermark is of the last lap. *)
Definition lo s (i : nat) : Z :=
  if decide (i = tail_idx s) then (if late (serve s) then 0 else consumer_entry_idx (server s)) else 0.
Definition hi s (i : nat) (b : BbqBlock) : Z :=
  match serve s with
  | SResetCommitted _ => if decide (i = tail_idx s) then 0 else committed b
  | _ => committed b
  end.

Definition entry r (i : nat) (pos : Z) : option (nat * T) := mjoin (entries r !! entry_idx r i pos).
Definition held r (i : nat) (l h : Z) : list (nat * T) := omap (entry r i) (seqZ l (h - l)).
Definition unreads s : list (list (nat * T)) :=
  imap (fun i b => held (ring s) i (lo s i) (hi s i b)) (blocks (ring s)).
Definition unread s : list (nat * T) := concat (unreads s).

(** The position a push has claimed. *)
Definition claim (p : Push T) : option (nat * Z) :=
  match p with
  | PWrite i pos _ | PWait i pos _ _ | PAlive i pos _ | PStore i pos _ => Some (i, pos)
  | _ => None
  end.
Definition written (p : Push T) : option T :=
  match p with PWait _ _ d _ | PAlive _ _ d | PStore _ _ d => Some d | _ => None end.

(** *** Its invariant *)

Record geometry r : Prop := mkGeometry {
  g_shift : 0 <= block_size_shift r < 32;
  g_size : block_size r = 2 ^ block_size_shift r;
  g_blocks : exists k, 0 <= k /\ block_mask r = 2 ^ k - 1 /\ Z.of_nat (length (blocks r)) = 2 ^ k;
  g_entries : Z.of_nat (length (entries r)) = Z.of_nat (length (blocks r)) * block_size r;
}.

(** The server's index and its copy of the watermark. *)
Definition server_ok s : Prop :=
  let v := server s in
  let n := block_size (ring s) in
  match serve s with
  | SResetCommitted _ | SVersion _ | STail _ => consumer_entry_idx v = n
  | p =>
      (forall b, blocks (ring s) !! tail_idx s = Some b ->
         0 <= consumer_entry_idx v <= committed b /\ cached_committed v <= committed b) /\
      match p with
      | SAllocated _ | SResetAllocated _ => consumer_entry_idx v = n
      | SRead => consumer_entry_idx v < cached_committed v
      | _ => True
      end
  end.

Record block_ok s (i : nat) (b : BbqBlock) : Prop := mkBlockOk {
  b_alloc : 0 <= allocated b < 2 ^ 32;
  b_hi : 0 <= hi s i b <= block_size (ring s) /\ hi s i b <= allocated b;
  b_last : forall op, serve s = SResetCommitted op -> i = tail_idx s -> committed b = block_size (ring s);
  b_held : forall pos, lo s i <= pos < hi s i b ->
    exists j d, entry (ring s) i pos = Some (j, d) /\ (j < length (callers s))%nat;
}.

Record claim_ok s (j : nat) (p : Push T) (i : nat) (pos : Z) : Prop := mkClaimOk {
  c_block : exists b, blocks (ring s) !! i = Some b /\ hi s i b <= pos < block_size (ring s) /\
    pos < allocated b /\ (forall d, p = PStore i pos d -> committed b = pos);
  c_data : forall d, written p = Some d -> entry (ring s) i pos = Some (j, d);
}.

Record inv s : Prop := mkInv {
  i_geometry : geometry (ring s);
  i_counts : length (recv_counts (server s)) = length (callers s);
  i_server : server_ok s;
  i_blocks : forall i b, blocks (ring s) !! i = Some b -> block_ok s i b;
  i_claims : forall j p i pos, callers s !! j = Some (Some p) -> claim p = Some (i, pos) -> claim_ok s j p i pos;
  i_unique : forall j j' p p' c, callers s !! j = Some (Some p) -> callers s !! j' = Some (Some p') ->
    claim p = Some c -> claim p' = Some c -> j = j';
  i_all : accepted s ≡ₚ taken s ++ unread s;
}.

(** *** Geometry *)

Lemma g_pos r : geometry r -> 0 < block_size r < 2 ^ 32.
Proof.
  intros [H1 H2 _ _]. rewrite H2. split; [apply Z.pow_pos_nonneg; lia|].
  apply Z.pow_lt_mono_r; lia.
Qed.

Lemma block_idx_lt r pos : geometry r -> (block_idx r pos < length (blocks r))%nat.
Proof.
  intros [_ _ (k & Hk & Hm & Hl) _]. unfold block_idx. rewrite Hm, land_mask by lia.
  pose proof (Z.mod_pos_bound pos (2 ^ k) ltac:(apply Z.pow_pos_nonneg; lia)). lia.
Qed.

Lemma entry_idx_val r i pos :
  geometry r -> Z.of_nat (entry_idx r i pos) = Z.max 0 (Z.of_nat i * block_size r + pos).
Proof.
  intros [H1 H2 _ _]. unfold entry_idx. rewrite Z.shiftl_mul_pow2, H2 by lia. lia.
Qed.

Lemma entry_idx_lt r i pos :
  geometry r -> (i < length (blocks r))%nat -> 0 <= pos < block_size r ->
  (entry_idx r i pos < length (entries r))%nat.
Proof.
  intros G Hi Hp. pose proof (entry_idx_val r i pos G). destruct G as [_ _ _ G]. nia.
Qed.

Lemma entry_idx_inj r i i' pos pos' :
  geometry r -> 0 <= pos < block_size r -> 0 <= pos' < block_size r ->
  entry_idx r i pos = entry_idx r i' pos' -> i = i' /\ pos = pos'.
Proof.
  intros G Hp Hp' E. pose proof (entry_idx_val r i pos G). pose proof (entry_idx_val r i' pos' G).
  assert (i = i') as -> by nia. split; [done|]. nia.
Qed.

(** *** Contents *)

Lemma held_ext r r' i l h :
  (forall pos, l <= pos < h -> entry r' i pos = entry r i pos) -> held r' i l h = held r i l h.
Proof.
  intros H. unfold held. apply list_omap_ext. apply Forall_Forall2_diag.
  apply Forall_forall. intros pos Hp. apply elem_of_seqZ in Hp. apply H. lia.
Qed.

Lemma held_snoc r i l h x :
  l <= h -> entry r i h = Some x -> held r i l (h + 1) = held r i l h ++ [x].
Proof.
  intros Hl He. unfold held. replace (h + 1 - l) with ((h - l) + 1) by lia.
  rewrite seqZ_app, omap_app by lia. replace (l + (h - l)) with h by lia.
  rewrite (seqZ_cons h 1) by lia. rewrite (seqZ_nil (Z.succ h)) by (unfold Z.pred; lia). cbn. by rewrite He.
Qed.

Lemma held_cons r i l h x :
  l < h -> entry r i l = Some x -> held r i l h = x :: held r i (l + 1) h.
Proof.
  intros Hl He. unfold held. rewrite seqZ_cons by lia. cbn. rewrite He.
  unfold Z.succ, Z.pred. do 2 f_equal. f_equal. lia.
Qed.

Lemma held_nil r i l h : h <= l -> held r i l h = [].
Proof. intros H. unfold held. rewrite seqZ_nil; [done|lia]. Qed.

Lemma unreads_lookup s i :
  unreads s !! i = (fun b => held (ring s) i (lo s i) (hi s i b)) <$> blocks (ring s) !! i.
Proof. unfold unreads. by rewrite list_lookup_imap. Qed.

(** States that hold the same, but for block [i]. *)
Lemma unreads_but s s' i l :
  length (blocks (ring s')) = length (blocks (ring s)) ->
  (forall i' b b', i' <> i -> blocks (ring s) !! i' = Some b -> blocks (ring s') !! i' = Some b' ->
     held (ring s') i' (lo s' i') (hi s' i' b') = held (ring s) i' (lo s i') (hi s i' b)) ->
  (forall b', blocks (ring s') !! i = Some b' -> held (ring s') i (lo s' i) (hi s' i b') = l) ->
  unreads s' = <[i := l]> (unreads s).
Proof.
  intros Hlen Hne Hi. apply list_eq. intros i'. rewrite unreads_lookup.
  destruct (decide (i' = i)) as [->|Hd].
  - destruct (blocks (ring s') !! i) as [b'|] eqn:E; cbn.
    + rewrite list_lookup_insert_eq; [by rewrite (Hi b')|].
      unfold unreads. rewrite length_imap, <-Hlen. by eapply lookup_lt_Some.
    + symmetry. apply lookup_ge_None. rewrite length_insert. unfold unreads.
      rewrite length_imap, <-Hlen. by apply lookup_ge_None.
  - rewrite list_lookup_insert_ne, unreads_lookup by done.
    destruct (blocks (ring s') !! i') as [b'|] eqn:E', (blocks (ring s) !! i') as [b|] eqn:E; cbn.
    + f_equal. by apply Hne.
    + apply lookup_ge_None in E. apply lookup_lt_Some in E'. lia.
    + apply lookup_ge_None in E'. apply lookup_lt_Some in E. lia.
    + done.
Qed.

Lemma unreads_same s s' :
  length (blocks (ring s')) = length (blocks (ring s)) ->
  (forall i b b', blocks (ring s) !! i = Some b -> blocks (ring s') !! i = Some b' ->
     held (ring s') i (lo s' i) (hi s' i b') = held (ring s) i (lo s i) (hi s i b)) ->
  unread s' = unread s.
Proof.
  intros Hlen H. unfold unread. f_equal.
  destruct (blocks (ring s) !! 0%nat) as [b|] eqn:E.
  - rewrite (unreads_but s s' 0 (held (ring s) 0 (lo s 0) (hi s 0 b))); auto.
    apply list_insert_id. by rewrite unreads_lookup, E.
  - apply lookup_ge_None in E. unfold unreads.
    destruct (blocks (ring s)), (blocks (ring s')); cbn in *; by try lia.
Qed.

Lemma concat_snoc {A} (ls : list (list A)) i l x :
  ls !! i = Some l -> concat (<[i := l ++ [x]]> ls) ≡ₚ x :: concat ls.
Proof.
  intros H. rewrite <-(take_drop_middle ls i l H) at 2. rewrite insert_take_drop by (by eapply lookup_lt_Some).
  rewrite !concat_app. cbn. rewrite <-!app_assoc. cbn. rewrite !(app_assoc (concat _) l).
  symmetry. apply Permutation_middle.
Qed.

Lemma concat_tail {A} (ls : list (list A)) i l x :
  ls !! i = Some (x :: l) -> concat ls ≡ₚ x :: concat (<[i := l]> ls).
Proof.
  intros H. rewrite <-(take_drop_middle ls i (x :: l) H) at 1.
  rewrite insert_take_drop by (by eapply lookup_lt_Some).
  rewrite !concat_app. cbn. symmetry. apply Permutation_middle.
Qed.

(** *** Preservation *)

Definition set_callers s (cs : list (option (Push T))) : Sys :=
  mkSys (ring s) (server s) (serve s) cs (accepted s) (taken s).

(** A caller that moves on without a new claim. *)
Lemma inv_caller s j o o' :
  inv s -> callers s !! j = Some o ->
  (forall p' c, o' = Some p' -> claim p' = Some c ->
     exists p, o = Some p /\ claim p = Some c /\ (forall d, written p' = Some d -> written p = Some d) /\
       (forall i pos d, p' = PStore i pos d -> forall b, blocks (ring s) !! i = Some b -> committed b = pos)) ->
  inv (set_callers s (<[j := o']> (callers s))).
Proof.
  intros [G C V B L U A] Ho Hp. pose proof (lookup_lt_Some _ _ _ Ho) as Hj.
  split; try done; cbn [ring server serve callers accepted taken set_callers].
  - by rewrite length_insert.
  - intros i b Hb. destruct (B i b Hb) as [B1 B2 B3 B4]. split; try done.
    intros pos Hpos. destruct (B4 pos Hpos) as (j0 & d & E & Hj0). exists j0, d. split; [done|].
    cbn. by rewrite length_insert.
  - intros j0 p i pos Hl Hc. destruct (decide (j0 = j)) as [->|Hne].
    + rewrite list_lookup_insert_eq in Hl by done. injection Hl as ->.
      destruct (Hp p (i, pos) eq_refl Hc) as (p0 & -> & Hc0 & Hw & Hs).
      destruct (L j p0 i pos Ho Hc0) as [(b & L1 & L2 & L3 & _) L4]. split.
      * exists b. split; [exact L1|]. split; [exact L2|]. split; [exact L3|].
        intros d ->. by eapply Hs.
      * intros d Hd. by apply L4, Hw.
    + rewrite list_lookup_insert_ne in Hl by done. destruct (L j0 p i pos Hl Hc) as [L1 L2].
      split; [exact L1|exact L2].
  - assert (forall j0 p c, <[j := o']> (callers s) !! j0 = Some (Some p) -> claim p = Some c ->
      exists p0, callers s !! j0 = Some (Some p0) /\ claim p0 = Some c) as Hcl.
    { intros j0 p c Hl Hc. destruct (decide (j0 = j)) as [->|Hne].
      - rewrite list_lookup_insert_eq in Hl by done. injection Hl as ->.
        destruct (Hp p c eq_refl Hc) as (p0 & -> & Hc0 & _). by exists p0.
      - rewrite list_lookup_insert_ne in Hl by done. by exists p. }
    intros j1 j2 p1 p2 c H1 H2 Hc1 Hc2.
    destruct (Hcl _ _ _ H1 Hc1) as (p1' & H1' & Hc1'). destruct (Hcl _ _ _ H2 Hc2) as (p2' & H2' & Hc2').
    by eapply U.
Qed.

(** Of the ring, only entries, blocks, tail and geometry matter. *)
Lemma inv_head s r :
  inv s -> entries r = entries (ring s) -> blocks r = blocks (ring s) -> ctail r = ctail (ring s) ->
  block_size r = block_size (ring s) -> block_mask r = block_mask (ring s) ->
  block_size_shift r = block_size_shift (ring s) ->
  inv (mkSys r (server s) (serve s) (callers s) (accepted s) (taken s)).
Proof.
  destruct s as [[es bs ph ct sz mk cs ss n al] v p cl a t], r as [es' bs' ph' ct' sz' mk' cs' ss' n' al'].
  cbn. intros [G C V B L U A] -> -> -> -> -> ->. split; try done.
  - by destruct G.
  - intros i b Hb. by destruct (B i b Hb).
  - intros j p0 i pos Hl Hc. by destruct (L j p0 i pos Hl Hc).
Qed.

Lemma on_block_lookup r i f i' :
  blocks (on_block r i f) !! i' = if decide (i' = i) then f <$> blocks r !! i else blocks r !! i'.
Proof.
  unfold on_block. cbn. case_decide as H.
  - subst. apply list_lookup_alter_eq.
  - by apply list_lookup_alter_ne.
Qed.

Lemma on_block_geometry r i f : geometry r -> geometry (on_block r i f).
Proof.
  intros [G1 G2 G3 G4]. split; try done; cbn.
  - by rewrite length_alter.
  - by rewrite length_alter.
Qed.

(** The positions of a block's lap that are claimed or committed. *)
Lemma inv_claim s j h d b :
  let i := block_idx (ring s) h in
  let pos := allocated b in
  inv s -> callers s !! j = Some (Some (PClaim h d)) -> blocks (ring s) !! i = Some b -> pos + 1 < 2 ^ 32 ->
  inv (mkSys (on_block (ring s) i (set_allocated (u32 (pos + 1)))) (server s) (serve s)
         (<[j := Some (if block_size (ring s) <=? pos then PAdvance h d else PWrite i pos d)]> (callers s))
         (accepted s) (taken s)).
Proof.
  intros i pos [G C V B L U A] Hj Hb Hlt. pose proof (lookup_lt_Some _ _ _ Hj) as Hjl.
  destruct (B i b Hb) as [B1 B2 B3 B4]. rewrite u32_small by (subst pos; lia).
  set (s' := mkSys _ _ _ _ _ _).
  assert (forall i' b', blocks (ring s') !! i' = Some b' ->
    exists b0, blocks (ring s) !! i' = Some b0 /\ committed b' = committed b0 /\
      allocated b' = (if decide (i' = i) then pos + 1 else allocated b0)) as Hbl.
  { intros i' b' H. cbn [ring s'] in H. rewrite on_block_lookup in H. case_decide as Hd.
    - subst i'. rewrite Hb in H. injection H as <-. exists b. done.
    - by exists b'. }
  split; try done.
  - by apply on_block_geometry.
  - cbn. by rewrite length_insert.
  - unfold server_ok in *. cbn [serve server ring s']. destruct (serve s); try done;
      destruct V as [V1 V2]; (split; [|done]); intros b' H';
      destruct (Hbl _ _ H') as (b0 & H0 & -> & _); by apply V1.
  - intros i' b' H'. destruct (Hbl _ _ H') as (b0 & H0 & E1 & E2).
    destruct (B i' b0 H0) as [D1 D2 D3 D4].
    assert (hi s' i' b' = hi s i' b0) as Eh by (unfold hi; cbn; by rewrite E1).
    split; rewrite ?Eh, ?E1; try done.
    + rewrite E2. case_decide; [subst pos|]; lia.
    + rewrite E2. case_decide; [subst i'; simplify_eq|]; (split; [apply D2|]); [subst pos; lia|apply D2].
    + intros p0 Hp0. destruct (D4 p0 Hp0) as (j0 & d0 & E0 & Hj0). exists j0, d0. split; [exact E0|].
      cbn. by rewrite length_insert.
  - intros j0 p0 i0 pos0 Hl Hc. cbn [callers s'] in Hl.
    destruct (decide (j0 = j)) as [->|Hne].
    + rewrite list_lookup_insert_eq in Hl by done. destruct (block_size (ring s) <=? pos) eqn:E; [by simplify_eq|].
      injection Hl as <-. injection Hc as <- <-. guards. split; [|done].
      exists (set_allocated (pos + 1) b). cbn [ring s']. rewrite on_block_lookup, decide_True, Hb by done.
      split; [done|]. split; [|split; [cbn; lia|done]].
      change (hi s i b <= pos < block_size (ring s)). subst pos. lia.
    + rewrite list_lookup_insert_ne in Hl by done.
      destruct (L j0 p0 i0 pos0 Hl Hc) as [(b0 & L1 & L2 & L3 & L4) L5]. split; [|exact L5].
      destruct (decide (i0 = i)) as [->|Hi].
      * exists (set_allocated (pos + 1) b0). cbn [ring s']. rewrite on_block_lookup, decide_True, L1 by done.
        split; [done|]. split; [exact L2|]. split; [|done]. cbn. simplify_eq. subst pos. lia.
      * exists b0. cbn [ring s']. rewrite on_block_lookup, decide_False by done.
        split; [done|]. split; [exact L2|]. split; [exact L3|done].
  - assert (forall j0 p0, j0 <> j -> callers s !! j0 = Some (Some p0) -> claim p0 <> Some (i, pos)) as Hfresh.
    { intros j0 p0 Hne Hl Hc. destruct (L j0 p0 i pos Hl Hc) as [(b0 & L1 & _ & L3 & _) _].
      simplify_eq. subst pos. lia. }
    intros j1 j2 p1 p2 c H1 H2 Hc1 Hc2. cbn [callers s'] in H1, H2.
    assert (forall p0, Some (Some (if block_size (ring s) <=? pos then PAdvance h d else PWrite i pos d)) =
      Some (Some p0) -> claim p0 = Some c -> c = (i, pos)) as Hown.
    { intros p0 [= <-] Hc. by destruct (_ <=? _); simplify_eq/=. }
    destruct (decide (j1 = j)) as [->|N1], (decide (j2 = j)) as [->|N2]; [done| | |].
    + rewrite list_lookup_insert_eq in H1 by done. rewrite list_lookup_insert_ne in H2 by done.
      pose proof (Hown _ H1 Hc1) as ->. by destruct (Hfresh j2 p2 N2 H2).
    + rewrite list_lookup_insert_ne in H1 by done. rewrite list_lookup_insert_eq in H2 by done.
      pose proof (Hown _ H2 Hc2) as ->. by destruct (Hfresh j1 p1 N1 H1).
    + rewrite list_lookup_insert_ne in H1, H2 by done. by eapply U.
  - cbn [accepted taken s']. rewrite (unreads_same s s'); [exact A|cbn; by rewrite length_alter|].
    intros i' b0 b' H0 H'. destruct (Hbl _ _ H') as (b1 & H1 & E1 & _). simplify_eq.
    unfold hi. cbn [serve s']. rewrite E1. reflexivity.
Qed.

Lemma lo_nonneg s i : inv s -> 0 <= lo s i.
Proof.
  intros [G _ V _ _ _ _]. unfold lo. case_decide; [|done]. subst.
  pose proof (block_idx_lt (ring s) (ctail (ring s)) G) as Hlt. fold (tail_idx s) in Hlt.
  apply lookup_lt_is_Some in Hlt as [b Hb]. unfold server_ok in V.
  destruct (serve s); cbn [late]; try done; destruct V as [V _]; by apply V in Hb as [[? _] _].
Qed.

Lemma lo_le_hi s i b : inv s -> blocks (ring s) !! i = Some b -> lo s i <= hi s i b.
Proof.
  intros [G _ V B _ _ _] Hb. destruct (B i b Hb) as [_ [[Hh _] _] _ _]. unfold lo. case_decide as Hi; [|done].
  subst. destruct (late (serve s)) eqn:El; [done|]. unfold server_ok, hi in *.
  destruct (serve s); try done; destruct V as [V _]; by apply V in Hb as [[_ ?] _].
Qed.

Lemma inv_write s j i pos d :
  inv s -> callers s !! j = Some (Some (PWrite i pos d)) ->
  inv (mkSys (with_entries (ring s) (<[entry_idx (ring s) i pos := Some (j, d)]> (entries (ring s))))
         (server s) (serve s) (<[j := Some (PWait i pos d false)]> (callers s)) (accepted s) (taken s)).
Proof.
  intros I Hj. pose proof I as [G C V B L U A]. pose proof (lookup_lt_Some _ _ _ Hj) as Hjl.
  destruct (L j _ i pos Hj eq_refl) as [(b & L1 & L2 & L3 & _) _]. set (s' := mkSys _ _ _ _ _ _).
  destruct (B i b L1) as [_ [Hh _] _ _]. pose proof (lookup_lt_Some _ _ _ L1) as Hi.
  assert (forall i' pos', 0 <= pos' < block_size (ring s) -> (i', pos') <> (i, pos) ->
    entry (ring s') i' pos' = entry (ring s) i' pos') as Hne.
  { intros i' pos' Hp Hd. unfold entry. cbn. f_equal. apply list_lookup_insert_ne.
    change (entry_idx (ring s) i pos <> entry_idx (ring s) i' pos'). intros E.
    apply entry_idx_inj in E as [-> ->]; try done; lia. }
  assert (entry (ring s') i pos = Some (j, d)) as Heq.
  { unfold entry. cbn. change (entry_idx (with_entries _ _)) with (entry_idx (ring s)).
    rewrite list_lookup_insert_eq; [done|]. apply entry_idx_lt; try done; lia. }
  assert (forall i' b' pos', blocks (ring s) !! i' = Some b' -> lo s i' <= pos' < hi s i' b' ->
    entry (ring s') i' pos' = entry (ring s) i' pos') as Hkept.
  { intros i' b' pos' Hb' Hp. pose proof (lo_nonneg s i' I). destruct (B i' b' Hb') as [_ [? _] _ _].
    apply Hne; [lia|]. intros [= -> ->]. simplify_eq. lia. }
  split; try done.
  - destruct G as [G1 G2 G3 G4]. split; try done. cbn. by rewrite length_insert.
  - cbn. by rewrite length_insert.
  - intros i' b' Hb'. destruct (B i' b' Hb') as [D1 D2 D3 D4]. split; try done.
    intros pos' Hp. destruct (D4 pos' Hp) as (j0 & d0 & E0 & Hj0). exists j0, d0. split.
    + rewrite <-E0. by eapply Hkept.
    + cbn. by rewrite length_insert.
  - intros j0 p0 i0 pos0 Hl Hc. cbn [callers s'] in Hl. destruct (decide (j0 = j)) as [->|Hd].
    + rewrite list_lookup_insert_eq in Hl by done. injection Hl as <-. injection Hc as <- <-.
      split; [by exists b|]. by intros d0 [= <-].
    + rewrite list_lookup_insert_ne in Hl by done.
      destruct (L j0 p0 i0 pos0 Hl Hc) as [(b0 & M1 & M2 & M3 & M4) M5]. split; [by exists b0|].
      intros d0 Hd0. rewrite Hne; [by apply M5| |].
      * destruct (B i0 b0 M1) as [_ [? _] _ _]. lia.
      * intros [= -> ->]. apply Hd. by eapply (U j0 j).
  - intros j1 j2 p1 p2 c H1 H2 Hc1 Hc2. cbn [callers s'] in H1, H2.
    assert (forall j0 p0, <[j := Some (PWait i pos d false)]> (callers s) !! j0 = Some (Some p0) ->
      claim p0 = Some c -> exists p, callers s !! j0 = Some (Some p) /\ claim p = Some c) as Hcl.
    { intros j0 p0 Hl Hc. destruct (decide (j0 = j)) as [->|Hd].
      - rewrite list_lookup_insert_eq in Hl by done. injection Hl as <-. by exists (PWrite i pos d).
      - rewrite list_lookup_insert_ne in Hl by done. by exists p0. }
    destruct (Hcl _ _ H1 Hc1) as (q1 & ? & ?). destruct (Hcl _ _ H2 Hc2) as (q2 & ? & ?). by eapply U.
  - cbn [accepted taken s']. rewrite (unreads_same s s'); [exact A|done|].
    intros i' b1 b2 H1 H2. cbn [ring blocks s' with_entries] in H2. simplify_eq.
    change (held (ring s') i' (lo s i') (hi s i' b1) = held (ring s) i' (lo s i') (hi s i' b1)).
    apply held_ext. intros pos' Hp. by eapply Hkept.
Qed.

Lemma inv_store s j i pos d :
  inv s -> callers s !! j = Some (Some (PStore i pos d)) ->
  inv (mkSys (on_block (ring s) i (set_committed (u32 (pos + 1)))) (server s) (serve s)
         (<[j := Some (PDone (Ok tt))]> (callers s)) (accepted s ++ [(j, d)]) (taken s)).
Proof.
  intros I Hj. pose proof I as [G C V B L U A]. pose proof (lookup_lt_Some _ _ _ Hj) as Hjl.
  destruct (L j _ i pos Hj eq_refl) as [(b & L1 & L2 & L3 & L4) L5].
  specialize (L4 d eq_refl). specialize (L5 d eq_refl).
  destruct (B i b L1) as [B1 [Hh Hh'] B3 B4]. pose proof (g_pos _ G) as Hg.
  rewrite u32_small by lia.
  assert (forall op, serve s = SResetCommitted op -> i <> tail_idx s) as Hnr.
  { intros op Hop ->. specialize (B3 op Hop eq_refl). lia. }
  assert (hi s i b = pos) as Ehi.
  { unfold hi. destruct (serve s) eqn:E; try done. rewrite decide_False by (by eapply Hnr). done. }
  set (s' := mkSys _ _ _ _ _ _).
  assert (forall i' b', blocks (ring s') !! i' = Some b' ->
    exists b0, blocks (ring s) !! i' = Some b0 /\ allocated b' = allocated b0 /\
      committed b' = (if decide (i' = i) then pos + 1 else committed b0) /\
      hi s' i' b' = (if decide (i' = i) then pos + 1 else hi s i' b0)) as Hbl.
  { intros i' b' H. cbn [ring s'] in H. rewrite on_block_lookup in H. case_decide as Hd.
    - subst i'. rewrite L1 in H. injection H as <-. exists b. split_and!; try done.
      unfold hi. cbn. destruct (serve s) eqn:E; try done.
      by rewrite (decide_False (P := i = _)) by (by eapply Hnr).
    - by exists b'. }
  split; try done.
  - by apply on_block_geometry.
  - cbn. by rewrite length_insert.
  - unfold server_ok in *. cbn [serve server ring s']. destruct (serve s); try done;
      destruct V as [V1 V2]; (split; [|done]); intros b' H';
      destruct (Hbl _ _ H') as (b0 & H0 & _ & -> & _); specialize (V1 b0 H0); case_decide as Hd;
      try done; change (tail_idx s' = i) in Hd; change (tail_idx s') with (tail_idx s) in *; subst i;
      simplify_eq; lia.
  - intros i' b' H'. destruct (Hbl _ _ H') as (b0 & H0 & E1 & E2 & E3).
    destruct (B i' b0 H0) as [D1 D2 D3 D4].
    split; rewrite ?E3, ?E1, ?E2; try done.
    + case_decide; [subst i'; simplify_eq; cbn; lia|done].
    + intros op Hop Ht. case_decide as Hd; [|by eapply D3]. subst i'. by destruct (Hnr op Hop).
    + intros pos' Hp. change (entry (ring s') i' pos') with (entry (ring s) i' pos').
      change (lo s' i') with (lo s i') in Hp. cbn [callers s']. rewrite length_insert.
      case_decide as Hd; [|by apply D4]. subst i'. destruct (decide (pos' = pos)) as [->|Hne]; [by exists j, d|].
      apply B4. lia.
  - intros j0 p0 i0 pos0 Hl Hc. cbn [callers s'] in Hl. destruct (decide (j0 = j)) as [->|Hd].
    + rewrite list_lookup_insert_eq in Hl by done. by injection Hl as <-.
    + rewrite list_lookup_insert_ne in Hl by done.
      destruct (L j0 p0 i0 pos0 Hl Hc) as [(b0 & M1 & M2 & M3 & M4) M5]. split; [|exact M5].
      assert ((i0, pos0) <> (i, pos)) as Hne by (intros [= -> ->]; apply Hd; by eapply (U j0 j)).
      destruct (blocks (ring s') !! i0) as [b'|] eqn:H'.
      2:{ exfalso. cbn [ring s'] in H'. rewrite on_block_lookup in H'. case_decide; [subst i0; by rewrite M1 in H'|].
          by rewrite M1 in H'. }
      destruct (Hbl _ _ H') as (b1 & H1 & E1 & E2 & E3). simplify_eq. exists b'. split; [done|].
      rewrite E3, E2, E1. case_decide as Hi0; [subst i0|done]. simplify_eq.
      split; [split; [|exact (proj2 M2)]|split; [done|]].
      * assert (pos0 <> committed b) by congruence. lia.
      * intros d0 ->. specialize (M4 d0 eq_refl). congruence.
  - intros j1 j2 p1 p2 c H1 H2 Hc1 Hc2. cbn [callers s'] in H1, H2.
    assert (forall j0 p0, <[j := Some (PDone (Ok tt))]> (callers s) !! j0 = Some (Some p0) ->
      claim p0 = Some c -> callers s !! j0 = Some (Some p0)) as Hcl.
    { intros j0 p0 Hl Hc. destruct (decide (j0 = j)) as [->|Hd].
      - rewrite list_lookup_insert_eq in Hl by done. by injection Hl as <-.
      - by rewrite list_lookup_insert_ne in Hl by done. }
    eauto.
  - cbn [accepted taken s']. rewrite A. unfold unread.
    rewrite (unreads_but s s' i (held (ring s) i (lo s i) pos ++ [(j, d)])).
    + rewrite concat_snoc by (by rewrite unreads_lookup, L1; cbn; rewrite Ehi).
      by rewrite <-app_assoc, <-Permutation_cons_append.
    + cbn. by rewrite length_alter.
    + intros i' b1 b2 Hd H1 H2. destruct (Hbl _ _ H2) as (b3 & H3 & _ & _ & ->). simplify_eq.
      by rewrite decide_False.
    + intros b' H'. destruct (Hbl _ _ H') as (b3 & H3 & _ & _ & ->). rewrite decide_True by done.
      change (held (ring s) i (lo s i) (pos + 1) = held (ring s) i (lo s i) pos ++ [(j, d)]).
      apply held_snoc; [|done]. rewrite <-Ehi. by apply lo_le_hi.
Qed.

(** A step of the server that reads no entry: a block keeps what it holds, or is empty
    before and after and has nothing claimed. *)
Record moved s s' (i : nat) (b b' : BbqBlock) : Prop := mkMoved {
  m_alloc : 0 <= allocated b' < 2 ^ 32;
  m_hi : 0 <= hi s' i b' <= block_size (ring s) /\ hi s' i b' <= allocated b';
  m_last : forall op, serve s' = SResetCommitted op -> i = tail_idx s' -> committed b' = block_size (ring s);
  m_case :
    (lo s' i = lo s i /\ hi s' i b' = hi s i b /\ allocated b' = allocated b /\
     forall pos, pos < block_size (ring s) -> committed b = pos -> committed b' = pos) \/
    (lo s i = hi s i b /\ hi s i b = block_size (ring s) /\ lo s' i = hi s' i b');
}.

Lemma inv_move s r v p :
  let s' := mkSys r v p (callers s) (accepted s) (taken s) in
  inv s -> geometry r -> entries r = entries (ring s) -> block_size r = block_size (ring s) ->
  block_size_shift r = block_size_shift (ring s) -> length (blocks r) = length (blocks (ring s)) ->
  length (recv_counts v) = length (recv_counts (server s)) -> server_ok s' ->
  (forall i b b', blocks (ring s) !! i = Some b -> blocks r !! i = Some b' -> moved s s' i b b') ->
  inv s'.
Proof.
  intros s' [G C V B L U A] Gr He Hs Hsh Hl Hc Hv Hm.
  assert (forall i pos, entry r i pos = entry (ring s) i pos) as Hen.
  { intros i pos. unfold entry, entry_idx. by rewrite He, Hsh. }
  assert (forall i b', blocks r !! i = Some b' -> exists b, blocks (ring s) !! i = Some b) as Hold.
  { intros i b' Hb. apply lookup_lt_is_Some. rewrite <-Hl. by eapply lookup_lt_Some. }
  split; try done.
  - cbn. by rewrite Hc.
  - intros i b' Hb'. destruct (Hold i b' Hb') as [b Hb]. destruct (Hm i b b' Hb Hb') as [M1 M2 M3 M4].
    destruct (B i b Hb) as [_ _ _ B4]. split; cbn [ring s']; rewrite ?Hs; try done.
    intros pos Hp. rewrite Hen. destruct M4 as [(E1 & E2 & _)|(_ & _ & E)]; [|lia].
    apply B4. by rewrite <-E1, <-E2.
  - intros j q i pos Hj Hq. destruct (L j q i pos Hj Hq) as [(b & L1 & L2 & L3 & L4) L5].
    destruct (blocks r !! i) as [b'|] eqn:Hb'.
    2:{ apply lookup_ge_None in Hb'. apply lookup_lt_Some in L1. lia. }
    destruct (Hm i b b' L1 Hb') as [_ _ _ [(E1 & E2 & E3 & E4)|(_ & E & _)]]; [|lia].
    split; [|intros d Hd; cbn; rewrite Hen; by apply L5]. exists b'. cbn [ring s']. rewrite Hs, E2, E3.
    split_and!; try done; try lia. intros d Hd. apply E4; [lia|]. by eapply L4.
  - cbn [accepted taken s']. rewrite (unreads_same s s'); [exact A|done|].
    intros i b b' Hb Hb'. rewrite (held_ext (ring s) (ring s')) by (intros; apply Hen).
    destruct (Hm i b b' Hb Hb') as [_ _ _ [(-> & -> & _)|(E1 & _ & E2)]]; [done|].
    rewrite !held_nil; [done|lia|lia].
Qed.

(** A step that changes nothing but where the server is. *)
Lemma inv_pc s v p :
  let s' := mkSys (ring s) v p (callers s) (accepted s) (taken s) in
  inv s -> length (recv_counts v) = length (recv_counts (server s)) ->
  consumer_entry_idx v = consumer_entry_idx (server s) ->
  late (serve s) = false -> late p = false -> server_ok s' -> inv s'.
Proof.
  intros s' I Hc Hi Hl Hl' Hv.
  assert (forall i b, lo s' i = lo s i /\ hi s' i b = hi s i b) as Hsame.
  { intros i b. unfold lo, hi, s'. cbn [serve ring server]. rewrite Hl, Hl', Hi.
    split; [done|]. by destruct (serve s), p. }
  apply inv_move; try done; [by destruct I|].
  intros i b b' Hb Hb'. simplify_eq. destruct (Hsame i b) as [E1 E2].
  destruct I as [_ _ _ B _ _ _]. destruct (B i b Hb) as [B1 B2 B3 _]. fold s'. split.
  - done.
  - by rewrite E2.
  - intros op Hop. cbn in Hop. by rewrite Hop in Hl'.
  - left. by rewrite E1, E2.
Qed.

Lemma tail_block s : inv s -> exists b, blocks (ring s) !! tail_idx s = Some b.
Proof. intros [G _ _ _ _ _ _]. apply lookup_lt_is_Some. by apply block_idx_lt. Qed.

(** The server has read the whole block at the tail. *)
Lemma tail_read s b :
  inv s -> late (serve s) = false -> consumer_entry_idx (server s) = block_size (ring s) ->
  blocks (ring s) !! tail_idx s = Some b ->
  committed b = block_size (ring s) /\ hi s (tail_idx s) b = block_size (ring s) /\
  lo s (tail_idx s) = block_size (ring s) /\ block_size (ring s) <= allocated b.
Proof.
  intros [G _ V B _ _ _] Hl Hi Hb. destruct (B _ b Hb) as [_ [[_ B1] B2] _ _].
  assert (hi s (tail_idx s) b = committed b) as Eh by (unfold hi; by destruct (serve s)).
  assert (consumer_entry_idx (server s) <= committed b) as Hc.
  { unfold server_ok in V. destruct (serve s); try done; destruct V as [V _]; by apply V in Hb as [[_ ?] _]. }
  unfold lo. rewrite decide_True, Hl by done. rewrite Eh in *. split_and!; lia.
Qed.

Lemma inv_reset_allocated s op :
  inv s -> serve s = SResetAllocated op ->
  inv (mkSys (on_block (ring s) (tail_idx s) (set_allocated 0)) (server s) (SResetCommitted op)
         (callers s) (accepted s) (taken s)).
Proof.
  intros I Hp. pose proof I as [G _ V B _ _ _]. pose proof (g_pos _ G) as Hg.
  unfold server_ok in V. rewrite Hp in V. destruct V as [V Hi].
  destruct (tail_block s I) as [b Hb]. destruct (tail_read s b I) as (E1 & E2 & E3 & E4); [by rewrite Hp|done|done|].
  apply inv_move; try done; [by apply on_block_geometry|cbn; by rewrite length_alter|].
  intros i b0 b' H0 H'. rewrite on_block_lookup in H'. set (s' := mkSys _ _ _ _ _ _).
  assert (tail_idx s' = tail_idx s) as Et by done. destruct (B i b0 H0) as [B1 B2 B3 B4].
  case_decide as Hd.
  - subst i. rewrite Hb in H'. injection H' as <-. assert (b0 = b) as -> by congruence.
    assert (hi s' (tail_idx s) (set_allocated 0 b) = 0) as Eh by (unfold hi; cbn [serve s']; by rewrite Et, decide_True).
    assert (lo s' (tail_idx s) = 0) as El by (unfold lo; by rewrite Et, decide_True).
    split; [cbn; lia|rewrite Eh; cbn; lia|by intros|right; rewrite Eh, El; lia].
  - assert (b' = b0) as -> by congruence. assert (hi s' i b0 = hi s i b0) as Eh.
    { unfold hi. cbn [serve s']. rewrite Hp, Et, decide_False by done. done. }
    assert (lo s' i = lo s i) as El by (unfold lo; rewrite Et, !(decide_False (P := i = _)) by done; done).
    split; [done|by rewrite Eh| |left; by rewrite Eh, El]. intros op0 _ Hi0. by destruct Hd.
Qed.

Lemma inv_reset_committed s op :
  inv s -> serve s = SResetCommitted op ->
  inv (mkSys (on_block (ring s) (tail_idx s) (set_committed 0)) (server s) (SVersion op)
         (callers s) (accepted s) (taken s)).
Proof.
  intros I Hp. pose proof I as [G _ V B _ _ _]. pose proof (g_pos _ G) as Hg.
  unfold server_ok in V. rewrite Hp in V.
  apply inv_move; try done; [by apply on_block_geometry|cbn; by rewrite length_alter|].
  intros i b b' H0 H'. rewrite on_block_lookup in H'. set (s' := mkSys _ _ _ _ _ _).
  destruct (B i b H0) as [B1 B2 B3 B4]. specialize (B3 op Hp).
  assert (lo s' i = lo s i) as El by (unfold lo; by rewrite Hp).
  assert (hi s' i b' = hi s i b /\ allocated b' = allocated b /\
    forall pos, pos < block_size (ring s) -> committed b = pos -> committed b' = pos) as (Eh & Ea & Ec).
  { unfold hi. cbn [serve s']. rewrite Hp. destruct (decide (i = tail_idx s)) as [->|Hd].
    - rewrite H0 in H'. injection H' as <-. split_and!; try done.
      intros pos Hpos Hc. specialize (B3 eq_refl). lia.
    - assert (b' = b) as -> by congruence. done. }
  split; [by rewrite Ea|by rewrite Eh, Ea|done|left; by rewrite El, Eh, Ea].
Qed.

Lemma inv_version s op :
  inv s -> serve s = SVersion op ->
  inv (mkSys (on_block (ring s) (tail_idx s) (set_version (u32 (lap (ring s) (ctail (ring s)) + 1)))) (server s)
         (STail op) (callers s) (accepted s) (taken s)).
Proof.
  intros I Hp. pose proof I as [G _ V B _ _ _]. unfold server_ok in V. rewrite Hp in V.
  apply inv_move; try done; [by apply on_block_geometry|cbn; by rewrite length_alter|].
  intros i b b' H0 H'. rewrite on_block_lookup in H'. set (s' := mkSys _ _ _ _ _ _).
  destruct (B i b H0) as [B1 B2 _ _].
  assert (lo s' i = lo s i) as El by (unfold lo; by rewrite Hp).
  assert (committed b' = committed b /\ allocated b' = allocated b) as [Ec Ea].
  { case_decide; [subst i; rewrite H0 in H'|assert (b' = b) by congruence; by subst]. by injection H' as <-. }
  assert (hi s' i b' = hi s i b) as Eh by (unfold hi; cbn [serve s']; by rewrite Hp).
  split; [by rewrite Ea|by rewrite Eh, Ea|done|left; by rewrite El, Eh, Ea, Ec].
Qed.

Lemma inv_tail s op :
  inv s -> serve s = STail op ->
  let v := mkServer (recv_counts (server s)) 0 0 (server_disconnected (server s)) in
  inv (mkSys (with_ctail (ring s) (u64 (ctail (ring s) + 1))) v
         (match op with Poll => SAdvance Poll | Recv => after_advance Recv v end)
         (callers s) (accepted s) (taken s)).
Proof.
  intros I Hp v. pose proof I as [G _ V B _ _ _].
  assert (match op with Poll => SAdvance Poll | Recv => after_advance Recv v end =
    match op with Poll => SAdvance Poll | Recv => SCommitted Recv end) as -> by (by destruct op).
  set (p := match op with Poll => _ | Recv => _ end).
  assert (geometry (with_ctail (ring s) (u64 (ctail (ring s) + 1)))) as G' by (by destruct G).
  assert (forall i b, blocks (ring s) !! i = Some b -> hi s i b = committed b) as Hh
    by (intros; unfold hi; by rewrite Hp).
  apply inv_move; try done.
  - assert (forall b, blocks (ring s) !! block_idx (ring s) (u64 (ctail (ring s) + 1)) = Some b -> 0 <= committed b) as Hb.
    { intros b Hb. rewrite <-(Hh _ _ Hb). destruct (B _ b Hb) as [_ [[? _] _] _ _]. done. }
    unfold server_ok. cbn. subst p. destruct op; (split; [|done]); intros b H; specialize (Hb b H); lia.
  - intros i b b' H0 H'. cbn in H'. assert (b' = b) as -> by congruence.
    destruct (B i b H0) as [B1 B2 _ _]. set (s' := mkSys _ _ _ _ _ _).
    assert (lo s' i = lo s i) as El.
    { unfold lo. rewrite Hp. cbn [late]. destruct (decide (i = tail_idx s')), (decide (i = tail_idx s)), op; done. }
    assert (hi s' i b = hi s i b) as Eh by (rewrite (Hh i b H0); by destruct op).
    split; [done|by rewrite Eh| |left; by rewrite El, Eh]. intros op0 Hop. cbn in Hop. by destruct op.
Qed.

Lemma inv_read s x :
  let v := server s in
  let i := tail_idx s in
  inv s -> serve s = SRead -> entry (ring s) i (consumer_entry_idx v) = Some x ->
  forall counts, length counts = length (recv_counts v) ->
  inv (mkSys (ring s) (mkServer counts (u32 (consumer_entry_idx v + 1)) (cached_committed v) (server_disconnected v))
         SIdle (callers s) (accepted s) (taken s ++ [x])).
Proof.
  intros v i I Hp Hx counts Hc. pose proof I as [G C V B L U A]. pose proof (g_pos _ G) as Hg.
  unfold server_ok in V. rewrite Hp in V. destruct V as [V Hi]. fold v i in V, Hi.
  destruct (tail_block s I) as [b Hb]. destruct (V b Hb) as [V1 V2]. fold i in Hb.
  destruct (B i b Hb) as [_ [[_ Hh] _] _ _].
  assert (hi s i b = committed b) as Eh0 by (unfold hi; by rewrite Hp).
  rewrite u32_small by lia. set (s' := mkSys _ _ _ _ _ _).
  assert (forall i' b', hi s' i' b' = hi s i' b') as Eh by (intros; unfold hi; by rewrite Hp).
  assert (forall i', i' <> i -> lo s' i' = lo s i') as El.
  { intros i' Hd. unfold lo. change (tail_idx s') with i. change (tail_idx s) with i.
    by rewrite !(decide_False (P := i' = i)) by done. }
  assert (lo s i = consumer_entry_idx v) as E0 by (unfold lo; rewrite Hp; by rewrite decide_True).
  assert (lo s' i = consumer_entry_idx v + 1) as E1 by (unfold lo; change (tail_idx s') with i; by rewrite decide_True).
  split; try done.
  - cbn. by rewrite Hc.
  - unfold server_ok. cbn. change (tail_idx s') with i. split; [|done]. intros b0 Hb0.
    assert (b0 = b) as -> by congruence. split; [|done]. unfold v in *. lia.
  - intros i' b' Hb'. destruct (B i' b' Hb') as [D1 D2 D3 D4]. split; rewrite ?Eh; try done.
    intros pos Hpos. apply D4. destruct (decide (i' = i)) as [->|Hd]; [|by rewrite <-El].
    rewrite E1 in Hpos. rewrite E0. lia.
  - intros j q i' pos Hj Hq. destruct (L j q i' pos Hj Hq) as [(b' & L1 & L2 & L3 & L4) L5].
    split; [|done]. exists b'. by rewrite Eh.
  - cbn [accepted taken s']. rewrite A. unfold unread.
    rewrite (concat_tail (unreads s) i (held (ring s) i (consumer_entry_idx v + 1) (committed b)) x).
    + rewrite (unreads_but s s' i (held (ring s) i (consumer_entry_idx v + 1) (committed b))).
      * by rewrite <-app_assoc.
      * done.
      * intros i' b1 b2 Hd H1 H2. cbn in H2. assert (b2 = b1) as -> by congruence. by rewrite Eh, El.
      * intros b' Hb'. cbn in Hb'. assert (b' = b) as -> by congruence. by rewrite Eh, E1, Eh0.
    + rewrite unreads_lookup, Hb. cbn. rewrite E0, Eh0. f_equal. apply held_cons; [lia|done].
Qed.

(** A push between its accesses keeps its claim. *)
Lemma inv_push s j p r p' :
  inv s -> callers s !! j = Some (Some p) -> claimable (ring s) p -> push_step j (ring s) p = Some (r, p') ->
  inv (mkSys r (server s) (serve s) (<[j := Some p']> (callers s)) (accepted s ++ committing j p) (taken s)).
Proof.
  intros I Hj Hc Hs. destruct p as [d|d|h d|d|h d|h d|i pos d|i pos d g|i pos d|i pos d|res];
    cbn [push_step committing] in *; rewrite ?app_nil_r.
  - injection Hs as <- <-. apply (inv_caller s j _ _ I Hj). intros q c [= <-]. by destruct (rx_alive _).
  - injection Hs as <- <-. by apply (inv_caller s j _ _ I Hj); intros q c [= <-].
  - destruct (blocks (ring s) !! _); [|done]. injection Hs as <- <-.
    apply (inv_caller s j _ _ I Hj). intros q c [= <-]. by destruct (_ =? _).
  - injection Hs as <- <-. by apply (inv_caller s j _ _ I Hj); intros q c [= <-].
  - destruct (blocks (ring s) !! _) as [b|] eqn:Hb; [|done]. injection Hs as <- <-.
    apply inv_claim; auto.
  - injection Hs as <- <-.
    assert (inv (set_callers s (<[j := Some (PHead d)]> (callers s)))) as I'
      by (by apply (inv_caller s j _ _ I Hj); intros q c [= <-]).
    destruct (_ =? _); [|exact I']. by apply (inv_head _ (with_phead (ring s) (u64 (h + 1))) I').
  - destruct (entries (ring s) !! _); [|done]. injection Hs as <- <-. by apply inv_write.
  - destruct (blocks (ring s) !! i) as [b|] eqn:Hb; [|done]. injection Hs as <- <-.
    apply (inv_caller s j _ _ I Hj). intros q c [= <-] Hq. eexists. split; [done|].
    destruct (committed b =? pos) eqn:E; guards; [|by destruct g]. split; [exact Hq|]. split; [done|].
    intros i0 pos0 d0 [= <- <- <-] b0 Hb0. congruence.
  - injection Hs as <- <-. apply (inv_caller s j _ _ I Hj). intros q c [= <-] Hq.
    eexists. split; [done|]. split; [exact Hq|]. done.
  - injection Hs as <- <-. by apply inv_store.
  - injection Hs as <- <-. apply (inv_caller s j _ _ I Hj). by intros q c [= <-].
Qed.

Lemma inv_serve s r v p a :
  inv s -> serve_step (ring s) (server s) (serve s) = Some (r, v, p, a) ->
  inv (mkSys r v p (callers s) (accepted s) (taken s ++ receiving a)).
Proof.
  intros I Hs. pose proof I as [G C V B _ _ _]. pose proof (g_pos _ G) as Hg.
  destruct (tail_block s I) as [b Hb]. unfold serve_step in Hs. fold (tail_idx s) in Hs.
  assert (forall v' p', recv_counts v' = recv_counts (server s) ->
    consumer_entry_idx v' = consumer_entry_idx (server s) -> late (serve s) = false -> late p' = false ->
    server_ok (mkSys (ring s) v' p' (callers s) (accepted s) (taken s)) ->
    inv (mkSys (ring s) v' p' (callers s) (accepted s) (taken s ++ []))) as Hpc.
  { intros v' p' H1 H2 H3 H4 H5. rewrite app_nil_r. apply inv_pc; try done. by rewrite H1. }
  unfold server_ok in V. destruct (serve s) as [|op|op|op|op|op|op|op|] eqn:Hp.
  - injection Hs as <- <- <- <-. by apply Hpc.
  - injection Hs as <- <- <- <-. destruct V as [V _]. destruct (V b Hb) as [V1 V2].
    assert (consumer_entry_idx (server s) <= block_size (ring s)) as Hle.
    { destruct (B _ b Hb) as [_ [[_ Hh] _] _ _]. unfold hi in Hh. rewrite Hp in Hh. lia. }
    apply Hpc; try done.
    + unfold after_advance. destruct (_ <? _), op; try done. by destruct (_ <=? _).
    + unfold server_ok, after_advance. cbn.
      destruct (consumer_entry_idx (server s) <? block_size (ring s)) eqn:E; guards; [|split; [exact V|lia]].
      destruct op; [split; [exact V|done]|].
      destruct (_ <=? _) eqn:E'; guards; (split; [exact V|]); done.
  - rewrite Hb in Hs. injection Hs as <- <- <- <-. destruct V as [V Hi].
    destruct (tail_read s b I) as (_ & _ & _ & Ha); [by rewrite Hp|done|done|].
    rewrite (proj2 (Z.ltb_ge _ _)) by lia. by apply Hpc.
  - injection Hs as <- <- <- <-. cbn [receiving]. rewrite app_nil_r. by apply inv_reset_allocated.
  - injection Hs as <- <- <- <-. cbn [receiving]. rewrite app_nil_r. by apply inv_reset_committed.
  - injection Hs as <- <- <- <-. cbn [receiving]. rewrite app_nil_r. by apply inv_version.
  - injection Hs as <- <- <- <-. cbn [receiving]. rewrite app_nil_r. by apply inv_tail.
  - rewrite Hb in Hs. destruct V as [V _]. destruct (V b Hb) as [V1 V2].
    assert (forall b0, blocks (ring s) !! tail_idx s = Some b0 ->
      0 <= consumer_entry_idx (server s) <= committed b0 /\ committed b <= committed b0) as V'.
    { intros b0 Hb0. assert (b0 = b) as -> by congruence. lia. }
    destruct op; [injection Hs as <- <- <- <-; by apply Hpc|]. cbn in Hs.
    destruct (committed b <=? consumer_entry_idx (server s)) eqn:E; injection Hs as <- <- <- <-; guards.
    + by apply Hpc.
    + by apply Hpc.
  - destruct (entries (ring s) !! _) as [e|] eqn:He; [|done]. cbn [mbind option_bind] in Hs.
    destruct e as [[caller d]|]; [|done]. cbn [mbind option_bind] in Hs.
    destruct (recv_counts (server s) !! caller) as [t|]; [|done]. injection Hs as <- <- <- <-.
    cbn [receiving Onesided.tk_caller_id]. rewrite Nat2Z.id.
    apply (inv_read s (caller, d) I Hp); [|apply length_insert].
    unfold entry. by rewrite He.
Qed.

Lemma bbq_step_inv s s' : bbq_step s s' -> inv s -> inv s'.
Proof.
  destruct 1 as [s j d Hj|s j p r p' Hj Hc Hs|s j res Hj|s op Hp|s r v p a Hs|s Hp]; intros I.
  - apply (inv_caller s j _ _ I Hj). by intros q c [= <-].
  - by eapply inv_push.
  - by apply (inv_caller s j _ _ I Hj).
  - pose proof I as [_ _ V _ _ _ _]. unfold server_ok in V. rewrite Hp in V.
    apply inv_pc; try done; by rewrite Hp.
  - by eapply inv_serve.
  - rewrite <-Hp. by apply inv_head.
Qed.

(** No access of a push or of the server leaves the ring or reads what was not
    written. *)
Lemma inv_safe s :
  inv s ->
  (forall j p, callers s !! j = Some (Some p) -> is_Some (push_step j (ring s) p)) /\
  is_Some (serve_step (ring s) (server s) (serve s)).
Proof.
  intros I. pose proof I as [G C V B L U A].
  assert (forall h, is_Some (blocks (ring s) !! block_idx (ring s) h)) as Hblk.
  { intros h. apply lookup_lt_is_Some. by apply block_idx_lt. }
  split.
  - intros j p Hj. destruct p as [d|d|h d|d|h d|h d|i pos d|i pos d g|i pos d|i pos d|res]; cbn; try by eexists.
    + destruct (Hblk h) as [b ->]. by eexists.
    + destruct (Hblk h) as [b ->]. by eexists.
    + destruct (L j _ i pos Hj eq_refl) as [(b & L1 & L2 & _) _]. destruct (B i b L1) as [_ [? _] _ _].
      destruct (lookup_lt_is_Some_2 (entries (ring s)) (entry_idx (ring s) i pos)) as [e ->]; [|by eexists].
      apply entry_idx_lt; [done|by eapply lookup_lt_Some|lia].
    + destruct (L j _ i pos Hj eq_refl) as [(b & -> & _) _]. by eexists.
  - destruct (tail_block s I) as [b Hb]. unfold serve_step. fold (tail_idx s). rewrite Hb.
    destruct (serve s) as [|op|op|op|op|op|op|op|] eqn:Hp; try by eexists.
    + destruct op; [by eexists|]. cbn. destruct (_ <=? _); by eexists.
    + unfold server_ok in V. rewrite Hp in V. destruct V as [V Hi]. destruct (V b Hb) as [V1 V2].
      destruct (B _ b Hb) as [_ _ _ B4].
      destruct (B4 (consumer_entry_idx (server s))) as (j & d & E & Hj).
      { unfold lo, hi. rewrite Hp, decide_True by done. cbn. lia. }
      unfold entry in E. destruct (entries (ring s) !! _) as [e|]; [|done]. cbn in E |- *. subst e. cbn.
      destruct (lookup_lt_is_Some_2 (recv_counts (server s)) j) as [t ->]; [lia|]. by eexists.
Qed.

Lemma inv_init n depth count senders r :
  ring_new depth count senders = Some r -> depth < 2 ^ 32 -> inv (sys_init n r).
Proof.
  unfold ring_new. intros H Hd. destruct (_ && _ && _ && _) eqn:E; [|done]. injection H as <-.
  apply andb_true_iff in E as [E E4]. apply andb_true_iff in E as [E E3].
  apply andb_true_iff in E as [E1 E2]. guards.
  apply is_power_of_two_spec in E1 as (kd & Hkd & Ed). apply is_power_of_two_spec in E2 as (kc & Hkc & Ec).
  assert (0 < count) as Hc0 by (rewrite Ec; apply Z.pow_pos_nonneg; lia).
  assert (kc <= kd) as Hle by (rewrite Ed, Ec in E3; by apply Z.pow_le_mono_r_iff in E3).
  assert (depth / count = 2 ^ (kd - kc)) as Eq.
  { rewrite Ed, Ec. by rewrite <-Z.pow_sub_r by lia. }
  assert (kd < 32) as Hk32 by (rewrite Ed in Hd; by apply Z.pow_lt_mono_r_iff in Hd; lia).
  assert (0 < 2 ^ (kd - kc) < 2 ^ 32) as Hb.
  { split; [apply Z.pow_pos_nonneg; lia|apply Z.pow_lt_mono_r; lia]. }
  rewrite Eq, u32_small by lia. rewrite Z.log2_pow2 by lia.
  set (r := mkRing _ _ _ _ _ _ _ _ _ _).
  assert (forall i b, blocks r !! i = Some b -> b = mkBlock 0 0 0) as Hbl.
  { intros i b H. by apply lookup_replicate in H as [-> _]. }
  assert (forall i, lo (sys_init n r) i = 0) as Hlo by (intros i; unfold lo; by case_decide).
  split; try done.
  - split; cbn; try lia; try done.
    + exists kc. rewrite length_replicate. split_and!; try done; lia.
    + rewrite !length_replicate, !Z2Nat.id by (rewrite ?Ed; try apply Z.pow_nonneg; lia).
      rewrite Ed, Ec, <-Z.pow_add_r by lia. f_equal. lia.
  - cbn. by rewrite !length_replicate.
  - unfold server_ok. cbn [serve sys_init server consumer_entry_idx cached_committed]. split; [|done].
    intros b H. by rewrite (Hbl _ _ H).
  - intros i b H. rewrite (Hbl _ _ H). split; cbn; try lia; try done. intros pos. rewrite Hlo. lia.
  - intros j p i pos Hj. by apply lookup_replicate in Hj as [? _].
  - intros j j' p p' c Hj. by apply lookup_replicate in Hj as [? _].
  - assert (unread (sys_init n r) = []) as Hu; [|cbn [accepted taken sys_init]; by rewrite Hu].
    unfold unread. apply concat_nil_Forall. apply Forall_lookup. intros i l. rewrite unreads_lookup.
    destruct (blocks _ !! i) as [b|] eqn:H; [|done]. cbn. intros [= <-].
    rewrite (Hbl _ _ H), Hlo. by apply held_nil.
Qed.

Lemma bbq_steps_inv s s' : rtc bbq_step s s' -> inv s -> inv s'.
Proof. induction 1; eauto using bbq_step_inv. Qed.

(** C27: The block ring loses nothing.  In every interleaving of the memory accesses of
    any number of callers and the server - callers stopped at any access for any time
    included, and a block claimed fewer than 2^32 times in a lap - the requests that pushes have committed are, each once and with its
    caller, the requests the server has received and those that wait in the ring; and
    no access leaves the ring or reads an entry that was not written. *)
Theorem bbq_lossless n depth count senders r s :
  ring_new depth count senders = Some r -> depth < 2 ^ 32 -> rtc bbq_step (sys_init n r) s ->
  accepted s ≡ₚ taken s ++ unread s /\
  (forall j p, callers s !! j = Some (Some p) -> is_Some (push_step j (ring s) p)) /\
  is_Some (serve_step (ring s) (server s) (serve s)).
Proof.
  intros Hr Hd Hs. assert (inv s) as I by (eapply bbq_steps_inv; [done|by eapply inv_init]).
  split; [by destruct I|by apply inv_safe].
Qed.

(** *** A head that is overtaken *)

(** The server has given the block at the head to the next lap; no push is past the
    test of the version, and nothing is committed at the tail. *)
Definition refusing (h : Z) (p : Push T) : Prop :=
  match p with
  | PStart _ | PHead _ | PRefused _ => True
  | PVersion h' _ => h' = h
  | PDone (Err (Full _)) | PDone (Err (Disconnected _)) => True
  | _ => False
  end.

Record overtaken s : Prop := mkOvertaken {
  o_version : exists b, blocks (ring s) !! block_idx (ring s) (phead (ring s)) = Some b /\
    version b <> lap (ring s) (phead (ring s));
  o_callers : forall j p, callers s !! j = Some (Some p) -> refusing (phead (ring s)) p;
  o_server : 0 < block_size (ring s) /\ consumer_entry_idx (server s) = 0 /\ cached_committed (server s) = 0 /\
    match serve s with SIdle | SAdvance _ | SCommitted _ => True | _ => False end;
  o_tail : exists b, blocks (ring s) !! tail_idx s = Some b /\ committed b = 0;
}.

Lemma overtaken_caller s j o :
  overtaken s -> (forall p, o = Some p -> refusing (phead (ring s)) p) ->
  overtaken (set_callers s (<[j := o]> (callers s))).
Proof.
  intros [H1 H2 H3 H4] Ho. split; try done. intros j0 p Hl. cbn in Hl.
  apply list_lookup_insert_Some in Hl as [(-> & -> & _)|[_ Hl]]; [by apply Ho|by eapply H2].
Qed.

Lemma overtaken_step s s' : bbq_step s s' -> overtaken s -> overtaken s' /\ taken s' = taken s.
Proof.
  destruct 1 as [s j d Hj|s j p r p' Hj Hc Hs|s j res Hj|s op Hp|s r v p a Hs|s Hp]; intros O.
  - split; [|done]. apply (overtaken_caller s j _ O). by intros p [= <-].
  - split; [|done]. destruct O as [(b & H1 & H1') H2 H3 H4] eqn:EO. pose proof (H2 j p Hj) as Hq.
    assert (forall q, refusing (phead (ring s)) q -> push_step j (ring s) p = Some (ring s, q) ->
      overtaken (mkSys r (server s) (serve s) (<[j := Some p']> (callers s)) (accepted s ++ committing j p) (taken s)))
      as Hgo.
    { intros q Hq' E. rewrite E in Hs. injection Hs as <- <-.
      assert (overtaken (set_callers s (<[j := Some q]> (callers s)))) as [O1 O2 O3 O4]
        by (apply (overtaken_caller s j _ O); by intros p0 [= <-]).
      split; [exact O1|exact O2|exact O3|exact O4]. }
    destruct p; try done.
    + eapply Hgo; [|reflexivity]. by destruct (rx_alive _).
    + by apply (Hgo (PVersion (phead (ring s)) d)).
    + eapply (Hgo (PRefused d)); [done|]. cbn in Hq |- *. subst head. rewrite H1. cbn.
      by rewrite (proj2 (Z.eqb_neq _ _)).
    + eapply Hgo; [|reflexivity]. cbn. by destruct (rx_alive _).
    + by apply (Hgo (PDone res)).
  - split; [|done]. by apply (overtaken_caller s j _ O).
  - split; [|done]. destruct O as [H1 H2 (H3 & H4 & H5 & _) H6]. split; try done.
  - destruct O as [H1 H2 (H3 & H4 & H5 & H6) (b & H7 & H8)].
    unfold serve_step in Hs. fold (tail_idx s) in Hs.
    assert (forall v' p' a', recv_counts v' = recv_counts (server s) -> consumer_entry_idx v' = 0 ->
      cached_committed v' = 0 -> receiving a' = [] ->
      match p' with SIdle | SAdvance _ | SCommitted _ => True | _ => False end ->
      overtaken (mkSys (ring s) v' p' (callers s) (accepted s) (taken s ++ receiving a')) /\
      taken s ++ receiving a' = taken s) as Hgo.
    { intros v' p' a' E1 E2 E3 E4 E5. rewrite E4, app_nil_r. split; [|done]. split; try done. by exists b. }
    destruct (serve s) as [|op|op|op|op|op|op|op|]; try done.
    + injection Hs as <- <- <- <-. by apply Hgo.
    + rewrite H4, (proj2 (Z.ltb_lt _ _)) in Hs by done. injection Hs as <- <- <- <-.
      apply Hgo; try done. destruct op; [done|]. unfold after_advance. by rewrite H4, H5.
    + rewrite H7 in Hs. cbn in Hs. rewrite H8 in Hs.
      destruct op; [injection Hs as <- <- <- <-; by apply Hgo|]. cbn in Hs. rewrite H4 in Hs. cbn in Hs.
      injection Hs as <- <- <- <-. apply Hgo; done.
  - split; [|done]. by destruct O as [H1 H2 (H3 & H4 & H5 & _) H6].
Qed.

(** C37: A ring whose head was overtaken refuses for ever.  Suppose the server has
    given the block at the head to the next lap - as a poll does that finds the block
    full and read before the next push has moved the head -, no push in progress is
    past its test of the version, and the server has caught up: nothing is committed in
    the block at the tail.  Then every push in progress and every later one fails, in
    every interleaving, and the server receives nothing more.  (A push already past the
    test of the version may still move the head and end this.) *)
Theorem overtaken_refuses s s' j res :
  overtaken s -> rtc bbq_step s s' -> callers s' !! j = Some (Some (PDone res)) ->
  (exists d, res = Err (Full d) \/ res = Err (Disconnected d)) /\ taken s' = taken s.
Proof.
  intros O Hs Hj. assert (overtaken s' /\ taken s' = taken s) as [[_ H2 _ _] Ht].
  { clear Hj. induction Hs as [|s1 s2 s3 H1 H2 IH]; [done|].
    destruct (overtaken_step _ _ H1 O) as [O2 E2]. destruct (IH O2) as [? E3].
    split; [done|congruence]. }
  split; [|done]. specialize (H2 j _ Hj). cbn in H2.
  destruct res as [|[d|d|d]]; try done; exists d; auto.
Qed.

(** *** Schedules *)

Inductive Act : Type := ACall (j : nat) (d : T) | APush (j : nat) | AReturn (j : nat) | AStart (op : Op) | AServe.

Definition act (a : Act) s : option Sys :=
  match a with
  | ACall j d =>
      match callers s !! j with
      | Some None => Some (set_callers s (<[j := Some (PStart d)]> (callers s)))
      | _ => None
      end
  | APush j =>
      match callers s !! j with
      | Some (Some p) =>
          match p with
          | PClaim h _ =>
              b ← blocks (ring s) !! block_idx (ring s) h;
              if allocated b + 1 <? 2 ^ 32 then Some tt else None
          | _ => Some tt
          end ≫= fun _ =>
          '(r, p') ← push_step j (ring s) p;
          Some (mkSys r (server s) (serve s) (<[j := Some p']> (callers s)) (accepted s ++ committing j p) (taken s))
      | _ => None
      end
  | AReturn j =>
      match callers s !! j with
      | Some (Some (PDone _)) => Some (set_callers s (<[j := None]> (callers s)))
      | _ => None
      end
  | AStart op =>
      match serve s with
      | SIdle => Some (mkSys (ring s) (server s) (SAdvance op) (callers s) (accepted s) (taken s))
      | _ => None
      end
  | AServe =>
      '(r, v, p, a) ← serve_step (ring s) (server s) (serve s);
      Some (mkSys r v p (callers s) (accepted s) (taken s ++ receiving a))
  end.

Lemma act_step a s s' : act a s = Some s' -> bbq_step s s'.
Proof.
  destruct a as [j d|j|j|op|]; cbn.
  - destruct (callers s !! j) as [[p|]|] eqn:E; try done. intros [= <-]. by apply step_call.
  - destruct (callers s !! j) as [[p|]|] eqn:E; try done.
    destruct (match p with PClaim _ _ => _ | _ => _ end) as [[]|] eqn:Ec; [|done]. cbn.
    destruct (push_step j (ring s) p) as [[r p']|] eqn:Es; [|done]. intros [= <-].
    apply step_push; [done| |done]. destruct p; try done. cbn in *. intros b Hb. rewrite Hb in Ec. cbn in Ec.
    destruct (_ <? _) eqn:El; [|done]. by guards.
  - destruct (callers s !! j) as [[[]|]|] eqn:E; try done. intros [= <-]. by eapply step_return.
  - destruct (serve s) eqn:E; try done. intros [= <-]. by apply step_start.
  - destruct (serve_step _ _ _) as [[[[r v] p] a]|] eqn:E; [|done]. intros [= <-]. by apply step_serve.
Qed.

Fixpoint acts (l : list Act) s : option Sys :=
  match l with
  | [] => Some s
  | a :: l => s ← act a s; acts l s
  end.

Lemma acts_steps l s s' : acts l s = Some s' -> rtc bbq_step s s'.
Proof.
  revert s. induction l as [|a l IH]; intros s; cbn; [by intros [= <-]|].
  destruct (act a s) as [s1|] eqn:E; [|done]. intros H. eapply rtc_l; [by eapply act_step|auto].
Qed.

(** A push without interruption, and one that fails the first claim and moves the head. *)
Definition whole_push (j : nat) (d : T) : list Act := ACall j d :: replicate 7 (APush j) ++ [AReturn j].
Definition moving_push (j : nat) (d : T) : list Act := ACall j d :: replicate 11 (APush j) ++ [AReturn j].
Definition recycle (op : Op) : list Act := AStart op :: replicate (match op with Poll => 8 | Recv => 7 end) AServe.

End Concurrent.
Arguments Sys : clear implicits.
Arguments Act : clear implicits.

(** *** Runs: four blocks of two entries, two callers *)

Definition demo_ring : BbqRequestRing Z := default (mkRing [] [] 0 0 0 0 0 0 0 true) (ring_new 8 4 2).
Definition demo_filled : list (Act Z) :=
  whole_push 0 1 ++ whole_push 0 2 ++ AStart Recv :: replicate 3 AServe ++ AStart Recv :: replicate 2 AServe.
Definition demo_stuck : Sys Z :=
  default (sys_init 2 demo_ring) (acts (demo_filled ++ recycle Poll) (sys_init 2 demo_ring)).

(** Caller 0 stops before its claim; caller 1 fills the block and goes on to the next;
    the server gives the first block to the next lap. *)
Definition demo_swap : list (Act Z) :=
  ACall 0 10 :: replicate 3 (APush 0) ++
  whole_push 1 1 ++ whole_push 1 2 ++ moving_push 1 3 ++
  AStart Recv :: replicate 3 AServe ++ AStart Recv :: replicate 2 AServe ++ AStart Recv :: replicate 8 AServe ++
  replicate 4 (APush 0) ++ AReturn 0 :: whole_push 0 11 ++ AStart Recv :: replicate 2 AServe.
Definition demo_swapped : Sys Z := default (sys_init 2 demo_ring) (acts demo_swap (sys_init 2 demo_ring)).

(** The claim of a caller that was stopped falls into the next lap of the block: its
    request 10 comes to lie behind its next request 11, which the server receives first
    and under the token that the call of 10 has returned. *)
Lemma stale_claim_swaps :
  rtc bbq_step (sys_init 2 demo_ring) demo_swapped /\
  accepted demo_swapped = [(1%nat, 1); (1%nat, 2); (1%nat, 3); (0%nat, 10); (0%nat, 11)] /\
  (serve_step (ring demo_swapped) (server demo_swapped) (serve demo_swapped) ≫= fun x => x.2)
    = Some (Received (Some (mkToken 0 0, 11))).
Proof.
  split; [apply (acts_steps demo_swap); vm_compute; reflexivity|]. split; vm_compute; reflexivity.
Qed.

Lemma bbq_lossless_witness :
  accepted demo_swapped ≡ₚ taken demo_swapped ++ unread demo_swapped /\
  length (taken demo_swapped) = 3%nat /\ length (unread demo_swapped) = 2%nat.
Proof.
  destruct (bbq_lossless 2 8 4 2 demo_ring demo_swapped) as [H _].
  - reflexivity.
  - lia.
  - apply (acts_steps demo_swap). vm_compute. reflexivity.
  - split; [exact H|]. split; vm_compute; reflexivity.
Defined.

Lemma overtaken_refuses_witness :
  rtc bbq_step (sys_init 2 demo_ring) demo_stuck /\ unread demo_stuck = [] /\
  exists s', rtc bbq_step demo_stuck s' /\ callers s' !! 1%nat = Some (Some (PDone (Err (Full 7)))) /\
    taken s' = taken demo_stuck.
Proof.
  split; [apply (acts_steps (demo_filled ++ recycle Poll)); vm_compute; reflexivity|].
  split; [vm_compute; reflexivity|].
  destruct (acts (ACall 1 7 :: replicate 4 (APush 1)) demo_stuck) as [s'|] eqn:E.
  - assert (callers s' !! 1%nat = Some (Some (PDone (Err (Full 7))))) as Hd.
    { vm_compute in E. injection E as <-. reflexivity. }
    exists s'. split; [by apply acts_steps in E|]. split; [exact Hd|].
    apply (overtaken_refuses demo_stuck s' 1 (Err (Full 7))); [|by apply acts_steps in E|exact Hd].
    split.
    + exists (mkBlock 0 0 1). split; [reflexivity|]. vm_compute. congruence.
    + intros j p Hj. destruct j as [|[|j]]; vm_compute in Hj; congruence.
    + split; [vm_compute; reflexivity|]. split; [vm_compute; reflexivity|].
      split; [vm_compute; reflexivity|]. vm_compute. exact I.
    + exists (mkBlock 0 0 0). split; reflexivity.
  - exfalso. vm_compute in E. congruence.
Defined.

End Bbq.
