(* ===== verification/Jiffy.v ===== *)
(** * Jiffy: the wait-free request queue of [mempc/src/jiffy.rs]

    The queue is a list of buffers, linked as positions are claimed.  A caller claims a
    position with [fetch_add], walks to its buffer from the last buffer it is told of -
    or, when that is past the position, from the first - and allocates what is missing,
    writes the slot and sets its flag; the server reads the flags in order.  An enqueue,
    a dequeue and a count are functions of their accesses to shared memory, one access a
    step, and [jiffy_step] interleaves those of any number of callers and the server;
    memory is sequentially consistent.

    A pointer to a buffer is its place in [heap], the buffers that have been linked, in
    the order of their linking.  A buffer that has been allocated and not yet linked is
    known to one thread only, and no linked buffer is freed before the queue is. *)
From S2P Require Import Prelude Onesided Mpsc Fastforward FetchAdd.

Module Jiffy.

Notation CallError := Onesided.CallError.
Notation InflightExceeded := Onesided.InflightExceeded.
Notation Disconnected := Onesided.Disconnected.
Notation ReplyToken := Onesided.ReplyToken.
Notation mkToken := Onesided.mkToken.

Definition EMPTY : Z := 0.
Definition SET : Z := 1.
Definition HANDLED : Z := 2.

(** ** The queue *)

Section Queue.
Context {T : Type}.

(** [slot_data] is [None] while the memory is uninitialised. *)
Record JiffySlot : Type := mkSlot {
  state : Z;
  slot_caller : Z;
  slot_token : Z;
  slot_data : option T;
}.
Definition slot_new : JiffySlot := mkSlot EMPTY 0 0 None.

Record JiffyBuffer : Type := mkBuffer {
  slots : list JiffySlot;
  next : option nat;
  start_index : Z;
  capacity : Z;
}.
Definition buffer_new (start cap : Z) : JiffyBuffer :=
  mkBuffer (replicate (Z.to_nat cap) slot_new) None start cap.

Record JiffyQueue : Type := mkQueue {
  heap : list JiffyBuffer;
  tail : Z;
  tail_buffer : nat;
  head_buffer : nat;
  sender_count : Z;
  rx_alive : bool;
}.
Implicit Types (q : JiffyQueue) (b : JiffyBuffer).

Definition set_heap q (h : list JiffyBuffer) : JiffyQueue :=
  mkQueue h (tail q) (tail_buffer q) (head_buffer q) (sender_count q) (rx_alive q).
Definition set_next b (n : nat) : JiffyBuffer := mkBuffer (slots b) (Some n) (start_index b) (capacity b).
Definition alter_slot (f : JiffySlot -> JiffySlot) (i : nat) b : JiffyBuffer :=
  mkBuffer (alter f i (slots b)) (next b) (start_index b) (capacity b).

(** A store into slot [i] of buffer [cur]; [None] is an index out of range. *)
Definition store_slot q (cur i : nat) (f : JiffySlot -> JiffySlot) : option JiffyQueue :=
  b ← heap q !! cur;
  _ ← slots b !! i;
  Some (set_heap q (alter (alter_slot f i) cur (heap q))).

(** The exchange that links a new buffer behind [cur]; the buffer of a caller that comes
    late is dropped. *)
Definition link q (cur : nat) : option (JiffyQueue * nat) :=
  b ← heap q !! cur;
  Some (match next b with
        | Some existing => (q, existing)
        | None =>
            let new_buf := length (heap q) in
            (set_heap q (alter (fun b => set_next b new_buf) cur (heap q)
                         ++ [buffer_new (u64 (start_index b + capacity b)) (capacity b)]), new_buf)
        end).

(** The accesses of [enqueue], with those of [find_or_create_buffer]. *)
Inductive Enqueue : Type :=
| EAlive (d : T)
| EClaim (d : T)
| EHint (pos : Z) (d : T)
| EFind (pos : Z) (cur : nat) (d : T)
| EAdvance (pos : Z) (cur old_tail : nat) (d : T)
| ELink (pos : Z) (cur : nat) (d : T)
| EWrite (pos : Z) (cur : nat) (d : T)
| EPublish (pos : Z) (cur : nat) (d : T)
| ENext (cur : nat)
| EPreallocate (cur : nat)
| EDone (res : result unit T).

(** [None] is an access outside the queue, and the end. *)
Definition enqueue_step (caller_id caller_token : Z) q (p : Enqueue) : option (JiffyQueue * Enqueue) :=
  match p with
  | EAlive d => Some (q, if rx_alive q then EClaim d else EDone (Err d))
  | EClaim d =>
      Some (mkQueue (heap q) (u64 (tail q + 1)) (tail_buffer q) (head_buffer q) (sender_count q) (rx_alive q),
            EHint (tail q) d)
  | EHint pos d =>
      b ← heap q !! tail_buffer q;
      Some (q, EFind pos (if pos <? start_index b then head_buffer q else tail_buffer q) d)
  | EFind pos cur d =>
      b ← heap q !! cur;
      if (start_index b <=? pos) && (pos <? u64 (start_index b + capacity b)) then
        old ← heap q !! tail_buffer q;
        Some (q, if start_index old <? start_index b then EAdvance pos cur (tail_buffer q) d
                 else EWrite pos cur d)
      else Some (q, match next b with Some n => EFind pos n d | None => ELink pos cur d end)
  | EAdvance pos cur old_tail d =>
      Some (if bool_decide (tail_buffer q = old_tail)
            then mkQueue (heap q) (tail q) cur (head_buffer q) (sender_count q) (rx_alive q) else q,
            EWrite pos cur d)
  | ELink pos cur d => '(q, n) ← link q cur; Some (q, EFind pos n d)
  | EWrite pos cur d =>
      b ← heap q !! cur;
      q ← store_slot q cur (Z.to_nat (u64 (pos - start_index b)))
            (fun sl => mkSlot (state sl) caller_id caller_token (Some d));
      Some (q, EPublish pos cur d)
  | EPublish pos cur d =>
      b ← heap q !! cur;
      let slot_idx := u64 (pos - start_index b) in
      q ← store_slot q cur (Z.to_nat slot_idx)
            (fun sl => mkSlot SET (slot_caller sl) (slot_token sl) (slot_data sl));
      Some (q, if slot_idx =? 1 then ENext cur else EDone (Ok tt))
  | ENext cur =>
      b ← heap q !! cur;
      Some (q, match next b with None => EPreallocate cur | Some _ => EDone (Ok tt) end)
  | EPreallocate cur => '(q, _) ← link q cur; Some (q, EDone (Ok tt))
  | EDone _ => None
  end.

Fixpoint enqueue_run (fuel : nat) (caller_id caller_token : Z) q (p : Enqueue)
    : option (JiffyQueue * result unit T) :=
  match p with
  | EDone res => Some (q, res)
  | _ =>
      match fuel with
      | O => None
      | S fuel =>
          '(q, p) ← enqueue_step caller_id caller_token q p;
          enqueue_run fuel caller_id caller_token q p
      end
  end.

(** [JiffyQueue::enqueue], run alone. *)
Definition enqueue (fuel : nat) q (caller_id caller_token : Z) (d : T) : option (JiffyQueue * result unit T) :=
  enqueue_run fuel caller_id caller_token q (EAlive d).

(** [Drop for JiffyQueue]: the buffers in the order they are freed. *)
Fixpoint drop_chain (fuel : nat) (h : list JiffyBuffer) (current : option nat) : option (list nat) :=
  match current with
  | None => Some []
  | Some cur =>
      match fuel with
      | O => None
      | S fuel => b ← h !! cur; freed ← drop_chain fuel h (next b); Some (cur :: freed)
      end
  end.
Definition drop_queue (fuel : nat) q : option (list nat) := drop_chain fuel (heap q) (Some (head_buffer q)).

(** *** The consumer *)

Record JiffyConsumer : Type := mkConsumer {
  read_pos : Z;
  cons_head : nat;
  buffer_capacity : Z;
}.
Implicit Types (c : JiffyConsumer).

(** The accesses of [try_dequeue] and [count_available]. *)
Inductive Serve : Type :=
| SIdle
| SDequeue
| STake
| SCount (count pos : Z) (buf : nat).
Inductive Answer : Type :=
| Dequeued (r : option (Z * T * Z))
| Counted (count : Z).

Definition count_start c : Serve := SCount 0 (read_pos c) (cons_head c).

Definition serve_step q c (p : Serve) : option (JiffyQueue * JiffyConsumer * Serve * option Answer) :=
  match p with
  | SIdle => None
  | SDequeue =>
      b ← heap q !! cons_head c;
      let local_idx := u64 (read_pos c - start_index b) in
      if buffer_capacity c <=? local_idx then
        Some (match next b with
              | None => (q, c, SIdle, Some (Dequeued None))
              | Some n => (q, mkConsumer (read_pos c) n (buffer_capacity c), SDequeue, None)
              end)
      else
        slot ← slots b !! Z.to_nat local_idx;
        Some (if state slot =? SET then (q, c, STake, None) else (q, c, SIdle, Some (Dequeued None)))
  | STake =>
      b ← heap q !! cons_head c;
      let i := Z.to_nat (u64 (read_pos c - start_index b)) in
      slot ← slots b !! i;
      d ← slot_data slot;
      q ← store_slot q (cons_head c) i
            (fun sl => mkSlot HANDLED (slot_caller sl) (slot_token sl) (slot_data sl));
      Some (q, mkConsumer (u64 (read_pos c + 1)) (cons_head c) (buffer_capacity c), SIdle,
            Some (Dequeued (Some (slot_caller slot, d, slot_token slot))))
  | SCount count pos buf =>
      b ← heap q !! buf;
      let local_idx := u64 (pos - start_index b) in
      if buffer_capacity c <=? local_idx then
        Some (q, c, match next b with None => SIdle | Some n => SCount count pos n end,
              match next b with None => Some (Counted count) | Some _ => None end)
      else
        slot ← slots b !! Z.to_nat local_idx;
        Some (if negb (state slot =? SET) then (q, c, SIdle, Some (Counted count))
              else (q, c, SCount (u32 (count + 1)) (u64 (pos + 1)) buf, None))
  end.

Fixpoint serve_run (fuel : nat) q c (p : Serve) : option (JiffyQueue * JiffyConsumer * Answer) :=
  match fuel with
  | O => None
  | S fuel =>
      '(q, c, p, ans) ← serve_step q c p;
      match ans with
      | Some a => Some (q, c, a)
      | None => serve_run fuel q c p
      end
  end.

(** [JiffyConsumer::try_dequeue] and [JiffyConsumer::count_available], run alone. *)
Definition try_dequeue (fuel : nat) q c : option (JiffyQueue * JiffyConsumer * option (Z * T * Z)) :=
  '(q, c, a) ← serve_run fuel q c SDequeue;
  match a with Dequeued r => Some (q, c, r) | Counted _ => None end.
Definition count_available (fuel : nat) q c : option Z :=
  '(_, _, a) ← serve_run fuel q c (count_start c);
  match a with Counted n => Some n | Dequeued _ => None end.

End Queue.
Arguments JiffySlot : clear implicits.
Arguments JiffyBuffer : clear implicits.
Arguments JiffyQueue : clear implicits.
Arguments Enqueue : clear implicits.
Arguments Answer : clear implicits.

(** ** Response rings, callers and server *)

Section Channel.
Context {Req Resp : Type}.

(** The response ring differs from the one of [fetch_add.rs] in what it does for a
    caller that is gone. *)
Definition ResponseRing : Type := FetchAdd.ResponseRing Resp.
Definition resp_new : Z -> option ResponseRing := FetchAdd.resp_new.
Definition resp_try_push (r : ResponseRing) (token : Z) (d : Resp) : option (ResponseRing * bool) :=
  if negb (FetchAdd.resp_rx_alive r) then Some (r, true)
  else
    let pos := FetchAdd.write_pos r in
    let i := Z.to_nat (Z.land pos (FetchAdd.resp_mask r)) in
    slot ← FetchAdd.resp_buffer r !! i;
    Some (if Fastforward.valid slot then (r, false)
          else (FetchAdd.mkResp (<[i := Fastforward.mkSlot true (Some (token, d))]> (FetchAdd.resp_buffer r))
                  (u64 (pos + 1)) (FetchAdd.read_pos r) (FetchAdd.resp_mask r) (FetchAdd.resp_rx_alive r), true)).
Definition resp_try_pop : ResponseRing -> option (ResponseRing * option (Z * Resp)) := FetchAdd.resp_try_pop.

Record JiffyCaller : Type := mkCaller {
  caller_id : Z;
  send_count : Z;
  inflight : Z;
  max_inflight : Z;
  caller_disconnected : bool;
}.

(** What [call] does with the result of [enqueue]. *)
Definition call_end (c : JiffyCaller) (res : result unit Req) : JiffyCaller * result Z (CallError Req) :=
  match res with
  | Ok _ => (mkCaller (caller_id c) (u64 (send_count c + 1)) (u64 (inflight c + 1)) (max_inflight c)
               (caller_disconnected c), Ok (send_count c))
  | Err d => (c, Err (Disconnected d))
  end.
Definition call (fuel : nat) (c : JiffyCaller) (q : JiffyQueue Req) (req : Req)
    : option (JiffyCaller * JiffyQueue Req * result Z (CallError Req)) :=
  if max_inflight c <=? inflight c then Some (c, q, Err (InflightExceeded req))
  else
    '(q, res) ← enqueue fuel q (caller_id c) (send_count c) req;
    let '(c, res) := call_end c res in Some (c, q, res).

Definition responded (c : JiffyCaller) : JiffyCaller :=
  mkCaller (caller_id c) (send_count c) (saturating_sub (inflight c) 1) (max_inflight c)
    (caller_disconnected c).
Definition try_recv_response (c : JiffyCaller) (rr : ResponseRing)
    : option (JiffyCaller * ResponseRing * option (Z * Resp)) :=
  '(rr, result) ← resp_try_pop rr;
  Some (match result with Some _ => responded c | None => c end, rr, result).
Definition pending_count (c : JiffyCaller) : Z := inflight c.

Definition drop_caller (c : JiffyCaller) (q : JiffyQueue Req) (rr : ResponseRing)
    : JiffyCaller * JiffyQueue Req * ResponseRing :=
  if caller_disconnected c then (c, q, rr)
  else (mkCaller (caller_id c) (send_count c) (inflight c) (max_inflight c) true,
        mkQueue (heap q) (tail q) (tail_buffer q) (head_buffer q) (u64 (sender_count q - 1)) (rx_alive q),
        FetchAdd.resp_disconnect_rx rr).

Record JiffyServer : Type := mkServer { consumer : JiffyConsumer; server_disconnected : bool }.

Definition drop_server (s : JiffyServer) (q : JiffyQueue Req) : JiffyServer * JiffyQueue Req :=
  if server_disconnected s then (s, q)
  else (mkServer (consumer s) true,
        mkQueue (heap q) (tail q) (tail_buffer q) (head_buffer q) (sender_count q) false).

Definition poll (fuel : nat) (s : JiffyServer) (q : JiffyQueue Req) : option Z :=
  count_available fuel q (consumer s).
(** [JiffyRecvRef]: its token and its data. *)
Definition recv_ref (x : Z * Req * Z) : ReplyToken * Req :=
  let '(id, d, token) := x in (mkToken id token, d).
Definition try_recv (fuel : nat) (s : JiffyServer) (q : JiffyQueue Req)
    : option (JiffyServer * JiffyQueue Req * option (ReplyToken * Req)) :=
  '(q, c, r) ← try_dequeue fuel q (consumer s);
  Some (mkServer c (server_disconnected s), q,
        recv_ref <$> (r : option (Z * Req * Z))).

(** The loop of [reply], run alone: [None] is still spinning. *)
Fixpoint reply_loop (fuel : nat) (rr : ResponseRing) (token : Z) (resp : Resp) : option ResponseRing :=
  match fuel with
  | O => None
  | S fuel =>
      '(rr, sent) ← resp_try_push rr token resp;
      if (sent : bool) then Some rr else reply_loop fuel rr token resp
  end.
Definition reply (fuel : nat) (rings : list ResponseRing) (t : ReplyToken) (resp : Resp)
    : option (list ResponseRing) :=
  let i := Z.to_nat (Onesided.tk_caller_id t) in
  rr ← rings !! i;
  rr ← reply_loop fuel rr (Onesided.slot_token t) resp;
  Some (<[i := rr]> rings).

Definition U16_MAX : Z := 65535.
Definition create (max_callers : nat) (ring_depth max_inflight : Z)
    : option (list JiffyCaller * JiffyServer * JiffyQueue Req * list ResponseRing) :=
  if (4 <=? ring_depth) && (0 <? Z.of_nat max_callers) && (Z.of_nat max_callers <=? U16_MAX) then
    rr ← resp_new (2 ^ Z.log2_up ring_depth);
    Some ((fun id => mkCaller (u16 (Z.of_nat id)) 0 0 max_inflight false) <$> List.seq 0 max_callers,
          mkServer (mkConsumer 0 0 ring_depth) false,
          mkQueue [buffer_new 0 ring_depth] 0 0 0 (Z.of_nat max_callers) true,
          replicate max_callers rr)
  else None.

End Channel.

(** ** The queue under concurrency *)

Section Concurrent.
Context {T : Type}.

(** [claims] is what has been claimed, by position: the caller, its token and the
    request; [taken] is what [try_dequeue] has returned; neither is read by a step. *)
Record Sys : Type := mkSys {
  queue : JiffyQueue T;
  cons : JiffyConsumer;
  serve : Serve;
  callers : list (JiffyCaller * option (Enqueue T));
  claims : list (Z * Z * T);
  taken : list (Z * Z * T);
}.
Implicit Types (s : Sys) (q : JiffyQueue T) (p : Enqueue T) (c : JiffyCaller).

Definition claiming c p : list (Z * Z * T) :=
  match p with EClaim d => [(caller_id c, send_count c, d)] | _ => [] end.
Definition receiving (a : option (Answer T)) : list (Z * Z * T) :=
  match a with Some (Dequeued (Some (id, d, token))) => [(id, token, d)] | _ => [] end.

(** Positions below [POS_MAX] are claimed. *)
Definition POS_MAX : Z := 2 ^ 62.
Definition claimable q p : Prop :=
  match p with EClaim _ => tail q < POS_MAX | _ => True end.

Definition set_caller s (q : JiffyQueue T) (j : nat) (x : JiffyCaller * option (Enqueue T))
    (l : list (Z * Z * T)) : Sys :=
  mkSys q (cons s) (serve s) (<[j := x]> (callers s)) (claims s ++ l) (taken s).

(** A response may arrive whenever the caller is not in a call. *)
Inductive jiffy_step : Sys -> Sys -> Prop :=
| step_call s j c d :
    callers s !! j = Some (c, None) -> caller_disconnected c = false -> inflight c < max_inflight c ->
    jiffy_step s (set_caller s (queue s) j (c, Some (EAlive d)) [])
| step_enqueue s j c p q p' :
    callers s !! j = Some (c, Some p) -> claimable (queue s) p ->
    enqueue_step (caller_id c) (send_count c) (queue s) p = Some (q, p') ->
    jiffy_step s (set_caller s q j (c, Some p') (claiming c p))
| step_return s j c res :
    callers s !! j = Some (c, Some (EDone res)) ->
    jiffy_step s (set_caller s (queue s) j ((call_end c res).1, None) [])
| step_response s j c :
    callers s !! j = Some (c, None) ->
    jiffy_step s (set_caller s (queue s) j (responded c, None) [])
| step_drop_caller s j c (rr : FetchAdd.ResponseRing T) :
    callers s !! j = Some (c, None) ->
    jiffy_step s (let '(c', q', _) := drop_caller c (queue s) rr in set_caller s q' j (c', None) [])
| step_recv s :
    serve s = SIdle ->
    jiffy_step s (mkSys (queue s) (cons s) SDequeue (callers s) (claims s) (taken s))
| step_poll s :
    serve s = SIdle ->
    jiffy_step s (mkSys (queue s) (cons s) (count_start (cons s)) (callers s) (claims s) (taken s))
| step_serve s q v w a :
    serve_step (queue s) (cons s) (serve s) = Some (q, v, w, a) ->
    jiffy_step s (mkSys q v w (callers s) (claims s) (taken s ++ receiving a))
| step_drop_server s :
    serve s = SIdle ->
    jiffy_step s (mkSys (drop_server (mkServer (cons s) false) (queue s)).2 (cons s) SIdle (callers s)
                    (claims s) (taken s)).

Definition sys_init (cs : list JiffyCaller) (v : JiffyServer) q : Sys :=
  mkSys q (consumer v) SIdle ((fun c => (c, None)) <$> cs) [] [].

(** *** The list of buffers *)

(** Buffer [k] of the list is the [k]-th that was linked. *)
Record chain (cap : Z) q : Prop := mkChain {
  ch_cap : 0 < cap < POS_MAX;
  ch_tail : 0 <= tail q <= POS_MAX;
  ch_buffer : forall k b, heap q !! k = Some b ->
    start_index b = Z.of_nat k * cap /\ capacity b = cap /\ length (slots b) = Z.to_nat cap /\
    next b = (if decide (S k < length (heap q))%nat then Some (S k) else None);
  ch_length : (0 < length (heap q))%nat /\ Z.of_nat (length (heap q)) * cap <= tail q + 2 * cap;
  ch_hint : (tail_buffer q < length (heap q))%nat;
  ch_head : head_buffer q = O;
}.

(** The slot of a position. *)
Definition slot_at (cap : Z) q (pos : Z) : option (JiffySlot T) :=
  b ← heap q !! Z.to_nat (pos / cap); slots b !! Z.to_nat (pos mod cap).

(** *** What the callers and the server hold *)

(** A position that is claimed and not published, with its request. *)
Definition pending p : option (Z * T) :=
  match p with
  | EHint pos d | EFind pos _ d | EAdvance pos _ _ d | ELink pos _ d | EWrite pos _ d | EPublish pos _ d =>
      Some (pos, d)
  | _ => None
  end.
(** The enqueue has claimed its position. *)
Definition claimed (op : option (Enqueue T)) : bool :=
  match op with
  | None | Some (EAlive _) | Some (EClaim _) | Some (EDone (Err _)) => false
  | _ => true
  end.

Definition in_buffer (cap : Z) (cur : nat) (pos : Z) : Prop :=
  Z.of_nat cur * cap <= pos < (Z.of_nat cur + 1) * cap.
Definition place_ok (cap : Z) q p : Prop :=
  match p with
  | EFind pos cur _ => (cur < length (heap q))%nat /\ Z.of_nat cur * cap <= pos
  | ELink pos cur _ => (cur < length (heap q))%nat /\ (Z.of_nat cur + 1) * cap <= pos
  | EAdvance pos cur _ _ | EWrite pos cur _ | EPublish pos cur _ =>
      (cur < length (heap q))%nat /\ in_buffer cap cur pos
  | ENext cur | EPreallocate cur => (cur < length (heap q))%nat /\ Z.of_nat cur * cap <= tail q
  | _ => True
  end.

Definition slot_holds (sl : JiffySlot T) (x : Z * Z * T) : Prop :=
  x.1.1 = slot_caller sl /\ x.1.2 = slot_token sl /\ slot_data sl = Some x.2.

Definition claim_at s (pos : Z) : option (Z * Z * T) := claims s !! Z.to_nat pos.

Record slot_ok s (pos : Z) (sl : JiffySlot T) : Prop := mkSlotOk {
  s_handled : pos < read_pos (cons s) -> state sl = HANDLED;
  s_waiting : read_pos (cons s) <= pos -> state sl = EMPTY \/
    state sl = SET /\ exists x, claim_at s pos = Some x /\ slot_holds sl x;
  s_fresh : tail (queue s) <= pos -> state sl = EMPTY;
}.

Notation cap s := (buffer_capacity (cons s)) (only parsing).

Record pending_ok s (c : JiffyCaller) p (pos : Z) (d : T) : Prop := mkPendingOk {
  p_range : read_pos (cons s) <= pos < tail (queue s);
  p_claim : claim_at s pos = Some (caller_id c, send_count c, d);
  p_empty : forall sl, slot_at (cap s) (queue s) pos = Some sl -> state sl = EMPTY;
  p_written : forall cur, p = EPublish pos cur d ->
    forall sl, slot_at (cap s) (queue s) pos = Some sl -> slot_holds sl (caller_id c, send_count c, d);
}.

Definition published s (pos : Z) : Prop :=
  exists sl, slot_at (cap s) (queue s) pos = Some sl /\ state sl = SET.
Definition held s (pos : Z) : Prop :=
  exists j c p d, callers s !! j = Some (c, Some p) /\ pending p = Some (pos, d).

Definition tokens_of (id : Z) (l : list (Z * Z * T)) : list Z :=
  omap (fun '(i, token, _) => if decide (i = id) then Some token else None) l.
Arguments tokens_of : simpl never.
Definition issued c (op : option (Enqueue T)) : Z := send_count c + Z.b2z (claimed op).

Definition reader_ok s (pos : Z) (buf : nat) : Prop :=
  (buf < length (heap (queue s)))%nat /\ Z.of_nat buf * cap s <= pos <= (Z.of_nat buf + 1) * cap s /\
  0 <= pos <= tail (queue s).
Definition serve_ok s : Prop :=
  match serve s with
  | SIdle | SDequeue => True
  | STake => read_pos (cons s) < (Z.of_nat (cons_head (cons s)) + 1) * cap s /\ published s (read_pos (cons s))
  | SCount count pos buf =>
      reader_ok s pos buf /\ read_pos (cons s) <= pos /\ count = u32 (pos - read_pos (cons s)) /\
      forall x, read_pos (cons s) <= x < pos -> published s x
  end.

Record inv s : Prop := mkInv {
  i_chain : chain (cap s) (queue s);
  i_claims : tail (queue s) = Z.of_nat (length (claims s));
  i_reader : reader_ok s (read_pos (cons s)) (cons_head (cons s));
  i_taken : taken s = take (Z.to_nat (read_pos (cons s))) (claims s);
  i_serve : serve_ok s;
  i_slots : forall pos sl, 0 <= pos -> slot_at (cap s) (queue s) pos = Some sl -> slot_ok s pos sl;
  i_waiting : forall pos, read_pos (cons s) <= pos < tail (queue s) -> published s pos \/ held s pos;
  i_place : forall j c p, callers s !! j = Some (c, Some p) -> place_ok (cap s) (queue s) p;
  i_pending : forall j c p pos d, callers s !! j = Some (c, Some p) -> pending p = Some (pos, d) ->
    pending_ok s c p pos d;
  i_unique : forall j j' c c' p p' pos d d', callers s !! j = Some (c, Some p) -> callers s !! j' = Some (c', Some p') ->
    pending p = Some (pos, d) -> pending p' = Some (pos, d') -> j = j';
  i_ids : forall j c op, callers s !! j = Some (c, op) -> caller_id c = Z.of_nat j /\ 0 <= send_count c;
  i_tokens : forall j c op, callers s !! j = Some (c, op) ->
    tokens_of (caller_id c) (claims s) = seqZ 0 (issued c op);
}.

(** *** Buffers and slots *)

Lemma in_buffer_div cap k pos : 0 < cap -> in_buffer cap k pos ->
  pos / cap = Z.of_nat k /\ pos mod cap = pos - Z.of_nat k * cap.
Proof.
  intros H0 [H1 H2]. assert (pos / cap = Z.of_nat k) as E.
  { symmetry. apply Z.div_unique with (pos - Z.of_nat k * cap); lia. }
  split; [done|]. rewrite Z.mod_eq by lia. rewrite E. lia.
Qed.

Lemma in_buffer_pos cap pos : 0 < cap -> 0 <= pos -> in_buffer cap (Z.to_nat (pos / cap)) pos.
Proof.
  intros H0 H. unfold in_buffer. pose proof (Z.div_pos pos cap H H0).
  pose proof (Z.div_mod pos cap ltac:(lia)). pose proof (Z.mod_pos_bound pos cap H0).
  rewrite Z2Nat.id by lia. lia.
Qed.

Lemma in_buffer_unique cap k k' pos : 0 < cap -> in_buffer cap k pos -> in_buffer cap k' pos -> k = k'.
Proof.
  intros H0 H H'. destruct (in_buffer_div _ _ _ H0 H) as [E _].
  destruct (in_buffer_div _ _ _ H0 H') as [E' _]. lia.
Qed.

Lemma buffer_at cap q k : chain cap q -> (k < length (heap q))%nat -> is_Some (heap q !! k).
Proof. intros _. apply lookup_lt_is_Some_2. Qed.

(** The index the code computes is that of the slot of the position. *)
Lemma slot_index cap q k b pos :
  chain cap q -> heap q !! k = Some b -> in_buffer cap k pos ->
  u64 (pos - start_index b) = pos - Z.of_nat k * cap /\
  slot_at cap q pos = slots b !! Z.to_nat (u64 (pos - start_index b)) /\
  is_Some (slots b !! Z.to_nat (u64 (pos - start_index b))).
Proof.
  intros C Hb Hp. pose proof (ch_cap _ _ C). destruct (ch_buffer _ _ C _ _ Hb) as (E & _ & L & _).
  destruct (in_buffer_div cap k pos) as [E1 E2]; [lia|done|]. destruct Hp. unfold POS_MAX in *.
  assert (u64 (pos - start_index b) = pos - Z.of_nat k * cap) as Eu by (rewrite u64_small; lia).
  split; [done|]. split.
  - unfold slot_at. rewrite E1, Nat2Z.id, Hb, Eu. cbn. by rewrite E2.
  - apply lookup_lt_is_Some. rewrite L, Eu. lia.
Qed.

Lemma slot_at_some cap q k pos :
  chain cap q -> (k < length (heap q))%nat -> in_buffer cap k pos -> is_Some (slot_at cap q pos).
Proof.
  intros C Hk Hp. destruct (buffer_at _ _ _ C Hk) as [b Hb].
  destruct (slot_index _ _ _ _ _ C Hb Hp) as (_ & -> & H). done.
Qed.

(** The queue has grown, and what was there is as it was. *)
Record extends (cap : Z) q q' : Prop := mkExtends {
  x_chain : chain cap q';
  x_tail : tail q' = tail q;
  x_length : (length (heap q) <= length (heap q'))%nat;
  x_slots : forall pos, 0 <= pos -> slot_at cap q' pos = slot_at cap q pos \/
    slot_at cap q pos = None /\ slot_at cap q' pos = Some slot_new;
}.

Lemma extends_old cap q q' pos sl :
  extends cap q q' -> 0 <= pos -> slot_at cap q pos = Some sl -> slot_at cap q' pos = Some sl.
Proof. intros X H E. destruct (x_slots _ _ _ X pos H) as [->|[? _]]; congruence. Qed.

Lemma extends_new cap q q' pos sl :
  extends cap q q' -> 0 <= pos -> slot_at cap q' pos = Some sl ->
  slot_at cap q pos = Some sl \/ slot_at cap q pos = None /\ sl = slot_new.
Proof. intros X H E. destruct (x_slots _ _ _ X pos H) as [<-|[? ?]]; [by left|right; split; congruence]. Qed.

(** A store into the slot of a position. *)
Record stores (cap : Z) q (pos : Z) (f : JiffySlot T -> JiffySlot T) q' : Prop := mkStores {
  w_chain : chain cap q';
  w_tail : tail q' = tail q;
  w_length : length (heap q') = length (heap q);
  w_this : slot_at cap q' pos = f <$> slot_at cap q pos;
  w_other : forall pos', 0 <= pos' -> pos' <> pos -> slot_at cap q' pos' = slot_at cap q pos';
}.

Lemma store_slot_spec cap q cur b pos f :
  chain cap q -> heap q !! cur = Some b -> in_buffer cap cur pos ->
  exists q', store_slot q cur (Z.to_nat (u64 (pos - start_index b))) f = Some q' /\ stores cap q pos f q'.
Proof.
  intros C Hb Hp. destruct (slot_index _ _ _ _ _ C Hb Hp) as (Eu & Es & [sl Hsl]).
  pose proof (ch_cap _ _ C) as Hc.
  unfold store_slot. rewrite Hb. cbn. rewrite Hsl. cbn. eexists. split; [done|].
  destruct (in_buffer_div cap cur pos) as [E1 E2]; [lia|done|].
  split; cbn; try done.
  - destruct C as [C1 C2 C3 C4 C5 C6]. split; cbn; rewrite ?length_alter; try done.
    intros k b' Hk. destruct (decide (k = cur)) as [->|Hne].
    + rewrite list_lookup_alter_eq, Hb in Hk. cbn in Hk. injection Hk as <-. cbn.
      rewrite length_alter. by apply C3.
    + rewrite list_lookup_alter_ne in Hk by done. by apply C3.
  - by rewrite length_alter.
  - unfold slot_at. cbn. rewrite E1, Nat2Z.id, list_lookup_alter_eq, Hb. cbn.
    rewrite Eu, E2, list_lookup_alter_eq. done.
  - intros pos' H0 Hne. unfold slot_at. cbn.
    destruct (decide (Z.to_nat (pos' / cap) = cur)) as [<-|Hk].
    + rewrite list_lookup_alter_eq, Hb. cbn.
      destruct (in_buffer_div cap _ pos' ltac:(lia) (in_buffer_pos cap pos' ltac:(lia) H0)) as [_ E2'].
      destruct (in_buffer_pos cap pos' ltac:(lia) H0). destruct Hp.
      rewrite list_lookup_alter_ne; [done|]. rewrite Eu, E2'. lia.
    + by rewrite list_lookup_alter_ne by done.
Qed.

Lemma link_spec cap q cur :
  chain cap q -> (cur < length (heap q))%nat -> Z.of_nat cur * cap <= tail q ->
  exists q', link q cur = Some (q', S cur) /\ extends cap q q' /\ (S cur < length (heap q'))%nat.
Proof.
  intros C Hc Ht. destruct (buffer_at _ _ _ C Hc) as [b Hb]. unfold link. rewrite Hb. cbn.
  pose proof (ch_cap _ _ C) as Hcap. destruct (ch_buffer _ _ C _ _ Hb) as (E1 & E2 & E3 & ->).
  case_decide as Hn; [exists q; split; [done|]; split; [split; auto|done]|].
  assert (length (heap q) = S cur) as EL by lia. rewrite EL, E1, E2.
  pose proof (ch_tail _ _ C). unfold POS_MAX in *.
  rewrite (u64_small (Z.of_nat cur * cap + cap)) by lia.
  eexists. split; [done|]. cbn. rewrite length_app, length_alter, EL. cbn. split; [|lia].
  assert (forall k, (k < S cur)%nat -> (alter (fun b => set_next b (S cur)) cur (heap q) ++
      [buffer_new (Z.of_nat cur * cap + cap) cap]) !! k =
      (if decide (k = cur) then fun b => set_next b (S cur) else id) <$> heap q !! k) as Hold.
  { intros k Hk. rewrite lookup_app_l by (rewrite length_alter; lia). case_decide as Hd.
    - subst k. by rewrite list_lookup_alter_eq.
    - rewrite list_lookup_alter_ne by done. by destruct (heap q !! k). }
  assert ((alter (fun b => set_next b (S cur)) cur (heap q) ++
      [buffer_new (Z.of_nat cur * cap + cap) cap]) !! S cur = Some (buffer_new (Z.of_nat cur * cap + cap) cap)) as Hnew.
  { rewrite lookup_app_r by (rewrite length_alter; lia). by rewrite length_alter, EL, Nat.sub_diag. }
  split; cbn; try done.
  - destruct C as [C1 C2 C3 C4 C5 C6]. split; cbn; rewrite ?length_app, ?length_alter, ?EL; cbn; try done; try lia.
    intros k b' Hk. assert (k < S cur \/ k = S cur)%nat as [Hlt|Heq].
    { apply lookup_lt_Some in Hk. rewrite length_app, length_alter in Hk. cbn in Hk. lia. }
    + rewrite Hold in Hk by done. destruct (heap q !! k) as [b0|] eqn:Hk0; [|done].
      cbn in Hk. injection Hk as <-. destruct (C3 _ _ Hk0) as (D1 & D2 & D3 & D4).
      rewrite EL in D4. destruct (decide (k = cur)) as [->|Hd].
      * cbn. rewrite decide_True by lia. done.
      * cbn. rewrite D4. split_and!; try done. by rewrite !decide_True by lia.
    + subst k. rewrite Hnew in Hk. injection Hk as <-. cbn. rewrite length_replicate.
      rewrite decide_False by lia. split_and!; try done; lia.
  - rewrite length_app, length_alter. lia.
  - intros pos H0. unfold slot_at. cbn.
    set (k := Z.to_nat (pos / cap)). destruct (decide (k < S cur)%nat) as [Hlt|Hge].
    + rewrite Hold by done. left. destruct (heap q !! k) as [b0|]; [|done]. cbn. by case_decide.
    + assert (heap q !! k = None) as EN by (apply lookup_ge_None; lia). rewrite EN. cbn.
      destruct (decide (k = S cur)) as [Ek|Hne].
      * right. split; [done|]. rewrite Ek, Hnew. cbn. apply lookup_replicate_2.
        pose proof (Z.mod_pos_bound pos cap ltac:(lia)). lia.
      * left. rewrite lookup_ge_None_2; [done|]. rewrite length_app, length_alter, EL. cbn. lia.
Qed.

(** *** Steps that write no slot *)

Definition set_queue s q : Sys := mkSys q (cons s) (serve s) (callers s) (claims s) (taken s).

Lemma slot_below s pos : inv s -> 0 <= pos < read_pos (cons s) ->
  is_Some (slot_at (cap s) (queue s) pos).
Proof.
  intros I H. pose proof (i_chain _ I) as C. pose proof (ch_cap _ _ C).
  destruct (i_reader _ I) as (R1 & R2 & _). pose proof (in_buffer_pos (cap s) pos ltac:(lia) ltac:(lia)) as B.
  apply (slot_at_some _ _ _ _ C) with (2 := B). destruct B. nia.
Qed.

Lemma published_extends s q' x :
  extends (cap s) (queue s) q' -> 0 <= x -> published s x -> published (set_queue s q') x.
Proof. intros X H (sl & H1 & H2). exists sl. split; [by eapply extends_old|done]. Qed.

Lemma place_extends cp q q' p : extends cp q q' -> place_ok cp q p -> place_ok cp q' p.
Proof. intros [_ E L _]. destruct p; cbn; rewrite ?E; intuition lia. Qed.

Lemma serve_extends s q' : inv s -> extends (cap s) (queue s) q' -> serve_ok (set_queue s q').
Proof.
  intros I X. pose proof (i_serve _ I) as S. destruct (i_reader _ I) as (_ & _ & R).
  unfold serve_ok in *. cbn. destruct (serve s) as [| | |count pos buf]; try done.
  - destruct S as [S1 S2]. split; [done|]. apply published_extends; auto; lia.
  - destruct S as ((S1 & S2 & S3) & S4 & S5 & S6). pose proof (x_tail _ _ _ X) as E. pose proof (x_length _ _ _ X) as L.
    split_and!; try done.
    + unfold reader_ok. cbn. rewrite E. split_and!; try done; lia.
    + intros x Hx. apply published_extends; auto; lia.
Qed.

Lemma slots_extends s q' pos sl : inv s -> extends (cap s) (queue s) q' -> 0 <= pos ->
  slot_at (cap s) q' pos = Some sl -> slot_ok (set_queue s q') pos sl.
Proof.
  intros I X H E. destruct (extends_new _ _ _ _ _ X H E) as [E'|[E' ->]].
  - destruct (i_slots _ I _ _ H E') as [S1 S2 S3]. split; cbn; try done. by rewrite (x_tail _ _ _ X).
  - split; cbn; try done; [|by left]. intros Hr. destruct (slot_below s pos I) as [? ?]; [lia|congruence].
Qed.

Lemma pending_extends s q' j c p pos d : inv s -> extends (cap s) (queue s) q' ->
  callers s !! j = Some (c, Some p) -> pending p = Some (pos, d) -> pending_ok (set_queue s q') c p pos d.
Proof.
  intros I X Hj Hp. destruct (i_pending _ I _ _ _ _ _ Hj Hp) as [P1 P2 P3 P4].
  destruct (i_reader _ I) as (_ & _ & R). split; cbn; rewrite ?(x_tail _ _ _ X); try done.
  - intros sl E. destruct (extends_new _ _ _ pos _ X ltac:(lia) E) as [E'|[_ ->]]; [by apply P3|done].
  - intros cur -> sl E. apply (P4 cur eq_refl). destruct (i_place _ I _ _ _ Hj) as [L1 L2].
    destruct (slot_at_some _ _ _ _ (i_chain _ I) L1 L2) as [sl' Hs].
    pose proof (extends_old _ _ _ pos _ X ltac:(lia) Hs). congruence.
Qed.

Lemma inv_extends s q' : inv s -> extends (cap s) (queue s) q' -> inv (set_queue s q').
Proof.
  intros I X. pose proof (x_tail _ _ _ X) as Et. destruct (i_reader _ I) as (R1 & R2 & R3).
  split; cbn; try by (destruct I; auto).
  - apply (x_chain _ _ _ X).
  - rewrite Et. apply I.
  - unfold reader_ok. cbn. rewrite Et. split_and!; try done; [|lia..]. pose proof (x_length _ _ _ X). lia.
  - by apply serve_extends.
  - intros. by apply slots_extends.
  - rewrite Et. intros pos Hp. destruct (i_waiting _ I pos Hp) as [H|H]; [left|by right].
    apply published_extends; auto. lia.
  - intros j c p Hj. eapply place_extends; [done|]. by eapply (i_place _ I).
  - intros. by eapply pending_extends.
Qed.

Definition pending_of (op : option (Enqueue T)) : option (Z * T) := op ≫= pending.

(** A caller that goes on without a new position and without publishing. *)
Lemma move_inv s j c op c' op' :
  inv s -> callers s !! j = Some (c, op) ->
  caller_id c' = caller_id c -> 0 <= send_count c' -> issued c' op' = issued c op ->
  pending_of op' = pending_of op -> (pending_of op <> None -> send_count c' = send_count c) ->
  (forall p, op' = Some p -> place_ok (cap s) (queue s) p) ->
  (forall pos cur d, op' = Some (EPublish pos cur d) -> forall sl, slot_at (cap s) (queue s) pos = Some sl ->
     slot_holds sl (caller_id c, send_count c, d)) ->
  inv (set_caller s (queue s) j (c', op') []).
Proof.
  intros I Hj Eid H0 Eis Epe Esc Hpl Hw. unfold set_caller. rewrite app_nil_r.
  assert (forall j' c1 p1, <[j := (c', op')]> (callers s) !! j' = Some (c1, Some p1) ->
     (j' = j /\ c1 = c' /\ op' = Some p1) \/ (j' <> j /\ callers s !! j' = Some (c1, Some p1))) as Hlk.
  { intros j' c1 p1 H. apply list_lookup_insert_Some in H as [(-> & E & _)|[? E]]; [left|by right].
    by injection E as <- ->. }
  assert (forall p1 pos d, op' = Some p1 -> pending p1 = Some (pos, d) ->
    exists p0, op = Some p0 /\ pending p0 = Some (pos, d)) as Hold.
  { intros p1 pos d -> E. cbn in Epe. rewrite E in Epe. destruct op as [p0|]; [|done]. by exists p0. }
  split; cbn; try by (destruct I; auto).
  - intros pos sl H E. destruct (i_slots _ I _ _ H E). by split.
  - intros pos Hp. destruct (i_waiting _ I pos Hp) as [H|(j1 & c1 & p1 & d1 & H1 & H2)]; [by left|right].
    destruct (decide (j1 = j)) as [->|Hne].
    + rewrite Hj in H1. injection H1 as <- ->. cbn in Epe. rewrite H2 in Epe.
      destruct op' as [p'|]; [|done]. exists j, c', p', d1. split; [|done]. cbn.
      apply list_lookup_insert_eq. by eapply lookup_lt_Some.
    + exists j1, c1, p1, d1. split; [|done]. cbn. by rewrite list_lookup_insert_ne by done.
  - intros j' c1 p1 H. destruct (Hlk _ _ _ H) as [(-> & -> & E)|[_ E]]; [by apply Hpl|by eapply (i_place _ I)].
  - intros j' c1 p1 pos d H Hp. destruct (Hlk _ _ _ H) as [(-> & -> & E)|[_ E]].
    + destruct (Hold _ _ _ E Hp) as (p0 & E0 & Hp0). rewrite E0 in *.
      destruct (i_pending _ I _ _ _ _ _ Hj Hp0) as [P1 P2 P3 P4].
      rewrite <-Eid, <-(Esc ltac:(cbn; by rewrite Hp0)) in P2.
      split; try done. intros cur ->. rewrite Eid, (Esc ltac:(cbn; by rewrite Hp0)). by apply (Hw pos cur d).
    + destruct (i_pending _ I _ _ _ _ _ E Hp) as [P1 P2 P3 P4]. by split.
  - intros j1 j2 c1 c2 p1 p2 pos d1 d2 H1 H2 Hp1 Hp2.
    destruct (Hlk _ _ _ H1) as [(-> & -> & E1)|[N1 E1]], (Hlk _ _ _ H2) as [(-> & -> & E2)|[N2 E2]]; try done.
    + destruct (Hold _ _ _ E1 Hp1) as (p0 & -> & Hp0). by eapply (i_unique _ I).
    + destruct (Hold _ _ _ E2 Hp2) as (p0 & -> & Hp0). by eapply (i_unique _ I).
    + by eapply (i_unique _ I).
  - intros j' c1 op1 H. apply list_lookup_insert_Some in H as [(-> & E & _)|[? E]].
    + injection E as <- <-. rewrite Eid. split; [|done]. by eapply (i_ids _ I).
    + by eapply (i_ids _ I).
  - intros j' c1 op1 H. apply list_lookup_insert_Some in H as [(-> & E & _)|[? E]].
    + injection E as <- <-. rewrite Eid, Eis. by eapply (i_tokens _ I).
    + by eapply (i_tokens _ I).
Qed.

(** *** A claim *)

Lemma claim_at_app s pos l x : claim_at s pos = Some x -> (claims s ++ l) !! Z.to_nat pos = Some x.
Proof. apply lookup_app_l_Some. Qed.

Lemma tokens_of_app id l l' : tokens_of id (l ++ l') = tokens_of id l ++ tokens_of id l'.
Proof. apply omap_app. Qed.

Lemma tokens_claim s j c d j' c' op' :
  inv s -> callers s !! j = Some (c, Some (EClaim d)) -> callers s !! j' = Some (c', op') -> j' <> j ->
  tokens_of (caller_id c') (claims s ++ [(caller_id c, send_count c, d)]) = seqZ 0 (issued c' op').
Proof.
  intros I Hj Hj' Hne. rewrite tokens_of_app, (i_tokens _ I _ _ _ Hj'). unfold tokens_of. cbn.
  destruct (i_ids _ I _ _ _ Hj) as [E _], (i_ids _ I _ _ _ Hj') as [E' _].
  rewrite decide_False by lia. apply app_nil_r.
Qed.

Definition claim_tail q : JiffyQueue T :=
  mkQueue (heap q) (tail q + 1) (tail_buffer q) (head_buffer q) (sender_count q) (rx_alive q).

Lemma claim_inv s j c d :
  inv s -> callers s !! j = Some (c, Some (EClaim d)) -> tail (queue s) < POS_MAX ->
  inv (set_caller s (claim_tail (queue s)) j (c, Some (EHint (tail (queue s)) d))
         [(caller_id c, send_count c, d)]).
Proof.
  intros I Hj Hmax. pose proof (i_claims _ I) as Et. destruct (i_reader _ I) as (R1 & R2 & R3).
  assert (forall j' c1 p1, <[j := (c, Some (EHint (tail (queue s)) d))]> (callers s) !! j' = Some (c1, Some p1) ->
     (j' = j /\ c1 = c /\ p1 = EHint (tail (queue s)) d) \/ (j' <> j /\ callers s !! j' = Some (c1, Some p1))) as Hlk.
  { intros j' c1 p1 H. apply list_lookup_insert_Some in H as [(-> & E & _)|[? E]]; [left|by right].
    by injection E as <- <-. }
  assert (forall j' c1 p1 pos d1, callers s !! j' = Some (c1, Some p1) -> pending p1 = Some (pos, d1) ->
    pos < tail (queue s)) as Hlt.
  { intros j' c1 p1 pos d1 H Hp. destruct (i_pending _ I _ _ _ _ _ H Hp). lia. }
  split; cbn; try by (destruct I; auto).
  - destruct (i_chain _ I) as [C1 C2 C3 C4 C5 C6]. split; cbn; try done; lia.
  - rewrite length_app. cbn. lia.
  - unfold reader_ok. cbn. split_and!; try done; lia.
  - rewrite take_app_le by lia. apply I.
  - pose proof (i_serve _ I) as S. unfold serve_ok in *. cbn. destruct (serve s); try done.
    destruct S as ((S1 & S2 & S3) & S4). split; [|done]. unfold reader_ok. cbn. split_and!; try done; lia.
  - intros pos sl H E. destruct (i_slots _ I _ _ H E) as [S1 S2 S3]. split; cbn; try done.
    + intros Hr. destruct (S2 Hr) as [?|(? & x & Hx & ?)]; [by left|right]. split; [done|].
      exists x. split; [by apply claim_at_app|done].
    + intros Hr. apply S3. lia.
  - intros pos Hp. destruct (decide (pos = tail (queue s))) as [->|Hne].
    + right. exists j, c, (EHint (tail (queue s)) d), d. split; [|done]. cbn.
      apply list_lookup_insert_eq. by eapply lookup_lt_Some.
    + destruct (i_waiting _ I pos ltac:(lia)) as [H|(j1 & c1 & p1 & d1 & H1 & H2)]; [by left|right].
      exists j1, c1, p1, d1. split; [|done]. cbn. rewrite list_lookup_insert_ne; [done|].
      intros <-. rewrite Hj in H1. by injection H1 as <- <-.
  - intros j' c1 p1 H. destruct (Hlk _ _ _ H) as [(-> & -> & ->)|[_ E]]; [done|].
    pose proof (i_place _ I _ _ _ E) as P. destruct p1; cbn in *; intuition lia.
  - intros j' c1 p1 pos d1 H Hp. destruct (Hlk _ _ _ H) as [(-> & -> & ->)|[_ E]].
    + cbn in Hp. injection Hp as <- <-. split; cbn; try done; [lia| |].
      * unfold claim_at. cbn. rewrite Et, Nat2Z.id. by rewrite lookup_app_r, Nat.sub_diag by lia.
      * intros sl E. apply (i_slots _ I (tail (queue s)) sl ltac:(lia) E). done.
    + destruct (i_pending _ I _ _ _ _ _ E Hp) as [P1 P2 P3 P4]. split; cbn; try done; [lia|].
      by apply claim_at_app.
  - intros j1 j2 c1 c2 p1 p2 pos d1 d2 H1 H2 Hp1 Hp2.
    destruct (Hlk _ _ _ H1) as [(-> & -> & ->)|[N1 E1]], (Hlk _ _ _ H2) as [(-> & -> & ->)|[N2 E2]]; try done.
    + injection Hp1 as <- <-. pose proof (Hlt _ _ _ _ _ E2 Hp2). lia.
    + injection Hp2 as <- <-. pose proof (Hlt _ _ _ _ _ E1 Hp1). lia.
    + by eapply (i_unique _ I).
  - intros j' c1 op1 H. apply list_lookup_insert_Some in H as [(-> & E & _)|[? E]].
    + injection E as <- <-. by eapply (i_ids _ I).
    + by eapply (i_ids _ I).
  - intros j' c1 op1 H. apply list_lookup_insert_Some in H as [(-> & E & _)|[? E]].
    + injection E as <- <-. rewrite tokens_of_app, (i_tokens _ I _ _ _ Hj).
      unfold tokens_of. cbn. rewrite decide_True by done.
      unfold issued. cbn. rewrite Z.add_0_r. symmetry. apply seqZ_succ. by eapply (i_ids _ I).
    + by eapply tokens_claim.
Qed.

(** *** Stores into slots *)

Lemma published_stores s pos f q' x :
  stores (cap s) (queue s) pos f q' -> 0 <= x -> x <> pos -> published s x -> published (set_queue s q') x.
Proof. intros W H Hne (sl & H1 & H2). exists sl. split; [|done]. cbn. by rewrite (w_other _ _ _ _ _ W). Qed.

Lemma place_stores cp q pos f q' p : stores cp q pos f q' -> place_ok cp q p -> place_ok cp q' p.
Proof. intros [_ E L _ _]. destruct p; cbn; rewrite ?E, ?L; intuition lia. Qed.

(** A store into a slot that is not read yet leaves the server's view. *)
Lemma serve_stores s pos f q' :
  inv s -> stores (cap s) (queue s) pos f q' -> ~ published s pos -> serve_ok (set_queue s q').
Proof.
  intros I W N. pose proof (i_serve _ I) as S. destruct (i_reader _ I) as (_ & _ & R).
  unfold serve_ok in *. cbn. destruct (serve s) as [| | |count pos' buf]; try done.
  - destruct S as [S1 S2]. split; [done|]. eapply published_stores; eauto; [lia|].
    intros E. apply N. by rewrite <-E.
  - destruct S as ((S1 & S2 & S3) & S4 & S5 & S6).
    pose proof (w_tail _ _ _ _ _ W) as E. pose proof (w_length _ _ _ _ _ W) as L. split_and!; try done.
    + unfold reader_ok. cbn. rewrite E, L. done.
    + intros x Hx. eapply published_stores; eauto; [lia|]. intros ->. by apply N, S6.
Qed.

Lemma reader_stores s pos f q' :
  inv s -> stores (cap s) (queue s) pos f q' ->
  reader_ok (set_queue s q') (read_pos (cons s)) (cons_head (cons s)).
Proof.
  intros I W. unfold reader_ok. cbn. rewrite (w_tail _ _ _ _ _ W), (w_length _ _ _ _ _ W). apply I.
Qed.

Lemma pending_stores s pos f q' j c p pos1 d1 :
  inv s -> stores (cap s) (queue s) pos f q' -> callers s !! j = Some (c, Some p) ->
  pending p = Some (pos1, d1) -> pos1 <> pos -> pending_ok (set_queue s q') c p pos1 d1.
Proof.
  intros I W Hj Hp Hne. destruct (i_pending _ I _ _ _ _ _ Hj Hp) as [P1 P2 P3 P4].
  destruct (i_reader _ I) as (_ & _ & R).
  split; cbn; rewrite ?(w_tail _ _ _ _ _ W), ?(w_other _ _ _ _ _ W) by lia; try done.
Qed.

Lemma slots_stores s pos f q' pos1 sl :
  inv s -> stores (cap s) (queue s) pos f q' -> 0 <= pos1 -> pos1 <> pos ->
  slot_at (cap s) q' pos1 = Some sl -> slot_ok (set_queue s q') pos1 sl.
Proof.
  intros I W H Hne E. rewrite (w_other _ _ _ _ _ W) in E by done.
  destruct (i_slots _ I _ _ H E) as [S1 S2 S3]. split; cbn; try done. by rewrite (w_tail _ _ _ _ _ W).
Qed.

Lemma pending_unpublished s j c p pos d :
  inv s -> callers s !! j = Some (c, Some p) -> pending p = Some (pos, d) -> ~ published s pos.
Proof.
  intros I Hj Hp (sl & H1 & H2). destruct (i_pending _ I _ _ _ _ _ Hj Hp) as [_ _ P _].
  by rewrite (P _ H1) in H2.
Qed.

Lemma write_inv s j c pos cur d q' :
  inv s -> callers s !! j = Some (c, Some (EWrite pos cur d)) ->
  stores (cap s) (queue s) pos (fun sl => mkSlot (state sl) (caller_id c) (send_count c) (Some d)) q' ->
  inv (set_queue s q').
Proof.
  intros I Hj W. destruct (i_pending _ I _ _ _ _ _ Hj eq_refl) as [P1 P2 P3 P4].
  pose proof (w_tail _ _ _ _ _ W) as Et. destruct (i_reader _ I) as (_ & _ & R).
  split; cbn; try by (destruct I; auto).
  - apply (w_chain _ _ _ _ _ W).
  - rewrite Et. apply I.
  - by eapply reader_stores.
  - eapply serve_stores; eauto. by eapply pending_unpublished.
  - intros pos1 sl H E. destruct (decide (pos1 = pos)) as [->|Hne]; [|by eapply slots_stores].
    rewrite (w_this _ _ _ _ _ W) in E. destruct (slot_at _ (queue s) pos) as [sl0|] eqn:E0; [|done].
    cbn in E. injection E as <-. split; cbn; rewrite ?Et; intros; try lia. left. by apply P3.
  - rewrite Et. intros pos1 Hp. destruct (i_waiting _ I pos1 Hp) as [H|H]; [|by right].
    left. eapply published_stores; eauto; [lia|]. intros ->. by eapply (pending_unpublished s j).
  - intros. eapply place_stores; [done|]. by eapply (i_place _ I).
  - intros j1 c1 p1 pos1 d1 H1 Hp1. destruct (decide (pos1 = pos)) as [->|Hne]; [|by eapply pending_stores].
    assert (j1 = j) as -> by (exact (i_unique _ I _ _ _ _ _ _ _ _ _ H1 Hj Hp1 eq_refl)). rewrite Hj in H1. injection H1 as <- <-.
    cbn in Hp1. injection Hp1 as <-. split; cbn; rewrite ?Et; try done.
    intros sl E. rewrite (w_this _ _ _ _ _ W) in E. apply fmap_Some in E as (sl0 & E & ->). exact (P3 _ E).
Qed.

Lemma inv_publish s j c pos cur d q' p' :
  inv s -> callers s !! j = Some (c, Some (EPublish pos cur d)) ->
  stores (cap s) (queue s) pos (fun sl => mkSlot SET (slot_caller sl) (slot_token sl) (slot_data sl)) q' ->
  pending p' = None -> claimed (Some p') = true -> place_ok (cap s) q' p' ->
  inv (set_caller s q' j (c, Some p') []).
Proof.
  intros I Hj W Np Hcl Hpl. destruct (i_pending _ I _ _ _ _ _ Hj eq_refl) as [P1 P2 P3 P4].
  pose proof (w_tail _ _ _ _ _ W) as Et. destruct (i_reader _ I) as (_ & _ & R).
  destruct (i_place _ I _ _ _ Hj) as [L1 L2].
  destruct (slot_at_some _ _ _ _ (i_chain _ I) L1 L2) as [sl0 E0].
  assert (slot_at (cap s) q' pos = Some (mkSlot SET (slot_caller sl0) (slot_token sl0) (slot_data sl0))) as E1.
  { by rewrite (w_this _ _ _ _ _ W), E0. }
  unfold set_caller. rewrite app_nil_r.
  assert (forall j' c1 p1 x, <[j := (c, Some p')]> (callers s) !! j' = Some (c1, Some p1) -> pending p1 = Some x ->
     j' <> j /\ callers s !! j' = Some (c1, Some p1)) as Hlk.
  { intros j' c1 p1 x H Hp. apply list_lookup_insert_Some in H as [(-> & E & _)|[? E]]; [|done].
    injection E as <- <-. congruence. }
  split; cbn; try by (destruct I; auto).
  - apply (w_chain _ _ _ _ _ W).
  - rewrite Et. apply I.
  - by eapply (reader_stores s).
  - eapply (serve_stores s); eauto. by eapply pending_unpublished.
  - intros pos1 sl H E. destruct (decide (pos1 = pos)) as [->|Hne].
    + rewrite E1 in E. injection E as <-. split; cbn; rewrite ?Et; intros; try lia. right. split; [done|].
      eexists. split; [exact P2|]. exact (P4 cur eq_refl _ E0).
    + destruct (slots_stores s pos _ q' pos1 sl I W H Hne E). by split.
  - rewrite Et. intros pos1 Hp. destruct (decide (pos1 = pos)) as [->|Hne]; [left; by eexists|].
    destruct (i_waiting _ I pos1 Hp) as [H|(j1 & c1 & p1 & d1 & H1 & H2)].
    + left. destruct (published_stores s pos _ q' pos1 W ltac:(lia) Hne H) as (sl & Hs1 & Hs2). by exists sl.
    + right. exists j1, c1, p1, d1. split; [|done]. cbn. rewrite list_lookup_insert_ne; [done|].
      intros <-. rewrite Hj in H1. injection H1 as <- <-. cbn in H2. congruence.
  - intros j1 c1 p1 H. apply list_lookup_insert_Some in H as [(-> & E & _)|[? E]].
    + by injection E as <- <-.
    + eapply place_stores; [done|]. by eapply (i_place _ I).
  - intros j1 c1 p1 pos1 d1 H Hp. destruct (Hlk _ _ _ _ H Hp) as [Hne H1].
    assert (pos1 <> pos) as Hpos.
    { intros ->. apply Hne. exact (i_unique _ I _ _ _ _ _ _ _ _ _ H1 Hj Hp eq_refl). }
    destruct (pending_stores s pos _ q' _ _ _ _ _ I W H1 Hp Hpos). by split.
  - intros j1 j2 c1 c2 p1 p2 pos1 d1 d2 H1 H2 Hp1 Hp2.
    destruct (Hlk _ _ _ _ H1 Hp1) as [_ H1'], (Hlk _ _ _ _ H2 Hp2) as [_ H2'].
    by eapply (i_unique _ I).
  - intros j1 c1 op1 H. apply list_lookup_insert_Some in H as [(-> & E & _)|[? E]].
    + injection E as <- <-. by eapply (i_ids _ I).
    + by eapply (i_ids _ I).
  - intros j1 c1 op1 H. apply list_lookup_insert_Some in H as [(-> & E & _)|[? E]].
    + injection E as <- <-. rewrite (i_tokens _ I _ _ _ Hj). unfold issued. by rewrite Hcl.
    + by eapply (i_tokens _ I).
Qed.

(** *** The enqueue *)

Lemma extends_fields cp q q' :
  chain cp q -> heap q' = heap q -> tail q' = tail q -> head_buffer q' = head_buffer q ->
  (tail_buffer q' < length (heap q))%nat -> extends cp q q'.
Proof.
  intros C E1 E2 E3 E4. assert (forall pos, slot_at cp q' pos = slot_at cp q pos) as Es.
  { intros pos. unfold slot_at. by rewrite E1. }
  split; try done; [|by rewrite E1|by left].
  destruct C as [C1 C2 C3 C4 C5 C6]. split; rewrite ?E1, ?E2, ?E3; done.
Qed.

(** The invariant after a step that changes the queue and then the caller. *)
Lemma inv_extend_move s j c p q' p' :
  inv s -> callers s !! j = Some (c, Some p) -> extends (cap s) (queue s) q' ->
  claimed (Some p') = claimed (Some p) -> pending p' = pending p ->
  (forall pos cur d, p' <> EPublish pos cur d) -> place_ok (cap s) q' p' ->
  inv (set_caller s q' j (c, Some p') []).
Proof.
  intros I Hj X Ec Ep Nw Hpl. pose proof (inv_extends s q' I X) as I'.
  apply (move_inv (set_queue s q') j c (Some p) c (Some p')); auto.
  - by eapply (i_ids _ I).
  - unfold issued. by rewrite Ec.
  - intros p1 [= <-]. done.
  - intros pos cur d [= ->]. by destruct (Nw pos cur d).
Qed.

(** What an access of an enqueue does, and that it is within the queue. *)
Lemma enqueue_inv s j c p :
  inv s -> callers s !! j = Some (c, Some p) -> claimable (queue s) p -> (forall res, p <> EDone res) ->
  exists q p', enqueue_step (caller_id c) (send_count c) (queue s) p = Some (q, p') /\
    inv (set_caller s q j (c, Some p') (claiming c p)).
Proof.
  intros I Hj Hcl Nd. pose proof (i_chain _ I) as C. pose proof (ch_cap _ _ C) as Hcap.
  pose proof (ch_tail _ _ C) as Ht. pose proof (extends_fields _ _ _ C eq_refl eq_refl eq_refl (ch_hint _ _ C)) as X0.
  pose proof (i_place _ I _ _ _ Hj) as Hp. unfold POS_MAX in *.
  destruct p as [d|d|pos d|pos cur d|pos cur old d|pos cur d|pos cur d|pos cur d|cur|cur|res];
    cbn [enqueue_step claiming]; cbn in Hp.
  - eexists _, _. split; [done|]. destruct (rx_alive (queue s)); eapply inv_extend_move; eauto; done.
  - eexists _, _. split; [done|]. rewrite u64_small by (cbn in Hcl; unfold POS_MAX in *; lia).
    by apply (claim_inv s j c d).
  - destruct (buffer_at _ _ _ C (ch_hint _ _ C)) as [b Hb]. rewrite Hb. cbn [mbind option_bind].
    eexists _, _. split; [done|]. destruct (ch_buffer _ _ C _ _ Hb) as (E & _).
    eapply inv_extend_move; eauto; try done. cbn.
    destruct (i_pending _ I _ _ _ _ _ Hj eq_refl) as [P1 _ _ _]. destruct (i_reader _ I) as (_ & _ & R).
    destruct (Z.ltb_spec pos (start_index b)); [rewrite (ch_head _ _ C)|rewrite <-E]; split; try apply C; lia.
  - destruct Hp as [H1 H2]. destruct (buffer_at _ _ _ C H1) as [b Hb]. rewrite Hb. cbn [mbind option_bind].
    destruct (ch_buffer _ _ C _ _ Hb) as (E1 & E2 & _ & E4).
    destruct (i_pending _ I _ _ _ _ _ Hj eq_refl) as [P1 _ _ _]. rewrite E1, E2 in *.
    rewrite (u64_small (Z.of_nat cur * cap s + cap s)) by lia.
    destruct (Z.leb_spec (Z.of_nat cur * cap s) pos); [cbn [andb]|lia].
    destruct (Z.ltb_spec pos (Z.of_nat cur * cap s + cap s)).
    + destruct (buffer_at _ _ _ C (ch_hint _ _ C)) as [b' Hb']. rewrite Hb'. cbn [mbind option_bind].
      eexists _, _. split; [done|]. destruct (_ <? _); eapply inv_extend_move; eauto; try done; cbn;
        unfold in_buffer; split; try done; lia.
    + eexists _, _. split; [done|]. rewrite E4. case_decide; eapply inv_extend_move; eauto; try done; cbn;
        split; try done; lia.
  - eexists _, _. split; [done|]. eapply inv_extend_move; eauto; try done.
    + case_bool_decide; [|done]. apply extends_fields; try done. apply Hp.
    + case_bool_decide; done.
  - destruct Hp as [H1 H2]. destruct (i_pending _ I _ _ _ _ _ Hj eq_refl) as [P1 _ _ _].
    destruct (link_spec _ _ cur C H1 ltac:(lia)) as (q' & -> & X & L). cbn [mbind option_bind].
    eexists _, _. split; [done|]. eapply inv_extend_move; eauto; try done. cbn. split; [done|lia].
  - destruct Hp as [H1 H2]. destruct (buffer_at _ _ _ C H1) as [b Hb]. rewrite Hb. cbn [mbind option_bind].
    destruct (store_slot_spec _ _ _ _ _ (fun sl => mkSlot (state sl) (caller_id c) (send_count c) (Some d)) C Hb H2)
      as (q' & -> & W). cbn [mbind option_bind]. eexists _, _. split; [done|].
    pose proof (write_inv _ _ _ _ _ _ _ I Hj W) as I'.
    apply (move_inv (set_queue s q') j c (Some (EWrite pos cur d)) c); auto.
    + by eapply (i_ids _ I).
    + intros p1 [= <-]. cbn. by rewrite (w_length _ _ _ _ _ W).
    + intros pos1 cur1 d1 [= <- <- <-] sl. cbn. rewrite (w_this _ _ _ _ _ W).
      intros (sl0 & _ & ->)%fmap_Some. done.
  - destruct Hp as [H1 H2]. destruct (buffer_at _ _ _ C H1) as [b Hb]. rewrite Hb. cbn [mbind option_bind].
    destruct (store_slot_spec _ _ _ _ _ (fun sl => mkSlot SET (slot_caller sl) (slot_token sl) (slot_data sl)) C Hb H2)
      as (q' & -> & W). cbn [mbind option_bind]. eexists _, _. split; [done|].
    destruct (i_pending _ I _ _ _ _ _ Hj eq_refl) as [P1 _ _ _]. destruct H2.
    eapply inv_publish; eauto; destruct (_ =? 1); try done. cbn.
    rewrite (w_length _ _ _ _ _ W), (w_tail _ _ _ _ _ W). split; [done|lia].
  - destruct Hp as [H1 H2]. destruct (buffer_at _ _ _ C H1) as [b Hb]. rewrite Hb. cbn [mbind option_bind].
    eexists _, _. split; [done|]. destruct (next b); eapply inv_extend_move; eauto; done.
  - destruct Hp as [H1 H2]. destruct (link_spec _ _ cur C H1 H2) as (q' & -> & X & L). cbn [mbind option_bind].
    eexists _, _. split; [done|]. eapply inv_extend_move; eauto; done.
  - by destruct (Nd res).
Qed.

(** *** The server *)

Definition set_server s (k : nat) (w : Serve) : Sys :=
  mkSys (queue s) (mkConsumer (read_pos (cons s)) k (cap s)) w (callers s) (claims s) (taken s).

Lemma inv_server s k w :
  inv s -> reader_ok s (read_pos (cons s)) k -> serve_ok (set_server s k w) -> inv (set_server s k w).
Proof.
  intros I R S. split; cbn; try by (destruct I; auto).
  - intros pos sl H E. destruct (i_slots _ I _ _ H E). by split.
  - intros j c p pos d Hj Hp. destruct (i_pending _ I _ _ _ _ _ Hj Hp). by split.
Qed.

Lemma inv_take s q' x :
  inv s -> serve s = STake ->
  stores (cap s) (queue s) (read_pos (cons s))
    (fun sl => mkSlot HANDLED (slot_caller sl) (slot_token sl) (slot_data sl)) q' ->
  claim_at s (read_pos (cons s)) = Some x ->
  inv (mkSys q' (mkConsumer (read_pos (cons s) + 1) (cons_head (cons s)) (cap s)) SIdle (callers s)
         (claims s) (taken s ++ [x])).
Proof.
  intros I Hs W Hx. pose proof (i_serve _ I) as Sv. unfold serve_ok in Sv. rewrite Hs in Sv.
  destruct Sv as [S1 S2]. destruct (i_reader _ I) as (R1 & R2 & R3). pose proof (w_tail _ _ _ _ _ W) as Et.
  assert (read_pos (cons s) < tail (queue s)) as Hlt.
  { apply lookup_lt_Some in Hx. rewrite (i_claims _ I). lia. }
  assert (forall j c p pos d, callers s !! j = Some (c, Some p) -> pending p = Some (pos, d) ->
    pos <> read_pos (cons s)) as Hne.
  { intros j c p pos d Hj Hp ->. by eapply pending_unpublished. }
  split; cbn; try by (destruct I; auto).
  - apply (w_chain _ _ _ _ _ W).
  - rewrite Et. apply I.
  - unfold reader_ok. cbn. rewrite Et, (w_length _ _ _ _ _ W). split_and!; try done; lia.
  - rewrite (i_taken _ I), Z2Nat.inj_add by lia. cbn. rewrite Nat.add_1_r. symmetry. by apply take_S_r.
  - intros pos sl H E. destruct (decide (pos = read_pos (cons s))) as [->|Hn].
    + rewrite (w_this _ _ _ _ _ W) in E. apply fmap_Some in E as (sl0 & _ & ->).
      split; cbn; rewrite ?Et; intros; [done|lia..].
    + destruct (slots_stores s _ _ q' pos sl I W H Hn E) as [T1 T2 T3]. cbn in *. split; cbn; try done.
      * intros. apply T1. lia.
      * intros. apply T2. lia.
  - rewrite Et. intros pos Hp. destruct (i_waiting _ I pos ltac:(lia)) as [H|H]; [left|by right].
    destruct (published_stores s _ _ q' pos W ltac:(lia) ltac:(lia) H) as (sl & ? & ?). by exists sl.
  - intros. eapply place_stores; [done|]. by eapply (i_place _ I).
  - intros j c p pos d Hj Hp. pose proof (Hne _ _ _ _ _ Hj Hp) as Hn.
    destruct (pending_stores s _ _ q' _ _ _ _ _ I W Hj Hp Hn) as [P1 P2 P3 P4]. cbn in *.
    split; cbn; try done. lia.
Qed.

Lemma reader_buffer s pos k :
  inv s -> reader_ok s pos k ->
  exists b, heap (queue s) !! k = Some b /\ u64 (pos - start_index b) = pos - Z.of_nat k * cap s /\
    next b = (if decide (S k < length (heap (queue s)))%nat then Some (S k) else None).
Proof.
  intros I (R1 & R2 & R3). pose proof (i_chain _ I) as C. pose proof (ch_cap _ _ C). unfold POS_MAX in *.
  destruct (buffer_at _ _ _ C R1) as [b Hb]. exists b. destruct (ch_buffer _ _ C _ _ Hb) as (E & _ & _ & E').
  split_and!; try done. rewrite u64_small; lia.
Qed.

Lemma reader_next s pos k :
  reader_ok s pos k -> cap s <= pos - Z.of_nat k * cap s -> (S k < length (heap (queue s)))%nat ->
  0 < cap s -> reader_ok s pos (S k).
Proof. intros (R1 & R2 & R3) H L H0. split_and!; try done; lia. Qed.

(** A published slot at the end of what is read holds the next claim. *)
Lemma published_claim s pos : inv s -> published s pos -> read_pos (cons s) <= pos ->
  pos < tail (queue s) /\ exists sl x, slot_at (cap s) (queue s) pos = Some sl /\
    claim_at s pos = Some x /\ slot_holds sl x.
Proof.
  intros I (sl & E & Es) Hr. destruct (i_reader _ I) as (_ & _ & R).
  destruct (i_slots _ I pos sl ltac:(lia) E) as [_ S2 S3]. split.
  - destruct (Z.lt_ge_cases pos (tail (queue s))) as [|Hge]; [done|]. by rewrite (S3 Hge) in Es.
  - destruct (S2 Hr) as [He|[_ (x & Hx & Hh)]]; [by rewrite He in Es|by exists sl, x].
Qed.

Lemma count_inv s count pos buf :
  inv s -> serve s = SCount count pos buf ->
  exists w a, serve_step (queue s) (cons s) (serve s) = Some (queue s, cons s, w, a) /\ receiving a = [] /\
    inv (set_server s (cons_head (cons s)) w).
Proof.
  intros I Hs. pose proof (i_serve _ I) as Sv. unfold serve_ok in Sv. rewrite Hs in Sv |- *. cbn [serve_step].
  destruct Sv as (R & S1 & S2 & S3). pose proof (i_chain _ I) as C. pose proof (ch_cap _ _ C) as Hcap.
  destruct (reader_buffer _ _ _ I R) as (b & Hb & Eb & En). rewrite Hb. cbn [mbind option_bind]. rewrite Eb.
  destruct (Z.leb_spec (cap s) (pos - Z.of_nat buf * cap s)) as [Hge|Hlt].
  - rewrite En. eexists _, _. split; [done|]. split; [by case_decide|]. apply inv_server; [done|apply I|].
    case_decide as Hd; [|done]. split; [apply (reader_next s); auto; lia|done].
  - pose proof R as (R1 & R2 & R3). assert (in_buffer (cap s) buf pos) as Hp by (split; lia).
    destruct (slot_index _ _ _ _ _ C Hb Hp) as (Eu & Es & [sl Hsl]). rewrite <-Eu, Hsl. cbn [mbind option_bind].
    destruct (Z.eqb_spec (state sl) SET) as [E|]; cbn [negb].
    + assert (published s pos) as Pb by (exists sl; split; [by rewrite Es|done]).
      destruct (published_claim s pos I Pb S1) as [Hpt _].
      pose proof (ch_tail _ _ C). unfold POS_MAX in *. rewrite (u64_small (pos + 1)) by lia.
      eexists _, _. split; [done|]. split; [done|]. apply inv_server; [done|apply I|]. cbn. split_and!; try done.
      * unfold reader_ok. split_and!; cbn; try done; lia.
      * lia.
      * rewrite S2, u32_succ. f_equal. lia.
      * intros x Hx. destruct (decide (x = pos)) as [->|]; [done|]. apply S3. lia.
    + eexists _, _. split; [done|]. split; [done|]. apply inv_server; [done|apply I|done].
Qed.

Lemma dequeue_inv s :
  inv s -> serve s = SDequeue ->
  exists v w a, serve_step (queue s) (cons s) (serve s) = Some (queue s, v, w, a) /\ receiving a = [] /\
    inv (mkSys (queue s) v w (callers s) (claims s) (taken s)).
Proof.
  intros I Hs. rewrite Hs. cbn [serve_step]. pose proof (i_reader _ I) as R. pose proof (i_chain _ I) as C.
  pose proof (ch_cap _ _ C) as Hcap. destruct (reader_buffer _ _ _ I R) as (b & Hb & Eb & En).
  rewrite Hb. cbn [mbind option_bind]. rewrite Eb.
  assert (forall w, serve_ok (set_server s (cons_head (cons s)) w) ->
     inv (mkSys (queue s) (cons s) w (callers s) (claims s) (taken s))) as Hw.
  { intros w Sw. pose proof (inv_server s _ w I R Sw) as I'. unfold set_server in I'. by destruct (cons s). }
  destruct (Z.leb_spec (cap s) (read_pos (cons s) - Z.of_nat (cons_head (cons s)) * cap s)) as [Hge|Hlt].
  - rewrite En. case_decide as Hd; eexists _, _, _; (split; [done|]); (split; [done|]).
    + apply (inv_server s _ SDequeue); [done| |done]. apply reader_next; auto; lia.
    + by apply Hw.
  - pose proof R as (R1 & R2 & R3). assert (in_buffer (cap s) (cons_head (cons s)) (read_pos (cons s))) as Hp by (split; lia).
    destruct (slot_index _ _ _ _ _ C Hb Hp) as (Eu & Es & [sl Hsl]). rewrite <-Eu, Hsl. cbn [mbind option_bind].
    destruct (Z.eqb_spec (state sl) SET) as [E|]; eexists _, _, _; (split; [done|]); (split; [done|]); apply Hw; [|done].
    cbn. split; [lia|]. exists sl. split; [by cbn; rewrite Es|done].
Qed.

Lemma take_inv s :
  inv s -> serve s = STake ->
  exists q v w a, serve_step (queue s) (cons s) (serve s) = Some (q, v, w, a) /\
    inv (mkSys q v w (callers s) (claims s) (taken s ++ receiving a)).
Proof.
  intros I Hs. pose proof (i_serve _ I) as Sv. unfold serve_ok in Sv. rewrite Hs in Sv |- *. cbn [serve_step].
  destruct Sv as [S1 S2]. pose proof (i_reader _ I) as R. pose proof (i_chain _ I) as C.
  destruct (reader_buffer _ _ _ I R) as (b & Hb & _ & _). rewrite Hb. cbn [mbind option_bind].
  pose proof R as (R1 & R2 & R3). assert (in_buffer (cap s) (cons_head (cons s)) (read_pos (cons s))) as Hp by (split; lia).
  destruct (slot_index _ _ _ _ _ C Hb Hp) as (_ & Es & [sl Hsl]). rewrite Hsl. cbn [mbind option_bind].
  destruct (published_claim s _ I S2 ltac:(lia)) as (Hlt & sl' & x & Esl & Hx & Hh).
  assert (sl' = sl) as -> by congruence. destruct Hh as (H1 & H2 & H3). rewrite H3. cbn [mbind option_bind].
  destruct (store_slot_spec _ _ _ _ _ (fun sl => mkSlot HANDLED (slot_caller sl) (slot_token sl) (slot_data sl)) C Hb Hp)
    as (q' & -> & W). cbn [mbind option_bind].
  pose proof (ch_tail _ _ C). unfold POS_MAX in *. rewrite (u64_small (read_pos (cons s) + 1)) by lia.
  eexists _, _, _, _. split; [done|]. cbn [receiving]. rewrite <-H1, <-H2.
  replace (x.1.1, x.1.2, x.2) with x by (by destruct x as [[]]). by apply inv_take.
Qed.

(** *** Every step *)

Lemma tokens_of_length id l : (length (tokens_of id l) <= length l)%nat.
Proof. unfold tokens_of. induction l as [|[[i t] d] l IH]; [done|]. cbn. case_decide; cbn; lia. Qed.

Lemma issued_bound s j c op : inv s -> callers s !! j = Some (c, op) -> issued c op <= POS_MAX.
Proof.
  intros I Hj. pose proof (i_tokens _ I _ _ _ Hj) as E. apply (f_equal length) in E.
  rewrite length_seqZ in E. pose proof (ch_tail _ _ (i_chain _ I)). rewrite (i_claims _ I) in *.
  pose proof (tokens_of_length (caller_id c) (claims s)). lia.
Qed.

Lemma serve_inv s :
  inv s -> serve s <> SIdle ->
  exists q v w a, serve_step (queue s) (cons s) (serve s) = Some (q, v, w, a) /\
    inv (mkSys q v w (callers s) (claims s) (taken s ++ receiving a)).
Proof.
  intros I Ns. destruct (serve s) as [| | |count pos buf] eqn:Es; [done| | |].
  - destruct (dequeue_inv s I Es) as (v & w & a & H & Ea & I'). rewrite Es in H.
    exists (queue s), v, w, a. split; [done|]. by rewrite Ea, app_nil_r.
  - rewrite <-Es. by apply take_inv.
  - destruct (count_inv s _ _ _ I Es) as (w & a & H & Ea & I'). rewrite Es in H.
    exists (queue s), (cons s), w, a. split; [done|]. rewrite Ea, app_nil_r.
    unfold set_server in I'. by destruct (cons s).
Qed.

Lemma return_inv s j c res :
  inv s -> callers s !! j = Some (c, Some (EDone res)) ->
  inv (set_caller s (queue s) j ((call_end c res).1, None) []).
Proof.
  intros I Hj. pose proof (issued_bound _ _ _ _ I Hj) as B. destruct (i_ids _ I _ _ _ Hj) as [_ H0].
  unfold issued, POS_MAX in B. eapply move_inv; eauto; destruct res; cbn in *; try done;
    unfold issued; cbn; rewrite ?u64_small by lia; lia.
Qed.

Lemma idle_inv s j c c' op' :
  inv s -> callers s !! j = Some (c, None) -> caller_id c' = caller_id c -> send_count c' = send_count c ->
  claimed op' = false -> pending_of op' = None -> (forall p, op' = Some p -> place_ok (cap s) (queue s) p) ->
  inv (set_caller s (queue s) j (c', op') []).
Proof.
  intros I Hj E1 E2 E3 E4 Hp. eapply move_inv; eauto.
  - rewrite E2. by eapply (i_ids _ I).
  - unfold issued. by rewrite E2, E3.
  - intros pos cur d ->. done.
Qed.

Lemma jiffy_step_inv s s' : jiffy_step s s' -> inv s -> inv s'.
Proof.
  intros H I. pose proof (i_chain _ I) as C. pose proof (ch_hint _ _ C) as Hh. destruct H as
    [s j c d Hj|s j c p q p' Hj Hcl E|s j c res Hj|s j c Hj|s j c rr Hj|s Hs|s Hs|s q v w a E|s Hs].
  - eapply idle_inv; eauto. by intros p [= <-].
  - destruct (enqueue_inv s j c p I Hj Hcl) as (q1 & p1 & E1 & I'); [by intros res ->|congruence].
  - by apply return_inv.
  - by eapply idle_inv.
  - unfold drop_caller. destruct (caller_disconnected c); [by eapply idle_inv|].
    eapply (idle_inv (set_queue s _)); eauto; try done. apply inv_extends; [done|]. by apply extends_fields.
  - pose proof (inv_server s _ SDequeue I (i_reader _ I) Logic.I) as I'. unfold set_server in I'. by destruct (cons s).
  - assert (inv (set_server s (cons_head (cons s)) (count_start (cons s)))) as I'.
    { apply inv_server; [done|apply I|]. split; [apply I|]. cbn. split_and!; try done; [|lia].
      by rewrite Z.sub_diag. }
    unfold set_server in I'. by destruct (cons s).
  - destruct (serve_inv s I) as (q1 & v1 & w1 & a1 & E1 & I'); [by intros Hs; rewrite Hs in E|congruence].
  - pose proof (inv_extends s (drop_server (mkServer (cons s) false) (queue s)).2 I) as I'.
    unfold set_queue in I'. rewrite Hs in I'. apply I'. by apply extends_fields.
Qed.

Lemma jiffy_steps_inv s s' : rtc jiffy_step s s' -> inv s -> inv s'.
Proof. induction 1; eauto using jiffy_step_inv. Qed.

Lemma jiffy_init_inv {R} n depth m cs v q (rings : list (FetchAdd.ResponseRing R)) :
  create n depth m = Some (cs, v, q, rings) -> depth < POS_MAX ->
  inv (sys_init cs v q) /\ cap (sys_init cs v q) = depth.
Proof.
  unfold create. destruct (_ && _) eqn:E; [|done]. guards. destruct (resp_new _) as [rr|]; [|done]. cbn.
  intros [= <- <- <- <-] Hd. split; [|done]. unfold U16_MAX in *.
  assert (forall pos sl, slot_at depth (mkQueue [buffer_new 0 depth] 0 0 0 (Z.of_nat n) true) pos = Some sl ->
    state sl = EMPTY) as He.
  { intros pos sl. unfold slot_at. cbn. destruct (Z.to_nat (pos / depth)) as [|[]]; cbn; try done.
    by intros [-> _]%lookup_replicate. }
  assert (forall j c op, ((fun c => (c, None)) <$>
     ((fun id => mkCaller (u16 (Z.of_nat id)) 0 0 m false) <$> List.seq 0 n)) !! j = Some (c, op) ->
     caller_id c = Z.of_nat j /\ send_count c = 0 /\ op = None (A := Enqueue T)) as Hc.
  { intros j c op Hj. rewrite !list_lookup_fmap in Hj. apply fmap_Some in Hj as (c0 & Hj & [= -> ->]).
    apply fmap_Some in Hj as (id & Hid & ->). apply lookup_seq in Hid as [-> ?]. cbn.
    split; [apply u16_small; lia|done]. }
  split; cbn; try done.
  - split; cbn; try lia; try done. intros k b. destruct k as [|[]]; cbn; try done. intros [= <-]. cbn.
    rewrite length_replicate. done.
  - unfold reader_ok. cbn. lia.
  - intros pos sl Hpos E1. apply He in E1. split; cbn; try done; [lia|by left].
  - intros pos. lia.
  - intros j c p Hj. by destruct (Hc _ _ _ Hj) as (_ & _ & ?).
  - intros j c p pos d Hj. by destruct (Hc _ _ _ Hj) as (_ & _ & ?).
  - intros j j' c c' p p' pos d d' Hj. by destruct (Hc _ _ _ Hj) as (_ & _ & ?).
  - intros j c op Hj. destruct (Hc _ _ _ Hj) as (-> & -> & _). done.
  - intros j c op Hj. destruct (Hc _ _ _ Hj) as (-> & E2 & ->). unfold issued. by rewrite E2.
Qed.

Lemma serve_step_cap q v w q' v' w' a :
  serve_step (T := T) q v w = Some (q', v', w', a) -> buffer_capacity v' = buffer_capacity v.
Proof.
  intros E. destruct w; cbn in E; try done; apply bind_Some in E as (b & _ & E); cbn in E.
  - destruct (_ <=? _); [destruct (next b); by simplify_eq|].
    apply bind_Some in E as (sl & _ & E). destruct (_ =? _); by simplify_eq.
  - do 3 apply bind_Some in E as (? & _ & E). by simplify_eq.
  - destruct (_ <=? _); [by simplify_eq|].
    apply bind_Some in E as (sl & _ & E). destruct (negb _); by simplify_eq.
Qed.

Lemma step_cap s s' : jiffy_step s s' -> cap s' = cap s.
Proof.
  destruct 1 as [| | | |s j c rr Hj| | |s q v w a E|]; try done.
  - unfold drop_caller. by destruct (caller_disconnected c).
  - by eapply serve_step_cap.
Qed.

Lemma reachable_inv {R} n depth m cs v q (rings : list (FetchAdd.ResponseRing R)) s :
  create n depth m = Some (cs, v, q, rings) -> depth < POS_MAX -> rtc jiffy_step (sys_init cs v q) s ->
  inv s /\ cap s = depth.
Proof.
  intros Hc Hd Hs. destruct (jiffy_init_inv _ _ _ _ _ _ _ Hc Hd) as [I E]. split; [by eapply jiffy_steps_inv|].
  rewrite <-E. clear - Hs. induction Hs as [|s1 s2 s3 H12 _ IH]; [done|]. rewrite IH. by apply step_cap.
Qed.

(** *** What the queue promises *)

(** C28: The queue is first in, first out, by the order of claims.  In every interleaving
    of the memory accesses of any number of callers and the server, what the server has
    received is the beginning of what was claimed, each request with its caller and the
    token its call returns; the tokens of a caller are 0, 1, 2 and so on in that order; a
    claim that is not received is published or held by a caller that is still in its
    call; and no access leaves a buffer or reads a slot that was not written. *)
Theorem jiffy_fifo {R} n depth m cs v q (rings : list (FetchAdd.ResponseRing R)) s :
  create n depth m = Some (cs, v, q, rings) -> depth < POS_MAX -> rtc jiffy_step (sys_init cs v q) s ->
  taken s = take (Z.to_nat (read_pos (cons s))) (claims s) /\
  (forall j c op, callers s !! j = Some (c, op) -> tokens_of (Z.of_nat j) (claims s) = seqZ 0 (issued c op)) /\
  (forall pos, read_pos (cons s) <= pos < Z.of_nat (length (claims s)) -> published s pos \/ held s pos) /\
  (forall j c p, callers s !! j = Some (c, Some p) -> claimable (queue s) p -> (forall res, p <> EDone res) ->
     is_Some (enqueue_step (caller_id c) (send_count c) (queue s) p)) /\
  (serve s <> SIdle -> is_Some (serve_step (queue s) (cons s) (serve s))).
Proof.
  intros Hc Hd Hs. destruct (reachable_inv _ _ _ _ _ _ _ _ Hc Hd Hs) as [I _]. split_and!.
  - apply I.
  - intros j c op Hj. destruct (i_ids _ I _ _ _ Hj) as [<- _]. by eapply (i_tokens _ I).
  - rewrite <-(i_claims _ I). apply I.
  - intros j c p Hj Hcl Hn. destruct (enqueue_inv _ _ _ _ I Hj Hcl Hn) as (q' & p' & -> & _). by eexists.
  - intros Hn. destruct (serve_inv _ I Hn) as (q' & v' & w & a & -> & _). by eexists.
Qed.

(** *** Enqueueing is wait-free *)

(** The accesses an enqueue has left once it has claimed. *)
Definition steps_left (cp : Z) p : Z :=
  match p with
  | EHint pos _ => 7 + 2 * (pos / cp)
  | EFind pos cur _ => 6 + 2 * (pos / cp - Z.of_nat cur)
  | ELink pos cur _ => 5 + 2 * (pos / cp - Z.of_nat cur)
  | EAdvance _ _ _ _ => 5
  | EWrite _ _ _ => 4
  | EPublish _ _ _ => 3
  | ENext _ => 2
  | EPreallocate _ => 1
  | _ => 0
  end.

Lemma steps_left_decreases s j c p q p' :
  inv s -> callers s !! j = Some (c, Some p) -> claimed (Some p) = true ->
  enqueue_step (caller_id c) (send_count c) (queue s) p = Some (q, p') ->
  claimed (Some p') = true /\ 0 <= steps_left (cap s) p' < steps_left (cap s) p.
Proof.
  intros I Hj Hcl E. pose proof (i_chain _ I) as C. pose proof (ch_cap _ _ C) as Hcap.
  pose proof (i_place _ I _ _ _ Hj) as Hp. destruct (i_reader _ I) as (_ & _ & R).
  destruct p as [d|d|pos d|pos cur d|pos cur old d|pos cur d|pos cur d|pos cur d|cur|cur|res];
    try done; cbn [enqueue_step] in E.
  - destruct (buffer_at _ _ _ C (ch_hint _ _ C)) as [b Hb]. rewrite Hb in E. cbn [mbind option_bind] in E.
    destruct (ch_buffer _ _ C _ _ Hb) as (Es & _). injection E as <- <-. split; [done|]. cbn.
    destruct (i_pending _ I _ _ _ _ _ Hj eq_refl) as [P1 _ _ _].
    destruct (Z.ltb_spec pos (start_index b)); [rewrite (ch_head _ _ C); pose proof (Z.div_pos pos (cap s)); lia|].
    pose proof (Z.div_le_lower_bound pos (cap s) (Z.of_nat (tail_buffer (queue s)))). lia.
  - destruct Hp as [H1 H2]. destruct (buffer_at _ _ _ C H1) as [b Hb]. rewrite Hb in E. cbn [mbind option_bind] in E.
    destruct (ch_buffer _ _ C _ _ Hb) as (E1 & E2 & _ & E4). rewrite E1, E2, E4 in E.
    destruct (i_pending _ I _ _ _ _ _ Hj eq_refl) as [P1 _ _ _]. pose proof (ch_tail _ _ C). unfold POS_MAX in *.
    rewrite (u64_small (Z.of_nat cur * cap s + cap s)) in E by lia.
    pose proof (Z.div_le_lower_bound pos (cap s) (Z.of_nat cur) ltac:(lia) ltac:(lia)).
    destruct (Z.leb_spec (Z.of_nat cur * cap s) pos); [cbn [andb] in E|lia].
    destruct (Z.ltb_spec pos (Z.of_nat cur * cap s + cap s)).
    + destruct (heap (queue s) !! tail_buffer (queue s)) as [o|]; [|done]. cbn in E. injection E as <- <-.
      destruct (_ <? _); cbn; split; try done; lia.
    + pose proof (Z.div_le_lower_bound pos (cap s) (Z.of_nat cur + 1) ltac:(lia) ltac:(lia)).
      injection E as <- <-. case_decide; cbn; split; try done; lia.
  - injection E as <- <-. done.
  - destruct Hp as [H1 H2]. destruct (i_pending _ I _ _ _ _ _ Hj eq_refl) as [P1 _ _ _].
    destruct (link_spec _ _ cur C H1 ltac:(lia)) as (q' & El & _ & _). rewrite El in E. cbn in E.
    injection E as <- <-. split; [done|]. cbn.
    pose proof (Z.div_le_lower_bound pos (cap s) (Z.of_nat cur + 1) ltac:(lia) ltac:(lia)). lia.
  - apply bind_Some in E as (b & _ & E). apply bind_Some in E as (q1 & _ & E). by simplify_eq.
  - apply bind_Some in E as (b & _ & E). apply bind_Some in E as (q1 & _ & E). simplify_eq. by destruct (_ =? 1).
  - apply bind_Some in E as (b & _ & E). simplify_eq. by destruct (next b).
  - apply bind_Some in E as ([q1 n] & _ & E). by simplify_eq.
Qed.

Lemma steps_left_nonneg s j c p : inv s -> callers s !! j = Some (c, Some p) -> 0 <= steps_left (cap s) p.
Proof.
  intros I Hj. pose proof (ch_cap _ _ (i_chain _ I)) as Hcap. pose proof (i_place _ I _ _ _ Hj) as Hp.
  destruct (i_reader _ I) as (_ & _ & R). destruct p; cbn in *; try lia;
    destruct (i_pending _ I _ _ _ _ _ Hj eq_refl) as [P1 _ _ _].
  - pose proof (Z.div_pos pos (cap s)). lia.
  - pose proof (Z.div_le_lower_bound pos (cap s) (Z.of_nat cur)). lia.
  - pose proof (Z.div_le_lower_bound pos (cap s) (Z.of_nat cur)). lia.
Qed.

(** [own j n s s']: from [s] to [s'] caller [j] has made [n] accesses of the call it is
    in, and the others and the server any number of steps. *)
Inductive own (j : nat) (s : Sys) : nat -> Sys -> Prop :=
| own_here : own j s O s
| own_mine n s1 c p q p' :
    own j s n s1 -> callers s1 !! j = Some (c, Some p) -> claimable (queue s1) p ->
    enqueue_step (caller_id c) (send_count c) (queue s1) p = Some (q, p') ->
    own j s (S n) (set_caller s1 q j (c, Some p') (claiming c p))
| own_other n s1 s2 :
    own j s n s1 -> jiffy_step s1 s2 -> callers s2 !! j = callers s1 !! j -> own j s n s2.

Lemma own_left j s n s' c p :
  own j s n s' -> inv s -> callers s !! j = Some (c, Some p) -> claimed (Some p) = true ->
  inv s' /\ cap s' = cap s /\ exists p', callers s' !! j = Some (c, Some p') /\ claimed (Some p') = true /\
    Z.of_nat n + steps_left (cap s) p' <= steps_left (cap s) p.
Proof.
  intros H I Hj Hcl. induction H as [|n s1 c1 p1 q p1' _ IH Hj1 Hcl1 E1|n s1 s2 _ IH H12 Ej].
  - split; [done|]. split; [done|]. by exists p.
  - destruct IH as (I1 & Ec & p' & Hj' & Hcl' & Hle). rewrite Hj1 in Hj'. injection Hj' as -> ->.
    destruct (steps_left_decreases _ _ _ _ _ _ I1 Hj1 Hcl' E1) as [Hcl2 Hlt].
    split; [by eapply jiffy_step_inv; [by eapply step_enqueue|]|]. split; [done|]. exists p1'.
    split; [|split; [done|rewrite Ec in Hlt; lia]]. cbn. apply list_lookup_insert_eq. by eapply lookup_lt_Some.
  - destruct IH as (I1 & Ec & p' & Hj' & Hcl' & Hle). split; [by eapply jiffy_step_inv|].
    split; [by rewrite (step_cap _ _ H12)|]. exists p'. by rewrite Ej.
Qed.

(** C29: A call is wait-free: once it has claimed position [pos] it makes at most
    [7 + 2 * (pos / depth)] accesses to shared memory, whatever the other callers and
    the server do and wherever they are stopped; until it has ended it has an access to
    make; and it ends with success. *)
Theorem jiffy_wait_free {R} n depth m cs v q (rings : list (FetchAdd.ResponseRing R)) s j c pos d k s' :
  create n depth m = Some (cs, v, q, rings) -> depth < POS_MAX -> rtc jiffy_step (sys_init cs v q) s ->
  callers s !! j = Some (c, Some (EHint pos d)) -> own j s k s' ->
  Z.of_nat k <= 7 + 2 * (pos / depth) /\
  exists p, callers s' !! j = Some (c, Some p) /\
    (p = EDone (Ok tt) \/ is_Some (enqueue_step (caller_id c) (send_count c) (queue s') p)).
Proof.
  intros Hc Hd Hs Hj Ho. destruct (reachable_inv _ _ _ _ _ _ _ _ Hc Hd Hs) as [I <-].
  destruct (own_left _ _ _ _ _ _ Ho I Hj eq_refl) as (I' & Ec & p' & Hj' & Hcl & Hle).
  pose proof (steps_left_nonneg _ _ _ _ I' Hj') as H0. rewrite Ec in H0.
  split; [cbn in Hle; lia|]. exists p'. split; [done|].
  assert (p' = EDone (Ok tt) \/ forall res, p' <> EDone res) as [->|Hn]; [|by left|right].
  { destruct p' as [| | | | | | | | | |[[]|]]; try done; auto. }
  destruct (enqueue_inv _ _ _ p' I' Hj') as (q' & p2 & -> & _); [by destruct p'|done|by eexists].
Qed.

(** *** Receiving *)

Lemma dequeue_runs s k fuel :
  inv s -> serve s = SDequeue -> (length (heap (queue s)) <= cons_head (cons s) + k)%nat -> (k + 1 <= fuel)%nat ->
  exists q' v' r, serve_run fuel (queue s) (cons s) SDequeue = Some (q', v', Dequeued r) /\
    match r with
    | Some (id, d, token) =>
        claim_at s (read_pos (cons s)) = Some (id, token, d) /\ read_pos v' = read_pos (cons s) + 1
    | None => ~ published s (read_pos (cons s)) /\ read_pos v' = read_pos (cons s)
    end.
Proof.
  revert s fuel. induction k as [|k IH]; intros s fuel I Hs Hk Hf.
  { destruct (i_reader _ I) as (L & _). lia. }
  destruct fuel as [|fuel]; [lia|]. cbn [serve_run].
  destruct (dequeue_inv s I Hs) as (v' & w & a & E & _ & I'). rewrite Hs in E. rewrite E. cbn [mbind option_bind].
  pose proof (i_reader _ I) as R. pose proof (i_chain _ I) as C. pose proof (ch_cap _ _ C) as Hcap.
  cbn [serve_step] in E. destruct (reader_buffer _ _ _ I R) as (b & Hb & Eb & En). rewrite Hb in E.
  cbn [mbind option_bind] in E. rewrite Eb, En in E. pose proof R as (R1 & R2 & R3).
  destruct (Z.leb_spec (cap s) (read_pos (cons s) - Z.of_nat (cons_head (cons s)) * cap s)) as [Hge|Hlt].
  - case_decide as Hd; injection E as <- <- <-.
    + apply (IH _ fuel I' eq_refl); cbn; lia.
    + exists (queue s), (cons s), None. split_and!; try done. intros (sl & Hsl & _).
      unfold slot_at in Hsl. apply bind_Some in Hsl as (b' & Hb' & _). apply lookup_lt_Some in Hb'.
      pose proof (Z.div_le_lower_bound (read_pos (cons s)) (cap s) (Z.of_nat (cons_head (cons s)) + 1)). lia.
  - assert (in_buffer (cap s) (cons_head (cons s)) (read_pos (cons s))) as Hp by (split; lia).
    destruct (slot_index _ _ _ _ _ C Hb Hp) as (Eu & Es & [sl Hsl]). rewrite <-Eu, Hsl in E. cbn [mbind option_bind] in E.
    destruct (Z.eqb_spec (state sl) SET) as [Est|Hn]; injection E as <- <- <-.
    + destruct fuel as [|fuel]; [lia|]. cbn [serve_run].
      destruct (take_inv _ I' eq_refl) as (q2 & v2 & w2 & a2 & E2 & I2). cbn [queue cons serve] in E2.
      rewrite E2. cbn [mbind option_bind]. cbn [serve_step] in E2. rewrite Hb in E2. cbn [mbind option_bind] in E2.
      rewrite Hsl in E2. cbn [mbind option_bind] in E2.
      destruct (published_claim s (read_pos (cons s)) I) as (Hlt2 & sl' & x & Esl & Hx & H1 & H2 & H3);
        [exists sl; split; [by rewrite Es|done]|lia|].
      assert (sl' = sl) as -> by congruence. rewrite H3 in E2. cbn [mbind option_bind] in E2.
      apply bind_Some in E2 as (q3 & _ & E2). injection E2 as <- <- <- <-.
      eexists _, _, _. split; [done|]. split; [by destruct x as [[]]; cbn in *; subst|]. cbn.
      pose proof (ch_tail _ _ C). unfold POS_MAX in *. rewrite u64_small; lia.
    + exists (queue s), (cons s), None. split_and!; try done. intros (sl' & Hsl' & Est'). congruence.
Qed.

Lemma start_dequeue s : inv s -> inv (mkSys (queue s) (cons s) SDequeue (callers s) (claims s) (taken s)).
Proof.
  intros I. pose proof (inv_server s _ SDequeue I (i_reader _ I) Logic.I) as I'. unfold set_server in I'.
  by destruct (cons s).
Qed.

(** A receive never waits and never misses: [try_dequeue] returns after at most one
    access per buffer and one more; it returns the request of the next claim when that
    is published, and nothing otherwise; and it returns nothing with no call under way
    only when everything that was claimed has been received. *)
Theorem jiffy_dequeue {R} n depth m cs v q (rings : list (FetchAdd.ResponseRing R)) s fuel :
  create n depth m = Some (cs, v, q, rings) -> depth < POS_MAX -> rtc jiffy_step (sys_init cs v q) s ->
  (length (heap (queue s)) + 1 <= fuel)%nat ->
  exists q' v' r, try_dequeue fuel (queue s) (cons s) = Some (q', v', r) /\
    match r with
    | Some (id, d, token) =>
        claim_at s (read_pos (cons s)) = Some (id, token, d) /\ read_pos v' = read_pos (cons s) + 1
    | None => ~ published s (read_pos (cons s)) /\ read_pos v' = read_pos (cons s) /\
        ((forall pos, ~ held s pos) -> taken s = claims s)
    end.
Proof.
  intros Hc Hd Hs Hf. destruct (reachable_inv _ _ _ _ _ _ _ _ Hc Hd Hs) as [I _].
  destruct (dequeue_runs _ (length (heap (queue s))) fuel (start_dequeue s I) eq_refl) as (q' & v' & r & E & H);
    [cbn; lia..|].
  exists q', v', r. unfold try_dequeue. cbn [queue cons] in E. rewrite E. cbn. split; [done|].
  destruct r as [[[id d] token]|]; [done|]. destruct H as [H1 H2]. split_and!; try done.
  intros Hh. rewrite (i_taken _ I). apply take_ge. destruct (i_reader _ I) as (_ & _ & R3).
  pose proof (i_claims _ I). destruct (Z.lt_ge_cases (read_pos (cons s)) (tail (queue s))) as [Hlt|]; [|lia].
  destruct (i_waiting _ I (read_pos (cons s)) ltac:(lia)) as [?|Hx]; [done|by destruct (Hh _ Hx)].
Qed.

(** What [count_available] returns are requests that are there to receive. *)
Lemma count_published s count pos buf n :
  inv s -> serve s = SCount count pos buf ->
  serve_step (queue s) (cons s) (serve s) = Some (queue s, cons s, SIdle, Some (Counted n)) ->
  exists k, 0 <= k /\ n = u32 k /\ forall x, 0 <= x < k -> published s (read_pos (cons s) + x).
Proof.
  intros I Hs E. pose proof (i_serve _ I) as Sv. unfold serve_ok in Sv. rewrite Hs in Sv, E.
  destruct Sv as (R & S1 & S2 & S3). exists (pos - read_pos (cons s)). split; [lia|]. split.
  - rewrite <-S2. cbn in E. apply bind_Some in E as (b & _ & E). destruct (_ <=? _).
    + destruct (next b); simplify_eq; done.
    + apply bind_Some in E as (sl & _ & E). destruct (negb _); simplify_eq; done.
  - intros x Hx. apply S3. lia.
Qed.

(** *** Memory *)

(** Dropping the queue frees every buffer of the list once. *)
Lemma drop_chain_frees cp q k fuel :
  chain cp q -> (k < length (heap q))%nat -> (length (heap q) <= k + fuel)%nat ->
  drop_chain fuel (heap q) (Some k) = Some (List.seq k (length (heap q) - k)).
Proof.
  intros C. revert k. induction fuel as [|fuel IH]; intros k Hk Hf; [lia|].
  cbn [drop_chain]. destruct (buffer_at _ _ _ C Hk) as [b Hb]. rewrite Hb. cbn [mbind option_bind].
  destruct (ch_buffer _ _ C _ _ Hb) as (_ & _ & _ & ->).
  destruct (length (heap q) - k)%nat as [|r] eqn:Er; [lia|]. cbn [List.seq]. case_decide as Hd.
  - rewrite IH by lia. cbn. by replace (length (heap q) - S k)%nat with r by lia.
  - destruct fuel; cbn; by replace r with O by lia.
Qed.

Lemma drop_queue_frees s : inv s ->
  drop_queue (length (heap (queue s))) (queue s) = Some (List.seq 0 (length (heap (queue s)))).
Proof.
  intros I. unfold drop_queue. pose proof (i_chain _ I) as C. rewrite (ch_head _ _ C).
  rewrite (drop_chain_frees _ _ _ _ C) by (try lia; apply C). by rewrite Nat.sub_0_r.
Qed.

(** Until then no buffer is freed, so that the queue has a buffer for every [depth]
    requests that were ever received, and at most two more than it needs for those that
    were claimed. *)
Lemma buffers_kept s : inv s ->
  read_pos (cons s) <= Z.of_nat (length (heap (queue s))) * cap s /\
  Z.of_nat (length (heap (queue s))) <= Z.of_nat (length (claims s)) / cap s + 2.
Proof.
  intros I. destruct (i_reader _ I) as (R1 & R2 & R3). pose proof (i_chain _ I) as C.
  pose proof (ch_cap _ _ C). destruct (ch_length _ _ C) as [_ L]. rewrite (i_claims _ I) in L. split; [nia|].
  pose proof (Z.div_le_lower_bound (Z.of_nat (length (claims s))) (cap s) (Z.of_nat (length (heap (queue s))) - 2)).
  lia.
Qed.

(** *** Schedules *)

Inductive Act : Type := ACall (j : nat) (d : T) | AEnqueue (j : nat) | AReturn (j : nat) | ARecv | AServe.

Definition claimableb q p : bool := match p with EClaim _ => tail q <? POS_MAX | _ => true end.

Definition enqueue_act (j : nat) s : option Sys :=
  match callers s !! j with
  | Some (c, Some p) =>
      if claimableb (queue s) p then
        '(q, p') ← enqueue_step (caller_id c) (send_count c) (queue s) p;
        Some (set_caller s q j (c, Some p') (claiming c p))
      else None
  | _ => None
  end.

Definition act (a : Act) s : option Sys :=
  match a with
  | ACall j d =>
      match callers s !! j with
      | Some (c, None) =>
          if negb (caller_disconnected c) && (inflight c <? max_inflight c)
          then Some (set_caller s (queue s) j (c, Some (EAlive d)) []) else None
      | _ => None
      end
  | AEnqueue j => enqueue_act j s
  | AReturn j =>
      match callers s !! j with
      | Some (c, Some (EDone res)) => Some (set_caller s (queue s) j ((call_end c res).1, None) [])
      | _ => None
      end
  | ARecv =>
      match serve s with
      | SIdle => Some (mkSys (queue s) (cons s) SDequeue (callers s) (claims s) (taken s))
      | _ => None
      end
  | AServe =>
      '(q, v, w, a) ← serve_step (queue s) (cons s) (serve s);
      Some (mkSys q v w (callers s) (claims s) (taken s ++ receiving a))
  end.

Lemma enqueue_act_some j s s' : enqueue_act j s = Some s' ->
  exists c p q p', callers s !! j = Some (c, Some p) /\ claimable (queue s) p /\
    enqueue_step (caller_id c) (send_count c) (queue s) p = Some (q, p') /\
    s' = set_caller s q j (c, Some p') (claiming c p).
Proof.
  unfold enqueue_act. destruct (callers s !! j) as [[c [p|]]|] eqn:E; try done.
  destruct (claimableb _ _) eqn:Ec; [|done].
  destruct (enqueue_step _ _ _ _) as [[q p']|] eqn:Es; [|done]. intros [= <-].
  exists c, p, q, p'. split_and!; try done. destruct p; try done. cbn in *. by guards.
Qed.

Lemma schedule_step a s s' : act a s = Some s' -> jiffy_step s s'.
Proof.
  destruct a as [j d|j|j| |]; cbn.
  - destruct (callers s !! j) as [[c [p|]]|] eqn:E; try done. destruct (_ && _) eqn:Eb; [|done]. guards.
    intros [= <-]. by apply step_call.
  - intros (c & p & q & p' & H1 & H2 & H3 & ->)%enqueue_act_some. by apply step_enqueue.
  - destruct (callers s !! j) as [[c [[]|]]|] eqn:E; try done. intros [= <-]. by eapply step_return.
  - destruct (serve s) eqn:E; try done. intros [= <-]. by apply step_recv.
  - destruct (serve_step _ _ _) as [[[[q v] w] a]|] eqn:E; [|done]. intros [= <-]. by apply step_serve.
Qed.

Fixpoint acts (l : list Act) s : option Sys :=
  match l with
  | [] => Some s
  | a :: l => s ← act a s; acts l s
  end.

Lemma schedule_steps l s s' : acts l s = Some s' -> rtc jiffy_step s s'.
Proof.
  revert s. induction l as [|a l IH]; intros s; cbn; [by intros [= <-]|].
  destruct (act a s) as [s1|] eqn:E; [|done]. intros H. eapply rtc_l; [by eapply schedule_step|auto].
Qed.

(** Caller [j] alone. *)
Fixpoint own_run (j : nat) (n : nat) s : option Sys :=
  match n with
  | O => Some s
  | S n => s ← own_run j n s; enqueue_act j s
  end.
Lemma own_runs j n s s' : own_run j n s = Some s' -> own j s n s'.
Proof.
  revert s'. induction n as [|n IH]; intros s'; cbn; [intros [= <-]; apply own_here|].
  destruct (own_run j n s) as [s1|]; [|done]. cbn.
  intros (c & p & q & p' & H1 & H2 & H3 & ->)%enqueue_act_some. eapply own_mine; eauto.
Qed.

(** A call without interruption that makes [n] accesses. *)
Definition whole_call (j : nat) (n : nat) (d : T) : list Act := ACall j d :: replicate n (AEnqueue j) ++ [AReturn j].

End Concurrent.
Arguments Sys : clear implicits.
Arguments Act : clear implicits.

(** *** Runs: buffers of four slots, two callers *)

Definition demo : option (list JiffyCaller * JiffyServer * JiffyQueue Z * list (FetchAdd.ResponseRing Z)) :=
  create 2 4 100.
Definition no_channel : list JiffyCaller * JiffyServer * JiffyQueue Z * list (FetchAdd.ResponseRing Z) :=
  ([], mkServer (mkConsumer 0 0 0) false, mkQueue [] 0 0 0 0 true, []).
Definition demo_callers : list JiffyCaller := (default no_channel demo).1.1.1.
Definition demo_server : JiffyServer := (default no_channel demo).1.1.2.
Definition demo_queue : JiffyQueue Z := (default no_channel demo).1.2.
Definition demo_rings : list (FetchAdd.ResponseRing Z) := (default no_channel demo).2.
Definition demo_init : Sys Z := sys_init demo_callers demo_server demo_queue.

(** Caller 1 fills five slots; caller 0 claims position 5 and stops; caller 1 goes on to
    the third buffer. *)
Definition demo_acts : list (Act Z) :=
  whole_call 1 6 100 ++ whole_call 1 8 101 ++ whole_call 1 6 102 ++ whole_call 1 6 103 ++ whole_call 1 8 104 ++
  ACall 0 50 :: replicate 2 (AEnqueue 0) ++
  whole_call 1 6 106 ++ whole_call 1 6 107 ++ whole_call 1 9 108.
Definition demo_late : Sys Z := default demo_init (acts demo_acts demo_init).
(** The server receives what is published before position 5. *)
Definition demo_received_acts : list (Act Z) :=
  demo_acts ++ concat (replicate 4 (ARecv :: replicate 2 AServe)) ++ ARecv :: replicate 3 AServe.
Definition demo_received : Sys Z := default demo_init (acts demo_received_acts demo_init).
(** Caller 0 goes on: the hint is past its position, and it walks from the first buffer. *)
Definition demo_end : Sys Z := default demo_init (own_run 0 6 demo_late).

Lemma demo_late_reached : rtc jiffy_step demo_init demo_late.
Proof. apply (schedule_steps demo_acts). vm_compute. reflexivity. Qed.
Lemma demo_received_reached : rtc jiffy_step demo_init demo_received.
Proof. apply (schedule_steps demo_received_acts). vm_compute. reflexivity. Qed.

Lemma jiffy_fifo_witness :
  taken demo_received = [(1, 0, 100); (1, 1, 101); (1, 2, 102); (1, 3, 103); (1, 4, 104)] /\
  taken demo_received = take 5 (claims demo_received) /\
  tokens_of 1 (claims demo_received) = [0; 1; 2; 3; 4; 5; 6; 7].
Proof.
  destruct (jiffy_fifo 2 4 100 demo_callers demo_server demo_queue demo_rings demo_received) as (H1 & H2 & _).
  - vm_compute. reflexivity.
  - vm_compute. reflexivity.
  - apply demo_received_reached.
  - split; [vm_compute; reflexivity|]. split; [exact H1|].
    exact (H2 1%nat (mkCaller 1 8 8 100 false) None ltac:(vm_compute; reflexivity)).
Defined.

Lemma jiffy_wait_free_witness :
  6 <= 7 + 2 * (5 / 4) /\
  exists c, callers demo_end !! 0%nat = Some (c, Some (EDone (Ok tt))).
Proof.
  destruct (jiffy_wait_free 2 4 100 demo_callers demo_server demo_queue demo_rings demo_late
              0 (mkCaller 0 0 0 100 false) 5 50 6 demo_end) as [H1 (p & H2 & _)].
  - vm_compute. reflexivity.
  - vm_compute. reflexivity.
  - apply demo_late_reached.
  - vm_compute. reflexivity.
  - apply own_runs. vm_compute. reflexivity.
  - split; [exact H1|]. eexists. vm_compute. reflexivity.
Defined.

(** A caller that is stopped between its claim and its publication holds up the requests
    behind it: the server receives nothing although three are published. *)
Lemma jiffy_dequeue_witness :
  (exists q' v', try_dequeue 4 (queue demo_received) (cons demo_received) = Some (q', v', None)) /\
  length (claims demo_received) = 9%nat /\ published demo_received 6 /\ published demo_received 7 /\
  published demo_received 8.
Proof.
  destruct (jiffy_dequeue 2 4 100 demo_callers demo_server demo_queue demo_rings demo_received 4)
    as (q' & v' & r & H & _).
  - vm_compute. reflexivity.
  - vm_compute. reflexivity.
  - apply demo_received_reached.
  - vm_compute. lia.
  - split; [exists q', v'; rewrite H; f_equal; f_equal; revert H; vm_compute; congruence|].
    split; [vm_compute; reflexivity|]. split_and!; eexists; split; vm_compute; reflexivity.
Defined.

End Jiffy.
