(* ===== verification/Lamport.v ===== *)
(** * Lamport: rings with batched index publication

    [mempc/src/lamport.rs].  Sender and receiver each keep a position of their own and
    a cached copy of the other's, and publish their position in [sync] only.  An
    operation of a ring makes at most one access to a shared index, so the operations
    of the two ends, in any order, are the steps of the ring's theorem;
    [LamportCaller::sync], which publishes on two rings, can be run as two steps.
    Positions are [usize] values that wrap around, and the theorem holds across the
    wrap. *)
From S2P Require Import Prelude Onesided Mpsc.

Module Lamport.

Notation CallError := Onesided.CallError.
Notation Full := Onesided.Full.
Notation InflightExceeded := Onesided.InflightExceeded.
Notation Disconnected := Onesided.Disconnected.
Notation Response := Onesided.Response.
Notation mkResponse := Onesided.mkResponse.
Notation ReplyToken := Onesided.ReplyToken.
Notation mkToken := Onesided.mkToken.
Notation tk_caller_id := Onesided.tk_caller_id.
Notation slot_token := Onesided.slot_token.

(** ** Rings *)

Section Ring.
Context {T : Type}.

(** [struct Inner]; an element is [None] while the memory is uninitialised. *)
Record Inner : Type := mkInner {
  buffer : list (option T);
  shared_head : Z;
  shared_tail : Z;
  tx_alive : bool;
  rx_alive : bool;
}.

Record LamportSender : Type := mkSender { local_head : Z; cached_tail : Z; s_mask : Z }.
Record LamportReceiver : Type := mkReceiver { local_tail : Z; cached_head : Z; r_mask : Z }.
Implicit Types (i : Inner) (tx : LamportSender) (rx : LamportReceiver).

Definition inner_new (capacity : Z) : option Inner :=
  if is_power_of_two capacity
  then Some (mkInner (replicate (Z.to_nat capacity) None) 0 0 true true)
  else None.

Definition with_buffer i (b : list (option T)) : Inner :=
  mkInner b (shared_head i) (shared_tail i) (tx_alive i) (rx_alive i).

(** The part of [send] after the check; [None] is an index out of range. *)
Definition send_at tx i (next_head : Z) (value : T) : option (LamportSender * Inner * result unit T) :=
  let slot := Z.to_nat (Z.land (local_head tx) (s_mask tx)) in
  if decide (slot < length (buffer i))%nat
  then Some (mkSender next_head (cached_tail tx) (s_mask tx),
             with_buffer i (<[slot := Some value]> (buffer i)), Ok tt)
  else None.

(** [LamportSender::send]. *)
Definition send tx i (value : T) : option (LamportSender * Inner * result unit T) :=
  let next_head := u64 (local_head tx + 1) in
  if s_mask tx <? u64 (next_head - cached_tail tx)
  then
    let tx := mkSender (local_head tx) (shared_tail i) (s_mask tx) in
    if s_mask tx <? u64 (next_head - cached_tail tx)
    then Some (tx, i, Err value)
    else send_at tx i next_head value
  else send_at tx i next_head value.

(** [LamportSender::sync]. *)
Definition send_sync tx i : Inner :=
  mkInner (buffer i) (local_head tx) (shared_tail i) (tx_alive i) (rx_alive i).

(** The part of [recv] after the check; [None] is a read out of range or of
    uninitialised memory. *)
Definition recv_at rx i : option (LamportReceiver * option T) :=
  match buffer i !! Z.to_nat (Z.land (local_tail rx) (r_mask rx)) with
  | Some (Some value) =>
      Some (mkReceiver (u64 (local_tail rx + 1)) (cached_head rx) (r_mask rx), Some value)
  | _ => None
  end.

(** [LamportReceiver::recv]. *)
Definition recv rx i : option (LamportReceiver * option T) :=
  if local_tail rx =? cached_head rx
  then
    let rx := mkReceiver (local_tail rx) (shared_head i) (r_mask rx) in
    if local_tail rx =? cached_head rx then Some (rx, None) else recv_at rx i
  else recv_at rx i.

(** [LamportReceiver::sync]. *)
Definition recv_sync rx i : Inner :=
  mkInner (buffer i) (shared_head i) (local_tail rx) (tx_alive i) (rx_alive i).

(** [LamportReceiver::available] and the refresh [poll] makes before it. *)
Definition available rx : Z := u64 (cached_head rx - local_tail rx).
Definition refresh_head rx i : LamportReceiver := mkReceiver (local_tail rx) (shared_head i) (r_mask rx).

(** [Drop] of the two ends. *)
Definition drop_sender i : Inner := mkInner (buffer i) (shared_head i) (shared_tail i) false (rx_alive i).
Definition drop_receiver i : Inner := mkInner (buffer i) (shared_head i) (shared_tail i) (tx_alive i) false.

Definition lamport_channel (capacity : Z) : option (LamportSender * LamportReceiver * Inner) :=
  i ← inner_new capacity;
  Some (mkSender 0 0 (capacity - 1), mkReceiver 0 0 (capacity - 1), i).

(** ** What a ring promises

    A queue with two thresholds: a value is visible once its sender has published it,
    and its place is free once the receiver has released it.  No caches. *)
Record Queue : Type := mkQueue {
  sent : list T;
  published : nat;
  received : nat;
  released : nat;
}.

Inductive ring_op : Type := OpSend (v : T) | OpSendSync | OpRecv | OpRecvSync | OpRefresh.
Inductive ring_out : Type := OutSend (ok : bool) | OutRecv (v : option T) | OutUnit.

Definition queue_op (capacity : Z) (q : Queue) (o : ring_op) : Queue * ring_out :=
  match o with
  | OpSend v =>
      if Z.of_nat (length (sent q) - released q) + 1 <? capacity
      then (mkQueue (sent q ++ [v]) (published q) (received q) (released q), OutSend true)
      else (q, OutSend false)
  | OpSendSync => (mkQueue (sent q) (length (sent q)) (received q) (released q), OutUnit)
  | OpRecv =>
      if decide (received q < published q)%nat
      then (mkQueue (sent q) (published q) (S (received q)) (released q), OutRecv (sent q !! received q))
      else (q, OutRecv None)
  | OpRecvSync => (mkQueue (sent q) (published q) (received q) (received q), OutUnit)
  | OpRefresh => (q, OutUnit)
  end.

(** The ring's two ends and its memory. *)
Definition Ring : Type := LamportSender * LamportReceiver * Inner.

Definition ring_exec (r : Ring) (o : ring_op) : option (Ring * ring_out) :=
  let '(tx, rx, i) := r in
  match o with
  | OpSend v => '(tx, i, res) ← send tx i v; Some ((tx, rx, i), OutSend (is_ok res))
  | OpSendSync => Some ((tx, rx, send_sync tx i), OutUnit)
  | OpRecv => '(rx, v) ← recv rx i; Some ((tx, rx, i), OutRecv v)
  | OpRecvSync => Some ((tx, rx, recv_sync rx i), OutUnit)
  | OpRefresh => Some ((tx, refresh_head rx i, i), OutUnit)
  end.

(** A sequence of operations of the two ends, with its results. *)
Fixpoint ring_run (r : Ring) (os : list ring_op) : option (Ring * list ring_out) :=
  match os with
  | [] => Some (r, [])
  | o :: os => '(r, x) ← ring_exec r o; '(r, xs) ← ring_run r os; Some (r, x :: xs)
  end.

Fixpoint queue_run (capacity : Z) (q : Queue) (os : list ring_op) : Queue * list ring_out :=
  match os with
  | [] => (q, [])
  | o :: os => let '(q, x) := queue_op capacity q o in
               let '(q, xs) := queue_run capacity q os in (q, x :: xs)
  end.

(** ** The ring implements it *)

(** [ct] and [chd]: the true positions behind the two caches. *)
Record ring_rel (e : Z) (r : Ring) (q : Queue) (ct chd : Z) : Prop := mkRingRel {
  rr_mask : 0 <= e <= 63 /\ s_mask r.1.1 = 2 ^ e - 1 /\ r_mask r.1.2 = 2 ^ e - 1 /\
    length (buffer r.2) = Z.to_nat (2 ^ e);
  rr_tx : r.1.1 = mkSender (u64 (Z.of_nat (length (sent q)))) (u64 ct) (2 ^ e - 1);
  rr_rx : r.1.2 = mkReceiver (u64 (Z.of_nat (received q))) (u64 chd) (2 ^ e - 1);
  rr_shared : shared_head r.2 = u64 (Z.of_nat (published q)) /\ shared_tail r.2 = u64 (Z.of_nat (released q));
  rr_tails : 0 <= ct <= Z.of_nat (released q) /\ (released q <= received q)%nat;
  rr_heads : Z.of_nat (received q) <= chd <= Z.of_nat (published q) /\ (published q <= length (sent q))%nat;
  rr_room : Z.of_nat (length (sent q)) - ct <= 2 ^ e - 1;
  rr_data : forall p v, (received q <= p)%nat -> sent q !! p = Some v ->
    buffer r.2 !! Z.to_nat (Z.of_nat p mod 2 ^ e) = Some (Some v);
}.

Lemma u64_sub_wrap a b : 0 <= a - b < 2 ^ 64 -> u64 (u64 a - u64 b) = a - b.
Proof.
  intros H. unfold u64, wrap. rewrite Zminus_mod_idemp_l, Zminus_mod_idemp_r. by apply Z.mod_small.
Qed.

Lemma u64_succ_wrap a : u64 (u64 a + 1) = u64 (a + 1).
Proof. unfold u64, wrap. by rewrite Zplus_mod_idemp_l. Qed.

Lemma u64_eqb_wrap a b : 0 <= b - a < 2 ^ 64 -> (u64 a =? u64 b) = (a =? b).
Proof.
  intros H. destruct (Z.eqb_spec a b) as [->|Hne]; [apply Z.eqb_refl|]. apply Z.eqb_neq. intros E.
  pose proof (u64_sub_wrap b a H) as Hs. rewrite E, Z.sub_diag in Hs. change (u64 0) with 0 in Hs. lia.
Qed.

Lemma u64_slot e a : 0 <= e <= 63 -> Z.land (u64 a) (2 ^ e - 1) = a mod 2 ^ e.
Proof.
  intros He. rewrite land_mask by lia. unfold u64, wrap. apply Z.mod_mod_divide.
  exists (2 ^ (64 - e)). rewrite <-Z.pow_add_r by lia. f_equal. lia.
Qed.

Lemma ring_pow e : 0 <= e <= 63 -> 0 < 2 ^ e <= 2 ^ 63.
Proof. intros He. split; [apply Z.pow_pos_nonneg; lia|apply Z.pow_le_mono_r; lia]. Qed.

(** The write of [send], with any cached position that leaves room. *)
Lemma send_at_rel e tx rx i q ct chd v :
  ring_rel e (tx, rx, i) q ct chd -> Z.of_nat (length (sent q)) + 1 - ct <= 2 ^ e - 1 ->
  exists tx' i', send_at tx i (u64 (local_head tx + 1)) v = Some (tx', i', Ok tt) /\
    ring_rel e (tx', rx, i') (mkQueue (sent q ++ [v]) (published q) (received q) (released q)) ct chd.
Proof.
  intros [(He & Hm1 & Hm2 & Hl) Htx Hrx Hs Ht Hh Hroom Hdata] Hlt. cbn [fst snd] in *. subst tx rx.
  pose proof (ring_pow e He). unfold send_at. cbn [local_head s_mask cached_tail].
  rewrite u64_slot by done. pose proof (Z.mod_pos_bound (Z.of_nat (length (sent q))) (2 ^ e) ltac:(lia)).
  rewrite decide_True by lia. eexists _, _. split; [reflexivity|]. rewrite u64_succ_wrap.
  split; cbn [fst snd sent published received released buffer with_buffer shared_head shared_tail s_mask r_mask];
    rewrite ?length_app, ?length_insert; cbn [length]; try done; try lia.
  - f_equal. f_equal. lia.
  - intros p w Hp Hw. apply lookup_app_Some in Hw as [Hw|[Hw1 Hw2]].
    + pose proof (lookup_lt_Some _ _ _ Hw). rewrite list_lookup_insert_ne; [by apply Hdata|].
      apply not_eq_sym, Mpsc.slots_differ; lia.
    + apply list_lookup_singleton_Some in Hw2 as [Hw2 <-]. replace p with (length (sent q)) by lia.
      apply list_lookup_insert_eq. lia.
Qed.

Lemma ring_send_rel e tx rx i q ct chd v :
  ring_rel e (tx, rx, i) q ct chd ->
  exists r' ct', ring_exec (tx, rx, i) (OpSend v) = Some (r', (queue_op (2 ^ e) q (OpSend v)).2) /\
    ring_rel e r' (queue_op (2 ^ e) q (OpSend v)).1 ct' chd.
Proof.
  intros H. pose proof H as [(He & Hm1 & Hm2 & Hl) Htx Hrx Hs Ht Hh Hroom Hdata]. cbn [fst snd] in *.
  pose proof (ring_pow e He). cbn [ring_exec queue_op]. unfold send. rewrite Hm1.
  assert (u64 (local_head tx + 1) = u64 (Z.of_nat (length (sent q)) + 1)) as Hn
    by (rewrite Htx; apply u64_succ_wrap).
  rewrite Hn. replace (cached_tail tx) with (u64 ct) by (by rewrite Htx). rewrite u64_sub_wrap by lia.
  destruct (Z.ltb_spec (2 ^ e - 1) (Z.of_nat (length (sent q)) + 1 - ct)) as [Hf|Hf].
  - assert (ring_rel e (mkSender (local_head tx) (shared_tail i) (2 ^ e - 1), rx, i) q (Z.of_nat (released q)) chd) as H'.
    { destruct Hs as [Hs1 Hs2]. rewrite Hs2, Htx. split; cbn [fst snd s_mask]; try done; lia. }
    cbn [cached_tail s_mask]. rewrite (proj2 Hs), u64_sub_wrap by lia. rewrite (proj2 Hs) in H'.
    destruct (Z.ltb_spec (2 ^ e - 1) (Z.of_nat (length (sent q)) + 1 - Z.of_nat (released q))) as [Hg|Hg].
    + rewrite (proj2 (Z.ltb_ge _ _)) by lia. eexists _, _. split; [reflexivity|]. exact H'.
    + rewrite (proj2 (Z.ltb_lt _ _)) by lia.
      destruct (send_at_rel _ _ _ _ _ _ _ v H' Hg) as (tx' & i' & E & Hrel). cbn [local_head] in E.
      rewrite Hn in E. rewrite E. eexists _, _. split; [reflexivity|]. exact Hrel.
  - rewrite (proj2 (Z.ltb_lt _ _)) by lia.
    destruct (send_at_rel _ _ _ _ _ _ _ v H Hf) as (tx' & i' & E & Hrel).
    rewrite Hn in E. rewrite E. eexists _, _. split; [reflexivity|]. exact Hrel.
Qed.

(** The read of [recv], when the cached position says there is a value. *)
Lemma recv_at_rel e tx rx i q ct chd :
  ring_rel e (tx, rx, i) q ct chd -> Z.of_nat (received q) < chd ->
  exists rx', recv_at rx i = Some (rx', sent q !! received q) /\
    ring_rel e (tx, rx', i) (mkQueue (sent q) (published q) (S (received q)) (released q)) ct chd.
Proof.
  intros [(He & Hm1 & Hm2 & Hl) Htx Hrx Hs Ht Hh Hroom Hdata] Hlt. cbn [fst snd] in *.
  destruct (lookup_lt_is_Some_2 (sent q) (received q)) as [v Hv]; [lia|].
  unfold recv_at. rewrite Hrx. cbn [local_tail r_mask cached_head].
  rewrite u64_slot, (Hdata _ v) by done. rewrite Hv. eexists. split; [reflexivity|].
  split; cbn [fst snd sent published received released r_mask]; try done; try lia.
  - rewrite u64_succ_wrap. f_equal. f_equal. lia.
  - intros p w Hp. apply Hdata. lia.
Qed.

Lemma ring_recv_rel e tx rx i q ct chd :
  ring_rel e (tx, rx, i) q ct chd ->
  exists r' chd', ring_exec (tx, rx, i) OpRecv = Some (r', (queue_op (2 ^ e) q OpRecv).2) /\
    ring_rel e r' (queue_op (2 ^ e) q OpRecv).1 ct chd'.
Proof.
  intros H. pose proof H as [(He & Hm1 & Hm2 & Hl) Htx Hrx Hs Ht Hh Hroom Hdata]. cbn [fst snd] in *.
  pose proof (ring_pow e He). cbn [ring_exec queue_op]. unfold recv.
  assert (local_tail rx = u64 (Z.of_nat (received q))) as Elt by (by rewrite Hrx).
  replace (cached_head rx) with (u64 chd) by (by rewrite Hrx). rewrite Elt, u64_eqb_wrap by lia. destruct (Z.eqb_spec (Z.of_nat (received q)) chd) as [Hf|Hf].
  - assert (ring_rel e (tx, mkReceiver (local_tail rx) (shared_head i) (r_mask rx), i) q ct (Z.of_nat (published q))) as H'.
    { rewrite (proj1 Hs), Hrx. split; cbn [fst snd r_mask local_tail]; try done; lia. }
    rewrite (proj1 Hs). cbn [local_tail cached_head]. rewrite u64_eqb_wrap by lia.
    rewrite (proj1 Hs), Elt in H'.
    destruct (Z.eqb_spec (Z.of_nat (received q)) (Z.of_nat (published q))) as [Hg|Hg].
    + rewrite decide_False by lia. eexists _, _. split; [reflexivity|]. exact H'.
    + rewrite decide_True by lia. destruct (recv_at_rel _ _ _ _ _ _ _ H' ltac:(lia)) as (rx' & E & Hrel).
      rewrite E. eexists _, _. split; [reflexivity|]. exact Hrel.
  - rewrite decide_True by lia. destruct (recv_at_rel _ _ _ _ _ _ _ H ltac:(lia)) as (rx' & E & Hrel).
    rewrite E. eexists _, _. split; [reflexivity|]. exact Hrel.
Qed.

Lemma op_rel e r q ct chd o :
  ring_rel e r q ct chd ->
  exists r' ct' chd', ring_exec r o = Some (r', (queue_op (2 ^ e) q o).2) /\
    ring_rel e r' (queue_op (2 ^ e) q o).1 ct' chd'.
Proof.
  intros H. destruct r as [[tx rx] i].
  destruct o as [v| | | |].
  - destruct (ring_send_rel _ _ _ _ _ _ _ v H) as (r' & ct' & E & H'). eauto.
  - exists (tx, rx, send_sync tx i), ct, chd. split; [done|].
    destruct H as [Hm Htx Hrx Hs Ht Hh Hroom Hdata]. cbn [fst snd] in *.
    split; cbn [fst snd send_sync buffer shared_head shared_tail queue_op sent published received released]; try done; try lia.
    split; [by rewrite Htx|apply Hs].
  - destruct (ring_recv_rel _ _ _ _ _ _ _ H) as (r' & chd' & E & H'). eauto.
  - exists (tx, rx, recv_sync rx i), ct, chd. split; [done|].
    destruct H as [Hm Htx Hrx Hs Ht Hh Hroom Hdata]. cbn [fst snd] in *.
    split; cbn [fst snd recv_sync buffer shared_head shared_tail queue_op sent published received released]; try done; try lia.
    split; [apply Hs|by rewrite Hrx].
  - exists (tx, refresh_head rx i, i), ct, (Z.of_nat (published q)). split; [done|].
    destruct H as [Hm Htx Hrx Hs Ht Hh Hroom Hdata]. cbn [fst snd] in *. unfold refresh_head.
    split; cbn [fst snd queue_op r_mask]; try done; try lia. rewrite (proj1 Hs), Hrx. done.
Qed.

(** C31: the cached indices are invisible.  Any sequence of sends, receives and
    publications on a new ring returns, without panic, what the queue without caches
    returns: a send is refused exactly when the ring less one slot is full of values
    that the receiver has not released, a receive fails exactly when everything
    published was received, and values come out once and in order, also when the
    positions wrap around. *)
Theorem lamport_refines_queue e r os :
  0 <= e <= 63 -> lamport_channel (2 ^ e) = Some r ->
  exists r', ring_run r os = Some (r', (queue_run (2 ^ e) (mkQueue [] 0 0 0) os).2).
Proof.
  intros He Hnew. pose proof (ring_pow e He).
  assert (ring_rel e r (mkQueue [] 0 0 0) 0 0) as H0.
  { unfold lamport_channel, inner_new in Hnew. destruct (is_power_of_two (2 ^ e)); [|done]. cbn in Hnew.
    injection Hnew as <-. split; cbn [fst snd s_mask r_mask buffer sent published received released]; try done; try lia.
    - by rewrite length_replicate.
    - cbn. lia. }
  clear Hnew. revert H0. generalize (mkQueue ([] : list T) 0 0 0) as q. generalize 0 at 1 as ct. generalize 0 as chd.
  revert r. induction os as [|o os IH]; intros r chd ct q Hq; [by exists r|].
  destruct (op_rel _ _ _ _ _ o Hq) as (r' & ct' & chd' & E & H'). cbn [ring_run queue_run]. rewrite E.
  cbn [mbind option_bind]. destruct (queue_op (2 ^ e) q o) as [q' x]. cbn [fst snd] in *.
  destruct (IH _ _ _ _ H') as (r'' & ->). cbn [mbind option_bind]. destruct (queue_run (2 ^ e) q' os) as [q'' xs]. 
  by exists r''.
Qed.

End Ring.
Arguments Inner : clear implicits.
Arguments Queue : clear implicits.
Arguments Ring : clear implicits.
Arguments ring_op : clear implicits.

(** ** The channel *)

Section Channel.
Context {Req Resp : Type}.

Record LamportCaller : Type := mkCaller {
  call_tx : LamportSender;
  resp_rx : LamportReceiver;
  send_count : Z;
  inflight : Z;
  max_inflight : Z;
}.

(** [CallerLane], the server's ends of a caller's rings. *)
Record CallerLane : Type := mkCallerLane {
  call_rx : LamportReceiver;
  resp_tx : LamportSender;
  recv_count : Z;
  lane_available : Z;
}.

(** A caller, its lane in the server and the memory of their two rings. *)
Record Lane : Type := mkLane {
  caller : LamportCaller;
  lane : CallerLane;
  calls : Inner Req;
  resps : Inner (Response Resp);
}.

Record Channel : Type := mkChannel { lanes : list Lane; current_lane : nat }.
Implicit Types (l : Lane) (ch : Channel).

(** [LamportCaller::call]. *)
Definition call l (req : Req) : option (Lane * result Z (CallError Req)) :=
  let c := caller l in
  if negb (rx_alive (calls l)) then Some (l, Err (Disconnected req))
  else if max_inflight c <=? inflight c then Some (l, Err (InflightExceeded req))
  else match send (call_tx c) (calls l) req with
       | None => None
       | Some (tx, i, Err req) =>
           Some (mkLane (mkCaller tx (resp_rx c) (send_count c) (inflight c) (max_inflight c)) (lane l) i (resps l),
                 Err (Full req))
       | Some (tx, i, Ok _) =>
           Some (mkLane (mkCaller tx (resp_rx c) (u64 (send_count c + 1)) (u64 (inflight c + 1)) (max_inflight c))
                   (lane l) i (resps l), Ok (send_count c))
       end.

(** [LamportCaller::sync], its two stores. *)
Definition sync_calls l : Lane :=
  mkLane (caller l) (lane l) (send_sync (call_tx (caller l)) (calls l)) (resps l).
Definition sync_resps l : Lane :=
  mkLane (caller l) (lane l) (calls l) (recv_sync (resp_rx (caller l)) (resps l)).
Definition sync l : Lane := sync_resps (sync_calls l).

(** [LamportCaller::try_recv_response]. *)
Definition try_recv_response l : option (Lane * option (Z * Resp)) :=
  let c := caller l in
  match recv (resp_rx c) (resps l) with
  | None => None
  | Some (rx, None) =>
      Some (mkLane (mkCaller (call_tx c) rx (send_count c) (inflight c) (max_inflight c)) (lane l) (calls l) (resps l), None)
  | Some (rx, Some r) =>
      Some (mkLane (mkCaller (call_tx c) rx (send_count c) (u64 (inflight c - 1)) (max_inflight c)) (lane l) (calls l) (resps l),
            Some (Onesided.token r, Onesided.resp_data r))
  end.

(** The body of the loop of [LamportServer::poll]. *)
Definition poll_lane l : Lane :=
  let ln := lane l in
  let rx := refresh_head (call_rx ln) (calls l) in
  mkLane (caller l) (mkCallerLane rx (resp_tx ln) (recv_count ln) (available rx))
    (recv_sync rx (calls l)) (send_sync (resp_tx ln) (resps l)).

Definition poll ch : Channel * Z :=
  let ls := poll_lane <$> lanes ch in
  (mkChannel ls (current_lane ch), u32 (foldr (fun l t => lane_available (lane l) + t) 0 ls)).

(** [LamportServer::try_recv]: at most [n] lanes from [current_lane] on; the
    handle's caller, token and request. *)
Fixpoint try_recv_from (n : nat) ch : option (Channel * option (ReplyToken * Req)) :=
  match n with
  | O => Some (ch, None)
  | S n =>
      let idx := current_lane ch in
      let next := if decide (length (lanes ch) <= S idx)%nat then O else S idx in
      l ← lanes ch !! idx;
      let ln := lane l in
      if 0 <? lane_available ln
      then match recv (call_rx ln) (calls l) with
           | None => None
           | Some (rx, None) =>
               try_recv_from n (mkChannel (<[idx := mkLane (caller l)
                 (mkCallerLane rx (resp_tx ln) (recv_count ln) (lane_available ln)) (calls l) (resps l)]> (lanes ch)) next)
           | Some (rx, Some req) =>
               Some (mkChannel (<[idx := mkLane (caller l)
                 (mkCallerLane rx (resp_tx ln) (u64 (recv_count ln + 1)) (lane_available ln - 1)) (calls l) (resps l)]>
                   (lanes ch)) next, Some (mkToken (Z.of_nat idx) (recv_count ln), req))
           end
      else try_recv_from n (mkChannel (lanes ch) next)
  end.
Definition server_try_recv ch := try_recv_from (length (lanes ch)) ch.

(** [LamportServer::reply]: [let _ = lane.resp_tx.send(response)]. *)
Definition reply ch (t : ReplyToken) (resp : Resp) : option Channel :=
  l ← lanes ch !! Z.to_nat (tk_caller_id t);
  '(tx, i, _) ← send (resp_tx (lane l)) (resps l) (mkResponse (slot_token t) resp);
  Some (mkChannel (<[Z.to_nat (tk_caller_id t) := mkLane (caller l)
          (mkCallerLane (call_rx (lane l)) tx (recv_count (lane l)) (lane_available (lane l))) (calls l) i]> (lanes ch))
          (current_lane ch)).

(** [LamportMpsc::create]. *)
Definition create (max_callers : nat) (ring_depth max_inflight : Z) : option Channel :=
  '(ctx, crx, ci) ← lamport_channel ring_depth;
  '(rtx, rrx, ri) ← lamport_channel ring_depth;
  Some (mkChannel (replicate max_callers
    (mkLane (mkCaller ctx rrx 0 0 max_inflight) (mkCallerLane crx rtx 0 0) ci ri)) 0).

(** ** Programs *)

Inductive op : Type :=
| OCall (i : nat) (req : Req)
| OSync (i : nat)
| OSyncCalls (i : nat)
| OSyncResps (i : nat)
| ORecv (i : nat)
| OPoll
| OTakeReply (resp : Req -> Resp).

Inductive out : Type :=
| RCall (r : result Z (CallError Req))
| RRecv (r : option (Z * Resp))
| RPoll (n : Z)
| RTake (r : option Req)
| RDone.

Definition on_lane {R} (i : nat) (f : Lane -> option (Lane * R)) ch : option (Channel * R) :=
  l ← lanes ch !! i;
  '(l, r) ← f l;
  Some (mkChannel (<[i := l]> (lanes ch)) (current_lane ch), r).

Definition exec ch (o : op) : option (Channel * out) :=
  match o with
  | OCall i req => '(ch, r) ← on_lane i (fun l => call l req) ch; Some (ch, RCall r)
  | OSync i => '(ch, _) ← on_lane i (fun l => Some (sync l, tt)) ch; Some (ch, RDone)
  | OSyncCalls i => '(ch, _) ← on_lane i (fun l => Some (sync_calls l, tt)) ch; Some (ch, RDone)
  | OSyncResps i => '(ch, _) ← on_lane i (fun l => Some (sync_resps l, tt)) ch; Some (ch, RDone)
  | ORecv i => '(ch, r) ← on_lane i try_recv_response ch; Some (ch, RRecv r)
  | OPoll => let '(ch, n) := poll ch in Some (ch, RPoll n)
  | OTakeReply f =>
      '(ch, r) ← server_try_recv ch;
      match r with
      | None => Some (ch, RTake None)
      | Some (t, req) => ch ← reply ch t (f req); Some (ch, RTake (Some req))
      end
  end.

Fixpoint run ch (os : list op) : option (Channel * list out) :=
  match os with
  | [] => Some (ch, [])
  | o :: os => '(ch, r) ← exec ch o; '(ch, rs) ← run ch os; Some (ch, r :: rs)
  end.

End Channel.
Arguments op : clear implicits.
Arguments out : clear implicits.

(** ** Concrete runs *)

Lemma lamport_refines_queue_witness :
  exists r r', lamport_channel (T := Z) (2 ^ 2) = Some r /\
    ring_run r [OpSend 1; OpRecv; OpSendSync; OpSend 2; OpSend 3; OpSend 4; OpRecv; OpRecvSync; OpSend 4; OpRecv] =
      Some (r', [OutSend true; OutRecv None; OutUnit; OutSend true; OutSend true; OutSend false;
                 OutRecv (Some 1); OutUnit; OutSend true; OutRecv None]).
Proof.
  destruct (lamport_channel (T := Z) (2 ^ 2)) as [r|] eqn:E; [|discriminate].
  destruct (lamport_refines_queue 2 r
    [OpSend 1; OpRecv; OpSendSync; OpSend 2; OpSend 3; OpSend 4; OpRecv; OpRecvSync; OpSend 4; OpRecv]
    ltac:(lia) E) as [r' Hr]. exists r, r'. split; [done|]. exact Hr.
Defined.

Definition run_new (max_callers : nat) (ring_depth max_inflight : Z) (os : list (op Z Z)) : option (list (out Z Z)) :=
  ch ← create max_callers ring_depth max_inflight; '(_, rs) ← run ch os; Some rs.

(** One exchange. *)
Example lamport_exchange :
  run_new 2 4 3 [OCall 1 10; OPoll; OSync 1; OPoll; OTakeReply (Z.add 1); ORecv 1; OPoll; ORecv 1] =
  Some [RCall (Ok 0); RPoll 0; RDone; RPoll 1; RTake (Some 10); RRecv None; RPoll 0; RRecv (Some (0, 11))].
Proof. vm_compute. reflexivity. Qed.

(** [max_inflight = ring_depth]: the ring of two slots holds one response, the second
    is dropped although both requests were accepted within the bound. *)
Lemma lamport_reply_lost :
  run_new 1 2 2 [OCall 0 10; OSync 0; OPoll; OTakeReply (Z.add 1); OPoll; OCall 0 20; OSync 0; OPoll;
                 OTakeReply (Z.add 1); OPoll; ORecv 0; ORecv 0] =
  Some [RCall (Ok 0); RDone; RPoll 1; RTake (Some 10); RPoll 0; RCall (Ok 1); RDone; RPoll 1;
        RTake (Some 20); RPoll 0; RRecv (Some (0, 11)); RRecv None].
Proof. vm_compute. reflexivity. Qed.

(** [max_inflight = ring_depth - 1]: [sync] publishes the calls before it releases the
    response slots.  A server that runs between the two stores still sees the slot of
    the response received before as taken and drops its answer; with the stores the
    other way round the same answer arrives. *)
Lemma lamport_sync_order_loses_reply :
  let first := [OCall 0 10; OSync 0; OPoll; OTakeReply (Z.add 1); OPoll; ORecv 0; OCall 0 20] in
  let server := [OPoll; OTakeReply (Z.add 1); OPoll] in
  last <$> run_new 1 2 1 (first ++ [OSyncCalls 0] ++ server ++ [OSyncResps 0; ORecv 0]) =
    Some (Some (RRecv None)) /\
  last <$> run_new 1 2 1 (first ++ [OSyncResps 0] ++ [OSyncCalls 0] ++ server ++ [ORecv 0]) =
    Some (Some (RRecv (Some (1, 21)))).
Proof. split; vm_compute; reflexivity. Qed.

End Lamport.
