(* ===== verification/Scheduler.v ===== *)
(** * Scheduler: time-sharing of connection groups in [scalerpc]

    [GroupScheduler] of [scalerpc/src/server.rs].  Connections belong to groups; one
    group is processed at a time and the following one is warmed up.  Time is an
    argument: [now] is what [Instant::now()] returns, in microseconds. *)
From S2P Require Import Prelude.

Module Scheduler.

Inductive SchedulerState : Type := Processing | ContextSwitching.

Record GroupContext : Type := mkGroup {
  group_id : nat;
  connections : list Z;
  group_seq : Z;
}.

Definition group_new (id : nat) : GroupContext := mkGroup id [] 0.
Definition group_add (g : GroupContext) (conn_id : Z) : GroupContext :=
  mkGroup (group_id g) (connections g ++ [conn_id]) (group_seq g).

Record GroupScheduler : Type := mkScheduler {
  groups : list GroupContext;
  current_group : nat;
  next_group : nat;
  time_slice_us : Z;
  last_switch : Z;
  state : SchedulerState;
  context_switch_seq : Z;
}.
Implicit Types (s : GroupScheduler).

Definition new (num_groups : nat) (slice now : Z) : GroupScheduler :=
  mkScheduler (group_new <$> seq 0 num_groups) 0 (if decide (1 < num_groups)%nat then 1 else 0)
    slice now Processing 0.

Definition num_groups s : nat := length (groups s).

(** [elapsed().as_micros() as u64]. *)
Definition should_switch (now : Z) s : bool :=
  if decide (num_groups s <= 1)%nat then false else time_slice_us s <=? u64 (now - last_switch s).

Definition with_groups s (gs : list GroupContext) : GroupScheduler :=
  mkScheduler gs (current_group s) (next_group s) (time_slice_us s) (last_switch s) (state s) (context_switch_seq s).

(** [conn_id % self.groups.len()] panics without groups. *)
Definition add_connection s (conn_id : Z) : option (GroupScheduler * nat) :=
  if decide (groups s = []) then None
  else
    let id := Z.to_nat (conn_id mod Z.of_nat (num_groups s)) in
    g ← groups s !! id;
    Some (with_groups s (<[id := group_add g conn_id]> (groups s)), id).

Inductive Error : Type := GroupNotFound (g : nat).

Definition add_connection_to_group s (conn_id : Z) (id : nat) : GroupScheduler * result unit Error :=
  match groups s !! id with
  | None => (s, Err (GroupNotFound id))
  | Some g => (with_groups s (<[id := group_add g conn_id]> (groups s)), Ok tt)
  end.

Definition current_group_connections s : option (list Z) := connections <$> groups s !! current_group s.
Definition next_group_connections s : option (list Z) := connections <$> groups s !! next_group s.

(** [next = (next + 1) % num_groups]. *)
Definition succ_mod (n i : nat) : nat := ((i + 1) mod n)%nat.

(** The loop that skips empty groups, at most [k] of them; [None] is an index out of
    range. *)
Fixpoint skip_empty (k : nat) (gs : list GroupContext) (i : nat) : option nat :=
  match k with
  | O => Some i
  | S k =>
      g ← gs !! i;
      if decide (connections g = []) then skip_empty k gs (succ_mod (length gs) i) else Some i
  end.

(** [GroupScheduler::do_context_switch]; the remainder by zero panics. *)
Definition do_context_switch (now : Z) s : option (GroupScheduler * Z) :=
  let n := num_groups s in
  if decide (n = O) then None
  else
    next ← skip_empty n (groups s) (succ_mod n (current_group s));
    let seq := u64 (context_switch_seq s + 1) in
    Some (mkScheduler (groups s) next (succ_mod n next) (time_slice_us s) now Processing seq, seq).

(** [GroupScheduler::context_switch], which also numbers the group. *)
Definition context_switch (now : Z) s : option (GroupScheduler * Z) :=
  let n := num_groups s in
  if decide (n = O) then None
  else
    next ← skip_empty n (groups s) (succ_mod n (current_group s));
    let seq := u64 (context_switch_seq s + 1) in
    g ← groups s !! next;
    Some (mkScheduler (<[next := mkGroup (group_id g) (connections g) seq]> (groups s)) next (succ_mod n next)
            (time_slice_us s) now Processing seq, seq).

(** ** Well-formed schedulers *)

Definition sched_ok s : Prop :=
  (current_group s < num_groups s)%nat /\ next_group s = succ_mod (num_groups s) (current_group s).

(** The connections of each group, which no switch changes. *)
Definition members s : list (list Z) := connections <$> groups s.
Definition busy s (i : nat) : Prop := exists cs, members s !! i = Some cs /\ cs <> [].

Lemma sched_new_ok n slice now : (0 < n)%nat -> sched_ok (new n slice now).
Proof.
  intros Hn. unfold sched_ok, num_groups, new. cbn. rewrite length_fmap, length_seq. split; [done|].
  case_decide; [symmetry; by apply Nat.mod_small|]. replace n with 1%nat by lia. done.
Qed.

Lemma length_members s : length (members s) = num_groups s.
Proof. apply length_fmap. Qed.

Lemma succ_mod_lt n i : (0 < n)%nat -> (succ_mod n i < n)%nat.
Proof. intros H. apply Nat.mod_upper_bound. lia. Qed.

(** How many steps from [i] on to [g], around the groups. *)
Definition steps_to (n i g : nat) : nat := if decide (i <= g)%nat then g - i else n - i + g.

Lemma succ_mod_cases n i :
  (i < n)%nat -> (S i < n /\ succ_mod n i = S i \/ S i = n /\ succ_mod n i = 0)%nat.
Proof.
  intros H. unfold succ_mod. destruct (decide (S i < n)%nat).
  - left. split; [done|]. rewrite Nat.mod_small by lia. lia.
  - right. split; [lia|]. replace (i + 1)%nat with n by lia. apply Nat.Div0.mod_same.
Qed.

Lemma steps_to_succ n i g :
  (i < n)%nat -> (g < n)%nat -> i <> g -> steps_to n i g = S (steps_to n (succ_mod n i) g).
Proof.
  intros Hi Hg Hne. unfold steps_to. destruct (succ_mod_cases n i Hi) as [[H1 ->]|[H1 ->]];
    repeat case_decide; lia.
Qed.

(** The loop finds the first group with connections, and does not pass [g]. *)
Lemma skip_empty_spec gs g k : forall i,
  (i < length gs)%nat -> (g < length gs)%nat -> (exists x, gs !! g = Some x /\ connections x <> []) ->
  (steps_to (length gs) i g < k)%nat ->
  exists j x, skip_empty k gs i = Some j /\ gs !! j = Some x /\ connections x <> [] /\ (j < length gs)%nat /\
    (steps_to (length gs) j g <= steps_to (length gs) i g)%nat /\
    (steps_to (length gs) i j <= steps_to (length gs) i g)%nat.
Proof.
  induction k as [|k IH]; intros i Hi Hg Hbusy Hk; [lia|]. cbn [skip_empty].
  destruct (lookup_lt_is_Some_2 gs i Hi) as [x Hx]. rewrite Hx. cbn [mbind option_bind]. case_decide as Hc.
  - assert (i <> g) as Hne by (intros ->; destruct Hbusy as (y & Hy & Hyc); congruence).
    pose proof (steps_to_succ _ _ _ Hi Hg Hne) as Hs.
    destruct (IH (succ_mod (length gs) i)) as (j & y & E & Hj & Hjc & Hlt & H1 & H2);
      [apply succ_mod_lt; lia|done|done|lia|].
    exists j, y. split; [done|]. split; [done|]. split; [done|]. split; [done|]. split; [lia|].
    assert (i <> j) as Hij by (intros ->; congruence).
    pose proof (steps_to_succ _ _ _ Hi Hlt Hij). lia.
  - exists i, x. split; [done|]. split; [done|]. split; [done|]. split; [done|]. split; [lia|].
    unfold steps_to at 1. rewrite decide_True by lia. lia.
Qed.

Lemma busy_group s g : busy s g -> (g < num_groups s)%nat /\ exists x, groups s !! g = Some x /\ connections x <> [].
Proof.
  intros (cs & Hcs & Hne). unfold members in Hcs. rewrite list_lookup_fmap in Hcs.
  destruct (groups s !! g) as [x|] eqn:E; [|done]. injection Hcs as <-.
  split; [by eapply lookup_lt_Some|]. by exists x.
Qed.

Lemma steps_to_lt n i g : (i < n)%nat -> (g < n)%nat -> (steps_to n i g < n)%nat.
Proof. intros Hi Hg. unfold steps_to. case_decide; lia. Qed.


(** Either version of the switch. *)
Definition switch (numbering : bool) (now : Z) s : option (GroupScheduler * Z) :=
  if numbering then context_switch now s else do_context_switch now s.

(** The distance from the group after the current one. *)
Definition ahead s (g : nat) : nat := steps_to (num_groups s) (succ_mod (num_groups s) (current_group s)) g.

(** What every switch does when some group is busy: it starts a busy group, forgets
    no connection, and gets closer to [g]. *)
Record switched (now : Z) s s' (q : Z) (g : nat) : Prop := mkSwitched {
  sw_ok : sched_ok s';
  sw_members : members s' = members s;
  sw_busy : busy s (current_group s');
  sw_seq : context_switch_seq s' = q /\ q = u64 (context_switch_seq s + 1);
  sw_time : last_switch s' = now /\ time_slice_us s' = time_slice_us s /\ state s' = Processing;
  sw_first : (steps_to (num_groups s) (next_group s) (current_group s') <= ahead s g)%nat;
  sw_ahead : current_group s' = g \/ (ahead s' g < ahead s g)%nat;
}.

Lemma members_renumber (gs : list GroupContext) i x q :
  gs !! i = Some x -> connections <$> <[i := mkGroup (group_id x) (connections x) q]> gs = connections <$> gs.
Proof.
  intros H. rewrite list_fmap_insert. cbn. apply list_insert_id. by rewrite list_lookup_fmap, H.
Qed.

(** Both versions start the group the loop finds. *)
Lemma switch_value b now s j x :
  num_groups s <> O -> skip_empty (num_groups s) (groups s) (succ_mod (num_groups s) (current_group s)) = Some j ->
  groups s !! j = Some x ->
  exists gs, switch b now s = Some (mkScheduler gs j (succ_mod (num_groups s) j) (time_slice_us s) now
      Processing (u64 (context_switch_seq s + 1)), u64 (context_switch_seq s + 1)) /\
    connections <$> gs = connections <$> groups s.
Proof.
  intros Hn E Hj. unfold switch, context_switch, do_context_switch.
  destruct b; rewrite decide_False by done; rewrite E; cbn [mbind option_bind];
    [rewrite Hj; cbn [mbind option_bind]|]; eexists; split; [reflexivity| |reflexivity|done]; by apply members_renumber.
Qed.

Lemma switch_spec b now s g :
  sched_ok s -> busy s g -> exists s' q, switch b now s = Some (s', q) /\ switched now s s' q g.
Proof.
  intros [Hc Hn] Hb. destruct (busy_group s g Hb) as [Hg Hx].
  pose proof (succ_mod_lt (num_groups s) (current_group s) ltac:(lia)) as Hsm.
  destruct (skip_empty_spec (groups s) g (num_groups s) (succ_mod (num_groups s) (current_group s)) Hsm Hg Hx)
    as (j & x & E & Hj & Hjc & Hlt & H1 & H2); [by apply steps_to_lt|].
  destruct (switch_value b now s j x ltac:(lia) E Hj) as (gs & -> & Hgs).
  eexists _, _. split; [reflexivity|]. set (s' := mkScheduler _ _ _ _ _ _ _).
  assert (num_groups s' = num_groups s) as Hnum by (rewrite <-!length_members; unfold members; cbn; by rewrite Hgs).
  split; cbn [groups current_group next_group context_switch_seq last_switch time_slice_us state]; try done.
  - split; rewrite Hnum; done.
  - exists (connections x). split; [|done]. change (current_group s') with j. unfold members. by rewrite list_lookup_fmap, Hj.
  - rewrite Hn. change (current_group s') with j. exact H2.
  - destruct (decide (j = g)) as [->|Hne]; [by left|right]. unfold ahead. rewrite Hnum. change (current_group s') with j.
    pose proof (steps_to_succ (num_groups s) j g Hlt Hg Hne) as Hs. unfold num_groups in *. lia.
Qed.

(** A sequence of switches. *)
Fixpoint switches (ts : list (bool * Z)) s : option GroupScheduler :=
  match ts with
  | [] => Some s
  | (b, now) :: ts => '(s', _) ← switch b now s; switches ts s'
  end.

Lemma switches_reach g m : forall s ts,
  sched_ok s -> busy s g -> (ahead s g < m)%nat -> length ts = m ->
  exists k s', (0 < k <= m)%nat /\ switches (take k ts) s = Some s' /\ current_group s' = g /\
    sched_ok s' /\ members s' = members s.
Proof.
  induction m as [|m IH]; intros s ts Hok Hb Ha Hl; [lia|]. destruct ts as [|[b now] ts]; [done|].
  destruct (switch_spec b now s g Hok Hb) as (s' & q & E & [Hok' Hm _ _ _ _ Hah]).
  destruct (decide (current_group s' = g)) as [Hg|Hg].
  - exists 1%nat, s'. split; [lia|]. cbn. rewrite E. done.
  - destruct Hah as [?|Hah]; [done|]. injection Hl as Hl.
    assert (busy s' g) as Hb' by (unfold busy; by rewrite Hm).
    destruct (IH s' ts Hok' Hb') as (k & s'' & Hk & Er & Hg' & Hok'' & Hm'); [lia|done|].
    exists (S k), s''. split; [lia|]. cbn [take switches]. rewrite E. cbn [mbind option_bind].
    split; [done|]. split; [done|]. split; [done|]. congruence.
Qed.

(** C36: no group starves.  From any well-formed scheduler, of the next [num_groups]
    switches, of either kind and at any times, one makes a given group with
    connections the current one; no switch panics on the way and no connection is
    forgotten. *)
Theorem scheduler_fair s g ts :
  sched_ok s -> busy s g -> length ts = num_groups s ->
  exists k s', (0 < k <= num_groups s)%nat /\ switches (take k ts) s = Some s' /\ current_group s' = g /\
    sched_ok s' /\ members s' = members s.
Proof.
  intros Hok Hb Hl. apply switches_reach; try done. destruct (busy_group s g Hb) as [Hg _].
  apply steps_to_lt; [|done]. apply succ_mod_lt. lia.
Qed.

(** A switch starts the group announced as next when that group has connections. *)
Lemma switch_next b now s s' q :
  sched_ok s -> busy s (next_group s) -> switch b now s = Some (s', q) -> current_group s' = next_group s.
Proof.
  intros Hok Hnext E. destruct (switch_spec b now s (next_group s) Hok Hnext) as (s2 & q2 & E2 & [_ _ _ _ _ Hf _]).
  rewrite E in E2. injection E2 as <- <-. unfold ahead in Hf. rewrite <-(proj2 Hok) in Hf.
  assert (steps_to (num_groups s) (next_group s) (next_group s) = 0)%nat as Hz
    by (unfold steps_to; rewrite decide_True by lia; lia).
  rewrite Hz in Hf. unfold steps_to in Hf. case_decide; [lia|].
  destruct (busy_group _ _ Hnext) as [Hlt _]. lia.
Qed.

(** When the warmed-up group is the one that is started.  While some group has
    connections, a switch starts the group announced as next, whose requests were
    fetched, exactly if that group has connections: [next_group] is the following
    index, and empty groups are skipped only by the switch. *)
Theorem warmup_predicts_switch b now s g :
  sched_ok s -> busy s g ->
  exists s' q, switch b now s = Some (s', q) /\ (current_group s' = next_group s <-> busy s (next_group s)).
Proof.
  intros Hok Hb. destruct (switch_spec b now s g Hok Hb) as (s' & q & E & H). exists s', q. split; [done|].
  split; [intros <-; apply H|]. intros Hnext. by apply (switch_next b now s s' q).
Qed.

(** Where each connection goes. *)
Lemma add_connection_spec s c :
  sched_ok s -> exists s' g, add_connection s c = Some (s', g) /\ sched_ok s' /\ busy s' g /\
    g = Z.to_nat (c mod Z.of_nat (num_groups s)) /\
    forall i, i <> g -> members s' !! i = members s !! i.
Proof.
  intros [Hc Hn]. unfold add_connection.
  rewrite decide_False by (intros E; unfold num_groups in Hc; rewrite E in Hc; cbn in Hc; lia).
  set (id := Z.to_nat _). assert (id < length (groups s))%nat as Hid.
  { subst id. unfold num_groups in *.
    pose proof (Z.mod_pos_bound c (Z.of_nat (length (groups s))) ltac:(lia)). lia. }
  destruct (lookup_lt_is_Some_2 (groups s) id Hid) as [x Hx]. rewrite Hx. cbn [mbind option_bind].
  eexists _, _. split; [reflexivity|]. unfold sched_ok, num_groups, members, busy. cbn [groups current_group next_group with_groups].
  rewrite length_insert. split; [done|]. split; [|split; [done|]].
  - eexists. unfold members. cbn [groups with_groups]. rewrite list_fmap_insert, list_lookup_insert_eq by (by rewrite length_fmap).
    split; [reflexivity|]. cbn. by destruct (connections x).
  - intros i Hi. by rewrite list_fmap_insert, list_lookup_insert_ne.
Qed.

Lemma add_connection_members s c s' g :
  add_connection s c = Some (s', g) -> members s' = alter (fun cs => cs ++ [c]) g (members s) /\ num_groups s' = num_groups s.
Proof.
  unfold add_connection. case_decide; [done|]. set (id := Z.to_nat _).
  destruct (groups s !! id) as [x|] eqn:Ex; [|done]. cbn [mbind option_bind]. intros [= <- <-].
  split; [|apply length_insert]. unfold members. cbn. rewrite list_fmap_insert. apply list_eq. intros i.
  destruct (decide (i = id)) as [->|Hne].
  - rewrite list_lookup_alter_eq, list_lookup_insert_eq by (rewrite length_fmap; by eapply lookup_lt_Some).
    by rewrite list_lookup_fmap, Ex.
  - by rewrite list_lookup_alter_ne, list_lookup_insert_ne by done.
Qed.

(** A switch never panics on a well-formed scheduler, even when every group is empty. *)
Lemma skip_empty_total gs k : forall i,
  (i < length gs)%nat -> exists j, skip_empty k gs i = Some j /\ (j < length gs)%nat.
Proof.
  induction k as [|k IH]; intros i Hi; cbn [skip_empty]; [by exists i|].
  destruct (lookup_lt_is_Some_2 gs i Hi) as [x ->]. cbn [mbind option_bind].
  case_decide; [apply IH, succ_mod_lt; lia|by exists i].
Qed.

Lemma switch_total b now s :
  sched_ok s -> exists s' q, switch b now s = Some (s', q) /\ sched_ok s' /\ members s' = members s /\
    num_groups s' = num_groups s.
Proof.
  intros [Hc Hn]. pose proof (succ_mod_lt (num_groups s) (current_group s) ltac:(lia)) as Hsm.
  destruct (skip_empty_total (groups s) (num_groups s) _ Hsm) as (j & E & Hj).
  destruct (lookup_lt_is_Some_2 (groups s) j Hj) as [x Hx].
  destruct (switch_value b now s j x ltac:(lia) E Hx) as (gs & -> & Hgs).
  eexists _, _. split; [reflexivity|].
  assert (length gs = num_groups s) as Hl by (unfold num_groups; rewrite <-(length_fmap connections gs), Hgs; apply length_fmap).
  split; [split; cbn; rewrite Hl; done|]. split; [exact Hgs|exact Hl].
Qed.

(** ** Concrete runs *)

Definition demo : GroupScheduler :=
  let s := new 4 100 0 in
  default s (fst <$> (s ← add_connection s 0; add_connection (s.1) 2)).

Lemma demo_sched_ok : sched_ok demo /\ busy demo 0 /\ busy demo 2.
Proof. split; [split; vm_compute; lia|]. split; eexists; (split; [vm_compute; reflexivity|done]). Qed.

Lemma scheduler_fair_witness :
  exists k s', (0 < k <= 4)%nat /\
    switches (take k [(true, 100); (false, 200); (true, 300); (false, 400)]) demo = Some s' /\
    current_group s' = 2%nat /\ sched_ok s' /\ members s' = members demo.
Proof.
  apply (scheduler_fair demo 2 [(true, 100); (false, 200); (true, 300); (false, 400)]);
    [apply demo_sched_ok|apply demo_sched_ok|reflexivity].
Defined.

Lemma warmup_predicts_switch_witness :
  exists s' q, switch false 100 demo = Some (s', q) /\
    (current_group s' = next_group demo <-> busy demo (next_group demo)) /\
    next_group demo = 1%nat /\ ~ busy demo 1.
Proof.
  destruct (warmup_predicts_switch false 100 demo 0 (proj1 demo_sched_ok) (proj1 (proj2 demo_sched_ok))) as (s' & q & E & H).
  exists s', q. split; [exact E|]. split; [exact H|]. split; [reflexivity|].
  intros (cs & Hcs & Hne). vm_compute in Hcs. injection Hcs as <-. done.
Defined.

End Scheduler.
