(* ===== verification/Server.v ===== *)
(** * Server: request slots, answers, warmup and context switches of [scalerpc]

    [RpcServer] of [scalerpc/src/server.rs].  The pools, the mapping, the wire formats
    and the scheduler are those of their own files.  The queue pair of a connection is
    a flag that says whether the connection exists; whether its send queue accepts a
    work request, what the adapter reads from the memory of a client, what the request
    handler answers and what time it is are arguments. *)
From S2P Require Import Prelude Protocol Mapping Pool Scheduler.

Module Server.

Notation MessagePool := Pool.MessagePool.
Notation VirtualMapping := Mapping.VirtualMapping.
Notation IncomingRequest := Protocol.IncomingRequest.
Notation ResponseHeader := Protocol.ResponseHeader.
Notation EndpointEntry := Protocol.EndpointEntry.
Notation GroupScheduler := Scheduler.GroupScheduler.

(** ** Endpoint entries *)

(** [EndpointEntryPool]: its memory and the last sequence number seen of each
    connection. *)
Record EndpointEntryPool : Type := mkEntries { ep_buffer : list Z; num_entries : Z; last_seqs : list Z }.

Definition ENTRY_SIZE : Z := 16.
Definition entry_off (conn_id : Z) : nat := Z.to_nat (conn_id * ENTRY_SIZE).

Definition entries_new (max_connections : Z) : EndpointEntryPool :=
  mkEntries (replicate (Z.to_nat (max_connections * ENTRY_SIZE)) 0) max_connections
    (replicate (Z.to_nat max_connections) 0).

Definition read_entry (e : EndpointEntryPool) (conn_id : Z) : EndpointEntry :=
  if num_entries e <=? conn_id then Protocol.mkEndpointEntry 0 0 0
  else Protocol.entry_read_from (ep_buffer e) (entry_off conn_id).

(** [has_new_batch]; [None] is an index out of range. *)
Definition has_new_batch (e : EndpointEntryPool) (conn_id : Z) : option (EndpointEntryPool * option EndpointEntry) :=
  if num_entries e <=? conn_id then Some (e, None)
  else
    let entry := read_entry e conn_id in
    last ← last_seqs e !! Z.to_nat conn_id;
    if (last <? Protocol.seq entry) && (0 <? Protocol.batch_size entry)
    then Some (mkEntries (ep_buffer e) (num_entries e)
                 (<[Z.to_nat conn_id := Protocol.seq entry]> (last_seqs e)), Some entry)
    else Some (e, None).

Definition clear_entry (e : EndpointEntryPool) (conn_id : Z) : EndpointEntryPool :=
  if num_entries e <=? conn_id then e
  else mkEntries (write_bytes (ep_buffer e) (entry_off conn_id + 8) (le_bytes 4 0)) (num_entries e) (last_seqs e).

(** ** The server *)

Record WarmupBufferInfo : Type := mkWarmupInfo { wb_addr : Z; wb_rkey : Z; wb_slots : Z }.

(** The scratch vector [conn_buf] is not part of the state: what it passes from one
    method to another is a result of the former. *)
Record RpcServer : Type := mkServer {
  processing_pool : MessagePool;
  warmup_pool : MessagePool;
  response_pool : MessagePool;
  mapping : VirtualMapping;
  connected : list bool;
  scheduler : GroupScheduler;
  event_buffer_addrs : list (option (Z * Z));
  needs_flush : list Z;
  warmup_buffer_infos : list (option WarmupBufferInfo);
  endpoint_entries : EndpointEntryPool;
  pending_context_switch : list (option (Z * Z));
  next_expected_slot : list Z;
  last_processed_seq : list Z;
}.
Implicit Types (s : RpcServer) (p : MessagePool).

(** [RpcServer::new] over pools of [num_slots] slots at the given addresses. *)
Definition server_new (a1 a2 a3 num_slots data_size max_connections : Z) (num_groups : nat) (slice now : Z) : RpcServer :=
  mkServer (Pool.pool_new a1 num_slots data_size) (Pool.pool_new a2 num_slots data_size)
    (Pool.pool_new a3 num_slots data_size) Mapping.new [] (Scheduler.new num_groups slice now) [] [] []
    (entries_new max_connections) [] [] [].

(** Assignments to the fields. *)
Definition with_polling s p (next : list Z) : RpcServer :=
  mkServer p (warmup_pool s) (response_pool s) (mapping s) (connected s) (scheduler s) (event_buffer_addrs s)
    (needs_flush s) (warmup_buffer_infos s) (endpoint_entries s) (pending_context_switch s) next (last_processed_seq s).
Definition with_pools s (processing warmup : MessagePool) : RpcServer :=
  mkServer processing warmup (response_pool s) (mapping s) (connected s) (scheduler s) (event_buffer_addrs s)
    (needs_flush s) (warmup_buffer_infos s) (endpoint_entries s) (pending_context_switch s) (next_expected_slot s)
    (last_processed_seq s).
Definition with_scheduler s (sc : GroupScheduler) : RpcServer :=
  mkServer (processing_pool s) (warmup_pool s) (response_pool s) (mapping s) (connected s) sc (event_buffer_addrs s)
    (needs_flush s) (warmup_buffer_infos s) (endpoint_entries s) (pending_context_switch s) (next_expected_slot s)
    (last_processed_seq s).
Definition with_flush s (l : list Z) : RpcServer :=
  mkServer (processing_pool s) (warmup_pool s) (response_pool s) (mapping s) (connected s) (scheduler s)
    (event_buffer_addrs s) l (warmup_buffer_infos s) (endpoint_entries s) (pending_context_switch s)
    (next_expected_slot s) (last_processed_seq s).
Definition with_answer s (responses : MessagePool) (pending : list (option (Z * Z))) (seqs : list Z) : RpcServer :=
  mkServer (processing_pool s) (warmup_pool s) responses (mapping s) (connected s) (scheduler s) (event_buffer_addrs s)
    (needs_flush s) (warmup_buffer_infos s) (endpoint_entries s) pending (next_expected_slot s) seqs.
Definition with_pending s (pending : list (option (Z * Z))) : RpcServer :=
  with_answer s (response_pool s) pending (last_processed_seq s).
Definition with_entries s (e : EndpointEntryPool) : RpcServer :=
  mkServer (processing_pool s) (warmup_pool s) (response_pool s) (mapping s) (connected s) (scheduler s)
    (event_buffer_addrs s) (needs_flush s) (warmup_buffer_infos s) e (pending_context_switch s) (next_expected_slot s)
    (last_processed_seq s).
Definition with_remote s (m : VirtualMapping) (events : list (option (Z * Z))) (infos : list (option WarmupBufferInfo))
    : RpcServer :=
  mkServer (processing_pool s) (warmup_pool s) (response_pool s) m (connected s) (scheduler s) events (needs_flush s)
    infos (endpoint_entries s) (pending_context_switch s) (next_expected_slot s) (last_processed_seq s).

(** [check_slot_for_request] on a slot of the processing pool. *)
Definition pool_check_slot p (slot_index : Z) : MessagePool * option IncomingRequest :=
  match Pool.get_slot p slot_index with
  | None => (p, None)
  | Some sl =>
      match Protocol.check_slot_for_request (Pool.data sl) 0 slot_index with
      | (Some r, d) => (Pool.put_slot p slot_index (Pool.mkSlot (Pool.state_byte sl) (Pool.owner_conn sl) d), Some r)
      | (None, _) => (p, None)
      end
  end.

(** The fallback of [poll_request]: every slot but the one at [slot_pos], in order;
    the position found. *)
Fixpoint scan_slots p (slot_pos idx : nat) (slots : list Z) : option (MessagePool * nat * IncomingRequest) :=
  match slots with
  | [] => None
  | slot :: slots =>
      if decide (idx = slot_pos) then scan_slots p slot_pos (S idx) slots
      else match pool_check_slot p slot with
           | (p', Some r) => Some (p', idx, r)
           | (_, None) => scan_slots p slot_pos (S idx) slots
           end
  end.

(** One connection of [poll_request]: the next expected slot, then the others. *)
Definition poll_slots p (next : Z) (slots : list Z) : option (MessagePool * nat * IncomingRequest) :=
  match slots with
  | [] => None
  | _ =>
      let slot_pos := Z.to_nat (next mod Z.of_nat (length slots)) in
      match slots !! slot_pos with
      | None => None
      | Some next_slot =>
          match pool_check_slot p next_slot with
          | (p', Some r) => Some (p', slot_pos, r)
          | (_, None) => scan_slots p slot_pos 0 slots
          end
      end
  end.

(** [next_slots[conn_id] = (pos + 1) % len], when the index exists. *)
Definition advance (next : list Z) (conn_id : Z) (pos len : nat) : list Z :=
  <[Z.to_nat conn_id := Z.of_nat (S pos) mod Z.of_nat len]> next.

Definition conn_slots (m : VirtualMapping) (c : Z) : list Z :=
  match Mapping.get_connection c m with Some e => Mapping.slots e | None => [] end.

(** The loop of [poll_request] over the connections of the current group. *)
Fixpoint poll_conns p (next : list Z) (m : VirtualMapping) (cs : list Z)
    : MessagePool * list Z * option IncomingRequest :=
  match cs with
  | [] => (p, next, None)
  | c :: cs =>
      match poll_slots p (default 0 (next !! Z.to_nat c)) (conn_slots m c) with
      | Some (p', pos, r) => (p', advance next c pos (length (conn_slots m c)), Some r)
      | None => poll_conns p next m cs
      end
  end.

(** [RpcServer::poll_request]; [None] is a group index out of range. *)
Definition poll_request s : option (RpcServer * option IncomingRequest) :=
  cs ← Scheduler.current_group_connections (scheduler s);
  let '(p, next, r) := poll_conns (processing_pool s) (next_expected_slot s) (mapping s) cs in
  Some (with_polling s p next, r).

(** ** Responses *)

Definition mark_needs_flush s (conn_id : Z) : RpcServer :=
  if decide (conn_id ∈ needs_flush s) then s else with_flush s (needs_flush s ++ [conn_id]).

(** Pushes [x] until index [n] exists. *)
Definition extend {A} (l : list A) (n : nat) (x : A) : list A := l ++ replicate (S n - length l) x.

(** [queue_context_switch_for_piggyback]. *)
Fixpoint queue_events (pending : list (option (Z * Z))) (cs : list Z) (sequence fetched_seq : Z) : list (option (Z * Z)) :=
  match cs with
  | [] => pending
  | c :: cs => queue_events (<[Z.to_nat c := Some (sequence, fetched_seq)]> (extend pending (Z.to_nat c) None))
                 cs sequence fetched_seq
  end.

(** [take_pending_context_switch]. *)
Definition take_pending (pending : list (option (Z * Z))) (conn_id : Z) : list (option (Z * Z)) * option (Z * Z) :=
  match pending !! Z.to_nat conn_id with
  | Some ev => (<[Z.to_nat conn_id := None]> pending, ev)
  | None => (pending, None)
  end.

(** The acknowledgement of [send_response]: the largest sequence number answered. *)
Definition ack_seq (seqs : list Z) (conn_id slot_seq : Z) : list Z * Z :=
  let seqs := extend seqs (Z.to_nat conn_id) 0 in
  let old := default 0 (seqs !! Z.to_nat conn_id) in
  if old <? slot_seq then (<[Z.to_nat conn_id := slot_seq]> seqs, slot_seq) else (seqs, old).

Inductive Error : Type :=
| ConnectionNotFound (c : Z)
| ResponseSlotNotFound (i : Z)
| NoMappingSlot (c slot_idx : Z)
| WarmupSlotNotFound (i : Z)
| ReadFailed
| PoolError (e : Pool.Error)
| MappingError (e : Mapping.Error)
| MaxConnections
| EmitFailed.

(** An RDMA WRITE work request: where to, where from, and how much. *)
Record Write : Type := mkWrite {
  w_remote_addr : Z;
  w_rkey : Z;
  w_local_addr : Z;
  w_len : Z;
  w_signaled : Z;
}.

Definition RESPONSE_HEADER_SIZE : Z := Z.of_nat (Protocol.size_of Protocol.response_widths).

(** The buffer a handler may write its answer to. *)
Definition RESPONSE_BUF_LEN : Z := Protocol.MESSAGE_BLOCK_SIZE - RESPONSE_HEADER_SIZE - 8.
Definition response_buf (sl : Pool.MessageSlot) : list Z :=
  read_bytes (Pool.data sl) (Z.to_nat RESPONSE_HEADER_SIZE) (Z.to_nat RESPONSE_BUF_LEN).

Definition with_data (sl : Pool.MessageSlot) (d : list Z) : Pool.MessageSlot :=
  Pool.mkSlot (Pool.state_byte sl) (Pool.owner_conn sl) d.
Definition put_response_buf (sl : Pool.MessageSlot) (buf : list Z) : Pool.MessageSlot :=
  with_data sl (write_bytes (Pool.data sl) (Z.to_nat RESPONSE_HEADER_SIZE) (take (Z.to_nat RESPONSE_BUF_LEN) buf)).

(** [RequestHandler::handle] of a type and a payload, on the response buffer: status,
    length and the buffer afterwards. *)
Definition RequestHandler : Type := Z -> list Z -> list Z -> Z * Z * list Z.

(** [impl RequestHandler for NoHandler]: error status, no response. *)
Definition NoHandler : RequestHandler := fun _ _ buf => (1, 0, buf).

(** The remote key of a pool's memory region, whether a send queue accepts a work
    request, and the answers of the handler, are arguments. *)
Section Responses.
Context (pool_rkey : MessagePool -> Z).

Definition response_header s (r : IncomingRequest) (status payload_len acked : Z) (event : option (Z * Z)) : ResponseHeader :=
  match event with
  | Some (seq, fetched_seq) =>
      if 0 <? fetched_seq
      then Protocol.with_processing_pool_info_and_credit_ack (Protocol.in_req_id r) status (u32 payload_len) seq fetched_seq
             (default 0 (Pool.slot_data_addr (processing_pool s) 0)) (pool_rkey (processing_pool s)) acked
      else Protocol.with_context_switch_and_credit_ack (Protocol.in_req_id r) status (u32 payload_len) seq fetched_seq acked
  | None => Protocol.with_credit_ack (Protocol.in_req_id r) status (u32 payload_len) acked
  end.

Definition response_write (r : IncomingRequest) (local_addr payload_len : Z) : Write :=
  mkWrite (Protocol.in_client_slot_addr r) (Protocol.in_client_slot_rkey r) local_addr
    (u32 (RESPONSE_HEADER_SIZE + payload_len)) (Protocol.in_req_id r).

(** [send_response_zero_copy]: the header goes before the payload that is in the slot
    already; [accepted] is the outcome of [emit_wqe!]. *)
Definition send_response_zero_copy (accepted : bool) s (r : IncomingRequest) (status payload_len : Z)
    : RpcServer * result Write Error :=
  let c := Protocol.in_conn_id r in
  let i := Protocol.in_slot_index r in
  if negb (default false (connected s !! Z.to_nat c)) then (s, Err (ConnectionNotFound c))
  else match Pool.get_slot (response_pool s) i, Pool.slot_data_addr (response_pool s) i with
       | Some sl, Some addr =>
           let '(seqs, acked) := ack_seq (last_processed_seq s) c (Protocol.in_slot_seq r) in
           let '(pending, event) := take_pending (pending_context_switch s) c in
           let h := response_header s r status payload_len acked event in
           let sl := with_data sl (Protocol.response_write_to h (Pool.data sl) 0) in
           let s := with_answer s (Pool.put_slot (response_pool s) i sl) pending seqs in
           if accepted then (mark_needs_flush s c, Ok (response_write r addr payload_len)) else (s, Err EmitFailed)
       | _, _ => (s, Err (ResponseSlotNotFound i))
       end.

(** [send_response], which copies the payload; [None] is a copy past the slot. *)
Definition send_response (accepted : bool) s (r : IncomingRequest) (status : Z) (payload : list Z)
    : option (RpcServer * result Write Error) :=
  let c := Protocol.in_conn_id r in
  let i := Protocol.in_slot_index r in
  let len := Z.of_nat (length payload) in
  if negb (default false (connected s !! Z.to_nat c)) then Some (s, Err (ConnectionNotFound c))
  else match Pool.get_slot (response_pool s) i, Pool.slot_data_addr (response_pool s) i with
       | Some sl, Some addr =>
           let '(seqs, acked) := ack_seq (last_processed_seq s) c (Protocol.in_slot_seq r) in
           let '(pending, event) := take_pending (pending_context_switch s) c in
           let h := response_header s r status len acked event in
           if Z.of_nat (length (Pool.data sl)) <? RESPONSE_HEADER_SIZE + len then None
           else
             let sl := with_data sl (write_bytes (Protocol.response_write_to h (Pool.data sl) 0)
                                       (Z.to_nat RESPONSE_HEADER_SIZE) payload) in
             let s := with_answer s (Pool.put_slot (response_pool s) i sl) pending seqs in
             if accepted then Some (mark_needs_flush s c, Ok (response_write r addr len)) else Some (s, Err EmitFailed)
       | _, _ => Some (s, Err (ResponseSlotNotFound i))
       end.

Section Handling.
Context (handler : RequestHandler) (accepts : IncomingRequest -> bool).

(** One request of [process], [process_drained_requests] and [poll]: the handler
    writes to the response slot, and the answer is sent. *)
Definition answer s (r : IncomingRequest) : RpcServer * list Write :=
  let i := Protocol.in_slot_index r in
  match Pool.get_slot (response_pool s) i with
  | None => (s, [])
  | Some sl =>
      let '(status, len, buf) := handler (Protocol.in_rpc_type r) (Protocol.in_payload r) (response_buf sl) in
      let s := with_answer s (Pool.put_slot (response_pool s) i (put_response_buf sl buf)) (pending_context_switch s)
                 (last_processed_seq s) in
      match send_response_zero_copy (accepts r) s r status len with
      | (s, Ok w) => (s, [w])
      | (s, Err _) => (s, [])
      end
  end.

(** The loop of [process] and [poll]: requests are polled and answered until none is
    found. *)
Fixpoint process_loop (fuel : nat) s : option (RpcServer * list IncomingRequest * list Write) :=
  match fuel with
  | O => None
  | S fuel =>
      '(s, o) ← poll_request s;
      match o with
      | None => Some (s, [], [])
      | Some r =>
          let '(s, w) := answer s r in
          '(s, rs, ws) ← process_loop fuel s;
          Some (s, r :: rs, w ++ ws)
      end
  end.

(** [RpcServer::process]: the loop, the doorbells, and the switch when it is due. *)
Definition process (fuel : nat) (now : Z) s : option (RpcServer * list IncomingRequest * list Write) :=
  '(s, rs, ws) ← process_loop fuel s;
  let s := with_flush s [] in
  if Scheduler.should_switch now (scheduler s)
  then '(sc, _) ← Scheduler.do_context_switch now (scheduler s); Some (with_scheduler s sc, rs, ws)
  else Some (s, rs, ws).

(** [process_drained_requests]. *)
Fixpoint process_drained_requests s (rs : list IncomingRequest) : RpcServer * list Write :=
  match rs with
  | [] => (s, [])
  | r :: rs =>
      let '(s, w) := answer s r in
      let '(s, ws) := process_drained_requests s rs in
      (s, w ++ ws)
  end.

End Handling.
End Responses.

(** [drain_processing_pool]: the slots from [i] on. *)
Fixpoint drain_slots p (n : nat) (i : Z) : MessagePool * list IncomingRequest :=
  match n with
  | O => (p, [])
  | S n =>
      let '(p, o) := pool_check_slot p i in
      let '(p, rs) := drain_slots p n (i + 1) in
      (p, match o with Some r => r :: rs | None => rs end)
  end.
Definition drain_processing_pool s : RpcServer * list IncomingRequest :=
  let '(p, rs) := drain_slots (processing_pool s) (length (Pool.slots (processing_pool s))) 0 in
  (with_pools s p (warmup_pool s), rs).

(** ** Context switches *)

(** [clear_pool_valid_flags]: magic and valid flag of every slot. *)
Definition clear_slot (sl : Pool.MessageSlot) : Pool.MessageSlot :=
  with_data sl (write_bytes (write_bytes (Pool.data sl) 0 (le_bytes 4 0))
                  (Z.to_nat (Protocol.MESSAGE_BLOCK_SIZE - 4)) (le_bytes 4 0)).
Definition clear_pool_valid_flags p : MessagePool :=
  Pool.mkPool (Pool.base p) (clear_slot <$> Pool.slots p) (Pool.slot_data_size p) (Pool.free_list p).

(** [check_and_switch]. *)
Definition check_and_switch (now : Z) s : option (RpcServer * option Z) :=
  if Scheduler.should_switch now (scheduler s)
  then '(sc, seq) ← Scheduler.context_switch now (scheduler s);
       Some (with_scheduler (with_pools s (warmup_pool s) (processing_pool s)) sc, Some seq)
  else Some (s, None).

(** [perform_context_switch]: the number of the switch and, in [conn_buf], the
    connections of the old group. *)
Definition perform_context_switch (now : Z) s : option (RpcServer * option (Z * list Z)) :=
  if Scheduler.should_switch now (scheduler s)
  then
    old ← Scheduler.current_group_connections (scheduler s);
    '(sc, seq) ← Scheduler.context_switch now (scheduler s);
    Some (with_scheduler (with_pools s (warmup_pool s) (clear_pool_valid_flags (processing_pool s))) sc, Some (seq, old))
  else Some (s, None).

(** [reset_next_expected_slots]. *)
Fixpoint reset_next (m : VirtualMapping) (next : list Z) (cs : list Z) : list Z :=
  match cs with
  | [] => next
  | c :: cs =>
      reset_next m (match Mapping.get_connection c m with
                    | Some _ => <[Z.to_nat c := 0]> next
                    | None => next
                    end) cs
  end.

(** The loop of [notify_context_switch] over the connections: the event is built in a
    slot of the processing pool, which is returned to the pool when its handle is
    dropped at the end of the iteration.  [None] is the panic of [alloc]. *)
Fixpoint notify_events (accepts : Z -> bool) (event : Protocol.ContextSwitchEvent) p s (cs : list Z)
    : option (MessagePool * result (list Write) Error) :=
  match cs with
  | [] => Some (p, Ok [])
  | c :: cs =>
      match default None (event_buffer_addrs s !! Z.to_nat c), default false (connected s !! Z.to_nat c) with
      | Some (addr, rkey), true =>
          '(p, o) ← Pool.alloc p;
          match o with
          | Err e => Some (p, Err (PoolError e))
          | Ok i =>
              sl ← Pool.get_slot p i;
              local ← Pool.slot_data_addr p i;
              let p := Pool.put_slot p i (with_data sl (Protocol.event_write_to event (Pool.data sl) 0)) in
              let p := Pool.free_slot_by_index i p in
              if accepts c
              then '(p, o) ← notify_events accepts event p s cs;
                   Some (p, match o with
                            | Ok ws => Ok (mkWrite addr rkey local 16 (Protocol.ev_sequence event) :: ws)
                            | Err e => Err e
                            end)
              else Some (p, Err EmitFailed)
          end
      | _, _ => notify_events accepts event p s cs
      end
  end.

Definition notify_context_switch (accepts : Z -> bool) s (cs : list Z) (sequence fetched_seq : Z)
    : option (RpcServer * result (list Write) Error) :=
  let s := with_pending s (queue_events (pending_context_switch s) cs sequence fetched_seq) in
  '(p, o) ← notify_events accepts (Protocol.event_new sequence fetched_seq) (processing_pool s) s cs;
  Some (with_pools s p (warmup_pool s), o).

(** ** Warmup *)

(** How the reads of a batch end: all arrive, or the batch fails (a work request is
    refused, or the wait times out) after those of the given indices arrived. *)
Inductive BatchOutcome : Type := AllRead | Failed (landed : list Z).

Section Fetching.
(** The block at an address of a client's memory; the outcome for each connection. *)
Context (remote : Z -> Z -> list Z) (outcome : Z -> BatchOutcome).

(** [issue_warmup_read]: the slot of the warmup pool and the remote address. *)
Definition issue_warmup_read s (c : Z) (info : WarmupBufferInfo) (slot_idx : Z) : result (Z * Z) Error :=
  match Mapping.get_connection c (mapping s) ≫= (fun e => Mapping.slots e !! Z.to_nat slot_idx) with
  | None => Err (NoMappingSlot c slot_idx)
  | Some i =>
      match Pool.slot_data_addr (warmup_pool s) i with
      | None => Err (WarmupSlotNotFound i)
      | Some _ => Ok (i, wb_addr info + slot_idx * Protocol.MESSAGE_BLOCK_SIZE)
      end
  end.

(** The work requests of a batch from [slot_idx] on, with their indices. *)
Fixpoint issue_reads s (c : Z) (info : WarmupBufferInfo) (slot_idx : Z) (n : nat) : result (list (Z * (Z * Z))) Error :=
  match n with
  | O => Ok []
  | S n =>
      match issue_warmup_read s c info slot_idx with
      | Err e => Err e
      | Ok x => match issue_reads s c info (slot_idx + 1) n with
                | Ok xs => Ok ((slot_idx, x) :: xs)
                | Err e => Err e
                end
      end
  end.

(** The adapter writes a block it read to the slot. *)
Definition land p (c : Z) (x : Z * (Z * Z)) : MessagePool :=
  match Pool.get_slot p (x.2.1) with
  | None => p
  | Some sl => Pool.put_slot p (x.2.1) (with_data sl (write_bytes (Pool.data sl) 0
                 (take (Z.to_nat Protocol.MESSAGE_BLOCK_SIZE) (remote c (x.2.2)))))
  end.
Definition land_all p (c : Z) (xs : list (Z * (Z * Z))) : MessagePool := foldl (fun p x => land p c x) p xs.

Definition fetch_warmup_batch s (c : Z) (info : WarmupBufferInfo) (batch_size : Z) : RpcServer * result Z Error :=
  if batch_size =? 0 then (s, Ok 0)
  else match issue_reads s c info 0 (Z.to_nat batch_size) with
       | Err e => (s, Err e)
       | Ok xs =>
           match outcome c with
           | AllRead => (with_pools s (processing_pool s) (land_all (warmup_pool s) c xs), Ok batch_size)
           | Failed l => (with_pools s (processing_pool s)
                            (land_all (warmup_pool s) c (filter (fun x => x.1 ∈ l) xs)), Err ReadFailed)
           end
       end.

(** The loop of [fetch_warmup_requests]; an error ends it. *)
Fixpoint fetch_conns s (cs : list Z) (fetched last_seq : Z) : option (RpcServer * result (Z * Z) Error) :=
  match cs with
  | [] => Some (s, Ok (fetched, last_seq))
  | c :: cs =>
      '(e, o) ← has_new_batch (endpoint_entries s) c;
      let s := with_entries s e in
      match o, default None (warmup_buffer_infos s !! Z.to_nat c), default false (connected s !! Z.to_nat c) with
      | Some entry, Some info, true =>
          match fetch_warmup_batch s c info (Z.min (Protocol.batch_size entry) (wb_slots info)) with
          | (s, Err e) => Some (s, Err e)
          | (s, Ok n) => fetch_conns (with_entries s (clear_entry (endpoint_entries s) c)) cs (fetched + n) (Protocol.seq entry)
          end
      | _, _, _ => fetch_conns s cs fetched last_seq
      end
  end.

(** [fetch_warmup_requests]. *)
Definition fetch_warmup_requests s : option (RpcServer * result (Z * Z) Error) :=
  cs ← Scheduler.next_group_connections (scheduler s);
  fetch_conns s cs 0 0.

(** The part of [poll] before the requests are processed: requests are fetched and,
    when there are some, their group is started. *)
Definition poll_switch (accepts : Z -> bool) (now : Z) s : option RpcServer :=
  '(s, o) ← fetch_warmup_requests s;
  let '(fetched, fetched_seq) := match o with Ok x => x | Err _ => (0, 0) end in
  if 0 <? fetched
  then
    '(sc, seq) ← Scheduler.do_context_switch now (scheduler s);
    let s := with_scheduler s sc in
    cs ← Scheduler.current_group_connections sc;
    let s := with_pools s (warmup_pool s) (clear_pool_valid_flags (processing_pool s)) in
    let s := with_polling s (processing_pool s) (reset_next (mapping s) (next_expected_slot s) cs) in
    '(s, _) ← notify_context_switch accepts s cs seq fetched_seq;
    Some s
  else
    '(s, o) ← perform_context_switch now s;
    match o with
    | Some (seq, cs) => '(s, _) ← notify_context_switch accepts s cs seq 0; Some s
    | None => Some s
    end.

(** [RpcServer::poll]; the completions it drains are not modelled. *)
Definition poll (pool_rkey : MessagePool -> Z) (handler : RequestHandler) (accepts : IncomingRequest -> bool)
    (accepts_event : Z -> bool) (fuel : nat) (now : Z) s : option (RpcServer * list IncomingRequest * list Write) :=
  let s := with_flush s [] in
  s ← poll_switch accepts_event now s;
  '(s, rs, ws) ← process_loop pool_rkey handler accepts fuel s;
  Some (with_flush s [], rs, ws).

(** [run_scheduler_iteration]. *)
Definition run_scheduler_iteration (pool_rkey : MessagePool -> Z) (handler : RequestHandler)
    (accepts : IncomingRequest -> bool) (accepts_event : Z -> bool) (fuel : nat) (now now' : Z) s
    : option (RpcServer * list IncomingRequest * list Write) :=
  '(s, o) ← perform_context_switch now s;
  s ← match o with
      | Some (seq, cs) => '(s, _) ← notify_context_switch accepts_event s cs seq 0; Some s
      | None => Some s
      end;
  '(s, rs, ws) ← process pool_rkey handler accepts fuel now' s;
  '(s, _) ← fetch_warmup_requests s;
  Some (s, rs, ws).

End Fetching.

(** [check_warmup_slot]: by the trailer, or else by the magic number. *)
Definition check_warmup_slot p (slot_index : Z) : MessagePool * option IncomingRequest :=
  match Pool.get_slot p slot_index with
  | None => (p, None)
  | Some sl =>
      let buf := Pool.data sl in
      let '(msg_len, valid) := Protocol.trailer_read_from buf 0 in
      let header := Protocol.request_read_from buf 0 in
      if negb (Protocol.request_is_valid header) then (p, None)
      else
        let r := Protocol.mkIncoming (Protocol.rq_req_id header) (Protocol.rq_rpc_type header)
                   (read_bytes buf (Z.to_nat Protocol.REQUEST_HEADER_SIZE) (Z.to_nat (Protocol.rq_payload_len header)))
                   (Protocol.rq_client_slot_addr header) (Protocol.rq_client_slot_rkey header)
                   (Protocol.rq_sender_conn_id header) slot_index (Protocol.rq_slot_seq header) in
        let buf := write_bytes buf 0 (le_bytes 4 0) in
        let buf := if (valid =? 0) || (msg_len =? 0) then buf
                   else write_bytes buf (Z.to_nat (Protocol.MESSAGE_BLOCK_SIZE - 4)) (le_bytes 4 0) in
        (Pool.put_slot p slot_index (with_data sl buf), Some r)
  end.

(** [drain_warmup_pool]: the slots from [i] on. *)
Fixpoint drain_warmup_slots p (n : nat) (i : Z) : MessagePool * list IncomingRequest :=
  match n with
  | O => (p, [])
  | S n =>
      let '(p, o) := check_warmup_slot p i in
      let '(p, rs) := drain_warmup_slots p n (i + 1) in
      (p, match o with Some r => r :: rs | None => rs end)
  end.
Definition drain_warmup_pool s : RpcServer * list IncomingRequest :=
  let '(p, rs) := drain_warmup_slots (warmup_pool s) (length (Pool.slots (warmup_pool s))) 0 in
  (with_pools s (processing_pool s) p, rs).

(** ** New connections *)

(** The loop that binds the connection's range of slots. *)
Fixpoint bind_range (m : VirtualMapping) (c start : Z) (n : nat) : VirtualMapping * result unit Mapping.Error :=
  match n with
  | O => (m, Ok tt)
  | S n =>
      match Mapping.bind_slot c start m with
      | (m, Ok _) => bind_range m c (start + 1) n
      | (m, Err e) => (m, Err e)
      end
  end.

(** [add_connection] after the queue pair was created; [None] is the panic of a
    scheduler without groups. *)
Definition add_connection (max_connections : Z) s : option (RpcServer * result Z Error) :=
  let c := Z.of_nat (length (connected s)) in
  if max_connections <=? c then Some (s, Err MaxConnections)
  else
    let slots_per_conn := Pool.num_slots (processing_pool s) / max_connections in
    let m := Mapping.register_connection c (mapping s) in
    match bind_range m c (c * slots_per_conn) (Z.to_nat slots_per_conn) with
    | (m, Err e) => Some (with_remote s m (event_buffer_addrs s) (warmup_buffer_infos s), Err (MappingError e))
    | (m, Ok _) =>
        '(sc, _) ← Scheduler.add_connection (scheduler s) c;
        Some (mkServer (processing_pool s) (warmup_pool s) (response_pool s) m (connected s ++ [true]) sc
                (event_buffer_addrs s) (needs_flush s) (warmup_buffer_infos s) (endpoint_entries s)
                (pending_context_switch s) (<[Z.to_nat c := 0]> (extend (next_expected_slot s) (Z.to_nat c) 0))
                (last_processed_seq s), Ok c)
    end.

(** What [connect] reads of a client's [RemoteEndpoint]. *)
Record ClientEndpoint : Type := mkClientEndpoint {
  ce_slot_addr : Z;
  ce_slot_rkey : Z;
  ce_event_addr : Z;
  ce_event_rkey : Z;
  ce_warmup_addr : Z;
  ce_warmup_rkey : Z;
  ce_warmup_slots : Z;
}.

(** [register_event_buffer]. *)
Definition register_event_buffer s (c addr rkey : Z) : RpcServer :=
  with_remote s (mapping s) (<[Z.to_nat c := Some (addr, rkey)]> (extend (event_buffer_addrs s) (Z.to_nat c) None))
    (warmup_buffer_infos s).

(** [connect] up to the queue pair's own state changes. *)
Definition connect s (c : Z) (e : ClientEndpoint) : RpcServer * result unit Error :=
  match Mapping.set_remote_slot c (ce_slot_addr e) (ce_slot_rkey e) (mapping s) with
  | (m, Err x) => (with_remote s m (event_buffer_addrs s) (warmup_buffer_infos s), Err (MappingError x))
  | (m, Ok _) =>
      let s := with_remote s m (event_buffer_addrs s) (warmup_buffer_infos s) in
      let s := if ce_event_addr e =? 0 then s else register_event_buffer s c (ce_event_addr e) (ce_event_rkey e) in
      let s := if ce_warmup_addr e =? 0 then s
               else with_remote s (mapping s) (event_buffer_addrs s)
                      (<[Z.to_nat c := Some (mkWarmupInfo (ce_warmup_addr e) (ce_warmup_rkey e) (ce_warmup_slots e))]>
                         (extend (warmup_buffer_infos s) (Z.to_nat c) None)) in
      if default false (connected s !! Z.to_nat c) then (s, Ok tt) else (s, Err (ConnectionNotFound c))
  end.

(** What [local_endpoint] tells a client about slots: the address of slot 0 of the
    whole pool, the size of the pool, and the connection's number. *)
Definition local_endpoint s (c : Z) : option (result (Z * Z * Z) Error) :=
  if default false (connected s !! Z.to_nat c)
  then addr ← Pool.slot_data_addr (processing_pool s) 0;
       Some (Ok (addr, u32 (Pool.num_slots (processing_pool s)), u32 c))
  else Some (Err (ConnectionNotFound c)).

End Server.
