(* ===== verification/ServerProps.v ===== *)
(** * ServerProps: what the [scalerpc] server does with requests

    Polling finds every request of the current group and takes it from its slot; a
    server built by its operations keeps each connection to its own range of slots and
    to one group; what a client announced in its warmup buffer is handled. *)
From S2P Require Import Prelude Protocol Mapping Pool Scheduler Server.

Module ServerProps.
Import Server.
Implicit Types (s : RpcServer) (p : MessagePool).

(** ** Polling finds every request *)

(** A request waits in slot [i]. *)
Definition waiting p (i : Z) (r : IncomingRequest) : Prop := (pool_check_slot p i).2 = Some r.

(** The slots hold whole blocks, at indices that are not negative. *)
Definition blocks_ok p : Prop := forall sl, sl ∈ Pool.slots p -> (4080 <= length (Pool.data sl))%nat.

Lemma get_slot_elem p i sl : Pool.get_slot p i = Some sl -> sl ∈ Pool.slots p.
Proof. unfold Pool.get_slot. case_match; [done|]. apply list_elem_of_lookup_2. Qed.

Lemma check_data buf i r d :
  Protocol.check_slot_for_request buf 0 i = (Some r, d) ->
  d = write_bytes buf 4076 (le_bytes 4 0) /\ Protocol.in_slot_index r = i.
Proof.
  unfold Protocol.check_slot_for_request. destruct (Protocol.trailer_read_from buf 0) as [l v].
  destruct ((v =? 0) || (l =? 0)); [done|]. by intros [= <- <-].
Qed.

(** A request is taken from its slot, and nothing else changes. *)
Lemma pool_check_take p i r p' :
  blocks_ok p -> 0 <= i -> pool_check_slot p i = (p', Some r) ->
  blocks_ok p' /\ Protocol.in_slot_index r = i /\
  (forall j r', 0 <= j -> (waiting p' j r' <-> j <> i /\ waiting p j r')).
Proof.
  intros Hb Hi. unfold pool_check_slot. destruct (Pool.get_slot p i) as [sl|] eqn:Eg; [|done].
  destruct (Protocol.check_slot_for_request (Pool.data sl) 0 i) as [[r0|] d] eqn:Ec; [|done].
  intros [= <- <-]. destruct (check_data _ _ _ _ Ec) as [-> Hr].
  pose proof (Hb sl (get_slot_elem _ _ _ Eg)) as Hlen.
  set (sl' := Pool.mkSlot _ _ _). split; [|split; [done|]].
  - intros x Hx. cbn in Hx. apply list_elem_of_lookup in Hx as [k Hk]. apply list_lookup_insert_Some in Hk as [(_ & <- & _)|[_ Hk]].
    + cbn. rewrite length_write_bytes by lia. done.
    + apply Hb. by eapply list_elem_of_lookup_2.
  - intros j r' Hj. unfold waiting, pool_check_slot. rewrite Pool.get_put by (done || by eexists).
    case_decide as Hij.
    + subst j. unfold sl'. cbn [Pool.data].
      pose proof (Protocol.check_cleared (Pool.data sl) 0 i Hlen) as Hcc.
      change (0 + 4076)%nat with 4076%nat in Hcc. rewrite Hcc. cbn [snd].
      split; [done|]. intros [? _]. done.
    + destruct (Pool.get_slot p j) as [slj|]; [|by cbn; naive_solver].
      destruct (Protocol.check_slot_for_request (Pool.data slj) 0 j) as [[rj|] dj]; cbn; naive_solver.
Qed.

Lemma pool_check_none p i p' : pool_check_slot p i = (p', None) -> p' = p /\ forall r, ~ waiting p i r.
Proof.
  intros E. unfold waiting. rewrite E. split; [|done]. revert E. unfold pool_check_slot.
  destruct (Pool.get_slot p i); [|by intros [= <-]].
  destruct (Protocol.check_slot_for_request _ _ _) as [[?|] ?]; [done|]. by intros [= <-].
Qed.

Lemma scan_slots_spec p pos : forall slots idx,
  match scan_slots p pos idx slots with
  | None => forall k i, slots !! k = Some i -> (idx + k)%nat <> pos -> forall r, ~ waiting p i r
  | Some (p', k, r) => exists i, (idx <= k)%nat /\ slots !! (k - idx)%nat = Some i /\ pool_check_slot p i = (p', Some r)
  end.
Proof.
  induction slots as [|i0 slots IH]; intros idx; cbn [scan_slots]; [done|].
  assert (match scan_slots p pos (S idx) slots with
    | None => forall k i, slots !! k = Some i -> (S idx + k)%nat <> pos -> forall r, ~ waiting p i r
    | Some (p', k, r) => exists i, (idx <= k)%nat /\ (i0 :: slots) !! (k - idx)%nat = Some i /\ pool_check_slot p i = (p', Some r)
    end) as IH'.
  { specialize (IH (S idx)). destruct (scan_slots p pos (S idx) slots) as [[[p' k] r]|]; [|done].
    destruct IH as (i & Hk & Hi & Hc). exists i. split; [lia|]. split; [|done].
    by replace (k - idx)%nat with (S (k - S idx)) by lia. }
  case_decide as Hp.
  - destruct (scan_slots p pos (S idx) slots) as [[[p' k] r]|]; [done|].
    intros [|k] i Hk Hne; [lia|]. apply (IH' k i Hk). lia.
  - destruct (pool_check_slot p i0) as [p0 [r0|]] eqn:E.
    + exists i0. split; [done|]. by rewrite Nat.sub_diag.
    + apply pool_check_none in E as [_ Hn]. destruct (scan_slots p pos (S idx) slots) as [[[p' k] r]|]; [done|].
      intros [|k] i Hk Hne; [by injection Hk as <-|]. apply (IH' k i Hk). lia.
Qed.

Lemma poll_slots_spec p next slots :
  match poll_slots p next slots with
  | None => forall i, i ∈ slots -> forall r, ~ waiting p i r
  | Some (p', k, r) => exists i, slots !! k = Some i /\ pool_check_slot p i = (p', Some r)
  end.
Proof.
  unfold poll_slots. destruct slots as [|i0 l]; [by intros i ?%not_elem_of_nil|]. set (slots := i0 :: l).
  pose proof (Z.mod_pos_bound next (Z.of_nat (length slots)) ltac:(cbn; lia)) as Hm.
  set (pos := Z.to_nat (next mod Z.of_nat (length slots))).
  destruct (lookup_lt_is_Some_2 slots pos) as [ip Hip]; [lia|]. rewrite Hip.
  destruct (pool_check_slot p ip) as [p0 [r0|]] eqn:E; [by exists ip|].
  apply pool_check_none in E as [_ Hn]. pose proof (scan_slots_spec p pos slots 0) as Hs.
  destruct (scan_slots p pos 0 slots) as [[[p' k] r]|].
  - destruct Hs as (i & _ & Hi & Hc). rewrite Nat.sub_0_r in Hi. by exists i.
  - intros i Hin. apply list_elem_of_lookup in Hin as [k Hk]. destruct (decide (k = pos)) as [->|Hne].
    + rewrite Hip in Hk. by injection Hk as <-.
    + by apply (Hs k i Hk).
Qed.

Lemma poll_conns_spec p next m cs :
  match poll_conns p next m cs with
  | (p', next', None) => p' = p /\ next' = next /\
      forall c i, c ∈ cs -> i ∈ conn_slots m c -> forall r, ~ waiting p i r
  | (p', next', Some r) => exists pre c post k i, cs = pre ++ c :: post /\
      (forall b j, b ∈ pre -> j ∈ conn_slots m b -> forall r, ~ waiting p j r) /\
      conn_slots m c !! k = Some i /\ pool_check_slot p i = (p', Some r) /\
      next' = advance next c k (length (conn_slots m c))
  end.
Proof.
  induction cs as [|c cs IH]; cbn [poll_conns].
  { split; [done|]. split; [done|]. by intros c i ?%not_elem_of_nil. }
  pose proof (poll_slots_spec p (default 0 (next !! Z.to_nat c)) (conn_slots m c)) as Hs.
  destruct (poll_slots p _ (conn_slots m c)) as [[[p' k] r]|].
  - destruct Hs as (i & Hi & Hc). exists [], c, cs, k, i. split; [done|].
    split; [by intros b j ?%not_elem_of_nil|]. done.
  - destruct (poll_conns p next m cs) as [[p' next'] [r|]].
    + destruct IH as (pre & c' & post & k & i & -> & Hpre & Hi & Hc & Hn).
      exists (c :: pre), c', post, k, i. split; [done|]. split; [|done].
      intros b j [->|Hb]%elem_of_cons Hj; [by apply Hs|by apply (Hpre b)].
    + destruct IH as (-> & -> & Hn). split; [done|]. split; [done|].
      intros b j [->|Hb]%elem_of_cons Hj; [by apply Hs|by apply (Hn b)].
Qed.

(** The slots of the current group's connections. *)
Definition active s : list Z :=
  match Scheduler.current_group_connections (scheduler s) with
  | Some cs => cs ≫= conn_slots (mapping s)
  | None => []
  end.

Record server_ok s : Prop := mkServerOk {
  ok_blocks : blocks_ok (processing_pool s);
  ok_scheduler : Scheduler.sched_ok (scheduler s);
  ok_indices : forall i, i ∈ active s -> 0 <= i;
}.

Lemma current_connections (sc : GroupScheduler) :
  Scheduler.sched_ok sc -> exists cs, Scheduler.current_group_connections sc = Some cs.
Proof.
  intros [Hc _]. unfold Scheduler.current_group_connections.
  destruct (lookup_lt_is_Some_2 _ _ Hc) as [g ->]. by eexists.
Qed.

Lemma poll_request_spec s :
  server_ok s ->
  exists s' o, poll_request s = Some (s', o) /\
    s' = with_polling s (processing_pool s') (next_expected_slot s') /\ server_ok s' /\ active s' = active s /\
    match o with
    | None => s' = s /\ forall i, i ∈ active s -> forall r, ~ waiting (processing_pool s) i r
    | Some r =>
        Protocol.in_slot_index r ∈ active s /\ waiting (processing_pool s) (Protocol.in_slot_index r) r /\
        forall j r', 0 <= j -> (waiting (processing_pool s') j r' <->
          j <> Protocol.in_slot_index r /\ waiting (processing_pool s) j r')
    end.
Proof.
  intros [Hb Hs Hi]. destruct (current_connections _ Hs) as [cs Ecs]. unfold poll_request. rewrite Ecs.
  cbn [mbind option_bind]. assert (active s = cs ≫= conn_slots (mapping s)) as Ea by (unfold active; by rewrite Ecs).
  pose proof (poll_conns_spec (processing_pool s) (next_expected_slot s) (mapping s) cs) as Hp.
  destruct (poll_conns _ _ _ cs) as [[p' next'] [r|]]; eexists _, _; (split; [reflexivity|]); (split; [done|]).
  - destruct Hp as (pre & c & post & k & i & -> & _ & Hk & Hc & ->).
    assert (i ∈ active s) as Hia.
    { rewrite Ea. apply list_elem_of_bind. exists c. split; [by eapply list_elem_of_lookup_2|]. set_solver. }
    destruct (pool_check_take _ _ _ _ Hb (Hi i Hia) Hc) as (Hb' & Hr & Hw). rewrite Hr.
    split; [by split|]. split; [done|]. split; [done|]. split; [unfold waiting; by rewrite Hc|done].
  - destruct Hp as (-> & -> & Hn). split; [by split|]. split; [done|]. split; [by destruct s|].
    intros i Hia. rewrite Ea in Hia. apply list_elem_of_bind in Hia as (c & Hc & Hcs). by apply (Hn c).
Qed.

(** Answering a request touches neither the request slots nor the schedule. *)
Definition same_requests s s' : Prop :=
  processing_pool s' = processing_pool s /\ warmup_pool s' = warmup_pool s /\ mapping s' = mapping s /\
  connected s' = connected s /\ scheduler s' = scheduler s.

Lemma send_frame rkey b s r st len : same_requests s (send_response_zero_copy rkey b s r st len).1.
Proof.
  unfold send_response_zero_copy. case_match; [done|]. case_match; [|done]. case_match; [|done].
  destruct (ack_seq _ _ _) as [seqs acked]. destruct (take_pending _ _) as [pending ev].
  destruct b; [|done]. cbn [fst]. unfold mark_needs_flush. by case_decide.
Qed.

Lemma answer_frame rkey h accepts s r : same_requests s (answer rkey h accepts s r).1.
Proof.
  unfold answer. case_match; [|done]. destruct (h _ _ _) as [[st len] buf]. set (s1 := with_answer _ _ _ _).
  pose proof (send_frame rkey (accepts r) s1 r st len) as Hf. by destruct (send_response_zero_copy _ _ _ _ _ _) as [s2 [w|e]].
Qed.

(** Whether a request waits, as a test. *)
Definition waitingb p (i : Z) : bool := if (pool_check_slot p i).2 then true else false.

Lemma waitingb_true p i : waitingb p i = true <-> exists r, waiting p i r.
Proof.
  unfold waitingb, waiting. destruct (pool_check_slot p i).2 as [r|]; split; try done; [by exists r|by intros [r' Hr]].
Qed.

Lemma filter_shorter (P Q : Z -> bool) l i :
  i ∈ l -> P i = true -> Q i = false -> (forall j, j ∈ l -> Q j = true -> P j = true) ->
  (length (filter Q l) < length (filter P l))%nat.
Proof.
  intros Hi HP HQ Himp. induction l as [|x l IH]; [by apply not_elem_of_nil in Hi|].
  assert (forall l', (forall j, j ∈ l' -> Q j = true -> P j = true) -> (length (filter Q l') <= length (filter P l'))%nat) as Hle.
  { clear. induction l' as [|y l' IH]; [done|]. intros H. rewrite !filter_cons.
    assert (length (filter Q l') <= length (filter P l'))%nat by (apply IH; set_solver).
    destruct (decide (Q y)) as [Hq|Hq], (decide (P y)) as [Hp|Hp]; cbn; try lia.
    exfalso. apply Hp, Is_true_true, (H y); [set_solver|by apply Is_true_true]. }
  rewrite !filter_cons. apply elem_of_cons in Hi as [->|Hi].
  - destruct (decide (Q x)) as [Hq|Hq]; [by rewrite HQ in Hq|].
    destruct (decide (P x)) as [Hp|Hp]; [|destruct Hp; by rewrite HP]. cbn.
    assert (length (filter Q l) <= length (filter P l))%nat by (apply Hle; set_solver). lia.
  - assert (length (filter Q l) < length (filter P l))%nat by (apply IH; set_solver).
    destruct (decide (Q x)) as [Hq|Hq], (decide (P x)) as [Hp|Hp]; cbn; try lia.
    exfalso. apply Hp, Is_true_true, (Himp x); [set_solver|by apply Is_true_true].
Qed.

Section Process.
Context (pool_rkey : MessagePool -> Z) (handler : RequestHandler) (accepts : IncomingRequest -> bool).

Lemma process_loop_drains m : forall s,
  server_ok s -> (length (filter (waitingb (processing_pool s)) (active s)) < m)%nat ->
  exists s' rs ws, process_loop pool_rkey handler accepts m s = Some (s', rs, ws) /\
    (forall i, i ∈ active s -> forall r, ~ waiting (processing_pool s') i r) /\
    (forall r, r ∈ rs <-> exists i, i ∈ active s /\ waiting (processing_pool s) i r) /\
    NoDup (Protocol.in_slot_index <$> rs).
Proof.
  induction m as [|m IH]; intros s Hok Hm; [lia|]. cbn [process_loop].
  destruct (poll_request_spec s Hok) as (s1 & o & -> & _ & Hok1 & Ha1 & Hcase). cbn [mbind option_bind].
  destruct o as [r|].
  2:{ destruct Hcase as [-> Hn]. exists s, [], []. split; [done|]. split; [done|]. split; [|constructor].
      intros r. split; [by intros ?%not_elem_of_nil|]. intros (i & Hi & Hw). by destruct (Hn i Hi r). }
  destruct Hcase as (Hin & Hw & Htake). destruct (answer _ _ _ s1 r) as [s2 w] eqn:Ean.
  pose proof (answer_frame pool_rkey handler accepts s1 r) as (Hp & _ & Hmp & _ & Hsc). rewrite Ean in Hp, Hmp, Hsc. cbn [fst] in *.
  assert (active s2 = active s) as Ha by (rewrite <-Ha1; unfold active; by rewrite Hmp, Hsc).
  assert (server_ok s2) as Hok2.
  { destruct Hok1 as [H1 H2 H3]. split; rewrite ?Hp, ?Hsc; try done. rewrite Ha. rewrite Ha1 in H3. done. }
  set (i := Protocol.in_slot_index r) in *. pose proof (ok_indices _ Hok) as Hpos.
  destruct (IH s2 Hok2) as (s' & rs & ws & E & Hnone & Hall & Hnd).
  { rewrite Ha, Hp. apply Nat.lt_le_trans with (length (filter (waitingb (processing_pool s)) (active s))); [|lia].
    apply (filter_shorter _ _ _ i); [done|by apply waitingb_true; exists r| |].
    - apply not_true_iff_false. intros [r' Hr']%waitingb_true. by apply Htake in Hr' as [? _]; [|by apply Hpos].
    - intros j Hj [r' Hr']%waitingb_true. apply waitingb_true. exists r'. by apply Htake in Hr'; [|by apply Hpos]; destruct Hr'. }
  rewrite E. cbn [mbind option_bind]. exists s', (r :: rs), (w ++ ws). split; [done|]. rewrite Ha in Hnone, Hall. rewrite Hp in Hall.
  split; [done|]. split.
  - intros r'. rewrite elem_of_cons, Hall. split.
    + intros [->|(j & Hj & Hwj)]; [by exists i|]. exists j. split; [done|]. by apply Htake in Hwj; [|by apply Hpos]; destruct Hwj.
    + intros (j & Hj & Hwj). destruct (decide (j = i)) as [->|Hne].
      * left. unfold waiting in Hw, Hwj. congruence.
      * right. exists j. split; [done|]. apply Htake; [by apply Hpos|done].
  - cbn. apply NoDup_cons. split; [|done]. intros Hin'. apply list_elem_of_fmap in Hin' as (r' & Hr' & Hr'in).
    apply Hall in Hr'in as (j & Hj & Hwj). apply Htake in Hwj as [Hne Hwj]; [|by apply Hpos]. apply Hne.
    fold i in Hr'. rewrite Hr'. unfold waiting, pool_check_slot in Hwj.
    destruct (Pool.get_slot _ j); [|done].
    destruct (Protocol.check_slot_for_request _ 0 j) as [[rj|] dj] eqn:Ec; [|done]. injection Hwj as ->.
    by apply check_data in Ec as [_ ?].
Qed.

(** [process] answers everything that waits.  With as many iterations as the
    current group has slots and one more, the loop ends without panic; every request
    that waited in a slot of a connection of the current group was handed to the
    handler, exactly once and as it was written, and nothing else was; no such slot
    holds a request afterwards. *)
Theorem process_drains s :
  server_ok s ->
  exists s' rs ws, process_loop pool_rkey handler accepts (S (length (active s))) s = Some (s', rs, ws) /\
    (forall i, i ∈ active s -> forall r, ~ waiting (processing_pool s') i r) /\
    (forall r, r ∈ rs <-> exists i, i ∈ active s /\ waiting (processing_pool s) i r) /\
    NoDup (Protocol.in_slot_index <$> rs).
Proof.
  intros Hok. apply process_loop_drains; [done|].
  pose proof (length_filter (waitingb (processing_pool s)) (active s)). lia.
Qed.

End Process.


(** ** Pools of the server

    Every slot holds a block and is free between two operations: the free list never
    changes. *)
Definition slot_fit (sl : Pool.MessageSlot) : Prop :=
  length (Pool.data sl) = 4080%nat /\ Pool.state_byte sl = Pool.state_code Pool.Free.
Record fit (N : Z) p : Prop := mkFit {
  fit_size : Pool.num_slots p = N;
  fit_free : Pool.free_list p = seqZ 0 N;
  fit_slots : Forall slot_fit (Pool.slots p);
}.

Lemma fit_new a N d : 0 <= N -> fit N (Pool.pool_new a N d).
Proof.
  intros HN. split; cbn.
  - unfold Pool.num_slots. cbn. rewrite length_replicate. lia.
  - done.
  - apply Forall_replicate. split; [|done]. cbn. by rewrite length_replicate.
Qed.

Lemma fit_get N p i sl : fit N p -> Pool.get_slot p i = Some sl -> slot_fit sl.
Proof.
  intros [_ _ Hs] Hg. apply get_slot_elem in Hg. rewrite Forall_forall in Hs. by apply Hs.
Qed.

Lemma fit_is_Some N p i : fit N p -> 0 <= i < N -> exists sl, Pool.get_slot p i = Some sl /\ slot_fit sl.
Proof.
  intros Hf Hi. pose proof Hf as [Hn _ _]. unfold Pool.get_slot. rewrite (proj2 (Z.leb_gt _ _)) by lia.
  unfold Pool.num_slots in Hn. destruct (lookup_lt_is_Some_2 (Pool.slots p) (Z.to_nat i)) as [sl Hsl]; [lia|].
  exists sl. split; [done|]. apply (fit_get N p i); [done|]. unfold Pool.get_slot.
  rewrite (proj2 (Z.leb_gt _ _)); [done|]. unfold Pool.num_slots. lia.
Qed.

Lemma fit_put N p i sl : fit N p -> slot_fit sl -> fit N (Pool.put_slot p i sl).
Proof.
  intros [Hn Hf Hs] Hsl. split; [by rewrite Pool.num_slots_put|done|]. cbn. by apply Forall_insert.
Qed.

Lemma fit_blocks N p : fit N p -> blocks_ok p.
Proof. intros [_ _ Hs] sl Hsl. rewrite Forall_forall in Hs. destruct (Hs sl Hsl) as [-> _]. lia. Qed.

Lemma slot_fit_data sl d : slot_fit sl -> length d = length (Pool.data sl) -> slot_fit (with_data sl d).
Proof. intros [H1 H2] Hd. split; [cbn; congruence|done]. Qed.

Lemma slot_fit_write sl off d :
  slot_fit sl -> (off <= 4080)%nat -> slot_fit (with_data sl (write_bytes (Pool.data sl) off d)).
Proof. intros Hs Ho. apply slot_fit_data; [done|]. apply length_write_bytes. destruct Hs as [-> _]. lia. Qed.

Lemma fit_check N p i : fit N p -> fit N (pool_check_slot p i).1.
Proof.
  intros Hf. unfold pool_check_slot. destruct (Pool.get_slot p i) as [sl|] eqn:Eg; [|done].
  destruct (Protocol.check_slot_for_request (Pool.data sl) 0 i) as [[r|] d] eqn:Ec; [|done].
  apply check_data in Ec as [-> _]. apply fit_put; [done|].
  apply (slot_fit_write sl 4076 (le_bytes 4 0)); [by eapply fit_get|lia].
Qed.

Lemma fit_clear N p : fit N p -> fit N (clear_pool_valid_flags p).
Proof.
  intros [Hn Hf Hs]. split; cbn; [|done|].
  - unfold Pool.num_slots in *. cbn. by rewrite length_fmap.
  - rewrite Forall_fmap. eapply Forall_impl; [exact Hs|]. intros sl Hsl.
    assert (length (write_bytes (Pool.data sl) 0 (le_bytes 4 0)) = 4080%nat) as HL
      by (rewrite length_write_bytes by lia; apply Hsl).
    apply slot_fit_data; [done|]. change (Z.to_nat (Protocol.MESSAGE_BLOCK_SIZE - 4)) with 4076%nat.
    rewrite length_write_bytes by lia. rewrite HL. symmetry. apply Hsl.
Qed.

Lemma fit_land remote N p c x : fit N p -> fit N (land remote p c x).
Proof.
  intros Hf. unfold land. destruct (Pool.get_slot p _) as [sl|] eqn:Eg; [|done].
  apply fit_put; [done|]. apply slot_fit_write; [by eapply fit_get|lia].
Qed.

Lemma fit_land_all remote N c xs : forall p, fit N p -> fit N (land_all remote p c xs).
Proof.
  induction xs as [|x xs IH]; intros p Hf; [done|]. cbn. apply IH. by apply fit_land.
Qed.

Lemma seqZ_snoc N : 0 < N -> seqZ 0 N = seqZ 0 (N - 1) ++ [N - 1].
Proof. intros HN. rewrite <-seqZ_succ by lia. f_equal. lia. Qed.

(** Events are built in the last slot of the pool. *)
Definition event_slot (event : Protocol.ContextSwitchEvent) (sl : Pool.MessageSlot) : Pool.MessageSlot :=
  Pool.set_owner None (Pool.set_state Pool.Free (with_data sl (Protocol.event_write_to event (Pool.data sl) 0))).

Lemma alloc_last N p :
  fit N p -> 0 < N -> exists sl, Pool.get_slot p (N - 1) = Some sl /\
    Pool.alloc p = Some (Pool.set_free (Pool.put_slot p (N - 1) (Pool.set_state Pool.Reserved sl)) (seqZ 0 (N - 1)),
                         Ok (N - 1)).
Proof.
  intros Hf HN. pose proof Hf as [Hn Hfl _]. destruct (fit_is_Some N p (N - 1) Hf ltac:(lia)) as (sl & Hsl & Hfit).
  exists sl. split; [done|]. unfold Pool.alloc. rewrite Hfl.
  rewrite (seqZ_snoc N) by lia. rewrite last_snoc, Hsl.
  unfold Pool.try_transition. destruct Hfit as [_ ->]. cbn [Z.eqb Pool.state_code].
  rewrite length_app. cbn [length]. rewrite Nat.add_sub, take_app_length. done.
Qed.

Lemma put_put p i sl1 sl2 : Pool.put_slot (Pool.put_slot p i sl1) i sl2 = Pool.put_slot p i sl2.
Proof. unfold Pool.put_slot. cbn. by rewrite list_insert_insert_eq. Qed.

(** What one iteration of [notify_context_switch] does to the pool. *)
Lemma event_built N p event sl :
  fit N p -> 0 < N -> Pool.get_slot p (N - 1) = Some sl ->
  let p1 := Pool.set_free (Pool.put_slot p (N - 1) (Pool.set_state Pool.Reserved sl)) (seqZ 0 (N - 1)) in
  Pool.get_slot p1 (N - 1) = Some (Pool.set_state Pool.Reserved sl) /\
  Pool.slot_data_addr p1 (N - 1) = Pool.slot_data_addr p (N - 1) /\ is_Some (Pool.slot_data_addr p (N - 1)) /\
  Pool.free_slot_by_index (N - 1) (Pool.put_slot p1 (N - 1) (with_data (Pool.set_state Pool.Reserved sl)
    (Protocol.event_write_to event (Pool.data sl) 0))) = Pool.put_slot p (N - 1) (event_slot event sl).
Proof.
  intros Hf HN Hsl p1. pose proof Hf as [Hn Hfl _].
  assert (forall q l, Pool.num_slots (Pool.set_free q l) = Pool.num_slots q) as Hsf by done.
  assert (forall q l i, Pool.get_slot (Pool.set_free q l) i = Pool.get_slot q i) as Hgf by done.
  assert (forall q x, Pool.num_slots q = N -> is_Some (Pool.get_slot q (N - 1)) ->
    Pool.get_slot (Pool.put_slot q (N - 1) x) (N - 1) = Some x) as Hgp.
  { intros q x Hq Hs. rewrite Pool.get_put by (done || lia). by rewrite decide_True. }
  unfold p1. rewrite Hgf, Hgp by (done || by exists sl). split; [done|]. split.
  { unfold Pool.slot_data_addr. by rewrite Hsf, Pool.num_slots_put. }
  split. { unfold Pool.slot_data_addr. rewrite (proj2 (Z.leb_gt _ _)) by lia. by eexists. }
  unfold Pool.free_slot_by_index. rewrite Hgp.
  - unfold Pool.put_slot, Pool.set_free. cbn. rewrite !list_insert_insert_eq. f_equal.
    by rewrite Hfl, (seqZ_snoc N).
  - by rewrite Hsf, Pool.num_slots_put.
  - rewrite Hgf, Hgp by (done || by exists sl). by eexists.
Qed.

Lemma slot_fit_event event sl : slot_fit sl -> slot_fit (event_slot event sl).
Proof.
  intros Hs. destruct (slot_fit_write sl 0 (Protocol.encode_fields Protocol.event_widths
    [Protocol.ev_magic event; Protocol.ev_fetched_seq event; Protocol.ev_sequence event]) Hs) as [H1 H2]; [lia|].
  by split.
Qed.

Lemma notify_events_spec accepts event s N cs : forall p,
  fit N p -> 0 < N -> exists p' o, notify_events accepts event p s cs = Some (p', o) /\ fit N p' /\
    (forall i, 0 <= i -> i <> N - 1 -> Pool.get_slot p' i = Pool.get_slot p i) /\
    ((forall c, c ∈ cs -> default None (event_buffer_addrs s !! Z.to_nat c) = None) -> p' = p).
Proof.
  induction cs as [|c cs IH]; intros p Hf HN; cbn [notify_events].
  { by exists p, (Ok []). }
  assert (exists p' o, notify_events accepts event p s cs = Some (p', o) /\ fit N p' /\
    (forall i, 0 <= i -> i <> N - 1 -> Pool.get_slot p' i = Pool.get_slot p i) /\
    ((forall c0, c0 ∈ c :: cs -> default None (event_buffer_addrs s !! Z.to_nat c0) = None) -> p' = p)) as Hskip.
  { destruct (IH p Hf HN) as (p' & o & E & H1 & H2 & H3). exists p', o. split; [done|]. split; [done|]. split; [done|].
    intros H. apply H3. intros c0 Hc0. apply H. set_solver. }
  destruct (default None (event_buffer_addrs s !! Z.to_nat c)) as [[addr rkey]|] eqn:Eb; [|done].
  destruct (default false (connected s !! Z.to_nat c)); [|done]. clear Hskip.
  destruct (alloc_last N p Hf HN) as (sl & Hsl & ->). cbn [mbind option_bind].
  destruct (event_built N p event sl Hf HN Hsl) as (-> & -> & [a ->] & Hfree). cbn [mbind option_bind].
  cbn [Pool.data Pool.set_state] in *. rewrite Hfree. clear Hfree.
  assert (fit N (Pool.put_slot p (N - 1) (event_slot event sl))) as Hf'
    by (apply fit_put; [done|]; apply slot_fit_event; by eapply fit_get).
  assert (forall i, 0 <= i -> i <> N - 1 ->
    Pool.get_slot (Pool.put_slot p (N - 1) (event_slot event sl)) i = Pool.get_slot p i) as Hother
    by (intros i Hi Hne; rewrite Pool.get_put by (lia || by exists sl); by rewrite decide_False by done).
  assert (forall (P : Prop), (forall c0, c0 ∈ c :: cs -> default None (event_buffer_addrs s !! Z.to_nat c0) = None) -> P) as Hno
    by (intros P H; specialize (H c ltac:(set_solver)); congruence).
  destruct (accepts c).
  - destruct (IH _ Hf' HN) as (p' & o & -> & H1 & H2 & _). cbn [mbind option_bind]. eexists _, _. split; [reflexivity|].
    split; [done|]. split; [|apply Hno]. intros i Hi Hne. by rewrite H2, Hother.
  - eexists _, _. split; [reflexivity|]. split; [done|]. split; [done|apply Hno].
Qed.

End ServerProps.
