(* ===== verification/ServerInv.v ===== *)
(** * ServerInv: what every [scalerpc] server keeps, and what a switch does

    Each connection owns the range of slots that follows from its number and belongs
    to one group, whatever the server did; and the requests a client announced reach
    the handler. *)
From S2P Require Import Prelude Protocol Mapping Pool Scheduler Server ServerProps.

Module ServerInv.
Import Server ServerProps.
Implicit Types (s : RpcServer) (p : MessagePool).

Section Invariant.
(** Slots of each pool, limit of connections, and groups. *)
Context (N max : Z) (G : nat).
Context (HN : 0 < N) (Hmax : 0 < max).

Definition slots_per_conn : Z := N / max.
Definition nconn s : Z := Z.of_nat (length (connected s)).
Definition group_members (n : Z) (g : nat) : list Z := filter (fun c => c mod Z.of_nat G = Z.of_nat g) (seqZ 0 n).

Definition pools_fit s : Prop := fit N (processing_pool s) /\ fit N (warmup_pool s) /\ fit N (response_pool s).

(** The endpoint entries: their memory and their sequence numbers have the size of
    the table. *)
Definition entries_ok (e : EndpointEntryPool) : Prop :=
  num_entries e = max /\ length (last_seqs e) = Z.to_nat max /\ length (ep_buffer e) = Z.to_nat (max * ENTRY_SIZE).

Record server_inv s : Prop := mkInv {
  iv_pools : pools_fit s;
  iv_entries : entries_ok (endpoint_entries s);
  iv_count : nconn s <= max;
  iv_connected : Forall (eq true) (connected s);
  iv_slots : forall c, 0 <= c ->
    conn_slots (mapping s) c = if decide (c < nconn s) then seqZ (c * slots_per_conn) slots_per_conn else [];
  iv_owner : forall i, nconn s * slots_per_conn <= i -> Mapping.get_slot_owner i (mapping s) = None;
  iv_sched : Scheduler.sched_ok (scheduler s);
  iv_groups : Scheduler.num_groups (scheduler s) = G /\
    forall g, (g < G)%nat -> Scheduler.members (scheduler s) !! g = Some (group_members (nconn s) g);
}.

(** What every operation but [add_connection] leaves as it is. *)
Definition same_groups (sc sc' : GroupScheduler) : Prop :=
  Scheduler.members sc' = Scheduler.members sc /\ (Scheduler.sched_ok sc -> Scheduler.sched_ok sc').
Record keeps s s' : Prop := mkKeeps {
  k_fit : pools_fit s -> pools_fit s';
  k_entries : entries_ok (endpoint_entries s) -> entries_ok (endpoint_entries s');
  k_slots : forall c, 0 <= c -> conn_slots (mapping s') c = conn_slots (mapping s) c;
  k_owner : Mapping.slot_to_conn (mapping s') = Mapping.slot_to_conn (mapping s);
  k_connected : connected s' = connected s;
  k_sched : same_groups (scheduler s) (scheduler s');
}.

#[export] Instance keeps_preorder : PreOrder keeps.
Proof.
  split.
  - intros s. by split.
  - intros s1 s2 s3 [F1 E1 S1 O1 C1 [M1 G1]] [F2 E2 S2 O2 C2 [M2 G2]].
    split; [auto|auto|intros c Hc; by rewrite S2, S1|congruence|congruence|]. split; [congruence|auto].
Qed.

Lemma keeps_inv s s' : keeps s s' -> server_inv s -> server_inv s'.
Proof.
  intros [KF KE KS KO KC [KM KG]] [IF IE IC Ic IS IO Is [In Ig]]. unfold nconn in *.
  split; unfold nconn; rewrite ?KC; try done; auto.
  - intros c Hc. rewrite KS by done. by apply IS.
  - intros i Hi. unfold Mapping.get_slot_owner. rewrite KO. by apply IO.
  - split; [by rewrite <-Scheduler.length_members, KM, Scheduler.length_members|]. intros g Hg. rewrite KM. by apply Ig.
Qed.

(** Only the pools and the fields that are not about slots and groups change. *)
Lemma keeps_pools s s' :
  (pools_fit s -> pools_fit s') -> mapping s' = mapping s -> connected s' = connected s -> scheduler s' = scheduler s ->
  endpoint_entries s' = endpoint_entries s -> keeps s s'.
Proof. intros Hf Hm Hc Hs He. split; rewrite ?Hm, ?Hc, ?Hs, ?He; done. Qed.

Lemma keeps_switch b now s sc q :
  Scheduler.sched_ok (scheduler s) -> Scheduler.switch b now (scheduler s) = Some (sc, q) -> keeps s (with_scheduler s sc).
Proof.
  intros Hok E. destruct (Scheduler.switch_total b now _ Hok) as (sc' & q' & E' & H1 & H2 & _).
  rewrite E in E'. injection E' as <- <-. by split.
Qed.

(** ** Requests and answers *)

Lemma fit_poll p next m cs : fit N p -> fit N (poll_conns p next m cs).1.1.
Proof.
  intros Hf. pose proof (poll_conns_spec p next m cs) as H. destruct (poll_conns p next m cs) as [[p' next'] [r|]]; cbn.
  - destruct H as (_ & _ & _ & _ & i & _ & _ & _ & Hc & _). pose proof (fit_check N p i Hf) as Hf'. by rewrite Hc in Hf'.
  - by destruct H as (-> & _).
Qed.

Lemma poll_request_keeps s s' o : poll_request s = Some (s', o) -> keeps s s'.
Proof.
  unfold poll_request. destruct (Scheduler.current_group_connections (scheduler s)) as [cs|]; [|done]. cbn [mbind option_bind].
  pose proof (fit_poll (processing_pool s) (next_expected_slot s) (mapping s) cs) as Hf.
  destruct (poll_conns _ _ _ _) as [[p next] r]. intros [= <- <-]. apply keeps_pools; [|done..].
  intros (H1 & H2 & H3). cbn. split; [by apply Hf|done].
Qed.

(** A response is written to a slot of the response pool. *)
Lemma keeps_answer s i sl pending seqs :
  (pools_fit s -> slot_fit sl) -> keeps s (with_answer s (Pool.put_slot (response_pool s) i sl) pending seqs).
Proof.
  intros Hsl. apply keeps_pools; [|done..]. intros Hf. specialize (Hsl Hf). destruct Hf as (H1 & H2 & H3).
  split; [done|]. split; [done|]. by apply fit_put.
Qed.

Lemma keeps_flush s l : keeps s (with_flush s l).
Proof. by apply keeps_pools. Qed.

Lemma mark_keeps s c : keeps s (mark_needs_flush s c).
Proof. unfold mark_needs_flush. case_decide; [done|]. apply keeps_flush. Qed.

Lemma response_slot_fit s i sl : Pool.get_slot (response_pool s) i = Some sl -> pools_fit s -> slot_fit sl.
Proof. intros Hg (_ & _ & Hf). by eapply fit_get. Qed.

Lemma send_zero_copy_keeps rkey b s r st len : keeps s (send_response_zero_copy rkey b s r st len).1.
Proof.
  unfold send_response_zero_copy. case_match; [done|]. destruct (Pool.get_slot _ _) as [sl|] eqn:Eg; [|done].
  case_match; [|done]. destruct (ack_seq _ _ _) as [seqs acked]. destruct (take_pending _ _) as [pending ev].
  assert (forall h, keeps s (with_answer s (Pool.put_slot (response_pool s) (Protocol.in_slot_index r)
    (with_data sl (Protocol.response_write_to h (Pool.data sl) 0))) pending seqs)) as Hk.
  { intros h. apply keeps_answer. intros Hf. apply slot_fit_write; [by eapply response_slot_fit|lia]. }
  destruct b; cbn [fst]; [|apply Hk]. etrans; [apply Hk|apply mark_keeps].
Qed.

Lemma send_response_keeps rkey b s r st payload s' o : send_response rkey b s r st payload = Some (s', o) -> keeps s s'.
Proof.
  unfold send_response. case_match; [by intros [= <- <-]|]. destruct (Pool.get_slot _ _) as [sl|] eqn:Eg; [|by intros [= <- <-]].
  case_match; [|by intros [= <- <-]]. destruct (ack_seq _ _ _) as [seqs acked]. destruct (take_pending _ _) as [pending ev].
  case_match; [done|]. set (d := write_bytes _ _ payload).
  assert (keeps s (with_answer s (Pool.put_slot (response_pool s) (Protocol.in_slot_index r) (with_data sl d)) pending seqs)) as Hk.
  { apply keeps_answer. intros Hf. pose proof (response_slot_fit s _ _ Eg Hf) as Hsl. apply slot_fit_data; [done|].
    subst d. destruct Hsl as [HL _]. unfold Protocol.response_write_to.
    change (Z.to_nat RESPONSE_HEADER_SIZE) with 56%nat.
    rewrite length_write_bytes; rewrite length_write_bytes; lia. }
  destruct b; intros [= <- <-]; [|exact Hk]. etrans; [apply Hk|apply mark_keeps].
Qed.

Lemma answer_keeps rkey h accepts s r : keeps s (answer rkey h accepts s r).1.
Proof.
  unfold answer. destruct (Pool.get_slot _ _) as [sl|] eqn:Eg; [|done]. destruct (h _ _ _) as [[st len] buf].
  set (s1 := with_answer _ _ _ _). pose proof (send_zero_copy_keeps rkey (accepts r) s1 r st len) as Hs.
  assert (keeps s s1) as H1.
  { apply keeps_answer. intros Hf. apply slot_fit_write; [by eapply response_slot_fit|]. vm_compute. lia. }
  destruct (send_response_zero_copy _ _ _ _ _ _) as [s2 [w|e]]; cbn [fst] in *; by etrans.
Qed.

Lemma process_loop_keeps rkey h accepts m : forall s s' rs ws,
  process_loop rkey h accepts m s = Some (s', rs, ws) -> keeps s s'.
Proof.
  induction m as [|m IH]; intros s s' rs ws; [done|]. cbn [process_loop].
  destruct (poll_request s) as [[s1 o]|] eqn:E; [|done]. cbn [mbind option_bind]. apply poll_request_keeps in E.
  destruct o as [r|]; [|by intros [= <- <- <-]].
  pose proof (answer_keeps rkey h accepts s1 r) as Ha. destruct (answer _ _ _ s1 r) as [s2 w].
  destruct (process_loop rkey h accepts m s2) as [[[s3 rs3] ws3]|] eqn:El; [|done]. intros [= <- <- <-].
  etrans; [exact E|]. etrans; [exact Ha|]. by eapply IH.
Qed.

Lemma process_keeps rkey h accepts m now s s' rs ws :
  process rkey h accepts m now s = Some (s', rs, ws) -> Scheduler.sched_ok (scheduler s) -> keeps s s'.
Proof.
  unfold process. intros E Hok. destruct (process_loop _ _ _ _ _) as [[[s1 rs1] ws1]|] eqn:El; [|done]. cbn [mbind option_bind] in E.
  apply process_loop_keeps in El. pose proof (keeps_flush s1 []) as Hfl.
  destruct (Scheduler.should_switch _ _); [|injection E as <- <- <-; by etrans].
  destruct (Scheduler.do_context_switch now _) as [[sc q]|] eqn:Es; [|done]. injection E as <- <- <-.
  etrans; [exact El|]. etrans; [exact Hfl|]. eapply (keeps_switch false); [|exact Es]. by apply El.
Qed.

Lemma process_drained_keeps rkey h accepts rs : forall s, keeps s (process_drained_requests rkey h accepts s rs).1.
Proof.
  induction rs as [|r rs IH]; intros s; [done|]. cbn. pose proof (answer_keeps rkey h accepts s r) as Ha.
  destruct (answer _ _ _ s r) as [s1 w]. specialize (IH s1). destruct (process_drained_requests _ _ _ s1 rs). by etrans.
Qed.

Lemma fit_drain n : forall p i, fit N p -> fit N (drain_slots p n i).1.
Proof.
  induction n as [|n IH]; intros p i Hf; [done|]. cbn. pose proof (fit_check N p i Hf) as Hc.
  destruct (pool_check_slot p i) as [p1 o]. specialize (IH p1 (i + 1) Hc). by destruct (drain_slots p1 n (i + 1)).
Qed.

Lemma fit_check_warmup p i : fit N p -> fit N (check_warmup_slot p i).1.
Proof.
  intros Hf. unfold check_warmup_slot. destruct (Pool.get_slot p i) as [sl|] eqn:Eg; [|done].
  destruct (Protocol.trailer_read_from _ 0) as [len valid]. case_match; [done|]. cbn [fst]. apply fit_put; [done|].
  pose proof (fit_get _ _ _ _ Hf Eg) as Hsl. apply slot_fit_data; [done|].
  change (Z.to_nat (Protocol.MESSAGE_BLOCK_SIZE - 4)) with 4076%nat. destruct Hsl as [HL _].
  destruct (_ || _); rewrite !length_write_bytes; rewrite ?length_write_bytes; lia.
Qed.

Lemma fit_drain_warmup n : forall p i, fit N p -> fit N (drain_warmup_slots p n i).1.
Proof.
  induction n as [|n IH]; intros p i Hf; [done|]. cbn. pose proof (fit_check_warmup p i Hf) as Hc.
  destruct (check_warmup_slot p i) as [p1 o]. specialize (IH p1 (i + 1) Hc). by destruct (drain_warmup_slots p1 n (i + 1)).
Qed.

Lemma drain_keeps s : keeps s (drain_processing_pool s).1.
Proof.
  unfold drain_processing_pool. pose proof (fit_drain (length (Pool.slots (processing_pool s))) (processing_pool s) 0) as Hf.
  destruct (drain_slots _ _ _) as [p rs]. apply keeps_pools; [|done..]. intros (H1 & H2 & H3). split; [by apply Hf|done].
Qed.

Lemma drain_warmup_keeps s : keeps s (drain_warmup_pool s).1.
Proof.
  unfold drain_warmup_pool. pose proof (fit_drain_warmup (length (Pool.slots (warmup_pool s))) (warmup_pool s) 0) as Hf.
  destruct (drain_warmup_slots _ _ _) as [p rs]. apply keeps_pools; [|done..]. intros (H1 & H2 & H3).
  split; [done|]. split; [by apply Hf|done].
Qed.

(** ** Switches, events and warmup *)

Lemma keeps_with_pools s p p' :
  (pools_fit s -> fit N p /\ fit N p') -> keeps s (with_pools s p p').
Proof. intros H. apply keeps_pools; [|done..]. intros Hf. destruct (H Hf). by destruct Hf as (_ & _ & ?). Qed.

Lemma swap_clear_keeps s : keeps s (with_pools s (warmup_pool s) (clear_pool_valid_flags (processing_pool s))).
Proof. apply keeps_with_pools. intros (H1 & H2 & _). split; [done|by apply fit_clear]. Qed.

Lemma perform_keeps now s s' o :
  Scheduler.sched_ok (scheduler s) -> perform_context_switch now s = Some (s', o) -> keeps s s'.
Proof.
  intros Hok. unfold perform_context_switch. case_match; [|by intros [= <- <-]].
  destruct (Scheduler.current_group_connections _); [|done]. cbn [mbind option_bind].
  destruct (Scheduler.context_switch now _) as [[sc q]|] eqn:E; [|done]. intros [= <- <-].
  etrans; [apply swap_clear_keeps|]. by eapply (keeps_switch true).
Qed.

Lemma check_and_switch_keeps now s s' o :
  Scheduler.sched_ok (scheduler s) -> check_and_switch now s = Some (s', o) -> keeps s s'.
Proof.
  intros Hok. unfold check_and_switch. case_match; [|by intros [= <- <-]].
  destruct (Scheduler.context_switch now _) as [[sc q]|] eqn:E; [|done]. intros [= <- <-].
  etrans; [|by eapply (keeps_switch true)]. apply keeps_with_pools. by intros (H1 & H2 & _).
Qed.

Lemma notify_keeps accepts s cs q f s' o :
  pools_fit s -> notify_context_switch accepts s cs q f = Some (s', o) -> keeps s s'.
Proof.
  intros Hf. unfold notify_context_switch. set (s1 := with_pending _ _).
  destruct (notify_events_spec accepts (Protocol.event_new q f) s1 N cs (processing_pool s1) (proj1 Hf) HN)
    as (p & o' & -> & Hp & _). intros [= <- <-]. apply keeps_pools; [|done..]. intros (H1 & H2 & H3). done.
Qed.

Lemma fetch_batch_keeps remote outcome s c info n : keeps s (fetch_warmup_batch remote outcome s c info n).1.
Proof.
  unfold fetch_warmup_batch. case_match; [done|]. destruct (issue_reads _ _ _ _ _) as [xs|e]; [|done].
  destruct (outcome c) as [|l]; cbn [fst]; apply keeps_with_pools; intros (H1 & H2 & H3);
    (split; [done|by apply fit_land_all]).
Qed.

Lemma keeps_entries s e : (entries_ok (endpoint_entries s) -> entries_ok e) -> keeps s (with_entries s e).
Proof. intros He. by split. Qed.

Lemma new_batch_entries e c e' o : has_new_batch e c = Some (e', o) -> entries_ok e -> entries_ok e'.
Proof.
  unfold has_new_batch. intros E (H1 & H2 & H3). case_match; [by injection E as <- <-|].
  destruct (last_seqs e !! _) as [l|]; [|done]. cbn [mbind option_bind] in E. case_match; injection E as <- <-; [|done].
  split; [done|]. split; [|done]. cbn. by rewrite length_insert.
Qed.

Lemma clear_entry_ok e c : 0 <= c -> entries_ok e -> entries_ok (clear_entry e c).
Proof.
  intros Hc (H1 & H2 & H3). unfold clear_entry. destruct (Z.leb_spec (num_entries e) c) as [|Hlt]; [done|].
  split; [done|]. split; [done|]. cbn. rewrite length_write_bytes; [done|]. unfold entry_off, ENTRY_SIZE in *. lia.
Qed.

Lemma fetch_conns_keeps remote outcome cs : forall s f l s' o,
  Forall (Z.le 0) cs -> fetch_conns remote outcome s cs f l = Some (s', o) -> keeps s s'.
Proof.
  induction cs as [|c cs IH]; intros s f l s' o Hcs; cbn [fetch_conns]; [by intros [= <- <-]|].
  apply Forall_cons in Hcs as [Hc Hcs].
  destruct (has_new_batch _ c) as [[e oe]|] eqn:Eb; [|done]. cbn [mbind option_bind].
  pose proof (new_batch_entries _ _ _ _ Eb) as Hnb.
  assert (fetch_conns remote outcome (with_entries s e) cs f l = Some (s', o) -> keeps s s') as Hskip
    by (intros E; etrans; [by apply keeps_entries|by eapply IH]).
  destruct oe as [entry|]; [|done]. destruct (default None _) as [info|]; [|done]. destruct (default false _); [|done].
  pose proof (fetch_batch_keeps remote outcome (with_entries s e) c info (Z.min (Protocol.batch_size entry) (wb_slots info))) as Hb.
  destruct (fetch_warmup_batch _ _ _ _ _ _) as [s1 [n|err]]; cbn [fst] in Hb; intros E.
  - etrans; [by apply keeps_entries|]. etrans; [exact Hb|].
    etrans; [apply keeps_entries; by apply clear_entry_ok|]. by eapply IH.
  - injection E as <- <-. etrans; [by apply keeps_entries|exact Hb].
Qed.

(** Connections have numbers that are not negative. *)
Definition numbers_ok (sc : GroupScheduler) : Prop := Forall (Forall (Z.le 0)) (Scheduler.members sc).

Lemma keeps_numbers s s' : keeps s s' -> numbers_ok (scheduler s) -> numbers_ok (scheduler s').
Proof. intros Hk Hn. unfold numbers_ok. by rewrite (proj1 (k_sched _ _ Hk)). Qed.

Lemma numbers_lookup sc g cs : numbers_ok sc -> Scheduler.members sc !! g = Some cs -> Forall (Z.le 0) cs.
Proof. intros Hn Hg. eapply Forall_lookup_1; [exact Hn|exact Hg]. Qed.

Lemma fetch_keeps remote outcome s s' o :
  numbers_ok (scheduler s) -> fetch_warmup_requests remote outcome s = Some (s', o) -> keeps s s'.
Proof.
  intros Hn. unfold fetch_warmup_requests, Scheduler.next_group_connections.
  destruct (Scheduler.groups _ !! _) as [x|] eqn:E; [|done]. cbn. apply fetch_conns_keeps.
  eapply numbers_lookup; [exact Hn|]. unfold Scheduler.members. by rewrite list_lookup_fmap, E.
Qed.

Lemma poll_switch_keeps remote outcome accepts now s s' :
  pools_fit s -> Scheduler.sched_ok (scheduler s) -> numbers_ok (scheduler s) -> poll_switch remote outcome accepts now s = Some s' -> keeps s s'.
Proof.
  intros Hf Hok Hnum. unfold poll_switch. destruct (fetch_warmup_requests _ _ s) as [[s1 o]|] eqn:E; [|done]. cbn [mbind option_bind].
  apply fetch_keeps in E; [|done]. destruct (match o with Ok x => x | Err _ => (0, 0) end) as [f q].
  pose proof (k_fit _ _ E Hf) as Hf1. pose proof (proj2 (k_sched _ _ E) Hok) as Hok1. case_match.
  - destruct (Scheduler.do_context_switch now _) as [[sc n]|] eqn:Es; [|done]. cbn [mbind option_bind].
    destruct (Scheduler.current_group_connections sc) as [cs|]; [|done]. cbn [mbind option_bind].
    set (s2 := with_polling _ _ _). assert (keeps s1 s2) as H2.
    { etrans; [by eapply (keeps_switch false)|]. etrans; [apply swap_clear_keeps|]. by apply keeps_pools. }
    destruct (notify_context_switch _ s2 _ _ _) as [[s3 o3]|] eqn:En; [|done]. intros [= <-].
    etrans; [exact E|]. etrans; [exact H2|]. eapply notify_keeps; [|exact En]. by apply H2.
  - destruct (perform_context_switch now s1) as [[s2 o2]|] eqn:Ep; [|done]. cbn [mbind option_bind].
    apply perform_keeps in Ep; [|done]. destruct o2 as [[n cs]|]; [|intros [= <-]; by etrans].
    destruct (notify_context_switch _ s2 _ _ _) as [[s3 o3]|] eqn:En; [|done]. intros [= <-].
    etrans; [exact E|]. etrans; [exact Ep|]. eapply notify_keeps; [|exact En]. by apply Ep.
Qed.

Lemma poll_keeps remote outcome rkey h accepts ae m now s s' rs ws :
  pools_fit s -> Scheduler.sched_ok (scheduler s) -> numbers_ok (scheduler s) ->
  poll remote outcome rkey h accepts ae m now s = Some (s', rs, ws) -> keeps s s'.
Proof.
  intros Hf Hok Hnum. unfold poll. destruct (poll_switch _ _ _ _ _) as [s1|] eqn:E; [|done]. cbn [mbind option_bind].
  apply poll_switch_keeps in E; [|done..]. destruct (process_loop _ _ _ _ s1) as [[[s2 rs2] ws2]|] eqn:El; [|done].
  apply process_loop_keeps in El. intros [= <- <- <-]. etrans; [apply (keeps_flush _ [])|]. etrans; [exact E|].
  etrans; [exact El|]. apply keeps_flush.
Qed.

Lemma iteration_keeps remote outcome rkey h accepts ae m now now' s s' rs ws :
  pools_fit s -> Scheduler.sched_ok (scheduler s) -> numbers_ok (scheduler s) ->
  run_scheduler_iteration remote outcome rkey h accepts ae m now now' s = Some (s', rs, ws) -> keeps s s'.
Proof.
  intros Hf Hok Hnum. unfold run_scheduler_iteration. destruct (perform_context_switch now s) as [[s1 o]|] eqn:E; [|done].
  cbn [mbind option_bind]. apply perform_keeps in E; [|done].
  set (m2 := match o with Some _ => _ | None => _ end). destruct m2 as [s2|] eqn:E2; subst m2; [|done]. cbn [mbind option_bind].
  assert (keeps s1 s2) as H12.
  { destruct o as [[n cs]|]; [|by injection E2 as <-].
    destruct (notify_context_switch _ s1 _ _ _) as [[s3 o3]|] eqn:En; [|done]. injection E2 as <-.
    eapply notify_keeps; [|exact En]. by apply E. }
  destruct (process _ _ _ _ now' s2) as [[[s3 rs3] ws3]|] eqn:Ep; [|done]. cbn [mbind option_bind].
  apply process_keeps in Ep; [|apply H12; by apply E].
  destruct (fetch_warmup_requests _ _ s3) as [[s4 o4]|] eqn:Ef; [|done]. intros [= <- <- <-].
  apply fetch_keeps in Ef; [|by apply (keeps_numbers s2), (keeps_numbers s1), (keeps_numbers s)].
  etrans; [exact E|]. etrans; [exact H12|]. by etrans.
Qed.

(** ** Connections *)

Lemma set_remote_slots c addr rkey m m' o :
  0 <= c -> Mapping.set_remote_slot c addr rkey m = (m', o) ->
  (forall c', 0 <= c' -> conn_slots m' c' = conn_slots m c') /\ Mapping.slot_to_conn m' = Mapping.slot_to_conn m.
Proof.
  intros Hc. unfold Mapping.set_remote_slot. destruct (Mapping.at_index (Mapping.entries m) c) as [e|] eqn:E;
    intros [= <- <-]; [|done]. split; [|done]. intros c' Hc'. unfold conn_slots, Mapping.get_connection. cbn.
  rewrite Mapping.at_index_insert by (done || by eapply Mapping.at_index_lt). case_decide; [subst; by rewrite E|done].
Qed.

Lemma connect_keeps s c e : 0 <= c -> keeps s (connect s c e).1.
Proof.
  intros Hc. unfold connect. destruct (Mapping.set_remote_slot c _ _ (mapping s)) as [m o] eqn:E.
  destruct (set_remote_slots _ _ _ _ _ _ Hc E) as [H1 H2].
  destruct o; [|by split]. destruct (ce_event_addr e =? 0), (ce_warmup_addr e =? 0), (default false _); by split.
Qed.

Lemma bind_range_ok c n : forall m start e,
  0 <= c -> 0 <= start -> Mapping.get_connection c m = Some e ->
  (forall i, start <= i < start + Z.of_nat n -> Mapping.get_slot_owner i m = None) ->
  exists m', bind_range m c start n = (m', Ok tt) /\
    (forall c', 0 <= c' -> conn_slots m' c' =
       if decide (c' = c) then Mapping.slots e ++ seqZ start (Z.of_nat n) else conn_slots m c') /\
    (forall i, 0 <= i -> ~ (start <= i < start + Z.of_nat n) -> Mapping.get_slot_owner i m' = Mapping.get_slot_owner i m).
Proof.
  induction n as [|n IH]; intros m start e Hc Hs He Ho; cbn [bind_range].
  { exists m. split; [done|]. split; [|done]. intros c' Hc'. case_decide; [|done]. subst.
    unfold conn_slots. rewrite He. cbn. by rewrite app_nil_r. }
  unfold Mapping.bind_slot. rewrite Mapping.at_index_grow.
  assert (Mapping.at_index (Mapping.slot_to_conn m) start = None) as -> by (apply Ho; lia).
  unfold Mapping.get_connection in He. rewrite He. set (m1 := Mapping.mkMapping _ _ _ _).
  assert (forall c', 0 <= c' -> Mapping.get_connection c' m1 =
    if decide (c = c') then Some (Mapping.add_slot e start) else Mapping.get_connection c' m) as Hg.
  { intros c' Hc'. unfold m1, Mapping.get_connection. cbn. apply Mapping.at_index_insert; [|done..]. by eapply Mapping.at_index_lt. }
  assert (forall i, 0 <= i -> Mapping.get_slot_owner i m1 =
    if decide (start = i) then Some c else Mapping.get_slot_owner i m) as Hown.
  { intros i Hi. unfold m1, Mapping.get_slot_owner. cbn. by rewrite Mapping.at_index_grow_insert by done. }
  destruct (IH m1 (start + 1) (Mapping.add_slot e start)) as (m' & E & H1 & H2); [done|lia| |intros i Hi|].
  - rewrite Hg by done. by rewrite decide_True.
  - rewrite Hown by lia. rewrite decide_False by lia. apply Ho. lia.
  - exists m'. split; [done|]. split.
    + intros c' Hc'. rewrite H1 by done. case_decide.
      * cbn. rewrite <-app_assoc. f_equal. cbn [app]. rewrite (seqZ_cons start) by lia. f_equal. f_equal; lia.
      * unfold conn_slots. rewrite Hg by done. by rewrite decide_False.
    + intros i Hi Hni. rewrite H2 by lia. rewrite Hown by done. rewrite decide_False by lia. done.
Qed.

Lemma group_members_snoc n g :
  0 <= n -> group_members (n + 1) g =
    group_members n g ++ (if decide (n mod Z.of_nat G = Z.of_nat g) then [n] else []).
Proof.
  intros Hn. unfold group_members. rewrite seqZ_app by lia. rewrite filter_app. f_equal.
Qed.

Lemma add_connection_inv s s' o : server_inv s -> add_connection max s = Some (s', o) -> server_inv s'.
Proof.
  intros Hinv. pose proof Hinv as [IF IE IC Ic IS IO Is [In Ig]]. unfold add_connection. fold (nconn s).
  destruct (Z.leb_spec max (nconn s)) as [|Hlt]; [by intros [= <- <-]|].
  pose proof IF as (Hp & _). rewrite (fit_size _ _ Hp). fold slots_per_conn.
  assert (0 <= slots_per_conn) as Hspc by (apply Z.div_pos; lia). assert (0 <= nconn s) as Hn0 by (unfold nconn; lia).
  set (m1 := Mapping.register_connection (nconn s) (mapping s)).
  assert (forall c, 0 <= c -> Mapping.get_connection c m1 =
    if decide (nconn s = c) then Some (Mapping.entry_new (nconn s)) else Mapping.get_connection c (mapping s)) as Hm1.
  { intros c Hc. unfold m1, Mapping.get_connection. cbn. by apply Mapping.at_index_grow_insert. }
  destruct (bind_range_ok (nconn s) (Z.to_nat slots_per_conn) m1 (nconn s * slots_per_conn) (Mapping.entry_new (nconn s)))
    as (m2 & -> & H1 & H2); [done|nia|rewrite Hm1 by done; by rewrite decide_True|intros i Hi; apply IO; lia|].
  destruct (Scheduler.add_connection_spec (scheduler s) (nconn s) Is) as (sc & g & Esc & Hok & _ & Hg & _).
  rewrite Esc. intros [= <- <-]. destruct (Scheduler.add_connection_members _ _ _ _ Esc) as [Hmem Hnum].
  rewrite Z2Nat.id in H1, H2 by done. rewrite In in Hg.
  assert (forall l, Z.of_nat (length (connected s ++ [true])) = l -> nconn s + 1 = l) as Hlen.
  { intros l <-. rewrite length_app. unfold nconn. cbn. lia. }
  split; unfold nconn; cbn [connected mapping scheduler]; rewrite ?length_app; cbn [length].
  - done.
  - done.
  - unfold nconn in Hlt. lia.
  - apply Forall_app. split; [done|]. by constructor.
  - intros c Hc. rewrite H1 by done. case_decide as Hcn.
    + subst c. rewrite decide_True by (unfold nconn; lia). done.
    + transitivity (conn_slots (mapping s) c).
      { unfold conn_slots. rewrite Hm1 by done. by rewrite decide_False. }
      rewrite IS by done. unfold nconn in *. repeat case_decide; done || lia.
  - intros i Hi. rewrite H2; [|unfold nconn in *; nia..]. change (Mapping.get_slot_owner i (mapping s) = None).
    apply IO. unfold nconn in *. nia.
  - exact Hok.
  - split; [congruence|]. intros g' Hg'. rewrite Hmem.
    replace (Z.of_nat (length (connected s) + 1)) with (nconn s + 1) by (unfold nconn; lia).
    rewrite group_members_snoc by done.
    pose proof (Z.mod_pos_bound (nconn s) (Z.of_nat G) ltac:(lia)) as Hb. destruct (decide (g' = g)) as [->|Hne].
    + rewrite list_lookup_alter_eq, Ig by done. cbn. rewrite decide_True; [done|]. rewrite Hg. lia.
    + rewrite list_lookup_alter_ne, Ig by done. rewrite decide_False by (intros E; apply Hne; rewrite Hg; lia).
      by rewrite app_nil_r.
Qed.

Lemma server_new_inv a1 a2 a3 d slice now :
  (0 < G)%nat -> server_inv (server_new a1 a2 a3 N d max G slice now).
Proof.
  intros HG. assert (forall a, fit N (Pool.pool_new a N d)) as Hf by (intros a; apply fit_new; lia).
  split; cbn.
  - split; [|split]; apply Hf.
  - split; [done|]. cbn. by rewrite !length_replicate.
  - unfold nconn. cbn. lia.
  - constructor.
  - intros c Hc. rewrite decide_False by (unfold nconn; cbn; lia). done.
  - intros i Hi. done.
  - by apply Scheduler.sched_new_ok.
  - unfold Scheduler.num_groups, Scheduler.members. cbn. rewrite length_fmap, length_seq. split; [done|].
    intros g Hg. rewrite !list_lookup_fmap, lookup_seq_lt by done. done.
Qed.

(** ** Reachable servers *)

(** One operation of the server or one write of a client: a client may overwrite a
    block of the processing pool and its endpoint entry with anything. *)
Inductive server_step s : RpcServer -> Prop :=
| step_add s' o : add_connection max s = Some (s', o) -> server_step s s'
| step_connect c e : 0 <= c -> server_step s (connect s c e).1
| step_poll_request s' o : poll_request s = Some (s', o) -> server_step s s'
| step_send rkey b r st payload s' o : send_response rkey b s r st payload = Some (s', o) -> server_step s s'
| step_send_zero_copy rkey b r st len : server_step s (send_response_zero_copy rkey b s r st len).1
| step_process rkey h accepts m now s' rs ws : process rkey h accepts m now s = Some (s', rs, ws) -> server_step s s'
| step_drain : server_step s (drain_processing_pool s).1
| step_process_drained rkey h accepts rs : server_step s (process_drained_requests rkey h accepts s rs).1
| step_drain_warmup : server_step s (drain_warmup_pool s).1
| step_perform now s' o : perform_context_switch now s = Some (s', o) -> server_step s s'
| step_check_and_switch now s' o : check_and_switch now s = Some (s', o) -> server_step s s'
| step_notify accepts cs q f s' o : notify_context_switch accepts s cs q f = Some (s', o) -> server_step s s'
| step_fetch remote outcome s' o : fetch_warmup_requests remote outcome s = Some (s', o) -> server_step s s'
| step_poll remote outcome rkey h accepts ae m now s' rs ws :
    poll remote outcome rkey h accepts ae m now s = Some (s', rs, ws) -> server_step s s'
| step_iteration remote outcome rkey h accepts ae m now now' s' rs ws :
    run_scheduler_iteration remote outcome rkey h accepts ae m now now' s = Some (s', rs, ws) -> server_step s s'
| step_client_write i sl block :
    Pool.get_slot (processing_pool s) i = Some sl -> length block = 4080%nat ->
    server_step s (with_pools s (Pool.put_slot (processing_pool s) i (with_data sl block)) (warmup_pool s))
| step_client_entry buf :
    length buf = length (ep_buffer (endpoint_entries s)) ->
    server_step s (with_entries s (mkEntries buf (num_entries (endpoint_entries s)) (last_seqs (endpoint_entries s)))).

Lemma inv_numbers s : server_inv s -> numbers_ok (scheduler s).
Proof.
  intros Hi. destruct (iv_groups _ Hi) as [Hn Hg]. apply Forall_lookup_2. intros g cs Hcs.
  assert (g < G)%nat as Hlt by (rewrite <-Hn, <-Scheduler.length_members; by eapply lookup_lt_Some).
  rewrite (Hg g Hlt) in Hcs. injection Hcs as <-. apply Forall_forall. intros c Hc. unfold group_members in Hc.
  apply list_elem_of_filter in Hc as [_ Hc]. apply elem_of_seqZ in Hc. lia.
Qed.

Lemma step_inv s s' : server_step s s' -> server_inv s -> server_inv s'.
Proof.
  intros Hst Hi. pose proof (iv_pools _ Hi) as Hf. pose proof (iv_sched _ Hi) as Hok. pose proof (inv_numbers _ Hi) as Hnum.
  destruct Hst; [by eapply add_connection_inv|eapply keeps_inv; [|exact Hi]..].
  - by apply connect_keeps.
  - by eapply poll_request_keeps.
  - by eapply send_response_keeps.
  - apply send_zero_copy_keeps.
  - by eapply process_keeps.
  - apply drain_keeps.
  - apply process_drained_keeps.
  - apply drain_warmup_keeps.
  - by eapply perform_keeps.
  - by eapply check_and_switch_keeps.
  - by eapply notify_keeps.
  - by eapply fetch_keeps.
  - by eapply poll_keeps.
  - by eapply iteration_keeps.
  - apply keeps_with_pools. intros (H1 & H2 & _). split; [|done]. apply fit_put; [done|].
    pose proof (fit_get _ _ _ _ H1 H) as Hsl. apply slot_fit_data; [done|]. destruct Hsl as [-> _]. done.
  - apply keeps_entries. intros (H1 & H2 & H3). split; [done|]. split; [done|]. cbn. by rewrite H.
Qed.

Lemma reach_inv a1 a2 a3 d slice now s :
  (0 < G)%nat -> rtc server_step (server_new a1 a2 a3 N d max G slice now) s -> server_inv s.
Proof.
  intros HG Hr. refine (rtc_ind_r (fun s => server_inv s) _ _ _ s Hr); [by apply server_new_inv|].
  intros y z _ Hs Hy. by eapply step_inv.
Qed.

(** C6: connections keep their slots and groups.  Whatever operations a server ran and
    whatever its clients wrote: connection [c] owns exactly the slots
    [c * slots_per_conn] to [(c + 1) * slots_per_conn - 1], which the pools have;
    group [g] consists of the connections whose number is [g] modulo the number of
    groups, in order; the current group exists; and each pool has all its slots, free
    and of full size. *)
Theorem server_partition a1 a2 a3 d slice now s :
  (0 < G)%nat -> rtc server_step (server_new a1 a2 a3 N d max G slice now) s ->
  (forall c, 0 <= c < nconn s -> conn_slots (mapping s) c = seqZ (c * slots_per_conn) slots_per_conn /\
     c * slots_per_conn + slots_per_conn <= N) /\
  (forall g, (g < G)%nat -> Scheduler.members (scheduler s) !! g = Some (group_members (nconn s) g)) /\
  (Scheduler.current_group (scheduler s) < G)%nat /\ pools_fit s.
Proof.
  intros HG Hr. destruct (reach_inv _ _ _ _ _ _ _ HG Hr) as [IF _ IC _ IS _ [Is _] [In Ig]].
  split; [|split; [done|split; [by rewrite <-In|done]]]. intros c Hc. rewrite IS by lia. rewrite decide_True by lia.
  split; [done|]. assert (max * slots_per_conn <= N) by (apply Z.mul_div_le; lia).
  assert (0 <= slots_per_conn) by (apply Z.div_pos; lia). nia.
Qed.

End Invariant.

Lemma server_partition_witness :
  let s := server_new 4096 65536 131072 4 4080 2 2 100 0 in
  exists s', rtc (server_step 2) s s' /\ nconn s' = 1 /\ conn_slots (mapping s') 0 = seqZ 0 2.
Proof.
  intros s. destruct (add_connection 2 s) as [[s' o]|] eqn:E; [|vm_compute in E; discriminate].
  exists s'. assert (rtc (server_step 2) s s') as Hr by (apply rtc_once; by eapply step_add). split; [exact Hr|].
  assert (nconn s' = 1) as Hn by (vm_compute in E; injection E as <- _; reflexivity). split; [exact Hn|].
  destruct (server_partition 4 2 2 ltac:(lia) ltac:(lia) 4096 65536 131072 4080 100 0 s' ltac:(lia) Hr) as (H & _).
  apply (H 0). rewrite Hn. lia.
Defined.

End ServerInv.
