(* ===== verification/ServerWarmup.v ===== *)
(** * ServerWarmup: requests a client announced reach the handler

    The path of [poll] from the endpoint entries over the reads of the warmup buffers
    and the forced switch to the handler, for servers that satisfy the invariant. *)
From S2P Require Import Prelude Protocol Mapping Pool Scheduler Server ServerProps ServerInv.

Module ServerWarmup.
Import Server ServerProps ServerInv.
Implicit Types (s : RpcServer) (p : MessagePool) (e : EndpointEntryPool).

(** ** Endpoint entries *)

(** What [has_new_batch] finds. *)
Definition new_batch e (c : Z) : option EndpointEntry := has_new_batch e c ≫= snd.

Lemma new_batch_eq e1 e2 c :
  num_entries e1 = num_entries e2 -> read_entry e1 c = read_entry e2 c ->
  last_seqs e1 !! Z.to_nat c = last_seqs e2 !! Z.to_nat c -> new_batch e1 c = new_batch e2 c.
Proof.
  intros H1 H2 H3. unfold new_batch, has_new_batch. rewrite H1, H2, H3. case_match; [done|].
  destruct (last_seqs e2 !! Z.to_nat c); [|done]. cbn. by case_match.
Qed.

Section Entries.
Context (max : Z) (Hmax : 0 < max).
Notation entries_ok := (ServerInv.entries_ok max).

Lemma has_new_batch_total e c :
  entries_ok e -> 0 <= c -> exists e', has_new_batch e c = Some (e', new_batch e c) /\
    forall c', 0 <= c' -> c' <> c -> new_batch e' c' = new_batch e c'.
Proof.
  intros (H1 & H2 & H3) Hc. unfold new_batch. unfold has_new_batch at 1 2.
  destruct (Z.leb_spec (num_entries e) c) as [|Hlt]; [by exists e|].
  destruct (lookup_lt_is_Some_2 (last_seqs e) (Z.to_nat c)) as [l Hl]; [lia|]. rewrite Hl. cbn [mbind option_bind].
  destruct (_ && _); cbn [snd]; [|by exists e]. eexists. split; [reflexivity|].
  intros c' Hc' Hne. apply new_batch_eq; [done|done|]. cbn. by rewrite list_lookup_insert_ne by lia.
Qed.

Lemma clear_entry_other e c c' :
  entries_ok e -> 0 <= c -> 0 <= c' -> c' <> c -> new_batch (clear_entry e c) c' = new_batch e c'.
Proof.
  intros (H1 & H2 & H3) Hc Hc' Hne. unfold clear_entry. destruct (Z.leb_spec (num_entries e) c) as [|Hlt]; [done|].
  apply new_batch_eq; [done| |done]. unfold read_entry. cbn [num_entries ep_buffer].
  destruct (Z.leb_spec (num_entries e) c') as [|Hlt']; [done|]. unfold Protocol.entry_read_from.
  rewrite (Protocol.decode_fields_ext _ _ _ (ep_buffer e) (entry_off c')); [done|].
  apply read_write_out; cbn; unfold entry_off, ENTRY_SIZE in *; lia.
Qed.

End Entries.

(** ** Reads *)

(** The blocks of one batch. *)
Definition reads (start addr : Z) (j : Z) (n : nat) : list (Z * (Z * Z)) :=
  (fun t => (t, (start + t, addr + t * Protocol.MESSAGE_BLOCK_SIZE))) <$> seqZ j (Z.of_nat n).

Lemma reads_cons start addr j n :
  reads start addr j (S n) = (j, (start + j, addr + j * Protocol.MESSAGE_BLOCK_SIZE)) :: reads start addr (j + 1) n.
Proof. unfold reads. rewrite seqZ_cons by lia. cbn. f_equal. f_equal. f_equal; lia. Qed.

Lemma issue_reads_ok s c info start k n : forall j,
  conn_slots (mapping s) c = seqZ start k -> 0 <= start -> start + k <= Pool.num_slots (warmup_pool s) -> 0 <= j ->
  j + Z.of_nat n <= k -> issue_reads s c info j n = Ok (reads start (wb_addr info) j n).
Proof.
  induction n as [|n IH]; intros j Hs Hst Hk Hj Hn; cbn [issue_reads]; [done|].
  unfold issue_warmup_read. unfold conn_slots in Hs. destruct (Mapping.get_connection c (mapping s)) as [e|] eqn:E.
  2:{ rewrite seqZ_cons in Hs by lia. done. }
  cbn [mbind option_bind]. rewrite Hs. rewrite lookup_seqZ_lt by lia. rewrite Z2Nat.id by done.
  unfold Pool.slot_data_addr. rewrite (proj2 (Z.leb_gt _ _)) by lia.
  rewrite IH; [by rewrite reads_cons|unfold conn_slots; by rewrite E|lia..].
Qed.

Section Blocks.
(** An adapter that reads a block delivers one. *)
Context (remote : Z -> Z -> list Z) (Hremote : forall c a, length (remote c a) = 4080%nat).
Context (N : Z).

Lemma land_spec p c t i a :
  fit N p -> 0 <= i < N ->
  (exists sl, Pool.get_slot (land remote p c (t, (i, a))) i = Some sl /\ Pool.data sl = remote c a) /\
  forall i', 0 <= i' -> i' <> i -> Pool.get_slot (land remote p c (t, (i, a))) i' = Pool.get_slot p i'.
Proof.
  intros Hf Hi. destruct (fit_is_Some N p i Hf Hi) as (sl & Hsl & [HL _]). unfold land. cbn [fst snd]. rewrite Hsl. split.
  - eexists. rewrite Pool.get_put by (lia || by exists sl). rewrite decide_True by done. split; [reflexivity|]. cbn.
    change (Z.to_nat Protocol.MESSAGE_BLOCK_SIZE) with 4080%nat. rewrite take_ge by (rewrite Hremote; lia).
    unfold write_bytes. rewrite take_0, Nat.sub_0_r. cbn. rewrite take_ge by (rewrite Hremote; lia).
    rewrite drop_ge by (rewrite Hremote; lia). by rewrite app_nil_r.
  - intros i' Hi' Hne. rewrite Pool.get_put by (lia || by exists sl). by rewrite decide_False.
Qed.

Lemma land_all_spec c start addr n : forall p j,
  fit N p -> 0 <= j -> 0 <= start -> start + j + Z.of_nat n <= N ->
  let p' := land_all remote p c (reads start addr j n) in
  (forall t, j <= t < j + Z.of_nat n -> exists sl, Pool.get_slot p' (start + t) = Some sl /\
     Pool.data sl = remote c (addr + t * Protocol.MESSAGE_BLOCK_SIZE)) /\
  (forall i, 0 <= i -> ~ (start + j <= i < start + j + Z.of_nat n) -> Pool.get_slot p' i = Pool.get_slot p i).
Proof.
  induction n as [|n IH]; intros p j Hf Hj Hst Hn; cbn zeta.
  { split; [intros t Ht; lia|done]. }
  rewrite reads_cons. cbn [land_all foldl]. fold (land_all remote (land remote p c
    (j, (start + j, addr + j * Protocol.MESSAGE_BLOCK_SIZE))) c (reads start addr (j + 1) n)).
  destruct (land_spec p c j (start + j) (addr + j * Protocol.MESSAGE_BLOCK_SIZE) Hf ltac:(lia)) as [Hin Hout].
  set (p1 := land remote p c _) in *. assert (fit N p1) as Hf1 by by apply fit_land.
  destruct (IH p1 (j + 1) Hf1 ltac:(lia) Hst ltac:(lia)) as [H1 H2]. split.
  - intros t Ht. destruct (decide (t = j)) as [->|Hne]; [|apply H1; lia]. rewrite H2 by lia. done.
  - intros i Hi Hni. rewrite H2 by lia. apply Hout; lia.
Qed.

End Blocks.

(** How many blocks are read for a connection, and from where. *)
Definition batch s (c : Z) : Z :=
  match new_batch (endpoint_entries s) c, default None (warmup_buffer_infos s !! Z.to_nat c) with
  | Some entry, Some info => Z.min (Protocol.batch_size entry) (wb_slots info)
  | _, _ => 0
  end.
Definition warmup_addr s (c : Z) : Z :=
  match default None (warmup_buffer_infos s !! Z.to_nat c) with Some info => wb_addr info | None => 0 end.

Section Fetch.
Context (N max : Z) (G : nat) (HN : 0 < N) (Hmax : 0 < max).
Context (remote : Z -> Z -> list Z) (Hremote : forall c a, length (remote c a) = 4080%nat).
Notation server_inv := (ServerInv.server_inv N max G).
Notation keeps := (ServerInv.keeps N max).
Notation spc := (ServerInv.slots_per_conn N max).

Lemma inv_range s c : server_inv s -> 0 <= c < nconn s -> 0 <= spc /\ 0 <= c * spc /\ c * spc + spc <= N.
Proof.
  intros Hi Hc. pose proof (iv_count _ _ _ _ Hi) as Hn. assert (0 <= spc) as H0 by (apply Z.div_pos; lia).
  assert (max * spc <= N) as Hd by (apply Z.mul_div_le; lia). split; [done|]. nia.
Qed.

Lemma inv_connected s c : server_inv s -> 0 <= c < nconn s -> default false (connected s !! Z.to_nat c) = true.
Proof.
  intros Hi Hc. unfold nconn in Hc. destruct (lookup_lt_is_Some_2 (connected s) (Z.to_nat c)) as [b Hb]; [lia|].
  pose proof (Forall_lookup_1 _ _ _ _ (iv_connected _ _ _ _ Hi) Hb) as <-. by rewrite Hb.
Qed.

Lemma inv_conn_slots s c : server_inv s -> 0 <= c < nconn s -> conn_slots (mapping s) c = seqZ (c * spc) spc.
Proof. intros Hi Hc. rewrite (iv_slots _ _ _ _ Hi) by lia. by rewrite decide_True by lia. Qed.

(** One batch, all of whose reads arrive. *)
Lemma fetch_batch_spec outcome s c info n :
  server_inv s -> 0 <= c < nconn s -> outcome c = AllRead -> 0 <= n <= spc ->
  let s' := with_pools s (processing_pool s)
              (land_all remote (warmup_pool s) c (reads (c * spc) (wb_addr info) 0 (Z.to_nat n))) in
  fetch_warmup_batch remote outcome s c info n = (s', Ok n).
Proof.
  intros Hi Hc Ho Hn. unfold fetch_warmup_batch. destruct (inv_range s c Hi Hc) as (H1 & H2 & H3).
  destruct (Z.eqb_spec n 0) as [->|Hne]; [by destruct s|].
  pose proof (iv_pools _ _ _ _ Hi) as (_ & Hw & _).
  rewrite (issue_reads_ok s c info (c * spc) spc);
    [by rewrite Ho|by apply inv_conn_slots|done|by rewrite (fit_size _ _ Hw)|done|lia].
Qed.

Record fetched_all s s' (cs : list Z) : Prop := mkFetched {
  fa_inv : server_inv s';
  fa_frame : scheduler s' = scheduler s /\ mapping s' = mapping s /\ connected s' = connected s /\
    event_buffer_addrs s' = event_buffer_addrs s;
  fa_blocks : forall c t, c ∈ cs -> 0 <= t < batch s c -> exists sl,
    Pool.get_slot (warmup_pool s') (c * spc + t) = Some sl /\
    Pool.data sl = remote c (warmup_addr s c + t * Protocol.MESSAGE_BLOCK_SIZE);
  fa_others : forall i, 0 <= i -> (forall c, c ∈ cs -> ~ (c * spc <= i < c * spc + spc)) ->
    Pool.get_slot (warmup_pool s') i = Pool.get_slot (warmup_pool s) i;
}.

Lemma fetch_conns_spec outcome cs : forall s f l,
  server_inv s -> NoDup cs ->
  (forall c, c ∈ cs -> 0 <= c < nconn s /\ outcome c = AllRead /\ 0 <= batch s c <= spc) ->
  exists s' total q, fetch_conns remote outcome s cs f l = Some (s', Ok (f + total, q)) /\ 0 <= total /\
    (forall c, c ∈ cs -> 0 < batch s c -> 0 < total) /\ fetched_all s s' cs.
Proof.
  induction cs as [|c cs IH]; intros s f l Hi Hnd Hcs; cbn [fetch_conns].
  { exists s, 0, l. rewrite Z.add_0_r. split; [done|]. split; [done|]. split; [by intros c ?%not_elem_of_nil|].
    split; [done|done| |done]. by intros c t ?%not_elem_of_nil. }
  apply NoDup_cons in Hnd as [Hc Hnd]. destruct (Hcs c ltac:(apply elem_of_cons; auto)) as (Hcn & Hout & Hb).
  destruct (has_new_batch_total max Hmax (endpoint_entries s) c (iv_entries _ _ _ _ Hi) ltac:(lia)) as (e & Ee & He).
  rewrite Ee. cbn [mbind option_bind]. pose proof (new_batch_entries max _ _ _ _ Ee) as Heok.
  assert (server_inv (with_entries s e)) as Hi1 by (eapply keeps_inv; [by apply keeps_entries|done]).
  assert (forall c', c' ∈ cs -> 0 <= c' /\ c' <> c) as Hne.
  { intros c' Hc'. destruct (Hcs c' ltac:(apply elem_of_cons; auto)) as [? _]. split; [lia|]. intros ->. done. }
  assert (forall s3, endpoint_entries s3 = e \/ endpoint_entries s3 = clear_entry e c ->
    warmup_buffer_infos s3 = warmup_buffer_infos s -> forall c', c' ∈ cs -> batch s3 c' = batch s c') as Hbatch.
  { intros s3 He3 Hw3 c' Hc'. destruct (Hne c' Hc') as [Hc0 Hcc]. unfold batch. rewrite Hw3. f_equal.
    assert (new_batch (endpoint_entries s3) c' = new_batch (endpoint_entries s) c') as ->; [|done].
    destruct He3 as [->| ->]; [by apply He|].
    rewrite (clear_entry_other max); [by apply He|done|apply Heok, Hi|lia|done|done]. }
  assert (default false (connected (with_entries s e) !! Z.to_nat c) = true) as -> by by apply inv_connected.
  change (warmup_buffer_infos (with_entries s e)) with (warmup_buffer_infos s).
  assert (batch s c = 0 -> exists s' total q, fetch_conns remote outcome (with_entries s e) cs f l = Some (s', Ok (f + total, q)) /\
    0 <= total /\ (forall c0, c0 ∈ c :: cs -> 0 < batch s c0 -> 0 < total) /\ fetched_all s s' (c :: cs)) as Hskip.
  { intros Hz. specialize (Hbatch (with_entries s e) (or_introl eq_refl) eq_refl).
    destruct (IH (with_entries s e) f l Hi1 Hnd) as (s' & total & q & E & Ht & Hpos & [F1 F2 F3 F4]).
    { intros c' Hc'. rewrite Hbatch by done. apply Hcs, elem_of_cons. auto. }
    exists s', total, q. split; [done|]. split; [done|]. split; [|split; [done|done| |]].
    - intros c0 [->|Hc0]%elem_of_cons Hb0; [lia|]. apply (Hpos c0); [done|]. by rewrite Hbatch.
    - intros c0 t [->|Hc0]%elem_of_cons Ht0; [lia|]. apply F3; [done|]. by rewrite Hbatch.
    - intros i Hi0 Hni. apply F4; [done|]. intros c0 Hc0. apply Hni, elem_of_cons. auto. }
  unfold batch in Hb, Hskip at 1. destruct (new_batch (endpoint_entries s) c) as [entry|] eqn:En; [|by apply Hskip].
  destruct (default None (warmup_buffer_infos s !! Z.to_nat c)) as [info|] eqn:Ei; [|by apply Hskip]. clear Hskip.
  set (n := Z.min (Protocol.batch_size entry) (wb_slots info)) in *.
  assert (batch s c = n) as Hbn by (unfold batch; by rewrite En, Ei).
  rewrite (fetch_batch_spec outcome (with_entries s e) c info n Hi1 Hcn Hout Hb).
  set (s2 := with_pools _ _ _). change (endpoint_entries s2) with e. set (s3 := with_entries s2 (clear_entry e c)).
  destruct (inv_range s c Hi Hcn) as (Hr1 & Hr2 & Hr3). pose proof (iv_pools _ _ _ _ Hi) as (_ & Hw & _).
  destruct (land_all_spec remote Hremote N c (c * spc) (wb_addr info) (Z.to_nat n) (warmup_pool s) 0 Hw ltac:(lia) Hr2 ltac:(lia))
    as [L1 L2].
  assert (server_inv s3) as Hi3.
  { eapply keeps_inv; [|exact Hi1]. etrans; [apply (keeps_with_pools N max (with_entries s e))|apply keeps_entries].
    - intros (P1 & P2 & _). split; [done|]. by apply fit_land_all.
    - apply clear_entry_ok; [done|lia]. }
  specialize (Hbatch s3 (or_intror eq_refl) eq_refl).
  destruct (IH s3 (f + n) (Protocol.seq entry) Hi3 Hnd) as (s' & total & q & E & Ht & Hpos & [F1 F2 F3 F4]).
  { intros c' Hc'. rewrite Hbatch by done. apply (Hcs c'), elem_of_cons. auto. }
  assert (forall c', c' ∈ cs -> 0 <= c' < nconn s /\ c' <> c) as Hcs' by (intros c' Hc'; split; [apply (Hcs c'), elem_of_cons; auto|by apply Hne]).
  exists s', (n + total), q. rewrite Z.add_assoc. split; [exact E|]. split; [lia|]. split; [|split; [done|done| |]].
  - intros c0 [->|Hc0]%elem_of_cons Hb0; [lia|]. assert (0 < total) by (apply (Hpos c0); [done|]; by rewrite Hbatch). lia.
  - intros c0 t [->|Hc0]%elem_of_cons Ht0.
    + unfold warmup_addr. rewrite Ei. destruct (L1 t ltac:(lia)) as (sl & Hsl & Hd). exists sl. split; [|done].
      rewrite F4; [exact Hsl|lia|]. intros c' Hc' Hr. destruct (Hcs' c' Hc') as [Hc'n Hc'c]. nia.
    + apply F3; [done|]. by rewrite Hbatch.
  - intros i Hi0 Hni. rewrite F4; [|done|intros c0 Hc0; apply Hni, elem_of_cons; auto]. apply L2; [done|]. specialize (Hni c ltac:(apply elem_of_cons; auto)). lia.
Qed.
(** ** The loop covers the current group *)

Lemma group_range s g cs c :
  server_inv s -> Scheduler.members (scheduler s) !! g = Some cs -> NoDup cs /\ (c ∈ cs -> 0 <= c < nconn s).
Proof.
  intros Hi Hg. destruct (iv_groups _ _ _ _ Hi) as [Hn Hgs].
  assert (g < G)%nat as Hlt by (rewrite <-Hn, <-Scheduler.length_members; by eapply lookup_lt_Some).
  rewrite (Hgs g Hlt) in Hg. injection Hg as <-. unfold group_members. split; [apply NoDup_filter, NoDup_seqZ|].
  intros Hc. apply list_elem_of_filter in Hc as [_ Hc]. apply elem_of_seqZ in Hc. lia.
Qed.

Lemma current_members (sc : GroupScheduler) cs :
  Scheduler.current_group_connections sc = Some cs <-> Scheduler.members sc !! Scheduler.current_group sc = Some cs.
Proof. unfold Scheduler.current_group_connections, Scheduler.members. by rewrite list_lookup_fmap. Qed.

Lemma next_members (sc : GroupScheduler) cs :
  Scheduler.next_group_connections sc = Some cs <-> Scheduler.members sc !! Scheduler.next_group sc = Some cs.
Proof. unfold Scheduler.next_group_connections, Scheduler.members. by rewrite list_lookup_fmap. Qed.

Lemma active_spec s :
  server_inv s -> exists cs, Scheduler.current_group_connections (scheduler s) = Some cs /\
    (forall i, i ∈ active s <-> exists c, c ∈ cs /\ c * spc <= i < c * spc + spc) /\
    (forall i, i ∈ active s -> 0 <= i < N) /\ NoDup (active s).
Proof.
  intros Hi. destruct (current_connections _ (iv_sched _ _ _ _ Hi)) as [cs Ecs]. exists cs. split; [done|].
  apply current_members in Ecs as Hg. unfold active. rewrite Ecs.
  assert (forall c, c ∈ cs -> 0 <= c < nconn s) as Hr by (intros c; by apply (group_range s _ cs c Hi Hg)).
  assert (forall i, i ∈ cs ≫= conn_slots (mapping s) <-> exists c, c ∈ cs /\ c * spc <= i < c * spc + spc) as Hin.
  { intros i. rewrite list_elem_of_bind. split.
    - intros (c & Hci & Hc). rewrite (inv_conn_slots s c Hi (Hr c Hc)) in Hci. apply elem_of_seqZ in Hci. by exists c.
    - intros (c & Hc & Hci). exists c. split; [|done]. rewrite (inv_conn_slots s c Hi (Hr c Hc)). by apply elem_of_seqZ. }
  split; [done|]. split.
  - intros i (c & Hc & Hci)%Hin. destruct (inv_range s c Hi (Hr c Hc)) as (H1 & H2 & H3). lia.
  - apply NoDup_bind.
    + intros c1 c2 i H1 H2 Hi1 Hi2. rewrite (inv_conn_slots s c1 Hi (Hr c1 H1)) in Hi1.
      rewrite (inv_conn_slots s c2 Hi (Hr c2 H2)) in Hi2. apply elem_of_seqZ in Hi1, Hi2.
      destruct (Z.lt_trichotomy c1 c2) as [?|[?|?]]; [nia|done|nia].
    + intros c Hc. rewrite (inv_conn_slots s c Hi (Hr c Hc)). apply NoDup_seqZ.
    + by apply (group_range s _ cs 0 Hi Hg).
Qed.

Lemma inv_server_ok s : server_inv s -> server_ok s /\ (length (active s) <= Z.to_nat N)%nat.
Proof.
  intros Hi. destruct (active_spec s Hi) as (cs & _ & _ & Hr & Hnd). pose proof (iv_pools _ _ _ _ Hi) as (Hp & _). split.
  - split; [by eapply fit_blocks|by eapply iv_sched|]. intros i Hia. apply Hr in Hia. lia.
  - assert (active s ⊆+ seqZ 0 N) as Hsub.
    { apply NoDup_submseteq; [done|]. intros i Hia. apply elem_of_seqZ. apply Hr in Hia. lia. }
    apply submseteq_length in Hsub. by rewrite length_seqZ in Hsub.
Qed.

(** ** Nothing on the way panics *)

Lemma fetch_conns_total outcome cs : forall s f l,
  entries_ok max (endpoint_entries s) -> Forall (Z.le 0) cs ->
  exists r, fetch_conns remote outcome s cs f l = Some r.
Proof.
  induction cs as [|c cs IH]; intros s f l He Hcs; cbn [fetch_conns]; [by eexists|]. apply Forall_cons in Hcs as [Hc Hcs].
  destruct (has_new_batch_total max Hmax (endpoint_entries s) c He Hc) as (e & Ee & _). rewrite Ee. cbn [mbind option_bind].
  pose proof (new_batch_entries max _ _ _ _ Ee He) as He'.
  destruct (new_batch _ c) as [entry|]; [|by apply IH]. destruct (default None _) as [info|]; [|by apply IH].
  destruct (default false _); [|by apply IH].
  pose proof (fetch_batch_keeps N max remote outcome (with_entries s e) c info (Z.min (Protocol.batch_size entry) (wb_slots info))) as Hk.
  destruct (fetch_warmup_batch _ _ _ _ _ _) as [s1 [n|x]]; [|by eexists]. apply IH; [|done].
  apply clear_entry_ok; [done|done|]. by apply Hk.
Qed.

Lemma notify_total accepts s cs q f :
  server_inv s -> exists s' o, notify_context_switch accepts s cs q f = Some (s', o) /\ server_inv s' /\
    scheduler s' = scheduler s /\
    (forall i, 0 <= i -> i <> N - 1 -> Pool.get_slot (processing_pool s') i = Pool.get_slot (processing_pool s) i) /\
    ((forall c, c ∈ cs -> default None (event_buffer_addrs s !! Z.to_nat c) = None) -> processing_pool s' = processing_pool s).
Proof.
  intros Hi. pose proof (iv_pools _ _ _ _ Hi) as Hp. unfold notify_context_switch. set (s1 := with_pending _ _).
  destruct (notify_events_spec accepts (Protocol.event_new q f) s1 N cs (processing_pool s1) (proj1 Hp) HN)
    as (p & o & E & H1 & H2 & H3). rewrite E. cbn [mbind option_bind]. eexists _, _. split; [reflexivity|].
  split; [|done]. eapply keeps_inv; [|exact Hi]. apply keeps_pools; [|done..]. intros (P1 & P2 & P3). done.
Qed.

Lemma switch_inv b now s :
  server_inv s -> exists sc q, Scheduler.switch b now (scheduler s) = Some (sc, q) /\ server_inv (with_scheduler s sc).
Proof.
  intros Hi. pose proof (iv_sched _ _ _ _ Hi) as Hok. destruct (Scheduler.switch_total b now _ Hok) as (sc & q & E & _).
  exists sc, q. split; [done|]. eapply keeps_inv; [|exact Hi]. by eapply keeps_switch.
Qed.

(** The state [poll] processes after a forced switch. *)
Lemma forced_switch accepts now s fetched_seq :
  server_inv s ->
  exists sc q s1 o, Scheduler.do_context_switch now (scheduler s) = Some (sc, q) /\ exists cs,
    Scheduler.current_group_connections sc = Some cs /\
    (let s := with_scheduler s sc in
     let s := with_pools s (warmup_pool s) (clear_pool_valid_flags (processing_pool s)) in
     notify_context_switch accepts (with_polling s (processing_pool s) (reset_next (mapping s) (next_expected_slot s) cs))
       cs q fetched_seq) = Some (s1, o) /\
    server_inv s1 /\ scheduler s1 = sc /\
    (forall i, 0 <= i -> i <> N - 1 -> Pool.get_slot (processing_pool s1) i = Pool.get_slot (warmup_pool s) i) /\
    ((forall c, c ∈ cs -> default None (event_buffer_addrs s !! Z.to_nat c) = None) -> processing_pool s1 = warmup_pool s).
Proof.
  intros Hi. destruct (switch_inv false now s Hi) as (sc & q & E & Hi1). exists sc, q.
  destruct (current_connections sc (iv_sched _ _ _ _ Hi1)) as [cs Ecs].
  set (s2 := with_pools (with_scheduler s sc) (warmup_pool s) (clear_pool_valid_flags (processing_pool s))).
  set (s3 := with_polling s2 (processing_pool s2) (reset_next (mapping s2) (next_expected_slot s2) cs)).
  assert (server_inv s3) as Hi3.
  { eapply keeps_inv; [|exact Hi1]. etrans; [apply (swap_clear_keeps N max (with_scheduler s sc))|]. by apply keeps_pools. }
  destruct (notify_total accepts s3 cs q fetched_seq Hi3) as (s1 & o & En & H1 & H2 & H3 & H4).
  exists s1, o. split; [exact E|]. exists cs. done.
Qed.

Lemma fetch_total outcome s :
  server_inv s -> exists s' o, fetch_warmup_requests remote outcome s = Some (s', o) /\ server_inv s'.
Proof.
  intros Hi. pose proof (inv_numbers _ _ _ _ Hi) as Hn. pose proof (iv_sched _ _ _ _ Hi) as [Hc Hx].
  assert (Scheduler.next_group (scheduler s) < Scheduler.num_groups (scheduler s))%nat as Hlt
    by (rewrite Hx; apply Scheduler.succ_mod_lt; lia).
  destruct (lookup_lt_is_Some_2 (Scheduler.members (scheduler s)) (Scheduler.next_group (scheduler s))) as [cs Hcs];
    [by rewrite Scheduler.length_members|]. pose proof (proj2 (next_members _ _) Hcs) as Ecs.
  pose proof (fetch_keeps N max Hmax remote outcome s) as Hk. unfold fetch_warmup_requests in *. rewrite Ecs in *. cbn [mbind option_bind] in *.
  destruct (fetch_conns_total outcome cs s 0 0 (iv_entries _ _ _ _ Hi) (numbers_lookup _ _ _ Hn Hcs)) as [[s' o] E].
  exists s', o. split; [done|]. eapply keeps_inv; [|exact Hi]. by apply (Hk s' o).
Qed.

Lemma perform_total now s :
  server_inv s -> exists s' o, perform_context_switch now s = Some (s', o) /\ server_inv s'.
Proof.
  intros Hi. destruct (perform_context_switch now s) as [[s' o]|] eqn:E.
  { exists s', o. split; [done|]. eapply keeps_inv; [|exact Hi]. eapply perform_keeps; [by eapply iv_sched|done]. }
  exfalso. revert E. unfold perform_context_switch. case_match; [|done].
  destruct (current_connections _ (iv_sched _ _ _ _ Hi)) as [cs ->]. cbn [mbind option_bind].
  destruct (switch_inv true now s Hi) as (sc & q & E & _). cbn in E. by rewrite E.
Qed.

Lemma poll_switch_total outcome accepts now s :
  server_inv s -> exists s', poll_switch remote outcome accepts now s = Some s' /\ server_inv s'.
Proof.
  intros Hi. unfold poll_switch. destruct (fetch_total outcome s Hi) as (s1 & o & -> & Hi1). cbn [mbind option_bind].
  destruct (match o with Ok x => x | Err _ => (0, 0) end) as [f q]. case_match.
  - destruct (forced_switch accepts now s1 q Hi1) as (sc & n & s2 & o2 & -> & cs & Ecs & En & Hi2 & _).
    cbn [mbind option_bind]. rewrite Ecs. cbn [mbind option_bind]. cbn zeta in En. rewrite En. by exists s2.
  - destruct (perform_total now s1 Hi1) as (s2 & o2 & -> & Hi2). cbn [mbind option_bind].
    destruct o2 as [[n cs]|]; [|by exists s2].
    destruct (notify_total accepts s2 cs n 0 Hi2) as (s3 & o3 & -> & Hi3 & _). by exists s3.
Qed.

Lemma loop_drains rkey h accepts s :
  server_inv s -> exists s' rs ws, process_loop rkey h accepts (S (Z.to_nat N)) s = Some (s', rs, ws) /\
    (forall r, r ∈ rs <-> exists i, i ∈ active s /\ waiting (processing_pool s) i r) /\
    NoDup (Protocol.in_slot_index <$> rs).
Proof.
  intros Hi. destruct (inv_server_ok s Hi) as [Hok Hl].
  destruct (process_loop_drains rkey h accepts (S (Z.to_nat N)) s Hok) as (s' & rs & ws & E & _ & H1 & H2).
  - pose proof (length_filter (waitingb (processing_pool s)) (active s)). lia.
  - by exists s', rs, ws.
Qed.

(** A request block in a slot of the pool waits. *)
Lemma waiting_block p i sl r :
  Pool.get_slot p i = Some sl -> (Protocol.check_slot_for_request (Pool.data sl) 0 i).1 = Some r -> waiting p i r.
Proof.
  intros Hg Hc. unfold waiting, pool_check_slot. rewrite Hg.
  destruct (Protocol.check_slot_for_request (Pool.data sl) 0 i) as [[r'|] d]; [|done]. exact Hc.
Qed.

(** What a forced switch processes: the blocks that were read. *)
Lemma poll_switch_fetched outcome accepts now s cs c t :
  server_inv s -> Scheduler.next_group_connections (scheduler s) = Some cs ->
  (forall c, c ∈ cs -> outcome c = AllRead /\ 0 <= batch s c <= spc) -> c ∈ cs -> 0 <= t < batch s c ->
  (c * spc + t <> N - 1 \/ forall c, c ∈ cs -> default None (event_buffer_addrs s !! Z.to_nat c) = None) ->
  exists s1 sl, poll_switch remote outcome accepts now s = Some s1 /\ server_inv s1 /\ c * spc + t ∈ active s1 /\
    Pool.get_slot (processing_pool s1) (c * spc + t) = Some sl /\
    Pool.data sl = remote c (warmup_addr s c + t * Protocol.MESSAGE_BLOCK_SIZE).
Proof.
  intros Hi Ecs Hcs Hc Ht Hev. apply next_members in Ecs as Hg.
  destruct (fetch_conns_spec outcome cs s 0 0 Hi) as (s1 & total & q & E & Htot & Hpos & [F1 (Fs & _ & _ & Fe) F3 _]).
  { by apply (group_range s _ cs 0 Hi Hg). }
  { intros c' Hc'. split; [|by apply Hcs]. by apply (group_range s _ cs c' Hi Hg). }
  unfold poll_switch, fetch_warmup_requests. rewrite Ecs. cbn [mbind option_bind]. rewrite E. cbn [mbind option_bind].
  assert (0 < total) as Hp by (apply (Hpos c); [done|lia]). rewrite (proj2 (Z.ltb_lt 0 (0 + total))) by lia.
  destruct (forced_switch accepts now s1 q F1) as (sc & n & s2 & o2 & Esw & cs' & Ecs' & En & Hi2 & Hsc & Hslots & Hsame).
  rewrite Esw. cbn [mbind option_bind]. rewrite Ecs'. cbn [mbind option_bind]. cbn zeta in En. rewrite En.
  assert (cs' = cs) as ->.
  { apply current_members in Ecs'. rewrite Fs in Esw.
    rewrite (Scheduler.switch_next false now (scheduler s) sc n (iv_sched _ _ _ _ Hi)) in Ecs'; [| |exact Esw].
    - destruct (Scheduler.switch_total false now _ (iv_sched _ _ _ _ Hi)) as (sc' & n' & E' & _ & Hm & _).
      cbn in E'. rewrite Esw in E'. injection E' as <- <-. rewrite Hm, Hg in Ecs'. by injection Ecs'.
    - exists cs. split; [done|]. intros ->. by apply not_elem_of_nil in Hc. }
  destruct (F3 c t Hc Ht) as (sl & Hsl & Hd). exists s2, sl. split; [done|]. split; [done|].
  destruct (group_range s _ cs c Hi Hg) as [_ Hcn]. destruct (inv_range s c Hi (Hcn Hc)) as (R1 & R2 & R3).
  destruct (Hcs c Hc) as [_ Hb]. split; [|split; [|done]].
  - destruct (active_spec s2 Hi2) as (cs2 & Ecs2 & Hact & _). apply Hact. exists c. rewrite Hsc, Ecs' in Ecs2.
    injection Ecs2 as <-. split; [done|lia].
  - destruct Hev as [Hne|Hno]; [rewrite Hslots by lia; done|]. rewrite Hsame; [done|]. by rewrite Fe.
Qed.

(** A request that a client announced is handled.  One [poll] of a server that its
    operations and its clients can reach ends without panic; and when the reads of the
    next group arrive, every request that a client of that group put in one of the
    blocks of its warmup buffer that it announced, as many as it has slots at the
    server, is handed to the handler as the client wrote it.  The block whose slot
    [notify_context_switch] builds its events in, the last of the pool, is excepted. *)
Lemma poll_delivers rkey h accepts ae outcome now s :
  server_inv s ->
  exists s' rs ws, poll remote outcome rkey h accepts ae (S (Z.to_nat N)) now s = Some (s', rs, ws) /\
    NoDup (Protocol.in_slot_index <$> rs) /\
    forall cs, Scheduler.next_group_connections (scheduler s) = Some cs ->
      (forall c, c ∈ cs -> outcome c = AllRead /\ 0 <= batch s c <= spc) ->
      forall c t r, c ∈ cs -> 0 <= t < batch s c ->
        (c * spc + t <> N - 1 \/ forall c, c ∈ cs -> default None (event_buffer_addrs s !! Z.to_nat c) = None) ->
        (Protocol.check_slot_for_request (remote c (warmup_addr s c + t * Protocol.MESSAGE_BLOCK_SIZE)) 0 (c * spc + t)).1
          = Some r -> r ∈ rs.
Proof.
  intros Hi. set (s0 := with_flush s []).
  assert (server_inv s0) as Hi0 by (eapply keeps_inv; [apply keeps_flush|exact Hi]).
  destruct (poll_switch_total outcome ae now s0 Hi0) as (s1 & E & Hi1).
  destruct (loop_drains rkey h accepts s1 Hi1) as (s2 & rs & ws & El & Hrs & Hnd).
  unfold poll. fold s0. rewrite E. cbn [mbind option_bind]. rewrite El. cbn [mbind option_bind].
  eexists _, _, _. split; [reflexivity|]. split; [done|]. intros cs Ecs Hcs c t r Hc Ht Hev Hr.
  destruct (poll_switch_fetched outcome ae now s0 cs c t Hi0 Ecs Hcs Hc Ht Hev) as (s1' & sl & E' & _ & Hact & Hsl & Hd).
  rewrite E in E'. injection E' as <-. apply Hrs. exists (c * spc + t). split; [done|].
  eapply waiting_block; [done|]. rewrite Hd. exact Hr.
Qed.

End Fetch.

(** ** What a switch discards *)

Lemma clear_waits_nothing N p i r : fit N p -> ~ waiting (clear_pool_valid_flags p) i r.
Proof.
  intros Hf. unfold waiting, pool_check_slot. destruct (Pool.get_slot (clear_pool_valid_flags p) i) as [sl|] eqn:Eg; [|done].
  apply get_slot_elem in Eg. cbn in Eg. apply list_elem_of_fmap in Eg as (sl0 & -> & Hin).
  pose proof (proj1 (Forall_forall _ _) (fit_slots _ _ Hf) _ Hin) as [HL _]. cbn [clear_slot with_data Pool.data].
  change (Z.to_nat (Protocol.MESSAGE_BLOCK_SIZE - 4)) with 4076%nat.
  pose proof (Protocol.check_cleared (write_bytes (Pool.data sl0) 0 (le_bytes 4 0)) 0 i) as Hc.
  change (0 + 4076)%nat with 4076%nat in Hc. rewrite Hc; [done|]. rewrite length_write_bytes; lia.
Qed.

(** What a time-based switch does with requests.  When the slice of the current
    group is over, exactly the requests of the warmup pool wait afterwards, and the
    new warmup pool holds none: a request of the old group that was not polled yet is
    in neither pool, and no client is told within the operation. *)
Theorem switch_discards N max G now s :
  server_inv N max G s -> Scheduler.should_switch now (scheduler s) = true ->
  exists s' q old, perform_context_switch now s = Some (s', Some (q, old)) /\
    Scheduler.current_group_connections (scheduler s) = Some old /\
    (forall i r, waiting (processing_pool s') i r <-> waiting (warmup_pool s) i r) /\
    (forall i r, ~ waiting (warmup_pool s') i r) /\
    pending_context_switch s' = pending_context_switch s.
Proof.
  intros Hi Hsw. unfold perform_context_switch. rewrite Hsw.
  destruct (current_connections _ (iv_sched _ _ _ _ Hi)) as [old ->]. cbn [mbind option_bind].
  destruct (switch_inv N max G true now s Hi) as (sc & q & E & _). cbn in E. rewrite E. cbn [mbind option_bind].
  eexists _, q, old. split; [reflexivity|]. split; [done|]. split; [done|]. split; [|done].
  intros i r. apply (clear_waits_nothing N). by apply (iv_pools _ _ _ _ Hi).
Qed.

(** A batch that was seen is not new again: a fetch that fails afterwards loses it. *)
Lemma seen_batch_lost max e c e' entry :
  entries_ok max e -> 0 <= c -> has_new_batch e c = Some (e', Some entry) -> new_batch e' c = None.
Proof.
  intros (H1 & H2 & H3) Hc. unfold new_batch, has_new_batch. destruct (Z.leb_spec (num_entries e) c) as [|Hlt]; [done|].
  destruct (last_seqs e !! Z.to_nat c) as [l|] eqn:El; [|done]. cbn [mbind option_bind].
  destruct (_ && _) eqn:Eg; [|done]. intros [= <- <-]. cbn [num_entries last_seqs].
  rewrite (proj2 (Z.leb_gt _ _)) by done. rewrite list_lookup_insert_eq by (by eapply lookup_lt_Some).
  cbn [mbind option_bind]. unfold read_entry. cbn [num_entries ep_buffer]. by rewrite Z.ltb_irrefl.
Qed.

(** ** Concrete runs

    Two groups with one connection each, four slots: the client of connection 1
    announces one block. *)

Definition added s : RpcServer := match add_connection 2 s with Some (s', _) => s' | None => s end.

Definition client_endpoint (events : Z) : ClientEndpoint := mkClientEndpoint 0 0 events 7 8192 9 4.

Definition announce (n q : Z) s : RpcServer :=
  let e := endpoint_entries s in
  with_entries s (mkEntries (Protocol.entry_write_to (Protocol.mkEndpointEntry 8192 n q) (ep_buffer e) 16)
                    (num_entries e) (last_seqs e)).

Definition demo_server (events n : Z) : RpcServer :=
  announce n 1 (connect (added (added (server_new 4096 65536 131072 4 4080 2 2 100 0))) 1 (client_endpoint events)).1.

Definition demo_header (id : Z) : Protocol.RequestHeader := Protocol.request_new id 3 2 640 11 1.
Definition demo_block (id : Z) : list Z := Protocol.filled_block (demo_header id) [65; 66] (replicate 4080 0) 0.
Definition demo_remote (c a : Z) : list Z := demo_block (a / 4080).
Definition demo_incoming (id i : Z) : IncomingRequest := Protocol.mkIncoming id 3 [65; 66] 640 11 1 i 0.

Lemma length_filled_block h payload buf :
  (4080 <= length buf)%nat -> length (Protocol.filled_block h payload buf 0) = length buf.
Proof.
  intros H. unfold Protocol.filled_block. assert (length (Protocol.request_write_to h buf 0) = length buf) as L1
    by (apply Protocol.length_request_write; lia).
  assert (length (write_bytes (Protocol.request_write_to h buf 0) (0 + 40) payload) = length buf) as L2
    by (rewrite length_write_bytes; lia).
  rewrite Protocol.length_trailer_write; lia.
Qed.

Lemma length_demo_block id : length (demo_block id) = 4080%nat.
Proof.
  assert (length (replicate 4080 0) = 4080%nat) as H by apply length_replicate.
  unfold demo_block. rewrite length_filled_block; rewrite H; done.
Qed.

Lemma length_demo_remote c a : length (demo_remote c a) = 4080%nat.
Proof. apply length_demo_block. Qed.

Lemma added_inv s : server_inv 4 2 2 s -> server_inv 4 2 2 (added s).
Proof.
  intros Hi. unfold added. destruct (add_connection 2 s) as [[s' o]|] eqn:E; [|done].
  eapply add_connection_inv; [lia|lia|exact Hi|exact E].
Qed.

Lemma announce_inv n q s : server_inv 4 2 2 s -> server_inv 4 2 2 (announce n q s).
Proof.
  intros Hi. eapply step_inv; [lia|lia|apply step_client_entry|exact Hi].
  destruct (iv_entries _ _ _ _ Hi) as (_ & _ & HL). apply length_write_bytes. rewrite HL. unfold ENTRY_SIZE. lia.
Qed.

Lemma demo_inv events n : server_inv 4 2 2 (demo_server events n).
Proof.
  apply announce_inv. eapply step_inv; [lia|lia|apply step_connect; lia|]. do 2 apply added_inv. apply server_new_inv; lia.
Qed.

Definition no_rkey : MessagePool -> Z := fun _ => 5.
Definition demo_poll (events n : Z) (outcome : Z -> BatchOutcome) : option (list IncomingRequest) :=
  '(_, rs, _) ← poll demo_remote outcome no_rkey NoHandler (fun _ => true) (fun _ => true) 5 50 (demo_server events n);
  Some rs.

Lemma demo_delivered :
  exists s' rs ws, poll demo_remote (fun _ => AllRead) no_rkey NoHandler (fun _ => true) (fun _ => true) 5 50
    (demo_server 0 1) = Some (s', rs, ws) /\ demo_incoming 2 2 ∈ rs.
Proof.
  destruct (poll_delivers 4 2 2 ltac:(lia) ltac:(lia) demo_remote length_demo_remote no_rkey NoHandler (fun _ => true)
    (fun _ => true) (fun _ => AllRead) 50 (demo_server 0 1) (demo_inv 0 1)) as (s' & rs & ws & E & _ & H).
  exists s', rs, ws. split; [exact E|]. apply (H [1]) with (c := 1) (t := 0).
  - vm_compute. reflexivity.
  - intros c ->%list_elem_of_singleton. split; [reflexivity|]. vm_compute. split; discriminate.
  - by apply list_elem_of_singleton.
  - vm_compute. split; [discriminate|reflexivity].
  - left. vm_compute. discriminate.
  - vm_compute. reflexivity.
Defined.

(** With an event buffer, the event is built over the block that was read into the
    last slot: the handler is given a request of type 0 without payload, whose id is
    made of the event's numbers. *)
Lemma event_overwrites_request :
  demo_poll 0 2 (fun _ => AllRead) = Some [demo_incoming 2 2; demo_incoming 3 3] /\
  demo_poll 512 2 (fun _ => AllRead) = Some [demo_incoming 2 2; Protocol.mkIncoming 4294967297 0 [] 640 11 1 3 0].
Proof. vm_compute. split; reflexivity. Qed.

(** A batch whose reads fail is handled neither then nor by the next poll. *)
Lemma failed_batch_unhandled :
  demo_poll 0 1 (fun _ => Failed []) = Some [] /\
  ('(s, _, _) ← poll demo_remote (fun _ => Failed []) no_rkey NoHandler (fun _ => true) (fun _ => true) 5 50 (demo_server 0 1);
   '(_, rs, _) ← poll demo_remote (fun _ => AllRead) no_rkey NoHandler (fun _ => true) (fun _ => true) 5 60 s;
   Some rs) = Some [].
Proof. vm_compute. split; reflexivity. Qed.

(** A request of the current group that a client wrote while others were fetched. *)
Definition demo_waiting : RpcServer :=
  let s := demo_server 0 1 in
  match Pool.get_slot (processing_pool s) 0 with
  | Some sl => with_pools s (Pool.put_slot (processing_pool s) 0 (with_data sl (demo_block 9))) (warmup_pool s)
  | None => s
  end.

Lemma demo_waiting_inv : server_inv 4 2 2 demo_waiting.
Proof.
  unfold demo_waiting. destruct (Pool.get_slot _ 0) as [sl|] eqn:E; [|apply demo_inv].
  eapply step_inv; [lia|lia|apply (step_client_write 2 (demo_server 0 1) 0 sl); [exact E|]|apply demo_inv].
  apply length_demo_block.
Qed.

Lemma switch_discards_witness :
  waiting (processing_pool demo_waiting) 0 (demo_incoming 9 0) /\
  exists s' q old, perform_context_switch 200 demo_waiting = Some (s', Some (q, old)) /\
    ~ waiting (processing_pool s') 0 (demo_incoming 9 0) /\ ~ waiting (warmup_pool s') 0 (demo_incoming 9 0).
Proof.
  split; [vm_compute; reflexivity|].
  destruct (switch_discards 4 2 2 200 demo_waiting demo_waiting_inv ltac:(vm_compute; reflexivity))
    as (s' & q & old & E & _ & H1 & H2 & _).
  exists s', q, old. split; [exact E|]. split; [|apply H2]. rewrite H1. vm_compute. discriminate.
Defined.

Lemma process_drains_witness :
  exists s' rs ws, process_loop no_rkey NoHandler (fun _ => true) (S (length (active demo_waiting))) demo_waiting
    = Some (s', rs, ws) /\ demo_incoming 9 0 ∈ rs.
Proof.
  destruct (process_drains no_rkey NoHandler (fun _ => true) demo_waiting
    (proj1 (inv_server_ok 4 2 2 ltac:(lia) ltac:(lia) _ demo_waiting_inv))) as (s' & rs & ws & E & _ & H & _).
  exists s', rs, ws. split; [exact E|]. apply H. exists 0. split; vm_compute; [|reflexivity]. constructor.
Defined.

End ServerWarmup.
