(* ===== verification/Client.v ===== *)
(** * Client: the connection state machine of [scalerpc]

    [RpcClient], its connection states and pending requests of
    [scalerpc/src/client.rs].  A client prepares requests in a warmup buffer that the
    server reads, or writes them to the slots of the server's processing pool under a
    window of credits.  Whether a send queue accepts a work request and the values of
    the verbs library (remote keys, the address of the warmup buffer) are arguments. *)
From S2P Require Import Prelude Protocol Mapping Pool Server.

Module Client.

Notation MessagePool := Pool.MessagePool.
Notation VirtualMapping := Mapping.VirtualMapping.
Notation WarmupBuffer := Protocol.WarmupBuffer.
Notation ResponseHeader := Protocol.ResponseHeader.
Notation Write := Server.Write.

Inductive ClientState : Type := Connected | Warmup | Process | Idle.
#[export] Instance ClientState_eq_dec : EqDecision ClientState.
Proof. solve_decision. Defined.

(** ** Event buffer *)

Record EventBuffer : Type := mkEvents { eb_buffer : list Z; last_sequence : Z }.

Definition events_new : EventBuffer := mkEvents (replicate 16 0) 0.

(** [EventBuffer::poll]. *)
Definition events_poll (b : EventBuffer) : EventBuffer * option (Z * Z) :=
  let event := Protocol.event_read_from (eb_buffer b) 0 in
  if Protocol.event_is_valid event && (last_sequence b <? Protocol.ev_sequence event)
  then (mkEvents (eb_buffer b) (Protocol.ev_sequence event),
        Some (Protocol.ev_sequence event, Protocol.ev_fetched_seq event))
  else (b, None).

Definition events_clear (b : EventBuffer) : EventBuffer := mkEvents (replicate 16 0) 0.

(** ** Connection state

    The fields of [ConnectionState], by what they are for. *)

(** The announcement of warmup requests. *)
Record Notice : Type := mkNotice {
  warmup_buffer : WarmupBuffer;
  endpoint_entry_addr : Z;
  endpoint_entry_rkey : Z;
  endpoint_entry_seq : Z;
  last_notified_count : Z;
  pending_notification : bool;
}.

(** Flow control of direct calls. *)
Record Window : Type := mkWindow {
  server_pool_num_slots : Z;
  direct_slot_index : Z;
  next_slot_seq : Z;
  last_acked_seq : Z;
  credit_window_size : Z;
}.

(** Slots of the client's pool set aside for direct calls. *)
Record Rings : Type := mkRings {
  send_slots : list Z;
  direct_send_slot_index : Z;
  response_slots : list Z;
  response_slot_index : Z;
}.

Record ConnectionState : Type := mkConnState {
  state : ClientState;
  notice : Notice;
  event_buffer : EventBuffer;
  server_conn_id : Z;
  window : Window;
  last_context_switch_seq : Z;
  last_acknowledged_seq : Z;
  rings : Rings;
}.
Implicit Types (x : ConnectionState) (w : Window) (n : Notice).

(** [ConnectionState] of [add_connection]. *)
Definition conn_state_new (send response : list Z) : ConnectionState :=
  mkConnState Connected (mkNotice (Protocol.warmup_new 16) 0 0 0 0 false) events_new 0 (mkWindow 64 0 0 0 64) 0 0
    (mkRings send 0 response 0).

Definition with_state x (s : ClientState) : ConnectionState :=
  mkConnState s (notice x) (event_buffer x) (server_conn_id x) (window x) (last_context_switch_seq x)
    (last_acknowledged_seq x) (rings x).
Definition with_notice x n : ConnectionState :=
  mkConnState (state x) n (event_buffer x) (server_conn_id x) (window x) (last_context_switch_seq x)
    (last_acknowledged_seq x) (rings x).
Definition with_events x (b : EventBuffer) : ConnectionState :=
  mkConnState (state x) (notice x) b (server_conn_id x) (window x) (last_context_switch_seq x)
    (last_acknowledged_seq x) (rings x).
Definition with_window x w : ConnectionState :=
  mkConnState (state x) (notice x) (event_buffer x) (server_conn_id x) w (last_context_switch_seq x)
    (last_acknowledged_seq x) (rings x).
Definition with_seqs x (switch ack : Z) : ConnectionState :=
  mkConnState (state x) (notice x) (event_buffer x) (server_conn_id x) (window x) switch ack (rings x).
Definition with_rings x (r : Rings) : ConnectionState :=
  mkConnState (state x) (notice x) (event_buffer x) (server_conn_id x) (window x) (last_context_switch_seq x)
    (last_acknowledged_seq x) r.
Definition with_direct w (i : Z) : Window :=
  mkWindow (server_pool_num_slots w) i (next_slot_seq w) (last_acked_seq w) (credit_window_size w).

(** A batch was fetched: the announcement is over and the buffer is empty again. *)
Definition acknowledged n : Notice :=
  mkNotice (Protocol.warmup_clear (warmup_buffer n)) (endpoint_entry_addr n) (endpoint_entry_rkey n)
    (endpoint_entry_seq n) 0 false.

(** A context switch event: [direct] is the slot index to go on with once the batch
    it acknowledges is the one announced, which [check_events] and
    [process_response_context_switch] choose differently. *)
Definition handle_switch (direct : Notice -> Z) (sched_seq fetched_seq : Z) x : ConnectionState :=
  if 0 <? fetched_seq
  then
    if fetched_seq <=? last_acknowledged_seq x then x
    else
      let x := with_seqs x (if last_context_switch_seq x <? sched_seq then sched_seq else last_context_switch_seq x)
                 fetched_seq in
      if fetched_seq =? endpoint_entry_seq (notice x)
      then with_notice (with_window x (with_direct (window x) (direct (notice x)))) (acknowledged (notice x))
      else x
  else
    if sched_seq <=? last_context_switch_seq x then x
    else
      let x := with_seqs x sched_seq (last_acknowledged_seq x) in
      if decide (state x = Process) then with_state x Idle else x.

(** [check_events] on a connection. *)
Definition check_events x : ConnectionState :=
  let '(b, o) := events_poll (event_buffer x) in
  let x := with_events x b in
  match o with
  | Some (sched_seq, fetched_seq) => handle_switch last_notified_count sched_seq fetched_seq x
  | None => x
  end.

(** ** The window of credits *)

Inductive Error : Type :=
| ConnectionNotFound (c : Z)
| NoCredits
| RemoteNotConfigured
| PoolNotConfigured
| InvalidSlotIndex (i : Z)
| NoFreeSlots
| PoolError (e : Pool.Error)
| MappingError (e : Mapping.Error)
| MaxConnections
| EmitFailed.

(** [call_direct] up to the claim of a sequence number and a server slot, for the
    remote address of the mapping entry. *)
Definition claim_slot (remote_base_addr : Z) w : Window * result (Z * Z) Error :=
  let next := next_slot_seq w in
  let size := credit_window_size w in
  if (0 <? size) && (size <=? u64 (next - last_acked_seq w)) then (w, Err NoCredits)
  else if remote_base_addr =? 0 then (w, Err RemoteNotConfigured)
  else if server_pool_num_slots w =? 0 then (w, Err PoolNotConfigured)
  else
    let slot := if 0 <? size then next mod size else direct_slot_index w mod server_pool_num_slots w in
    (mkWindow (server_pool_num_slots w) (u64 (direct_slot_index w + 1)) (u64 (next + 1)) (last_acked_seq w) size,
     Ok (next, slot)).

Definition process_credit_ack (acked : Z) w : Window :=
  if last_acked_seq w <? acked
  then mkWindow (server_pool_num_slots w) (direct_slot_index w) (next_slot_seq w) acked (credit_window_size w)
  else w.

Definition credit_status w : Z * Z * Z :=
  let in_flight := u64 (next_slot_seq w - last_acked_seq w) in
  (in_flight, saturating_sub (credit_window_size w) in_flight, credit_window_size w).

(** ** The client *)

(** [next_req_id] is the value of the process-wide counter [NEXT_REQ_ID] when this
    client next takes one; other clients of the process may advance it between two
    operations, and no theorem depends on the values in between. *)
Record RpcClient : Type := mkClient {
  pool : MessagePool;
  mapping : VirtualMapping;
  conns : list ConnectionState;
  needs_flush : list Z;
  next_req_id : Z;
}.
Implicit Types (c : RpcClient).

Definition client_new (addr num_slots data_size : Z) : RpcClient :=
  mkClient (Pool.pool_new addr num_slots data_size) Mapping.new [] [] 1.

Definition with_conn c (i : Z) x : RpcClient :=
  mkClient (pool c) (mapping c) (<[Z.to_nat i := x]> (conns c)) (needs_flush c) (next_req_id c).
Definition with_pool c (p : MessagePool) : RpcClient :=
  mkClient p (mapping c) (conns c) (needs_flush c) (next_req_id c).
Definition with_mapping c (m : VirtualMapping) : RpcClient :=
  mkClient (pool c) m (conns c) (needs_flush c) (next_req_id c).
Definition mark_needs_flush c (i : Z) : RpcClient :=
  if decide (i ∈ needs_flush c) then c
  else mkClient (pool c) (mapping c) (conns c) (needs_flush c ++ [i]) (next_req_id c).
Definition take_req_id c : RpcClient * Z :=
  (mkClient (pool c) (mapping c) (conns c) (needs_flush c) (u64 (next_req_id c + 1)), next_req_id c).

Definition conn c (i : Z) : option ConnectionState := conns c !! Z.to_nat i.

(** The loops of [add_connection] that set slots aside. *)
Fixpoint take_slots (n : nat) (p : MessagePool) : option (MessagePool * list Z) :=
  match n with
  | O => Some (p, [])
  | S n =>
      '(p, o) ← Pool.alloc p;
      match o with
      | Ok i => '(p, l) ← take_slots n p; Some (p, i :: l)
      | Err _ => Some (p, [])
      end
  end.

(** [add_connection] after the queue pair was created. *)
Definition add_connection (max_connections : Z) c : option (RpcClient * result Z Error) :=
  let i := Z.of_nat (length (conns c)) in
  if max_connections <=? i then Some (c, Err MaxConnections)
  else
    let slots_per_conn := Pool.num_slots (pool c) / max_connections in
    let m := Mapping.register_connection i (mapping c) in
    match Server.bind_range m i (i * slots_per_conn) (Z.to_nat slots_per_conn) with
    | (m, Err e) => Some (with_mapping c m, Err (MappingError e))
    | (m, Ok _) =>
        '(p, send) ← take_slots (Z.to_nat (Z.max (Z.min 2048 (Pool.free_count (pool c) / 4)) 1)) (pool c);
        '(p, response) ← take_slots (Z.to_nat (Z.max (Z.min 2048 (Pool.free_count p / 2)) 8)) p;
        Some (mkClient p m (conns c ++ [conn_state_new send response]) (needs_flush c) (next_req_id c), Ok i)
    end.

(** What [connect] reads of the server's endpoint. *)
Record ServerEndpoint : Type := mkServerEndpoint {
  se_slot_addr : Z;
  se_slot_rkey : Z;
  se_entry_addr : Z;
  se_entry_rkey : Z;
  se_conn_id : Z;
  se_pool_num_slots : Z;
}.

Definition connect c (i : Z) (e : ServerEndpoint) : RpcClient * result unit Error :=
  match conn c i with
  | None => (c, Err (ConnectionNotFound i))
  | Some x =>
      match Mapping.set_remote_slot i (se_slot_addr e) (se_slot_rkey e) (mapping c) with
      | (m, Err err) => (with_mapping c m, Err (MappingError err))
      | (m, Ok _) =>
          let n := notice x in
          let n := mkNotice (warmup_buffer n) (se_entry_addr e) (se_entry_rkey e) (endpoint_entry_seq n)
                     (last_notified_count n) (pending_notification n) in
          let w := window x in
          let w := if 0 <? se_pool_num_slots e
                   then mkWindow (se_pool_num_slots e) (direct_slot_index w) (next_slot_seq w) (last_acked_seq w)
                          (se_pool_num_slots e)
                   else w in
          let x := mkConnState (state x) n (event_buffer x) (se_conn_id e) w (last_context_switch_seq x)
                     (last_acknowledged_seq x) (rings x) in
          (with_conn (with_mapping c m) i x, Ok tt)
      end
  end.

Section Sending.
(** The address of a connection's warmup buffer, the remote key of the pool, and
    whether the send queue of a connection accepts a work request. *)
Context (warmup_addr : Z -> Z) (rkey : Z) (accepts : Z -> bool).

(** [notify_warmup_ready]: the entry for the server, when one is written. *)
Definition notify_warmup_ready c (i : Z) : option (RpcClient * result (option Protocol.EndpointEntry) Error) :=
  match conn c i with
  | None => Some (c, Err (ConnectionNotFound i))
  | Some x =>
      let n := notice x in
      let batch_size := u32 (Protocol.wb_request_count (warmup_buffer n)) in
      if batch_size =? 0 then Some (c, Ok None)
      else if endpoint_entry_addr n =? 0 then Some (c, Ok None)
      else
        let new_seq := u32 (endpoint_entry_seq n + 1) in
        let n := mkNotice (warmup_buffer n) (endpoint_entry_addr n) (endpoint_entry_rkey n) new_seq
                   (last_notified_count n) (pending_notification n) in
        let c := with_conn c i (with_notice x n) in
        let entry := Protocol.mkEndpointEntry (warmup_addr i) batch_size new_seq in
        '(p, o) ← Pool.alloc (pool c);
        match o with
        | Err e => Some (with_pool c p, Err (PoolError e))
        | Ok k =>
            sl ← Pool.get_slot p k;
            let p := Pool.put_slot p k (Server.with_data sl (Protocol.entry_write_to entry (Pool.data sl) 0)) in
            let c := with_pool c (Pool.free_slot_by_index k p) in
            if accepts i then Some (mark_needs_flush c i, Ok (Some entry)) else Some (c, Err EmitFailed)
        end
  end.

Definition notified n (count : Z) : Notice :=
  mkNotice (warmup_buffer n) (endpoint_entry_addr n) (endpoint_entry_rkey n) (endpoint_entry_seq n) count true.

(** [flush_warmup]: the number of requests announced and the entry written. *)
Definition flush_warmup c (i : Z) : option (RpcClient * result (Z * option Protocol.EndpointEntry) Error) :=
  match conn c i with
  | None => Some (c, Err (ConnectionNotFound i))
  | Some x =>
      if pending_notification (notice x) then Some (c, Ok (0, None))
      else
        let count := Protocol.wb_request_count (warmup_buffer (notice x)) in
        if last_notified_count (notice x) <? count
        then
          '(c, o) ← notify_warmup_ready c i;
          match o with
          | Err e => Some (c, Err e)
          | Ok entry =>
              x ← conn c i;
              Some (with_conn c i (with_notice x (notified (notice x) count)), Ok (count, entry))
          end
        else Some (c, Ok (0, None))
  end.

(** [flush_all_warmup]: connections from [i] on. *)
Fixpoint flush_conns (k : nat) c (i : Z) : option (RpcClient * Z) :=
  match k with
  | O => Some (c, 0)
  | S k =>
      '(c, o) ← flush_warmup c i;
      '(c, total) ← flush_conns k c (i + 1);
      Some (c, total + match o with Ok (count, _) => count | Err _ => 0 end)
  end.
Definition flush_all_warmup c : option (RpcClient * Z) := flush_conns (length (conns c)) c 0.

Definition check_all_events c : RpcClient :=
  mkClient (pool c) (mapping c) (check_events <$> conns c) (needs_flush c) (next_req_id c).
Definition clear_needs_flush c : RpcClient := mkClient (pool c) (mapping c) (conns c) [] (next_req_id c).

(** [poll] and [poll_minimal], without the completions they drain. *)
Definition poll c : option RpcClient :=
  '(c, _) ← flush_all_warmup (check_all_events c); Some (clear_needs_flush c).
Definition poll_minimal c : RpcClient := clear_needs_flush (check_all_events c).

(** ** Calls *)

Record PendingRpc : Type := mkPending {
  pr_slot_index : Z;
  pr_req_id : Z;
  pr_conn_id : Z;
  pr_send_slot_index : option Z;
}.

Definition SLOT_SIZE : Z := 4096.

(** The block of a request in a slot; [None] when the payload is copied past it. *)
Definition write_block (sl : Pool.MessageSlot) (h : Protocol.RequestHeader) (payload : list Z) : option Pool.MessageSlot :=
  let len := Protocol.REQUEST_HEADER_SIZE + Z.of_nat (length payload) in
  if Z.of_nat (length (Pool.data sl)) <? len then None
  else Some (Server.with_data sl (Protocol.trailer_write_to
         (write_bytes (Protocol.request_write_to h (Pool.data sl) 0) (Z.to_nat Protocol.REQUEST_HEADER_SIZE) payload)
         0 (u32 len))).

(** [call_direct]; [None] is the remainder by an empty ring or a copy past the slot. *)
Definition call_direct c (i rpc_type : Z) (payload : list Z) : option (RpcClient * result (PendingRpc * Write) Error) :=
  match conn c i with
  | None => Some (c, Err (ConnectionNotFound i))
  | Some x =>
      match Mapping.get_connection i (mapping c) with
      | None =>
          let w := window x in
          if (0 <? credit_window_size w) && (credit_window_size w <=? u64 (next_slot_seq w - last_acked_seq w))
          then Some (c, Err NoCredits) else Some (c, Err (ConnectionNotFound i))
      | Some entry =>
          match claim_slot (Mapping.remote_slot_addr entry) (window x) with
          | (_, Err e) => Some (c, Err e)
          | (w, Ok (seq, server_slot)) =>
              let x := with_window x w in
              let r := rings x in
              resp ← response_slots r !! Z.to_nat (response_slot_index r mod Z.of_nat (length (response_slots r)));
              let r := mkRings (send_slots r) (direct_send_slot_index r) (response_slots r) (u64 (response_slot_index r + 1)) in
              let c := with_conn c i (with_rings x r) in
              match Pool.slot_data_addr (pool c) resp with
              | None => Some (c, Err (InvalidSlotIndex resp))
              | Some response_slot_addr =>
                  let '(c, req_id) := take_req_id c in
                  let header := Protocol.request_new_with_seq req_id rpc_type (u16 (Z.of_nat (length payload)))
                                  response_slot_addr rkey (server_conn_id x) seq in
                  let send_idx := direct_send_slot_index r mod Z.of_nat (length (send_slots r)) in
                  k ← send_slots r !! Z.to_nat send_idx;
                  let c := with_conn c i (with_rings x (mkRings (send_slots r) (send_idx + 1) (response_slots r)
                                                          (response_slot_index r))) in
                  match Pool.get_slot (pool c) k, Pool.slot_data_addr (pool c) k with
                  | Some sl, Some local =>
                      sl ← write_block sl header payload;
                      let c := with_pool c (Pool.put_slot (pool c) k sl) in
                      let write := Server.mkWrite (Mapping.remote_slot_addr entry + server_slot * SLOT_SIZE)
                                     (Mapping.remote_slot_rkey entry) local Protocol.MESSAGE_BLOCK_SIZE req_id in
                      if accepts i then Some (mark_needs_flush c i, Ok (mkPending resp req_id i None, write))
                      else Some (c, Err EmitFailed)
                  | _, _ => Some (c, Err (InvalidSlotIndex k))
                  end
              end
          end
      end
  end.

(** Leaving [Idle] or [Connected] empties the warmup buffer. *)
Definition enter_warmup x : ConnectionState :=
  match state x with
  | Idle | Connected =>
      let n := notice x in
      with_state (with_notice x (mkNotice (Protocol.warmup_clear (warmup_buffer n)) (endpoint_entry_addr n)
                                   (endpoint_entry_rkey n) (endpoint_entry_seq n) 0 (pending_notification n))) Warmup
  | _ => x
  end.

(** [send_warmup]; [None] is the panic of [alloc] or a copy past the buffer. *)
Definition send_warmup c (i rpc_type : Z) (payload : list Z) : option (RpcClient * result PendingRpc Error) :=
  match conn c i with
  | None => Some (c, Err (ConnectionNotFound i))
  | Some x =>
      let x := enter_warmup x in
      let c := with_conn c i x in
      let n := notice x in
      if pending_notification n then Some (c, Err NoFreeSlots)
      else if Protocol.warmup_capacity (warmup_buffer n) <=? Protocol.wb_request_count (warmup_buffer n)
      then Some (c, Err NoFreeSlots)
      else
        '(p, o) ← Pool.alloc (pool c);
        match o with
        | Err e => Some (with_pool c p, Err (PoolError e))
        | Ok k =>
            addr ← Pool.slot_data_addr p k;
            let '(c, req_id) := take_req_id (with_pool c p) in
            let header := Protocol.request_new req_id rpc_type (u16 (Z.of_nat (length payload))) addr rkey
                            (server_conn_id x) in
            '(b, o) ← Protocol.write_request (warmup_buffer n) header payload;
            let n := mkNotice b (endpoint_entry_addr n) (endpoint_entry_rkey n) (endpoint_entry_seq n)
                       (last_notified_count n) (pending_notification n) in
            let c := with_conn c i (with_notice x n) in
            match o with
            | Ok _ => Some (c, Ok (mkPending k req_id i None))
            | Err _ => Some (with_pool c (Pool.free_slot_by_index k (pool c)), Err NoFreeSlots)
            end
        end
  end.

(** [call_async]: by the state after pending events. *)
Definition call_async c (i rpc_type : Z) (payload : list Z) : option (RpcClient * result PendingRpc Error) :=
  match conn c i with
  | None => send_warmup c i rpc_type payload
  | Some x =>
      let x := check_events x in
      let c := with_conn c i x in
      match state x with
      | Process =>
          '(c, o) ← call_direct c i rpc_type payload;
          Some (c, match o with Ok (p, _) => Ok p | Err e => Err e end)
      | _ => send_warmup c i rpc_type payload
      end
  end.

End Sending.

(** ** Responses *)

Record RpcResponse : Type := mkResponse {
  rr_header : ResponseHeader;
  rr_payload : list Z;
  rr_context_switch_seq : option Z;
  rr_processing_pool_info : option (Z * Z);
  rr_acked_slot_seq : option Z;
}.

(** [PendingRpc::poll]. *)
Definition pending_poll (p : MessagePool) (r : PendingRpc) : option RpcResponse :=
  sl ← Pool.get_slot p (pr_slot_index r);
  if negb (le_value (read_bytes (Pool.data sl) 0 4) =? Protocol.RESPONSE_MAGIC) then None
  else
    let h := Protocol.response_read_from (Pool.data sl) 0 in
    if Protocol.rs_req_id h =? pr_req_id r
    then Some (mkResponse h
           (read_bytes (Pool.data sl) (Z.to_nat Server.RESPONSE_HEADER_SIZE) (Z.to_nat (Protocol.rs_payload_len h)))
           (if Protocol.has_context_switch h then Some (Protocol.rs_context_switch_seq h) else None)
           (if Protocol.has_processing_pool_info h
            then Some (Protocol.rs_processing_pool_addr h, Protocol.rs_processing_pool_rkey h) else None)
           (if Protocol.has_credit_ack h then Some (Protocol.get_acked_slot_seq h) else None))
    else None.

(** [RpcResponse::context_switch_seq] and [fetched_seq]. *)
Definition context_switch_seq (r : RpcResponse) : option Z := (fun v => Z.land v U32_MAX) <$> rr_context_switch_seq r.
Definition fetched_seq (r : RpcResponse) : option Z := (fun v => u32 (Z.shiftr v 32)) <$> rr_context_switch_seq r.

(** [process_response_context_switch]. *)
Definition process_response_context_switch c (i : Z) (r : RpcResponse) : RpcClient :=
  let c := match rr_processing_pool_info r, conn c i with
           | Some (addr, key), Some x =>
               match Mapping.set_remote_slot i addr key (mapping c) with
               | (m, Ok _) => with_conn (with_mapping c m) i (with_state x Process)
               | (m, Err _) => with_mapping c m
               end
           | _, _ => c
           end in
  match context_switch_seq r, fetched_seq r, conn c i with
  | Some sched, Some fetched, Some x => with_conn c i (handle_switch (fun _ => 0) sched fetched x)
  | _, _, _ => c
  end.

(** [poll_pending]. *)
Definition poll_pending c (r : PendingRpc) : RpcClient * option RpcResponse :=
  match pending_poll (pool c) r with
  | None => (c, None)
  | Some resp =>
      let c := process_response_context_switch c (pr_conn_id r) resp in
      let c := match rr_acked_slot_seq resp, conn c (pr_conn_id r) with
               | Some acked, Some x => with_conn c (pr_conn_id r) (with_window x (process_credit_ack acked (window x)))
               | _, _ => c
               end in
      (c, Some resp)
  end.

(** [PendingRpc::release] and [drop]. *)
Definition pending_release (p : MessagePool) (r : PendingRpc) : MessagePool := Pool.free_slot_by_index (pr_slot_index r) p.
Definition pending_drop (p : MessagePool) (r : PendingRpc) : MessagePool :=
  let p := match Pool.get_slot p (pr_slot_index r) with
           | Some sl => Pool.put_slot p (pr_slot_index r)
                          (Server.with_data sl (write_bytes (Pool.data sl) 0 (le_bytes 4 0)))
           | None => p
           end in
  let p := Pool.free_slot_by_index (pr_slot_index r) p in
  match pr_send_slot_index r with Some k => Pool.free_slot_by_index k p | None => p end.

(** [RpcResponse::copy_payload] to a buffer of [n] bytes. *)
Definition copy_payload (r : RpcResponse) (n : nat) : list Z := take n (rr_payload r).

End Client.
