(* ===== verification/ClientProps.v ===== *)
(** * ClientProps: flow control and the warmup protocol of the [scalerpc] client

    The window keeps the slots of requests in flight apart, announced requests stay
    in place until the server has them, and calls and answers pass between client and
    server unchanged. *)
From S2P Require Import Prelude Protocol Mapping Pool Scheduler Server ServerProps ServerInv ServerWarmup Client.

Module ClientProps.
Import Client.

(** ** The window keeps slots apart

    One connection: the client, the requests written and not processed, the server's
    record of processed sequence numbers, and the acknowledgements sent, which the
    client may see late, in any order and more than once. *)
Record Credits : Type := mkCredits {
  client : Window;
  unprocessed : list Z;
  server_seqs : list Z;
  acks : list Z;
}.

(** The window after [connect] to a server with [W] slots. *)
Definition window_new (W : Z) : Window := mkWindow W 0 0 0 W.

Inductive credit_step (addr conn_id : Z) : Credits -> Credits -> Prop :=
| credit_call c c' us ss ak q slot :
    claim_slot addr c = (c', Ok (q, slot)) -> q + 1 < 2 ^ 64 ->
    credit_step addr conn_id (mkCredits c us ss ak) (mkCredits c' (us ++ [q]) ss ak)
| credit_process c q us ss ss' ak a :
    Server.ack_seq ss conn_id q = (ss', a) ->
    credit_step addr conn_id (mkCredits c (q :: us) ss ak) (mkCredits c us ss' (a :: ak))
| credit_ack c us ss ak a :
    a ∈ ak -> credit_step addr conn_id (mkCredits c us ss ak) (mkCredits (process_credit_ack a c) us ss ak).

(** [n] requests were processed; an acknowledgement says less than that. *)
Record credit_inv (W conn_id : Z) (x : Credits) (n : Z) : Prop := mkCreditInv {
  ci_window : credit_window_size (client x) = W /\ 0 < W;
  ci_queue : unprocessed x = seqZ n (next_slot_seq (client x) - n);
  ci_range : 0 <= n <= next_slot_seq (client x) /\ next_slot_seq (client x) < 2 ^ 64;
  ci_acked : 0 <= last_acked_seq (client x) <= Z.max 0 (n - 1);
  ci_acks : forall a, a ∈ acks x -> 0 <= a <= Z.max 0 (n - 1);
  ci_server : default 0 (server_seqs x !! Z.to_nat conn_id) = Z.max 0 (n - 1);
  ci_some : acks x <> [] -> 0 < n;
  ci_room : next_slot_seq (client x) - n <= (if decide (n = 0) then W else W - 1);
}.

Lemma extend_lookup {A} (l : list A) n (x : A) k :
  default x (Server.extend l n x !! k) = default x (l !! k).
Proof.
  unfold Server.extend. destruct (decide (k < length l)%nat).
  - by rewrite lookup_app_l.
  - rewrite lookup_app_r by lia. rewrite (lookup_ge_None_2 l) by lia.
    destruct (replicate _ x !! _) as [y|] eqn:E; [|done]. by apply lookup_replicate in E as [-> _].
Qed.

(** Acknowledged is the largest sequence number processed so far. *)
Lemma ack_seq_max ss conn_id q :
  let '(ss', a) := Server.ack_seq ss conn_id q in
  a = Z.max (default 0 (ss !! Z.to_nat conn_id)) q /\ default 0 (ss' !! Z.to_nat conn_id) = a.
Proof.
  unfold Server.ack_seq. rewrite extend_lookup. set (old := default 0 (ss !! Z.to_nat conn_id)).
  destruct (Z.ltb_spec old q).
  - split; [lia|]. rewrite list_lookup_insert_eq; [done|]. unfold Server.extend. rewrite length_app, length_replicate. lia.
  - split; [lia|]. apply extend_lookup.
Qed.

Lemma credit_step_inv W addr conn_id x x' n :
  credit_step addr conn_id x x' -> credit_inv W conn_id x n -> exists n', credit_inv W conn_id x' n'.
Proof.
  intros Hstep [[HW1 HW2] Hq Hr Hla Haks Hsrv Hsome Hroom].
  destruct Hstep as [c c' us ss ak q slot Hc Hlt|c q us ss ss' ak a Hack|c us ss ak a Ha];
    cbn [client unprocessed server_seqs acks] in *.
  - exists n. unfold claim_slot in Hc. destruct (_ && _) eqn:Eg; [done|].
    destruct (_ =? 0); [done|]. destruct (_ =? 0); [done|]. injection Hc as <- <- <-.
    apply andb_false_iff in Eg. rewrite u64_small in Eg by lia. rewrite (u64_small (next_slot_seq c + 1)) by lia.
    rewrite HW1 in Eg.
    split; cbn [client unprocessed server_seqs acks next_slot_seq last_acked_seq credit_window_size]; try done; try lia.
    + rewrite Hq. replace (next_slot_seq c + 1 - n) with (next_slot_seq c - n + 1) by lia.
      rewrite (seqZ_app n (next_slot_seq c - n) 1) by lia. f_equal.
      replace (n + (next_slot_seq c - n)) with (next_slot_seq c) by lia. done.
    + case_decide; lia.
  - exists (n + 1). pose proof (ack_seq_max ss conn_id q) as Hm. rewrite Hack in Hm. destruct Hm as [Ha Hs'].
    assert (next_slot_seq c <> n) as Hne by (intros E; rewrite E, Z.sub_diag in Hq; done).
    rewrite seqZ_cons in Hq by lia. injection Hq as -> Hq. rewrite Hsrv in Ha.
    split; cbn [client unprocessed server_seqs acks]; try done; try lia.
    + rewrite Hq. f_equal; lia.
    + intros b [->|Hb]%elem_of_cons; [lia|]. specialize (Haks b Hb). lia.
    + repeat case_decide; lia.
  - exists n. pose proof (Haks a Ha) as Hba. unfold process_credit_ack.
    destruct (Z.ltb_spec (last_acked_seq c) a);
      (split; cbn [client unprocessed server_seqs acks next_slot_seq last_acked_seq credit_window_size]; try done; lia).
Qed.

Lemma credit_reach W addr conn_id x :
  0 < W -> rtc (credit_step addr conn_id) (mkCredits (window_new W) [] [] []) x ->
  exists n, credit_inv W conn_id x n.
Proof.
  intros HW Hr. refine (rtc_ind_r (fun x => exists n, credit_inv W conn_id x n) _ _ _ x Hr).
  - exists 0. split; cbn; try done; try lia.
    + by intros a ?%not_elem_of_nil.
    + case_decide; lia.
  - intros y z _ Hstep [n Hn]. by eapply credit_step_inv.
Qed.

Lemma window_slots_differ W n k :
  0 < W -> 0 <= n -> k <= W -> NoDup ((fun q => q mod W) <$> seqZ n k).
Proof.
  intros HW Hn Hk. apply NoDup_fmap_2_strong; [|apply NoDup_seqZ].
  intros x y Hx%elem_of_seqZ Hy%elem_of_seqZ E.
  assert ((x - y) mod W = 0) as Hz by (rewrite Zminus_mod, E, Z.sub_diag; by apply Z.mod_0_l; lia).
  apply Z.mod_divide in Hz as [z Hz]; [|lia]. assert (z = 0) by nia. lia.
Qed.

(** C7: the credit window.  A server that processes the requests of a connection in
    order: whatever the client has seen of its acknowledgements, the slots of the
    requests not processed yet are different, and the slot of the next request, when
    the window grants one, is none of them, so that no request is overwritten; and
    after the first request was processed at most [W - 1] are in flight, for the
    acknowledgement of sequence number 0 looks like none. *)
Theorem credit_window_safe W addr conn_id x :
  0 < W -> rtc (credit_step addr conn_id) (mkCredits (window_new W) [] [] []) x ->
  NoDup ((fun q => q mod W) <$> unprocessed x) /\
  (forall c' q slot, claim_slot addr (client x) = (c', Ok (q, slot)) -> q + 1 < 2 ^ 64 ->
     slot ∉ ((fun q => q mod W) <$> unprocessed x)) /\
  (acks x <> [] -> Z.of_nat (length (unprocessed x)) <= W - 1).
Proof.
  intros HW Hr. destruct (credit_reach _ _ _ _ HW Hr) as [n Hi].
  pose proof Hi as [[HW1 _] Hq Hr' Hla Haks Hsrv Hsome Hroom].
  assert (next_slot_seq (client x) - n <= W) as Hle by (case_decide; lia).
  split; [rewrite Hq; apply window_slots_differ; lia|]. split.
  - intros c' q slot Hc Hlt. destruct x as [c us ss ak]. cbn [client unprocessed] in *.
    destruct (credit_step_inv W addr conn_id _ _ n (credit_call addr conn_id c c' us ss ak q slot Hc Hlt) Hi) as [n' Hi'].
    pose proof Hi' as [_ Hq' Hr2 _ _ _ _ Hroom']. cbn [client unprocessed] in *.
    assert (NoDup ((fun q => q mod W) <$> (us ++ [q]))) as Hnd.
    { rewrite Hq'. apply window_slots_differ; [done|lia|]. case_decide; lia. }
    rewrite fmap_app in Hnd. apply NoDup_app in Hnd as (_ & Hdis & _). intros Hin. apply (Hdis _ Hin).
    unfold claim_slot in Hc. rewrite HW1 in Hc. destruct (_ && _); [done|]. destruct (_ =? 0); [done|].
    destruct (_ =? 0); [done|]. rewrite (proj2 (Z.ltb_lt 0 W)) in Hc by done. injection Hc as _ <- <-. cbn. set_solver.
  - intros Hak. rewrite Hq, length_seqZ.
    specialize (Hsome Hak). case_decide; lia.
Qed.


(** ** Announcements

    The counters of a connection: while an announcement is pending it covers every
    request of the buffer, and otherwise nothing is announced. *)
Record conn_ok (x : ConnectionState) : Prop := mkConnOk {
  co_buffer : Z.of_nat (length (Protocol.wb_buffer (warmup_buffer (notice x)))) = 65280;
  co_count : 0 <= Protocol.wb_request_count (warmup_buffer (notice x)) <= 16;
  co_notified : last_notified_count (notice x) =
    if pending_notification (notice x) then Protocol.wb_request_count (warmup_buffer (notice x)) else 0;
}.
Definition client_ok (c : RpcClient) : Prop := Forall conn_ok (conns c).

(** Whether two states have the same announcement, up to the endpoint entry. *)
Lemma conn_ok_notice x y : notice y = notice x -> conn_ok x -> conn_ok y.
Proof. intros E [H1 H2 H3]. by split; rewrite E. Qed.

Lemma capacity_ok x : conn_ok x -> Protocol.warmup_capacity (warmup_buffer (notice x)) = 16.
Proof. intros [H1 _ _]. unfold Protocol.warmup_capacity. by rewrite H1. Qed.

Lemma length_clear_flags buf n :
  (n * 4080 <= length buf)%nat -> length (Protocol.clear_flags buf n) = length buf.
Proof.
  induction n as [|n IH]; intros Hn; [done|]. cbn [Protocol.clear_flags].
  rewrite length_write_bytes; rewrite IH by lia; [done|]. rewrite Protocol.trailer_offset_val. unfold Protocol.block_offset, Protocol.MESSAGE_BLOCK_SIZE. lia.
Qed.

Lemma length_warmup_clear b :
  Z.of_nat (length (Protocol.wb_buffer b)) = 65280 ->
  Z.of_nat (length (Protocol.wb_buffer (Protocol.warmup_clear b))) = 65280.
Proof.
  intros H. cbn. unfold Protocol.warmup_capacity. rewrite H.
  change (Z.to_nat (65280 / Protocol.MESSAGE_BLOCK_SIZE)) with 16%nat. rewrite length_clear_flags; lia.
Qed.

Lemma acknowledged_ok x n : conn_ok x -> notice n = acknowledged (notice x) -> conn_ok n.
Proof.
  intros [H1 H2 H3] E. split; rewrite E; cbn; [by apply length_warmup_clear|lia|done].
Qed.

Lemma handle_switch_ok f a b x : conn_ok x -> conn_ok (handle_switch f a b x).
Proof.
  intros Hx. unfold handle_switch. case_match.
  - case_match; [done|]. case_match; [by apply (acknowledged_ok x)|by apply (conn_ok_notice x)].
  - case_match; [done|]. case_decide; by apply (conn_ok_notice x).
Qed.

Lemma check_events_ok x : conn_ok x -> conn_ok (check_events x).
Proof.
  intros Hx. unfold check_events. destruct (events_poll (event_buffer x)) as [b o].
  assert (conn_ok (with_events x b)) as Hx' by by apply (conn_ok_notice x).
  destruct o as [[q f]|]; [by apply handle_switch_ok|done].
Qed.

Lemma enter_warmup_ok x : conn_ok x -> conn_ok (enter_warmup x).
Proof.
  intros Hx. unfold enter_warmup. destruct Hx as [H1 H2 H3].
  destruct (state x); try by split. all: split; cbn; [by apply length_warmup_clear|lia|by destruct (pending_notification _)].
Qed.

Lemma write_request_ok b h payload b' o :
  Z.of_nat (length (Protocol.wb_buffer b)) = 65280 -> 0 <= Protocol.wb_request_count b <= 16 ->
  Protocol.write_request b h payload = Some (b', o) ->
  Z.of_nat (length (Protocol.wb_buffer b')) = 65280 /\ 0 <= Protocol.wb_request_count b' <= 16.
Proof.
  intros HL Hc. unfold Protocol.write_request.
  assert (Protocol.warmup_capacity b = 16) as -> by (unfold Protocol.warmup_capacity; by rewrite HL).
  destruct (Z.leb_spec 16 (Protocol.wb_request_count b)); [by intros [= <- <-]|].
  destruct (_ <? _) eqn:E; [done|]. apply Z.ltb_ge in E. intros [= <- <-]. cbn [Protocol.wb_buffer Protocol.wb_request_count].
  split; [|lia]. assert (Protocol.block_offset (Protocol.wb_request_count b) + 4080 <= length (Protocol.wb_buffer b))%nat as Ho
    by (unfold Protocol.block_offset, Protocol.MESSAGE_BLOCK_SIZE; lia).
  change (Z.to_nat Protocol.REQUEST_HEADER_SIZE) with 40%nat. unfold Protocol.request_write_to.
  rewrite Protocol.length_trailer_write; rewrite !length_write_bytes; rewrite ?length_write_bytes; lia.
Qed.

(** ** The state machine of a connection

    What the operations of the client and the writes of the server do to one
    connection. *)
Inductive conn_move : ConnectionState -> ConnectionState -> Prop :=
| mv_server_event x buf : conn_move x (with_events x (mkEvents buf (last_sequence (event_buffer x))))
| mv_check_events x : conn_move x (check_events x)
| mv_handle_switch x f sched fetched : conn_move x (handle_switch f sched fetched x)
| mv_process x : conn_move x (with_state x Process)
| mv_window x w : conn_move x (with_window x w)
| mv_rings x r : conn_move x (with_rings x r)
| mv_enter_warmup x : conn_move x (enter_warmup x)
| mv_write x h payload b o :
    pending_notification (notice x) = false -> Protocol.write_request (warmup_buffer (notice x)) h payload = Some (b, o) ->
    conn_move x (with_notice x (mkNotice b (endpoint_entry_addr (notice x)) (endpoint_entry_rkey (notice x))
                                  (endpoint_entry_seq (notice x)) (last_notified_count (notice x)) false))
| mv_entry_seq x :
    pending_notification (notice x) = false ->
    conn_move x (with_notice x (mkNotice (warmup_buffer (notice x)) (endpoint_entry_addr (notice x))
                   (endpoint_entry_rkey (notice x)) (u32 (endpoint_entry_seq (notice x) + 1))
                   (last_notified_count (notice x)) false))
| mv_notified x :
    pending_notification (notice x) = false ->
    conn_move x (with_notice x (notified (notice x) (Protocol.wb_request_count (warmup_buffer (notice x)))))
| mv_connect x addr key id w :
    conn_move x (mkConnState (state x)
      (mkNotice (warmup_buffer (notice x)) addr key (endpoint_entry_seq (notice x)) (last_notified_count (notice x))
         (pending_notification (notice x))) (event_buffer x) id w (last_context_switch_seq x) (last_acknowledged_seq x) (rings x)).

Lemma conn_move_ok x y : conn_move x y -> conn_ok x -> conn_ok y.
Proof.
  intros Hm Hx. destruct Hm as [x buf|x|x f q g|x|x w|x r|x|x h pl b o Hp Hw|x Hp|x Hp|x ad k id w].
  - by apply (conn_ok_notice x).
  - by apply check_events_ok.
  - by apply handle_switch_ok.
  - by apply (conn_ok_notice x).
  - by apply (conn_ok_notice x).
  - by apply (conn_ok_notice x).
  - by apply enter_warmup_ok.
  - destruct Hx as [H1 H2 H3]. rewrite Hp in H3. destruct (write_request_ok _ _ _ _ _ H1 H2 Hw) as [W1 W2]. by split.
  - destruct Hx as [H1 H2 H3]. rewrite Hp in H3. by split.
  - destruct Hx as [H1 H2 H3]. by split.
  - destruct Hx as [H1 H2 H3]. by split.
Qed.

(** Every connection of [c] is one of [c'] after some moves, and the others of [c'] are
    new ones after some moves. *)
Definition moves (c c' : RpcClient) : Prop :=
  (length (conns c) <= length (conns c'))%nat /\
  forall k y, conns c' !! k = Some y ->
    (exists x, conns c !! k = Some x /\ rtc conn_move x y) \/
    (conns c !! k = None /\ exists l1 l2, rtc conn_move (conn_state_new l1 l2) y).

#[export] Instance moves_preorder : PreOrder moves.
Proof.
  split.
  - intros c. split; [done|]. intros k x Hx. left. by exists x.
  - intros c1 c2 c3 [L1 H1] [L2 H2]. split; [lia|]. intros k z Hz.
    destruct (H2 k z Hz) as [(y & Hy & Hyz)|(Hy & l1 & l2 & Hyz)].
    + destruct (H1 k y Hy) as [(x & Hx & Hxy)|(Hx & l1 & l2 & Hxy)].
      * left. exists x. split; [done|]. by etrans.
      * right. split; [done|]. exists l1, l2. by etrans.
    + right. split; [|by exists l1, l2]. apply lookup_ge_None. apply lookup_ge_None in Hy. lia.
Qed.

Lemma moves_same c c' : conns c' = conns c -> moves c c'.
Proof. intros E. split; [by rewrite E|]. intros k x Hx. left. exists x. by rewrite <-E. Qed.

Lemma moves_with_conn c i x x' : conn c i = Some x -> rtc conn_move x x' -> moves c (with_conn c i x').
Proof.
  intros Hi Hm. split; [by cbn; rewrite length_insert|]. intros k y Hy. left. unfold conn in Hi. cbn in Hy.
  destruct (decide (k = Z.to_nat i)) as [->|Hne].
  - exists x. rewrite list_lookup_insert_eq in Hy by (by eapply lookup_lt_Some). by injection Hy as <-.
  - exists y. by rewrite list_lookup_insert_ne in Hy.
Qed.

(** The connection with a given number, before and after. *)
Lemma moves_conn c c' k x : moves c c' -> conns c !! k = Some x -> exists y, conns c' !! k = Some y /\ rtc conn_move x y.
Proof.
  intros [HL Hm] Hx. pose proof (lookup_lt_Some _ _ _ Hx) as Hlt.
  destruct (lookup_lt_is_Some_2 (conns c') k) as [y Hy]; [lia|]. exists y. split; [done|].
  destruct (Hm k y Hy) as [(x' & Hx' & Hr)|(Hn & _)]; by simplify_eq.
Qed.

(** The connection an operation works on after an assignment. *)
Lemma conn_with c i x x' : conn c i = Some x -> conn (with_conn c i x') i = Some x'.
Proof. intros Hi. unfold conn in *. cbn. apply list_lookup_insert_eq. by eapply lookup_lt_Some. Qed.

Lemma with_conn_with c i x y : with_conn (with_conn c i x) i y = with_conn c i y.
Proof. unfold with_conn. cbn. by rewrite list_insert_insert_eq. Qed.

Lemma conns_mark c i : conns (mark_needs_flush c i) = conns c.
Proof. unfold mark_needs_flush. by case_decide. Qed.

Section Operations.
Context (wa : Z -> Z) (rkey : Z) (accepts : Z -> bool).

(** [notify_warmup_ready] bumps the sequence number of the entry, or changes nothing
    of the connection. *)
Lemma notify_moves c i c' o x :
  conn c i = Some x -> pending_notification (notice x) = false -> notify_warmup_ready wa accepts c i = Some (c', o) ->
  exists x', conn c' i = Some x' /\ moves c c' /\ pending_notification (notice x') = false /\
    warmup_buffer (notice x') = warmup_buffer (notice x).
Proof.
  intros Hx Hp. unfold notify_warmup_ready. rewrite Hx.
  case_match; [intros [= <- <-]; by exists x|]. case_match; [intros [= <- <-]; by exists x|].
  set (n := mkNotice _ _ _ _ _ _). set (c1 := with_conn c i (with_notice x n)).
  assert (moves c c1) as H1 by (eapply moves_with_conn; [done|]; apply rtc_once; subst n; rewrite Hp; by apply mv_entry_seq).
  assert (conn c1 i = Some (with_notice x n)) as E1 by by eapply conn_with.
  destruct (Pool.alloc (pool c1)) as [[p [k|e]]|]; [| |done]; cbn [mbind option_bind].
  - destruct (Pool.get_slot p k) as [sl|]; [|done]. cbn [mbind option_bind].
    destruct (accepts i); intros [= <- <-]; exists (with_notice x n).
    + unfold conn. rewrite conns_mark. split; [done|]. split; [|done]. etrans; [exact H1|]. apply moves_same. by rewrite conns_mark.
    + done.
  - intros [= <- <-]. by exists (with_notice x n).
Qed.

Lemma flush_moves c i c' o : flush_warmup wa accepts c i = Some (c', o) -> moves c c'.
Proof.
  unfold flush_warmup. destruct (conn c i) as [x|] eqn:Hx; [|by intros [= <- <-]].
  destruct (pending_notification (notice x)) eqn:Hp; [by intros [= <- <-]|].
  case_match; [|by intros [= <- <-]]. destruct (notify_warmup_ready wa accepts c i) as [[c1 [en|e]]|] eqn:En; [| |done];
    destruct (notify_moves _ _ _ _ _ Hx Hp En) as (x1 & Hx1 & Hm & Hp1 & Hb1); cbn [mbind option_bind].
  - rewrite Hx1. cbn [mbind option_bind]. intros [= <- <-]. etrans; [exact Hm|]. eapply moves_with_conn; [done|].
    apply rtc_once. rewrite <-Hb1. by apply mv_notified.
  - by intros [= <- <-].
Qed.

Lemma flush_conns_moves k : forall c i c' t, flush_conns wa accepts k c i = Some (c', t) -> moves c c'.
Proof.
  induction k as [|k IH]; intros c i c' t; cbn; [by intros [= <- <-]|].
  destruct (flush_warmup wa accepts c i) as [[c1 o]|] eqn:E; [|done]. cbn [mbind option_bind].
  destruct (flush_conns wa accepts k c1 (i + 1)) as [[c2 t2]|] eqn:E2; [|done]. intros [= <- <-].
  etrans; [by eapply flush_moves|by eapply IH].
Qed.

Lemma check_all_moves c : moves c (check_all_events c).
Proof.
  split; [cbn; by rewrite length_fmap|]. intros k y Hy. left. cbn in Hy. rewrite list_lookup_fmap in Hy.
  destruct (conns c !! k) as [x|]; [|done]. injection Hy as <-. exists x. split; [done|]. apply rtc_once, mv_check_events.
Qed.

Lemma poll_moves c c' : poll wa accepts c = Some c' -> moves c c'.
Proof.
  unfold poll, flush_all_warmup. destruct (flush_conns _ _ _ _ _) as [[c1 t]|] eqn:E; [|done]. intros [= <-].
  etrans; [apply check_all_moves|]. etrans; [by eapply flush_conns_moves|]. by apply moves_same.
Qed.

Lemma send_warmup_moves c i ty pl c' o : send_warmup rkey c i ty pl = Some (c', o) -> moves c c'.
Proof.
  unfold send_warmup. destruct (conn c i) as [x|] eqn:Hx; [|by intros [= <- <-]]. set (x1 := enter_warmup x).
  set (c1 := with_conn c i x1). assert (conn c1 i = Some x1) as Hx1 by by eapply conn_with.
  assert (moves c c1) as H1 by (eapply moves_with_conn; [done|]; apply rtc_once, mv_enter_warmup).
  destruct (pending_notification (notice x1)) eqn:Hp; [by intros [= <- <-]|]. case_match; [by intros [= <- <-]|].
  destruct (Pool.alloc (pool c1)) as [[p [k|e]]|]; [| |done]; cbn [mbind option_bind]; [|by intros [= <- <-]].
  destruct (Pool.slot_data_addr p k) as [addr|]; [|done]. cbn [mbind option_bind].
  destruct (take_req_id (with_pool c1 p)) as [c2 id] eqn:Et. assert (conns c2 = conns c1) as E2 by (by injection Et as <- <-).
  destruct (Protocol.write_request _ _ _) as [[b ow]|] eqn:Ew; [|done]. cbn [mbind option_bind].
  set (x2 := with_notice x1 _).
  assert (forall c3, conns c3 = <[Z.to_nat i := x2]> (conns c1) -> moves c c3) as Hend.
  { intros c3 Hc3. etrans; [exact H1|]. etrans; [|apply (moves_same (with_conn c1 i x2)); exact Hc3].
    eapply moves_with_conn; [done|]. apply rtc_once. by eapply mv_write. }
  destruct ow; intros [= <- <-]; apply Hend; cbn; by rewrite E2.
Qed.

Lemma call_direct_moves c i ty pl c' o : call_direct rkey accepts c i ty pl = Some (c', o) -> moves c c'.
Proof.
  unfold call_direct. destruct (conn c i) as [x|] eqn:Hx; [|by intros [= <- <-]].
  destruct (Mapping.get_connection i (mapping c)) as [en|]; [|case_match; by intros [= <- <-]].
  destruct (claim_slot _ _) as [w [[q slot]|e]]; [|by intros [= <- <-]].
  assert (forall c3 r, conns c3 = <[Z.to_nat i := with_rings (with_window x w) r]> (conns c) -> moves c c3) as Hend.
  { intros c3 r Hc3. etrans; [|apply (moves_same (with_conn c i (with_rings (with_window x w) r))); exact Hc3].
    eapply moves_with_conn; [done|]. eapply rtc_l; [apply (mv_window _ w)|]. apply rtc_once, mv_rings. }
  destruct (response_slots _ !! _) as [resp|]; [|done]. cbn [mbind option_bind].
  destruct (Pool.slot_data_addr _ resp) as [ra|]; [|intros [= <- <-]; by eapply Hend]. cbn [take_req_id].
  destruct (send_slots _ !! _) as [k|]; [|done]. cbn [mbind option_bind].
  set (c2 := with_conn _ i _).
  assert (forall c3, conns c3 = conns c2 -> moves c c3) as Hend2.
  { intros c3 Hc3. eapply Hend. rewrite Hc3. unfold c2. cbn. by rewrite list_insert_insert_eq. }
  destruct (Pool.get_slot _ k) as [sl|]; [|intros [= <- <-]; by apply Hend2].
  destruct (Pool.slot_data_addr _ k) as [la|]; [|intros [= <- <-]; by apply Hend2].
  destruct (write_block _ _ _) as [sl'|]; [|done]. cbn [mbind option_bind].
  destruct (accepts i); intros [= <- <-]; apply Hend2; by rewrite ?conns_mark.
Qed.

Lemma call_async_moves c i ty pl c' o : call_async rkey accepts c i ty pl = Some (c', o) -> moves c c'.
Proof.
  unfold call_async. destruct (conn c i) as [x|] eqn:Hx; [|apply send_warmup_moves].
  assert (moves c (with_conn c i (check_events x))) as H1
    by (eapply moves_with_conn; [done|]; apply rtc_once, mv_check_events).
  destruct (state (check_events x)); try (intros E; etrans; [exact H1|by eapply send_warmup_moves]).
  destruct (call_direct _ _ _ _ _ _) as [[c1 o1]|] eqn:E; [|done]. intros [= <- <-].
  etrans; [exact H1|by eapply call_direct_moves].
Qed.

End Operations.

Lemma response_switch_moves c i r : moves c (process_response_context_switch c i r).
Proof.
  unfold process_response_context_switch. set (c1 := match rr_processing_pool_info r with Some _ => _ | None => _ end).
  assert (moves c c1) as H1.
  { subst c1. destruct (rr_processing_pool_info r) as [[a k]|]; [|done]. destruct (conn c i) as [x|] eqn:Hx; [|done].
    destruct (Mapping.set_remote_slot _ _ _ _) as [m [u|e]]; [|by apply moves_same].
    etrans; [apply (moves_same c (with_mapping c m)); done|]. eapply moves_with_conn; [exact Hx|]. apply rtc_once, mv_process. }
  destruct (context_switch_seq r) as [q|]; [|done]. destruct (fetched_seq r) as [f|]; [|done].
  destruct (conn c1 i) as [x|] eqn:Hx; [|done]. etrans; [exact H1|]. eapply moves_with_conn; [exact Hx|].
  apply rtc_once, mv_handle_switch.
Qed.

Lemma poll_pending_moves c r : moves c (poll_pending c r).1.
Proof.
  unfold poll_pending. destruct (pending_poll (pool c) r) as [resp|]; [|done]. cbn [fst].
  pose proof (response_switch_moves c (pr_conn_id r) resp) as H1. set (c1 := process_response_context_switch _ _ _) in *.
  destruct (rr_acked_slot_seq resp) as [a|]; [|done]. destruct (conn c1 (pr_conn_id r)) as [x|] eqn:Hx; [|done].
  etrans; [exact H1|]. eapply moves_with_conn; [exact Hx|]. apply rtc_once, mv_window.
Qed.

Lemma connect_moves c i e : moves c (connect c i e).1.
Proof.
  unfold connect. destruct (conn c i) as [x|] eqn:Hx; [|done].
  destruct (Mapping.set_remote_slot _ _ _ _) as [m [u|err]]; [|by apply moves_same]. cbn [fst].
  etrans; [apply (moves_same c (with_mapping c m)); done|]. eapply moves_with_conn; [exact Hx|]. apply rtc_once, mv_connect.
Qed.

Lemma add_connection_moves max c c' o : add_connection max c = Some (c', o) -> moves c c'.
Proof.
  unfold add_connection. case_match; [by intros [= <- <-]|].
  destruct (Server.bind_range _ _ _ _) as [m [u|e]]; [|intros [= <- <-]; by apply moves_same].
  destruct (take_slots _ (pool c)) as [[p1 l1]|]; [|done]. cbn [mbind option_bind].
  destruct (take_slots _ p1) as [[p2 l2]|]; [|done]. intros [= <- <-]. split; [cbn; rewrite length_app; lia|].
  intros k y Hy. cbn in Hy. apply lookup_app_Some in Hy as [Hy|[HL Hy]]; [left; by exists y|right].
  split; [by apply lookup_ge_None|]. apply list_lookup_singleton_Some in Hy as [_ <-]. by exists l1, l2.
Qed.

(** One operation of the client, or one write of the server to its memory: an event,
    or an answer in a slot of the pool. *)
Inductive client_step (c : RpcClient) : RpcClient -> Prop :=
| cs_add max c' o : add_connection max c = Some (c', o) -> client_step c c'
| cs_connect i e : client_step c (connect c i e).1
| cs_flush wa accepts i c' o : flush_warmup wa accepts c i = Some (c', o) -> client_step c c'
| cs_flush_all wa accepts c' t : flush_all_warmup wa accepts c = Some (c', t) -> client_step c c'
| cs_poll wa accepts c' : poll wa accepts c = Some c' -> client_step c c'
| cs_poll_minimal : client_step c (poll_minimal c)
| cs_recv : client_step c (check_all_events c)
| cs_call_direct rkey accepts i ty pl c' o : call_direct rkey accepts c i ty pl = Some (c', o) -> client_step c c'
| cs_call_async rkey accepts i ty pl c' o : call_async rkey accepts c i ty pl = Some (c', o) -> client_step c c'
| cs_response_switch i r : client_step c (process_response_context_switch c i r)
| cs_poll_pending r : client_step c (poll_pending c r).1
| cs_drop r : client_step c (with_pool c (pending_drop (pool c) r))
| cs_release r : client_step c (with_pool c (pending_release (pool c) r))
| cs_event i x buf : conn c i = Some x ->
    client_step c (with_conn c i (with_events x (mkEvents buf (last_sequence (event_buffer x)))))
| cs_answer p : client_step c (with_pool c p).

Lemma client_step_moves c c' : client_step c c' -> moves c c'.
Proof.
  intros Hs. destruct Hs.
  - by eapply add_connection_moves.
  - apply connect_moves.
  - by eapply flush_moves.
  - by eapply flush_conns_moves.
  - by eapply poll_moves.
  - etrans; [apply check_all_moves|]. by apply moves_same.
  - apply check_all_moves.
  - by eapply call_direct_moves.
  - by eapply call_async_moves.
  - apply response_switch_moves.
  - apply poll_pending_moves.
  - by apply moves_same.
  - by apply moves_same.
  - eapply moves_with_conn; [done|]. apply rtc_once, mv_server_event.
  - by apply moves_same.
Qed.

Lemma rtc_moves c c' : rtc client_step c c' -> moves c c'.
Proof. induction 1 as [|c1 c2 c3 H1 _ IH]; [done|]. etrans; [by apply client_step_moves|done]. Qed.

Lemma rtc_conn_ok x y : rtc conn_move x y -> conn_ok x -> conn_ok y.
Proof. induction 1 as [|x y z H1 _ IH]; [done|]. intros Hx. by apply IH, (conn_move_ok x). Qed.

Lemma conn_state_new_ok l1 l2 : conn_ok (conn_state_new l1 l2).
Proof. split; [|done|done]. cbn [conn_state_new notice warmup_buffer Protocol.warmup_new Protocol.wb_buffer].
  rewrite length_replicate. done. Qed.

(** Every connection of a client obeys the protocol of its state machine. *)
Lemma reach_client_ok a num d c : rtc client_step (client_new a num d) c -> client_ok c.
Proof.
  intros [_ Hm]%rtc_moves. apply Forall_lookup_2. intros k y Hy.
  destruct (Hm k y Hy) as [(x & Hx & _)|(_ & l1 & l2 & Hr)]; [done|]. eapply rtc_conn_ok; [exact Hr|apply conn_state_new_ok].
Qed.

(** ** Acknowledgements that do not match

    A connection whose announcement is pending while a later number than its own was
    acknowledged. *)
Definition stuck (x : ConnectionState) : Prop :=
  pending_notification (notice x) = true /\ endpoint_entry_seq (notice x) <= last_acknowledged_seq x.

Lemma handle_switch_stuck f a b x : stuck x -> stuck (handle_switch f a b x).
Proof.
  intros [Hp Hs]. unfold handle_switch. case_match.
  - destruct (Z.leb_spec b (last_acknowledged_seq x)); [done|]. cbn [notice with_seqs].
    rewrite (proj2 (Z.eqb_neq _ _)) by lia. split; cbn; [done|lia].
  - case_match; [done|]. by case_decide.
Qed.

Lemma stuck_move x y : conn_move x y -> stuck x -> stuck y.
Proof.
  intros Hm Hx. destruct Hm; try done; try (destruct Hx; by simplify_eq).
  - unfold check_events. destruct (events_poll _) as [b [[q f]|]]; [|done]. by apply handle_switch_stuck.
  - by apply handle_switch_stuck.
  - destruct Hx as [Hp Hs]. unfold enter_warmup. by destruct (state x).
  - destruct Hx as [Hp _]. congruence.
  - destruct Hx as [Hp _]. congruence.
Qed.

(** An acknowledgement of another batch ends the warmup of a connection.  Once a
    number greater than the pending announcement's was acknowledged to it, which the
    server sends to every connection of a group, no operation of the client and no
    write of the server makes the connection accept a warmup request or announce one
    again: [send_warmup] reports that no slot is free, for ever. *)
Theorem mismatched_ack_stuck c c' i x :
  conn c i = Some x -> stuck x -> rtc client_step c c' ->
  (exists y, conn c' i = Some y /\ stuck y) /\
  (forall rkey ty payload, exists c'', send_warmup rkey c' i ty payload = Some (c'', Err NoFreeSlots)) /\
  (forall wa accepts, flush_warmup wa accepts c' i = Some (c', Ok (0, None))).
Proof.
  intros Hx Hs Hr. apply rtc_moves in Hr. destruct (moves_conn _ _ _ _ Hr Hx) as (y & Hy & Hxy).
  assert (stuck y) as Hys by (clear -Hxy Hs; induction Hxy as [|x y z Hm _ IH]; [done|]; by apply IH, (stuck_move x)).
  split; [by exists y|]. split.
  - intros rkey ty pl. unfold send_warmup, conn. rewrite Hy. destruct (stuck_move _ _ (mv_enter_warmup y) Hys) as [-> _].
    by eexists.
  - intros wa accepts. unfold flush_warmup, conn. rewrite Hy. by destruct Hys as [-> _].
Qed.

(** What an announcement covers.  In every client its operations and the server's
    writes can reach, a connection whose announcement is pending announced exactly the
    requests of its warmup buffer, none was added since, and a connection without
    one has announced nothing; the buffer holds at most 16 requests. *)
Theorem announcement_exact a num d c i x :
  rtc client_step (client_new a num d) c -> conn c i = Some x ->
  0 <= Protocol.wb_request_count (warmup_buffer (notice x)) <= Protocol.warmup_capacity (warmup_buffer (notice x)) /\
  last_notified_count (notice x) =
    (if pending_notification (notice x) then Protocol.wb_request_count (warmup_buffer (notice x)) else 0) /\
  (pending_notification (notice x) = true -> forall rkey ty payload,
     exists c', send_warmup rkey c i ty payload = Some (c', Err NoFreeSlots)).
Proof.
  intros Hr Hx. apply reach_client_ok in Hr. pose proof (Forall_lookup_1 _ _ _ _ Hr Hx) as Hok.
  split; [rewrite (capacity_ok x Hok); by apply co_count|]. split; [by apply co_notified|].
  intros Hp rkey ty pl. unfold send_warmup. rewrite Hx.
  assert (pending_notification (notice (enter_warmup x)) = true) as ->; [|by eexists].
  unfold enter_warmup. by destruct (state x).
Qed.

End ClientProps.
