(* ===== verification/EndToEnd.v ===== *)
(** * EndToEnd: a call through the [scalerpc] client and server

    Requests that a client puts in its warmup buffer and announces reach the handler
    of the server, and the answer the server sends reaches the pending request; runs
    of both sides that show where they disagree. *)
From S2P Require Import Prelude Protocol Mapping Pool Scheduler Server ServerProps ServerInv ServerWarmup Client ClientProps.

Module EndToEnd.
Import ServerProps ServerInv ServerWarmup ClientProps.

(** ** The client's side *)

(** What the server makes of a request in slot [i]. *)
Definition incoming (h : Protocol.RequestHeader) (payload : list Z) (i : Z) : Protocol.IncomingRequest :=
  Protocol.mkIncoming (Protocol.rq_req_id h) (Protocol.rq_rpc_type h) payload (Protocol.rq_client_slot_addr h)
    (Protocol.rq_client_slot_rkey h) (Protocol.rq_sender_conn_id h) i (Protocol.rq_slot_seq h).

(** The blocks of a warmup buffer, and that they hold the requests [rs]. *)
Definition block (b : Protocol.WarmupBuffer) (t : Z) : list Z := read_bytes (Protocol.wb_buffer b) (Protocol.block_offset t) 4080.
Definition holds (b : Protocol.WarmupBuffer) (rs : list (Protocol.RequestHeader * list Z)) : Prop :=
  Protocol.wb_request_count b = Z.of_nat (length rs) /\
  forall j h payload, rs !! j = Some (h, payload) ->
    forall i, (Protocol.check_slot_for_request (block b (Z.of_nat j)) 0 i).1 = Some (incoming h payload i).

Lemma holds_nil b : Protocol.wb_request_count b = 0 -> holds b [].
Proof. intros H. split; [done|]. intros j h p Hj. by rewrite lookup_nil in Hj. Qed.

Lemma write_request_holds b rs h payload b' n :
  holds b rs -> Protocol.request_ok h -> (length payload <= 4032)%nat ->
  Protocol.rq_payload_len h = Z.of_nat (length payload) ->
  Protocol.write_request b h payload = Some (b', Ok n) -> holds b' (rs ++ [(h, payload)]).
Proof.
  intros [Hc Hb] Hh Hp Hpl. unfold Protocol.write_request.
  destruct (Z.leb_spec (Protocol.warmup_capacity b) (Protocol.wb_request_count b)) as [|Hlt]; [done|].
  destruct (_ <? _); [done|]. pose proof (Protocol.block_in_range b (Protocol.wb_request_count b) ltac:(lia)) as Hr.
  change (Z.to_nat Protocol.REQUEST_HEADER_SIZE) with 40%nat. change Protocol.REQUEST_HEADER_SIZE with 40.
  fold (Protocol.filled_block h payload (Protocol.wb_buffer b) (Protocol.block_offset (Protocol.wb_request_count b))).
  intros [= <- <-]. split; [cbn; rewrite length_app; cbn; lia|].
  intros j h' p' Hj i. unfold block. cbn [Protocol.wb_buffer]. apply lookup_app_Some in Hj as [Hj|[HL Hj]].
  - pose proof (lookup_lt_Some _ _ _ Hj) as Hlt'.
    rewrite Protocol.filled_block_out; [by apply Hb|done|done|]. unfold Protocol.block_offset, Protocol.MESSAGE_BLOCK_SIZE. lia.
  - apply list_lookup_singleton_Some in Hj as [Hj [= <- <-]].
    replace (Z.of_nat j) with (Protocol.wb_request_count b) by lia.
    destruct (Protocol.filled_block_spec h payload (Protocol.wb_buffer b) (Protocol.block_offset (Protocol.wb_request_count b))
      Hh Hr Hp) as (_ & _ & _ & HL4).
    rewrite (Protocol.check_filled _ 0 (Protocol.wb_buffer b) (Protocol.block_offset (Protocol.wb_request_count b)) h payload i);
      [done|done|done| |done|done|].
    + rewrite length_read_bytes; lia.
    + rewrite read_bytes_read by lia. by rewrite Nat.add_0_r.
Qed.

(** What a call puts in the buffer. *)
Lemma send_warmup_holds rkey c i ty payload c' r x rs :
  Client.conn c i = Some x -> holds (Client.warmup_buffer (Client.notice (Client.enter_warmup x))) rs ->
  Client.send_warmup rkey c i ty payload = Some (c', Ok r) ->
  is_uint 64 (Client.next_req_id c) -> is_uint 16 ty -> (length payload <= 4032)%nat -> is_uint 32 rkey ->
  is_uint 32 (Client.server_conn_id x) ->
  (forall a, Pool.slot_data_addr (Client.pool c') (Client.pr_slot_index r) = Some a -> is_uint 64 a) ->
  exists x' h, Client.conn c' i = Some x' /\ Client.pending_notification (Client.notice x') = false /\
    holds (Client.warmup_buffer (Client.notice x')) (rs ++ [(h, payload)]) /\
    Protocol.rq_req_id h = Client.pr_req_id r /\ Protocol.rq_rpc_type h = ty /\
    Pool.slot_data_addr (Client.pool c') (Client.pr_slot_index r) = Some (Protocol.rq_client_slot_addr h) /\
    Protocol.rq_sender_conn_id h = Client.server_conn_id x.
Proof.
  intros Hx Hh. unfold Client.send_warmup. rewrite Hx. set (x1 := Client.enter_warmup x) in *.
  destruct (Client.pending_notification (Client.notice x1)) eqn:Hp; [done|]. case_match; [done|].
  destruct (Pool.alloc (Client.pool (Client.with_conn c i x1))) as [[p [k|e]]|] eqn:Ea; [| |done]; cbn [mbind option_bind]; [|done].
  destruct (Pool.slot_data_addr p k) as [addr|] eqn:Eaddr; [|done]. cbn [mbind option_bind Client.take_req_id].
  set (h := Protocol.request_new _ _ _ _ _ _).
  destruct (Protocol.write_request _ h payload) as [[b [n|]]|] eqn:Ew; [| |done]; cbn [mbind option_bind]; [|done].
  intros [= <- <-] Hid Hty Hpl Hk Hs Haddr. cbn [Client.pr_slot_index Client.pr_req_id Client.pool Client.with_conn Client.with_pool] in *.
  specialize (Haddr _ Eaddr). set (x2 := Client.with_notice x1 _). exists x2, h.
  assert (Client.server_conn_id x1 = Client.server_conn_id x) as Hsid by (unfold x1, Client.enter_warmup; by destruct (Client.state x)).
  assert (u16 (Z.of_nat (length payload)) = Z.of_nat (length payload)) as Hu by (apply u16_small; lia).
  split; [|split; [done|split; [|split; [done|split; [done|split; [exact Eaddr|exact Hsid]]]]]].
  - unfold Client.conn in *. cbn. rewrite list_insert_insert_eq. apply list_lookup_insert_eq. by eapply lookup_lt_Some.
  - cbn [x2 Client.with_notice Client.notice Client.warmup_buffer].
    eapply (write_request_holds _ rs h payload b n); [done| |done|cbn; exact Hu|exact Ew].
    unfold Protocol.request_ok, h, Protocol.request_new, Protocol.request_fields, Protocol.request_widths.
    cbn [Protocol.rq_magic Protocol.rq_req_id Protocol.rq_rpc_type Protocol.rq_payload_len Protocol.rq_client_slot_addr
      Protocol.rq_client_slot_rkey Protocol.rq_sender_conn_id Protocol.rq_slot_seq]. rewrite Hsid, Hu. 
    repeat first [apply List.Forall2_nil|apply List.Forall2_cons].
    all: first [exact Hid|exact Hty|exact Hk|exact Hs|exact Haddr|idtac].
    + split; [discriminate|reflexivity].
    + change (is_uint 16 (Z.of_nat (length payload))). unfold is_uint. lia.
    + split; [discriminate|reflexivity].
Qed.

(** What [flush_warmup] announces. *)
Lemma flush_announces wa accepts c i c' n entry x :
  Client.conn c i = Some x -> Client.flush_warmup wa accepts c i = Some (c', Ok (n, Some entry)) ->
  entry = Protocol.mkEndpointEntry (wa i) (u32 (Protocol.wb_request_count (Client.warmup_buffer (Client.notice x))))
            (u32 (Client.endpoint_entry_seq (Client.notice x) + 1)).
Proof.
  intros Hx. unfold Client.flush_warmup. rewrite Hx. case_match; [done|]. case_match; [|done].
  unfold Client.notify_warmup_ready. rewrite Hx. case_match; [cbn [mbind option_bind]; by rewrite Hx|].
  case_match; [cbn [mbind option_bind]; by rewrite Hx|].
  set (c1 := Client.with_conn c i _). destruct (Pool.alloc (Client.pool c1)) as [[p [k|e]]|]; [| |done];
    cbn [mbind option_bind]; [|done]. destruct (Pool.get_slot p k); [|done]. cbn [mbind option_bind].
  destruct (accepts i); [|done]. cbn [mbind option_bind].
  destruct (Client.conn (Client.mark_needs_flush _ _) i); [|done]. cbn [mbind option_bind]. by intros [= _ _ <-].
Qed.

(** ** The server's side *)

(** The adapter writes the entry of connection [k]. *)
Definition rdma_entry (s : Server.RpcServer) (k : Z) (entry : Protocol.EndpointEntry) : Server.RpcServer :=
  let e := Server.endpoint_entries s in
  Server.with_entries s (Server.mkEntries (Protocol.entry_write_to entry (Server.ep_buffer e) (Server.entry_off k))
                           (Server.num_entries e) (Server.last_seqs e)).

Section Composition.
Context (N max : Z) (G : nat) (HN : 0 < N) (Hmax : 0 < max).
Notation server_inv := (ServerInv.server_inv N max G).
Notation spc := (ServerInv.slots_per_conn N max).

Lemma rdma_entry_inv s k entry : server_inv s -> 0 <= k < nconn s -> server_inv (rdma_entry s k entry).
Proof.
  intros Hi Hk. eapply step_inv; [done|done|apply step_client_entry|exact Hi].
  destruct (iv_entries _ _ _ _ Hi) as (_ & _ & HL). pose proof (iv_count _ _ _ _ Hi). apply length_write_bytes.
  rewrite HL. unfold Server.entry_off, Server.ENTRY_SIZE. lia.
Qed.

Definition entry_fits (e : Protocol.EndpointEntry) : Prop :=
  is_uint 64 (Protocol.req_addr e) /\ is_uint 32 (Protocol.batch_size e) /\ is_uint 32 (Protocol.seq e).

Lemma rdma_entry_new s k entry l :
  server_inv s -> 0 <= k < nconn s -> entry_fits entry -> Server.last_seqs (Server.endpoint_entries s) !! Z.to_nat k = Some l ->
  l < Protocol.seq entry -> 0 < Protocol.batch_size entry ->
  new_batch (Server.endpoint_entries (rdma_entry s k entry)) k = Some entry /\
  forall c, 0 <= c < nconn s -> c <> k ->
    new_batch (Server.endpoint_entries (rdma_entry s k entry)) c = new_batch (Server.endpoint_entries s) c.
Proof.
  intros Hi Hk (F1 & F2 & F3) Hl Hlt Hb. destruct (iv_entries _ _ _ _ Hi) as (H1 & H2 & H3). pose proof (iv_count _ _ _ _ Hi) as Hn.
  assert (length (Protocol.encode_fields Protocol.entry_widths
    [Protocol.req_addr entry; Protocol.batch_size entry; Protocol.seq entry]) = 16%nat) as HL
    by (rewrite Protocol.length_encode_fields; done).
  split.
  - unfold new_batch, Server.has_new_batch, Server.read_entry. cbn [Server.endpoint_entries rdma_entry Server.with_entries
      Server.num_entries Server.last_seqs Server.ep_buffer]. rewrite (proj2 (Z.leb_gt _ _)) by lia. rewrite Hl. cbn [mbind option_bind].
    assert (Protocol.entry_read_from (Protocol.entry_write_to entry (Server.ep_buffer (Server.endpoint_entries s)) (Server.entry_off k))
      (Server.entry_off k) = entry) as ->.
    { unfold Protocol.entry_read_from, Protocol.entry_write_to. rewrite Protocol.fields_roundtrip; [by destruct entry| |].
      - repeat first [apply List.Forall2_nil|apply List.Forall2_cons]; done.
      - change (Protocol.size_of Protocol.entry_widths) with 16%nat. unfold Server.entry_off, Server.ENTRY_SIZE in *. lia. }
    rewrite (proj2 (Z.ltb_lt l _)) by done. by rewrite (proj2 (Z.ltb_lt 0 _)).
  - intros c Hc Hne. apply new_batch_eq; [done| |done]. unfold Server.read_entry.
    cbn [Server.endpoint_entries rdma_entry Server.with_entries Server.num_entries Server.ep_buffer]. case_match; [done|].
    unfold Protocol.entry_read_from, Protocol.entry_write_to.
    rewrite (Protocol.decode_fields_ext _ _ _ (Server.ep_buffer (Server.endpoint_entries s)) (Server.entry_off c)); [done|].
    apply read_write_out; [rewrite HL|rewrite HL; cbn]; unfold Server.entry_off, Server.ENTRY_SIZE in *; lia.
Qed.

(** The part of a server's state that the announcement of connection [k] depends on:
    the buffer it read the warmup address from, and the last number it saw. *)
Record expects (s : Server.RpcServer) (k addr seq : Z) : Prop := mkExpects {
  ex_info : exists key, Server.warmup_buffer_infos s !! Z.to_nat k = Some (Some (Server.mkWarmupInfo addr key 16));
  ex_last : exists l, Server.last_seqs (Server.endpoint_entries s) !! Z.to_nat k = Some l /\ l < seq;
}.

Section Adapter.
(** The adapter reads the client's warmup buffer, at [addr]. *)
Context (remote : Z -> Z -> list Z) (Hremote : forall c a, length (remote c a) = 4080%nat).
Context (outcome : Z -> Server.BatchOutcome).

Lemma announced_handled rkey h accepts ae now s k cs entry b rs :
  server_inv s -> Scheduler.next_group_connections (Server.scheduler s) = Some cs -> k ∈ cs ->
  (forall c, c ∈ cs -> outcome c = Server.AllRead /\ (c <> k -> 0 <= batch s c <= spc)) ->
  expects s k (Protocol.req_addr entry) (Protocol.seq entry) -> entry_fits entry ->
  holds b rs -> Protocol.batch_size entry = Z.of_nat (length rs) -> (0 < length rs <= 16)%nat -> Z.of_nat (length rs) <= spc ->
  (forall t, 0 <= t < 16 -> remote k (Protocol.req_addr entry + t * Protocol.MESSAGE_BLOCK_SIZE) = block b t) ->
  exists s' rs' ws,
    Server.poll remote outcome rkey h accepts ae (S (Z.to_nat N)) now (rdma_entry s k entry) = Some (s', rs', ws) /\
    forall j hd payload, rs !! j = Some (hd, payload) ->
      (k * spc + Z.of_nat j <> N - 1 \/
       forall c, c ∈ cs -> default None (Server.event_buffer_addrs s !! Z.to_nat c) = None) ->
      incoming hd payload (k * spc + Z.of_nat j) ∈ rs'.
Proof.
  intros Hi Ecs Hk Hcs [[key Hinfo] (l & Hl & Hlt)] Hfit [Hcnt Hblk] Hbs Hrs Hspc Hmem.
  assert (forall c, c ∈ cs -> 0 <= c < nconn s) as Hr
    by (intros c; exact (proj2 (group_range N max G s _ cs c Hi (proj1 (next_members _ _) Ecs)))).
  destruct (rdma_entry_new s k entry l Hi (Hr k Hk) Hfit Hl Hlt ltac:(lia)) as [Hnew Hold].
  set (s1 := rdma_entry s k entry) in *. assert (server_inv s1) as Hi1 by (apply rdma_entry_inv; auto).
  assert (batch s1 k = Z.of_nat (length rs) /\ warmup_addr s1 k = Protocol.req_addr entry) as [Hbk Hwk].
  { unfold batch, warmup_addr. rewrite Hnew. change (Server.warmup_buffer_infos s1) with (Server.warmup_buffer_infos s).
    rewrite Hinfo. cbn. split; [lia|done]. }
  destruct (poll_delivers N max G HN Hmax remote Hremote rkey h accepts ae outcome now s1 Hi1) as (s' & rs' & ws & E & _ & H).
  exists s', rs', ws. split; [done|]. intros j hd payload Hj Hev. pose proof (lookup_lt_Some _ _ _ Hj) as Hjl.
  apply (H cs Ecs) with (c := k) (t := Z.of_nat j); [|done|lia|exact Hev|].
  - intros c Hc. destruct (Hcs c Hc) as [Ho Hb]. split; [done|]. destruct (decide (c = k)) as [->|Hne]; [lia|].
    unfold batch. rewrite Hold by auto. by apply Hb.
  - rewrite Hwk, Hmem by lia. by apply Hblk.
Qed.

(** C5: a call made in warmup reaches the handler.  Let the warmup buffer of a
    client's connection hold some requests, as [send_warmup] puts them there, and let
    [flush_warmup] announce them.  Once the adapter has written the entry to a server
    that its operations can reach, which expects a new number of this connection and
    reads the blocks of this buffer, one [poll] of the server, while the connection's
    group is next, hands every one of the requests to the handler, with its header
    fields and its payload.  The exception is the slot events are built in. *)
Theorem warmup_calls_handled wa acc rkey h accepts ae now c i c' x n entry rs s k cs :
  Client.conn c i = Some x -> holds (Client.warmup_buffer (Client.notice x)) rs ->
  Client.flush_warmup wa acc c i = Some (c', Ok (n, Some entry)) -> (0 < length rs <= 16)%nat -> is_uint 64 (wa i) ->
  server_inv s -> Scheduler.next_group_connections (Server.scheduler s) = Some cs -> k ∈ cs ->
  expects s k (wa i) (u32 (Client.endpoint_entry_seq (Client.notice x) + 1)) -> Z.of_nat (length rs) <= spc ->
  (forall c, c ∈ cs -> outcome c = Server.AllRead /\ (c <> k -> 0 <= batch s c <= spc)) ->
  (forall t, 0 <= t < 16 -> remote k (wa i + t * Protocol.MESSAGE_BLOCK_SIZE) = block (Client.warmup_buffer (Client.notice x)) t) ->
  exists s' rs' ws,
    Server.poll remote outcome rkey h accepts ae (S (Z.to_nat N)) now (rdma_entry s k entry) = Some (s', rs', ws) /\
    forall j hd payload, rs !! j = Some (hd, payload) ->
      (k * spc + Z.of_nat j <> N - 1 \/
       forall c, c ∈ cs -> default None (Server.event_buffer_addrs s !! Z.to_nat c) = None) ->
      incoming hd payload (k * spc + Z.of_nat j) ∈ rs'.
Proof.
  intros Hx Hh Hf Hrs Hwa Hi Ecs Hk Hex Hspc Hcs Hmem. pose proof Hh as [Hcnt _].
  pose proof (flush_announces _ _ _ _ _ _ _ _ Hx Hf) as ->. rewrite Hcnt.
  assert (u32 (Z.of_nat (length rs)) = Z.of_nat (length rs)) as Hu by (apply u32_small; lia).
  eapply announced_handled; try done; cbn [Protocol.req_addr Protocol.seq Protocol.batch_size].
  split; [done|]. split; apply u32_range.
Qed.

End Adapter.
End Composition.

(** ** Answers *)

(** The adapter carries out a write from a response slot to a slot of the client. *)
Definition rdma_response (s : Server.RpcServer) (r : Protocol.IncomingRequest) (w : Server.Write) (p : Pool.MessagePool) (k : Z)
    : option Pool.MessagePool :=
  src ← Pool.get_slot (Server.response_pool s) (Protocol.in_slot_index r);
  dst ← Pool.get_slot p k;
  Some (Pool.put_slot p k (Server.with_data dst
          (write_bytes (Pool.data dst) 0 (read_bytes (Pool.data src) 0 (Z.to_nat (Server.w_len w)))))).

(** Values of a pending event that fit their fields. *)
Definition event_fits (ev : option (Z * Z)) : Prop := forall q f, ev = Some (q, f) -> is_uint 32 f.

Lemma response_header_ok rkey s r status len acked ev :
  is_uint 64 (Protocol.in_req_id r) -> is_uint 32 status -> is_uint 64 acked -> event_fits ev ->
  is_uint 32 (rkey (Server.processing_pool s)) ->
  is_uint 64 (default 0 (Pool.slot_data_addr (Server.processing_pool s) 0)) ->
  Protocol.response_ok (Server.response_header rkey s r status len acked ev).
Proof.
  intros H1 H2 H3 H4 H5 H6. pose proof (u32_range len) as Hl.
  assert (forall q f, is_uint 32 f -> is_uint 64 (Protocol.pack_seq q f)) as Hpack.
  { intros q f Hf. rewrite Protocol.pack_seq_value by exact Hf. pose proof (u32_range q). unfold is_uint in *. lia. }
  unfold Server.response_header, Protocol.response_ok. destruct ev as [[q f]|]; [|].
  - specialize (H4 q f eq_refl). destruct (0 <? f);
      (repeat first [apply List.Forall2_nil|apply List.Forall2_cons]); cbn -[Protocol.pack_seq];
      first [exact H1|exact H2|exact H3|exact H5|exact H6|exact Hl|by apply Hpack|split; [discriminate|reflexivity]].
  - (repeat first [apply List.Forall2_nil|apply List.Forall2_cons]); cbn;
      first [exact H1|exact H2|exact H3|exact Hl|split; [discriminate|reflexivity]].
Qed.

Lemma response_header_fields rkey s r status len acked ev :
  let h := Server.response_header rkey s r status len acked ev in
  Protocol.rs_magic h = Protocol.RESPONSE_MAGIC /\ Protocol.rs_req_id h = Protocol.in_req_id r /\
  Protocol.rs_status h = status /\ Protocol.rs_payload_len h = u32 len /\ Protocol.has_credit_ack h = true /\
  Protocol.get_acked_slot_seq h = acked /\
  (Protocol.has_context_switch h = true <-> is_Some ev).
Proof.
  cbn zeta. unfold Server.response_header. destruct ev as [[q f]|]; [destruct (0 <? f)|];
    do 6 (split; [done|]); (split; [try done; intros _; by eexists|try done; by intros [? [=]]]).
Qed.

(** What [answer] leaves in the response slot, and what it sends. *)
Lemma answer_spec rkey h accepts s r sl status len buf s' w :
  Pool.get_slot (Server.response_pool s) (Protocol.in_slot_index r) = Some sl -> 0 <= Protocol.in_slot_index r ->
  h (Protocol.in_rpc_type r) (Protocol.in_payload r) (Server.response_buf sl) = (status, len, buf) ->
  Server.answer rkey h accepts s r = (s', [w]) ->
  exists hd addr pending ev,
    Server.take_pending (Server.pending_context_switch s) (Protocol.in_conn_id r) = (pending, ev) /\
    hd = Server.response_header rkey s r status len
           (Server.ack_seq (Server.last_processed_seq s) (Protocol.in_conn_id r) (Protocol.in_slot_seq r)).2 ev /\
    Server.last_processed_seq s' =
      (Server.ack_seq (Server.last_processed_seq s) (Protocol.in_conn_id r) (Protocol.in_slot_seq r)).1 /\
    w = Server.response_write r addr len /\
    Pool.get_slot (Server.response_pool s') (Protocol.in_slot_index r) =
      Some (Server.with_data sl (Protocol.response_write_to hd (write_bytes (Pool.data sl) 56 (take 4016 buf)) 0)).
Proof.
  intros Hsl Hi Hh. unfold Server.answer. rewrite Hsl, Hh.
  set (s1 := Server.with_answer s _ _ _). unfold Server.send_response_zero_copy.
  destruct (negb _); [done|].
  assert (Pool.get_slot (Server.response_pool s1) (Protocol.in_slot_index r) = Some (Server.put_response_buf sl buf)) as Hg.
  { unfold s1. cbn. rewrite Pool.get_put by (done || by exists sl). by rewrite decide_True. }
  rewrite Hg. destruct (Pool.slot_data_addr _ _) as [addr|]; [|done].
  change (Server.last_processed_seq s1) with (Server.last_processed_seq s).
  change (Server.pending_context_switch s1) with (Server.pending_context_switch s).
  destruct (Server.ack_seq _ _ _) as [seqs acked]. destruct (Server.take_pending _ _) as [pending ev].
  destruct (accepts r); [|done]. intros [= <- <-].
  eexists _, addr, pending, ev. split; [done|]. split; [reflexivity|]. cbn [fst snd].
  split; [unfold Server.mark_needs_flush; by case_decide|]. split; [done|].
  assert (forall z c, Server.response_pool (Server.mark_needs_flush z c) = Server.response_pool z) as -> by
    (intros z c; unfold Server.mark_needs_flush; by case_decide).
  cbn [Server.with_answer Server.response_pool]. rewrite Pool.get_put by (done || by eexists). by rewrite decide_True.
Qed.

(** Bytes of a slot that an answer was built in. *)
Lemma answer_bytes hd d buf len dst :
  length d = 4080%nat -> length dst = 4080%nat -> length buf = 4016%nat -> 0 <= len <= 4016 -> Protocol.response_ok hd ->
  let src := Protocol.response_write_to hd (write_bytes d 56 (take 4016 buf)) 0 in
  let m := write_bytes dst 0 (read_bytes src 0 (Z.to_nat (56 + len))) in
  Protocol.response_read_from m 0 = hd /\ read_bytes m 56 (Z.to_nat len) = take (Z.to_nat len) buf /\
  le_value (read_bytes m 0 4) = Protocol.rs_magic hd.
Proof.
  intros Hd Hdst Hbuf Hlen Hok src m.
  assert (length (write_bytes d 56 (take 4016 buf)) = 4080%nat) as L1 by (rewrite length_write_bytes; lia).
  assert (length (Protocol.encode_fields Protocol.response_widths (Protocol.response_fields hd)) = 56%nat) as LE
    by (rewrite Protocol.length_encode_fields; done).
  assert (length src = 4080%nat) as L2 by (unfold src, Protocol.response_write_to; rewrite length_write_bytes; lia).
  assert (length (read_bytes src 0 (Z.to_nat (56 + len))) = Z.to_nat (56 + len)) as L3 by (apply length_read_bytes; lia).
  assert (forall k n, (k + n <= Z.to_nat (56 + len))%nat -> read_bytes m k n = read_bytes src k n) as Hm.
  { intros k n Hkn. unfold m. pose proof (read_write_in dst 0 (read_bytes src 0 (Z.to_nat (56 + len))) k n) as H.
    change (0 + k)%nat with k in H. rewrite H by lia. rewrite read_bytes_read by lia. done. }
  assert (Protocol.response_read_from src 0 = hd) as Hsrc by (apply Protocol.response_read_write; [done|lia]).
  assert (Protocol.response_read_from m 0 = hd) as Hread.
  { rewrite <-Hsrc. unfold Protocol.response_read_from. rewrite (Protocol.decode_fields_ext _ m 0 src 0); [done|].
    apply Hm. change (Protocol.size_of Protocol.response_widths) with 56%nat. lia. }
  split; [done|]. split.
  - rewrite Hm by lia. unfold src, Protocol.response_write_to. rewrite read_write_out by lia.
    pose proof (read_write_in d 56 (take 4016 buf) 0 (Z.to_nat len)) as H. rewrite Nat.add_0_r in H.
    rewrite H; [|rewrite length_take; lia|rewrite length_take; lia].
    unfold read_bytes. rewrite drop_0, take_take. f_equal. lia.
  - rewrite <-Hread at 1. unfold Protocol.response_read_from.
    pose proof Hread as Hr. unfold Protocol.response_read_from, Protocol.response_widths in *. cbn in Hr |- *. done.
Qed.

(** C8: the answer of the handler reaches the caller.  When a request is answered and
    its work request accepted, and the adapter carries the write out to the slot the
    client set aside for the request, polling the pending request gives a response
    with the handler's status and the first [len] bytes of its buffer, and
    acknowledges the largest sequence number the server answered on this connection;
    the write goes to the address in the request and has the length of the answer. *)
Theorem response_delivered N rkey h accepts s r sl status len buf s' w p k dst c :
  fit N (Server.response_pool s) -> Pool.get_slot (Server.response_pool s) (Protocol.in_slot_index r) = Some sl ->
  0 <= Protocol.in_slot_index r ->
  h (Protocol.in_rpc_type r) (Protocol.in_payload r) (Server.response_buf sl) = (status, len, buf) ->
  length buf = 4016%nat -> 0 <= len <= 4016 -> is_uint 32 status ->
  Server.answer rkey h accepts s r = (s', [w]) ->
  is_uint 64 (Protocol.in_req_id r) -> is_uint 64 (Protocol.in_slot_seq r) ->
  is_uint 64 (default 0 (Server.last_processed_seq s !! Z.to_nat (Protocol.in_conn_id r))) ->
  Forall event_fits (Server.pending_context_switch s) ->
  is_uint 32 (rkey (Server.processing_pool s)) ->
  is_uint 64 (default 0 (Pool.slot_data_addr (Server.processing_pool s) 0)) ->
  0 <= k -> Pool.get_slot p k = Some dst -> length (Pool.data dst) = 4080%nat ->
  exists p' resp, rdma_response s' r w p k = Some p' /\
    Client.pending_poll p' (Client.mkPending k (Protocol.in_req_id r) c None) = Some resp /\
    Protocol.rs_status (Client.rr_header resp) = status /\ Client.rr_payload resp = take (Z.to_nat len) buf /\
    Client.rr_acked_slot_seq resp =
      Some (Z.max (default 0 (Server.last_processed_seq s !! Z.to_nat (Protocol.in_conn_id r))) (Protocol.in_slot_seq r)) /\
    Server.w_remote_addr w = Protocol.in_client_slot_addr r /\ Server.w_len w = 56 + len.
Proof.
  intros Hf Hsl Hi Hh Hbuf Hlen Hst Ha Hid Hsq Hls Hev Hrk Had Hk Hdst HdstL.
  destruct (answer_spec _ _ _ _ _ _ _ _ _ _ _ Hsl Hi Hh Ha) as (hd & addr & pending & ev & Hp & Hhd & _ & -> & Hg).
  pose proof (ack_seq_max (Server.last_processed_seq s) (Protocol.in_conn_id r) (Protocol.in_slot_seq r)) as Hm.
  destruct (Server.ack_seq _ _ _) as [seqs acked]. cbn [fst snd] in *. destruct Hm as [Hacked _].
  assert (event_fits ev) as Hevf.
  { unfold Server.take_pending in Hp. destruct (Server.pending_context_switch s !! _) as [e|] eqn:Ee; injection Hp as _ <-;
      [by eapply Forall_lookup_1|by intros q f]. }
  assert (is_uint 64 acked) as Hau by (unfold is_uint in *; lia).
  pose proof (response_header_ok rkey s r status len acked ev Hid Hst Hau Hevf Hrk Had) as Hok. rewrite <-Hhd in Hok.
  destruct (response_header_fields rkey s r status len acked ev) as (F1 & F2 & F3 & F4 & F5 & F6 & _).
  rewrite <-Hhd in F1, F2, F3, F4, F5, F6. pose proof (fit_get _ _ _ _ Hf Hsl) as [HslL _].
  assert (Server.w_len (Server.response_write r addr len) = 56 + len) as Hw by (cbn; apply u32_small; lia).
  destruct (answer_bytes hd (Pool.data sl) buf len (Pool.data dst) HslL HdstL Hbuf Hlen Hok) as (B1 & B2 & B3).
  unfold rdma_response. rewrite Hg, Hdst, Hw. cbn [mbind option_bind Server.with_data Pool.data].
  eexists _, _. split; [reflexivity|]. unfold Client.pending_poll. cbn [Client.pr_slot_index Client.pr_req_id].
  rewrite Pool.get_put by (done || by exists dst). rewrite decide_True by done.
  cbn [mbind option_bind Server.with_data Pool.data]. rewrite B3, F1, Z.eqb_refl, B1, F2, Z.eqb_refl. cbn [negb].
  split; [reflexivity|]. cbn [Client.rr_header Client.rr_payload Client.rr_acked_slot_seq]. rewrite F3, F4, F5, F6.
  rewrite (u32_small len) by lia. change (Z.to_nat Server.RESPONSE_HEADER_SIZE) with 56%nat. rewrite B2, Hacked. done.
Qed.

(** ** Concrete runs *)

(** A client with one connection, connected to connection 1 of the server of
    [ServerWarmup], and a call it made. *)
Definition or_else {A B} (o : option (A * B)) (x : A) : A := match o with Some (y, _) => y | None => x end.
Definition demo_client : Client.RpcClient :=
  let c := or_else (Client.add_connection 2 (Client.client_new 1048576 16 4080)) (Client.client_new 0 0 0) in
  (Client.connect c 0 (Client.mkServerEndpoint 4112 5 777 6 1 4)).1.
Definition called (payload : list Z) (c : Client.RpcClient) : Client.RpcClient := or_else (Client.send_warmup 9 c 0 3 payload) c.
Definition demo_called : Client.RpcClient := called [65; 66] demo_client.
Definition conn_of (c : Client.RpcClient) : Client.ConnectionState :=
  default (Client.conn_state_new [] []) (Client.conn c 0).
#[local] Notation demo_buffer := (Client.warmup_buffer (Client.notice (conn_of demo_called))).
Definition demo_request : Protocol.RequestHeader := Protocol.request_new 1 3 2 1060880 9 1.
Definition buffer_addr (_ : Z) : Z := 8192.

Definition client_memory (b : Protocol.WarmupBuffer) (c a : Z) : list Z :=
  let t := (a - 8192) / 4080 in
  if decide (0 <= t < 16) then block b t else replicate 4080 0.

Lemma length_client_memory b c a :
  Z.of_nat (length (Protocol.wb_buffer b)) = 65280 -> length (client_memory b c a) = 4080%nat.
Proof.
  intros HL. unfold client_memory. case_decide; [|apply length_replicate]. apply length_read_bytes.
  unfold Protocol.block_offset, Protocol.MESSAGE_BLOCK_SIZE. lia.
Qed.

Lemma demo_buffer_length : Z.of_nat (length (Protocol.wb_buffer demo_buffer)) = 65280.
Proof. vm_compute. reflexivity. Qed.

Lemma demo_buffer_holds : holds demo_buffer [(demo_request, [65; 66])].
Proof.
  split; [vm_compute; reflexivity|]. intros [|j] h p Hj i; [|exfalso; destruct j; discriminate Hj]. injection Hj as <- <-.
  vm_compute. reflexivity.
Qed.

Definition demo_server0 : Server.RpcServer :=
  (Server.connect (added (added (Server.server_new 4096 65536 131072 4 4080 2 2 100 0))) 1
    (Server.mkClientEndpoint 0 0 0 0 8192 9 16)).1.

Lemma demo_server0_inv : server_inv 4 2 2 demo_server0.
Proof. eapply step_inv; [lia|lia|apply step_connect; lia|]. do 2 apply added_inv. apply server_new_inv; lia. Qed.

Lemma demo_memory t :
  0 <= t < 16 -> client_memory demo_buffer 1 (buffer_addr 0 + t * Protocol.MESSAGE_BLOCK_SIZE) = block demo_buffer t.
Proof.
  intros Ht. unfold client_memory, buffer_addr, Protocol.MESSAGE_BLOCK_SIZE.
  replace ((8192 + t * 4080 - 8192) / 4080) with t by (apply Z.div_unique with 0; lia). by rewrite decide_True.
Qed.

Definition demo_entry : Protocol.EndpointEntry := Protocol.mkEndpointEntry 8192 1 1.

Lemma conn_of_spec c : (0 <? Z.of_nat (length (Client.conns c))) = true -> Client.conn c 0 = Some (conn_of c).
Proof.
  intros H%Z.ltb_lt. unfold conn_of, Client.conn. destruct (lookup_lt_is_Some_2 (Client.conns c) (Z.to_nat 0)) as [x ->]; [lia|done].
Qed.

Lemma snd_some {A B} (o : option (A * B)) (y : B) : snd <$> o = Some y -> exists x, o = Some (x, y).
Proof. destruct o as [[x y']|]; [|done]. intros [= ->]. by exists x. Qed.

Lemma warmup_calls_handled_witness :
  exists c' s' rs' ws,
    Client.flush_warmup buffer_addr (fun _ => true) demo_called 0 = Some (c', Ok (1, Some demo_entry)) /\
    Server.poll (client_memory demo_buffer) (fun _ => Server.AllRead) no_rkey Server.NoHandler (fun _ => true) (fun _ => true)
      5 50 (rdma_entry demo_server0 1 demo_entry) = Some (s', rs', ws) /\
    incoming demo_request [65; 66] 2 ∈ rs'.
Proof.
  destruct (snd_some (Client.flush_warmup buffer_addr (fun _ => true) demo_called 0) (Ok (1, Some demo_entry)))
    as [c' Ef]; [vm_compute; reflexivity|].
  destruct (warmup_calls_handled 4 2 2 ltac:(lia) ltac:(lia) (client_memory demo_buffer)
    (fun c a => length_client_memory demo_buffer c a demo_buffer_length) (fun _ => Server.AllRead) buffer_addr (fun _ => true)
    no_rkey Server.NoHandler (fun _ => true) (fun _ => true) 50 demo_called 0 c' (conn_of demo_called) 1 demo_entry
    [(demo_request, [65; 66])] demo_server0 1 [1]) as (s' & rs' & ws & E & H).
  - apply conn_of_spec. vm_compute. reflexivity.
  - exact demo_buffer_holds.
  - exact Ef.
  - cbn. lia.
  - vm_compute. split; [discriminate|reflexivity].
  - exact demo_server0_inv.
  - vm_compute. reflexivity.
  - by apply list_elem_of_singleton.
  - split; [exists 9; vm_compute; reflexivity|]. exists 0. split; vm_compute; reflexivity.
  - vm_compute. discriminate.
  - intros c ->%list_elem_of_singleton. split; [reflexivity|]. intros Hne. by destruct Hne.
  - apply demo_memory.
  - exists c', s', rs', ws. split; [exact Ef|]. split; [exact E|]. apply (H 0%nat demo_request [65; 66]); [reflexivity|].
    left. vm_compute. discriminate.
Defined.

(** The client announced its batch 1 and sees an event that acknowledges batch 2, which
    the server sends when a later connection of the group announced that number. *)
Definition demo_event (sched fetched : Z) (c : Client.RpcClient) : Client.RpcClient :=
  Client.with_conn c 0 (Client.check_events (Client.with_events (conn_of c)
    (Client.mkEvents (Protocol.event_write_to (Protocol.event_new sched fetched) (replicate 16 0) 0) 0))).
Definition demo_flushed : Client.RpcClient :=
  or_else (Client.flush_warmup buffer_addr (fun _ => true) demo_called 0) demo_called.
Definition demo_stuck : Client.RpcClient := demo_event 1 2 demo_flushed.

Lemma mismatched_ack_stuck_witness :
  (forall wa accepts, Client.flush_warmup wa accepts demo_stuck 0 = Some (demo_stuck, Ok (0, None))) /\
  exists c, Client.send_warmup 9 demo_stuck 0 3 [67] = Some (c, Err Client.NoFreeSlots).
Proof.
  destruct (mismatched_ack_stuck demo_stuck demo_stuck 0 (conn_of demo_stuck)) as (_ & H1 & H2).
  - apply conn_of_spec. vm_compute. reflexivity.
  - split; vm_compute; [reflexivity|discriminate].
  - apply rtc_refl.
  - split; [exact H2|apply H1].
Defined.

(** The event that acknowledges the batch itself lets the client go on. *)
Lemma matching_ack_continues :
  (snd <$> Client.send_warmup 9 (demo_event 1 1 demo_flushed) 0 3 [67]) = Some (Ok (Client.mkPending 2 2 0 None)).
Proof. vm_compute. reflexivity. Qed.

(** The number that every connection of a group is told is that of the last one whose
    batch was fetched: of two connections that announced batches 1 and 2, the first is
    told 2. *)
Definition two_announced : Server.RpcServer :=
  let s := added (added (Server.server_new 4096 65536 131072 4 4080 2 1 100 0)) in
  let s := (Server.connect s 0 (Server.mkClientEndpoint 0 0 0 0 8192 9 16)).1 in
  let s := (Server.connect s 1 (Server.mkClientEndpoint 0 0 0 0 8192 9 16)).1 in
  rdma_entry (rdma_entry s 0 (Protocol.mkEndpointEntry 8192 1 1)) 1 (Protocol.mkEndpointEntry 8192 1 2).

Lemma group_told_last_number :
  (Server.pending_context_switch <$>
     Server.poll_switch demo_remote (fun _ => Server.AllRead) (fun _ => true) 50 two_announced)
  = Some [Some (1, 2); Some (1, 2)].
Proof. vm_compute. reflexivity. Qed.

Lemma announcement_exact_witness :
  exists c x, rtc client_step (Client.client_new 1048576 16 4080) c /\ Client.conn c 0 = Some x /\
    Client.last_notified_count (Client.notice x) = 0.
Proof.
  destruct (snd_some (Client.add_connection 2 (Client.client_new 1048576 16 4080)) (Ok 0)) as [c Ec]; [vm_compute; reflexivity|].
  assert (rtc client_step (Client.client_new 1048576 16 4080) c) as Hr by (apply rtc_once; by eapply cs_add).
  assert (exists x, Client.conn c 0 = Some x /\ Client.pending_notification (Client.notice x) = false) as (x & Hx & Hp).
  { assert (or_else (Client.add_connection 2 (Client.client_new 1048576 16 4080)) (Client.client_new 0 0 0) = c) as <-
      by (rewrite Ec; reflexivity).
    eexists. split; [apply conn_of_spec; vm_compute; reflexivity|vm_compute; reflexivity]. }
  destruct (announcement_exact 1048576 16 4080 c 0 x Hr Hx) as (_ & H & _).
  exists c, x. split; [exact Hr|]. split; [exact Hx|]. rewrite H, Hp. reflexivity.
Defined.

(** Two calls in a window of two, one of them processed: the third call has to wait
    until the answer to the second is seen. *)
Definition window_after (n : nat) : Client.Window := Nat.iter n (fun w => (Client.claim_slot 4112 w).1) (window_new 2).

Lemma credit_window_safe_witness :
  let x := mkCredits (window_after 2) [1] [0] [0] in
  NoDup ((fun q => q mod 2) <$> unprocessed x) /\ (Client.claim_slot 4112 (client x)).2 = Err Client.NoCredits.
Proof.
  cbn zeta. split; [|vm_compute; reflexivity].
  apply (credit_window_safe 2 4112 0 (mkCredits (window_after 2) [1] [0] [0])); [lia|].
  eapply rtc_l; [apply (credit_call 4112 0 (window_new 2) (window_after 1) [] [] [] 0 0); [vm_compute; reflexivity|lia]|].
  eapply rtc_l; [apply (credit_call 4112 0 (window_after 1) (window_after 2) [0] [] [] 1 1); [vm_compute; reflexivity|lia]|].
  apply rtc_once. apply (credit_process 4112 0 (window_after 2) 0 [1] [] [0] [] 0). vm_compute. reflexivity.
Defined.

(** A window of one slot grants one call only: its acknowledgement, of sequence number
    0, is not greater than the initial value. *)
Lemma window_of_one_sticks :
  let w := (Client.claim_slot 4112 (window_new 1)).1 in
  Server.ack_seq [] 0 0 = ([0], 0) /\ (Client.claim_slot 4112 (Client.process_credit_ack 0 w)).2 = Err Client.NoCredits.
Proof. vm_compute. split; reflexivity. Qed.

(** The acknowledgement is the largest number answered: when the last of four calls is
    answered first, the next call overwrites the slot of the first. *)
Lemma out_of_order_overwrites :
  let w := Nat.iter 4 (fun w => (Client.claim_slot 4112 w).1) (window_new 4) in
  Server.ack_seq [] 0 3 = ([3], 3) /\ (Client.claim_slot 4112 (Client.process_credit_ack 3 w)).2 = Ok (4, 0).
Proof. vm_compute. split; reflexivity. Qed.

(** The first direct call of connection 1 goes to slot 0 of the pool, which belongs to
    connection 0 and is not polled for connection 1. *)
Lemma direct_call_leaves_range :
  Server.local_endpoint demo_server0 1 = Some (Ok (4112, 4, 1)) /\
  (Client.claim_slot 4112 (window_new 4)).2 = Ok (0, 0) /\
  Mapping.get_slot_owner 0 (Server.mapping demo_server0) = Some 0 /\
  Server.conn_slots (Server.mapping demo_server0) 1 = [2; 3].
Proof. vm_compute. split; [|split; [|split]]; reflexivity. Qed.

(** Dropping the handle of a direct call frees a slot of the connection's ring, and
    the next allocation hands the slot out again. *)
Definition direct_dropped : option (list Z * result Z Pool.Error) :=
  '(c, o) ← Client.call_direct 9 (fun _ => true) demo_client 0 3 [65];
  match o with
  | Err _ => None
  | Ok (r, _) =>
      '(_, i) ← Pool.alloc (Client.pending_drop (Client.pool c) r);
      Some (Client.response_slots (Client.rings (conn_of c)), i)
  end.

Lemma dropped_ring_slot_reused : direct_dropped = Some ([11; 10; 9; 8; 7; 6; 5; 4], Ok 11).
Proof. vm_compute. reflexivity. Qed.

(** The handler answers with the first byte of the request. *)
Definition demo_handler : Server.RequestHandler := fun _ payload buf => (0, 1, take 1 payload ++ drop 1 buf).

Lemma response_delivered_witness :
  exists s' w p' resp,
    Server.answer no_rkey demo_handler (fun _ => true) demo_server0 (demo_incoming 7 2) = (s', [w]) /\
    rdma_response s' (demo_incoming 7 2) w (Pool.pool_new 0 1 4080) 0 = Some p' /\
    Client.pending_poll p' (Client.mkPending 0 7 0 None) = Some resp /\ Client.rr_payload resp = [65].
Proof.
  destruct (Server.answer no_rkey demo_handler (fun _ => true) demo_server0 (demo_incoming 7 2)) as [s' ws] eqn:Ea.
  assert (exists w, ws = [w]) as [w ->].
  { assert ((length (Server.answer no_rkey demo_handler (fun _ => true) demo_server0 (demo_incoming 7 2)).2) = 1%nat) as H
      by (vm_compute; reflexivity).
    rewrite Ea in H. destruct ws as [|w [|]]; [done| |done]. by exists w. }
  destruct (fit_is_Some 4 (Server.response_pool demo_server0) 2) as (sl & Hsl & Hfit);
    [by apply (iv_pools _ _ _ _ demo_server0_inv)|lia|].
  destruct (fit_is_Some 1 (Pool.pool_new 0 1 4080) 0) as (dst & Hdst & HdstL); [apply fit_new; lia|lia|].
  destruct (response_delivered 4 no_rkey demo_handler (fun _ => true) demo_server0 (demo_incoming 7 2) sl 0 1
    (take 1 [65; 66] ++ drop 1 (Server.response_buf sl)) s' w (Pool.pool_new 0 1 4080) 0 dst 0)
    as (p' & resp & H1 & H2 & _ & H3 & _).
  - by apply (iv_pools _ _ _ _ demo_server0_inv).
  - exact Hsl.
  - vm_compute. discriminate.
  - reflexivity.
  - rewrite length_app, length_drop. unfold Server.response_buf. destruct Hfit as [HL _].
    rewrite length_read_bytes; [reflexivity|]. rewrite HL. apply Nat.leb_le. vm_compute. reflexivity.
  - lia.
  - split; lia.
  - exact Ea.
  - split; [discriminate|reflexivity].
  - split; [discriminate|reflexivity].
  - vm_compute. split; [discriminate|reflexivity].
  - apply Forall_nil_2.
  - split; [discriminate|reflexivity].
  - vm_compute. split; [discriminate|reflexivity].
  - lia.
  - exact Hdst.
  - apply HdstL.
  - exists s', w, p', resp. split; [reflexivity|]. split; [exact H1|]. split; [exact H2|]. rewrite H3. reflexivity.
Defined.

End EndToEnd.
