(* ===== verification/Ipc.v ===== *)
(** * Ipc: calls over shared memory

    [ipc/src/lib.rs].  A server owns a shared memory region: a header and, for
    every client, a block with a liveness flag, a ring of requests, a ring of
    responses and an extra buffer.  The rings are those of [Onesided]; replies may
    come in any order, and a client keeps the user data of a call in the slot its
    request went to, until the response names that slot.  This file has the layout
    of the region and the operations of both sides; [IpcProps] has the interleaved
    semantics and the properties. *)
From S2P Require Import Prelude Onesided.

Module Ipc.

(** ** Layout of the region *)

Definition MAGIC : Z := 0x5250435346465721.
Definition VERSION : Z := 3.
Definition HEADER_SIZE : Z := 64.
Definition CACHE_LINE_SIZE : Z := 64.

Definition align_up (val align : Z) : Z :=
  Z.land (u64 (val + align - 1)) (not64 (align - 1)).

(** The offset of the extra buffer in a block, behind the control line and the
    two rings. *)
Definition extra_offset (req_slot_size resp_slot_size ring_depth : Z) : Z :=
  u64 (u64 (CACHE_LINE_SIZE + u64 (req_slot_size * ring_depth))
       + u64 (resp_slot_size * ring_depth)).

Definition per_client_block_size (req_slot_size resp_slot_size ring_depth extra_buffer_size : Z)
    : Z :=
  let control_size := CACHE_LINE_SIZE in
  let req_ring_size := u64 (req_slot_size * ring_depth) in
  let resp_ring_size := u64 (resp_slot_size * ring_depth) in
  align_up (u64 (u64 (u64 (control_size + req_ring_size) + resp_ring_size) + extra_buffer_size))
    CACHE_LINE_SIZE.

Definition total_shm_size
    (req_slot_size resp_slot_size max_clients ring_depth extra_buffer_size : Z) : Z :=
  u64 (HEADER_SIZE +
       u64 (per_client_block_size req_slot_size resp_slot_size ring_depth extra_buffer_size
            * max_clients)).

(** The addresses both sides compute, from the start of the region. *)
Definition block_base (block_size i : Z) : Z := u64 (HEADER_SIZE + u64 (i * block_size)).
Definition req_ring_base (base : Z) : Z := u64 (base + CACHE_LINE_SIZE).
Definition resp_ring_base (req_slot_size ring_depth base : Z) : Z :=
  u64 (base + u64 (CACHE_LINE_SIZE + u64 (ring_depth * req_slot_size))).

(** ** Shared data *)

Notation Slot := Onesided.Slot.
Notation Response := Onesided.Response.
Notation RawSender := Onesided.RawSender.
Notation RawReceiver := Onesided.RawReceiver.

(** [struct Header], without its padding. *)
Record Header : Type := mkHeader {
  magic : Z;
  version : Z;
  h_max_clients : Z;
  h_ring_depth : Z;
  h_req_slot_size : Z;
  h_resp_slot_size : Z;
  h_extra_buffer_size : Z;
  server_alive : bool;
  next_client_id : Z;
}.

Inductive CallError : Type := ServerDisconnected.
Inductive ConnectError : Type := ServerNotAlive | ServerFull | LayoutMismatch | Io.

(** [struct RequestToken]; a [ClientId] is its number. *)
Record RequestToken : Type := mkToken { tk_client_id : Z; tk_slot_idx : Z }.

(** How an operation that may spin ends: a panic, still spinning when the fuel is
    used up, or a value. *)
Inductive spin (A : Type) : Type := Panic | Spinning | Done (a : A).
Arguments Panic {A}.
Arguments Spinning {A}.
Arguments Done {A} _.

Section Ipc.
Context {Req Resp U : Type}.

(** The block of a client; its extra buffer is not accessed by the crate. *)
Record Block : Type := mkBlock {
  alive : bool;
  req_ring : list (Slot Req);
  resp_ring : list (Slot (Response Resp));
}.

Record Shm : Type := mkShm { header : Header; blocks : list Block }.

(** ** The server *)

(** [struct Server]; the control pointer of a client is the number of its block,
    [extra_ptrs] are offsets in the region. *)
Record Server : Type := mkServer {
  max_clients : Z;
  ring_depth : Z;
  req_rxs : list RawReceiver;
  resp_txs : list RawSender;
  control_ptrs : list nat;
  extra_ptrs : list Z;
  extra_buffer_size : Z;
  scan_pos : Z;
  recv_scan_pos : Z;
  req_avail : list Z;
  recv_start : Z;
}.

(** [struct RecvHandle], without the borrow of the server. *)
Record RecvHandle : Type := mkHandle {
  client_idx : nat;
  slot_idx : Z;
  rh_data : option Req;
}.

(** [Server::create]; [req_slot_size] and [resp_slot_size] are the sizes of the
    two slot types, and [None] is a failed assertion.  The region is created by
    the operating system: its failure is an [io::Error] and no server. *)
Definition create (req_slot_size resp_slot_size : Z)
    (max_clients ring_depth extra_buffer_size : Z) : option (Server * Shm) :=
  if is_power_of_two ring_depth && (0 <? max_clients) then
    let n := Z.to_nat max_clients in
    let depth := Z.to_nat ring_depth in
    let block_size :=
      per_client_block_size req_slot_size resp_slot_size ring_depth extra_buffer_size in
    let extra := extra_offset req_slot_size resp_slot_size ring_depth in
    let header :=
      mkHeader MAGIC VERSION max_clients ring_depth (u32 req_slot_size) (u32 resp_slot_size)
        extra_buffer_size true 0 in
    let block :=
      mkBlock false (replicate depth Onesided.slot_init) (replicate depth Onesided.slot_init) in
    Some (mkServer max_clients ring_depth
            (replicate n (Onesided.receiver_new ring_depth))
            (replicate n (Onesided.sender_new ring_depth))
            (seq 0 n)
            ((fun i => u64 (block_base block_size (Z.of_nat i) + extra)) <$> seq 0 n)
            extra_buffer_size 0 0 (replicate n 0) 0,
          mkShm header (replicate n block))
  else None.

Definition set_avail (idx : nat) (avail : Z) (s : Server) : Server :=
  mkServer (max_clients s) (ring_depth s) (req_rxs s) (resp_txs s) (control_ptrs s)
    (extra_ptrs s) (extra_buffer_size s) (scan_pos s) (recv_scan_pos s)
    (<[idx := avail]> (req_avail s)) (recv_start s).

(** The end of both polls. *)
Definition poll_done (scan : Z) (s : Server) : Server :=
  mkServer (max_clients s) (ring_depth s) (req_rxs s) (resp_txs s) (control_ptrs s)
    (extra_ptrs s) (extra_buffer_size s) scan 0 (req_avail s) scan.

(** One iteration of the scan of [poll] and [poll_with_skip] on client [idx]: the
    number of requests found there; [None] is an index out of range. *)
Definition scan_client (skip : list bool) (shm : Shm) (idx : nat) (s : Server)
    : option (Server * Z) :=
  if default false (skip !! idx) then Some (set_avail idx 0 s, 0)
  else
    control ← control_ptrs s !! idx;
    b ← blocks shm !! control;
    if negb (alive b) then Some (set_avail idx 0 s, 0)
    else
      rx ← req_rxs s !! idx;
      let avail := Onesided.count_available rx (ring_depth s) (req_ring b) in
      Some (set_avail idx avail s, avail).

Fixpoint scan_loop (skip : list bool) (shm : Shm) (n : nat) (scan count : Z) (s : Server)
    : option (Server * Z) :=
  match n with
  | O => Some (poll_done scan s, count)
  | S n =>
      let idx := Z.to_nat scan in
      r ← scan_client skip shm idx s;
      let '(s, avail) := (r : Server * Z) in
      scan_loop skip shm n (u32 (scan + 1) mod max_clients s) (u32 (count + avail)) s
  end.

Definition poll_with_skip (skip : list bool) (s : Server) (shm : Shm) : option (Server * Z) :=
  scan_loop skip shm (Z.to_nat (max_clients s)) (scan_pos s) 0 s.

(** [Server::poll] is the same scan without the test of [skip]. *)
Definition poll (s : Server) (shm : Shm) : option (Server * Z) := poll_with_skip [] s shm.

(** A request of client [idx] was taken. *)
Definition taken (idx : nat) (rx : RawReceiver) (s : Server) : Server :=
  mkServer (max_clients s) (ring_depth s) (<[idx := rx]> (req_rxs s)) (resp_txs s)
    (control_ptrs s) (extra_ptrs s) (extra_buffer_size s) (scan_pos s) (recv_scan_pos s)
    (alter (fun a => a - 1) idx (req_avail s)) (recv_start s).

Definition next_client (s : Server) : Server :=
  mkServer (max_clients s) (ring_depth s) (req_rxs s) (resp_txs s)
    (control_ptrs s) (extra_ptrs s) (extra_buffer_size s) (scan_pos s) (recv_scan_pos s + 1)
    (req_avail s) (recv_start s).

(** The loop of [recv]; [n] is the number of clients not yet passed. *)
Fixpoint recv_loop (n : nat) (s : Server) (shm : Shm) : option (Server * option RecvHandle) :=
  match n with
  | O => Some (s, None)
  | S n =>
      let idx := Z.to_nat (u32 (recv_start s + recv_scan_pos s) mod max_clients s) in
      avail ← req_avail s !! idx;
      if 0 <? avail then
        rx ← req_rxs s !! idx;
        b ← blocks shm !! idx;
        match Onesided.raw_try_recv rx (req_ring b) with
        | Some (rx, (slot, d)) => Some (taken idx rx s, Some (mkHandle idx slot d))
        | None => recv_loop n (next_client s) shm
        end
      else recv_loop n (next_client s) shm
  end.

Definition recv (s : Server) (shm : Shm) : option (Server * option RecvHandle) :=
  recv_loop (Z.to_nat (max_clients s - recv_scan_pos s)) s shm.

Definition into_token (h : RecvHandle) : RequestToken :=
  mkToken (Z.of_nat (client_idx h)) (slot_idx h).

(** [Server::reply]: the response is stored whatever the state of the ring. *)
Definition reply (t : RequestToken) (resp : Resp) (s : Server) (shm : Shm)
    : option (Server * Shm) :=
  let idx := Z.to_nat (tk_client_id t) in
  tx ← resp_txs s !! idx;
  b ← blocks shm !! idx;
  match Onesided.raw_try_send tx (Onesided.mkResponse (tk_slot_idx t) resp) (resp_ring b) with
  | Some (tx, m, _) =>
      Some (mkServer (max_clients s) (ring_depth s) (req_rxs s)
              (<[idx := Onesided.publish tx]> (resp_txs s)) (control_ptrs s) (extra_ptrs s)
              (extra_buffer_size s) (scan_pos s) (recv_scan_pos s) (req_avail s) (recv_start s),
            mkShm (header shm) (<[idx := mkBlock (alive b) (req_ring b) m]> (blocks shm)))
  | None => Some (s, shm)
  end.

(** [RecvHandle::reply]. *)
Definition handle_reply (h : RecvHandle) (resp : Resp) (s : Server) (shm : Shm)
    : option (Server * Shm) := reply (into_token h) resp s shm.

Definition is_client_connected (s : Server) (shm : Shm) (client_id : Z) : bool :=
  if max_clients s <=? client_id then false
  else match control_ptrs s !! Z.to_nat client_id ≫= fun i => blocks shm !! i with
       | Some b => alive b
       | None => false
       end.

Definition connected_clients (s : Server) (shm : Shm) : Z :=
  Z.of_nat (length (filter (fun i => is_client_connected s shm i = true)
                      (seqZ 0 (max_clients s)))).

Definition client_extra_buffer (s : Server) (client_id : Z) : option Z :=
  if (extra_buffer_size s =? 0) || (max_clients s <=? client_id) then None
  else extra_ptrs s !! Z.to_nat client_id.

Definition set_server_alive (v : bool) (h : Header) : Header :=
  mkHeader (magic h) (version h) (h_max_clients h) (h_ring_depth h) (h_req_slot_size h)
    (h_resp_slot_size h) (h_extra_buffer_size h) v (next_client_id h).

(** [Drop] of the server. *)
Definition drop_server (shm : Shm) : Shm :=
  mkShm (set_server_alive false (header shm)) (blocks shm).

(** ** The client *)

(** [struct Client]; the header and the block it points into are arguments of its
    operations, and what is given to [on_response] is returned. *)
Record Client : Type := mkClient {
  client_id : Z;
  c_ring_depth : Z;
  req_tx : RawSender;
  resp_rx : RawReceiver;
  extra_ptr : Z;
  c_extra_buffer_size : Z;
  in_flight : Z;
  user_data : list (option U);
}.

Definition set_next_client_id (v : Z) (h : Header) : Header :=
  mkHeader (magic h) (version h) (h_max_clients h) (h_ring_depth h) (h_req_slot_size h)
    (h_resp_slot_size h) (h_extra_buffer_size h) (server_alive h) v.

(** [Client::connect]: the region is opened twice, for its header and with its
    whole size; [None] is a region that cannot be opened.  [req_slot_size] and
    [resp_slot_size] are the sizes of the client's slot types. *)
Definition connect (req_slot_size resp_slot_size : Z) (region : option Shm)
    : option Shm * result Client ConnectError :=
  match region with
  | None => (None, Err Io)
  | Some shm =>
      let h := header shm in
      if negb (magic h =? MAGIC) then (region, Err LayoutMismatch)
      else if negb (version h =? VERSION) then (region, Err LayoutMismatch)
      else if negb (server_alive h) then (region, Err ServerNotAlive)
      else if negb (h_req_slot_size h =? u32 req_slot_size)
           || negb (h_resp_slot_size h =? u32 resp_slot_size)
      then (region, Err LayoutMismatch)
      else
        let idx := next_client_id h in
        let h' := set_next_client_id (u32 (idx + 1)) h in
        if h_max_clients h <=? idx then (Some (mkShm h' (blocks shm)), Err ServerFull)
        else
          let depth := h_ring_depth h in
          let block_size :=
            per_client_block_size (h_req_slot_size h) (h_resp_slot_size h) depth
              (h_extra_buffer_size h) in
          (Some (mkShm h'
             (alter (fun b => mkBlock true (req_ring b) (resp_ring b)) (Z.to_nat idx)
                (blocks shm))),
           Ok (mkClient idx depth (Onesided.sender_new depth) (Onesided.receiver_new depth)
                 (u64 (block_base block_size idx
                       + extra_offset (h_req_slot_size h) (h_resp_slot_size h) depth))
                 (h_extra_buffer_size h) 0 (replicate (Z.to_nat depth) None)))
  end.

(** A response arrived: its slot is free again. *)
Definition answered (slot : nat) (rx : RawReceiver) (c : Client) : Client :=
  mkClient (client_id c) (c_ring_depth c) (req_tx c) rx (extra_ptr c) (c_extra_buffer_size c)
    (in_flight c - 1) (<[slot := None]> (user_data c)).

(** The body of the loop of [poll] once a response was received: the callback
    made; [None] is a panic. *)
Definition take_response (rx : RawReceiver) (d : option (Response Resp)) (c : Client)
    : option (Client * (U * Resp)) :=
  response ← d;
  let slot := Z.to_nat (Onesided.token response) in
  ud ← user_data c !! slot;
  u ← ud;
  Some (answered slot rx c, (u, Onesided.resp_data response)).

(** The loop of [poll]: one iteration per call in flight at most, and the
    callbacks made; [None] is a panic. *)
Fixpoint poll_loop (n : nat) (c : Client) (b : Block) : option (Client * list (U * Resp)) :=
  match n with
  | O => Some (c, [])
  | S n =>
      match Onesided.raw_try_recv (resp_rx c) (resp_ring b) with
      | None => Some (c, [])
      | Some (rx, (_, d)) =>
          r ← take_response rx d c;
          let '(c, o) := (r : Client * (U * Resp)) in
          r ← poll_loop n c b;
          let '(c, out) := (r : Client * list (U * Resp)) in
          Some (c, o :: out)
      end
  end.

Definition client_poll (c : Client) (srv_alive : bool) (b : Block)
    : option (Client * list (U * Resp) * result Z CallError) :=
  r ← poll_loop (Z.to_nat (in_flight c)) c b;
  let '(c, out) := (r : Client * list (U * Resp)) in
  let count := Z.of_nat (length out) in
  if (count =? 0) && (0 <? in_flight c) && negb srv_alive
  then Some (c, out, Err ServerDisconnected)
  else Some (c, out, Ok count).

(** A request was sent from [slot]. *)
Definition called (slot : nat) (tx : RawSender) (u : U) (c : Client) : Client :=
  mkClient (client_id c) (c_ring_depth c) (Onesided.publish tx) (resp_rx c) (extra_ptr c)
    (c_extra_buffer_size c) (in_flight c + 1) (<[slot := Some u]> (user_data c)).

(** The end of [call], in the slot found free. *)
Definition call_send (req : Req) (u : U) (c : Client) (b : Block) : option (Client * Block) :=
  match Onesided.raw_try_send (req_tx c) req (req_ring b) with
  | None => None
  | Some (tx, m, slot) =>
      if decide (Z.to_nat slot < length (user_data c))%nat then
        Some (called (Z.to_nat slot) tx u c, mkBlock (alive b) m (resp_ring b))
      else None
  end.

(** What a spinning client waits for: [env] is what happens to the server's flag
    and to the block between two of its iterations. *)
Section Spin.
Variable env : bool * Block -> bool * Block.

Definition next_slot (c : Client) : nat :=
  Z.to_nat (Z.land (Onesided.head (req_tx c)) (c_ring_depth c - 1)).

Fixpoint call_loop (fuel : nat) (req : Req) (u : U) (c : Client) (mem : bool * Block)
    : spin (Client * (bool * Block) * list (U * Resp) * result unit CallError) :=
  match fuel with
  | O => Spinning
  | S fuel =>
      match user_data c !! next_slot c with
      | None => Panic
      | Some None =>
          match call_send req u c mem.2 with
          | None => Panic
          | Some (c, b) => Done (c, (mem.1, b), [], Ok tt)
          end
      | Some (Some _) =>
          match client_poll c mem.1 mem.2 with
          | None => Panic
          | Some (c, out, Err e) => Done (c, mem, out, Err e)
          | Some (c, out, Ok _) =>
              match call_loop fuel req u c (env mem) with
              | Done (c, mem, out', r) => Done (c, mem, out ++ out', r)
              | Panic => Panic
              | Spinning => Spinning
              end
          end
      end
  end.

Definition call (fuel : nat) (req : Req) (u : U) (c : Client) (mem : bool * Block)
    : spin (Client * (bool * Block) * list (U * Resp) * result unit CallError) :=
  if negb mem.1 then Done (c, mem, [], Err ServerDisconnected)
  else call_loop fuel req u c mem.

(** [SyncClient::call_blocking], in its two loops. *)
Fixpoint blocking_wait (fuel : nat) (c : Client) (mem : bool * Block)
    : spin (Client * (bool * Block) * result Resp CallError) :=
  match fuel with
  | O => Spinning
  | S fuel =>
      match Onesided.raw_try_recv (resp_rx c) (resp_ring mem.2) with
      | Some (rx, (_, Some response)) =>
          Done (mkClient (client_id c) (c_ring_depth c) (req_tx c) rx (extra_ptr c)
                  (c_extra_buffer_size c) (in_flight c - 1) (user_data c), mem,
                Ok (Onesided.resp_data response))
      | Some (_, (_, None)) => Panic
      | None =>
          if negb mem.1 then Done (c, mem, Err ServerDisconnected)
          else blocking_wait fuel c (env mem)
      end
  end.

Fixpoint blocking_room (fuel : nat) (c : Client) (mem : bool * Block)
    : spin (Client * (bool * Block) * result unit CallError) :=
  match fuel with
  | O => Spinning
  | S fuel =>
      if in_flight c <? c_ring_depth c then Done (c, mem, Ok tt)
      else match client_poll c mem.1 mem.2 with
           | None => Panic
           | Some (c, _, Err e) => Done (c, mem, Err e)
           | Some (c, _, Ok _) => blocking_room fuel c (env mem)
           end
  end.

Definition call_blocking (fuel : nat) (req : Req) (c : Client) (mem : bool * Block)
    : spin (Client * (bool * Block) * result Resp CallError) :=
  if negb mem.1 then Done (c, mem, Err ServerDisconnected)
  else match blocking_room fuel c mem with
       | Panic => Panic
       | Spinning => Spinning
       | Done (c, mem, Err e) => Done (c, mem, Err e)
       | Done (c, mem, Ok _) =>
           match Onesided.raw_try_send (req_tx c) req (req_ring mem.2) with
           | None => Panic
           | Some (tx, m, _) =>
               blocking_wait fuel
                 (mkClient (client_id c) (c_ring_depth c) (Onesided.publish tx) (resp_rx c)
                    (extra_ptr c) (c_extra_buffer_size c) (in_flight c + 1) (user_data c))
                 (mem.1, mkBlock (alive mem.2) m (resp_ring mem.2))
           end
       end.

End Spin.

Definition pending_count (c : Client) : Z := in_flight c.

(** [Drop] of the client. *)
Definition drop_client (b : Block) : Block := mkBlock false (req_ring b) (resp_ring b).

End Ipc.
Arguments Block : clear implicits.
Arguments Shm : clear implicits.
Arguments Client : clear implicits.
Arguments RecvHandle : clear implicits.
End Ipc.
