(* ===== verification/IpcProps.v ===== *)
(** * IpcProps: the shared memory calls under interleaving

    The areas of the region do not overlap; every call is answered with its own
    response, in whatever order the server replies and however the memory accesses
    of a client and the server interleave; the server hands out every request a
    poll has found; a blocking call returns the reply to its request. *)
From S2P Require Import Prelude Onesided Ipc.

Module IpcProps.
Import Ipc.

(** ** Areas of the region *)

Inductive Area : Type := Control | ReqRing | RespRing | Extra.

#[global] Instance Area_eq_dec : EqDecision Area.
Proof. solve_decision. Defined.

Section Layout.
Context (rs ps depth extra n : Z).
Context (Hrs : 0 < rs) (Hps : 0 < ps) (Hd : 0 < depth) (He : 0 <= extra) (Hn : 0 < n).
Context (Hfit : HEADER_SIZE + (rs * depth + ps * depth + extra + 127) * n < 2 ^ 64).

Local Notation bs := (per_client_block_size rs ps depth extra).

(** The bytes of an area of client [i], from the addresses the code computes. *)
Definition area (i : Z) (a : Area) : Z * Z :=
  let base := block_base bs i in
  match a with
  | Control => (base, base + CACHE_LINE_SIZE)
  | ReqRing => (req_ring_base base, req_ring_base base + rs * depth)
  | RespRing =>
      (resp_ring_base rs depth base, resp_ring_base rs depth base + ps * depth)
  | Extra =>
      let p := u64 (base + extra_offset rs ps depth) in (p, p + extra)
  end.

Lemma fit_block : rs * depth + ps * depth + extra + 127 < 2 ^ 64 - 64.
Proof. unfold HEADER_SIZE in Hfit. assert (0 < rs * depth) by nia. assert (0 < ps * depth) by nia. nia. Qed.

Lemma block_size_spec :
  rs * depth + ps * depth + extra + 64 <= bs <= rs * depth + ps * depth + extra + 127 /\ bs mod 64 = 0.
Proof.
  pose proof fit_block. assert (0 < rs * depth) by nia. assert (0 < ps * depth) by nia.
  unfold per_client_block_size, align_up, CACHE_LINE_SIZE in *.
  rewrite (u64_small (rs * depth)), (u64_small (ps * depth)) by lia.
  rewrite (u64_small (64 + _)) by lia. rewrite (u64_small (64 + _ + _)) by lia.
  rewrite (u64_small (64 + _ + _ + extra)) by lia. rewrite u64_small by lia.
  pose proof (align_up_mask_spec (64 + rs * depth + ps * depth + extra) 6 ltac:(lia) ltac:(lia) ltac:(lia)) as [Ha1 Ha2].
  unfold align_up_mask in *. change (2 ^ 6) with 64 in *. split; [|done]. lia.
Qed.

Lemma total_spec : total_shm_size rs ps n depth extra = HEADER_SIZE + bs * n.
Proof.
  pose proof block_size_spec as [H _]. unfold total_shm_size, HEADER_SIZE in *.
  assert (0 < rs * depth) by nia. assert (0 < ps * depth) by nia.
  rewrite (u64_small (bs * n)) by nia. apply u64_small. nia.
Qed.

Lemma base_spec i : 0 <= i < n -> block_base bs i = HEADER_SIZE + i * bs.
Proof.
  intros Hi. pose proof block_size_spec as [H _]. unfold block_base, HEADER_SIZE in *.
  assert (0 < rs * depth) by nia. assert (0 < ps * depth) by nia.
  rewrite (u64_small (i * bs)) by nia. apply u64_small. nia.
Qed.

(** Where an area lies, without wrap-around: one behind the other. *)
Lemma area_spec i a :
  0 <= i < n ->
  area i a =
    (let base := HEADER_SIZE + i * bs in
     match a with
     | Control => (base, base + 64)
     | ReqRing => (base + 64, base + 64 + rs * depth)
     | RespRing => (base + 64 + rs * depth, base + 64 + rs * depth + ps * depth)
     | Extra => (base + 64 + rs * depth + ps * depth,
                 base + 64 + rs * depth + ps * depth + extra)
     end).
Proof.
  intros Hi. pose proof block_size_spec as [H _]. pose proof fit_block.
  assert (0 < rs * depth) by nia. assert (0 < ps * depth) by nia.
  assert (HEADER_SIZE + i * bs + bs <= HEADER_SIZE + bs * n) by nia.
  assert (HEADER_SIZE + bs * n < 2 ^ 64) by nia. assert (0 <= i * bs) by nia.
  unfold area. rewrite base_spec by done.
  unfold req_ring_base, resp_ring_base, extra_offset, CACHE_LINE_SIZE, HEADER_SIZE in *.
  rewrite (Z.mul_comm depth rs).
  destruct a; [done|..]; rewrite ?(u64_small (rs * depth)), ?(u64_small (ps * depth)) by lia;
    rewrite ?(u64_small (64 + rs * depth)) by lia;
    rewrite ?(u64_small (64 + rs * depth + ps * depth)) by lia;
    rewrite ?u64_small by lia; f_equal; lia.
Qed.

(** Two areas of the region, of the same client or of two, have no byte in
    common, all lie behind the header and inside the region, and a block starts
    on a cache line. *)
Lemma areas_disjoint i j a b :
  0 <= i < n -> 0 <= j < n -> (i, a) <> (j, b) ->
  let '(p, p') := area i a in
  let '(q, q') := area j b in
  HEADER_SIZE <= p /\ p' <= total_shm_size rs ps n depth extra /\
  block_base bs i mod 64 = 0 /\ (p' <= q \/ q' <= p).
Proof.
  intros Hi Hj Hne. rewrite !area_spec, total_spec, base_spec by done.
  pose proof block_size_spec as [H H64]. assert (0 < rs * depth) by nia. assert (0 < ps * depth) by nia.
  assert (forall x, 0 <= x < n -> x * bs + bs <= bs * n) as Hend by (intros; nia).
  pose proof (Hend _ Hi). assert (0 <= i * bs) by nia.
  assert ((HEADER_SIZE + i * bs) mod 64 = 0) as Hal.
  { unfold HEADER_SIZE. apply aligned_add; [done|]. rewrite Z.mul_mod, H64, Z.mul_0_r by lia. done. }
  assert (i = j \/ i * bs + bs <= j * bs \/ j * bs + bs <= i * bs) as [->|Hij].
  { destruct (Z.lt_trichotomy i j) as [?|[?|?]]; [right; left; nia|by left|right; right; nia]. }
  - destruct a, b; try done; cbn; (split_and!; [lia|lia|done|lia]).
  - destruct a, b; cbn; (split_and!; [lia|lia|done|lia]).
Qed.
End Layout.

(** ** A client and the server on one block, interleaved

    [CSending]: the client has stored a request and not yet its generation;
    [CTaking]: it has seen the generation of a response and not yet read it.  The
    server's [VTaking] and [VReplying] are the same on its side.  [tokens] are the
    requests the server still owes a reply, by number, each with the slot index it
    was received with; the last four fields record the calls, requests received,
    replies and callbacks so far. *)

Section Lane.
Context {Req Resp U : Type}.

Inductive ClientPc : Type := CIdle | CSending (req : Req) (u : U) | CTaking.
Inductive ServerPc : Type := VIdle | VTaking | VReplying (n : nat) (r : Response Resp).

Record Lane : Type := mkLane {
  client : Client U;
  client_pc : ClientPc;
  srv_rx : RawReceiver;
  srv_tx : RawSender;
  server_pc : ServerPc;
  block : Block Req Resp;
  tokens : list (nat * Z);
  calls : list (Req * U);
  recvd : list (option Req);
  replied : list (nat * Response Resp);
  given : list (U * Resp);
}.

Definition with_req (m : list (Slot Req)) (b : Block Req Resp) : Block Req Resp :=
  mkBlock (alive b) m (resp_ring b).
Definition with_resp (m : list (Slot (Response Resp))) (b : Block Req Resp) : Block Req Resp :=
  mkBlock (alive b) (req_ring b) m.

Inductive lane_step : Lane -> Lane -> Prop :=
| call_store c rx tx vpc b tks ca re rp gi req u :
    user_data c !! next_slot c = Some None ->
    lane_step (mkLane c CIdle rx tx vpc b tks ca re rp gi)
      (mkLane c (CSending req u) rx tx vpc
         (with_req (Onesided.send_store (req_tx c) req (req_ring b)) b) tks ca re rp gi)
| call_commit c req u rx tx vpc b tks ca re rp gi tx' m i :
    Onesided.send_commit (req_tx c) (req_ring b) = (tx', m, i) ->
    lane_step (mkLane c (CSending req u) rx tx vpc b tks ca re rp gi)
      (mkLane (called (Z.to_nat i) tx' u c) CIdle rx tx vpc (with_req m b) tks
         (ca ++ [(req, u)]) re rp gi)
| response_check c rx tx vpc b tks ca re rp gi :
    0 < in_flight c -> Onesided.recv_check (resp_rx c) (resp_ring b) = true ->
    lane_step (mkLane c CIdle rx tx vpc b tks ca re rp gi)
      (mkLane c CTaking rx tx vpc b tks ca re rp gi)
| response_take c rx tx vpc b tks ca re rp gi rx' i d c' o :
    Onesided.recv_take (resp_rx c) (resp_ring b) = (rx', (i, d)) ->
    take_response rx' d c = Some (c', o) ->
    lane_step (mkLane c CTaking rx tx vpc b tks ca re rp gi)
      (mkLane c' CIdle rx tx vpc b tks ca re rp (gi ++ [o]))
| request_check c cpc rx tx b tks ca re rp gi :
    Onesided.recv_check rx (req_ring b) = true ->
    lane_step (mkLane c cpc rx tx VIdle b tks ca re rp gi)
      (mkLane c cpc rx tx VTaking b tks ca re rp gi)
| request_take c cpc rx tx b tks ca re rp gi rx' i d :
    Onesided.recv_take rx (req_ring b) = (rx', (i, d)) ->
    lane_step (mkLane c cpc rx tx VTaking b tks ca re rp gi)
      (mkLane c cpc rx' tx VIdle b (tks ++ [(length re, i)]) ca (re ++ [d]) rp gi)
| reply_store c cpc rx tx b tks tks' ca re rp gi n i resp :
    tks ≡ₚ (n, i) :: tks' ->
    lane_step (mkLane c cpc rx tx VIdle b tks ca re rp gi)
      (mkLane c cpc rx tx (VReplying n (Onesided.mkResponse i resp))
         (with_resp (Onesided.send_store tx (Onesided.mkResponse i resp) (resp_ring b)) b)
         tks' ca re rp gi)
| reply_commit c cpc rx tx n r b tks ca re rp gi tx' m i :
    Onesided.send_commit tx (resp_ring b) = (tx', m, i) ->
    lane_step (mkLane c cpc rx tx (VReplying n r) b tks ca re rp gi)
      (mkLane c cpc rx (Onesided.publish tx') VIdle (with_resp m b) tks ca re (rp ++ [(n, r)]) gi)
| token_dropped c cpc rx tx vpc b tks tks' ca re rp gi t :
    tks ≡ₚ t :: tks' ->
    lane_step (mkLane c cpc rx tx vpc b tks ca re rp gi)
      (mkLane c cpc rx tx vpc b tks' ca re rp gi)
| client_dropped c rx tx vpc b tks ca re rp gi :
    lane_step (mkLane c CIdle rx tx vpc b tks ca re rp gi)
      (mkLane c CIdle rx tx vpc (drop_client b) tks ca re rp gi).

(** The lane of the [i]-th client that connects to a new server. *)
Definition lane_new (rs ps max_clients depth extra i : Z) : option Lane :=
  match create (Req := Req) (Resp := Resp) rs ps max_clients depth extra with
  | None => None
  | Some (s, shm) =>
      match connect rs ps (Some (mkShm (set_next_client_id i (header shm)) (blocks shm))) with
      | (Some shm, Ok c) =>
          rx ← req_rxs s !! Z.to_nat i;
          tx ← resp_txs s !! Z.to_nat i;
          b ← blocks shm !! Z.to_nat i;
          Some (mkLane c CIdle rx tx VIdle b [] [] [] [] [])
      | _ => None
      end
  end.

End Lane.
Arguments Lane : clear implicits.
Arguments ClientPc : clear implicits.
Arguments ServerPc : clear implicits.

(** ** The invariant of a lane *)

Section Invariant.
Context {Req Resp U : Type} (k : Z) (Hk : 0 <= k <= 63).
Local Notation cap := (2 ^ k).
Implicit Types l : Lane Req Resp U.

Definition pending_req (pc : ClientPc Req U) : option Req :=
  match pc with CSending r _ => Some r | _ => None end.
Definition pending_resp (pc : ServerPc Resp) : option (nat * Response Resp) :=
  match pc with VReplying n r => Some (n, r) | _ => None end.

(** The slot of the [n]-th call. *)
Definition slot_of (n : nat) : nat := Z.to_nat (Z.of_nat n mod cap).

(** The requests received, by number: still owed a reply, being replied to,
    replied to. *)
Definition owed l : list nat :=
  (tokens l).*1 ++ option_list (fst <$> pending_resp (server_pc l)) ++ (replied l).*1.

(** The calls whose response the client has taken. *)
Definition done l : list nat := take (length (given l)) (replied l).*1.

Definition outstanding l (n : nat) : Prop := (n < length (calls l))%nat /\ n ∉ done l.

(** A callback [g] is that of the reply [p]: the user data of the call replied to,
    and the data of the reply. *)
Definition matches (cs : list (Req * U)) (g : U * Resp) (p : nat * Response Resp) : Prop :=
  exists q, cs !! p.1 = Some (q, g.1) /\ g.2 = Onesided.resp_data p.2.

Record lane_ok l : Prop := mk_lane_ok {
  lo_req : Onesided.ring_ok cap (calls l).*1 (Z.of_nat (length (recvd l)))
             (pending_req (client_pc l)) (req_ring (block l));
  lo_resp : Onesided.ring_ok cap (replied l).*2 (Z.of_nat (length (given l)))
              (snd <$> pending_resp (server_pc l)) (resp_ring (block l));
  lo_tx : Onesided.sender_at k (length (calls l)) (req_tx (client l));
  lo_rx : Onesided.receiver_at k (length (recvd l)) (srv_rx l);
  lo_rtx : Onesided.sender_at k (length (replied l)) (srv_tx l);
  lo_rrx : Onesided.receiver_at k (length (given l)) (resp_rx (client l));
  lo_depth : c_ring_depth (client l) = cap;
  lo_recvd : Onesided.prefix_received (recvd l) (calls l).*1;
  lo_owed : NoDup (owed l) /\ Forall (fun n => (n < length (recvd l))%nat) (owed l);
  lo_slots : Forall (fun t => t.2 = Z.of_nat t.1 mod cap) (tokens l) /\
    Forall (fun p => Onesided.token p.2 = Z.of_nat p.1 mod cap)
      (option_list (pending_resp (server_pc l)) ++ replied l);
  lo_distinct : forall n n', outstanding l n -> outstanding l n' -> slot_of n = slot_of n' -> n = n';
  lo_length : Z.of_nat (length (user_data (client l))) = cap;
  lo_user : forall j u, user_data (client l) !! j = Some (Some u) <->
    exists n q, outstanding l n /\ slot_of n = j /\ calls l !! n = Some (q, u);
  lo_in_flight : in_flight (client l) = Z.of_nat (length (calls l)) - Z.of_nat (length (given l));
  lo_given : Forall2 (matches (calls l)) (given l) (take (length (given l)) (replied l));
  lo_client_pc : match client_pc l with
                 | CIdle => True
                 | CSending _ _ => user_data (client l) !! slot_of (length (calls l)) = Some None
                 | CTaking => (length (given l) < length (replied l))%nat
                 end;
  lo_server_pc : match server_pc l with
                 | VTaking => (length (recvd l) < length (calls l))%nat
                 | _ => True
                 end;
}.

Lemma slot_of_lt n : Z.of_nat (slot_of n) < cap.
Proof. unfold slot_of. pose proof (Onesided.idx_range k Hk (Z.of_nat n)). lia. Qed.

Lemma next_slot_at n (c : Client U) :
  Onesided.sender_at k n (req_tx c) -> c_ring_depth c = cap -> next_slot c = slot_of n.
Proof.
  intros [_ Hh] Hd. unfold next_slot, slot_of. by rewrite Hh, Hd, Onesided.masked_idx.
Qed.

Lemma done_owed l n : n ∈ done l -> n ∈ owed l.
Proof.
  unfold done, owed. intros Hn. rewrite !elem_of_app. right. right.
  rewrite <-(take_drop (length (given l)) (replied l).*1). apply elem_of_app. by left.
Qed.

Lemma unreceived_outstanding l n :
  lane_ok l -> (length (recvd l) <= n < length (calls l))%nat -> outstanding l n.
Proof.
  intros Hok Hn. split; [lia|]. intros Hd%done_owed.
  destruct (lo_owed _ Hok) as [_ Hall]. rewrite Forall_forall in Hall. apply Hall in Hd. lia.
Qed.

(** A slot without user data belongs to no outstanding call, and the request ring
    has room for its request. *)
Lemma free_slot l :
  lane_ok l -> user_data (client l) !! slot_of (length (calls l)) = Some None ->
  (forall n, outstanding l n -> slot_of n <> slot_of (length (calls l))) /\
  Z.of_nat (length (calls l)) < Z.of_nat (length (recvd l)) + cap.
Proof.
  intros Hok Hf. assert (forall n, outstanding l n -> slot_of n <> slot_of (length (calls l))) as H.
  { intros n Hn E. destruct (lookup_lt_is_Some_2 (calls l) n (proj1 Hn)) as [[q u] Hc].
    assert (user_data (client l) !! slot_of n = Some (Some u)) as Hu by (apply (lo_user _ Hok); eauto).
    rewrite E in Hu. congruence. }
  split; [done|]. pose proof (Onesided.cap_range k Hk).
  destruct (decide (Z.of_nat (length (calls l)) < Z.of_nat (length (recvd l)) + cap)) as [|Hge]; [done|].
  exfalso. apply (H (Z.to_nat (Z.of_nat (length (calls l)) - cap))).
  - apply unreceived_outstanding; [done|lia].
  - unfold slot_of. rewrite Z2Nat.id by lia. by rewrite Onesided.mod_shift by lia.
Qed.

Lemma owed_outstanding l n :
  lane_ok l -> n ∈ owed l -> n ∉ done l -> outstanding l n.
Proof.
  intros Hok Hn Hd. split; [|done]. destruct (lo_owed _ Hok) as [_ Hall].
  rewrite Forall_forall in Hall. apply Hall in Hn.
  pose proof (Onesided.ro_taken _ _ _ _ _ (lo_req _ Hok)) as Ht. rewrite length_fmap in Ht. lia.
Qed.

(** What is owed and not yet taken by the client. *)
Definition waiting l : list nat :=
  (tokens l).*1 ++ option_list (fst <$> pending_resp (server_pc l)) ++
  drop (length (given l)) (replied l).*1.

Lemma owed_waiting l : owed l ≡ₚ done l ++ waiting l.
Proof.
  unfold owed, done, waiting.
  rewrite <-(take_drop (length (given l)) (replied l).*1) at 1.
  set (x := take _ _). set (y := drop _ _).
  rewrite (Permutation_app_swap_app x). apply Permutation_app_head.
  by rewrite (Permutation_app_swap_app x).
Qed.

(** Outstanding calls have slots of their own, so there are at most as many as
    slots. *)
Lemma outstanding_bound l ws :
  lane_ok l -> NoDup ws -> (forall n, n ∈ ws -> outstanding l n) -> Z.of_nat (length ws) <= cap.
Proof.
  intros Hok Hnd Hout. pose proof (Onesided.cap_range k Hk).
  assert (NoDup (slot_of <$> ws)) as Hs.
  { revert Hnd Hout. induction ws as [|n ws IH]; [constructor|].
    intros [Hn Hnd]%NoDup_cons Hout. cbn. apply NoDup_cons. split.
    - intros (n' & E & Hn')%list_elem_of_fmap. apply Hn.
      rewrite (lo_distinct _ Hok n n'); [done| | |done]; apply Hout; set_solver.
    - apply IH; [done|]. intros n' Hn'. apply Hout. set_solver. }
  assert (slot_of <$> ws ⊆+ seq 0 (Z.to_nat cap)) as Hsub.
  { apply NoDup_submseteq; [done|]. intros j (n & -> & _)%list_elem_of_fmap.
    apply elem_of_seq. pose proof (slot_of_lt n). lia. }
  apply submseteq_length in Hsub. rewrite length_fmap, length_seq in Hsub. lia.
Qed.

Lemma waiting_bound l : lane_ok l -> Z.of_nat (length (waiting l)) <= cap.
Proof.
  intros Hok. assert (NoDup (done l ++ waiting l)) as (_ & Hdis & Hnd)%NoDup_app.
  { rewrite <-owed_waiting. apply Hok. }
  apply (outstanding_bound l); [done..|]. intros n Hn. apply owed_outstanding; [done| |set_solver].
  rewrite owed_waiting. apply elem_of_app. by right.
Qed.

Lemma in_flight_bound l : lane_ok l -> 0 <= in_flight (client l) <= cap.
Proof.
  intros Hok. rewrite (lo_in_flight _ Hok).
  set (ws := filter (fun n => n ∉ done l) (seq 0 (length (calls l)))).
  pose proof (Onesided.ro_taken _ _ _ _ _ (lo_resp _ Hok)) as Hg. rewrite length_fmap in Hg.
  assert (length (done l) = length (given l)) as Hlen.
  { unfold done. rewrite length_take, length_fmap. lia. }
  assert (NoDup (done l ++ waiting l)) as (Hnd & _ & _)%NoDup_app.
  { rewrite <-owed_waiting. apply Hok. }
  assert (length (done l) <= length (calls l))%nat as Hle.
  { assert (done l ⊆+ seq 0 (length (calls l))) as Hs; [|apply submseteq_length in Hs;
      by rewrite length_seq in Hs]. apply NoDup_submseteq; [done|]. intros n Hn%done_owed. apply elem_of_seq. destruct (lo_owed _ Hok) as [_ Hall].
    rewrite Forall_forall in Hall. apply Hall in Hn.
    pose proof (Onesided.ro_taken _ _ _ _ _ (lo_req _ Hok)) as Ht. rewrite length_fmap in Ht. lia. }
  split; [lia|]. assert (Z.of_nat (length ws) <= cap) as Hws.
  { apply (outstanding_bound l); [done|apply NoDup_filter, NoDup_seq|].
    intros n [Hn Hin]%list_elem_of_filter. apply elem_of_seq in Hin. split; [lia|done]. }
  assert (seq 0 (length (calls l)) ⊆+ done l ++ ws) as Hsub.
  { apply NoDup_submseteq; [apply NoDup_seq|]. intros n Hn. apply elem_of_app.
    destruct (decide (n ∈ done l)); [by left|right]. by apply list_elem_of_filter. }
  apply submseteq_length in Hsub. rewrite length_app, length_seq in Hsub. lia.
Qed.

(** A reply finds room in the response ring. *)
Lemma reply_room l :
  lane_ok l -> tokens l <> [] ->
  Z.of_nat (length (replied l)) < Z.of_nat (length (given l)) + cap.
Proof.
  intros Hok Ht. pose proof (waiting_bound l Hok) as Hw. unfold waiting in Hw.
  rewrite !length_app, length_drop, !length_fmap in Hw.
  destruct (tokens l); [done|]. cbn [length] in Hw. lia.
Qed.

(** The next response is that of an outstanding call, which its token names. *)
Lemma next_response l n r :
  lane_ok l -> replied l !! length (given l) = Some (n, r) ->
  outstanding l n /\ Onesided.token r = Z.of_nat n mod cap /\
  exists q u, calls l !! n = Some (q, u) /\ user_data (client l) !! slot_of n = Some (Some u).
Proof.
  intros Hok Hr.
  assert ((replied l).*1 !! length (given l) = Some n) as Hn by by rewrite list_lookup_fmap, Hr.
  assert (n ∉ done l) as Hd.
  { unfold done. intros (i & Hi)%list_elem_of_lookup. apply lookup_take_Some in Hi as [Hi Hlt].
    destruct (lo_owed _ Hok) as [(_ & _ & (_ & _ & Hnd)%NoDup_app)%NoDup_app _].
    pose proof (NoDup_lookup _ _ _ _ Hnd Hi Hn). lia. }
  assert (outstanding l n) as Ho.
  { apply owed_outstanding; [done| |done]. unfold owed. rewrite !elem_of_app. right. right.
    by eapply list_elem_of_lookup_2. }
  split; [done|]. split.
  - destruct (lo_slots _ Hok) as [_ Hf]. apply Forall_app in Hf as [_ Hf].
    by apply (Forall_lookup_1 _ _ _ _ Hf Hr).
  - destruct (lookup_lt_is_Some_2 (calls l) n (proj1 Ho)) as [[q u] Hc].
    exists q, u. split; [done|]. apply (lo_user _ Hok). eauto.
Qed.


(** *** The steps *)

Ltac same Hok := first [exact (lo_req _ Hok) | exact (lo_resp _ Hok) | exact (lo_tx _ Hok)
  | exact (lo_rx _ Hok) | exact (lo_rtx _ Hok) | exact (lo_rrx _ Hok) | exact (lo_depth _ Hok)
  | exact (lo_recvd _ Hok) | exact (lo_owed _ Hok) | exact (lo_slots _ Hok)
  | exact (lo_distinct _ Hok) | exact (lo_length _ Hok) | exact (lo_user _ Hok)
  | exact (lo_in_flight _ Hok) | exact (lo_given _ Hok) | exact (lo_client_pc _ Hok)
  | exact (lo_server_pc _ Hok) | exact I].
Ltac lane Hok := constructor; try same Hok.

Lemma call_store_ok c rx tx vpc b tks ca re rp gi req u :
  user_data c !! next_slot c = Some None ->
  lane_ok (mkLane c CIdle rx tx vpc b tks ca re rp gi) ->
  lane_ok (mkLane c (CSending req u) rx tx vpc
             (with_req (Onesided.send_store (req_tx c) req (req_ring b)) b) tks ca re rp gi).
Proof.
  intros Hf Hok. rewrite (next_slot_at (length ca) c (lo_tx _ Hok) (lo_depth _ Hok)) in Hf.
  destruct (free_slot _ Hok Hf) as [_ Hroom]. lane Hok; cbn in *; [|done].
  apply Onesided.store_at; [done|exact (lo_req _ Hok)|..]; rewrite length_fmap.
  - exact (lo_tx _ Hok).
  - done.
Qed.

Lemma outstanding_snoc c cpc c' cpc' rx tx vpc b b' tks ca re rp gi x n :
  lane_ok (mkLane c cpc rx tx vpc b tks ca re rp gi) ->
  outstanding (mkLane c' cpc' rx tx vpc b' tks (ca ++ [x]) re rp gi) n <->
  outstanding (mkLane c cpc rx tx vpc b tks ca re rp gi) n \/ n = length ca.
Proof.
  intros Hok. unfold outstanding. cbn. rewrite length_app. cbn. split; [intros []|intros [[]| ->]].
  - destruct (decide (n = length ca)); [by right|left; split; [lia|done]].
  - split; [lia|done].
  - split; [lia|]. intros Hd%(done_owed (mkLane c cpc rx tx vpc b tks ca re rp gi)).
    destruct (lo_owed _ Hok) as [_ Hall]. rewrite Forall_forall in Hall. apply Hall in Hd.
    pose proof (Onesided.ro_taken _ _ _ _ _ (lo_req _ Hok)) as Ht.
    cbn in *. rewrite length_fmap in Ht. lia.
Qed.

Lemma call_commit_ok c req u rx tx vpc b tks ca re rp gi tx' m i :
  Onesided.send_commit (req_tx c) (req_ring b) = (tx', m, i) ->
  lane_ok (mkLane c (CSending req u) rx tx vpc b tks ca re rp gi) ->
  lane_ok (mkLane (called (Z.to_nat i) tx' u c) CIdle rx tx vpc (with_req m b) tks
             (ca ++ [(req, u)]) re rp gi).
Proof.
  intros Hc Hok. pose proof (lo_client_pc _ Hok) as Hf. cbn in Hf.
  destruct (free_slot _ Hok Hf) as [Hfresh _]. cbn in Hfresh.
  assert (i = Z.of_nat (length ca) mod cap) as Hi.
  { injection Hc as _ _ <-. apply (Onesided.send_idx_at k Hk), (lo_tx _ Hok). }
  assert (Z.to_nat i = slot_of (length ca)) as Hs by by rewrite Hi.
  assert (Onesided.sender_at k (length ca.*1) (req_tx c)) as Htx
    by (rewrite length_fmap; exact (lo_tx _ Hok)).
  destruct (Onesided.commit_at k Hk ca.*1 _ req _ _ _ _ _ (lo_req _ Hok) Htx Hc) as [H1 H2].
  pose proof (Onesided.ro_taken _ _ _ _ _ (lo_req _ Hok)) as Hle.

  cbn in *. rewrite length_app, length_fmap in H2. rewrite length_fmap in Hle.
  lane Hok; cbn in *; rewrite ?fmap_app, ?Hs; cbn.
  - done.
  - rewrite length_app. exact H2.
  - apply Onesided.prefix_received_more; [exact (lo_recvd _ Hok)|]. rewrite length_fmap. lia.
  - intros n n'. rewrite !(outstanding_snoc c (CSending req u) _ _ _ _ _ b) by done.
    intros [Hn| ->] [Hn'| ->] E; [by apply (lo_distinct _ Hok)|..|done].
    + by apply Hfresh in Hn.
    + symmetry in E. by apply Hfresh in Hn'.
  - rewrite length_insert. exact (lo_length _ Hok).
  - intros j v. setoid_rewrite (outstanding_snoc c (CSending req u) _ _ _ _ _ b); [|done].
    destruct (decide (j = slot_of (length ca))) as [->|Hne].
    + rewrite list_lookup_insert_eq by by eapply lookup_lt_Some. split.
      * intros [= <-]. exists (length ca), req. split_and!; [by right|done|].
        by rewrite lookup_app_r, Nat.sub_diag by lia.
      * intros (n & q & [Hn| ->] & E & Hq); [by apply Hfresh in Hn|].
        rewrite lookup_app_r, Nat.sub_diag in Hq by lia. by injection Hq as <- <-.
    + rewrite list_lookup_insert_ne by done. rewrite (lo_user _ Hok j v). cbn. split.
      * intros (n & q & Hn & E & Hq). exists n, q. split_and!; [by left|done|].
        by apply lookup_app_l_Some.
      * intros (n & q & [Hn| ->] & E & Hq); [|done]. exists n, q. split_and!; [done..|].
        destruct Hn as [Hn _]. cbn in Hn. by rewrite lookup_app_l in Hq.
  - rewrite length_app. cbn. pose proof (lo_in_flight _ Hok) as Hin. cbn in Hin. lia.
  - eapply Forall2_impl; [exact (lo_given _ Hok)|]. intros g p (q & Hq & E). exists q.
    split; [by apply lookup_app_l_Some|done].
  - pose proof (lo_server_pc _ Hok) as Hv. cbn in Hv. destruct vpc; [done| |done].
    rewrite length_app. lia.
Qed.


Lemma done_snoc c cpc c' cpc' rx tx vpc b tks ca re rp gi o n r :
  rp !! length gi = Some (n, r) ->
  done (mkLane c' cpc' rx tx vpc b tks ca re rp (gi ++ [o])) =
  done (mkLane c cpc rx tx vpc b tks ca re rp gi) ++ [n].
Proof.
  intros Hr. unfold done. cbn. rewrite length_app, Nat.add_1_r.
  apply take_S_r. by rewrite list_lookup_fmap, Hr.
Qed.

(** The client takes the next response and gives it to the callback with the user
    data of its call. *)
Lemma response_take_ok c rx tx vpc b tks ca re rp gi rx' i d :
  Onesided.recv_take (resp_rx c) (resp_ring b) = (rx', (i, d)) ->
  lane_ok (mkLane c CTaking rx tx vpc b tks ca re rp gi) ->
  exists c' o, take_response rx' d c = Some (c', o) /\
    lane_ok (mkLane c' CIdle rx tx vpc b tks ca re rp (gi ++ [o])).
Proof.
  intros Ht Hok. pose proof (lo_client_pc _ Hok) as Hlt. cbn in Hlt.
  assert (length gi < length rp.*2)%nat as Hlt' by by rewrite length_fmap.
  destruct (Onesided.take_at k Hk _ _ _ _ _ _ _ _ (lo_resp _ Hok) (lo_rrx _ Hok) Hlt' Ht)
    as (Hd & _ & Hrx & Hring). cbn in Hd, Hring.
  destruct (lookup_lt_is_Some_2 rp (length gi) Hlt) as [[n r] Hr].
  destruct (next_response _ _ _ Hok Hr) as (Hout & Htok & q & u & Hq & Hu). cbn in Hq, Hu.
  rewrite list_lookup_fmap, Hr in Hd. cbn in Hd. subst d.
  unfold take_response. cbn [mbind option_bind]. rewrite Htok. fold (slot_of n). rewrite Hu.
  cbn [mbind option_bind]. eexists _, _. split; [done|].
  pose proof (done_snoc c CTaking (answered (slot_of n) rx' c) CIdle rx tx vpc b tks ca re rp gi
                (u, Onesided.resp_data r) n r Hr) as Hdone.
  assert (forall n', outstanding (mkLane (answered (slot_of n) rx' c) CIdle rx tx vpc b tks ca re rp
                       (gi ++ [(u, Onesided.resp_data r)])) n' <->
            outstanding (mkLane c CTaking rx tx vpc b tks ca re rp gi) n' /\ n' <> n) as Hout'.
  { intros n'. unfold outstanding. rewrite Hdone, not_elem_of_app, list_elem_of_singleton. cbn. tauto. }
  lane Hok; cbn; rewrite ?length_app, ?length_insert, ?Nat.add_1_r.
  - done.
  - done.
  - intros n1 n2. rewrite !Hout'. intros [H1 _] [H2 _]. by apply (lo_distinct _ Hok).
  - exact (lo_length _ Hok).
  - intros j v. setoid_rewrite Hout'. destruct (decide (j = slot_of n)) as [->|Hne].
    + rewrite list_lookup_insert_eq by by eapply lookup_lt_Some. split; [done|].
      intros (n' & q' & [Hn' Hx] & E & _). by apply (lo_distinct _ Hok) in E.
    + rewrite list_lookup_insert_ne by done. rewrite (lo_user _ Hok j v). cbn.
      split; intros (n' & q' & Hn' & E & Hq'); exists n', q'; (split; [|done]).
      * split; [done|]. by intros ->.
      * by destruct Hn'.
  - pose proof (lo_in_flight _ Hok) as Hin. cbn in Hin. lia.
  - rewrite (take_S_r _ _ _ Hr). apply Forall2_app; [exact (lo_given _ Hok)|].
    constructor; [|constructor]. by exists q.
Qed.

Lemma request_take_ok c cpc rx tx b tks ca re rp gi rx' i d :
  Onesided.recv_take rx (req_ring b) = (rx', (i, d)) ->
  lane_ok (mkLane c cpc rx tx VTaking b tks ca re rp gi) ->
  lane_ok (mkLane c cpc rx' tx VIdle b (tks ++ [(length re, i)]) ca (re ++ [d]) rp gi).
Proof.
  intros Ht Hok. pose proof (lo_server_pc _ Hok) as Hlt. cbn in Hlt.
  assert (length re < length ca.*1)%nat as Hlt' by by rewrite length_fmap.
  destruct (Onesided.take_at k Hk _ _ _ _ _ _ _ _ (lo_req _ Hok) (lo_rx _ Hok) Hlt' Ht)
    as (-> & -> & Hrx & Hring).
  destruct (lo_owed _ Hok) as [Hnd Hall]. destruct (lo_slots _ Hok) as [Hs1 Hs2].
  assert (owed (mkLane c cpc rx' tx VIdle b (tks ++ [(length re, Z.of_nat (length re) mod cap)]) ca
            (re ++ [ca.*1 !! length re]) rp gi)
          ≡ₚ length re :: owed (mkLane c cpc rx tx VTaking b tks ca re rp gi)) as Hp.
  { unfold owed. cbn. rewrite fmap_app, <-app_assoc. cbn. by rewrite <-Permutation_middle. }
  lane Hok; cbn in *; rewrite ?length_app, ?Nat.add_1_r; try done.
  - by apply Onesided.prefix_received_snoc; [exact (lo_recvd _ Hok)|].
  - rewrite Hp. split.
    + apply NoDup_cons. split; [|done]. intros Hin. rewrite Forall_forall in Hall.
      apply Hall in Hin. lia.
    + constructor; [lia|]. eapply Forall_impl; [exact Hall|]. cbn. lia.
  - split; [|done]. apply Forall_app. split; [done|]. by repeat constructor.
Qed.

Lemma reply_store_ok c cpc rx tx b tks tks' ca re rp gi n i resp :
  tks ≡ₚ (n, i) :: tks' ->
  lane_ok (mkLane c cpc rx tx VIdle b tks ca re rp gi) ->
  lane_ok (mkLane c cpc rx tx (VReplying n (Onesided.mkResponse i resp))
             (with_resp (Onesided.send_store tx (Onesided.mkResponse i resp) (resp_ring b)) b)
             tks' ca re rp gi).
Proof.
  intros Hp Hok.
  assert (Z.of_nat (length rp) < Z.of_nat (length gi) + cap) as Hroom.
  { apply (reply_room _ Hok). cbn. intros ->. by apply Permutation_nil_cons in Hp. }
  destruct (lo_owed _ Hok) as [Hnd Hall]. destruct (lo_slots _ Hok) as [Hs1 Hs2]. cbn in Hs1, Hs2.
  rewrite Hp in Hs1. apply Forall_cons in Hs1 as [Hi Hs1]. cbn in Hi.
  assert (owed (mkLane c cpc rx tx (VReplying n (Onesided.mkResponse i resp))
            (with_resp (Onesided.send_store tx (Onesided.mkResponse i resp) (resp_ring b)) b)
            tks' ca re rp gi)
          ≡ₚ owed (mkLane c cpc rx tx VIdle b tks ca re rp gi)) as Hq.
  { unfold owed. cbn. rewrite Hp. cbn. by rewrite <-Permutation_middle. }
  lane Hok; cbn; try done.
  - apply Onesided.store_at; [done|exact (lo_resp _ Hok)|..]; rewrite length_fmap.
    + exact (lo_rtx _ Hok).
    + done.
  - by rewrite Hq.
  - split; [done|]. by constructor.
Qed.

Lemma reply_commit_ok c cpc rx tx n r b tks ca re rp gi tx' m i :
  Onesided.send_commit tx (resp_ring b) = (tx', m, i) ->
  lane_ok (mkLane c cpc rx tx (VReplying n r) b tks ca re rp gi) ->
  lane_ok (mkLane c cpc rx (Onesided.publish tx') VIdle (with_resp m b) tks ca re
             (rp ++ [(n, r)]) gi).
Proof.
  intros Hc Hok.
  assert (Onesided.sender_at k (length rp.*2) tx) as Htx
    by (rewrite length_fmap; exact (lo_rtx _ Hok)).
  destruct (Onesided.commit_at k Hk rp.*2 _ r _ _ _ _ _ (lo_resp _ Hok) Htx Hc) as [H1 H2].
  pose proof (Onesided.ro_taken _ _ _ _ _ (lo_resp _ Hok)) as Hle.
  cbn in *. rewrite length_fmap in Hle. rewrite length_app, length_fmap in H2.
  destruct (lo_slots _ Hok) as [Hs1 Hs2]. destruct (lo_owed _ Hok) as [Hnd Hall]. cbn in *.
  assert (owed (mkLane c cpc rx (Onesided.publish tx') VIdle (with_resp m b) tks ca re
            (rp ++ [(n, r)]) gi)
          ≡ₚ owed (mkLane c cpc rx tx (VReplying n r) b tks ca re rp gi)) as Hq.
  { unfold owed. cbn. rewrite fmap_app. cbn. apply Permutation_app_head. by rewrite <-Permutation_cons_append. }
  pose proof (conj Hnd Hall) as Howed. rewrite <-Hq in Howed. clear Hq Hnd Hall.
  lane Hok; cbn in *; rewrite ?fmap_app, ?length_app; try done.
  - by rewrite <-fmap_app.
  - split; [done|]. apply Forall_cons in Hs2 as [? ?]. apply Forall_app. split; [done|]. by repeat constructor.
  - intros n1 n2. unfold outstanding, done. cbn.
    rewrite !fmap_app, !take_app_le by (rewrite length_fmap; lia). apply (lo_distinct _ Hok).
  - intros j v. unfold outstanding, done. cbn. rewrite fmap_app, take_app_le by (rewrite length_fmap; lia).
    apply (lo_user _ Hok j v).
  - rewrite take_app_le by lia. exact (lo_given _ Hok).
  - pose proof (lo_client_pc _ Hok) as Hx. cbn in Hx. destruct cpc; [done..|]. lia.
Qed.

Lemma block_step_ok l l' : lane_step l l' -> lane_ok l -> lane_ok l'.
Proof.
  intros Hstep Hok. destruct Hstep as [| |c rx tx vpc b tks ca re rp gi Hin Hc
    |c rx tx vpc b tks ca re rp gi rx' i d c' o Ht Hr|c cpc rx tx b tks ca re rp gi Hc| | |
    |c cpc rx tx vpc b tks tks' ca re rp gi t Hp|].
  - by apply call_store_ok.
  - by eapply call_commit_ok.
  - pose proof (Onesided.check_at k Hk _ _ _ _ _ (lo_resp _ Hok) (lo_rrx _ Hok)) as E.
    cbn in E. rewrite E in Hc. apply bool_decide_eq_true in Hc. cbn in Hc. rewrite length_fmap in Hc. by lane Hok.
  - destruct (response_take_ok _ _ _ _ _ _ _ _ _ _ _ _ _ Ht Hok) as (c1 & o1 & E & H).
    rewrite Hr in E. by injection E as <- <-.
  - pose proof (Onesided.check_at k Hk _ _ _ _ _ (lo_req _ Hok) (lo_rx _ Hok)) as E.
    cbn in E. rewrite E in Hc. apply bool_decide_eq_true in Hc. cbn in Hc. rewrite length_fmap in Hc. by lane Hok.
  - by eapply request_take_ok.
  - by eapply reply_store_ok.
  - by eapply reply_commit_ok.
  - destruct (lo_owed _ Hok) as [Hnd Hall]. destruct (lo_slots _ Hok) as [Hs1 Hs2].
    unfold owed in Hnd, Hall. cbn in *. rewrite Hp in Hnd, Hall, Hs1. cbn in Hnd, Hall.
    lane Hok.
    + apply NoDup_cons in Hnd as [_ ?]. by apply Forall_cons in Hall as [_ ?].
    + by apply Forall_cons in Hs1 as [_ ?].
  - by lane Hok.
Qed.


Lemma block_new_ok rs ps mc extra i l :
  k <= 32 -> lane_new rs ps mc cap extra i = Some l -> lane_ok l.
Proof.
  intros Hk32. unfold lane_new, create. destruct (_ && _); [|done].
  set (n := Z.to_nat mc). unfold connect.
  cbn [header blocks set_next_client_id magic version server_alive h_req_slot_size
       h_resp_slot_size next_client_id h_max_clients h_ring_depth req_rxs resp_txs].
  rewrite !Z.eqb_refl. cbn [negb orb]. destruct (mc <=? i); [done|].
  cbn [blocks]. destruct (decide (Z.to_nat i < n)%nat) as [Hi|Hi].
  2:{ by rewrite (lookup_ge_None_2 (replicate n (Onesided.receiver_new cap)))
        by (rewrite length_replicate; lia). }
  rewrite list_lookup_alter_eq, !lookup_replicate_2 by done.
  cbn [fmap option_fmap option_map mbind option_bind]. intros [= <-].
  pose proof (Onesided.cap_range k Hk).
  constructor; cbn; try done; try (by apply Onesided.ring_ok_init).
  - split; constructor.
  - intros ? ? [Hx _]. cbn in Hx. lia.
  - rewrite length_replicate. lia.
  - intros j u. split; [|by intros (? & ? & [Hx _] & _); cbn in Hx; lia].
    intros [? _]%lookup_replicate. done.
Qed.

End Invariant.

(** *** Whole operations are steps *)

Section Operations.
Context {Req Resp U : Type}.
Implicit Types (c : Client U) (b : Block Req Resp).

Lemma poll_loop_steps n : forall c b rx tx vpc tks ca re rp gi c' out,
  in_flight c = Z.of_nat n -> poll_loop n c b = Some (c', out) ->
  rtc lane_step (mkLane c CIdle rx tx vpc b tks ca re rp gi)
    (mkLane c' CIdle rx tx vpc b tks ca re rp (gi ++ out)).
Proof.
  induction n as [|n IH]; intros c b rx tx vpc tks ca re rp gi c' out Hn; cbn [poll_loop].
  { intros [= <- <-]. by rewrite app_nil_r. }
  unfold Onesided.raw_try_recv. destruct (Onesided.recv_check _ _) eqn:Hc.
  2:{ intros [= <- <-]. by rewrite app_nil_r. }
  destruct (Onesided.recv_take _ _) as [rx' [i d]] eqn:Ht.
  destruct (take_response rx' d c) as [[c1 o]|] eqn:Hr; [|done]. cbn [mbind option_bind].
  destruct (poll_loop n c1 b) as [[c2 out']|] eqn:Hl; [|done]. intros [= <- <-].
  eapply rtc_l; [apply response_check; [lia|done]|].
  eapply rtc_l; [by eapply response_take|].
  assert (in_flight c1 = Z.of_nat n) as Hn'.
  { unfold take_response in Hr. destruct d as [r|]; [|done]. cbn [mbind option_bind] in Hr.
    destruct (user_data c !! _) as [[u|]|]; cbn [mbind option_bind] in Hr; [|done..].
    injection Hr as <- _. cbn. lia. }
  pose proof (IH c1 b rx tx vpc tks ca re rp (gi ++ [o]) c2 out' Hn' Hl) as H.
  by rewrite <-app_assoc in H.
Qed.

Lemma client_poll_steps c a b rx tx vpc tks ca re rp gi c' out r :
  0 <= in_flight c -> client_poll c a b = Some (c', out, r) ->
  rtc lane_step (mkLane c CIdle rx tx vpc b tks ca re rp gi)
    (mkLane c' CIdle rx tx vpc b tks ca re rp (gi ++ out)).
Proof.
  unfold client_poll. intros Hi. destruct (poll_loop _ c b) as [[c1 out1]|] eqn:Hl; [|done].
  cbn [mbind option_bind]. intros E. assert (c1 = c' /\ out1 = out) as [-> ->]
    by (destruct (_ && _); by injection E).
  by eapply poll_loop_steps; [|exact Hl]; lia.
Qed.

Lemma call_send_steps req u c b rx tx vpc tks ca re rp gi c' b' :
  user_data c !! next_slot c = Some None -> call_send req u c b = Some (c', b') ->
  rtc lane_step (mkLane c CIdle rx tx vpc b tks ca re rp gi)
    (mkLane c' CIdle rx tx vpc b' tks (ca ++ [(req, u)]) re rp gi).
Proof.
  intros Hf. unfold call_send, Onesided.raw_try_send.
  destruct (Onesided.send_commit _ _) as [[tx' m] i] eqn:Hc. case_decide; [|done].
  intros [= <- <-]. eapply rtc_l; [by apply (call_store _ _ _ _ _ _ _ _ _ _ req u)|].
  by eapply rtc_l; [eapply call_commit; exact Hc|].
Qed.


(** *** A call that may have to wait

    While a client spins in [call], the server may do anything its steps allow:
    [server_env] relates what happens to memory to such steps. *)

Definition server_env (k : Z) (env : bool * Block Req Resp -> bool * Block Req Resp) : Prop :=
  forall (l : Lane Req Resp U) a, lane_ok k l -> client_pc l = CIdle ->
    exists l', rtc lane_step l l' /\ client l' = client l /\ client_pc l' = CIdle /\
      block l' = (env (a, block l)).2 /\ calls l' = calls l /\ given l' = given l.

Lemma block_steps_ok k (l l' : Lane Req Resp U) :
  0 <= k <= 63 -> rtc lane_step l l' -> lane_ok k l -> lane_ok k l'.
Proof. intros Hk. induction 1; eauto using block_step_ok. Qed.

(** [poll] of a client never panics. *)
Lemma client_poll_loop_total k (l : Lane Req Resp U) :
  0 <= k <= 63 -> lane_ok k l -> client_pc l = CIdle ->
  exists c' out, poll_loop (Z.to_nat (in_flight (client l))) (client l) (block l) = Some (c', out).
Proof.
  intros Hk Hok Hpc. pose proof (in_flight_bound k Hk l Hok) as Hb.
  remember (Z.to_nat (in_flight (client l))) as n eqn:Hn. revert l Hok Hpc Hb Hn.
  induction n as [|n IH]; intros l Hok Hpc Hb Hn; cbn [poll_loop]; [eauto|].
  unfold Onesided.raw_try_recv. destruct (Onesided.recv_check _ _) eqn:Hc; [|eauto].
  destruct (Onesided.recv_take _ _) as [rx' [i d]] eqn:Ht.
  destruct l as [c pc rx tx vpc b tks ca re rp gi]. cbn in *. subst pc.
  assert (lane_ok k (mkLane c CTaking rx tx vpc b tks ca re rp gi)) as Hok'
    by (eapply block_step_ok; [done|apply response_check; [lia|done]|done]).
  destruct (response_take_ok k Hk _ _ _ _ _ _ _ _ _ _ _ _ _ Ht Hok') as (c1 & o & E & Hok1).
  rewrite E. cbn [mbind option_bind].
  pose proof (lo_in_flight _ _ Hok1) as Hin. pose proof (lo_in_flight _ _ Hok) as Hin0.
  pose proof (in_flight_bound k Hk _ Hok1) as Hb1. cbn in *.
  rewrite length_app in Hin. cbn in Hin.
  destruct (IH (mkLane c1 CIdle rx tx vpc b tks ca re rp (gi ++ [o]))) as (c2 & out & Hl);
    [done|done|done|cbn; lia|].
  cbn in Hl. rewrite Hl. cbn [mbind option_bind]. eauto.
Qed.

Lemma client_poll_total k (l : Lane Req Resp U) a :
  0 <= k <= 63 -> lane_ok k l -> client_pc l = CIdle ->
  exists c' out r, client_poll (client l) a (block l) = Some (c', out, r) /\
    exists l', rtc lane_step l l' /\ client l' = c' /\ client_pc l' = CIdle /\
      block l' = block l /\ calls l' = calls l /\ given l' = given l ++ out.
Proof.
  intros Hk Hok Hpc. destruct (client_poll_loop_total k l Hk Hok Hpc) as (c' & out & Hl).
  assert (exists r, client_poll (client l) a (block l) = Some (c', out, r)) as [r Hr].
  { unfold client_poll. rewrite Hl. cbn [mbind option_bind]. destruct (_ && _); eauto. }
  exists c', out, r. split; [done|]. destruct l as [c pc rx tx vpc b tks ca re rp gi]. cbn in *. subst pc.
  eexists. split; [eapply client_poll_steps; [|exact Hr]|done].
  pose proof (in_flight_bound k Hk _ Hok) as Hb. cbn in Hb. lia.
Qed.

Lemma call_send_total k (l : Lane Req Resp U) req u :
  0 <= k <= 63 -> lane_ok k l ->
  exists c' b', call_send req u (client l) (block l) = Some (c', b').
Proof.
  intros Hk Hok. unfold call_send, Onesided.raw_try_send.
  destruct (Onesided.send_commit _ _) as [[tx' m] i] eqn:Hc.
  assert (i = Z.of_nat (length (calls l)) mod 2 ^ k) as ->.
  { injection Hc as _ _ <-. apply (Onesided.send_idx_at k Hk), Hok. }
  rewrite decide_True; [eauto|]. pose proof (lo_length _ _ Hok).
  pose proof (Onesided.idx_range k Hk (Z.of_nat (length (calls l)))). lia.
Qed.

(** A call on a lane at rest: it never panics, whatever the server does in the
    meantime; its callbacks are those of responses; if it succeeds its request is
    sent, and if it fails nothing is. *)
Lemma call_loop_safe k env fuel req u : forall (l : Lane Req Resp U) a,
  0 <= k <= 63 -> server_env k env -> lane_ok k l -> client_pc l = CIdle ->
  match call_loop env fuel req u (client l) (a, block l) with
  | Panic => False
  | Spinning => True
  | Done (c', (_, b'), out, r) =>
      exists l', rtc lane_step l l' /\ client l' = c' /\ client_pc l' = CIdle /\ block l' = b' /\
        given l' = given l ++ out /\
        calls l' = calls l ++ (if is_ok r then [(req, u)] else [])
  end.
Proof.
  induction fuel as [|fuel IH]; intros l a Hk Henv Hok Hpc; [done|]. cbn [call_loop].
  rewrite (next_slot_at k Hk (length (calls l)) (client l) (lo_tx _ _ Hok) (lo_depth _ _ Hok)).
  destruct (lookup_lt_is_Some_2 (user_data (client l)) (slot_of k (length (calls l)))) as [ud Hud].
  { pose proof (slot_of_lt k Hk (length (calls l))). pose proof (lo_length _ _ Hok). lia. }
  rewrite Hud. cbn [fst snd]. destruct ud as [v|].
  - destruct (client_poll_total k l a Hk Hok Hpc)
      as (c' & out & r & -> & l1 & Hs & Hc & Hpc1 & Hb & Hca & Hg).
    destruct r as [m|e].
    2:{ exists l1. split_and!; [done..|]. by rewrite app_nil_r. }
    pose proof (block_steps_ok k _ _ Hk Hs Hok) as Hok1.
    destruct (Henv l1 a Hok1 Hpc1) as (l2 & Hs2 & Hc2 & Hpc2 & Hb2 & Hca2 & Hg2).
    pose proof (block_steps_ok k _ _ Hk Hs2 Hok1) as Hok2. rewrite Hb in Hb2.
    destruct (env (a, block l)) as [a' b2] eqn:He. cbn in Hb2. subst b2.
    specialize (IH l2 a' Hk Henv Hok2 Hpc2). rewrite Hc2, Hc in IH.
    destruct (call_loop env fuel req u c' (a', block l2)) as [| |[[[c3 [a3 b3]] out3] r3]]; [done..|].
    destruct IH as (l3 & Hs3 & Hc3 & Hpc3 & Hb3 & Hg3 & Hca3). exists l3. split_and!; [|done..| |].
    + etrans; [exact Hs|]. by etrans.
    + by rewrite Hg3, Hg2, Hg, app_assoc.
    + by rewrite Hca3, Hca2, Hca.
  - destruct (call_send_total k l req u Hk Hok) as (c' & b' & Hs). rewrite Hs.
    destruct l as [c pc rx tx vpc b tks ca re rp gi]. cbn in *. subst pc. eexists.
    split; [eapply call_send_steps; [|exact Hs]|].
    + rewrite (next_slot_at k Hk (length ca) c (lo_tx _ _ Hok) (lo_depth _ _ Hok)). exact Hud.
    + cbn. by rewrite app_nil_r.
Qed.

End Operations.

(** ** Properties *)

(** C9: in every interleaving of a client and the server on a block, with replies in
    any order: the server receives the requests in the order of the calls; the
    callbacks are, in order, those of the server's replies, each with the user data
    of the very call the reply is for; no call is answered twice; the calls in
    flight are exactly those not yet called back and at most as many as slots; and
    whenever the client has seen a response, taking it does not panic. *)
Theorem ipc_calls_matched {Req Resp U : Type} rs ps mc k extra i (l0 l : Lane Req Resp U) :
  0 <= k <= 31 -> lane_new rs ps mc (2 ^ k) extra i = Some l0 -> rtc lane_step l0 l ->
  recvd l = Some <$> take (length (recvd l)) (calls l).*1 /\
  Forall2 (matches (calls l)) (given l) (take (length (given l)) (replied l)) /\
  NoDup (replied l).*1 /\ Forall (fun n => (n < length (recvd l))%nat) (replied l).*1 /\
  in_flight (client l) = Z.of_nat (length (calls l)) - Z.of_nat (length (given l)) /\
  0 <= in_flight (client l) <= 2 ^ k /\
  (client_pc l = CTaking ->
     exists rx' j d c' o,
       Onesided.recv_take (resp_rx (client l)) (resp_ring (block l)) = (rx', (j, d)) /\
       take_response rx' d (client l) = Some (c', o)).
Proof.
  intros Hk H0 Hr. assert (0 <= k <= 63) as Hk' by lia.
  pose proof (block_steps_ok k _ _ Hk' Hr (block_new_ok k Hk' _ _ _ _ _ _ ltac:(lia) H0)) as Hok.
  destruct (lo_owed _ _ Hok) as [(_ & _ & (_ & _ & Hnd)%NoDup_app)%NoDup_app Hall].
  apply Forall_app in Hall as [_ [_ Hall]%Forall_app].
  pose proof (in_flight_bound k Hk' l Hok).
  split_and!; [apply Hok|apply Hok|done|done|apply Hok|lia|lia|].
  intros Hpc. destruct (Onesided.recv_take _ _) as [rx' [j d]] eqn:Ht.
  destruct l as [c pc rx tx vpc b tks ca re rp gi]. cbn in *. subst pc.
  destruct (response_take_ok k Hk' _ _ _ _ _ _ _ _ _ _ _ _ _ Ht Hok) as (c' & o & E & _).
  by exists rx', j, d, c', o.
Qed.

(** A call that has to wait is safe: from a lane at rest, whatever the server does
    between the iterations of the client's loop, the call does not panic; its effect
    is an execution of the interleaved semantics in which its callbacks are those of
    responses; if it succeeds exactly its request is sent, with its user data, and
    if it fails nothing is sent. *)
Theorem ipc_call_safe {Req Resp U : Type} k env fuel req u (l : Lane Req Resp U) a :
  0 <= k <= 63 -> server_env (U := U) k env -> lane_ok k l -> client_pc l = CIdle ->
  match call env fuel req u (client l) (a, block l) with
  | Panic => False
  | Spinning => True
  | Done (c', (_, b'), out, r) =>
      exists l', rtc lane_step l l' /\ client l' = c' /\ client_pc l' = CIdle /\ block l' = b' /\
        given l' = given l ++ out /\
        calls l' = calls l ++ (if is_ok r then [(req, u)] else [])
  end.
Proof.
  intros Hk Henv Hok Hpc. unfold call. destruct a; cbn [fst negb]; [by apply (call_loop_safe k)|].
  exists l. by rewrite !app_nil_r.
Qed.

(** The areas of the shared region (control line, request ring, response ring and
    extra buffer of every client), at the addresses the code computes with its
    64-bit arithmetic, are pairwise disjoint, lie behind the header and inside the
    region that is mapped, and every block starts on a cache line; provided the
    region is smaller than the address space. *)
Theorem ipc_areas_disjoint rs ps depth extra n i j a b :
  0 < rs -> 0 < ps -> 0 < depth -> 0 <= extra ->
  HEADER_SIZE + (rs * depth + ps * depth + extra + 127) * n < 2 ^ 64 ->
  0 <= i < n -> 0 <= j < n -> (i, a) <> (j, b) ->
  let '(p, p') := area rs ps depth extra i a in
  let '(q, q') := area rs ps depth extra j b in
  HEADER_SIZE <= p /\ p' <= total_shm_size rs ps n depth extra /\
  block_base (per_client_block_size rs ps depth extra) i mod 64 = 0 /\ (p' <= q \/ q' <= p).
Proof. intros. apply areas_disjoint; done || lia. Qed.

(** *** Runs *)

Section Runs.
Context {Req Resp U : Type}.
Implicit Types l : Lane Req Resp U.

Definition run_call (req : Req) (u : U) l : Lane Req Resp U :=
  match call id 1 req u (client l) (true, block l) with
  | Done (c, (_, b), [], Ok _) =>
      mkLane c (client_pc l) (srv_rx l) (srv_tx l) (server_pc l) b (tokens l)
        (calls l ++ [(req, u)]) (recvd l) (replied l) (given l)
  | _ => l
  end.

Definition run_poll l : Lane Req Resp U :=
  match client_poll (client l) true (block l) with
  | Some (c, out, _) =>
      mkLane c (client_pc l) (srv_rx l) (srv_tx l) (server_pc l) (block l) (tokens l)
        (calls l) (recvd l) (replied l) (given l ++ out)
  | None => l
  end.

Definition run_receive l : Lane Req Resp U :=
  match Onesided.raw_try_recv (srv_rx l) (req_ring (block l)) with
  | None => l
  | Some (rx, (i, d)) =>
      mkLane (client l) (client_pc l) rx (srv_tx l) (server_pc l) (block l)
        (tokens l ++ [(length (recvd l), i)]) (calls l) (recvd l ++ [d]) (replied l) (given l)
  end.

(** Reply to the [j]-th token held. *)
Definition run_reply (j : nat) (resp : Resp) l : Lane Req Resp U :=
  match tokens l !! j with
  | None => l
  | Some (n, i) =>
      let r := Onesided.mkResponse i resp in
      match Onesided.raw_try_send (srv_tx l) r (resp_ring (block l)) with
      | None => l
      | Some (tx, m, _) =>
          mkLane (client l) (client_pc l) (srv_rx l) (Onesided.publish tx) (server_pc l)
            (with_resp m (block l)) (delete j (tokens l)) (calls l) (recvd l)
            (replied l ++ [(n, r)]) (given l)
      end
  end.

Lemma ipc_run_call_steps req u l : client_pc l = CIdle -> rtc lane_step l (run_call req u l).
Proof.
  destruct l as [c pc rx tx vpc b tks ca re rp gi]. cbn. intros ->.
  unfold run_call, call. cbn -[call_send client_poll]. destruct (user_data c !! next_slot c) as [[v|]|] eqn:Hu; [| |done].
  - by destruct (client_poll c true b) as [[[c1 [|o out]] [n|e]]|].
  - destruct (call_send req u c b) as [[c1 b1]|] eqn:Hs; [|done]. by apply call_send_steps.
Qed.

Lemma run_poll_steps l :
  client_pc l = CIdle -> 0 <= in_flight (client l) -> rtc lane_step l (run_poll l).
Proof.
  destruct l as [c pc rx tx vpc b tks ca re rp gi]. cbn. intros -> Hi. unfold run_poll. cbn.
  destruct (client_poll c true b) as [[[c' out] r]|] eqn:E; [|done]. by eapply client_poll_steps.
Qed.

Lemma ipc_run_receive_steps l : server_pc l = VIdle -> rtc lane_step l (run_receive l).
Proof.
  destruct l as [c pc rx tx vpc b tks ca re rp gi]. cbn. intros ->.
  unfold run_receive, Onesided.raw_try_recv. cbn. destruct (Onesided.recv_check _ _) eqn:Hc; [|done].
  cbn. eapply rtc_l; [by apply request_check|]. by eapply rtc_l; [eapply request_take|].
Qed.

Lemma ipc_run_reply_steps j resp l : server_pc l = VIdle -> rtc lane_step l (run_reply j resp l).
Proof.
  destruct l as [c pc rx tx vpc b tks ca re rp gi]. cbn. intros ->. unfold run_reply. cbn.
  destruct (tks !! j) as [[n i]|] eqn:Ht; [|done]. apply delete_Permutation in Ht.
  eapply rtc_l; [by apply (reply_store _ _ _ _ _ _ (delete j tks) _ _ _ _ n i resp)|].
  by eapply rtc_l; [eapply reply_commit|].
Qed.
End Runs.

Definition demo_lane : Lane Z Z Z :=
  default (mkLane (mkClient 0 1 (Onesided.sender_new 1) (Onesided.receiver_new 1) 0 0 0 []) CIdle
             (Onesided.receiver_new 1) (Onesided.sender_new 1) VIdle (mkBlock true [] []) [] [] [] [] [])
    (lane_new 16 24 4 2 100 1).

(** Three calls on a ring of two slots, answered out of order: the third has to wait
    for the slot of the first, not only for a response. *)
Definition demo_swapped : Lane Z Z Z :=
  run_poll (run_reply 1 21 (run_receive (run_receive (run_call 20 200 (run_call 10 100 demo_lane))))).
Definition demo_run : Lane Z Z Z :=
  run_poll (run_reply 0 11 (run_call 30 300 demo_swapped)).

Ltac run_steps :=
  repeat match goal with
  | |- rtc _ _ (run_poll ?l) =>
      transitivity l;
        [|apply run_poll_steps; [vm_compute; reflexivity|vm_compute; discriminate]]
  | |- rtc _ _ (run_reply _ _ ?l) =>
      transitivity l; [|apply ipc_run_reply_steps; vm_compute; reflexivity]
  | |- rtc _ _ (run_receive ?l) =>
      transitivity l; [|apply ipc_run_receive_steps; vm_compute; reflexivity]
  | |- rtc _ _ (run_call _ _ ?l) =>
      transitivity l; [|apply ipc_run_call_steps; vm_compute; reflexivity]
  end; apply rtc_refl.

Lemma ipc_demo_reachable : rtc lane_step demo_lane demo_run.
Proof. unfold demo_run, demo_swapped. run_steps. Qed.

Lemma ipc_calls_matched_witness :
  given demo_run = [(200, 21); (100, 11)] /\ calls demo_run = [(10, 100); (20, 200)] /\
  Forall2 (matches (calls demo_run)) (given demo_run)
    (take (length (given demo_run)) (replied demo_run)).
Proof.
  split; [vm_compute; reflexivity|]. split; [vm_compute; reflexivity|].
  apply (ipc_calls_matched 16 24 4 1 100 1 demo_lane demo_run);
    [lia|vm_compute; reflexivity|exact ipc_demo_reachable].
Defined.

Lemma id_server_env k : server_env (Req := Z) (Resp := Z) (U := Z) k id.
Proof. intros l a _ Hpc. by exists l. Qed.

Lemma demo_lane_ok : lane_ok 1 demo_lane.
Proof. apply (block_new_ok 1 ltac:(lia) 16 24 4 100 1); [lia|vm_compute; reflexivity]. Qed.

Lemma ipc_call_safe_witness :
  match call id 1 10 100 (client demo_lane) (true, block demo_lane) with
  | Done (c', (_, b'), out, r) => out = [] /\ is_ok r = true /\
      exists l', rtc lane_step demo_lane l' /\ client l' = c' /\ client_pc l' = CIdle /\ block l' = b' /\
        given l' = given demo_lane ++ out /\
        calls l' = calls demo_lane ++ (if is_ok r then [(10, 100)] else [])
  | _ => False
  end.
Proof.
  pose proof (ipc_call_safe 1 id 1 10 100 demo_lane true ltac:(lia) (id_server_env 1) demo_lane_ok
                eq_refl) as H.
  destruct (call id 1 10 100 (client demo_lane) (true, block demo_lane)) as [| |[[[c' [a' b']] out] r]] eqn:E;
    [vm_compute in E; discriminate E..|].
  vm_compute in E. injection E as <- <- <- <- <-. split; [reflexivity|]. split; [reflexivity|exact H].
Defined.

Lemma ipc_areas_disjoint_witness :
  area 16 24 4 100 0 Extra = (288, 388) /\ area 16 24 4 100 1 Control = (448, 512) /\
  (388 <= 448 \/ 512 <= 288).
Proof.
  split; [vm_compute; reflexivity|]. split; [vm_compute; reflexivity|].
  exact (proj2 (proj2 (proj2 (ipc_areas_disjoint 16 24 4 100 2 0 1 Extra Control
    ltac:(lia) ltac:(lia) ltac:(lia) ltac:(lia) ltac:(vm_compute; reflexivity) ltac:(lia) ltac:(lia)
    ltac:(discriminate))))).
Defined.
End IpcProps.
