(* ===== verification/IpcServer.v ===== *)
(** * IpcServer: the server of the shared memory calls, and blocking calls

    What a poll of the server finds and [recv] hands out, on all clients at once;
    where the scan starts; a blocking call with its server; the numbers clients are
    given. *)
From S2P Require Import Prelude Onesided Ipc.

Module IpcServer.
Import Ipc.

Section Server.
Context {Req Resp : Type} (k : Z) (Hk : 0 <= k <= 31).
Local Notation cap := (2 ^ k).
Implicit Types (s : Server) (shm : Shm Req Resp) (hs : list (list Req * nat)).

(** The server and the region, with the history of every request ring and how
    much of it the server has taken. *)
Record clients_ok s shm hs : Prop := mk_clients_ok {
  co_max : max_clients s = Z.of_nat (length hs) /\ 0 < max_clients s <= 2 ^ 31;
  co_depth : ring_depth s = cap;
  co_scan : 0 <= scan_pos s < max_clients s;
  co_start : 0 <= recv_start s < max_clients s;
  co_avail : length (req_avail s) = length hs;
  co_lane : forall i h n, hs !! i = Some (h, n) ->
    exists rx b pend, req_rxs s !! i = Some rx /\ control_ptrs s !! i = Some i /\
      blocks shm !! i = Some b /\ Onesided.receiver_at k n rx /\
      Onesided.ring_ok cap h (Z.of_nat n) pend (req_ring b);
}.

(** The requests client [i] has waiting, if it is to be looked at. *)
Definition found (skip : list bool) shm hs (i : nat) : Z :=
  match hs !! i, blocks shm !! i with
  | Some (h, n), Some b =>
      if default false (skip !! i) || negb (alive b) then 0
      else Z.of_nat (length h) - Z.of_nat n
  | _, _ => 0
  end.

Lemma found_range skip s shm hs i : clients_ok s shm hs -> 0 <= found skip shm hs i <= cap.
Proof.
  intros Hok. pose proof (Onesided.cap_range k ltac:(lia)). unfold found.
  destruct (hs !! i) as [[h n]|] eqn:Hh; [|lia].
  destruct (co_lane _ _ _ Hok _ _ _ Hh) as (rx & b & pend & _ & _ & -> & _ & Hr).
  pose proof (Onesided.ro_taken _ _ _ _ _ Hr). pose proof (Onesided.ro_room _ _ _ _ _ Hr).
  destruct (_ || _); lia.
Qed.

Lemma scan_client_spec skip s shm hs i :
  clients_ok s shm hs -> (i < length hs)%nat ->
  scan_client skip shm i s = Some (set_avail i (found skip shm hs i) s, found skip shm hs i).
Proof.
  intros Hok Hi. destruct (lookup_lt_is_Some_2 hs i Hi) as [[h n] Hh].
  destruct (co_lane _ _ _ Hok _ _ _ Hh) as (rx & b & pend & Hrx & Hc & Hb & Hat & Hr).
  unfold scan_client, found. rewrite Hh, Hb, Hc. cbn [mbind option_bind]. rewrite Hb.
  destruct (default false (skip !! i)); [done|]. cbn [mbind option_bind orb].
  destruct (alive b); cbn [negb]; [|done]. rewrite Hrx. cbn [mbind option_bind].
  pose proof (Onesided.cap_range k ltac:(lia)).
  rewrite (Onesided.count_available_at k ltac:(lia) h n pend), (co_depth _ _ _ Hok)
    by (done || rewrite ?(co_depth _ _ _ Hok); lia).
  pose proof (Onesided.ro_room _ _ _ _ _ Hr). by rewrite Z.min_r by lia.
Qed.

(** Replacing the availability counts and the positions changes nothing else. *)
Definition set_avails (av : list Z) s : Server :=
  mkServer (max_clients s) (ring_depth s) (req_rxs s) (resp_txs s) (control_ptrs s)
    (extra_ptrs s) (extra_buffer_size s) (scan_pos s) (recv_scan_pos s) av (recv_start s).

Lemma clients_ok_avails s shm hs av :
  clients_ok s shm hs -> length av = length hs -> clients_ok (set_avails av s) shm hs.
Proof. intros [] ?. by split. Qed.

(** The clients visited by [n] iterations from [scan] on. *)
Definition visited (M scan : Z) (n : nat) : list nat :=
  (fun j => Z.to_nat ((scan + Z.of_nat j) mod M)) <$> seq 0 n.

Lemma visited_S M scan n :
  0 <= scan < M ->
  visited M scan (S n) = Z.to_nat scan :: visited M ((scan + 1) mod M) n.
Proof.
  intros Hs. unfold visited. cbn [seq fmap list_fmap]. f_equal.
  { by rewrite Z.add_0_r, Z.mod_small by lia. }
  rewrite <-fmap_S_seq, <-list_fmap_compose. apply list_fmap_ext. intros i j _. cbn.
  rewrite Zplus_mod_idemp_l. do 2 f_equal. lia.
Qed.

Lemma elem_of_visited M scan n i :
  0 <= scan < M -> Z.of_nat n = M -> Z.of_nat i < M -> i ∈ visited M scan n.
Proof.
  intros Hs Hn Hi. apply list_elem_of_fmap. exists (Z.to_nat ((Z.of_nat i - scan) mod M)).
  pose proof (Z.mod_pos_bound (Z.of_nat i - scan) M ltac:(lia)). split.
  - rewrite Z2Nat.id by lia. rewrite Zplus_mod_idemp_r.
    replace (scan + (Z.of_nat i - scan)) with (Z.of_nat i) by lia. rewrite Z.mod_small by lia. lia.
  - apply elem_of_seq. lia.
Qed.

Definition total (f : nat -> Z) (js : list nat) : Z := foldr (fun i acc => f i + acc) 0 js.

Lemma total_cons f i js : total f (i :: js) = f i + total f js.
Proof. done. Qed.

Lemma scan_loop_spec skip shm hs n : forall scan count s,
  clients_ok s shm hs -> 0 <= scan < max_clients s ->
  exists av,
    scan_loop skip shm n scan (u32 count) s =
      Some (poll_done ((scan + Z.of_nat n) mod max_clients s) (set_avails av s),
            u32 (count + total (found skip shm hs) (visited (max_clients s) scan n))) /\
    length av = length hs /\
    (forall i, i ∈ visited (max_clients s) scan n -> av !! i = Some (found skip shm hs i)) /\
    (forall i, i ∉ visited (max_clients s) scan n -> av !! i = req_avail s !! i).
Proof.
  induction n as [|n IH]; intros scan count s Hok Hs.
  - exists (req_avail s). cbn. rewrite !Z.add_0_r, Z.mod_small by lia.
    split_and!; [by destruct s|apply Hok|set_solver|done].
  - cbn [scan_loop]. pose proof (co_max _ _ _ Hok) as [Hm Hpos].
    rewrite (scan_client_spec skip s shm hs) by (done || lia). cbn [mbind option_bind].
    set (i0 := Z.to_nat scan). set (f := found skip shm hs).
    pose proof (clients_ok_avails s shm hs (<[i0 := f i0]> (req_avail s)) Hok
      ltac:(rewrite length_insert; apply Hok)) as Hok'.
    change (set_avails _ s) with (set_avail i0 (f i0) s) in Hok'.
    change (max_clients (set_avail i0 (f i0) s)) with (max_clients s) in *.
    rewrite (u32_small (scan + 1)) by lia.
    destruct (IH ((scan + 1) mod max_clients s) (count + f i0) (set_avail i0 (f i0) s))
      as (av & E & Hl & Hin & Hout); [done|apply Z.mod_pos_bound; cbn; lia|].
    change (max_clients (set_avail i0 (f i0) s)) with (max_clients s) in *.
    assert (u32 (u32 count + f i0) = u32 (count + f i0)) as ->.
    { unfold u32, wrap. apply Zplus_mod_idemp_l. }
    rewrite E. rewrite visited_S by lia. fold i0. rewrite total_cons.
    exists av. split_and!; [|done| |].
    + do 2 f_equal; [f_equal|f_equal; fold f; lia]. rewrite Zplus_mod_idemp_l. f_equal. lia.
    + intros i Hi. destruct (decide (i ∈ visited (max_clients s) ((scan + 1) mod max_clients s) n));
        [by apply Hin|]. apply elem_of_cons in Hi as [->|]; [|done].
      rewrite Hout by done. cbn. apply list_lookup_insert_eq. rewrite (co_avail _ _ _ Hok). lia.
    + intros i Hi. rewrite Hout by set_solver. cbn. apply list_lookup_insert_ne. set_solver.
Qed.

(** A poll: every client's count is what it has waiting, the sum is returned, and
    the scan is back where it started. *)
Lemma poll_spec skip s shm hs :
  clients_ok s shm hs ->
  exists av,
    poll_with_skip skip s shm =
      Some (poll_done (scan_pos s) (set_avails av s),
            u32 (total (found skip shm hs) (visited (max_clients s) (scan_pos s) (length hs)))) /\
    length av = length hs /\
    forall i, (i < length hs)%nat -> av !! i = Some (found skip shm hs i).
Proof.
  intros Hok. pose proof (co_max _ _ _ Hok) as [Hm Hpos]. pose proof (co_scan _ _ _ Hok).
  destruct (scan_loop_spec skip shm hs (Z.to_nat (max_clients s)) (scan_pos s) 0 s Hok)
    as (av & E & Hl & Hin & _); [done|].
  exists av. unfold poll_with_skip. change 0 with (u32 0) at 1. rewrite E. split_and!; [|done|].
  - replace (Z.to_nat (max_clients s)) with (length hs) by lia. rewrite <-Hm.
    rewrite <-(Z.mul_1_l (max_clients s)) at 1. rewrite Z.mod_add, Z.mod_small by lia. done.
  - intros i Hi. apply Hin, elem_of_visited; [done|lia|lia].
Qed.


(** *** Handing out requests *)

(** The loop of a server program: [recv] until it has nothing left. *)
Fixpoint recv_all (fuel : nat) s shm : option (Server * list (RecvHandle Req)) :=
  match fuel with
  | O => None
  | S fuel =>
      r ← recv s shm;
      match (r : Server * option (RecvHandle Req)) with
      | (s, None) => Some (s, [])
      | (s, Some h) =>
          r ← recv_all fuel s shm;
          let '(s, hd) := (r : Server * list (RecvHandle Req)) in Some (s, h :: hd)
      end
  end.

(** The next client to be looked at. *)
Definition current s : nat := Z.to_nat ((recv_start s + recv_scan_pos s) mod max_clients s).

(** The [a] requests of client [i] from the [n]-th on, as [recv] hands them out. *)
Definition lane_handles (i : nat) (h : list Req) (n : nat) (a : Z) : list (RecvHandle Req) :=
  (fun m => mkHandle i (Z.of_nat m mod cap) (h !! m)) <$> seq n (Z.to_nat a).

Definition handles (av : list Z) hs (i : nat) : list (RecvHandle Req) :=
  match hs !! i, av !! i with
  | Some (h, n), Some a => lane_handles i h n a
  | _, _ => []
  end.

Definition to_visit s : list nat :=
  visited (max_clients s) ((recv_start s + recv_scan_pos s) mod max_clients s)
    (Z.to_nat (max_clients s - recv_scan_pos s)).

(** What is still to be handed out. *)
Definition rest s hs : list (RecvHandle Req) := to_visit s ≫= handles (req_avail s) hs.

Record draining s shm hs : Prop := mk_draining {
  dr_ok : clients_ok s shm hs;
  dr_pos : 0 <= recv_scan_pos s <= max_clients s;
  dr_avail : forall i h n, hs !! i = Some (h, n) ->
    exists a, req_avail s !! i = Some a /\ 0 <= a <= Z.of_nat (length h) - Z.of_nat n;
}.

Lemma visited_NoDup M scan n : 0 <= scan < M -> Z.of_nat n <= M -> NoDup (visited M scan n).
Proof.
  intros Hs Hn. apply NoDup_fmap_2_strong; [|apply NoDup_seq].
  intros x y Hx Hy E. apply elem_of_seq in Hx, Hy.
  pose proof (Z.mod_pos_bound (scan + Z.of_nat x) M ltac:(lia)).
  pose proof (Z.mod_pos_bound (scan + Z.of_nat y) M ltac:(lia)).
  assert (scan + Z.of_nat x = scan + Z.of_nat y); [|lia].
  apply (Onesided.mod_close M); lia.
Qed.

Lemma to_visit_cons s shm hs :
  draining s shm hs -> recv_scan_pos s < max_clients s ->
  to_visit s = current s :: to_visit (next_client s) /\ current s ∉ to_visit (next_client s) /\
  (current s < length hs)%nat.
Proof.
  intros Hd Hlt. pose proof (dr_pos _ _ _ Hd). pose proof (co_max _ _ _ (dr_ok _ _ _ Hd)) as [Hm Hpos].
  pose proof (Z.mod_pos_bound (recv_start s + recv_scan_pos s) (max_clients s) ltac:(lia)) as Hb.
  assert (to_visit s = current s :: to_visit (next_client s)) as E.
  { unfold to_visit at 1. replace (Z.to_nat (max_clients s - recv_scan_pos s))
      with (S (Z.to_nat (max_clients s - (recv_scan_pos s + 1)))) by lia.
    rewrite visited_S by lia. unfold current, to_visit. cbn. do 2 f_equal.
    rewrite Zplus_mod_idemp_l. f_equal. lia. }
  split; [done|]. split; [|unfold current; lia].
  assert (NoDup (to_visit s)) as Hnd by (apply visited_NoDup; lia).
  rewrite E in Hnd. by apply NoDup_cons in Hnd as [? _].
Qed.

Lemma recv_idx s shm hs :
  draining s shm hs -> recv_scan_pos s < max_clients s ->
  Z.to_nat (u32 (recv_start s + recv_scan_pos s) mod max_clients s) = current s.
Proof.
  intros Hd Hlt. pose proof (dr_pos _ _ _ Hd). pose proof (co_start _ _ _ (dr_ok _ _ _ Hd)).
  pose proof (co_max _ _ _ (dr_ok _ _ _ Hd)). by rewrite u32_small by lia.
Qed.

Lemma draining_next s shm hs :
  draining s shm hs -> recv_scan_pos s < max_clients s -> draining (next_client s) shm hs.
Proof. intros [[] ? ?] ?. split; cbn; [by split|lia|done]. Qed.

(** One [recv]: nothing is left, the next client has nothing, or its next request. *)
Lemma recv_cases s shm hs :
  draining s shm hs ->
  (recv_scan_pos s = max_clients s /\ recv s shm = Some (s, None)) \/
  (recv_scan_pos s < max_clients s /\ recv s shm = recv (next_client s) shm /\
   handles (req_avail s) hs (current s) = []) \/
  (recv_scan_pos s < max_clients s /\
   exists rx h n a, hs !! current s = Some (h, n) /\ req_avail s !! current s = Some a /\ 0 < a /\
     recv s shm = Some (taken (current s) rx s,
                        Some (mkHandle (current s) (Z.of_nat n mod cap) (h !! n))) /\
     draining (taken (current s) rx s) shm (<[current s := (h, S n)]> hs)).
Proof.
  intros Hd. pose proof (dr_pos _ _ _ Hd) as Hp.
  destruct (decide (recv_scan_pos s = max_clients s)) as [E|Hne].
  { left. split; [done|]. unfold recv. by rewrite E, Z.sub_diag. }
  right. assert (recv_scan_pos s < max_clients s) as Hlt by lia.
  destruct (to_visit_cons s shm hs Hd Hlt) as (_ & _ & Hc).
  destruct (lookup_lt_is_Some_2 hs (current s) Hc) as [[h n] Hh].
  destruct (dr_avail _ _ _ Hd _ _ _ Hh) as (a & Ha & Hra).
  destruct (co_lane _ _ _ (dr_ok _ _ _ Hd) _ _ _ Hh) as (rx & b & pend & Hrx & Hcp & Hb & Hat & Hr).
  assert (recv s shm = recv_loop (S (Z.to_nat (max_clients s - (recv_scan_pos s + 1)))) s shm) as ->.
  { unfold recv. f_equal. lia. }
  cbn [recv_loop]. rewrite (recv_idx s shm hs) by done. rewrite Ha. cbn [mbind option_bind].
  destruct (0 <? a) eqn:Hpos; guards.
  2:{ left. split_and!; [done|done|]. unfold handles. rewrite Hh, Ha. by replace a with 0 by lia. }
  right. split; [done|]. rewrite Hrx, Hb. cbn [mbind option_bind].
  unfold Onesided.raw_try_recv. rewrite (Onesided.check_at k ltac:(lia) h n pend _ _ Hr Hat).
  rewrite bool_decide_true by lia. destruct (Onesided.recv_take _ _) as [rx' [i d]] eqn:Ht.
  destruct (Onesided.take_at k ltac:(lia) h n pend _ _ _ _ _ Hr Hat ltac:(lia) Ht) as (-> & -> & Hat' & Hr').
  exists rx', h, n, a. split_and!; [done..|].
  destruct Hd as [[Hm Hdep Hsc Hst Hlen Hlane] _ Hav].
  split; cbn; [split; cbn; rewrite ?length_insert, ?length_alter; try done|done|].
  - intros j h' n' Hj. destruct (decide (j = current s)) as [->|Hj'].
    + rewrite list_lookup_insert_eq in Hj by lia. injection Hj as <- <-.
      exists rx', b, pend. rewrite list_lookup_insert_eq by by eapply lookup_lt_Some. done.
    + rewrite list_lookup_insert_ne in Hj by done. rewrite list_lookup_insert_ne by done. by apply Hlane.
  - intros j h' n' Hj. destruct (decide (j = current s)) as [->|Hj'].
    + rewrite list_lookup_insert_eq in Hj by lia. injection Hj as <- <-.
      rewrite list_lookup_alter_eq, Ha. eexists. split; [done|]. lia.
    + rewrite list_lookup_insert_ne in Hj by done. rewrite list_lookup_alter_ne by done. by apply Hav.
Qed.

Lemma bind_handles_ext av av' hs hs' js :
  (forall i, i ∈ js -> av !! i = av' !! i /\ hs !! i = hs' !! i) ->
  js ≫= handles av hs = js ≫= handles av' hs'.
Proof.
  induction js as [|j js IH]; intros H; [done|]. rewrite !bind_cons. f_equal.
  - unfold handles. destruct (H j) as [-> ->]; [set_solver|done].
  - apply IH. intros i Hi. apply H. set_solver.
Qed.

Lemma rest_taken s shm hs rx h n a :
  draining s shm hs -> recv_scan_pos s < max_clients s ->
  hs !! current s = Some (h, n) -> req_avail s !! current s = Some a -> 0 < a ->
  rest s hs = mkHandle (current s) (Z.of_nat n mod cap) (h !! n) ::
    rest (taken (current s) rx s) (<[current s := (h, S n)]> hs).
Proof.
  intros Hd Hlt Hh Ha Hpos. destruct (to_visit_cons s shm hs Hd Hlt) as (E & Hnin & Hc).
  unfold rest. change (to_visit (taken (current s) rx s)) with (to_visit s). rewrite E, !bind_cons.
  rewrite (bind_handles_ext (req_avail s) (req_avail (taken (current s) rx s)) hs
             (<[current s := (h, S n)]> hs)).
  2:{ intros i Hi. assert (i <> current s) by by intros ->. cbn.
      by rewrite list_lookup_alter_ne, list_lookup_insert_ne by done. }
  rewrite app_comm_cons. f_equal. unfold handles. cbn.
  rewrite Hh, Ha, list_lookup_insert_eq, list_lookup_alter_eq, Ha by done. cbn. unfold lane_handles.
  by replace (Z.to_nat a) with (S (Z.to_nat (a - 1))) by lia.
Qed.

(** [recv] until it has nothing left: everything that was counted, client by client
    in the order of the scan, each client's requests in order. *)
Lemma recv_all_spec m : forall s shm hs fuel,
  draining s shm hs -> (Z.to_nat (max_clients s - recv_scan_pos s) + length (rest s hs) <= m)%nat ->
  (length (rest s hs) < fuel)%nat ->
  exists s', recv_all fuel s shm = Some (s', rest s hs) /\ recv_scan_pos s' = max_clients s'.
Proof.
  induction m as [|m IH]; intros s shm hs fuel Hd Hm Hf; destruct fuel as [|fuel]; try lia;
    cbn [recv_all]; pose proof (dr_pos _ _ _ Hd) as Hp;
    destruct (recv_cases s shm hs Hd) as [[E ->]|[(Hlt & E & Hh)|(Hlt & rx & h & n & a & Hh & Ha & Hpos & E & Hd')]];
    try lia.
  1,2: cbn; exists s; split; [|done]; unfold rest, to_visit; by rewrite E, Z.sub_diag.
  - destruct (to_visit_cons s shm hs Hd Hlt) as (Ev & _ & _).
    assert (rest s hs = rest (next_client s) hs) as Hr.
    { unfold rest. rewrite Ev, bind_cons, Hh. done. }
    destruct (IH (next_client s) shm hs (S fuel)) as (s' & E' & Hs');
      [by apply draining_next|cbn [max_clients recv_scan_pos next_client]; rewrite <-Hr; lia|by rewrite <-Hr|].
    exists s'. split; [|done]. rewrite Hr, E. exact E'.
  - rewrite E. cbn [mbind option_bind]. pose proof (rest_taken s shm hs rx h n a Hd Hlt Hh Ha Hpos) as Hr.
    rewrite Hr in *. cbn [length] in *.
    destruct (IH _ _ _ fuel Hd') as (s' & E' & Hs');
      [cbn [max_clients recv_scan_pos taken]; lia|lia|].
    rewrite E'. cbn. eauto.
Qed.


Lemma total_length skip s shm hs js :
  clients_ok s shm hs ->
  total (found skip shm hs) js =
  Z.of_nat (length (js ≫= fun i => match hs !! i with
                                  | Some (h, n) => lane_handles i h n (found skip shm hs i)
                                  | None => [] end)).
Proof.
  intros Hok. induction js as [|j js IH]; [done|].
  rewrite total_cons, IH, bind_cons, length_app.
  pose proof (found_range skip s shm hs j Hok) as Hf.
  destruct (hs !! j) as [[h n]|] eqn:Hj.
  - unfold lane_handles. rewrite length_fmap, length_seq. lia.
  - unfold found. rewrite Hj. cbn. lia.
Qed.

(** After a poll, what will be handed out. *)
Lemma poll_draining skip s shm hs av :
  clients_ok s shm hs -> length av = length hs ->
  (forall i, (i < length hs)%nat -> av !! i = Some (found skip shm hs i)) ->
  let s1 := poll_done (scan_pos s) (set_avails av s) in
  draining s1 shm hs /\
  rest s1 hs = visited (max_clients s) (scan_pos s) (length hs) ≫=
    fun i => match hs !! i with
             | Some (h, n) => lane_handles i h n (found skip shm hs i)
             | None => [] end.
Proof.
  intros Hok Hl Hav. pose proof (co_max _ _ _ Hok) as [Hm Hpos]. pose proof (co_scan _ _ _ Hok) as Hsc.
  split.
  - destruct Hok as [? ? ? ? ? Hlane]. split; cbn; [by split|lia|]. intros i h n Hh.
    exists (found skip shm hs i). pose proof (lookup_lt_Some _ _ _ Hh). split; [by apply Hav|].
    destruct (Hlane _ _ _ Hh) as (rx & b & pend & _ & _ & Hb & _ & Hr).
    pose proof (Onesided.ro_taken _ _ _ _ _ Hr). unfold found. rewrite Hh, Hb.
    destruct (_ || _); lia.
  - unfold rest, to_visit. cbn. rewrite Z.add_0_r, Z.sub_0_r, Z.mod_small by lia.
    replace (Z.to_nat (max_clients s)) with (length hs) by lia.
    generalize (visited (max_clients s) (scan_pos s) (length hs)). intros js.
    induction js as [|j js IH]; [done|]. rewrite !bind_cons, IH. f_equal. unfold handles.
    destruct (hs !! j) as [[h n]|] eqn:Hj; [|done]. pose proof (lookup_lt_Some _ _ _ Hj).
    by rewrite Hav.
Qed.

End Server.

(** ** Properties *)

(** A poll of the server followed by [recv] until it returns nothing hands out,
    client by client in scan order and each client's requests in order, exactly the
    requests that the live clients not skipped had waiting; the poll returns their
    number; and the loop ends. *)
Theorem ipc_poll_drains {Req Resp : Type} k skip s (shm : Shm Req Resp) hs :
  0 <= k <= 31 -> clients_ok k s shm hs ->
  total (found skip shm hs) (visited (max_clients s) (scan_pos s) (length hs)) < 2 ^ 32 ->
  exists s1 count s2 out,
    poll_with_skip skip s shm = Some (s1, count) /\
    recv_all (S (Z.to_nat count)) s1 shm = Some (s2, out) /\
    count = Z.of_nat (length out) /\
    out = visited (max_clients s) (scan_pos s) (length hs) ≫=
      fun i => match hs !! i with
               | Some (h, n) => lane_handles k i h n (found skip shm hs i)
               | None => [] end.
Proof.
  intros Hk Hok Hsum. destruct (poll_spec k Hk skip s shm hs Hok) as (av & -> & Hl & Hav).
  destruct (poll_draining k skip s shm hs av Hok Hl Hav) as [Hd Hr].
  rewrite (total_length k Hk skip s) in * by done. rewrite <-Hr in *. rewrite u32_small by lia.
  destruct (recv_all_spec k Hk _ _ shm hs (S (Z.to_nat (Z.of_nat (length (rest k
    (poll_done (scan_pos s) (set_avails av s)) hs))))) Hd (le_n _)) as (s2 & E & _); [lia|].
  eexists _, _, s2, _. split_and!; [done|exact E|done|done].
Qed.

(** The scan starts at the same client in every poll: one turn around all clients
    brings [scan_pos] back, so the order of service never rotates. *)
Lemma poll_never_rotates {Req Resp : Type} k skip s (shm : Shm Req Resp) hs s' count :
  0 <= k <= 31 -> clients_ok k s shm hs -> poll_with_skip skip s shm = Some (s', count) ->
  scan_pos s' = scan_pos s /\ recv_start s' = scan_pos s.
Proof.
  intros Hk Hok E. destruct (poll_spec k Hk skip s shm hs Hok) as (av & E' & _).
  rewrite E in E'. by injection E' as -> _.
Qed.

(** *** A blocking call and its server *)

Section Blocking.
Context {Req Resp U : Type} (k : Z) (Hk : 0 <= k <= 31) (f : Req -> Resp).
Local Notation cap := (2 ^ k).

(** A turn of a server that replies at once, with the ends [rx] and [tx] of one
    client's rings. *)
Definition serve_turn (rx : RawReceiver) (tx : RawSender) (mem : bool * Block Req Resp)
    : bool * Block Req Resp :=
  match Onesided.raw_try_recv rx (req_ring mem.2) with
  | Some (_, (slot, Some q)) =>
      match Onesided.raw_try_send tx (Onesided.mkResponse slot (f q)) (resp_ring mem.2) with
      | Some (_, m, _) => (mem.1, mkBlock (alive mem.2) (req_ring mem.2) m)
      | None => mem
      end
  | _ => mem
  end.

(** A client and a block with nothing in flight. *)
Record at_rest (c : Client U) (b : Block Req Resp) (reqs : list Req) (resps : list (Response Resp))
    : Prop := mk_at_rest {
  ar_req : Onesided.ring_ok cap reqs (Z.of_nat (length reqs)) None (req_ring b);
  ar_resp : Onesided.ring_ok cap resps (Z.of_nat (length resps)) None (resp_ring b);
  ar_tx : Onesided.sender_at k (length reqs) (req_tx c);
  ar_rx : Onesided.receiver_at k (length resps) (resp_rx c);
  ar_flight : in_flight c = 0 /\ c_ring_depth c = cap;
}.

Lemma send_at {T} (hist : list T) m tx v :
  Onesided.ring_ok cap hist (Z.of_nat (length hist)) None m -> Onesided.sender_at k (length hist) tx ->
  exists tx' m' i, Onesided.raw_try_send tx v m = Some (tx', m', i) /\
    Onesided.ring_ok cap (hist ++ [v]) (Z.of_nat (length hist)) None m' /\
    Onesided.sender_at k (length (hist ++ [v])) tx'.
Proof.
  intros Hr Ht. pose proof (Onesided.cap_range k ltac:(lia)).
  unfold Onesided.raw_try_send.
  destruct (Onesided.send_commit tx (Onesided.send_store tx v m)) as [[tx' m'] i] eqn:Hc.
  exists tx', m', i. split; [done|]. eapply (Onesided.commit_at k ltac:(lia)); [|exact Ht|exact Hc].
  apply Onesided.store_at; [lia|done|done|lia].
Qed.

Lemma recv_at {T} (hist : list T) v m rx :
  Onesided.ring_ok cap (hist ++ [v]) (Z.of_nat (length hist)) None m ->
  Onesided.receiver_at k (length hist) rx ->
  exists rx' i, Onesided.raw_try_recv rx m = Some (rx', (i, Some v)) /\
    Onesided.receiver_at k (length (hist ++ [v])) rx' /\
    Onesided.ring_ok cap (hist ++ [v]) (Z.of_nat (length (hist ++ [v]))) None m.
Proof.
  intros Hr Ht. unfold Onesided.raw_try_recv.
  rewrite (Onesided.check_at k ltac:(lia) _ _ _ _ _ Hr Ht), length_app, Nat.add_1_r.
  cbn [length]. rewrite bool_decide_true by lia.
  destruct (Onesided.recv_take rx m) as [rx' [i d]] eqn:E.
  destruct (Onesided.take_at k ltac:(lia) _ _ _ _ _ _ _ _ Hr Ht ltac:(rewrite length_app; cbn; lia) E)
    as (-> & _ & H1 & H2). exists rx', i. rewrite lookup_app_r, Nat.sub_diag by lia. done.
Qed.

Lemma recv_nothing {T} (hist : list T) m rx :
  Onesided.ring_ok cap hist (Z.of_nat (length hist)) None m ->
  Onesided.receiver_at k (length hist) rx -> Onesided.raw_try_recv rx m = None.
Proof.
  intros Hr Ht. unfold Onesided.raw_try_recv.
  rewrite (Onesided.check_at k ltac:(lia) _ _ _ _ _ Hr Ht). by rewrite bool_decide_false by lia.
Qed.

(** A blocking call on a client at rest, with a live server that serves the
    client's requests while it waits, returns the reply to its own request after one
    turn of the server, leaves nothing in flight, and client and rings are at rest
    again for the next call, across any number of laps of the rings. *)
Theorem ipc_blocking_roundtrip c b reqs resps rx tx q fuel :
  at_rest c b reqs resps ->
  Onesided.receiver_at k (length reqs) rx -> Onesided.sender_at k (length resps) tx ->
  (2 <= fuel)%nat ->
  exists c' b' slot,
    call_blocking (serve_turn rx tx) fuel q c (true, b) = Done (c', (true, b'), Ok (f q)) /\
    at_rest c' b' (reqs ++ [q]) (resps ++ [Onesided.mkResponse slot (f q)]).
Proof.
  intros [Hq Hp Htx Hrx [Hfl Hd]] Hsrx Hstx Hfuel. destruct fuel as [|[|fuel]]; [lia..|].
  pose proof (Onesided.cap_range k ltac:(lia)) as Hcap.
  destruct (send_at reqs (req_ring b) (req_tx c) q Hq Htx) as (tx' & m & i & Es & Hq1 & Htx').
  destruct (recv_at reqs q m rx Hq1 Hsrx) as (rx' & slot & Er & _ & Hq2).
  destruct (send_at resps (resp_ring b) tx (Onesided.mkResponse slot (f q)) Hp Hstx)
    as (tx2 & m2 & i2 & Es2 & Hp1 & _).
  destruct (recv_at resps _ m2 (resp_rx c) Hp1 Hrx) as (rx3 & i3 & Er3 & Hrx3 & Hp2).
  unfold call_blocking. cbn [fst snd negb blocking_room]. rewrite Hfl, Hd.
  rewrite (proj2 (Z.ltb_lt 0 cap)) by lia. cbn [fst snd]. rewrite Es.
  cbn [blocking_wait fst snd resp_ring resp_rx]. rewrite (recv_nothing resps) by done.
  unfold serve_turn. cbn [fst snd negb req_ring resp_ring alive]. rewrite Er, Es2.
  cbn [resp_ring fst snd]. rewrite Er3.
  cbn. eexists _, _, slot. split; [done|]. split; cbn; [done..|]. by rewrite Hfl.
Qed.

End Blocking.

(** *** Runs *)

(** A server for two clients with rings of two slots, its region, and the first
    two clients. *)
Definition demo : option (Server * Shm Z Z) := create 16 24 2 2 0.
Definition demo_connect (shm : option (Shm Z Z)) : option (Shm Z Z) * result (Client Z) ConnectError :=
  connect 16 24 shm.

Definition demo_server : Server :=
  mkServer 2 2 (replicate 2 (Onesided.receiver_new 2)) (replicate 2 (Onesided.sender_new 2))
    [0%nat; 1%nat] [208; 400] 0 0 0 [0; 0] 0.
Definition demo_ring {T} : list (Slot T) := replicate 2 Onesided.slot_init.

(** The second client has the request 7 waiting. *)
Definition demo_shm : Shm Z Z :=
  mkShm (mkHeader MAGIC VERSION 2 2 16 24 0 true 2)
    [mkBlock true demo_ring demo_ring;
     mkBlock true (snd (fst (Onesided.send_commit (Onesided.sender_new 2)
       (Onesided.send_store (Onesided.sender_new 2) 7 demo_ring)))) demo_ring].

Lemma demo_clients_ok : clients_ok 1 demo_server demo_shm [([], 0%nat); ([7], 0%nat)].
Proof.
  pose proof (Onesided.ring_ok_init (T := Z) 1 ltac:(lia)) as H0.
  destruct (send_at 1 ltac:(lia) [] demo_ring (Onesided.sender_new 2) 7 H0 ltac:(done))
    as (tx & m & i & E & H1 & _). injection E as <- <- <-.
  split; [done..|]. intros [|[|j]] h n; cbn; intros Hj; simplify_eq;
    do 2 eexists; exists None; (split_and!; [done..|done]).
Qed.

Lemma ipc_poll_drains_witness :
  exists s1 count s2 out,
    poll_with_skip [true] demo_server demo_shm = Some (s1, count) /\
    recv_all (S (Z.to_nat count)) s1 demo_shm = Some (s2, out) /\
    count = Z.of_nat (length out) /\ out = [mkHandle 1 0 (Some 7)].
Proof.
  exact (ipc_poll_drains 1 [true] demo_server demo_shm [([], 0%nat); ([7], 0%nat)]
    ltac:(lia) demo_clients_ok ltac:(vm_compute; reflexivity)).
Defined.

Lemma ipc_blocking_roundtrip_witness :
  exists c' b' slot,
    call_blocking (serve_turn (fun q => q + 1) (Onesided.receiver_new 2) (Onesided.sender_new 2)) 2 41
      (mkClient (U := unit) 0 2 (Onesided.sender_new 2) (Onesided.receiver_new 2) 208 0 0
         (replicate 2 None))
      (true, mkBlock true demo_ring demo_ring) = Done (c', (true, b'), Ok 42) /\
    at_rest (U := unit) 1 c' b' [41] [Onesided.mkResponse slot 42].
Proof.
  apply (ipc_blocking_roundtrip 1 ltac:(lia) (fun q => q + 1) _ _ [] []); [|done|done|lia].
  split; [exact (Onesided.ring_ok_init 1 ltac:(lia))|exact (Onesided.ring_ok_init 1 ltac:(lia))|done|done|done].
Defined.

(** [create] makes the server and region above, and clients get the numbers 0 and 1. *)
Lemma demo_create :
  match demo with
  | Some (s, shm) =>
      s = demo_server /\
      match demo_connect (Some shm) with
      | (shm1, Ok c0) =>
          client_id c0 = 0 /\ extra_ptrs s !! 0%nat = Some (extra_ptr c0) /\
          match demo_connect shm1 with
          | (Some shm2, Ok c1) =>
              client_id c1 = 1 /\ extra_ptrs s !! 1%nat = Some (extra_ptr c1) /\
              header shm2 = header demo_shm /\ connected_clients s shm2 = 2
          | _ => False
          end
      | _ => False
      end
  | None => False
  end.
Proof. vm_compute. repeat split. Qed.

(** Numbers of clients that have gone are not given again: after two clients have
    connected and disconnected the server has no client and is full. *)
Lemma client_numbers_not_reused :
  match demo with
  | Some (s, shm) =>
      let shm2 := (demo_connect (demo_connect (Some shm)).1).1 in
      match shm2 with
      | Some shm2 =>
          let gone := mkShm (header shm2) (drop_client <$> blocks shm2) in
          connected_clients s gone = 0 /\ (demo_connect (Some gone)).2 = Err ServerFull
      | None => False
      end
  | None => False
  end.
Proof. vm_compute. done. Qed.

(** Errors of [connect] leave the region as it was, but for the number taken by a
    client that finds the server full. *)
Lemma connect_error {Req Resp U : Type} rs ps (shm : Shm Req Resp) shm' e :
  connect (U := U) rs ps (Some shm) = (shm', Err e) ->
  match e with
  | ServerFull => shm' = Some (mkShm (set_next_client_id (u32 (next_client_id (header shm) + 1))
                                        (header shm)) (blocks shm)) /\
                  h_max_clients (header shm) <= next_client_id (header shm)
  | ServerNotAlive => shm' = Some shm /\ server_alive (header shm) = false
  | LayoutMismatch => shm' = Some shm
  | Io => False
  end.
Proof.
  unfold connect. destruct (negb (magic _ =? _)); [by intros [= <- <-]|].
  destruct (negb (version _ =? _)); [by intros [= <- <-]|].
  destruct (server_alive (header shm)) eqn:Ha; cbn [negb]; [|by intros [= <- <-]].
  destruct (_ || _); [by intros [= <- <-]|].
  destruct (_ <=? _) eqn:Hm; [|done]. intros [= <- <-]. guards. split; [done|lia].
Qed.

End IpcServer.
