(* ===== verification/Flux.v ===== *)
(** * Flux: calls between all pairs of nodes

    [inproc/src/flux.rs].  Each of [n] nodes has a one-sided server ([Onesided]) and
    a caller of every other node's server, wrapped with user data ([Mpsc]).  This
    file has the network and the operations of a node, and shows that [create_flux]
    connects every pair of nodes by a channel of its own; [FluxProps] has the
    properties of the network. *)
From S2P Require Import Prelude Onesided Mpsc.

Module Flux.

Notation Caller := Onesided.Caller.
Notation Inner := Onesided.Inner.
Notation Response := Onesided.Response.
Notation ReplyToken := Onesided.ReplyToken.

(** [enum SendError]. *)
Inductive SendError (T : Type) : Type :=
| Disconnected (v : T)
| Full (v : T)
| InvalidPeer (v : T).
Arguments Disconnected {T} _.
Arguments Full {T} _.
Arguments InvalidPeer {T} _.

(** [usize::next_power_of_two]. *)
Definition next_power_of_two (n : Z) : Z := if n <=? 1 then 1 else 2 ^ Z.log2_up n.

Section Flux.
Context {T U : Type}.

(** A caller with the two rings it shares with its server: a transport for the
    user-data adapter.  What the server does is not a step of the caller. *)
Definition View : Type := Caller * Inner T * Inner (Response T).

#[export] Instance view_ops : Mpsc.CallerOps View T T := {|
  Mpsc.caller_call v req :=
    let '(c, cch, rch) := v in
    let '(c, cch, r) := Onesided.call c req cch in Some ((c, cch, rch), r);
  Mpsc.caller_sync v := let '(c, cch, rch) := v in (Onesided.sync c, cch, rch);
  Mpsc.caller_try_recv_response v :=
    let '(c, cch, rch) := v in
    match Onesided.try_recv_response c rch with
    | None => Some (v, None)
    | Some (c, Some r) =>
        Some ((c, cch, rch), Some (Onesided.token r, Onesided.resp_data r))
    | Some (_, None) => None
    end;
  Mpsc.caller_pending_count v := Onesided.inflight v.1.1;
  Mpsc.serve _ _ := False;
|}.

(** An entry of [callers]: the one-sided caller, the user data kept for it, and the
    channel its two ends point to, by server and number. *)
Record FluxCaller : Type := mkFluxCaller {
  fc_caller : Caller;
  fc_data : list (option U);
  fc_lane : nat * nat;
}.

(** [struct Flux]. *)
Record Flux : Type := mkFlux {
  id : nat;
  num_nodes : nat;
  server : Onesided.Server;
  callers : list FluxCaller;
  peer_ids : list nat;
}.

(** All nodes and the rings they share: those of server [j] at [j]. *)
Record Net : Type := mkNet {
  nodes : list Flux;
  call_chs : list (list (Inner T));
  resp_chs : list (list (Inner (Response T)));
}.

Definition set_callers (cs : list FluxCaller) (f : Flux) : Flux :=
  mkFlux (id f) (num_nodes f) (server f) cs (peer_ids f).
Definition set_server (s : Onesided.Server) (f : Flux) : Flux :=
  mkFlux (id f) (num_nodes f) s (callers f) (peer_ids f).

Definition num_peers (f : Flux) : nat := length (callers f).

Definition peer_to_caller_index (f : Flux) (peer : nat) : option nat :=
  if decide (num_nodes f <= peer)%nat then None
  else if decide (peer = id f) then None
  else Some (if decide (peer < id f)%nat then peer else (peer - 1)%nat).

(** An operation of the adapter on caller [ci] of node [i]. *)
Definition on_caller {A : Type}
    (op : Mpsc.CallerWithUserData View U -> option (Mpsc.CallerWithUserData View U * A))
    (i ci : nat) (N : Net) : option (Net * A) :=
  f ← nodes N !! i;
  fc ← callers f !! ci;
  let '(j, p) := fc_lane fc in
  cchs ← call_chs N !! j;
  rchs ← resp_chs N !! j;
  cch ← cchs !! p;
  rch ← rchs !! p;
  r ← op (Mpsc.mkWith (fc_caller fc, cch, rch) (fc_data fc));
  let '(Mpsc.mkWith (c, cch, rch) ud, a) := (r : Mpsc.CallerWithUserData View U * A) in
  Some (mkNet (<[i := set_callers (<[ci := mkFluxCaller c ud (j, p)]> (callers f)) f]> (nodes N))
          (<[j := <[p := cch]> cchs]> (call_chs N)) (<[j := <[p := rch]> rchs]> (resp_chs N)), a).

Definition map_error (e : Onesided.CallError T) : SendError T :=
  match e with
  | Onesided.Full v => Full v
  | Onesided.InflightExceeded v => Full v
  | Onesided.Disconnected v => Disconnected v
  end.

(** [Flux::call] of node [i]. *)
Definition call (i to : nat) (value : T) (u : U) (N : Net)
    : option (Net * result unit (SendError T)) :=
  f ← nodes N !! i;
  match peer_to_caller_index f to with
  | None => Some (N, Err (InvalidPeer value))
  | Some ci =>
      r ← on_caller (fun w => Mpsc.with_call w value u) i ci N;
      let '(N, r) := (r : Net * result unit (Onesided.CallError T)) in
      Some (N, match r with Ok _ => Ok tt | Err e => Err (map_error e) end)
  end.

(** [Flux::poll] of node [i]: the poll of the server only counts requests; then
    every caller is polled, and the callbacks are returned in order.  [fuel] bounds
    the responses of one caller. *)
Fixpoint poll_callers (fuel : nat) (i : nat) (cis : list nat) (N : Net)
    : option (Net * list (U * T)) :=
  match cis with
  | [] => Some (N, [])
  | ci :: cis =>
      r ← on_caller (Mpsc.with_poll fuel) i ci N;
      let '(N, out) := (r : Net * list (U * T)) in
      r ← poll_callers fuel i cis N;
      let '(N, out') := (r : Net * list (U * T)) in
      Some (N, out ++ out')
  end.

Definition poll (fuel i : nat) (N : Net) : option (Net * list (U * T)) :=
  f ← nodes N !! i;
  poll_callers fuel i (seq 0 (length (callers f))) N.

(** [Flux::try_recv_raw], and [Flux::try_recv], whose handle holds the same. *)
Definition try_recv (i : nat) (N : Net) : option (Net * option (nat * ReplyToken * T)) :=
  f ← nodes N !! i;
  cchs ← call_chs N !! i;
  match Onesided.server_try_recv (server f) cchs with
  | (s, None) => Some (mkNet (<[i := set_server s f]> (nodes N)) (call_chs N) (resp_chs N), None)
  | (s, Some (t, d)) =>
      d ← d;
      from ← peer_ids f !! Z.to_nat (Onesided.tk_caller_id t);
      Some (mkNet (<[i := set_server s f]> (nodes N)) (call_chs N) (resp_chs N),
            Some (from, t, d))
  end.

(** [Flux::reply], and [RecvHandle::reply]. *)
Definition reply (i : nat) (t : ReplyToken) (value : T) (N : Net) : option Net :=
  f ← nodes N !! i;
  rchs ← resp_chs N !! i;
  r ← Onesided.reply (server f) t value rchs;
  let '(s, rchs) := (r : Onesided.Server * list (Inner (Response T))) in
  Some (mkNet (<[i := set_server s f]> (nodes N)) (call_chs N) (<[i := rchs]> (resp_chs N))).

Definition pending_count (f : Flux) : Z :=
  foldr (fun fc acc => Onesided.inflight (fc_caller fc) + acc) 0 (callers f).

(** ** Creation *)

(** The inner loop of [create_flux] for node [i]: the callers taken from the other
    nodes' groups; [None] is the panic of an [unwrap]. *)
Fixpoint take_callers (i : nat) (js : list nat) (groups : list (list (option Caller)))
    : option (list (list (option Caller)) * list (Caller * (nat * nat))) :=
  match js with
  | [] => Some (groups, [])
  | j :: js =>
      if decide (j = i) then take_callers i js groups
      else
        let caller_idx := if decide (i < j)%nat then i else (i - 1)%nat in
        cs ← groups !! j;
        slot ← cs !! caller_idx;
        c ← slot;
        r ← take_callers i js (<[j := <[caller_idx := None]> cs]> groups);
        let '(groups, raw) := (r : list (list (option Caller)) * list (Caller * (nat * nat))) in
        Some (groups, (c, (j, caller_idx)) :: raw)
  end.

(** The outer loop. *)
Fixpoint build_nodes (n actual_capacity : nat) (is_ : list nat) (servers : list (option Onesided.Server))
    (groups : list (list (option Caller))) : option (list Flux) :=
  match is_ with
  | [] => Some []
  | i :: is_ =>
      slot ← servers !! i;
      s ← slot;
      r ← take_callers i (seq 0 n) groups;
      let '(groups, raw) := (r : list (list (option Caller)) * list (Caller * (nat * nat))) in
      rest ← build_nodes n actual_capacity is_ (<[i := None]> servers) groups;
      Some (mkFlux i n s
              ((fun '(c, lane) => mkFluxCaller c (replicate actual_capacity None) lane) <$> raw)
              ((fun '(_, lane) => lane.1) <$> raw) :: rest)
  end.

(** [create_flux]; [None] is a failed assertion or [unwrap]. *)
Definition create_flux (n : nat) (capacity inflight_max : Z) : option Net :=
  let actual_capacity := next_power_of_two capacity in
  if decide (0 < n)%nat then
    if (0 <? capacity) && (inflight_max <? actual_capacity) then
      g ← Onesided.create (Z.of_nat n - 1) capacity inflight_max;
      let '(cs, s, cchs, rchs) := g in
      nodes ← build_nodes n (Z.to_nat actual_capacity) (seq 0 n)
                (replicate n (Some s)) (replicate n (Some <$> cs));
      Some (mkNet nodes (replicate n cchs) (replicate n rchs))
    else None
  else None.

(** ** The wiring *)

(** The number of node [i] among the peers of [j], and the [p]-th peer of [j]. *)
Definition index (i j : nat) : nat := if decide (i < j)%nat then i else (i - 1)%nat.
Definition owner (j p : nat) : nat := if decide (p < j)%nat then p else S p.

Definition others (n i : nat) : list nat := filter (fun j => j <> i) (seq 0 n).

Lemma owner_index i j : i <> j -> owner j (index i j) = i.
Proof. unfold owner, index. intros. repeat case_decide; lia. Qed.

Lemma index_owner j p : index (owner j p) j = p /\ owner j p <> j.
Proof. unfold owner, index. repeat case_decide; lia. Qed.

Lemma index_lt n i j : i <> j -> (i < n)%nat -> (j < n)%nat -> (index i j < n - 1)%nat.
Proof. unfold index. case_decide; lia. Qed.

Lemma index_inj i i' j : i <> j -> i' <> j -> index i j = index i' j -> i = i'.
Proof. unfold index. repeat case_decide; lia. Qed.

Lemma filter_ne_seq i a n :
  (a + n <= i)%nat \/ (i < a)%nat -> filter (fun j => j <> i) (seq a n) = seq a n.
Proof.
  intros H. induction n as [|n IH] in a, H |- *; [done|].
  cbn [seq]. rewrite filter_cons_True by lia. f_equal. apply IH. lia.
Qed.

Lemma others_split n i :
  (i < n)%nat -> others n i = seq 0 i ++ seq (S i) (n - S i).
Proof.
  intros Hi. unfold others. replace n with (i + S (n - S i))%nat at 1 by lia.
  rewrite seq_app, filter_app. cbn [seq plus]. rewrite filter_cons_False by lia.
  rewrite !filter_ne_seq by lia. done.
Qed.

Lemma length_others n i : (i < n)%nat -> length (others n i) = (n - 1)%nat.
Proof. intros Hi. rewrite others_split by done. rewrite length_app, !length_seq. lia. Qed.

(** The [p]-th of the other nodes. *)
Lemma others_lookup n i p : (i < n)%nat -> (p < n - 1)%nat -> others n i !! p = Some (owner i p).
Proof.
  intros Hi Hp. rewrite others_split by done. unfold owner. case_decide.
  - rewrite lookup_app_l by (rewrite length_seq; lia). by rewrite lookup_seq_lt by lia.
  - rewrite lookup_app_r by (rewrite length_seq; lia). rewrite length_seq, lookup_seq_lt by lia.
    f_equal. lia.
Qed.

(** The callers node [i] has still to take are there. *)
Definition untaken (c0 : Caller) (groups : list (list (option Caller))) (i j : nat) : Prop :=
  exists cs, groups !! j = Some cs /\ cs !! index i j = Some (Some c0).

Lemma untaken_insert c0 groups i j i' j' cs :
  groups !! j' = Some cs -> i <> j -> i' <> j' -> (i, j) <> (i', j') ->
  untaken c0 groups i j -> untaken c0 (<[j' := <[index i' j' := None]> cs]> groups) i j.
Proof.
  intros Hg Hi Hi' Hne (cs' & Hj & Hc). unfold untaken.
  destruct (decide (j = j')) as [->|Hj'].
  - rewrite list_lookup_insert_eq by by eapply lookup_lt_Some. simplify_eq.
    eexists. split; [done|]. rewrite list_lookup_insert_ne; [done|].
    intros E. apply index_inj in E; [congruence|done..].
  - rewrite list_lookup_insert_ne by done. eauto.
Qed.

Lemma take_callers_spec c0 i js : forall groups,
  NoDup js -> (forall j, j ∈ js -> j <> i -> untaken c0 groups i j) ->
  exists groups', take_callers i js groups =
      Some (groups', (fun j => (c0, (j, index i j))) <$> filter (fun j => j <> i) js) /\
    forall i' j', i' <> j' -> i' <> i -> untaken c0 groups i' j' -> untaken c0 groups' i' j'.
Proof.
  induction js as [|j js IH]; intros groups Hnd Hun; cbn [take_callers].
  { exists groups. split; [done|]. auto. }
  apply NoDup_cons in Hnd as [Hj Hnd]. case_decide as Hji.
  - subst j. rewrite filter_cons_False by naive_solver. apply IH; [done|].
    intros j Hj' Hne. apply Hun; set_solver.
  - rewrite filter_cons_True by done.
    destruct (Hun j ltac:(set_solver) Hji) as (cs & Hg & Hc). fold (index i j).
    rewrite Hg. cbn [mbind option_bind]. rewrite Hc. cbn [mbind option_bind].
    destruct (IH (<[j := <[index i j := None]> cs]> groups)) as (groups' & E & Hkeep); [done| |].
    { intros j' Hj' Hne. apply untaken_insert; [done|naive_solver..| |].
      - intros [= ->]. done.
      - apply Hun; set_solver. }
    rewrite E. cbn. exists groups'. split; [done|]. intros i' j' Hij Hii Hu.
    apply Hkeep; [done..|]. apply untaken_insert; [done|done|naive_solver|congruence|done].
Qed.

(** A node as [create_flux] makes it. *)
Definition new_node (n capacity : nat) (c0 : Caller) (s0 : Onesided.Server) (i : nat) : Flux :=
  mkFlux i n s0
    ((fun j => mkFluxCaller c0 (replicate capacity None) (j, index i j)) <$> others n i)
    (others n i).

Lemma build_nodes_spec n cap c0 s0 is_ : forall servers groups,
  NoDup is_ -> (forall i, i ∈ is_ -> servers !! i = Some (Some s0)) ->
  (forall i j, i ∈ is_ -> (j < n)%nat -> j <> i -> untaken c0 groups i j) ->
  build_nodes n cap is_ servers groups = Some (new_node n cap c0 s0 <$> is_).
Proof.
  induction is_ as [|i is_ IH]; intros servers groups Hnd Hs Hg; [done|].
  apply NoDup_cons in Hnd as [Hi Hnd]. cbn [build_nodes].
  rewrite Hs by set_solver. cbn [mbind option_bind].
  destruct (take_callers_spec c0 i (seq 0 n) groups) as (groups' & -> & Hkeep); [apply NoDup_seq| |].
  { intros j Hj Hne. apply Hg; [set_solver| |done]. apply elem_of_seq in Hj. lia. }
  cbn [mbind option_bind]. rewrite (IH (<[i := None]> servers) groups'); [|done| |].
  - cbn. f_equal. f_equal. unfold new_node. rewrite <-!list_fmap_compose. f_equal.
    etrans; [|apply list_fmap_id]. by apply list_fmap_ext.
  - intros i' Hi'. rewrite list_lookup_insert_ne by (intros ->; done). apply Hs. set_solver.
  - intros i' j Hi' Hj Hne. apply Hkeep; [naive_solver|intros ->; done|]. apply Hg; [set_solver|done..].
Qed.


(** [create_flux] with a power of two: every node is a [new_node]. *)
Lemma next_power_of_two_pow k : 0 <= k -> next_power_of_two (2 ^ k) = 2 ^ k.
Proof.
  intros Hk. unfold next_power_of_two. destruct (_ <=? _) eqn:E; guards.
  - assert (1 <= 2 ^ k) by (apply (Z.pow_le_mono_r 2 0 k); lia). lia.
  - by rewrite Z.log2_up_pow2.
Qed.

Definition caller0 (cap mi : Z) : Caller :=
  Onesided.mkCaller (Onesided.sender_new cap) (Onesided.receiver_new cap) 0 mi.
Definition state0 (cap : Z) : Onesided.CallerState :=
  Onesided.mkState (Onesided.receiver_new cap) (Onesided.sender_new cap).
Definition ring0 {A : Type} (cap : Z) : Inner A :=
  Onesided.mkInner (replicate (Z.to_nat cap) Onesided.slot_init) true true.

Lemma create_flux_spec n k mi :
  (0 < n)%nat -> 0 <= k <= 63 -> mi < 2 ^ k ->
  create_flux n (2 ^ k) mi =
    Some (mkNet
      (new_node n (Z.to_nat (2 ^ k)) (caller0 (2 ^ k) mi)
         (Onesided.mkServer (replicate (n - 1) (state0 (2 ^ k))) 0) <$> seq 0 n)
      (replicate n (replicate (n - 1) (ring0 (2 ^ k))))
      (replicate n (replicate (n - 1) (ring0 (2 ^ k))))).
Proof.
  intros Hn Hk Hmi. pose proof (Onesided.cap_range k Hk) as Hc. unfold create_flux.
  rewrite next_power_of_two_pow, decide_True by lia.
  rewrite (proj2 (Z.ltb_lt 0 (2 ^ k))), (proj2 (Z.ltb_lt mi (2 ^ k))) by lia. cbn [andb].
  assert (is_power_of_two (2 ^ k) = true) as Hp.
  { unfold is_power_of_two. rewrite Z.log2_pow2, Z.eqb_refl by lia.
    by rewrite (proj2 (Z.ltb_lt 0 (2 ^ k))) by lia. }
  unfold Onesided.create, Onesided.create_spsc. rewrite Hp. cbn [mbind option_bind].
  replace (Z.to_nat (Z.of_nat n - 1)) with (n - 1)%nat by lia.
  rewrite fmap_replicate.
  rewrite (build_nodes_spec n _ (caller0 (2 ^ k) mi)
             (Onesided.mkServer (replicate (n - 1) (state0 (2 ^ k))) 0)); [done|apply NoDup_seq| |].
  - intros i Hi%elem_of_seq. by apply lookup_replicate_2; lia.
  - intros i j Hi%elem_of_seq Hj Hne. eexists. split; [apply lookup_replicate_2; lia|].
    apply lookup_replicate_2. apply index_lt; lia.
Qed.

(** The capacity is not rounded for the channels: any other capacity is refused. *)
Lemma create_flux_not_rounded n capacity mi :
  is_power_of_two capacity = false -> create_flux n capacity mi = None.
Proof.
  intros Hp. unfold create_flux, Onesided.create, Onesided.create_spsc. rewrite Hp.
  case_decide; [|done]. by destruct (_ && _).
Qed.

End Flux.
Arguments Flux : clear implicits.
Arguments Net : clear implicits.
Arguments FluxCaller : clear implicits.
End Flux.
