(* ===== verification/FluxProps.v ===== *)
(** * FluxProps: the network of nodes

    One-sided channels whose server answers in order satisfy the laws of the
    user-data adapter; in every execution of a network of nodes, what a node receives
    from another is what that one called it with, in order; replies out of order
    confuse user data. *)
From S2P Require Import Prelude Onesided Mpsc Flux.

Module FluxProps.
Import Flux.

(** ** In-order channels have the laws of the adapter *)

Section Laws.
Context {Req Resp : Type}.
Notation Lane := (Onesided.Lane Req Resp).
Implicit Types l : Lane.

#[local] Instance lane_ops : Mpsc.CallerOps Lane Req Resp := {|
  Mpsc.caller_call l req :=
    Some (Onesided.run_call req l, (Onesided.call (Onesided.caller l) req (Onesided.call_ch l)).2);
  Mpsc.caller_sync l :=
    Onesided.mkLane (Onesided.sync (Onesided.caller l)) (Onesided.caller_pc l) (Onesided.sstate l)
      (Onesided.server_pc l) (Onesided.call_ch l) (Onesided.resp_ch l) (Onesided.tokens l)
      (Onesided.sent l) (Onesided.recvd l) (Onesided.replied l) (Onesided.answered l);
  Mpsc.caller_try_recv_response l :=
    match Onesided.try_recv_response (Onesided.caller l) (Onesided.resp_ch l) with
    | None => Some (l, None)
    | Some (_, Some r) =>
        Some (Onesided.run_response l, Some (Onesided.token r, Onesided.resp_data r))
    | Some (_, None) => None
    end;
  Mpsc.caller_pending_count l := Onesided.inflight (Onesided.caller l);
  Mpsc.serve l l' := l' = Onesided.run_receive l \/ exists resp, l' = Onesided.run_reply 0 resp l;
|}.

Context (k mi : Z) (Hk : 0 <= k <= 63) (Hmi : 0 <= mi <= 2 ^ k).
Local Notation cap := (2 ^ k).

(** The tokens replied with and those still held are, in this order, those of the
    requests received. *)
Record in_order l (ans n : Z) : Prop := mk_in_order {
  io_ok : Onesided.lane_ok k l;
  io_idle : Onesided.caller_pc l = Onesided.CIdle /\ Onesided.server_pc l = Onesided.VIdle;
  io_alive : Onesided.rx_alive (Onesided.resp_ch l) = true;
  io_max : Onesided.max_inflight (Onesided.caller l) = mi;
  io_tokens : (Onesided.token <$> Onesided.replied l) ++ Onesided.tokens l =
    (fun n => n mod cap) <$> seqZ 0 (Z.of_nat (length (Onesided.recvd l)));
  io_ans : ans = Z.of_nat (length (Onesided.answered l));
  io_n : n = Onesided.inflight (Onesided.caller l);
}.

Lemma lane_bounds l :
  Onesided.lane_ok k l -> 0 <= Onesided.inflight (Onesided.caller l) /\
  (length (Onesided.answered l) <= length (Onesided.replied l))%nat.
Proof.
  intros Hok. pose proof (Onesided.replies_bounded k l Hok).
  pose proof (Onesided.ro_taken _ _ _ _ _ (Onesided.lo_resp _ _ Hok)).
  pose proof (Onesided.lo_inflight _ _ Hok). lia.
Qed.

Lemma in_order_call l ans n req :
  in_order l ans n ->
  match (Onesided.call (Onesided.caller l) req (Onesided.call_ch l)).2 with
  | Ok t => t mod cap = (ans + n) mod cap /\ in_order (Onesided.run_call req l) ans (n + 1)
  | Err _ => in_order (Onesided.run_call req l) ans n
  end.
Proof.
  intros H. pose proof H as [Hok [Hc Hv] Ha Hm Ht Hans Hn].
  pose proof (rtc_ind_r (fun l' => Onesided.lane_ok k l') l Hok
    (fun y z _ s H => Onesided.lane_step_ok k Hk _ _ s H) _ (Onesided.run_call_steps req l Hc)) as Hok'.
  pose proof (Onesided.lo_inflight _ _ Hok) as Hin.
  destruct l as [c cpc st vpc cch rch tks se re rp an]. unfold Onesided.run_call, Onesided.call in *.
  cbn in *. destruct (negb _); [done|]. destruct (_ <=? _); [done|].
  unfold Onesided.try_send in *. destruct (negb (Onesided.rx_alive cch)); [done|].
  cbn in *. split.
  - rewrite (Onesided.send_idx_at k Hk (length se)) by apply Hok. rewrite Z.mod_mod.
    + f_equal. lia.
    + pose proof (Onesided.cap_range k Hk). lia.
  - split; cbn; try done. lia.
Qed.

Lemma in_order_recv l ans n :
  in_order l ans n ->
  match Onesided.try_recv_response (Onesided.caller l) (Onesided.resp_ch l) with
  | None => True
  | Some (_, Some r) => Onesided.token r mod cap = ans mod cap /\ 0 < n /\
      in_order (Onesided.run_response l) (ans + 1) (n - 1)
  | Some (_, None) => False
  end.
Proof.
  intros H. pose proof H as [Hok [Hc Hv] Ha Hm Ht Hans Hn].
  pose proof (rtc_ind_r (fun l' => Onesided.lane_ok k l') l Hok
    (fun y z _ s H => Onesided.lane_step_ok k Hk _ _ s H) _ (Onesided.run_response_steps l Hc)) as Hok'.
  pose proof (Onesided.lo_inflight _ _ Hok) as Hin. pose proof (Onesided.replies_bounded k l Hok) as Hb.
  pose proof (Onesided.lo_limit _ _ Hok) as Hlim. pose proof (Onesided.cap_range k Hk).
  destruct l as [c cpc st vpc cch rch tks se re rp an].
  unfold Onesided.run_response, Onesided.try_recv_response, Onesided.try_recv, Onesided.raw_try_recv in *.
  cbn in *.
  pose proof (Onesided.check_at k Hk _ _ _ _ _ (Onesided.lo_resp _ _ Hok) (Onesided.lo_rrx _ _ Hok)) as Hch.
  cbn in Hch. rewrite Hch in *. case_bool_decide as Hlt; [|done].
  destruct (Onesided.recv_take _ _) as [rx [i d]] eqn:E.
  destruct (Onesided.take_at k Hk _ _ _ _ _ _ _ _ (Onesided.lo_resp _ _ Hok)
    (Onesided.lo_rrx _ _ Hok) Hlt E) as (Hd & _ & _ & _). cbn in Hd.
  destruct (lookup_lt_is_Some_2 rp (length an) Hlt) as [r Hr]. rewrite Hr in Hd. subst d.
  assert (Onesided.token r = Z.of_nat (length an) mod cap) as Htok.
  { assert (((fun n => n mod cap) <$> seqZ 0 (Z.of_nat (length re))) !! length an =
            Some (Onesided.token r)) as Hx.
    { rewrite <-Ht. apply lookup_app_l_Some. by rewrite list_lookup_fmap, Hr. }
    rewrite list_lookup_fmap, lookup_seqZ_lt in Hx by lia. by injection Hx as <-. }
  split_and!; [rewrite Htok, Z.mod_mod by lia; by subst ans|lia|].
  split; cbn; try done; rewrite ?length_app; cbn; [lia|]. rewrite u64_small by lia. lia.
Qed.

Lemma in_order_serve l l' ans n : in_order l ans n -> Mpsc.serve l l' -> in_order l' ans n.
Proof.
  intros H Hs. pose proof H as [Hok [Hc Hv] Ha Hm Ht Hans Hn].
  assert (Onesided.lane_ok k l') as Hok'.
  { assert (rtc Onesided.lane_step l l') as Hr.
    { destruct Hs as [->|[resp ->]]; [by apply Onesided.run_receive_steps|by apply Onesided.run_reply_steps]. }
    refine (rtc_ind_r (fun l' => Onesided.lane_ok k l') l Hok _ _ Hr).
    intros y z _ s Hy. by eapply Onesided.lane_step_ok. }
  destruct l as [c cpc st vpc cch rch tks se re rp an]. cbn in *.
  destruct Hs as [->|[resp ->]].
  - unfold Onesided.run_receive, Onesided.try_recv, Onesided.raw_try_recv in *. cbn in *.
    pose proof (Onesided.check_at k Hk _ _ _ _ _ (Onesided.lo_call _ _ Hok) (Onesided.lo_crx _ _ Hok)) as Hch.
    cbn in Hch. rewrite Hch in *. case_bool_decide as Hlt; [|done].
    destruct (Onesided.recv_take _ _) as [rx [i d]] eqn:E.
    destruct (Onesided.take_at k Hk _ _ _ _ _ _ _ _ (Onesided.lo_call _ _ Hok)
      (Onesided.lo_crx _ _ Hok) Hlt E) as (_ & -> & _ & _).
    split; cbn; try done. rewrite length_app, Nat.add_1_r, seqZ_S, fmap_app, app_assoc, Ht. done.
  - unfold Onesided.run_reply, Onesided.lane_reply, Onesided.try_send in *. cbn in *.
    destruct tks as [|t tks]; [done|]. cbn in *. rewrite Ha in *. cbn in *.
    split; cbn; try done. rewrite fmap_app, <-app_assoc. exact Ht.
Qed.

(** The laws, with the slot index of a request as its token: numbers modulo the
    depth of the ring. *)
#[local] Program Instance onesided_laws : Mpsc.CallerLaws Lane Req Resp := {|
  Mpsc.window := mi;
  Mpsc.modulus := cap;
  Mpsc.in_window := in_order;
|}.
Next Obligation.
  intros l ans n [Hok _ _ Hm _ -> ->]. pose proof (lane_bounds l Hok).
  pose proof (Onesided.lo_limit _ _ Hok). lia.
Qed.
Next Obligation. by intros l ans n [_ _ _ _ _ _ ->]. Qed.
Next Obligation.
  intros l ans n req H _. eexists _, _. split; [done|]. by apply in_order_call.
Qed.
Next Obligation.
  intros l ans n [[] ? ? ? ? ? ?]. by split.
Qed.
Next Obligation.
  intros l ans n H. cbn. pose proof (in_order_recv l ans n H) as Hr.
  destruct (Onesided.try_recv_response _ _) as [[c [r|]]|]; [|done|]; eexists _, _; by split.
Qed.
Next Obligation. intros l l' ans n H Hs. by eapply in_order_serve. Qed.

Lemma lane_new_in_order nc i l : Onesided.lane_new nc cap mi i = Some l -> in_order l 0 0.
Proof.
  intros H. pose proof (Onesided.lane_new_ok _ _ _ _ _ Hk Hmi H) as Hok.
  pose proof (Onesided.lane_new_limit _ _ _ _ _ H) as Hlim.
  unfold Onesided.lane_new, Onesided.create, Onesided.create_spsc in H.
  destruct (is_power_of_two cap); [|done]. cbn in H.
  destruct (decide (i < Z.to_nat nc)%nat) as [Hi|Hi].
  2:{ by rewrite lookup_ge_None_2 in H by (rewrite length_replicate; lia). }
  rewrite !lookup_replicate_2 in H by done. injection H as <-. by split.
Qed.

End Laws.

(** ** The network *)

Section Network.
Context {T U : Type} (n : nat) (k mi : Z) (Hk : 0 <= k <= 63) (Hmi : 0 <= mi < 2 ^ k).
Notation Lane := (Onesided.Lane T T).
Implicit Types (N : Net T U) (l : Lane) (ls : nat -> nat -> Lane).

Definition view l : View := (Onesided.caller l, Onesided.call_ch l, Onesided.resp_ch l).

Definition idle l : Prop :=
  Onesided.caller_pc l = Onesided.CIdle /\ Onesided.server_pc l = Onesided.VIdle.

(** What an operation of the caller may do to a lane, and one of the server. *)
Record caller_moves l l' : Prop := mk_caller_moves {
  cm_steps : rtc Onesided.lane_step l l';
  cm_idle : idle l';
  cm_state : Onesided.sstate l' = Onesided.sstate l;
  cm_tokens : Onesided.tokens l' = Onesided.tokens l;
  cm_recvd : Onesided.recvd l' = Onesided.recvd l;
}.

Lemma lane_steps_ok l l' : rtc Onesided.lane_step l l' -> Onesided.lane_ok k l -> Onesided.lane_ok k l'.
Proof. induction 1; eauto using Onesided.lane_step_ok. Qed.

(** The adapter's operations on the view of a lane are operations of its caller. *)
Lemma adapter_call_moves l (ud : list (option U)) v u w' r :
  idle l -> Mpsc.with_call (Mpsc.mkWith (view l) ud) v u = Some (w', r) ->
  exists l', view l' = Mpsc.caller w' /\ caller_moves l l' /\
    Onesided.sent l' = Onesided.sent l ++ (if is_ok r then [v] else []).
Proof.
  intros [Hc Hv] E. exists (Onesided.run_call v l).
  pose proof (Onesided.run_call_steps v l Hc) as Hs. revert E Hs.
  unfold Mpsc.with_call, Onesided.run_call. cbn.
  destruct (Onesided.call _ _ _) as [[c ch] res]. destruct res as [t|e].
  - destruct (Mpsc.ud_slot _ _); [|done]. intros [= <- <-] Hs. by split; [|split].
  - intros [= <- <-] Hs. split; [done|]. split; [by split|]. cbn. by rewrite app_nil_r.
Qed.

Lemma caller_moves_trans l1 l2 l3 : caller_moves l1 l2 -> caller_moves l2 l3 -> caller_moves l1 l3.
Proof. intros [] []. split; [by etrans|done|congruence..]. Qed.

Lemma poll_loop_moves fuel : forall l (ud : list (option U)) w' (out : list (U * T)),
  idle l -> Mpsc.with_poll_loop fuel (Mpsc.mkWith (view l) ud) = Some (w', out) ->
  exists l', view l' = Mpsc.caller w' /\ caller_moves l l' /\ Onesided.sent l' = Onesided.sent l.
Proof.
  induction fuel as [|fuel IH]; intros l ud w' out Hi; [done|].
  rewrite Mpsc.with_poll_loop_S. cbn [Mpsc.caller Mpsc.caller_try_recv_response view_ops view].
  pose proof (Onesided.run_response_steps l (proj1 Hi)) as Hs. unfold Onesided.run_response in Hs.
  destruct (Onesided.try_recv_response (Onesided.caller l) (Onesided.resp_ch l)) as [[c [r|]]|]; [|done|].
  2:{ intros [= <- <-]. exists l. by split; [|split; [split|]]. }
  destruct (Mpsc.ud_slot _ _) as [slot|]; [|done].
  destruct (Mpsc.with_poll_loop fuel _) as [[w1 out1]|] eqn:E; [|done]. intros [= <- _].
  match type of Hs with rtc _ _ ?x => set (l1 := x) in Hs end.
  destruct (IH l1 _ w1 out1 Hi E) as (l' & Hv & Hm & Hse). exists l'. split; [done|].
  split; [|done]. eapply caller_moves_trans; [|exact Hm]. by split.
Qed.

Lemma adapter_poll_moves fuel l (ud : list (option U)) w' (out : list (U * T)) :
  idle l -> Mpsc.with_poll fuel (Mpsc.mkWith (view l) ud) = Some (w', out) ->
  exists l', view l' = Mpsc.caller w' /\ caller_moves l l' /\ Onesided.sent l' = Onesided.sent l.
Proof.
  intros [Hc Hv]. unfold Mpsc.with_poll. destruct l as [c cpc st vpc cch rch tks se re rp an].
  cbn in Hc, Hv. subst. intros E.
  assert (rtc Onesided.lane_step
    (Onesided.mkLane c Onesided.CIdle st Onesided.VIdle cch rch tks se re rp an)
    (Onesided.mkLane (Onesided.sync c) Onesided.CIdle st Onesided.VIdle cch rch tks se re rp an)) as Hs
    by (apply rtc_once, Onesided.call_sync).
  destruct (poll_loop_moves fuel
    (Onesided.mkLane (Onesided.sync c) Onesided.CIdle st Onesided.VIdle cch rch tks se re rp an)
    ud w' out) as (l' & Hv & Hm & Hse); [done|exact E|].
  exists l'. split; [done|]. split; [|done]. eapply caller_moves_trans; [|exact Hm]. by split.
Qed.

(** ** A network and its lanes

    [ls i j] is the lane from node [i] to node [j]: the caller [i] has of [j], the
    server state [j] has for [i], and the rings between them. *)

Record node_ok ls (i : nat) (f : Flux U) : Prop := mk_node_ok {
  nd_id : id f = i /\ num_nodes f = n /\ peer_ids f = others n i;
  nd_callers : forall j, (j < n)%nat -> j <> i ->
    exists ud, callers f !! index j i = Some (mkFluxCaller (Onesided.caller (ls i j)) ud (j, index i j));
  nd_server : forall j, (j < n)%nat -> j <> i ->
    Onesided.callers (server f) !! index j i = Some (Onesided.sstate (ls j i));
  nd_length : length (Onesided.callers (server f)) = (n - 1)%nat /\ length (callers f) = (n - 1)%nat;
}.

Record rings_ok N ls (j : nat) : Prop := mk_rings_ok {
  rg_call : exists cchs, call_chs N !! j = Some cchs /\
    forall i, (i < n)%nat -> i <> j -> cchs !! index i j = Some (Onesided.call_ch (ls i j));
  rg_resp : exists rchs, resp_chs N !! j = Some rchs /\
    forall i, (i < n)%nat -> i <> j -> rchs !! index i j = Some (Onesided.resp_ch (ls i j));
}.

Record net_ok N ls : Prop := mk_net_ok {
  no_node : forall i, (i < n)%nat -> exists f, nodes N !! i = Some f /\ node_ok ls i f;
  no_rings : forall j, (j < n)%nat -> rings_ok N ls j;
  no_lane : forall i j, i <> j -> Onesided.lane_ok k (ls i j) /\ idle (ls i j);
  no_length : length (nodes N) = n;
}.

Definition upd (i j : nat) l ls : nat -> nat -> Lane :=
  fun i' j' => if decide (i' = i /\ j' = j) then l else ls i' j'.

Lemma upd_eq i j l ls : upd i j l ls i j = l.
Proof. unfold upd. by rewrite decide_True. Qed.
Lemma upd_ne i j l ls i' j' : (i', j') <> (i, j) -> upd i j l ls i' j' = ls i' j'.
Proof. intros H. unfold upd. rewrite decide_False; [done|]. intros [-> ->]. done. Qed.

(** Replacing an entry of a table indexed by peers. *)
Lemma insert_peer {A} (xs : list A) (g : nat -> A) (x : A) i0 j :
  (forall i, (i < n)%nat -> i <> j -> xs !! index i j = Some (g i)) -> (i0 < n)%nat -> i0 <> j ->
  forall i, (i < n)%nat -> i <> j ->
    <[index i0 j := x]> xs !! index i j = Some (if decide (i = i0) then x else g i).
Proof.
  intros H Hi0 Hne0 i Hi Hne. case_decide as E.
  - subst i. apply list_lookup_insert_eq. by eapply lookup_lt_Some, H.
  - rewrite list_lookup_insert_ne; [by apply H|]. intros E'. apply index_inj in E'; [congruence|done..].
Qed.

(** An operation of the adapter on the caller node [i] has of [j] moves their lane
    and nothing else. *)
Lemma on_caller_ok {A} op i j N ls N' (a : A) :
  net_ok N ls -> (i < n)%nat -> (j < n)%nat -> j <> i ->
  on_caller op i (index j i) N = Some (N', a) ->
  exists ud w', op (Mpsc.mkWith (view (ls i j)) ud) = Some (w', a) /\
    forall l', view l' = Mpsc.caller w' -> caller_moves (ls i j) l' ->
      net_ok N' (upd i j l' ls).
Proof.
  intros [Hnode Hrings Hlane Hlen] Hi Hj Hne E. unfold on_caller in E.
  destruct (Hnode i Hi) as (f & Hf & Hfok). rewrite Hf in E. cbn [mbind option_bind] in E.
  destruct (nd_callers _ _ _ Hfok j Hj Hne) as (ud & Hc). rewrite Hc in E.
  cbn [mbind option_bind fc_lane fc_caller fc_data] in E.
  destruct (Hrings j Hj) as [(cchs & Hcch & Hcall) (rchs & Hrch & Hresp)].
  rewrite Hcch in E. cbn [mbind option_bind] in E. rewrite Hrch in E. cbn [mbind option_bind] in E.
  rewrite Hcall in E by (done || congruence). cbn [mbind option_bind] in E.
  rewrite Hresp in E by (done || congruence). cbn [mbind option_bind] in E.
  fold (view (ls i j)) in E. exists ud.
  destruct (op _) as [[w' a']|] eqn:Eop; [|done]. cbn [mbind option_bind] in E.
  exists w'. destruct w' as [[[c cch] rch] ud']. injection E as <- <-. split; [done|].
  intros l' Hv Hm. injection Hv as Hv1 Hv2 Hv3. destruct Hm as [Hs Hidle Hst _ _].
  pose proof (lookup_lt_Some _ _ _ Hf) as Hlf.
  split; cbn [nodes call_chs resp_chs].
  - intros i' Hi'. destruct (decide (i' = i)) as [->|Hii].
    + rewrite list_lookup_insert_eq by done. eexists. split; [done|].
      destruct Hfok as [Hid Hcs Hsv [Hl1 Hl2]]. split; cbn; rewrite ?length_insert; [done| | |done].
      * intros j' Hj' Hne'. destruct (decide (j' = j)) as [->|Hjj].
        -- exists ud'. rewrite list_lookup_insert_eq by by eapply lookup_lt_Some.
           by rewrite upd_eq, Hv1.
        -- rewrite upd_ne by congruence. rewrite list_lookup_insert_ne; [by apply Hcs|].
           intros E'. apply index_inj in E'; [congruence|done..].
      * intros j' Hj' Hne'. rewrite upd_ne by congruence. by apply Hsv.
    + rewrite list_lookup_insert_ne by done. destruct (Hnode i' Hi') as (f' & Hf' & [Hid Hcs Hsv Hls]).
      exists f'. split; [done|]. split; [done| | |done].
      * intros j' Hj' Hne'. rewrite upd_ne by congruence. by apply Hcs.
      * intros j' Hj' Hne'. destruct (decide ((j', i') = (i, j))) as [[= -> ->]|Hx].
        -- rewrite upd_eq, Hst. by apply Hsv.
        -- rewrite upd_ne by done. by apply Hsv.
  - intros j' Hj'. destruct (decide (j' = j)) as [->|Hjj].
    + split; cbn; rewrite list_lookup_insert_eq by (by eapply lookup_lt_Some); eexists; (split; [done|]);
        intros i' Hi' Hne'; [rewrite (insert_peer cchs (fun i => Onesided.call_ch (ls i j)))
          |rewrite (insert_peer rchs (fun i => Onesided.resp_ch (ls i j)))]; try (done || congruence);
        (case_decide; [subst i'; by rewrite upd_eq, ?Hv2, ?Hv3|by rewrite upd_ne by congruence]).
    + destruct (Hrings j' Hj') as [(cchs' & Hc1 & Hc2) (rchs' & Hr1 & Hr2)].
      split; cbn; rewrite list_lookup_insert_ne by done; eexists; (split; [done|]);
        intros i' Hi' Hne'; rewrite upd_ne by congruence; auto.
  - intros i' j' Hne'. destruct (decide ((i', j') = (i, j))) as [[= -> ->]|Hx].
    + rewrite upd_eq. destruct (Hlane i j) as [Hok _]; [done|]. split; [by eapply lane_steps_ok|done].
    + rewrite upd_ne by done. by apply Hlane.
  - by rewrite length_insert.
Qed.


(** *** The server of a node *)

Lemma scan_cases m : forall s (chs : list (Inner T)),
  match Onesided.scan m s chs with
  | (s', None) => Onesided.callers s' = Onesided.callers s
  | (s', Some (t, d)) =>
      exists st ch rx, let p := Z.to_nat (Onesided.tk_caller_id t) in
        Onesided.callers s !! p = Some st /\ chs !! p = Some ch /\
        Onesided.try_recv (Onesided.call_rx st) ch = Some (rx, (Onesided.slot_token t, d)) /\
        Onesided.callers s' = <[p := Onesided.mkState rx (Onesided.resp_tx st)]> (Onesided.callers s)
  end.
Proof.
  induction m as [|m IH]; intros s chs; cbn [Onesided.scan]; [done|].
  destruct (Onesided.callers s !! _) as [st|] eqn:Hst; [|done].
  destruct (chs !! _) as [ch|] eqn:Hch; [|done].
  destruct (Onesided.try_recv _ _) as [[rx [slot d]]|] eqn:Ht;
    [|match goal with |- context [Onesided.scan m ?s2 chs] => exact (IH s2 chs) end].
  exists st, ch, rx. cbn. auto.
Qed.

(** The server of node [j] has moved its lane from [i]: its state for [i] and the
    response ring to [i] are those of [l']. *)
Lemma server_moved i j N ls f s' rchs l' :
  net_ok N ls -> (i < n)%nat -> (j < n)%nat -> i <> j ->
  nodes N !! j = Some f -> resp_chs N !! j = Some rchs ->
  rtc Onesided.lane_step (ls i j) l' -> idle l' ->
  Onesided.caller l' = Onesided.caller (ls i j) -> Onesided.call_ch l' = Onesided.call_ch (ls i j) ->
  Onesided.callers s' = <[index i j := Onesided.sstate l']> (Onesided.callers (server f)) ->
  net_ok (mkNet (<[j := set_server s' f]> (nodes N)) (call_chs N)
            (<[j := <[index i j := Onesided.resp_ch l']> rchs]> (resp_chs N))) (upd i j l' ls).
Proof.
  intros [Hnode Hrings Hlane Hlen] Hi Hj Hne Hf Hrch Hs Hidle Hca Hch Hs'.
  pose proof (lookup_lt_Some _ _ _ Hf) as Hlf.
  assert (node_ok ls j f) as Hfok by (destruct (Hnode j Hj) as (f' & Hf' & ?); congruence).
  split; cbn [nodes call_chs resp_chs].
  - intros j' Hj'. destruct (decide (j' = j)) as [->|Hjj].
    + rewrite list_lookup_insert_eq by done. eexists. split; [done|].
      destruct Hfok as [Hid Hcs Hsv [Hl1 Hl2]]. split; cbn; [done| | |by rewrite Hs', length_insert].
      * intros i' Hi' Hne'. rewrite upd_ne by congruence. by apply Hcs.
      * intros i' Hi' Hne'. rewrite Hs', (insert_peer _ (fun i => Onesided.sstate (ls i j))) by done.
        case_decide; [subst; by rewrite upd_eq|by rewrite upd_ne by congruence].
    + rewrite list_lookup_insert_ne by done. destruct (Hnode j' Hj') as (f' & Hf' & [Hid Hcs Hsv Hls]).
      exists f'. split; [done|]. split; [done| | |done].
      * intros i' Hi' Hne'. destruct (decide ((j', i') = (i, j))) as [[= -> ->]|Hx].
        -- rewrite upd_eq, Hca. by apply Hcs.
        -- rewrite upd_ne by done. by apply Hcs.
      * intros i' Hi' Hne'. rewrite upd_ne by congruence. by apply Hsv.
  - intros j' Hj'. destruct (Hrings j' Hj') as [(cchs & Hc1 & Hc2) (rchs' & Hr1 & Hr2)].
    split; cbn.
    + exists cchs. split; [done|]. intros i' Hi' Hne'.
      destruct (decide ((i', j') = (i, j))) as [[= -> ->]|Hx].
      * rewrite upd_eq, Hch. by apply Hc2.
      * rewrite upd_ne by done. by apply Hc2.
    + destruct (decide (j' = j)) as [->|Hjj].
      * rewrite list_lookup_insert_eq by by eapply lookup_lt_Some. eexists. split; [done|].
        simplify_eq. intros i' Hi' Hne'.
        rewrite (insert_peer rchs (fun i => Onesided.resp_ch (ls i j))) by done.
        case_decide; [subst; by rewrite upd_eq|by rewrite upd_ne by congruence].
      * rewrite list_lookup_insert_ne by done. exists rchs'. split; [done|].
        intros i' Hi' Hne'. rewrite upd_ne by congruence. by apply Hr2.
  - intros i' j' Hne'. destruct (decide ((i', j') = (i, j))) as [[= -> ->]|Hx].
    + rewrite upd_eq. destruct (Hlane i j) as [Hok _]; [done|]. split; [by eapply lane_steps_ok|done].
    + rewrite upd_ne by done. by apply Hlane.
  - by rewrite length_insert.
Qed.

(** The peer a server state belongs to. *)
Lemma server_peer j f ls p st :
  node_ok ls j f -> (j < n)%nat -> Onesided.callers (server f) !! p = Some st ->
  (owner j p < n)%nat /\ owner j p <> j /\ index (owner j p) j = p /\
  st = Onesided.sstate (ls (owner j p) j) /\ peer_ids f !! p = Some (owner j p).
Proof.
  intros Hf Hj Hp. pose proof (lookup_lt_Some _ _ _ Hp) as Hlt.
  destruct (nd_length _ _ _ Hf) as [Hl _]. rewrite Hl in Hlt.
  destruct (index_owner j p) as [Hix Hne].
  assert (owner j p < n)%nat as Hon by (unfold owner; case_decide; lia).
  split_and!; [done..| |].
  - pose proof (nd_server _ _ _ Hf (owner j p) Hon Hne) as Hx. rewrite Hix, Hp in Hx. congruence.
  - destruct (nd_id _ _ _ Hf) as (_ & _ & ->). by apply others_lookup.
Qed.

Lemma try_recv_ok j N ls N' from t d :
  net_ok N ls -> (j < n)%nat -> try_recv j N = Some (N', Some (from, t, d)) ->
  (from < n)%nat /\ from <> j /\ Z.to_nat (Onesided.tk_caller_id t) = index from j /\
  exists l', net_ok N' (upd from j l' ls) /\
    Onesided.sent l' = Onesided.sent (ls from j) /\
    Onesided.recvd l' = Onesided.recvd (ls from j) ++ [Some d] /\
    Onesided.tokens l' = Onesided.tokens (ls from j) ++ [Onesided.slot_token t].
Proof.
  intros Hok Hj E. unfold try_recv in E. destruct (no_node _ _ Hok j Hj) as (f & Hf & Hfok).
  rewrite Hf in E. cbn [mbind option_bind] in E.
  destruct (no_rings _ _ Hok j Hj) as [(cchs & Hc1 & Hc2) (rchs & Hr1 & Hr2)].
  rewrite Hc1 in E. cbn [mbind option_bind] in E. unfold Onesided.server_try_recv in E.
  pose proof (scan_cases (length (Onesided.callers (server f))) (server f) cchs) as Hs.
  destruct (Onesided.scan _ _ _) as [s' [[t' d']|]]; [|done].
  destruct d' as [d'|]; [|done]. cbn [mbind option_bind] in E.
  destruct Hs as (st & ch & rx & Hst & Hch & Ht & Hs').
  destruct (server_peer j f ls _ _ Hfok Hj Hst) as (Hon & Hne & Hix & -> & Hpeer).
  rewrite Hpeer in E. cbn [mbind option_bind] in E. injection E as <- <- <- <-.
  set (i := owner j _) in *. split_and!; [done..|].
  rewrite <-Hix, Hc2 in Hch by done. injection Hch as <-.
  destruct (no_lane _ _ Hok i j Hne) as [_ [Hi1 Hi2]].
  pose proof (Onesided.run_receive_steps (ls i j) Hi2) as Hsteps.
  exists (Onesided.run_receive (ls i j)). unfold Onesided.run_receive in *. rewrite Ht in *.
  split_and!; [|done..]. rewrite <-(list_insert_id (resp_chs N) j rchs) by done.
  rewrite <-(list_insert_id rchs (index i j) (Onesided.resp_ch (ls i j))) by by apply Hr2.
  match goal with |- net_ok _ (upd _ _ ?l _) => apply (server_moved i j N ls f s' rchs l) end;
    [done..|]. cbn. by rewrite Hs', <-Hix.
Qed.

Lemma try_recv_none_ok j N ls N' :
  net_ok N ls -> (j < n)%nat -> try_recv j N = Some (N', None) -> net_ok N' ls.
Proof.
  intros Hok Hj E. unfold try_recv in E. destruct (no_node _ _ Hok j Hj) as (f & Hf & Hfok).
  rewrite Hf in E. cbn [mbind option_bind] in E.
  destruct (call_chs N !! j) as [cchs|]; [|done]. cbn [mbind option_bind] in E.
  unfold Onesided.server_try_recv in E.
  pose proof (scan_cases (length (Onesided.callers (server f))) (server f) cchs) as Hs.
  destruct (Onesided.scan _ _ _) as [s' [[t' d']|]].
  { destruct d'; [|done]. cbn [mbind option_bind] in E. by destruct (peer_ids f !! _). }
  injection E as <-. pose proof (lookup_lt_Some _ _ _ Hf) as Hlf. destruct Hok as [Hnode Hrings Hlane Hlen].
  split; [|by intros j' Hj'; destruct (Hrings j' Hj')|done|by cbn; rewrite length_insert].
  intros i Hi. cbn. destruct (decide (i = j)) as [->|Hij].
  - rewrite list_lookup_insert_eq by done. eexists. split; [done|].
    destruct Hfok as [Hid Hcs Hsv Hl]. split; cbn; rewrite ?Hs; done.
  - rewrite list_lookup_insert_ne by done. by apply Hnode.
Qed.

Lemma reply_ok i j m t v N ls N' :
  net_ok N ls -> (i < n)%nat -> (j < n)%nat -> i <> j ->
  Z.to_nat (Onesided.tk_caller_id t) = index i j ->
  Onesided.tokens (ls i j) !! m = Some (Onesided.slot_token t) ->
  reply j t v N = Some N' ->
  exists l', net_ok N' (upd i j l' ls) /\ Onesided.sent l' = Onesided.sent (ls i j) /\
    Onesided.recvd l' = Onesided.recvd (ls i j) /\
    Onesided.tokens l' = delete m (Onesided.tokens (ls i j)).
Proof.
  intros Hok Hi Hj Hne Hix Hm E. unfold reply in E. destruct (no_node _ _ Hok j Hj) as (f & Hf & Hfok).
  rewrite Hf in E. cbn [mbind option_bind] in E.
  destruct (no_rings _ _ Hok j Hj) as [_ (rchs & Hr1 & Hr2)].
  rewrite Hr1 in E. cbn [mbind option_bind] in E. unfold Onesided.reply in E.
  rewrite Hix, (nd_server _ _ _ Hfok) in E by done. rewrite Hr2 in E by done.
  destruct (no_lane _ _ Hok i j Hne) as [_ [Hi1 Hi2]].
  pose proof (Onesided.run_reply_steps m v (ls i j) Hi2) as Hsteps.
  exists (Onesided.run_reply m v (ls i j)). unfold Onesided.run_reply in *. rewrite Hm in *.
  destruct (Onesided.lane_reply _ _ _ _) as [st ch]. cbn [mbind option_bind] in E. injection E as <-.
  split_and!; [|done..].
  match goal with |- net_ok (mkNet (<[j := set_server ?s' f]> _) _ _) (upd _ _ ?l _) =>
    by apply (server_moved i j N ls f s' rchs l) end.
Qed.


(** *** Executions *)

(** The entries of a log from [i] to [j]. *)
Definition pick {A : Type} (i j : nat) (xs : list (nat * nat * A)) : list A :=
  omap (fun x => if decide (x.1 = (i, j)) then Some x.2 else None) xs.

#[local] Arguments pick : simpl never.

Lemma pick_app {A} i j (xs ys : list (nat * nat * A)) : pick i j (xs ++ ys) = pick i j xs ++ pick i j ys.
Proof. apply omap_app. Qed.

Lemma pick_one {A} i j i' j' (x : A) :
  pick i j [((i', j'), x)] = if decide ((i', j') = (i, j)) then [x] else [].
Proof. unfold pick. cbn. by case_decide. Qed.

Lemma pick_all {A} i j i' j' (xs : list A) :
  pick i' j' ((fun v => ((i, j), v)) <$> xs) = if decide ((i, j) = (i', j')) then xs else [].
Proof.
  unfold pick. destruct (decide _) as [E|E]; (induction xs as [|x xs IH]; [done|]); cbn.
  - rewrite decide_True by done. by rewrite IH.
  - by rewrite decide_False by done.
Qed.

(** A network with what has been called, what has been received, and the requests
    still to be replied to, each from a node to a node. *)
Record World : Type := mkWorld {
  net : Net T U;
  called : list (nat * nat * T);
  received : list (nat * nat * T);
  held : list (nat * nat * ReplyToken);
}.

(** Any node may call any other, poll, receive, or reply to a request it holds. *)
Inductive world_step : World -> World -> Prop :=
| step_call i to v u N N' r ca re he :
    (i < n)%nat -> call i to v u N = Some (N', r) ->
    world_step (mkWorld N ca re he)
      (mkWorld N' (if is_ok r then ca ++ [((i, to), v)] else ca) re he)
| step_poll i fuel N N' out ca re he :
    (i < n)%nat -> poll fuel i N = Some (N', out) ->
    world_step (mkWorld N ca re he) (mkWorld N' ca re he)
| step_recv j N N' from t d ca re he :
    (j < n)%nat -> try_recv j N = Some (N', Some (from, t, d)) ->
    world_step (mkWorld N ca re he)
      (mkWorld N' ca (re ++ [((from, j), d)]) (he ++ [((from, j), t)]))
| step_recv_none j N N' ca re he :
    (j < n)%nat -> try_recv j N = Some (N', None) ->
    world_step (mkWorld N ca re he) (mkWorld N' ca re he)
| step_reply i j t v N N' ca re he he' :
    he ≡ₚ ((i, j), t) :: he' -> reply j t v N = Some N' ->
    world_step (mkWorld N ca re he) (mkWorld N' ca re he').

(** The logs are those of the lanes. *)
Record world_ok (w : World) ls : Prop := mk_world_ok {
  wo_net : net_ok (net w) ls;
  wo_called : forall i j, i <> j -> (i < n)%nat -> (j < n)%nat ->
    pick i j (called w) = Onesided.sent (ls i j);
  wo_received : forall i j, i <> j -> (i < n)%nat -> (j < n)%nat ->
    Some <$> pick i j (received w) = Onesided.recvd (ls i j);
  wo_held : forall i j, i <> j -> (i < n)%nat -> (j < n)%nat ->
    Onesided.slot_token <$> pick i j (held w) ≡ₚ Onesided.tokens (ls i j);
  wo_tokens : Forall (fun x => (x.1.1 < n)%nat /\ (x.1.2 < n)%nat /\ x.1.1 <> x.1.2 /\
    Z.to_nat (Onesided.tk_caller_id x.2) = index x.1.1 x.1.2) (held w);
  wo_from : Forall (fun x => (x.1.1 < n)%nat /\ x.1.1 <> x.1.2) (received w);
}.

Lemma caller_index i f ls to ci :
  node_ok ls i f -> peer_to_caller_index f to = Some ci ->
  (to < n)%nat /\ to <> i /\ ci = index to i.
Proof.
  intros [(Hid & Hnn & _) _ _ _]. unfold peer_to_caller_index, index. rewrite Hid, Hnn.
  repeat case_decide; intros E; simplify_eq; lia.
Qed.

(** A caller's move changes no log but that of its calls. *)
Lemma world_ok_caller N N' ca re he ls i j l' (sent' : list T) :
  world_ok (mkWorld N ca re he) ls -> i <> j -> (i < n)%nat -> (j < n)%nat ->
  net_ok N' (upd i j l' ls) -> caller_moves (ls i j) l' ->
  Onesided.sent l' = Onesided.sent (ls i j) ++ sent' ->
  world_ok (mkWorld N' (ca ++ ((fun v => ((i, j), v)) <$> sent')) re he) (upd i j l' ls).
Proof.
  intros [_ Hca Hre Hhe Htk Hfr] Hij Hi Hj Hnet [_ _ _ Htok Hrc] Hse. cbn in *.
  split; cbn; [done| | | |done|done]; intros i' j' Hij' Hi' Hj';
    destruct (decide ((i', j') = (i, j))) as [[= -> ->]|Hx];
    rewrite ?upd_eq, ?(upd_ne _ _ _ _ _ _ Hx), ?pick_app, ?pick_all, ?Htok, ?Hrc, ?Hse; auto.
  - rewrite decide_True by done. by rewrite Hca.
  - rewrite decide_False by congruence. rewrite app_nil_r. auto.
Qed.

Lemma poll_callers_ok fuel i : forall cis N N' out ls ca re he,
  (i < n)%nat -> Forall (fun ci => exists j, (j < n)%nat /\ j <> i /\ ci = index j i) cis ->
  world_ok (mkWorld N ca re he) ls -> poll_callers fuel i cis N = Some (N', out) ->
  exists ls', world_ok (mkWorld N' ca re he) ls'.
Proof.
  induction cis as [|ci cis IH]; intros N N' out ls ca re he Hi Hcis Hok; cbn [poll_callers].
  { intros [= <- <-]. eauto. }
  apply Forall_cons in Hcis as [(j & Hj & Hne & ->) Hcis].
  destruct (on_caller _ _ _ _) as [[N1 out1]|] eqn:E; [|done]. cbn [mbind option_bind].
  destruct (poll_callers _ _ _ _) as [[N2 out2]|] eqn:E2; [|done]. intros [= <- <-].
  destruct (on_caller_ok _ i j N ls N1 out1 (wo_net _ _ Hok) Hi Hj Hne E) as (ud & w' & Eop & Hnet).
  destruct (no_lane _ _ (wo_net _ _ Hok) i j) as [_ Hidle]; [done|].
  destruct (adapter_poll_moves _ _ _ _ _ Hidle Eop) as (l' & Hv & Hm & Hse).
  pose proof (world_ok_caller N N1 ca re he ls i j l' [] Hok ltac:(done) Hi Hj (Hnet l' Hv Hm) Hm) as Hw.
  cbn in Hw. rewrite !app_nil_r in Hw. by eapply (IH N1); [done|done|apply Hw|].
Qed.

Lemma world_step_ok w w' ls : world_step w w' -> world_ok w ls -> exists ls', world_ok w' ls'.
Proof.
  intros Hstep Hok. destruct Hstep as [i to v u N N' r ca re he Hi E|i fuel N N' out ca re he Hi E
    |j N N' from t d ca re he Hj E|j N N' ca re he Hj E|i j t v N N' ca re he he' Hp E].
  - unfold call in E. destruct (no_node _ _ (wo_net _ _ Hok) i Hi) as (f & Hf & Hfok). cbn in Hf.
    rewrite Hf in E. cbn [mbind option_bind] in E.
    destruct (peer_to_caller_index f to) as [ci|] eqn:Hci; [|injection E as <- <-; by exists ls].
    destruct (caller_index _ _ _ _ _ Hfok Hci) as (Hto & Hne & ->).
    destruct (on_caller _ _ _ _) as [[N1 r1]|] eqn:E1; [|done]. cbn [mbind option_bind] in E.
    injection E as <- <-.
    destruct (on_caller_ok _ i to N ls N1 r1 (wo_net _ _ Hok) Hi Hto Hne E1) as (ud & w' & Eop & Hnet).
    destruct (no_lane _ _ (wo_net _ _ Hok) i to) as [_ Hidle]; [done|].
    destruct (adapter_call_moves _ _ _ _ _ _ Hidle Eop) as (l' & Hv & Hm & Hse).
    pose proof (world_ok_caller N N1 ca re he ls i to l' _ Hok ltac:(done) Hi Hto (Hnet l' Hv Hm) Hm Hse) as Hw.
    destruct r1; cbn in Hw |- *; rewrite ?app_nil_r in Hw; eauto.
  - unfold poll in E. destruct (no_node _ _ (wo_net _ _ Hok) i Hi) as (f & Hf & Hfok). cbn in Hf.
    rewrite Hf in E. cbn [mbind option_bind] in E.
    eapply poll_callers_ok; [exact Hi| |exact Hok|exact E]. apply Forall_forall. intros ci Hci%elem_of_seq.
    destruct (nd_length _ _ _ Hfok) as [_ Hl]. destruct (index_owner i ci) as [Hx Hne].
    exists (owner i ci). split_and!; [unfold owner; case_decide; lia|done|done].
  - destruct (try_recv_ok j N ls N' from t d (wo_net _ _ Hok) Hj E)
      as (Hfr & Hne & Hix & l' & Hnet & Hse & Hre & Htk).
    destruct Hok as [_ Hca Hrc Hhe Htok Hfrom]. cbn in *. exists (upd from j l' ls).
    split; cbn; [done| | | | |].
    + intros i' j' Hij Hi' Hj'. destruct (decide ((i', j') = (from, j))) as [[= -> ->]|Hx].
      * rewrite upd_eq, Hse. auto.
      * rewrite upd_ne by done. auto.
    + intros i' j' Hij Hi' Hj'. rewrite pick_app, pick_one, fmap_app.
      destruct (decide ((i', j') = (from, j))) as [[= -> ->]|Hx].
      * rewrite upd_eq, decide_True, Hre, Hrc by done. done.
      * rewrite upd_ne, decide_False by (done || congruence). rewrite app_nil_r. auto.
    + intros i' j' Hij Hi' Hj'. rewrite pick_app, pick_one, fmap_app.
      destruct (decide ((i', j') = (from, j))) as [[= -> ->]|Hx].
      * rewrite upd_eq, decide_True, Htk by done. by rewrite Hhe.
      * rewrite upd_ne, decide_False by (done || congruence). rewrite app_nil_r. auto.
    + apply Forall_app. split; [done|]. by repeat constructor.
    + apply Forall_app. split; [done|]. by repeat constructor.
  - exists ls. pose proof (try_recv_none_ok j N ls N' (wo_net _ _ Hok) Hj E). destruct Hok. by split.
  - pose proof (wo_tokens _ _ Hok) as Htok. cbn in Htok. rewrite Hp in Htok.
    apply Forall_cons in Htok as [(Hi & Hj & Hne & Hix) Htok]. cbn in *.
    pose proof (wo_held _ _ Hok i j Hne Hi Hj) as Hh. cbn in Hh.
    assert (pick i j he ≡ₚ t :: pick i j he') as Hpk.
    { unfold pick. rewrite Hp. cbn. by rewrite decide_True. }
    rewrite Hpk in Hh. cbn in Hh.
    destruct (list_elem_of_lookup_1 (Onesided.tokens (ls i j)) (Onesided.slot_token t)) as [m Hm].
    { rewrite <-Hh. apply elem_of_cons. by left. }
    destruct (reply_ok i j m t v N ls N' (wo_net _ _ Hok) Hi Hj Hne Hix Hm E)
      as (l' & Hnet & Hse & Hre & Htk).
    destruct Hok as [_ Hca Hrc Hhe _ Hfrom]. cbn in *. exists (upd i j l' ls).
    split; cbn; [done| | | |done|done]; intros i' j' Hij Hi' Hj';
      (destruct (decide ((i', j') = (i, j))) as [[= -> ->]|Hx];
       [rewrite upd_eq, ?Hse, ?Hre, ?Htk|rewrite upd_ne by done]); auto.
    + apply (Permutation_cons_inv (a := Onesided.slot_token t)).
      rewrite Hh. by rewrite <-(delete_Permutation _ _ _ Hm).
    + rewrite <-Hhe by done. unfold pick. rewrite Hp. cbn. by rewrite decide_False by congruence.
Qed.


(** *** The network [create_flux] makes *)

Definition lane0 : Lane :=
  Onesided.mkLane (caller0 (2 ^ k) mi) Onesided.CIdle (state0 (2 ^ k)) Onesided.VIdle
    (ring0 (2 ^ k)) (ring0 (2 ^ k)) [] [] [] [] [].

Lemma lane0_ok : Onesided.lane_ok k lane0.
Proof.
  pose proof (Onesided.cap_range k Hk).
  constructor; cbn; try done; try (by apply Onesided.ring_ok_init); try lia. apply submseteq_nil_l.
Qed.

Lemma create_flux_ok N :
  (0 < n)%nat -> create_flux n (2 ^ k) mi = Some N ->
  world_ok (mkWorld N [] [] []) (fun _ _ => lane0).
Proof.
  intros Hn. rewrite create_flux_spec by lia. intros [= <-].
  split; cbn; try done; [|by constructor..].
  split; cbn; [| |by intros; split; [apply lane0_ok|]|by rewrite length_fmap, length_seq].
  - intros i Hi. rewrite list_lookup_fmap, lookup_seq_lt by lia. eexists. split; [done|].
    split; cbn; [done| | |].
    + intros j Hj Hne. rewrite list_lookup_fmap, others_lookup by (try apply index_lt; lia).
      rewrite owner_index by done. cbn. eauto.
    + intros j Hj Hne. apply lookup_replicate_2. by apply index_lt.
    + by rewrite length_replicate, length_fmap, length_others.
  - intros j Hj. split; cbn; rewrite lookup_replicate_2 by done; eexists; (split; [done|]);
      intros i Hi Hne; apply lookup_replicate_2; by apply index_lt.
Qed.

End Network.
Arguments World : clear implicits.

(** ** Properties *)

(** C10: in every execution of a network of nodes (calls, polls, receives and replies
    of all nodes in any order, replies to held requests in any order), what node [j]
    has received as coming from node [i] is a prefix of what node [i] has called node
    [j] with: nothing is lost, duplicated, reordered, or delivered to or attributed
    to another node; and no node receives a request as coming from itself or from
    outside the network. *)
Theorem flux_delivers {T U : Type} n k mi (N : Net T U) w :
  (0 < n)%nat -> 0 <= k <= 63 -> 0 <= mi < 2 ^ k ->
  create_flux n (2 ^ k) mi = Some N -> rtc (world_step n) (mkWorld N [] [] []) w ->
  (forall i j, i <> j -> (i < n)%nat -> (j < n)%nat ->
     pick i j (received w) `prefix_of` pick i j (called w)) /\
  Forall (fun x => (x.1.1 < n)%nat /\ x.1.1 <> x.1.2) (received w).
Proof.
  intros Hn Hk Hmi HN Hr.
  assert (exists ls, world_ok n k w ls) as [ls Hok].
  { refine (rtc_ind_r (fun w => exists ls, world_ok n k w ls) _ _ _ _ Hr).
    - eexists. by eapply create_flux_ok.
    - intros w1 w2 _ Hs [ls Hls]. by eapply world_step_ok. }
  split; [|apply Hok]. intros i j Hij Hi Hj.
  rewrite (wo_called _ _ _ _ Hok) by done. pose proof (wo_received _ _ _ _ Hok i j Hij Hi Hj) as Hre.
  destruct (no_lane _ _ _ _ (wo_net _ _ _ _ Hok) i j Hij) as [Hl _].
  pose proof (Onesided.lo_recvd _ _ Hl) as Hp. unfold Onesided.prefix_received in Hp.
  rewrite <-Hre in Hp at 1. apply list_fmap_eq_inj in Hp; [|by intros ? ? [=]].
  rewrite Hp. exists (drop (length (Onesided.recvd (ls i j))) (Onesided.sent (ls i j))).
  by rewrite take_drop.
Qed.

(** *** Runs *)

Definition demo_net (capacity mi : Z) : Net Z Z :=
  default (mkNet [] [] []) (create_flux 3 capacity mi).

(** A call from node 2 to node 0 and its receipt. *)
Definition demo_called : Net Z Z := default (demo_net 4 2) (fst <$> call 2 0 7 70 (demo_net 4 2)).
Definition demo_received : Net Z Z := default demo_called (fst <$> try_recv 0 demo_called).

Lemma demo_reachable :
  rtc (world_step 3) (mkWorld (demo_net 4 2) [] [] [])
    (mkWorld demo_received [((2, 0)%nat, 7)] [((2, 0)%nat, 7)] [((2, 0)%nat, Onesided.mkToken 1 0)]).
Proof.
  eapply rtc_l; [apply (step_call 3 2 0 7 70 (demo_net 4 2) demo_called (Ok tt)); [lia|vm_compute; reflexivity]|].
  eapply rtc_l; [apply (step_recv 3 0 demo_called demo_received 2 (Onesided.mkToken 1 0) 7);
    [lia|vm_compute; reflexivity]|].
  apply rtc_refl.
Qed.

Lemma flux_delivers_witness :
  pick 2 0 [((2, 0)%nat, 7)] = [7] /\
  pick 2 0 (received (mkWorld demo_received [((2, 0)%nat, 7)] [((2, 0)%nat, 7)]
    [((2, 0)%nat, Onesided.mkToken 1 0)])) `prefix_of` [7].
Proof.
  split; [reflexivity|].
  exact (proj1 (flux_delivers 3 2 2 (demo_net 4 2) _ ltac:(lia) ltac:(lia) ltac:(lia)
    ltac:(vm_compute; reflexivity) demo_reachable) 2%nat 0%nat ltac:(lia) ltac:(lia) ltac:(lia)).
Defined.

(** A program of node 0 calling node 1: each call is received and answered at once,
    except the first, whose reply comes last. *)
Definition late_reply_run : option (list (Z * Z) * list (Z * Z) * list (Z * Z)) :=
  let exchange (v u : Z) (N : Net Z Z) : option (Net Z Z * list (Z * Z)) :=
    '(N, _) ← call 0 1 v u N;
    '(N, r) ← try_recv 1 N;
    '(_, t, d) ← r;
    N ← reply 1 t (d + 1) N;
    poll 5 0 N in
  '(N, _) ← call 0 1 10 100 (demo_net 4 2);
  '(N, r0) ← try_recv 1 N;
  '(_, t0, d0) ← r0;
  '(N, o1) ← exchange 11 101 N;
  '(N, o2) ← exchange 12 102 N;
  '(N, o3) ← exchange 13 103 N;
  '(N, _) ← call 0 1 14 104 N;
  '(N, r4) ← try_recv 1 N;
  '(_, t4, d4) ← r4;
  N ← reply 1 t0 (d0 + 1) N;
  '(N, first) ← poll 5 0 N;
  N ← reply 1 t4 (d4 + 1) N;
  '(N, second) ← poll 5 0 N;
  Some (o1 ++ o2 ++ o3, first, second).

(** With the deferred replies the interface is made for, user data is confused
    although never more than two calls are in flight on a ring of four: the fifth call
    takes the slot of the first, still unanswered; the answer 11 to the first call is
    given to the callback with the user data 104 of the fifth, and the answer to the
    fifth to nobody. *)
Theorem flux_late_reply_confuses :
  late_reply_run = Some ([(101, 12); (102, 13); (103, 14)], [(104, 11)], []).
Proof. vm_compute. reflexivity. Qed.

(** A capacity that is not a power of two is refused, not rounded. *)
Lemma flux_capacity_ten_refused : create_flux (T := Z) (U := Z) 2 10 4 = None.
Proof. reflexivity. Qed.

End FluxProps.
