(* ===== verification/RecvQueue.v ===== *)
(** * RecvQueue: the receive queues of queue pairs, [mlx5/src/qp/mod.rs] and
    [mlx5/src/ud/mod.rs]

    The receive queue a reliable-connection or datagram queue pair owns: a ring
    of [wqe_cnt] slots of [stride] bytes, 16-bit indices, a table of user
    entries, the doorbells with their BlueFlame copies, and the two batch
    builders.  What the device sees is a list of events, in program order.  The
    queue refines a first-in first-out queue of requests whose descriptors are
    in the ring; the datagram batch is the same as posting, the
    reliable-connection batch leaves the ring unwritten, and the BlueFlame
    doorbell stays inside the ring only when its pending requests do not reach
    the end of it. *)
From S2P Require Import Prelude SendQueue Wqe Srq.

Module RecvQueue.
Import Wqe.

(** What the device can observe: a store to word [w] of the doorbell record, a
    store of bytes at an offset of the BlueFlame register, and the barriers
    [mmio_flush_writes!] and [udma_to_device_barrier!]. *)
Inductive DevEvent : Type :=
  | Flush
  | UdmaBarrier
  | Dbrec (w v : Z)
  | BfWrite (off : Z) (bytes : list Z).

(** The two receive queue types: [ReceiveQueueState] and [UdRecvQueueState]. *)
Inductive RqKind : Type := Rc | Ud.

Record RecvQueueState (T : Type) : Type := mkRq {
  buf : list Z;
  wqe_cnt : Z;
  stride : Z;
  pi : Z;
  ci : Z;
  bf_size : Z;
  bf_offset : Z;
  pending_start_ptr : option Z;
  pending_wqe_count : Z;
  table : list (option T);
}.
Arguments mkRq {T} _ _ _ _ _ _ _ _ _ _.
Arguments buf {T} _.
Arguments wqe_cnt {T} _.
Arguments stride {T} _.
Arguments pi {T} _.
Arguments ci {T} _.
Arguments bf_size {T} _.
Arguments bf_offset {T} _.
Arguments pending_start_ptr {T} _.
Arguments pending_wqe_count {T} _.
Arguments table {T} _.

Definition MLX5_INVALID_LKEY : Z := 256.
Definition RQ_WQE_SIZE : Z := DATA_SEG_SIZE.
Definition BLUEFLAME_BUFFER_SIZE : Z := 256.
Definition WQEBB_SIZE : Z := 64.

(** ** Copies to the BlueFlame register *)

(** [mlx5_bf_copy!] loads 64 bytes; [None] is a load outside the buffer. *)
Definition load_block (b : list Z) (src : Z) : option (list Z) :=
  if (0 <=? src) && (src + WQEBB_SIZE <=? Z.of_nat (length b))
  then Some (read_bytes b (Z.to_nat src) 64) else None.

(** The copy loop of [ring_doorbell_bf] and [bf_copy_and_toggle]. *)
Fixpoint bf_copy (fuel : nat) (b : list Z) (src dst remaining : Z) : option (list DevEvent) :=
  if remaining <=? 0 then Some []
  else
    match fuel with
    | O => None
    | S fuel =>
        bytes ← load_block b src;
        rest ← bf_copy fuel b (src + WQEBB_SIZE) (dst + WQEBB_SIZE)
                 (saturating_sub remaining WQEBB_SIZE);
        Some (BfWrite dst bytes :: rest)
    end.

(** The loop over a copy of [n] bytes. *)
Definition bf_copy_all (b : list Z) (src dst n : Z) : option (list DevEvent) :=
  bf_copy (Z.to_nat n) b src dst n.

(** [bf_copy_and_toggle], returning the new offset. *)
Definition bf_copy_and_toggle (size off : Z) (buffer : list Z) (data_len : Z)
    : option (Z * list DevEvent) :=
  if 0 <? size then
    evs ← bf_copy_all buffer 0 off data_len;
    Some (Z.lxor off size, evs ++ [Flush])
  else Some (off, []).

(** [bf_finish_rq]: doorbell word 0, then the copy. *)
Definition bf_finish_rq (p size off : Z) (buffer : list Z) (data_len : Z)
    : option (Z * list DevEvent) :=
  r ← bf_copy_and_toggle size off buffer data_len;
  Some (r.1, [Flush; Dbrec 0 p; UdmaBarrier] ++ r.2).

Definition bf_finish_sq (p size off : Z) (buffer : list Z) (data_len : Z)
    : option (Z * list DevEvent) :=
  r ← bf_copy_and_toggle size off buffer data_len;
  Some (r.1, [Flush; Dbrec 1 p; UdmaBarrier] ++ r.2).

Section Ops.
Context {T : Type} (k : RqKind).
Implicit Types (s : RecvQueueState T).

(** The state [init_direct_access_internal] sets up over the device's ring. *)
Definition rq_init (b : list Z) (cnt st bf : Z) : RecvQueueState T :=
  mkRq b cnt st 0 0 bf 0 None 0 (replicate (Z.to_nat cnt) None).

(** The slot's offset; the reliable-connection queue computes it in 32 bits. *)
Definition get_wqe_ptr s (idx : Z) : Z :=
  match k with
  | Rc => u32 (Z.land idx (wqe_cnt s - 1) * stride s)
  | Ud => Z.land idx (wqe_cnt s - 1) * stride s
  end.

Definition available s : Z := u32 (wqe_cnt s - u16 (pi s - ci s)).

Definition process_completion s (wqe_idx : Z) : RecvQueueState T * option T :=
  let idx := Z.to_nat (Z.land wqe_idx (wqe_cnt s - 1)) in
  (mkRq (buf s) (wqe_cnt s) (stride s) (pi s) (u16 (wqe_idx + 1)) (bf_size s) (bf_offset s)
     (pending_start_ptr s) (pending_wqe_count s) (<[idx := None]> (table s)),
   default None (table s !! idx)).

(** The end of both doorbells: the other half of the register next time, nothing
    pending. *)
Definition rung s : RecvQueueState T :=
  mkRq (buf s) (wqe_cnt s) (stride s) (pi s) (ci s) (bf_size s)
    (Z.lxor (bf_offset s) (bf_size s)) None 0 (table s).

Definition ring_doorbell s : RecvQueueState T * list DevEvent :=
  let last_wqe := get_wqe_ptr s (u16 (pi s - 1)) in
  (rung s, [Flush; Dbrec 0 (pi s); UdmaBarrier;
            BfWrite (bf_offset s) (read_bytes (buf s) (Z.to_nat last_wqe) 8); Flush]).

(** [None]: the copy loads outside the ring. *)
Definition ring_doorbell_bf s : option (RecvQueueState T * list DevEvent) :=
  if pending_wqe_count s =? 0 then Some (s, [])
  else
    let copy_size := Z.min (pending_wqe_count s * stride s) 256 in
    evs ← match pending_start_ptr s with
          | Some start_ptr => bf_copy_all (buf s) start_ptr (bf_offset s) copy_size
          | None => Some []
          end;
    Some (rung s, [Flush; Dbrec 0 (pi s); UdmaBarrier] ++ evs ++ [Flush]).

(** A receive request written at [ptr]: its data segment and, in the
    reliable-connection queue, the terminator when the slot has room for one. *)
Definition write_recv_wqe (st : Z) (b : list Z) (ptr addr len lkey : Z) : list Z :=
  let b := write_bytes b (Z.to_nat ptr) (write_data_seg len lkey addr) in
  match k with
  | Rc => if DATA_SEG_SIZE <? st
          then write_bytes b (Z.to_nat ptr + 16) (le_bytes 4 0 ++ be_bytes 4 MLX5_INVALID_LKEY)
          else b
  | Ud => b
  end.

(** [post_recv] over an initialised queue; the error is [WouldBlock]. *)
Definition post_recv s (entry : T) (addr len lkey : Z) : RecvQueueState T * result unit unit :=
  if available s =? 0 then (s, Err tt)
  else
    let wqe_ptr := get_wqe_ptr s (pi s) in
    (mkRq (write_recv_wqe (stride s) (buf s) wqe_ptr addr len lkey) (wqe_cnt s) (stride s)
       (u16 (pi s + 1)) (ci s) (bf_size s) (bf_offset s)
       (match pending_start_ptr s with None => Some wqe_ptr | Some p => Some p end)
       (u32 (pending_wqe_count s + 1))
       (<[Z.to_nat (Z.land (pi s) (wqe_cnt s - 1)) := Some entry]> (table s)), Ok tt).

(** ** The batch builders *)

(** [RqBlueflameWqeBatch] and [UdRqBlueflameWqeBatch], over the queue they borrow. *)
Record Batch : Type := mkBatch {
  b_rq : RecvQueueState T;
  b_buffer : list Z;
  b_offset : Z;
  b_wqe_count : Z;
}.

Definition batch_new s : Batch :=
  mkBatch s (replicate (Z.to_nat BLUEFLAME_BUFFER_SIZE) 0) 0 0.

(** [RqBlueflameWqeBatch::post]: the descriptor goes to the batch buffer, the entry
    to the table, and the producer index advances at once. *)
Definition rc_batch_post (b : Batch) (entry : T) (addr len lkey : Z)
    : Batch * result unit SendQueue.SubmissionError :=
  let s := b_rq b in
  if available s =? 0 then (b, Err SendQueue.RqFull)
  else if BLUEFLAME_BUFFER_SIZE <? b_offset b + RQ_WQE_SIZE
  then (b, Err SendQueue.BlueflameOverflow)
  else
    let idx := Z.to_nat (Z.land (pi s) (Z.of_nat (length (table s)) - 1)) in
    (mkBatch
       (mkRq (buf s) (wqe_cnt s) (stride s) (u16 (pi s + 1)) (ci s) (bf_size s) (bf_offset s)
          (pending_start_ptr s) (pending_wqe_count s) (<[idx := Some entry]> (table s)))
       (write_bytes (b_buffer b) (Z.to_nat (b_offset b)) (write_data_seg len lkey addr))
       (b_offset b + RQ_WQE_SIZE) (b_wqe_count b + 1), Ok tt).

(** [RqBlueflameWqeBatch::finish], with the BlueFlame size and offset of the send
    queue; returns the queue, that offset and the events. *)
Definition rc_batch_finish (b : Batch) (size off : Z)
    : option (RecvQueueState T * Z * list DevEvent) :=
  if b_wqe_count b =? 0 then Some (b_rq b, off, [])
  else
    r ← bf_finish_rq (pi (b_rq b)) size off (b_buffer b) (b_offset b);
    Some (b_rq b, r.1, r.2).

(** [UdRqBlueflameWqeBatch::post]: ring, batch buffer and table, ahead of the
    producer index. *)
Definition ud_batch_post (b : Batch) (entry : T) (addr len lkey : Z)
    : Batch * result unit SendQueue.SubmissionError :=
  let s := b_rq b in
  if available s <=? b_wqe_count b then (b, Err SendQueue.RqFull)
  else if BLUEFLAME_BUFFER_SIZE <? b_offset b + RQ_WQE_SIZE
  then (b, Err SendQueue.BlueflameOverflow)
  else
    let wqe_idx := u16 (pi s + b_wqe_count b) in
    let idx := Z.to_nat (Z.land wqe_idx (wqe_cnt s - 1)) in
    (mkBatch
       (mkRq (write_bytes (buf s) (Z.to_nat (get_wqe_ptr s wqe_idx)) (write_data_seg len lkey addr))
          (wqe_cnt s) (stride s) (pi s) (ci s) (bf_size s) (bf_offset s)
          (pending_start_ptr s) (pending_wqe_count s) (<[idx := Some entry]> (table s)))
       (write_bytes (b_buffer b) (Z.to_nat (b_offset b)) (write_data_seg len lkey addr))
       (b_offset b + RQ_WQE_SIZE) (b_wqe_count b + 1), Ok tt).

Definition set_pi s (p : Z) : RecvQueueState T :=
  mkRq (buf s) (wqe_cnt s) (stride s) p (ci s) (bf_size s) (bf_offset s)
    (pending_start_ptr s) (pending_wqe_count s) (table s).

Definition ud_batch_finish (b : Batch) (size off : Z)
    : option (RecvQueueState T * Z * list DevEvent) :=
  if b_wqe_count b =? 0 then Some (b_rq b, off, [])
  else
    let s := set_pi (b_rq b) (u16 (pi (b_rq b) + b_wqe_count b)) in
    r ← bf_finish_rq (pi s) size off (b_buffer b) (b_offset b);
    Some (s, r.1, r.2).

(** [UdRecvWqeBuilder]: the descriptor at the builder's index, then the entry. *)
Definition builder_sge s (wqe_idx addr len lkey : Z) : RecvQueueState T :=
  mkRq (write_bytes (buf s) (Z.to_nat (get_wqe_ptr s wqe_idx)) (write_data_seg len lkey addr))
    (wqe_cnt s) (stride s) (pi s) (ci s) (bf_size s) (bf_offset s)
    (pending_start_ptr s) (pending_wqe_count s) (table s).

Definition builder_finish s (wqe_idx : Z) (entry : T) : RecvQueueState T :=
  mkRq (buf s) (wqe_cnt s) (stride s) (u16 (pi s + 1)) (ci s) (bf_size s) (bf_offset s)
    (pending_start_ptr s) (pending_wqe_count s)
    (<[Z.to_nat (Z.land wqe_idx (wqe_cnt s - 1)) := Some entry]> (table s)).

End Ops.
Arguments Batch : clear implicits.

(** The methods of [UdRecvQueueState], a second copy of the code. *)
Definition ud_get_wqe_ptr {T} : RecvQueueState T -> Z -> Z := get_wqe_ptr Ud.
Definition ud_process_completion {T} : RecvQueueState T -> Z -> RecvQueueState T * option T :=
  process_completion.
Definition ud_available {T} : RecvQueueState T -> Z := available.
Definition ud_ring_doorbell {T} : RecvQueueState T -> RecvQueueState T * list DevEvent :=
  ring_doorbell Ud.
Definition ud_ring_doorbell_bf {T} :
    RecvQueueState T -> option (RecvQueueState T * list DevEvent) := ring_doorbell_bf.

(** ** Invariant and abstraction *)

(** A receive request: the user's entry and the descriptor of its buffer. *)
Record Req (T : Type) : Type := mkReq { r_entry : T; r_addr : Z; r_len : Z; r_lkey : Z }.
Arguments mkReq {T} _ _ _ _.
Arguments r_entry {T} _.
Arguments r_addr {T} _.
Arguments r_len {T} _.
Arguments r_lkey {T} _.

Section Queue.
Context {T : Type}.
Implicit Types (s : RecvQueueState T) (l m : list (Req T)) (r : Req T).

Definition descriptor r : list Z := write_data_seg (r_len r) (r_lkey r) (r_addr r).

(** Geometry: at most [2 ^ 15] slots, so that the 16-bit indices tell a full ring
    from an empty one; slots of whole segments. *)
Definition rq_ok s : Prop :=
  (exists e, 0 <= e <= 15 /\ wqe_cnt s = 2 ^ e) /\ 16 <= stride s /\ (16 | stride s) /\
  wqe_cnt s * stride s < 2 ^ 32 /\
  is_uint 16 (pi s) /\ is_uint 16 (ci s) /\
  Z.of_nat (length (buf s)) = wqe_cnt s * stride s /\ Z.of_nat (length (table s)) = wqe_cnt s.

Definition slot s (idx : Z) : Z := idx mod wqe_cnt s.
Definition slot_off s (idx : Z) : nat := Z.to_nat (slot s idx * stride s).

(** Request [r] is in slot [idx]: its entry in the table, its descriptor in the ring. *)
Definition in_slot s (idx : Z) r : Prop :=
  table s !! Z.to_nat (slot s idx) = Some (Some (r_entry r)) /\
  read_bytes (buf s) (slot_off s idx) 16 = descriptor r.

(** The requests posted and not completed are [l], oldest first, and [m] are
    written behind them but not yet covered by the producer index. *)
Record staged s l m : Prop := mkStaged {
  h_ok : rq_ok s;
  h_count : u16 (pi s - ci s) = Z.of_nat (length l);
  h_fits : Z.of_nat (length (l ++ m)) <= wqe_cnt s;
  h_slot : forall i r, (l ++ m) !! i = Some r -> in_slot s (ci s + Z.of_nat i) r;
}.

Definition holds s l : Prop := staged s l [].

Lemma rq_cnt_pos s : rq_ok s -> 0 < wqe_cnt s <= 2 ^ 15.
Proof.
  intros ((e & He & ->) & _). split; [apply Z.pow_pos_nonneg; lia|apply Z.pow_le_mono_r; lia].
Qed.

Lemma land_slot s idx : rq_ok s -> Z.land idx (wqe_cnt s - 1) = slot s idx.
Proof. intros ((e & He & E) & _). unfold slot. rewrite E. apply land_mask. lia. Qed.

Lemma slot_range s idx : rq_ok s -> 0 <= slot s idx < wqe_cnt s.
Proof. intros Hok. apply Z.mod_pos_bound. by apply rq_cnt_pos. Qed.

Lemma slot_off_range s idx :
  rq_ok s -> 0 <= slot s idx * stride s /\
  slot s idx * stride s + stride s <= Z.of_nat (length (buf s)).
Proof.
  intros Hok. pose proof (slot_range s idx Hok). destruct Hok as (_ & H2 & _ & _ & _ & _ & -> & _).
  nia.
Qed.

Lemma ptr_slot k s idx : rq_ok s -> get_wqe_ptr k s idx = slot s idx * stride s.
Proof.
  intros Hok. pose proof (slot_off_range s idx Hok). unfold get_wqe_ptr.
  rewrite land_slot by done. destruct k; [|done]. apply u32_small.
  destruct Hok as (_ & ? & _ & ? & _ & _ & ? & _). lia.
Qed.

Lemma slot_u16 s x : rq_ok s -> slot s (u16 x) = slot s x.
Proof.
  intros ((e & He & E) & _). unfold slot, u16, wrap. apply Z.mod_mod_divide. rewrite E.
  exists (2 ^ (16 - e)). rewrite <-Z.pow_add_r by lia. f_equal. lia.
Qed.

(** The producer index, from the consumer's. *)
Lemma slot_pi s l m c :
  staged s l m -> slot s (pi s + c) = slot s (ci s + Z.of_nat (length l) + c).
Proof.
  intros [Hok Hc _ _]. pose proof (rq_cnt_pos s Hok). rewrite <-Hc. unfold slot.
  rewrite <-(Z.add_mod_idemp_l (ci s + _)), <-(Z.add_mod_idemp_r (ci s)) by lia.
  fold (slot s (u16 (pi s - ci s))). rewrite slot_u16 by done. unfold slot.
  rewrite Z.add_mod_idemp_r, Z.add_mod_idemp_l by lia. f_equal. lia.
Qed.

(** Slots of different requests are disjoint in the ring. *)
Lemma rq_slots_apart s i j :
  rq_ok s -> slot s i <> slot s j ->
  (slot_off s i + Z.to_nat (stride s) <= slot_off s j \/
   slot_off s j + Z.to_nat (stride s) <= slot_off s i)%nat.
Proof.
  intros Hok Hne. pose proof (slot_range s i Hok). pose proof (slot_range s j Hok).
  destruct Hok as (_ & H2 & _). unfold slot_off.
  destruct (Z.lt_total (slot s i) (slot s j)) as [Hlt|[?|Hlt]]; [left|done|right].
  - assert ((slot s i + 1) * stride s <= slot s j * stride s) by nia. lia.
  - assert ((slot s j + 1) * stride s <= slot s i * stride s) by nia. lia.
Qed.

(** What writing a request does to the ring: its descriptor is there, the other
    slots keep their bytes. *)
Record slot_written s (idx : Z) (b' : list Z) r : Prop := mkWritten {
  w_length : length b' = length (buf s);
  w_desc : read_bytes b' (slot_off s idx) 16 = descriptor r;
  w_other : forall j, slot s j <> slot s idx ->
    read_bytes b' (slot_off s j) 16 = read_bytes (buf s) (slot_off s j) 16;
}.

Lemma data_seg_written s idx r :
  rq_ok s -> slot_written s idx (write_bytes (buf s) (slot_off s idx) (descriptor r)) r.
Proof.
  intros Hok. pose proof (slot_off_range s idx Hok). pose proof Hok as (_ & H2 & _).
  pose proof (length_data_seg (r_len r) (r_lkey r) (r_addr r)) as Hl. fold (descriptor r) in Hl.
  assert (slot_off s idx + 16 <= length (buf s))%nat by (unfold slot_off; lia).
  split.
  - apply length_write_bytes. lia.
  - by apply read_write_n.
  - intros j Hj. apply read_write_out; rewrite Hl; [done|].
    pose proof (rq_slots_apart s j idx Hok Hj). lia.
Qed.

Lemma recv_wqe_written k s idx r :
  rq_ok s ->
  slot_written s idx
    (write_recv_wqe k (stride s) (buf s) (slot s idx * stride s) (r_addr r) (r_len r) (r_lkey r)) r.
Proof.
  intros Hok. pose proof (data_seg_written s idx r Hok) as [W1 W2 W3].
  pose proof (slot_off_range s idx Hok). unfold write_recv_wqe.
  fold (slot_off s idx). fold (descriptor r). destruct k; [|done].
  destruct (DATA_SEG_SIZE <? stride s) eqn:E; [|done]. apply Z.ltb_lt in E. change DATA_SEG_SIZE with 16 in E.
  assert (32 <= stride s).
  { destruct Hok as (_ & _ & (q & Hq) & _). lia. }
  assert (slot_off s idx + 16 + 8 <= length (buf s))%nat by (unfold slot_off; lia).
  assert (length (le_bytes 4 0 ++ be_bytes 4 MLX5_INVALID_LKEY) = 8%nat) as Hl by done.
  split.
  - rewrite length_write_bytes; [done|lia].
  - rewrite read_write_out; [done| |]; rewrite ?Hl; lia.
  - intros j Hj. rewrite read_write_out; [by apply W3| |]; rewrite ?Hl; [lia|].
    pose proof (rq_slots_apart s j idx Hok Hj). lia.
Qed.

(** Staging one more request behind the others. *)
Lemma stage_one s s' l m r idx b' :
  staged s l m -> Z.of_nat (length (l ++ m)) < wqe_cnt s ->
  slot s idx = slot s (pi s + Z.of_nat (length m)) ->
  slot_written s idx b' r ->
  buf s' = b' -> wqe_cnt s' = wqe_cnt s -> stride s' = stride s -> pi s' = pi s -> ci s' = ci s ->
  table s' = <[Z.to_nat (slot s idx) := Some (r_entry r)]> (table s) ->
  staged s' l (m ++ [r]).
Proof.
  intros Hs Hlt Hidx [W1 W2 W3] E1 E2 E3 E4 E5 E6. pose proof Hs as [Hok Hc Hf Hsl].
  pose proof (rq_cnt_pos s Hok). pose proof (slot_range s idx Hok).
  rewrite (slot_pi s l m) in Hidx by done. rewrite <-Z.add_assoc, <-Nat2Z.inj_add, <-length_app in Hidx.
  assert (forall j, slot s' j = slot s j) as Eslot by (intros j; unfold slot; by rewrite E2).
  assert (forall j, slot_off s' j = slot_off s j) as Eoff
    by (intros j; unfold slot_off; by rewrite Eslot, E3).
  split.
  - destruct Hok as (H1 & H2 & H3 & H4 & H5 & H6 & H7 & H8). unfold rq_ok.
    rewrite E1, E2, E3, E4, E5, E6, length_insert, W1. by split_and!.
  - by rewrite E4, E5.
  - rewrite E2, app_assoc, length_app. cbn. lia.
  - intros i q. rewrite app_assoc. unfold in_slot. rewrite E1, E5, E6, Eslot, Eoff.
    intros [Hi|[Hi1 Hi2]]%lookup_app_Some.
    + destruct (Hsl i q Hi) as [G1 G2]. pose proof (lookup_lt_Some _ _ _ Hi) as Hlti.
      assert (slot s (ci s + Z.of_nat i) <> slot s idx) as Hne.
      { rewrite Hidx. unfold slot. apply SendQueue.mod_ne. lia. }
      pose proof (slot_range s (ci s + Z.of_nat i) Hok).
      split; [rewrite list_lookup_insert_ne; [done|lia]|by rewrite W3].
    + apply list_lookup_singleton_Some in Hi2 as [Hi2 <-].
      assert (slot s (ci s + Z.of_nat i) = slot s idx) as E.
      { rewrite Hidx. f_equal. lia. }
      unfold slot_off. rewrite E. fold (slot_off s idx). split; [|done].
      apply list_lookup_insert_eq. destruct Hok as (_ & _ & _ & _ & _ & _ & _ & ?). lia.
Qed.

(** Publishing the staged requests. *)
Lemma commit s s' l m :
  staged s l m -> buf s' = buf s -> wqe_cnt s' = wqe_cnt s -> stride s' = stride s ->
  ci s' = ci s -> table s' = table s -> pi s' = u16 (pi s + Z.of_nat (length m)) ->
  holds s' (l ++ m).
Proof.
  intros [Hok Hc Hf Hsl] E1 E2 E3 E4 E5 E6. pose proof (rq_cnt_pos s Hok).
  rewrite length_app, Nat2Z.inj_add in Hf.
  split.
  - destruct Hok as (H1 & H2 & H3 & H4 & H5 & H6 & H7 & H8). unfold rq_ok.
    rewrite E1, E2, E3, E4, E5, E6. split_and!; try done; apply u16_range.
  - rewrite E6, E4, length_app, Nat2Z.inj_add, SendQueue.u16_sub_add; rewrite Hc; lia.
  - rewrite app_nil_r, E2, length_app. lia.
  - rewrite app_nil_r. intros i q Hi. unfold in_slot, slot_off, slot.
    rewrite E1, E2, E3, E4, E5. by apply Hsl.
Qed.

Lemma rq_available_val s l m : staged s l m -> available s = wqe_cnt s - Z.of_nat (length l).
Proof.
  intros [Hok Hc Hf _]. pose proof (rq_cnt_pos s Hok). rewrite length_app in Hf. unfold available.
  rewrite Hc. apply u32_small. lia.
Qed.

Lemma rq_init_holds b e st bf :
  0 <= e <= 15 -> 16 <= st -> (16 | st) -> 2 ^ e * st < 2 ^ 32 ->
  Z.of_nat (length b) = 2 ^ e * st -> holds (rq_init (T := T) b (2 ^ e) st bf) [].
Proof.
  intros He Hs Hd Hm Hb. split; cbn; try done.
  - unfold rq_ok. cbn. rewrite length_replicate.
    assert (0 < 2 ^ e) by (apply Z.pow_pos_nonneg; lia).
    split_and!; try done; [by exists e|lia].
  - apply Z.pow_nonneg. lia.
Qed.

Lemma rq_post_holds k s l r :
  holds s l ->
  if decide (Z.of_nat (length l) = wqe_cnt s)
  then post_recv k s (r_entry r) (r_addr r) (r_len r) (r_lkey r) = (s, Err tt)
  else exists s', post_recv k s (r_entry r) (r_addr r) (r_len r) (r_lkey r) = (s', Ok tt) /\
    holds s' (l ++ [r]) /\ wqe_cnt s' = wqe_cnt s.
Proof.
  intros Hs. pose proof (h_ok _ _ _ Hs) as Hok. pose proof (h_fits _ _ _ Hs) as Hf.
  rewrite app_nil_r in Hf. unfold post_recv. rewrite (rq_available_val s l []) by done.
  case_decide as Hd; [by rewrite (proj2 (Z.eqb_eq _ _)) by lia|].
  rewrite (proj2 (Z.eqb_neq _ _)) by lia. eexists. split; [done|]. split; [|done].
  rewrite ptr_slot, land_slot by done.
  match goal with |- holds ?s' _ => apply (commit (set_pi s' (pi s)) s' l [r]); [|done..] end.
  eapply (stage_one s _ l [] r (pi s)); [done| | |by apply recv_wqe_written|done..].
  - rewrite app_nil_r. lia.
  - cbn. by rewrite Z.add_0_r.
Qed.

(** A completion for the [i]-th oldest request returns its entry and leaves the
    younger ones. *)
Lemma rq_complete_holds s l i r :
  holds s l -> l !! i = Some r ->
  (process_completion s (u16 (ci s + Z.of_nat i))).2 = Some (r_entry r) /\
  holds (process_completion s (u16 (ci s + Z.of_nat i))).1 (drop (S i) l).
Proof.
  intros Hs Hi. pose proof Hs as [Hok Hc Hf Hsl]. pose proof (rq_cnt_pos s Hok).
  rewrite app_nil_r in Hf, Hsl. pose proof (lookup_lt_Some _ _ _ Hi) as Hlt.
  unfold process_completion. cbn [fst snd]. rewrite land_slot, slot_u16 by done.
  destruct (Hsl i r Hi) as [G _]. rewrite G. split; [done|].
  pose proof (slot_range s (ci s + Z.of_nat i) Hok).
  assert (u16 (u16 (ci s + Z.of_nat i) + 1) = u16 (ci s + Z.of_nat (S i))) as E.
  { unfold u16, wrap. rewrite Z.add_mod_idemp_l by lia. f_equal. lia. }
  rewrite E. split; cbn.
  - destruct Hok as (? & ? & ? & ? & ? & ? & ? & ?). unfold rq_ok. cbn. rewrite length_insert.
    split_and!; try done; apply u16_range.
  - rewrite length_drop. unfold u16, wrap in *. rewrite Zminus_mod_idemp_r.
    replace (pi s - (ci s + Z.of_nat (S i))) with (pi s - ci s - Z.of_nat (S i)) by lia.
    rewrite <-Zminus_mod_idemp_l, Hc, Z.mod_small; lia.
  - rewrite app_nil_r, length_drop. lia.
  - rewrite app_nil_r. intros j q. rewrite lookup_drop. intros Hj. destruct (Hsl _ _ Hj) as [G1 G2].
    assert (slot s (u16 (ci s + Z.of_nat (S i)) + Z.of_nat j) = slot s (ci s + Z.of_nat (S i + j))) as Es.
    { unfold slot. rewrite <-Z.add_mod_idemp_l by lia. fold (slot s (u16 (ci s + Z.of_nat (S i)))).
      rewrite slot_u16 by done. unfold slot. rewrite Z.add_mod_idemp_l by lia. f_equal. lia. }
    unfold in_slot, slot_off, slot in *. cbn. rewrite Es. split; [|done].
    rewrite list_lookup_insert_ne; [done|]. pose proof (lookup_lt_Some _ _ _ Hj).
    pose proof (SendQueue.mod_ne (ci s + Z.of_nat i) (ci s + Z.of_nat (S i + j)) (wqe_cnt s) ltac:(lia)).
    pose proof (Z.mod_pos_bound (ci s + Z.of_nat (S i + j)) (wqe_cnt s) ltac:(lia)). lia.
Qed.

Lemma rq_rung_holds s l : holds s l -> holds (rung s) l.
Proof. by intros [H1 H2 H3 H4]; split. Qed.

End Queue.

(** ** The queue refines a list of requests *)

Section Refinement.
Context {T : Type} (k : RqKind).

(** What the owner of the queue does: posts, doorbells, and the completion of the
    [i]-th oldest request, whose index the completion carries. *)
Inductive RqOp : Type := OPost (r : Req T) | OComplete (i : nat) | ODoorbell.
Inductive RqRes : Type :=
  RPosted | RWouldBlock | REntry (e : option T) | RRung (evs : list DevEvent).

(** What a doorbell shows the device apart from the copy in its register: the
    stores to the doorbell record and the barriers, in order. *)
Definition record_events (evs : list DevEvent) : list DevEvent :=
  List.filter (fun ev => match ev with BfWrite _ _ => false | _ => true end) evs.

Definition rq_do (s : RecvQueueState T) (o : RqOp) : RecvQueueState T * RqRes :=
  match o with
  | OPost r =>
      match post_recv k s (r_entry r) (r_addr r) (r_len r) (r_lkey r) with
      | (s, Ok _) => (s, RPosted)
      | (s, Err _) => (s, RWouldBlock)
      end
  | OComplete i =>
      let '(s, e) := process_completion s (u16 (ci s + Z.of_nat i)) in (s, REntry e)
  | ODoorbell => let '(s', evs) := ring_doorbell k s in (s', RRung (record_events evs))
  end.

Fixpoint rq_run (s : RecvQueueState T) (os : list RqOp) : RecvQueueState T * list RqRes :=
  match os with
  | [] => (s, [])
  | o :: os =>
      let '(s, r) := rq_do s o in
      let '(s, rs) := rq_run s os in (s, r :: rs)
  end.

(** The specification: requests waiting, and how many were ever posted; [None]
    for a completion of a request that is not there. *)
Definition spec_do (cnt : Z) (q : list (Req T) * Z) (o : RqOp) : option (list (Req T) * Z * RqRes) :=
  let '(l, n) := q in
  match o with
  | OPost r => if decide (Z.of_nat (length l) = cnt) then Some (l, n, RWouldBlock)
               else Some (l ++ [r], n + 1, RPosted)
  | OComplete i => r ← l !! i; Some (drop (S i) l, n, REntry (Some (r_entry r)))
  | ODoorbell => Some (l, n, RRung [Flush; Dbrec 0 (u16 n); UdmaBarrier; Flush])
  end.

Fixpoint spec_run (cnt : Z) (q : list (Req T) * Z) (os : list RqOp)
    : option (list (Req T) * Z * list RqRes) :=
  match os with
  | [] => Some (q, [])
  | o :: os =>
      '(q, r) ← spec_do cnt q o;
      '(q, rs) ← spec_run cnt q os;
      Some (q, r :: rs)
  end.

Lemma rq_do_spec s l n o l' n' r :
  holds s l -> pi s = u16 n -> spec_do (wqe_cnt s) (l, n) o = Some (l', n', r) ->
  (rq_do s o).2 = r /\ holds (rq_do s o).1 l' /\ pi (rq_do s o).1 = u16 n' /\
  wqe_cnt (rq_do s o).1 = wqe_cnt s.
Proof.
  intros Hs Hn. destruct o as [q|i|]; cbn [spec_do rq_do].
  - pose proof (rq_post_holds k s l q Hs) as Hp. case_decide as Hd.
    + rewrite Hp. by intros [= <- <- <-].
    + destruct Hp as (s' & E & Hh & Hc). rewrite E. intros [= <- <- <-]. cbn. split; [done|].
      split; [done|]. split; [|done]. unfold post_recv in E. destruct (available s =? 0); [done|].
      injection E as <-. cbn. rewrite Hn. unfold u16, wrap. by rewrite Z.add_mod_idemp_l by lia.
  - destruct (l !! i) as [q|] eqn:Hi; [|done]. intros [= <- <- <-].
    destruct (rq_complete_holds s l i q Hs Hi) as [G1 G2].
    by destruct (process_completion s _) as [s' e] eqn:E; cbn in *; subst e; injection E as <- _.
  - intros [= <- <- <-]. cbn. split; [by rewrite Hn|]. by split; [apply rq_rung_holds|].
Qed.

Lemma rq_run_spec os s l n l' n' rs :
  holds s l -> pi s = u16 n -> spec_run (wqe_cnt s) (l, n) os = Some (l', n', rs) ->
  (rq_run s os).2 = rs /\ holds (rq_run s os).1 l' /\ pi (rq_run s os).1 = u16 n'.
Proof.
  revert s l n rs. induction os as [|o os IH]; intros s l n rs Hs Hn; cbn [spec_run rq_run].
  { by intros [= <- <- <-]. }
  destruct (spec_do _ _ o) as [[[l1 n1] r]|] eqn:E; [|done]. cbn.
  destruct (rq_do_spec s l n o l1 n1 r Hs Hn E) as (H1 & H2 & H3 & H4).
  destruct (rq_do s o) as [s1 r1]. cbn in *. rewrite <-H4. subst r1.
  destruct (spec_run _ _ os) as [[[l2 n2] rs2]|] eqn:E2; [|done]. cbn. intros [= <- <- <-].
  destruct (IH s1 l1 n1 rs2 H2 H3 E2) as (G1 & G2 & G3).
  destruct (rq_run s1 os) as [s2 rs2']. cbn in *. by subst.
Qed.

(** C14: The receive queue of a reliable-connection or datagram queue pair
    refines a bounded first-in first-out queue of requests.  Over any sequence
    of posts, doorbells and completions (of requests that are outstanding), the
    answers are those of the list specification: a post is refused exactly when
    [wqe_cnt] requests are outstanding, a completion for the [i]-th oldest
    request returns its entry (and with it the older ones are gone), a doorbell
    stores the number of requests ever posted, modulo [2 ^ 16], in word 0 of the
    doorbell record, once, after the descriptors are flushed and before the
    barrier that precedes the register; and afterwards every outstanding request
    has its entry in the table and its descriptor in the ring. *)
Theorem recv_queue_refines b e st bf os l n rs :
  0 <= e <= 15 -> 16 <= st -> (16 | st) -> 2 ^ e * st < 2 ^ 32 ->
  Z.of_nat (length b) = 2 ^ e * st ->
  spec_run (2 ^ e) ([], 0) os = Some (l, n, rs) ->
  let '(s, rs') := rq_run (rq_init b (2 ^ e) st bf) os in rs' = rs /\ holds s l.
Proof.
  intros He Hs Hd Hm Hb E.
  pose proof (rq_init_holds (T := T) b e st bf He Hs Hd Hm Hb) as H0.
  destruct (rq_run_spec os _ [] 0 l n rs H0 eq_refl E) as (H1 & H2 & _).
  by destruct (rq_run _ os).
Qed.

End Refinement.

(** ** The BlueFlame copies *)

(** The stores of a copy of [c] blocks. *)
Definition copied (b : list Z) (src dst : Z) (c : nat) : list DevEvent :=
  (fun i => BfWrite (dst + 64 * Z.of_nat i) (read_bytes b (Z.to_nat (src + 64 * Z.of_nat i)) 64))
    <$> seq 0 c.

(** The blocks a copy of [n] bytes takes. *)
Definition blocks (n : Z) : Z := (n + 63) / 64.

Lemma copied_S b src dst c :
  copied b src dst (S c) =
  BfWrite dst (read_bytes b (Z.to_nat src) 64) :: copied b (src + 64) (dst + 64) c.
Proof.
  unfold copied. cbn [seq]. rewrite <-seq_shift, fmap_cons, <-list_fmap_compose, !Z.mul_0_r, !Z.add_0_r.
  f_equal. apply list_fmap_ext. intros i x _. cbn. f_equal; [lia|]. do 2 f_equal. lia.
Qed.

Lemma bf_copy_val c : forall fuel b src dst n,
  0 <= src -> 64 * (Z.of_nat c - 1) < n <= 64 * Z.of_nat c -> 0 <= n -> (c <= fuel)%nat ->
  bf_copy fuel b src dst n =
    if decide (src + 64 * Z.of_nat c <= Z.of_nat (length b)) then Some (copied b src dst c)
    else if decide (n = 0) then Some [] else None.
Proof.
  induction c as [|c IH]; intros fuel b src dst n Hs Hn Hp Hf.
  { assert (n = 0) as -> by lia. destruct fuel; cbn; repeat case_decide; done. }
  destruct fuel as [|fuel]; [lia|]. cbn [bf_copy].
  rewrite (proj2 (Z.leb_gt _ _)) by lia. unfold load_block, WQEBB_SIZE.
  rewrite (proj2 (Z.leb_le _ _) Hs). cbn [andb].
  destruct (src + 64 <=? Z.of_nat (length b)) eqn:E; guards; cbn [mbind option_bind].
  2:{ rewrite decide_False by lia. by rewrite decide_False by lia. }
  rewrite IH; unfold saturating_sub; try lia. rewrite copied_S.
  repeat case_decide; try done; lia.
Qed.

Lemma blocks_spec n : 0 <= n -> 64 * (blocks n - 1) < n <= 64 * blocks n.
Proof. intros. unfold blocks. pose proof (Z.div_mod (n + 63) 64). pose proof (Z.mod_pos_bound (n + 63) 64). lia. Qed.

Lemma bf_copy_all_val b src dst n :
  0 <= src -> 0 < n ->
  bf_copy_all b src dst n =
    if decide (src + 64 * blocks n <= Z.of_nat (length b))
    then Some (copied b src dst (Z.to_nat (blocks n))) else None.
Proof.
  intros Hs Hn. pose proof (blocks_spec n ltac:(lia)). unfold bf_copy_all.
  rewrite (bf_copy_val (Z.to_nat (blocks n))) by lia. rewrite Z2Nat.id by lia.
  by repeat case_decide; try lia.
Qed.

(** The bytes a copy stores, in order. *)
Fixpoint bf_bytes (evs : list DevEvent) : list Z :=
  match evs with
  | BfWrite _ bytes :: evs => bytes ++ bf_bytes evs
  | _ :: evs => bf_bytes evs
  | [] => []
  end.

Lemma bf_bytes_app a b : bf_bytes (a ++ b) = bf_bytes a ++ bf_bytes b.
Proof. induction a as [|[] a IH]; cbn; rewrite ?IH, ?app_assoc; done. Qed.

Lemma bf_bytes_copied c : forall b src dst,
  0 <= src -> src + 64 * Z.of_nat c <= Z.of_nat (length b) ->
  bf_bytes (copied b src dst c) = read_bytes b (Z.to_nat src) (64 * c).
Proof.
  induction c as [|c IH]; intros b src dst Hs Hl; [done|].
  rewrite copied_S. cbn [bf_bytes]. rewrite IH by lia. unfold read_bytes.
  replace (64 * S c)%nat with (64 + 64 * c)%nat by lia.
  rewrite <-take_take_drop, drop_drop. do 3 f_equal. lia.
Qed.

Section Doorbell.
Context {T : Type} (k : RqKind).
Implicit Types (s : RecvQueueState T).

(** Between batches the pending requests are the [pending_wqe_count] newest ones. *)
Definition pending_ok s : Prop :=
  0 <= pending_wqe_count s <= wqe_cnt s /\
  pending_start_ptr s =
    if decide (pending_wqe_count s = 0) then None
    else Some (slot s (pi s - pending_wqe_count s) * stride s).

Lemma post_pending s l r :
  holds s l -> pending_ok s -> pending_wqe_count s <= Z.of_nat (length l) ->
  Z.of_nat (length l) < wqe_cnt s ->
  pending_ok (post_recv k s (r_entry r) (r_addr r) (r_len r) (r_lkey r)).1.
Proof.
  intros Hs [Hp1 Hp2] Hle Hlt. pose proof (h_ok _ _ _ Hs) as Hok. pose proof (rq_cnt_pos s Hok).
  unfold post_recv. rewrite (rq_available_val s l []), (proj2 (Z.eqb_neq _ _)) by (done || lia).
  unfold pending_ok. cbn. rewrite (u32_small (_ + 1)) by lia. split; [lia|].
  rewrite decide_False by lia. rewrite Hp2, ptr_slot by done.
  assert (slot s (u16 (pi s + 1) - (pending_wqe_count s + 1)) = slot s (pi s - pending_wqe_count s)) as E.
  { unfold slot. rewrite <-Zminus_mod_idemp_l. fold (slot s (u16 (pi s + 1))).
    rewrite slot_u16 by done. unfold slot. rewrite Zminus_mod_idemp_l. f_equal. lia. }
  unfold slot in *. cbn. rewrite E. case_decide as H0; [|done]. rewrite H0. do 4 f_equal. lia.
Qed.

Lemma bf_doorbell_val s :
  rq_ok s -> pending_ok s -> 0 < pending_wqe_count s ->
  let start := slot s (pi s - pending_wqe_count s) * stride s in
  let n := blocks (Z.min (pending_wqe_count s * stride s) 256) in
  ring_doorbell_bf s =
    if decide (start + 64 * n <= wqe_cnt s * stride s) then
      Some (rung s, [Flush; Dbrec 0 (pi s); UdmaBarrier]
              ++ copied (buf s) start (bf_offset s) (Z.to_nat n) ++ [Flush])
    else None.
Proof.
  intros Hok [Hp1 Hp2] Hpos start n. rewrite decide_False in Hp2 by lia. fold start in Hp2.
  pose proof (slot_off_range s (pi s - pending_wqe_count s) Hok) as [Hr1 Hr2]. fold start in Hr1, Hr2.
  pose proof Hok as (_ & Hst & _ & _ & _ & _ & Hl & _).
  unfold ring_doorbell_bf. rewrite (proj2 (Z.eqb_neq _ _)), Hp2 by lia.
  assert (0 < Z.min (pending_wqe_count s * stride s) 256) by nia.
  rewrite bf_copy_all_val by lia. fold n. rewrite Hl. by case_decide.
Qed.

(** What [ring_doorbell_bf] of a receive queue reads.  With requests pending
    it copies whole 64-byte blocks from the first pending slot, [256] bytes of
    requests at most; the loads stay inside the ring exactly when those blocks
    end before the ring does.  Then the device sees the flush, the producer
    index in word 0 of the doorbell record, the barrier and the bytes of the ring
    from the first pending slot on, in this order, and nothing is pending.  When
    the pending requests run past the end of the ring - they wrap, or the ring
    ends inside the last block - the loads leave the ring. *)
Theorem recv_bf_in_ring s :
  rq_ok s -> pending_ok s -> 0 < pending_wqe_count s ->
  let start := slot s (pi s - pending_wqe_count s) * stride s in
  let n := blocks (Z.min (pending_wqe_count s * stride s) 256) in
  if decide (start + 64 * n <= wqe_cnt s * stride s) then
    exists evs, ring_doorbell_bf s
      = Some (rung s, [Flush; Dbrec 0 (pi s); UdmaBarrier] ++ evs ++ [Flush]) /\
    bf_bytes evs = read_bytes (buf s) (Z.to_nat start) (Z.to_nat (64 * n))
  else ring_doorbell_bf s = None.
Proof.
  intros Hok Hp Hpos start n. rewrite (bf_doorbell_val s Hok Hp Hpos). fold start n.
  pose proof (slot_off_range s (pi s - pending_wqe_count s) Hok) as [Hr1 Hr2]. fold start in Hr1, Hr2.
  pose proof Hok as (_ & Hst & _ & _ & _ & _ & Hl & _).
  pose proof (blocks_spec (Z.min (pending_wqe_count s * stride s) 256) ltac:(nia)) as Hb. fold n in Hb.
  case_decide as Hd; [|done]. eexists. split; [done|]. rewrite bf_bytes_copied by lia. f_equal. lia.
Qed.

(** Pending requests that wrap around the end of the ring always do. *)
Lemma recv_bf_wrap_outside s :
  rq_ok s -> pending_ok s -> pending_wqe_count s * stride s <= 256 ->
  wqe_cnt s < slot s (pi s - pending_wqe_count s) + pending_wqe_count s ->
  ring_doorbell_bf s = None.
Proof.
  intros Hok Hp Hsm Hw. pose proof (slot_range s (pi s - pending_wqe_count s) Hok).
  pose proof Hok as (_ & Hst & _). rewrite (bf_doorbell_val s Hok Hp ltac:(lia)).
  case_decide as Hd; [|done]. exfalso.
  rewrite Z.min_l in Hd by done.
  pose proof (blocks_spec (pending_wqe_count s * stride s) ltac:(nia)). nia.
Qed.

End Doorbell.

(** ** The batches *)

Section Batches.
Context {T : Type}.
Implicit Types (s : RecvQueueState T) (b : Batch T) (l m : list (Req T)) (r : Req T).

(** The batch buffer holds the descriptors of [m], back to back. *)
Record collects b m : Prop := mkCollects {
  c_count : b_wqe_count b = Z.of_nat (length m);
  c_offset : b_offset b = 16 * Z.of_nat (length m);
  c_length : length (b_buffer b) = 256%nat;
  c_fits : (length m <= 16)%nat;
  c_bytes : read_bytes (b_buffer b) 0 (16 * length m) = concat (descriptor <$> m);
}.

Lemma collects_new s : collects (batch_new s) [].
Proof. split; try done. cbn. lia. Qed.

Lemma collects_post b b' m r :
  collects b m -> (length m < 16)%nat ->
  b_buffer b' = write_bytes (b_buffer b) (Z.to_nat (b_offset b)) (descriptor r) ->
  b_offset b' = b_offset b + RQ_WQE_SIZE -> b_wqe_count b' = b_wqe_count b + 1 ->
  collects b' (m ++ [r]).
Proof.
  intros [H1 H2 H3 H4 H5] Hlt E1 E2 E3.
  assert (length (descriptor r) = 16%nat) as Hd by apply length_data_seg.
  assert (Z.to_nat (b_offset b) = 16 * length m)%nat as Ho by lia.
  split; rewrite ?length_app; cbn [length].
  - lia.
  - rewrite E2, H2. change RQ_WQE_SIZE with 16. lia.
  - rewrite E1, length_write_bytes by lia. done.
  - lia.
  - rewrite E1, Ho, fmap_app, concat_app, <-H5.
    replace (concat (descriptor <$> [r])) with (descriptor r) by (symmetry; apply app_nil_r).
    unfold read_bytes at 1. rewrite drop_0.
    replace (16 * (length m + 1))%nat with (16 * length m + 16)%nat by lia.
    rewrite <-take_take_drop. f_equal.
    + change (take (16 * length m) (write_bytes (b_buffer b) (16 * length m) (descriptor r)))
        with (read_bytes (write_bytes (b_buffer b) (16 * length m) (descriptor r)) 0 (16 * length m)).
      apply read_write_out; lia.
    + apply (read_write_n _ (16 * length m) (descriptor r) 16); lia.
Qed.

(** The events of a finished batch: doorbell word 0, then the descriptors. *)
Definition batch_events (p : Z) (m : list (Req T)) (evs : list DevEvent) : Prop :=
  exists copy, evs = [Flush; Dbrec 0 p; UdmaBarrier] ++ copy ++ [Flush] /\
    take (16 * length m) (bf_bytes copy) = concat (descriptor <$> m).

Lemma bf_finish_collects b m p size off :
  collects b m -> m <> [] -> 0 < size ->
  exists evs, bf_finish_rq p size off (b_buffer b) (b_offset b) = Some (Z.lxor off size, evs) /\
    batch_events p m evs.
Proof.
  intros [H1 H2 H3 H4 H5] Hm Hs. assert (0 < length m)%nat by (destruct m; [done|cbn; lia]).
  unfold bf_finish_rq, bf_copy_and_toggle. rewrite (proj2 (Z.ltb_lt _ _) Hs).
  pose proof (blocks_spec (b_offset b) ltac:(lia)) as Hb.
  rewrite bf_copy_all_val, decide_True by lia. cbn. eexists. split; [done|].
  eexists. split; [done|]. rewrite bf_bytes_copied by lia. rewrite <-H5. cbn.
  unfold read_bytes. rewrite drop_0, take_take. f_equal. lia.
Qed.

(** *** The datagram batch *)

Lemma ud_batch_post_spec b l m r :
  staged (b_rq b) l m -> collects b m ->
  ud_batch_post Ud b (r_entry r) (r_addr r) (r_len r) (r_lkey r) =
    if decide (Z.of_nat (length (l ++ m)) = wqe_cnt (b_rq b)) then (b, Err SendQueue.RqFull)
    else if decide (length m = 16%nat) then (b, Err SendQueue.BlueflameOverflow)
    else ((ud_batch_post Ud b (r_entry r) (r_addr r) (r_len r) (r_lkey r)).1, Ok tt).
Proof.
  intros Hs Hc. pose proof (h_fits _ _ _ Hs) as Hf. pose proof Hc as [H1 H2 H3 H4 H5].
  unfold ud_batch_post. rewrite (rq_available_val _ l m), H1, H2 by done. rewrite length_app in *.
  change BLUEFLAME_BUFFER_SIZE with 256. change RQ_WQE_SIZE with 16.
  case_decide; [by rewrite (proj2 (Z.leb_le _ _)) by lia|].
  rewrite (proj2 (Z.leb_gt _ _)) by lia.
  case_decide; [by rewrite (proj2 (Z.ltb_lt _ _)) by lia|].
  by rewrite (proj2 (Z.ltb_ge _ _)) by lia.
Qed.

Lemma ud_batch_post_ok b l m r :
  staged (b_rq b) l m -> collects b m ->
  Z.of_nat (length (l ++ m)) < wqe_cnt (b_rq b) -> (length m < 16)%nat ->
  exists b', ud_batch_post Ud b (r_entry r) (r_addr r) (r_len r) (r_lkey r) = (b', Ok tt) /\
    staged (b_rq b') l (m ++ [r]) /\ collects b' (m ++ [r]) /\
    pi (b_rq b') = pi (b_rq b) /\ wqe_cnt (b_rq b') = wqe_cnt (b_rq b).
Proof.
  intros Hs Hc Hlt Hm. pose proof (ud_batch_post_spec b l m r Hs Hc) as E.
  rewrite !decide_False in E by lia. eexists. split; [exact E|]. clear E.
  pose proof (h_ok _ _ _ Hs) as Hok. pose proof Hc as [H1 H2 H3 H4 H5].
  unfold ud_batch_post. rewrite (rq_available_val _ l m), H1 by done. rewrite length_app in Hlt.
  rewrite (proj2 (Z.leb_gt _ _)), (proj2 (Z.ltb_ge _ _)) by
    (change BLUEFLAME_BUFFER_SIZE with 256; change RQ_WQE_SIZE with 16; lia). cbn [fst b_rq].
  rewrite ptr_slot, land_slot by done. split; [|split; [|done]].
  - eapply (stage_one (b_rq b) _ l m r (u16 (pi (b_rq b) + Z.of_nat (length m)))); try done.
    + rewrite length_app. lia.
    + by rewrite slot_u16.
    + by apply data_seg_written.
  - apply (collects_post b _ m r); cbn; try done; lia.
Qed.

Fixpoint ud_batch_posts b (rs : list (Req T)) : option (Batch T) :=
  match rs with
  | [] => Some b
  | r :: rs =>
      match ud_batch_post Ud b (r_entry r) (r_addr r) (r_len r) (r_lkey r) with
      | (b, Ok _) => ud_batch_posts b rs
      | (_, Err _) => None
      end
  end.

Lemma ud_batch_posts_ok rs : forall b l m,
  staged (b_rq b) l m -> collects b m ->
  Z.of_nat (length (l ++ m ++ rs)) <= wqe_cnt (b_rq b) -> (length (m ++ rs) <= 16)%nat ->
  exists b', ud_batch_posts b rs = Some b' /\ staged (b_rq b') l (m ++ rs) /\
    collects b' (m ++ rs) /\ pi (b_rq b') = pi (b_rq b).
Proof.
  induction rs as [|r rs IH]; intros b l m Hs Hc Hf Hm.
  { exists b. by rewrite app_nil_r. }
  rewrite !length_app in Hf. rewrite length_app in Hm. cbn [length] in Hf, Hm.
  destruct (ud_batch_post_ok b l m r Hs Hc) as (b1 & E & G1 & G2 & G3 & G4);
    [rewrite length_app; lia|lia|]. cbn [ud_batch_posts]. rewrite E.
  destruct (IH b1 l (m ++ [r]) G1 G2) as (b2 & E2 & F1 & F2 & F3);
    [rewrite G4, !length_app; cbn; lia|rewrite !length_app; cbn; lia|].
  exists b2. rewrite <-app_assoc in F1, F2. by rewrite F3, G3.
Qed.

(** A datagram receive batch is the same as posting its requests: for up to
    sixteen requests that fit in the queue, every [post] succeeds and [finish]
    publishes them all at once - afterwards the queue holds the old requests
    followed by the batch, each with its entry in the table and its descriptor in
    the ring, the doorbell record shows the advanced producer index before the
    descriptors themselves are stored, in order, to the BlueFlame register, and
    the register's half is switched. *)
Theorem ud_batch_posts_all s l rs size off :
  holds s l -> rs <> [] -> (length rs <= 16)%nat ->
  Z.of_nat (length l + length rs) <= wqe_cnt s -> 0 < size ->
  exists b s' evs,
    ud_batch_posts (batch_new s) rs = Some b /\
    ud_batch_finish b size off = Some (s', Z.lxor off size, evs) /\
    holds s' (l ++ rs) /\ pi s' = u16 (pi s + Z.of_nat (length rs)) /\
    batch_events (pi s') rs evs.
Proof.
  intros Hs Hne H16 Hf Hsz.
  destruct (ud_batch_posts_ok rs (batch_new s) l [] Hs (collects_new s)) as (b & E & G1 & G2 & G3);
    [rewrite !length_app; cbn in *; lia|done|]. cbn [app] in *.
  set (s' := set_pi (b_rq b) (u16 (pi (b_rq b) + b_wqe_count b))).
  destruct (bf_finish_collects b rs (pi s') size off G2 Hne Hsz) as (evs & E2 & Hev).
  exists b, s', evs. split; [done|]. unfold ud_batch_finish. fold s'.
  assert (b_wqe_count b <> 0) by (rewrite (c_count _ _ G2); destruct rs; [done|cbn; lia]).
  rewrite (proj2 (Z.eqb_neq _ _)), E2 by done. split; [done|].
  pose proof (c_count _ _ G2) as Hn.
  split; [|split; [|done]]; [|by cbn; rewrite Hn, G3].
  apply (commit (b_rq b) s' l rs); try done. cbn. by rewrite Hn.
Qed.

(** *** The reliable-connection batch *)

Fixpoint rc_batch_posts b (rs : list (Req T)) : option (Batch T) :=
  match rs with
  | [] => Some b
  | r :: rs =>
      match rc_batch_post b (r_entry r) (r_addr r) (r_len r) (r_lkey r) with
      | (b, Ok _) => rc_batch_posts b rs
      | (_, Err _) => None
      end
  end.

(** The queue after the posts: entries and indices, but not the ring. *)
Record unwritten s s' (n : Z) : Prop := mkUnwritten {
  u_buf : buf s' = buf s;
  u_cnt : wqe_cnt s' = wqe_cnt s;
  u_stride : stride s' = stride s;
  u_ci : ci s' = ci s;
  u_pi : pi s' = u16 (pi s + n);
}.

Lemma rc_batch_posts_ok rs : forall b m n,
  rq_ok (b_rq b) -> collects b m -> u16 (pi (b_rq b) - ci (b_rq b)) = n ->
  n + Z.of_nat (length rs) <= wqe_cnt (b_rq b) -> (length (m ++ rs) <= 16)%nat ->
  exists b', rc_batch_posts b rs = Some b' /\ collects b' (m ++ rs) /\
    unwritten (b_rq b) (b_rq b') (Z.of_nat (length rs)).
Proof.
  induction rs as [|r rs IH]; intros b m n Hok Hc Hn Hf Hm.
  { exists b. rewrite app_nil_r. split; [done|]. split; [done|]. split; try done. cbn.
    rewrite Z.add_0_r. symmetry. apply u16_small. by destruct Hok as (_ & _ & _ & _ & ? & _). }
  rewrite length_app in Hm. cbn [length] in Hf, Hm. pose proof (rq_cnt_pos _ Hok).
  pose proof (u16_range (pi (b_rq b) - ci (b_rq b))).
  pose proof Hc as [H1 H2 H3 H4 H5]. cbn [rc_batch_posts]. unfold rc_batch_post.
  assert (available (b_rq b) = wqe_cnt (b_rq b) - n) as -> by
    (unfold available; rewrite Hn; apply u32_small; lia).
  rewrite (proj2 (Z.eqb_neq _ _)), (proj2 (Z.ltb_ge _ _)) by
    (change BLUEFLAME_BUFFER_SIZE with 256; change RQ_WQE_SIZE with 16; lia).
  match goal with |- exists _, rc_batch_posts ?b1 _ = _ /\ _ =>
    destruct (IH b1 (m ++ [r]) (n + 1)) as (b2 & E & F1 & [F2 F3 F4 F5 F6]) end.
  - destruct Hok as (? & ? & ? & ? & ? & ? & ? & ?). unfold rq_ok. cbn. rewrite length_insert.
    split_and!; try done; apply u16_range.
  - apply (collects_post b _ m r); cbn; try done; lia.
  - cbn. rewrite SendQueue.u16_sub_add; lia.
  - cbn. lia.
  - rewrite !length_app. cbn. lia.
  - exists b2. rewrite <-app_assoc in F1. split; [done|]. split; [done|]. cbn in *.
    split; try done. rewrite F6. unfold u16, wrap. rewrite Z.add_mod_idemp_l by lia. f_equal. lia.
Qed.

(** A reliable-connection receive batch never writes the ring.  For up to
    sixteen requests that fit, every [post] and the [finish] succeed and the
    device is told - in the doorbell record - that the requests are there, with
    their descriptors stored to the BlueFlame register; but the ring, from which
    receive requests are fetched, is what it was before: a slot whose descriptor
    was not already there does not hold its request. *)
Theorem rc_batch_leaves_ring s l rs size off :
  holds s l -> rs <> [] -> (length rs <= 16)%nat ->
  Z.of_nat (length l + length rs) <= wqe_cnt s -> 0 < size ->
  exists b s' evs,
    rc_batch_posts (batch_new s) rs = Some b /\
    rc_batch_finish b size off = Some (s', Z.lxor off size, evs) /\
    pi s' = u16 (pi s + Z.of_nat (length rs)) /\ batch_events (pi s') rs evs /\
    buf s' = buf s /\
    forall i r, rs !! i = Some r ->
      read_bytes (buf s) (slot_off s (pi s + Z.of_nat i)) 16 <> descriptor r ->
      ~ in_slot s' (pi s + Z.of_nat i) r.
Proof.
  intros Hs Hne H16 Hf Hsz. pose proof Hs as [Hok Hn _ _].
  destruct (rc_batch_posts_ok rs (batch_new s) [] _ Hok (collects_new s) Hn)
    as (b & E & G1 & [F1 F2 F3 F4 F5]); [cbn; lia|done|]. cbn [app] in *. cbn in F1, F2, F3, F4, F5.
  destruct (bf_finish_collects b rs (pi (b_rq b)) size off G1 Hne Hsz) as (evs & E2 & Hev).
  exists b, (b_rq b), evs. split; [done|]. unfold rc_batch_finish.
  assert (b_wqe_count b <> 0) by (rewrite (c_count _ _ G1); destruct rs; [done|cbn; lia]).
  rewrite (proj2 (Z.eqb_neq _ _)), E2 by done. split_and!; try done.
  intros i r _ Hd [_ Hin]. apply Hd. rewrite <-Hin. unfold slot_off, slot. by rewrite F1, F2, F3.
Qed.

End Batches.

(** ** Concrete runs *)

Definition demo_ring : list Z := replicate 64 0.
Definition demo_rq : RecvQueueState nat := rq_init demo_ring 4 16 256.
Definition demo_req (n : nat) : Req nat := mkReq n (4096 * (1 + Z.of_nat n)) 64 7.
Definition demo_ops : list (RqOp (T := nat)) :=
  [OPost (demo_req 0); OPost (demo_req 1); OPost (demo_req 2); ODoorbell; OPost (demo_req 3);
   OPost (demo_req 4); OComplete 0; OPost (demo_req 4); OComplete 1; ODoorbell].

Lemma recv_queue_refines_witness :
  let '(s, rs) := rq_run Rc demo_rq demo_ops in
  rs = [RPosted; RPosted; RPosted; RRung [Flush; Dbrec 0 3; UdmaBarrier; Flush]; RPosted; RWouldBlock; REntry (Some 0%nat); RPosted;
        REntry (Some 2%nat); RRung [Flush; Dbrec 0 5; UdmaBarrier; Flush]] /\ holds s [demo_req 3; demo_req 4].
Proof.
  apply (recv_queue_refines Rc demo_ring 2 16 256 demo_ops [demo_req 3; demo_req 4] 5);
    [lia|lia|by exists 1|lia|reflexivity|reflexivity].
Defined.

Lemma demo_rq_holds : holds demo_rq [].
Proof. apply (rq_init_holds demo_ring 2 16 256); [lia|lia|by exists 1|lia|done]. Qed.

(** Two pending requests in the last slot and the first one. *)
Definition demo_wrapped : RecvQueueState nat :=
  (rq_run Rc demo_rq [OPost (demo_req 0); OPost (demo_req 1); OPost (demo_req 2); ODoorbell;
     OComplete 2; OPost (demo_req 3); OPost (demo_req 4)]).1.

Lemma recv_bf_in_ring_witness :
  rq_ok demo_wrapped /\ pending_ok demo_wrapped /\ pending_wqe_count demo_wrapped = 2 /\
  ring_doorbell_bf demo_wrapped = None.
Proof.
  assert (rq_ok demo_wrapped) as Hok.
  { split_and!; try done. exists 2. by split. }
  assert (pending_ok demo_wrapped) as Hp by by split.
  split; [exact Hok|]. split; [exact Hp|]. split; [reflexivity|].
  exact (recv_bf_in_ring demo_wrapped Hok Hp ltac:(reflexivity)).
Defined.

Lemma ud_batch_posts_all_witness :
  exists b s' evs,
    ud_batch_posts (batch_new demo_rq) [demo_req 0; demo_req 1] = Some b /\
    ud_batch_finish b 256 0 = Some (s', 256, evs) /\
    holds s' [demo_req 0; demo_req 1] /\ pi s' = 2 /\
    batch_events (pi s') [demo_req 0; demo_req 1] evs.
Proof.
  exact (ud_batch_posts_all demo_rq [] [demo_req 0; demo_req 1] 256 0 demo_rq_holds
    ltac:(discriminate) ltac:(cbn; lia) ltac:(cbn; lia) ltac:(lia)).
Defined.

Lemma rc_batch_leaves_ring_witness :
  exists b s' evs,
    rc_batch_posts (batch_new demo_rq) [demo_req 0] = Some b /\
    rc_batch_finish b 256 0 = Some (s', 256, evs) /\
    pi s' = 1 /\ batch_events (pi s') [demo_req 0] evs /\ ~ in_slot s' 0 (demo_req 0).
Proof.
  destruct (rc_batch_leaves_ring demo_rq [] [demo_req 0] 256 0 demo_rq_holds
    ltac:(discriminate) ltac:(cbn; lia) ltac:(cbn; lia) ltac:(lia))
    as (b & s' & evs & H1 & H2 & H3 & H4 & _ & H5).
  exists b, s', evs. split_and!; try done. apply (H5 0%nat); [done|]. vm_compute. discriminate.
Defined.

End RecvQueue.
