(* ===== verification/QueuePair.v ===== *)
(** * QueuePair: queue pairs, [mlx5/src/qp/mod.rs], [mlx5/src/ud/mod.rs] and
    [mlx5/src/dc/mod.rs]

    The reliable-connection, datagram and dynamically-connected queue pairs: the
    state machine their transitions drive through [ibv_modify_qp], the send
    queue's doorbells, and the completion handlers that hand an entry back.  The
    verbs library is a parameter; the software state is the device's as long as
    that library does what its manual says, and the attribute masks are those
    the manual requires. *)
From S2P Require Import Prelude SendQueue Wqe Emit Srq Cq RecvQueue.

Module QueuePair.
Import Wqe.

(** [QpState], [UdQpState] and [DcQpState] have the same constructors. *)
Inductive QpState : Type := Reset | Init | Rtr | Rts | Error.

#[global] Instance QpState_eq_dec : EqDecision QpState.
Proof. solve_decision. Defined.

(** ** Attributes *)

(** [ibv_qp_attr_mask]: the attributes the transitions name. *)
Inductive AttrMask : Type :=
  | IBV_QP_STATE | IBV_QP_PKEY_INDEX | IBV_QP_PORT | IBV_QP_ACCESS_FLAGS | IBV_QP_QKEY
  | IBV_QP_AV | IBV_QP_PATH_MTU | IBV_QP_DEST_QPN | IBV_QP_RQ_PSN | IBV_QP_MAX_DEST_RD_ATOMIC
  | IBV_QP_MIN_RNR_TIMER | IBV_QP_TIMEOUT | IBV_QP_RETRY_CNT | IBV_QP_RNR_RETRY | IBV_QP_SQ_PSN
  | IBV_QP_MAX_QP_RD_ATOMIC.

#[global] Instance AttrMask_eq_dec : EqDecision AttrMask.
Proof. solve_decision. Defined.

(** The fields of [ibv_qp_attr] the code sets; the others stay zero. *)
Record AhAttr : Type := mkAh { ah_dlid : Z; ah_is_global : Z; ah_port_num : Z; ah_grh : option GrhAttr }.

Record QpAttr : Type := mkAttr {
  qp_state : QpState;
  pkey_index : Z;
  port_num : Z;
  qp_access_flags : Z;
  attr_qkey : Z;
  path_mtu : Z;
  dest_qp_num : Z;
  rq_psn : Z;
  max_dest_rd_atomic : Z;
  min_rnr_timer : Z;
  ah_attr : AhAttr;
  timeout : Z;
  retry_cnt : Z;
  rnr_retry : Z;
  sq_psn : Z;
  max_rd_atomic : Z;
}.

Definition IBV_MTU_4096 : Z := 5.
Definition zero_ah : AhAttr := mkAh 0 0 0 None.

(** [struct IbRemoteQpInfo], [struct RoCERemoteQpInfo]. *)
Record IbRemoteQpInfo : Type := mkIbRemote {
  ib_qp_number : Z; ib_packet_sequence_number : Z; ib_local_identifier : Z }.
Record IbRemoteDctInfo : Type := mkIbRemoteDct {
  dct_number : Z; dct_key : Z; dct_local_identifier : Z }.
Record RoCERemoteQpInfo : Type := mkRoceRemote {
  roce_qp_number : Z; roce_packet_sequence_number : Z; roce_grh : GrhAttr }.

(** [io::Error]: a refused transition, or the library's return code. *)
Inductive QpError : Type := InvalidInput | OsError (code : Z) | NotInitialized | WouldBlock.

(** ** The send queue *)

(** [struct SendQueueState]: the emission context, and the BlueFlame register. *)
Record SendQueueState (E : Type) : Type := mkSqs {
  ctx : Emit.EmitContext E;
  bf_size : Z;
  bf_offset : Z;
}.
Arguments mkSqs {E} _ _ _.
Arguments ctx {E} _.
Arguments bf_size {E} _.
Arguments bf_offset {E} _.

Section SendQueue.
Context {E : Type}.
Implicit Types (q : SendQueueState E).

Definition sq_available q : Z := Emit.available (ctx q).

(** [last_wqe.take()], and the other half of the register next time. *)
Definition sq_rung q : SendQueueState E :=
  let c := ctx q in
  mkSqs (Emit.mkCtx (Emit.buf c) (Emit.wqe_cnt c) (Emit.sqn c) (Emit.pi c) (Emit.ci c) None
           (Emit.table c)) (bf_size q) (Z.lxor (bf_offset q) (bf_size q)).

Definition sq_ring_doorbell q : SendQueueState E * list RecvQueue.DevEvent :=
  match Emit.last_wqe (ctx q) with
  | None => (q, [])
  | Some (ptr, _) =>
      (sq_rung q,
       [RecvQueue.Flush; RecvQueue.Dbrec 1 (Emit.pi (ctx q)); RecvQueue.UdmaBarrier;
        RecvQueue.BfWrite (bf_offset q) (read_bytes (Emit.buf (ctx q)) (Z.to_nat ptr) 8);
        RecvQueue.Flush])
  end.

(** [None]: the copy loads outside the ring. *)
Definition sq_ring_doorbell_bf q : option (SendQueueState E * list RecvQueue.DevEvent) :=
  match Emit.last_wqe (ctx q) with
  | None => Some (q, [])
  | Some (ptr, wqe_size) =>
      let copy_size := Z.min wqe_size (bf_size q) in
      evs ← RecvQueue.bf_copy_all (Emit.buf (ctx q)) ptr (bf_offset q) copy_size;
      Some (sq_rung q,
            [RecvQueue.Flush; RecvQueue.Dbrec 1 (Emit.pi (ctx q)); RecvQueue.UdmaBarrier]
            ++ evs ++ [RecvQueue.Flush])
  end.

Definition sq_process_completion q (wqe_idx : Z) : SendQueueState E * option E :=
  let c := ctx q in
  let slot := Z.to_nat (Z.land wqe_idx (Emit.wqe_cnt c - 1)) in
  match default None (Emit.table c !! slot) with
  | Some (e, ci_delta) =>
      (mkSqs (Emit.mkCtx (Emit.buf c) (Emit.wqe_cnt c) (Emit.sqn c) (Emit.pi c) ci_delta
                (Emit.last_wqe c) (<[slot := None]> (Emit.table c))) (bf_size q) (bf_offset q),
       Some e)
  | None => (q, None)
  end.

End SendQueue.

(** ** The send-queue batch *)

(** [struct BlueframeBatch], over the send queue it borrows. *)
Record BlueframeBatch (E : Type) : Type := mkBfBatch {
  bb_qp : SendQueueState E;
  bb_buffer : list Z;
  bb_offset : Z;
  bb_wqe_count : Z;
}.
Arguments mkBfBatch {E} _ _ _ _.
Arguments bb_qp {E} _.
Arguments bb_buffer {E} _.
Arguments bb_offset {E} _.
Arguments bb_wqe_count {E} _.

Section Blueframe.
Context {E : Type}.
Implicit Types (b : BlueframeBatch E).

Definition bb_new (q : SendQueueState E) : result (BlueframeBatch E) SendQueue.SubmissionError :=
  if bf_size q =? 0 then Err SendQueue.BlueflameNotAvailable
  else Ok (mkBfBatch q (replicate 256 0) 0 0).

Definition bb_set_offset b (off : Z) : BlueframeBatch E :=
  mkBfBatch (bb_qp b) (bb_buffer b) off (bb_wqe_count b).
Definition bb_inc_wqe_count b : BlueframeBatch E :=
  mkBfBatch (bb_qp b) (bb_buffer b) (bb_offset b) (bb_wqe_count b + 1).
Definition bb_remaining b : Z := 256 - bb_offset b.

(** [finish]: one [mlx5_bf_copy!]. *)
Definition bb_finish b : SendQueueState E * list RecvQueue.DevEvent :=
  let q := bb_qp b in
  if bb_wqe_count b =? 0 then (q, [])
  else
    (mkSqs (ctx q) (bf_size q) (Z.lxor (bf_offset q) (bf_size q)),
     [RecvQueue.Flush; RecvQueue.Dbrec 1 (Emit.pi (ctx q)); RecvQueue.UdmaBarrier;
      RecvQueue.BfWrite (bf_offset q) (read_bytes (bb_buffer b) 0 64); RecvQueue.Flush]).

(** However many bytes were collected, the register gets the first 64 of them. *)
Lemma bb_finish_one_block b :
  length (bb_buffer b) = 256%nat -> 0 < bb_wqe_count b ->
  length (RecvQueue.bf_bytes (bb_finish b).2) = 64%nat.
Proof.
  intros Hl Hc. unfold bb_finish. rewrite (proj2 (Z.eqb_neq _ _)) by lia.
  cbn [snd RecvQueue.bf_bytes]. rewrite app_nil_r, length_read_bytes; lia.
Qed.

End Blueframe.

(** ** The queue pair *)

(** [OwnedRq] and [UdOwnedRq]; a shared receive queue lives beside the queue pairs
    that use it, [SharedRq] and [UdSharedRq] name it. *)
Definition OwnedRq (E : Type) : Type := option (RecvQueue.RecvQueueState E).
Record SharedRq : Type := mkShared { srq_id : Z }.

(** [struct RcQp], [struct UdQp], [struct Dci] and [struct Dct], over the type [R] of
    their receive side: [dev] is the device's object behind [qp], [qkey] the
    datagram key of a [UdQp] and the access key of a [Dct]. *)
Record Qp (D E R : Type) : Type := mkQp {
  dev : D;
  qpn : Z;
  qkey : Z;
  state : QpState;
  sq : option (SendQueueState E);
  rq : R;
}.
Arguments mkQp {D E R} _ _ _ _ _ _.
Arguments dev {D E R} _.
Arguments qpn {D E R} _.
Arguments qkey {D E R} _.
Arguments state {D E R} _.
Arguments sq {D E R} _.
Arguments rq {D E R} _.

Section Transitions.
Context {D E R : Type} (modify_qp : D -> QpAttr -> list AttrMask -> D * Z).
Local Open Scope prog_scope.
Notation QpM := (M (Qp D E R) QpError unit).

Definition set_dev (q : Qp D E R) (d : D) (st : QpState) : Qp D E R :=
  mkQp d (qpn q) (qkey q) st (sq q) (rq q).

(** [ibv_modify_qp], then the new state. *)
Definition modify (attr : QpAttr) (mask : list AttrMask) : QpM :=
  let* q := p_get in
  let '(d, ret) := modify_qp (dev q) attr mask in
  if ret =? 0 then p_modify (fun q => set_dev q d (qp_state attr))
  else p_modify (fun q => set_dev q d (state q)) ;;; p_fail (OsError ret).

(** The guard of a transition. *)
Definition require (st : QpState) : QpM :=
  let* q := p_get in if decide (state q = st) then p_ret tt else p_fail InvalidInput.

(** *** Reliable connections *)

Definition rc_modify_to_init (port access_flags : Z) : QpM :=
  require Reset ;;;
  modify (mkAttr Init 0 port access_flags 0 0 0 0 0 0 zero_ah 0 0 0 0 0)
    [IBV_QP_STATE; IBV_QP_PKEY_INDEX; IBV_QP_PORT; IBV_QP_ACCESS_FLAGS].

Definition rc_modify_to_rts (local_psn max_rd_atomic : Z) : QpM :=
  require Rtr ;;;
  modify (mkAttr Rts 0 0 0 0 0 0 0 0 0 zero_ah 14 7 7 local_psn max_rd_atomic)
    [IBV_QP_STATE; IBV_QP_TIMEOUT; IBV_QP_RETRY_CNT; IBV_QP_RNR_RETRY; IBV_QP_SQ_PSN;
     IBV_QP_MAX_QP_RD_ATOMIC].

(** No guard: from any state. *)
Definition rc_modify_to_error : QpM :=
  modify (mkAttr Error 0 0 0 0 0 0 0 0 0 zero_ah 0 0 0 0 0) [IBV_QP_STATE].

Definition rtr_mask : list AttrMask :=
  [IBV_QP_STATE; IBV_QP_AV; IBV_QP_PATH_MTU; IBV_QP_DEST_QPN; IBV_QP_RQ_PSN;
   IBV_QP_MAX_DEST_RD_ATOMIC; IBV_QP_MIN_RNR_TIMER].

Definition rc_modify_to_rtr_ib (remote : IbRemoteQpInfo) (port max_dest_rd_atomic : Z) : QpM :=
  require Init ;;;
  modify (mkAttr Rtr 0 0 0 0 IBV_MTU_4096 (ib_qp_number remote) (ib_packet_sequence_number remote)
            max_dest_rd_atomic 12 (mkAh (ib_local_identifier remote) 0 port None) 0 0 0 0 0)
    rtr_mask.

Definition rc_modify_to_rtr_roce (remote : RoCERemoteQpInfo) (port max_dest_rd_atomic : Z) : QpM :=
  require Init ;;;
  modify (mkAttr Rtr 0 0 0 0 IBV_MTU_4096 (roce_qp_number remote)
            (roce_packet_sequence_number remote) max_dest_rd_atomic 12
            (mkAh 0 1 port (Some (roce_grh remote))) 0 0 0 0 0)
    rtr_mask.

Definition rc_connect_ib (remote : IbRemoteQpInfo)
    (port local_psn max_rd_atomic max_dest_rd_atomic access_flags : Z) : QpM :=
  rc_modify_to_init port access_flags ;;;
  rc_modify_to_rtr_ib remote port max_dest_rd_atomic ;;;
  rc_modify_to_rts local_psn max_rd_atomic.

Definition rc_connect_roce (remote : RoCERemoteQpInfo)
    (port local_psn max_rd_atomic max_dest_rd_atomic access_flags : Z) : QpM :=
  rc_modify_to_init port access_flags ;;;
  rc_modify_to_rtr_roce remote port max_dest_rd_atomic ;;;
  rc_modify_to_rts local_psn max_rd_atomic.

(** *** Datagrams *)

Definition ud_modify_to_init (port pkey : Z) : QpM :=
  require Reset ;;;
  let* q := p_get in
  modify (mkAttr Init pkey port 0 (qkey q) 0 0 0 0 0 zero_ah 0 0 0 0 0)
    [IBV_QP_STATE; IBV_QP_PKEY_INDEX; IBV_QP_PORT; IBV_QP_QKEY].

Definition ud_modify_to_rtr : QpM :=
  require Init ;;;
  modify (mkAttr Rtr 0 0 0 0 0 0 0 0 0 zero_ah 0 0 0 0 0) [IBV_QP_STATE].

Definition ud_modify_to_rts (psn : Z) : QpM :=
  require Rtr ;;;
  modify (mkAttr Rts 0 0 0 0 0 0 0 0 0 zero_ah 0 0 0 psn 0) [IBV_QP_STATE; IBV_QP_SQ_PSN].

Definition ud_activate (port psn : Z) : QpM :=
  ud_modify_to_init port 0 ;;; ud_modify_to_rtr ;;; ud_modify_to_rts psn.

(** The copy for a queue pair with a shared receive queue. *)
Definition ud_srq_activate : Z -> Z -> QpM := ud_activate.

(** *** Dynamically connected initiators and targets *)

Definition dci_modify_to_init (port : Z) : QpM :=
  require Reset ;;;
  modify (mkAttr Init 0 port 0 0 0 0 0 0 0 zero_ah 0 0 0 0 0)
    [IBV_QP_STATE; IBV_QP_PKEY_INDEX; IBV_QP_PORT].

Definition dci_modify_to_rtr (port : Z) : QpM :=
  require Init ;;;
  modify (mkAttr Rtr 0 0 0 0 IBV_MTU_4096 0 0 0 0 (mkAh 0 0 port None) 0 0 0 0 0)
    [IBV_QP_STATE; IBV_QP_PATH_MTU; IBV_QP_AV].

Definition dci_modify_to_rts (local_psn max_rd_atomic : Z) : QpM :=
  require Rtr ;;;
  modify (mkAttr Rts 0 0 0 0 0 0 0 0 0 zero_ah 14 7 7 local_psn max_rd_atomic)
    [IBV_QP_STATE; IBV_QP_TIMEOUT; IBV_QP_RETRY_CNT; IBV_QP_RNR_RETRY; IBV_QP_SQ_PSN;
     IBV_QP_MAX_QP_RD_ATOMIC].

Definition dci_activate (port local_psn max_rd_atomic : Z) : QpM :=
  dci_modify_to_init port ;;; dci_modify_to_rtr port ;;; dci_modify_to_rts local_psn max_rd_atomic.

Definition dct_modify_to_init (port access_flags : Z) : QpM :=
  require Reset ;;;
  modify (mkAttr Init 0 port access_flags 0 0 0 0 0 0 zero_ah 0 0 0 0 0)
    [IBV_QP_STATE; IBV_QP_PKEY_INDEX; IBV_QP_PORT; IBV_QP_ACCESS_FLAGS].

Definition dct_modify_to_rtr (port rnr_timer : Z) : QpM :=
  require Init ;;;
  modify (mkAttr Rtr 0 0 0 0 IBV_MTU_4096 0 0 0 rnr_timer (mkAh 0 0 port None) 0 0 0 0 0)
    [IBV_QP_STATE; IBV_QP_PATH_MTU; IBV_QP_MIN_RNR_TIMER; IBV_QP_AV].

(** A target needs no ready-to-send state. *)
Definition dct_activate (port access_flags rnr_timer : Z) : QpM :=
  dct_modify_to_init port access_flags ;;; dct_modify_to_rtr port rnr_timer.

End Transitions.

(** ** Direct access *)

(** What [mlx5dv_init_obj] fills in: the rings with their geometry. *)
Record DvQp : Type := mkDv {
  dv_sq_buf : list Z; dv_sq_wqe_cnt : Z; dv_sq_stride : Z;
  dv_rq_buf : list Z; dv_rq_wqe_cnt : Z; dv_rq_stride : Z;
  dv_bf_size : Z; dv_sqn : Z;
}.

(** [struct QpInfo]. *)
Record QpInfo : Type := mkInfo {
  sq_buf : list Z; sq_wqe_cnt : Z; sq_stride : Z;
  rq_buf : list Z; rq_wqe_cnt : Z; rq_stride : Z;
  info_bf_size : Z; sqn : Z;
}.

(** ** Address segments *)

(** [struct AddressHandle] of [pd.rs], and [UdAddressSeg]. *)
Record AddressHandle : Type := mkAddressHandle { h_qpn : Z; h_qkey : Z; h_dlid : Z }.

Definition UD_ADDRESS_SEG_SIZE : Z := 48.

Definition ud_address_seg_write_raw (remote_qpn qkey dlid : Z) : list Z :=
  let dqp := Z.lor (Z.land remote_qpn 16777215) 2147483648 in
  be_bytes 4 qkey ++ be_bytes 4 0 ++ be_bytes 4 dqp ++ [0] ++ [0] ++ be_bytes 2 dlid
    ++ replicate 32 0.

Definition ud_address_seg_write (ah : AddressHandle) (qkey : Z) : list Z :=
  let dqp := Z.lor (Z.land (h_qpn ah) 16777215) 2147483648 in
  be_bytes 4 qkey ++ be_bytes 4 0 ++ be_bytes 4 dqp ++ [0] ++ [0] ++ be_bytes 2 (h_dlid ah)
    ++ replicate 32 0.

(** Both are the address vector the emission macros write. *)
Lemma ud_address_seg_same ah key :
  ud_address_seg_write ah key = ud_address_seg_write_raw (h_qpn ah) key (h_dlid ah) /\
  ud_address_seg_write ah key = write_ud_address_vector_ib (mkUdAv (h_qpn ah) key (h_dlid ah)) /\
  length (ud_address_seg_write ah key) = Z.to_nat UD_ADDRESS_SEG_SIZE.
Proof. done. Qed.

Section Access.
Context {D E F : Type} (init_obj : D -> Z * DvQp).

Definition query_info {R} (q : Qp D E R) : result QpInfo QpError :=
  let '(ret, dv) := init_obj (dev q) in
  if negb (ret =? 0) then Err (OsError (- ret))
  else Ok (mkInfo (dv_sq_buf dv) (dv_sq_wqe_cnt dv) (dv_sq_stride dv) (dv_rq_buf dv)
             (dv_rq_wqe_cnt dv) (dv_rq_stride dv) (dv_bf_size dv)
             (if negb (dv_sqn dv =? 0) then dv_sqn dv else qpn q)).

(** [UdQp::query_info] and [Dci::query_info]; the former does not ask for the send
    queue's own number, which is then the device's choice. *)
Definition ud_query_info {R} : Qp D E R -> result QpInfo QpError := query_info.
Definition dci_query_info : Qp D E unit -> result QpInfo QpError := query_info.

(** The fresh send queue of every [init_direct_access_internal]. *)
Definition new_sq (i : QpInfo) : SendQueueState E :=
  let wqe_cnt := u16 (sq_wqe_cnt i) in
  mkSqs (Emit.mkCtx (sq_buf i) wqe_cnt (sqn i) 0 0 None (replicate (Z.to_nat wqe_cnt) None))
    (info_bf_size i) 0.

(** [RcQpIb] and [RcQpRoCE]. *)
Definition rc_init_direct_access (q : Qp D E (OwnedRq F))
    : Qp D E (OwnedRq F) * result unit QpError :=
  match sq q with
  | Some _ => (q, Ok tt)
  | None =>
      match query_info q with
      | Err e => (q, Err e)
      | Ok i =>
          (mkQp (dev q) (qpn q) (qkey q) (state q) (Some (new_sq i))
             (Some (RecvQueue.rq_init (rq_buf i) (rq_wqe_cnt i) (rq_stride i) (info_bf_size i))),
           Ok tt)
      end
  end.

(** [UdQpIb] and [UdQpRoCE]: the number of receive slots is kept in 16 bits. *)
Definition ud_init_direct_access (q : Qp D E (OwnedRq F))
    : Qp D E (OwnedRq F) * result unit QpError :=
  match sq q with
  | Some _ => (q, Ok tt)
  | None =>
      match query_info q with
      | Err e => (q, Err e)
      | Ok i =>
          (mkQp (dev q) (qpn q) (qkey q) (state q) (Some (new_sq i))
             (Some (RecvQueue.rq_init (rq_buf i) (u16 (rq_wqe_cnt i)) (rq_stride i)
                      (info_bf_size i))),
           Ok tt)
      end
  end.

(** The implementations for RoCE repeat those for InfiniBand. *)
Definition rc_roce_init_direct_access := rc_init_direct_access.
Definition ud_roce_init_direct_access := ud_init_direct_access.

(** The variants with a shared receive queue, and the initiator: send queue only. *)
Definition sq_init_direct_access {R} (q : Qp D E R) : Qp D E R * result unit QpError :=
  match sq q with
  | Some _ => (q, Ok tt)
  | None =>
      match query_info q with
      | Err e => (q, Err e)
      | Ok i => (mkQp (dev q) (qpn q) (qkey q) (state q) (Some (new_sq i)) (rq q), Ok tt)
      end
  end.

Definition rc_roce_srq_init_direct_access : Qp D E SharedRq -> _ := sq_init_direct_access.
Definition ud_srq_init_direct_access : Qp D E SharedRq -> _ := sq_init_direct_access.
Definition ud_roce_srq_init_direct_access : Qp D E SharedRq -> _ := sq_init_direct_access.
Definition dci_init_direct_access : Qp D E unit -> _ := sq_init_direct_access.

End Access.

(** ** Operations of an open queue pair *)

Section Operations.
Context {D E F : Type}.

Definition set_sq {R} (q : Qp D E R) (s : SendQueueState E) : Qp D E R :=
  mkQp (dev q) (qpn q) (qkey q) (state q) (Some s) (rq q).
Definition set_rq (q : Qp D E (OwnedRq F)) (r : RecvQueue.RecvQueueState F) : Qp D E (OwnedRq F) :=
  mkQp (dev q) (qpn q) (qkey q) (state q) (sq q) (Some r).

Definition send_queue_available {R} (q : Qp D E R) : Z :=
  match sq q with Some s => sq_available s | None => 0 end.

Definition ring_sq_doorbell {R} (q : Qp D E R) : Qp D E R * list RecvQueue.DevEvent :=
  match sq q with
  | Some s => let '(s, evs) := sq_ring_doorbell s in (set_sq q s, evs)
  | None => (q, [])
  end.

Definition ring_sq_doorbell_bf {R} (q : Qp D E R) : option (Qp D E R * list RecvQueue.DevEvent) :=
  match sq q with
  | Some s => '(s, evs) ← sq_ring_doorbell_bf s; Some (set_sq q s, evs)
  | None => Some (q, [])
  end.

Definition ring_rq_doorbell (k : RecvQueue.RqKind) (q : Qp D E (OwnedRq F))
    : Qp D E (OwnedRq F) * list RecvQueue.DevEvent :=
  match rq q with
  | Some r => let '(r, evs) := RecvQueue.ring_doorbell k r in (set_rq q r, evs)
  | None => (q, [])
  end.

Definition ring_rq_doorbell_bf (q : Qp D E (OwnedRq F))
    : option (Qp D E (OwnedRq F) * list RecvQueue.DevEvent) :=
  match rq q with
  | Some r => '(r, evs) ← RecvQueue.ring_doorbell_bf r; Some (set_rq q r, evs)
  | None => Some (q, [])
  end.

Definition qp_post_recv (k : RecvQueue.RqKind) (q : Qp D E (OwnedRq F)) (entry : F)
    (addr len lkey : Z) : Qp D E (OwnedRq F) * result unit QpError :=
  match rq q with
  | None => (q, Err NotInitialized)
  | Some r =>
      match RecvQueue.post_recv k r entry addr len lkey with
      | (r, Ok _) => (set_rq q r, Ok tt)
      | (_, Err _) => (q, Err WouldBlock)
      end
  end.

Definition qp_blueflame_rq_batch (q : Qp D E (OwnedRq F))
    : result (RecvQueue.Batch F) SendQueue.SubmissionError :=
  match rq q, sq q with
  | None, _ => Err SendQueue.RqFull
  | Some _, None => Err SendQueue.BlueflameNotAvailable
  | Some r, Some s =>
      if bf_size s =? 0 then Err SendQueue.BlueflameNotAvailable else Ok (RecvQueue.batch_new r)
  end.

(** The datagram queue pair's own copies. *)
Definition ud_ring_rq_doorbell := ring_rq_doorbell RecvQueue.Ud.
Definition ud_ring_rq_doorbell_bf := ring_rq_doorbell_bf.
Definition ud_qp_post_recv := qp_post_recv RecvQueue.Ud.
Definition ud_blueflame_rq_batch := qp_blueflame_rq_batch.
Definition ud_ring_sq_doorbell : Qp D E (OwnedRq F) -> _ := ring_sq_doorbell.
Definition ud_ring_sq_doorbell_bf : Qp D E (OwnedRq F) -> _ := ring_sq_doorbell_bf.

(** And the initiator's. *)
Definition dci_sq_available : Qp D E unit -> Z := send_queue_available.
Definition dci_ring_sq_doorbell : Qp D E unit -> _ := ring_sq_doorbell.
Definition dci_ring_sq_doorbell_bf : Qp D E unit -> _ := ring_sq_doorbell_bf.

(** [RcQp::emit_ctx] and [Dci::emit_ctx]. *)
Definition emit_ctx {R} (q : Qp D E R) : result (Emit.EmitContext E) QpError :=
  match sq q with Some s => Ok (ctx s) | None => Err NotInitialized end.

Definition dci_emit_ctx : Qp D E unit -> _ := emit_ctx.

(** [UdQp::emit_ctx] refuses a full queue. *)
Definition ud_emit_ctx {R} (q : Qp D E R) : result (Emit.EmitContext E) QpError :=
  match sq q with
  | Some s => if sq_available s =? 0 then Err WouldBlock else Ok (ctx s)
  | None => Err NotInitialized
  end.

Definition ud_srq_emit_ctx : Qp D E SharedRq -> _ := ud_emit_ctx.

(** ** Completions *)

(** A callback of the queue pair: on its send or its receive side. *)
Inductive Callback : Type :=
  | SqCallback (c : Cq.Cqe) (e : E)
  | RqCallback (c : Cq.Cqe) (e : F).

Definition complete_sq {R} (q : Qp D E R) (c : Cq.Cqe) : Qp D E R * option E :=
  match sq q with
  | Some s => let '(s, e) := sq_process_completion s (Cq.wqe_counter c) in (set_sq q s, e)
  | None => (q, None)
  end.

Definition complete_rq (q : Qp D E (OwnedRq F)) (c : Cq.Cqe) : Qp D E (OwnedRq F) * option F :=
  match rq q with
  | Some r => let '(r, e) := RecvQueue.process_completion r (Cq.wqe_counter c) in (set_rq q r, e)
  | None => (q, None)
  end.

(** [dispatch_cqe] of [RcQpIb], [RcQpRoCE], [UdQpIb] and [UdQpRoCE]. *)
Definition dispatch_cqe (q : Qp D E (OwnedRq F)) (c : Cq.Cqe)
    : Qp D E (OwnedRq F) * option Callback :=
  if Cq.is_responder (Cq.opcode c)
  then let '(q, e) := complete_rq q c in (q, RqCallback c <$> e)
  else let '(q, e) := complete_sq q c in (q, SqCallback c <$> e).

(** The same handler, written out for each type. *)
Definition rc_roce_dispatch_cqe := dispatch_cqe.
Definition ud_dispatch_cqe := dispatch_cqe.
Definition ud_roce_dispatch_cqe := dispatch_cqe.

(** [Srq::process_recv_completion]: nothing before direct access is set up. *)
Definition process_recv_completion (s : option (Srq.SrqState F)) (wqe_idx : Z)
    : option (Srq.SrqState F) * option F :=
  match s with
  | Some s => let '(s, e) := Srq.process_completion s in (Some s, e)
  | None => (None, None)
  end.

(** The variants with a shared receive queue: [RcQpIbWithSrq], [RcQpRoCEWithSrq],
    [UdQpIbWithSrq] and [UdQpRoCEWithSrq]. *)
Definition srq_dispatch_cqe (q : Qp D E SharedRq) (srq : option (Srq.SrqState F)) (c : Cq.Cqe)
    : Qp D E SharedRq * option (Srq.SrqState F) * option Callback :=
  if Cq.is_responder (Cq.opcode c)
  then let '(srq, e) := process_recv_completion srq (Cq.wqe_counter c) in
       (q, srq, RqCallback c <$> e)
  else let '(q, e) := complete_sq q c in (q, srq, SqCallback c <$> e).

Definition rc_roce_srq_dispatch_cqe := srq_dispatch_cqe.
Definition ud_srq_dispatch_cqe := srq_dispatch_cqe.
Definition ud_roce_srq_dispatch_cqe := srq_dispatch_cqe.

(** [Dct::process_recv_completion] and [Dct::remote_info]; the key is the target's. *)
Definition dct_process_recv_completion := process_recv_completion.
Definition dct_remote_info (q : Qp D E SharedRq) (lid : Z) : IbRemoteDctInfo :=
  mkIbRemoteDct (qpn q) (qkey q) lid.

(** [RcQpForMonoCqWithSrq] on a normal queue: the send side only, no callback. *)
Definition mono_srq_dispatch_cqe (q : Qp D E SharedRq) (c : Cq.Cqe) : Qp D E SharedRq :=
  if negb (Cq.is_responder (Cq.opcode c)) then (complete_sq q c).1 else q.

(** [RcQpForMonoCqWithSrqAndSqCb] and [UdQpForMonoCqWithSqCb]. *)
Definition hybrid_dispatch_cqe {R} (q : Qp D E R) (c : Cq.Cqe) : Qp D E R * option Callback :=
  if negb (Cq.is_responder (Cq.opcode c))
  then let '(q, e) := complete_sq q c in (q, SqCallback c <$> e)
  else (q, None).

Definition ud_hybrid_dispatch_cqe : Qp D E (OwnedRq F) -> _ := hybrid_dispatch_cqe.

(** [DciWithTable]: every completion is one of the send queue. *)
Definition dci_dispatch_cqe {R} (q : Qp D E R) (c : Cq.Cqe) : Qp D E R * option Callback :=
  let '(q, e) := complete_sq q c in (q, SqCallback c <$> e).

End Operations.
Arguments Callback : clear implicits.

(** *** [CompletionSource::process_cqe], for the monomorphic queue *)

Section Source.
Context {D E : Type}.

(** [RcQpForMonoCq] and [UdQpForMonoCqWithSqCb]. *)
Definition process_cqe (q : Qp D E (OwnedRq E)) (c : Cq.Cqe) : Qp D E (OwnedRq E) * option E :=
  if Cq.is_responder (Cq.opcode c) then complete_rq q c else complete_sq q c.

Definition ud_process_cqe := process_cqe.

(** [RcQpForMonoCqWithSrqAndSqCb]. *)
Definition srq_process_cqe (q : Qp D E SharedRq) (srq : option (Srq.SrqState E)) (c : Cq.Cqe)
    : Qp D E SharedRq * option (Srq.SrqState E) * option E :=
  if Cq.is_responder (Cq.opcode c)
  then let '(srq, e) := process_recv_completion srq (Cq.wqe_counter c) in (q, srq, e)
  else let '(q, e) := complete_sq q c in (q, srq, e).

(** [DciForMonoCq]. *)
Definition dci_process_cqe {R} (q : Qp D E R) (c : Cq.Cqe) : Qp D E R * option E := complete_sq q c.

End Source.
End QueuePair.
