(* ===== verification/QpProps.v ===== *)
(** * QpProps: the queue pair's state machine and its doorbells

    The software state follows the device's over every sequence of transitions,
    along the edges RESET, INIT, RTR, RTS and to ERROR; a connection attempt that
    fails half-way cannot be repeated; the attribute masks are the ones the
    manual requires and both ends of a connection agree; and the send queue's
    BlueFlame copy is the request emitted last. *)
From S2P Require Import Prelude SendQueue Wqe Emit RecvQueue QueuePair.

Module QpProps.
Import Wqe QueuePair.
#[local] Open Scope prog_scope.

(** What the manual of [ibv_modify_qp] promises: a successful call moves the queue
    pair to the state it names, a failed one modifies nothing. *)
Class VerbsLaws {D : Type} (modify_qp : D -> QpAttr -> list AttrMask -> D * Z)
    (dev_state : D -> QpState) : Prop := {
  modify_success : forall d a m,
    (modify_qp d a m).2 = 0 -> IBV_QP_STATE ∈ m -> dev_state (modify_qp d a m).1 = qp_state a;
  modify_failure : forall d a m,
    (modify_qp d a m).2 <> 0 -> dev_state (modify_qp d a m).1 = dev_state d;
}.

(** The edges of the state machine. *)
Inductive edge : QpState -> QpState -> Prop :=
  | edge_init : edge Reset Init
  | edge_rtr : edge Init Rtr
  | edge_rts : edge Rtr Rts
  | edge_error st : edge st Error.

(** ** Transitions *)

Section Machine.
Context {D E R : Type} (modify_qp : D -> QpAttr -> list AttrMask -> D * Z) (dev_state : D -> QpState).
Context `{!VerbsLaws modify_qp dev_state}.
Implicit Types (q : Qp D E R).

Definition in_step q : Prop := state q = dev_state (dev q).

(** What a transition may do: follow edges, with the device, and touch nothing else. *)
Record moves q q' : Prop := mkMoves {
  mv_step : in_step q -> in_step q';
  mv_edges : rtc edge (state q) (state q');
  mv_rest : sq q' = sq q /\ rq q' = rq q /\ qpn q' = qpn q /\ qkey q' = qkey q;
}.

#[export] Instance moves_preorder : PreOrder moves.
Proof.
  split.
  - by intros q; split.
  - intros q1 q2 q3 [H1 H2 (H3 & H4 & H5 & H6)] [G1 G2 (G3 & G4 & G5 & G6)].
    split; [by auto|by etrans|]. by rewrite G3, G4, G5, G6.
Qed.

Lemma modify_moves q attr mask q' r :
  edge (state q) (qp_state attr) -> IBV_QP_STATE ∈ mask ->
  modify modify_qp attr mask q = Some (q', r) -> moves q q'.
Proof.
  intros He Hm. unfold modify, p_bind, p_get. 
  pose proof (modify_success (dev q) attr mask) as Hs.
  pose proof (modify_failure (dev q) attr mask) as Hf.
  destruct (modify_qp (dev q) attr mask) as [d ret]. cbn [fst snd] in *.
  destruct (ret =? 0) eqn:E0; guards; unfold p_modify, p_fail; intros [= <- <-].
  - split; cbn; [by intros _; unfold in_step; cbn; rewrite Hs|by apply rtc_once|done].
  - split; cbn; [unfold in_step; cbn; by rewrite Hf|done|done].
Qed.

Lemma require_moves st (m : M (Qp D E R) QpError unit) :
  (forall q q' r, state q = st -> m q = Some (q', r) -> moves q q') ->
  respects moves (require st ;;; m).
Proof.
  intros H q q' r. unfold require, p_bind, p_get. case_decide as Hd; cbn.
  - by apply H.
  - intros [= <- <-]. reflexivity.
Qed.

(** Every transition the queue pairs offer. *)
Inductive Transition : Type :=
  | TRcInit (port access : Z)
  | TRcRtrIb (remote : IbRemoteQpInfo) (port max_dest : Z)
  | TRcRtrRoce (remote : RoCERemoteQpInfo) (port max_dest : Z)
  | TRcRts (psn max_rd : Z)
  | TRcError
  | TRcConnectIb (remote : IbRemoteQpInfo) (port psn max_rd max_dest access : Z)
  | TRcConnectRoce (remote : RoCERemoteQpInfo) (port psn max_rd max_dest access : Z)
  | TUdInit (port pkey : Z) | TUdRtr | TUdRts (psn : Z) | TUdActivate (port psn : Z)
  | TDciInit (port : Z) | TDciRtr (port : Z) | TDciRts (psn max_rd : Z)
  | TDciActivate (port psn max_rd : Z)
  | TDctInit (port access : Z) | TDctRtr (port rnr : Z) | TDctActivate (port access rnr : Z).

Definition do_transition (t : Transition) : M (Qp D E R) QpError unit :=
  match t with
  | TRcInit p a => rc_modify_to_init modify_qp p a
  | TRcRtrIb r p m => rc_modify_to_rtr_ib modify_qp r p m
  | TRcRtrRoce r p m => rc_modify_to_rtr_roce modify_qp r p m
  | TRcRts p m => rc_modify_to_rts modify_qp p m
  | TRcError => rc_modify_to_error modify_qp
  | TRcConnectIb r p n m d a => rc_connect_ib modify_qp r p n m d a
  | TRcConnectRoce r p n m d a => rc_connect_roce modify_qp r p n m d a
  | TUdInit p k => ud_modify_to_init modify_qp p k
  | TUdRtr => ud_modify_to_rtr modify_qp
  | TUdRts n => ud_modify_to_rts modify_qp n
  | TUdActivate p n => ud_activate modify_qp p n
  | TDciInit p => dci_modify_to_init modify_qp p
  | TDciRtr p => dci_modify_to_rtr modify_qp p
  | TDciRts n m => dci_modify_to_rts modify_qp n m
  | TDciActivate p n m => dci_activate modify_qp p n m
  | TDctInit p a => dct_modify_to_init modify_qp p a
  | TDctRtr p r => dct_modify_to_rtr modify_qp p r
  | TDctActivate p a r => dct_activate modify_qp p a r
  end.

(** Decompose a transition into guarded steps: each edge leaves the required state
    and the mask names the state. *)
Ltac head_of t := lazymatch t with ?f _ => head_of f | _ => t end.
Ltac guarded Hq Hst :=
  eapply modify_moves; [| |exact Hq]; [rewrite ?Hst; constructor|apply elem_of_cons; by left].
Ltac transition :=
  lazymatch goal with
  | |- respects _ (p_bind (require _) _) =>
      apply require_moves; let Hst := fresh in let Hq := fresh in intros q q' r Hst Hq; guarded Hq Hst
  | |- respects _ (p_bind _ _) => apply respects_bind; [apply _|transition|intros _; transition]
  | |- respects _ (modify _ _ _) => let Hq := fresh in intros q q' r Hq; guarded Hq Hq
  | |- respects _ ?m => let h := head_of m in unfold h; transition
  end.

Lemma do_transition_moves t : respects moves (do_transition t).
Proof. destruct t; cbn [do_transition]; transition. Qed.

(** A program that applies transitions one after the other, whatever they return. *)
Fixpoint do_transitions (ts : list Transition) q : option (Qp D E R) :=
  match ts with
  | [] => Some q
  | t :: ts => '(q, _) ← do_transition t q; do_transitions ts q
  end.

(** No transition panics. *)
Definition total (m : M (Qp D E R) QpError unit) : Prop := forall q, is_Some (m q).

Lemma total_bind m k : total m -> (forall a, total (k a)) -> total (p_bind m k).
Proof.
  intros Hm Hk q. unfold p_bind. destruct (Hm q) as [[q1 [a|e]] ->]; [apply Hk|by eexists].
Qed.

Lemma total_require st : total (require st).
Proof. intros q. unfold require, p_bind, p_get. case_decide; by eexists. Qed.

Lemma total_modify attr mask : total (modify modify_qp attr mask).
Proof.
  intros q. unfold modify, p_bind, p_get. destruct (modify_qp (dev q) attr mask) as [d ret].
  by destruct (ret =? 0); eexists.
Qed.

Lemma total_get (k : Qp D E R -> M (Qp D E R) QpError unit) :
  (forall q, total (k q)) -> total (p_bind p_get k).
Proof. intros Hk q. apply (Hk q q). Qed.

Ltac totality :=
  lazymatch goal with
  | |- total (p_bind p_get _) => apply total_get; intros ?; totality
  | |- total (p_bind _ _) => apply total_bind; [totality|intros _; totality]
  | |- total (require _) => apply total_require
  | |- total (modify _ _ _) => apply total_modify
  | |- total ?m => let h := head_of m in unfold h; totality
  end.

Lemma do_transition_total t : total (do_transition t).
Proof. destruct t; cbn [do_transition]; totality. Qed.

(** C15: The software state of a queue pair is the device's.  Whatever transitions
    are applied to a reliable-connection, datagram or dynamically-connected queue
    pair, in whatever order and whether they succeed or fail, the run goes through
    and the state the program keeps is the one the device is in, as long as
    [ibv_modify_qp] does what its manual says; the states visited follow RESET,
    INIT, RTR, RTS and the step to ERROR, and the queues, the number and the key are
    untouched. *)
Theorem qp_lifecycle ts q :
  in_step q ->
  exists q', do_transitions ts q = Some q' /\ in_step q' /\ rtc edge (state q) (state q') /\
    sq q' = sq q /\ rq q' = rq q /\ qpn q' = qpn q /\ qkey q' = qkey q.
Proof.
  intros Hq. cut (exists q', do_transitions ts q = Some q' /\ moves q q').
  { intros (q' & E1 & [H1 H2 H3]). by exists q'; auto. }
  clear Hq. revert q. induction ts as [|t ts IH]; intros q; cbn; [by exists q|].
  destruct (do_transition_total t q) as [[q1 r] E1]. rewrite E1. cbn.
  destruct (IH q1) as (q' & E2 & H2). exists q'. split; [done|].
  etrans; [by eapply do_transition_moves|done].
Qed.

(** ** Connecting *)

Lemma require_ok st q : state q = st -> require st q = Some (q, Ok tt).
Proof. intros. unfold require, p_bind, p_get. by rewrite decide_True. Qed.

Lemma require_fail st q : state q <> st -> require st q = Some (q, Err InvalidInput).
Proof. intros. unfold require, p_bind, p_get. by rewrite decide_False. Qed.

(** One guarded step from its state: the new state, or the library's code. *)
Lemma guarded_step st attr mask q :
  state q = st ->
  exists q', qpn q' = qpn q /\
    ((state q' = qp_state attr /\ (require st ;;; modify modify_qp attr mask) q = Some (q', Ok tt)) \/
     (state q' = st /\ exists code, code <> 0 /\
        (require st ;;; modify modify_qp attr mask) q = Some (q', Err (OsError code)))).
Proof.
  intros Hst. unfold p_bind at 1 2. rewrite require_ok by done.
  unfold modify, p_bind, p_get. destruct (modify_qp (dev q) attr mask) as [d ret].
  destruct (ret =? 0) eqn:E0; guards; cbn.
  - exists (set_dev q d (qp_state attr)). split; [done|]. by left.
  - exists (set_dev q d (state q)). split; [done|]. right. split; [done|]. by exists ret.
Qed.

Lemma connect_refused remote port psn rd dest flags q :
  state q <> Reset -> rc_connect_ib modify_qp remote port psn rd dest flags q = Some (q, Err InvalidInput).
Proof.
  intros H. unfold rc_connect_ib, rc_modify_to_init, p_bind at 1 2. by rewrite require_fail.
Qed.

(** Connecting is all or nothing only from the caller's point of view.  A
    connection attempt on a fresh queue pair either reaches RTS, or returns the code
    of the first call that failed, with the queue pair left in the state before that
    call; if that is not RESET any more, every later attempt - whatever its
    arguments - is refused and changes nothing, and so is an attempt on a queue pair
    that was not fresh to begin with. *)
Theorem connect_once remote port psn rd dest flags q :
  match rc_connect_ib modify_qp remote port psn rd dest flags q with
  | Some (q', Ok _) => state q = Reset /\ state q' = Rts
  | Some (q', Err (OsError code)) =>
      code <> 0 /\ state q = Reset /\ (state q' = Reset \/ state q' = Init \/ state q' = Rtr) /\
      forall remote2 port2 psn2 rd2 dest2 flags2, state q' <> Reset ->
        rc_connect_ib modify_qp remote2 port2 psn2 rd2 dest2 flags2 q' = Some (q', Err InvalidInput)
  | Some (q', Err e) => e = InvalidInput /\ state q <> Reset /\ q' = q
  | None => False
  end.
Proof.
  destruct (decide (state q = Reset)) as [H0|H0]; [|by rewrite connect_refused].
  unfold rc_connect_ib at 1, rc_modify_to_init, rc_modify_to_rtr_ib, rc_modify_to_rts.
  unfold p_bind at 1.
  match goal with |- context [(require Reset ;;; modify _ ?a ?m) q] =>
    destruct (guarded_step Reset a m q H0) as (q1 & _ & [[H1 ->]|(H1 & c & Hc & ->)]) end;
    [|by split_and!; auto; intros; apply connect_refused].
  unfold p_bind at 1.
  match goal with |- context [(require Init ;;; modify _ ?a ?m) q1] =>
    destruct (guarded_step Init a m q1 H1) as (q2 & _ & [[H2 ->]|(H2 & c & Hc & ->)]) end;
    [|by split_and!; auto; intros; apply connect_refused].
  match goal with |- context [(require Rtr ;;; modify _ ?a ?m) q2] =>
    destruct (guarded_step Rtr a m q2 H2) as (q3 & _ & [[H3 ->]|(H3 & c & Hc & ->)]) end;
    [done|by split_and!; auto; intros; apply connect_refused].
Qed.

End Machine.
Arguments Transition : clear implicits.

(** ** The manual's attribute tables *)

Inductive QpType : Type := QptRc | QptUd.

(** The attributes [ibv_modify_qp] requires for a transition. *)
Definition required_attrs (ty : QpType) (from to : QpState) : option (list AttrMask) :=
  match ty, from, to with
  | QptRc, Reset, Init =>
      Some [IBV_QP_STATE; IBV_QP_PKEY_INDEX; IBV_QP_PORT; IBV_QP_ACCESS_FLAGS]
  | QptRc, Init, Rtr =>
      Some [IBV_QP_STATE; IBV_QP_PATH_MTU; IBV_QP_DEST_QPN; IBV_QP_RQ_PSN;
            IBV_QP_MAX_DEST_RD_ATOMIC; IBV_QP_MIN_RNR_TIMER; IBV_QP_AV]
  | QptRc, Rtr, Rts =>
      Some [IBV_QP_STATE; IBV_QP_SQ_PSN; IBV_QP_TIMEOUT; IBV_QP_RETRY_CNT; IBV_QP_RNR_RETRY;
            IBV_QP_MAX_QP_RD_ATOMIC]
  | QptUd, Reset, Init => Some [IBV_QP_STATE; IBV_QP_PKEY_INDEX; IBV_QP_PORT; IBV_QP_QKEY]
  | QptUd, Init, Rtr => Some [IBV_QP_STATE]
  | QptUd, Rtr, Rts => Some [IBV_QP_STATE; IBV_QP_SQ_PSN]
  | _, _, Error => Some [IBV_QP_STATE]
  | _, _, _ => None
  end.

(** A device that follows the table: EINVAL for a missing attribute or an edge that
    is not there. *)
Record RefDev : Type := mkRef { ref_state : QpState; ref_calls : list QpAttr }.

Definition reference_modify (ty : QpType) (d : RefDev) (a : QpAttr) (m : list AttrMask)
    : RefDev * Z :=
  match required_attrs ty (ref_state d) (qp_state a) with
  | Some req =>
      if forallb (fun x => bool_decide (x ∈ m)) req
      then (mkRef (qp_state a) (ref_calls d ++ [a]), 0) else (d, 22)
  | None => (d, 22)
  end.

#[export] Instance reference_laws ty : VerbsLaws (reference_modify ty) ref_state.
Proof.
  split; intros d a m; unfold reference_modify;
    destruct (required_attrs _ _ _) as [req|]; try destruct (forallb _ req); done.
Qed.

(** Two reliable-connection queue pairs connected to each other's number and
    packet sequence number are a pair: on a device that insists on the attributes
    the manual requires, both connections succeed and reach RTS, each side is
    directed to the other's number and identifier and expects the sequence number the other
    starts from. *)
Theorem connected_pair {E R} (n1 n2 psn1 psn2 lid1 lid2 port rd dest flags : Z)
    (sq1 sq2 : option (SendQueueState E)) (rq1 rq2 : R) :
  let q1 := mkQp (mkRef Reset []) n1 0 Reset sq1 rq1 in
  let q2 := mkQp (mkRef Reset []) n2 0 Reset sq2 rq2 in
  exists q1' q2' i1 r1 s1 i2 r2 s2,
    rc_connect_ib (reference_modify QptRc) (mkIbRemote n2 psn2 lid2) port psn1 rd dest flags q1
      = Some (q1', Ok tt) /\
    rc_connect_ib (reference_modify QptRc) (mkIbRemote n1 psn1 lid1) port psn2 rd dest flags q2
      = Some (q2', Ok tt) /\
    state q1' = Rts /\ state q2' = Rts /\
    ref_calls (dev q1') = [i1; r1; s1] /\ ref_calls (dev q2') = [i2; r2; s2] /\
    dest_qp_num r1 = qpn q2' /\ dest_qp_num r2 = qpn q1' /\
    rq_psn r1 = sq_psn s2 /\ rq_psn r2 = sq_psn s1 /\
    ah_dlid (ah_attr r1) = lid2 /\ ah_dlid (ah_attr r2) = lid1.
Proof. intros q1 q2. do 8 eexists. by split_and!. Qed.

(** The datagram masks, on the same device. *)
Lemma ud_activates {E R} (n key port psn : Z) (s : option (SendQueueState E)) (r : R) :
  exists q', ud_activate (reference_modify QptUd) port psn (mkQp (mkRef Reset []) n key Reset s r)
      = Some (q', Ok tt) /\ state q' = Rts /\
    attr_qkey <$> ref_calls (dev q') !! 0%nat = Some key.
Proof. eexists. by split_and!. Qed.

(** ** The send queue's BlueFlame doorbell *)

Section BlueFlame.
Context {E : Type}.
Implicit Types (q : SendQueueState E) (v : Emit.Verb (Entry := E)).

Lemma sq_bf_val q ptr size :
  Emit.last_wqe (ctx q) = Some (ptr, size) -> 0 <= ptr -> 0 < size -> 0 <= bf_size q ->
  let n := RecvQueue.blocks (Z.min size (bf_size q)) in
  ptr + 64 * n <= Z.of_nat (length (Emit.buf (ctx q))) ->
  sq_ring_doorbell_bf q =
    Some (sq_rung q, [RecvQueue.Flush; RecvQueue.Dbrec 1 (Emit.pi (ctx q)); RecvQueue.UdmaBarrier]
      ++ RecvQueue.copied (Emit.buf (ctx q)) ptr (bf_offset q) (Z.to_nat n) ++ [RecvQueue.Flush]).
Proof.
  intros Hl Hp Hs Hb n Hn. unfold sq_ring_doorbell_bf. rewrite Hl.
  destruct (decide (bf_size q = 0)) as [H0|H0].
  - subst n. rewrite H0, Z.min_r by lia. done.
  - rewrite RecvQueue.bf_copy_all_val by lia. fold n. by rewrite decide_True.
Qed.

(** The control segment, from the bytes that start with it. *)
Lemma decode_ctrl_read b off n :
  (16 <= n)%nat -> decode_ctrl_seg (read_bytes b off n) 0 = decode_ctrl_seg b off.
Proof.
  intros Hn. unfold decode_ctrl_seg, be_field. by rewrite !read_bytes_read, !Nat.add_0_r by lia.
Qed.

(** C34: The BlueFlame doorbell of a send queue shows the device the request that was
    emitted last, and reads nothing else.  After any verb that was accepted, the copy
    never leaves the ring - requests are never split at its end - and the device
    sees, in order, the flush, the producer index in word 1 of the doorbell record,
    the barrier, and the bytes of that request (as many whole blocks as the
    register has room for), whose control segment decodes to the verb's. *)
Theorem sq_bf_copies_request q v :
  let r := fst (Emit.request v) in
  Emit.ctx_ok (ctx q) -> Emit.verb_ok v -> Emit.fields_ok r -> 16 <= bf_size q ->
  match Emit.emit (ctx q) v with
  | (_, Err _) => True
  | (c, Ok res) =>
      let q' := mkSqs c (bf_size q) (bf_offset q) in
      exists evs,
        sq_ring_doorbell_bf q' = Some (sq_rung q',
          [RecvQueue.Flush; RecvQueue.Dbrec 1 (Emit.pi c); RecvQueue.UdmaBarrier]
          ++ evs ++ [RecvQueue.Flush]) /\
        RecvQueue.bf_bytes evs = read_bytes (Emit.buf c) (Z.to_nat (Emit.res_wqe_ptr res))
          (Z.to_nat (64 * RecvQueue.blocks (Z.min (Emit.req_size r) (bf_size q)))) /\
        decode_ctrl_seg (RecvQueue.bf_bytes evs) 0
          = Emit.req_ctrl r (Emit.res_wqe_idx res) (Emit.sqn (ctx q))
  end.
Proof.
  intros r Hc Hv Hf Hb. rewrite Emit.arms_reference by done. fold r.
  assert (Emit.req_ok r) as Hr by (destruct Hv as (? & ? & _); by split).
  pose proof (Emit.reference_correct (ctx q) r (snd (Emit.request v)) Hc Hr Hf) as H.
  destruct (Emit.emit_reference _ _ _) as [c [res|e]]; [|done]. destruct H as [_ H].
  destruct (Emit.req_size_spec r Hr) as (S1 & _ & _ & S4 & _).
  destruct (Emit.p_size _ _ _ _ _ H) as [P1 P2].
  destruct (Emit.p_whole _ _ _ _ _ H) as [W1 W2].
  destruct (Emit.p_ok _ _ _ _ _ H) as (Hsq & Hlen & _).
  destruct (Emit.p_fixed _ _ _ _ _ H) as (F1 & _).
  pose proof (Emit.p_ptr _ _ _ _ _ H) as Hptr. rewrite F1 in Hlen.
  assert (0 < Emit.wqe_cnt (ctx q)) as Hpos.
  { destruct Hc as ((Hpw & _) & _). unfold is_power_of_two in Hpw. guards. cbn in *. lia. }
  assert (0 <= Emit.res_wqe_ptr res).
  { rewrite Hptr. pose proof (Z.mod_pos_bound (Emit.res_wqe_idx res) (Emit.wqe_cnt (ctx q)) Hpos). lia. }
  set (n := RecvQueue.blocks (Z.min (Emit.req_size r) (bf_size q))).
  pose proof (RecvQueue.blocks_spec (Z.min (Emit.req_size r) (bf_size q)) ltac:(lia)) as Hn. fold n in Hn.
  assert (n <= Emit.req_blocks r) by lia.
  intros q'. eexists. split.
  { apply (sq_bf_val q' (Emit.res_wqe_ptr res) (Emit.req_size r)); cbn; try lia.
    by rewrite (Emit.p_last _ _ _ _ _ H), P1. }
  cbn. fold n. rewrite RecvQueue.bf_bytes_copied by lia.
  replace (64 * Z.to_nat n)%nat with (Z.to_nat (64 * n)) by lia. split; [done|].
  rewrite decode_ctrl_read by lia. apply (Emit.p_ctrl _ _ _ _ _ H).
Qed.

End BlueFlame.

(** ** Concrete runs *)

Definition demo_qp : Qp RefDev nat (OwnedRq nat) := mkQp (mkRef Reset []) 9 0 Reset None None.
Definition demo_remote : IbRemoteQpInfo := mkIbRemote 17 5 3.

Example qp_lifecycle_witness :
  in_step ref_state demo_qp /\
  exists q, do_transitions (reference_modify QptRc)
      [TRcInit 1 7; TRcConnectIb demo_remote 1 4 16 16 7; TRcRtrIb demo_remote 1 16; TRcError] demo_qp
      = Some q /\
    in_step ref_state q /\ state q = Error /\ rtc edge Reset Error.
Proof.
  split; [done|].
  destruct (qp_lifecycle (reference_modify QptRc) ref_state
    [TRcInit 1 7; TRcConnectIb demo_remote 1 4 16 16 7; TRcRtrIb demo_remote 1 16; TRcError]
    demo_qp eq_refl) as (q & E1 & H1 & H2 & _).
  assert (state q = Error) as E2 by (injection E1 as <-; reflexivity).
  exists q. rewrite E2 in H2. split; [done|]. split; [done|]. split; [done|exact H2].
Defined.

Example sq_bf_copies_request_witness :
  exists c res evs, Emit.emit Emit.demo_ctx Emit.demo_verb = (c, Ok res) /\
    sq_ring_doorbell_bf (mkSqs c 256 0) = Some (sq_rung (mkSqs c 256 0),
      [RecvQueue.Flush; RecvQueue.Dbrec 1 (Emit.pi c); RecvQueue.UdmaBarrier]
      ++ evs ++ [RecvQueue.Flush]) /\
    decode_ctrl_seg (RecvQueue.bf_bytes evs) 0
      = Emit.req_ctrl (fst (Emit.request Emit.demo_verb)) (Emit.res_wqe_idx res) 77.
Proof.
  destruct Emit.emit_demo_ok as (H1 & H2 & H3).
  pose proof (sq_bf_copies_request (mkSqs Emit.demo_ctx 256 0) Emit.demo_verb H1 H2 H3 ltac:(cbn; lia)) as H.
  change (ctx (mkSqs Emit.demo_ctx 256 0)) with Emit.demo_ctx in H.
  destruct (Emit.emit Emit.demo_ctx Emit.demo_verb) as [c [res|e]] eqn:Ee.
  - destruct H as (evs & G1 & _ & G3). exists c, res, evs. split; [done|]. split; [exact G1|exact G3].
  - exfalso. apply (f_equal snd) in Ee. vm_compute in Ee. discriminate.
Defined.

End QpProps.
