(* ===== verification/QpBuilder.v ===== *)
(** * QpBuilder: building queue pairs, [mlx5/src/qp/mod.rs], [mlx5/src/ud/mod.rs],
    [mlx5/src/dc/mod.rs] and [mlx5/src/builder_common.rs]

    The builders collect a configuration, completion queues and a shared receive
    queue; their [build] methods, one per combination of transport, receive side
    and kind of completion queue, create the device's object, set up direct access
    and register the queue pair.  A queue pair that [build] returns satisfies the
    invariants of the queues, is in RESET, and is registered exactly with the
    completion queues it was given. *)
From S2P Require Import Prelude SendQueue Wqe Emit Srq Cq RecvQueue QueuePair.

Module QpBuilder.
Import QueuePair.

(** [struct RcQpConfig], [struct UdQpConfig], [struct DciConfig] and [struct DctConfig]. *)
Record RcQpConfig : Type := mkRcConfig {
  rc_max_send_wr : Z; rc_max_recv_wr : Z; rc_max_send_sge : Z; rc_max_recv_sge : Z;
  rc_max_inline_data : Z; enable_scatter_to_cqe : bool;
}.
Definition rc_default : RcQpConfig := mkRcConfig 256 256 4 4 64 false.

Record UdQpConfig : Type := mkUdConfig {
  ud_max_send_wr : Z; ud_max_recv_wr : Z; ud_max_send_sge : Z; ud_max_recv_sge : Z;
  ud_max_inline_data : Z; ud_qkey : Z;
}.
Definition ud_default : UdQpConfig := mkUdConfig 256 256 4 4 64 286331153.

Record DciConfig : Type := mkDciConfig {
  dci_max_send_wr : Z; dci_max_send_sge : Z; dci_max_inline_data : Z }.
Record DctConfig : Type := mkDctConfig { dct_dc_key : Z }.

(** The attributes handed to [mlx5dv_create_qp]; completion queues and shared receive
    queues by identity. *)
Inductive QpKind : Type := QptRc | QptUd | QptDci | QptDct (dc_key : Z).

Record QpInitAttr : Type := mkInitAttr {
  ia_type : QpKind;
  ia_send_cq : Z;
  ia_recv_cq : Z;
  ia_srq : option Z;
  ia_max_send_wr : Z; ia_max_recv_wr : Z;
  ia_max_send_sge : Z; ia_max_recv_sge : Z;
  ia_max_inline_data : Z;
  ia_disable_scatter_to_cqe : bool;
}.

(** A completion queue named by a builder: a normal one, which gets the queue pair
    registered, or a monomorphic one. *)
Inductive CqRef : Type := NormalCq (id : Z) | Mono (id : Z).
Definition cq_ptr (c : CqRef) : Z := match c with NormalCq i | Mono i => i end.

(** ** The builders *)

(** [struct RcQpBuilder] and [struct UdQpBuilder]: the two completion queues and the
    shared receive queue start unset; [for_roce] only changes the type. *)
Inductive Transport : Type := InfiniBand | RoCE.

Record Builder (Cfg : Type) : Type := mkBuilder {
  config : Cfg;
  transport : Transport;
  send_cq : option CqRef;
  recv_cq : option CqRef;
  builder_srq : option Z;
}.
Arguments mkBuilder {Cfg} _ _ _ _ _.
Arguments config {Cfg} _.
Arguments transport {Cfg} _.
Arguments send_cq {Cfg} _.
Arguments recv_cq {Cfg} _.
Arguments builder_srq {Cfg} _.

Definition rc_qp_builder (cfg : RcQpConfig) : Builder RcQpConfig := mkBuilder cfg InfiniBand None None None.
Definition ud_qp_builder (cfg : UdQpConfig) : Builder UdQpConfig := mkBuilder cfg InfiniBand None None None.

Definition dci_default : DciConfig := mkDciConfig 256 4 64.

Section Configure.
Context {Cfg : Type}.
Implicit Types (b : Builder Cfg).

Definition sq_cq b (cq : Z) : Builder Cfg :=
  mkBuilder (config b) (transport b) (Some (NormalCq cq)) (recv_cq b) (builder_srq b).
Definition sq_mono_cq b (cq : Z) : Builder Cfg :=
  mkBuilder (config b) (transport b) (Some (Mono cq)) (recv_cq b) (builder_srq b).
Definition rq_cq b (cq : Z) : Builder Cfg :=
  mkBuilder (config b) (transport b) (send_cq b) (Some (NormalCq cq)) (builder_srq b).
Definition rq_mono_cq b (cq : Z) : Builder Cfg :=
  mkBuilder (config b) (transport b) (send_cq b) (Some (Mono cq)) (builder_srq b).
Definition for_roce b : Builder Cfg :=
  mkBuilder (config b) RoCE (send_cq b) (recv_cq b) (builder_srq b).
Definition with_srq b (srq : Z) : Builder Cfg :=
  mkBuilder (config b) (transport b) (send_cq b) (recv_cq b) (Some srq).

End Configure.

(** The datagram builder's methods. *)
Definition ud_sq_cq : Builder UdQpConfig -> Z -> Builder UdQpConfig := sq_cq.
Definition ud_sq_mono_cq : Builder UdQpConfig -> Z -> Builder UdQpConfig := sq_mono_cq.
Definition ud_rq_cq : Builder UdQpConfig -> Z -> Builder UdQpConfig := rq_cq.
Definition ud_rq_mono_cq : Builder UdQpConfig -> Z -> Builder UdQpConfig := rq_mono_cq.
Definition ud_for_roce : Builder UdQpConfig -> Builder UdQpConfig := for_roce.
Definition ud_with_srq : Builder UdQpConfig -> Z -> Builder UdQpConfig := with_srq.

(** [DciBuilder]: one completion queue for both directions. *)
Definition dci_builder (cfg : DciConfig) : Builder DciConfig := mkBuilder cfg InfiniBand None None None.
Definition dci_sq_cq : Builder DciConfig -> Z -> Builder DciConfig := sq_cq.
Definition dci_sq_mono_cq : Builder DciConfig -> Z -> Builder DciConfig := sq_mono_cq.
Definition dci_for_roce : Builder DciConfig -> Builder DciConfig := for_roce.

(** [struct DctBuilder], of a target on a shared receive queue. *)
Record DctBuilder : Type := mkDctBuilder {
  dct_config : DctConfig; dct_srq : Z; dct_recv_cq : option CqRef }.

Definition dct_builder (srq : Z) (cfg : DctConfig) : DctBuilder := mkDctBuilder cfg srq None.
Definition dct_recv_cq_set (b : DctBuilder) (cq : Z) : DctBuilder :=
  mkDctBuilder (dct_config b) (dct_srq b) (Some (NormalCq cq)).
Definition dct_recv_mono_cq (b : DctBuilder) (cq : Z) : DctBuilder :=
  mkDctBuilder (dct_config b) (dct_srq b) (Some (Mono cq)).

(** ** Building *)

Section Build.
Context {D E F : Type} (create_qp : QpInitAttr -> result (D * Z) Z) (init_obj : D -> Z * DvQp).

(** [register_with_cqs] and [register_with_send_cq]: the normal queues, the sending
    side first; [maybe_register]: the monomorphic ones. *)
Definition register_with_cqs (send recv : option CqRef) : list CqRef :=
  omap (fun o => match o with Some (NormalCq i) => Some (NormalCq i) | _ => None end) [send; recv].
Definition maybe_register (c : option CqRef) : list CqRef :=
  match c with Some (Mono i) => [Mono i] | _ => [] end.

(** A queue pair and where it is registered. *)
Definition Built (R : Type) : Type := result (Qp D E R * list CqRef) QpError.

(** The end of every [build]: create, set up direct access, register. *)
Definition finish {R} (attr : QpInitAttr) (key : Z) (r : R)
    (init : Qp D E R -> Qp D E R * result unit QpError) (regs : list CqRef) : Built R :=
  match create_qp attr with
  | Err code => Err (OsError code)
  | Ok (d, n) =>
      match init (mkQp d n key Reset None r) with
      | (q, Ok _) => Ok (q, regs)
      | (_, Err e) => Err e
      end
  end.

Definition rc_attr (c : RcQpConfig) (scq rcq : CqRef) : QpInitAttr :=
  mkInitAttr QptRc (cq_ptr scq) (cq_ptr rcq) None (rc_max_send_wr c) (rc_max_recv_wr c)
    (rc_max_send_sge c) (rc_max_recv_sge c) (rc_max_inline_data c) (negb (enable_scatter_to_cqe c)).
Definition rc_attr_srq (c : RcQpConfig) (scq rcq : CqRef) (srq : Z) : QpInitAttr :=
  mkInitAttr QptRc (cq_ptr scq) (cq_ptr rcq) (Some srq) (rc_max_send_wr c) 0
    (rc_max_send_sge c) 0 (rc_max_inline_data c) (negb (enable_scatter_to_cqe c)).
Definition ud_attr (c : UdQpConfig) (scq rcq : CqRef) : QpInitAttr :=
  mkInitAttr QptUd (cq_ptr scq) (cq_ptr rcq) None (ud_max_send_wr c) (ud_max_recv_wr c)
    (ud_max_send_sge c) (ud_max_recv_sge c) (ud_max_inline_data c) false.
Definition ud_attr_srq (c : UdQpConfig) (scq rcq : CqRef) (srq : Z) : QpInitAttr :=
  mkInitAttr QptUd (cq_ptr scq) (cq_ptr rcq) (Some srq) (ud_max_send_wr c) 0
    (ud_max_send_sge c) 0 (ud_max_inline_data c) false.

(** The builder's types guarantee both completion queues. *)
Definition with_cqs {Cfg R} (b : Builder Cfg) (k : CqRef -> CqRef -> Built R) : option (Built R) :=
  scq ← send_cq b; rcq ← recv_cq b; Some (k scq rcq).

Definition require_srq {Cfg R} (b : Builder Cfg) (k : Z -> Built R) : Built R :=
  match builder_srq b with Some s => k s | None => Err InvalidInput end.

(** *** Reliable connections *)

Definition rc_build_ib (b : Builder RcQpConfig) : option (Built (OwnedRq F)) :=
  with_cqs b (fun scq rcq =>
    finish (rc_attr (config b) scq rcq) 0 None (rc_init_direct_access init_obj)
      (register_with_cqs (send_cq b) (recv_cq b))).

Definition rc_build_ib_srq (b : Builder RcQpConfig) : option (Built SharedRq) :=
  with_cqs b (fun scq rcq => require_srq b (fun s =>
    finish (rc_attr_srq (config b) scq rcq s) 0 (mkShared s) (sq_init_direct_access init_obj)
      (register_with_cqs (send_cq b) (recv_cq b)))).

(** A normal queue for the sending side, a monomorphic one for the receiving side. *)
Definition rc_build_ib_srq_mono (b : Builder RcQpConfig) : option (Built SharedRq) :=
  with_cqs b (fun scq rcq => require_srq b (fun s =>
    finish (rc_attr_srq (config b) scq rcq s) 0 (mkShared s) (sq_init_direct_access init_obj)
      (register_with_cqs (send_cq b) None ++ maybe_register (recv_cq b)))).

Definition rc_build_roce (b : Builder RcQpConfig) : option (Built (OwnedRq F)) :=
  with_cqs b (fun scq rcq =>
    finish (rc_attr (config b) scq rcq) 0 None (rc_roce_init_direct_access init_obj)
      (register_with_cqs (send_cq b) (recv_cq b))).

Definition rc_build_roce_srq (b : Builder RcQpConfig) : option (Built SharedRq) :=
  with_cqs b (fun scq rcq => require_srq b (fun s =>
    finish (rc_attr_srq (config b) scq rcq s) 0 (mkShared s) (rc_roce_srq_init_direct_access init_obj)
      (register_with_cqs (send_cq b) (recv_cq b)))).

Definition rc_build_mono (b : Builder RcQpConfig) : option (Built (OwnedRq F)) :=
  with_cqs b (fun scq rcq =>
    finish (rc_attr (config b) scq rcq) 0 None (rc_init_direct_access init_obj)
      (maybe_register (send_cq b) ++ maybe_register (recv_cq b))).

(** *** Datagrams *)

Definition ud_build_ib (b : Builder UdQpConfig) : option (Built (OwnedRq F)) :=
  with_cqs b (fun scq rcq =>
    finish (ud_attr (config b) scq rcq) (ud_qkey (config b)) None (ud_init_direct_access init_obj)
      (register_with_cqs (send_cq b) (recv_cq b))).

Definition ud_build_hybrid (b : Builder UdQpConfig) : option (Built (OwnedRq F)) :=
  with_cqs b (fun scq rcq =>
    finish (ud_attr (config b) scq rcq) (ud_qkey (config b)) None (ud_init_direct_access init_obj)
      (register_with_cqs (send_cq b) None ++ maybe_register (recv_cq b))).

Definition ud_build_ib_srq (b : Builder UdQpConfig) : option (Built SharedRq) :=
  with_cqs b (fun scq rcq => require_srq b (fun s =>
    finish (ud_attr_srq (config b) scq rcq s) (ud_qkey (config b)) (mkShared s)
      (ud_srq_init_direct_access init_obj) (register_with_cqs (send_cq b) (recv_cq b)))).

Definition ud_build_roce (b : Builder UdQpConfig) : option (Built (OwnedRq F)) :=
  with_cqs b (fun scq rcq =>
    finish (ud_attr (config b) scq rcq) (ud_qkey (config b)) None (ud_roce_init_direct_access init_obj)
      (register_with_cqs (send_cq b) (recv_cq b))).

Definition ud_build_roce_srq (b : Builder UdQpConfig) : option (Built SharedRq) :=
  with_cqs b (fun scq rcq => require_srq b (fun s =>
    finish (ud_attr_srq (config b) scq rcq s) (ud_qkey (config b)) (mkShared s)
      (ud_roce_srq_init_direct_access init_obj) (register_with_cqs (send_cq b) (recv_cq b)))).

Definition ud_build_mono (b : Builder UdQpConfig) : option (Built (OwnedRq F)) :=
  with_cqs b (fun scq rcq =>
    finish (ud_attr (config b) scq rcq) (ud_qkey (config b)) None (ud_init_direct_access init_obj)
      (maybe_register (send_cq b) ++ maybe_register (recv_cq b))).

Definition ud_build_mono_roce (b : Builder UdQpConfig) : option (Built (OwnedRq F)) :=
  with_cqs b (fun scq rcq =>
    finish (ud_attr (config b) scq rcq) (ud_qkey (config b)) None (ud_roce_init_direct_access init_obj)
      (maybe_register (send_cq b) ++ maybe_register (recv_cq b))).

(** *** Dynamically connected *)

Definition dci_attr (c : DciConfig) (scq : CqRef) : QpInitAttr :=
  mkInitAttr QptDci (cq_ptr scq) (cq_ptr scq) None (dci_max_send_wr c) 0 (dci_max_send_sge c) 0
    (dci_max_inline_data c) false.

Definition dci_build (b : Builder DciConfig) : option (Built unit) :=
  scq ← send_cq b;
  Some (finish (dci_attr (config b) scq) 0 tt (dci_init_direct_access init_obj)
          (register_with_cqs (send_cq b) None)).

Definition dci_build_mono (b : Builder DciConfig) : option (Built unit) :=
  scq ← send_cq b;
  Some (finish (dci_attr (config b) scq) 0 tt (dci_init_direct_access init_obj)
          (maybe_register (send_cq b))).

(** [DctBuilder::build]: no direct access and no registration. *)
Definition dct_build (b : DctBuilder) : option (Built SharedRq) :=
  rcq ← dct_recv_cq b;
  Some (finish (mkInitAttr (QptDct (dct_dc_key (dct_config b))) (cq_ptr rcq) (cq_ptr rcq) (Some (dct_srq b))
                  0 0 0 0 0 false) (dct_dc_key (dct_config b)) (mkShared (dct_srq b)) (fun q => (q, Ok tt)) []).

End Build.

(** ** What [build] returns *)

Section Ready.
Context {D E F : Type} (create_qp : QpInitAttr -> result (D * Z) Z) (init_obj : D -> Z * DvQp).

(** The geometry the device reports: rings of at most [2 ^ 15] blocks and slots, slots
    of whole segments, buffers of that size, and a 24-bit number. *)
Record dv_ok (dv : DvQp) (n : Z) : Prop := mkDvOk {
  dv_sq : exists e, 0 <= e <= 15 /\ dv_sq_wqe_cnt dv = 2 ^ e;
  dv_sq_len : Z.of_nat (length (dv_sq_buf dv)) = 64 * dv_sq_wqe_cnt dv;
  dv_rq : exists e, 0 <= e <= 15 /\ dv_rq_wqe_cnt dv = 2 ^ e;
  dv_rq_slot : 16 <= dv_rq_stride dv /\ (16 | dv_rq_stride dv) /\
    dv_rq_wqe_cnt dv * dv_rq_stride dv < 2 ^ 32;
  dv_rq_len : Z.of_nat (length (dv_rq_buf dv)) = dv_rq_wqe_cnt dv * dv_rq_stride dv;
  dv_num : is_uint 24 (dv_sqn dv) /\ is_uint 24 n;
}.

Lemma pow2_range e : 0 <= e <= 15 -> 0 < 2 ^ e <= 2 ^ 15.
Proof. intros. split; [apply Z.pow_pos_nonneg; lia|apply Z.pow_le_mono_r; lia]. Qed.

(** The send queue every kind of queue pair starts with. *)
Lemma new_sq_ok {R} (q : Qp D E R) dv :
  init_obj (dev q) = (0, dv) -> dv_ok dv (qpn q) ->
  exists i, query_info init_obj q = Ok i /\ Emit.ctx_ok (ctx (new_sq (E := E) i)) /\
    bf_size (new_sq (E := E) i) = dv_bf_size dv /\
    rq_buf i = dv_rq_buf dv /\ rq_wqe_cnt i = dv_rq_wqe_cnt dv /\ rq_stride i = dv_rq_stride dv.
Proof.
  intros Hi [(e & He & Hcnt) Hlen _ _ _ [Hs Hn]]. pose proof (pow2_range e He).
  unfold query_info. rewrite Hi. cbn. eexists. split; [done|]. split; [|done].
  unfold new_sq, Emit.ctx_ok, SendQueue.sq_ok. cbn. rewrite (u16_small (dv_sq_wqe_cnt dv)) by lia.
  rewrite !length_replicate, Z2Nat.id by lia.
  split; [|split; [done|by destruct (dv_sqn dv =? 0)]].
  assert (is_power_of_two (dv_sq_wqe_cnt dv) = true) as ->.
  { unfold is_power_of_two. rewrite Hcnt, Z.log2_pow2, Z.eqb_refl by lia.
    by rewrite (proj2 (Z.ltb_lt _ _)) by lia. }
  split_and!; try done; try lia. change (SendQueue.in_flight _) with 0. lia.
Qed.

(** A queue pair ready for use: in RESET, both queues empty and well-formed. *)
Definition ready (q : Qp D E (OwnedRq F)) : Prop :=
  state q = Reset /\
  (exists s, sq q = Some s /\ Emit.ctx_ok (ctx s) /\ Emit.pi (ctx s) = 0 /\ Emit.ci (ctx s) = 0) /\
  (exists r, rq q = Some r /\ RecvQueue.holds r [] /\ RecvQueue.pending_ok r).

Lemma rq_ready dv n :
  dv_ok dv n ->
  let r := RecvQueue.rq_init (T := F) (dv_rq_buf dv) (dv_rq_wqe_cnt dv) (dv_rq_stride dv) (dv_bf_size dv) in
  RecvQueue.holds r [] /\ RecvQueue.pending_ok r.
Proof.
  intros [_ _ (e & He & Hcnt) (G1 & G2 & G3) Hl _]. rewrite Hcnt in *. split.
  - by apply RecvQueue.rq_init_holds.
  - pose proof (pow2_range e He). unfold RecvQueue.pending_ok. cbn. split; [lia|done].
Qed.

Lemma rc_init_ready d n key dv :
  init_obj d = (0, dv) -> dv_ok dv n ->
  exists q, rc_init_direct_access init_obj (mkQp d n key Reset None None) = (q, Ok tt) /\
    ready q /\ qpn q = n /\ qkey q = key.
Proof.
  intros Hi Hd. destruct (new_sq_ok (mkQp d n key Reset None (None : OwnedRq F)) dv Hi Hd)
    as (i & Eq & Hc & Hb & E1 & E2 & E3).
  unfold rc_init_direct_access. cbn [sq]. unfold OwnedRq in Eq |- *. rewrite Eq. eexists. split; [done|].
  split; [|done]. split; [done|]. split; [by eexists|]. cbn [rq]. eexists. split; [done|].
  rewrite E1, E2, E3. change (info_bf_size i) with (bf_size (new_sq (E := E) i)). rewrite Hb.
  by apply (rq_ready dv n).
Qed.

Lemma ud_init_ready d n key dv :
  init_obj d = (0, dv) -> dv_ok dv n ->
  exists q, ud_init_direct_access init_obj (mkQp d n key Reset None None) = (q, Ok tt) /\
    ready q /\ qpn q = n /\ qkey q = key.
Proof.
  intros Hi Hd. destruct (new_sq_ok (mkQp d n key Reset None (None : OwnedRq F)) dv Hi Hd)
    as (i & Eq & Hc & Hb & E1 & E2 & E3).
  unfold ud_init_direct_access. cbn [sq]. unfold OwnedRq in Eq |- *. rewrite Eq. eexists. split; [done|].
  split; [|done]. split; [done|]. split; [by eexists|]. cbn [rq]. eexists. split; [done|].
  assert (u16 (rq_wqe_cnt i) = dv_rq_wqe_cnt dv) as ->.
  { rewrite E2. apply u16_small. destruct (dv_rq _ _ Hd) as (e & He & ->).
    pose proof (pow2_range e He). lia. }
  rewrite E1, E3. change (info_bf_size i) with (bf_size (new_sq (E := E) i)). rewrite Hb.
  by apply (rq_ready dv n).
Qed.

(** What a builder of an owned receive queue promises, for the attributes it asks
    the device for and the completion queues it registers with: the queue pair, or
    the error of whichever device call refused. *)
Definition builds (attr : QpInitAttr) (cqs : list CqRef) (P : Qp D E (OwnedRq F) -> Prop)
    (built : option (Built (OwnedRq F))) : Prop :=
  (forall code, create_qp attr = Err code -> built = Some (Err (OsError code))) /\
  (forall d n dv ret, create_qp attr = Ok (d, n) -> init_obj d = (ret, dv) ->
     (ret <> 0 -> built = Some (Err (OsError (- ret)))) /\
     (ret = 0 -> dv_ok dv n ->
      exists q, built = Some (Ok (q, cqs)) /\ ready q /\ qpn q = n /\ P q)).

(** C35: A queue pair that a builder returns is ready for use.  For a reliable
    connection and for datagrams alike, on a device that creates the object and
    reports a sane geometry, [build] succeeds and returns a queue pair in RESET,
    under the device's number and (for datagrams) with the configured key, whose
    send queue satisfies the emission invariant with nothing in flight and whose
    receive queue holds no request; it is to be registered with the sending and then
    the receiving completion queue.  When the device refuses to create the object, or
    refuses to describe its queues, [build] of either kind returns that error, with no
    queue pair and nothing to register. *)
Theorem built_queue_pair_ready (rcfg : RcQpConfig) (ucfg : UdQpConfig) (cs cr : Z) :
  builds (rc_attr rcfg (NormalCq cs) (NormalCq cr)) [NormalCq cs; NormalCq cr] (fun _ => True)
    (rc_build_ib create_qp init_obj (rq_cq (sq_cq (rc_qp_builder rcfg) cs) cr)) /\
  builds (ud_attr ucfg (NormalCq cs) (NormalCq cr)) [NormalCq cs; NormalCq cr]
    (fun q => qkey q = ud_qkey ucfg)
    (ud_build_ib create_qp init_obj (ud_rq_cq (ud_sq_cq (ud_qp_builder ucfg) cs) cr)).
Proof.
  unfold rc_build_ib, ud_build_ib, with_cqs.
  cbn [send_cq recv_cq sq_cq rq_cq ud_sq_cq ud_rq_cq mbind option_bind].
  unfold finish. cbn [config rq_cq sq_cq ud_sq_cq ud_rq_cq rc_qp_builder ud_qp_builder].
  split; (split; [by intros code ->|]); intros d n dv ret Ec Hi; rewrite Ec; split.
  - intros Hret. unfold rc_init_direct_access, query_info. cbn [sq dev]. rewrite Hi.
    by rewrite (proj2 (Z.eqb_neq ret 0)).
  - intros -> Hd. destruct (rc_init_ready d n 0 dv Hi Hd) as (q & -> & Hr & Hn & _). by exists q.
  - intros Hret. unfold ud_init_direct_access, query_info. cbn [sq dev]. rewrite Hi.
    by rewrite (proj2 (Z.eqb_neq ret 0)).
  - intros -> Hd.
    destruct (ud_init_ready d n (ud_qkey ucfg) dv Hi Hd) as (q & -> & Hr & Hn & Hk). by exists q.
Qed.

End Ready.

(** A device with one object: 8 blocks, 4 slots of 16 bytes. *)
Definition demo_dv : DvQp := mkDv (replicate 512 0) 8 64 RecvQueue.demo_ring 4 16 256 77.
Definition demo_create (a : QpInitAttr) : result (unit * Z) Z := Ok (tt, 9).
Definition demo_init (d : unit) : Z * DvQp := (0, demo_dv).

Example built_queue_pair_ready_witness :
  exists q : Qp unit nat (OwnedRq nat),
    rc_build_ib demo_create demo_init (rq_cq (sq_cq (rc_qp_builder rc_default) 1) 2)
      = Some (Ok (q, [NormalCq 1; NormalCq 2])) /\ ready q /\ qpn q = 9.
Proof.
  destruct (built_queue_pair_ready (E := nat) (F := nat) demo_create demo_init rc_default ud_default 1 2)
    as ((_ & H) & _).
  destruct (H tt 9 demo_dv 0 eq_refl eq_refl) as [_ H1].
  destruct H1 as (q & E & Hr & Hn & _); [reflexivity| |by exists q].
  split; [by exists 3|reflexivity|by exists 2|by split_and!; [|exists 1|]|reflexivity|by split].
Defined.

End QpBuilder.
