(* ===== verification/Connection.v ===== *)
(** * Connection: the connections and the configuration of scalerpc
    ([scalerpc/src/connection.rs], [config.rs])

    A connection wraps a reliable-connection queue pair of [QueuePair], built by
    [QpBuilder]; here it is composed with them. *)

From S2P Require Import Prelude RecvQueue QueuePair QpProps QpBuilder.

Module Connection.
Import QueuePair QpBuilder.

(** ** Configuration *)

Record PoolConfig : Type := mkPool { num_slots : Z; slot_data_size : Z }.
Definition pool_default : PoolConfig := mkPool 1024 4080.

Record GroupConfig : Type := mkGroup {
  max_active_per_group : Z; num_groups : Z; time_slice_us : Z; max_endpoint_entries : Z }.
Definition group_default : GroupConfig := mkGroup 4 8 100 256.

Record ClientConfig : Type := mkClientConfig { c_pool : PoolConfig; c_max_connections : Z }.
Definition client_default : ClientConfig := mkClientConfig pool_default 64.

Record ServerConfig : Type := mkServerConfig {
  s_pool : PoolConfig; num_recv_slots : Z; s_group : GroupConfig; s_max_connections : Z }.
Definition server_default : ServerConfig := mkServerConfig pool_default 256 group_default 64.

(** ** Connections *)

Record RemoteEndpoint : Type := mkRemoteEp {
  re_qpn : Z; re_psn : Z; re_lid : Z;
  slot_addr : Z; slot_rkey : Z;
  event_buffer_addr : Z; event_buffer_rkey : Z;
  warmup_buffer_addr : Z; warmup_buffer_rkey : Z; warmup_buffer_slots : Z;
  endpoint_entry_addr : Z; endpoint_entry_rkey : Z;
  server_conn_id : Z;
  pool_num_slots : Z;
}.

Inductive Error : Type := Io (e : QpError).

Section Connections.
Context {D : Type}.

(** Entries of both queues are [u64]s; of [port_attr] the code reads the [lid]. *)
Record Conn : Type := mkConn {
  conn_id : Z;
  qp : Qp D Z (OwnedRq Z);
  port : Z;
  port_lid : Z;
  remote : option RemoteEndpoint;
}.

Definition set_qp (c : Conn) (q : Qp D Z (OwnedRq Z)) : Conn :=
  mkConn (conn_id c) q (port c) (port_lid c) (remote c).

Context (create_qp : QpInitAttr -> result (D * Z) Z) (init_obj : D -> Z * DvQp)
  (query_port : Z -> result Z Z) (modify_qp : D -> QpAttr -> list AttrMask -> D * Z)
  (LOCAL_WRITE REMOTE_WRITE REMOTE_READ REMOTE_ATOMIC : Z).

Definition qp_config : RcQpConfig := mkRcConfig 2048 256 4 4 64 false.

(** [Connection::new], with the completion queues the queue pair is registered with. *)
Definition new (id p send_cq recv_cq : Z) : option (result (Conn * list CqRef) Error) :=
  match query_port p with
  | Err code => Some (Err (Io (OsError code)))
  | Ok lid =>
      r ← rc_build_ib create_qp init_obj (rq_cq (sq_cq (rc_qp_builder qp_config) send_cq) recv_cq);
      Some (match r with
            | Ok (q, regs) => Ok (mkConn id q p lid None, regs)
            | Err e => Err (Io e)
            end)
  end.

Definition local_endpoint (c : Conn) : RemoteEndpoint :=
  mkRemoteEp (qpn (qp c)) 0 (port_lid c) 0 0 0 0 0 0 0 0 0 (u32 (conn_id c)) 0.

Definition access : Z :=
  Z.lor (Z.lor (Z.lor LOCAL_WRITE REMOTE_WRITE) REMOTE_READ) REMOTE_ATOMIC.

Definition connect (c : Conn) (r : RemoteEndpoint) : option (Conn * result unit Error) :=
  match rc_connect_ib modify_qp (mkIbRemote (re_qpn r) (re_psn r) (re_lid r)) (port c) 0 4 4 access
          (qp c) with
  | None => None
  | Some (q, Ok _) => Some (mkConn (conn_id c) q (port c) (port_lid c) (Some r), Ok tt)
  | Some (q, Err e) => Some (set_qp c q, Err (Io e))
  end.

Definition conn_ring_sq_doorbell (c : Conn) : Conn * list RecvQueue.DevEvent :=
  let '(q, evs) := ring_sq_doorbell (qp c) in (set_qp c q, evs).

Definition conn_ring_rq_doorbell (c : Conn) : Conn * list RecvQueue.DevEvent :=
  let '(q, evs) := ring_rq_doorbell RecvQueue.Rc (qp c) in (set_qp c q, evs).

Definition conn_post_recv (c : Conn) (entry addr len lkey : Z) : Conn * result unit Error :=
  match qp_post_recv RecvQueue.Rc (qp c) entry addr len lkey with
  | (q, Ok _) => (set_qp c q, Ok tt)
  | (q, Err e) => (set_qp c q, Err (Io e))
  end.

(** ** What a connection is worth *)

Definition fresh (c : Conn) : Prop := state (qp c) = Reset /\ remote c = None.
Definition connected (c : Conn) : Prop := state (qp c) = Rts /\ is_Some (remote c).

(** A new connection is fresh and its queues are ready; the device's refusal is
    returned. *)
Lemma new_fresh id p scq rcq lid d n dv :
  query_port p = Ok lid ->
  create_qp (rc_attr qp_config (NormalCq scq) (NormalCq rcq)) = Ok (d, n) ->
  init_obj d = (0, dv) -> dv_ok dv n ->
  exists c, new id p scq rcq = Some (Ok (c, [NormalCq scq; NormalCq rcq])) /\
    fresh c /\ ready (qp c) /\ conn_id c = id /\ qpn (qp c) = n /\ port_lid c = lid.
Proof.
  intros Hp Hc Hi Hd. unfold new. rewrite Hp. unfold rc_build_ib, with_cqs.
  cbn [send_cq recv_cq sq_cq rq_cq mbind option_bind config rc_qp_builder]. unfold finish. rewrite Hc.
  destruct (rc_init_ready (E := Z) (F := Z) init_obj d n 0 dv Hi Hd) as (q & -> & Hr & Hn & _).
  eexists. split; [done|]. split_and!; try done. split; [|done]. by destruct Hr.
Qed.

(** A remote endpoint is recorded exactly when the queue pair has reached RTS: from a
    fresh connection, [connect] ends connected or with an error and no remote
    endpoint, and a connection that is not fresh refuses. *)
Lemma connect_records c r :
  (fresh c -> match connect c r with
              | Some (c', Ok _) => connected c' /\ remote c' = Some r
              | Some (c', Err (Io (OsError code))) => code <> 0 /\ remote c' = None /\ state (qp c') <> Rts
              | _ => False
              end) /\
  (state (qp c) <> Reset -> connect c r = Some (c, Err (Io InvalidInput))).
Proof.
  unfold connect. split.
  - intros [Hs Hr]. set (m := rc_connect_ib _ _ _ _ _ _ _ _).
    assert (match m with
            | Some (q', Ok _) => state q' = Rts
            | Some (q', Err (OsError code)) => code <> 0 /\ state q' <> Rts
            | _ => False end) as H.
    { subst m. unfold rc_connect_ib, rc_modify_to_init, rc_modify_to_rtr_ib, rc_modify_to_rts.
      unfold p_bind at 1.
      match goal with |- context [(require Reset ;;; modify _ ?a ?k)%prog (qp c)] =>
        destruct (QpProps.guarded_step modify_qp Reset a k (qp c) Hs) as (q1 & _ & [[H1 ->]|(H1 & e & He & ->)]) end;
        [|split; [done|congruence]].
      unfold p_bind at 1.
      match goal with |- context [(require Init ;;; modify _ ?a ?k)%prog q1] =>
        destruct (QpProps.guarded_step modify_qp Init a k q1 H1) as (q2 & _ & [[H2 ->]|(H2 & e & He & ->)]) end;
        [|split; [done|congruence]].
      match goal with |- context [(require Rtr ;;; modify _ ?a ?k)%prog q2] =>
        destruct (QpProps.guarded_step modify_qp Rtr a k q2 H2) as (q3 & _ & [[H3 ->]|(H3 & e & He & ->)]) end;
        [done|split; [done|congruence]]. }
    destruct m as [[q [u|[| code | |]]]|]; try done; cbn.
    by destruct H.
  - intros Hs. rewrite QpProps.connect_refused by done. by destruct c.
Qed.

End Connections.
Arguments Conn : clear implicits.

(** Two connections that exchange [local_endpoint], whatever the sides fill in for
    their buffers, on a device that insists on the required attributes: both reach
    RTS, each queue pair is directed to the other's number and identifier, and the
    sequence numbers agree. *)
Lemma connections_pair (c1 c2 : Conn QpProps.RefDev) (r1 r2 : RemoteEndpoint) (lw rw rr ra : Z) :
  dev (qp c1) = QpProps.mkRef Reset [] -> dev (qp c2) = QpProps.mkRef Reset [] ->
  fresh c1 -> fresh c2 ->
  (re_qpn r1, re_psn r1, re_lid r1) = (qpn (qp c1), 0, port_lid c1) ->
  (re_qpn r2, re_psn r2, re_lid r2) = (qpn (qp c2), 0, port_lid c2) ->
  exists c1' c2' i1 a1 s1 i2 a2 s2,
    connect (QpProps.reference_modify QpProps.QptRc) lw rw rr ra c1 r2 = Some (c1', Ok tt) /\
    connect (QpProps.reference_modify QpProps.QptRc) lw rw rr ra c2 r1 = Some (c2', Ok tt) /\
    connected c1' /\ connected c2' /\
    QpProps.ref_calls (dev (qp c1')) = [i1; a1; s1] /\ QpProps.ref_calls (dev (qp c2')) = [i2; a2; s2] /\
    dest_qp_num a1 = qpn (qp c2) /\ dest_qp_num a2 = qpn (qp c1) /\
    rq_psn a1 = sq_psn s2 /\ rq_psn a2 = sq_psn s1 /\
    ah_dlid (ah_attr a1) = port_lid c2 /\ ah_dlid (ah_attr a2) = port_lid c1.
Proof.
  destruct c1 as [id1 [d1 n1 k1 st1 sq1 rq1] p1 l1 m1], c2 as [id2 [d2 n2 k2 st2 sq2 rq2] p2 l2 m2].
  unfold fresh. cbn. intros -> -> [-> ->] [-> ->] [= E1 E2 E3] [= F1 F2 F3]. unfold connect. cbn [qp port].
  rewrite E1, E2, E3, F1, F2, F3. do 8 eexists.
  split_and!; try reflexivity; split; try reflexivity; by eexists.
Qed.

End Connection.
