(* ===== verification/QpWorld.v ===== *)
(** * QpWorld: queue pairs on a completion queue

    Queue pairs are shared objects: the program holds references to them, the
    completion queue [mlx5/src/cq.rs] holds a weak reference in its table and a
    strong one in its one-entry cache, and dropping the last strong reference runs
    [Drop] of [RcQp], [UdQp] or [Dci], which unregisters the queue pair.  This
    file models the builders' registration ([builder_common.rs]), the references
    with their counts, and [Cq::poll] with the dispatch to live queue pairs.  As
    long as the program keeps its own reference, polling is the dispatch of
    [Cq.poll], and an owned receive queue hands its entries back in order; once it
    does not, replacing the cache drops the queue pair in the middle of the
    assignment and the cached reference is dropped twice. *)
From S2P Require Import Prelude Wqe Cq RecvQueue QueuePair.

Module QpWorld.
Import QueuePair.

(** [trait CompletionTarget], for a queue pair of type [T] and callbacks of type [C]. *)
Class CompletionTarget (T C : Type) : Type := {
  target_qpn : T -> Z;
  target_dispatch : T -> Cq.Cqe -> T * option C;
}.

#[export] Instance owned_target {D E F : Type} :
    CompletionTarget (Qp D E (OwnedRq F)) (Callback E F) :=
  { target_qpn := qpn; target_dispatch := dispatch_cqe }.

#[export] Instance dci_target {D E R : Type} : CompletionTarget (Qp D E R) (Callback E False) | 10 :=
  { target_qpn := qpn; target_dispatch := dci_dispatch_cqe }.

Section World.
Context {T C : Type} `{!CompletionTarget T C}.

(** One completion queue: its ring, its table and cache (handles as weak and as
    strong references), the queue pairs alive by handle, how many strong references
    each has in all - the program's, other completion queues' and this one's - and
    how many of its two [Weak<Cq>] fields name this queue. *)
Record World : Type := mkWorld {
  ring : Cq.CqState;
  queues : Cq.Queues (W := Z) (T := Z);
  objs : gmap Z T;
  strong : gmap Z Z;
  attached : gmap Z nat;
}.

Definition count (w : World) (h : Z) : Z := default 0 (strong w !! h).

Definition set_queues (w : World) qs : World := mkWorld (ring w) qs (objs w) (strong w) (attached w).
Definition set_ring (w : World) s : World := mkWorld s (queues w) (objs w) (strong w) (attached w).
Definition set_objs (w : World) o : World := mkWorld (ring w) (queues w) o (strong w) (attached w).
Definition add_ref (w : World) (h n : Z) : World :=
  mkWorld (ring w) (queues w) (objs w) (<[h := count w h + n]> (strong w)) (attached w).
Definition set_cache (w : World) c : World := set_queues w (Cq.mkQueues (Cq.queues (queues w)) c).

(** [Weak::upgrade]: a reference only while one is left. *)
Definition upgrade (w : World) (h : Z) : option Z := if 0 <? count w h then Some h else None.

(** [unregister_queue]: the table's entry goes, and the cache when it is for this
    number - [*cache = None] drops the old reference in place, with [drop], and then
    overwrites it. *)
Definition unregister_queue (drop : World -> Z -> World) (w : World) (qpn : Z) : World :=
  let w := set_queues w (Cq.mkQueues (delete qpn (Cq.queues (queues w)))
                           (Cq.last_queue_cache (queues w))) in
  match Cq.last_queue_cache (queues w) with
  | Some (cached_qpn, old) => if cached_qpn =? qpn then set_cache (drop w old) None else w
  | None => w
  end.

(** Dropping a reference; the last one runs [Drop] of the queue pair, which
    unregisters it once per [Weak<Cq>] field that names this queue.  The fuel bounds
    the nesting. *)
Fixpoint rc_drop (fuel : nat) (w : World) (h : Z) : World :=
  match fuel with
  | O => w
  | S fuel =>
      let w := add_ref w h (- 1) in
      if count w h =? 0 then
        match objs w !! h with
        | Some t =>
            let w := Nat.iter (default 0%nat (attached w !! h))
                       (fun w => unregister_queue (rc_drop fuel) w (target_qpn t)) w in
            set_objs w (delete h (objs w))
        | None => w
        end
      else w
  end.

(** Enough for the nested drop of the cached reference. *)
Definition drop_ref (w : World) (h : Z) : World := rc_drop 3 w h.

(** The slow path of [find_queue]: the caller gets a strong reference, and the cache
    another one; the assignment drops the reference that was cached in place before
    it overwrites it. *)
Definition find_slow (w : World) (qpn : Z) : World * option Z :=
  match Cq.queues (queues w) !! qpn ≫= upgrade w with
  | Some h =>
      let w' := add_ref (add_ref w h 1) h 1 in
      let w' := match Cq.last_queue_cache (queues w) with
                | Some (_, old) => drop_ref w' old
                | None => w'
                end in
      (set_cache w' (Some (qpn, h)), Some h)
  | None => (w, None)
  end.

Definition find_queue (w : World) (qpn : Z) : World * option Z :=
  match Cq.last_queue_cache (queues w) with
  | Some (cached_qpn, h) =>
      if cached_qpn =? qpn then (add_ref w h 1, Some h) else find_slow w qpn
  | None => find_slow w qpn
  end.

(** One completion: the queue pair's handler, then the reference goes out of scope. *)
Definition dispatch_one (w : World) (c : Cq.Cqe) : World * list (Z * C) :=
  match find_queue w (Cq.qp_num c) with
  | (w, None) => (w, [])
  | (w, Some h) =>
      match objs w !! h with
      | Some t =>
          let '(t, cb) := target_dispatch t c in
          (drop_ref (set_objs w (<[h := t]> (objs w))) h,
           match cb with Some cb => [(h, cb)] | None => [] end)
      | None => (drop_ref w h, [])
      end
  end.

(** [Cq::poll]: the world, the callbacks run, and the number polled. *)
Fixpoint poll (fuel : nat) (w : World) : option (World * list (Z * C) * Z) :=
  match fuel with
  | O => None
  | S fuel =>
      match Cq.try_next_cqe (ring w) with
      | (s, None) => Some (set_ring w s, [], 0)
      | (s, Some c) =>
          let '(w, l1) := dispatch_one (set_ring w s) c in
          '(w, l2, n) ← poll fuel w;
          Some (w, l1 ++ l2, n + 1)
      end
  end.

(** [register_with_cqs] and the hybrid and send-only builders: the new object, held by
    its caller, in the table once per side that uses this queue. *)
Definition build (w : World) (h : Z) (t : T) (sides : nat) : World :=
  let w := mkWorld (ring w) (queues w) (<[h := t]> (objs w)) (<[h := 1]> (strong w))
             (<[h := sides]> (attached w)) in
  Nat.iter sides
    (fun w => set_queues w (Cq.register_queue (queues w) (target_qpn t) h)) w.

End World.
Arguments World : clear implicits.
Arguments drop_ref : simpl never.

(** ** Polling while the program keeps its references *)

Section Safe.
Context {T C : Type} `{!CompletionTarget T C}.
Implicit Types (w : World T).

Definition cache w : option (Z * Z) := Cq.last_queue_cache (queues w).
Definition registered w : gmap Z Z := Cq.queues (queues w).

(** The cache's share of the references, and everybody else's. *)
Definition cached w (h : Z) : Z :=
  match cache w with Some (_, h') => if h' =? h then 1 else 0 | None => 0 end.
Definition outside w (h : Z) : Z := count w h - cached w h.

(** Every registered queue pair is alive and somebody besides the cache holds it; the
    cache agrees with the table. *)
Record safe w : Prop := mkSafe {
  s_held : forall qpn h, registered w !! qpn = Some h -> 1 <= outside w h /\ is_Some (objs w !! h);
  s_cache : forall qpn h, cache w = Some (qpn, h) -> registered w !! qpn = Some h;
}.

Lemma count_add_ref w h n g : count (add_ref w h n) g = count w g + (if h =? g then n else 0).
Proof.
  unfold count at 1, add_ref. cbn. destruct (h =? g) eqn:E; guards.
  - subst. by rewrite lookup_insert_eq.
  - rewrite lookup_insert_ne by done. unfold count. lia.
Qed.

Lemma outside_set_cache w n h g :
  outside (set_cache w (Some (n, h))) g = count w g - (if h =? g then 1 else 0).
Proof. done. Qed.

(** Dropping a reference that is not the last one only counts. *)
Lemma rc_drop_shared fuel w h : count w h <> 1 -> rc_drop (S fuel) w h = add_ref w h (- 1).
Proof.
  intros H. cbn [rc_drop].
  rewrite count_add_ref, Z.eqb_refl, (proj2 (Z.eqb_neq _ _)) by lia. done.
Qed.

Lemma drop_ref_shared w h : 1 < count w h -> drop_ref w h = add_ref w h (- 1).
Proof. intros H. apply rc_drop_shared. lia. Qed.

Lemma cached_range w h : 0 <= cached w h <= 1.
Proof. unfold cached. destruct (cache w) as [[? ?]|]; [destruct (_ =? _)|]; lia. Qed.

(** What a lookup does: the caller's reference, and the cache's moved to the queue found. *)
Record found w (qpn : Z) w' (o : option Z) : Prop := mkFound {
  f_res : o = registered w !! qpn;
  f_ring : ring w' = ring w;
  f_reg : registered w' = registered w;
  f_objs : objs w' = objs w;
  f_cache : forall n h, cache w' = Some (n, h) -> registered w !! n = Some h;
  f_count : forall g, outside w' g = outside w g + (if decide (o = Some g) then 1 else 0);
}.

Lemma find_slow_found w qpn w' o : safe w -> find_slow w qpn = (w', o) -> found w qpn w' o.
Proof.
  intros [H1 H2]. unfold find_slow. fold (registered w) (cache w).
  destruct (registered w !! qpn) as [h|] eqn:E; cbn.
  2:{ intros [= <- <-]. split; try done. intros g. rewrite decide_False by done. lia. }
  destruct (H1 qpn h E) as [G1 _]. unfold upgrade.
  pose proof (cached_range w h). unfold outside in G1.
  rewrite (proj2 (Z.ltb_lt _ _)) by lia.
  assert (forall w0, (forall g, count w0 g = count w g + (if h =? g then 2 else 0) - cached w g) ->
    ring w0 = ring w -> registered w0 = registered w -> objs w0 = objs w ->
    found w qpn (set_cache w0 (Some (qpn, h))) (Some h)) as Hw0.
  { intros w0 Hc E1 E2 E3. split; try done.
    - by intros n' h' [= <- <-].
    - intros g. rewrite outside_set_cache, Hc. unfold outside.
      destruct (decide (Some h = Some g)) as [[= ->]|Hne]; [rewrite Z.eqb_refl; lia|].
      rewrite (proj2 (Z.eqb_neq h g)) by congruence. lia. }
  destruct (cache w) as [[n old]|] eqn:Ec; cbn zeta.
  - destruct (H1 n old (H2 n old eq_refl)) as [G2 _]. unfold outside, cached in G2.
    rewrite Ec, Z.eqb_refl in G2.
    rewrite drop_ref_shared by (rewrite !count_add_ref; destruct (h =? old); lia).
    intros [= <- <-]. apply Hw0; try done. intros g. rewrite !count_add_ref. unfold cached.
    rewrite Ec. destruct (h =? g), (old =? g); lia.
  - intros [= <- <-]. apply Hw0; try done. intros g. rewrite !count_add_ref. unfold cached.
    rewrite Ec. destruct (h =? g); lia.
Qed.

Lemma find_queue_found w qpn w' o : safe w -> find_queue w qpn = (w', o) -> found w qpn w' o.
Proof.
  intros Hs. pose proof (find_slow_found w qpn w' o Hs) as Hslow. unfold find_queue. fold (cache w).
  destruct (cache w) as [[n h]|] eqn:Ec; [|by apply Hslow].
  destruct (n =? qpn) eqn:En; [|by apply Hslow]. guards. subst n. intros [= <- <-].
  split; try done.
  - symmetry. by apply (s_cache _ Hs).
  - by apply (s_cache _ Hs).
  - intros g. unfold outside. rewrite count_add_ref. change (cached (add_ref w h 1) g) with (cached w g).
    destruct (decide (Some h = Some g)) as [[= ->]|Hne]; [rewrite Z.eqb_refl; lia|].
    rewrite (proj2 (Z.eqb_neq h g)) by congruence. lia.
Qed.

(** ** The dispatch as a function of the completions *)

(** Each completion to the queue pair its number is registered for, in order. *)
Fixpoint deliver (tbl : gmap Z Z) (ts : gmap Z T) (cs : list Cq.Cqe) : gmap Z T * list (Z * C) :=
  match cs with
  | [] => (ts, [])
  | c :: cs =>
      match tbl !! Cq.qp_num c with
      | Some h =>
          match ts !! h with
          | Some t =>
              let '(t, cb) := target_dispatch t c in
              let '(ts, l) := deliver tbl (<[h := t]> ts) cs in
              (ts, match cb with Some cb => [(h, cb)] | None => [] end ++ l)
          | None => deliver tbl ts cs
          end
      | None => deliver tbl ts cs
      end
  end.

(** The part of the world a poll leaves alone. *)
Record kept w w' : Prop := mkKept {
  k_reg : registered w' = registered w;
  k_outside : forall h, outside w' h = outside w h;
}.

Lemma dispatch_one_spec w c w' l :
  safe w -> dispatch_one w c = (w', l) ->
  safe w' /\ kept w w' /\ ring w' = ring w /\
  (objs w', l) = deliver (registered w) (objs w) [c].
Proof.
  intros Hs. unfold dispatch_one. destruct (find_queue w (Cq.qp_num c)) as [w1 o] eqn:Ef.
  pose proof (find_queue_found _ _ _ _ Hs Ef) as [F1 F2 F3 F4 F5 F6].
  cbn [deliver]. rewrite <-F1, <-F4. destruct o as [h|].
  2:{ intros [= <- <-]. split; [|split; [|done]].
      - split; [|intros ? ? G; rewrite F3; by apply (F5 _ _ G)].
        intros n h G. rewrite F6, F4. rewrite decide_False by done. rewrite Z.add_0_r.
        apply (s_held _ Hs n). by rewrite <-F3.
      - split; [done|]. intros h. rewrite F6, decide_False by done. lia. }
  destruct (s_held _ Hs _ _ (eq_sym F1)) as [G1 [t Ht]]. rewrite F4, Ht.
  destruct (target_dispatch t c) as [t' cb] eqn:Et.
  assert (1 < count w1 h) as Hcount.
  { specialize (F6 h). rewrite decide_True in F6 by done. pose proof (cached_range w1 h).
    unfold outside in *. lia. }
  rewrite drop_ref_shared by done. intros [= <- <-].
  assert (forall g, outside (add_ref (set_objs w1 (<[h := t']> (objs w))) h (-1)) g = outside w g) as Ho.
  { intros g. unfold outside at 1. rewrite count_add_ref.
    change (count (set_objs _ _) g) with (count w1 g).
    change (cached (add_ref _ _ _) g) with (cached w1 g). specialize (F6 g). unfold outside in *.
    destruct (decide (Some h = Some g)) as [[= ->]|Hne]; [rewrite Z.eqb_refl; lia|].
    rewrite (proj2 (Z.eqb_neq h g)) by congruence. lia. }
  split; [|split; [|split; [done|by rewrite app_nil_r]]].
  - split.
    + intros n g G. rewrite Ho. change (registered w1 !! n = Some g) in G. rewrite F3 in G.
      destruct (s_held _ Hs n g G) as [K1 K2]. split; [done|]. cbn.
      destruct (decide (h = g)) as [->|]; [by rewrite lookup_insert_eq|by rewrite lookup_insert_ne].
    + intros n g G. change (registered w1 !! n = Some g). rewrite F3. by apply F5.
  - split; [done|exact Ho].
Qed.

Lemma delivered_cons tbl ts c cs :
  deliver tbl ts (c :: cs) =
    let '(ts1, l1) := deliver tbl ts [c] in
    let '(ts2, l2) := deliver tbl ts1 cs in (ts2, l1 ++ l2).
Proof.
  cbn. destruct (tbl !! _) as [h|]; [|by destruct (deliver tbl ts cs)].
  destruct (ts !! h) as [t|]; [|by destruct (deliver tbl ts cs)].
  destruct (target_dispatch t c) as [t' cb]. rewrite app_nil_r.
  by destruct (deliver tbl _ cs).
Qed.

(** Polling the world is polling the ring and delivering. *)
Lemma world_poll_spec fuel w :
  safe w ->
  match poll fuel w, Cq.poll_raw fuel (ring w) with
  | Some (w', l, n), Some (s, cs) =>
      safe w' /\ kept w w' /\ ring w' = s /\ n = Z.of_nat (length cs) /\
      (objs w', l) = deliver (registered w) (objs w) cs
  | None, None => True
  | _, _ => False
  end.
Proof.
  revert w. induction fuel as [|fuel IH]; intros w Hs; cbn [poll Cq.poll_raw]; [done|].
  destruct (Cq.try_next_cqe (ring w)) as [s [c|]].
  2:{ split_and!; try done. by destruct Hs. }
  destruct (dispatch_one (set_ring w s) c) as [w1 l1] eqn:E1.
  assert (safe (set_ring w s)) as Hs1 by by destruct Hs.
  destruct (dispatch_one_spec _ _ _ _ Hs1 E1) as (G1 & [G2 G3] & G4 & G5).
  specialize (IH w1 G1). rewrite G4 in IH. cbn [ring set_ring] in IH.
  destruct (poll fuel w1) as [[[w2 l2] n]|], (Cq.poll_raw fuel s) as [[s2 cs]|]; try done.
  destruct IH as (K1 & [K2 K3] & K4 & K5 & K6). cbn [mbind option_bind].
  change (registered (set_ring w s)) with (registered w) in *.
  change (objs (set_ring w s)) with (objs w) in *.
  split_and!; try done; [|cbn; lia|].
  - split; [by rewrite K2|]. intros h. by rewrite K3, G3.
  - rewrite delivered_cons, <-G5. rewrite G2 in K6. by rewrite <-K6.
Qed.

End Safe.

(** ** Receives come back in order *)

Section Receives.
Context {D E F : Type}.
Notation OwnedQp := (Qp D E (OwnedRq F)).
Implicit Types (w : World OwnedQp).

(** The completions of one queue pair, all of them receives, carry the indices of its
    outstanding requests in order. *)
Definition in_order (start : Z) (cs : list Cq.Cqe) : Prop :=
  forall i c, cs !! i = Some c ->
    Cq.is_responder (Cq.opcode c) = true /\ Cq.wqe_counter c = u16 (start + Z.of_nat i).

Lemma in_order_cons start c cs :
  in_order start (c :: cs) ->
  Cq.is_responder (Cq.opcode c) = true /\ Cq.wqe_counter c = u16 (start + 0) /\
  in_order (u16 (start + 1)) cs.
Proof.
  intros H. destruct (H 0%nat c eq_refl) as [H1 H2]. split; [done|]. split; [done|].
  intros i x Hi. destruct (H (S i) x Hi) as [G1 G2]. split; [done|]. rewrite G2.
  unfold u16, wrap. rewrite Z.add_mod_idemp_l by lia. f_equal. lia.
Qed.

Definition mine (n : Z) (cs : list Cq.Cqe) : list Cq.Cqe := filter (fun c => Cq.qp_num c = n) cs.

(** The callbacks of receives [l] completed by [cs]. *)
Definition callbacks (h : Z) (cs : list Cq.Cqe) (l : list (RecvQueue.Req F)) : list (Z * Callback E F) :=
  zip_with (fun c r => (h, RqCallback c (RecvQueue.r_entry r))) cs l.

Definition of_handle (h : Z) (l : list (Z * Callback E F)) : list (Z * Callback E F) :=
  filter (fun p => p.1 = h) l.

Lemma deliver_receives tbl n h cs : forall (ts : gmap Z OwnedQp) (q : OwnedQp) r l,
  tbl !! n = Some h -> (forall n', tbl !! n' = Some h -> n' = n) ->
  ts !! h = Some q -> rq q = Some r -> RecvQueue.holds r l ->
  in_order (RecvQueue.ci r) (mine n cs) -> (length (mine n cs) <= length l)%nat ->
  exists (q' : OwnedQp) r', (deliver tbl ts cs).1 !! h = Some q' /\ rq q' = Some r' /\ sq q' = sq q /\
    RecvQueue.holds r' (drop (length (mine n cs)) l) /\
    of_handle h (deliver tbl ts cs).2 = callbacks h (mine n cs) l.
Proof.
  induction cs as [|c cs IH]; intros ts q r l Hn Hinj Hq Hr Hh Hord Hlen.
  { exists q, r. done. }
  rewrite delivered_cons. unfold mine in Hord, Hlen |- *. rewrite filter_cons in Hord, Hlen |- *.
  destruct (decide (Cq.qp_num c = n)) as [Hc|Hc].
  - destruct l as [|x l]; [cbn in Hlen; lia|].
    destruct (in_order_cons _ _ _ Hord) as (O1 & O2 & O3).
    destruct (RecvQueue.rq_complete_holds r (x :: l) 0 x Hh eq_refl) as [P1 P2].
    cbn [deliver]. rewrite Hc, Hn. cbn iota beta. rewrite Hq. cbn [target_dispatch owned_target].
    unfold dispatch_cqe. rewrite O1. unfold complete_rq. rewrite Hr, O2. change (Z.of_nat 0) with 0 in P1, P2.
    destruct (RecvQueue.process_completion r (u16 (RecvQueue.ci r + 0))) as [r1 e] eqn:Ep.
    cbn [fst snd] in P1, P2. subst e. cbn [fmap option_fmap option_map].
    assert (RecvQueue.ci r1 = u16 (RecvQueue.ci r + 1)) as Eci.
    { apply (f_equal (fun p => RecvQueue.ci p.1)) in Ep. cbn in Ep. rewrite <-Ep.
      unfold u16, wrap. rewrite Z.add_mod_idemp_l by lia. f_equal. lia. }
    destruct (IH (<[h := set_rq q r1]> ts) (set_rq q r1) r1 l) as (q' & r' & K1 & K2 & K3 & K4 & K5);
      try done; [by rewrite lookup_insert_eq|by rewrite Eci|cbn in Hlen; unfold mine; lia|].
    exists q', r'. destruct (deliver tbl (<[h := set_rq q r1]> ts) cs) as [ts2 l2].
    cbn [fst snd] in *. split_and!; try done. unfold of_handle in *.
    rewrite filter_app, K5. unfold callbacks. cbn [zip_with]. rewrite app_nil_r.
    rewrite filter_cons, decide_True, filter_nil by done. done.
  - assert (forall ts1 l1, deliver tbl ts [c] = (ts1, l1) -> ts1 !! h = Some q /\ of_handle h l1 = []) as H1.
    { intros ts1 l1. cbn. destruct (tbl !! Cq.qp_num c) as [g|] eqn:Eg; [|by intros [= <- <-]].
      assert (g <> h) as Hg by (intros ->; by apply Hinj in Eg).
      destruct (ts !! g) as [t|]; [|by intros [= <- <-]]. destruct (dispatch_cqe t c) as [t' cb].
      intros [= <- <-]. rewrite lookup_insert_ne by done. split; [done|]. rewrite app_nil_r.
      unfold of_handle. destruct cb; [|done]. by rewrite filter_cons, decide_False, filter_nil. }
    destruct (deliver tbl ts [c]) as [ts1 l1] eqn:E1. destruct (H1 _ _ eq_refl) as [G1 G2].
    destruct (IH ts1 q r l) as (q' & r' & K1 & K2 & K3 & K4 & K5); try done.
    exists q', r'. destruct (deliver tbl ts1 cs) as [ts2 l2]. cbn [fst snd] in *.
    split_and!; try done. unfold of_handle in *. by rewrite filter_app, G2, K5.
Qed.

(** C13: Receives come back to their posters, in order, through the completion queue.
    While the program holds its queue pairs, polling a completion queue returns
    exactly when reading its entries does and reports as many; a queue pair on it
    whose completions carry the indices of its outstanding receives in order gets
    one receive callback per completion, each with the entry posted for it, oldest
    first, whatever other queue pairs' completions are in between; afterwards its
    queue holds the receives that are left, its send queue is untouched, and every
    reference is accounted for. *)
Theorem poll_completes_receives fuel w s cs n h (q : OwnedQp) r l :
  safe w -> Cq.poll_raw fuel (ring w) = Some (s, cs) ->
  registered w !! n = Some h -> (forall n', registered w !! n' = Some h -> n' = n) ->
  objs w !! h = Some q -> rq q = Some r -> RecvQueue.holds r l ->
  in_order (RecvQueue.ci r) (mine n cs) -> (length (mine n cs) <= length l)%nat ->
  exists w' cbs (q' : OwnedQp) r',
    poll fuel w = Some (w', cbs, Z.of_nat (length cs)) /\
    ring w' = s /\ safe w' /\ kept w w' /\
    of_handle h cbs = callbacks h (mine n cs) l /\
    objs w' !! h = Some q' /\ rq q' = Some r' /\ sq q' = sq q /\
    RecvQueue.holds r' (drop (length (mine n cs)) l).
Proof.
  intros Hs Hraw Hn Hinj Hq Hr Hh Hord Hlen.
  pose proof (world_poll_spec fuel w Hs) as Hp. rewrite Hraw in Hp.
  destruct (poll fuel w) as [[[w' cbs] m]|]; [|done].
  destruct Hp as (P1 & P2 & P3 & P4 & P5).
  destruct (deliver_receives (registered w) n h cs (objs w) q r l) as (q' & r' & K1 & K2 & K3 & K4 & K5);
    try done.
  rewrite <-P5 in K1, K5. exists w', cbs, q', r'. by subst m.
Qed.

End Receives.

(** ** Building and dropping queue pairs *)

Section Lifetime.
Context {T C : Type} `{!CompletionTarget T C}.
Implicit Types (w : World T).

Lemma iter_register k w (n h : Z) :
  Nat.iter (S k) (fun w => set_queues w (Cq.register_queue (queues w) n h)) w
  = set_queues w (Cq.register_queue (queues w) n h).
Proof.
  induction k as [|k IH]; [done|]. rewrite Nat.iter_succ, IH.
  unfold set_queues, Cq.register_queue. cbn. by rewrite insert_insert_eq.
Qed.

(** A new queue pair under a fresh handle and a number not in use. *)
Lemma build_safe w h t k :
  safe w -> registered w !! target_qpn t = None -> (forall n, registered w !! n <> Some h) ->
  safe (build w h t (S k)) /\ registered (build w h t (S k)) !! target_qpn t = Some h /\
  objs (build w h t (S k)) !! h = Some t /\ outside (build w h t (S k)) h = 1.
Proof.
  intros [H1 H2] Hn Hh. unfold build. rewrite iter_register.
  set (w1 := mkWorld _ _ _ _ _).
  assert (forall c, cache w = Some c -> c.2 <> h) as Hc.
  { intros [n g] E. cbn. intros ->. by apply (Hh n), H2. }
  assert (forall g, outside (set_queues w1 (Cq.register_queue (queues w1) (target_qpn t) h)) g
            = if decide (g = h) then 1 else outside w g) as Ho.
  { intros g. unfold outside, count, cached. cbn. unfold cache in *. case_decide as Hg.
    - subst g. rewrite lookup_insert_eq. cbn. destruct (Cq.last_queue_cache (queues w)) as [[n g]|] eqn:E; [|done].
      cbn. specialize (Hc _ eq_refl). cbn in Hc. by rewrite (proj2 (Z.eqb_neq _ _)).
    - by rewrite lookup_insert_ne. }
  split_and!; cbn; [|by rewrite lookup_insert_eq|by rewrite lookup_insert_eq|].
  - split.
    + intros n g. cbn. rewrite Ho. destruct (decide (n = target_qpn t)) as [->|Hne].
      * rewrite lookup_insert_eq. intros [= <-]. rewrite decide_True, lookup_insert_eq by done. by split; [lia|eexists].
      * rewrite lookup_insert_ne by done. intros G. destruct (H1 n g G) as [K1 K2].
        case_decide as Hg; [subst g; by apply Hh in G|]. by rewrite lookup_insert_ne.
    + intros n g G. cbn. change (cache w = Some (n, g)) in G. specialize (H2 n g G).
      destruct (decide (n = target_qpn t)) as [->|]; [congruence|by rewrite lookup_insert_ne].
  - rewrite Ho, decide_True by done. done.
Qed.

Lemma unregister_other drop w n :
  (forall m g, cache w = Some (m, g) -> m <> n) ->
  unregister_queue drop w n = set_queues w (Cq.mkQueues (delete n (registered w)) (cache w)).
Proof.
  intros H. unfold unregister_queue, registered. cbn [queues set_queues Cq.last_queue_cache].
  fold (cache w). destruct (cache w) as [[m g]|] eqn:E; [|done].
  by rewrite (proj2 (Z.eqb_neq m n)) by (by eapply H).
Qed.

Lemma unregister_cached drop w n g :
  cache w = Some (n, g) ->
  unregister_queue drop w n
  = set_cache (drop (set_queues w (Cq.mkQueues (delete n (registered w)) (cache w))) g) None.
Proof.
  intros H. unfold unregister_queue, registered. cbn [queues set_queues Cq.last_queue_cache].
  fold (cache w). by rewrite H, Z.eqb_refl.
Qed.

Lemma rc_drop_last fuel w h t :
  count w h = 1 -> objs w !! h = Some t ->
  rc_drop (S fuel) w h =
    let w := Nat.iter (default 0%nat (attached w !! h))
               (fun w => unregister_queue (rc_drop fuel) w (target_qpn t)) (add_ref w h (-1)) in
    set_objs w (delete h (objs w)).
Proof.
  intros Hc Ht. cbn [rc_drop]. rewrite count_add_ref, Z.eqb_refl, Hc. cbn [Z.eqb Z.add Z.opp Z.pos_sub].
  change (objs (add_ref w h (-1))) with (objs w). by rewrite Ht.
Qed.

(** Dropping the last reference of a queue pair that is not cached unregisters it. *)
Lemma drop_unregisters w h t a :
  objs w !! h = Some t -> count w h = 1 -> attached w !! h = Some (S a) -> (a <= 1)%nat ->
  (forall n g, cache w = Some (n, g) -> n <> target_qpn t) ->
  registered (drop_ref w h) = delete (target_qpn t) (registered w) /\
  objs (drop_ref w h) = delete h (objs w) /\ cache (drop_ref w h) = cache w /\
  count (drop_ref w h) h = 0.
Proof.
  intros Ht Hc Ha Hle Hcache. unfold drop_ref. rewrite (rc_drop_last _ _ _ t) by done. rewrite Ha.
  set (w0 := add_ref w h (-1)).
  assert (count w0 h = 0) as H0 by (unfold w0; rewrite count_add_ref, Z.eqb_refl; lia).
  destruct a as [|[|a]]; [| |lia]; cbn [default id Nat.iter nat_rect];
    rewrite ?(unregister_other _ w0) by exact Hcache; rewrite ?unregister_other by exact Hcache;
    (split; [|done]); [done|apply delete_delete_eq].
Qed.

(** A queue pair cached by its completion queue outlives its owner, and its
    reference in the cache is dropped twice.  Let the program's reference be the
    only one besides the cache's.  When the program drops it, [Drop] does not run:
    the queue pair stays alive and registered.  When a completion of another queue
    pair is looked up next, the assignment to the cache drops the cached reference
    in place; that runs [Drop], which unregisters the queue pair while the cache
    still names it and so drops the same reference again: the count goes below zero
    after the queue pair is gone. *)
Theorem cached_queue_dropped_twice w n1 h1 t1 n2 h2 a :
  safe w -> cache w = Some (n1, h1) -> outside w h1 = 1 ->
  objs w !! h1 = Some t1 -> target_qpn t1 = n1 ->
  attached w !! h1 = Some (S a) -> (a <= 1)%nat ->
  registered w !! n2 = Some h2 -> h2 <> h1 -> n2 <> n1 ->
  let w1 := drop_ref w h1 in
  let '(w2, o) := find_queue w1 n2 in
  objs w1 !! h1 = Some t1 /\ registered w1 !! n1 = Some h1 /\ count w1 h1 = 1 /\
  o = Some h2 /\ objs w2 !! h1 = None /\ count w2 h1 = -1.
Proof.
  intros Hs Hcache Hout Ht1 Hq1 Ha Hle Hn2 Hh Hn w1.
  assert (count w h1 = 2) as Hc1.
  { unfold outside, cached in Hout. rewrite Hcache, Z.eqb_refl in Hout. lia. }
  assert (w1 = add_ref w h1 (-1)) as -> by (apply drop_ref_shared; lia).
  destruct (s_held _ Hs n2 h2 Hn2) as [Hc2 _]. unfold outside, cached in Hc2.
  rewrite Hcache, (proj2 (Z.eqb_neq h1 h2)) in Hc2 by done.
  unfold find_queue. change (Cq.last_queue_cache (queues (add_ref w h1 (-1)))) with (cache w).
  rewrite Hcache, (proj2 (Z.eqb_neq n1 n2)) by done.
  unfold find_slow. change (Cq.queues (queues (add_ref w h1 (-1)))) with (registered w).
  change (Cq.last_queue_cache (queues (add_ref w h1 (-1)))) with (cache w).
  rewrite Hn2, Hcache. cbn [mbind option_bind]. unfold upgrade.
  rewrite count_add_ref, (proj2 (Z.eqb_neq h1 h2)), (proj2 (Z.ltb_lt _ _)) by (done || lia). cbn zeta.
  split; [done|]. split; [by apply (s_cache _ Hs)|]. split; [rewrite count_add_ref, Z.eqb_refl; lia|].
  split; [done|].
  set (w0 := add_ref (add_ref (add_ref w h1 (-1)) h2 1) h2 1).
  assert (count w0 h1 = 1) as Hw0.
  { unfold w0. rewrite !count_add_ref, Z.eqb_refl, (proj2 (Z.eqb_neq h2 h1)) by done. lia. }
  assert (Cq.last_queue_cache (queues w0) = Some (n1, h1)) as Hcw by exact Hcache.
  assert (objs w0 !! h1 = Some t1) as Ho by exact Ht1.
  assert (attached w0 !! h1 = Some (S a)) as Haw by exact Ha.
  clearbody w0. unfold drop_ref. rewrite (rc_drop_last _ _ _ t1), Haw, Hq1 by done.
  set (w3 := add_ref w0 h1 (-1)).
  assert (count w3 h1 = 0) as H3 by (unfold w3; rewrite count_add_ref, Z.eqb_refl; lia).
  assert (cache w3 = Some (n1, h1)) as Hc3 by exact Hcw.
  set (w4 := unregister_queue (rc_drop 2) w3 n1).
  assert (count w4 h1 = -1 /\ cache w4 = None) as [H4 Hc4].
  { unfold w4. rewrite (unregister_cached _ _ _ h1) by done. split; [|done].
    change (count (rc_drop 2 (set_queues w3 (Cq.mkQueues (delete n1 (registered w3)) (cache w3))) h1) h1 = -1).
    set (w5 := set_queues w3 _). assert (count w5 h1 = 0) as H5 by exact H3. clearbody w5.
    rewrite rc_drop_shared, count_add_ref, Z.eqb_refl by lia. lia. }
  destruct a as [|[|a]]; [| |lia]; cbn [default id Nat.iter nat_rect]; fold w4; clearbody w4.
  - split; [cbn; apply lookup_delete_eq|exact H4].
  - rewrite (unregister_other _ w4) by (by rewrite Hc4). split; [cbn; apply lookup_delete_eq|exact H4].
Qed.

End Lifetime.

(** ** The monomorphic completion queue *)

(** [trait CompletionSource]: the entry goes back to the poller's callback. *)
Class CompletionSource (T E : Type) : Type := {
  source_qpn : T -> Z;
  process : T -> Cq.Cqe -> T * option E;
}.

#[export] Instance owned_source {D E : Type} : CompletionSource (Qp D E (OwnedRq E)) E :=
  { source_qpn := qpn; process := process_cqe }.

#[export] Instance dci_source {D E R : Type} : CompletionSource (Qp D E R) E | 10 :=
  { source_qpn := qpn; process := dci_process_cqe }.

Section Mono.
Context {T E : Type} `{!CompletionSource T E}.

(** [struct MonoCq]: the ring, the table of weak references and the live queue pairs;
    there is no cache, so that polling leaves the references as they were. *)
Record MonoWorld : Type := mkMonoWorld {
  m_ring : Cq.MonoCqState;
  m_queues : gmap Z Z;
  m_objs : gmap Z T;
}.

Definition mono_register (w : MonoWorld) (h : Z) (t : T) : MonoWorld :=
  mkMonoWorld (m_ring w) (<[source_qpn t := h]> (m_queues w)) (<[h := t]> (m_objs w)).

Definition mono_unregister (w : MonoWorld) (n : Z) : MonoWorld :=
  mkMonoWorld (m_ring w) (delete n (m_queues w)) (m_objs w).

(** [MonoCq::find_queue]: [upgrade] fails when the queue pair is gone. *)
Definition mono_find_queue (w : MonoWorld) (n : Z) : option (Z * T) :=
  h ← m_queues w !! n; t ← m_objs w !! h; Some (h, t).

(** [MonoCq::dispatch_cqe]; the callback is the list of what it is called with. *)
Definition mono_dispatch_cqe (w : MonoWorld) (c : Cq.Cqe) : MonoWorld * list (Cq.Cqe * E) :=
  match mono_find_queue w (Cq.qp_num c) with
  | Some (h, t) =>
      let '(t, e) := process t c in
      (mkMonoWorld (m_ring w) (m_queues w) (<[h := t]> (m_objs w)),
       match e with Some e => [(c, e)] | None => [] end)
  | None => (w, [])
  end.

(** [MonoCq::poll]. *)
Fixpoint mono_poll (fuel : nat) (w : MonoWorld) : option (MonoWorld * list (Cq.Cqe * E) * Z) :=
  match fuel with
  | O => None
  | S fuel =>
      match Cq.mono_try_next_cqe (m_ring w) with
      | (s, None) => Some (mkMonoWorld s (m_queues w) (m_objs w), [], 0)
      | (s, Some c) =>
          let '(w, l1) := mono_dispatch_cqe (mkMonoWorld s (m_queues w) (m_objs w)) c in
          '(w, l2, n) ← mono_poll fuel w;
          Some (w, l1 ++ l2, n + 1)
      end
  end.

(** The entries alone. *)
Fixpoint mono_poll_raw (fuel : nat) (s : Cq.MonoCqState) : option (Cq.MonoCqState * list Cq.Cqe) :=
  match fuel with
  | O => None
  | S fuel =>
      match Cq.mono_try_next_cqe s with
      | (s, None) => Some (s, [])
      | (s, Some c) => '(s, cs) ← mono_poll_raw fuel s; Some (s, c :: cs)
      end
  end.

(** Dispatching a list of completions. *)
Fixpoint mono_deliver (w : MonoWorld) (cs : list Cq.Cqe) : MonoWorld * list (Cq.Cqe * E) :=
  match cs with
  | [] => (w, [])
  | c :: cs =>
      let '(w, l1) := mono_dispatch_cqe w c in
      let '(w, l2) := mono_deliver w cs in (w, l1 ++ l2)
  end.

Lemma mono_dispatch_frame w c :
  m_ring (mono_dispatch_cqe w c).1 = m_ring w /\ m_queues (mono_dispatch_cqe w c).1 = m_queues w.
Proof.
  unfold mono_dispatch_cqe. destruct (mono_find_queue w _) as [[h t]|]; [|done].
  by destruct (process t c).
Qed.

(** Dispatching does not look at the ring. *)
Lemma mono_dispatch_ring w c s :
  mono_dispatch_cqe (mkMonoWorld s (m_queues w) (m_objs w)) c
  = (mkMonoWorld s (m_queues (mono_dispatch_cqe w c).1) (m_objs (mono_dispatch_cqe w c).1),
     (mono_dispatch_cqe w c).2).
Proof.
  unfold mono_dispatch_cqe, mono_find_queue. cbn.
  destruct (m_queues w !! _) as [h|]; [|done]. cbn. destruct (m_objs w !! h) as [t|]; [|done]. cbn.
  by destruct (process t c).
Qed.

(** Polling interleaves reading and dispatching; it is the same as reading all the
    entries and then dispatching them. *)
Lemma mono_poll_spec fuel w :
  match mono_poll fuel w, mono_poll_raw fuel (m_ring w) with
  | Some (w', l, n), Some (s, cs) =>
      m_ring w' = s /\ n = Z.of_nat (length cs) /\
      m_queues w' = m_queues w /\ m_objs w' = m_objs (mono_deliver w cs).1 /\
      l = (mono_deliver w cs).2
  | None, None => True
  | _, _ => False
  end.
Proof.
  revert w. induction fuel as [|fuel IH]; intros w; cbn [mono_poll mono_poll_raw]; [done|].
  destruct (Cq.mono_try_next_cqe (m_ring w)) as [s [c|]]; [|done].
  rewrite mono_dispatch_ring. destruct (mono_dispatch_frame w c) as [_ F2].
  destruct (mono_dispatch_cqe w c) as [w1 l1] eqn:E1. cbn [fst snd] in *.
  specialize (IH (mkMonoWorld s (m_queues w1) (m_objs w1))). cbn [m_ring] in IH.
  destruct (mono_poll fuel _) as [[[w2 l2] n]|], (mono_poll_raw fuel s) as [[s2 cs]|]; try done.
  destruct IH as (H1 & H2 & H3 & H4 & H5). cbn [mbind option_bind m_queues] in *.
  assert (forall w s cs, m_objs (mono_deliver (mkMonoWorld s (m_queues w) (m_objs w)) cs).1
             = m_objs (mono_deliver w cs).1 /\
           (mono_deliver (mkMonoWorld s (m_queues w) (m_objs w)) cs).2 = (mono_deliver w cs).2) as Hd.
  { clear. intros w s cs. revert w. induction cs as [|c cs IH]; intros w; [done|]. cbn [mono_deliver].
    rewrite mono_dispatch_ring. destruct (mono_dispatch_cqe w c) as [w1 l1]. cbn [fst snd].
    destruct (IH w1) as [I1 I2]. destruct (mono_deliver (mkMonoWorld s _ _) cs), (mono_deliver w1 cs).
    cbn in *. by subst. }
  destruct (Hd w1 s cs) as [D1 D2]. cbn [mono_deliver]. rewrite E1.
  destruct (mono_deliver w1 cs) as [w3 l3]. cbn [fst snd] in *. rewrite D1 in H4. rewrite D2 in H5.
  split_and!; [done|cbn; lia|by rewrite H3|done|by subst].
Qed.

End Mono.
Arguments MonoWorld : clear implicits.

(** ** Concrete worlds *)

(** A receive completion of queue pair [n] for the request at index [i]. *)
Definition demo_cqe (n i : Z) : list Z :=
  replicate 56 0 ++ Wqe.be_bytes 4 n ++ Wqe.be_bytes 2 i ++ [0; 32].

Definition DemoQp : Type := Qp unit nat (OwnedRq nat).
Definition demo_queue_pair (n : Z) (r : RecvQueue.RecvQueueState nat) : DemoQp :=
  mkQp tt n 0 Rts None (Some r).

(** Two posted receives. *)
Definition demo_posted : RecvQueue.RecvQueueState nat :=
  (RecvQueue.rq_run RecvQueue.Rc RecvQueue.demo_rq
     [RecvQueue.OPost (RecvQueue.demo_req 0); RecvQueue.OPost (RecvQueue.demo_req 1)]).1.

(** Queue pairs 5 and 6, both with two receives; completions of 5, 6 and 5. *)
Definition demo_world : World DemoQp :=
  let s := Cq.create_cq (replicate 256 0) 2 64 in
  let s := Cq.hw_put (Cq.hw_put (Cq.hw_put s 0 (demo_cqe 5 0)) 1 (demo_cqe 6 0)) 2 (demo_cqe 5 1) in
  let w := mkWorld s (Cq.mkQueues ∅ None) ∅ ∅ ∅ in
  build (build w 50 (demo_queue_pair 5 demo_posted) 1) 60 (demo_queue_pair 6 demo_posted) 1.

Lemma demo_world_safe : safe demo_world.
Proof.
  apply build_safe; [apply build_safe; [by split|done|by intros ?]|done|].
  intros n. cbn. destruct (decide (n = 5)) as [->|]; [done|by rewrite lookup_insert_ne].
Qed.

Lemma demo_posted_holds :
  RecvQueue.holds demo_posted [RecvQueue.demo_req 0; RecvQueue.demo_req 1].
Proof.
  pose proof (RecvQueue.rq_run_spec RecvQueue.Rc
    [RecvQueue.OPost (RecvQueue.demo_req 0); RecvQueue.OPost (RecvQueue.demo_req 1)]
    RecvQueue.demo_rq [] 0 _ _ _ RecvQueue.demo_rq_holds eq_refl eq_refl) as (_ & H & _). exact H.
Qed.

Example poll_completes_receives_witness :
  exists w' cbs c1 c2,
    poll 5 demo_world = Some (w', cbs, 3) /\ safe w' /\
    of_handle 50 cbs = [(50, RqCallback c1 0%nat); (50, RqCallback c2 1%nat)] /\
    exists q' r', objs w' !! 50 = Some q' /\ rq q' = Some r' /\ RecvQueue.holds r' [].
Proof.
  destruct (Cq.poll_raw 5 (ring demo_world)) as [[s cs]|] eqn:Er; [|vm_compute in Er; discriminate].
  assert (exists c1 c2 c3, cs = [c1; c2; c3] /\ mine 5 cs = [c1; c3] /\
    in_order 0 (mine 5 cs)) as (c1 & c2 & c3 & Ecs & Em & Hord).
  { vm_compute in Er. injection Er as _ <-. do 3 eexists. split; [reflexivity|]. split; [reflexivity|].
    intros [|[|i]] c [= <-]; split; reflexivity. }
  destruct (poll_completes_receives 5 demo_world s cs 5 50 (demo_queue_pair 5 demo_posted) demo_posted
    [RecvQueue.demo_req 0; RecvQueue.demo_req 1] demo_world_safe Er eq_refl) as
    (w' & cbs & q' & r' & H1 & _ & H3 & _ & H5 & H6 & H7 & _ & H8);
    [|reflexivity|reflexivity|exact demo_posted_holds|exact Hord|by rewrite Em|].
  { intros n. cbn. destruct (decide (n = 6)) as [->|]; [discriminate|].
    rewrite lookup_insert_ne by done. destruct (decide (n = 5)) as [->|]; [done|].
    by rewrite lookup_insert_ne. }
  rewrite Em in H5, H8. rewrite Ecs in H1. exists w', cbs, c1, c3. split; [exact H1|].
  split; [exact H3|]. split; [exact H5|]. exists q', r'. split; [exact H6|]. split; [exact H7|exact H8].
Defined.

(** The same world after a completion of queue pair 5 was dispatched: 5 is cached. *)
Definition demo_cached : World DemoQp := (dispatch_one demo_world (Cq.cqe_from_ptr (demo_cqe 5 0) 0)).1.

Example cached_queue_dropped_twice_witness :
  let '(w2, o) := find_queue (drop_ref demo_cached 50) 6 in
  is_Some (objs (drop_ref demo_cached 50) !! 50) /\ o = Some 60 /\ count w2 50 = -1.
Proof.
  assert (safe demo_cached) as Hs.
  { destruct (dispatch_one demo_world (Cq.cqe_from_ptr (demo_cqe 5 0) 0)) as [w l] eqn:E.
    unfold demo_cached. rewrite E. by apply (dispatch_one_spec _ _ _ _ demo_world_safe E). }
  destruct (objs demo_cached !! 50) as [t|] eqn:Et; [|vm_compute in Et; discriminate].
  assert (target_qpn t = 5) as Eq by (vm_compute in Et; injection Et as <-; reflexivity).
  pose proof (cached_queue_dropped_twice demo_cached 5 50 t 6 60 0 Hs ltac:(reflexivity)
    ltac:(reflexivity) Et Eq ltac:(reflexivity) ltac:(lia) ltac:(reflexivity) ltac:(lia) ltac:(lia)) as H.
  cbv zeta in H. destruct (find_queue (drop_ref demo_cached 50) 6) as [w2 o].
  destruct H as (G1 & _ & _ & G4 & _ & G6). split; [by eexists|]. by split.
Defined.

End QpWorld.
