(* ===== verification/TmSrq.v ===== *)
(** * TmSrq: the tag-matching shared receive queue, [mlx5/src/tm_srq/mod.rs]

    The table for completions in any order ([UnorderedWqeTable] of
    [mlx5/src/wqe/mod.rs]), which manages blocks with a bitmap; the receive queue
    built on it, the command queue pair for tags and the completion handler.  The
    bitmap refines a set of blocks.  With completions in posting order the receive
    queue is a first-in first-out queue; with completions in any other order, for
    which the table exists, a post overwrites a request that is still outstanding. *)
From S2P Require Import Prelude Ring SendQueue Wqe Emit Cq RecvQueue QueuePair.

Module TmSrq.
Import Wqe.

(** ** The unordered table *)

Record UnorderedWqeEntry (T : Type) : Type := mkUEntry { data : T; wqebb_start : Z; wqebb_count : Z }.
Arguments mkUEntry {T} _ _ _.
Arguments data {T} _.
Arguments wqebb_start {T} _.
Arguments wqebb_count {T} _.

(** [struct UnorderedWqeTable]; [mask] is [wqebb_cnt - 1]. *)
Record UnorderedWqeTable (T : Type) : Type := mkUTable {
  entries : list (option (UnorderedWqeEntry T));
  bitmap : list Z;
  wqebb_cnt : Z;
  alloc_hint : Z;
}.
Arguments mkUTable {T} _ _ _ _.
Arguments entries {T} _.
Arguments bitmap {T} _.
Arguments wqebb_cnt {T} _.
Arguments alloc_hint {T} _.

Definition count_ones (w : Z) : Z := Z.of_nat (length (filter (fun b => Z.testbit w b = true) (seqZ 0 64))).

Section Table.
Context {T : Type}.
Implicit Types (t : UnorderedWqeTable T).

Definition utable_new (cnt : Z) : UnorderedWqeTable T :=
  mkUTable (replicate (Z.to_nat cnt) None) (replicate (Z.to_nat ((cnt + 63) / 64)) 0) cnt 0.

Definition mask t : Z := wqebb_cnt t - 1.

(** Word [idx / 64] of the bitmap. *)
Definition word t (idx : Z) : Z := default 0 (bitmap t !! Z.to_nat (idx / 64)).
Definition set_word t (idx v : Z) : UnorderedWqeTable T :=
  mkUTable (entries t) (<[Z.to_nat (idx / 64) := v]> (bitmap t)) (wqebb_cnt t) (alloc_hint t).
Definition set_hint t (h : Z) : UnorderedWqeTable T :=
  mkUTable (entries t) (bitmap t) (wqebb_cnt t) h.

(** The loop of [try_allocate_first], with [n] offsets left. *)
Fixpoint allocate_loop t (n : nat) (offset : Z) : UnorderedWqeTable T * option Z :=
  match n with
  | O => (t, None)
  | S n =>
      let idx := Z.land (u16 (alloc_hint t + offset)) (mask t) in
      let bit := idx mod 64 in
      let current := word t idx in
      if Z.land current (Z.shiftl 1 bit) =? 0 then
        (set_hint (set_word t idx (Z.lor current (Z.shiftl 1 bit))) (Z.land (u16 (idx + 1)) (mask t)),
         Some idx)
      else allocate_loop t n (offset + 1)
  end.

Definition try_allocate_first t : UnorderedWqeTable T * option Z :=
  allocate_loop t (Z.to_nat (wqebb_cnt t)) 0.

Definition try_extend t (start current_count : Z) : UnorderedWqeTable T * bool :=
  let next_idx := Z.land (u16 (start + current_count)) (mask t) in
  let bit := next_idx mod 64 in
  let current := word t next_idx in
  if Z.land current (Z.shiftl 1 bit) =? 0
  then (set_word t next_idx (Z.lor current (Z.shiftl 1 bit)), true) else (t, false).

(** One iteration of [release], and its loop. *)
Definition release_one t (idx : Z) : UnorderedWqeTable T :=
  set_word t idx (Z.land (word t idx) (not64 (Z.shiftl 1 (idx mod 64)))).

Fixpoint release_loop t (start : Z) (n : nat) (i : Z) : UnorderedWqeTable T :=
  match n with
  | O => t
  | S n => release_loop (release_one t (Z.land (u16 (start + i)) (mask t))) start n (i + 1)
  end.

Definition release t (start cnt : Z) : UnorderedWqeTable T := release_loop t start (Z.to_nat cnt) 0.

Definition set_entry t (slot : Z) (e : option (UnorderedWqeEntry T)) : UnorderedWqeTable T :=
  mkUTable (<[Z.to_nat slot := e]> (entries t)) (bitmap t) (wqebb_cnt t) (alloc_hint t).

Definition store t (wqe_idx start cnt : Z) (x : T) : UnorderedWqeTable T :=
  set_entry t (Z.land wqe_idx (mask t)) (Some (mkUEntry x start cnt)).

Definition take t (wqe_idx : Z) : UnorderedWqeTable T * option T :=
  let slot := Z.land wqe_idx (mask t) in
  match default None (entries t !! Z.to_nat slot) with
  | None => (t, None)
  | Some e => (release (set_entry t slot None) (wqebb_start e) (wqebb_count e), Some (data e))
  end.

Definition available_wqebbs t : Z :=
  u16 (wqebb_cnt t - u16 (foldr (fun w acc => count_ones w + acc) 0 (bitmap t))).

End Table.

(** ** The receive queue *)

(** [struct TmSrqState]. *)
Record TmSrqState (T : Type) : Type := mkTm {
  buf : list Z;
  wqe_cnt : Z;
  stride : Z;
  head : Z;
  bf_size : Z;
  bf_offset : Z;
  pending_start_ptr : option Z;
  pending_wqe_count : Z;
  table : UnorderedWqeTable T;
}.
Arguments mkTm {T} _ _ _ _ _ _ _ _ _.
Arguments buf {T} _.
Arguments wqe_cnt {T} _.
Arguments stride {T} _.
Arguments head {T} _.
Arguments bf_size {T} _.
Arguments bf_offset {T} _.
Arguments pending_start_ptr {T} _.
Arguments pending_wqe_count {T} _.
Arguments table {T} _.

Section Queue.
Context {T : Type}.
Implicit Types (s : TmSrqState T).

(** The queue [create_tm_srq] sets up. *)
Definition tm_init (b : list Z) (cnt st bf : Z) : TmSrqState T :=
  mkTm b cnt st 0 bf 0 None 0 (utable_new (u16 cnt)).

Definition get_wqe_ptr s (idx : Z) : Z := u32 (Z.land idx (wqe_cnt s - 1) * stride s).

Definition tm_rung s (off : Z) : TmSrqState T :=
  mkTm (buf s) (wqe_cnt s) (stride s) (head s) (bf_size s) off None 0 (table s).

Definition tm_ring_doorbell s : TmSrqState T * list RecvQueue.DevEvent :=
  let pre := [RecvQueue.Flush; RecvQueue.Dbrec 0 (head s); RecvQueue.UdmaBarrier] in
  if 0 <? bf_size s then
    let last_wqe := get_wqe_ptr s (u32 (head s - 1)) in
    (tm_rung s (Z.lxor (bf_offset s) (bf_size s)),
     pre ++ [RecvQueue.BfWrite (bf_offset s) (read_bytes (buf s) (Z.to_nat last_wqe) 8); RecvQueue.Flush])
  else (tm_rung s (bf_offset s), pre ++ [RecvQueue.Flush]).

(** [None]: the copy loads outside the ring. *)
Definition tm_ring_doorbell_bf s : option (TmSrqState T * list RecvQueue.DevEvent) :=
  let pre := [RecvQueue.Flush; RecvQueue.Dbrec 0 (head s); RecvQueue.UdmaBarrier] in
  if pending_wqe_count s =? 0 then Some (s, [])
  else if 0 <? bf_size s then
    let copy_size := Z.min (pending_wqe_count s * stride s) 256 in
    evs ← match pending_start_ptr s with
          | Some p => RecvQueue.bf_copy_all (buf s) p (bf_offset s) copy_size
          | None => Some []
          end;
    Some (tm_rung s (Z.lxor (bf_offset s) (bf_size s)), pre ++ evs ++ [RecvQueue.Flush])
  else Some (tm_rung s (bf_offset s), pre ++ [RecvQueue.Flush]).

Definition tm_process_completion s (wqe_idx : Z) : TmSrqState T * option T :=
  let '(t, e) := take (table s) wqe_idx in
  (mkTm (buf s) (wqe_cnt s) (stride s) (head s) (bf_size s) (bf_offset s) (pending_start_ptr s)
     (pending_wqe_count s) t, e).

(** [post_unordered_recv]; the error is [WouldBlock]. *)
Definition post_unordered_recv s (addr len lkey : Z) (entry : T) : TmSrqState T * result unit unit :=
  match try_allocate_first (table s) with
  | (_, None) => (s, Err tt)
  | (t, Some start) =>
      let wqe_idx := head s in
      let ptr := get_wqe_ptr s wqe_idx in
      let b := write_bytes (buf s) (Z.to_nat ptr) (replicate 16 0) in
      let b := write_bytes b (Z.to_nat ptr + 16) (write_data_seg len lkey addr) in
      (mkTm b (wqe_cnt s) (stride s) (u32 (wqe_idx + 1)) (bf_size s) (bf_offset s)
         (match pending_start_ptr s with None => Some ptr | Some p => Some p end)
         (u32 (pending_wqe_count s + 1)) (store t (u16 wqe_idx) start 1 entry), Ok tt)
  end.

End Queue.

(** ** The tag-matching queue *)

(** [struct TmSrq]: the receive side and the command queue pair; both are always set. *)
Record Tm (C T : Type) : Type := mkTmSrq {
  max_num_tags : Z;
  srq_state : TmSrqState T;
  cmd_qp : QueuePair.SendQueueState C;
}.
Arguments mkTmSrq {C T} _ _ _.
Arguments max_num_tags {C T} _.
Arguments srq_state {C T} _.
Arguments cmd_qp {C T} _.

(** [enum TmSrqCompletion]. *)
Inductive TmSrqCompletion (C T : Type) : Type :=
  | CmdQp (c : Cq.Cqe) (e : C)
  | Recv (c : Cq.Cqe) (e : T)
  | TagMatch (c : Cq.Cqe)
  | TmError (c : Cq.Cqe) (e : option C).
Arguments CmdQp {C T} _ _.
Arguments Recv {C T} _ _.
Arguments TagMatch {C T} _.
Arguments TmError {C T} _ _.

(** [struct CmdQpInfo]. *)
Record CmdQpInfo : Type := mkCmdInfo {
  cmd_qpn : Z; cmd_sq_buf : list Z; cmd_sq_wqe_cnt : Z; current_pi : Z; cmd_bf_size : Z }.

Section Tm.
Context {C T : Type}.
Implicit Types (q : Tm C T).

(** [create_tm_srq], from what the device reports: the ring of the receive side,
    and the command queue pair with the producer index it has reached.  The number
    of slots is [max_wr] rounded up to a power of two. *)
Definition create_tm_srq (max_wr tags : Z) (b : list Z) (st : Z) (i : CmdQpInfo) : Tm C T :=
  mkTmSrq (u16 tags) (tm_init b (Ring.next_power_of_two max_wr) st (cmd_bf_size i))
    (QueuePair.mkSqs
       (Emit.mkCtx (cmd_sq_buf i) (cmd_sq_wqe_cnt i) (cmd_qpn i) (current_pi i) (current_pi i) None
          (replicate (Z.to_nat (cmd_sq_wqe_cnt i)) None)) (cmd_bf_size i) 0).

Definition set_srq q (s : TmSrqState T) : Tm C T := mkTmSrq (max_num_tags q) s (cmd_qp q).
Definition set_cmd q (s : QueuePair.SendQueueState C) : Tm C T := mkTmSrq (max_num_tags q) (srq_state q) s.

Definition tm_qpn q : Z := Emit.sqn (QueuePair.ctx (cmd_qp q)).
Definition rq_available_wqebbs q : Z := available_wqebbs (table (srq_state q)).
Definition cmd_optimistic_available q : Z := QueuePair.sq_available (cmd_qp q).
Definition ring_cmd_doorbell q : Tm C T * list RecvQueue.DevEvent :=
  let '(s, evs) := QueuePair.sq_ring_doorbell (cmd_qp q) in (set_cmd q s, evs).
(** [OrderedWqeTable::count_available] and [OrderedWqeTable::is_available]. *)
Definition cmd_exact_available q : Z :=
  u16 (Z.of_nat (length (filter (fun e => e = None) (Emit.table (QueuePair.ctx (cmd_qp q)))))).
Definition cmd_is_slot_available q (idx : Z) : bool :=
  let c := QueuePair.ctx (cmd_qp q) in
  match default None (Emit.table c !! Z.to_nat (Z.land idx (Emit.wqe_cnt c - 1))) with
  | None => true
  | Some _ => false
  end.

Definition cmd_emit_ctx q : result (Emit.EmitContext C) QueuePair.QpError :=
  if QueuePair.sq_available (cmd_qp q) =? 0 then Err QueuePair.WouldBlock
  else Ok (QueuePair.ctx (cmd_qp q)).

Definition ring_srq_doorbell q : Tm C T * list RecvQueue.DevEvent :=
  let '(s, evs) := tm_ring_doorbell (srq_state q) in (set_srq q s, evs).
Definition ring_srq_doorbell_bf q : option (Tm C T * list RecvQueue.DevEvent) :=
  '(s, evs) ← tm_ring_doorbell_bf (srq_state q); Some (set_srq q s, evs).

Definition process_rq_completion q (wqe_idx : Z) : Tm C T * option T :=
  let '(s, e) := tm_process_completion (srq_state q) wqe_idx in (set_srq q s, e).
Definition process_cmd_completion q (wqe_idx : Z) : Tm C T * option C :=
  let '(s, e) := QueuePair.sq_process_completion (cmd_qp q) wqe_idx in (set_cmd q s, e).

(** The handler; the second component is the call of the callback. *)
Definition tm_dispatch_cqe q (c : Cq.Cqe) : Tm C T * option (TmSrqCompletion C T) :=
  match Cq.opcode c with
  | Cq.Req | Cq.TmFinish =>
      let '(q, e) := process_cmd_completion q (Cq.wqe_counter c) in (q, CmdQp c <$> e)
  | Cq.TmMatchContext => (q, Some (TagMatch c))
  | Cq.RespSend | Cq.RespSendImm | Cq.RespSendInv | Cq.RespRdmaWriteImm =>
      let '(q, e) := process_rq_completion q (Cq.wqe_counter c) in (q, Recv c <$> e)
  | Cq.ReqErr | Cq.RespErr =>
      let '(q, e) := process_cmd_completion q (Cq.wqe_counter c) in (q, Some (TmError c e))
  end.

End Tm.

(** ** Bits *)

Lemma bit_free w b : 0 <= b -> (Z.land w (Z.shiftl 1 b) =? 0) = negb (Z.testbit w b).
Proof.
  intros Hb. destruct (Z.testbit w b) eqn:E; cbn.
  - apply Z.eqb_neq. intros H. apply (f_equal (fun z => Z.testbit z b)) in H. revert H.
    rewrite Z.land_spec, E, Z.shiftl_1_l, Z.pow2_bits_true, Z.bits_0 by lia. done.
  - apply Z.eqb_eq. apply Z.bits_inj_0. intros n. rewrite Z.land_spec, Z.shiftl_1_l.
    destruct (decide (n = b)) as [->|?]; [by rewrite E|].
    rewrite Z.pow2_bits_false by lia. by rewrite andb_false_r.
Qed.

Lemma bit_set w b j : 0 <= b -> Z.testbit (Z.lor w (Z.shiftl 1 b)) j = (j =? b) || Z.testbit w j.
Proof.
  intros Hb. rewrite Z.lor_spec, Z.shiftl_1_l, orb_comm. f_equal.
  destruct (Z.eqb_spec j b) as [->|?]; [by apply Z.pow2_bits_true|].
  apply Z.pow2_bits_false. lia.
Qed.

Lemma bit_clear w b j :
  0 <= b < 64 -> 0 <= j < 64 ->
  Z.testbit (Z.land w (not64 (Z.shiftl 1 b))) j = negb (j =? b) && Z.testbit w j.
Proof.
  intros Hb Hj. unfold not64. change U64_MAX with (Z.ones 64). rewrite Z.shiftl_1_l.
  assert (Z.ldiff (2 ^ b) (Z.ones 64) = 0) as E.
  { apply Z.ldiff_ones_r_low; [apply Z.pow_nonneg; lia|].
    rewrite Z.log2_pow2; lia. }
  rewrite (Z.sub_nocarry_ldiff _ _ E).
  rewrite Z.land_spec, Z.ldiff_spec, Z.ones_spec_low by lia. rewrite andb_comm. f_equal. cbn.
  f_equal. destruct (Z.eqb_spec j b) as [->|?]; [apply Z.pow2_bits_true; lia|].
  apply Z.pow2_bits_false. lia.
Qed.

(** ** The bitmap is a set of blocks *)

Section Allocator.
Context {T : Type}.
Implicit Types (t : UnorderedWqeTable T).

Definition used t (j : Z) : bool := Z.testbit (word t j) (j mod 64).

(** The bits the bitmap has room for. *)
Definition width t : Z := 64 * Z.of_nat (length (bitmap t)).

Record table_ok t : Prop := mkTok {
  ok_cnt : exists k, 0 <= k <= 15 /\ wqebb_cnt t = 2 ^ k;
  ok_width : Z.of_nat (length (bitmap t)) = (wqebb_cnt t + 63) / 64;
  ok_high : forall j, wqebb_cnt t <= j < width t -> used t j = false;
  ok_hint : 0 <= alloc_hint t < wqebb_cnt t;
  ok_entries : Z.of_nat (length (entries t)) = wqebb_cnt t;
}.

(** [t'] is [t] with block [i] marked [b]. *)
Definition marked t t' (i : Z) (b : bool) : Prop :=
  wqebb_cnt t' = wqebb_cnt t /\ entries t' = entries t /\
  length (bitmap t') = length (bitmap t) /\
  forall j, 0 <= j < width t -> used t' j = if j =? i then b else used t j.

Lemma ok_pos t : table_ok t -> 0 < wqebb_cnt t <= 2 ^ 15.
Proof.
  intros [(k & Hk & ->) _ _ _ _].
  split; [apply Z.pow_pos_nonneg; lia|apply Z.pow_le_mono_r; lia].
Qed.

Lemma ok_range t : table_ok t -> wqebb_cnt t <= width t.
Proof.
  intros H. unfold width. rewrite (ok_width t H). pose proof (ok_pos t H).
  Z.to_euclidean_division_equations. lia.
Qed.

Lemma land_block t x : table_ok t -> Z.land x (mask t) = x mod wqebb_cnt t.
Proof. intros [(k & Hk & E) _ _ _ _]. unfold mask. rewrite E. apply land_mask. lia. Qed.

Lemma block_range t x : table_ok t -> 0 <= x mod wqebb_cnt t < wqebb_cnt t.
Proof. intros H. apply Z.mod_pos_bound. apply (ok_pos t H). Qed.

Lemma block_u16 t x : table_ok t -> u16 x mod wqebb_cnt t = x mod wqebb_cnt t.
Proof.
  intros [(k & Hk & E) _ _ _ _]. unfold u16, wrap. apply Z.mod_mod_divide. rewrite E.
  exists (2 ^ (16 - k)). rewrite <-Z.pow_add_r by lia. f_equal. lia.
Qed.

Lemma marked_ok t t' i b :
  table_ok t -> marked t t' i b -> 0 <= i < wqebb_cnt t -> 0 <= alloc_hint t' < wqebb_cnt t ->
  table_ok t'.
Proof.
  intros Hok (E1 & E2 & E3 & E4) Hi Hh. pose proof (ok_range t Hok). pose proof (ok_pos t Hok).
  assert (width t' = width t) as Ew by (unfold width; by rewrite E3). split.
  - rewrite E1. apply Hok.
  - rewrite E1, E3. apply Hok.
  - rewrite E1, Ew. intros j Hj. rewrite E4 by lia. destruct (Z.eqb_spec j i); [lia|].
    by apply (ok_high t Hok).
  - by rewrite E1.
  - rewrite E1, E2. apply Hok.
Qed.

(** Writing the word of block [i] with only its bit changed marks the block. *)
Lemma set_word_marked t i b v :
  0 <= i < width t ->
  (forall j, 0 <= j < 64 -> Z.testbit v j = if j =? i mod 64 then b else Z.testbit (word t i) j) ->
  marked t (set_word t i v) i b.
Proof.
  intros Hi Hv. split_and!; [done..|cbn; by rewrite length_insert|]. intros j Hj.
  unfold width in *. unfold used, word, set_word. cbn [bitmap].
  destruct (decide (j / 64 = i / 64)) as [E|E].
  - rewrite E, list_lookup_insert_eq by (Z.to_euclidean_division_equations; lia). cbn [default id].
    rewrite Hv by (apply Z.mod_pos_bound; lia). unfold word. rewrite <-E.
    destruct (Z.eqb_spec (j mod 64) (i mod 64)), (Z.eqb_spec j i); try done;
      Z.to_euclidean_division_equations; lia.
  - rewrite list_lookup_insert_ne by (Z.to_euclidean_division_equations; lia).
    destruct (Z.eqb_spec j i) as [->|?]; done.
Qed.

Lemma marked_hint t t' i b h : marked t t' i b -> marked t (set_hint t' h) i b.
Proof. done. Qed.

Lemma set_bit_marked t i :
  0 <= i < width t ->
  marked t (set_word t i (Z.lor (word t i) (Z.shiftl 1 (i mod 64)))) i true.
Proof.
  intros Hi. apply set_word_marked; [done|]. intros j Hj.
  rewrite bit_set by (apply Z.mod_pos_bound; lia). by destruct (j =? i mod 64).
Qed.

Lemma release_one_marked t i : 0 <= i < width t -> marked t (release_one t i) i false.
Proof.
  intros Hi. apply set_word_marked; [done|]. intros j Hj.
  rewrite bit_clear by (try apply Z.mod_pos_bound; lia). by destruct (j =? i mod 64).
Qed.

(** The search visits the blocks from the hint on, cyclically, and takes the first
    free one. *)
Lemma allocate_loop_spec t n : forall offset,
  table_ok t -> 0 <= offset -> offset + Z.of_nat n <= wqebb_cnt t ->
  (forall o, 0 <= o < offset -> used t ((alloc_hint t + o) mod wqebb_cnt t) = true) ->
  match allocate_loop t n offset with
  | (t', Some i) => exists o, offset <= o < offset + Z.of_nat n /\
      i = (alloc_hint t + o) mod wqebb_cnt t /\ used t i = false /\ marked t t' i true /\
      alloc_hint t' = (i + 1) mod wqebb_cnt t /\
      (forall o', 0 <= o' < o -> used t ((alloc_hint t + o') mod wqebb_cnt t) = true)
  | (t', None) => t' = t /\
      forall o, 0 <= o < offset + Z.of_nat n -> used t ((alloc_hint t + o) mod wqebb_cnt t) = true
  end.
Proof.
  induction n as [|n IH]; intros offset Hok Ho Hn Hbusy; cbn [allocate_loop].
  - split; [done|]. intros o Ho'. apply Hbusy. lia.
  - rewrite !land_block, block_u16 by done.
    pose proof (block_range t (alloc_hint t + offset) Hok) as Hi.
    pose proof (ok_range t Hok) as Hw.
    set (i := (alloc_hint t + offset) mod wqebb_cnt t) in *.
    rewrite bit_free by (apply Z.mod_pos_bound; lia). fold (used t i).
    destruct (used t i) eqn:E; cbn [negb].
    + specialize (IH (offset + 1) Hok ltac:(lia) ltac:(lia)).
      replace (offset + 1 + Z.of_nat n) with (offset + Z.of_nat (S n)) in IH by lia.
      assert (forall o, 0 <= o < offset + 1 ->
                used t ((alloc_hint t + o) mod wqebb_cnt t) = true) as Hbusy'.
      { intros o Ho'. destruct (decide (o = offset)) as [->|?]; [done|]. apply Hbusy. lia. }
      specialize (IH Hbusy'). destruct (allocate_loop t n (offset + 1)) as [t' [x|]]; [|done].
      destruct IH as (o & Hr & IH). exists o. split; [lia|done].
    + exists offset. split_and!; try done; try lia.
      * apply marked_hint, set_bit_marked. lia.
      * cbn. by rewrite block_u16.
Qed.

Lemma set_entry_ok t i e : table_ok t -> table_ok (set_entry t i e).
Proof.
  intros [H1 H2 H3 H4 H5]. split; [done..|]. cbn. by rewrite length_insert.
Qed.

(** The blocks in use, and the [c] blocks from [start] on, cyclically. *)
Definition blocks t : gset Z :=
  list_to_set (filter (fun j => used t j = true) (seqZ 0 (wqebb_cnt t))).
Definition span t (start c : Z) : gset Z :=
  list_to_set ((fun i => (start + i) mod wqebb_cnt t) <$> seqZ 0 c).

Lemma elem_of_blocks t j : j ∈ blocks t <-> 0 <= j < wqebb_cnt t /\ used t j = true.
Proof.
  unfold blocks. rewrite elem_of_list_to_set, list_elem_of_filter, elem_of_seqZ.
  split; [intros (? & ?)|intros (? & ?)]; split; by try lia.
Qed.

Lemma blocks_marked t t' i b :
  table_ok t -> marked t t' i b -> 0 <= i < wqebb_cnt t ->
  blocks t' = if b then {[i]} ∪ blocks t else blocks t ∖ {[i]}.
Proof.
  intros Hok (E1 & _ & _ & E4) Hi. pose proof (ok_range t Hok). apply set_eq. intros j.
  rewrite elem_of_blocks, E1.
  destruct b; [rewrite elem_of_union|rewrite elem_of_difference]; rewrite elem_of_singleton, elem_of_blocks;
    (split; [intros (Hj & Hu); rewrite E4 in Hu by lia; destruct (Z.eqb_spec j i); naive_solver|]).
  - intros [->|(Hj & Hu)]; (split; [lia|]); rewrite E4 by lia; [by rewrite Z.eqb_refl|].
    by destruct (j =? i).
  - intros ((Hj & Hu) & Hne). split; [lia|]. rewrite E4 by lia. by destruct (Z.eqb_spec j i).
Qed.

Lemma allocate_ok t t' i :
  table_ok t -> try_allocate_first t = (t', Some i) ->
  table_ok t' /\ entries t' = entries t /\ 0 <= i < wqebb_cnt t /\ i ∉ blocks t /\
  blocks t' = {[i]} ∪ blocks t.
Proof.
  intros Hok E. pose proof (ok_pos t Hok).
  pose proof (allocate_loop_spec t (Z.to_nat (wqebb_cnt t)) 0 Hok) as Hs.
  unfold try_allocate_first in E. rewrite E in Hs.
  destruct Hs as (o & Ho & Hi & Hf & Hm & Hh & _); [lia..|].
  pose proof (block_range t (alloc_hint t + o) Hok) as Hr. rewrite <-Hi in Hr.
  split_and!; try lia.
  - apply (marked_ok t t' i true); [done..|]. rewrite Hh. by apply block_range.
  - apply Hm.
  - rewrite elem_of_blocks. intros (_ & ?). congruence.
  - by apply (blocks_marked t t' i true).
Qed.

Lemma allocate_none t t' :
  table_ok t -> try_allocate_first t = (t', None) ->
  t' = t /\ forall j, 0 <= j < wqebb_cnt t -> j ∈ blocks t.
Proof.
  intros Hok E. pose proof (ok_pos t Hok). pose proof (ok_hint t Hok).
  pose proof (allocate_loop_spec t (Z.to_nat (wqebb_cnt t)) 0 Hok) as Hs.
  unfold try_allocate_first in E. rewrite E in Hs. destruct Hs as (-> & Hs); [lia..|].
  split; [done|]. intros j Hj. apply elem_of_blocks. split; [done|].
  specialize (Hs ((j - alloc_hint t) mod wqebb_cnt t)). rewrite Z.add_mod_idemp_r in Hs by lia.
  replace (alloc_hint t + (j - alloc_hint t)) with j in Hs by lia. rewrite (Z.mod_small j) in Hs by lia.
  apply Hs. pose proof (block_range t (j - alloc_hint t) Hok). lia.
Qed.

Lemma release_step t x :
  table_ok t ->
  let t' := release_one t (x mod wqebb_cnt t) in
  table_ok t' /\ wqebb_cnt t' = wqebb_cnt t /\ entries t' = entries t /\
  alloc_hint t' = alloc_hint t /\ blocks t' = blocks t ∖ {[x mod wqebb_cnt t]}.
Proof.
  intros Hok. cbn zeta. pose proof (block_range t x Hok) as Hr. pose proof (ok_range t Hok).
  pose proof (release_one_marked t (x mod wqebb_cnt t) ltac:(lia)) as Hm.
  split_and!; try apply Hm; try done.
  - eapply marked_ok; [done..|]. apply Hok.
  - by apply (blocks_marked t _ _ false).
Qed.

Lemma release_loop_spec start n : forall t i,
  table_ok t ->
  let t' := release_loop t start n i in
  table_ok t' /\ wqebb_cnt t' = wqebb_cnt t /\ entries t' = entries t /\
  alloc_hint t' = alloc_hint t /\
  blocks t' = blocks t ∖ span t (start + i) (Z.of_nat n).
Proof.
  induction n as [|n IH]; intros t i Hok; cbn zeta; cbn [release_loop].
  - split_and!; try done. unfold span. cbn. set_solver.
  - rewrite land_block, block_u16 by done.
    destruct (release_step t (start + i) Hok) as (Hok1 & E1 & E2 & E3 & E4).
    destruct (IH _ (i + 1) Hok1) as (Hok2 & F1 & F2 & F3 & F4).
    split_and!; [done|congruence..|]. rewrite F4, E4. unfold span. rewrite E1.
    rewrite (seqZ_cons 0 (Z.of_nat (S n))) by lia. cbn [fmap list_fmap list_to_set].
    rewrite Z.add_0_r, difference_difference_l_L. f_equal. f_equal.
    replace (Z.pred (Z.of_nat (S n))) with (Z.of_nat n) by lia.
    rewrite <-(fmap_add_seqZ 1 0), <-list_fmap_compose. f_equal. apply list_fmap_ext.
    intros k x _. cbn. f_equal. lia.
Qed.

(** Taking an entry empties its slot and frees its blocks. *)
Lemma take_spec t idx e :
  table_ok t -> entries t !! Z.to_nat (idx mod wqebb_cnt t) = Some (Some e) -> 0 <= wqebb_count e ->
  exists t', take t idx = (t', Some (data e)) /\ table_ok t' /\ wqebb_cnt t' = wqebb_cnt t /\
    alloc_hint t' = alloc_hint t /\
    entries t' = <[Z.to_nat (idx mod wqebb_cnt t) := None]> (entries t) /\
    blocks t' = blocks t ∖ span t (wqebb_start e) (wqebb_count e).
Proof.
  intros Hok He Hc. unfold take. rewrite land_block, He by done. cbn [default id]. eexists.
  split; [done|]. unfold release.
  pose proof (release_loop_spec (wqebb_start e) (Z.to_nat (wqebb_count e)) _ 0
                (set_entry_ok t (idx mod wqebb_cnt t) None Hok)) as (H1 & H2 & H3 & H4 & H5).
  rewrite Z.add_0_r, Z2Nat.id in H5 by lia. done.
Qed.

Lemma span_1 t i : table_ok t -> 0 <= i < wqebb_cnt t -> span t i 1 = {[i]}.
Proof.
  intros Hok Hi. unfold span. change (seqZ 0 1) with [0]. cbn [fmap list_fmap list_to_set].
  by rewrite union_empty_r_L, Z.add_0_r, Z.mod_small by lia.
Qed.

Lemma store_spec t idx start c x :
  table_ok t ->
  let t' := store t idx start c x in
  table_ok t' /\ wqebb_cnt t' = wqebb_cnt t /\ blocks t' = blocks t /\
  entries t' = <[Z.to_nat (idx mod wqebb_cnt t) := Some (mkUEntry x start c)]> (entries t) /\
  entries t' !! Z.to_nat (idx mod wqebb_cnt t) = Some (Some (mkUEntry x start c)).
Proof.
  intros Hok. cbn zeta. unfold store. rewrite land_block by done. split_and!; try done.
  - by apply set_entry_ok.
  - cbn. apply list_lookup_insert_eq. pose proof (block_range t idx Hok).
    pose proof (ok_entries t Hok). lia.
Qed.

Lemma extend_spec t start c :
  table_ok t ->
  let i := (start + c) mod wqebb_cnt t in
  match try_extend t start c with
  | (t', true) => table_ok t' /\ entries t' = entries t /\ i ∉ blocks t /\ blocks t' = {[i]} ∪ blocks t
  | (t', false) => t' = t /\ i ∈ blocks t
  end.
Proof.
  intros Hok. cbn zeta. unfold try_extend. rewrite land_block, block_u16 by done.
  pose proof (block_range t (start + c) Hok) as Hr. pose proof (ok_range t Hok).
  set (i := (start + c) mod wqebb_cnt t) in *.
  rewrite bit_free by (apply Z.mod_pos_bound; lia). fold (used t i).
  destruct (used t i) eqn:E; cbn [negb]; [split; [done|by apply elem_of_blocks]|].
  pose proof (set_bit_marked t i ltac:(lia)) as Hm. split_and!.
  - eapply marked_ok; [done..|]. apply Hok.
  - apply Hm.
  - rewrite elem_of_blocks. intros (_ & ?). congruence.
  - by apply (blocks_marked t _ _ true).
Qed.

(** *** Counting *)

Lemma length_filter_fmap {A B} (P : B -> Prop) `{!forall x, Decision (P x)} (f : A -> B) l :
  length (filter P (f <$> l)) = length (filter (fun x => P (f x)) l).
Proof.
  induction l as [|x l IH]; [done|]. cbn [fmap list_fmap]. rewrite !filter_cons.
  destruct (decide (P (f x))); cbn [length]; by rewrite IH.
Qed.

Lemma length_filter_ext {A} (P Q : A -> Prop) {DP : forall x, Decision (P x)}
    {DQ : forall x, Decision (Q x)} (l : list A) :
  (forall x, x ∈ l -> P x <-> Q x) -> length (filter P l) = length (filter Q l).
Proof.
  induction l as [|x l IH]; intros H; [done|]. rewrite !filter_cons.
  assert (P x <-> Q x) as Hx by (apply H; by left).
  assert (length (filter P l) = length (filter Q l)) as E by (apply IH; intros; apply H; by right).
  destruct (decide (P x)), (decide (Q x)); cbn [length]; tauto || lia.
Qed.

Lemma count_words ws : forall m, 0 <= m ->
  foldr (fun w acc => count_ones w + acc) 0 ws =
  Z.of_nat (length (filter
    (fun j => Z.testbit (default 0 (ws !! Z.to_nat (j / 64 - m))) (j mod 64) = true)
    (seqZ (64 * m) (64 * Z.of_nat (length ws))))).
Proof.
  induction ws as [|w ws IH]; intros m Hm; [done|]. cbn [foldr length].
  replace (64 * Z.of_nat (S (length ws))) with (64 + 64 * Z.of_nat (length ws)) by lia.
  rewrite seqZ_app, filter_app, length_app, Nat2Z.inj_add, (IH (m + 1)) by lia. f_equal; f_equal.
  - unfold count_ones. rewrite <-(Z.add_0_r (64 * m)), <-fmap_add_seqZ, length_filter_fmap.
    f_equal. apply length_filter_ext. intros j Hj%elem_of_seqZ.
    replace ((64 * m + j) / 64 - m) with 0 by (Z.to_euclidean_division_equations; lia).
    replace ((64 * m + j) mod 64) with j by (Z.to_euclidean_division_equations; lia). done.
  - replace (64 * m + 64) with (64 * (m + 1)) by lia. apply length_filter_ext.
    intros j Hj%elem_of_seqZ.
    replace (Z.to_nat (j / 64 - m)) with (S (Z.to_nat (j / 64 - (m + 1))))
      by (Z.to_euclidean_division_equations; lia). done.
Qed.

Lemma size_blocks t :
  table_ok t -> foldr (fun w acc => count_ones w + acc) 0 (bitmap t) = Z.of_nat (size (blocks t)).
Proof.
  intros Hok. pose proof (ok_range t Hok). pose proof (ok_pos t Hok).
  rewrite (count_words _ 0) by lia. f_equal. unfold blocks.
  rewrite size_list_to_set by apply NoDup_filter, NoDup_seqZ.
  change (64 * Z.of_nat (length (bitmap t))) with (width t).
  replace (width t) with (wqebb_cnt t + (width t - wqebb_cnt t)) by lia.
  rewrite seqZ_app, filter_app, length_app by lia.
  assert (forall l, (forall j, j ∈ l -> used t j = false) ->
    length (filter (fun j => Z.testbit (default 0 (bitmap t !! Z.to_nat (j / 64 - 0))) (j mod 64) = true) l)
    = 0%nat) as Hz.
  { intros l. induction l as [|x l IHl]; intros Hl; [done|]. rewrite filter_cons.
    assert (used t x = false) as Hx by (apply Hl; by left). unfold used, word in Hx.
    rewrite Z.sub_0_r, Hx. cbn. apply IHl. intros; apply Hl; by right. }
  rewrite (Hz (seqZ (0 + wqebb_cnt t) _)).
  - rewrite Nat.add_0_r. apply length_filter_ext. intros j _. by rewrite Z.sub_0_r.
  - intros j Hj%elem_of_seqZ. apply (ok_high t Hok). lia.
Qed.

Lemma available_wqebbs_spec t :
  table_ok t -> available_wqebbs t = wqebb_cnt t - Z.of_nat (size (blocks t)).
Proof.
  intros Hok. pose proof (ok_pos t Hok). unfold available_wqebbs. rewrite (size_blocks t Hok).
  assert (Z.of_nat (size (blocks t)) <= wqebb_cnt t) as Hle.
  { unfold blocks. rewrite size_list_to_set by apply NoDup_filter, NoDup_seqZ.
    etrans; [apply inj_le, length_filter|]. rewrite length_seqZ. lia. }
  rewrite !u16_small by (rewrite ?u16_small; lia). done.
Qed.

Lemma utable_new_ok k : 0 <= k <= 15 -> table_ok (utable_new (T := T) (2 ^ k)).
Proof.
  intros Hk. assert (0 < 2 ^ k) by (apply Z.pow_pos_nonneg; lia). split; cbn.
  - by exists k.
  - rewrite length_replicate. Z.to_euclidean_division_equations. lia.
  - intros j Hj. unfold used, word, utable_new. cbn. destruct (_ !! _) as [w|] eqn:E; cbn.
    + apply lookup_replicate in E as [-> _]. apply Z.bits_0.
    + apply Z.bits_0.
  - lia.
  - rewrite length_replicate. lia.
Qed.

End Allocator.

(** ** Completions in posting order *)

Section Fifo.
Context {T : Type}.
Implicit Types (s : TmSrqState T) (l : list T) (h : Z).

(** Slot of request number [n]. *)
Definition slot_of s (n : Z) : Z := n mod wqebb_cnt (table s).

(** [h] requests were posted and the last [length l] of them, [l], are outstanding:
    each has its entry and its block in the slot of its number. *)
Record fifo s h l : Prop := mkFifo {
  f_table : table_ok (table s);
  f_head : head s = u32 h;
  f_len : Z.of_nat (length l) <= wqebb_cnt (table s);
  f_hint : alloc_hint (table s) = slot_of s h;
  f_slot : forall i x, l !! i = Some x ->
    let n := slot_of s (h - Z.of_nat (length l) + Z.of_nat i) in
    entries (table s) !! Z.to_nat n = Some (Some (mkUEntry x n 1));
  f_used : forall j, j ∈ blocks (table s) <->
    exists i, (i < length l)%nat /\ j = slot_of s (h - Z.of_nat (length l) + Z.of_nat i);
}.

Lemma slot_of_range s n : table_ok (table s) -> 0 <= slot_of s n < wqebb_cnt (table s).
Proof. apply block_range. Qed.

Lemma slot_of_u32 s n : table_ok (table s) -> slot_of s (u16 (u32 n)) = slot_of s n.
Proof.
  intros Hok. unfold slot_of. rewrite block_u16 by done. destruct (ok_cnt _ Hok) as (k & Hk & ->).
  unfold u32, wrap. apply Z.mod_mod_divide. exists (2 ^ (32 - k)). rewrite <-Z.pow_add_r by lia.
  f_equal. lia.
Qed.

(** In a full queue every block is in use. *)
Lemma full_blocks s h l j :
  fifo s h l -> Z.of_nat (length l) = wqebb_cnt (table s) -> 0 <= j < wqebb_cnt (table s) ->
  j ∈ blocks (table s).
Proof.
  intros Hf Hl Hj. apply (f_used s h l Hf). set (c := wqebb_cnt (table s)) in *.
  assert (0 <= (j - (h - c)) mod c < c) as Hr by (apply Z.mod_pos_bound; lia).
  exists (Z.to_nat ((j - (h - c)) mod c)). split; [lia|]. rewrite Z2Nat.id by lia.
  unfold slot_of. fold c. rewrite Hl, Z.add_mod_idemp_r by lia.
  replace (h - c + (j - (h - c))) with j by lia. by rewrite Z.mod_small by lia.
Qed.

(** In a queue that is not full the block of the next request is free. *)
Lemma next_block_free s h l :
  fifo s h l -> Z.of_nat (length l) < wqebb_cnt (table s) -> slot_of s h ∉ blocks (table s).
Proof.
  intros Hf Hl (i & Hi & E)%(f_used s h l Hf). revert E. apply not_eq_sym.
  apply SendQueue.mod_ne. lia.
Qed.

(** An allocation takes the block under the hint when it is free. *)
Lemma allocate_at_hint (t : UnorderedWqeTable T) :
  table_ok t -> alloc_hint t ∉ blocks t ->
  exists t', try_allocate_first t = (t', Some (alloc_hint t)) /\
    alloc_hint t' = (alloc_hint t + 1) mod wqebb_cnt t /\ wqebb_cnt t' = wqebb_cnt t.
Proof.
  intros Hok Hfree. pose proof (ok_pos t Hok). pose proof (ok_hint t Hok) as Hh.
  rewrite elem_of_blocks in Hfree.
  pose proof (allocate_loop_spec t (Z.to_nat (wqebb_cnt t)) 0 Hok) as Hs.
  assert (alloc_hint t mod wqebb_cnt t = alloc_hint t) as E0 by (apply Z.mod_small; lia).
  unfold try_allocate_first.
  destruct (allocate_loop t _ 0) as [t' [i|]]; destruct Hs as (x & Hs); try lia.
  - destruct Hs as (Ho & -> & _ & Hm & Hn & Hb).
    assert (x = 0) as ->.
    { destruct (decide (x = 0)); [done|]. specialize (Hb 0 ltac:(lia)).
      rewrite Z.add_0_r, E0 in Hb. tauto. }
    rewrite Z.add_0_r, E0 in *. exists t'. split_and!; [done..|apply Hm].
  - specialize (Hs 0 ltac:(lia)). rewrite Z.add_0_r, E0 in Hs. tauto.
Qed.

Lemma fifo_post s h l a n k x :
  fifo s h l ->
  if decide (Z.of_nat (length l) = wqebb_cnt (table s))
  then post_unordered_recv s a n k x = (s, Err tt)
  else exists s', post_unordered_recv s a n k x = (s', Ok tt) /\ fifo s' (h + 1) (l ++ [x]) /\
       wqebb_cnt (table s') = wqebb_cnt (table s).
Proof.
  intros Hf. pose proof (f_table _ _ _ Hf) as Hok. pose proof (ok_pos _ Hok) as Hpos.
  pose proof (f_len _ _ _ Hf) as Hlen. unfold post_unordered_recv. case_decide as Hd.
  - destruct (try_allocate_first (table s)) as [t' [i|]] eqn:E; [|done].
    apply allocate_ok in E as (_ & _ & Hr & Hn & _); [|done]. exfalso. apply Hn.
    by eapply full_blocks.
  - pose proof (next_block_free s h l Hf ltac:(lia)) as Hfree. rewrite <-(f_hint _ _ _ Hf) in Hfree.
    destruct (allocate_at_hint _ Hok Hfree) as (t' & E & Hh & Hc). rewrite E. eexists.
    split; [done|]. cbn [table store set_entry wqebb_cnt]. split; [|done].
    pose proof (allocate_ok _ _ _ Hok E) as (Hok' & He & Hr & _ & Hb).
    rewrite (f_hint _ _ _ Hf) in *.
    assert (forall m, Z.land (u16 (u32 m)) (mask t') = slot_of s m) as Eslot.
    { intros m. rewrite land_block, Hc by done. by apply slot_of_u32. }
    assert (h + 1 - Z.of_nat (length (l ++ [x])) = h - Z.of_nat (length l)) as Ebase
      by (rewrite length_app; cbn; lia).
    split; unfold slot_of; cbn [table head store set_entry wqebb_cnt alloc_hint entries];
      rewrite ?Ebase, ?Hc; fold (slot_of s (h + 1)).
    + by apply set_entry_ok.
    + rewrite (f_head _ _ _ Hf). unfold u32, wrap. by rewrite Z.add_mod_idemp_l by lia.
    + rewrite length_app. cbn. lia.
    + rewrite Hh. unfold slot_of. by rewrite Z.add_mod_idemp_l by lia.
    + intros i y Hi. cbn zeta. fold (slot_of s (h - Z.of_nat (length l) + Z.of_nat i)).
      rewrite (f_head _ _ _ Hf), Eslot, He.
      pose proof (slot_of_range s (h - Z.of_nat (length l) + Z.of_nat i) Hok) as Hr'.
      apply lookup_app_Some in Hi as [Hi|[Hi1 Hi2]].
      * pose proof (lookup_lt_Some _ _ _ Hi).
        rewrite list_lookup_insert_ne; [by apply (f_slot _ _ _ Hf)|].
        assert (slot_of s h <> slot_of s (h - Z.of_nat (length l) + Z.of_nat i)); [|lia].
        apply not_eq_sym, SendQueue.mod_ne. lia.
      * apply list_lookup_singleton_Some in Hi2 as [Hi2 <-].
        replace (h - Z.of_nat (length l) + Z.of_nat i) with h by lia.
        apply list_lookup_insert_eq. pose proof (ok_entries _ Hok). lia.
    + intros j. match goal with |- _ ∈ ?b <-> _ => change b with (blocks t') end. rewrite Hb.
      rewrite elem_of_union, elem_of_singleton, (f_used _ _ _ Hf), length_app. cbn [length].
      split.
      * intros [->|(i & Hi & ->)]; [exists (length l)|exists i]; (split; [lia|]); [|done].
        unfold slot_of. f_equal. lia.
      * intros (i & Hi & ->). destruct (decide (i = length l)) as [->|?]; [left|right].
        { unfold slot_of. f_equal. lia. }
        exists i. split; [lia|done].
Qed.

Lemma fifo_complete s h x l :
  fifo s h (x :: l) ->
  let '(s', e) := tm_process_completion s (u16 (u32 (h - Z.of_nat (length (x :: l))))) in
  e = Some x /\ fifo s' h l /\ wqebb_cnt (table s') = wqebb_cnt (table s).
Proof.
  intros Hf. pose proof (f_table _ _ _ Hf) as Hok. pose proof (ok_pos _ Hok) as Hpos.
  pose proof (f_len _ _ _ Hf) as Hlen. unfold tm_process_completion.
  pose proof (f_slot _ _ _ Hf 0%nat x eq_refl) as He. cbn zeta in He. rewrite Z.add_0_r in He.
  set (n := h - Z.of_nat (length (x :: l))) in *. pose proof (slot_of_u32 s n Hok) as En0.
  rewrite <-En0 in He at 1. pose proof (slot_of_range s n Hok) as Hn.
  destruct (take_spec (table s) (u16 (u32 n)) _ Hok He ltac:(done)) as (t2 & -> & Hok2 & E1 & E3 & E2 & Eb).
  cbn [data wqebb_start wqebb_count] in *. fold (slot_of s (u16 (u32 n))) in E2. rewrite En0 in E2.
  rewrite span_1 in Eb by done. split; [done|]. cbn [table]. split; [|done].
  assert (forall i, h - Z.of_nat (length l) + Z.of_nat i = n + Z.of_nat (S i)) as En
    by (intros i; subst n; cbn [length]; lia).
  split; unfold slot_of; cbn [table head]; rewrite ?E1, ?E2, ?E3.
  - done.
  - apply Hf.
  - cbn [length] in Hlen. lia.
  - apply Hf.
  - intros i y Hi. cbn zeta. rewrite En. fold (slot_of s (n + Z.of_nat (S i))).
    pose proof (slot_of_range s n Hok). pose proof (slot_of_range s (n + Z.of_nat (S i)) Hok).
    pose proof (lookup_lt_Some _ _ _ Hi). cbn [length] in Hlen.
    rewrite list_lookup_insert_ne; [by apply (f_slot _ _ _ Hf (S i))|].
    assert (slot_of s n <> slot_of s (n + Z.of_nat (S i))); [|lia]. apply SendQueue.mod_ne. lia.
  - intros j. rewrite Eb, elem_of_difference, elem_of_singleton, (f_used _ _ _ Hf). fold n. cbn [length] in *.
    split.
    + intros ((i & Hi & ->) & Hne). destruct i as [|i]; [by rewrite Z.add_0_r in Hne|].
      exists i. split; [lia|]. by rewrite En.
    + intros (i & Hi & ->). rewrite En. split; [exists (S i); split; [lia|done]|].
      apply not_eq_sym, SendQueue.mod_ne. lia.
Qed.

End Fifo.

(** *** Runs *)

Section Runs.
Context {T : Type}.

(** What the owner does: posts a request, or sees the completion of the oldest
    one, whose index the completion carries. *)
Inductive TmOp : Type := TPost (addr len lkey : Z) (x : T) | TComplete (idx : Z).
Inductive TmRes : Type := TPosted | TWouldBlock | TEntry (e : option T).

Definition tm_do (s : TmSrqState T) (o : TmOp) : TmSrqState T * TmRes :=
  match o with
  | TPost a n k x =>
      match post_unordered_recv s a n k x with
      | (s, Ok _) => (s, TPosted)
      | (s, Err _) => (s, TWouldBlock)
      end
  | TComplete idx => let '(s, e) := tm_process_completion s (u16 idx) in (s, TEntry e)
  end.

Fixpoint tm_run (s : TmSrqState T) (os : list TmOp) : TmSrqState T * list TmRes :=
  match os with
  | [] => (s, [])
  | o :: os => let '(s, r) := tm_do s o in let '(s, rs) := tm_run s os in (s, r :: rs)
  end.

(** The specification: the entries outstanding and the number of requests posted;
    [None] for a completion that is not the oldest one's. *)
Definition tm_spec_do (cnt : Z) (q : list T * Z) (o : TmOp) : option (list T * Z * TmRes) :=
  let '(l, h) := q in
  match o with
  | TPost _ _ _ x => if decide (Z.of_nat (length l) = cnt) then Some (l, h, TWouldBlock)
                     else Some (l ++ [x], h + 1, TPosted)
  | TComplete idx =>
      match l with
      | x :: l' => if decide (idx = u32 (h - Z.of_nat (length l))) then Some (l', h, TEntry (Some x)) else None
      | [] => None
      end
  end.

Fixpoint tm_spec_run (cnt : Z) (q : list T * Z) (os : list TmOp) : option (list T * Z * list TmRes) :=
  match os with
  | [] => Some (q, [])
  | o :: os => '(q, r) ← tm_spec_do cnt q o; '(q, rs) ← tm_spec_run cnt q os; Some (q, r :: rs)
  end.

Lemma tm_init_fifo b k st bf : 0 <= k <= 15 -> fifo (tm_init (T := T) b (2 ^ k) st bf) 0 [].
Proof.
  intros Hk. unfold tm_init.
  assert (0 < 2 ^ k <= 2 ^ 15) as Hp
    by (split; [apply Z.pow_pos_nonneg; lia|apply Z.pow_le_mono_r; lia]).
  assert (u16 (2 ^ k) = 2 ^ k) as E by (apply u16_small; lia). rewrite E.
  pose proof (utable_new_ok (T := T) k Hk) as Hok.
  split; cbn [table head]; try done; cbn.
  - lia.
  - intros j. rewrite elem_of_blocks. split; [|intros (i & Hi & _); lia].
    intros (Hj & Hu). exfalso. revert Hu. unfold used, word, utable_new. cbn.
    destruct (_ !! _) as [w|] eqn:Ew; cbn; [apply lookup_replicate in Ew as [-> _]|];
      by rewrite Z.bits_0.
Qed.

Lemma tm_do_spec s l h o l' h' r :
  fifo s h l -> tm_spec_do (wqebb_cnt (table s)) (l, h) o = Some (l', h', r) ->
  (tm_do s o).2 = r /\ fifo (tm_do s o).1 h' l' /\
  wqebb_cnt (table (tm_do s o).1) = wqebb_cnt (table s).
Proof.
  intros Hf. destruct o as [a n k x|idx]; cbn [tm_spec_do tm_do].
  - pose proof (fifo_post s h l a n k x Hf) as Hp. case_decide.
    + rewrite Hp. by intros [= <- <- <-].
    + destruct Hp as (s' & -> & Hf' & Hc). by intros [= <- <- <-].
  - destruct l as [|x l]; [done|]. case_decide as Hi; [|done]. intros [= <- <- <-]. subst idx.
    pose proof (fifo_complete s h x l Hf) as Hc.
    destruct (tm_process_completion s _) as [s' e]. by destruct Hc as (-> & Hc).
Qed.

Lemma tm_run_spec os : forall s l h l' h' rs,
  fifo s h l -> tm_spec_run (wqebb_cnt (table s)) (l, h) os = Some (l', h', rs) ->
  (tm_run s os).2 = rs /\ fifo (tm_run s os).1 h' l'.
Proof.
  induction os as [|o os IH]; intros s l h l' h' rs Hf; cbn [tm_spec_run tm_run].
  { by intros [= <- <- <-]. }
  destruct (tm_spec_do _ _ o) as [[[l1 h1] r]|] eqn:E; [|done]. cbn.
  destruct (tm_do_spec s l h o l1 h1 r Hf E) as (H1 & H2 & H3).
  destruct (tm_do s o) as [s1 r1]. cbn in *. rewrite <-H3. subst r1.
  destruct (tm_spec_run _ _ os) as [[[l2 h2] rs2]|] eqn:E2; [|done]. cbn. intros [= <- <- <-].
  destruct (IH s1 l1 h1 l2 h2 rs2 H2 E2) as (G1 & G2).
  destruct (tm_run s1 os) as [s2 rs2']. cbn in *. by subst.
Qed.

(** Completed in posting order, the tag-matching receive queue is a bounded
    first-in first-out queue.  Over any sequence of posts and completions of the
    oldest request, a post is refused exactly when all blocks are taken, every
    completion returns the entry of its own request, and afterwards each
    outstanding request has its entry and one block of the bitmap, no other block
    being in use; the 32-bit head may wrap. *)
Theorem tm_recv_in_order b k st bf os l h rs :
  0 <= k <= 15 -> tm_spec_run (2 ^ k) ([], 0) os = Some (l, h, rs) ->
  let '(s, rs') := tm_run (tm_init b (2 ^ k) st bf) os in rs' = rs /\ fifo s h l.
Proof.
  intros Hk E. pose proof (tm_init_fifo b k st bf Hk) as H0.
  assert (wqebb_cnt (table (tm_init (T := T) b (2 ^ k) st bf)) = 2 ^ k) as Ec.
  { cbn. apply u16_small. split; [apply Z.pow_nonneg; lia|].
    apply Z.pow_lt_mono_r; lia. }
  rewrite <-Ec in E. destruct (tm_run_spec os _ [] 0 l h rs H0 E). by destruct (tm_run _ os).
Qed.

(** C33: The block bitmap refines a finite set of blocks.  An allocation fails
    exactly when every block is in the set, and otherwise adds a block that was
    not there; an extension adds the following block exactly when it was free; a
    release removes the blocks of its range, cyclically, and no other; an entry
    stored is taken back under any index of its slot, once, and frees its blocks;
    [available_wqebbs], which counts ones over the words, is the number of blocks
    outside the set. *)
Theorem unordered_table_refines (t : UnorderedWqeTable T) :
  table_ok t ->
  (match try_allocate_first t with
   | (t', Some i) => table_ok t' /\ 0 <= i < wqebb_cnt t /\ i ∉ blocks t /\ blocks t' = {[i]} ∪ blocks t
   | (t', None) => t' = t /\ forall j, 0 <= j < wqebb_cnt t -> j ∈ blocks t
   end) /\
  (forall start c, let i := (start + c) mod wqebb_cnt t in
   match try_extend t start c with
   | (t', true) => table_ok t' /\ i ∉ blocks t /\ blocks t' = {[i]} ∪ blocks t
   | (t', false) => t' = t /\ i ∈ blocks t
   end) /\
  (forall start c, 0 <= c ->
   table_ok (release t start c) /\ blocks (release t start c) = blocks t ∖ span t start c) /\
  (forall idx idx' start c x, 0 <= c -> idx mod wqebb_cnt t = idx' mod wqebb_cnt t ->
   let '(t', e) := take (store t idx start c x) idx' in
   e = Some x /\ blocks t' = blocks t ∖ span t start c /\ (take t' idx').2 = None) /\
  available_wqebbs t = wqebb_cnt t - Z.of_nat (size (blocks t)).
Proof.
  intros Hok. split_and!.
  - destruct (try_allocate_first t) as [t' [i|]] eqn:E; [|by apply allocate_none].
    by apply allocate_ok in E as (? & _ & ? & ? & ?).
  - intros start c. pose proof (extend_spec t start c Hok) as H. cbn zeta in *.
    by destruct (try_extend t start c) as [t' []]; destruct H as (? & ?); naive_solver.
  - intros start c Hc. destruct (release_loop_spec start (Z.to_nat c) t 0 Hok) as (? & _ & _ & _ & E).
    rewrite Z.add_0_r, Z2Nat.id in E by lia. done.
  - intros idx idx' start c x Hc Hidx.
    destruct (store_spec t idx start c x Hok) as (Hok1 & E1 & E2 & _ & E3).
    rewrite Hidx, <-E1 in E3. destruct (take_spec _ idx' _ Hok1 E3 Hc) as (t' & -> & H1 & H2 & _ & H3 & H4).
    split_and!; [done|rewrite H4, E2; unfold span; by rewrite E1|].
    unfold take. rewrite land_block, H2, H3 by done.
    rewrite list_lookup_insert_eq by (by eapply lookup_lt_Some). done.
  - by apply available_wqebbs_spec.
Qed.

(** With completions in any other order the queue loses requests.  When a
    block is free but the slot of the next request still holds an outstanding one,
    [post_unordered_recv] succeeds, writes the new descriptor over the
    outstanding request's in the ring and its entry over the outstanding entry;
    the completion of the older request then returns the new request's entry,
    and the blocks in use are as before the post, so that the older request's
    block stays in use with no entry left to free it. *)
Theorem unordered_post_overwrites (s : TmSrqState T) addr len lkey (e : UnorderedWqeEntry T) y j :
  table_ok (table s) -> wqe_cnt s = wqebb_cnt (table s) -> 32 <= stride s ->
  wqe_cnt s * stride s < 2 ^ 32 -> Z.of_nat (length (buf s)) = wqe_cnt s * stride s ->
  entries (table s) !! Z.to_nat (slot_of s (head s)) = Some (Some e) ->
  0 <= j < wqebb_cnt (table s) -> j ∉ blocks (table s) ->
  exists s', post_unordered_recv s addr len lkey y = (s', Ok tt) /\
    read_bytes (buf s') (Z.to_nat (slot_of s (head s) * stride s) + 16) 16 = write_data_seg len lkey addr /\
    forall idx, slot_of s idx = slot_of s (head s) ->
      let '(s'', r) := tm_process_completion s' idx in
      r = Some y /\ blocks (table s'') = blocks (table s).
Proof.
  intros Hok Hcnt Hst Hsz Hbuf He Hj Hfree. pose proof (slot_of_range s (head s) Hok) as Hr.
  unfold post_unordered_recv.
  destruct (try_allocate_first (table s)) as [t' [i|]] eqn:E; cycle 1.
  { apply allocate_none in E as [_ Hall]; [|done]. by destruct (Hfree (Hall j Hj)). }
  pose proof (allocate_ok _ _ _ Hok E) as (Hok' & Eent & Hi & Hnew & Hb).
  assert (wqebb_cnt t' = wqebb_cnt (table s)) as Hc.
  { pose proof (ok_entries _ Hok'). pose proof (ok_entries _ Hok). congruence. }
  assert (get_wqe_ptr s (head s) = slot_of s (head s) * stride s) as Eptr.
  { unfold get_wqe_ptr. rewrite Hcnt. fold (mask (table s)). rewrite land_block by done.
    apply u32_small. fold (slot_of s (head s)). nia. }
  rewrite Eptr. eexists. split; [done|]. cbn [buf table]. split.
  { assert (Z.to_nat (slot_of s (head s) * stride s) + 32 <= length (buf s))%nat by nia.
    apply read_write_n; [apply length_data_seg|].
    rewrite ?length_data_seg, length_write_bytes; rewrite ?length_replicate; lia. }
  intros idx Hidx. unfold tm_process_completion. cbn [table].
  destruct (store_spec t' (u16 (head s)) i 1 y Hok') as (Hok1 & E1 & E2 & _ & E3).
  rewrite block_u16, Hc in E3 by done. fold (slot_of s (head s)) in E3. rewrite <-Hidx in E3.
  unfold slot_of in E3. rewrite <-Hc, <-E1 in E3.
  destruct (take_spec _ idx _ Hok1 E3 ltac:(done)) as (t2 & -> & _ & _ & _ & _ & H4).
  split; [done|]. cbn [table wqebb_start wqebb_count] in *.
  rewrite H4, span_1, E2, Hb by (try rewrite E1, Hc; done). set_solver.
Qed.

End Runs.

(** An error completion of a receive request is looked up in the command table:
    the receive queue keeps the request, and a command outstanding in the slot
    of the same index is completed in its place. *)
Lemma recv_error_completes_command {C T} (q : Tm C T) c e d :
  Cq.opcode c = Cq.RespErr ->
  let x := QueuePair.ctx (cmd_qp q) in
  Emit.table x !! Z.to_nat (Z.land (Cq.wqe_counter c) (Emit.wqe_cnt x - 1)) = Some (Some (e, d)) ->
  (tm_dispatch_cqe q c).2 = Some (TmError c (Some e)) /\
  srq_state (tm_dispatch_cqe q c).1 = srq_state q.
Proof.
  intros Ho x He. unfold tm_dispatch_cqe. rewrite Ho.
  unfold process_cmd_completion, QueuePair.sq_process_completion. fold x. by rewrite He.
Qed.

(** ** Witnesses *)

Definition demo_posts : list (TmOp (T := Z)) :=
  [TPost 4096 64 7 10; TPost 8192 64 7 11; TPost 12288 64 7 12; TPost 16384 64 7 13].

(** Four requests posted, the second one completed. *)
Definition demo_tm : TmSrqState Z :=
  (tm_run (tm_init (replicate 128 0) 4 32 0) (demo_posts ++ [TComplete 1])).1.

Lemma demo_tm_ok : table_ok (table demo_tm).
Proof.
  assert (table_ok (utable_new (T := Z) (2 ^ 2))) as H0 by by apply utable_new_ok.
  split; try done.
  - by exists 2.
  - intros j Hj. change (wqebb_cnt _) with 4 in Hj. change (width _) with 64 in Hj.
    unfold used, word. rewrite Z.div_small, Z.mod_small by lia.
    change (default 0 _) with 13. apply Z.bits_above_log2; [done|]. change (Z.log2 13) with 3. lia.
Qed.

Lemma tm_recv_in_order_witness :
  exists l h rs,
    tm_spec_run (2 ^ 2) ([], 0) (demo_posts ++ [TPost 0 0 0 14; TComplete 0; TPost 0 0 0 15]) = Some (l, h, rs) /\
    let '(s, rs') := tm_run (tm_init (replicate 128 0) (2 ^ 2) 32 0)
                       (demo_posts ++ [TPost 0 0 0 14; TComplete 0; TPost 0 0 0 15]) in
    rs' = rs /\ fifo s h l.
Proof.
  eexists _, _, _. split; [vm_compute; reflexivity|].
  apply (tm_recv_in_order (replicate 128 0) 2 32 0); [lia|vm_compute; reflexivity].
Defined.

Lemma unordered_table_refines_witness :
  table_ok (table demo_tm) /\
  available_wqebbs (table demo_tm) = wqebb_cnt (table demo_tm) - Z.of_nat (size (blocks (table demo_tm))).
Proof.
  split; [apply demo_tm_ok|]. apply (unordered_table_refines (table demo_tm) demo_tm_ok).
Defined.

Lemma unordered_post_overwrites_witness :
  entries (table demo_tm) !! 0%nat = Some (Some (mkUEntry 10 0 1)) /\
  exists s', post_unordered_recv demo_tm 20480 64 7 99 = (s', Ok tt) /\
    read_bytes (buf s') (Z.to_nat (slot_of demo_tm (head demo_tm) * stride demo_tm) + 16) 16
      = write_data_seg 64 7 20480 /\
    forall idx, slot_of demo_tm idx = slot_of demo_tm (head demo_tm) ->
      let '(s'', r) := tm_process_completion s' idx in
      r = Some 99 /\ blocks (table s'') = blocks (table demo_tm).
Proof.
  split; [vm_compute; reflexivity|].
  apply (unordered_post_overwrites demo_tm 20480 64 7 (mkUEntry 10 0 1) 99 1);
    [apply demo_tm_ok|vm_compute; reflexivity|vm_compute; congruence|vm_compute; reflexivity
    |vm_compute; reflexivity|vm_compute; reflexivity|vm_compute; split; congruence|].
  rewrite elem_of_blocks. vm_compute. intros [_ ?]. congruence.
Defined.

End TmSrq.
