(* ===== verification/Daemon.v ===== *)
(** * Daemon: the file-system daemon, [aggfs/src/bin/aggfsd.rs] and
    [aggfs/src/message.rs]

    A daemon serves the clients of its node over shared memory and forwards what
    another daemon stores over copyrpc; that daemon moves the data between its
    region and the client's buffer by RDMA and answers when the transfer is done.
    The turn of the event loop is modelled phase by phase, over what the transports
    deliver in it; the messages are values of their Rust types, which both sides
    read and write as such. *)

From S2P Require Import Prelude Rc Store Routing.

Module Daemon.
Import Store Routing.

(** ** Messages *)

Definition PATH_AREA_SIZE : Z := 4096.
Definition DATA_AREA_OFFSET : Z := PATH_AREA_SIZE.

Record InodeHeader : Type := mkInode {
  i_mode : Z; i_uid : Z; i_gid : Z; i_size : Z; i_chunk_size : Z;
  i_mtime_sec : Z; i_mtime_nsec : Z; i_ctime_sec : Z; i_ctime_nsec : Z;
}.

(** [InodeHeader { mode, chunk_size, ..Default::default() }]. *)
Definition new_inode (mode chunk_size : Z) : InodeHeader := mkInode mode 0 0 0 chunk_size 0 0 0 0.
Definition set_size (n : Z) (h : InodeHeader) : InodeHeader :=
  mkInode (i_mode h) (i_uid h) (i_gid h) n (i_chunk_size h) (i_mtime_sec h) (i_mtime_nsec h)
    (i_ctime_sec h) (i_ctime_nsec h).

Inductive FsRequest : Type :=
| Create (path_hash path_len mode chunk_size : Z)
| Stat (path_hash path_len : Z)
| Read (path_hash chunk_index offset len : Z)
| Write (path_hash chunk_index offset len : Z)
| Unlink (path_hash path_len : Z)
| Mkdir (path_hash path_len mode : Z)
| Readdir (path_hash path_len : Z).

Inductive FsResponse : Type :=
| FsOk
| StatOk (header : InodeHeader)
| ReadOk (len : Z)
| ReaddirOk (count : Z)
| NotFound
| FsError (code : Z).

(** A client's buffer as the network sees it: the data area's address and its key. *)
Record ClientMrInfo : Type := mkMr { mr_rkey : Z; mr_data_addr : Z }.

Inductive RemoteRequest : Type :=
| RemoteWrite (path_hash chunk_index offset len : Z) (client : ClientMrInfo)
| RemoteRead (path_hash chunk_index offset len : Z) (client : ClientMrInfo)
| RemoteCreate (path_hash mode chunk_size : Z)
| RemoteStat (path_hash : Z)
| RemoteUnlink (path_hash : Z).

(** The payload of a copyrpc response: a [RemoteResponse], a [RemoteStatResponse],
    or too short to be either. *)
Inductive RemoteReply : Type :=
| RemoteResponse (status len : Z)
| RemoteStatResponse (status : Z) (header : InodeHeader)
| ShortReply.

(** [ipc::RequestToken]: the client whose request it is. *)
Definition Token : Type := Z.

Inductive PendingOp : Type :=
| PendingWrite (token : Token) (path_hash chunk_index offset len : Z)
| PendingRead (token : Token)
| PendingCreate (token : Token)
| PendingStat (token : Token)
| PendingUnlink (token : Token).

Definition into_token (op : PendingOp) : Token :=
  match op with
  | PendingWrite t _ _ _ _ | PendingRead t | PendingCreate t | PendingStat t | PendingUnlink t => t
  end.

Definition extract_token_from_call_error (e : Rc.CallError PendingOp) : option Token :=
  match e with
  | Rc.CallRingFull op | Rc.CallInsufficientCredit op => Some (into_token op)
  | Rc.CallOther _ => None
  end.

(** ** State *)

Inductive PendingRecvRdmaKind : Type :=
| KindWrite (path_hash chunk_index offset len : Z)
| KindRead.

(** [handle] stands for the [RecvHandle] the answer goes to. *)
Record PendingRecvRdma : Type := mkPending {
  handle : Z;
  p_ep_idx : Z;
  kind : PendingRecvRdmaKind;
  resp : RemoteReply;
}.

(** The locals of [run_daemon]; [pmem_mr] tells whether the region is registered,
    which it is with the copyrpc context. *)
Record Daemon : Type := mkDaemon {
  my_global_id : Z;
  total_daemons : Z;
  daemons_per_node : Z;
  store : PmemStore;
  file_metadata : gmap Z InodeHeader;
  remote_rank_to_ep_idx : gmap Z Z;
  pmem_mr : bool;
  pending_recv_rdma : list PendingRecvRdma;
}.

Definition set_store (s : PmemStore) (d : Daemon) : Daemon :=
  mkDaemon (my_global_id d) (total_daemons d) (daemons_per_node d) s (file_metadata d)
    (remote_rank_to_ep_idx d) (pmem_mr d) (pending_recv_rdma d).
Definition set_metadata (m : gmap Z InodeHeader) (d : Daemon) : Daemon :=
  mkDaemon (my_global_id d) (total_daemons d) (daemons_per_node d) (store d) m
    (remote_rank_to_ep_idx d) (pmem_mr d) (pending_recv_rdma d).
Definition set_pending (ps : list PendingRecvRdma) (d : Daemon) : Daemon :=
  mkDaemon (my_global_id d) (total_daemons d) (daemons_per_node d) (store d) (file_metadata d)
    (remote_rank_to_ep_idx d) (pmem_mr d) ps.

(** The data areas of the clients' buffers, by address. *)
Notation Mem := (gmap Z (list Z)).

(** What a turn does to the outside, in order. *)
Inductive Event : Type :=
| IpcReply (token : Token) (r : FsResponse)
| Call (ep_idx : Z) (req : RemoteRequest) (op : PendingOp) (response_allowance : Z)
| Reply (handle : Z) (r : RemoteReply)
| PostRdmaRead (ep_idx : Z) (client : ClientMrInfo) (region_offset len : Z)
| PostRdmaWrite (ep_idx : Z) (client : ClientMrInfo) (region_offset len : Z).

(** ** Handlers *)

Definition update_file_size (path_hash chunk_index offset len : Z) (d : Daemon) : Daemon :=
  if route path_hash 0 (total_daemons d) =? my_global_id d then
    let cs := effective_chunk_size (store d) path_hash in
    let file_end := chunk_index * cs + offset + len in
    match file_metadata d !! path_hash with
    | Some meta =>
        if i_size meta <? file_end
        then set_metadata (<[path_hash := set_size file_end meta]> (file_metadata d)) d else d
    | None => d
    end
  else d.

(** Phase 1: the response callback. *)
Definition on_response (op : PendingOp) (r : RemoteReply) (d : Daemon) : Daemon * list Event :=
  let status := match r with
                | RemoteResponse st _ | RemoteStatResponse st _ => st
                | ShortReply => -1
                end in
  let len := match r with RemoteResponse _ n => n | _ => 0 end in
  match op with
  | PendingWrite t ph ci off n =>
      if status =? 0 then (update_file_size ph ci off n d, [IpcReply t FsOk])
      else (d, [IpcReply t (FsError status)])
  | PendingCreate t | PendingUnlink t =>
      (d, [IpcReply t (if status =? 0 then FsOk else FsError status)])
  | PendingRead t =>
      (d, [IpcReply t (if status =? 0 then ReadOk len else FsError status)])
  | PendingStat t =>
      (d, [IpcReply t
             (match r with
              | RemoteStatResponse st h =>
                  if st =? 0 then StatOk h else if st =? -2 then NotFound else FsError st
              | _ => FsError (-1)
              end)])
  end.

(** Phase 1b, for one transfer that is complete. *)
Definition finish_rdma (p : PendingRecvRdma) (d : Daemon) : option (Daemon * list Event) :=
  match kind p with
  | KindWrite ph ci off len =>
      s ← commit_write ph ci off len (store d);
      Some (update_file_size ph ci off len (set_store s d), [Reply (handle p) (resp p)])
  | KindRead => Some (d, [Reply (handle p) (resp p)])
  end.

(** Phase 1b: [retain_mut] over the transfers, [raw_rdma_pending] being the count of
    each endpoint. *)
Fixpoint check_rdma (raw_rdma_pending : Z -> Z) (ps : list PendingRecvRdma) (d : Daemon)
    : option (Daemon * list PendingRecvRdma * list Event) :=
  match ps with
  | [] => Some (d, [], [])
  | p :: ps =>
      if raw_rdma_pending (p_ep_idx p) =? 0 then
        '(d, evs) ← finish_rdma p d;
        '(d, kept, evs') ← check_rdma raw_rdma_pending ps d;
        Some (d, kept, evs ++ evs')
      else
        '(d, kept, evs) ← check_rdma raw_rdma_pending ps d;
        Some (d, p :: kept, evs)
  end.

(** Phase 1c: a request of another daemon; [None] for a payload that is too short.
    What [post_rdma_read] returns is printed and dropped. *)
Definition on_remote (h : Z) (ep_idx : option Z) (req : option RemoteRequest) (d : Daemon)
    : option (Daemon * list Event) :=
  let ok := RemoteResponse 0 0 in
  match req with
  | None => Some (d, [Reply h (RemoteResponse (-1) 0)])
  | Some (RemoteWrite ph ci off len client) =>
      match ep_idx, pmem_mr d with
      | Some idx, true =>
          '(s, (dest, _)) ← prepare_write ph ci off (store d);
          Some (set_pending (pending_recv_rdma d ++
                  [mkPending h idx (KindWrite ph ci off len) (RemoteResponse 0 len)]) (set_store s d),
                [PostRdmaRead idx client dest len])
      | _, _ => Some (d, [Reply h (RemoteResponse (-1) 0)])
      end
  | Some (RemoteRead ph ci off len client) =>
      let '(src, available) := default (None, 0) (ptr_for_chunk_read ph ci off (store d)) in
      let actual := Z.min available len in
      match (if 0 <? actual then src else None), ep_idx, pmem_mr d with
      | Some src, Some idx, true =>
          Some (set_pending (pending_recv_rdma d ++
                  [mkPending h idx KindRead (RemoteResponse 0 (u32 actual))]) d,
                [PostRdmaWrite idx client src (u32 actual)])
      | _, _, _ => Some (d, [Reply h (RemoteResponse 0 (u32 actual))])
      end
  | Some (RemoteCreate ph mode cs) =>
      Some (set_metadata (<[ph := new_inode mode cs]> (file_metadata d))
              (set_store (register_file ph cs (store d)) d), [Reply h ok])
  | Some (RemoteStat ph) =>
      Some (d, [Reply h (match file_metadata d !! ph with
                         | Some header => RemoteStatResponse 0 header
                         | None => RemoteStatResponse (-2) (new_inode 0 0)
                         end)])
  | Some (RemoteUnlink ph) =>
      Some (set_store (remove ph 0 (store d)).1 (set_metadata (delete ph (file_metadata d)) d),
            [Reply h ok])
  end.

(** Forwarding to the daemon of a request's target: over the endpoint of its node,
    when there is one; [req] is [None] when the client's buffer is not registered.
    [call] is what copyrpc answers. *)
Definition forward (call : Z -> PendingOp -> option (Rc.CallError PendingOp)) (t : Token)
    (target : Z) (req : option RemoteRequest) (op : PendingOp) (allowance : Z) (d : Daemon)
    : list Event :=
  let '(target_node, _) := global_to_local target (daemons_per_node d) in
  match remote_rank_to_ep_idx d !! target_node with
  | Some ep_idx =>
      match req with
      | None => [IpcReply t (FsError (-1))]
      | Some req =>
          match call ep_idx op with
          | None => [Call ep_idx req op allowance]
          | Some e =>
              match extract_token_from_call_error e with
              | Some t => [IpcReply t (FsError (-11))]
              | None => []
              end
          end
      end
  | None => [IpcReply t (FsError (-2))]
  end.

(** [size_of::<RemoteStatResponse>()]. *)
Definition REMOTE_STAT_RESPONSE_SIZE : Z := 72.

(** Phase 2: a request of a client.  [buf] is the address of the client's data area
    while it is connected, [mr] its registration, [call] what copyrpc answers; [None]
    is a failed assertion of the store, or a slice longer than the data area. *)
Section Requests.
Context (call : Z -> PendingOp -> option (Rc.CallError PendingOp)) (t : Token)
  (buf : option Z) (mr : option ClientMrInfo).

Definition ipc_write (ph ci off len : Z) (d : Daemon) (m : Mem) : option (Daemon * Mem * list Event) :=
  let target := route ph ci (total_daemons d) in
  if target =? my_global_id d then
    match buf with
    | Some a =>
        area ← m !! a;
        data ← slice area 0 len;
        s ← Store.write ph ci off data (store d);
        Some (update_file_size ph ci off len (set_store s d), m, [IpcReply t FsOk])
    | None => Some (d, m, [IpcReply t FsOk])
    end
  else Some (d, m, forward call t target (RemoteWrite ph ci off len <$> mr)
                     (PendingWrite t ph ci off len) 64 d).

Definition ipc_read (ph ci off len : Z) (d : Daemon) (m : Mem) : option (Daemon * Mem * list Event) :=
  let target := route ph ci (total_daemons d) in
  if target =? my_global_id d then
    match buf with
    | Some a =>
        area ← m !! a;
        _ ← slice area 0 len;
        let bytes := Store.read ph ci off len (store d) in
        Some (d, <[a := write_bytes area 0 bytes]> m,
              [IpcReply t (ReadOk (u32 (Z.of_nat (length bytes))))])
    | None => Some (d, m, [IpcReply t (FsError (-1))])
    end
  else Some (d, m, forward call t target (RemoteRead ph ci off len <$> mr) (PendingRead t) 64 d).

Definition ipc_stat (ph : Z) (d : Daemon) : Daemon * list Event :=
  let target := route ph 0 (total_daemons d) in
  if target =? my_global_id d
  then (d, [IpcReply t (match file_metadata d !! ph with
                        | Some header => StatOk header
                        | None => NotFound
                        end)])
  else (d, forward call t target (Some (RemoteStat ph)) (PendingStat t) REMOTE_STAT_RESPONSE_SIZE d).

Definition ipc_create (ph mode cs : Z) (d : Daemon) : Daemon * list Event :=
  let target := route ph 0 (total_daemons d) in
  if target =? my_global_id d
  then (set_metadata (<[ph := new_inode mode cs]> (file_metadata d))
          (set_store (register_file ph cs (store d)) d), [IpcReply t FsOk])
  else (d, forward call t target (Some (RemoteCreate ph mode cs)) (PendingCreate t) 64 d).

Definition ipc_unlink (ph : Z) (d : Daemon) : Daemon * list Event :=
  let target := route ph 0 (total_daemons d) in
  if target =? my_global_id d
  then (set_store (remove ph 0 (store d)).1 (set_metadata (delete ph (file_metadata d)) d),
        [IpcReply t FsOk])
  else (d, forward call t target (Some (RemoteUnlink ph)) (PendingUnlink t) 64 d).

(** Directories are made only at their own daemon, and none is read. *)
Definition ipc_mkdir (ph mode : Z) (d : Daemon) : Daemon * list Event :=
  if route ph 0 (total_daemons d) =? my_global_id d
  then (set_metadata (<[ph := new_inode (Z.lor mode 16384) 0]> (file_metadata d)) d, [IpcReply t FsOk])
  else (d, [IpcReply t (FsError (-38))]).

Definition ipc_readdir (d : Daemon) : Daemon * list Event := (d, [IpcReply t (FsError (-38))]).

Definition on_ipc (req : FsRequest) (d : Daemon) (m : Mem) : option (Daemon * Mem * list Event) :=
  let and_memory '(d, evs) := Some (d, m, evs) in
  match req with
  | Write ph ci off len => ipc_write ph ci off len d m
  | Read ph ci off len => ipc_read ph ci off len d m
  | Stat ph _ => and_memory (ipc_stat ph d)
  | Create ph _ mode cs => and_memory (ipc_create ph mode cs d)
  | Unlink ph _ => and_memory (ipc_unlink ph d)
  | Mkdir ph _ mode => and_memory (ipc_mkdir ph mode d)
  | Readdir _ _ => and_memory (ipc_readdir d)
  end.

End Requests.

(** ** The turn of the event loop *)

(** What the transports deliver in a turn: responses with the operation they answer,
    transfers pending per endpoint, requests of daemons, requests of clients; and
    what copyrpc answers to calls. *)
Record Inputs : Type := mkInputs {
  in_responses : list (PendingOp * RemoteReply);
  in_raw : Z -> Z;
  in_remote : list (Z * option Z * option RemoteRequest);
  in_ipc : list (Token * option Z * option ClientMrInfo * FsRequest);
  in_call : Z -> PendingOp -> option (Rc.CallError PendingOp);
}.

Fixpoint responses_loop (rs : list (PendingOp * RemoteReply)) (d : Daemon) : Daemon * list Event :=
  match rs with
  | [] => (d, [])
  | (op, r) :: rs =>
      let '(d, evs) := on_response op r d in
      let '(d, evs') := responses_loop rs d in (d, evs ++ evs')
  end.

Fixpoint remote_loop (rs : list (Z * option Z * option RemoteRequest)) (d : Daemon)
    : option (Daemon * list Event) :=
  match rs with
  | [] => Some (d, [])
  | (h, ep, req) :: rs =>
      '(d, evs) ← on_remote h ep req d;
      '(d, evs') ← remote_loop rs d;
      Some (d, evs ++ evs')
  end.

Fixpoint ipc_loop (call : Z -> PendingOp -> option (Rc.CallError PendingOp))
    (rs : list (Token * option Z * option ClientMrInfo * FsRequest)) (d : Daemon) (m : Mem)
    : option (Daemon * Mem * list Event) :=
  match rs with
  | [] => Some (d, m, [])
  | (t, buf, mr, req) :: rs =>
      '(d, m, evs) ← on_ipc call t buf mr req d m;
      '(d, m, evs') ← ipc_loop call rs d m;
      Some (d, m, evs ++ evs')
  end.

Definition turn (i : Inputs) (d : Daemon) (m : Mem) : option (Daemon * Mem * list Event) :=
  let '(d, e1) := responses_loop (in_responses i) d in
  '(d, kept, e2) ← check_rdma (in_raw i) (pending_recv_rdma d) d;
  '(d, e3) ← remote_loop (in_remote i) (set_pending kept d);
  '(d, m, e4) ← ipc_loop (in_call i) (in_ipc i) d m;
  Some (d, m, e1 ++ e2 ++ e3 ++ e4).

(** *** Buffers and registrations of the clients *)

(** [extra_buf_ptrs] and [client_mrs], by client; a registration is its key and the
    address registered. *)
Record Clients : Type := mkClients {
  extra_buf_ptrs : list (option Z);
  client_mrs : list (option (Z * Z));
}.

(** One client of the registration loop; [register] is [pd.register], [ctx] whether
    there is a copyrpc context. *)
Definition register_client (ctx : bool) (extra_buf_size : Z) (register : Z -> option Z)
    (ptr_opt : option Z) (entry : option (Z * Z)) : option (Z * Z) :=
  match entry, ptr_opt with
  | None, Some buf_ptr =>
      if (0 <? extra_buf_size) && ctx
      then rkey ← register buf_ptr; Some (rkey, buf_ptr) else None
  | _, _ => entry
  end.

Fixpoint register_loop (ctx : bool) (extra_buf_size : Z) (register : Z -> option Z)
    (bufs : list (option Z)) (mrs : list (option (Z * Z))) : list (option (Z * Z)) :=
  match bufs with
  | [] => mrs
  | b :: bufs =>
      let '(entry, mrs) := match mrs with [] => (None, []) | e :: mrs => (e, mrs) end in
      register_client ctx extra_buf_size register b entry
        :: register_loop ctx extra_buf_size register bufs mrs
  end.

Definition refresh_clients (max_clients : Z) (client_extra_buffer : Z -> option Z) (ctx : bool)
    (extra_buf_size : Z) (register : Z -> option Z) (c : Clients) : Clients :=
  let bufs := client_extra_buffer <$> seqZ 0 max_clients in
  mkClients bufs (register_loop ctx extra_buf_size register bufs (client_mrs c)).

(** A request of client [t] with what the tables say of it. *)
Definition deliver (c : Clients) (r : Token * FsRequest) : Token * option Z * option ClientMrInfo * FsRequest :=
  let '(t, req) := r in
  (t, (fun p => p + DATA_AREA_OFFSET) <$> mjoin (extra_buf_ptrs c !! Z.to_nat t),
   (fun '(rkey, addr) => mkMr rkey (addr + DATA_AREA_OFFSET)) <$> mjoin (client_mrs c !! Z.to_nat t), req).

(** The body of the event loop: [turn] on the requests the server hands out. *)
Definition loop_turn (max_clients : Z) (client_extra_buffer : Z -> option Z) (extra_buf_size : Z)
    (register : Z -> option Z) (requests : list (Token * FsRequest)) (i : Inputs)
    (c : Clients) (d : Daemon) (m : Mem) : option (Clients * Daemon * Mem * list Event) :=
  let c := refresh_clients max_clients client_extra_buffer (pmem_mr d) extra_buf_size register c in
  '(d, m, evs) ← turn (mkInputs (in_responses i) (in_raw i) (in_remote i) (deliver c <$> requests)
                         (in_call i)) d m;
  Some (c, d, m, evs).

(** ** Start *)

(** The daemon before its first turn: rank [rank] of [size], local number [id]; the
    endpoints of the other ranks are numbered in their order. *)
Definition remote_ranks (rank size : Z) : list Z :=
  filter (fun r => r <> rank) (seqZ 0 size).

Definition start_daemon (rank size id per_node : Z) (s : PmemStore) : Daemon :=
  let ranks := remote_ranks rank size in
  mkDaemon (rank * per_node + id) (per_node * size) per_node s ∅
    (list_to_map (zip ranks (seqZ 0 (Z.of_nat (length ranks))))) (1 <? size) [].

(** ** Registrations *)

(** A connected client has a registered buffer from its first turn on, as long as the
    registration succeeds, and keeps the first registration. *)
Lemma register_loop_lookup ctx size register bufs mrs i b :
  bufs !! i = Some b ->
  register_loop ctx size register bufs mrs !! i
    = Some (register_client ctx size register b (mjoin (mrs !! i))).
Proof.
  revert mrs i. induction bufs as [|b0 bufs IH]; intros mrs [|i] H; simplify_eq/=.
  - by destruct mrs.
  - destruct mrs as [|e mrs]; [exact (IH [] i H)|exact (IH mrs i H)].
Qed.

Lemma deliver_connected max bufs size register c t p key req :
  0 <= t < max -> bufs t = Some p -> 0 < size ->
  (mjoin (client_mrs c !! Z.to_nat t) = Some (key, p) \/
   mjoin (client_mrs c !! Z.to_nat t) = None /\ register p = Some key) ->
  deliver (refresh_clients max bufs true size register c) (t, req)
    = (t, Some (p + DATA_AREA_OFFSET), Some (mkMr key (p + DATA_AREA_OFFSET)), req).
Proof.
  intros Ht Hb Hs Hr. unfold deliver, refresh_clients; cbn [extra_buf_ptrs client_mrs].
  assert ((bufs <$> seqZ 0 max) !! Z.to_nat t = Some (Some p)) as E.
  { rewrite list_lookup_fmap, lookup_seqZ_lt by lia. cbn. do 2 f_equal. rewrite <- Hb. f_equal. lia. }
  rewrite (register_loop_lookup _ _ _ _ _ _ _ E), E. cbn [mjoin option_join].
  destruct Hr as [->|[-> Hr]]; cbn; [done|].
  by rewrite (proj2 (Z.ltb_lt 0 size) Hs), Hr.
Qed.

End Daemon.
