(* ===== verification/FsClient.v ===== *)
(** * FsClient: the file-system client, [aggfs/src/client.rs]

    File descriptors, and reads and writes of any length split into requests for one
    chunk each, with the data in the buffer the client shares with its daemon.  The
    daemon is a blocking call on a state that holds the buffer. *)

From S2P Require Import Prelude Routing Daemon.

Module FsClient.
Import Daemon Routing.

Inductive FsError : Type :=
| IpcError
| FsNotFound
| NoSuchFd
| ServerError (code : Z).

(** [struct FsClient]; [data_capacity] is the extra buffer without the path area. *)
Record Client : Type := mkClient {
  chunk_size : Z;
  data_capacity : Z;
  fd_table : list (option Z);
}.

Definition connect (cs extra_buffer_size : Z) : Client :=
  mkClient cs (extra_buffer_size - DATA_AREA_OFFSET) [].

Definition set_fds (fds : list (option Z)) (c : Client) : Client :=
  mkClient (chunk_size c) (data_capacity c) fds.

(** The first free descriptor, from [n] on. *)
Fixpoint find_free (n : nat) (fds : list (option Z)) : option nat :=
  match fds with
  | [] => None
  | None :: _ => Some n
  | Some _ :: fds => find_free (S n) fds
  end.

Definition open (path : list Z) (c : Client) : Client * Z :=
  let path_hash := koyama_hash path in
  match find_free 0 (fd_table c) with
  | Some pos => (set_fds (<[pos := Some path_hash]> (fd_table c)) c, u32 (Z.of_nat pos))
  | None => (set_fds (fd_table c ++ [Some path_hash]) c, u32 (Z.of_nat (length (fd_table c))))
  end.

Definition fd_path_hash (fd : Z) (c : Client) : result Z FsError :=
  match fd_table c !! Z.to_nat fd with
  | Some (Some h) => Ok h
  | _ => Err NoSuchFd
  end.

Definition close (fd : Z) (c : Client) : Client * result unit FsError :=
  match fd_path_hash fd c with
  | Ok _ => (set_fds (<[Z.to_nat fd := None]> (fd_table c)) c, Ok tt)
  | Err e => (c, Err e)
  end.

Section Calls.
(** [call_blocking], [None] when it does not come back; the data area in the state. *)
Context {W : Type} (call_blocking : W -> FsRequest -> option (W * result FsResponse unit))
  (get_data : W -> list Z) (put_data : list Z -> W -> W).

Definition path_len (path : list Z) : Z := Z.min (Z.of_nat (length path)) U16_MAX.

(** The answer of an operation without a result. *)
Definition expect_ok (r : result FsResponse unit) : result unit FsError :=
  match r with
  | Ok FsOk => Ok tt
  | Ok (Daemon.FsError code) => Err (ServerError code)
  | Ok _ => Err (ServerError (-1))
  | Err _ => Err IpcError
  end.

Definition create (path : list Z) (mode : Z) (c : Client) (w : W) : option (W * result unit FsError) :=
  '(w, r) ← call_blocking w (Create (koyama_hash path) (path_len path) mode (u32 (chunk_size c)));
  Some (w, expect_ok r).

Definition unlink (path : list Z) (w : W) : option (W * result unit FsError) :=
  '(w, r) ← call_blocking w (Unlink (koyama_hash path) (path_len path));
  Some (w, expect_ok r).

Definition mkdir (path : list Z) (mode : Z) (w : W) : option (W * result unit FsError) :=
  '(w, r) ← call_blocking w (Mkdir (koyama_hash path) (path_len path) mode);
  Some (w, expect_ok r).

Definition stat (path : list Z) (w : W) : option (W * result InodeHeader FsError) :=
  '(w, r) ← call_blocking w (Stat (koyama_hash path) (path_len path));
  Some (w, match r with
           | Ok (StatOk header) => Ok header
           | Ok NotFound => Err FsNotFound
           | Ok (Daemon.FsError code) => Err (ServerError code)
           | Ok _ => Err (ServerError (-1))
           | Err _ => Err IpcError
           end).

(** The request for the next piece: chunk, offset in it and length. *)
Definition piece (c : Client) (file_offset remaining : Z) : Z * Z * Z :=
  let chunk_offset := file_offset mod chunk_size c in
  let max_in_chunk := chunk_size c - chunk_offset in
  (u32 (file_offset / chunk_size c), chunk_offset,
   Z.min (Z.min remaining max_in_chunk) (data_capacity c)).

(** The loop of [pwrite]: [rest] is what is left of the buffer. *)
Fixpoint pwrite_loop (fuel : nat) (c : Client) (path_hash : Z) (rest : list Z)
    (written file_offset : Z) (w : W) : option (W * result Z FsError) :=
  match fuel with
  | O => None
  | S fuel =>
      if Z.of_nat (length rest) =? 0 then Some (w, Ok written)
      else
        let '(chunk_index, chunk_offset, this_len) := piece c file_offset (Z.of_nat (length rest)) in
        let n := Z.to_nat this_len in
        let w := put_data (write_bytes (get_data w) 0 (take n rest)) w in
        '(w, r) ← call_blocking w (Write path_hash chunk_index (u32 chunk_offset) (u32 this_len));
        match expect_ok r with
        | Ok _ => pwrite_loop fuel c path_hash (drop n rest) (written + this_len)
                    (file_offset + this_len) w
        | Err e => Some (w, Err e)
        end
  end.

Definition pwrite (fuel : nat) (fd : Z) (buf : list Z) (offset : Z) (c : Client) (w : W)
    : option (W * result Z FsError) :=
  match fd_path_hash fd c with
  | Err e => Some (w, Err e)
  | Ok path_hash => pwrite_loop fuel c path_hash buf 0 offset w
  end.

(** The loop of [pread]: [acc] is what has been read of [len] bytes; a copy of more
    than is missing would leave the buffer. *)
Fixpoint pread_loop (fuel : nat) (c : Client) (path_hash len : Z) (acc : list Z)
    (file_offset : Z) (w : W) : option (W * result (list Z) FsError) :=
  match fuel with
  | O => None
  | S fuel =>
      if len <=? Z.of_nat (length acc) then Some (w, Ok acc)
      else
        let '(chunk_index, chunk_offset, this_len) :=
          piece c file_offset (len - Z.of_nat (length acc)) in
        '(w, r) ← call_blocking w (Read path_hash chunk_index (u32 chunk_offset) (u32 this_len));
        match r with
        | Ok (ReadOk actual) =>
            if len - Z.of_nat (length acc) <? actual then None
            else
              let acc := acc ++ take (Z.to_nat actual) (get_data w) in
              if actual <? this_len then Some (w, Ok acc)
              else pread_loop fuel c path_hash len acc (file_offset + actual) w
        | Ok (Daemon.FsError code) => Some (w, Err (ServerError code))
        | Ok _ => Some (w, Err (ServerError (-1)))
        | Err _ => Some (w, Err IpcError)
        end
  end.

Definition pread (fuel : nat) (fd : Z) (len offset : Z) (c : Client) (w : W)
    : option (W * result (list Z) FsError) :=
  match fd_path_hash fd c with
  | Err e => Some (w, Err e)
  | Ok path_hash => pread_loop fuel c path_hash len [] offset w
  end.

End Calls.

End FsClient.
