(* ===== verification/FsFfi.v ===== *)
(** * FsFfi: the C interface of the file system, [aggfs/src/ffi.rs]

    Paths arrive as bytes up to a NUL and must be UTF-8; results of the client become
    numbers, errors negative ones. *)

From S2P Require Import Prelude Routing Daemon FsClient.

Module FsFfi.
Import Daemon FsClient.

(** [libc]'s numbers on Linux. *)
Definition ENOENT : Z := 2.
Definition EIO : Z := 5.
Definition EBADF : Z := 9.
Definition EINVAL : Z := 22.

(** [CStr::from_ptr]: the bytes before the first NUL. *)
Fixpoint cstr (p : list Z) : list Z :=
  match p with
  | [] => []
  | b :: p => if b =? 0 then [] else b :: cstr p
  end.

Definition between (lo hi b : Z) : bool := (lo <=? b) && (b <=? hi).

(** [CStr::to_str]: well-formed UTF-8 - no overlong forms, no surrogates, nothing
    above U+10FFFF. *)
Fixpoint utf8_valid (l : list Z) : bool :=
  match l with
  | [] => true
  | a :: l =>
      if a <? 128 then utf8_valid l
      else
        match l with
        | [] => false
        | b :: l =>
            if between 194 223 a then between 128 191 b && utf8_valid l
            else
              match l with
              | [] => false
              | c :: l =>
                  if between 224 239 a then
                    between (if a =? 224 then 160 else 128) (if a =? 237 then 159 else 191) b
                    && between 128 191 c && utf8_valid l
                  else
                    match l with
                    | [] => false
                    | d :: l =>
                        between 240 244 a
                        && between (if a =? 240 then 144 else 128) (if a =? 244 then 143 else 191) b
                        && between 128 191 c && between 128 191 d && utf8_valid l
                    end
              end
        end
  end.

Definition to_str (p : list Z) : option (list Z) :=
  if utf8_valid (cstr p) then Some (cstr p) else None.

(** The pointer [aggfs_connect] returns: [None] for null.  [attach] is the connection
    to the shared memory, which tells the size of the extra buffer. *)
Definition aggfs_connect (attach : list Z -> option Z) (shm_path : list Z) (chunk_size : Z)
    : option Client :=
  path ← to_str shm_path;
  extra_buffer_size ← attach path;
  Some (connect chunk_size extra_buffer_size).

Section Calls.
Context {W : Type} (call_blocking : W -> FsRequest -> option (W * result FsResponse unit))
  (get_data : W -> list Z) (put_data : list Z -> W -> W).

(** A path, or [-EINVAL]; the answer of an operation without a result, or [-EIO]. *)
Definition with_path (path : list Z) (w : W) (k : list Z -> option (W * Z)) : option (W * Z) :=
  match to_str path with
  | None => Some (w, - EINVAL)
  | Some path => k path
  end.

Definition or_eio (r : result unit FsError) : Z := match r with Ok _ => 0 | Err _ => - EIO end.

Definition aggfs_create (path : list Z) (mode : Z) (c : Client) (w : W) : option (W * Z) :=
  with_path path w (fun path => '(w, r) ← create call_blocking path mode c w; Some (w, or_eio r)).

Definition aggfs_unlink (path : list Z) (w : W) : option (W * Z) :=
  with_path path w (fun path => '(w, r) ← unlink call_blocking path w; Some (w, or_eio r)).

(** [aggfs_stat], with what it stores at [size_out]. *)
Definition aggfs_stat (path : list Z) (w : W) : option (W * Z * option Z) :=
  match to_str path with
  | None => Some (w, - EINVAL, None)
  | Some path =>
      '(w, r) ← stat call_blocking path w;
      Some (match r with
            | Ok header => (w, 0, Some (i_size header))
            | Err FsNotFound => (w, - ENOENT, None)
            | Err _ => (w, - EIO, None)
            end)
  end.

Definition aggfs_open (path : list Z) (c : Client) : Client * Z :=
  match to_str path with
  | None => (c, -1)
  | Some path => open path c
  end.

Definition aggfs_close (fd : Z) (c : Client) : Client * Z :=
  match close fd c with
  | (c, Ok _) => (c, 0)
  | (c, Err _) => (c, - EBADF)
  end.

(** The length of a slice is below [2^63], so that [n as i64] is [n]. *)
Definition aggfs_pwrite (fuel : nat) (fd : Z) (buf : list Z) (offset : Z) (c : Client) (w : W)
    : option (W * Z) :=
  '(w, r) ← pwrite call_blocking get_data put_data fuel fd buf offset c w;
  Some (w, match r with Ok n => n | Err _ => - EIO end).

(** [aggfs_pread], with the bytes it stores. *)
Definition aggfs_pread (fuel : nat) (fd len offset : Z) (c : Client) (w : W)
    : option (W * Z * list Z) :=
  '(w, r) ← pread call_blocking get_data fuel fd len offset c w;
  Some (match r with
        | Ok bytes => (w, Z.of_nat (length bytes), bytes)
        | Err _ => (w, - EIO, [])
        end).

End Calls.

(** ** Descriptors *)

(** The table holds what is open: a descriptor that [aggfs_open] returns is not in use
    before, names the path until it is closed, and leaves the others alone. *)
Lemma find_free_spec n fds :
  match find_free n fds with
  | Some p => (n <= p)%nat /\ fds !! (p - n)%nat = Some None
  | None => forall i, fds !! i <> Some None
  end.
Proof.
  revert n. induction fds as [|[h|] fds IH]; intros n; cbn; [done| |].
  - specialize (IH (S n)). destruct (find_free (S n) fds) as [p|].
    + destruct IH as [H1 H2]. split; [lia|]. by replace (p - n)%nat with (S (p - S n)) by lia.
    + intros [|i]; cbn; [done|apply IH].
  - split; [lia|]. by rewrite Nat.sub_diag.
Qed.

Lemma open_fd path c :
  Z.of_nat (length (fd_table c)) < 2 ^ 32 - 1 ->
  let '(c', fd) := open path c in
  0 <= fd < 2 ^ 32 /\
  fd_path_hash fd c = Err NoSuchFd /\ fd_path_hash fd c' = Ok (Routing.koyama_hash path) /\
  forall g, 0 <= g -> g <> fd -> fd_path_hash g c' = fd_path_hash g c.
Proof.
  intros Hl. unfold open. pose proof (find_free_spec 0 (fd_table c)) as Hf.
  destruct (find_free 0 (fd_table c)) as [p|]; unfold fd_path_hash; cbn [fd_table set_fds].
  - destruct Hf as [_ Hf]. rewrite Nat.sub_0_r in Hf. pose proof (lookup_lt_Some _ _ _ Hf) as Hlt.
    rewrite u32_small, Nat2Z.id by lia. split; [lia|]. rewrite Hf, list_lookup_insert_eq by done.
    split_and!; try done. intros g Hg Hne. by rewrite list_lookup_insert_ne by lia.
  - rewrite u32_small, Nat2Z.id by lia. split; [lia|].
    rewrite (lookup_ge_None_2 (fd_table c)) by lia.
    rewrite lookup_app_r, Nat.sub_diag by lia. split_and!; try done.
    intros g Hg Hne. destruct (decide (g < Z.of_nat (length (fd_table c)))).
    + by rewrite lookup_app_l by lia.
    + rewrite (lookup_ge_None_2 (fd_table c)), lookup_ge_None_2; [done| |lia].
      rewrite length_app. cbn. lia.
Qed.

(** Opened through the C interface and closed again, the table answers as before. *)
Lemma open_close path c :
  Z.of_nat (length (fd_table c)) < 2 ^ 32 - 1 -> is_Some (to_str path) ->
  let '(c', fd) := aggfs_open path c in
  0 <= fd /\
  exists c'', aggfs_close fd c' = (c'', 0) /\ aggfs_close fd c'' = (c'', - EBADF) /\
    forall g, 0 <= g -> fd_path_hash g c'' = fd_path_hash g c.
Proof.
  intros Hl [p Hp]. unfold aggfs_open. rewrite Hp. pose proof (open_fd p c Hl) as H.
  destruct (open p c) as [c' fd]. destruct H as (H0 & H1 & H2 & H3). split; [lia|].
  unfold aggfs_close, close. rewrite H2. eexists. split; [done|].
  assert (fd_path_hash fd (set_fds (<[Z.to_nat fd := None]> (fd_table c')) c') = Err NoSuchFd) as H4.
  { unfold fd_path_hash in *. cbn [fd_table set_fds].
    destruct (fd_table c' !! Z.to_nat fd) as [x|] eqn:E; [|done].
    by rewrite list_lookup_insert_eq by (by eapply lookup_lt_Some). }
  rewrite H4. split; [done|]. intros g Hg. destruct (decide (g = fd)) as [->|Hne]; [by rewrite H4, H1|].
  rewrite <-H3 by done. unfold fd_path_hash. cbn [fd_table set_fds].
  by rewrite list_lookup_insert_ne by lia.
Qed.

(** A byte that starts no character, an overlong slash, a surrogate. *)
Lemma utf8_examples :
  utf8_valid [47; 97; 195; 164; 226; 130; 172; 240; 159; 166; 128] = true /\
  utf8_valid [255] = false /\ utf8_valid [192; 175] = false /\ utf8_valid [237; 160; 128] = false /\
  to_str [97; 0; 98] = Some [97].
Proof. by vm_compute. Qed.

End FsFfi.
