(* ===== verification/FsProps.v ===== *)
(** * FsProps: clients and daemons of the file system together

    A cluster of daemons with their stores, the memory of the clients and the wiring
    that [main] of [aggfsd.rs] sets up between the daemons.  A request is served by
    the turns of the daemons it visits.  With one daemon per node, what a client
    writes is what any client of any daemon reads.  With more, requests reach the
    wrong daemon; the size of a file, and the capacity of its chunks, are kept on the
    daemons that happen to see them. *)

From S2P Require Import Prelude Rc Store Routing Daemon FsClient.

Module FsProps.
Import Store Routing Daemon FsClient.

(** ** Chunks as byte lists *)

(** The valid bytes of a chunk. *)
Definition contents (s : PmemStore) (ph ci : Z) : list Z :=
  match chunk_table s !! (ph, ci) with
  | Some c => read_bytes (region s) (Z.to_nat (offset c)) (Z.to_nat (valid_len c))
  | None => []
  end.

Lemma chunk_range caps s ph ci c :
  store_ok caps s -> chunk_table s !! (ph, ci) = Some c ->
  0 <= offset c /\ 0 <= valid_len c /\ offset c + valid_len c <= region_len s.
Proof.
  intros Hok Hc. destruct (so_chunk _ _ Hok _ _ Hc) as (cap & _ & H1 & H2 & H3 & _).
  pose proof (so_next _ _ Hok). lia.
Qed.

Lemma length_contents caps s ph ci c :
  store_ok caps s -> chunk_table s !! (ph, ci) = Some c ->
  length (contents s ph ci) = Z.to_nat (valid_len c).
Proof.
  intros Hok Hc. unfold contents. rewrite Hc. apply length_read_bytes.
  destruct (chunk_range _ _ _ _ _ Hok Hc) as (? & ? & ?). unfold region_len in *. lia.
Qed.

(** [read] is a part of the contents. *)
Lemma read_contents caps s ph ci off len :
  store_ok caps s -> 0 <= off ->
  Store.read ph ci off len s = take (Z.to_nat len) (drop (Z.to_nat off) (contents s ph ci)).
Proof.
  intros Hok Ho. unfold Store.read, contents.
  destruct (chunk_table s !! (ph, ci)) as [c|] eqn:Hc; [|by rewrite drop_nil, take_nil].
  destruct (chunk_range _ _ _ _ _ Hok Hc) as (H1 & H2 & H3).
  unfold read_bytes. destruct (valid_len c <=? off) eqn:E; guards.
  - rewrite drop_ge; [by rewrite take_nil|]. rewrite length_take. lia.
  - rewrite skipn_firstn_comm, drop_drop, take_take. f_equal; [lia|]. f_equal. lia.
Qed.

Lemma ptr_contents caps s ph ci off len :
  store_ok caps s -> 0 <= off -> 0 <= len ->
  let '(src, available) := default (None, 0) (ptr_for_chunk_read ph ci off s) in
  let n := Z.min available len in
  let bytes := take (Z.to_nat len) (drop (Z.to_nat off) (contents s ph ci)) in
  Z.of_nat (length bytes) = n /\
  (0 < n -> exists p, src = Some p /\ 0 <= p /\ p + n <= region_len s /\
     read_bytes (region s) (Z.to_nat p) (Z.to_nat n) = bytes).
Proof.
  intros Hok Ho Hl. unfold ptr_for_chunk_read, contents.
  destruct (chunk_table s !! (ph, ci)) as [c|] eqn:Hc; cbn [default id].
  2: { rewrite drop_nil, take_nil. cbn. split; [lia|]. lia. }
  destruct (chunk_range _ _ _ _ _ Hok Hc) as (H1 & H2 & H3).
  assert (length (read_bytes (region s) (Z.to_nat (offset c)) (Z.to_nat (valid_len c)))
          = Z.to_nat (valid_len c)) as Hlen.
  { apply length_read_bytes. unfold region_len in *. lia. }
  destruct (valid_len c <=? off) eqn:E; guards; cbn [default id].
  - rewrite length_take, length_drop, Hlen. split; [lia|]. lia.
  - rewrite length_take, length_drop, Hlen. split; [lia|]. intros Hn.
    exists (offset c + off). split_and!; [done|lia|lia|].
    unfold read_bytes. rewrite skipn_firstn_comm, drop_drop, take_take. f_equal; [lia|]. f_equal. lia.
Qed.

(** What a write does to the contents of the chunks. *)
Lemma write_contents caps s ph ci off data s' :
  store_ok caps s -> 0 <= off -> Store.write ph ci off data s = Some s' ->
  (exists caps', store_ok caps' s') /\ region_len s' = region_len s /\
  (forall i b, data !! i = Some b -> contents s' ph ci !! (Z.to_nat off + i)%nat = Some b) /\
  (forall i b, contents s ph ci !! i = Some b ->
     (i < Z.to_nat off \/ Z.to_nat off + length data <= i)%nat -> contents s' ph ci !! i = Some b) /\
  (forall ph' ci', (ph', ci') <> (ph, ci) -> contents s' ph' ci' = contents s ph' ci').
Proof.
  intros Hok Ho Hw.
  destruct (write_spec caps s ph ci off data s' Hok Ho Hw)
    as (c & cap & Hok' & Hc & Hcap & Hs1 & Hs2 & Hreg & Hk & Hold).
  destruct (so_chunk _ _ Hok' _ _ Hc) as (cap' & A & B & D & F & G). simplify_eq.
  pose proof (so_next _ _ Hok') as Hn.
  assert (region_len s' = region_len s) as Hl.
  { unfold region_len in *. rewrite Hreg. rewrite Hreg in Hn.
    unfold write_bytes in Hn |- *. rewrite !length_app, !length_take, length_drop in *. lia. }
  unfold region_len in Hl, Hn.
  assert (forall i, (i < Z.to_nat (valid_len c))%nat ->
    contents s' ph ci !! i = region s' !! (Z.to_nat (offset c) + i)%nat) as Hlook.
  { intros i Hi. unfold contents. rewrite Hc, lookup_read_bytes by done. f_equal. }
  split_and!; [by eexists|unfold region_len; lia| | |].
  - intros i b Hi. pose proof (lookup_lt_Some _ _ _ Hi). rewrite Hlook by lia.
    rewrite Hreg, lookup_write_bytes by lia. rewrite decide_True by lia.
    rewrite <-Hi. f_equal. lia.
  - intros i b Hi Hout. destruct (chunk_table s !! (ph, ci)) as [c0|] eqn:Hc0; cycle 1.
    { unfold contents in Hi. rewrite Hc0 in Hi. done. }
    destruct (Hold c0 eq_refl) as [E1 E2].
    pose proof (length_contents _ _ _ _ _ Hok Hc0) as Hlc. pose proof (lookup_lt_Some _ _ _ Hi).
    rewrite Hlook by lia. rewrite Hreg, lookup_write_bytes by lia. rewrite decide_False by lia.
    unfold contents in Hi. rewrite Hc0, lookup_read_bytes in Hi by lia. rewrite <-Hi. f_equal. lia.
  - intros ph' ci' Hne. unfold contents. rewrite Hk by done.
    destruct (chunk_table s !! (ph', ci')) as [c'|] eqn:Hc'; [|done].
    assert (chunk_table s' !! (ph', ci') = Some c') as Hc'' by (by rewrite Hk).
    destruct (so_chunk _ _ Hok' _ _ Hc'') as (n' & A' & B' & D' & F' & G').
    pose proof (so_disj _ _ Hok' _ _ _ _ _ _ Hne Hc'' Hc A' Hcap) as Hdis.
    rewrite Hreg. apply read_write_out; lia.
Qed.

(** Room for [k] chunks of [cs] bytes. *)
Definition room (k cs : Z) (s : PmemStore) : Prop := next_offset s + k * cs <= region_len s.

Lemma ensure_total ph ci cap k s :
  0 <= cap -> 0 <= k -> room (k + 1) cap s ->
  exists s' c, ensure_chunk ph ci cap s = Some (s', c) /\ chunk_table s' !! (ph, ci) = Some c /\
    next_offset s' <= next_offset s + cap /\ region s' = region s /\
    (forall p, effective_chunk_size s' p = effective_chunk_size s p).
Proof.
  intros Hc Hk Hr. unfold ensure_chunk. destruct (chunk_table s !! (ph, ci)) as [c|] eqn:E.
  - exists s, c. split_and!; try done. lia.
  - unfold room in Hr. rewrite (proj2 (Z.leb_le _ _)) by nia.
    eexists _, _. split; [done|]. cbn. rewrite lookup_insert_eq. by split_and!.
Qed.

Lemma set_chunk_fields k c s :
  next_offset (set_chunk k c s) = next_offset s /\ region (set_chunk k c s) = region s /\
  forall p, effective_chunk_size (set_chunk k c s) p = effective_chunk_size s p.
Proof. done. Qed.

(** A write inside a chunk goes through while there is room, directly and through
    the region of another daemon. *)
Lemma write_total ph ci off data k s :
  let cap := effective_chunk_size s ph in
  0 <= off -> off + Z.of_nat (length data) <= cap -> 0 <= k -> room (k + 1) cap s ->
  exists s1 dst n s2,
    prepare_write ph ci off s = Some (s1, (dst, n)) /\ Z.of_nat (length data) <= n /\
    commit_write ph ci off (Z.of_nat (length data)) (copy_in dst data s1) = Some s2 /\
    Store.write ph ci off data s = Some s2 /\ next_offset s2 <= next_offset s + cap /\
    (forall p, effective_chunk_size s2 p = effective_chunk_size s p).
Proof.
  intros cap Ho Hlen Hk Hr.
  destruct (ensure_total ph ci cap k s ltac:(lia) Hk Hr) as (s1 & c & E & Hc & Hn & Hreg & He).
  assert (prepare_write ph ci off s = Some (s1, (offset c + off, cap - off))) as Hp.
  { unfold prepare_write. fold cap. rewrite (proj2 (Z.leb_le _ _)) by lia. by rewrite E. }
  assert (exists s2, commit_write ph ci off (Z.of_nat (length data))
            (copy_in (offset c + off) data s1) = Some s2 /\
          next_offset s2 = next_offset s1 /\
          forall p, effective_chunk_size s2 p = effective_chunk_size s1 p) as (s2 & Hcm & Hn2 & He2).
  { unfold commit_write. cbn [copy_in chunk_table]. rewrite Hc. eexists. split; [done|].
    by destruct (_ <? _). }
  exists s1, (offset c + off), (cap - off), s2. split_and!; try done.
  - lia.
  - by eapply rdma_write_is_write; [exact Hp|lia|].
  - lia.
  - intros p. by rewrite He2, He.
Qed.

(** ** The cluster *)

(** All daemons by number, the data areas of the clients' buffers, and the shape of
    the cluster: ranks and daemons per rank. *)
Record World : Type := mkWorld {
  daemons : list Daemon;
  mem : Mem;
  ranks : Z;
  per_node : Z;
}.

Definition set_daemon (g : Z) (d : Daemon) (w : World) : World :=
  mkWorld (<[Z.to_nat g := d]> (daemons w)) (mem w) (ranks w) (per_node w).
Definition set_mem (m : Mem) (w : World) : World :=
  mkWorld (daemons w) m (ranks w) (per_node w).
Definition daemon (w : World) (g : Z) : option Daemon := daemons w !! Z.to_nat g.

(** Where endpoint [ep] of daemon [g] leads: [main] exchanges the connection data of
    daemon [id] of a rank with those of daemon [id] of every other rank. *)
Definition peer (w : World) (g ep : Z) : option Z :=
  r ← remote_ranks (g / per_node w) (ranks w) !! Z.to_nat ep;
  Some (r * per_node w + g mod per_node w).

(** A turn of daemon [g], with its effect on the world. *)
Definition turn_at (g : Z) (i : Inputs) (w : World) : option (World * list Event) :=
  d ← daemon w g;
  '(d, m, evs) ← turn i d (mem w);
  Some (set_mem m (set_daemon g d w), evs).

(** The device moves [len] bytes between a client's data area and the region of
    daemon [g]; nothing outside either. *)
Definition rdma_read (g : Z) (client : ClientMrInfo) (off len : Z) (w : World) : option World :=
  d ← daemon w g;
  area ← mem w !! mr_data_addr client;
  data ← slice area 0 len;
  if decide (0 <= off /\ off + len <= region_len (store d))
  then Some (set_daemon g (set_store (copy_in off data (store d)) d) w) else None.

Definition rdma_write (g : Z) (client : ClientMrInfo) (off len : Z) (w : World) : option World :=
  d ← daemon w g;
  area ← mem w !! mr_data_addr client;
  data ← slice (region (store d)) off (off + len);
  if decide (len <= Z.of_nat (length area))
  then Some (set_mem (<[mr_data_addr client := write_bytes area 0 data]> (mem w)) w) else None.

Definition idle : Inputs := mkInputs [] (fun _ => 1) [] [] (fun _ _ => None).
Definition only_ipc (t : Token) (a : Z) (req : FsRequest) : Inputs :=
  mkInputs [] (fun _ => 1) [] [(t, Some a, Some (mkMr 0 a), req)] (fun _ _ => None).
Definition only_remote (req : RemoteRequest) : Inputs :=
  mkInputs [] (fun _ => 1) [(0, Some 0, Some req)] [] (fun _ _ => None).
Definition rdma_done : Inputs := mkInputs [] (fun _ => 0) [] [] (fun _ _ => None).
Definition only_response (op : PendingOp) (r : RemoteReply) : Inputs :=
  mkInputs [(op, r)] (fun _ => 1) [] [] (fun _ _ => None).

(** The answer of the daemon a request was forwarded to: at once, or after the
    transfer it has asked for. *)
Definition serve_remote (g : Z) (req : RemoteRequest) (w : World) : option (World * RemoteReply) :=
  '(w, evs) ← turn_at g (only_remote req) w;
  match evs with
  | [Reply _ r] => Some (w, r)
  | [PostRdmaRead _ client off len] =>
      w ← rdma_read g client off len w;
      '(w, evs) ← turn_at g rdma_done w;
      match evs with [Reply _ r] => Some (w, r) | _ => None end
  | [PostRdmaWrite _ client off len] =>
      w ← rdma_write g client off len w;
      '(w, evs) ← turn_at g rdma_done w;
      match evs with [Reply _ r] => Some (w, r) | _ => None end
  | _ => None
  end.

(** A request of the client with data area [a] at daemon [g], alone in the cluster. *)
Definition serve (g a : Z) (w : World) (req : FsRequest) : option (World * result FsResponse unit) :=
  '(w, evs) ← turn_at g (only_ipc 0 a req) w;
  match evs with
  | [IpcReply _ r] => Some (w, Ok r)
  | [Call ep req op _] =>
      g' ← peer w g ep;
      '(w, r) ← serve_remote g' req w;
      '(w, evs) ← turn_at g (only_response op r) w;
      match evs with [IpcReply _ r] => Some (w, Ok r) | _ => None end
  | _ => None
  end.

Definition data_of (a : Z) (w : World) : list Z := default [] (mem w !! a).
Definition put_data_of (a : Z) (data : list Z) (w : World) : World := set_mem (<[a := data]> (mem w)) w.

(** A fresh cluster. *)
Definition start (n per : Z) (rs : list Z) (cap : Z) (m : Mem) : World :=
  mkWorld ((fun g => start_daemon (g / per) n (g mod per) per (store_new rs cap)) <$> seqZ 0 (n * per))
    m n per.

(** *** Worlds *)

Lemma set_mem_id w : set_mem (mem w) w = w.
Proof. by destruct w. Qed.

Lemma set_daemon_twice g d d' w : set_daemon g d (set_daemon g d' w) = set_daemon g d w.
Proof. unfold set_daemon. cbn. by rewrite list_insert_insert_eq. Qed.

Lemma daemon_set g d w : is_Some (daemon w g) -> daemon (set_daemon g d w) g = Some d.
Proof. intros Hs%lookup_lt_is_Some. apply list_lookup_insert_eq. exact Hs. Qed.

Lemma daemon_set_ne g g' d w : 0 <= g -> 0 <= g' -> g <> g' -> daemon (set_daemon g d w) g' = daemon w g'.
Proof. intros Hg Hg' Hne. apply list_lookup_insert_ne. lia. Qed.

(** What the handlers leave alone. *)
Definition shape (d : Daemon) :=
  (my_global_id d, total_daemons d, daemons_per_node d, remote_rank_to_ep_idx d, pmem_mr d,
   pending_recv_rdma d).

Lemma update_file_size_keeps ph ci off len d :
  shape (update_file_size ph ci off len d) = shape d /\ store (update_file_size ph ci off len d) = store d.
Proof.
  unfold update_file_size. destruct (_ =? _); [|done].
  destruct (file_metadata d !! ph); [|done]. by destruct (_ <? _).
Qed.

(** *** Turns with one event *)

Lemma set_pending_nil d : pending_recv_rdma d = [] -> set_pending [] d = d.
Proof. by destruct d; cbn; intros ->. Qed.

Lemma turn_ipc t a req d m :
  pending_recv_rdma d = [] ->
  turn (only_ipc t a req) d m = on_ipc (fun _ _ => None) t (Some a) (Some (mkMr 0 a)) req d m.
Proof.
  intros Hp. unfold turn. cbn. rewrite Hp. cbn. rewrite set_pending_nil by done.
  destruct (on_ipc _ _ _ _ _ _ _) as [[[d' m'] evs]|]; [|done]. cbn. by rewrite app_nil_r.
Qed.

Lemma turn_remote req d m :
  pending_recv_rdma d = [] ->
  turn (only_remote req) d m = ('(d, evs) ← on_remote 0 (Some 0) (Some req) d; Some (d, m, evs)).
Proof.
  intros Hp. unfold turn. cbn [only_remote in_responses in_raw in_remote in_ipc in_call responses_loop].
  rewrite Hp. cbn [check_rdma mbind option_bind]. rewrite set_pending_nil by done. cbn [remote_loop].
  destruct (on_remote _ _ _ d) as [[d' evs]|]; [|done]. cbn. by rewrite !app_nil_r.
Qed.

Lemma turn_response op r d m :
  pending_recv_rdma d = [] ->
  pending_recv_rdma (on_response op r d).1 = [] ->
  turn (only_response op r) d m = Some ((on_response op r d).1, m, (on_response op r d).2).
Proof.
  intros Hp Hp'. unfold turn. cbn [only_response in_responses in_raw in_remote in_ipc in_call responses_loop].
  destruct (on_response op r d) as [d' evs]. cbn in Hp' |- *. rewrite Hp'. cbn.
  rewrite set_pending_nil by done. by rewrite !app_nil_r.
Qed.

(** The turn that sees the one transfer complete. *)
Lemma turn_done p d m :
  pending_recv_rdma d = [p] ->
  turn rdma_done d m = ('(d, evs) ← finish_rdma p d; Some (set_pending [] d, m, evs)).
Proof.
  intros Hp. unfold turn. cbn [rdma_done in_responses in_raw in_remote in_ipc in_call responses_loop].
  rewrite Hp. cbn [check_rdma Z.eqb].
  destruct (finish_rdma p d) as [[d' evs]|]; [|done]. cbn. by rewrite !app_nil_r.
Qed.

Lemma turn_at_eq g i w d :
  daemon w g = Some d ->
  turn_at g i w = ('(d, m, evs) ← turn i d (mem w); Some (set_mem m (set_daemon g d w), evs)).
Proof. intros Hd. unfold turn_at. by rewrite Hd. Qed.

Lemma mem_set_daemon g d w : mem (set_daemon g d w) = mem w.
Proof. done. Qed.

Lemma set_mem_set_daemon g d w : set_mem (mem w) (set_daemon g d w) = set_daemon g d w.
Proof. done. Qed.

Lemma set_mem_set_daemon_any g d w m : m = mem w -> set_mem m (set_daemon g d w) = set_daemon g d w.
Proof. by intros ->. Qed.

Lemma set_mem_set_daemon' g d d' w :
  set_mem (mem w) (set_daemon g d (set_daemon g d' w)) = set_daemon g d (set_daemon g d' w).
Proof. done. Qed.

(** *** The daemon that stores the chunk *)

Lemma prepare_bounds caps ph ci off s s1 dst n :
  store_ok caps s -> 0 <= off -> prepare_write ph ci off s = Some (s1, (dst, n)) ->
  0 <= dst /\ dst + n <= region_len s1.
Proof.
  intros Hok Ho. unfold prepare_write. destruct (off <=? _) eqn:E; [|done]. guards.
  destruct (ensure_chunk _ _ _ s) as [[s' c]|] eqn:E1; [|done]. intros [= <- <- <-].
  destruct (ensure_chunk_ok _ _ _ _ _ _ Hok E1) as (Hok1 & Hc & Hreg & _ & He & _).
  destruct (so_chunk _ _ Hok1 _ _ Hc) as (cap & _ & H1 & H2 & _ & H3). cbn [fst] in H3.
  rewrite He in H3. pose proof (so_next _ _ Hok1). lia.
Qed.

Lemma slice_0 l n : 0 <= n <= Z.of_nat (length l) -> slice l 0 n = Some (take (Z.to_nat n) l).
Proof.
  intros Hn. unfold slice.
  rewrite !(proj2 (Z.leb_le _ _)) by lia. cbn [andb]. unfold read_bytes. rewrite drop_0. by rewrite Z.sub_0_r.
Qed.

Lemma serve_remote_write g ph ci off data k w d area a key :
  let cap := effective_chunk_size (store d) ph in
  let len := Z.of_nat (length data) in
  daemon w g = Some d -> pending_recv_rdma d = [] -> pmem_mr d = true ->
  (exists caps, store_ok caps (store d)) ->
  mem w !! a = Some area -> (length data <= length area)%nat -> take (length data) area = data ->
  0 <= off -> off + len <= cap -> 0 <= k -> room (k + 1) cap (store d) ->
  exists d', serve_remote g (RemoteWrite ph ci off len (mkMr key a)) w
      = Some (set_daemon g d' w, RemoteResponse 0 len) /\
    shape d' = shape d /\ Store.write ph ci off data (store d) = Some (store d') /\
    next_offset (store d') <= next_offset (store d) + cap /\
    forall p, effective_chunk_size (store d') p = effective_chunk_size (store d) p.
Proof.
  intros cap len Hd Hp Hmr (caps & Hok) Hm Hla Hdata Ho Hlen Hk Hr.
  destruct (write_total ph ci off data k (store d) Ho Hlen Hk Hr)
    as (s1 & dst & n & s2 & E1 & Hn & E2 & E3 & Hnx & He).
  destruct (prepare_bounds _ _ _ _ _ _ _ _ Hok Ho E1) as [Hb1 Hb2].
  unfold serve_remote. rewrite (turn_at_eq g _ w d Hd), turn_remote by done.
  unfold on_remote. rewrite Hmr, E1. cbn [mbind option_bind]. rewrite set_mem_set_daemon.
  assert (is_Some (daemon w g)) as Hg by (by rewrite Hd).
  unfold rdma_read. rewrite daemon_set by done. cbn [mbind option_bind mr_data_addr].
  rewrite mem_set_daemon, Hm. cbn [mbind option_bind].
  assert (slice area 0 len = Some data) as ->.
  { rewrite slice_0 by lia. unfold len. by rewrite Nat2Z.id, Hdata. }
  cbn [mbind option_bind].
  rewrite decide_True by (cbn; lia). rewrite set_daemon_twice. cbn [mbind option_bind].
  erewrite turn_at_eq by (by apply daemon_set).
  rewrite (turn_done (mkPending 0 0 (KindWrite ph ci off len) (RemoteResponse 0 len)))
    by (cbn; by rewrite Hp).
  unfold finish_rdma. cbn [kind handle resp set_store set_pending store]. fold len in E2. rewrite E2.
  cbn [mbind option_bind]. rewrite mem_set_daemon, set_mem_set_daemon', set_daemon_twice.
  eexists. split; [done|].
  match goal with |- context [update_file_size ?a ?b ?c ?e ?f] =>
    destruct (update_file_size_keeps a b c e f) as [Hsh Hst]; set (d3 := update_file_size a b c e f) in * end.
  cbn [set_pending store shape]. rewrite Hst. split_and!; try done.
  unfold shape in Hsh |- *. cbn in Hsh |- *. rewrite Hp. congruence.
Qed.

Lemma slice_read l off n :
  0 <= off -> 0 <= n -> off + n <= Z.of_nat (length l) ->
  slice l off (off + n) = Some (read_bytes l (Z.to_nat off) (Z.to_nat n)).
Proof.
  intros Ho Hn Hl. unfold slice. rewrite !(proj2 (Z.leb_le _ _)) by lia. cbn [andb].
  do 3 f_equal. lia.
Qed.

Lemma write_nothing (l : list Z) : write_bytes l 0 [] = l.
Proof. unfold write_bytes. cbn. by rewrite take_nil, drop_0. Qed.

Lemma insert_same (m : Mem) a l : m !! a = Some l -> <[a := write_bytes l 0 []]> m = m.
Proof. intros H. rewrite write_nothing. by apply insert_id. Qed.

Lemma serve_remote_read g ph ci off len w d area a key :
  let data := take (Z.to_nat len) (drop (Z.to_nat off) (contents (store d) ph ci)) in
  daemon w g = Some d -> pending_recv_rdma d = [] -> pmem_mr d = true ->
  (exists caps, store_ok caps (store d)) ->
  mem w !! a = Some area -> 0 <= off -> 0 <= len < 2 ^ 32 -> len <= Z.of_nat (length area) ->
  exists d', serve_remote g (RemoteRead ph ci off len (mkMr key a)) w
      = Some (set_mem (<[a := write_bytes area 0 data]> (mem w)) (set_daemon g d' w),
              RemoteResponse 0 (Z.of_nat (length data))) /\
    shape d' = shape d /\ store d' = store d.
Proof.
  intros data Hd Hp Hmr (caps & Hok) Hm Ho Hlen Hla.
  pose proof (ptr_contents caps (store d) ph ci off len Hok Ho ltac:(lia)) as Hptr.
  unfold serve_remote. rewrite (turn_at_eq g _ w d Hd), turn_remote by done. unfold on_remote.
  assert (is_Some (daemon w g)) as Hg by (by rewrite Hd).
  destruct (default _ _) as [src available]. fold data in Hptr. destruct Hptr as [Hn Hsrc].
  set (n := Z.min available len) in *. rewrite Hn. rewrite u32_small by lia.
  destruct (decide (0 < n)) as [Hpos|Hz].
  - destruct (Hsrc Hpos) as (p & -> & Hp0 & Hpn & Hbytes). rewrite (proj2 (Z.ltb_lt _ _)), Hmr by done.
    cbn [mbind option_bind]. rewrite set_mem_set_daemon. unfold rdma_write. rewrite daemon_set by done.
    cbn [mbind option_bind mr_data_addr]. rewrite mem_set_daemon, Hm. cbn [mbind option_bind].
    cbn [set_pending store]. rewrite slice_read, Hbytes by (unfold region_len in *; lia).
    cbn [mbind option_bind]. rewrite decide_True by lia. cbn [mbind option_bind].
    erewrite turn_at_eq by (by apply (daemon_set g)).
    rewrite (turn_done (mkPending 0 0 KindRead (RemoteResponse 0 n))) by (cbn; by rewrite Hp).
    cbn. unfold set_mem, set_daemon. cbn. rewrite list_insert_insert_eq.
    eexists. split; [done|]. unfold shape. cbn. by rewrite Hp.
  - rewrite (proj2 (Z.ltb_ge _ _)) by lia. cbn [mbind option_bind].
    assert (data = []) as -> by (apply nil_length_inv; lia).
    rewrite (insert_same _ _ _ Hm). exists d. split; [|done].
    do 3 f_equal.
Qed.

(** *** Wiring *)

Lemma remote_ranks_spec rank n r : r ∈ remote_ranks rank n <-> 0 <= r < n /\ r <> rank.
Proof.
  unfold remote_ranks. rewrite list_elem_of_filter, elem_of_seqZ. split; intros [? ?]; split; by try lia.
Qed.

Lemma NoDup_remote_ranks rank n : NoDup (remote_ranks rank n).
Proof. apply NoDup_filter, NoDup_seqZ. Qed.

Lemma fst_zip_seqZ (l : list Z) : (zip l (seqZ 0 (Z.of_nat (length l)))).*1 = l.
Proof. apply fst_zip. rewrite length_seqZ. lia. Qed.

(** The endpoint a daemon uses for a rank leads to that rank. *)
Lemma endpoint_of rank n id per s r :
  0 <= r < n -> r <> rank ->
  exists ep, remote_rank_to_ep_idx (start_daemon rank n id per s) !! r = Some ep /\
    remote_ranks rank n !! Z.to_nat ep = Some r.
Proof.
  intros Hr Hne. assert (r ∈ remote_ranks rank n) as Hin by by apply remote_ranks_spec.
  apply list_elem_of_lookup in Hin as (i & Hi). pose proof (lookup_lt_Some _ _ _ Hi) as Hlt.
  exists (Z.of_nat i). rewrite Nat2Z.id. split; [|done]. cbn. apply elem_of_list_to_map_1.
  - rewrite fst_zip_seqZ. apply NoDup_remote_ranks.
  - apply list_elem_of_lookup. exists i. rewrite lookup_zip_with, Hi. cbn.
    rewrite lookup_seqZ_lt by lia. cbn. do 2 f_equal.
Qed.

(** No endpoint leads to the daemon's own rank. *)
Lemma no_endpoint_home rank n id per s :
  remote_rank_to_ep_idx (start_daemon rank n id per s) !! rank = None.
Proof.
  cbn. apply not_elem_of_list_to_map. rewrite fst_zip_seqZ, remote_ranks_spec. tauto.
Qed.

Lemma route_range ph ci n : 0 < n -> 0 <= route ph ci n < n.
Proof. intros Hn. apply Z.mod_pos_bound. done. Qed.

(** ** One daemon per node *)

(** The cluster serves file [ph] with chunks of [cs] bytes: as [main] sets it up,
    with no transfer under way, every store in order and with that chunk size. *)
Record cluster (ph cs : Z) (w : World) : Prop := mkCluster {
  cl_per : per_node w = 1;
  cl_ranks : 0 < ranks w < 2 ^ 32;
  cl_len : Z.of_nat (length (daemons w)) = ranks w;
  cl_shape : forall g d, 0 <= g -> daemon w g = Some d ->
    shape d = shape (start_daemon g (ranks w) 0 1 (store d));
  cl_store : forall g d, 0 <= g -> daemon w g = Some d ->
    (exists caps, store_ok caps (store d)) /\ effective_chunk_size (store d) ph = cs;
}.

Definition stores (w : World) : list PmemStore := store <$> daemons w.
Definition rooms (k cs : Z) (w : World) : Prop := Forall (room k cs) (stores w).

Lemma cluster_daemon ph cs w g :
  cluster ph cs w -> 0 <= g < ranks w -> exists d, daemon w g = Some d.
Proof.
  intros Hc Hg. pose proof (cl_len _ _ _ Hc).
  destruct (lookup_lt_is_Some_2 (daemons w) (Z.to_nat g)) as [d Hd]; [lia|]. by exists d.
Qed.

Lemma stores_lookup w g d : daemon w g = Some d -> stores w !! Z.to_nat g = Some (store d).
Proof. intros H. unfold stores. rewrite list_lookup_fmap. unfold daemon in H. by rewrite H. Qed.

Lemma stores_set g d w : stores (set_daemon g d w) = <[Z.to_nat g := store d]> (stores w).
Proof. unfold stores, set_daemon. cbn. apply list_fmap_insert. Qed.

Lemma stores_set_same g d d' w :
  daemon w g = Some d -> store d' = store d -> stores (set_daemon g d' w) = stores w.
Proof.
  intros Hd E. rewrite stores_set, E. apply list_insert_id. by apply stores_lookup.
Qed.

Lemma cluster_set ph cs w g d d' :
  cluster ph cs w -> 0 <= g -> daemon w g = Some d -> shape d' = shape d ->
  (exists caps, store_ok caps (store d')) -> effective_chunk_size (store d') ph = cs ->
  cluster ph cs (set_daemon g d' w).
Proof.
  intros [H1 H2 H3 H4 H5] Hg Hd Hs Hok He.
  assert (forall g2 d2, 0 <= g2 -> daemon (set_daemon g d' w) g2 = Some d2 ->
    (g2 = g /\ d2 = d') \/ daemon w g2 = Some d2) as Hold.
  { intros g2 d2 Hg2 Hd2. destruct (decide (g2 = g)) as [->|Hne].
    - rewrite daemon_set in Hd2 by (by rewrite Hd). left. by simplify_eq.
    - rewrite daemon_set_ne in Hd2 by (done || lia). by right. }
  split; try done.
  - cbn. by rewrite length_insert.
  - intros g2 d2 Hg2 Hd2. destruct (Hold g2 d2 Hg2 Hd2) as [[-> ->]|Hd2']; [|by apply H4].
    rewrite Hs. rewrite (H4 g d Hg Hd). done.
  - intros g2 d2 Hg2 Hd2. destruct (Hold g2 d2 Hg2 Hd2) as [[-> ->]|Hd2']; [done|by eapply H5].
Qed.

Lemma cluster_mem ph cs w m : cluster ph cs w -> cluster ph cs (set_mem m w).
Proof. by intros []; split. Qed.

(** The fields of a daemon of the cluster. *)
Lemma cluster_fields ph cs w g d :
  cluster ph cs w -> 0 <= g < ranks w -> daemon w g = Some d ->
  my_global_id d = g /\ total_daemons d = ranks w /\ daemons_per_node d = 1 /\
  pending_recv_rdma d = [] /\ pmem_mr d = (1 <? ranks w) /\
  remote_rank_to_ep_idx d = remote_rank_to_ep_idx (start_daemon g (ranks w) 0 1 (store d)).
Proof.
  intros Hc Hg Hd. pose proof (cl_shape _ _ _ Hc g d ltac:(lia) Hd) as Hs. unfold shape in Hs.
  injection Hs as E1 E2 E3 E4 E5 E6. split_and!; try done.
  - rewrite E1. cbn. lia.
  - rewrite E2. cbn. lia.
Qed.

(** A request for another daemon's chunk reaches that daemon. *)
Lemma forward_reaches ph cs w g d t target req op n :
  cluster ph cs w -> 0 <= g < ranks w -> daemon w g = Some d -> 0 <= target < ranks w -> target <> g ->
  exists ep, forward (fun _ _ => None) t target (Some req) op n d = [Call ep req op n] /\
    peer w g ep = Some target.
Proof.
  intros Hc Hg Hd Ht Hne.
  destruct (cluster_fields _ _ _ _ _ Hc Hg Hd) as (_ & _ & Hper & _ & _ & Hmap).
  destruct (endpoint_of g (ranks w) 0 1 (store d) target Ht Hne) as (ep & E1 & E2).
  pose proof (cl_ranks _ _ _ Hc).
  exists ep. split.
  - unfold forward, global_to_local. rewrite Hper, Z.div_1_r, u32_small, Hmap, E1 by lia. done.
  - unfold peer. rewrite (cl_per _ _ _ Hc), Z.div_1_r, E2, Z.mod_1_r. cbn. f_equal. lia.
Qed.

(** What a write does to the cluster: the store of the chunk's daemon is written,
    the others and the memory of the clients stay. *)
Record wrote (ph cs ci off : Z) (data : list Z) (k : Z) (w w' : World) : Prop := mkWrote {
  wr_cluster : cluster ph cs w';
  wr_ranks : ranks w' = ranks w;
  wr_mem : mem w' = mem w;
  wr_rooms : rooms k cs w';
  wr_store : exists s s', stores w !! Z.to_nat (route ph ci (ranks w)) = Some s /\
    Store.write ph ci off data s = Some s' /\
    stores w' = <[Z.to_nat (route ph ci (ranks w)) := s']> (stores w);
}.

Lemma rooms_set k cs w g d s' :
  0 <= cs -> rooms (k + 1) cs w -> daemon w g = Some d -> next_offset s' <= next_offset (store d) + cs ->
  region_len s' = region_len (store d) ->
  Forall (room k cs) (<[Z.to_nat g := s']> (stores w)).
Proof.
  intros Hcs Hr Hd Hn Hl. apply Forall_insert.
  - eapply Forall_impl; [exact Hr|]. unfold room. intros. lia.
  - pose proof (Forall_lookup_1 _ _ _ _ Hr (stores_lookup _ _ _ Hd)) as H. unfold room in *. lia.
Qed.

(** The daemon of the chunk after the write, and the one that has forwarded it. *)
Lemma wrote_at ph cs ci off data k w d d' :
  let target := route ph ci (ranks w) in
  cluster ph cs w -> rooms (k + 1) cs w -> 0 <= off -> off + Z.of_nat (length data) <= cs ->
  daemon w target = Some d -> shape d' = shape d -> Store.write ph ci off data (store d) = Some (store d') ->
  next_offset (store d') <= next_offset (store d) + cs ->
  (forall p, effective_chunk_size (store d') p = effective_chunk_size (store d) p) ->
  wrote ph cs ci off data k w (set_daemon target d' w).
Proof.
  intros target Hc Hr Ho Hlen Hd Hs Hw Hn He. pose proof (cl_ranks _ _ _ Hc) as Hrk.
  pose proof (route_range ph ci (ranks w) ltac:(lia)) as Ht. fold target in Ht.
  destruct (cl_store _ _ _ Hc target d ltac:(lia) Hd) as [(caps & Hok) Hcs].
  destruct (write_contents _ _ _ _ _ _ _ Hok Ho Hw) as (Hok' & Hl & _).
  split; try done.
  - apply (cluster_set ph cs w target d); try done; [lia|]. by rewrite He.
  - unfold rooms. rewrite stores_set. eapply rooms_set; (done || lia).
  - exists (store d), (store d'). split_and!; [by apply stores_lookup|done|apply stores_set].
Qed.

(** [wrote] does not look at what the handlers keep besides the stores. *)
Lemma wrote_shape ph cs ci off data k w w' g d d' :
  wrote ph cs ci off data k w w' -> 0 <= g -> daemon w' g = Some d -> shape d' = shape d ->
  store d' = store d -> wrote ph cs ci off data k w (set_daemon g d' w').
Proof.
  intros [H1 H2 H3 H4 H5] Hg Hd Hs Est.
  destruct (cl_store _ _ _ H1 g d Hg Hd) as [Hok Hcs].
  split; try done.
  - apply (cluster_set ph cs w' g d); rewrite ?Est; done.
  - unfold rooms. by rewrite (stores_set_same g d).
  - by rewrite (stores_set_same g d).
Qed.

Lemma serve_write ph cs w g a area ci off data k :
  let len := Z.of_nat (length data) in
  cluster ph cs w -> rooms (k + 1) cs w -> 0 <= k -> 0 <= g < ranks w ->
  mem w !! a = Some area -> (length data <= length area)%nat -> take (length data) area = data ->
  0 <= off -> off + len <= cs ->
  exists w', serve g a w (Write ph ci off len) = Some (w', Ok FsOk) /\ wrote ph cs ci off data k w w'.
Proof.
  intros len Hc Hr Hk Hg Hm Hla Hdata Ho Hlen. pose proof (cl_ranks _ _ _ Hc) as Hrk.
  set (target := route ph ci (ranks w)).
  pose proof (route_range ph ci (ranks w) ltac:(lia)) as Ht. fold target in Ht.
  destruct (cluster_daemon _ _ _ g Hc Hg) as [d Hd].
  destruct (cluster_fields _ _ _ _ _ Hc Hg Hd) as (E1 & E2 & E3 & E4 & E5 & _).
  destruct (cluster_daemon _ _ _ target Hc Ht) as [dt Hdt].
  destruct (cluster_fields _ _ _ _ _ Hc Ht Hdt) as (_ & _ & _ & F4 & F5 & _).
  destruct (cl_store _ _ _ Hc target dt ltac:(lia) Hdt) as [Hok Hcs].
  pose proof (Forall_lookup_1 _ _ _ _ Hr (stores_lookup _ _ _ Hdt)) as Hroom. rewrite <-Hcs in Hlen, Hroom.
  unfold serve. rewrite (turn_at_eq g _ w d Hd), turn_ipc by done. unfold on_ipc, ipc_write.
  rewrite E1, E2. fold target. destruct (Z.eqb_spec target g) as [Eg|Hne].
  - assert (dt = d) as -> by (rewrite Eg in Hdt; congruence).
    destruct (write_total ph ci off data k (store d) Ho Hlen Hk Hroom)
      as (_ & _ & _ & s2 & _ & _ & _ & Hw & Hnx & He).
    rewrite Hm. cbn [mbind option_bind].
    assert (slice area 0 len = Some data) as ->.
    { rewrite slice_0 by lia. unfold len. by rewrite Nat2Z.id, Hdata. }
    cbn [mbind option_bind]. rewrite Hw. cbn [mbind option_bind]. rewrite set_mem_set_daemon.
    eexists. split; [done|].
    destruct (update_file_size_keeps ph ci off len (set_store s2 d)) as [Hsh Hst].
    rewrite <-Eg. apply (wrote_at ph cs ci off data k w d); try done.
    + by rewrite Hcs in Hlen.
    + by rewrite Hst.
    + rewrite Hst. cbn. rewrite <-Hcs. lia.
    + by rewrite Hst.
  - destruct (forward_reaches ph cs w g d 0 target (RemoteWrite ph ci off len (mkMr 0 a))
                (PendingWrite 0 ph ci off len) 64 Hc Hg Hd Ht Hne) as (ep & Ef & Ep).
    cbn [fmap option_fmap option_map]. rewrite Ef. cbn [mbind option_bind].
    assert (set_mem (mem w) (set_daemon g d w) = w) as ->.
    { destruct w. unfold set_mem, set_daemon. cbn. f_equal. by apply list_insert_id. }
    rewrite Ep. cbn [mbind option_bind].
    destruct (serve_remote_write target ph ci off data k w dt area a 0) as (d' & Es & Hsh & Hw & Hnx & He);
      try done.
    { rewrite F5. apply Z.ltb_lt. lia. }
    fold len in Es. rewrite Es. cbn [mbind option_bind].
    assert (wrote ph cs ci off data k w (set_daemon target d' w)) as Hwr.
    { apply (wrote_at ph cs ci off data k w dt); try done; rewrite <-?Hcs; done. }
    assert (daemon (set_daemon target d' w) g = Some d) as Hd1 by (rewrite daemon_set_ne by lia; done).
    rewrite (turn_at_eq g _ _ d Hd1).
    destruct (update_file_size_keeps ph ci off len d) as [Hsh2 Hst2].
    rewrite turn_response; [|done|].
    2: { cbn. unfold shape in Hsh2. congruence. }
    cbn [on_response Z.eqb fst snd mbind option_bind]. rewrite mem_set_daemon.
    eexists. split; [done|]. rewrite set_mem_set_daemon_any by done.
    by apply (wrote_shape _ _ _ _ _ _ _ _ g d); try done; lia.
Qed.

Lemma serve_read ph cs w g a area ci off len s :
  let data := take (Z.to_nat len) (drop (Z.to_nat off) (contents s ph ci)) in
  cluster ph cs w -> 0 <= g < ranks w -> mem w !! a = Some area ->
  0 <= off -> 0 <= len < 2 ^ 32 -> len <= Z.of_nat (length area) ->
  stores w !! Z.to_nat (route ph ci (ranks w)) = Some s ->
  exists w', serve g a w (Read ph ci off len) = Some (w', Ok (ReadOk (Z.of_nat (length data)))) /\
    cluster ph cs w' /\ stores w' = stores w /\ ranks w' = ranks w /\
    mem w' = <[a := write_bytes area 0 data]> (mem w).
Proof.
  intros data Hc Hg Hm Ho Hlen Hla Hs. pose proof (cl_ranks _ _ _ Hc) as Hrk.
  set (target := route ph ci (ranks w)) in *.
  pose proof (route_range ph ci (ranks w) ltac:(lia)) as Ht. fold target in Ht.
  destruct (cluster_daemon _ _ _ g Hc Hg) as [d Hd].
  destruct (cluster_fields _ _ _ _ _ Hc Hg Hd) as (E1 & E2 & E3 & E4 & E5 & _).
  destruct (cluster_daemon _ _ _ target Hc Ht) as [dt Hdt].
  destruct (cluster_fields _ _ _ _ _ Hc Ht Hdt) as (_ & _ & _ & F4 & F5 & _).
  rewrite (stores_lookup _ _ _ Hdt) in Hs. injection Hs as <-.
  destruct (cl_store _ _ _ Hc target dt ltac:(lia) Hdt) as [[caps Hok] Hcs].
  assert (Z.of_nat (length data) < 2 ^ 32) as Hdl by (unfold data; rewrite length_take; lia).
  unfold serve. rewrite (turn_at_eq g _ w d Hd), turn_ipc by done. unfold on_ipc, ipc_read.
  rewrite E1, E2. fold target. destruct (Z.eqb_spec target g) as [Eg|Hne].
  - assert (dt = d) as -> by (rewrite Eg in Hdt; congruence).
    rewrite Hm. cbn [mbind option_bind]. rewrite slice_0 by lia. cbn [mbind option_bind].
    rewrite (read_contents caps) by done. fold data. rewrite u32_small by lia.
    eexists. split; [done|].
    assert (set_daemon g d w = w) as ->.
    { destruct w. unfold set_daemon. cbn. f_equal. by apply list_insert_id. }
    split_and!; try done. by apply cluster_mem.
  - destruct (forward_reaches ph cs w g d 0 target (RemoteRead ph ci off len (mkMr 0 a))
                (PendingRead 0) 64 Hc Hg Hd Ht Hne) as (ep & Ef & Ep).
    cbn [fmap option_fmap option_map]. rewrite Ef. cbn [mbind option_bind].
    assert (set_mem (mem w) (set_daemon g d w) = w) as ->.
    { destruct w. unfold set_mem, set_daemon. cbn. f_equal. by apply list_insert_id. }
    rewrite Ep. cbn [mbind option_bind].
    destruct (serve_remote_read target ph ci off len w dt area a 0) as (d' & Es & Hsh & Hst); try done.
    { rewrite F5. apply Z.ltb_lt. lia. }
    { by exists caps. }
    fold data in Es. rewrite Es. cbn [mbind option_bind].
    set (w1 := set_mem (<[a := write_bytes area 0 data]> (mem w)) (set_daemon target d' w)).
    assert (cluster ph cs w1) as Hc1.
    { apply cluster_mem, (cluster_set ph cs w target dt); rewrite ?Hst; (done || lia || by exists caps). }
    assert (stores w1 = stores w) as Hs1 by by apply (stores_set_same target dt).
    assert (daemon w1 g = Some d) as Hd1 by (exact (eq_trans (daemon_set_ne target g d' w ltac:(lia) ltac:(lia) Hne) Hd)).
    rewrite (turn_at_eq g _ _ d Hd1), turn_response by done.
    cbn [on_response Z.eqb fst snd mbind option_bind].
    assert (set_mem (mem w1) (set_daemon g d w1) = w1) as ->.
    { rewrite set_mem_set_daemon. destruct w1. unfold set_daemon. cbn. f_equal. by apply list_insert_id. }
    exists w1. by split_and!.
Qed.

(** ** Files *)

(** The byte at position [p] of the file: in chunk [p / cs], on that chunk's daemon. *)
Definition file_byte (ph cs : Z) (w : World) (p : Z) : option Z :=
  s ← stores w !! Z.to_nat (route ph (p / cs) (ranks w));
  contents s ph (p / cs) !! Z.to_nat (p mod cs).

(** A write of one piece, on the bytes of the file. *)
Lemma wrote_bytes ph cs ci off data k w w' :
  0 < cs -> cluster ph cs w -> 0 <= ci -> 0 <= off -> off + Z.of_nat (length data) <= cs ->
  wrote ph cs ci off data k w w' ->
  (forall i b, data !! i = Some b -> file_byte ph cs w' (ci * cs + off + Z.of_nat i) = Some b) /\
  (forall p b, 0 <= p -> file_byte ph cs w p = Some b ->
     p < ci * cs + off \/ ci * cs + off + Z.of_nat (length data) <= p -> file_byte ph cs w' p = Some b).
Proof.
  intros Hcs Hc Hci Ho Hlen [H1 H2 H3 H4 (s & s' & Hs & Hw & Hst)].
  assert (exists caps, store_ok caps s) as (caps & Hok).
  { unfold stores in Hs. rewrite list_lookup_fmap in Hs.
    destruct (daemons w !! _) as [d|] eqn:Hd; [|done]. injection Hs as <-.
    apply (cl_store _ _ _ Hc (route ph ci (ranks w)) d); [|done].
    apply route_range. apply (cl_ranks _ _ _ Hc). }
  destruct (write_contents _ _ _ _ _ _ _ Hok Ho Hw) as (_ & _ & Hin & Hout & Hother).
  pose proof (lookup_lt_Some _ _ _ Hs) as Hlt. unfold file_byte. rewrite H2, Hst. split.
  - intros i b Hi. pose proof (lookup_lt_Some _ _ _ Hi).
    assert ((ci * cs + off + Z.of_nat i) / cs = ci) as -> by (symmetry; apply (Z.div_unique_pos _ _ _ (off + Z.of_nat i)); lia).
    assert ((ci * cs + off + Z.of_nat i) mod cs = off + Z.of_nat i) as ->
      by (symmetry; apply (Z.mod_unique_pos _ _ ci); lia).
    rewrite list_lookup_insert_eq by done. cbn. rewrite <-(Hin i b Hi). f_equal. lia.
  - intros p b Hp Hb Hne. pose proof (Z.div_mod p cs ltac:(lia)) as Hdm.
    pose proof (Z.mod_pos_bound p cs Hcs) as Hmb.
    destruct (stores w !! Z.to_nat (route ph (p / cs) (ranks w))) as [s0|] eqn:Hs0; [|done]. cbn in Hb.
    destruct (decide (p / cs = ci)) as [Eci|Hci'].
    + rewrite Eci in *. rewrite Hs in Hs0. injection Hs0 as <-. rewrite list_lookup_insert_eq by done. cbn.
      apply Hout; [done|]. lia.
    + destruct (decide (Z.to_nat (route ph (p / cs) (ranks w)) = Z.to_nat (route ph ci (ranks w)))) as [Er|Hr].
      * rewrite Er in Hs0 |- *. rewrite Hs in Hs0. injection Hs0 as <-.
        rewrite list_lookup_insert_eq by done. cbn. rewrite Hother; [done|]. congruence.
      * rewrite list_lookup_insert_ne, Hs0 by done. done.
Qed.

(** *** The loops of the client *)

(** Chunks that [n] bytes from position [off] touch. *)
Definition chunks (cs off n : Z) : Z := if n =? 0 then 0 else (off + n - 1) / cs - off / cs + 1.

Section Clients.
Context (ph cs : Z) (Hcs : 0 < cs < 2 ^ 32).

(** A client of daemon [g]: its chunk size is the file's, its data area holds a
    chunk, as [main] insists. *)
Record client_ok (c : Client) (g a : Z) (w : World) : Prop := mkClientOk {
  co_chunk : chunk_size c = cs;
  co_cap : cs <= data_capacity c;
  co_daemon : 0 <= g < ranks w;
  co_area : exists area, mem w !! a = Some area /\ Z.of_nat (length area) = data_capacity c;
}.

Lemma client_ok_mem c g a w w' a' area :
  client_ok c g a w -> ranks w' = ranks w -> mem w' = <[a' := area]> (mem w) ->
  (a' = a -> Z.of_nat (length area) = data_capacity c) -> client_ok c g a w'.
Proof.
  intros [H1 H2 H3 (area0 & H4 & H5)] Hr Hm Hl. split; try done.
  - by rewrite Hr.
  - rewrite Hm. destruct (decide (a' = a)) as [->|Hne].
    + exists area. rewrite lookup_insert_eq. by split; [|apply Hl].
    + exists area0. by rewrite lookup_insert_ne.
Qed.

(** The next piece, in a chunk. *)
Lemma piece_spec c g a w off n :
  client_ok c g a w -> 0 <= off -> 0 < n -> off + n <= 2 ^ 32 * cs ->
  exists m, piece c off n = (off / cs, off mod cs, m) /\ 0 < m <= n /\ m <= cs /\
    0 <= off mod cs /\ off mod cs + m <= cs /\ 0 <= off / cs < 2 ^ 32 /\ off / cs * cs + off mod cs = off /\
    chunks cs off n = chunks cs (off + m) (n - m) + 1.
Proof.
  intros [Hcc Hcap _ _] Ho Hn Hmax. unfold piece. rewrite Hcc.
  pose proof (Z.div_mod off cs ltac:(lia)) as Hdm. pose proof (Z.mod_pos_bound off cs ltac:(lia)) as Hmb.
  assert (0 <= off / cs < 2 ^ 32) as Hq by nia. rewrite u32_small by done.
  set (m := Z.min (Z.min n (cs - off mod cs)) (data_capacity c)).
  assert (0 < m <= n /\ m <= cs /\ off mod cs + m <= cs) as (Hm & Hmc & Hmo) by lia.
  exists m. split_and!; try (done || lia).
  unfold chunks. rewrite (proj2 (Z.eqb_neq n 0)) by lia.
  destruct (decide (m = n)) as [->|Hmn].
  - rewrite Z.sub_diag. cbn. assert ((off + n - 1) / cs = off / cs) as ->; [|lia].
    symmetry. apply (Z.div_unique_pos _ _ _ (off mod cs + n - 1)); lia.
  - assert (off mod cs + m = cs) as Em by lia. rewrite (proj2 (Z.eqb_neq _ 0)) by lia.
    replace (off + m + (n - m) - 1) with (off + n - 1) by lia.
    assert ((off + m) / cs = off / cs + 1) as ->; [|lia].
    symmetry. apply (Z.div_unique_pos _ _ _ 0); lia.
Qed.

Lemma chunks_nonneg off n : 0 <= off -> 0 <= n -> 0 <= chunks cs off n.
Proof.
  intros Ho Hn. unfold chunks. destruct (Z.eqb_spec n 0); [done|].
  assert (off / cs <= (off + n - 1) / cs) by (apply Z.div_le_mono; lia). lia.
Qed.

Lemma take_written (area data : list Z) :
  (length data <= length area)%nat ->
  take (length data) (write_bytes area 0 data) = data /\ length (write_bytes area 0 data) = length area.
Proof.
  intros Hl. rewrite length_write_bytes by lia. split; [|done].
  pose proof (read_write_same area 0 data ltac:(lia)) as H. unfold read_bytes in H. by rewrite drop_0 in H.
Qed.

(** What the loop of [pwrite] has done. *)
Record file_written (off : Z) (data : list Z) (a : Z) (w w' : World) : Prop := mkFileWritten {
  fw_cluster : cluster ph cs w';
  fw_ranks : ranks w' = ranks w;
  fw_mem : exists area', mem w' = <[a := area']> (mem w) /\ length area' = length (data_of a w);
  fw_in : forall i b, data !! i = Some b -> file_byte ph cs w' (off + Z.of_nat i) = Some b;
  fw_out : forall p b, 0 <= p -> file_byte ph cs w p = Some b ->
    p < off \/ off + Z.of_nat (length data) <= p -> file_byte ph cs w' p = Some b;
}.

Lemma pwrite_loop_spec c g a fuel : forall rest written off w,
  cluster ph cs w -> client_ok c g a w ->
  rooms (chunks cs off (Z.of_nat (length rest))) cs w ->
  0 <= off -> off + Z.of_nat (length rest) <= 2 ^ 32 * cs -> (length rest < fuel)%nat ->
  exists w', pwrite_loop (serve g a) (data_of a) (put_data_of a) fuel c ph rest written off w
      = Some (w', Ok (written + Z.of_nat (length rest))) /\
    file_written off rest a w w'.
Proof.
  induction fuel as [|fuel IH]; intros rest written off w Hc Hco Hr Ho Hmax Hf; [lia|].
  cbn [pwrite_loop]. destruct (Z.eqb_spec (Z.of_nat (length rest)) 0) as [E|Hne].
  { destruct rest; [|done]. exists w. split; [do 3 f_equal; cbn; lia|].
    destruct (co_area _ _ _ _ Hco) as (area & Hm & _).
    split; try done. exists area. unfold data_of. rewrite Hm. by rewrite insert_id. }
  destruct (piece_spec c g a w off (Z.of_nat (length rest)) Hco Ho ltac:(lia) Hmax)
    as (m & Ep & Hm & Hmc & Hmod & Hmo & Hq & Hdm & Hch).
  rewrite Ep. set (n := Z.to_nat m).
  destruct (co_area _ _ _ _ Hco) as (area & Harea & Hla). pose proof (co_cap _ _ _ _ Hco) as Hcap.
  assert (length (take n rest) = n) as Hn by (rewrite length_take; lia).
  assert (data_of a w = area) as Eda by (unfold data_of; by rewrite Harea). rewrite Eda.
  destruct (take_written area (take n rest) ltac:(lia)) as [Htw Hlw].
  set (w1 := put_data_of a (write_bytes area 0 (take n rest)) w).
  assert (cluster ph cs w1) as Hc1 by by apply cluster_mem.
  rewrite (u32_small (off mod cs)), (u32_small m) by lia.
  destruct (serve_write ph cs w1 g a (write_bytes area 0 (take n rest)) (off / cs) (off mod cs) (take n rest)
              (chunks cs (off + m) (Z.of_nat (length rest) - m))) as (w2 & Es & Hwr).
  { done. }
  { rewrite <-Hch. exact Hr. }
  { apply chunks_nonneg; lia. }
  { apply (co_daemon _ _ _ _ Hco). }
  { cbn. apply lookup_insert_eq. }
  { rewrite Hlw. lia. }
  { done. }
  { done. }
  { lia. }
  rewrite Hn in Es. replace (Z.of_nat n) with m in Es by lia. rewrite Es. cbn [mbind option_bind expect_ok].
  destruct (wrote_bytes ph cs (off / cs) (off mod cs) (take n rest) _ w1 w2 ltac:(lia) Hc1 ltac:(lia) Hmod
              ltac:(lia) Hwr) as [Hin Hout].
  rewrite Hdm in Hin, Hout.
  assert (mem w2 = <[a := write_bytes area 0 (take n rest)]> (mem w)) as Hm2 by (rewrite (wr_mem _ _ _ _ _ _ _ _ Hwr); done).
  assert (ranks w2 = ranks w) as Hr2 by (rewrite (wr_ranks _ _ _ _ _ _ _ _ Hwr); done).
  assert (length (drop n rest) = length rest - n)%nat as Hld by apply length_drop.
  destruct (IH (drop n rest) (written + m) (off + m) w2) as (w3 & E3 & [G1 G2 (area3 & G3 & G3') G4 G5]).
  { apply Hwr. }
  { apply (client_ok_mem c g a w w2 a _ Hco Hr2 Hm2). intros _. lia. }
  { rewrite Hld. replace (Z.of_nat (length rest - n)) with (Z.of_nat (length rest) - m) by lia. apply Hwr. }
  { lia. }
  { lia. }
  { lia. }
  rewrite E3. exists w3. split; [do 3 f_equal; lia|].
  assert (data_of a w2 = write_bytes area 0 (take n rest)) as Ed2
    by (unfold data_of; rewrite Hm2, lookup_insert_eq; done).
  split; try done.
  - congruence.
  - exists area3. rewrite G3, Hm2, insert_insert_eq. split; [done|]. rewrite G3', Ed2, Eda. lia.
  - intros i b Hi. destruct (decide (i < n)%nat) as [Hlt|Hge].
    + apply G5; [lia| |lia]. apply Hin. by rewrite lookup_take_lt.
    + specialize (G4 (i - n)%nat b). rewrite lookup_drop in G4.
      replace (off + m + Z.of_nat (i - n)) with (off + Z.of_nat i) in G4 by lia. apply G4.
      rewrite <-Hi. f_equal. lia.
  - intros p b Hp Hb Hpo. apply G5; [done| |lia]. apply Hout; [done|exact Hb|lia].
Qed.

Lemma pread_loop_spec c g a len fuel : forall want acc off w,
  cluster ph cs w -> client_ok c g a w ->
  len = Z.of_nat (length acc + length want) ->
  0 <= off -> off + Z.of_nat (length want) <= 2 ^ 32 * cs -> (length want < fuel)%nat ->
  (forall i b, want !! i = Some b -> file_byte ph cs w (off + Z.of_nat i) = Some b) ->
  exists w', pread_loop (serve g a) (data_of a) fuel c ph len acc off w = Some (w', Ok (acc ++ want)) /\
    cluster ph cs w' /\ stores w' = stores w /\ ranks w' = ranks w.
Proof.
  induction fuel as [|fuel IH]; intros want acc off w Hc Hco El Ho Hmax Hf Hwant; [lia|].
  cbn [pread_loop]. destruct (Z.leb_spec len (Z.of_nat (length acc))) as [Hle|Hgt].
  { assert (want = []) as -> by (apply nil_length_inv; lia). exists w. by rewrite app_nil_r. }
  replace (len - Z.of_nat (length acc)) with (Z.of_nat (length want)) by lia.
  destruct (piece_spec c g a w off (Z.of_nat (length want)) Hco Ho ltac:(lia) Hmax)
    as (m & Ep & Hm & Hmc & Hmod & Hmo & Hq & Hdm & _).
  rewrite Ep. set (n := Z.to_nat m).
  destruct (co_area _ _ _ _ Hco) as (area & Harea & Hla). pose proof (co_cap _ _ _ _ Hco) as Hcap.
  rewrite (u32_small (off mod cs)), (u32_small m) by lia.
  pose proof (cl_ranks _ _ _ Hc) as Hrk. pose proof (route_range ph (off / cs) (ranks w) ltac:(lia)) as Hrt.
  destruct (cluster_daemon _ _ _ _ Hc Hrt) as [d Hd]. pose proof (stores_lookup _ _ _ Hd) as Hs.
  destruct (serve_read ph cs w g a area (off / cs) (off mod cs) m (store d)) as (w1 & Es & Hc1 & Hs1 & Hr1 & Hm1);
    try done; try lia.
  { apply (co_daemon _ _ _ _ Hco). }
  set (data := take (Z.to_nat m) (drop (Z.to_nat (off mod cs)) (contents (store d) ph (off / cs)))) in *.
  assert (data = take n want) as Edata.
  { apply list_eq. intros i. destruct (decide (i < n)%nat) as [Hi|Hi].
    - unfold data. rewrite !lookup_take_lt, lookup_drop by lia.
      destruct (lookup_lt_is_Some_2 want i) as [b Hb]; [lia|]. rewrite Hb.
      pose proof (Hwant i b Hb) as Hfb. unfold file_byte in Hfb.
      assert ((off + Z.of_nat i) / cs = off / cs) as E1
        by (symmetry; apply (Z.div_unique_pos _ _ _ (off mod cs + Z.of_nat i)); lia).
      assert ((off + Z.of_nat i) mod cs = off mod cs + Z.of_nat i) as E2
        by (symmetry; apply (Z.mod_unique_pos _ _ (off / cs)); lia).
      rewrite E1, E2, Hs in Hfb. cbn in Hfb. rewrite <-Hfb. f_equal. lia.
    - unfold data. rewrite !lookup_take_ge by lia. done. }
  assert (length data = n) as Hn by (rewrite Edata, length_take; lia).
  rewrite Es. cbn [mbind option_bind]. rewrite Hn. replace (Z.of_nat n) with m by lia.
  rewrite (proj2 (Z.ltb_ge _ _)) by lia. rewrite Z.ltb_irrefl. fold n.
  destruct (take_written area data ltac:(lia)) as [Htw Hlw].
  assert (take n (data_of a w1) = take n want) as ->.
  { unfold data_of. rewrite Hm1, lookup_insert_eq. cbn. rewrite <-Edata, <-Hn at 1. exact Htw. }
  destruct (IH (drop n want) (acc ++ take n want) (off + m) w1) as (w2 & E2 & G1 & G2 & G3).
  { done. }
  { apply (client_ok_mem c g a w w1 a _ Hco Hr1 Hm1). intros _. lia. }
  { rewrite length_app, length_take, length_drop. lia. }
  { lia. }
  { rewrite length_drop. lia. }
  { rewrite length_drop. lia. }
  { intros i b Hi. rewrite lookup_drop in Hi. specialize (Hwant _ _ Hi). unfold file_byte in *.
    rewrite Hs1, Hr1. replace (off + m + Z.of_nat i) with (off + Z.of_nat (n + i)) by lia. exact Hwant. }
  rewrite E2, <-app_assoc, take_drop. exists w2. split_and!; try done; congruence.
Qed.

End Clients.

(** A fresh cluster serves every file. *)
Lemma start_cluster ph n rs cs m :
  0 < n < 2 ^ 32 -> 0 <= cs -> cluster ph cs (start n 1 rs cs m).
Proof.
  intros Hn Hcs.
  assert (forall g d, 0 <= g -> daemon (start n 1 rs cs m) g = Some d ->
    d = start_daemon g n 0 1 (store_new rs cs)) as Hd.
  { intros g d Hg. unfold daemon, start. cbn. rewrite Z.mul_1_r, list_lookup_fmap.
    destruct (seqZ 0 n !! Z.to_nat g) as [x|] eqn:E; [|done]. cbn.
    apply lookup_seqZ in E as [-> _]. intros [= <-]. rewrite Z.add_0_l, Z2Nat.id by lia.
    by rewrite Z.div_1_r, Z.mod_1_r. }
  split; cbn; try done.
  - rewrite length_fmap, length_seqZ. lia.
  - intros g d Hg ->%Hd; done.
  - intros g d Hg ->%Hd; [|done]. cbn. split; [exists ∅; by apply store_new_ok|].
    unfold effective_chunk_size. cbn. by rewrite lookup_empty.
Qed.

Lemma start_rooms k n rs cs m :
  0 <= n -> k * cs <= Z.of_nat (length rs) -> rooms k cs (start n 1 rs cs m).
Proof.
  intros Hn Hk. unfold rooms, stores, start. cbn. rewrite <-list_fmap_compose.
  apply Forall_fmap, Forall_true. intros g. unfold room, region_len. cbn. lia.
Qed.

(** C11: Files are read as they were written, from anywhere.  In a cluster with one
    daemon per node, a client of any daemon writes any number of bytes at any
    position of a file, and a client of any daemon - another one or the same - that
    reads there afterwards gets exactly these bytes: the pieces the writer cuts at
    chunk boundaries reach the daemon of each chunk, directly or over the network
    and by RDMA, and come back from there.  Both operations end, one request per
    chunk; bytes of the file outside the range keep their values.  The stores must
    have room for the chunks that are new and agree on the file's chunk size. *)
Theorem file_write_read ph cs w c1 g1 a1 fd1 c2 g2 a2 fd2 buf off :
  let len := Z.of_nat (length buf) in
  0 < cs < 2 ^ 32 -> cluster ph cs w ->
  client_ok cs c1 g1 a1 w -> client_ok cs c2 g2 a2 w ->
  fd_path_hash fd1 c1 = Ok ph -> fd_path_hash fd2 c2 = Ok ph ->
  0 <= off -> off + len <= 2 ^ 32 * cs -> rooms (chunks cs off len) cs w ->
  exists w1 w2,
    pwrite (serve g1 a1) (data_of a1) (put_data_of a1) (S (length buf)) fd1 buf off c1 w
      = Some (w1, Ok len) /\
    pread (serve g2 a2) (data_of a2) (S (length buf)) fd2 len off c2 w1 = Some (w2, Ok buf) /\
    forall p b, 0 <= p -> file_byte ph cs w p = Some b -> p < off \/ off + len <= p ->
      file_byte ph cs w2 p = Some b.
Proof.
  intros len Hcs Hc H1 H2 Hf1 Hf2 Ho Hmax Hr.
  destruct (pwrite_loop_spec ph cs Hcs c1 g1 a1 (S (length buf)) buf 0 off w Hc H1 Hr Ho Hmax ltac:(lia))
    as (w1 & E1 & [G1 G2 (area' & G3 & G3') G4 G5]).
  assert (client_ok cs c2 g2 a2 w1) as H2'.
  { eapply client_ok_mem; [done..|]. intros ->. rewrite G3'.
    destruct (co_area _ _ _ _ _ H2) as (area & E & <-). unfold data_of. by rewrite E. }
  destruct (pread_loop_spec ph cs Hcs c2 g2 a2 len (S (length buf)) buf [] off w1) as (w2 & E2 & F1 & F2 & F3);
    try done; try lia.
  exists w1, w2. unfold pwrite, pread. rewrite Hf1, Hf2, E1, E2. split_and!; try done.
  intros p b Hp Hb Hout. unfold file_byte. rewrite F2, F3. by apply G5.
Qed.

(** ** More daemons per node *)

(** C38: With several daemons per node, requests do not reach the daemon that
    [route] names.  A daemon has one endpoint per other rank, which leads to the
    daemon of its own local number there, and none to its own rank: a request for
    a daemon of the same rank is refused with code [-2], and any other reaches the
    named daemon only when the two local numbers are the same. *)
Theorem local_number_decides rank n id per s t target req op k :
  0 <= rank < n -> n < 2 ^ 32 -> 0 <= id < per -> 0 <= target < n * per -> target <> rank * per + id ->
  let d := start_daemon rank n id per s in
  if decide (target / per = rank)
  then forward (fun _ _ => None) t target (Some req) op k d = [IpcReply t (Daemon.FsError (-2))]
  else exists ep reached,
    forward (fun _ _ => None) t target (Some req) op k d = [Call ep req op k] /\
    (forall rs cap m, peer (start n per rs cap m) (rank * per + id) ep = Some reached) /\
    (reached = target <-> target mod per = id).
Proof.
  intros Hrank Hn Hid Ht Hne d.
  pose proof (Z.div_mod target per ltac:(lia)) as Hdm. pose proof (Z.mod_pos_bound target per ltac:(lia)) as Hmb.
  assert (0 <= target / per < n) as Hq by nia.
  assert (u32 (target / per) = target / per) as Eu by (apply u32_small; lia).
  unfold forward, global_to_local. change (daemons_per_node d) with per. rewrite Eu. case_decide as Hhome.
  - rewrite Hhome. unfold d. by rewrite no_endpoint_home.
  - destruct (endpoint_of rank n id per s (target / per) Hq Hhome) as (ep & E1 & E2).
    exists ep, (target / per * per + id). fold d in E1. rewrite E1. split_and!; [done| |lia].
    intros rs cap m. unfold peer. cbn [start ranks per_node].
    assert ((rank * per + id) / per = rank) as -> by (symmetry; apply (Z.div_unique_pos _ _ _ id); lia).
    assert ((rank * per + id) mod per = id) as -> by (symmetry; apply (Z.mod_unique_pos _ _ rank); lia).
    by rewrite E2.
Qed.

(** ** Runs *)

Definition demo_mem : Mem := {[100 := replicate 16 0; 200 := replicate 16 0]}.
Definition demo_client (cs : Z) (path : list Z) : Client := (open path (connect cs 4112)).1.

(** Client 100 is at daemon [g], client 200 at daemon [g']. *)
Definition demo_write (g a cs : Z) (path buf : list Z) (off : Z) (w : World) : option (World * result Z FsError) :=
  pwrite (serve g a) (data_of a) (put_data_of a) 30 0 buf off (demo_client cs path) w.
Definition demo_read (g a cs : Z) (path : list Z) (len off : Z) (w : World)
    : option (result (list Z) FsError) :=
  '(_, r) ← pread (serve g a) (data_of a) 30 0 len off (demo_client cs path) w; Some r.

(** Two daemons on each of two nodes: the bytes that daemon 0 has accepted for the
    file named "c" are not found at daemon 3, which stores them according to [route]. *)
Lemma misrouted_write_lost :
  exists w', demo_write 0 100 8 [99] [1; 2; 3] 0 (start 2 2 (replicate 64 0) 8 demo_mem) = Some (w', Ok 3) /\
    route (koyama_hash [99]) 0 4 = 3 /\
    demo_read 3 200 8 [99] 3 0 w' = Some (Ok []) /\ demo_read 0 100 8 [99] 3 0 w' = Some (Ok [1; 2; 3]).
Proof. eexists. split; [vm_compute; reflexivity|]. by split_and!; vm_compute. Qed.

(** Three daemons: of 23 bytes written, the size of the file counts the first chunk,
    because only the daemon with the metadata updates it, when it serves or forwards
    the write itself. *)
Lemma stat_misses_chunks :
  exists w1 w2 w3 h,
    create (serve 0 100) [97] 0 (demo_client 8 [97]) (start 3 1 (replicate 64 0) 8 demo_mem) = Some (w1, Ok tt) /\
    demo_write 0 100 8 [97] (seqZ 1 23) 0 w1 = Some (w2, Ok 23) /\
    demo_read 2 200 8 [97] 23 0 w2 = Some (Ok (seqZ 1 23)) /\
    stat (serve 0 100) [97] w2 = Some (w3, Ok h) /\ i_size h = 8.
Proof.
  do 4 eexists. split; [vm_compute; reflexivity|]. split; [vm_compute; reflexivity|].
  split; [vm_compute; reflexivity|]. split; [vm_compute; reflexivity|vm_compute; reflexivity].
Qed.

(** The chunk size of a file is registered with the daemon of its first chunk only.
    With chunks larger than the default of the daemons, a write to another daemon
    leaves its chunk: the next file stored there is in the way, and the first file
    is read back with the other's bytes in it. *)
Lemma chunk_size_known_to_one :
  exists w1 w2 w3,
    create (serve 1 100) [97] 0 (demo_client 16 [97]) (start 2 1 (replicate 64 0) 8 demo_mem) = Some (w1, Ok tt) /\
    demo_write 1 100 16 [97] (replicate 16 1) 16 w1 = Some (w2, Ok 16) /\
    demo_write 1 100 8 [98] (replicate 8 2) 0 w2 = Some (w3, Ok 8) /\
    demo_read 1 100 16 [97] 16 16 w3 = Some (Ok (replicate 8 1 ++ replicate 8 2)).
Proof.
  do 3 eexists. split; [vm_compute; reflexivity|]. split; [vm_compute; reflexivity|].
  split; [vm_compute; reflexivity|vm_compute; reflexivity].
Qed.

Lemma file_write_read_witness :
  let w := start 3 1 (replicate 64 0) 8 demo_mem in
  exists w1 w2,
    pwrite (serve 0 100) (data_of 100) (put_data_of 100) 21 0 (seqZ 1 20) 3 (demo_client 8 [97]) w
      = Some (w1, Ok 20) /\
    pread (serve 2 200) (data_of 200) 21 0 20 3 (demo_client 8 [97]) w1 = Some (w2, Ok (seqZ 1 20)).
Proof.
  intros w.
  destruct (file_write_read 97 8 w (demo_client 8 [97]) 0 100 0 (demo_client 8 [97]) 2 200 0 (seqZ 1 20) 3)
    as (w1 & w2 & H1 & H2 & _).
  - lia.
  - apply start_cluster; lia.
  - split; [reflexivity|vm_compute; congruence|split; [vm_compute; congruence|reflexivity]|].
    exists (replicate 16 0). split; reflexivity.
  - split; [reflexivity|vm_compute; congruence|split; [vm_compute; congruence|reflexivity]|].
    exists (replicate 16 0). split; reflexivity.
  - reflexivity.
  - reflexivity.
  - lia.
  - vm_compute. congruence.
  - apply start_rooms; [lia|]. vm_compute. congruence.
  - exists w1, w2. by split.
Defined.

Lemma local_number_decides_witness :
  exists ep reached,
    forward (fun _ _ => None) 0 3 (Some (RemoteStat 99)) (PendingStat 0) 72
      (start_daemon 0 2 0 2 (store_new (replicate 64 0) 8)) = [Call ep (RemoteStat 99) (PendingStat 0) 72] /\
    reached <> 3.
Proof.
  pose proof (local_number_decides 0 2 0 2 (store_new (replicate 64 0) 8) 0 3 (RemoteStat 99) (PendingStat 0) 72
    ltac:(lia) ltac:(lia) ltac:(lia) ltac:(lia) ltac:(lia)) as H.
  cbn zeta in H. rewrite decide_False in H by (vm_compute; congruence).
  destruct H as (ep & reached & H1 & _ & H3). exists ep, reached. split; [exact H1|].
  intros E. apply H3 in E. vm_compute in E. congruence.
Defined.

End FsProps.
